(* ===== verification/_CoqProject ===== *)
-Q . S2P
Prelude.v
Text.v
FilterSyntax.v
FilterParse.v
FilterRoundTrip.v
FilterCanonical.v
FilterDefinition.v
FilterSemantics.v
FilterMeaning.v
MonoPath.v
FilterValidate.v
CommitMessage.v
GitPath.v
CanonicalJson.v
JsonNumbers.v
JsonSpelling.v
JsonTheorems.v
QueueTables.v
PushQueue.v
PushQueueInv.v
PushQueueSteps.v
PushQueueSpec.v
PushQueueTheorems.v
GitObjects.v
TreeSource.v
ViewMemo.v
ViewTree.v
FileTree.v
ViewShows.v
ViewTreeOps.v
ViewTreeExclude.v
ViewTreeOverlay.v
ViewTreeEval.v
ViewRegistered.v
ViewTreeDemo.v
ViewTreeTheorems.v
ViewCommit.v
ViewProject.v
ViewCatchUp.v
ViewCatchUpInv.v
ViewCatchUpBatch.v
ViewCatchUpTheorems.v
Similarity.v
TreeDiff.v
TreeDiffInv.v
TreeDiffTheorems.v
GitCommits.v
TrunkProvenance.v
MonoRefs.v
MonoTrees.v
MonoTreesTheorems.v
MonoRefsInv.v
MonoRefsTheorems.v
MonoAdvance.v
MonoAdvanceInv.v
MonoAdvanceTheorems.v
MonoDemo.v
PushQueueReaper.v
PushQueueReaperTheorems.v
TreeOps.v
TreeOpsInv.v
TreeSurgery.v
ImportLeaf.v
TrunkPush.v
PushQueueService.v
TrunkPushInv.v
TrunkLanding.v
PushServiceInv.v
PushServiceLive.v
PushServiceTheorems.v
PushServiceDemo.v
PushChain.v
PushChainTheorems.v
TrunkReceive.v
TrunkReceiveTheorems.v
TrunkReceiveDemo.v
SmartProtocol.v
SmartWire.v
SmartTheorems.v
PushAuth.v
