(* ===== verification/Prelude.v ===== *)
(** * mega2: a verification development

    mega2 is the server of a monorepo: it serves Git over HTTP and SSH, keeps one
    tree of directories under a single [main], shows parts of it as views, imports
    other repositories below a directory of their own, and serialises every change
    of [main] through a queue in the database.  The development models the parts of
    its Rust sources (under [src/]) that decide rather than transport: what is
    accepted, where it goes, in which order it is applied, and what is written back.

    ** Parts of the program and their files

    Shared.  This file has the automation, comparisons with [TotalCompare], sorting,
    deduplication and the [outcome] monad of code that may fail or panic.  Text.v has
    Rust strings as lists of Unicode scalar values and the part of the [str] and [char]
    API that the code calls; [utf8_compare] shows that the order used is the bytewise
    one.

    View filters, [src/ceres/view/filter].  A view is registered as a text in a small
    language of path operators.
      - FilterSyntax.v: data types of [mod.rs], the printer of [canonical.rs];
      - FilterParse.v: the recursive-descent parser of [parse.rs]; its fuel is a
        bound on the length of the text, and running out of it is a result of its own
        that the theorems exclude;
      - FilterRoundTrip.v: reading a printed filter;
      - FilterCanonical.v: [canonicalize], with the panic of [ViewPath::new] as [None];
      - FilterDefinition.v: [parse_for_registration] and [recheck_definition];
      - FilterSemantics.v: [invert], [src_paths] and the path computations of
        [semantics.rs];
      - FilterMeaning.v: the abstract specification, a relation [maps] between source
        and view paths, and the refinement theorems;
      - FilterValidate.v: the registration check of [validate.rs].

    Projection of trees, [src/ceres/view/tree.rs] and [tree_source.rs].
      - GitObjects.v: trees and hashes of the Git crate, as a class with its laws;
      - TreeSource.v: where trees are read from and how they are built;
      - ViewMemo.v: the memo of earlier results, within a budget of bytes;
      - ViewTree.v: the evaluation of a filter on a tree;
      - FileTree.v and ViewShows.v: the abstract specification, trees of files and the
        relation [shows] between a file of the source and its place in the view;
      - ViewTreeOps.v, ViewTreeExclude.v, ViewTreeOverlay.v, ViewTreeEval.v: the proof, operator by operator, in a logic of postconditions;
      - ViewRegistered.v: registered views do not clash;
      - ViewTreeDemo.v: a concrete object format; ViewTreeTheorems.v: the theorems.

    Projection of commits and catch-up, [src/ceres/view/commit.rs], [project.rs] and
    [src/jupiter/service/view_projection_service.rs].
      - ViewCommit.v: the commit of a view; ViewProject.v: what one commit becomes;
      - ViewCatchUp.v: the batches that bring a view up to date and the loop over them;
      - ViewCatchUpInv.v, ViewCatchUpBatch.v: the invariant of the
        commit map and the batches; ViewCatchUpTheorems.v: the theorems.

    Differences, [src/ceres/diff].  Similarity.v has the score of two contents,
    TreeDiff.v the comparison of two file lists with renames, TreeDiffInv.v and
    TreeDiffTheorems.v its theorems.

    The monorepo, [src/jupiter/storage/mono_storage.rs].
      - MonoRefs.v: the tables of references and tombstones and the statements on them;
      - MonoTrees.v: walking one path, and many paths level by level;
      - GitCommits.v: commits and trees as rows ([src/jupiter/utils/converter.rs]);
      - TrunkProvenance.v: author, committer and message of the commits that a change
        of the trunk makes ([src/ceres/pack/trunk_provenance.rs]);
      - MonoAdvance.v: moving the references below a changed directory;
      - MonoRefsInv.v, MonoAdvanceInv.v, MonoTreesTheorems.v, MonoRefsTheorems.v,
        MonoAdvanceTheorems.v: invariants and theorems; MonoDemo.v: a small monorepo.

    The write queue, [src/jupiter/storage/push_queue_storage.rs].  QueueTables.v has
    the tables and the SQL statements on them; PushQueue.v one definition per
    transaction; PushQueueInv.v the invariant of the tables and its preservation;
    PushQueueSteps.v the transactions as a step relation, with those that may commit
    between the statements of an admission; PushQueueSpec.v lemmas on admission,
    claims and requeues; PushQueueTheorems.v the theorems.  PushQueueReaper.v and
    PushQueueReaperTheorems.v are the recovery of crashed writes
    ([src/jupiter/service/push_queue_reaper.rs]) over the queue and the references.

    Paths, texts and URLs.  MonoPath.v models [canonicalize_mono_ref_path] of
    [src/common/utils.rs] and the policy of [src/ceres/pack/path_policy.rs] on
    creation, imports and writes; CommitMessage.v the object identifiers, commit
    messages and [LIKE] escapes of [src/common/utils.rs]; GitPath.v
    [src/contract/git_protocol/path.rs] and [src/ceres/view/name.rs]: the dispatch of a
    URL to a traces repository, a view or a native or imported repository, and the
    smart-protocol endpoints.

    Directory changes, [src/ceres/api_service/tree_ops.rs] and [mono_api_service/logic.rs].
      - TreeOps.v: replacing, inserting and removing an entry of a tree, the search of the
        trees above a path (with the creation of missing ones) and the rebuild up to the
        root; ImportLeaf.v: the removal of the directory of an import repository;
      - TreeOpsInv.v, TreeSurgery.v: well-formed trees, what a
        rebuilt chain leads to, and [surgery], the specification of a directory change.

    Trunk pushes and the queue service, [mono_api_service/merge.rs] and
    [src/jupiter/service/push_queue_service.rs].
      - TrunkPush.v: the descriptor of a push and [apply_push_in_txn];
      - PushQueueService.v: admission (B0), waiting (B2), the execution of a claimed round
        with the writer of pushes (B3), the conflict requeue (B4), the operator controls;
      - TrunkPushInv.v, TrunkLanding.v: what the write does to the
        references, [monorepo_ok], [landed_at];
      - PushServiceInv.v, PushServiceLive.v: rounds under interference, and rounds that
        succeed; PushServiceTheorems.v the theorems, PushServiceDemo.v a concrete push.

    Receiving a push, [src/ceres/pack].
      - PushChain.v: [push_chain.rs] and the commands of [src/ceres/protocol/import_refs.rs],
        the chain of commits that a push stands for and its validation;
        PushChainTheorems.v: its theorems;
      - TrunkReceive.v: the gate of [monorepo.rs] on a received push, with the cache of
        chains, and the lander of [api_tip_lander.rs], from admission to the last round;
      - TrunkReceiveTheorems.v: admission and claim on a server where nobody else writes, and
        the theorems; TrunkReceiveDemo.v a concrete receive.

    The smart protocol, [src/ceres/protocol].
      - SmartProtocol.v: packet lines, capabilities, the commands of a push and the checks
        on them, the handling of a push with its report ([smart.rs]), the advertisement of
        references, fetches of version 0, and [ls-refs] and [fetch] of version 2 ([v2.rs]);
        the repository is the
        record [RepoHandler], and [monorepo_handler] is the monorepo of TrunkReceive.v;
      - SmartWire.v: UTF-8 and packets read back, requests, the verdict on a command;
        SmartTheorems.v: the theorems, with a concrete push.

    Who may push, [src/contract/git_protocol/mod.rs] and [http.rs], [src/api/api_write_auth.rs].
      - PushAuth.v: the section of the configuration on pushes with its validation
        ([src/config]), the lookup of a token and its paths, the gates of pushes, of
        writes of the API, of Git LFS and of the OCI registry, the handler
        [git_receive_pack] of HTTP, and the theorems.

    Canonical JSON, [src/common/canonical_json.rs].  CanonicalJson.v is the parser,
    the writer and the number format; JsonNumbers.v has the decimals and the number
    format; JsonSpelling.v has the grammar as a relation and its equivalence with the
    parser; JsonTheorems.v has the theorems.  The fuel of the parser is one more than
    twice the length of the text, two calls for each character, proved sufficient.

    How they meet: an endpoint of GitPath.v names a view (registered through
    FilterDefinition.v and FilterValidate.v, which asks MonoPath.v about its source
    paths) or a path of the monorepo.  SmartProtocol.v reads a push to it and calls the
    repository: PushChain.v finds the
    commits it stands for, TrunkReceive.v decides on it (MonoPath.v says whether the path
    may be created) and enters it into the queue; the service of PushQueueService.v claims
    its row and executes it: TreeOps.v rebuilds the trees, TrunkPush.v writes the
    references of the path and above it in the tables of MonoRefs.v, MonoAdvance.v moves
    the references below it; the reaper repairs both when a writer has died.  Views follow [main] by catch-up, which projects each
    commit through ViewTree.v; validation is what excludes clashes there.  Canonical
    JSON fingerprints identify requests and events.

    ** What the theorems show

      - Filters: the parser is total and without panics; printing and parsing are
        inverse; the canonical form is a normal form, preserves the view, and
        identifies the filter in its stored definition, whose integrity check accepts
        what registration stored; [invert] and [src_paths] compute the relation
        exactly; a registered view is a one-to-one correspondence of paths outside the
        import namespace.
      - Projection: [filter_tree] returns the tree that shows exactly the files of the
        relation [shows], in normal form, whatever the memo holds; it stops only for a
        tree that is missing or a clash, and registered views have no clash; the memo
        stays right and within its budget.
      - Catch-up: every view stays in step with the chain of commits, a view that is
        reported ready is complete, and the loop over batches ends.
      - Differences: the result turns the old files into the new ones and says only what
        is true of them; similarity equals a reference definition.
      - Monorepo: references stay unique; the compare-and-swap of the root is exact;
        after an advance every reference below the path is where the new tree has it
        or has left a tombstone; the walk of many paths equals the walks of each; the
        check of an attach is exact.
      - Queue: an invariant of every reachable state; the admission decision, total
        under interference and equal to an ordered list of rules without it; exact
        and live claims; permanent results; requeues that happen once and can be
        followed to the live row; a cycle of the reaper settles every crashed write and
        is safe whatever it meets.
      - Paths: which paths may be created, imported and written, and that the tests on
        strings are tests on components; two defects of [canonicalize_mono_ref_path]
        are stated as theorems and findings.
      - URLs: spellings of view and traces locators are read back exactly; the
        isolation of the [.traces] namespace, with its one exception.
      - JSON: the accepted texts are exactly those of the grammar; the canonical text
        is a fixed point, determines the value, and does not depend on the order of
        members; number texts read back as the same float.

      - Directory changes: the new root has the new tree at the path and leads elsewhere to
        what the old root leads to; removing an import leaf removes only that directory and
        parents that become empty, and no file elsewhere.
      - Queue service: an admissible push lands, as a whole; a round is safe whatever other
        connections commit meanwhile and whatever fails; a waiter is told the truth about
        its request; a conflict loses no request.
      - Receiving: the chain of a push is found or refused in every case, and accepted
        when it is a linear chain within the limits, but for a new branch with an empty pack; a commit
        that a pusher is told has landed is that of a Done row of its push; on a quiet
        server a well-formed push lands, from the gate to the references; two pushes that
        the documents say are served and the gate refuses are theorems and findings.
      - Protocol: packets, requests and replies read back as they were written, with the
        exact bound on their length, which a long report exceeds (a finding); the passes
        over the commands are one verdict for each; what a reply reports as ok has landed,
        whatever happens meanwhile; on a quiet server the bytes of a push give the landing
        and the bytes of its report; a fetch of version 2 is answered as
        the protocol says, and one of version 0 exactly in the cases shown (two findings).
      - Credentials: a push is admitted exactly when it presents the secret of a token that
        grants the path by whole components; nothing changes without one; the other
        gates of writes agree; a secret with a colon is useless in a Basic header (a finding).

    ** Parameters, fuel and rounds

    Code outside the repository is an argument of the definitions that use it, with
    what its documentation says as a hypothesis where a theorem needs it: SHA-256
    ([sha256_hex]), base64 ([b64_decode]) and UUID ([uuid_parse]) decoding, the
    shortest decimal of a float ([format_finite]), the printing of dates
    ([format_datetime]).  The objects of the Git crate are the classes [GitObjects] and
    [GitCommits]; their laws [GitLaws] and [CommitLaws] say that texts of hashes read
    back, that a tree reads back from its data, and that equal hashes mean equal trees,
    as Git assumes.  [MemoCapacity] is the budget of the memo.  The order in which a
    [HashMap] or [HashSet] is visited and in which the database returns rows are the
    arguments [first_key], [iter_paths] and [row_order], with the laws [FirstKey],
    [SetOrder] and that of a permutation.  Closures of callers ([sign],
    [validate_replay]) and what another connection answers ([committed], locks) are
    arguments too.  Reading an [f64] is the correctly rounded conversion, computed with
    the Standard Library's [SpecFloat].

    Recursion along trees that are read ([overlay], [collect_output_trees], the
    projection of a commit) has fuel; it suffices when it exceeds the depth of the
    trees, and theorems that a result is returned state the bound.  The rounds of the
    prefetch of a batch are bounded by the number of trees that may be missing.

    For the queue service: [error_text] prints an error; [env] is what other connections
    commit between the reads and the writes of a round; the record [Publication] has the
    answers of the publication service; [PushExecContext] has the configuration, the
    signing key, the tables another connection reads, the generated placeholder, fresh
    identifiers and the clock; the writers of attach and merge rounds are functions that
    the dispatch is given.  The loop of [wait_and_claim] makes one turn for each element of
    its list of polls; when they are used up the caller still waits ([OutOfFuel]).

    The walk of a chain through the pack has the size of the pack as fuel, the walks
    through stored history the limit on commits, which the code itself checks; they never
    run out.  [follow_push_queue] makes at most 32 turns, as in the code; a turn is given
    what other connections do in it ([Round]).  Loops over the packets of a request have the
    length of the request as fuel, four bytes for each packet; they never run out.  The
    reading of packs ([unpack_stream], [receiver_handler]), the text of an error
    ([receive_error_text]) and the pack of a fetch ([FetchHandler]) are arguments; so are
    SHA-256, base64, the policy engine and the lookup of a user for the push gate, with the
    hypothesis [digest_exact] that the digest tells the presented secret from the others.

    ** What is not modelled

    I/O and its wiring (servers, routers, commands), errors of the database
    itself, pack encoding, traces, agent capture, OCI, notification and
    policy evaluation.  Of the queue service: the writers of
    attach, detach and merge rounds, which are as long as the whole of the trunk push and
    would need the tables of imports and change lists, the injections that exist only in
    tests, metrics, notifications and snapshots.  Of receiving: the review policy, which
    writes change lists instead of pushes.  The order of
    importance for more: those writers, the rest of the validation of the configuration, the
    Git LFS protocol, the serving of views. *)
From stdpp Require Import base tactics list sorting gmap.
From Stdlib Require Import Sorted.
From Stdlib Require Export ZifyBool.

(** ** Automation *)

(** The hint database of the development: preservation and ordering lemmas. *)
Create HintDb mega.

(** Reflects boolean connectives and comparisons of the code into propositions. *)
Ltac bool_prop :=
  repeat match goal with
  | H : _ && _ = true |- _ => apply andb_true_iff in H; destruct H
  | H : _ || _ = false |- _ => apply orb_false_iff in H; destruct H
  | H : _ || _ = true |- _ => apply orb_true_iff in H
  | H : _ && _ = false |- _ => apply andb_false_iff in H
  | H : negb _ = true |- _ => apply negb_true_iff in H
  | H : negb _ = false |- _ => apply negb_false_iff in H
  | H : bool_decide _ = true |- _ => apply bool_decide_eq_true in H
  | H : bool_decide _ = false |- _ => apply bool_decide_eq_false in H
  | H : N.eqb _ _ = true |- _ => apply N.eqb_eq in H
  | H : N.eqb _ _ = false |- _ => apply N.eqb_neq in H
  | H : Z.eqb _ _ = true |- _ => apply Z.eqb_eq in H
  | H : Z.eqb _ _ = false |- _ => apply Z.eqb_neq in H
  | H : Nat.eqb _ _ = true |- _ => apply Nat.eqb_eq in H
  | H : Nat.eqb _ _ = false |- _ => apply Nat.eqb_neq in H
  end.

(** Splits on every [match]/[if] of a hypothesis, discarding absurd branches. *)
Ltac break_in H :=
  repeat match type of H with
  | context [match ?x with _ => _ end] => destruct x eqn:?; simplify_eq
  end.

(** Splits on every [match]/[if] of the goal. *)
Ltac break_goal :=
  repeat match goal with
  | |- context [match ?x with _ => _ end] => destruct x eqn:?; simplify_eq/=
  end.

(** Rewrites the goal with the boolean facts of the context. *)
Ltac rw_bools :=
  repeat match goal with
  | H : ?b = true |- context [?b] => rewrite H
  | H : ?b = false |- context [?b] => rewrite H
  end.

(** ** Total comparison functions, the [Ord] of the source *)

Class TotalCompare {A} (cmp : A → A → comparison) : Prop := {
  cmp_eq : ∀ x y, cmp x y = Eq ↔ x = y;
  cmp_opp : ∀ x y, cmp y x = CompOpp (cmp x y);
  cmp_trans : ∀ x y z, cmp x y = Lt → cmp y z = Lt → cmp x z = Lt;
}.

Arguments cmp_eq {A} cmp {_} x y.
Arguments cmp_opp {A} cmp {_} x y.
Arguments cmp_trans {A} cmp {_} x y z.

Definition cmp_leb {A} (cmp : A → A → comparison) (x y : A) : bool :=
  match cmp x y with Gt => false | _ => true end.

(** Lexicographic comparison of sequences ([Ord] of [Vec<T>] and of [str]). *)
Fixpoint lex_compare {A} (cmp : A → A → comparison) (l k : list A) : comparison :=
  match l, k with
  | [], [] => Eq
  | [], _ :: _ => Lt
  | _ :: _, [] => Gt
  | x :: l', y :: k' =>
      match cmp x y with Eq => lex_compare cmp l' k' | c => c end
  end.

(** ** Stable sort by a key ([slice::sort_by_cached_key], [slice::sort]) *)

Section StableSort.
Context {A K : Type} (key : A → K) (cmp : K → K → comparison).

Definition key_le (x y : A) : Prop := cmp_leb cmp (key x) (key y) = true.

Fixpoint sort_insert (x : A) (l : list A) : list A :=
  match l with
  | [] => [x]
  | y :: l' => if cmp_leb cmp (key x) (key y) then x :: y :: l'
               else y :: sort_insert x l'
  end.

Fixpoint sort_by (l : list A) : list A :=
  match l with
  | [] => []
  | x :: l' => sort_insert x (sort_by l')
  end.
End StableSort.

(** ** Removal of consecutive repeats ([Vec::dedup]) *)

Section Dedup.
Context {A : Type} `{EqDecision A}.

Fixpoint dedup_from (x : A) (l : list A) : list A :=
  match l with
  | [] => [x]
  | y :: l' => if bool_decide (x = y) then dedup_from x l'
               else x :: dedup_from y l'
  end.

Definition dedup (l : list A) : list A :=
  match l with
  | [] => []
  | x :: l' => dedup_from x l'
  end.

(** No element equals its successor. *)
Fixpoint adjacent_distinct (l : list A) : Prop :=
  match l with
  | x :: ((y :: _) as l') => x ≠ y ∧ adjacent_distinct l'
  | _ => True
  end.
End Dedup.

(** ** Lemmas on comparisons *)

Section CompareLemmas.
Context {A : Type} (cmp : A → A → comparison) `{!TotalCompare cmp}.

Lemma cmp_refl x : cmp x x = Eq.
Proof. by apply (cmp_eq cmp). Qed.

Lemma cmp_gt_lt x y : cmp x y = Gt ↔ cmp y x = Lt.
Proof. rewrite (cmp_opp cmp x y). destruct (cmp x y); naive_solver. Qed.

Lemma cmp_leb_refl x : cmp_leb cmp x x = true.
Proof. unfold cmp_leb. by rewrite cmp_refl. Qed.

Lemma cmp_leb_total x y : cmp_leb cmp x y = false → cmp_leb cmp y x = true.
Proof.
  unfold cmp_leb. rewrite (cmp_opp cmp x y). by destruct (cmp x y).
Qed.

Lemma cmp_leb_antisym x y :
  cmp_leb cmp x y = true → cmp_leb cmp y x = true → x = y.
Proof.
  unfold cmp_leb. rewrite (cmp_opp cmp x y).
  destruct (cmp x y) eqn:E; try done. by intros; apply (cmp_eq cmp).
Qed.

Lemma cmp_leb_spec x y : cmp_leb cmp x y = true ↔ x = y ∨ cmp x y = Lt.
Proof.
  unfold cmp_leb. destruct (cmp x y) eqn:E; split; intros H; try done.
  - left. by apply (cmp_eq cmp).
  - by right.
  - destruct H as [->|]; [|done]. by rewrite cmp_refl in E.
Qed.

Lemma cmp_leb_trans x y z :
  cmp_leb cmp x y = true → cmp_leb cmp y z = true → cmp_leb cmp x z = true.
Proof.
  rewrite !cmp_leb_spec. intros [->|H1] [->|H2]; auto.
  right. by eapply (cmp_trans cmp).
Qed.
End CompareLemmas.

#[export] Hint Resolve cmp_leb_refl : mega.

#[export] Instance N_compare_total : TotalCompare N.compare.
Proof.
  split.
  - apply N.compare_eq_iff.
  - intros x y. apply N.compare_antisym.
  - intros x y z. rewrite !N.compare_lt_iff. lia.
Qed.

#[export] Instance Z_compare_total : TotalCompare Z.compare.
Proof.
  split.
  - apply Z.compare_eq_iff.
  - intros x y. apply Z.compare_antisym.
  - intros x y z. rewrite !Z.compare_lt_iff. lia.
Qed.

#[export] Instance lex_compare_total {A} (cmp : A → A → comparison)
  `{!TotalCompare cmp} : TotalCompare (lex_compare cmp).
Proof.
  split.
  - induction x as [|x l IH]; intros [|y k]; simpl; try done.
    destruct (cmp x y) eqn:E.
    + apply (cmp_eq cmp) in E as ->. rewrite IH. naive_solver.
    + split; [done|]. intros [= -> ->]. by rewrite (cmp_refl cmp) in E.
    + split; [done|]. intros [= -> ->]. by rewrite (cmp_refl cmp) in E.
  - induction x as [|x l IH]; intros [|y k]; simpl; try done.
    rewrite (cmp_opp cmp x y). destruct (cmp x y); simpl; auto.
  - induction x as [|x l IH]; intros [|y k] [|z m]; simpl; try done.
    destruct (cmp x y) eqn:E1; [|intros _|done].
    + apply (cmp_eq cmp) in E1 as ->. destruct (cmp y z); eauto.
    + destruct (cmp y z) eqn:E2; [intros _|intros _|done].
      * apply (cmp_eq cmp) in E2 as <-. by rewrite E1.
      * by rewrite (cmp_trans cmp _ _ _ E1 E2).
Qed.

(** ** Lemmas on the stable sort *)

Section SortLemmas.
Context {A K : Type} (key : A → K) (cmp : K → K → comparison).
Context `{!TotalCompare cmp}.
Abbreviation sorted := (StronglySorted (key_le key cmp)).

Lemma sort_insert_perm x l : Permutation (sort_insert key cmp x l) (x :: l).
Proof.
  induction l as [|y l IH]; simpl; [done|].
  destruct (cmp_leb cmp (key x) (key y)); [done|].
  rewrite IH. apply Permutation_swap.
Qed.

Lemma sort_by_perm l : Permutation (sort_by key cmp l) l.
Proof.
  induction l as [|x l IH]; simpl; [done|].
  by rewrite sort_insert_perm, IH.
Qed.

Lemma sort_by_length l : length (sort_by key cmp l) = length l.
Proof. by rewrite sort_by_perm. Qed.

Lemma sort_by_Forall (P : A → Prop) l :
  Forall P (sort_by key cmp l) ↔ Forall P l.
Proof. by rewrite sort_by_perm. Qed.

Lemma sort_insert_sorted x l : sorted l → sorted (sort_insert key cmp x l).
Proof.
  induction 1 as [|y l Hl IH Hy]; simpl; [repeat constructor|].
  destruct (cmp_leb cmp (key x) (key y)) eqn:E.
  - constructor; [by constructor|]. constructor; [done|].
    eapply Forall_impl; [done|]. intros z. unfold key_le.
    by apply cmp_leb_trans.
  - constructor; [done|]. rewrite sort_insert_perm.
    constructor; [|done]. by apply cmp_leb_total.
Qed.

Lemma sort_by_sorted l : sorted (sort_by key cmp l).
Proof.
  induction l as [|x l IH]; simpl; [constructor|]. by apply sort_insert_sorted.
Qed.

Lemma sort_by_id l : sorted l → sort_by key cmp l = l.
Proof.
  induction 1 as [|x l Hl IH Hx]; simpl; [done|]. rewrite IH.
  destruct Hx as [|y l Hy _]; simpl; [done|].
  unfold key_le in Hy. by rewrite Hy.
Qed.

Lemma sort_by_idemp l : sort_by key cmp (sort_by key cmp l) = sort_by key cmp l.
Proof. apply sort_by_id, sort_by_sorted. Qed.

(** Lists with distinct keys have one sorted order. *)
Lemma sort_by_unique l l' : Permutation l l' → NoDup (key <$> l) → sort_by key cmp l = sort_by key cmp l'.
Proof.
  intros Hp Hnd. apply (StronglySorted_unique_strong (key_le key cmp)); [|apply sort_by_sorted..|].
  - intros x y Hx Hy Hxy Hyx. rewrite sort_by_perm in Hx, Hy. rewrite <-Hp in Hy.
    apply (cmp_leb_antisym cmp _ _ Hxy) in Hyx.
    apply list_elem_of_lookup in Hx as [i Hi]. apply list_elem_of_lookup in Hy as [j Hj].
    assert (i = j) as ->; [|congruence].
    apply (NoDup_lookup (key <$> l) i j (key x)); [done| |]; rewrite list_lookup_fmap.
    + by rewrite Hi.
    + rewrite Hj. simpl. congruence.
  - by rewrite !sort_by_perm.
Qed.
End SortLemmas.

#[export] Hint Resolve sort_by_sorted sort_insert_sorted : mega.

(** ** Lemmas on [dedup] *)

Section DedupLemmas.
Context {A : Type} `{EqDecision A}.
Implicit Types l : list A.

Lemma dedup_from_head x l : ∃ l', dedup_from x l = x :: l'.
Proof.
  revert x. induction l as [|y l IH]; intros x; simpl; [by eexists|].
  case_bool_decide; [|by eexists]. apply IH.
Qed.

Lemma dedup_from_distinct x l : adjacent_distinct (dedup_from x l).
Proof.
  revert x. induction l as [|y l IH]; intros x; simpl; [done|].
  case_bool_decide as E; [apply IH|].
  specialize (IH y). destruct (dedup_from_head y l) as [l' Hl'].
  rewrite Hl' in *. simpl. done.
Qed.

Lemma dedup_distinct l : adjacent_distinct (dedup l).
Proof. destruct l; [done|]. apply dedup_from_distinct. Qed.

Lemma dedup_from_id x l : adjacent_distinct (x :: l) → dedup_from x l = x :: l.
Proof.
  revert x. induction l as [|y l IH]; intros x; simpl; [done|].
  intros [Hne Hl]. rewrite bool_decide_false by done. by rewrite IH.
Qed.

Lemma dedup_id l : adjacent_distinct l → dedup l = l.
Proof. destruct l; [done|]. apply dedup_from_id. Qed.

Lemma dedup_from_elem_of x l y : y ∈ dedup_from x l ↔ y ∈ x :: l.
Proof.
  revert x. induction l as [|z l IH]; intros x; simpl; [done|].
  case_bool_decide; subst; rewrite ?elem_of_cons, IH, !elem_of_cons; naive_solver.
Qed.

Lemma dedup_elem_of l y : y ∈ dedup l ↔ y ∈ l.
Proof. destruct l; [done|]. apply dedup_from_elem_of. Qed.

Lemma dedup_Forall (P : A → Prop) l : Forall P (dedup l) ↔ Forall P l.
Proof. rewrite !Forall_forall. by setoid_rewrite dedup_elem_of. Qed.

Lemma dedup_from_sorted (R : relation A) x l :
  StronglySorted R (x :: l) → StronglySorted R (dedup_from x l).
Proof.
  revert x. induction l as [|y l IH]; intros x Hs; simpl; [done|].
  inversion Hs as [|? ? Hs' Hx]; subst.
  case_bool_decide; subst.
  - apply IH. inversion Hs'; subst. constructor; [done|]. by inversion Hx.
  - constructor; [by apply IH|].
    apply Forall_forall. intros z Hz%dedup_from_elem_of.
    eapply Forall_forall in Hx; done.
Qed.

Lemma dedup_sorted (R : relation A) l :
  StronglySorted R l → StronglySorted R (dedup l).
Proof. destruct l; [done|]. apply dedup_from_sorted. Qed.

Lemma dedup_nil l : dedup l = [] ↔ l = [].
Proof.
  destruct l as [|x l]; [done|]. simpl.
  destruct (dedup_from_head x l) as [l' ->]. done.
Qed.

Lemma dedup_from_length x l : length (dedup_from x l) ≤ S (length l).
Proof.
  revert x. induction l as [|y l IH]; intros x; simpl; [done|].
  case_bool_decide; simpl; [specialize (IH x)|specialize (IH y)]; lia.
Qed.

Lemma dedup_length l : length (dedup l) ≤ length l.
Proof. destruct l; [done|]. apply dedup_from_length. Qed.
End DedupLemmas.

#[export] Hint Resolve dedup_distinct : mega.

(** ** Lemmas on lists and options *)

Lemma foldr_max_le {A} (f : A → nat) (l : list A) n :
  foldr (λ x m, f x `max` m) 0 l ≤ n ↔ Forall (λ x, f x ≤ n) l.
Proof.
  induction l as [|x l IH]; simpl; [split; [done|lia]|].
  rewrite Forall_cons, <-IH. lia.
Qed.

Lemma mapM_Some_total {A B} (f : A → option B) (l : list A) :
  Forall (λ x, is_Some (f x)) l → is_Some (mapM f l).
Proof. by rewrite mapM_is_Some. Qed.

Lemma Forall_mp {A} (P Q : A → Prop) (l : list A) :
  Forall (λ x, P x → Q x) l → Forall P l → Forall Q l.
Proof. rewrite !Forall_forall. auto. Qed.

(** ** Results of code that may return an error or panic *)

Inductive outcome (E A : Type) :=
  | Ok (a : A)
  | Err (e : E)
  | Panic
  | OutOfFuel.
Arguments Ok {E A} a.
Arguments Err {E A} e.
Arguments Panic {E A}.
Arguments OutOfFuel {E A}.

(** The [?] operator: errors and panics end the computation. *)
#[export] Instance outcome_ret {E} : MRet (outcome E) := λ A a, Ok a.
#[export] Instance outcome_bind {E} : MBind (outcome E) := λ A B f o,
  match o with
  | Ok a => f a
  | Err e => Err e
  | Panic => Panic
  | OutOfFuel => OutOfFuel
  end.

(** A loop that may end early. *)
Fixpoint foldM {E S A} (f : S → A → outcome E S) (s : S) (l : list A) : outcome E S :=
  match l with
  | [] => Ok s
  | a :: l => s' ← f s a; foldM f s' l
  end.

(** [map_err] *)
Definition map_err {E F A} (f : E → F) (o : outcome E A) : outcome F A :=
  match o with
  | Ok a => Ok a
  | Err e => Err (f e)
  | Panic => Panic
  | OutOfFuel => OutOfFuel
  end.

Lemma bind_Ok {E A B} (f : A → outcome E B) o b :
  o ≫= f = Ok b ↔ ∃ a, o = Ok a ∧ f a = Ok b.
Proof.
  split; [destruct o; simpl; try done; by eauto|]. by intros (a & -> & ?).
Qed.

Lemma map_err_Ok {E F A} (f : E → F) (o : outcome E A) a : map_err f o = Ok a ↔ o = Ok a.
Proof. destruct o; simpl; split; congruence. Qed.

(** A result or an error: neither a panic nor a lack of fuel. *)
Definition answers {E A} (o : outcome E A) : Prop :=
  match o with Ok _ | Err _ => True | Panic | OutOfFuel => False end.

Lemma answers_bind {E A B} (f : A → outcome E B) o :
  answers o → (∀ a, o = Ok a → answers (f a)) → answers (o ≫= f).
Proof. destruct o; simpl; auto. Qed.

Lemma answers_map_err {E F A} (f : E → F) (o : outcome E A) : answers o → answers (map_err f o).
Proof. by destruct o. Qed.

Lemma answers_mapM {E A B} (f : A → outcome E B) l : (∀ a, answers (f a)) → answers (mapM f l).
Proof.
  intros Hf. induction l as [|a l IH]; [done|]. apply answers_bind; [done|]. intros b _.
  by apply answers_bind.
Qed.

#[export] Hint Resolve answers_map_err : mega.

Lemma mapM_Ok {E A B} (f : A → outcome E B) l k :
  mapM f l = Ok k ↔ Forall2 (λ a b, f a = Ok b) l k.
Proof.
  revert k. induction l as [|a l IH]; intros k; simpl.
  - split; [by intros [= <-]|by inversion 1].
  - rewrite bind_Ok. split.
    + intros (b & Hb & (k' & Hk & [= <-])%bind_Ok). constructor; [done|by apply IH].
    + intros (b & k' & Hb & Hk & ->)%Forall2_cons_inv_l. exists b. split; [done|].
      apply bind_Ok. exists k'. split; [by apply IH|done].
Qed.

Lemma foldM_app {E S A} (f : S → A → outcome E S) s l k :
  foldM f s (l ++ k) = s' ← foldM f s l; foldM f s' k.
Proof.
  revert s. induction l as [|a l IH]; intros s; [done|]. simpl. destruct (f s a); simpl; auto.
Qed.

Lemma filter_length_perm {A} (p : A → bool) (l k : list A) :
  Permutation l k → length (List.filter p l) = length (List.filter p k).
Proof.
  induction 1 as [|x l k _ IH|x y l|l k m _ IH1 _ IH2]; simpl; [done| | |lia].
  - destruct (p x); simpl; lia.
  - destruct (p x), (p y); simpl; lia.
Qed.

Lemma Forall2_sublist {A B} (R : A → B → Prop) l k k' :
  Forall2 R l k → k' `sublist_of` k → ∃ l', l' `sublist_of` l ∧ Forall2 R l' k'.
Proof.
  intros HR Hs. revert l HR. induction Hs as [|x k' k Hs IH|x k' k Hs IH]; intros l HR.
  - exists []. split; [apply sublist_nil_l|constructor].
  - apply Forall2_cons_inv_r in HR as (a & l0 & Ha & HR & ->). destruct (IH _ HR) as (l' & ? & ?).
    exists (a :: l'). split; by constructor.
  - apply Forall2_cons_inv_r in HR as (a & l0 & Ha & HR & ->). destruct (IH _ HR) as (l' & ? & ?).
    exists l'. split; [by constructor|done].
Qed.

Lemma filter_sublist {A} (p : A → bool) l : List.filter p l `sublist_of` l.
Proof. induction l as [|a l IH]; simpl; [done|]. destruct (p a); by constructor. Qed.

Lemma Forall2_in_r {A B} (R : A → B → Prop) l k b : Forall2 R l k → b ∈ k → ∃ a, a ∈ l ∧ R a b.
Proof.
  induction 1 as [|a b' l k HR _ IH]; [by intros ?%not_elem_of_nil|].
  intros [->|Hb]%elem_of_cons; [exists a; split; [by constructor|done]|].
  destruct (IH Hb) as (a' & ? & ?). exists a'. split; [by constructor|done].
Qed.

Lemma Forall2_in_l {A B} (R : A → B → Prop) l k a : Forall2 R l k → a ∈ l → ∃ b, b ∈ k ∧ R a b.
Proof. intros HR%Forall2_flip. by apply (Forall2_in_r (flip R)). Qed.
