(* ===== verification/Text.v ===== *)
(** * Rust strings

    A Rust [str] is modelled as the list of its Unicode scalar values, each an
    [N].  The file holds the parts of Rust's [char] and [str] API that the
    modelled code calls ([is_whitespace], [is_control], [split], [join],
    [strip_prefix], [trim_start_matches], [len], ...), the order of [str], and
    the lemmas on them.  [str] comparison is bytewise in Rust; [utf8_compare]
    shows that it is the lexicographic order on scalar values used here. *)
From Stdlib Require Import Strings.Byte String.
From stdpp Require Import base strings sets numbers tactics list.
From S2P Require Import Prelude.

Export ByteSyntaxNotations String.StringSyntax.

Abbreviation text := (list N).

(** ASCII literals. *)
Definition lit (s : string) : text := map Byte.to_N (list_byte_of_string s).

Definition ch (b : Byte.byte) : N := Byte.to_N b.

Arguments lit s%_string_scope.
Arguments ch b%_byte_scope.
#[global] Arguments N.eqb !_ !_ : simpl nomatch.

(** The double quote character. *)
Definition dquote : N := 34.
(** The backslash character. *)
Definition backslash : N := 92.

(** ** [char] *)

Definition in_range (lo hi c : N) : bool := ((lo <=? c) && (c <=? hi))%N.

(** [char::is_control]: general category Cc. *)
Definition is_control (c : N) : bool := in_range 0 31 c || in_range 127 159 c.

(** [char::is_whitespace]: the White_Space property. *)
Definition is_whitespace (c : N) : bool :=
  in_range 9 13 c || N.eqb c 32 || N.eqb c 133 || N.eqb c 160 || N.eqb c 5760
  || in_range 8192 8202 c || N.eqb c 8232 || N.eqb c 8233 || N.eqb c 8239
  || N.eqb c 8287 || N.eqb c 12288.

Definition is_ascii (c : N) : bool := N.ltb c 128.
Definition is_ascii_digit (c : N) : bool := in_range 48 57 c.
Definition is_ascii_alphabetic (c : N) : bool := in_range 65 90 c || in_range 97 122 c.
Definition is_ascii_alphanumeric (c : N) : bool := is_ascii_alphabetic c || is_ascii_digit c.

(** A Unicode scalar value, the range of Rust's [char]. *)
Definition is_scalar (c : N) : bool := in_range 0 55295 c || in_range 57344 1114111 c.

(** [char::len_utf8] and [str::len] *)
Definition len_utf8 (c : N) : N :=
  (if N.ltb c 128 then 1 else if N.ltb c 2048 then 2 else if N.ltb c 65536 then 3 else 4)%N.

Definition str_len (s : text) : N := foldr (λ c n, len_utf8 c + n)%N 0%N s.

(** UTF-8 encoding of one scalar value. *)
Definition utf8_char (c : N) : list N :=
  (if N.ltb c 128 then [c]
  else if N.ltb c 2048 then [192 + c `div` 64; 128 + c `mod` 64]
  else if N.ltb c 65536 then
    [224 + c `div` 4096; 128 + (c `div` 64) `mod` 64; 128 + c `mod` 64]
  else [240 + c `div` 262144; 128 + (c `div` 4096) `mod` 64;
        128 + (c `div` 64) `mod` 64; 128 + c `mod` 64])%N.

Definition utf8 (s : text) : list N := s ≫= utf8_char.

(** ** [str] *)

(** [Ord for str] *)
Definition str_compare : text → text → comparison := lex_compare N.compare.
(** [Ord for Vec<String>] *)
Definition segs_compare : list text → list text → comparison := lex_compare str_compare.

Definition contains_char (c : N) (s : text) : bool := existsb (N.eqb c) s.

Fixpoint strip_prefix (p s : text) : option text :=
  match p, s with
  | [], _ => Some s
  | x :: p', y :: s' => if N.eqb x y then strip_prefix p' s' else None
  | _ :: _, [] => None
  end.

Definition starts_with (p s : text) : bool := bool_decide (is_Some (strip_prefix p s)).

Definition strip_suffix (p s : text) : option text :=
  reverse <$> strip_prefix (reverse p) (reverse s).

Definition ends_with (p s : text) : bool := bool_decide (is_Some (strip_suffix p s)).

Fixpoint trim_start_matches (P : N → bool) (s : text) : text :=
  match s with
  | c :: s' => if P c then trim_start_matches P s' else s
  | [] => []
  end.

Definition trim_end_matches (P : N → bool) (s : text) : text :=
  reverse (trim_start_matches P (reverse s)).

(** [str::trim] *)
Definition trim (s : text) : text :=
  trim_end_matches is_whitespace (trim_start_matches is_whitespace s).

(** [str::split(char)]: never empty. *)
Fixpoint split_on (sep : N) (s : text) : list text :=
  match s with
  | [] => [[]]
  | c :: s' =>
      if N.eqb c sep then [] :: split_on sep s'
      else match split_on sep s' with
           | seg :: segs => (c :: seg) :: segs
           | [] => [[c]]
           end
  end.

(** [[T]::join(&str)] for a one-character separator *)
Fixpoint join (sep : N) (segs : list text) : text :=
  match segs with
  | [] => []
  | [seg] => seg
  | seg :: segs' => seg ++ sep :: join sep segs'
  end.

(** [str::split_once(char)] *)
Fixpoint split_once (sep : N) (s : text) : option (text * text) :=
  match s with
  | [] => None
  | c :: s' =>
      if N.eqb c sep then Some ([], s')
      else '(a, b) ← split_once sep s'; Some (c :: a, b)
  end.

(** [str::rsplit_once(char)] *)
Definition rsplit_once (sep : N) (s : text) : option (text * text) :=
  '(a, b) ← split_once sep (reverse s); Some (reverse b, reverse a).

(** [str::replace(char, &str)] *)
Definition replace_char (c : N) (by_ : text) (s : text) : text :=
  s ≫= λ x, if N.eqb x c then by_ else [x].

(** ** Order *)

#[export] Instance str_compare_total : TotalCompare str_compare := _.
#[export] Instance segs_compare_total : TotalCompare segs_compare := _.

(** ** Lemmas: prefixes and suffixes *)

Lemma strip_prefix_Some p s r : strip_prefix p s = Some r ↔ s = p ++ r.
Proof.
  revert s. induction p as [|x p IH]; intros [|y s]; simpl; try naive_solver.
  destruct (N.eqb x y) eqn:E; bool_prop; subst; [rewrite IH|]; naive_solver.
Qed.

Lemma strip_prefix_app p r : strip_prefix p (p ++ r) = Some r.
Proof. by apply strip_prefix_Some. Qed.

Lemma strip_suffix_Some p s r : strip_suffix p s = Some r ↔ s = r ++ p.
Proof.
  unfold strip_suffix. rewrite fmap_Some. split.
  - intros (t & Ht%strip_prefix_Some & ->).
    rewrite <-(reverse_involutive s), Ht, reverse_app. by rewrite reverse_involutive.
  - intros ->. exists (reverse r). rewrite strip_prefix_Some, reverse_involutive.
    by rewrite reverse_app.
Qed.

Lemma starts_with_spec p s : starts_with p s = true ↔ ∃ r, s = p ++ r.
Proof.
  unfold starts_with. rewrite bool_decide_eq_true. unfold is_Some.
  by setoid_rewrite strip_prefix_Some.
Qed.

Lemma ends_with_spec p s : ends_with p s = true ↔ ∃ r, s = r ++ p.
Proof.
  unfold ends_with. rewrite bool_decide_eq_true. unfold is_Some.
  by setoid_rewrite strip_suffix_Some.
Qed.

(** ** Lemmas: [contains] *)

Lemma contains_char_spec c s : contains_char c s = true ↔ c ∈ s.
Proof.
  unfold contains_char. rewrite existsb_exists. split.
  - intros (x & Hx & ->%N.eqb_eq). by apply list_elem_of_In.
  - intros H. exists c. split; [by apply list_elem_of_In|apply N.eqb_refl].
Qed.

Lemma contains_char_false c s : contains_char c s = false ↔ c ∉ s.
Proof. rewrite <-contains_char_spec. by destruct (contains_char c s). Qed.

Lemma contains_char_app c s t :
  contains_char c (s ++ t) = contains_char c s || contains_char c t.
Proof. apply existsb_app. Qed.

(** ** Lemmas: [split] and [join] *)

Lemma split_on_nonempty sep s : split_on sep s ≠ [].
Proof. destruct s as [|c s]; simpl; [done|]. break_goal; done. Qed.

Lemma split_on_no_sep sep s : sep ∉ s → split_on sep s = [s].
Proof.
  induction s as [|c s IH]; intros H; simpl; [done|].
  apply not_elem_of_cons in H as [Hc Hs]. rewrite IH by done.
  rewrite (proj2 (N.eqb_neq c sep)) by congruence. done.
Qed.

Lemma split_on_app sep s t :
  sep ∉ s → split_on sep (s ++ sep :: t) = s :: split_on sep t.
Proof.
  induction s as [|c s IH]; intros H; simpl; [by rewrite N.eqb_refl|].
  apply not_elem_of_cons in H as [Hc Hs]. rewrite IH by done.
  rewrite (proj2 (N.eqb_neq c sep)) by congruence. done.
Qed.

Lemma split_on_sep sep s t :
  split_on sep (s ++ sep :: t) = split_on sep s ++ split_on sep t.
Proof.
  induction s as [|c s IH]; simpl; [by rewrite N.eqb_refl|]. rewrite IH.
  destruct (N.eqb c sep); [done|].
  pose proof (split_on_nonempty sep s). by destruct (split_on sep s).
Qed.

Lemma split_join sep segs :
  segs ≠ [] → Forall (λ seg, sep ∉ seg) segs → split_on sep (join sep segs) = segs.
Proof.
  intros Hne H. induction H as [|seg segs Hseg Hsegs IH]; [done|].
  destruct segs as [|seg' segs']; simpl; [by apply split_on_no_sep|].
  rewrite split_on_app by done. by f_equal; apply IH.
Qed.

Lemma join_split sep s : join sep (split_on sep s) = s.
Proof.
  induction s as [|c s IH]; simpl; [done|].
  pose proof (split_on_nonempty sep s) as Hne.
  destruct (N.eqb c sep) eqn:E; bool_prop; subst.
  - destruct (split_on sep s) as [|x l]; [done|]. by rewrite <-IH.
  - destruct (split_on sep s) as [|x l]; [done|].
    destruct l; simpl in *; by rewrite <-IH.
Qed.

Lemma split_on_pieces sep s : Forall (λ seg, sep ∉ seg) (split_on sep s).
Proof.
  induction s as [|c s IH]; simpl; [repeat constructor; set_solver|].
  destruct (N.eqb c sep) eqn:E; bool_prop; [constructor; [set_solver|done]|].
  destruct (split_on sep s) as [|x l]; [repeat constructor; set_solver|].
  inversion IH; subst. constructor; [set_solver|done].
Qed.

(** Every character of a piece is a character of the string. *)
Lemma split_on_chars (P : N → Prop) sep s :
  Forall P s → Forall (Forall P) (split_on sep s).
Proof.
  induction 1 as [|c s Hc Hs IH]; simpl; [repeat constructor|].
  destruct (N.eqb c sep); [by constructor|].
  destruct (split_on sep s) as [|x l]; [repeat constructor; done|].
  inversion IH; subst. by repeat constructor.
Qed.

Lemma join_elem_of sep segs c :
  c ∈ join sep segs → c = sep ∨ ∃ seg, seg ∈ segs ∧ c ∈ seg.
Proof.
  induction segs as [|seg segs IH]; simpl; [set_solver|].
  destruct segs as [|seg' segs']; [set_solver|].
  rewrite elem_of_app, elem_of_cons. intros [H|[H|H]]; [set_solver..|].
  destruct (IH H) as [|(x & Hx & Hc)]; [by left|right].
  exists x. split; [by right|done].
Qed.

Lemma join_Forall (P : N → Prop) sep segs :
  P sep → Forall (Forall P) segs → Forall P (join sep segs).
Proof.
  intros Hsep Hsegs. apply Forall_forall. intros c Hc%join_elem_of.
  destruct Hc as [->|(seg & Hseg & Hc)]; [done|].
  rewrite Forall_forall in Hsegs. specialize (Hsegs _ Hseg).
  rewrite Forall_forall in Hsegs. by apply Hsegs.
Qed.

Lemma join_cons_hd sep seg segs :
  ∃ r, join sep (seg :: segs) = seg ++ r.
Proof. destruct segs; simpl; [exists []; by rewrite app_nil_r|by eexists]. Qed.

Lemma join_last sep segs seg :
  last segs = Some seg → ∃ r, join sep segs = r ++ seg.
Proof.
  induction segs as [|x segs IH]; [done|].
  destruct segs as [|y segs']; simpl in *.
  - intros [= ->]. by exists [].
  - intros H. destruct (IH H) as [r Hr]. exists (x ++ sep :: r).
    rewrite Hr. by rewrite <-app_assoc.
Qed.

(** ** Lemmas: [trim] *)

Lemma trim_start_split P s : ∃ pre, s = pre ++ trim_start_matches P s ∧ Forall (λ c, P c = true) pre.
Proof.
  induction s as [|c s (pre & IH & Hp)]; simpl; [by exists []|].
  destruct (P c) eqn:E; [|by exists []]. exists (c :: pre). simpl. rewrite <-IH. auto.
Qed.

Lemma trim_end_split P s : ∃ suf, s = trim_end_matches P s ++ suf ∧ Forall (λ c, P c = true) suf.
Proof.
  unfold trim_end_matches. destruct (trim_start_split P (reverse s)) as (pre & H & Hp).
  exists (reverse pre). split; [|by rewrite Forall_reverse].
  rewrite <-reverse_app, <-H. by rewrite reverse_involutive.
Qed.

(** ** UTF-8: bytewise order is scalar-value order *)

Lemma lex_compare_prefix_free (p q s t : list N) :
  length p = length q → p ≠ q →
  lex_compare N.compare (p ++ s) (q ++ t) = lex_compare N.compare p q.
Proof.
  revert q. induction p as [|x p IH]; intros [|y q] Hl Hne; simpl in *; try done.
  destruct (N.compare x y) eqn:E; [|done..].
  apply N.compare_eq in E as ->. apply IH; congruence.
Qed.

Lemma lex_compare_app_same {A} (cmp : A → A → comparison) `{!TotalCompare cmp} p s t :
  lex_compare cmp (p ++ s) (p ++ t) = lex_compare cmp s t.
Proof. induction p as [|x p IH]; simpl; [done|]. by rewrite (cmp_refl cmp). Qed.


(** Distinct scalar values differ in their encodings at a position that both
    encodings have, and the encodings compare as the values do. *)
Lemma utf8_char_lt (c d : N) (s t : list N) :
  (c <= 1114111)%N → (d <= 1114111)%N → (c < d)%N →
  lex_compare N.compare (utf8_char c ++ s) (utf8_char d ++ t) = Lt.
Proof.
  intros Hc Hd Hlt. unfold utf8_char.
  assert (∀ x, ∃ q r, x `div` 64 = q ∧ x `mod` 64 = r ∧ x = 64 * q + r ∧ r < 64)%N as E.
  { intros x. eexists _, _. split; [done|]. split; [done|].
    split; [apply N.div_mod'|by apply N.mod_lt]. }
  assert (∀ x, x `div` 4096 = (x `div` 64) `div` 64)%N as E2
    by (intros x; by rewrite N.Div0.div_div).
  assert (∀ x, x `div` 262144 = ((x `div` 64) `div` 64) `div` 64)%N as E3
    by (intros x; by rewrite !N.Div0.div_div).
  rewrite !E3, !E2.
  destruct (E c) as (c1 & r1 & -> & -> & ? & ?).
  destruct (E c1) as (c2 & r2 & -> & -> & ? & ?).
  destruct (E c2) as (c3 & r3 & -> & -> & ? & ?).
  destruct (E d) as (d1 & t1 & -> & -> & ? & ?).
  destruct (E d1) as (d2 & t2 & -> & -> & ? & ?).
  destruct (E d2) as (d3 & t3 & -> & -> & ? & ?).
  clear E E2 E3.
  destruct (N.ltb_spec c 128), (N.ltb_spec d 128), (N.ltb_spec c 2048),
    (N.ltb_spec d 2048), (N.ltb_spec c 65536), (N.ltb_spec d 65536);
    try lia; cbn [app lex_compare].
  all: repeat match goal with |- context [N.compare ?a ?b] =>
    destruct (N.compare_spec a b); [|done|exfalso; lia] end; exfalso; lia.
Qed.

(** Rust compares strings bytewise; on scalar values this is [str_compare]. *)
Lemma utf8_compare (s t : text) :
  Forall (λ c, is_scalar c = true) s → Forall (λ c, is_scalar c = true) t →
  lex_compare N.compare (utf8 s) (utf8 t) = str_compare s t.
Proof.
  assert (∀ c, is_scalar c = true → (c <= 1114111)%N) as Hmax.
  { unfold is_scalar, in_range. intros c Hc. bool_prop.
    destruct Hc as [Hc|Hc]; bool_prop; apply N.leb_le in H0; lia. }
  assert (∀ c, utf8_char c ≠ []) as Hne.
  { intros c. unfold utf8_char. break_goal; done. }
  intros Hs. revert t. induction Hs as [|c s Hc Hs IH]; intros t Ht.
  - destruct Ht as [|d t]; [done|]. unfold utf8. simpl.
    specialize (Hne d). by destruct (utf8_char d).
  - destruct Ht as [|d t Hd Ht].
    { unfold utf8. simpl. specialize (Hne c). by destruct (utf8_char c). }
    unfold utf8 in *. simpl. change (str_compare (c :: s) (d :: t)) with
      (match N.compare c d with Eq => str_compare s t | r => r end).
    destruct (N.compare_spec c d) as [->|Hlt|Hlt].
    + rewrite (lex_compare_app_same N.compare). by apply IH.
    + by apply utf8_char_lt; auto.
    + apply (cmp_gt_lt (lex_compare N.compare)). by apply utf8_char_lt; auto.
Qed.

(** ** UTF-8 is injective and keeps ASCII characters apart *)

#[local] Ltac Zify.zify_post_hook ::= Z.to_euclidean_division_equations.

Lemma utf8_char_inj c d s t : utf8_char c ++ s = utf8_char d ++ t → c = d ∧ s = t.
Proof.
  unfold utf8_char. intros E.
  destruct (N.ltb_spec c 128), (N.ltb_spec d 128),
    (N.ltb_spec c 2048), (N.ltb_spec d 2048), (N.ltb_spec c 65536), (N.ltb_spec d 65536);
    try lia; cbn [app] in E; injection E; intros; subst; split; try done; try lia.
Qed.

Lemma utf8_inj s t : utf8 s = utf8 t → s = t.
Proof.
  assert (∀ c s, utf8_char c ++ s ≠ []) as Hne.
  { intros c s'. unfold utf8_char. by break_goal. }
  revert t. induction s as [|c s IH]; intros [|d t]; unfold utf8; cbn [mbind list_bind]; intros E.
  - done.
  - by destruct (Hne d (utf8 t)).
  - by destruct (Hne c (utf8 s)).
  - apply utf8_char_inj in E as [-> E]. f_equal. by apply IH.
Qed.

Lemma utf8_app s t : utf8 (s ++ t) = utf8 s ++ utf8 t.
Proof. apply bind_app. Qed.

Lemma utf8_ascii s : Forall (λ c, (c < 128)%N) s → utf8 s = s.
Proof.
  induction 1 as [|c s Hc _ IH]; [done|]. unfold utf8 in *. cbn [mbind list_bind]. rewrite IH.
  unfold utf8_char. by rewrite (proj2 (N.ltb_lt c 128)).
Qed.

(** The bytes of a character that is not ASCII are not ASCII. *)
Lemma utf8_char_high c b : (128 <= c)%N → b ∈ utf8_char c → (128 <= b)%N.
Proof.
  intros Hc. unfold utf8_char. rewrite (proj2 (N.ltb_ge c 128)) by done.
  repeat case_match; rewrite ?elem_of_cons, elem_of_nil; intros Hb; lia.
Qed.

Section Ascii.
Variable a : N.
Hypothesis Ha : (a < 128)%N.

Lemma utf8_ascii_char c s :
  utf8 (c :: s) = if N.eqb c a then a :: utf8 s else utf8_char c ++ utf8 s.
Proof.
  unfold utf8. cbn [mbind list_bind]. destruct (N.eqb_spec c a) as [->|]; [|done].
  unfold utf8_char. by rewrite (proj2 (N.ltb_lt a 128)).
Qed.

Lemma utf8_char_no c : c ≠ a → a ∉ utf8_char c.
Proof.
  intros Hne Hin. destruct (N.ltb_spec c 128) as [Hc|Hc].
  - unfold utf8_char in Hin. rewrite (proj2 (N.ltb_lt c 128)) in Hin by done.
    apply list_elem_of_singleton in Hin. congruence.
  - apply utf8_char_high in Hin; lia.
Qed.

Lemma split_on_glue t u :
  a ∉ t → split_on a (t ++ u) = match split_on a u with seg :: segs => (t ++ seg) :: segs | [] => [t] end.
Proof.
  induction t as [|c t IH]; intros Ht; cbn [app].
  - destruct (split_on a u) eqn:E; [by apply split_on_nonempty in E|done].
  - apply not_elem_of_cons in Ht as [Hc Ht]. cbn [split_on].
    rewrite (proj2 (N.eqb_neq c a)), IH by (done || congruence).
    destruct (split_on a u) eqn:E; [by apply split_on_nonempty in E|done].
Qed.

Lemma split_on_utf8 s : split_on a (utf8 s) = map utf8 (split_on a s).
Proof.
  induction s as [|c s IH]; [done|]. rewrite utf8_ascii_char. cbn [split_on].
  destruct (N.eqb_spec c a) as [->|Hne].
  - cbn [split_on]. rewrite N.eqb_refl, IH. done.
  - rewrite split_on_glue by by apply utf8_char_no. rewrite IH.
    destruct (split_on a s) as [|seg segs] eqn:E; [by apply split_on_nonempty in E|done].
Qed.

Lemma split_once_utf8 s :
  split_once a (utf8 s) = (λ p, (utf8 p.1, utf8 p.2)) <$> split_once a s.
Proof.
  assert (∀ t u, a ∉ t → split_once a (t ++ u) = (λ p, (t ++ p.1, p.2)) <$> split_once a u) as Happ.
  { induction t as [|c t IH]; intros u Ht.
    - simpl. by destruct (split_once a u) as [[]|].
    - apply not_elem_of_cons in Ht as [Hc Ht]. cbn [app split_once].
      rewrite (proj2 (N.eqb_neq c a)), IH by (done || congruence). by destruct (split_once a u) as [[]|]. }
  induction s as [|c s IH]; [done|]. rewrite utf8_ascii_char. cbn [split_once].
  destruct (N.eqb_spec c a) as [->|Hne].
  - cbn [split_once]. by rewrite N.eqb_refl.
  - rewrite Happ by by apply utf8_char_no. rewrite IH. by destruct (split_once a s) as [[]|].
Qed.

Lemma join_utf8 ps : join a (map utf8 ps) = utf8 (join a ps).
Proof.
  induction ps as [|p [|q ps] IH]; [done..|].
  change (join a (map utf8 (p :: q :: ps))) with (utf8 p ++ a :: join a (map utf8 (q :: ps))).
  change (join a (p :: q :: ps)) with (p ++ a :: join a (q :: ps)).
  rewrite IH, utf8_app, utf8_ascii_char, N.eqb_refl. done.
Qed.
End Ascii.
