(* ===== verification/FilterSyntax.v ===== *)
(** * View filters: syntax tree and printer

    Models [src/ceres/view/filter/mod.rs] (the data types) and the printing half
    of [src/ceres/view/filter/canonical.rs].  A [ViewPath] value in Rust is only
    built by [ViewPath::new], which panics on an invalid segment list: the
    constructor is [ViewPath_new], with [None] for the panic, and [filter_wf] is
    the invariant it gives to every path inside a filter. *)
From stdpp Require Import base strings sets numbers tactics list.
From S2P Require Import Prelude Text.

(** ** Limits *)

Definition REGISTER_MAX_SPEC_BYTES : N := 16384.
Definition REGISTER_MAX_NESTING : nat := 16.
Definition PARSE_MAX_NESTING : nat := 64.

(** ** Paths and selectors *)

Record ViewPath := mk_ViewPath { segments : list text }.

Definition valid_path_segment (segment : text) : bool :=
  negb (bool_decide (segment = []))
  && negb (bool_decide (segment = lit "."))
  && negb (bool_decide (segment = lit ".."))
  && negb (existsb (λ c, N.eqb c (ch "/") || N.eqb c backslash) segment)
  && negb (existsb is_control segment)
  && negb (from_option is_whitespace false (head segment))
  && negb (from_option is_whitespace false (last segment)).

(** The assertion of [ViewPath::new]. *)
Definition valid_view_path (segs : list text) : bool :=
  negb (bool_decide (segs = [])) && forallb valid_path_segment segs.

Definition ViewPath_new (segs : list text) : option ViewPath :=
  if valid_view_path segs then Some (mk_ViewPath segs) else None.

Inductive Selector :=
  | Entry (path : ViewPath)
  | Tree (path : ViewPath).

#[local] Set Warnings "-register-all".

Inductive Filter :=
  | Subdir (path : ViewPath)
  | Prefix (path : ViewPath)
  | Exclude (selectors : list Selector)
  | Compose (members : list Filter)
  | Chain (ops : list Filter)
  | Nop
  | Empty.

Inductive FilterParseError :=
  | Backslash
  | SegmentEdgeWhitespace
  | InvalidSegment
  | NeedsQuoting
  | PartialQuote
  | UnterminatedQuote
  | ControlChar
  | EmptySelectorSegment
  | ExcludeArgNotSelector
  | Syntax
  | SpecTooLarge
  | NestingTooDeep.

#[export] Instance ViewPath_eq_dec : EqDecision ViewPath.
Proof. solve_decision. Defined.
#[export] Instance Selector_eq_dec : EqDecision Selector.
Proof. solve_decision. Defined.
#[export] Instance FilterParseError_eq_dec : EqDecision FilterParseError.
Proof. solve_decision. Defined.

(** ** Printer *)

Definition is_safe (c : N) : bool :=
  is_ascii_alphanumeric c
  || (N.eqb c (ch ".") || N.eqb c (ch "_") || N.eqb c (ch "-"))
  || (negb (is_ascii c) && negb (is_whitespace c) && negb (is_control c)).

Definition print_path (path : ViewPath) : text :=
  let text := join (ch "/") (segments path) in
  if forallb (λ c, N.eqb c (ch "/") || is_safe c) text then text
  else dquote :: replace_char dquote [backslash; dquote] text ++ [dquote].

Definition print_selector (selector : Selector) : text :=
  match selector with
  | Entry path => lit "::" ++ print_path path
  | Tree path => lit "::" ++ print_path path ++ lit "/"
  end.

Fixpoint print (filter : Filter) : text :=
  match filter with
  | Subdir path => lit ":/" ++ print_path path
  | Prefix path => lit ":prefix=" ++ print_path path
  | Exclude selectors =>
      lit ":exclude[" ++ join (ch ",") (map print_selector selectors) ++ lit "]"
  | Compose members => lit ":[" ++ join (ch ",") (map print members) ++ lit "]"
  | Chain ops => concat (map print ops)
  | Nop => lit ":nop"
  | Empty => lit ":empty"
  end.

(** ** Invariant of the types and nesting depth *)

Definition selector_path (s : Selector) : ViewPath :=
  match s with Entry p | Tree p => p end.

Definition path_wf (p : ViewPath) : Prop := valid_view_path (segments p) = true.

Fixpoint filter_wf (f : Filter) : Prop :=
  match f with
  | Subdir p | Prefix p => path_wf p
  | Exclude sels => Forall (λ s, path_wf (selector_path s)) sels
  | Compose fs | Chain fs => foldr (λ g P, filter_wf g ∧ P) True fs
  | Nop | Empty => True
  end.

(** The number of nested [:[...]] brackets, which the parser bounds. *)
Fixpoint nesting (f : Filter) : nat :=
  match f with
  | Compose fs => S (foldr (λ g n, nesting g `max` n) 0 fs)
  | Chain fs => foldr (λ g n, nesting g `max` n) 0 fs
  | _ => 0
  end.

(** ** Induction over the nested syntax *)

Section FilterInd.
Variable P : Filter → Prop.
Hypothesis P_subdir : ∀ p, P (Subdir p).
Hypothesis P_prefix : ∀ p, P (Prefix p).
Hypothesis P_exclude : ∀ sels, P (Exclude sels).
Hypothesis P_compose : ∀ fs, Forall P fs → P (Compose fs).
Hypothesis P_chain : ∀ fs, Forall P fs → P (Chain fs).
Hypothesis P_nop : P Nop.
Hypothesis P_empty : P Empty.

Fixpoint filter_ind (f : Filter) : P f :=
  let all := fix all (fs : list Filter) : Forall P fs :=
    match fs with
    | [] => Forall_nil_2 P
    | f :: fs => Forall_cons_2 P f fs (filter_ind f) (all fs)
    end in
  match f with
  | Subdir p => P_subdir p
  | Prefix p => P_prefix p
  | Exclude sels => P_exclude sels
  | Compose fs => P_compose fs (all fs)
  | Chain fs => P_chain fs (all fs)
  | Nop => P_nop
  | Empty => P_empty
  end.
End FilterInd.

(** ** Lemmas *)

Lemma foldr_and_Forall {A} (P : A → Prop) (l : list A) :
  foldr (λ x Q, P x ∧ Q) True l ↔ Forall P l.
Proof.
  induction l as [|x l IH]; simpl; [by split|]. by rewrite Forall_cons, IH.
Qed.

Lemma filter_wf_compose fs : filter_wf (Compose fs) ↔ Forall filter_wf fs.
Proof. apply foldr_and_Forall. Qed.

Lemma filter_wf_chain fs : filter_wf (Chain fs) ↔ Forall filter_wf fs.
Proof. apply foldr_and_Forall. Qed.

Lemma nesting_compose_le fs n :
  nesting (Compose fs) ≤ S n ↔ Forall (λ f, nesting f ≤ n) fs.
Proof. simpl. rewrite <-foldr_max_le. lia. Qed.

Lemma nesting_chain_le fs n :
  nesting (Chain fs) ≤ n ↔ Forall (λ f, nesting f ≤ n) fs.
Proof. apply foldr_max_le. Qed.

(** What [valid_path_segment] says of the characters of a segment. *)
Lemma valid_segment_chars seg c :
  valid_path_segment seg = true → c ∈ seg →
  c ≠ ch "/" ∧ c ≠ backslash ∧ is_control c = false.
Proof.
  unfold valid_path_segment. intros H Hc. bool_prop.
  assert (∀ f : N → bool, existsb f seg = false → f c = false) as Hf.
  { intros f Hf. destruct (f c) eqn:E; [|done].
    rewrite <-Hf. symmetry. apply existsb_exists. exists c.
    split; [by apply list_elem_of_In|done]. }
  repeat match goal with H : existsb _ _ = false |- _ => apply Hf in H end.
  bool_prop. done.
Qed.

Lemma valid_segment_shape seg :
  valid_path_segment seg = true →
  seg ≠ [] ∧ seg ≠ lit "." ∧ seg ≠ lit ".."
  ∧ from_option is_whitespace false (head seg) = false
  ∧ from_option is_whitespace false (last seg) = false.
Proof. unfold valid_path_segment. intros H. bool_prop. done. Qed.

Lemma path_wf_segments p :
  path_wf p → segments p ≠ [] ∧ Forall (λ s, valid_path_segment s = true) (segments p).
Proof.
  unfold path_wf, valid_view_path. intros H. bool_prop. split; [done|].
  apply Forall_forall. intros x Hx. rewrite forallb_forall in *.
  apply H0. by apply list_elem_of_In.
Qed.

Lemma path_wf_intro segs :
  segs ≠ [] → Forall (λ s, valid_path_segment s = true) segs →
  valid_view_path segs = true.
Proof.
  intros Hne H. unfold valid_view_path. rewrite bool_decide_false by done. simpl.
  apply forallb_forall. intros x Hx%list_elem_of_In.
  by rewrite Forall_forall in H; apply H.
Qed.

Lemma ViewPath_new_Some segs p :
  ViewPath_new segs = Some p ↔ valid_view_path segs = true ∧ p = mk_ViewPath segs.
Proof. unfold ViewPath_new. destruct (valid_view_path segs); naive_solver. Qed.

Lemma path_wf_new p : path_wf p → ViewPath_new (segments p) = Some p.
Proof. unfold path_wf, ViewPath_new. intros ->. by destruct p. Qed.
