(* ===== verification/FilterParse.v ===== *)
(** * View filters: the parser

    Models [src/ceres/view/filter/parse.rs].  The parser state is the part of
    the input not yet read ([Parser::rest], in place of the byte offset [pos])
    and the bracket depth.  The source's loops and mutual recursion are
    fuelled: [POutOfFuel] marks exhausted fuel and [PPanic] a failed assertion
    of [ViewPath::new]; [parse_with_max_returns] shows that neither occurs. *)
From stdpp Require Import base strings sets numbers tactics list.
From S2P Require Import Prelude Text FilterSyntax.

Record Parser := mk_Parser { rest : text; depth : nat; max_nesting : nat }.

Inductive presult (A : Type) :=
  | POk (a : A) (p : Parser)
  | PErr (e : FilterParseError)
  | PPanic
  | POutOfFuel.
Arguments POk {A} a p.
Arguments PErr {A} e.
Arguments PPanic {A}.
Arguments POutOfFuel {A}.

Definition pbind {A B} (m : presult A) (k : A → Parser → presult B) : presult B :=
  match m with
  | POk a p => k a p
  | PErr e => PErr e
  | PPanic => PPanic
  | POutOfFuel => POutOfFuel
  end.

Declare Scope parser_scope.
Notation "'let*' ( a , p ) := m 'in' k" := (pbind m (λ a p, k))
  (at level 10, a name, p name, m at level 200, k at level 200) : parser_scope.
Open Scope parser_scope.

Inductive PathKind := Operator | SelectorPath.

(** ** Lexical operations *)

Definition with_rest (p : Parser) (r : text) : Parser :=
  mk_Parser r (depth p) (max_nesting p).

Definition peek (p : Parser) : option N := head (rest p).

Definition eat (prefix : text) (p : Parser) : option Parser :=
  with_rest p <$> strip_prefix prefix (rest p).

Definition is_space (c : N) : bool :=
  N.eqb c 32 || N.eqb c 9 || N.eqb c 10 || N.eqb c 13.

Definition skip_space (p : Parser) : bool * Parser :=
  let r := trim_start_matches is_space (rest p) in
  (negb (bool_decide (r = rest p)), with_rest p r).

(** The characters that end an unquoted path: [:], [,] and [\]]. *)
Definition is_delim (c : N) : bool :=
  N.eqb c (ch ":") || N.eqb c (ch ",") || N.eqb c (ch "]").

Fixpoint quoted_loop (r raw : text) : FilterParseError + (text * text) :=
  match r with
  | [] => inl UnterminatedQuote
  | c :: r1 =>
      if N.eqb c dquote then inr (raw, r1)
      else if N.eqb c backslash then
        match r1 with
        | d :: r2 => if N.eqb d dquote then quoted_loop r2 (raw ++ [dquote])
                     else inl Backslash
        | [] => inl Backslash
        end
      else if is_control c then inl ControlChar
      else quoted_loop r1 (raw ++ [c])
  end.

Fixpoint unquoted_loop (r raw : text) : FilterParseError + (text * text) :=
  match r with
  | [] => inr (raw, r)
  | c :: r1 =>
      if is_delim c then inr (raw, r)
      else if is_space c then inr (raw, r)
      else if N.eqb c dquote then inl PartialQuote
      else if N.eqb c backslash then inl Backslash
      else if is_control c then inl ControlChar
      else if N.eqb c (ch "/") || is_safe c then unquoted_loop r1 (raw ++ [c])
      else inl NeedsQuoting
  end.

(** The look-ahead after an unquoted path that is followed by white space. *)
Definition unquoted_lookahead (r : text) : option FilterParseError :=
  if from_option is_space false (head r) then
    match head (trim_start_matches is_space r) with
    | None => None
    | Some c => if N.eqb c (ch ":") then Some Syntax
                else if N.eqb c (ch ",") || N.eqb c (ch "]") then None
                else Some NeedsQuoting
    end
  else None.

(** The check on the character after a closing quote. *)
Definition quoted_lookahead (r : text) : option FilterParseError :=
  match head r with
  | Some c =>
      if N.eqb c backslash then Some Backslash
      else if N.eqb c (ch "/") || is_safe c then Some PartialQuote
      else if negb (is_delim c || is_space c) then Some Syntax
      else None
  | None => None
  end.

(** Drops the last character if it is a slash ([raw.ends_with('/')], [raw.pop()]). *)
Definition pop_slash (raw : text) : bool * text :=
  match strip_suffix [ch "/"] raw with
  | Some raw' => (true, raw')
  | None => (false, raw)
  end.

(** The [tree] flag, the path text and the input left, once the marker slash of a
    selector and the outer slashes of an operator path are taken off. *)
Definition strip_tree_marker (kind : PathKind) (quoted : bool) (raw r : text) :
    bool * text * text :=
  match kind with
  | SelectorPath =>
      if quoted then
        match strip_prefix [ch "/"] r with
        | Some r' => (true, raw, r')
        | None => (false, raw, r)
        end
      else let '(tree, raw') := pop_slash raw in (tree, raw', r)
  | Operator =>
      let raw1 := default raw (strip_prefix [ch "/"] raw) in
      (false, snd (pop_slash raw1), r)
  end.

(** The loop over the segments of a path. *)
Fixpoint check_segments (kind : PathKind) (segs : list text) : option FilterParseError :=
  match segs with
  | [] => None
  | seg :: segs' =>
      if bool_decide (seg = []) then
        match kind, segs' with
        | SelectorPath, [] => Some EmptySelectorSegment
        | _, _ => Some InvalidSegment
        end
      else if bool_decide (seg = lit ".") || bool_decide (seg = lit "..") then
        Some InvalidSegment
      else if from_option is_whitespace false (head seg)
              || from_option is_whitespace false (last seg) then
        Some SegmentEdgeWhitespace
      else check_segments kind segs'
  end.

Definition parse_path (kind : PathKind) (p : Parser) : presult (ViewPath * bool) :=
  let '(quoted, p1) :=
    match eat [dquote] p with Some p1 => (true, p1) | None => (false, p) end in
  match (if quoted then quoted_loop (rest p1) [] else unquoted_loop (rest p1) []) with
  | inl e => PErr e
  | inr (raw, r) =>
    match (if quoted then None else unquoted_lookahead r) with
    | Some e => PErr e
    | None =>
      let '(tree, raw', r') := strip_tree_marker kind quoted raw r in
      match (if quoted then quoted_lookahead r' else None) with
      | Some e => PErr e
      | None =>
        let segs := split_on (ch "/") raw' in
        match check_segments kind segs with
        | Some e => PErr e
        | None =>
          match ViewPath_new segs with
          | Some path => POk (path, tree) (with_rest p r')
          | None => PPanic
          end
        end
      end
    end
  end.

(** ** Grammar *)

(** The loop of [parse_exclude], after its leading white space. *)
Fixpoint exclude_loop (fuel : nat) (acc : list Selector) (p : Parser) : presult Filter :=
  match fuel with
  | O => POutOfFuel
  | S fuel =>
    match eat (lit "::") p with
    | None => PErr ExcludeArgNotSelector
    | Some p1 =>
      let* (pt, p2) := parse_path SelectorPath p1 in
      let '(path, tree) := pt in
      let acc := acc ++ [if tree : bool then Tree path else Entry path] in
      let p3 := snd (skip_space p2) in
      match eat (lit ",") p3 with
      | Some p4 => exclude_loop fuel acc (snd (skip_space p4))
      | None =>
        match eat (lit "]") p3 with
        | Some p4 => POk (Exclude acc) p4
        | None => PErr Syntax
        end
      end
    end
  end.

Definition parse_exclude (fuel : nat) (p : Parser) : presult Filter :=
  exclude_loop fuel [] (snd (skip_space p)).

(** [parse_chain], [parse_op] and [parse_compose]; [chain_loop] and
    [compose_loop] are the bodies of their loops. *)
Fixpoint chain_loop (fuel : nat) (acc : list Filter) (p : Parser) {struct fuel} : presult Filter :=
  match fuel with
  | O => POutOfFuel
  | S fuel =>
    if bool_decide (peek p = Some (ch ":")) then
      let* (op, p1) := parse_op fuel p in
      let acc := acc ++ [op] in
      let '(spaced, p2) := skip_space p1 in
      let finish := POk (match acc with [op] => op | _ => Chain acc end) p2 in
      match peek p2 with
      | Some c =>
          if N.eqb c (ch ":") then
            if spaced : bool then PErr Syntax else chain_loop fuel acc p2
          else if N.eqb c (ch ",") || N.eqb c (ch "]") then finish
          else PErr Syntax
      | None => finish
      end
    else PErr Syntax
  end
with parse_op (fuel : nat) (p : Parser) {struct fuel} : presult Filter :=
  match fuel with
  | O => POutOfFuel
  | S fuel =>
    match eat (lit ":prefix=") p with
    | Some p1 => let* (pt, p2) := parse_path Operator p1 in POk (Prefix (fst pt)) p2
    | None =>
    match eat (lit ":exclude[") p with
    | Some p1 => parse_exclude fuel p1
    | None =>
    match eat (lit ":[") p with
    | Some p1 => parse_compose fuel p1
    | None =>
    match eat (lit ":/") p with
    | Some p1 => let* (pt, p2) := parse_path Operator p1 in POk (Subdir (fst pt)) p2
    | None =>
    match eat (lit ":nop") p with
    | Some p1 => POk Nop p1
    | None =>
    match eat (lit ":empty") p with
    | Some p1 => POk Empty p1
    | None => PErr Syntax
    end end end end end end
  end
with parse_compose (fuel : nat) (p : Parser) {struct fuel} : presult Filter :=
  match fuel with
  | O => POutOfFuel
  | S fuel =>
    let p1 := mk_Parser (rest p) (S (depth p)) (max_nesting p) in
    if Nat.ltb (max_nesting p1) (depth p1) then PErr NestingTooDeep
    else
      let* (members, p2) := compose_loop fuel [] (snd (skip_space p1)) in
      POk (Compose members) (mk_Parser (rest p2) (depth p2 - 1) (max_nesting p2))
  end
with compose_loop (fuel : nat) (acc : list Filter) (p : Parser) {struct fuel} : presult (list Filter) :=
  match fuel with
  | O => POutOfFuel
  | S fuel =>
    let* (member, p1) := chain_loop fuel [] p in
    let acc := acc ++ [member] in
    let p2 := snd (skip_space p1) in
    match eat (lit ",") p2 with
    | Some p3 => compose_loop fuel acc (snd (skip_space p3))
    | None =>
      match eat (lit "]") p2 with
      | Some p3 => POk acc p3
      | None => PErr Syntax
      end
    end
  end.

Definition parse_chain (fuel : nat) (p : Parser) : presult Filter := chain_loop fuel [] p.

(** Fuel for an input: no branch of the recursion nests deeper than four calls
    per character that remains. *)
Definition parse_fuel (s : text) : nat := 4 * length s + 4.

Definition parse_with_max (s : text) (max : nat) : presult Filter :=
  let p := snd (skip_space (mk_Parser s 0 max)) in
  let* (filter, p1) := parse_chain (parse_fuel s) p in
  let p2 := snd (skip_space p1) in
  if bool_decide (rest p2 = []) then POk filter p2 else PErr Syntax.

(** [parse] of mod.rs. *)
Definition parse (s : text) : presult Filter := parse_with_max s PARSE_MAX_NESTING.

#[local] Arguments eat : simpl never.
#[local] Arguments skip_space : simpl never.
#[local] Arguments parse_path : simpl never.

(** ** Characters *)

Lemma safe_char c :
  N.eqb c (ch "/") || is_safe c = true →
  is_delim c = false ∧ is_space c = false ∧ N.eqb c dquote = false
  ∧ N.eqb c backslash = false ∧ is_control c = false.
Proof.
  unfold is_safe, is_delim, is_space, is_control, is_ascii_alphanumeric,
    is_ascii_alphabetic, is_ascii_digit, is_whitespace, is_ascii, in_range, ch, dquote,
    backslash; simpl. intros H. repeat split; lia.
Qed.

(** A path character that [ViewPath::new] admits. *)
Definition path_char (c : N) : Prop := c ≠ backslash ∧ is_control c = false.

Lemma slash_path_char : path_char (ch "/").
Proof. by vm_compute. Qed.

(** ** Path loops *)

Lemma quoted_loop_spec r raw raw' r' :
  quoted_loop r raw = inr (raw', r') → Forall path_char raw →
  Forall path_char raw' ∧ length r' < length r.
Proof.
  remember (length r) as n eqn:Hn. revert r raw Hn.
  induction n as [n IH] using lt_wf_ind. intros r raw -> Hr Hraw.
  destruct r as [|c r]; simpl in *; [done|].
  destruct (N.eqb c dquote) eqn:Eq; [simplify_eq; split; [done|simpl; lia]|].
  destruct (N.eqb c backslash) eqn:Eb.
  - destruct r as [|d r]; [done|]. destruct (N.eqb d dquote); [|done].
    eapply (IH (length r)) in Hr; [destruct Hr; split; [done|simpl; lia]|simpl; lia|done|].
    rewrite Forall_app. split; [done|]. repeat constructor. done.
  - destruct (is_control c) eqn:Ec; [done|].
    eapply (IH (length r)) in Hr; [destruct Hr; split; [done|simpl; lia]|simpl; lia|done|].
    rewrite Forall_app. split; [done|]. repeat constructor; [|done].
    by apply N.eqb_neq.
Qed.

Lemma unquoted_loop_spec r raw raw' r' :
  unquoted_loop r raw = inr (raw', r') → Forall path_char raw →
  Forall path_char raw' ∧ length r' ≤ length r.
Proof.
  revert raw. induction r as [|c r IH]; intros raw; simpl; [naive_solver|].
  intros H Hraw. break_in H; try (split; [done|simpl; lia]).
  apply IH in H as [? ?]; [split; [done|lia]|].
  rewrite Forall_app. split; [done|]. repeat constructor; [|done].
  by apply N.eqb_neq.
Qed.

Lemma pop_slash_Forall (P : N → Prop) raw : Forall P raw → Forall P (pop_slash raw).2.
Proof.
  unfold pop_slash. destruct (strip_suffix _ _) as [s|] eqn:E; [|done].
  apply strip_suffix_Some in E as ->. by intros [? ?]%Forall_app.
Qed.

Lemma strip_tree_marker_spec kind quoted raw r tree raw' r' :
  strip_tree_marker kind quoted raw r = (tree, raw', r') → Forall path_char raw →
  Forall path_char raw' ∧ length r' ≤ length r.
Proof.
  unfold strip_tree_marker. intros E H.
  destruct kind; [|destruct quoted].
  - simplify_eq. split; [|done]. apply pop_slash_Forall.
    destruct (strip_prefix _ raw) as [s|] eqn:E; [|done].
    apply strip_prefix_Some in E as ->. by apply Forall_app in H as [? ?].
  - destruct (strip_prefix _ r) as [s|] eqn:E'; simplify_eq; [|done].
    apply strip_prefix_Some in E' as ->. split; [done|simpl; lia].
  - pose proof (pop_slash_Forall path_char raw H).
    destruct (pop_slash raw); by simplify_eq.
Qed.

Lemma check_segments_valid kind segs :
  check_segments kind segs = None → Forall (Forall path_char) segs →
  Forall (λ seg, ch "/" ∉ seg) segs →
  Forall (λ seg, valid_path_segment seg = true) segs.
Proof.
  intros Hc Hp Hs. induction Hp as [|seg segs Hseg Hsegs IH]; [constructor|].
  inversion Hs as [|? ? Hslash Hs']; subst. simpl in Hc.
  break_in Hc. bool_prop. constructor; [|by apply IH].
  unfold valid_path_segment. rewrite !bool_decide_false by done.
  assert (∀ f : N → bool, (∀ c, c ∈ seg → f c = false) → existsb f seg = false) as Hex.
  { intros f Hf. apply not_true_iff_false. rewrite existsb_exists.
    intros (c & Hc1%list_elem_of_In & Hc2). by rewrite Hf in Hc2. }
  rewrite !Hex; [by rw_bools|..].
  - intros c Hin. rewrite Forall_forall in Hseg. by apply Hseg.
  - intros c Hin. rewrite Forall_forall in Hseg. destruct (Hseg c Hin) as [Hb _].
    apply orb_false_iff. split; apply N.eqb_neq; [|done]. by intros ->.
Qed.

(** ** Postconditions *)

(** [q] is [p] moved forward by at least [d] characters, in the same bracket. *)
Definition follows (d : nat) (p q : Parser) : Prop :=
  d + length (rest q) ≤ length (rest p)
  ∧ depth q = depth p ∧ max_nesting q = max_nesting p.

(** [m] returns, without running out of fuel or panicking; a value it returns
    satisfies [P], and the parser has moved forward by at least [d] characters
    in the same bracket. *)
Definition returns {A} (P : A → Prop) (d : nat) (p : Parser) (m : presult A) : Prop :=
  match m with
  | POk a p' => P a ∧ follows d p p'
  | PErr _ => True
  | PPanic | POutOfFuel => False
  end.

Lemma follows_refl p : follows 0 p p.
Proof. done. Qed.

Lemma follows_trans d e p q r : follows d p q → follows e q r → follows (d + e) p r.
Proof. unfold follows. intros (? & ? & ?) (? & ? & ?). repeat split; [lia|congruence..]. Qed.

Lemma follows_le d e p q : d ≤ e → follows e p q → follows d p q.
Proof. unfold follows. intros ? (? & ? & ?). split; [lia|done]. Qed.

Lemma returns_bind {A B} (P : A → Prop) (Q : B → Prop) d e f p q m k :
  returns P d q m → follows e p q →
  (∀ a p', P a → follows (e + d) p p' → returns Q f p (k a p')) →
  returns Q f p (pbind m k).
Proof.
  destruct m; simpl; try done. intros [Ha Hq] He Hk. apply Hk; [done|].
  by eapply follows_trans.
Qed.

(** A tail call. *)
Lemma returns_tail {A} (P Q : A → Prop) d e f p q m :
  follows e p q → returns P d q m → (∀ a, P a → Q a) → f ≤ e + d → returns Q f p m.
Proof.
  destruct m; simpl; try done. intros He [Ha Hd] HPQ Hf. split; [by apply HPQ|].
  eapply follows_le; [done|]. by eapply follows_trans.
Qed.

Lemma trim_start_length (P : N → bool) s :
  length (trim_start_matches P s) ≤ length s.
Proof. induction s as [|c s IH]; simpl; [done|]. destruct (P c); simpl; lia. Qed.

Lemma eat_Some pre p p' :
  eat pre p = Some p' → rest p = pre ++ rest p' ∧ p' = with_rest p (rest p').
Proof.
  unfold eat. intros (r & Hr%strip_prefix_Some & ->)%fmap_Some. done.
Qed.

Lemma eat_follows n pre p p' : eat pre p = Some p' → length pre = n → follows n p p'.
Proof.
  intros [Hr Hp]%eat_Some <-. unfold follows. rewrite Hr, Hp, length_app. done.
Qed.

Lemma skip_space_follows p : follows 0 p (snd (skip_space p)).
Proof. split; [apply trim_start_length|done]. Qed.

Lemma parse_path_returns kind p :
  returns (λ pt, path_wf pt.1) 0 p (parse_path kind p).
Proof.
  unfold parse_path.
  destruct (match eat [dquote] p with Some p1 => (true, p1) | None => (false, p) end)
    as [quoted p1] eqn:E1.
  assert (length (rest p1) ≤ length (rest p)) as Hp1.
  { destruct (eat [dquote] p) as [p'|] eqn:E; simplify_eq; [|done].
    apply (eat_follows 1) in E as [? _]; [|done]. lia. }
  destruct (if quoted then _ else _) as [e|[raw r]] eqn:E2; [done|].
  assert (Forall path_char raw ∧ length r ≤ length (rest p1)) as [Hraw Hr].
  { destruct quoted;
      [apply quoted_loop_spec in E2 as [? ?]|apply unquoted_loop_spec in E2 as [? ?]];
      try (split; [done|lia]); constructor. }
  clear E2.
  destruct (if quoted then None else _); [done|].
  destruct (strip_tree_marker kind quoted raw r) as [[tree raw'] r'] eqn:E3.
  apply strip_tree_marker_spec in E3 as [Hraw' Hr']; [|done].
  destruct (if quoted then quoted_lookahead r' else None); [done|].
  destruct (check_segments kind _) eqn:E4; [done|].
  assert (Forall (Forall path_char) (split_on (ch "/") raw')) as Hsegs
    by by apply split_on_chars.
  pose proof (check_segments_valid _ _ E4 Hsegs (split_on_pieces _ _)) as Hv.
  apply path_wf_intro in Hv; [|apply split_on_nonempty].
  unfold ViewPath_new. rewrite Hv. repeat split; [done|simpl; lia].
Qed.

(** ** Totality *)

(** A filter whose brackets fit in what the limit leaves at the parser's depth. *)
Definition fits (p : Parser) (f : Filter) : Prop :=
  filter_wf f ∧ depth p + nesting f ≤ max_nesting p.

Lemma fits_follows d p q f : follows d p q → fits q f ↔ fits p f.
Proof. unfold fits. by intros (_ & -> & ->). Qed.

Lemma fits_chain p ops :
  depth p ≤ max_nesting p → Forall (fits p) ops →
  fits p (match ops with [op] => op | _ => Chain ops end).
Proof.
  intros Hd H.
  assert (fits p (Chain ops)) as Hc.
  { split; [apply filter_wf_chain|].
    - eapply Forall_impl; [done|]. by intros f [? _].
    - enough (nesting (Chain ops) ≤ max_nesting p - depth p) by lia.
      apply nesting_chain_le. eapply Forall_impl; [done|]. intros f [_ ?]. lia. }
  destruct H as [|f ops Hf Hops]; [done|]. by destruct Hops.
Qed.

Lemma fits_compose p q fs :
  depth q = S (depth p) → max_nesting q = max_nesting p → depth q ≤ max_nesting q →
  Forall (fits q) fs → fits p (Compose fs).
Proof.
  intros Hd Hm Hle H. split.
  - apply filter_wf_compose. eapply Forall_impl; [done|]. by intros f [? _].
  - enough (nesting (Compose fs) ≤ S (max_nesting q - depth q)) by lia.
    apply nesting_compose_le. eapply Forall_impl; [done|]. intros f [_ ?]. lia.
Qed.

Lemma exclude_loop_returns fuel acc p :
  length (rest p) < fuel → depth p ≤ max_nesting p →
  Forall (λ s, path_wf (selector_path s)) acc →
  returns (fits p) 1 p (exclude_loop fuel acc p).
Proof.
  revert acc p. induction fuel as [|fuel IH]; intros acc p Hf Hd Hacc; [lia|].
  cbn [exclude_loop].
  destruct (eat (lit "::") p) as [p1|] eqn:E1; [|done].
  apply (eat_follows 2) in E1; [|done].
  eapply returns_bind; [apply parse_path_returns|done|].
  intros [path tree] p2 Hpath H2. simpl in Hpath.
  pose proof (follows_trans _ _ _ _ _ H2 (skip_space_follows p2)) as H3.
  set (p3 := snd (skip_space p2)) in *.
  assert (Forall (λ s, path_wf (selector_path s))
            (acc ++ [if tree then Tree path else Entry path])) as Hacc'.
  { rewrite Forall_app. split; [done|]. by destruct tree; repeat constructor. }
  destruct (eat (lit ",") p3) as [p4|] eqn:E4.
  - apply (eat_follows 1) in E4; [|done]. pose proof (follows_trans _ _ _ _ _ H3 E4) as H4.
    pose proof (follows_trans _ _ _ _ _ H4 (skip_space_follows p4)) as H5.
    pose proof H5 as (? & ? & ?).
    eapply returns_tail; [exact H5|apply IH; [lia|lia|done]| |simpl; lia].
    intros f. by apply (fits_follows _ _ _ _ H5).
  - destruct (eat (lit "]") p3) as [p4|] eqn:E4'; [|done].
    apply (eat_follows 1) in E4'; [|done]. pose proof (follows_trans _ _ _ _ _ H3 E4') as H4.
    split; [split; [done|simpl; lia]|]. eapply follows_le; [|done]. simpl; lia.
Qed.

(** What each function of the grammar returns, given enough fuel. *)
Definition chain_returns (fuel : nat) : Prop :=
  ∀ acc p, 4 * length (rest p) + 1 ≤ fuel → depth p ≤ max_nesting p →
    Forall (fits p) acc → returns (fits p) 1 p (chain_loop fuel acc p).
Definition op_returns (fuel : nat) : Prop :=
  ∀ p, 4 * length (rest p) ≤ fuel → 1 ≤ fuel → depth p ≤ max_nesting p →
    returns (fits p) 1 p (parse_op fuel p).
Definition compose_returns (fuel : nat) : Prop :=
  ∀ p, 4 * length (rest p) + 3 ≤ fuel → depth p ≤ max_nesting p →
    returns (fits p) 0 p (parse_compose fuel p).
Definition loop_returns (fuel : nat) : Prop :=
  ∀ acc p, 4 * length (rest p) + 2 ≤ fuel → depth p ≤ max_nesting p →
    Forall (fits p) acc → returns (Forall (fits p)) 1 p (compose_loop fuel acc p).

Lemma chain_returns_S fuel : op_returns fuel → chain_returns fuel → chain_returns (S fuel).
Proof.
  intros IHop IHchain. intros acc p Hf Hd Hacc. cbn [chain_loop].
  case_bool_decide as Hpeek; [|done].
  assert (length (rest p) ≠ 0) by (unfold peek in Hpeek; by destruct (rest p)).
  eapply returns_bind; [apply IHop; lia|apply follows_refl|]. intros op p1 Hop H1.
  destruct (skip_space p1) as [spaced p2] eqn:E2.
  assert (follows 1 p p2) as H2.
  { pose proof (skip_space_follows p1) as Hs. rewrite E2 in Hs.
    by eapply (follows_trans 1 0). }
  assert (Forall (fits p) (acc ++ [op])) as Hacc' by (rewrite Forall_app; auto).
  pose proof (fits_chain p _ Hd Hacc') as Hfin. pose proof H2 as (? & ? & ?).
  destruct (peek p2) as [c|]; [|done].
  destruct (N.eqb c (ch ":")); [destruct spaced; [done|]|by destruct (_ || _)].
  eapply returns_tail; [exact H2|apply IHchain; [lia|lia|]| |lia].
  + eapply Forall_impl; [done|]. intros f. by apply (fits_follows _ _ _ _ H2).
  + intros f. by apply (fits_follows _ _ _ _ H2).
Qed.

Lemma op_returns_S fuel : compose_returns fuel → op_returns (S fuel).
Proof.
  intros IHcompose. intros p Hf Hf1 Hd. cbn [parse_op].
  destruct (eat (lit ":prefix=") p) as [p1|] eqn:E1.
  { apply (eat_follows 8) in E1; [|done].
    eapply returns_bind; [apply parse_path_returns|done|].
    intros [path tree] p2 Hp H2. split; [split; [done|simpl; lia]|].
    eapply follows_le; [|done]. lia. }
  destruct (eat (lit ":exclude[") p) as [p1|] eqn:E2.
  { apply (eat_follows 9) in E2; [|done]. pose proof E2 as (? & ? & ?).
    pose proof (follows_trans _ _ _ _ _ E2 (skip_space_follows p1)) as E3.
    pose proof E3 as (? & ? & ?).
    eapply returns_tail; [exact E3|apply exclude_loop_returns; [lia|lia|constructor]| |lia].
    intros f. by apply (fits_follows _ _ _ _ E3). }
  destruct (eat (lit ":[") p) as [p1|] eqn:E3.
  { apply (eat_follows 2) in E3; [|done]. pose proof E3 as (? & ? & ?).
    eapply returns_tail; [exact E3|apply IHcompose; lia| |lia].
    intros f. by apply (fits_follows _ _ _ _ E3). }
  destruct (eat (lit ":/") p) as [p1|] eqn:E4.
  { apply (eat_follows 2) in E4; [|done].
    eapply returns_bind; [apply parse_path_returns|done|].
    intros [path tree] p2 Hp H2. split; [split; [done|simpl; lia]|].
    eapply follows_le; [|done]. lia. }
  destruct (eat (lit ":nop") p) as [p1|] eqn:E5.
  { apply (eat_follows 4) in E5; [|done]. split; [split; [done|simpl; lia]|].
    eapply follows_le; [|done]. lia. }
  destruct (eat (lit ":empty") p) as [p1|] eqn:E6; [|done].
  apply (eat_follows 6) in E6; [|done]. split; [split; [done|simpl; lia]|].
  eapply follows_le; [|done]. lia.
Qed.

Lemma compose_returns_S fuel : loop_returns fuel → compose_returns (S fuel).
Proof.
  intros IHloop. intros p Hf Hd. cbn [parse_compose].
  set (p1 := mk_Parser (rest p) (S (depth p)) (max_nesting p)).
  destruct (Nat.ltb_spec (max_nesting p1) (depth p1)) as [|Hle]; [done|].
  pose proof (skip_space_follows p1) as H1. pose proof H1 as (? & ? & ?).
  specialize (IHloop [] (snd (skip_space p1)) ltac:(simpl in *; lia) ltac:(lia)
    ltac:(constructor)).
  destruct (compose_loop fuel [] _) as [fs p2| | |]; simpl; try done.
  destruct IHloop as [Hfs Hf2]. pose proof Hf2 as (? & ? & ?). split.
  + eapply (fits_compose p p1); [done..|]. eapply Forall_impl; [done|].
    intros f. by apply (fits_follows _ _ _ _ H1).
  + repeat split; simpl in *; lia.
Qed.

Lemma loop_returns_S fuel : chain_returns fuel → loop_returns fuel → loop_returns (S fuel).
Proof.
  intros IHchain IHloop. intros acc p Hf Hd Hacc. cbn [compose_loop].
  eapply returns_bind; [apply IHchain; [lia|done|constructor]|apply follows_refl|].
  intros member p1 Hm H1.
  pose proof (follows_trans _ _ _ _ _ H1 (skip_space_follows p1)) as H2.
  assert (Forall (fits p) (acc ++ [member])) as Hacc' by (rewrite Forall_app; auto).
  set (p2 := snd (skip_space p1)) in *.
  destruct (eat (lit ",") p2) as [p3|] eqn:E3.
  + apply (eat_follows 1) in E3; [|done].
    pose proof (follows_trans _ _ _ _ _ H2 E3) as H3.
    pose proof (follows_trans _ _ _ _ _ H3 (skip_space_follows p3)) as H4.
    pose proof H4 as (? & ? & ?).
    eapply returns_tail; [exact H4|apply IHloop; [lia|lia|]| |lia].
    * eapply Forall_impl; [done|]. intros f. by apply (fits_follows _ _ _ _ H4).
    * intros fs Hfs. eapply Forall_impl; [done|].
      intros f. by apply (fits_follows _ _ _ _ H4).
  + destruct (eat (lit "]") p2) as [p3|] eqn:E3'; [|done].
    apply (eat_follows 1) in E3'; [|done]. split; [done|].
    eapply follows_le; [|by eapply follows_trans]. lia.
Qed.

Lemma grammar_returns fuel :
  chain_returns fuel ∧ op_returns fuel ∧ compose_returns fuel ∧ loop_returns fuel.
Proof.
  induction fuel as [|fuel (IHchain & IHop & IHcompose & IHloop)].
  - repeat split; intro; intros; lia.
  - auto using chain_returns_S, op_returns_S, compose_returns_S, loop_returns_S.
Qed.

(** The parser returns: it neither runs out of fuel nor trips the assertion of
    [ViewPath::new], and the filter it returns is well formed and within the
    nesting limit. *)
Lemma parse_with_max_returns s max :
  returns (λ f, filter_wf f ∧ nesting f ≤ max) 0 (mk_Parser s 0 max) (parse_with_max s max).
Proof.
  unfold parse_with_max, parse_chain. set (p0 := mk_Parser s 0 max).
  pose proof (skip_space_follows p0) as H0.
  assert (length (rest (snd (skip_space p0))) ≤ length s) by apply H0.
  eapply returns_bind; [|exact H0|].
  - apply (grammar_returns (parse_fuel s)); [unfold parse_fuel; lia|simpl; lia|constructor].
  - intros f p1 Hf H1. apply (fits_follows _ _ _ _ H0) in Hf.
    case_bool_decide; [|done]. split; [exact Hf|].
    eapply follows_le; [|by eapply follows_trans, skip_space_follows]. lia.
Qed.
