(* ===== verification/FilterRoundTrip.v ===== *)
(** * View filters: printing and parsing back

    [print] of [src/ceres/view/filter/canonical.rs] followed by the parser of
    [src/ceres/view/filter/parse.rs] is the identity on every filter the grammar
    can write ([printable]), whatever the nesting limit that admits it. *)
From stdpp Require Import base strings sets numbers tactics list.
From S2P Require Import Prelude Text FilterSyntax FilterParse.

(** ** Filters with a textual form *)

Definition is_chain (f : Filter) : bool := match f with Chain _ => true | _ => false end.

(** Non-empty brackets, chains of two or more operators that are no chains. *)
Fixpoint printable (f : Filter) : Prop :=
  match f with
  | Subdir p | Prefix p => path_wf p
  | Exclude sels => sels ≠ [] ∧ Forall (λ s, path_wf (selector_path s)) sels
  | Compose fs => fs ≠ [] ∧ foldr (λ g P, printable g ∧ P) True fs
  | Chain fs => 2 ≤ length fs ∧ Forall (λ g, is_chain g = false) fs
                ∧ foldr (λ g P, printable g ∧ P) True fs
  | Nop | Empty => True
  end.

(** What may follow an operator, and what may follow a chain. *)
Definition ends_op (k : text) : Prop := from_option is_delim true (head k) = true.
Definition ends_chain (k : text) : Prop :=
  from_option (λ c, N.eqb c (ch ",") || N.eqb c (ch "]")) true (head k) = true.

#[local] Arguments print_path : simpl never.
#[local] Arguments join : simpl never.
#[local] Arguments parse_path : simpl never.
#[local] Arguments skip_space : simpl never.

(** ** Path text *)

Lemma ends_chain_op k : ends_chain k → ends_op k.
Proof.
  unfold ends_chain, ends_op. destruct k as [|c k]; simpl; [done|].
  unfold is_delim. simpl. lia.
Qed.

Lemma delim_char c :
  is_delim c = true →
  is_space c = false ∧ N.eqb c backslash = false ∧ N.eqb c (ch "/") = false
  ∧ N.eqb c (ch "/") || is_safe c = false.
Proof.
  unfold is_safe, is_delim, is_space, is_control, is_ascii_alphanumeric,
    is_ascii_alphabetic, is_ascii_digit, is_whitespace, is_ascii, in_range, ch,
    backslash; simpl. intros H. repeat split; lia.
Qed.

Lemma quoted_loop_print t k raw :
  Forall path_char t →
  quoted_loop (replace_char dquote [backslash; dquote] t ++ dquote :: k) raw
  = inr (raw ++ t, k).
Proof.
  intros Ht. revert raw. induction Ht as [|c t [Hb Hc] Ht IH]; intros raw.
  - simpl. by rewrite app_nil_r.
  - unfold replace_char in *. simpl. destruct (N.eqb c dquote) eqn:E.
    + apply N.eqb_eq in E as ->. simpl. rewrite IH. by rewrite <-app_assoc.
    + simpl. rewrite E. apply N.eqb_neq in Hb. rewrite Hb, Hc, IH.
      by rewrite <-app_assoc.
Qed.

Lemma unquoted_loop_print t k raw :
  forallb (λ c, N.eqb c (ch "/") || is_safe c) t = true → ends_op k →
  unquoted_loop (t ++ k) raw = inr (raw ++ t, k).
Proof.
  intros Ht Hk. revert raw. induction t as [|c t IH]; intros raw; simpl in *.
  - rewrite app_nil_r. destruct k as [|c k]; simpl in *; [done|].
    unfold ends_op in Hk. simpl in Hk. by rewrite Hk.
  - apply andb_true_iff in Ht as [Hc Ht].
    destruct (safe_char c Hc) as (-> & -> & -> & -> & ->). rewrite Hc, IH by done.
    by rewrite <-app_assoc.
Qed.

Lemma lookahead_ends k :
  ends_op k → unquoted_lookahead k = None ∧ quoted_lookahead k = None
  ∧ strip_prefix [ch "/"] k = None.
Proof.
  unfold ends_op, unquoted_lookahead, quoted_lookahead.
  destruct k as [|c k]; simpl; [done|]. intros H.
  destruct (delim_char c H) as (H1 & H2 & H3 & H4). simpl in *.
  rewrite H1, H2, H4, H. repeat split. unfold ch in *. simpl in *.
  by rewrite N.eqb_sym, H3.
Qed.

Lemma check_segments_ok kind segs :
  Forall (λ s, valid_path_segment s = true) segs → check_segments kind segs = None.
Proof.
  induction 1 as [|seg segs Hseg Hsegs IH]; simpl; [done|].
  destruct (valid_segment_shape seg Hseg) as (? & ? & ? & H1 & H2).
  rewrite !bool_decide_false by done. by rewrite H1, H2.
Qed.

(** The text of a valid path: split gives it back, and no slash is at its ends. *)
Lemma path_text p :
  path_wf p →
  Forall path_char (join (ch "/") (segments p))
  ∧ split_on (ch "/") (join (ch "/") (segments p)) = segments p
  ∧ strip_prefix [ch "/"] (join (ch "/") (segments p)) = None
  ∧ pop_slash (join (ch "/") (segments p)) = (false, join (ch "/") (segments p))
  ∧ join (ch "/") (segments p) ≠ [].
Proof.
  intros [Hne Hv]%path_wf_segments.
  assert (Forall (λ s, ch "/" ∉ s) (segments p)) as Hns.
  { eapply Forall_impl; [done|]. intros s Hs Hin.
    by destruct (valid_segment_chars s _ Hs Hin). }
  assert (∀ s, s ∈ segments p → s ≠ []) as Hnil.
  { intros s Hs. rewrite Forall_forall in Hv. by apply Hv, valid_segment_shape in Hs as []. }
  assert (∀ c r s, s ∈ segments p → c ∈ s → c = ch "/" → r) as Hno.
  { intros c r s Hs Hc ->. rewrite Forall_forall in Hns. by apply Hns in Hs. }
  split; [|split; [by apply split_join|split; [|split]]].
  - apply join_Forall; [apply slash_path_char|].
    eapply Forall_impl; [exact Hv|]. intros s Hs. apply Forall_forall. intros c Hc.
    by destruct (valid_segment_chars s c Hs Hc) as (_ & ? & ?).
  - destruct (strip_prefix _ _) as [r|] eqn:E; [|done].
    apply strip_prefix_Some in E. destruct (segments p) as [|s segs]; [done|].
    destruct (join_cons_hd (ch "/") s segs) as [r' Hr'].
    destruct s as [|c s]; [by destruct (Hnil []); [left|]|].
    rewrite Hr' in E. simplify_eq/=. by eapply (Hno _ _ (ch "/" :: s)); [left|left|].
  - unfold pop_slash. destruct (strip_suffix _ _) as [r|] eqn:E; [|done].
    apply strip_suffix_Some in E.
    destruct (last (segments p)) as [s|] eqn:Hl; [|by apply last_None in Hl].
    destruct (join_last (ch "/") _ _ Hl) as [r' Hr'].
    assert (s ∈ segments p) as Hin by by apply last_Some_elem_of.
    destruct s as [|c s _] using rev_ind; [by destruct (Hnil [])|].
    rewrite Hr', app_assoc in E. apply app_inj_tail in E as [_ ->].
    eapply (Hno _ _ (s ++ [ch "/"])); [done| |done]. apply elem_of_app. right. by left.
  - destruct (segments p) as [|s segs]; [done|].
    destruct (join_cons_hd (ch "/") s segs) as [r' ->].
    destruct s; [by destruct (Hnil []); [left|]|done].
Qed.

(** ** Paths *)

(** The unquoted text of a path does not start with a quote. *)
Lemma eat_quote_safe p t k :
  rest p = t ++ k → t ≠ [] →
  forallb (λ c, N.eqb c (ch "/") || is_safe c) t = true → eat [dquote] p = None.
Proof.
  intros Hr Hne Ht. unfold eat. rewrite Hr. destruct t as [|c t]; [done|].
  simpl in *. apply andb_true_iff in Ht as [Hc _].
  destruct (safe_char c Hc) as (_ & _ & Hq & _). by rewrite N.eqb_sym, Hq.
Qed.

Lemma eat_quote p t : rest p = dquote :: t → eat [dquote] p = Some (with_rest p t).
Proof. unfold eat. by intros ->. Qed.

Lemma parse_path_operator path p k :
  path_wf path → rest p = print_path path ++ k → ends_op k →
  parse_path Operator p = POk (path, false) (with_rest p k).
Proof.
  intros Hwf Hr Hk. destruct (path_text path Hwf) as (Hc & Hsplit & Hpre & Hpop & Hne).
  destruct (lookahead_ends k Hk) as (Hu & Hq & _).
  unfold print_path in Hr. unfold parse_path.
  destruct (forallb _ (join (ch "/") (segments path))) eqn:Hsafe.
  - rewrite (eat_quote_safe _ _ _ Hr Hne Hsafe), Hr.
    rewrite unquoted_loop_print by done. cbn [app].
    rewrite Hu. unfold strip_tree_marker. rewrite Hpre. cbn [default from_option]. rewrite Hpop. cbn [snd].
    rewrite Hsplit, check_segments_ok by (by apply path_wf_segments).
    by rewrite path_wf_new.
  - rewrite <-app_comm_cons, <-app_assoc in Hr.
    rewrite (eat_quote _ _ Hr). cbn [app with_rest rest].
    rewrite quoted_loop_print by done. cbn [app].
    unfold strip_tree_marker. rewrite Hpre. cbn [default from_option]. rewrite Hpop. cbn [snd].
    rewrite Hq, Hsplit, check_segments_ok by (by apply path_wf_segments).
    by rewrite path_wf_new.
Qed.

Lemma pop_slash_app t : pop_slash (t ++ [ch "/"]) = (true, t).
Proof.
  unfold pop_slash. destruct (strip_suffix _ _) as [s|] eqn:E.
  - apply strip_suffix_Some in E. by apply app_inj_tail in E as [-> _].
  - assert (strip_suffix [ch "/"] (t ++ [ch "/"]) = Some t) as H
      by by apply strip_suffix_Some. by rewrite H in E.
Qed.

Lemma parse_path_selector s p k :
  path_wf (selector_path s) → lit "::" ++ rest p = print_selector s ++ k → ends_op k →
  parse_path SelectorPath p
  = POk (selector_path s, match s with Tree _ => true | Entry _ => false end) (with_rest p k).
Proof.
  intros Hwf Hr Hk.
  destruct (path_text _ Hwf) as (Hc & Hsplit & Hpre & Hpop & Hne).
  destruct (lookahead_ends k Hk) as (Hu & Hq & Hs).
  set (t := join (ch "/") (segments (selector_path s))) in *.
  set (tree := match s with Tree _ => true | Entry _ => false end).
  assert (rest p = print_path (selector_path s) ++ (if tree then [ch "/"] else []) ++ k) as Hr'.
  { destruct s; cbn [print_selector] in Hr; rewrite <-?app_assoc in Hr;
      by apply app_inv_head in Hr. }
  unfold print_path in Hr'. fold t in Hr'. unfold parse_path.
  destruct (forallb _ t) eqn:Hsafe.
  - assert (forallb (λ c, N.eqb c (ch "/") || is_safe c)
      (t ++ (if tree then [ch "/"] else [])) = true) as Hsafe'.
    { rewrite forallb_app, Hsafe. by destruct tree. }
    rewrite app_assoc in Hr'.
    rewrite (eat_quote_safe _ _ _ Hr'), Hr'; [|by destruct t|done].
    rewrite unquoted_loop_print by done. cbn [app]. rewrite Hu.
    unfold strip_tree_marker.
    assert (pop_slash (t ++ (if tree then [ch "/"] else [])) = (tree, t)) as ->.
    { destruct tree; [apply pop_slash_app|by rewrite app_nil_r]. }
    rewrite Hsplit, check_segments_ok by (by apply path_wf_segments).
    by rewrite path_wf_new.
  - rewrite <-app_comm_cons, <-!app_assoc in Hr'.
    rewrite (eat_quote _ _ Hr'). cbn [app with_rest rest].
    rewrite quoted_loop_print by done. cbn [app].
    unfold strip_tree_marker.
    destruct tree; cbn [app].
    + rewrite (strip_prefix_app [ch "/"] k : strip_prefix _ (ch "/" :: k) = _), Hq.
      rewrite Hsplit, check_segments_ok by (by apply path_wf_segments).
      by rewrite path_wf_new.
    + rewrite Hs, Hq.
      rewrite Hsplit, check_segments_ok by (by apply path_wf_segments).
      by rewrite path_wf_new.
Qed.

(** ** Grammar *)

Lemma with_rest_id p r : rest p = r → with_rest p r = p.
Proof. destruct p; by intros <-. Qed.

Lemma skip_space_id p :
  from_option is_space false (head (rest p)) = false → skip_space p = (false, p).
Proof.
  intros H. unfold skip_space.
  assert (trim_start_matches is_space (rest p) = rest p) as ->.
  { destruct (rest p) as [|c r]; [done|]. simpl in *. by rewrite H. }
  rewrite bool_decide_true by done. by rewrite with_rest_id.
Qed.

Lemma ends_op_no_space k : ends_op k → from_option is_space false (head k) = false.
Proof.
  unfold ends_op. destruct k as [|c k]; simpl; [done|]. by intros []%delim_char.
Qed.

Lemma eat_app pre p k : rest p = pre ++ k → eat pre p = Some (with_rest p k).
Proof. intros H. unfold eat. by rewrite H, strip_prefix_app. Qed.

Lemma print_colon f : printable f → ∃ r, print f = ch ":" :: r.
Proof.
  induction f as [p|p|sels|fs IH|fs IH| |] using filter_ind; try by eexists.
  intros (Hlen & _ & Hp). destruct IH as [|f fs Hf _]; [simpl in *; lia|].
  destruct Hp as [[r Hr]%Hf _].
  exists (r ++ concat (map print fs)). simpl. by rewrite Hr.
Qed.

(** One element of an [:exclude[...]] list, with what follows it. *)
Lemma exclude_step fuel acc s p k :
  path_wf (selector_path s) → rest p = print_selector s ++ k → ends_op k →
  exclude_loop (S fuel) acc p =
    match eat (lit ",") (with_rest p k) with
    | Some p4 => exclude_loop fuel (acc ++ [s]) (snd (skip_space p4))
    | None => match eat (lit "]") (with_rest p k) with
              | Some p4 => POk (Exclude (acc ++ [s])) p4
              | None => PErr Syntax
              end
    end.
Proof.
  intros Hs Hr Hk. cbn [exclude_loop].
  assert (∃ r, print_selector s = lit "::" ++ r) as [r Hpr] by (destruct s; by eexists).
  rewrite (eat_app (lit "::") p (r ++ k)) by by rewrite Hr, Hpr, app_assoc.
  rewrite (parse_path_selector s _ k); [|done|by rewrite Hpr, <-app_assoc|done].
  cbn [pbind]. rewrite skip_space_id by by apply ends_op_no_space.
  by destruct s.
Qed.

Lemma exclude_loop_print sels acc fuel p k :
  sels ≠ [] → Forall (λ s, path_wf (selector_path s)) sels →
  rest p = join (ch ",") (map print_selector sels) ++ ch "]" :: k →
  length (rest p) < fuel →
  exclude_loop fuel acc p = POk (Exclude (acc ++ sels)) (with_rest p k).
Proof.
  intros Hne Hs. revert acc fuel p. induction Hs as [|s sels Hs Hsels IH]; [done|].
  intros acc fuel p Hr Hf. destruct fuel as [|fuel]; [lia|].
  destruct sels as [|s' sels]; cbn [map] in Hr.
  - rewrite (exclude_step fuel acc s p (ch "]" :: k)) by done.
    done.
  - change (join (ch ",") (?a :: ?l)) with (a ++ ch "," :: join (ch ",") l) in Hr.
    rewrite <-app_assoc in Hr.
    rewrite (exclude_step fuel acc s p _ Hs Hr) by done.
    rewrite (eat_app (lit ",") _ (join (ch ",") (map print_selector (s' :: sels)) ++ ch "]" :: k)) by done.
    assert (∃ r, join (ch ",") (map print_selector (s' :: sels)) = ch ":" :: r) as [r Hj].
    { cbn [map]. destruct (join_cons_hd (ch ",") (print_selector s') (map print_selector sels)) as [r ->].
      destruct s'; by eexists. }
    rewrite skip_space_id by by rewrite Hj. cbn [snd].
    rewrite IH; [by rewrite <-app_assoc|done|done|].
    rewrite Hr, length_app in Hf. simpl in *. lia.
Qed.

(** The result of parsing the text of [f], for an operator and for a chain. *)
Definition op_prints (f : Filter) : Prop := ∀ fuel p k,
  rest p = print f ++ k → ends_op k → 4 * length (rest p) ≤ fuel →
  depth p + nesting f ≤ max_nesting p → parse_op fuel p = POk f (with_rest p k).

Definition chain_prints (f : Filter) : Prop := ∀ fuel p k,
  rest p = print f ++ k → ends_chain k → 4 * length (rest p) + 1 ≤ fuel →
  depth p + nesting f ≤ max_nesting p → chain_loop fuel [] p = POk f (with_rest p k).

Definition chain_of (ops : list Filter) : Filter :=
  match ops with [op] => op | _ => Chain ops end.

Lemma chain_loop_print ops acc fuel p k :
  ops ≠ [] → Forall op_prints ops → Forall printable ops →
  Forall (λ f, depth p + nesting f ≤ max_nesting p) ops →
  rest p = concat (map print ops) ++ k → ends_chain k →
  4 * length (rest p) + 1 ≤ fuel →
  chain_loop fuel acc p = POk (chain_of (acc ++ ops)) (with_rest p k).
Proof.
  intros Hne Hops. revert acc fuel p. induction Hops as [|op ops Hop Hops IH]; [done|].
  intros acc fuel p Hpr Hn Hr Hk Hf. destruct fuel as [|fuel]; [lia|].
  inversion Hpr as [|? ? Hpop Hpops]; inversion Hn as [|? ? Hnop Hnops]; subst.
  destruct (print_colon op Hpop) as [r Hcolon].
  cbn [map concat] in Hr. rewrite <-app_assoc in Hr. cbn [chain_loop].
  rewrite bool_decide_true by (unfold peek; by rewrite Hr, Hcolon).
  set (k1 := concat (map print ops) ++ k) in *.
  assert (ends_op k1 ∧ from_option (N.eqb (ch ":")) false (head k1) = bool_decide (ops ≠ []))
    as [Hk1 Hhd].
  { destruct ops as [|op' ops].
    - split; [by apply ends_chain_op|]. rewrite bool_decide_false by naive_solver.
      unfold k1. simpl. unfold ends_chain in Hk. destruct k as [|c k]; simpl in *; [done|].
      unfold ch in *; simpl in *. lia.
    - inversion Hpops as [|? ? Hpop' _]; subst.
      destruct (print_colon op' Hpop') as [r' Hr']. unfold k1. simpl. rewrite Hr'. done. }
  rewrite (Hop fuel p k1) by (done || lia). cbn [pbind].
  rewrite skip_space_id by by apply ends_op_no_space. cbn [peek with_rest rest].
  destruct ops as [|op' ops].
  - change k1 with k. rewrite bool_decide_false in Hhd by naive_solver.
    change (head k1) with (head k) in Hhd. unfold peek. cbn [with_rest rest].
    unfold ends_chain in Hk. destruct (head k) as [c|]; [|done].
    cbn [from_option] in Hhd, Hk. rewrite N.eqb_sym, Hhd, Hk. done.
  - rewrite bool_decide_true in Hhd by done. unfold peek. cbn [with_rest rest].
    destruct (head k1) as [c|]; [|done]. cbn [from_option] in Hhd.
    rewrite N.eqb_sym, Hhd.
    rewrite IH; [by rewrite <-app_assoc|done|done| |done|done|].
    + eapply Forall_impl; [done|]. done.
    + cbn [with_rest rest]. rewrite Hr, Hcolon, length_app in Hf. simpl in Hf. lia.
Qed.

Lemma compose_loop_print fs acc fuel p k :
  fs ≠ [] → Forall chain_prints fs → Forall printable fs →
  Forall (λ f, depth p + nesting f ≤ max_nesting p) fs →
  rest p = join (ch ",") (map print fs) ++ ch "]" :: k →
  4 * length (rest p) + 2 ≤ fuel →
  compose_loop fuel acc p = POk (acc ++ fs) (with_rest p k).
Proof.
  intros Hne Hfs. revert acc fuel p. induction Hfs as [|f fs Hf Hfs IH]; [done|].
  intros acc fuel p Hpr Hn Hr Hfuel. destruct fuel as [|fuel]; [lia|].
  inversion Hpr as [|? ? Hpf Hpfs]; inversion Hn as [|? ? Hnf Hnfs]; subst.
  cbn [compose_loop map] in *. destruct fs as [|f' fs].
  - change (join (ch ",") [?a]) with a in Hr.
    rewrite (Hf fuel p _ Hr) by (done || lia). cbn [pbind].
    by rewrite skip_space_id by done.
  - change (join (ch ",") (?a :: ?l)) with (a ++ ch "," :: join (ch ",") l) in Hr.
    rewrite <-app_assoc in Hr.
    rewrite (Hf fuel p _ Hr) by (done || lia). cbn [pbind].
    rewrite skip_space_id by done. cbn [snd].
    rewrite (eat_app (lit ",") _ (join (ch ",") (map print (f' :: fs)) ++ ch "]" :: k)) by done.
    assert (∃ r, join (ch ",") (map print (f' :: fs)) = ch ":" :: r) as [r Hj].
    { cbn [map]. destruct (join_cons_hd (ch ",") (print f') (map print fs)) as [r ->].
      inversion Hpfs as [|? ? Hpf' _]; subst.
      destruct (print_colon f' Hpf') as [r' ->]. by eexists. }
    rewrite skip_space_id by by rewrite Hj. cbn [snd].
    rewrite IH; [by rewrite <-app_assoc|done|done|by eapply Forall_impl|done|].
    rewrite Hr, length_app in Hfuel. simpl in *. lia.
Qed.

(** Fails every alternative of [parse_op] before the one whose keyword is read. *)
Ltac eat_next Hr :=
  match goal with
  | |- context [eat ?pre ?p] =>
      replace (eat pre p) with (@None Parser) by (unfold eat; rewrite Hr; done)
  end.

Lemma op_prints_chain f :
  is_chain f = false → printable f → op_prints f → chain_prints f.
Proof.
  intros Hc Hp Hop fuel p k Hr Hk Hf Hn.
  rewrite (chain_loop_print [f] [] fuel p k); [done|done|auto|auto|auto| |done|done].
  simpl. by rewrite app_nil_r.
Qed.

Lemma op_prints_subdir path : path_wf path → op_prints (Subdir path).
Proof.
  intros Hwf fuel p k Hr Hk Hf Hn. cbn [print] in Hr. rewrite <-app_assoc in Hr.
  assert (length (rest p) ≠ 0) by (by rewrite Hr). destruct fuel as [|fuel]; [lia|].
  cbn [parse_op]. do 3 eat_next Hr. rewrite (eat_app _ _ _ Hr).
  by rewrite (parse_path_operator path _ k).
Qed.

Lemma op_prints_prefix path : path_wf path → op_prints (Prefix path).
Proof.
  intros Hwf fuel p k Hr Hk Hf Hn. cbn [print] in Hr. rewrite <-app_assoc in Hr.
  assert (length (rest p) ≠ 0) by (by rewrite Hr). destruct fuel as [|fuel]; [lia|].
  cbn [parse_op]. rewrite (eat_app _ _ _ Hr).
  by rewrite (parse_path_operator path _ k).
Qed.

Lemma op_prints_exclude sels :
  sels ≠ [] → Forall (λ s, path_wf (selector_path s)) sels → op_prints (Exclude sels).
Proof.
  intros Hne Hs fuel p k Hr Hk Hf Hn. cbn [print] in Hr. rewrite <-!app_assoc in Hr.
  assert (length (rest p) ≠ 0) by (by rewrite Hr). destruct fuel as [|fuel]; [lia|].
  cbn [parse_op]. eat_next Hr. rewrite (eat_app _ _ _ Hr). unfold parse_exclude.
  assert (∃ r, join (ch ",") (map print_selector sels) = ch ":" :: r) as [r Hj].
  { destruct sels as [|s sels]; [done|]. cbn [map].
    destruct (join_cons_hd (ch ",") (print_selector s) (map print_selector sels)) as [r ->].
    destruct s; by eexists. }
  rewrite skip_space_id by by rewrite Hj. cbn [snd].
  rewrite (exclude_loop_print sels [] fuel _ k); [done|done|done|done|].
  rewrite Hr in Hf. cbn [with_rest rest]. rewrite length_app in Hf. simpl in *. lia.
Qed.

Lemma op_prints_compose fs :
  fs ≠ [] → Forall printable fs → Forall chain_prints fs → op_prints (Compose fs).
Proof.
  intros Hne Hp Hc fuel p k Hr Hk Hf Hn. cbn [print] in Hr. rewrite <-!app_assoc in Hr.
  assert (length (rest p) ≠ 0) by (by rewrite Hr). destruct fuel as [|fuel]; [lia|].
  cbn [parse_op]. do 2 eat_next Hr. rewrite (eat_app _ _ _ Hr).
  rewrite Hr, length_app in Hf. change (length (lit ":[")) with 2 in Hf.
  destruct fuel as [|fuel]; [lia|]. cbn [parse_compose].
  assert (∃ r, join (ch ",") (map print fs) = ch ":" :: r) as [r Hj].
  { destruct fs as [|f fs]; [done|]. cbn [map].
    destruct (join_cons_hd (ch ",") (print f) (map print fs)) as [r ->].
    inversion Hp as [|? ? Hpf _]; subst. destruct (print_colon f Hpf) as [r' ->].
    by eexists. }
  rewrite skip_space_id by by rewrite Hj. cbn [snd with_rest depth max_nesting rest].
  destruct (Nat.ltb_spec (max_nesting p) (S (depth p))) as [Hlt|Hle]; [simpl in Hn; lia|].
  rewrite (compose_loop_print fs [] fuel _ k); [|done|done|done| |done|simpl in *; lia].
  - cbn [pbind with_rest depth max_nesting rest app]. unfold with_rest. do 2 f_equal. lia.
  - assert (nesting (Compose fs) ≤ S (max_nesting p - depth p - 1)) as Hfs by lia.
    apply nesting_compose_le in Hfs. eapply Forall_impl; [exact Hfs|].
    intros f ?. simpl in *. lia.
Qed.

(** Parsing the text of a printable filter gives the filter back. *)
Lemma prints f : printable f → (is_chain f = false → op_prints f) ∧ chain_prints f.
Proof.
  assert (∀ f, is_chain f = false → printable f → op_prints f →
    (is_chain f = false → op_prints f) ∧ chain_prints f) as Hop.
  { intros g Hc Hp Ho. split; [done|]. by apply op_prints_chain. }
  induction f as [p|p|sels|fs IH|fs IH| |] using filter_ind; intros Hp.
  - apply Hop; [done..|]. by apply op_prints_subdir.
  - apply Hop; [done..|]. by apply op_prints_prefix.
  - apply Hop; [done..|]. destruct Hp. by apply op_prints_exclude.
  - apply Hop; [done..|]. destruct Hp as [Hne Hp%foldr_and_Forall].
    apply op_prints_compose; [done|done|].
    apply Forall_forall. intros f Hin. rewrite Forall_forall in IH, Hp.
    apply IH; auto.
  - split; [done|]. destruct Hp as (Hlen & Hnc & Hp%foldr_and_Forall).
    intros fuel p k Hr Hk Hf Hn.
    rewrite (chain_loop_print fs [] fuel p k); [|by intros ->; simpl in Hlen; lia| |done| |done|done|done].
    + destruct fs as [|f1 [|f2 fs]]; [simpl in Hlen; lia..|]. done.
    + apply Forall_forall. intros f Hin. rewrite Forall_forall in IH, Hp, Hnc.
      apply IH; auto.
    + assert (nesting (Chain fs) ≤ max_nesting p - depth p) as Hfs by lia.
      apply nesting_chain_le in Hfs. eapply Forall_impl; [exact Hfs|].
      intros f ?. simpl in *. lia.
  - apply Hop; [done..|]. intros fuel p k Hr Hk Hf Hn. destruct fuel as [|fuel].
    { exfalso. rewrite Hr in Hf. simpl in Hf. lia. }
    cbn [print] in Hr. cbn [parse_op]. do 4 eat_next Hr. by rewrite (eat_app _ _ _ Hr).
  - apply Hop; [done..|]. intros fuel p k Hr Hk Hf Hn. destruct fuel as [|fuel].
    { exfalso. rewrite Hr in Hf. simpl in Hf. lia. }
    cbn [print] in Hr. cbn [parse_op]. do 5 eat_next Hr. by rewrite (eat_app _ _ _ Hr).
Qed.

Lemma parse_with_max_print f max :
  printable f → nesting f ≤ max →
  parse_with_max (print f) max = POk f (mk_Parser [] 0 max).
Proof.
  intros Hp Hn. destruct (prints f Hp) as [_ Hc]. unfold parse_with_max.
  destruct (print_colon f Hp) as [r Hr].
  rewrite skip_space_id by by rewrite Hr. cbn [snd]. unfold parse_chain.
  rewrite (Hc _ _ []); [|by rewrite app_nil_r|done|unfold parse_fuel; simpl; lia|done].
  done.
Qed.

(** ** Theorems *)

(** Printing a filter and parsing the text gives the same filter, with the
    whole text read, under every nesting limit the filter respects. *)
Theorem print_parse_roundtrip f max :
  printable f → nesting f ≤ max →
  ∃ p, parse_with_max (print f) max = POk f p ∧ rest p = [].
Proof. intros Hp Hn. eexists. split; [by apply parse_with_max_print|done]. Qed.

Lemma print_parse_roundtrip_witness :
  let f := Chain [Subdir (mk_ViewPath [lit "a b"; lit "c"]);
                  Compose [Prefix (mk_ViewPath [[dquote]]); Nop]] in
  printable f ∧ ∃ p, parse_with_max (print f) 1 = POk f p ∧ rest p = [].
Proof.
  intros f. assert (printable f) as H.
  { simpl. repeat split; vm_compute; [lia| |done]. repeat constructor. }
  split; [exact H|]. apply (print_parse_roundtrip f 1 H). vm_compute. lia.
Defined.
