(* ===== verification/FilterCanonical.v ===== *)
(** * View filters: canonical form

    Models [canonicalize], [canonicalize_chain], [ChainOp] and [push_op] of
    [src/ceres/view/filter/canonical.rs].  [canonicalize] returns [None] where
    [ViewPath::new] would panic while a merged path is rebuilt; the theorems show
    that this never happens on the filters the parser builds.  The [Vec<ChainOp>]
    that [push_op] treats as a stack is a list with its top at the head. *)
From stdpp Require Import base strings sets numbers tactics sorting list.
From S2P Require Import Prelude Text FilterSyntax FilterParse FilterRoundTrip.

(** ** Operations *)

Inductive ChainOp :=
  | OpSubdir (segs : list text)
  | OpPrefix (segs : list text)
  | OpOther (filter : Filter).

Definition ChainOp_from (filter : Filter) : ChainOp :=
  match filter with
  | Subdir path => OpSubdir (segments path)
  | Prefix path => OpPrefix (segments path)
  | other => OpOther other
  end.

Definition into_filter (op : ChainOp) : option Filter :=
  match op with
  | OpSubdir segs => Subdir <$> ViewPath_new segs
  | OpPrefix segs => Prefix <$> ViewPath_new segs
  | OpOther filter => Some filter
  end.

(** [p.iter().zip(q.iter()).take_while(|(a, b)| a == b).count()] *)
Fixpoint common_len (p q : list text) : nat :=
  match p, q with
  | a :: p', b :: q' => if bool_decide (a = b) then S (common_len p' q') else 0
  | _, _ => 0
  end.

(** [None] is the [false] of the source: the chain selects nothing. *)
Fixpoint push_op (ops : list ChainOp) (current : ChainOp) : option (list ChainOp) :=
  match ops with
  | [] => Some [current]
  | previous :: ops' =>
      match previous, current with
      | OpSubdir a, OpSubdir b => push_op ops' (OpSubdir (a ++ b))
      | OpPrefix a, OpPrefix b => push_op ops' (OpPrefix (b ++ a))
      | OpPrefix p, OpSubdir q =>
          let common := common_len p q in
          if common <? length p `min` length q then None
          else match drop common p, drop common q with
               | [], [] => Some ops'
               | [], q' => push_op ops' (OpSubdir q')
               | p', _ => push_op ops' (OpPrefix p')
               end
      | a, b => Some (b :: a :: ops')
      end
  end.

(** The inner loop of [canonicalize_chain] over the operators of a nested chain. *)
Fixpoint push_all (ops : list ChainOp) (fs : list Filter) : option (list ChainOp) :=
  match fs with
  | [] => Some ops
  | f :: fs => match push_op ops (ChainOp_from f) with
               | None => None
               | Some ops' => push_all ops' fs
               end
  end.

(** The collected operators, [Some None] for an early [return Filter::Empty],
    [None] for a panic in a nested [canonicalize]. *)
Section Loops.
Variable canon : Filter → option Filter.

Fixpoint chain_ops (ops : list ChainOp) (children : list Filter)
    : option (option (list ChainOp)) :=
  match children with
  | [] => Some (Some ops)
  | child :: children =>
      c ← canon child;
      match c with
      | Empty => Some None
      | Nop => chain_ops ops children
      | Chain nested =>
          match push_all ops nested with
          | None => Some None
          | Some ops' => chain_ops ops' children
          end
      | other =>
          match push_op ops (ChainOp_from other) with
          | None => Some None
          | Some ops' => chain_ops ops' children
          end
      end
  end.

Definition canonicalize_chain (children : list Filter) : option Filter :=
  r ← chain_ops [] children;
  match r with
  | None => Some Empty
  | Some [] => Some Nop
  | Some [op] => into_filter op
  | Some ops => Chain <$> mapM into_filter (reverse ops)
  end.

Fixpoint compose_members (members children : list Filter) : option (list Filter) :=
  match children with
  | [] => Some members
  | child :: children =>
      c ← canon child;
      match c with
      | Empty => compose_members members children
      | Compose nested => compose_members (members ++ nested) children
      | other => compose_members (members ++ [other]) children
      end
  end.
End Loops.

Fixpoint canonicalize (filter : Filter) : option Filter :=
  match filter with
  | Subdir path => Some (Subdir path)
  | Prefix path => Some (Prefix path)
  | Exclude selectors =>
      match dedup (sort_by print_selector str_compare selectors) with
      | [] => Some Nop
      | selectors => Some (Exclude selectors)
      end
  | Compose children =>
      members ← compose_members canonicalize [] children;
      match sort_by print str_compare members with
      | [] => Some Empty
      | [m] => Some m
      | members => Some (Compose members)
      end
  | Chain children => canonicalize_chain canonicalize children
  | Nop => Some Nop
  | Empty => Some Empty
  end.

(** ** Normal form *)

Definition is_compose_or_empty (f : Filter) : bool :=
  match f with Compose _ | Empty => true | _ => false end.

Definition is_chain_or_unit (f : Filter) : bool :=
  match f with Chain _ | Nop | Empty => true | _ => false end.

(** Two operators in a row that [push_op] leaves alone. *)
Definition irreducible (f g : Filter) : Prop :=
  match f, g with
  | Subdir _, Subdir _ | Prefix _, Prefix _ | Prefix _, Subdir _ => False
  | _, _ => True
  end.

Fixpoint canonical (f : Filter) : Prop :=
  match f with
  | Subdir p | Prefix p => path_wf p
  | Exclude sels =>
      sels ≠ [] ∧ Forall (λ s, path_wf (selector_path s)) sels
      ∧ StronglySorted (key_le print_selector str_compare) sels ∧ adjacent_distinct sels
  | Compose fs =>
      2 ≤ length fs ∧ Forall (λ g, is_compose_or_empty g = false) fs
      ∧ StronglySorted (key_le print str_compare) fs
      ∧ foldr (λ g P, canonical g ∧ P) True fs
  | Chain fs =>
      2 ≤ length fs ∧ Forall (λ g, is_chain_or_unit g = false) fs
      ∧ Sorted irreducible fs ∧ foldr (λ g P, canonical g ∧ P) True fs
  | Nop | Empty => True
  end.

(** An operator on the stack that stands for a canonical filter. *)
Definition op_canonical (op : ChainOp) : Prop :=
  match op with
  | OpSubdir segs | OpPrefix segs => valid_view_path segs = true
  | OpOther f => is_chain_or_unit f = false ∧ canonical f
                 ∧ (∀ p, f ≠ Subdir p) ∧ (∀ p, f ≠ Prefix p)
  end.

Definition op_filter (op : ChainOp) : Filter :=
  match op with
  | OpSubdir segs => Subdir (mk_ViewPath segs)
  | OpPrefix segs => Prefix (mk_ViewPath segs)
  | OpOther f => f
  end.

Definition stack_ok (ops : list ChainOp) : Prop :=
  Forall op_canonical ops
  ∧ Sorted (λ g f, irreducible f g) (map op_filter ops).

(** ** The stack of operators *)

Lemma valid_view_path_app a b :
  valid_view_path a = true → valid_view_path b = true → valid_view_path (a ++ b) = true.
Proof.
  unfold valid_view_path. intros Ha Hb. bool_prop.
  rewrite forallb_app. rw_bools. by destruct a.
Qed.

Lemma valid_view_path_drop n a :
  valid_view_path a = true → drop n a ≠ [] → valid_view_path (drop n a) = true.
Proof.
  unfold valid_view_path. intros Ha Hd. bool_prop.
  rewrite bool_decide_false by done. simpl.
  rewrite <-(take_drop n a), forallb_app in H0. by bool_prop.
Qed.

Lemma op_filter_from f : op_filter (ChainOp_from f) = f.
Proof. by destruct f as [[]|[]| | | | |]. Qed.

Lemma op_from_canonical f :
  is_chain_or_unit f = false → canonical f → op_canonical (ChainOp_from f).
Proof. by destruct f. Qed.

Lemma op_filter_canonical op :
  op_canonical op → is_chain_or_unit (op_filter op) = false ∧ canonical (op_filter op).
Proof. destruct op; simpl; naive_solver. Qed.

Lemma into_filter_canonical op : op_canonical op → into_filter op = Some (op_filter op).
Proof. destruct op; simpl; [unfold ViewPath_new; by intros ->..|done]. Qed.

Lemma mapM_into_filter ops :
  Forall op_canonical ops → mapM into_filter ops = Some (map op_filter ops).
Proof.
  induction 1 as [|op ops Hop Hops IH]; simpl; [done|].
  by rewrite into_filter_canonical, IH.
Qed.

Lemma stack_ok_tail op ops : stack_ok (op :: ops) → op_canonical op ∧ stack_ok ops.
Proof.
  intros [Hc Hs]. inversion Hc; subst. simpl in Hs. apply Sorted_inv in Hs as [? _].
  by repeat split.
Qed.

Lemma stack_ok_push a b ops :
  stack_ok (a :: ops) → op_canonical b → irreducible (op_filter a) (op_filter b) →
  stack_ok (b :: a :: ops).
Proof.
  intros [Hc Hs] Hb Hi. split; [by constructor|]. simpl.
  constructor; [done|]. by constructor.
Qed.

Lemma push_op_ok ops op ops' :
  stack_ok ops → op_canonical op → push_op ops op = Some ops' → stack_ok ops'.
Proof.
  revert op. induction ops as [|prev ops IH]; intros op Hs Hop Hp; cbn [push_op] in Hp.
  - simplify_eq. split; [by constructor|]. by repeat constructor.
  - destruct (stack_ok_tail prev ops Hs) as [Hprev Hops].
    destruct prev as [a|a|f], op as [b|b|g]; simplify_eq;
      try (by apply stack_ok_push); try (by eapply IH; [done| |done]; apply valid_view_path_app).
    + apply stack_ok_push; [done..|]. destruct Hop as (_ & _ & Hns & Hnp).
      destruct g; simpl; naive_solver.
    + cbn zeta in Hp. destruct (_ <? _); [done|]. destruct (drop _ a) eqn:Ea; [destruct (drop _ b) eqn:Eb|].
      * by simplify_eq.
      * eapply IH; [done| |done]. rewrite <-Eb. apply valid_view_path_drop; [done|by rewrite Eb].
      * eapply IH; [done| |done]. rewrite <-Ea. apply valid_view_path_drop; [done|by rewrite Ea].
    + apply stack_ok_push; [done..|]. destruct Hop as (_ & _ & Hns & Hnp).
      destruct g; simpl; naive_solver.
    + apply stack_ok_push; [done..|]. destruct Hprev as (_ & _ & Hns & Hnp).
      destruct f; simpl; naive_solver.
    + apply stack_ok_push; [done..|]. destruct Hprev as (_ & _ & Hns & Hnp).
      destruct f; simpl; naive_solver.
    + apply stack_ok_push; [done..|]. destruct Hprev as (_ & _ & Hns & Hnp).
      destruct f; simpl; naive_solver.
Qed.

Lemma push_all_ok fs ops ops' :
  stack_ok ops → Forall canonical fs → Forall (λ g, is_chain_or_unit g = false) fs →
  push_all ops fs = Some ops' → stack_ok ops'.
Proof.
  intros Hs Hc. revert ops Hs. induction Hc as [|f fs Hf Hfs IH]; intros ops Hs Hu Hp;
    simpl in Hp; [by simplify_eq|].
  inversion Hu; subst. destruct (push_op ops (ChainOp_from f)) as [ops1|] eqn:E; [|done].
  eapply IH; [|done|done]. eapply push_op_ok; [done| |done]. by apply op_from_canonical.
Qed.

Lemma chain_ops_ok canon children ops :
  Forall (λ f, ∃ c, canon f = Some c ∧ canonical c) children → stack_ok ops →
  ∃ r, chain_ops canon ops children = Some r ∧ from_option stack_ok True r.
Proof.
  intros Hc. revert ops. induction Hc as [|f fs (c & Hf & Hcf) Hfs IH]; intros ops Hs; simpl.
  { by eexists. }
  rewrite Hf. simpl.
  assert (is_chain_or_unit c = false → ∃ r,
    match push_op ops (ChainOp_from c) with
    | None => Some None
    | Some ops' => chain_ops canon ops' fs
    end = Some r ∧ from_option stack_ok True r) as Hpush.
  { intros Hu. destruct (push_op ops (ChainOp_from c)) as [ops1|] eqn:E; [|by eexists].
    apply IH. eapply push_op_ok; [done| |done]. by apply op_from_canonical. }
  destruct c; auto.
  - destruct Hcf as (_ & Hu & _ & Hcf%foldr_and_Forall).
    destruct (push_all ops ops0) as [ops1|] eqn:E; [|by eexists].
    apply IH. by eapply push_all_ok.
  - by eexists.
Qed.

Lemma Sorted_reverse {A} (R : relation A) (l : list A) :
  Sorted (flip R) l → Sorted R (reverse l).
Proof.
  induction 1 as [|x l Hl IH Hx]; [constructor|].
  rewrite reverse_cons. destruct Hx as [|y l Hxy]; [by repeat constructor|].
  rewrite reverse_cons in *. clear Hl.
  induction (reverse l) as [|z k IHk]; simpl in *.
  - repeat constructor. done.
  - apply Sorted_inv in IH as [Hk Hz]. constructor; [by apply IHk|].
    destruct k; simpl in *; inversion Hz; by constructor.
Qed.

Lemma canonicalize_chain_canonical canon children :
  Forall (λ f, ∃ c, canon f = Some c ∧ canonical c) children →
  ∃ c, canonicalize_chain canon children = Some c ∧ canonical c.
Proof.
  intros Hc. destruct (chain_ops_ok canon children [] Hc) as (r & Hr & Hok).
  { repeat constructor. }
  unfold canonicalize_chain. rewrite Hr. simpl.
  destruct r as [[|op1 [|op2 ops]]|]; [by eexists| | |by eexists].
  - destruct Hok as [Hop%Forall_inv _]. exists (op_filter op1).
    split; [by apply into_filter_canonical|by apply op_filter_canonical].
  - destruct Hok as [Hops Hsort]. set (stack := op1 :: op2 :: ops) in *.
    rewrite mapM_into_filter by by rewrite Forall_reverse. eexists. split; [done|].
    simpl. rewrite length_map, length_reverse. split; [simpl; lia|].
    rewrite foldr_and_Forall, !Forall_map, !Forall_reverse.
    split; [|split]; [|rewrite (fmap_reverse op_filter stack : map _ _ = _); by apply Sorted_reverse|].
    all: eapply Forall_impl; [exact Hops|]; intros op Hop; by apply op_filter_canonical.
Qed.

(** ** Composition *)

Lemma compose_members_ok canon children members :
  Forall (λ f, ∃ c, canon f = Some c ∧ canonical c) children →
  Forall (λ g, is_compose_or_empty g = false) members → Forall canonical members →
  ∃ ms, compose_members canon members children = Some ms
    ∧ Forall (λ g, is_compose_or_empty g = false) ms ∧ Forall canonical ms.
Proof.
  intros Hc. revert members. induction Hc as [|f fs (c & Hf & Hcf) Hfs IH];
    intros members Hm Hcm; simpl; [by eexists|].
  rewrite Hf. simpl. destruct c as [| | |nested| | |]; auto;
    apply IH; try (by apply Forall_app_2; [done|constructor; [done|constructor]]);
    apply Forall_app_2; try done; destruct Hcf as (_ & Hn & _ & Hcn); [done|].
  by apply foldr_and_Forall.
Qed.

(** Every filter whose paths are valid has a canonical form, computed without panic. *)
Lemma canonicalize_canonical f :
  filter_wf f → ∃ c, canonicalize f = Some c ∧ canonical c.
Proof.
  induction f as [p|p|sels|fs IH|fs IH| |] using filter_ind; intros Hwf;
    try (by eexists).
  - simpl. pose proof (dedup_distinct (sort_by print_selector str_compare sels)) as Hd.
    pose proof (dedup_sorted _ _ (sort_by_sorted print_selector str_compare sels)) as Hs.
    assert (Forall (λ s, path_wf (selector_path s))
      (dedup (sort_by print_selector str_compare sels))) as Hp.
    { by rewrite dedup_Forall, sort_by_Forall. }
    destruct (dedup _) as [|s ss] eqn:E; [by eexists|]. eexists. split; [done|].
    by repeat split.
  - simpl. apply filter_wf_compose in Hwf.
    destruct (compose_members_ok canonicalize fs []) as (ms & -> & Hm & Hcm); [|done..|].
    { by eapply Forall_mp. }
    simpl. pose proof (sort_by_sorted print str_compare ms) as Hs.
    rewrite <-(sort_by_Forall print str_compare) in Hm, Hcm.
    destruct (sort_by print str_compare ms) as [|m1 [|m2 ms']]; [by eexists| |].
    + exists m1. split; [done|]. by inversion Hcm.
    + eexists. split; [done|]. simpl. split; [lia|]. split; [done|].
      split; [done|]. by apply (foldr_and_Forall canonical (m1 :: m2 :: ms')).
  - simpl. apply filter_wf_chain in Hwf. apply canonicalize_chain_canonical.
    by eapply Forall_mp.
Qed.

(** ** Canonical filters are fixed points *)

Lemma push_op_irreducible ops op :
  from_option (λ a, irreducible (op_filter a) (op_filter op)) True (head ops) →
  push_op ops op = Some (op :: ops).
Proof.
  destruct ops as [|a ops]; simpl; [done|].
  by destruct a as [?|?|[]], op as [?|?|[]].
Qed.

Lemma chain_ops_irreducible canon fs ops :
  Forall (λ f, canon f = Some f) fs → Forall (λ g, is_chain_or_unit g = false) fs →
  Sorted irreducible fs →
  match head ops, head fs with
  | Some a, Some f => irreducible (op_filter a) f
  | _, _ => True
  end →
  chain_ops canon ops fs = Some (Some (reverse (map ChainOp_from fs) ++ ops)).
Proof.
  intros Hc. revert ops. induction Hc as [|f fs Hf Hfs IH]; intros ops Hu Hs Hh; simpl; [done|].
  rewrite Hf. simpl. inversion Hu as [|? ? Hfu Hfsu]; subst.
  apply Sorted_inv in Hs as [Hs Hhd].
  assert (push_op ops (ChainOp_from f) = Some (ChainOp_from f :: ops)) as Hpush.
  { apply push_op_irreducible. destruct ops; simpl; [done|]. by rewrite op_filter_from. }
  assert (chain_ops canon (ChainOp_from f :: ops) fs
    = Some (Some (reverse (map ChainOp_from (f :: fs)) ++ ops))) as Hrest.
  { rewrite IH; [|done..|]. { cbn [map]. by rewrite reverse_cons, <-app_assoc. }
    destruct fs as [|g fs]; [done|]. simpl. rewrite op_filter_from. by inversion Hhd. }
  destruct f; try done; by rewrite Hpush.
Qed.

Lemma compose_members_flat canon fs ms :
  Forall (λ f, canon f = Some f) fs → Forall (λ g, is_compose_or_empty g = false) fs →
  compose_members canon ms fs = Some (ms ++ fs).
Proof.
  intros Hc. revert ms. induction Hc as [|f fs Hf Hfs IH]; intros ms Hu; simpl.
  { by rewrite app_nil_r. }
  rewrite Hf. simpl. inversion Hu; subst.
  destruct f; try done; rewrite IH by done; by rewrite <-app_assoc.
Qed.

Lemma into_filter_from f : canonical f → into_filter (ChainOp_from f) = Some f.
Proof. destruct f; simpl; try done; intros H; by rewrite path_wf_new. Qed.

Lemma canonicalize_id f : canonical f → canonicalize f = Some f.
Proof.
  induction f as [p|p|sels|fs IH|fs IH| |] using filter_ind; intros Hc; try done; simpl.
  - destruct Hc as (Hne & _ & Hs & Hd). rewrite sort_by_id, dedup_id by done.
    by destruct sels.
  - destruct Hc as (Hlen & Hu & Hs & Hc%foldr_and_Forall).
    rewrite compose_members_flat; [|by eapply Forall_mp|done].
    simpl. rewrite sort_by_id by done. destruct fs as [|? [|]]; [simpl in Hlen; lia..|done].
  - destruct Hc as (Hlen & Hu & Hs & Hc%foldr_and_Forall).
    unfold canonicalize_chain.
    rewrite (chain_ops_irreducible canonicalize fs []); [|by eapply Forall_mp|done..].
    cbn [mbind option_bind]. rewrite app_nil_r.
    assert (mapM into_filter (reverse (reverse (map ChainOp_from fs))) = Some fs) as Hm.
    { rewrite reverse_involutive. clear -Hc. induction Hc as [|f fs Hf _ IH]; simpl; [done|].
      by rewrite into_filter_from, IH. }
    destruct (reverse (map ChainOp_from fs)) as [|op1 [|op2 ops]] eqn:E.
    all: try by rewrite Hm.
    all: apply (f_equal length) in E; rewrite length_reverse, length_map in E; simpl in *; lia.
Qed.

Lemma canonical_printable f : canonical f → printable f.
Proof.
  induction f as [p|p|sels|fs IH|fs IH| |] using filter_ind; intros Hc; try done; simpl.
  - by destruct Hc as (? & ? & _).
  - destruct Hc as (Hlen & _ & _ & Hc%foldr_and_Forall). split; [by intros ->; simpl in Hlen; lia|].
    apply foldr_and_Forall. rewrite Forall_forall in *. auto.
  - destruct Hc as (Hlen & Hu & _ & Hc%foldr_and_Forall). split; [done|].
    rewrite foldr_and_Forall, !Forall_forall in *. split; [|auto].
    intros g Hg%Hu. by destruct g.
Qed.

Lemma canonical_wf f : canonical f → filter_wf f.
Proof.
  induction f as [p|p|sels|fs IH|fs IH| |] using filter_ind; intros Hc; try done; simpl.
  - by destruct Hc as (? & ? & _).
  - destruct Hc as (_ & _ & _ & Hc%foldr_and_Forall).
    apply foldr_and_Forall. rewrite Forall_forall in *. auto.
  - destruct Hc as (_ & _ & _ & Hc%foldr_and_Forall).
    apply foldr_and_Forall. rewrite Forall_forall in *. auto.
Qed.

(** ** Nesting *)

Definition op_nesting (op : ChainOp) : nat := nesting (op_filter op).

Lemma push_op_nesting n ops op ops' :
  Forall (λ o, op_nesting o ≤ n) (op :: ops) → push_op ops op = Some ops' →
  Forall (λ o, op_nesting o ≤ n) ops'.
Proof.
  revert op. induction ops as [|prev ops IH]; intros op Hn Hp; cbn [push_op] in Hp.
  - by simplify_eq.
  - apply Forall_cons in Hn as [Hop [Hprev Hn]%Forall_cons].
    assert (∀ l, push_op ops (OpSubdir l) = Some ops' ∨ push_op ops (OpPrefix l) = Some ops' →
      Forall (λ o, op_nesting o ≤ n) ops') as Hmerge.
    { intros l [Hl|Hl]; eapply IH; [|done| |done]; constructor; try done;
        unfold op_nesting; simpl; lia. }
    destruct prev as [a|a|f], op as [b|b|g]; simplify_eq;
      try (by repeat constructor); [by eauto| |by eauto].
    cbn zeta in Hp. destruct (_ <? _); [done|].
    destruct (drop _ a); [destruct (drop _ b)|]; [by simplify_eq|eauto..].
Qed.

Lemma push_all_nesting n fs ops ops' :
  Forall (λ o, op_nesting o ≤ n) ops → Forall (λ f, nesting f ≤ n) fs →
  push_all ops fs = Some ops' → Forall (λ o, op_nesting o ≤ n) ops'.
Proof.
  intros Ho Hf. revert ops Ho. induction Hf as [|f fs Hf Hfs IH]; intros ops Ho Hp;
    simpl in Hp; [by simplify_eq|].
  destruct (push_op ops (ChainOp_from f)) as [ops1|] eqn:E; [|done].
  eapply IH; [|done]. eapply push_op_nesting; [|done]. constructor; [|done].
  unfold op_nesting. by rewrite op_filter_from.
Qed.

Lemma chain_ops_nesting canon n fs ops r :
  Forall (λ f, ∀ c, canon f = Some c → nesting c ≤ n) fs →
  Forall (λ o, op_nesting o ≤ n) ops → chain_ops canon ops fs = Some (Some r) →
  Forall (λ o, op_nesting o ≤ n) r.
Proof.
  intros Hf. revert ops. induction Hf as [|f fs Hf Hfs IH]; intros ops Ho Hr; simpl in Hr.
  { by simplify_eq. }
  destruct (canon f) as [c|] eqn:Ec; [|done]. simpl in Hr. specialize (Hf c eq_refl).
  assert (∀ ops1, push_op ops (ChainOp_from c) = Some ops1 →
    Forall (λ o, op_nesting o ≤ n) ops1) as Hpush.
  { intros ops1 Hp. eapply push_op_nesting; [|done]. constructor; [|done].
    unfold op_nesting. by rewrite op_filter_from. }
  destruct c as [| | | |nested| |]; [| | | | | |done];
    try (destruct (push_op ops _) as [ops1|]; [|done]; eapply IH; [|done]; by apply Hpush).
  - destruct (push_all ops nested) as [ops1|] eqn:E; [|done].
    eapply IH; [|done]. eapply push_all_nesting; [done| |done]. by apply nesting_chain_le.
  - by apply (IH ops).
Qed.

Lemma mapM_into_filter_nesting n ops fs :
  Forall (λ o, op_nesting o ≤ n) ops → mapM into_filter ops = Some fs →
  Forall (λ f, nesting f ≤ n) fs.
Proof.
  intros Ho. revert fs. induction Ho as [|op ops Ho Hops IH]; intros fs Hm; simpl in Hm.
  { by injection Hm as <-. }
  destruct (into_filter op) as [f|] eqn:Ef; [|done]. simpl in Hm.
  destruct (mapM into_filter ops) as [gs|]; [|done]. injection Hm as <-.
  constructor; [|by apply IH].
  destruct op; simpl in *; [by destruct (ViewPath_new segs); simplify_eq/=; lia..|by simplify_eq].
Qed.

Lemma compose_members_nesting canon n fs ms r :
  Forall (λ f, ∀ c, canon f = Some c → nesting c ≤ n) fs →
  Forall (λ f, nesting f ≤ n) ms → compose_members canon ms fs = Some r →
  Forall (λ f, nesting f ≤ n) r.
Proof.
  intros Hf. revert ms. induction Hf as [|f fs Hf Hfs IH]; intros ms Hm Hr; simpl in Hr.
  { by simplify_eq. }
  destruct (canon f) as [c|] eqn:Ec; [|done]. simpl in Hr. specialize (Hf c eq_refl).
  destruct c as [| | |nested| | |]; try (eapply IH; [|done]; apply Forall_app_2; [done|by constructor]).
  - eapply IH; [|done]. apply Forall_app_2; [done|].
    apply nesting_compose_le. lia.
  - by apply (IH ms).
Qed.

Lemma canonicalize_nesting f c : canonicalize f = Some c → nesting c ≤ nesting f.
Proof.
  revert c. induction f as [p|p|sels|fs IH|fs IH| |] using filter_ind; intros c Hc;
    simpl in Hc; try (by simplify_eq).
  - destruct (dedup _); simplify_eq; simpl; lia.
  - set (n := foldr (λ g m, nesting g `max` m) 0 fs).
    change (nesting (Compose fs)) with (S n).
    assert (Forall (λ f, nesting f ≤ n) fs) as Hn by by apply foldr_max_le.
    destruct (compose_members canonicalize [] fs) as [ms|] eqn:E; [|done]. simpl in Hc.
    apply (compose_members_nesting _ n) in E; [| |done].
    2: { rewrite Forall_forall in *. intros f Hf c' Hc'. etrans; [by apply IH|by apply Hn]. }
    rewrite <-(sort_by_Forall print str_compare) in E.
    destruct (sort_by print str_compare ms) as [|m1 [|m2 ms']]; simplify_eq.
    + simpl. lia.
    + inversion E; subst. lia.
    + by apply nesting_compose_le.
  - set (n := nesting (Chain fs)).
    assert (Forall (λ f, nesting f ≤ n) fs) as Hn by by apply nesting_chain_le.
    unfold canonicalize_chain in Hc.
    destruct (chain_ops canonicalize [] fs) as [[r|]|] eqn:E; [| |done]; simpl in Hc;
      [|simplify_eq; simpl; lia].
    apply (chain_ops_nesting _ n) in E; [| |done].
    2: { rewrite Forall_forall in *. intros f Hf c' Hc'. etrans; [by apply IH|by apply Hn]. }
    destruct r as [|op1 [|op2 ops]]; [simplify_eq; simpl; lia| |].
    + apply (mapM_into_filter_nesting n [op1] [c]) in E; [by inversion E|].
      simpl. by rewrite Hc.
    + destruct (mapM into_filter _) as [gs|] eqn:Em; simplify_eq/=.
      apply (nesting_chain_le gs). eapply mapM_into_filter_nesting; [|done].
      by rewrite Forall_reverse.
Qed.

(** ** Theorems *)

(** On a filter with valid paths [canonicalize] returns (no panic), its result
    is in normal form, is its own canonical form, prints to a text that parses back
    to it, and is nested no deeper than the input. *)
Theorem canonicalize_normalises f :
  filter_wf f →
  ∃ c, canonicalize f = Some c ∧ canonical c ∧ canonicalize c = Some c
    ∧ printable c ∧ nesting c ≤ nesting f.
Proof.
  intros Hwf. destruct (canonicalize_canonical f Hwf) as (c & Hc & Hcan). exists c.
  repeat split; [done|done|by apply canonicalize_id|by apply canonical_printable|].
  by apply canonicalize_nesting.
Qed.

Lemma canonicalize_normalises_witness :
  let f := Chain [Prefix (mk_ViewPath [lit "a"; lit "b"]); Subdir (mk_ViewPath [lit "a"]);
                  Compose [Compose [Nop; Empty]; Prefix (mk_ViewPath [lit "x"])]] in
  filter_wf f ∧ ∃ c, canonicalize f = Some c ∧ canonical c ∧ canonicalize c = Some c
    ∧ printable c ∧ nesting c ≤ nesting f.
Proof.
  intros f. assert (filter_wf f) as H by (simpl; repeat split; vm_compute; done).
  split; [exact H|]. exact (canonicalize_normalises f H).
Defined.
