(* ===== verification/FilterDefinition.v ===== *)
(** * View filters: registered definitions

    Models [parse_for_registration], [filter_id] and [recheck_definition] of
    [src/ceres/view/filter/mod.rs]: what is stored when a view is registered, and
    the check every stored definition passes before it is used.  The digest comes
    from the crates [sha2] and [hex]: it is the parameter [sha256_hex], a function
    of the hashed bytes; nothing is assumed of it. *)
From stdpp Require Import base strings sets numbers tactics list.
From S2P Require Import Prelude Text FilterSyntax FilterParse FilterRoundTrip FilterCanonical.

Record CanonicalFilter := mk_CanonicalFilter {
  filter : Filter;
  canonical_text : text;
  canonical_filter_id : text;
}.

Inductive RecheckFailure := RoundTrip | FilterIdMismatch.

(** [DefinitionCorrupt]; its only field is what failed. *)
Record DefinitionCorrupt := mk_DefinitionCorrupt { failed : RecheckFailure }.

Section Definitions.
Context (sha256_hex : list N → text).

Definition filter_id (canonical_text : text) : text :=
  sha256_hex (lit "mega-view-filter/v1" ++ [10%N] ++ utf8 canonical_text).

Definition parse_for_registration (spec : text) : outcome FilterParseError CanonicalFilter :=
  if (REGISTER_MAX_SPEC_BYTES <? str_len spec)%N then Err SpecTooLarge
  else match parse_with_max spec REGISTER_MAX_NESTING with
       | PErr e => Err e
       | PPanic => Panic
       | POutOfFuel => OutOfFuel
       | POk f _ =>
           match canonicalize f with
           | None => Panic
           | Some c => Ok (mk_CanonicalFilter c (print c) (filter_id (print c)))
           end
       end.

Definition recheck_definition (canonical_spec expected_filter_id : text)
    : outcome DefinitionCorrupt CanonicalFilter :=
  match parse canonical_spec with
  | PErr _ => Err (mk_DefinitionCorrupt RoundTrip)
  | PPanic => Panic
  | POutOfFuel => OutOfFuel
  | POk f _ =>
      match canonicalize f with
      | None => Panic
      | Some c =>
          if negb (bool_decide (print c = canonical_spec))
          then Err (mk_DefinitionCorrupt RoundTrip)
          else let actual_id := filter_id canonical_spec in
               if negb (bool_decide (actual_id = expected_filter_id))
               then Err (mk_DefinitionCorrupt FilterIdMismatch)
               else Ok (mk_CanonicalFilter c (print c) actual_id)
      end
  end.

(** ** Lemmas *)

(** The value parsed from a text, with its invariant and its canonical form. *)
Lemma parse_canonicalize s max :
  match parse_with_max s max with
  | POk f _ => ∃ c, canonicalize f = Some c ∧ canonical c ∧ nesting c ≤ max
  | PErr _ => True
  | PPanic | POutOfFuel => False
  end.
Proof.
  pose proof (parse_with_max_returns s max) as H. unfold returns in H.
  destruct (parse_with_max s max) as [f p| | |]; try done. destruct H as [[Hwf Hn] _].
  destruct (canonicalize_canonical f Hwf) as (c & Hc & Hcan). exists c.
  apply canonicalize_nesting in Hc as Hle. repeat split; [done..|lia].
Qed.

Lemma registration_inv spec c :
  parse_for_registration spec = Ok c →
  canonical (filter c) ∧ nesting (filter c) ≤ REGISTER_MAX_NESTING
  ∧ canonical_text c = print (filter c) ∧ canonical_filter_id c = filter_id (print (filter c)).
Proof.
  unfold parse_for_registration. pose proof (parse_canonicalize spec REGISTER_MAX_NESTING) as H.
  destruct (_ <? _)%N; [done|].
  destruct (parse_with_max _ _); try done. destruct H as (c' & -> & ? & ?).
  intros ?. by simplify_eq/=.
Qed.

Lemma recheck_print c :
  canonical c → nesting c ≤ PARSE_MAX_NESTING →
  recheck_definition (print c) (filter_id (print c))
  = Ok (mk_CanonicalFilter c (print c) (filter_id (print c))).
Proof.
  intros Hc Hn. unfold recheck_definition, parse.
  rewrite parse_with_max_print by (done || by apply canonical_printable).
  rewrite canonicalize_id by done. by rewrite !bool_decide_true.
Qed.

(** ** Theorems *)

(** Registration of any text returns: it never panics (the assertion of
    [ViewPath::new] holds on every path the parser and the canonicaliser build)
    and the parser's loops terminate.  A text over the byte limit is refused. *)
Theorem registration_returns spec :
  (∃ c, parse_for_registration spec = Ok c ∧ (str_len spec ≤ REGISTER_MAX_SPEC_BYTES)%N)
  ∨ (∃ e, parse_for_registration spec = Err e).
Proof.
  unfold parse_for_registration. pose proof (parse_canonicalize spec REGISTER_MAX_NESTING) as H.
  destruct (N.ltb_spec REGISTER_MAX_SPEC_BYTES (str_len spec)); [by eauto|].
  destruct (parse_with_max _ _) as [f p|e| |]; try done; [|by eauto].
  destruct H as (c & -> & _). left. eauto.
Qed.

(** C11: a definition accepted for registration passes the later integrity check
    with the stored text and identifier, and the check gives back the very filter
    that was registered, although registration and check use different nesting
    limits. *)
Theorem registration_recheck spec c :
  parse_for_registration spec = Ok c →
  recheck_definition (canonical_text c) (canonical_filter_id c) = Ok c.
Proof.
  intros (Hc & Hn & Ht & Hi)%registration_inv. rewrite Ht, Hi.
  rewrite recheck_print; [by destruct c; simplify_eq/=|done|].
  unfold REGISTER_MAX_NESTING, PARSE_MAX_NESTING in *. lia.
Qed.

(** The integrity check accepts exactly the texts of canonical filters within
    the parser's nesting limit, with the identifier of that text; it never panics. *)
Theorem recheck_accepts spec id :
  ∀ r, recheck_definition spec id = r →
  match r with
  | Ok c => canonical (filter c) ∧ nesting (filter c) ≤ PARSE_MAX_NESTING
            ∧ print (filter c) = spec ∧ canonical_text c = spec
            ∧ canonical_filter_id c = id ∧ filter_id spec = id
  | Err _ => ¬ ∃ c, canonical c ∧ nesting c ≤ PARSE_MAX_NESTING
                  ∧ print c = spec ∧ filter_id spec = id
  | Panic | OutOfFuel => False
  end.
Proof.
  intros r Hr. destruct r as [c|e| |]; unfold recheck_definition, parse in Hr;
    pose proof (parse_canonicalize spec PARSE_MAX_NESTING) as H.
  - destruct (parse_with_max _ _); try done. destruct H as (c' & Hc' & ? & ?). rewrite Hc' in Hr.
    case_bool_decide; simpl in Hr; [|done]. case_bool_decide; simpl in Hr; [|done]. by simplify_eq/=.
  - intros (c & Hc & Hn & Hp & Hi). subst spec id.
    pose proof (recheck_print c Hc Hn) as Hok. unfold recheck_definition, parse in Hok.
    by rewrite Hok in Hr.
  - destruct (parse_with_max _ _); try done. destruct H as (c' & Hc' & ? & ?). rewrite Hc' in Hr.
    by repeat (case_bool_decide; simpl in Hr; try done).
  - destruct (parse_with_max _ _); try done. destruct H as (c' & Hc' & ? & ?). rewrite Hc' in Hr.
    by repeat (case_bool_decide; simpl in Hr; try done).
Qed.

(** Two registered definitions with the same stored text are the same filter,
    so the text identifies the filter. *)
Theorem canonical_text_identifies s1 s2 c1 c2 :
  parse_for_registration s1 = Ok c1 → parse_for_registration s2 = Ok c2 →
  canonical_text c1 = canonical_text c2 → c1 = c2.
Proof.
  intros (Hc1 & Hn1 & Ht1 & Hi1)%registration_inv (Hc2 & Hn2 & Ht2 & Hi2)%registration_inv Heq.
  assert (POk (filter c1) (mk_Parser [] 0 REGISTER_MAX_NESTING)
    = POk (filter c2) (mk_Parser [] 0 REGISTER_MAX_NESTING)) as Hf.
  { rewrite <-!parse_with_max_print by (done || by apply canonical_printable). congruence. }
  destruct c1, c2; simplify_eq/=. done.
Qed.
End Definitions.

(** ** Witnesses *)

Definition demo_spec : text := lit ":/a:/b:exclude[::d/,::c, ::c]".

Lemma registration_recheck_witness :
  ∃ c, parse_for_registration id demo_spec = Ok c
       ∧ recheck_definition id (canonical_text c) (canonical_filter_id c) = Ok c.
Proof.
  eexists. split; [vm_compute; reflexivity|].
  apply (registration_recheck id demo_spec). vm_compute. reflexivity.
Defined.

Lemma recheck_accepts_witness :
  recheck_definition id (lit ":/b:/a") [] = Err (mk_DefinitionCorrupt RoundTrip)
  ∧ ¬ ∃ c, canonical c ∧ nesting c ≤ PARSE_MAX_NESTING
         ∧ print c = lit ":/b:/a" ∧ filter_id id (lit ":/b:/a") = [].
Proof.
  split; [vm_compute; reflexivity|].
  apply (recheck_accepts id (lit ":/b:/a") [] (Err (mk_DefinitionCorrupt RoundTrip))).
  vm_compute. reflexivity.
Defined.

Lemma canonical_text_identifies_witness :
  ∃ c1 c2, parse_for_registration id (lit ":[:/b,:/a]") = Ok c1
    ∧ parse_for_registration id (lit ":[:/a , :/b:nop]") = Ok c2 ∧ c1 = c2.
Proof.
  eexists _, _. split; [vm_compute; reflexivity|]. split; [vm_compute; reflexivity|].
  apply (canonical_text_identifies id (lit ":[:/b,:/a]") (lit ":[:/a , :/b:nop]"));
    vm_compute; reflexivity.
Defined.
