(* ===== verification/FilterSemantics.v ===== *)
(** * View filters: source and destination paths

    Models [src/ceres/view/filter/semantics.rs]: [invert], [src_paths],
    [dst_paths], their limited variants and the path helpers.  A path is a list of
    segments.  [invert] calls [canonicalize] at every level, so it is partial here
    ([None] is the panic of [ViewPath::new]); the loops of [pull] over members and
    operators are local recursive functions, as in the source. *)
From stdpp Require Import base strings sets numbers tactics sorting list.
From S2P Require Import Prelude Text FilterSyntax FilterParse FilterRoundTrip FilterCanonical.

(** ** Paths *)

Abbreviation path_list := (list (list text)).

Definition is_prefix (ancestor descendant : list text) : bool :=
  (length ancestor <=? length descendant)
  && forallb (λ '(l, r), bool_decide (l = r)) (zip ancestor descendant).

Definition display_path (path : list text) : text :=
  match path with [] => lit "/" | _ => lit "/" ++ join (ch "/") path end.

Definition path_segments (path : text) : list text :=
  match strip_prefix (lit "/") path with
  | Some (c :: rest) => split_on (ch "/") (c :: rest)
  | _ => []
  end.

Definition pull_prefix (prefix output : list text) : option (list text) :=
  if is_prefix prefix output then Some (drop (length prefix) output)
  else if is_prefix output prefix then Some []
  else None.

(** The loop of [normalized_paths] that keeps the minimal paths. *)
Fixpoint keep_minimal (minimal paths : path_list) : path_list :=
  match paths with
  | [] => minimal
  | path :: paths =>
      if existsb (λ ancestor, is_prefix ancestor path) minimal then keep_minimal minimal paths
      else keep_minimal (minimal ++ [path]) paths
  end.

Definition normalized_paths (paths : path_list) : path_list :=
  keep_minimal [] (dedup (sort_by id segs_compare paths)).

(** ** Inversion *)

Fixpoint invert (filter : Filter) : option Filter :=
  inverted ← match filter with
             | Subdir path => Some (Prefix path)
             | Prefix path => Some (Subdir path)
             | Exclude selectors => Some (Exclude selectors)
             | Compose members => Compose <$> mapM invert members
             | Chain ops => (λ l, Chain (reverse l)) <$> mapM invert ops
             | Nop => Some Nop
             | Empty => Some Empty
             end;
  canonicalize inverted.

(** ** Source paths *)

(** The loops of [pull] over the members of a composition and, from the last to the
    first, over the operators of a chain. *)
Section PullLoops.
Variable pull : Filter → path_list → path_list.
Variable paths : path_list.

Fixpoint pull_members (output : path_list) (members : list Filter) : path_list :=
  match members with
  | [] => output
  | member :: members => pull_members (normalized_paths (output ++ pull member paths)) members
  end.

Fixpoint pull_ops (ops : list Filter) : path_list :=
  match ops with
  | [] => paths
  | op :: ops => normalized_paths (pull op (pull_ops ops))
  end.
End PullLoops.

Fixpoint pull (filter : Filter) (paths : path_list) : path_list :=
  normalized_paths
    match filter with
    | Subdir path => map (λ suffix, segments path ++ suffix) paths
    | Prefix path => omap (pull_prefix (segments path)) paths
    | Exclude _ | Nop => paths
    | Empty => []
    | Compose members => pull_members pull paths [] members
    | Chain ops => pull_ops pull paths ops
    end.

(** [None] is [SrcPathLimitExceeded]. *)
Definition limited (max_paths : nat) (paths : path_list) : option path_list :=
  if max_paths <? length paths then None else Some paths.

Section PullLimitedLoops.
Variable max_paths : nat.
Variable pull_limited : Filter → path_list → option path_list.
Variable paths : path_list.

Fixpoint pull_members_limited (output : path_list) (members : list Filter) : option path_list :=
  match members with
  | [] => Some output
  | member :: members =>
      match pull_limited member paths with
      | None => None
      | Some pulled =>
          match limited max_paths (normalized_paths (output ++ pulled)) with
          | None => None
          | Some output' => pull_members_limited output' members
          end
      end
  end.

Fixpoint pull_ops_limited (ops : list Filter) : option path_list :=
  match ops with
  | [] => Some paths
  | op :: ops =>
      match pull_ops_limited ops with
      | None => None
      | Some output =>
          match pull_limited op output with
          | None => None
          | Some pulled => limited max_paths (normalized_paths pulled)
          end
      end
  end.
End PullLimitedLoops.

Fixpoint pull_limited (max_paths : nat) (filter : Filter) (paths : path_list)
    : option path_list :=
  match
    match filter with
    | Subdir path => Some (map (λ suffix, segments path ++ suffix) paths)
    | Prefix path => Some (omap (pull_prefix (segments path)) paths)
    | Exclude _ | Nop => Some paths
    | Empty => Some []
    | Compose members => pull_members_limited max_paths (pull_limited max_paths) paths [] members
    | Chain ops => pull_ops_limited max_paths (pull_limited max_paths) paths ops
    end
  with
  | None => None
  | Some out => limited max_paths (normalized_paths out)
  end.

Definition src_paths (filter : Filter) : list text :=
  sort_by id str_compare (map display_path (normalized_paths (pull filter [[]]))).

Definition dst_paths (filter : Filter) : option (list text) := src_paths <$> invert filter.

Definition src_paths_limited (filter : Filter) (max_paths : nat) : option (list text) :=
  pulled ← pull_limited max_paths filter [[]];
  paths ← limited max_paths (normalized_paths pulled);
  Some (sort_by id str_compare (map display_path paths)).

(** The paths of the members of one composition, in order. *)
Fixpoint member_paths (max_paths : nat) (members : list Filter) : option path_list :=
  match members with
  | [] => Some []
  | member :: members =>
      paths ← src_paths_limited member max_paths;
      rest ← member_paths max_paths members;
      Some (map path_segments paths ++ rest)
  end.

Fixpoint collect_compose_source_paths_limited (max_paths : nat) (filter : Filter)
    (groups : list path_list) : option (list path_list) :=
  let each := fix each (fs : list Filter) (groups : list path_list) : option (list path_list) :=
    match fs with
    | [] => Some groups
    | f :: fs =>
        match collect_compose_source_paths_limited max_paths f groups with
        | None => None
        | Some groups' => each fs groups'
        end
    end in
  match filter with
  | Compose members =>
      paths ← member_paths max_paths members;
      each members (groups ++ [paths])
  | Chain ops => each ops groups
  | _ => Some groups
  end.

Definition all_compose_source_paths_limited (filter : Filter) (max_paths : nat)
    : option (list path_list) :=
  collect_compose_source_paths_limited max_paths filter [].

(** ** Lemmas on paths *)

Lemma is_prefix_spec a d : is_prefix a d = true ↔ a `prefix_of` d.
Proof.
  unfold is_prefix. rewrite andb_true_iff, Nat.leb_le. revert d.
  induction a as [|x a IH]; intros [|y d]; simpl.
  - split; [by intros _; exists []|lia].
  - split; [by intros _; exists (y :: d)|]. split; [lia|done].
  - split; [lia|]. by intros [k Hk].
  - rewrite andb_true_iff, bool_decide_eq_true. split.
    + intros [Hl [-> Hz]]. apply prefix_cons, IH. split; [lia|done].
    + intros Hp. pose proof (prefix_cons_inv_1 _ _ _ _ Hp) as ->.
      apply prefix_cons_inv_2, IH in Hp as [? ?]. split; [lia|done].
Qed.

Lemma prefix_segs_le (a d : list text) : a `prefix_of` d → cmp_leb segs_compare a d = true.
Proof.
  intros [k ->]. apply cmp_leb_spec; [apply _|]. destruct k as [|x k].
  - left. by rewrite app_nil_r.
  - right. unfold segs_compare. induction a as [|y a IH]; [done|]. simpl.
    by rewrite (cmp_refl str_compare).
Qed.

Lemma keep_minimal_spec minimal paths :
  (∀ p q, p ∈ minimal → q ∈ paths → cmp_leb segs_compare p q = true) →
  StronglySorted (key_le id segs_compare) paths →
  (∀ p q, p ∈ minimal → q ∈ minimal → p `prefix_of` q → p = q) →
  let out := keep_minimal minimal paths in
  (∀ p, p ∈ out → p ∈ minimal ∨ p ∈ paths)
  ∧ (∀ p, p ∈ minimal ∨ p ∈ paths → ∃ q, q ∈ out ∧ q `prefix_of` p)
  ∧ (∀ p q, p ∈ out → q ∈ out → p `prefix_of` q → p = q).
Proof.
  revert minimal. induction paths as [|path paths IH]; intros minimal Hle Hs Hanti; simpl.
  { split; [auto|]. split; [|done]. intros p [Hp|Hp]; [by exists p|by apply elem_of_nil in Hp]. }
  inversion Hs as [|? ? Hs' Hhd]; subst. rewrite Forall_forall in Hhd.
  destruct (existsb _ minimal) eqn:E.
  - apply existsb_exists in E as (a & Ha%list_elem_of_In & Hap%is_prefix_spec).
    destruct (IH minimal) as (H1 & H2 & H3); [by intros; apply Hle; [|right]|done|done|].
    split; [intros p Hp; destruct (H1 p Hp); [auto|right; by right]|]. split; [|done].
    intros p [Hp|[->|Hp]%elem_of_cons]; [by apply H2; left| |by apply H2; right].
    destruct (H2 a) as (q & Hq & Hqa); [by left|]. exists q. split; [done|by etrans].
  - assert (∀ a, a ∈ minimal → ¬ a `prefix_of` path) as Hno.
    { intros a Ha Hpre. apply not_true_iff_false in E. apply E, existsb_exists.
      exists a. split; [by apply list_elem_of_In|by apply is_prefix_spec]. }
    assert (∀ a, a ∈ minimal → ¬ path `prefix_of` a) as Hno'.
    { intros a Ha Hpre. assert (a = path) as ->; [|by eapply Hno].
      apply (cmp_leb_antisym segs_compare); [apply Hle; [done|by left]|by apply prefix_segs_le]. }
    destruct (IH (minimal ++ [path])) as (H1 & H2 & H3).
    + intros p q [Hp| ->%list_elem_of_singleton]%elem_of_app Hq; [by apply Hle; [|right]|].
      by apply Hhd.
    + done.
    + intros p q [Hp| ->%list_elem_of_singleton]%elem_of_app
        [Hq| ->%list_elem_of_singleton]%elem_of_app Hpq; [by apply Hanti|..|done];
        exfalso; naive_solver.
    + split.
      { intros p [[Hp| ->%list_elem_of_singleton]%elem_of_app|Hp]%H1;
          [auto|right; by left|right; by right]. }
      split; [|done]. intros p Hp. apply H2. rewrite elem_of_app, list_elem_of_singleton.
      rewrite elem_of_cons in Hp. tauto.
Qed.

(** ** Regions: the paths below a list of paths *)

Definition region (paths : path_list) (x : list text) : Prop := ∃ p, p ∈ paths ∧ p `prefix_of` x.

(** No path of the list is below another. *)
Definition antichain (paths : path_list) : Prop :=
  ∀ p q, p ∈ paths → q ∈ paths → p `prefix_of` q → p = q.

Lemma normalized_paths_spec paths :
  (∀ p, p ∈ normalized_paths paths → p ∈ paths)
  ∧ (∀ p, p ∈ paths → ∃ q, q ∈ normalized_paths paths ∧ q `prefix_of` p)
  ∧ antichain (normalized_paths paths).
Proof.
  unfold normalized_paths. set (sorted := dedup _).
  assert (∀ p, p ∈ sorted ↔ p ∈ paths) as Hel.
  { intros p. unfold sorted. by rewrite dedup_elem_of, sort_by_perm. }
  destruct (keep_minimal_spec [] sorted) as (H1 & H2 & H3).
  - intros p q Hp. by apply elem_of_nil in Hp.
  - apply dedup_sorted, sort_by_sorted, _.
  - intros p q Hp. by apply elem_of_nil in Hp.
  - split; [|split; [|done]].
    + intros p Hp. destruct (H1 p Hp) as [Hn|Hn]; [by apply elem_of_nil in Hn|by apply Hel].
    + intros p Hp. apply H2. right. by apply Hel.
Qed.

Lemma region_normalized paths x : region (normalized_paths paths) x ↔ region paths x.
Proof.
  destruct (normalized_paths_spec paths) as (H1 & H2 & _). split.
  - intros (p & Hp & Hx). exists p. auto.
  - intros (p & Hp & Hx). destruct (H2 p Hp) as (q & Hq & Hqp). exists q. split; [done|by etrans].
Qed.

Lemma region_app l k x : region (l ++ k) x ↔ region l x ∨ region k x.
Proof. unfold region. setoid_rewrite elem_of_app. naive_solver. Qed.

Lemma region_root x : region [[]] x.
Proof. exists []. split; [by left|by exists x]. Qed.

Lemma region_nil x : ¬ region [] x.
Proof. intros (p & Hp & _). by apply elem_of_nil in Hp. Qed.

(** ** The limit *)

Lemma limited_Some n l k : limited n l = Some k ↔ k = l ∧ length l ≤ n.
Proof.
  unfold limited. destruct (Nat.ltb_spec n (length l)); split; intros H';
    [done|destruct H'; lia|by simplify_eq|by destruct H' as [-> _]].
Qed.

(** A limited computation that ends gives the unlimited result, within the limit. *)
Lemma pull_limited_sound n f paths r :
  pull_limited n f paths = Some r → r = pull f paths ∧ length r ≤ n.
Proof.
  revert paths r. induction f as [p|p|sels|fs IH|fs IH| |] using filter_ind; intros paths r Hr;
    cbn [pull_limited pull] in *; try (by apply limited_Some in Hr as [-> ?]).
  - assert (∀ out m, pull_members_limited n (pull_limited n) paths out fs = Some m →
      m = pull_members pull paths out fs) as Hm.
    { clear r Hr. induction IH as [|f fs Hf _ IHfs]; intros out m Hm; simpl in *; [by simplify_eq|].
      destruct (pull_limited n f paths) as [pulled|] eqn:Ep; [|done].
      apply Hf in Ep as [-> _]. destruct (limited n _) as [out'|] eqn:El; [|done].
      apply limited_Some in El as [-> _]. by apply IHfs. }
    destruct (pull_members_limited _ _ _ _ _) as [m|] eqn:Em; [|done].
    apply Hm in Em as ->. by apply limited_Some in Hr as [-> ?].
  - assert (∀ m, pull_ops_limited n (pull_limited n) paths fs = Some m →
      m = pull_ops pull paths fs) as Hm.
    { clear r Hr. induction IH as [|f fs Hf _ IHfs]; intros m Hm; simpl in *; [by simplify_eq|].
      destruct (pull_ops_limited _ _ _ fs) as [out|]; [|done]. rewrite <-(IHfs out eq_refl).
      destruct (pull_limited n f out) as [pulled|] eqn:Ep; [|done].
      apply Hf in Ep as [-> _]. by apply limited_Some in Hm as [-> _]. }
    destruct (pull_ops_limited _ _ _ _) as [m|] eqn:Em; [|done].
    rewrite (Hm m eq_refl) in Hr. by apply limited_Some in Hr as [-> ?].
Qed.

Lemma src_paths_limited_sound f n l :
  src_paths_limited f n = Some l → l = src_paths f ∧ length l ≤ n.
Proof.
  unfold src_paths_limited, src_paths. destruct (pull_limited n f [[]]) as [r|] eqn:Er; [|done].
  apply pull_limited_sound in Er as [-> _]. simpl.
  destruct (limited n (normalized_paths (pull f [[]]))) as [ps|] eqn:El; [|done].
  apply limited_Some in El as [-> Hn]. simpl. intros [= <-]. split; [done|].
  by rewrite sort_by_length, length_map.
Qed.
