(* ===== verification/FilterMeaning.v ===== *)
(** * View filters: meaning

    The abstract specification of the filter language: the relation between the
    source path of a file and its path in the view.  [canonicalize] preserves it,
    [invert] turns it around, and [src_paths] / [dst_paths] compute exactly the
    regions it relates.  Exclusions are an argument ([excl]): [excluded] is their
    meaning, [no_exclusion] gives the relation the path computations use, which
    ignore them. *)
From stdpp Require Import base strings sets numbers tactics sorting list.
From S2P Require Import Prelude Text FilterSyntax FilterParse FilterRoundTrip FilterCanonical.
From S2P Require Import FilterSemantics.

(** ** The relation *)

Section Maps.
Variable excl : list Selector → list text → Prop.

Section ChainMaps.
Variable maps : Filter → list text → list text → Prop.

Fixpoint chain_maps (ops : list Filter) (s d : list text) : Prop :=
  match ops with
  | [] => s = d
  | op :: ops => ∃ m, maps op s m ∧ chain_maps ops m d
  end.

Fixpoint some_maps (fs : list Filter) (s d : list text) : Prop :=
  match fs with
  | [] => False
  | f :: fs => maps f s d ∨ some_maps fs s d
  end.
End ChainMaps.

(** The file at [s] in the source tree appears at [d] in the view. *)
Fixpoint maps (f : Filter) (s d : list text) : Prop :=
  match f with
  | Subdir p => s = segments p ++ d
  | Prefix p => d = segments p ++ s
  | Exclude sels => s = d ∧ ¬ excl sels d
  | Compose fs => some_maps maps fs s d
  | Chain ops => chain_maps maps ops s d
  | Nop => s = d
  | Empty => False
  end.
End Maps.

(** A file at path [x] is excluded by an entry selector at or above it, and by a
    tree selector strictly above it (the selected entry is then a tree). *)
Definition excluded_by (x : list text) (sel : Selector) : Prop :=
  match sel with
  | Entry p => segments p `prefix_of` x
  | Tree p => segments p `prefix_of` x ∧ segments p ≠ x
  end.

Definition excluded (sels : list Selector) (x : list text) : Prop := Exists (excluded_by x) sels.

Definition no_exclusion (_ : list Selector) (_ : list text) : Prop := False.

(** An interpretation of exclusion that reads a list of selectors as a set. *)
Class SelectorSet (excl : list Selector → list text → Prop) : Prop := {
  excl_nil : ∀ x, ¬ excl [] x;
  excl_ext : ∀ l k x, (∀ s, s ∈ l ↔ s ∈ k) → excl l x → excl k x;
}.

#[export] Instance excluded_set : SelectorSet excluded.
Proof.
  split.
  - intros x Hx. by inversion Hx.
  - intros l k x Hlk. unfold excluded. rewrite !Exists_exists. naive_solver.
Qed.

#[export] Instance no_exclusion_set : SelectorSet no_exclusion.
Proof. split; unfold no_exclusion; auto. Qed.

(** ** Canonical form *)

Section Canonical.
Context (excl : list Selector → list text → Prop) `{!SelectorSet excl}.
Abbreviation maps := (maps excl).
Abbreviation chain_maps := (chain_maps maps).
Abbreviation some_maps := (some_maps maps).

Lemma chain_maps_app l k s d : chain_maps (l ++ k) s d ↔ ∃ m, chain_maps l s m ∧ chain_maps k m d.
Proof.
  revert s. induction l as [|f l IH]; intros s; simpl; [naive_solver|].
  setoid_rewrite IH. naive_solver.
Qed.

Lemma some_maps_spec fs s d : some_maps fs s d ↔ ∃ f, f ∈ fs ∧ maps f s d.
Proof.
  induction fs as [|f fs IH]; simpl.
  - split; [done|]. intros (f & Hf & _). by apply elem_of_nil in Hf.
  - rewrite IH. setoid_rewrite elem_of_cons. naive_solver.
Qed.

(** The operators on the stack, oldest first. *)
Definition stack_maps (ops : list ChainOp) : list text → list text → Prop :=
  chain_maps (reverse (map op_filter ops)).

Lemma stack_maps_cons op ops s d :
  stack_maps (op :: ops) s d ↔ ∃ m, stack_maps ops s m ∧ maps (op_filter op) m d.
Proof.
  unfold stack_maps. cbn [map]. rewrite reverse_cons, chain_maps_app. simpl. naive_solver.
Qed.

Lemma common_len_spec p q :
  take (common_len p q) p = take (common_len p q) q ∧ common_len p q ≤ length p `min` length q
  ∧ (common_len p q < length p `min` length q →
     p !! common_len p q ≠ q !! common_len p q).
Proof.
  revert q. induction p as [|a p IH]; intros [|b q]; simpl; try (split; [done|split; [lia|lia]]).
  case_bool_decide as E; simpl.
  - subst. destruct (IH q) as (H1 & H2 & H3). split; [by f_equal|]. split; [lia|].
    intros ?. apply H3. lia.
  - split; [done|]. split; [lia|]. intros _ [=]. done.
Qed.

Lemma push_op_maps ops op :
  match push_op ops op with
  | Some ops' => ∀ s d, stack_maps ops' s d ↔ ∃ m, stack_maps ops s m ∧ maps (op_filter op) m d
  | None => ∀ s m d, stack_maps ops s m → ¬ maps (op_filter op) m d
  end.
Proof.
  revert op. induction ops as [|prev ops IH]; intros op.
  { simpl. intros s d. apply stack_maps_cons. }
  assert (∀ r, (∀ m d, maps (op_filter r) m d ↔ ∃ n, maps (op_filter prev) m n ∧ maps (op_filter op) n d) →
    match push_op ops r with
    | Some ops' => ∀ s d, stack_maps ops' s d ↔ ∃ m, stack_maps (prev :: ops) s m ∧ maps (op_filter op) m d
    | None => ∀ s m d, stack_maps (prev :: ops) s m → ¬ maps (op_filter op) m d
    end) as Hmerge.
  { intros r Hr. specialize (IH r). destruct (push_op ops r) as [ops'|].
    - intros s d. rewrite IH. setoid_rewrite stack_maps_cons. setoid_rewrite Hr. naive_solver.
    - intros s m d. rewrite stack_maps_cons. intros (n & Hs & Hn) Hm.
      apply (IH s n d Hs), Hr. eauto. }
  assert (∀ s d, stack_maps (op :: prev :: ops) s d ↔
    ∃ m, stack_maps (prev :: ops) s m ∧ maps (op_filter op) m d) as Hkeep
    by (intros; apply stack_maps_cons).
  destruct prev as [a|a|f], op as [b|b|g]; cbn [push_op]; try exact Hkeep.
  - apply Hmerge. intros m d. simpl. setoid_rewrite <-app_assoc. naive_solver.
  - clear Hkeep. set (n := common_len a b).
    destruct (common_len_spec a b) as (Ht & Hle & Hne). fold n in Ht, Hle, Hne. cbn zeta.
    destruct (Nat.ltb_spec n (length a `min` length b)) as [Hlt|Hge].
    { intros s m d. rewrite stack_maps_cons. simpl. intros (x & _ & ->) Heq.
      apply Hne; [done|]. rewrite <-(lookup_app_l a x n) by lia. rewrite Heq.
      by rewrite lookup_app_l by lia. }
    pose proof (take_drop n a) as Ha. pose proof (take_drop n b) as Hb. rewrite <-Ht in Hb.
    revert Ha Hb. generalize (take n a) as c. intros c Ha Hb.
    destruct (drop n a) as [|x a'] eqn:Ea; [destruct (drop n b) as [|y b'] eqn:Eb|].
    + assert (a = b) as Hab by congruence. clear - Hab. intros s d.
      setoid_rewrite stack_maps_cons. simpl. rewrite <-Hab. split.
      * intros Hs. exists (a ++ d). naive_solver.
      * by intros (m & (x & Hs & ->) & <-%app_inv_head).
    + apply Hmerge. intros m d. simpl. rewrite <-Ha, <-Hb, app_nil_r.
      setoid_rewrite <-app_assoc. split; [intros ->; by eauto|].
      by intros (? & -> & ->%app_inv_head).
    + assert (drop n b = []) as Eb.
      { apply drop_ge. apply (f_equal length) in Ea. rewrite length_drop in Ea. simpl in Ea. lia. }
      rewrite Eb, app_nil_r in Hb. apply Hmerge. intros m d. simpl. rewrite <-Ha, <-Hb.
      setoid_rewrite <-app_assoc. split; [intros ->; by eauto|].
      by intros (? & -> & <-%app_inv_head).
  - apply Hmerge. intros m d. simpl. setoid_rewrite <-app_assoc. naive_solver.
Qed.

Lemma push_all_maps fs ops :
  match push_all ops fs with
  | Some ops' => ∀ s d, stack_maps ops' s d ↔ ∃ m, stack_maps ops s m ∧ chain_maps fs m d
  | None => ∀ s m d, stack_maps ops s m → ¬ chain_maps fs m d
  end.
Proof.
  revert ops. induction fs as [|f fs IH]; intros ops; simpl.
  - intros s d. naive_solver.
  - pose proof (push_op_maps ops (ChainOp_from f)) as Hf. rewrite op_filter_from in Hf.
    destruct (push_op ops (ChainOp_from f)) as [ops1|]; [|naive_solver].
    specialize (IH ops1). destruct (push_all ops1 fs) as [ops2|].
    + intros s d. rewrite IH. setoid_rewrite Hf. naive_solver.
    + intros s m d Hs (n & Hn & Hd). apply (IH s n d); [|done]. apply Hf. eauto.
Qed.

Lemma chain_ops_maps canon children ops r :
  Forall (λ f, ∀ c, canon f = Some c → ∀ s d, maps c s d ↔ maps f s d) children →
  chain_ops canon ops children = Some r →
  ∀ s d, (∃ m, stack_maps ops s m ∧ chain_maps children m d)
         ↔ from_option (λ ops', stack_maps ops' s d) False r.
Proof.
  intros Hf. revert ops. induction Hf as [|f fs Hf _ IH]; intros ops Hr s d; simpl in Hr.
  { simplify_eq. simpl. naive_solver. }
  destruct (canon f) as [c|] eqn:Ec; [|done]. simpl in Hr. specialize (Hf c eq_refl).
  simpl. setoid_rewrite <-Hf. clear Hf Ec.
  assert (∀ o, (∀ s d, stack_maps o s d ↔ ∃ m, stack_maps ops s m ∧ maps c m d) →
    chain_ops canon o fs = Some r →
    (∃ m, stack_maps ops s m ∧ ∃ n, maps c m n ∧ chain_maps fs n d)
    ↔ from_option (λ ops', stack_maps ops' s d) False r) as Hgo.
  { intros o Ho Hro. rewrite <-(IH o Hro s d). setoid_rewrite Ho. naive_solver. }
  assert (match push_op ops (ChainOp_from c) with
          | Some ops' => chain_ops canon ops' fs
          | None => Some None
          end = Some r →
    (∃ m, stack_maps ops s m ∧ ∃ n, maps c m n ∧ chain_maps fs n d)
    ↔ from_option (λ ops', stack_maps ops' s d) False r) as Hpush.
  { pose proof (push_op_maps ops (ChainOp_from c)) as Hp. rewrite op_filter_from in Hp.
    destruct (push_op ops (ChainOp_from c)) as [o|]; [by apply Hgo|].
    intros [= <-]. simpl. naive_solver. }
  destruct c as [| | | |nested| |]; try (by apply Hpush).
  - pose proof (push_all_maps nested ops) as Hp. destruct (push_all ops nested) as [o|].
    + by apply (Hgo o).
    + simplify_eq. simpl. naive_solver.
  - apply (Hgo ops); [|done]. simpl. naive_solver.
  - simplify_eq. simpl. naive_solver.
Qed.

Lemma mapM_into_filter_maps ops fs : mapM into_filter ops = Some fs → fs = map op_filter ops.
Proof.
  revert fs. induction ops as [|op ops IH]; intros fs H; simpl in H; [by injection H as <-|].
  destruct (into_filter op) as [f|] eqn:Ef; [|done]. simpl in H.
  destruct (mapM into_filter ops) as [gs|]; [|done]. injection H as <-.
  rewrite (IH gs eq_refl). simpl. f_equal. clear -Ef.
  destruct op as [segs|segs|g]; simpl in *; [| |by simplify_eq]; unfold ViewPath_new in Ef;
    destruct (valid_view_path segs); by simplify_eq/=.
Qed.

Lemma compose_members_maps canon children ms r :
  Forall (λ f, ∀ c, canon f = Some c → ∀ s d, maps c s d ↔ maps f s d) children →
  compose_members canon ms children = Some r →
  ∀ s d, some_maps r s d ↔ some_maps ms s d ∨ some_maps children s d.
Proof.
  intros Hf. revert ms. induction Hf as [|f fs Hf _ IH]; intros ms Hr s d; simpl in Hr.
  { simplify_eq. simpl. tauto. }
  destruct (canon f) as [c|] eqn:Ec; [|done]. simpl in Hr. specialize (Hf c eq_refl).
  assert (∀ l k, some_maps (l ++ k) s d ↔ some_maps l s d ∨ some_maps k s d) as Happ.
  { intros l k. rewrite !some_maps_spec. setoid_rewrite elem_of_app. naive_solver. }
  simpl. rewrite <-(Hf s d). clear Hf Ec.
  destruct c as [| | |nested| | |]; rewrite (IH _ Hr s d), ?Happ; simpl; tauto.
Qed.

Lemma canonicalize_maps f c :
  canonicalize f = Some c → ∀ s d, maps c s d ↔ maps f s d.
Proof.
  revert c. induction f as [p|p|sels|fs IH|fs IH| |] using filter_ind; intros c Hc s d;
    simpl in Hc; try (by simplify_eq).
  - assert (∀ s, s ∈ dedup (sort_by print_selector str_compare sels) ↔ s ∈ sels) as Hel.
    { intros x. by rewrite dedup_elem_of, sort_by_perm. }
    destruct (dedup _) as [|x l] eqn:E; simplify_eq; simpl.
    + split; [|by intros [? _]]. intros ->. split; [done|]. intros Hx.
      apply (excl_nil (excl := excl) d). by apply (excl_ext sels).
    + split; intros [-> Hn]; (split; [done|]); intros Hx; apply Hn;
        (eapply excl_ext; [|exact Hx]); naive_solver.
  - destruct (compose_members canonicalize [] fs) as [ms|] eqn:Em; [|done]. simpl in Hc.
    pose proof (compose_members_maps canonicalize fs [] ms IH Em s d) as Hm. simpl in Hm.
    assert (∀ l, some_maps (sort_by print str_compare l) s d ↔ some_maps l s d) as Hsort.
    { intros l. rewrite !some_maps_spec. by setoid_rewrite sort_by_perm. }
    rewrite <-Hsort in Hm. change (maps (Compose fs) s d) with (some_maps fs s d).
    destruct (sort_by print str_compare ms) as [|m1 [|m2 ms']]; simplify_eq; simpl in *; tauto.
  - unfold canonicalize_chain in Hc.
    destruct (chain_ops canonicalize [] fs) as [r|] eqn:Er; [|done]. simpl in Hc.
    pose proof (chain_ops_maps canonicalize fs [] r IH Er s d) as Hm.
    change (maps (Chain fs) s d) with (chain_maps fs s d).
    assert ((∃ m, stack_maps [] s m ∧ chain_maps fs m d) ↔ chain_maps fs s d) as Hnil
      by (unfold stack_maps; simpl; naive_solver).
    rewrite <-Hnil, Hm. destruct r as [[|op1 [|op2 ops]]|]; simpl.
    + by simplify_eq.
    + assert (mapM into_filter [op1] = Some [c]) as H1 by (simpl; by rewrite Hc).
      apply mapM_into_filter_maps in H1. injection H1 as ->. unfold stack_maps. simpl. naive_solver.
    + destruct (mapM into_filter _) as [gs|] eqn:Eg; simplify_eq/=.
      apply mapM_into_filter_maps in Eg as ->. unfold stack_maps.
      by rewrite (fmap_reverse op_filter (op1 :: op2 :: ops) : map _ _ = _).
    + by simplify_eq.
Qed.
End Canonical.

(** ** Source regions *)

Abbreviation may_map := (maps no_exclusion).

Lemma may_exclude sels s d : may_map (Exclude sels) s d ↔ s = d.
Proof. unfold no_exclusion. simpl. tauto. Qed.

(** What is related with the exclusions is related without them. *)
Lemma maps_may_map excl f s d : maps excl f s d → may_map f s d.
Proof.
  revert s d. induction f as [p|p|sels|fs IH|fs IH| |] using filter_ind; intros s d H; try done.
  - destruct H. by apply may_exclude.
  - induction IH as [|f fs Hf _ IHfs]; [done|]. destruct H; [left; auto|right; by apply IHfs].
  - revert s H. induction IH as [|f fs Hf _ IHfs]; intros s H; [done|].
    destruct H as (m & Hm & Hd). exists m. split; [auto|by apply IHfs].
Qed.

(** [paths'] is the region that [f] takes into [paths]. *)
Definition preimage (f : Filter) (paths paths' : path_list) : Prop :=
  ∀ s, region paths' s ↔ ∃ d, may_map f s d ∧ region paths d.

Lemma preimage_subdir p paths :
  preimage (Subdir p) paths (map (λ suffix, segments p ++ suffix) paths).
Proof.
  intros s. simpl. split.
  - intros (q & (x & -> & Hx)%list_elem_of_fmap & [k ->]). exists (x ++ k).
    split; [by rewrite app_assoc|]. exists x. split; [done|by exists k].
  - intros (d & -> & (x & Hx & [k ->])). exists (segments p ++ x). split.
    + apply list_elem_of_fmap. eauto.
    + exists k. by rewrite app_assoc.
Qed.

Lemma pull_prefix_spec p o q s :
  pull_prefix p o = Some q → q `prefix_of` s ↔ o `prefix_of` p ++ s.
Proof.
  unfold pull_prefix. destruct (is_prefix p o) eqn:E1.
  - apply is_prefix_spec in E1 as [k ->]. rewrite drop_app_length. intros [= <-].
    split; [apply prefix_app|apply prefix_app_inv].
  - destruct (is_prefix o p) eqn:E2; [|done]. apply is_prefix_spec in E2. intros [= <-].
    split; [intros _; by apply prefix_app_r|intros _; apply prefix_nil].
Qed.

Lemma pull_prefix_None p o s : pull_prefix p o = None → ¬ o `prefix_of` p ++ s.
Proof.
  unfold pull_prefix. destruct (is_prefix p o) eqn:E1; [done|].
  destruct (is_prefix o p) eqn:E2; [done|]. intros _ Ho.
  destruct (prefix_weak_total o p (p ++ s)) as [H|H]; [done|by apply prefix_app_r| |];
    apply is_prefix_spec in H; congruence.
Qed.

Lemma preimage_prefix p paths :
  preimage (Prefix p) paths (omap (pull_prefix (segments p)) paths).
Proof.
  intros s. simpl. split.
  - intros (q & (o & Ho & Hq)%list_elem_of_omap & Hs). exists (segments p ++ s). split; [done|].
    exists o. split; [done|]. by apply (pull_prefix_spec _ _ _ _ Hq).
  - intros (d & -> & (o & Ho & Hs)). destruct (pull_prefix (segments p) o) as [q|] eqn:E.
    + exists q. split; [apply list_elem_of_omap; eauto|]. by apply (pull_prefix_spec _ _ _ _ E).
    + by apply pull_prefix_None in Hs.
Qed.

Lemma preimage_normalized f paths paths' :
  preimage f paths paths' → preimage f paths (normalized_paths paths').
Proof. intros H s. by rewrite region_normalized. Qed.

Lemma pull_preimage f paths : preimage f paths (pull f paths).
Proof.
  revert paths. induction f as [p|p|sels|fs IH|fs IH| |] using filter_ind; intros paths;
    cbn [pull]; apply preimage_normalized.
  - apply preimage_subdir.
  - apply preimage_prefix.
  - intros s. setoid_rewrite may_exclude. naive_solver.
  - assert (∀ out s, region (pull_members pull paths out fs) s ↔
      region out s ∨ ∃ d, some_maps may_map fs s d ∧ region paths d) as Hgo.
    { induction IH as [|f fs Hf _ IHfs]; intros out s; simpl; [naive_solver|].
      rewrite IHfs, region_normalized, region_app, (Hf paths s). naive_solver. }
    intros s. rewrite Hgo. pose proof (region_nil s). simpl. tauto.
  - assert (∀ s, region (pull_ops pull paths fs) s ↔
      ∃ d, chain_maps may_map fs s d ∧ region paths d) as Hgo; [|done].
    induction IH as [|f fs Hf _ IHfs]; intros s; simpl; [naive_solver|].
    rewrite region_normalized, (Hf _ s). setoid_rewrite IHfs. naive_solver.
  - intros s. simpl. naive_solver.
  - intros s. simpl. pose proof (region_nil s). naive_solver.
Qed.

(** ** Inversion *)

Lemma mapM_maps (g : Filter → option Filter) fs gs :
  mapM g fs = Some gs → Forall2 (λ f g', g f = Some g') fs gs.
Proof. apply mapM_Some_1. Qed.

Lemma invert_maps f c :
  invert f = Some c → ∀ s d, may_map c d s ↔ may_map f s d.
Proof.
  revert c. induction f as [p|p|sels|fs IH|fs IH| |] using filter_ind; intros c Hc s d;
    cbn [invert] in Hc.
  - rewrite (canonicalize_maps no_exclusion _ _ Hc). done.
  - rewrite (canonicalize_maps no_exclusion _ _ Hc). done.
  - rewrite (canonicalize_maps no_exclusion _ _ Hc), !may_exclude. naive_solver.
  - destruct (mapM invert fs) as [gs|] eqn:Em; [|done]. apply mapM_maps in Em.
    rewrite (canonicalize_maps no_exclusion _ _ Hc). clear Hc. simpl.
    induction Em as [|f g fs gs Hg _ IHm]; [done|]. inversion IH; subst. simpl.
    rewrite IHm by done. by rewrite (H1 g Hg s d).
  - destruct (mapM invert fs) as [gs|] eqn:Em; [|done]. apply mapM_maps in Em.
    rewrite (canonicalize_maps no_exclusion _ _ Hc). clear Hc. simpl.
    revert s. induction Em as [|f g fs gs Hg _ IHm]; intros s; [simpl; naive_solver|].
    inversion IH as [|? ? Hf IHfs]; subst. rewrite reverse_cons, chain_maps_app. simpl.
    setoid_rewrite (IHm IHfs). setoid_rewrite <-(Hf g Hg). naive_solver.
  - rewrite (canonicalize_maps no_exclusion _ _ Hc). simpl. naive_solver.
  - rewrite (canonicalize_maps no_exclusion _ _ Hc). done.
Qed.

Lemma invert_total f : filter_wf f → ∃ c, invert f = Some c ∧ canonical c.
Proof.
  assert (∀ fs, Forall (λ f, ∃ c, invert f = Some c ∧ canonical c) fs →
    ∃ gs, mapM invert fs = Some gs ∧ Forall filter_wf gs) as Hall.
  { clear f. induction 1 as [|f fs (c & Hc & Hcan) _ (gs & Hgs & Hwf)]; simpl; [by exists []|].
    rewrite Hc. simpl. rewrite Hgs. exists (c :: gs). split; [done|].
    constructor; [by apply canonical_wf|done]. }
  induction f as [p|p|sels|fs IH|fs IH| |] using filter_ind; intros Hwf; cbn [invert].
  - by apply (canonicalize_canonical (Prefix p)).
  - by apply (canonicalize_canonical (Subdir p)).
  - by apply (canonicalize_canonical (Exclude sels)).
  - apply filter_wf_compose in Hwf. destruct (Hall fs) as (gs & -> & Hgs); [by eapply Forall_mp|].
    by apply (canonicalize_canonical (Compose gs)), filter_wf_compose.
  - apply filter_wf_chain in Hwf. destruct (Hall fs) as (gs & -> & Hgs); [by eapply Forall_mp|].
    apply (canonicalize_canonical (Chain (reverse gs))), filter_wf_chain. by rewrite Forall_reverse.
  - by apply (canonicalize_canonical Nop).
  - by apply (canonicalize_canonical Empty).
Qed.

(** ** Displayed paths *)

Definition segs_ok (path : list text) : Prop := Forall (λ s, valid_path_segment s = true) path.

Lemma path_segments_display path : segs_ok path → path_segments (display_path path) = path.
Proof.
  intros Hok. destruct path as [|s segs]; [done|]. unfold display_path, path_segments.
  rewrite strip_prefix_app. inversion Hok as [|? ? Hs _]; subst.
  destruct (valid_segment_shape s Hs) as (Hne & _). destruct s as [|c s]; [done|].
  destruct (join_cons_hd (ch "/") (c :: s) segs) as [r Hr].
  change ((c :: s) ++ r) with (c :: (s ++ r)) in Hr. rewrite Hr, <-Hr at 1. apply split_join; [done|]. eapply Forall_impl; [exact Hok|].
  intros x Hx Hin. by destruct (valid_segment_chars x _ Hx Hin).
Qed.

Lemma normalized_ok paths : Forall segs_ok paths → Forall segs_ok (normalized_paths paths).
Proof.
  rewrite !Forall_forall. intros H p Hp. apply H. by apply normalized_paths_spec.
Qed.

Lemma pull_ok f paths : filter_wf f → Forall segs_ok paths → Forall segs_ok (pull f paths).
Proof.
  revert paths. induction f as [p|p|sels|fs IH|fs IH| |] using filter_ind; intros paths Hwf Hp;
    cbn [pull]; apply normalized_ok; try done.
  - apply Forall_map. eapply Forall_impl; [exact Hp|]. intros x Hx. apply Forall_app_2; [|done].
    by apply path_wf_segments.
  - apply Forall_forall. intros q (o & Ho & Hq)%list_elem_of_omap. rewrite Forall_forall in Hp.
    specialize (Hp o Ho). unfold pull_prefix in Hq. break_in Hq; [|constructor].
    by apply Forall_drop.
  - apply filter_wf_compose in Hwf. assert (∀ out, Forall segs_ok out →
      Forall segs_ok (pull_members pull paths out fs)) as Hgo; [|apply Hgo; constructor].
    induction IH as [|f fs Hf _ IHfs]; intros out Hout; [done|]. inversion Hwf; subst. simpl.
    apply IHfs; [done|]. apply normalized_ok, Forall_app_2; auto.
  - apply filter_wf_chain in Hwf.
    induction IH as [|f fs Hf _ IHfs]; [done|]. inversion Hwf; subst. simpl.
    apply normalized_ok. auto.
Qed.

(** The region of the displayed source paths. *)
Definition displayed_region (paths : list text) (x : list text) : Prop :=
  region (map path_segments paths) x.

Lemma src_paths_elem f p :
  p ∈ map path_segments (src_paths f) ↔
  ∃ q, q ∈ normalized_paths (pull f [[]]) ∧ p = path_segments (display_path q).
Proof.
  unfold src_paths. rewrite list_elem_of_fmap. setoid_rewrite sort_by_perm.
  setoid_rewrite list_elem_of_fmap. naive_solver.
Qed.

Lemma src_paths_segments f :
  filter_wf f → ∀ p, p ∈ map path_segments (src_paths f) ↔ p ∈ normalized_paths (pull f [[]]).
Proof.
  intros Hwf p. rewrite src_paths_elem.
  assert (Forall segs_ok (normalized_paths (pull f [[]]))) as Hok.
  { apply normalized_ok, pull_ok; [done|]. repeat constructor. }
  rewrite Forall_forall in Hok. split.
  - intros (q & Hq & ->). by rewrite path_segments_display by auto.
  - intros Hp. exists p. by rewrite path_segments_display by auto.
Qed.

Lemma src_paths_region f s :
  filter_wf f → displayed_region (src_paths f) s ↔ ∃ d, may_map f s d.
Proof.
  intros Hwf. unfold displayed_region, region. setoid_rewrite (src_paths_segments f Hwf).
  change (∃ p, p ∈ ?l ∧ p `prefix_of` s) with (region l s).
  rewrite region_normalized, (pull_preimage f [[]] s).
  split; [naive_solver|]. intros [d Hd]. exists d. split; [done|apply region_root].
Qed.

(** ** Theorems *)

(** C14: canonicalisation does not change a view: the canonical filter shows exactly
    the same source files at the same paths, exclusions included. *)
Theorem canonicalize_preserves_view f :
  filter_wf f →
  ∃ c, canonicalize f = Some c ∧ ∀ s d, maps excluded c s d ↔ maps excluded f s d.
Proof.
  intros Hwf. destruct (canonicalize_canonical f Hwf) as (c & Hc & _). exists c.
  split; [done|]. exact (canonicalize_maps excluded f c Hc).
Qed.

(** C24: the source paths computed for a filter are exact.  A source file lies at or
    below one of them if and only if the filter without its exclusions gives it a
    place in the view; with the exclusions the paths still cover every file of the
    view.  No source path is below another. *)
Theorem src_paths_exact f :
  filter_wf f →
  (∀ s, displayed_region (src_paths f) s ↔ ∃ d, may_map f s d)
  ∧ (∀ s d, maps excluded f s d → displayed_region (src_paths f) s)
  ∧ antichain (map path_segments (src_paths f)).
Proof.
  intros Hwf. split; [intros s; by apply src_paths_region|]. split.
  - intros s d H%maps_may_map. apply src_paths_region; eauto.
  - intros p q. rewrite !src_paths_segments by done. apply normalized_paths_spec.
Qed.

(** Inverting a filter turns its relation around, never panics, and so the
    destination paths are exactly the places of the view the filter can fill. *)
Theorem invert_exact f :
  filter_wf f →
  ∃ c l, invert f = Some c ∧ dst_paths f = Some l
    ∧ (∀ s d, may_map c d s ↔ may_map f s d)
    ∧ ∀ d, displayed_region l d ↔ ∃ s, may_map f s d.
Proof.
  intros Hwf. destruct (invert_total f Hwf) as (c & Hc & Hcan).
  exists c, (src_paths c). unfold dst_paths. rewrite Hc. split; [done|]. split; [done|].
  pose proof (invert_maps f c Hc) as Hm. split; [done|]. intros d.
  rewrite src_paths_region by by apply canonical_wf. by setoid_rewrite Hm.
Qed.

(** ** Witnesses *)

Definition demo_view : Filter :=
  Chain [Subdir (mk_ViewPath [lit "a"]);
         Compose [Subdir (mk_ViewPath [lit "x"]); Prefix (mk_ViewPath [lit "y"])];
         Exclude [Entry (mk_ViewPath [lit "z"])]].

Lemma demo_view_wf : filter_wf demo_view.
Proof. simpl. repeat split; repeat constructor. Qed.

Lemma canonicalize_preserves_view_witness :
  filter_wf demo_view ∧ ∃ c, canonicalize demo_view = Some c
    ∧ ∀ s d, maps excluded c s d ↔ maps excluded demo_view s d.
Proof. split; [exact demo_view_wf|]. exact (canonicalize_preserves_view _ demo_view_wf). Defined.

Lemma src_paths_exact_witness :
  src_paths demo_view = [lit "/a"] ∧ ∀ s, displayed_region [lit "/a"] s ↔ ∃ d, may_map demo_view s d.
Proof.
  split; [vm_compute; reflexivity|]. intros s.
  destruct (src_paths_exact demo_view demo_view_wf) as [H _].
  assert (src_paths demo_view = [lit "/a"]) as <- by (vm_compute; reflexivity). apply H.
Defined.

Lemma invert_exact_witness :
  ∃ c l, invert demo_view = Some c ∧ dst_paths demo_view = Some l
    ∧ (∀ s d, may_map c d s ↔ may_map demo_view s d)
    ∧ ∀ d, displayed_region l d ↔ ∃ s, may_map demo_view s d.
Proof. exact (invert_exact demo_view demo_view_wf). Defined.
