(* ===== verification/MonoPath.v ===== *)
(** * Monorepo paths: canonical form and creation policy

    Models [canonicalize_mono_ref_path] of [src/common/utils.rs] and the path
    policy of [src/ceres/pack/path_policy.rs], the classifier shared by path
    provisioning, product writes and receive-pack.  [import_dir] is a path buffer in
    the source and its text here.  The error values keep the path and the reason;
    reasons are named instead of spelled out. *)
From stdpp Require Import base strings sets numbers tactics list.
From S2P Require Import Prelude Text FilterSyntax FilterCanonical FilterSemantics.

(** ** Operations *)

Inductive MonoPathError :=
  | PathEmpty
  | PathTraversal (s : text)
  | PathBackslash (s : text)
  | PathOnlyDots.

Definition is_slash (c : N) : bool := N.eqb c (ch "/").

Definition kept_part (p : text) : bool :=
  negb (bool_decide (p = [])) && negb (bool_decide (p = lit ".")).

Definition canonicalize_mono_ref_path (path : text) : MonoPathError + text :=
  let s := trim path in
  if bool_decide (s = []) then inl PathEmpty
  else if existsb (λ p, bool_decide (p = lit "..")) (split_on (ch "/") s) then inl (PathTraversal s)
  else if contains_char backslash s then inl (PathBackslash s)
  else
    let s := trim_end_matches is_slash s in
    if bool_decide (s = []) then inr (lit "/")
    else
      match List.filter kept_part (split_on (ch "/") s) with
      | [] => inl PathOnlyDots
      | parts => inr (lit "/" ++ join (ch "/") parts)
      end.

(** The fields of [MonoConfig] that the policy reads. *)
Record MonoConfig := mk_MonoConfig { import_dir : text; root_dirs : list text }.

Definition VIEW_URL_RESERVED_NAMES : list text := [lit ".view"; lit ".filter"].

Inductive PathReason :=
  | ReasonNul
  | ReasonBackslash
  | ReasonControl
  | ReasonNotCanonical
  | ReasonDidYouMean (canonical : text)
  | ReasonNotAbsolute
  | ReasonRoot
  | ReasonReserved
  | ReasonDotDot
  | ReasonImportDirItself
  | ReasonOutsideImportDir.

Inductive PathPolicyError :=
  | Invalid (path : text) (reason : PathReason)
  | NotAllowed (path : text) (allowed_roots : list text) (import_dir : text).

(** [ImportRepoError::PathInvalid] *)
Record ImportRepoError := mk_ImportRepoError { bad_path : text; bad_reason : PathReason }.

Definition is_same_or_under (path dir : text) : bool :=
  bool_decide (path = dir)
  || from_option (starts_with (lit "/")) false (strip_prefix dir path).

Definition in_import_namespace (config : MonoConfig) (canonical_path : text) : bool :=
  is_same_or_under canonical_path (import_dir config).

Definition is_import_dir_ancestor (config : MonoConfig) (canonical_path : text) : bool :=
  bool_decide (canonical_path = lit "/")
  || (negb (bool_decide (canonical_path = import_dir config))
      && is_same_or_under (import_dir config) canonical_path).

(** [split('/').next().unwrap_or_default()] *)
Definition first_component (s : text) : text := default [] (head (split_on (ch "/") s)).

Definition has_view_reserved_first_component (path : text) : bool :=
  bool_decide (first_component (trim_start_matches is_slash path) ∈ VIEW_URL_RESERVED_NAMES).

Definition not_allowed (config : MonoConfig) (path : text) : PathPolicyError :=
  NotAllowed path (sort_by id str_compare (map (λ root, lit "/" ++ root) (root_dirs config)))
    (import_dir config).

Definition is_canonical_path (path : text) : bool :=
  match canonicalize_mono_ref_path path with inr c => bool_decide (c = path) | inl _ => false end.

Definition classify_creation_path (config : MonoConfig) (canonical_path : text)
    : option PathPolicyError :=
  if contains_char 0 canonical_path then Some (Invalid canonical_path ReasonNul)
  else if negb (is_canonical_path canonical_path) then
    Some (Invalid canonical_path ReasonNotCanonical)
  else if in_import_namespace config canonical_path then Some (not_allowed config canonical_path)
  else if bool_decide (canonical_path = lit "/") then Some (Invalid canonical_path ReasonRoot)
  else if has_view_reserved_first_component canonical_path then
    Some (Invalid canonical_path ReasonReserved)
  else if negb (existsb (λ root, bool_decide (root = first_component (drop 1 canonical_path)))
                  (root_dirs config))
  then Some (not_allowed config canonical_path)
  else None.

Definition strict_creation_path_input (input : text) : PathPolicyError + text :=
  if contains_char 0 input then inl (Invalid input ReasonNul)
  else if contains_char backslash input then inl (Invalid input ReasonBackslash)
  else if existsb is_control input then inl (Invalid input ReasonControl)
  else match canonicalize_mono_ref_path input with
       | inr canonical =>
           if bool_decide (canonical = input) then inr canonical
           else inl (Invalid input (ReasonDidYouMean canonical))
       | inl _ => inl (Invalid input ReasonNotAbsolute)
       end.

Definition check_import_repo_leaf (config : MonoConfig) (canonical_path : text)
    : option ImportRepoError :=
  let leaf_invalid r := Some (mk_ImportRepoError canonical_path r) in
  if contains_char 0 canonical_path then leaf_invalid ReasonNul
  else if negb (is_canonical_path canonical_path) then leaf_invalid ReasonNotCanonical
  else if bool_decide (canonical_path = import_dir config) then leaf_invalid ReasonImportDirItself
  else if negb (is_same_or_under canonical_path (import_dir config))
  then leaf_invalid ReasonOutsideImportDir
  else None.

Definition strict_import_repo_leaf_input (config : MonoConfig) (raw : text)
    : ImportRepoError + text :=
  let leaf_invalid r := inl (mk_ImportRepoError raw r) in
  if contains_char 0 raw then leaf_invalid ReasonNul
  else if contains_char backslash raw then leaf_invalid ReasonBackslash
  else match canonicalize_mono_ref_path raw with
       | inl _ => leaf_invalid ReasonNotAbsolute
       | inr canonical =>
           if bool_decide (canonical = raw) then
             match check_import_repo_leaf config raw with
             | Some e => inl e
             | None => inr raw
             end
           else leaf_invalid (ReasonDidYouMean canonical)
       end.

(** The loop of [operand_path] over the segments; [None] for a [..] segment. *)
Fixpoint operand_components (segs : list text) : option (list text) :=
  match segs with
  | [] => Some []
  | segment :: segs =>
      if bool_decide (segment = []) || bool_decide (segment = lit ".") then operand_components segs
      else if bool_decide (segment = lit "..") then None
      else cons segment <$> operand_components segs
  end.

Definition operand_path (operand : text) : option text :=
  (λ components, lit "/" ++ join (ch "/") components)
  <$> operand_components (split_on (ch "/") operand).

(** The body of the loop of [check_write_operands]. *)
Definition check_operand (config : MonoConfig) (operand : text) (removal : bool)
    : option PathPolicyError :=
  match operand_path operand with
  | None => Some (Invalid operand ReasonDotDot)
  | Some path =>
      if has_view_reserved_first_component path then Some (Invalid path ReasonReserved)
      else if in_import_namespace config path
              || (removal && negb (bool_decide (path = lit "/"))
                  && is_import_dir_ancestor config path)
      then Some (not_allowed config path)
      else None
  end.

Fixpoint check_operands (config : MonoConfig) (operands : list (text * bool))
    : option PathPolicyError :=
  match operands with
  | [] => None
  | (operand, removal) :: operands =>
      match check_operand config operand removal with
      | Some e => Some e
      | None => check_operands config operands
      end
  end.

Definition check_write_operands (config : MonoConfig) (written removed : list text)
    : option PathPolicyError :=
  check_operands config (map (λ p, (p, false)) written ++ map (λ p, (p, true)) removed).

(** ** Lemmas on trimming *)

Lemma trim_end_id P s c : last s = Some c → P c = false → trim_end_matches P s = s.
Proof.
  intros Hl HP. apply last_Some in Hl as [s' ->]. unfold trim_end_matches.
  rewrite reverse_app. simpl. rewrite HP. change (c :: reverse s') with (reverse [c] ++ reverse s').
  by rewrite <-reverse_app, reverse_involutive.
Qed.

Lemma trim_elem s c : c ∈ trim s → c ∈ s.
Proof.
  unfold trim. intros Hc. destruct (trim_start_split is_whitespace s) as (pre & Hs & _).
  destruct (trim_end_split is_whitespace (trim_start_matches is_whitespace s)) as (suf & Hs' & _).
  rewrite Hs, Hs'. set_solver.
Qed.

(** ** Lemmas on segments *)

(** A segment of a displayed path: not empty, no separator. *)
Definition plain_segment (s : text) : Prop := s ≠ [] ∧ ch "/" ∉ s.

Definition mono_segment (s : text) : Prop :=
  plain_segment s ∧ s ≠ lit "." ∧ s ≠ lit ".." ∧ backslash ∉ s.

Lemma display_cons segs : display_path segs = lit "/" ++ join (ch "/") segs.
Proof. by destruct segs. Qed.

Lemma join_nonempty segs : Forall plain_segment segs → segs ≠ [] → join (ch "/") segs ≠ [].
Proof.
  intros Hp Hne. destruct segs as [|s segs]; [done|]. apply Forall_cons in Hp as [[Hs _] _].
  destruct (join_cons_hd (ch "/") s segs) as [r ->]. by destruct s.
Qed.

Lemma split_plain segs :
  Forall plain_segment segs → segs ≠ [] → split_on (ch "/") (join (ch "/") segs) = segs.
Proof.
  intros Hp Hne. apply split_join; [done|]. eapply Forall_impl; [exact Hp|]. by intros s [].
Qed.

Lemma display_inj a b :
  Forall plain_segment a → Forall plain_segment b → display_path a = display_path b → a = b.
Proof.
  intros Ha Hb. rewrite !display_cons. intros H%app_inv_head.
  destruct (decide (a = [])) as [->|Hna], (decide (b = [])) as [->|Hnb]; [done|..].
  - by destruct (join_nonempty b Hb Hnb).
  - by destruct (join_nonempty a Ha Hna).
  - by rewrite <-(split_plain a), <-(split_plain b), H.
Qed.

Lemma join_app segs segs' :
  segs ≠ [] → segs' ≠ [] →
  join (ch "/") (segs ++ segs') = join (ch "/") segs ++ ch "/" :: join (ch "/") segs'.
Proof.
  intros Hne Hne'. induction segs as [|s segs IH]; [done|].
  destruct segs as [|s' segs]; [by destruct segs'|].
  change ((s :: s' :: segs) ++ segs') with (s :: s' :: segs ++ segs').
  change (join (ch "/") (?x :: ?y :: ?l)) with (x ++ ch "/" :: join (ch "/") (y :: l)).
  change (s' :: segs ++ segs') with ((s' :: segs) ++ segs'). rewrite IH by done.
  by rewrite <-app_assoc.
Qed.

(** Component-level containment. *)
Lemma under_spec a b :
  Forall plain_segment a → Forall plain_segment b → b ≠ [] →
  is_same_or_under (display_path a) (display_path b) = is_prefix b a.
Proof.
  intros Ha Hb Hnb. apply eq_true_iff_eq. rewrite is_prefix_spec. unfold is_same_or_under.
  rewrite orb_true_iff, bool_decide_eq_true. split.
  - intros [H|H]; [by rewrite (display_inj a b)|].
    destruct (strip_prefix _ _) as [r|] eqn:E; [|done]. apply strip_prefix_Some in E.
    simpl in H. apply starts_with_spec in H as [t ->]. rewrite !display_cons, <-app_assoc in E.
    apply app_inv_head in E.
    destruct (decide (a = [])) as [->|Hna].
    { destruct (join_nonempty b Hb Hnb). simpl in E. by destruct (join _ b). }
    exists (split_on (ch "/") t). rewrite <-(split_plain a), E by done.
    change (lit "/" ++ t) with (ch "/" :: t). by rewrite split_on_sep, split_plain.
  - intros [k ->]. destruct (decide (k = [])) as [->|Hk]; [left; by rewrite app_nil_r|]. right.
    rewrite !display_cons, join_app, app_assoc by done. rewrite strip_prefix_app.
    simpl. apply starts_with_spec. by eexists.
Qed.

(** ** Lemmas on the canonical form *)

Lemma split_trim_slash s p :
  p ∈ split_on (ch "/") (trim_end_matches is_slash s) → p ∈ split_on (ch "/") s.
Proof.
  intros Hp. destruct (trim_end_split is_slash s) as (suf & Hs & Hsuf).
  destruct suf as [|c suf]; [by rewrite app_nil_r in Hs; rewrite <-Hs in Hp|].
  apply Forall_cons in Hsuf as [Hc%N.eqb_eq _]. subst c. rewrite Hs.
  rewrite split_on_sep. by apply elem_of_app; left.
Qed.

Lemma mono_path_segments path p :
  canonicalize_mono_ref_path path = inr p →
  ∃ segs, Forall mono_segment segs ∧ p = display_path segs.
Proof.
  unfold canonicalize_mono_ref_path. set (s := trim path).
  destruct (bool_decide (s = [])) eqn:Es; [done|].
  destruct (existsb _ _) eqn:Edd; [done|]. destruct (contains_char backslash s) eqn:Eb; [done|].
  destruct (bool_decide (trim_end_matches is_slash s = [])); [intros [= <-]; by exists []|].
  set (parts := List.filter kept_part _). intros Hp.
  assert (Forall mono_segment parts ∧ p = display_path parts) as [Hall ->]; [|by exists parts].
  split; [|destruct parts; [done|by simplify_eq]].
  apply Forall_forall. intros q Hq. unfold parts in Hq.
  apply list_elem_of_In, filter_In in Hq as [Hq%list_elem_of_In Hk].
  unfold kept_part in Hk. bool_prop. pose proof Hq as Hq'. apply split_trim_slash in Hq'.
  repeat split; [done| |done| |].
  - pose proof (split_on_pieces (ch "/") (trim_end_matches is_slash s)) as Hf.
    rewrite Forall_forall in Hf. by apply Hf.
  - intros ->. apply not_true_iff_false in Edd. apply Edd, existsb_exists. exists (lit "..").
    split; [by apply list_elem_of_In|by apply bool_decide_eq_true].
  - intros Hin. apply contains_char_false in Eb. apply Eb.
    assert (Forall (Forall (λ c, c ∈ s)) (split_on (ch "/") s)) as Hc
      by (apply split_on_chars, Forall_forall; done).
    rewrite Forall_forall in Hc. specialize (Hc q Hq'). rewrite Forall_forall in Hc. auto.
Qed.

Lemma display_last segs s c :
  Forall plain_segment segs → last segs = Some s → last s = Some c → last (display_path segs) = Some c.
Proof.
  intros Hp Hs Hc. rewrite display_cons. destruct (join_last (ch "/") segs s Hs) as [r ->].
  apply last_Some in Hc as [s' ->]. rewrite !app_assoc. apply last_snoc.
Qed.

Definition ends_in_space (p : text) : bool := from_option is_whitespace false (last p).

Lemma trim_display segs :
  ends_in_space (display_path segs) = false → trim (display_path segs) = display_path segs.
Proof.
  intros Hsp. unfold trim. rewrite display_cons in *.
  change (trim_start_matches is_whitespace (lit "/" ++ ?t)) with (lit "/" ++ t).
  destruct (last (lit "/" ++ join (ch "/") segs)) as [c|] eqn:El.
  - apply (trim_end_id _ _ c El). unfold ends_in_space in Hsp. by rewrite El in Hsp.
  - by apply last_None in El.
Qed.

Lemma filter_kept segs : Forall mono_segment segs → List.filter kept_part segs = segs.
Proof.
  induction 1 as [|s l ((? & _) & ? & _) _ IH]; simpl; [done|].
  unfold kept_part at 1. rewrite !bool_decide_false by done. simpl. by rewrite IH.
Qed.

Lemma mono_path_fix segs :
  Forall mono_segment segs → ends_in_space (display_path segs) = false →
  canonicalize_mono_ref_path (display_path segs) = inr (display_path segs).
Proof.
  intros Hm Hsp. unfold canonicalize_mono_ref_path. rewrite trim_display by done.
  assert (Forall plain_segment segs) as Hp by (eapply Forall_impl; [exact Hm|]; by intros s []).
  rewrite bool_decide_false by by rewrite display_cons.
  destruct segs as [|s0 segs0]; [done|]. set (segs := s0 :: segs0) in *.
  assert (split_on (ch "/") (display_path segs) = [] :: segs) as Hsplit.
  { rewrite display_cons. change (lit "/" ++ ?t) with ([] ++ ch "/" :: t).
    by rewrite split_on_sep, split_plain. }
  assert (contains_char backslash (display_path segs) = false) as Hb.
  { apply contains_char_false. rewrite display_cons.
    intros [Hin|Hin]%elem_of_app; [by apply list_elem_of_singleton in Hin|].
    apply join_elem_of in Hin as [?|(x & Hx & Hin)]; [done|].
    rewrite Forall_forall in Hm. by destruct (Hm x Hx) as (_ & _ & _ & ?). }
  assert (trim_end_matches is_slash (display_path segs) = display_path segs) as Ht.
  { destruct (last segs) as [s|] eqn:Els; [|by apply last_None in Els].
    assert (s ∈ segs) as Hin by by apply last_Some_elem_of.
    rewrite Forall_forall in Hp. destruct (Hp s Hin) as [Hne Hns].
    destruct (last s) as [c|] eqn:Ec; [|by apply last_None in Ec].
    apply (trim_end_id _ _ c); [eapply display_last; [by apply Forall_forall|done|done]|].
    apply N.eqb_neq. intros ->. apply Hns. by apply last_Some_elem_of. }
  rewrite Hsplit, Hb. replace (existsb _ _) with false.
  2: { symmetry. apply not_true_iff_false. rewrite existsb_exists.
    intros (x & [<-|Hx%list_elem_of_In] & Hd%bool_decide_eq_true); [done|].
    rewrite Forall_forall in Hm. by destruct (Hm x Hx) as (_ & _ & ? & _). }
  rewrite Ht, bool_decide_false by by rewrite display_cons. rewrite Hsplit.
  change (List.filter kept_part ([] :: segs)) with (List.filter kept_part segs).
  by rewrite filter_kept.
Qed.

Lemma operand_components_spec segs cs :
  operand_components segs = Some cs →
  Forall (λ s, s ≠ [] ∧ s ≠ lit "." ∧ s ≠ lit "..") cs ∧ ∀ c, c ∈ cs → c ∈ segs.
Proof.
  revert cs. induction segs as [|s segs IH]; intros cs H; simpl in H.
  { simplify_eq. split; [constructor|]. intros c Hc. by apply elem_of_nil in Hc. }
  destruct (bool_decide (s = []) || bool_decide (s = lit ".")) eqn:E1.
  { destruct (IH cs H) as [? Hin]. split; [done|]. intros c Hc. right. auto. }
  destruct (bool_decide (s = lit "..")) eqn:E2; [done|]. bool_prop.
  destruct (operand_components segs) as [cs'|]; [|done]. simpl in H. injection H as <-.
  destruct (IH cs' eq_refl) as [? Hin]. split; [by constructor|].
  intros c [->|Hc]%elem_of_cons; [by left|right; auto].
Qed.

Lemma operand_path_spec operand path :
  operand_path operand = Some path →
  ∃ segs, Forall plain_segment segs ∧ path = display_path segs.
Proof.
  unfold operand_path. destruct (operand_components _) as [cs|] eqn:E; [|done]. simpl.
  intros [= <-]. apply operand_components_spec in E as [Hall Hin]. exists cs.
  split; [|by rewrite display_cons]. apply Forall_forall. intros s Hs. rewrite Forall_forall in Hall.
  destruct (Hall s Hs) as (? & _). split; [done|].
  pose proof (split_on_pieces (ch "/") operand) as Hp. rewrite Forall_forall in Hp. auto.
Qed.

Lemma first_component_display segs :
  Forall plain_segment segs → segs ≠ [] →
  first_component (drop 1 (display_path segs)) = default [] (head segs).
Proof.
  intros Hp Hne. rewrite display_cons. change (drop 1 (lit "/" ++ ?t)) with t.
  unfold first_component. by rewrite split_plain.
Qed.

Lemma trim_display_start segs :
  Forall plain_segment segs → trim_start_matches is_slash (display_path segs) = join (ch "/") segs.
Proof.
  intros Hp. rewrite display_cons. change (trim_start_matches is_slash (lit "/" ++ ?t))
    with (trim_start_matches is_slash t).
  destruct segs as [|s segs]; [done|]. apply Forall_cons in Hp as [[Hne Hns] _].
  destruct (join_cons_hd (ch "/") s segs) as [r ->]. destruct s as [|c s]; [done|]. simpl.
  destruct (is_slash c) eqn:E; [|done]. apply N.eqb_eq in E as ->. destruct Hns. by left.
Qed.

Lemma reserved_display segs :
  Forall plain_segment segs → segs ≠ [] →
  has_view_reserved_first_component (display_path segs) = true ↔
  default [] (head segs) ∈ VIEW_URL_RESERVED_NAMES.
Proof.
  intros Hp Hne. unfold has_view_reserved_first_component. rewrite bool_decide_eq_true.
  rewrite trim_display_start by done. unfold first_component. by rewrite split_plain.
Qed.

Lemma is_canonical_segments path :
  is_canonical_path path = true → ∃ segs, Forall mono_segment segs ∧ path = display_path segs.
Proof.
  unfold is_canonical_path. destruct (canonicalize_mono_ref_path path) as [|c] eqn:E; [done|].
  intros ->%bool_decide_eq_true. by apply mono_path_segments in E.
Qed.

Lemma mono_plain segs : Forall mono_segment segs → Forall plain_segment segs.
Proof. intros H. eapply Forall_impl; [exact H|]. by intros s []. Qed.

Lemma display_inj_mono a b :
  Forall mono_segment a → Forall mono_segment b → display_path a = display_path b → a = b.
Proof. intros Ha Hb. by apply display_inj; apply mono_plain. Qed.

Lemma root_dirs_spec (roots : list text) (f : text) :
  existsb (λ root, bool_decide (root = f)) roots = true ↔ f ∈ roots.
Proof.
  rewrite existsb_exists. split.
  - intros (x & Hx%list_elem_of_In & ->%bool_decide_eq_true). done.
  - intros Hf. exists f. split; [by apply list_elem_of_In|by apply bool_decide_eq_true].
Qed.

(** ** Theorems *)

(** The canonical form of a path is absolute, made of non-empty segments that
    are neither [.] nor [..] and hold no separator or backslash; and a path of this
    form that does not end in white space is its own canonical form. *)
Theorem mono_path_canonical_form :
  (∀ path p, canonicalize_mono_ref_path path = inr p →
     ∃ segs, Forall mono_segment segs ∧ p = display_path segs)
  ∧ ∀ segs, Forall mono_segment segs → ends_in_space (display_path segs) = false →
     canonicalize_mono_ref_path (display_path segs) = inr (display_path segs).
Proof. split; [apply mono_path_segments|apply mono_path_fix]. Qed.

(** Canonicalisation of a monorepo path is not idempotent when white space
    stands before the trailing slashes, and a path without a leading slash is
    accepted although a leading slash is documented as required. *)
Theorem mono_path_not_idempotent :
  canonicalize_mono_ref_path (lit "/a /") = inr (lit "/a ")
  ∧ canonicalize_mono_ref_path (lit "/a ") = inr (lit "/a")
  ∧ canonicalize_mono_ref_path (lit "a/b") = inr (lit "/a/b").
Proof. vm_compute. auto. Qed.

(** The namespace test on path texts is the containment of paths component by
    component: [/a/b] is under [/a] and [/ab] is not. *)
Theorem import_namespace_components config path imp :
  Forall plain_segment path → Forall plain_segment imp → imp ≠ [] →
  import_dir config = display_path imp →
  (in_import_namespace config (display_path path) = true ↔ imp `prefix_of` path)
  ∧ (path ≠ [] →
     is_import_dir_ancestor config (display_path path) = true ↔ path `prefix_of` imp ∧ path ≠ imp).
Proof.
  intros Hp Hi Hne Hcfg. unfold in_import_namespace, is_import_dir_ancestor. rewrite Hcfg. split.
  - rewrite under_spec by done. apply is_prefix_spec.
  - intros Hpne. rewrite under_spec by done.
    rewrite bool_decide_false.
    2: { change (lit "/") with (display_path []). intros E%display_inj; [done|done|constructor]. }
    simpl. rewrite andb_true_iff, negb_true_iff, bool_decide_eq_false, is_prefix_spec.
    split.
    + intros [H1 H2]. split; [done|]. intros ->. done.
    + intros [H1 H2]. split; [|done]. intros E. by apply H2, display_inj.
Qed.

(** A path may be created exactly when it holds no NUL, is canonical, lies
    outside the import namespace, is not the root, and its first component is a
    configured root directory and not a name reserved for view URLs. *)
Theorem creation_policy_exact config imp path :
  Forall plain_segment imp → imp ≠ [] → import_dir config = display_path imp →
  classify_creation_path config path = None ↔
  contains_char 0 path = false ∧ is_canonical_path path = true
  ∧ ∃ first rest, path = display_path (first :: rest) ∧ Forall mono_segment (first :: rest)
      ∧ ¬ (imp `prefix_of` first :: rest) ∧ (first ∉ VIEW_URL_RESERVED_NAMES)
      ∧ first ∈ root_dirs config.
Proof.
  intros Hi Hne Hcfg. unfold classify_creation_path.
  destruct (contains_char 0 path); [by split; [|intros [? _]]|].
  destruct (is_canonical_path path) eqn:Ec; cbn [negb]; [|by split; [|intros (_ & ? & _)]].
  destruct (is_canonical_segments path Ec) as (segs & Hm & ->).
  pose proof (mono_plain segs Hm) as Hp. unfold in_import_namespace. rewrite Hcfg, under_spec by done.
  destruct segs as [|first rest].
  { rewrite (bool_decide_true (display_path [] = lit "/")) by done.
    split; [by destruct (is_prefix imp [])|].
    intros (_ & _ & f & r & E & Hm' & _). by apply display_inj_mono in E. }
  destruct (is_prefix imp (first :: rest)) eqn:Ep.
  { split; [done|]. intros (_ & _ & f & r & E & Hm' & Hno & _). apply display_inj_mono in E; [|done..].
    simplify_eq. by apply is_prefix_spec in Ep. }
  rewrite bool_decide_false.
  2: { change (lit "/") with (display_path []). intros E%display_inj; [done|done|constructor]. }
  pose proof (reserved_display (first :: rest) Hp ltac:(done)) as Hr. simpl in Hr.
  rewrite first_component_display by done. cbn [head default from_option].
  pose proof (root_dirs_spec (root_dirs config) first) as Hroot.
  assert (¬ (imp `prefix_of` first :: rest)) as Hno by (rewrite <-is_prefix_spec; congruence).
  destruct (has_view_reserved_first_component _).
  { split; [done|]. intros (_ & _ & f & r & E & Hm' & _ & Hres & _). apply display_inj_mono in E; [|done..].
    simplify_eq. tauto. }
  destruct (existsb _ _); cbn [negb].
  - split; [|done]. intros _. do 2 (split; [done|]). exists first, rest. repeat split; [done..|naive_solver|tauto].
  - split; [done|]. intros (_ & _ & f & r & E & Hm' & _ & _ & Hin). apply display_inj_mono in E; [|done..].
    simplify_eq. by apply Hroot in Hin.
Qed.

(** A product write that the guard lets through touches nothing in the import
    namespace: every operand names a path outside the import directory, and a removed
    one, unless it is the root, is not above it either. *)
Theorem write_operands_guard config imp written removed :
  Forall plain_segment imp → imp ≠ [] → import_dir config = display_path imp →
  check_write_operands config written removed = None →
  (∀ o, o ∈ written ++ removed → ∃ segs, operand_path o = Some (display_path segs)
     ∧ Forall plain_segment segs ∧ ¬ (imp `prefix_of` segs))
  ∧ (∀ o segs, o ∈ removed → operand_path o = Some (display_path segs) → Forall plain_segment segs →
     segs ≠ [] → ¬ segs `prefix_of` imp).
Proof.
  intros Hi Hne Hcfg Hc.
  assert (∀ o b, (o, b) ∈ map (λ p, (p, false)) written ++ map (λ p, (p, true)) removed →
    check_operand config o b = None) as Hall.
  { unfold check_write_operands in Hc. revert Hc. generalize (map (λ p, (p, false)) written
      ++ map (λ p, (p, true)) removed) as l. induction l as [|[o b] l IH]; intros Hc o' b' Hin.
    - by apply elem_of_nil in Hin.
    - simpl in Hc. destruct (check_operand config o b) eqn:E; [done|].
      apply elem_of_cons in Hin as [[= -> ->]|Hin]; auto. }
  assert (∀ o b, check_operand config o b = None → ∃ segs, operand_path o = Some (display_path segs)
    ∧ Forall plain_segment segs ∧ ¬ (imp `prefix_of` segs)
    ∧ (b = true → segs ≠ [] → ¬ segs `prefix_of` imp)) as Hop.
  { intros o b Ho. unfold check_operand in Ho. destruct (operand_path o) as [p|] eqn:Ep; [|done].
    destruct (operand_path_spec o p Ep) as (segs & Hs & ->). exists segs.
    destruct (has_view_reserved_first_component _); [done|].
    destruct (in_import_namespace config (display_path segs)) eqn:E1; [done|].
    unfold in_import_namespace in E1. rewrite Hcfg, under_spec in E1 by done.
    assert (¬ imp `prefix_of` segs) as Hno by (rewrite <-is_prefix_spec; congruence).
    do 3 (split; [done|]). intros -> Hsne Hpre. simpl in Ho.
    rewrite bool_decide_false in Ho.
    2: { change (lit "/") with (display_path []). intros E%display_inj; [done|done|constructor]. }
    simpl in Ho. unfold is_import_dir_ancestor in Ho. rewrite Hcfg, under_spec in Ho by done.
    rewrite (proj2 (is_prefix_spec segs imp) Hpre), andb_true_r in Ho.
    rewrite (bool_decide_false (display_path segs = display_path imp)) in Ho.
    - by rewrite orb_true_r in Ho.
    - intros E%display_inj; [|done..]. by subst. }
  split.
  - intros o Ho. assert (∃ b, (o, b) ∈ map (λ p, (p, false)) written ++ map (λ p, (p, true)) removed) as [b Hb].
    { apply elem_of_app in Ho as [Ho|Ho]; [exists false|exists true]; apply elem_of_app;
        [left|right]; apply list_elem_of_fmap; eauto. }
    destruct (Hop o b (Hall o b Hb)) as (segs & ? & ? & ? & _). eauto.
  - intros o segs Ho Hpath Hs Hsne. destruct (Hop o true) as (segs' & Hpath' & Hs' & _ & Hanc).
    { apply Hall, elem_of_app. right. apply list_elem_of_fmap. eauto. }
    rewrite Hpath in Hpath'. injection Hpath' as E%display_inj; [|done..]. subst. by apply Hanc.
Qed.

(** ** Witnesses *)

Definition demo_config : MonoConfig := mk_MonoConfig (lit "/third-party") [lit "project"; lit "doc"].
Definition demo_import : list text := [lit "third-party"].

Lemma demo_import_ok :
  Forall plain_segment demo_import ∧ demo_import ≠ [] ∧ import_dir demo_config = display_path demo_import.
Proof.
  split; [|done]. repeat constructor; [done|]. apply contains_char_false. reflexivity.
Qed.

Lemma mono_path_canonical_form_witness :
  ∃ segs, Forall mono_segment segs ∧ lit "/a/b" = display_path segs.
Proof.
  apply (proj1 mono_path_canonical_form (lit "//a/./b/ ")). vm_compute. reflexivity.
Defined.

Lemma import_namespace_components_witness :
  in_import_namespace demo_config (display_path [lit "third-party"; lit "x"]) = true
  ∧ demo_import `prefix_of` [lit "third-party"; lit "x"].
Proof.
  split; [reflexivity|].
  apply (import_namespace_components demo_config [lit "third-party"; lit "x"] demo_import);
    [|apply demo_import_ok..|reflexivity].
  repeat constructor; try done; apply contains_char_false; reflexivity.
Defined.

Lemma creation_policy_exact_witness :
  classify_creation_path demo_config (lit "/project/a") = None
  ∧ ∃ first rest, lit "/project/a" = display_path (first :: rest) ∧ first ∈ root_dirs demo_config.
Proof.
  split; [vm_compute; reflexivity|].
  destruct (proj1 (creation_policy_exact demo_config demo_import (lit "/project/a")
    ltac:(apply demo_import_ok) ltac:(apply demo_import_ok) ltac:(apply demo_import_ok))
    ltac:(vm_compute; reflexivity)) as (_ & _ & f & r & Hp & _ & _ & _ & Hr).
  exists f, r. done.
Defined.

Lemma write_operands_guard_witness :
  check_write_operands demo_config [lit "project//a"] [lit "/doc/."] = None
  ∧ ∃ segs, operand_path (lit "project//a") = Some (display_path segs)
     ∧ ¬ (demo_import `prefix_of` segs).
Proof.
  split; [vm_compute; reflexivity|].
  destruct (write_operands_guard demo_config demo_import [lit "project//a"] [lit "/doc/."]
    ltac:(apply demo_import_ok) ltac:(apply demo_import_ok) ltac:(apply demo_import_ok)
    ltac:(vm_compute; reflexivity)) as [H _].
  destruct (H (lit "project//a")) as (segs & Hs & _ & Hn); [by left|]. exists segs. done.
Defined.
