(* ===== verification/FilterValidate.v ===== *)
(** * View filters: validation for registration

    Models [src/ceres/view/filter/validate.rs].  [Panic] is the panic of
    [ViewPath::new] inside [canonicalize] and [invert].  A registered view is a
    one-to-one correspondence between source paths and view paths: the checks on
    overlapping compositions, made on the adjacent pairs of sorted paths only,
    exclude every overlap. *)
From stdpp Require Import base strings sets numbers tactics sorting list.
From S2P Require Import Prelude Text FilterSyntax FilterParse FilterRoundTrip FilterCanonical.
From S2P Require Import FilterSemantics FilterMeaning MonoPath.

(** ** Operations *)

Record ScaleLimits := mk_ScaleLimits { limit_members : nat; limit_selectors : nat; limit_k : nat }.

Definition REGISTER_SCALE_LIMITS : ScaleLimits := mk_ScaleLimits 64 256 64.

Inductive ScaleLimitKind := KindMembers | KindSelectors | KindK.

Inductive RegistrationRejection :=
  | Trivial
  | ScaleLimit (which : ScaleLimitKind) (limit actual : N)
  | ComposeOverlap (first second : text)
  | ImportNamespace (path : text)
  | ReservedFirstSegment (path : text).

Record RegistrationCheck := mk_RegistrationCheck {
  check_src_paths : list text;
  push_enabled : bool;
}.

Definition usize_max : N := 18446744073709551615.

Definition scale_limit (which : ScaleLimitKind) (limit : nat) : RegistrationRejection :=
  ScaleLimit which (N.of_nat limit) (N.min usize_max (N.of_nat limit + 1)).

Fixpoint count_scale (filter : Filter) : nat * nat :=
  let step acc f :=
    let '(member_count, selector_count) := acc in
    let '(nested_members, nested_selectors) := count_scale f in
    (member_count + nested_members, selector_count + nested_selectors) in
  match filter with
  | Exclude selectors => (0, length selectors)
  | Compose members => foldl step (length members, 0) members
  | Chain ops => foldl step (0, 0) ops
  | _ => (0, 0)
  end.

(** The first pair of neighbours, in sorted order, of which one contains the other. *)
Fixpoint overlap_windows (sorted : path_list) : option (text * text) :=
  match sorted with
  | first :: ((second :: _) as rest) =>
      if is_prefix first second then Some (display_path first, display_path second)
      else overlap_windows rest
  | _ => None
  end.

Definition first_overlap (paths : path_list) : option (text * text) :=
  overlap_windows (sort_by id segs_compare paths).

(** [for group in groups { if let Some(..) = first_overlap(..) { return Err } }] *)
Fixpoint groups_overlap (groups : list path_list) : option RegistrationRejection :=
  match groups with
  | [] => None
  | group :: groups =>
      match first_overlap group with
      | Some (first, second) => Some (ComposeOverlap first second)
      | None => groups_overlap groups
      end
  end.

Definition push_enabled_for (path : text) (config : MonoConfig) : bool :=
  negb (bool_decide (path = lit "/"))
  && negb (in_import_namespace config path)
  && negb (is_import_dir_ancestor config path)
  && from_option (λ first, existsb (λ root, bool_decide (root = first)) (root_dirs config)) false
       (head (path_segments path)).

(** The loop over the source paths. *)
Fixpoint check_source_paths (config : MonoConfig) (paths : list text)
    : option RegistrationRejection :=
  match paths with
  | [] => None
  | path :: paths =>
      if in_import_namespace config path then Some (ImportNamespace path)
      else if from_option (λ first, bool_decide (first ∈ VIEW_URL_RESERVED_NAMES)) false
                (head (path_segments path))
      then Some (ReservedFirstSegment path)
      else check_source_paths config paths
  end.

Definition validate_with_limits (filter : Filter) (config : MonoConfig) (limits : ScaleLimits)
    : outcome RegistrationRejection RegistrationCheck :=
  match canonicalize filter with
  | None => Panic
  | Some filter =>
    if match filter with Nop | Empty => true | _ => false end then Err Trivial else
    let '(members, selectors) := count_scale filter in
    if limit_members limits <? members then
      Err (ScaleLimit KindMembers (N.of_nat (limit_members limits)) (N.of_nat members))
    else if limit_selectors limits <? selectors then
      Err (ScaleLimit KindSelectors (N.of_nat (limit_selectors limits)) (N.of_nat selectors))
    else
      match src_paths_limited filter (limit_k limits) with
      | None => Err (scale_limit KindK (limit_k limits))
      | Some src_paths =>
        match all_compose_source_paths_limited filter (limit_k limits) with
        | None => Err (scale_limit KindK (limit_k limits))
        | Some source_groups =>
          match invert filter with
          | None => Panic
          | Some inverse =>
            match all_compose_source_paths_limited inverse (limit_k limits) with
            | None => Err (scale_limit KindK (limit_k limits))
            | Some destination_groups =>
              match groups_overlap destination_groups with
              | Some e => Err e
              | None =>
                match groups_overlap source_groups with
                | Some e => Err e
                | None =>
                  if bool_decide (src_paths = []) then Err Trivial
                  else match check_source_paths config src_paths with
                       | Some e => Err e
                       | None =>
                           Ok (mk_RegistrationCheck src_paths
                                 (forallb (λ path, push_enabled_for path config) src_paths))
                       end
                end
              end
            end
          end
        end
      end
  end.

Definition validate_for_registration (filter : Filter) (config : MonoConfig)
    : outcome RegistrationRejection RegistrationCheck :=
  validate_with_limits filter config REGISTER_SCALE_LIMITS.

(** ** Overlaps *)

(** What lies between a path and a path below it, in order, is below it too. *)
Lemma segs_between (p q r : list text) :
  cmp_leb segs_compare p q = true → cmp_leb segs_compare q r = true → p `prefix_of` r →
  p `prefix_of` q.
Proof.
  revert q r. induction p as [|x p IH]; intros q r H1 H2 Hpre; [apply prefix_nil|].
  destruct r as [|y r]; [by apply prefix_nil_not in Hpre|].
  pose proof (prefix_cons_inv_1 _ _ _ _ Hpre) as <-. apply prefix_cons_inv_2 in Hpre.
  destruct q as [|z q]; [done|]. unfold cmp_leb, segs_compare in *. simpl in *.
  destruct (str_compare x z) eqn:E1; [|destruct (str_compare z x) eqn:E2|done].
  - apply (cmp_eq str_compare) in E1 as <-. rewrite (cmp_refl str_compare) in H2.
    apply prefix_cons. by apply (IH q r).
  - apply (cmp_eq str_compare) in E2 as ->. by rewrite (cmp_refl str_compare) in E1.
  - rewrite (cmp_opp str_compare x z), E1 in E2. done.
  - done.
Qed.

Lemma sorted_lookup {A} (R : A → A → Prop) (l : list A) i j x y :
  StronglySorted R l → i < j → l !! i = Some x → l !! j = Some y → R x y.
Proof.
  intros Hs. revert i j. induction Hs as [|z l Hs IH Hz]; intros i j Hij Hi Hj; [done|].
  destruct j as [|j]; [lia|]. simpl in Hj. destruct i as [|i]; simpl in Hi.
  - simplify_eq. rewrite Forall_forall in Hz. apply Hz. by eapply list_elem_of_lookup_2.
  - apply (IH i j); [lia|done|done].
Qed.

Lemma overlap_windows_None l :
  StronglySorted (key_le id segs_compare) l → overlap_windows l = None →
  ∀ i j p q, i < j → l !! i = Some p → l !! j = Some q → ¬ (p `prefix_of` q).
Proof.
  intros Hs. induction Hs as [|x l Hs IH Hx]; intros Hn i j p q Hij Hi Hj; [done|].
  destruct j as [|j]; [lia|]. simpl in Hj.
  destruct l as [|y l]; [done|]. simpl in Hn. destruct (is_prefix x y) eqn:E; [done|].
  destruct i as [|i]; simpl in Hi.
  - simplify_eq. intros Hpre. apply not_true_iff_false in E. apply E, is_prefix_spec.
    destruct j as [|j]; simpl in Hj; [by simplify_eq|].
    inversion Hs as [|? ? _ Hy]; subst. apply Forall_cons in Hx as [Hpy _].
    apply (segs_between p y q); [done| |done].
    rewrite Forall_forall in Hy. apply Hy. by eapply list_elem_of_lookup_2.
  - eapply (IH Hn i j); [lia|done|done].
Qed.

(** No two entries of the list contain one another, equal entries included. *)
Definition disjoint_paths (paths : path_list) : Prop := NoDup paths ∧ antichain paths.

Lemma first_overlap_None paths : first_overlap paths = None → disjoint_paths paths.
Proof.
  unfold first_overlap. intros Hn.
  pose proof (sort_by_sorted id segs_compare paths) as Hs.
  pose proof (overlap_windows_None _ Hs Hn) as Hno.
  pose proof (sort_by_perm id segs_compare paths) as Hp.
  assert (NoDup (sort_by id segs_compare paths)) as Hnd.
  { apply NoDup_alt. intros i j x Hi Hj.
    destruct (Nat.lt_trichotomy i j) as [Hlt|[->|Hlt]]; [|done|];
      exfalso; by eapply (Hno _ _ x x Hlt). }
  split; [by rewrite <-Hp|]. intros p q. rewrite <-!Hp.
  intros [i Hi]%list_elem_of_lookup_1 [j Hj]%list_elem_of_lookup_1 Hpre.
  destruct (Nat.lt_trichotomy i j) as [Hlt|[->|Hlt]]; [|by simplify_eq|].
  - by destruct (Hno i j p q Hlt Hi Hj).
  - apply (cmp_leb_antisym segs_compare); [by apply prefix_segs_le|].
    apply (sorted_lookup _ _ j i q p Hs Hlt Hj Hi).
Qed.

(** ** Compositions with disjoint members *)

(** No source path has a place in the view through two members. *)
Fixpoint members_apart (members : list Filter) : Prop :=
  match members with
  | [] => True
  | m :: members =>
      (∀ m' s d d', m' ∈ members → may_map m s d → ¬ may_map m' s d') ∧ members_apart members
  end.

(** At every composition of the filter the members are apart. *)
Fixpoint source_disjoint (f : Filter) : Prop :=
  match f with
  | Compose members => members_apart members ∧ foldr (λ g P, source_disjoint g ∧ P) True members
  | Chain ops => foldr (λ g P, source_disjoint g ∧ P) True ops
  | _ => True
  end.

Lemma member_paths_elem n members paths :
  Forall filter_wf members → member_paths n members = Some paths →
  ∀ m s d, m ∈ members → may_map m s d → region paths s.
Proof.
  intros Hwf. revert paths. induction Hwf as [|f fs Hf _ IH]; intros paths Hp m s d Hm Hs;
    [by apply elem_of_nil in Hm|]. cbn [member_paths] in Hp.
  destruct (src_paths_limited f n) as [l|] eqn:El; [|done]. cbn in Hp.
  apply src_paths_limited_sound in El as [-> _].
  destruct (member_paths n fs) as [rest|] eqn:Er; [|done]. cbn in Hp. simplify_eq.
  apply region_app. apply elem_of_cons in Hm as [->|Hm]; [left|right; by eapply IH].
  apply (src_paths_region f s Hf). eauto.
Qed.

Lemma disjoint_regions l k s :
  disjoint_paths (l ++ k) → region l s → ¬ region k s.
Proof.
  intros [Hnd Hanti] (p & Hp & Hps) (q & Hq & Hqs). apply NoDup_app in Hnd as (_ & Hno & _).
  assert (p = q) as <-; [|by apply (Hno p)].
  destruct (prefix_weak_total p q s Hps Hqs) as [H|H];
    [|symmetry]; apply Hanti; try done; apply elem_of_app; auto.
Qed.

Lemma member_paths_apart n members paths :
  Forall filter_wf members → member_paths n members = Some paths → disjoint_paths paths →
  members_apart members.
Proof.
  intros Hwf. revert paths. induction Hwf as [|f fs Hf Hfs IH]; intros paths Hp Hd; [done|].
  cbn [member_paths] in Hp.
  destruct (src_paths_limited f n) as [l|] eqn:El; [|done]. cbn in Hp.
  apply src_paths_limited_sound in El as [-> _].
  destruct (member_paths n fs) as [rest|] eqn:Er; [|done]. cbn in Hp. simplify_eq. split.
  - intros m' s d d' Hm' H1 H2. apply (disjoint_regions _ _ s Hd).
    + apply (src_paths_region f s Hf). eauto.
    + by eapply member_paths_elem.
  - apply (IH rest eq_refl). destruct Hd as [Hnd Hanti]. split.
    + by apply NoDup_app in Hnd as (_ & _ & ?).
    + intros p q Hin1 Hin2. apply Hanti; apply elem_of_app; auto.
Qed.

(** The collection adds its groups at the end, and groups without overlaps put the
    members of every composition apart. *)
Lemma collect_sound n f :
  filter_wf f → ∀ groups gs,
  collect_compose_source_paths_limited n f groups = Some gs →
  groups `prefix_of` gs ∧ (Forall disjoint_paths gs → source_disjoint f).
Proof.
  set (P := λ f, ∀ groups gs, collect_compose_source_paths_limited n f groups = Some gs →
    groups `prefix_of` gs ∧ (Forall disjoint_paths gs → source_disjoint f)).
  change (filter_wf f → P f).
  set (each := fix each (fs : list Filter) (groups : list path_list) : option (list path_list) :=
    match fs with
    | [] => Some groups
    | f :: fs =>
        match collect_compose_source_paths_limited n f groups with
        | None => None
        | Some groups' => each fs groups'
        end
    end).
  assert (∀ fs, Forall P fs → ∀ groups gs, each fs groups = Some gs →
    groups `prefix_of` gs ∧ (Forall disjoint_paths gs → Forall source_disjoint fs)) as Heach.
  { induction 1 as [|g fs Hg _ IH]; intros groups gs Hgs; simpl in Hgs.
    { simplify_eq. split; [done|constructor]. }
    destruct (collect_compose_source_paths_limited n g groups) as [groups'|] eqn:E; [|done].
    apply Hg in E as [Hp1 Hd1]. apply IH in Hgs as [Hp2 Hd2]. split; [by etrans|].
    intros Hall. constructor; [|by apply Hd2]. apply Hd1.
    destruct Hp2 as [k ->]. by apply Forall_app in Hall as [? _]. }
  induction f as [p|p|sels|fs IH|fs IH| |] using filter_ind; intros Hwf groups gs Hgs;
    cbn [collect_compose_source_paths_limited] in Hgs; try (simplify_eq; by split).
  - apply filter_wf_compose in Hwf. destruct (member_paths n fs) as [paths|] eqn:Em; [|done].
    cbn in Hgs. apply (Heach fs (Forall_mp _ _ _ IH Hwf)) in Hgs as [Hp Hd].
    split; [etrans; [|exact Hp]; by apply prefix_app_r|]. intros Hall. split.
    + apply (member_paths_apart n fs paths Hwf Em). destruct Hp as [k ->].
      apply Forall_app in Hall as [[_ Hall]%Forall_app _]. by inversion Hall.
    + by apply foldr_and_Forall, Hd.
  - apply filter_wf_chain in Hwf.
    apply (Heach fs (Forall_mp _ _ _ IH Hwf)) in Hgs as [Hp Hd]. split; [done|].
    intros Hall. by apply foldr_and_Forall, Hd.
Qed.

Lemma source_disjoint_functional f s d1 d2 :
  source_disjoint f → may_map f s d1 → may_map f s d2 → d1 = d2.
Proof.
  revert s d1 d2. induction f as [p|p|sels|fs IH|fs IH| |] using filter_ind;
    intros s d1 d2 Hd H1 H2; try (simpl in *; by simplify_eq).
  - apply may_exclude in H1 as <-. by apply may_exclude in H2.
  - destruct Hd as [Hap Hd]. apply foldr_and_Forall in Hd.
    induction IH as [|f fs Hf _ IHfs]; [done|]. inversion Hd; subst. destruct Hap as [Hap Hap'].
    assert (∀ s d, some_maps may_map fs s d → ∃ f', f' ∈ fs ∧ may_map f' s d) as Hin
      by (intros; by apply some_maps_spec).
    destruct H1 as [H1|H1], H2 as [H2|H2].
    + by eapply Hf.
    + apply Hin in H2 as (f' & ? & ?). exfalso. by eapply Hap.
    + apply Hin in H1 as (f' & ? & ?). exfalso. by eapply Hap.
    + by apply IHfs.
  - apply foldr_and_Forall in Hd. revert s H1 H2.
    induction IH as [|f fs Hf _ IHfs]; intros s H1 H2; [by simpl in *; simplify_eq|].
    inversion Hd; subst. destruct H1 as (m1 & Hm1 & H1), H2 as (m2 & Hm2 & H2).
    rewrite (Hf s m1 m2) in H1 by done. by eapply IHfs.
Qed.

Lemma groups_overlap_None groups : groups_overlap groups = None → Forall disjoint_paths groups.
Proof.
  induction groups as [|g groups IH]; simpl; [constructor|].
  destruct (first_overlap g) as [[]|] eqn:E; [done|]. constructor; [by apply first_overlap_None|auto].
Qed.

Lemma groups_disjoint f n gs :
  filter_wf f → all_compose_source_paths_limited f n = Some gs → groups_overlap gs = None →
  source_disjoint f.
Proof.
  intros Hwf Hgs Hn. apply (collect_sound n f Hwf [] gs Hgs), groups_overlap_None, Hn.
Qed.

Lemma check_source_paths_None config paths :
  check_source_paths config paths = None →
  Forall (λ path, in_import_namespace config path = false
    ∧ ∀ first, head (path_segments path) = Some first → (first ∉ VIEW_URL_RESERVED_NAMES)) paths.
Proof.
  induction paths as [|path paths IH]; cbn [check_source_paths]; [constructor|].
  destruct (in_import_namespace config path) eqn:E; [done|].
  destruct (from_option _ false _) eqn:Er; [done|]. intros H. constructor; [|auto].
  split; [done|]. intros first Hf. rewrite Hf in Er. by apply bool_decide_eq_false in Er.
Qed.

Lemma overlap_windows_Some l e :
  overlap_windows l = Some e → ∃ i p q, l !! i = Some p ∧ l !! S i = Some q ∧ p `prefix_of` q.
Proof.
  induction l as [|x l IH]; [done|]. destruct l as [|y l]; [done|].
  cbn [overlap_windows]. destruct (is_prefix x y) eqn:E.
  - intros _. exists 0, x, y. repeat split. by apply is_prefix_spec.
  - intros (i & p & q & ? & ? & ?)%IH. by exists (S i), p, q.
Qed.

Lemma disjoint_first_overlap paths : disjoint_paths paths → first_overlap paths = None.
Proof.
  intros [Hnd Hanti]. unfold first_overlap.
  pose proof (sort_by_perm id segs_compare paths) as Hp.
  destruct (overlap_windows _) as [e|] eqn:E; [|done].
  apply overlap_windows_Some in E as (i & p & q & Hi & Hj & Hpre). exfalso.
  assert (p = q) as <-.
  { apply Hanti; [| |done]; rewrite <-Hp; by eapply list_elem_of_lookup_2. }
  rewrite <-Hp in Hnd. 
  pose proof (proj1 (NoDup_alt _) Hnd _ _ _ Hi Hj). lia.
Qed.

(** What a successful validation has computed. *)
Lemma validate_Ok f config limits r :
  validate_with_limits f config limits = Ok r →
  ∃ c inverse sgs dgs, canonicalize f = Some c ∧ invert c = Some inverse
    ∧ src_paths_limited c (limit_k limits) = Some (check_src_paths r)
    ∧ all_compose_source_paths_limited c (limit_k limits) = Some sgs
    ∧ groups_overlap sgs = None
    ∧ all_compose_source_paths_limited inverse (limit_k limits) = Some dgs
    ∧ groups_overlap dgs = None
    ∧ check_src_paths r ≠ []
    ∧ check_source_paths config (check_src_paths r) = None
    ∧ push_enabled r = forallb (λ path, push_enabled_for path config) (check_src_paths r).
Proof.
  unfold validate_with_limits. destruct (canonicalize f) as [c|]; [|done]. intros H.
  destruct (match c with Nop | Empty => true | _ => false end); [done|].
  destruct (count_scale c) as [members selectors].
  destruct (_ <? members); [done|]. destruct (_ <? selectors); [done|].
  destruct (src_paths_limited _ _) as [paths|] eqn:E1; [|done].
  destruct (all_compose_source_paths_limited c _) as [sgs|] eqn:E2; [|done].
  destruct (invert c) as [inverse|] eqn:E3; [|done].
  destruct (all_compose_source_paths_limited inverse _) as [dgs|] eqn:E4; [|done].
  destruct (groups_overlap dgs) eqn:E5; [done|]. destruct (groups_overlap sgs) eqn:E6; [done|].
  case_bool_decide; [done|]. destruct (check_source_paths _ _) eqn:E7; [done|].
  simplify_eq. cbn. by exists c, inverse, sgs, dgs.
Qed.

(** ** Theorems *)

(** The search for overlapping paths, which sorts the paths and compares each
    with its neighbour only, finds an overlap exactly when there is one: when a path
    occurs twice or contains another. *)
Theorem overlap_check_complete paths :
  first_overlap paths = None
  ↔ NoDup paths ∧ ∀ p q, p ∈ paths → q ∈ paths → p `prefix_of` q → p = q.
Proof. split; [apply first_overlap_None|apply disjoint_first_overlap]. Qed.

(** C12: a filter that registration accepts is a one-to-one correspondence: every
    source path has at most one place in the view, and every place in the view shows
    at most one source path, even with the exclusions left out. *)
Theorem registered_one_to_one f config r :
  filter_wf f → validate_for_registration f config = Ok r →
  (∀ s d1 d2, may_map f s d1 → may_map f s d2 → d1 = d2)
  ∧ (∀ s1 s2 d, may_map f s1 d → may_map f s2 d → s1 = s2).
Proof.
  intros Hwf Hr. apply validate_Ok in Hr as (c & inv & sgs & dgs & Hc & Hi & _ & Hs & Hso & Hd & Hdo & _).
  destruct (canonicalize_canonical f Hwf) as (c' & Hc' & Hcan%canonical_wf).
  rewrite Hc in Hc'. injection Hc' as <-.
  destruct (invert_total c Hcan) as (inv' & Hi' & Hcan'%canonical_wf).
  rewrite Hi in Hi'. injection Hi' as <-.
  pose proof (canonicalize_maps no_exclusion f c Hc) as Hm.
  pose proof (invert_maps c inv Hi) as Him. split.
  - intros s d1 d2 H1%Hm H2%Hm. 
    apply (source_disjoint_functional c s); [|done..]. by eapply groups_disjoint.
  - intros s1 s2 d H1%Hm%Him H2%Hm%Him.
    apply (source_disjoint_functional inv d); [|done..]. by eapply groups_disjoint.
Qed.

(** The source paths recorded with a registered filter are the region the view
    reads: at least one and at most 64 paths, none in the import namespace, none under
    a name the view URLs reserve. *)
Theorem registered_source_paths f config r :
  filter_wf f → validate_for_registration f config = Ok r →
  (∀ s, displayed_region (check_src_paths r) s ↔ ∃ d, may_map f s d)
  ∧ 1 ≤ length (check_src_paths r) ≤ 64
  ∧ Forall (λ path, in_import_namespace config path = false
      ∧ ∀ first, head (path_segments path) = Some first → (first ∉ VIEW_URL_RESERVED_NAMES))
      (check_src_paths r).
Proof.
  intros Hwf Hr. apply validate_Ok in Hr as (c & inv & sgs & dgs & Hc & _ & Hp & _ & _ & _ & _ & Hne & Hch & _).
  destruct (canonicalize_canonical f Hwf) as (c' & Hc' & Hcan%canonical_wf).
  rewrite Hc in Hc'. injection Hc' as <-.
  apply src_paths_limited_sound in Hp as [Hp Hlen]. split; [|split].
  - intros s. rewrite Hp, src_paths_region by done.
    by setoid_rewrite (canonicalize_maps no_exclusion f c Hc).
  - split; [|exact Hlen]. destruct (check_src_paths r); [done|simpl; lia].
  - by apply check_source_paths_None.
Qed.

(** Validation of a parsed filter never panics: it accepts or rejects. *)
Theorem validation_returns f config :
  filter_wf f →
  (∃ r, validate_for_registration f config = Ok r)
  ∨ (∃ e, validate_for_registration f config = Err e).
Proof.
  intros Hwf. unfold validate_for_registration, validate_with_limits.
  destruct (canonicalize_canonical f Hwf) as (c & -> & Hcan%canonical_wf).
  destruct (invert_total c Hcan) as (inv & Hi & _). rewrite Hi.
  destruct (match c with Nop | Empty => true | _ => false end), (count_scale c); eauto.
  break_goal; eauto.
Qed.

(** ** Witnesses *)

Definition demo_registered : Filter :=
  Compose [Chain [Subdir (mk_ViewPath [lit "project"; lit "a"]); Prefix (mk_ViewPath [lit "x"])];
           Chain [Subdir (mk_ViewPath [lit "project"; lit "b"]); Prefix (mk_ViewPath [lit "y"])]].

Lemma demo_registered_wf : filter_wf demo_registered.
Proof. simpl. repeat split; repeat constructor. Qed.

Lemma registered_one_to_one_witness :
  (∀ s d1 d2, may_map demo_registered s d1 → may_map demo_registered s d2 → d1 = d2)
  ∧ (∀ s1 s2 d, may_map demo_registered s1 d → may_map demo_registered s2 d → s1 = s2).
Proof.
  apply (registered_one_to_one demo_registered demo_config
    (mk_RegistrationCheck [lit "/project/a"; lit "/project/b"] true)).
  - exact demo_registered_wf.
  - vm_compute. reflexivity.
Defined.

Lemma registered_source_paths_witness :
  push_enabled (mk_RegistrationCheck [lit "/project/a"; lit "/project/b"] true) = true
  ∧ ∀ s, displayed_region [lit "/project/a"; lit "/project/b"] s ↔ ∃ d, may_map demo_registered s d.
Proof.
  split; [reflexivity|].
  apply (registered_source_paths demo_registered demo_config
    (mk_RegistrationCheck [lit "/project/a"; lit "/project/b"] true)).
  - exact demo_registered_wf.
  - vm_compute. reflexivity.
Defined.

Lemma validation_returns_witness :
  (∃ r, validate_for_registration demo_registered demo_config = Ok r)
  ∨ (∃ e, validate_for_registration demo_registered demo_config = Err e).
Proof. apply (validation_returns demo_registered demo_config). exact demo_registered_wf. Defined.

(** Overlapping compositions are rejected, whichever side overlaps. *)
Example compose_overlap_rejected :
  validate_for_registration
    (Compose [Subdir (mk_ViewPath [lit "project"]);
              Chain [Subdir (mk_ViewPath [lit "project"; lit "b"]); Prefix (mk_ViewPath [lit "y"])]])
    demo_config = Err (ComposeOverlap (lit "/") (lit "/y")).
Proof. vm_compute. reflexivity. Qed.
