(* ===== verification/CommitMessage.v ===== *)
(** * Object identifiers and commit messages

    Models the identifier tests, [split_commit_message], [format_commit_msg],
    [commit_body_subject] and [escape_like] of [src/common/utils.rs].  The loop of
    [split_commit_message] takes the rest of the message line by line; it has fuel
    here, one more than the length of the message, which is never used up. *)
From stdpp Require Import base strings sets numbers tactics list.
From S2P Require Import Prelude Text.

(** ** Operations *)

Definition newline : N := 10.
Definition space : N := 32.

Definition ZERO_ID : text := replicate 40 (ch "0").

Definition is_protocol_zero_id (oid : text) : bool :=
  (N.eqb (str_len oid) 40 || N.eqb (str_len oid) 64) && forallb (N.eqb (ch "0")) oid.

Definition is_ascii_hexdigit (c : N) : bool :=
  is_ascii_digit c || in_range 65 70 c || in_range 97 102 c.

Definition is_full_hex_object_id (oid : text) : bool :=
  (N.eqb (str_len oid) 40 || N.eqb (str_len oid) 64) && forallb is_ascii_hexdigit oid.

Definition cl_ref_name (cl_link : text) : text := lit "refs/cl/" ++ cl_link.

Definition format_commit_msg (msg : text) (gpg_sig : option text) : text :=
  match gpg_sig with
  | None => newline :: msg
  | Some gpg => gpg ++ newline :: newline :: msg
  end.

Record CommitMessageParts := mk_CommitMessageParts {
  headers : list (text * text);
  body : text;
}.

Definition is_signature_header (key : text) : bool :=
  bool_decide (key = lit "gpgsig") || bool_decide (key = lit "gpgsig-sha256").

Definition has_signature (parts : CommitMessageParts) : bool :=
  existsb (λ kv, is_signature_header (fst kv)) (headers parts).

Definition header_key_char (c : N) : bool := is_ascii_alphanumeric c || N.eqb c (ch "-").

(** [headers.last_mut()] extended by a continuation line. *)
Fixpoint push_continuation (hs : list (text * text)) (continuation : text)
    : option (list (text * text)) :=
  match hs with
  | [] => None
  | [(k, v)] => Some [(k, v ++ newline :: continuation)]
  | h :: hs => cons h <$> push_continuation hs continuation
  end.

(** The result of one header line: [None] for [return whole()]. *)
Definition header_line (hs : list (text * text)) (line : text) : option (list (text * text)) :=
  match strip_prefix [space] line with
  | Some continuation => push_continuation hs continuation
  | None =>
      match split_once space line with
      | Some (key, value) =>
          if negb (bool_decide (key = [])) && forallb header_key_char key
          then Some (hs ++ [(key, value)]) else None
      | None => None
      end
  end.

Inductive split_result := Whole | Parts (p : CommitMessageParts) | NoFuel.

Fixpoint header_loop (fuel : nat) (hs : list (text * text)) (rest : text) : split_result :=
  match fuel with
  | O => NoFuel
  | S fuel =>
      match split_once newline rest with
      | None => Whole
      | Some (line, after) =>
          if bool_decide (line = []) then Parts (mk_CommitMessageParts hs after)
          else match header_line hs line with
               | None => Whole
               | Some hs' => header_loop fuel hs' after
               end
      end
  end.

Definition split_commit_message (message : text) : option CommitMessageParts :=
  match strip_prefix [newline] message with
  | Some body => Some (mk_CommitMessageParts [] body)
  | None =>
      match header_loop (S (length message)) [] message with
      | Whole => Some (mk_CommitMessageParts [] message)
      | Parts p => Some p
      | NoFuel => None
      end
  end.

(** [str::lines]: the pieces that end in a line feed lose it together with a carriage
    return before it; a last piece without a line feed is kept as it is unless empty. *)
Definition lines (s : text) : list text :=
  let pieces := split_on newline s in
  map (λ l, default l (strip_suffix [13%N] l)) (removelast pieces)
  ++ match last pieces with
     | Some (c :: l) => [c :: l]
     | _ => []
     end.

Definition commit_body_subject (body : text) : text :=
  default [] (head (List.filter (λ l, negb (bool_decide (l = []))) (map trim (lines body)))).

Definition escape_like (input : text) : text :=
  input ≫= λ c, if N.eqb c backslash || N.eqb c (ch "%") || N.eqb c (ch "_")
                then [backslash; c] else [c].

(** ** Reading back *)

(** The text of a header block, as Git writes it: continuation lines are indented. *)
Definition render_value (v : text) : text :=
  v ≫= λ c, if N.eqb c newline then [newline; space] else [c].

Definition render_headers (hs : list (text * text)) : text :=
  join newline (map (λ kv, fst kv ++ space :: render_value (snd kv)) hs).

Definition header_ok (kv : text * text) : Prop :=
  fst kv ≠ [] ∧ forallb header_key_char (fst kv) = true.

(** The pattern text a [LIKE ... ESCAPE] with backslash matches literally. *)
Fixpoint unescape_like (s : text) : text :=
  match s with
  | c :: (d :: s') as s'' => if N.eqb c backslash then d :: unescape_like s'
                             else c :: unescape_like s''
  | _ => s
  end.

(** ** Lemmas *)

Lemma split_once_app sep a b : sep ∉ a → split_once sep (a ++ sep :: b) = Some (a, b).
Proof.
  induction a as [|c a IH]; intros H; simpl; [by rewrite N.eqb_refl|].
  apply not_elem_of_cons in H as [Hc Ha]. rewrite (proj2 (N.eqb_neq c sep)) by congruence.
  by rewrite IH.
Qed.

Lemma split_once_Some sep s a b : split_once sep s = Some (a, b) → s = a ++ sep :: b ∧ sep ∉ a.
Proof.
  revert a. induction s as [|c s IH]; intros a H; simpl in H; [done|].
  destruct (N.eqb c sep) eqn:E.
  - simplify_eq. apply N.eqb_eq in E as ->. split; [done|apply not_elem_of_nil].
  - destruct (split_once sep s) as [[a' b']|]; [|done]. simplify_eq/=.
    destruct (IH a' eq_refl) as [-> Hn]. split; [done|]. apply N.eqb_neq in E. set_solver.
Qed.

(** Lines, each with its line feed, before a rest. *)
Definition lines_text (ls : list text) (rest : text) : text :=
  foldr (λ l acc, l ++ newline :: acc) rest ls.

Fixpoint fold_lines (hs : list (text * text)) (ls : list text) : option (list (text * text)) :=
  match ls with
  | [] => Some hs
  | l :: ls => hs' ← header_line hs l; fold_lines hs' ls
  end.

Lemma fold_lines_app hs ls ls' hs' :
  fold_lines hs ls = Some hs' → fold_lines hs (ls ++ ls') = fold_lines hs' ls'.
Proof.
  revert hs. induction ls as [|l ls IH]; intros hs H; simpl in *; [by simplify_eq|].
  destruct (header_line hs l) as [h|]; [|done]. simpl in *. by apply IH.
Qed.

Lemma header_loop_lines ls fuel hs hs' rest :
  Forall (λ l, l ≠ [] ∧ newline ∉ l) ls → fold_lines hs ls = Some hs' →
  header_loop (length ls + fuel) hs (lines_text ls rest) = header_loop fuel hs' rest.
Proof.
  intros Hl. revert hs. induction Hl as [|l ls [Hne Hn] Hls IH]; intros hs Hf; simpl in *.
  - by simplify_eq.
  - rewrite split_once_app by done. rewrite bool_decide_false by done.
    destruct (header_line hs l) as [h|]; [|done]. simpl in Hf. by apply IH.
Qed.

Lemma header_loop_fuel fuel hs rest : length rest < fuel → header_loop fuel hs rest ≠ NoFuel.
Proof.
  revert hs rest. induction fuel as [|fuel IH]; intros hs rest Hf; [lia|]. simpl.
  destruct (split_once newline rest) as [[line after]|] eqn:E; [|done].
  apply split_once_Some in E as [-> _]. rewrite length_app in Hf. simpl in Hf.
  destruct (bool_decide (line = [])); [done|]. destruct (header_line hs line); [|done].
  apply IH. lia.
Qed.

(** The body is what follows some line feed, or the whole message. *)
Lemma header_loop_body fuel hs rest p :
  header_loop fuel hs rest = Parts p → ∃ pre, rest = pre ++ newline :: body p.
Proof.
  revert hs rest. induction fuel as [|fuel IH]; intros hs rest H; [done|]. simpl in H.
  destruct (split_once newline rest) as [[line after]|] eqn:E; [|done].
  apply split_once_Some in E as [-> _].
  destruct (bool_decide (line = [])); [simplify_eq; by exists line|].
  destruct (header_line hs line); [|done]. apply IH in H as [pre ->].
  exists (line ++ newline :: pre). by rewrite <-app_assoc.
Qed.

(** The lines of one header. *)
Definition header_lines (kv : text * text) : list text :=
  match split_on newline (snd kv) with
  | l :: ls => (fst kv ++ space :: l) :: map (cons space) ls
  | [] => []
  end.

Lemma join_cons2 sep a b l : join sep (a :: b :: l) = a ++ sep :: join sep (b :: l).
Proof. done. Qed.

Lemma render_value_lines v l ls :
  split_on newline v = l :: ls → render_value v = join newline (l :: map (cons space) ls).
Proof.
  unfold render_value. revert l ls. induction v as [|c v IH]; intros l ls H; simpl in H.
  - simplify_eq. done.
  - rewrite bind_cons. destruct (N.eqb c newline) eqn:E.
    + simplify_eq. destruct (split_on newline v) as [|l' ls'] eqn:Es.
      { by apply split_on_nonempty in Es. }
      rewrite (IH l' ls' eq_refl). by destruct ls'.
    + destruct (split_on newline v) as [|l' ls'] eqn:Es; [by apply split_on_nonempty in Es|].
      injection H as <- <-.
      rewrite (IH l' ls' eq_refl). by destruct ls'.
Qed.

Lemma push_continuation_last hs k v c :
  push_continuation (hs ++ [(k, v)]) c = Some (hs ++ [(k, v ++ newline :: c)]).
Proof.
  induction hs as [|[k' v'] hs IH]; [done|]. simpl. rewrite IH. by destruct hs.
Qed.

Lemma fold_continuations hs k v ls :
  fold_lines (hs ++ [(k, v)]) (map (cons space) ls)
  = Some (hs ++ [(k, v ++ concat (map (cons newline) ls))]).
Proof.
  revert v. induction ls as [|l ls IH]; intros v; simpl; [by rewrite app_nil_r|].
  unfold header_line. simpl. rewrite push_continuation_last. simpl. rewrite IH.
  by rewrite <-app_assoc.
Qed.

Lemma join_concat l ls : join newline (l :: ls) = l ++ concat (map (cons newline) ls).
Proof.
  revert l. induction ls as [|l' ls IH]; intros l; [by simpl; rewrite app_nil_r|].
  rewrite join_cons2, IH. done.
Qed.

Lemma key_no_space k : forallb header_key_char k = true → (space ∉ k) ∧ (newline ∉ k).
Proof.
  intros Hk. rewrite forallb_forall in Hk.
  split; intros Hin%list_elem_of_In; specialize (Hk _ Hin); by vm_compute in Hk.
Qed.

Lemma fold_header_lines hs kv :
  header_ok kv → fold_lines hs (header_lines kv) = Some (hs ++ [kv]).
Proof.
  destruct kv as [k v]. intros [Hne Hk]. simpl in *. unfold header_lines. simpl.
  destruct (split_on newline v) as [|l ls] eqn:Es; [by apply split_on_nonempty in Es|].
  simpl. unfold header_line at 1.
  assert (strip_prefix [space] (k ++ space :: l) = None) as ->.
  { destruct k as [|c k]; [done|]. simpl in *. apply andb_true_iff in Hk as [Hc _].
    destruct (N.eqb_spec space c) as [<-|]; [by vm_compute in Hc|done]. }
  rewrite split_once_app by by apply key_no_space.
  rewrite bool_decide_false, Hk by done. simpl.
  rewrite fold_continuations, <-join_concat, <-Es. by rewrite join_split.
Qed.

Lemma fold_all_headers hs hs' :
  Forall header_ok hs → fold_lines hs' (concat (map header_lines hs)) = Some (hs' ++ hs).
Proof.
  intros H. revert hs'. induction H as [|kv hs Hkv _ IH]; intros hs'; simpl.
  { by rewrite app_nil_r. }
  rewrite (fold_lines_app _ _ _ (hs' ++ [kv])) by by apply fold_header_lines.
  rewrite IH. by rewrite <-app_assoc.
Qed.

Lemma lines_text_app ls ls' r : lines_text (ls ++ ls') r = lines_text ls (lines_text ls' r).
Proof. unfold lines_text. by rewrite foldr_app. Qed.

Lemma join_lines_text l ls r : join newline (l :: ls) ++ newline :: r = lines_text (l :: ls) r.
Proof.
  revert l. induction ls as [|l' ls IH]; intros l; [done|].
  by rewrite join_cons2, <-app_assoc, <-app_comm_cons, IH.
Qed.

Lemma render_header_text kv r :
  fst kv ++ space :: render_value (snd kv) ++ newline :: r = lines_text (header_lines kv) r.
Proof.
  destruct kv as [k v]. unfold header_lines. simpl.
  destruct (split_on newline v) as [|l ls] eqn:Es; [by apply split_on_nonempty in Es|].
  rewrite (render_value_lines v l ls Es), join_lines_text. simpl. by rewrite <-app_assoc.
Qed.

Lemma render_headers_text hs r :
  hs ≠ [] → render_headers hs ++ newline :: r = lines_text (concat (map header_lines hs)) r.
Proof.
  intros Hne. unfold render_headers. induction hs as [|kv hs IH]; [done|]. cbn [map concat].
  rewrite lines_text_app. destruct hs as [|kv' hs].
  - simpl. rewrite <-render_header_text, <-app_assoc. done.
  - rewrite <-IH by done. cbn [map]. rewrite join_cons2, <-render_header_text, <-!app_assoc. done.
Qed.

Lemma header_lines_ok kv : header_ok kv → Forall (λ l, l ≠ [] ∧ newline ∉ l) (header_lines kv).
Proof.
  destruct kv as [k v]. intros [Hne Hk]. simpl in *. unfold header_lines. simpl.
  pose proof (split_on_pieces newline v) as Hp. destruct (split_on newline v) as [|l ls]; [constructor|].
  apply Forall_cons in Hp as [Hl Hls]. constructor.
  - split; [by destruct k|]. apply key_no_space in Hk as [_ Hk]. rewrite elem_of_app, elem_of_cons.
    intros [?|[?|?]]; done.
  - apply Forall_map. eapply Forall_impl; [exact Hls|]. intros x Hx. split; [done|].
    rewrite elem_of_cons. by intros [?|?].
Qed.

Lemma split_framed hs msg :
  Forall header_ok hs → hs ≠ [] →
  split_commit_message (render_headers hs ++ newline :: newline :: msg)
  = Some (mk_CommitMessageParts hs msg).
Proof.
  intros Hok Hne. unfold split_commit_message. rewrite (render_headers_text hs _ Hne).
  set (ls := concat (map header_lines hs)).
  assert (Forall (λ l, l ≠ [] ∧ newline ∉ l) ls) as Hls.
  { unfold ls. clear Hne. induction Hok; simpl; [constructor|].
    apply Forall_app_2; [by apply header_lines_ok|done]. }
  assert (fold_lines [] ls = Some hs) as Hf by by apply (fold_all_headers hs []).
  assert (ls ≠ []) as Hnil by (intros E; rewrite E in Hf; simpl in Hf; congruence).
  set (m := lines_text ls (newline :: msg)).
  assert (strip_prefix [newline] m = None) as ->.
  { unfold m. destruct Hls as [|l ls [Hl Hn] _]; [done|]. destruct l as [|c l]; [done|]. simpl.
    destruct (N.eqb_spec newline c) as [<-|]; [|done]. destruct Hn. by left. }
  assert (length ls + 1 ≤ length m) as Hlen.
  { unfold m. clear -Hls. induction Hls as [|l ls [Hl _] _ IH]; simpl; [lia|].
    rewrite length_app. destruct l; [done|]. simpl in *. lia. }
  replace (S (length m)) with (length ls + S (length m - length ls)) by lia.
  unfold m at 2. rewrite (header_loop_lines ls _ [] hs) by done. done.
Qed.

(** ** Theorems *)

(** Splitting a commit message always gives a result, and the body it gives is
    the end of the message, byte for byte. *)
Theorem split_message_total message :
  ∃ p pre, split_commit_message message = Some p ∧ message = pre ++ body p
    ∧ (headers p ≠ [] → ∃ pre', pre = pre' ++ [newline]).
Proof.
  unfold split_commit_message. destruct (strip_prefix [newline] message) as [b|] eqn:E.
  { apply strip_prefix_Some in E. by eexists _, [newline]. }
  pose proof (header_loop_fuel (S (length message)) [] message ltac:(lia)) as Hf.
  destruct (header_loop _ [] message) as [|p|] eqn:El; [|..|done].
  - by eexists _, [].
  - apply header_loop_body in El as [pre ->]. eexists p, (pre ++ [newline]).
    rewrite <-app_assoc. split; [done|]. split; [done|]. eauto.
Qed.

(** What [format_commit_msg] frames is read back: without a signature there are
    no headers and the message is the body; with a signature given as a block of
    headers (continuation lines indented), the same headers and the same body. *)
Theorem commit_message_roundtrip msg hs :
  Forall header_ok hs → hs ≠ [] →
  split_commit_message (format_commit_msg msg None) = Some (mk_CommitMessageParts [] msg)
  ∧ split_commit_message (format_commit_msg msg (Some (render_headers hs)))
    = Some (mk_CommitMessageParts hs msg).
Proof. intros Hok Hne. split; [done|]. by apply split_framed. Qed.

(** The escaped text of a [LIKE] pattern stands for the text itself, so it has
    no wildcard, and different texts have different patterns. *)
Theorem escape_like_roundtrip input : unescape_like (escape_like input) = input.
Proof.
  unfold escape_like. induction input as [|c s IH]; [done|]. rewrite bind_cons.
  destruct (N.eqb c backslash) eqn:E; cbn [orb].
  - cbn [app unescape_like]. rewrite N.eqb_refl. by rewrite IH.
  - destruct (_ || _); cbn [app unescape_like]; [by rewrite N.eqb_refl, IH|].
    rewrite E. rewrite <-IH at 2.
    destruct (s ≫= _) as [|d t] eqn:Es; [done|]. done.
Qed.

Lemma commit_message_roundtrip_witness :
  let hs := [(lit "gpgsig", lit "BEGIN" ++ newline :: lit "data" ++ newline :: newline :: lit "END")] in
  Forall header_ok hs
  ∧ split_commit_message (format_commit_msg (lit "subject") (Some (render_headers hs)))
    = Some (mk_CommitMessageParts hs (lit "subject")).
Proof.
  intros hs. assert (Forall header_ok hs) as H by (repeat constructor; done).
  split; [exact H|]. apply (commit_message_roundtrip (lit "subject") hs H). done.
Defined.
