(* ===== verification/GitPath.v ===== *)
(** * Repository locators and smart-protocol routes

    Models [src/contract/git_protocol/path.rs] and [src/ceres/view/name.rs]: how the
    URL of a Git request is told apart into a virtual traces repository, a view, or a
    native or imported repository, and into the endpoint it names.  A [PathBuf] is
    the text it is made from; an iterator is the list of what it has left.  The
    base64 decoder (crate [base64]) and the UUID parser (crate [uuid], with the
    hyphenated form of the result) are parameters. *)
From stdpp Require Import base strings sets numbers tactics list.
From S2P Require Import Prelude Text FilterSemantics MonoPath CommitMessage.

(** ** [str] and [String] *)

(** [str::contains(&str)] *)
Fixpoint contains_str (pat s : text) : bool :=
  starts_with pat s || match s with [] => false | _ :: s' => contains_str pat s' end.

(** [str::rsplit_once(&str)]: at the last occurrence *)
Fixpoint rsplit_once_str (pat s : text) : option (text * text) :=
  let here := after ← strip_prefix pat s; Some ([], after) in
  match s with
  | [] => here
  | c :: s' =>
      match rsplit_once_str pat s' with
      | Some (before, after) => Some (c :: before, after)
      | None => here
      end
  end.

Definition is_continuation (b : N) : bool := in_range 128 191 b.

(** [String::from_utf8] *)
Fixpoint from_utf8 (bytes : list N) : option text :=
  match bytes with
  | [] => Some []
  | b0 :: r0 =>
    if N.ltb b0 128 then cons b0 <$> from_utf8 r0
    else match r0 with
    | [] => None
    | b1 :: r1 =>
      if in_range 194 223 b0 then
        if is_continuation b1 then cons ((b0 - 192) * 64 + (b1 - 128))%N <$> from_utf8 r1 else None
      else match r1 with
      | [] => None
      | b2 :: r2 =>
        if in_range 224 239 b0 then
          if in_range (if N.eqb b0 224 then 160 else 128) (if N.eqb b0 237 then 159 else 191) b1
             && is_continuation b2
          then cons ((b0 - 224) * 4096 + (b1 - 128) * 64 + (b2 - 128))%N <$> from_utf8 r2 else None
        else match r2 with
        | [] => None
        | b3 :: r3 =>
          if in_range 240 244 b0
             && in_range (if N.eqb b0 240 then 144 else 128) (if N.eqb b0 244 then 143 else 191) b1
             && is_continuation b2 && is_continuation b3
          then cons ((b0 - 240) * 262144 + (b1 - 128) * 4096 + (b2 - 128) * 64 + (b3 - 128))%N
               <$> from_utf8 r3
          else None
        end
      end
    end
  end.

Definition u32_max : N := 4294967295.

(** [str::parse::<u32>] on a string of ASCII digits that is not empty *)
Definition parse_u32 (digits : text) : option N :=
  foldl (λ acc c, v ← acc; let v' := (v * 10 + (c - 48))%N in
                  if (v' <=? u32_max)%N then Some v' else None) (Some 0%N) digits.

(** ** View names *)

Inductive ViewNameError := EmptySegment | DotSegment | InvalidCharacter | GitSuffix.

Definition view_name_char (c : N) : bool :=
  is_ascii_alphanumeric c || N.eqb c (ch ".") || N.eqb c (ch "_") || N.eqb c (ch "-").

(** The check on one segment. *)
Definition view_segment_error (segment : text) : option ViewNameError :=
  if bool_decide (segment = []) then Some EmptySegment
  else if bool_decide (segment = lit ".") || bool_decide (segment = lit "..") then Some DotSegment
  else if negb (forallb view_name_char segment) then Some InvalidCharacter
  else None.

Fixpoint view_segments_error (last : option text) (segs : list text)
    : ViewNameError + option text :=
  match segs with
  | [] => inr last
  | segment :: segs =>
      match view_segment_error segment with
      | Some e => inl e
      | None => view_segments_error (Some segment) segs
      end
  end.

Definition validate_view_name (name : text) : option ViewNameError :=
  match view_segments_error None (split_on (ch "/") name) with
  | inl e => Some e
  | inr last => if from_option (ends_with (lit ".git")) false last then Some GitSuffix else None
  end.

(** ** Locators *)

Inductive TracesObjectFormat := Sha1 | Sha256.

Definition format_as_str (f : TracesObjectFormat) : text :=
  match f with Sha1 => lit "sha1" | Sha256 => lit "sha256" end.

Definition zero_id (f : TracesObjectFormat) : text :=
  replicate (match f with Sha1 => 40 | Sha256 => 64 end) (ch "0").

Definition format_parse (raw : text) : option TracesObjectFormat :=
  if bool_decide (raw = lit "sha1") then Some Sha1
  else if bool_decide (raw = lit "sha256") then Some Sha256
  else None.

Inductive TracesLocator :=
  | ByPath (target_path source_id epoch : text) (hash_kind : TracesObjectFormat)
  | ByScope (stream_id : text).

Inductive ViewLocator :=
  | Named (name : text) (version : option N)
  | FilterId (id : text).

Inductive RepoLocator :=
  | RepoPath (path : text)
  | RepoView (view : ViewLocator).

Inductive LocatorDispatch :=
  | Traces (locator : TracesLocator)
  | View (view : ViewLocator)
  | NativeOrImport (path : text).

(** The errors of [ProtocolError] that the locators return. *)
Inductive ProtocolError :=
  | NotFound (what : text)
  | InvalidInput (what : text).

Inductive ServiceType := UploadPackService | ReceivePackService.

Inductive GitProtocolEndpoint := InfoRefs | UploadPack | ReceivePack.

Definition service_type (e : GitProtocolEndpoint) : ServiceType :=
  match e with
  | InfoRefs => UploadPackService
  | UploadPack => UploadPackService
  | ReceivePack => ReceivePackService
  end.

(** [http::Method]: the other methods are not told apart. *)
Inductive Method := GET | POST | OtherMethod.

#[export] Instance Method_eq_dec : EqDecision Method.
Proof. solve_decision. Defined.

#[export] Instance GitProtocolEndpoint_eq_dec : EqDecision GitProtocolEndpoint.
Proof. solve_decision. Defined.

Record GitProtocolPath := mk_GitProtocolPath {
  repo_path : text;
  locator : RepoLocator;
  traces : option TracesLocator;
  endpoint : GitProtocolEndpoint;
}.

Definition traces_not_found : ProtocolError := NotFound (lit "traces locator not found").
Definition view_not_found : ProtocolError := NotFound (lit "view not found").

(** [path.strip_suffix(suffix).unwrap_or(path)] *)
Definition strip_git (raw : text) : text := default raw (strip_suffix (lit ".git") raw).

(** The components of a path, with [..] taking back the component before it. *)
Fixpoint resolve_parts (parts : list text) (segs : list text) : list text :=
  match segs with
  | [] => parts
  | part :: segs =>
      if bool_decide (part = []) || bool_decide (part = lit ".") then resolve_parts parts segs
      else if bool_decide (part = lit "..")
      then resolve_parts (take (length parts - 1) parts) segs
      else resolve_parts (parts ++ [part]) segs
  end.

Definition in_traces_namespace (raw : text) : bool :=
  let stripped := strip_git raw in
  if negb (contains_str (lit ".traces") stripped) then false
  else bool_decide (head (resolve_parts [] (split_on (ch "/") stripped)) = Some (lit ".traces")).

Definition canonical_target_path (raw : text) : ProtocolError + text :=
  if contains_char 0 raw || contains_char backslash raw || negb (starts_with (lit "/") raw)
  then inl traces_not_found
  else if bool_decide (raw = lit "/") then inr raw
  else if ends_with (lit "/") raw then inl traces_not_found
  else if existsb (λ segment, bool_decide (segment = []) || bool_decide (segment = lit ".")
                              || bool_decide (segment = lit ".."))
            (split_on (ch "/") (drop 1 raw))
  then inl traces_not_found
  else inr raw.

Definition normalize_repo_path (path : text) : text :=
  let stripped :=
    match rsplit_once_str (lit ".git") path with
    | Some (before, []) => before
    | _ => path
    end in
  if bool_decide (stripped = []) then lit "/" else stripped.

Definition is_disallowed_root_repo_path (full_path : text) : bool :=
  bool_decide (head (split_on (ch "/") (trim_start_matches is_slash full_path))
               = Some (lit "third-party.git")).

Definition filter_id_char (c : N) : bool := is_ascii_digit c || in_range 97 102 c.

(** The name and version of a [.view] locator. *)
Definition view_name_version (rest : text) : ProtocolError + (text * option N) :=
  match rsplit_once (ch "@") rest with
  | Some (name, raw_version) =>
      if bool_decide (raw_version = []) || negb (forallb is_ascii_digit raw_version)
      then inl view_not_found
      else match parse_u32 raw_version with
           | None => inl view_not_found
           | Some version =>
               if N.eqb version 0 then inl view_not_found else inr (name, Some version)
           end
  | None => inr (rest, None)
  end.

(** The locator that follows a reserved name. *)
Definition reserved_locator (first rest : text) : ProtocolError + RepoLocator :=
  if bool_decide (first = lit ".filter") then
    if negb (N.eqb (str_len rest) 64) || negb (forallb filter_id_char rest)
    then inl view_not_found
    else inr (RepoView (FilterId rest))
  else
    match view_name_version rest with
    | inl e => inl e
    | inr (name, version) =>
        match validate_view_name name with
        | Some _ => inl view_not_found
        | None => inr (RepoView (Named name version))
        end
    end.

Definition classify_view_or_native (raw : text) : ProtocolError + RepoLocator :=
  let stripped := strip_git raw in
  let relative := trim_start_matches is_slash stripped in
  let '(first, rest) := default (relative, []) (split_once (ch "/") relative) in
  if negb (bool_decide (first ∈ VIEW_URL_RESERVED_NAMES)) then inr (RepoPath (normalize_repo_path raw))
  else reserved_locator first rest.

Section Locators.
Variable b64_decode : text → option (list N).
Variable uuid_parse : text → option text.

Definition decode_segment (encoded : text) : ProtocolError + text :=
  if bool_decide (encoded = []) || contains_char (ch "=") encoded then inl traces_not_found
  else match b64_decode encoded with
       | None => inl traces_not_found
       | Some bytes =>
           match from_utf8 bytes with
           | None => inl traces_not_found
           | Some text =>
               if bool_decide (text = []) || contains_char 0 text then inl traces_not_found
               else inr text
           end
       end.

Definition canonical_uuid (text : text) : ProtocolError + Text.text :=
  match uuid_parse text with
  | None => inl traces_not_found
  | Some canonical => if bool_decide (text = canonical) then inr canonical else inl traces_not_found
  end.

Definition parse_by_scope (parts : list text) : ProtocolError + TracesLocator :=
  match parts with
  | [] => inl traces_not_found
  | p :: parts =>
      match canonical_uuid p with
      | inl e => inl e
      | inr stream_id =>
          match parts with
          | [] => inr (ByScope stream_id)
          | _ => inl traces_not_found
          end
      end
  end.

(** What follows the target path: [self], the source, the epoch and the format. *)
Definition parse_by_path_tail (target_path : text) (parts : list text)
    : ProtocolError + TracesLocator :=
  match parts with
  | self_lit :: parts =>
      if negb (bool_decide (self_lit = lit "self")) then inl traces_not_found
      else match parts with
      | source :: parts =>
          match decode_segment source with
          | inl e => inl e
          | inr source_id =>
            match parts with
            | epoch :: parts =>
                match canonical_uuid epoch with
                | inl e => inl e
                | inr epoch =>
                    match parts with
                    | kind :: parts =>
                        match format_parse kind with
                        | None => inl traces_not_found
                        | Some hash_kind =>
                            match parts with
                            | [] => inr (ByPath target_path source_id epoch hash_kind)
                            | _ => inl traces_not_found
                            end
                        end
                    | [] => inl traces_not_found
                    end
                end
            | [] => inl traces_not_found
            end
          end
      | [] => inl traces_not_found
      end
  | [] => inl traces_not_found
  end.

Definition parse_by_path (parts : list text) : ProtocolError + TracesLocator :=
  match parts with
  | [] => inl traces_not_found
  | encoded :: parts =>
      match decode_segment encoded with
      | inl e => inl e
      | inr target =>
          match canonical_target_path target with
          | inl e => inl e
          | inr target_path => parse_by_path_tail target_path parts
          end
      end
  end.

Definition parse_traces_locator (raw : text) : ProtocolError + option TracesLocator :=
  let stripped := strip_git raw in
  match strip_prefix (lit "/.traces/") stripped with
  | None => if in_traces_namespace stripped then inl traces_not_found else inr None
  | Some rest =>
      if bool_decide (rest = []) then inl traces_not_found
      else match split_on (ch "/") rest with
           | first :: parts =>
               if bool_decide (first = lit "by-path") then
                 match parse_by_path parts with inl e => inl e | inr l => inr (Some l) end
               else if bool_decide (first = lit "by-scope") then
                 match parse_by_scope parts with inl e => inl e | inr l => inr (Some l) end
               else inl traces_not_found
           | [] => inl traces_not_found
           end
  end.

Definition dispatch_repo_locator (raw : text) : ProtocolError + LocatorDispatch :=
  if in_traces_namespace raw && negb (ends_with (lit ".git") raw) then inl traces_not_found
  else match parse_traces_locator raw with
       | inl e => inl e
       | inr (Some locator) => inr (Traces locator)
       | inr None =>
           match classify_view_or_native raw with
           | inl e => inl e
           | inr (RepoView view) => inr (View view)
           | inr (RepoPath path) => inr (NativeOrImport path)
           end
       end.

Definition classify_repo_locator (raw : text) : ProtocolError + RepoLocator :=
  match dispatch_repo_locator raw with
  | inl e => inl e
  | inr (Traces _) => inl (NotFound (lit "traces locator is not a code repository"))
  | inr (View view) => inr (RepoView view)
  | inr (NativeOrImport path) => inr (RepoPath path)
  end.

Definition locate_http_prefix (prefix : text) : ProtocolError + (RepoLocator * option TracesLocator) :=
  match dispatch_repo_locator prefix with
  | inl e => inl e
  | inr (Traces locator) => inr (RepoPath (normalize_repo_path prefix), Some locator)
  | inr (View view) => inr (RepoView view, None)
  | inr (NativeOrImport path) => inr (RepoPath path, None)
  end.

(** One of the three endpoint cases. *)
Definition endpoint_route (method allowed : Method) (message : text) (e : GitProtocolEndpoint)
    (prefix : text) : ProtocolError + GitProtocolPath :=
  match locate_http_prefix prefix with
  | inl err => inl err
  | inr (loc, tr) =>
      if negb (bool_decide (method = allowed)) then inl (InvalidInput message)
      else inr (mk_GitProtocolPath (normalize_repo_path prefix) loc tr e)
  end.

Definition parse_git_protocol_path (method : Method) (full_path : text)
    : ProtocolError + GitProtocolPath :=
  if is_disallowed_root_repo_path full_path
  then inl (InvalidInput (lit "Repository third-party.git is not supported"))
  else match strip_suffix (lit "/info/refs") full_path with
  | Some prefix => endpoint_route method GET (lit "/info/refs only supports GET") InfoRefs prefix
  | None =>
    match strip_suffix (lit "/git-upload-pack") full_path with
    | Some prefix =>
        endpoint_route method POST (lit "/git-upload-pack only supports POST") UploadPack prefix
    | None =>
      match strip_suffix (lit "/git-receive-pack") full_path with
      | Some prefix =>
          endpoint_route method POST (lit "/git-receive-pack only supports POST") ReceivePack prefix
      | None => inl (NotFound (lit "Operation not supported"))
      end
    end
  end.
End Locators.

(** ** Lemmas: strings *)

Lemma contains_str_app pat a b : contains_str pat (a ++ pat ++ b) = true.
Proof.
  induction a as [|c a IH].
  - assert (starts_with pat (pat ++ b) = true) as H by (apply starts_with_spec; eauto).
    destruct pat as [|x pat]; [by destruct b|].
    change ([] ++ ?l) with l. change ((x :: pat) ++ b) with (x :: (pat ++ b)) in *.
    cbn [contains_str]. by rewrite H.
  - cbn [app contains_str]. rewrite IH. by rewrite orb_true_r.
Qed.

Lemma split_elem_contains sep s seg : seg ∈ split_on sep s → contains_str seg s = true.
Proof.
  intros Hin. rewrite <-(join_split sep s). revert Hin. generalize (split_on sep s) as segs.
  induction segs as [|x segs IH]; [by intros ?%elem_of_nil|].
  intros [->|Hin]%elem_of_cons.
  - destruct (join_cons_hd sep x segs) as [r ->]. apply (contains_str_app x []).
  - destruct segs as [|y segs]; [by apply elem_of_nil in Hin|]. specialize (IH Hin).
    change (join sep (x :: y :: segs)) with (x ++ [sep] ++ join sep (y :: segs)).
    rewrite app_assoc. revert IH. generalize (join sep (y :: segs)) as t, (x ++ [sep]) as p.
    intros t p Ht. induction p as [|c p IHp]; [done|]. cbn [app contains_str].
    rewrite IHp. by rewrite orb_true_r.
Qed.

Lemma rsplit_once_str_Some pat s b a : rsplit_once_str pat s = Some (b, a) → s = b ++ pat ++ a.
Proof.
  revert b. induction s as [|c s IH]; intros b; cbn [rsplit_once_str].
  - destruct (strip_prefix pat []) as [r|] eqn:E; [|done]. cbn. intros [= <- ->].
    by apply strip_prefix_Some in E.
  - destruct (rsplit_once_str pat s) as [[b' a']|].
    + intros [= <- ->]. simpl. f_equal. auto.
    + destruct (strip_prefix pat (c :: s)) as [r|] eqn:E; [|done]. cbn. intros [= <- ->].
      by apply strip_prefix_Some in E.
Qed.

(** Splitting off at the last occurrence, when nothing may follow it, is
    [strip_suffix]. *)
Lemma rsplit_once_str_suffix pat s b :
  pat ≠ [] → rsplit_once_str pat s = Some (b, []) ↔ strip_suffix pat s = Some b.
Proof.
  intros Hne. rewrite strip_suffix_Some. split.
  { intros H%rsplit_once_str_Some. by rewrite app_nil_r in H. }
  revert s. induction b as [|c b IH]; intros s ->; cbn [app].
  - destruct pat as [|x pat]; [done|]. cbn [rsplit_once_str].
    destruct (rsplit_once_str (x :: pat) pat) as [[b' a']|] eqn:E.
    + apply rsplit_once_str_Some, (f_equal length) in E. rewrite !length_app in E. simpl in E. lia.
    + rewrite (proj2 (strip_prefix_Some _ _ []) (eq_sym (app_nil_r _))). done.
  - cbn [rsplit_once_str]. by rewrite (IH _ eq_refl).
Qed.

Lemma normalize_strip path :
  normalize_repo_path path = if bool_decide (strip_git path = []) then lit "/" else strip_git path.
Proof.
  unfold normalize_repo_path, strip_git.
  assert ((match rsplit_once_str (lit ".git") path with Some (before, []) => before | _ => path end)
          = default path (strip_suffix (lit ".git") path)) as ->; [|done].
  destruct (strip_suffix (lit ".git") path) as [b|] eqn:E.
  - by apply rsplit_once_str_suffix in E as ->.
  - destruct (rsplit_once_str (lit ".git") path) as [[b [|]]|] eqn:E'; [|done..].
    apply rsplit_once_str_suffix in E'; [|done]. congruence.
Qed.

(** ** Lemmas: the traces namespace *)

(** The components a path resolves to. *)
Definition components (path : text) : list text := resolve_parts [] (split_on (ch "/") path).

Lemma resolve_parts_elem parts segs p : p ∈ resolve_parts parts segs → p ∈ parts ∨ p ∈ segs.
Proof.
  revert parts. induction segs as [|x segs IH]; intros parts Hp; cbn [resolve_parts] in Hp; [auto|].
  break_in Hp; apply IH in Hp as [Hp|Hp]; try (right; by right).
  - by left.
  - left. apply list_elem_of_lookup in Hp as [i Hi]. apply lookup_take_Some in Hi as [Hi _].
    by eapply list_elem_of_lookup_2.
  - apply elem_of_app in Hp as [Hp|Hp]; [by left|]. apply list_elem_of_singleton in Hp as ->.
    right. by left.
Qed.

Lemma resolve_parts_app parts l k :
  resolve_parts parts (l ++ k) = resolve_parts (resolve_parts parts l) k.
Proof.
  revert parts. induction l as [|x l IH]; intros parts; [done|]. cbn [app resolve_parts].
  by repeat case_match.
Qed.

(** The search for [.traces] in the text before resolving it decides nothing. *)
Lemma in_traces_namespace_spec raw :
  in_traces_namespace raw = true ↔ head (components (strip_git raw)) = Some (lit ".traces").
Proof.
  unfold in_traces_namespace. destruct (contains_str _ _) eqn:E; cbn [negb].
  - apply bool_decide_eq_true.
  - split; [done|]. intros H. rewrite <-E. apply (split_elem_contains (ch "/")).
    unfold components in H.
    destruct (resolve_parts_elem [] (split_on (ch "/") (strip_git raw)) (lit ".traces")) as [Hn|Hn];
      [|by apply elem_of_nil in Hn|done].
    destruct (resolve_parts _ _); [done|]. simpl in H. simplify_eq. by left.
Qed.

(** A path and the path with a suffix appended differ in the last segment only. *)
Lemma split_suffix t suf :
  ch "/" ∉ suf →
  ∃ init y, split_on (ch "/") t = init ++ [y] ∧ split_on (ch "/") (t ++ suf) = init ++ [y ++ suf].
Proof.
  intros Hsuf. induction t as [|c t (init & y & H1 & H2)].
  { exists [], []. split; [done|]. by apply split_on_no_sep. }
  cbn [app split_on]. rewrite H1, H2. destruct (N.eqb c (ch "/")).
  - by exists ([] :: init), y.
  - destruct init as [|x init]; simpl; [by exists [], (c :: y)|]. by exists ((c :: x) :: init), y.
Qed.

Lemma split_git t :
  ∃ init y, split_on (ch "/") t = init ++ [y] ∧ split_on (ch "/") (t ++ lit ".git") = init ++ [y ++ lit ".git"].
Proof. apply split_suffix, contains_char_false. reflexivity. Qed.

(** Taking [.git] off a path leaves the namespace only when it makes a [..] of the
    last segment, just below the root of the namespace. *)
Lemma strip_leaves_namespace t :
  head (components t) = Some (lit ".traces") →
  head (components (strip_git t)) ≠ Some (lit ".traces") →
  ∃ s, t = s ++ lit "/...git" ∧ components s = [lit ".traces"].
Proof.
  intros Ht Hs. unfold strip_git in Hs. destruct (strip_suffix (lit ".git") t) as [t'|] eqn:E; [|done].
  apply strip_suffix_Some in E as ->. cbn [default] in Hs. simpl in Hs.
  destruct (split_git t') as (init & y & H1 & H2). unfold components in Ht, Hs.
  rewrite H2, resolve_parts_app in Ht. rewrite H1, resolve_parts_app in Hs.
  set (R := resolve_parts [] init) in *.
  assert (head (R ++ [y ++ lit ".git"]) = Some (lit ".traces")) as HR.
  { revert Ht. cbn [resolve_parts]. rewrite !(bool_decide_eq_false_2 (y ++ lit ".git" = _)); [done|..];
      intros Hy; apply (f_equal length) in Hy; rewrite length_app in Hy; simpl in Hy; lia. }
  destruct R as [|r R'] eqn:ER.
  { simpl in HR. injection HR as HR. destruct y as [|a y]; [done|].
    apply (f_equal last) in HR. change (lit ".git") with (lit ".gi" ++ [ch "t"]) in HR.
    rewrite app_assoc, last_snoc in HR. done. }
  simpl in HR. injection HR as ->.
  assert (y = lit ".." ∧ R' = []) as [-> ->].
  { revert Hs. cbn [resolve_parts]. destruct (bool_decide (y = []) || bool_decide (y = lit ".")); [done|].
    case_bool_decide; [|done]. destruct R'; [done|]. simpl. done. }
  destruct (decide (init = [])) as [->|Hne]; [by unfold R in ER|].
  pose proof (split_on_pieces (ch "/") t') as Hp. rewrite H1 in Hp. apply Forall_app in Hp as [Hp _].
  exists (join (ch "/") init). split.
  - rewrite <-(join_split (ch "/") t'), H1, join_app by done. by rewrite <-app_assoc.
  - unfold components. by rewrite split_join.
Qed.

Lemma dispatch_code_repo b u raw d :
  dispatch_repo_locator b u raw = inr d → (∀ l, d ≠ Traces l) →
  in_traces_namespace (strip_git raw) = false
  ∧ classify_view_or_native raw =
      match d with View v => inr (RepoView v) | NativeOrImport p => inr (RepoPath p)
                 | Traces _ => inl traces_not_found end.
Proof.
  unfold dispatch_repo_locator. destruct (_ && _); [done|].
  destruct (parse_traces_locator b u raw) as [|[l|]] eqn:Ep; [done|naive_solver|].
  intros Hd Hno. unfold parse_traces_locator in Ep. split.
  - break_in Ep; done.
  - break_in Hd; by simplify_eq.
Qed.

Lemma dispatch_not_traces b u raw :
  in_traces_namespace raw = false → in_traces_namespace (strip_git raw) = false →
  strip_prefix (lit "/.traces/") (strip_git raw) = None →
  dispatch_repo_locator b u raw =
    match classify_view_or_native raw with
    | inl e => inl e
    | inr (RepoView v) => inr (View v)
    | inr (RepoPath p) => inr (NativeOrImport p)
    end.
Proof.
  intros H1 H2 H3. unfold dispatch_repo_locator, parse_traces_locator. by rewrite H1, H3, H2.
Qed.

(** ** Lemmas: view locators *)

Lemma str_len_ascii s : Forall (λ c, N.ltb c 128 = true) s → str_len s = N.of_nat (length s).
Proof.
  induction 1 as [|c s Hc _ IH]; [done|]. cbn [str_len foldr length]. unfold str_len in IH.
  rewrite IH. unfold len_utf8. rewrite Hc. lia.
Qed.

Lemma filter_id_char_ascii c : filter_id_char c = true → N.ltb c 128 = true.
Proof.
  unfold filter_id_char, is_ascii_digit, in_range. rewrite N.ltb_lt.
  rewrite orb_true_iff, !andb_true_iff, !N.leb_le. lia.
Qed.

Lemma view_segments_ok segs last0 last1 :
  view_segments_error last0 segs = inr last1 →
  Forall (λ s, view_segment_error s = None) segs
  ∧ last1 = match last segs with Some s => Some s | None => last0 end.
Proof.
  revert last0. induction segs as [|s segs IH]; intros last0; cbn [view_segments_error].
  - intros [= <-]. done.
  - destruct (view_segment_error s) eqn:E; [done|]. intros H. apply IH in H as [Hf ->].
    split; [by constructor|]. destruct segs as [|t segs]; [done|].
    change (last (s :: t :: segs)) with (last (t :: segs)).
    destruct (last (t :: segs)) eqn:El; [done|]. by apply last_None in El.
Qed.

Lemma view_segment_ok s :
  view_segment_error s = None → s ≠ [] ∧ s ≠ lit ".." ∧ forallb view_name_char s = true.
Proof.
  unfold view_segment_error. repeat case_bool_decide; try done. destruct (forallb _ s); [|done]. done.
Qed.

Lemma valid_name name :
  validate_view_name name = None →
  Forall (λ s, s ≠ [] ∧ s ≠ lit ".." ∧ forallb view_name_char s = true) (split_on (ch "/") name)
  ∧ strip_suffix (lit ".git") name = None.
Proof.
  unfold validate_view_name. destruct (view_segments_error _ _) as [|l] eqn:E; [done|].
  apply view_segments_ok in E as [Hf Hl]. intros Hg. split.
  { eapply Forall_impl; [exact Hf|]. apply view_segment_ok. }
  destruct (strip_suffix (lit ".git") name) as [t|] eqn:Et; [|done].
  apply strip_suffix_Some in Et as ->. destruct (split_git t) as (init & y & _ & H2).
  rewrite H2, last_snoc in Hl. subst l. cbn [from_option] in Hg.
  assert (ends_with (lit ".git") (y ++ lit ".git") = true) as He by (apply ends_with_spec; eauto).
  by rewrite He in Hg.
Qed.

Lemma valid_name_chars name c :
  validate_view_name name = None → c ∈ name → view_name_char c = true ∨ c = ch "/".
Proof.
  intros [Hf _]%valid_name Hc. rewrite <-(join_split (ch "/") name) in Hc.
  apply join_elem_of in Hc as [->|(s & Hs & Hc)]; [by right|left].
  rewrite Forall_forall in Hf. destruct (Hf s Hs) as (_ & _ & Hall).
  rewrite forallb_forall in Hall. by apply Hall, list_elem_of_In.
Qed.

Lemma no_git_last s c : last s = Some c → c ≠ ch "t" → strip_suffix (lit ".git") s = None.
Proof.
  intros Hl Hc. destruct (strip_suffix (lit ".git") s) as [t|] eqn:E; [|done].
  apply strip_suffix_Some in E as ->. change (lit ".git") with (lit ".gi" ++ [ch "t"]) in Hl.
  rewrite app_assoc, last_snoc in Hl. congruence.
Qed.

Lemma no_git_below x rest :
  strip_suffix (lit ".git") rest = None → strip_suffix (lit ".git") (x ++ ch "/" :: rest) = None.
Proof.
  intros Hr. destruct (strip_suffix _ (x ++ _)) as [b|] eqn:E; [|done]. exfalso.
  apply strip_suffix_Some in E. destruct (split_git b) as (init & y & _ & H2).
  rewrite <-E, split_on_sep in H2. apply (f_equal last) in H2. rewrite last_snoc, last_app in H2.
  destruct (last (split_on (ch "/") rest)) as [z|] eqn:El.
  - injection H2 as ->. apply join_last with (sep := ch "/") in El as [r Hr'].
    rewrite join_split, app_assoc in Hr'. apply strip_suffix_Some in Hr'. congruence.
  - apply last_None in El. by apply split_on_nonempty in El.
Qed.

Lemma resolve_head p parts segs :
  Forall (λ s, s ≠ lit "..") segs → head (resolve_parts (p :: parts) segs) = Some p.
Proof.
  intros H. revert parts. induction H as [|s segs Hs _ IH]; intros parts; [done|].
  cbn [resolve_parts]. rewrite (bool_decide_eq_false_2 (s = lit "..")) by done.
  destruct (_ || _); [apply IH|]. change ((p :: parts) ++ [s]) with (p :: (parts ++ [s])). apply IH.
Qed.

(** A URL under a reserved name, with or without [.git], is a view URL. *)
Lemma view_url_dispatch b u first rest suffix :
  first ∈ VIEW_URL_RESERVED_NAMES → Forall (λ s, s ≠ lit "..") (split_on (ch "/") rest) →
  strip_suffix (lit ".git") rest = None → suffix = [] ∨ suffix = lit ".git" →
  let raw := lit "/" ++ (first ++ ch "/" :: rest) ++ suffix in
  strip_git raw = lit "/" ++ first ++ ch "/" :: rest
  ∧ dispatch_repo_locator b u raw =
    match classify_view_or_native raw with
    | inl e => inl e
    | inr (RepoView v) => inr (View v)
    | inr (RepoPath p) => inr (NativeOrImport p)
    end.
Proof.
  intros Hfirst Hdd Hng Hsuf raw. set (stripped := lit "/" ++ first ++ ch "/" :: rest).
  assert (strip_suffix (lit ".git") stripped = None) as Hng'.
  { unfold stripped. rewrite app_assoc. by apply no_git_below. }
  assert (strip_git raw = stripped) as Hs.
  { unfold raw, strip_git. rewrite app_assoc. fold stripped. destruct Hsuf as [->| ->].
    - rewrite app_nil_r. by rewrite Hng'.
    - by rewrite (proj2 (strip_suffix_Some _ _ stripped) eq_refl). }
  assert (strip_git stripped = stripped) as Hss by (unfold strip_git; by rewrite Hng').
  assert ((ch "/" ∉ first) ∧ first ≠ [] ∧ first ≠ lit "." ∧ first ≠ lit ".." ∧ first ≠ lit ".traces")
    as (Hf1 & Hf2 & Hf3 & Hf4 & Hf5).
  { unfold VIEW_URL_RESERVED_NAMES in Hfirst. apply elem_of_cons in Hfirst as [->|Hfirst].
    - split; [|done]. apply contains_char_false. reflexivity.
    - apply list_elem_of_singleton in Hfirst as ->. split; [|done].
      apply contains_char_false. reflexivity. }
  assert (head (components stripped) = Some first) as Hcomp.
  { unfold components, stripped. change (lit "/" ++ ?l) with ([] ++ ch "/" :: l).
    rewrite split_on_sep, split_on_app by done. cbn [split_on app resolve_parts].
    rewrite (bool_decide_eq_true_2 ([] = [])) by done. cbn [orb].
    rewrite !bool_decide_eq_false_2 by done. cbn [orb app]. by apply resolve_head. }
  assert (∀ x, strip_git x = stripped → in_traces_namespace x = false) as Hin.
  { intros x Hx. apply not_true_iff_false. rewrite in_traces_namespace_spec, Hx, Hcomp. congruence. }
  split; [done|]. apply dispatch_not_traces; [by apply Hin|rewrite Hs; by apply Hin|].
  rewrite Hs. destruct (strip_prefix _ stripped) as [r|] eqn:E; [|done].
  apply strip_prefix_Some in E. unfold stripped in E.
  change (lit "/.traces/" ++ r) with (lit "/" ++ lit ".traces" ++ ch "/" :: r) in E.
  apply app_inv_head, (f_equal (split_on (ch "/"))) in E.
  rewrite !split_on_app in E by (done || (apply contains_char_false; reflexivity)). congruence.
Qed.

Definition view_ok (v : ViewLocator) : Prop :=
  match v with
  | FilterId id => length id = 64 ∧ forallb filter_id_char id = true
  | Named name version =>
      validate_view_name name = None ∧ from_option (λ k, 1 ≤ k ≤ u32_max)%N True version
  end.

(** How a locator is written in a URL. *)
Definition view_spelling (v : ViewLocator) (t : text) : Prop :=
  match v with
  | FilterId id => t = lit ".filter" ++ ch "/" :: id
  | Named name None => t = lit ".view" ++ ch "/" :: name
  | Named name (Some k) =>
      ∃ ds, ds ≠ [] ∧ forallb is_ascii_digit ds = true ∧ parse_u32 ds = Some k
        ∧ t = lit ".view" ++ ch "/" :: name ++ ch "@" :: ds
  end.

Lemma classify_reserved raw first rest :
  first ∈ VIEW_URL_RESERVED_NAMES → strip_git raw = lit "/" ++ first ++ ch "/" :: rest →
  classify_view_or_native raw = reserved_locator first rest.
Proof.
  intros Hf Hs. unfold classify_view_or_native. rewrite Hs.
  assert (trim_start_matches is_slash (lit "/" ++ first ++ ch "/" :: rest) = first ++ ch "/" :: rest
    ∧ (ch "/" ∉ first)) as [-> Hno].
  { unfold VIEW_URL_RESERVED_NAMES in Hf. apply elem_of_cons in Hf as [->|Hf];
      [|apply list_elem_of_singleton in Hf as ->]; (split; [done|]);
      apply contains_char_false; reflexivity. }
  rewrite split_once_app by done. cbn [default from_option id].
  by rewrite bool_decide_eq_true_2 by done.
Qed.

Lemma rsplit_once_app sep a b : sep ∉ b → rsplit_once sep (a ++ sep :: b) = Some (a, b).
Proof.
  intros Hb. unfold rsplit_once. rewrite reverse_app, reverse_cons, <-app_assoc. simpl.
  rewrite split_once_app by (by rewrite elem_of_reverse). simpl. by rewrite !reverse_involutive.
Qed.

Lemma rsplit_once_Some sep s a b : rsplit_once sep s = Some (a, b) → s = a ++ sep :: b.
Proof.
  unfold rsplit_once. destruct (split_once sep (reverse s)) as [[x y]|] eqn:E; [|done]. simpl.
  intros [= <- <-]. apply split_once_Some in E as [E _]. rewrite <-(reverse_involutive s), E.
  rewrite reverse_app, reverse_cons. by rewrite <-app_assoc.
Qed.

Lemma rsplit_once_None sep s : sep ∉ s → rsplit_once sep s = None.
Proof.
  intros Hs. unfold rsplit_once. destruct (split_once sep (reverse s)) as [[x y]|] eqn:E; [|done].
  apply split_once_Some in E as [E _]. exfalso. apply Hs. rewrite <-elem_of_reverse, E. set_solver.
Qed.

Lemma parse_u32_bound ds k : parse_u32 ds = Some k → (k ≤ u32_max)%N.
Proof.
  unfold parse_u32. assert (0 ≤ u32_max)%N as H0 by (unfold u32_max; lia). revert H0.
  generalize 0%N as v. induction ds as [|d ds IH]; intros v Hv; cbn [foldl]; [by intros [= <-]|].
  cbn. destruct (N.leb_spec (v * 10 + (d - 48)) u32_max) as [Hle|_]; [by apply IH|].
  clear. induction ds as [|d ds IH]; [done|]. exact IH.
Qed.

Lemma digit_chars ds c : forallb is_ascii_digit ds = true → c ∈ ds → (48 ≤ c ≤ 57)%N.
Proof.
  rewrite forallb_forall. intros H Hc%list_elem_of_In. specialize (H c Hc).
  unfold is_ascii_digit, in_range in H. by rewrite andb_true_iff, !N.leb_le in H.
Qed.

(** Reading back each kind of spelling. *)
Lemma reserved_filter id :
  length id = 64 → forallb filter_id_char id = true →
  reserved_locator (lit ".filter") id = inr (RepoView (FilterId id)).
Proof.
  intros Hl Hh. unfold reserved_locator. rewrite bool_decide_eq_true_2 by done.
  rewrite str_len_ascii, Hl, Hh; [done|]. apply Forall_forall. intros c Hc%list_elem_of_In.
  rewrite forallb_forall in Hh. by apply filter_id_char_ascii, Hh.
Qed.

Lemma reserved_named name :
  validate_view_name name = None →
  reserved_locator (lit ".view") name = inr (RepoView (Named name None)).
Proof.
  intros Hv. unfold reserved_locator, view_name_version. rewrite bool_decide_eq_false_2 by done.
  rewrite rsplit_once_None; [by rewrite Hv|].
  intros Hin. by destruct (valid_name_chars name (ch "@") Hv Hin).
Qed.

Lemma reserved_versioned name ds k :
  validate_view_name name = None → ds ≠ [] → forallb is_ascii_digit ds = true →
  parse_u32 ds = Some k → (1 ≤ k)%N →
  reserved_locator (lit ".view") (name ++ ch "@" :: ds) = inr (RepoView (Named name (Some k))).
Proof.
  intros Hv Hne Hd Hk H1. unfold reserved_locator, view_name_version.
  rewrite bool_decide_eq_false_2 by done. rewrite rsplit_once_app.
  - rewrite (bool_decide_eq_false_2 (ds = [])) by done. rewrite Hd, Hk. cbn [negb orb].
    rewrite (proj2 (N.eqb_neq k 0)) by lia. by rewrite Hv.
  - intros Hin. pose proof (digit_chars ds _ Hd Hin) as Hr. unfold ch in Hr. simpl in Hr. lia.
Qed.

Lemma reserved_locator_sound first rest v :
  first ∈ VIEW_URL_RESERVED_NAMES → reserved_locator first rest = inr (RepoView v) →
  view_ok v ∧ view_spelling v (first ++ ch "/" :: rest).
Proof.
  intros Hf. unfold reserved_locator. case_bool_decide as E.
  - subst first. destruct (N.eqb_spec (str_len rest) 64) as [Hl|]; [|done].
    destruct (forallb filter_id_char rest) eqn:Hh; [|done]. intros [= <-]. split; [|done].
    split; [|done]. rewrite str_len_ascii in Hl; [lia|]. apply Forall_forall.
    intros c Hc%list_elem_of_In. rewrite forallb_forall in Hh. by apply filter_id_char_ascii, Hh.
  - assert (first = lit ".view") as -> by (unfold VIEW_URL_RESERVED_NAMES in Hf; set_solver).
    unfold view_name_version. destruct (rsplit_once _ rest) as [[name ds]|] eqn:Er.
    + apply rsplit_once_Some in Er as ->. case_bool_decide; [done|].
      destruct (forallb is_ascii_digit ds) eqn:Hd; [|done]. cbn [negb orb].
      destruct (parse_u32 ds) as [k|] eqn:Hk; [|done]. destruct (N.eqb_spec k 0); [done|].
      destruct (validate_view_name name) eqn:Hv; [done|]. intros [= <-].
      pose proof (parse_u32_bound ds k Hk). split; [split; [done|simpl; lia]|]. by exists ds.
    + destruct (validate_view_name rest) eqn:Hv; [done|]. intros [= <-]. done.
Qed.

Lemma versioned_segments name ds :
  validate_view_name name = None → forallb is_ascii_digit ds = true →
  Forall (λ s, s ≠ lit "..") (split_on (ch "/") (name ++ ch "@" :: ds)).
Proof.
  intros [Hf _]%valid_name Hd. destruct (split_suffix name (ch "@" :: ds)) as (init & y & H1 & ->).
  { intros [|Hin]%elem_of_cons; [done|]. apply (digit_chars ds _ Hd) in Hin.
    unfold ch in Hin. simpl in Hin. lia. }
  rewrite H1 in Hf. apply Forall_app in Hf as [Hf _]. apply Forall_app. split.
  - eapply Forall_impl; [exact Hf|]. naive_solver.
  - constructor; [|constructor]. intros Hy. assert (ch "@" ∈ lit "..") as Hin; [|by apply contains_char_spec in Hin].
    rewrite <-Hy. apply elem_of_app. right. by left.
Qed.

Lemma versioned_no_git name ds :
  ds ≠ [] → forallb is_ascii_digit ds = true →
  strip_suffix (lit ".git") (name ++ ch "@" :: ds) = None.
Proof.
  intros Hne Hd. destruct (last ds) as [c|] eqn:El; [|by apply last_None in El].
  apply last_Some in El as [l ->]. apply (no_git_last _ c).
  - rewrite app_comm_cons, app_assoc. apply last_snoc.
  - assert (48 ≤ c ≤ 57)%N by (apply (digit_chars _ c Hd); set_solver).
    intros ->. unfold ch in *. simpl in *. lia.
Qed.

Lemma filter_id_absent id c :
  forallb filter_id_char id = true → filter_id_char c = false → c ∉ id.
Proof.
  rewrite forallb_forall. intros Hh Hc Hin%list_elem_of_In%Hh. congruence.
Qed.

Lemma filter_id_segments id :
  forallb filter_id_char id = true → Forall (λ s, s ≠ lit "..") (split_on (ch "/") id).
Proof.
  intros Hh. rewrite split_on_no_sep by by apply filter_id_absent. constructor; [|constructor].
  intros ->. done.
Qed.

Lemma filter_id_no_git id :
  forallb filter_id_char id = true → strip_suffix (lit ".git") id = None.
Proof.
  intros Hh. destruct (strip_suffix (lit ".git") id) as [t|] eqn:E; [|done].
  apply strip_suffix_Some in E as ->. exfalso.
  apply (filter_id_absent _ (ch "t") Hh); [done|]. apply elem_of_app. right.
  apply contains_char_spec. reflexivity.
Qed.

Lemma classify_view_sound raw v :
  classify_view_or_native raw = inr (RepoView v) →
  view_ok v ∧ ∃ slashes t, view_spelling v t ∧ Forall (λ c, is_slash c = true) slashes
                           ∧ strip_git raw = slashes ++ t.
Proof.
  unfold classify_view_or_native.
  destruct (trim_start_split is_slash (strip_git raw)) as (slashes & Hs & Hsl).
  set (relative := trim_start_matches is_slash (strip_git raw)) in *.
  destruct (split_once (ch "/") relative) as [[first rest]|] eqn:Eo; cbn [default from_option id].
  - apply split_once_Some in Eo as [Hrel _]. case_bool_decide as Hf; [|done]. cbn [negb].
    intros Hr. destruct (reserved_locator_sound first rest v Hf Hr) as [Hok Hsp].
    split; [done|]. exists slashes, relative. by rewrite <-Hs, Hrel.
  - case_bool_decide as Hf; [|done]. cbn [negb]. unfold reserved_locator.
    case_bool_decide; [done|]. done.
Qed.

(** ** Lemmas: traces locators *)

Section TracesSpelling.
Variable b64_decode : text → option (list N).
Variable uuid_parse : text → option text.

(** How a traces locator is written in a URL, without [.git]. *)
Definition traces_spelling (l : TracesLocator) (t : text) : Prop :=
  match l with
  | ByScope id =>
      (ch "/" ∉ id) ∧ uuid_parse id = Some id ∧ t = lit "/.traces/" ++ join (ch "/") [lit "by-scope"; id]
  | ByPath target source epoch kind =>
      ∃ e1 e2, Forall (λ s, ch "/" ∉ s) [e1; e2; epoch]
        ∧ decode_segment b64_decode e1 = inr target ∧ canonical_target_path target = inr target
        ∧ decode_segment b64_decode e2 = inr source ∧ uuid_parse epoch = Some epoch
        ∧ t = lit "/.traces/" ++ join (ch "/")
                [lit "by-path"; e1; lit "self"; e2; epoch; format_as_str kind]
  end.

Lemma canonical_uuid_inr t c : canonical_uuid uuid_parse t = inr c ↔ t = c ∧ uuid_parse c = Some c.
Proof.
  unfold canonical_uuid. destruct (uuid_parse t) as [x|] eqn:E.
  - case_bool_decide; [|naive_solver]. subst. split; [by intros [= <-]|]. by intros [-> _].
  - split; [done|]. intros [-> H]. congruence.
Qed.

Lemma format_parse_inr raw k : format_parse raw = Some k ↔ raw = format_as_str k.
Proof.
  unfold format_parse. case_bool_decide; [subst; by destruct k|].
  case_bool_decide; [subst; by destruct k|]. split; [done|]. by destruct k.
Qed.

Lemma canonical_target_path_inr raw p : canonical_target_path raw = inr p → raw = p.
Proof. unfold canonical_target_path. intros H. break_in H; by simplify_eq. Qed.

Lemma parse_by_scope_inr parts l :
  parse_by_scope uuid_parse parts = inr l ↔
  ∃ id, parts = [id] ∧ uuid_parse id = Some id ∧ l = ByScope id.
Proof.
  unfold parse_by_scope. split.
  - destruct parts as [|p parts]; [done|]. destruct (canonical_uuid uuid_parse p) as [|c] eqn:E; [done|].
    apply canonical_uuid_inr in E as [-> Hu]. destruct parts; [|done]. intros [= <-]. eauto.
  - intros (id & -> & Hu & ->). by rewrite (proj2 (canonical_uuid_inr id id)).
Qed.

Lemma parse_by_path_inr parts l :
  parse_by_path b64_decode uuid_parse parts = inr l ↔
  ∃ e1 e2 target source epoch kind,
    parts = [e1; lit "self"; e2; epoch; format_as_str kind]
    ∧ decode_segment b64_decode e1 = inr target ∧ canonical_target_path target = inr target
    ∧ decode_segment b64_decode e2 = inr source ∧ uuid_parse epoch = Some epoch
    ∧ l = ByPath target source epoch kind.
Proof.
  unfold parse_by_path, parse_by_path_tail. split.
  - destruct parts as [|e1 parts]; [done|].
    destruct (decode_segment _ e1) as [|target] eqn:E1; [done|].
    destruct (canonical_target_path target) as [|t'] eqn:Et; [done|].
    pose proof (canonical_target_path_inr _ _ Et) as <-.
    destruct parts as [|self [|e2 parts]]; [done|by case_bool_decide|].
    case_bool_decide; [|done]. subst self. cbn [negb].
    destruct (decode_segment _ e2) as [|source] eqn:E2; [done|].
    destruct parts as [|ep parts]; [done|].
    destruct (canonical_uuid uuid_parse ep) as [|c] eqn:Ec; [done|].
    apply canonical_uuid_inr in Ec as [-> Hu]. destruct parts as [|kind parts]; [done|].
    destruct (format_parse kind) as [k|] eqn:Ek; [|done]. apply format_parse_inr in Ek as ->.
    destruct parts; [|done]. intros [= <-]. by exists e1, e2, target, source, c, k.
  - intros (e1 & e2 & target & source & epoch & kind & -> & H1 & Ht & H2 & Hu & ->).
    rewrite H1, Ht, bool_decide_eq_true_2 by done. cbn [negb].
    rewrite H2, (proj2 (canonical_uuid_inr epoch epoch)) by done.
    by rewrite (proj2 (format_parse_inr _ kind) eq_refl).
Qed.

Lemma parse_traces_inr raw l :
  parse_traces_locator b64_decode uuid_parse raw = inr (Some l) ↔ traces_spelling l (strip_git raw).
Proof.
  unfold parse_traces_locator. split.
  - destruct (strip_prefix _ _) as [rest|] eqn:E; [|by destruct (in_traces_namespace _)].
    apply strip_prefix_Some in E. rewrite E. case_bool_decide; [done|].
    pose proof (join_split (ch "/") rest) as Hj. pose proof (split_on_pieces (ch "/") rest) as Hp.
    destruct (split_on (ch "/") rest) as [|first parts]; [done|]. rewrite <-Hj. clear E Hj.
    apply Forall_cons in Hp as [_ Hp]. case_bool_decide as Hf; [|case_bool_decide as Hf'; [|done]].
    + destruct (parse_by_path _ _ parts) as [|l'] eqn:Ep; [done|]. intros [= <-].
      apply parse_by_path_inr in Ep as (e1 & e2 & t & src & ep & k & -> & H1 & Ht & H2 & Hu & ->).
      exists e1, e2. rewrite Hf. split; [|done].
      apply Forall_cons in Hp as [? [_ [? [? _]%Forall_cons]%Forall_cons]%Forall_cons].
      by repeat constructor.
    + destruct (parse_by_scope _ parts) as [|l'] eqn:Ep; [done|]. intros [= <-].
      apply parse_by_scope_inr in Ep as (id & -> & Hu & ->). rewrite Hf'. split; [|done].
      by apply Forall_cons in Hp as [? _].
  - destruct l as [target source epoch kind|id]; cbn [traces_spelling].
    + intros (e1 & e2 & Hs & H1 & Ht & H2 & Hu & ->). rewrite strip_prefix_app.
      rewrite bool_decide_eq_false_2 by done. rewrite split_join; [|done|].
      * rewrite bool_decide_eq_true_2 by done.
        by rewrite (proj2 (parse_by_path_inr _ (ByPath target source epoch kind))) by naive_solver.
      * apply Forall_cons in Hs as [? [? [? _]%Forall_cons]%Forall_cons].
        repeat constructor; try done; try (apply contains_char_false; reflexivity).
        apply contains_char_false. by destruct kind.
    + intros (Hs & Hu & ->). rewrite strip_prefix_app.
      rewrite bool_decide_eq_false_2 by done. rewrite split_join; [|done|].
      * rewrite bool_decide_eq_false_2, bool_decide_eq_true_2 by done.
        by rewrite (proj2 (parse_by_scope_inr _ (ByScope id))) by naive_solver.
      * repeat constructor; try done; try (apply contains_char_false; reflexivity).
Qed.

(** The hyphenated form of a UUID, as the [uuid] crate documents it. *)
Definition hyphenated (id : text) : Prop :=
  length id = 36 ∧ Forall (λ c, filter_id_char c = true ∨ c = ch "-") id.

Hypothesis uuid_hyphenated : ∀ t id, uuid_parse t = Some id → hyphenated id.

Lemma spelling_no_git l t : traces_spelling l t → strip_suffix (lit ".git") t = None.
Proof.
  assert (∀ x y s c, last s = Some c → c ≠ ch "t" →
    last y = Some s → strip_suffix (lit ".git") (x ++ join (ch "/") y) = None) as Hgo.
  { intros x y s c Hc Hne Hy. destruct (join_last (ch "/") y s Hy) as [r ->].
    apply (no_git_last _ c); [|done]. apply last_Some in Hc as [s' ->].
    rewrite !app_assoc. apply last_snoc. }
  destruct l as [target source epoch kind|id]; cbn [traces_spelling].
  - intros (e1 & e2 & _ & _ & _ & _ & _ & ->).
    destruct kind; (eapply Hgo; [| |reflexivity]; [reflexivity|done]).
  - intros (_ & Hu & ->). apply uuid_hyphenated in Hu as [Hl Hh].
    destruct (last id) as [c|] eqn:El; [|by apply last_None in El; subst].
    eapply Hgo; [exact El| |reflexivity]. intros ->. rewrite Forall_forall in Hh.
    destruct (Hh (ch "t")) as [|]; [|done..]. apply last_Some in El as [? ->]. set_solver.
Qed.
End TracesSpelling.

(** ** Lemmas: endpoints *)

Definition endpoint_suffix (e : GitProtocolEndpoint) : text :=
  match e with
  | InfoRefs => lit "/info/refs"
  | UploadPack => lit "/git-upload-pack"
  | ReceivePack => lit "/git-receive-pack"
  end.

Definition endpoint_method (e : GitProtocolEndpoint) : Method :=
  match e with InfoRefs => GET | _ => POST end.

Lemma suffixes_apart e e' prefix :
  e ≠ e' → strip_suffix (endpoint_suffix e) (prefix ++ endpoint_suffix e') = None.
Proof. intros Hne. unfold strip_suffix. rewrite reverse_app. by destruct e, e'. Qed.

Lemma endpoint_route_inr b u m e msg prefix r :
  endpoint_route b u m (endpoint_method e) msg e prefix = inr r ↔
  m = endpoint_method e ∧ ∃ loc tr, locate_http_prefix b u prefix = inr (loc, tr)
    ∧ r = mk_GitProtocolPath (normalize_repo_path prefix) loc tr e.
Proof.
  unfold endpoint_route. destruct (locate_http_prefix b u prefix) as [|[loc tr]].
  - split; [done|]. naive_solver.
  - case_bool_decide as Hm; cbn [negb]; [|naive_solver]. split; [intros [= <-]|]; naive_solver.
Qed.

(** ** Theorems *)

(** C31: a URL in the [.traces] namespace is never served as a view or as a native or
    imported repository, with a single exception: paths that resolve to [.traces]
    followed by the literal segment [...git].  Stripping [.git] twice turns that
    segment into [..], so that the check looks outside the namespace. *)
Theorem traces_isolated b u raw d :
  dispatch_repo_locator b u raw = inr d → (∀ l, d ≠ Traces l) →
  head (components (strip_git raw)) = Some (lit ".traces") →
  ∃ s, strip_git raw = s ++ lit "/...git" ∧ components s = [lit ".traces"].
Proof.
  intros Hd Hno Ht. destruct (dispatch_code_repo b u raw d Hd Hno) as [Hin _].
  apply strip_leaves_namespace; [done|]. apply not_true_iff_false in Hin.
  by rewrite in_traces_namespace_spec in Hin.
Qed.

(** The exception exists: a URL in the [.traces] namespace is dispatched as a
    native or imported repository, and the normalised path that the session keeps is
    not recognised as a traces path either. *)
Theorem traces_fall_through b u :
  in_traces_namespace (lit "//.traces/...git.git") = true
  ∧ dispatch_repo_locator b u (lit "//.traces/...git.git")
      = inr (NativeOrImport (lit "//.traces/...git"))
  ∧ parse_traces_locator b u (lit "//.traces/...git") = inr None.
Proof. vm_compute. done. Qed.

(** Traces URLs.  A path is read as a traces locator exactly when it spells that
    locator, with canonical base64 segments, UUIDs and target path; and the normalised
    path, which the session keeps in place of the URL, gives the same locator again. *)
Theorem traces_locator_exact b u :
  (∀ t id, u t = Some id → hyphenated id) →
  (∀ raw l, parse_traces_locator b u raw = inr (Some l) ↔ traces_spelling b u l (strip_git raw))
  ∧ (∀ raw l, dispatch_repo_locator b u raw = inr (Traces l) →
       parse_traces_locator b u (normalize_repo_path raw) = inr (Some l)).
Proof.
  intros Hu. split; [intros raw l; apply parse_traces_inr|]. intros raw l Hd.
  assert (parse_traces_locator b u raw = inr (Some l)) as Hp.
  { unfold dispatch_repo_locator in Hd. break_in Hd; by simplify_eq. }
  apply parse_traces_inr in Hp. apply parse_traces_inr. rewrite normalize_strip.
  pose proof (spelling_no_git b u Hu l _ Hp) as Hng.
  rewrite bool_decide_eq_false_2.
  - unfold strip_git at 1. by rewrite Hng.
  - intros He. rewrite He in Hp. destruct l; simpl in Hp; naive_solver.
Qed.

(** The routes of the smart protocol.  A request is routed exactly when its path
    ends in one of the three endpoints, has that endpoint's method, is not the reserved
    root repository, and the path before the endpoint locates a repository; the
    repository path is that prefix with one [.git] removed, the root when nothing is
    left. *)
Theorem routes_exact b u m path r :
  parse_git_protocol_path b u m path = inr r ↔
  is_disallowed_root_repo_path path = false
  ∧ ∃ prefix, path = prefix ++ endpoint_suffix (endpoint r)
    ∧ m = endpoint_method (endpoint r)
    ∧ locate_http_prefix b u prefix = inr (locator r, traces r)
    ∧ repo_path r = if bool_decide (strip_git prefix = []) then lit "/" else strip_git prefix.
Proof.
  setoid_rewrite <-normalize_strip.
  unfold parse_git_protocol_path. destruct (is_disallowed_root_repo_path path); [naive_solver|].
  assert (∀ e prefix msg,
    path = prefix ++ endpoint_suffix e →
    endpoint_route b u m (endpoint_method e) msg e prefix = inr r ↔
    false = false ∧ ∃ prefix, path = prefix ++ endpoint_suffix (endpoint r)
      ∧ m = endpoint_method (endpoint r)
      ∧ locate_http_prefix b u prefix = inr (locator r, traces r)
      ∧ repo_path r = normalize_repo_path prefix) as Hgo.
  { intros e prefix msg ->. rewrite endpoint_route_inr. destruct r as [rp loc tr e']; simpl. split.
    - intros (Hm & loc' & tr' & Hl & [= -> -> -> ->]). eauto 10.
    - intros (_ & prefix' & Hp & Hm & Hl & ->). destruct (decide (e = e')) as [<-|Hne].
      + apply app_inv_tail in Hp as <-. eauto 10.
      + pose proof (suffixes_apart e e' prefix' Hne) as Hn. rewrite <-Hp in Hn.
        by rewrite (proj2 (strip_suffix_Some _ _ prefix) eq_refl) in Hn. }
  assert (∀ e, strip_suffix (endpoint_suffix e) path = None →
    ∀ prefix, path ≠ prefix ++ endpoint_suffix e) as Hno.
  { intros e He prefix Hp. apply strip_suffix_Some in Hp. congruence. }
  destruct (strip_suffix (lit "/info/refs") path) as [p|] eqn:E1.
  { apply strip_suffix_Some in E1. by apply (Hgo InfoRefs). }
  destruct (strip_suffix (lit "/git-upload-pack") path) as [p|] eqn:E2.
  { apply strip_suffix_Some in E2. by apply (Hgo UploadPack). }
  destruct (strip_suffix (lit "/git-receive-pack") path) as [p|] eqn:E3.
  { apply strip_suffix_Some in E3. by apply (Hgo ReceivePack). }
  split; [done|]. intros (_ & prefix & Hp & _). exfalso.
  destruct (endpoint r); [apply (Hno InfoRefs E1 _ Hp)|apply (Hno UploadPack E2 _ Hp)|
    apply (Hno ReceivePack E3 _ Hp)].
Qed.

(** View URLs.  Every valid locator (a name with an optional version from 1 to
    2^32 - 1, or a filter identifier of 64 lower-case hexadecimal digits) is read back
    from its URL, with and without [.git]; and whatever is dispatched as a view is a
    valid locator spelled that way, after any number of slashes. *)
Theorem view_locator_exact b u :
  (∀ v t suffix, view_ok v → view_spelling v t → suffix = [] ∨ suffix = lit ".git" →
     dispatch_repo_locator b u (lit "/" ++ t ++ suffix) = inr (View v))
  ∧ (∀ raw v, dispatch_repo_locator b u raw = inr (View v) →
     view_ok v ∧ ∃ slashes t, view_spelling v t ∧ Forall (λ c, is_slash c = true) slashes
                              ∧ strip_git raw = slashes ++ t).
Proof.
  split.
  - intros v t suffix Hok Ht Hsuf.
    assert (∀ first rest v, first ∈ VIEW_URL_RESERVED_NAMES →
      Forall (λ s, s ≠ lit "..") (split_on (ch "/") rest) → strip_suffix (lit ".git") rest = None →
      reserved_locator first rest = inr (RepoView v) →
      dispatch_repo_locator b u (lit "/" ++ (first ++ ch "/" :: rest) ++ suffix) = inr (View v)) as Hgo.
    { intros first rest v' Hf Hdd Hng Hr.
      destruct (view_url_dispatch b u first rest suffix Hf Hdd Hng Hsuf) as [Hs ->].
      by rewrite (classify_reserved _ first rest Hf Hs), Hr. }
    destruct v as [name [k|]|id]; cbn [view_ok view_spelling from_option] in Hok, Ht.
    + destruct Hok as [Hv Hk], Ht as (ds & Hne & Hd & Hp & ->).
      apply Hgo; [by left| | |by apply reserved_versioned; [..|lia]].
      * by apply versioned_segments.
      * by apply versioned_no_git.
    + destruct Hok as [Hv _]. subst t. destruct (valid_name name Hv) as [Hf Hng].
      apply Hgo; [by left| |done|by apply reserved_named]. eapply Forall_impl; [exact Hf|]. naive_solver.
    + destruct Hok as [Hl Hh]. subst t.
      apply Hgo; [by right; left|by apply filter_id_segments|by apply filter_id_no_git|by apply reserved_filter].
  - intros raw v Hd. destruct (dispatch_code_repo b u raw _ Hd) as [_ Hc]; [done|].
    by apply classify_view_sound.
Qed.

(** ** Witnesses *)

Definition demo_uuid : text := lit "0123abcd-0000-4000-8000-00000000000f".

Definition demo_uuid_parse (t : text) : option text :=
  if bool_decide (t = demo_uuid) then Some demo_uuid else None.

Lemma demo_uuid_hyphenated t id : demo_uuid_parse t = Some id → hyphenated id.
Proof.
  unfold demo_uuid_parse. case_bool_decide; [|done]. intros [= <-]. split; [done|].
  apply Forall_forall. intros c Hc.
  assert (forallb (λ c, filter_id_char c || N.eqb c (ch "-")) demo_uuid = true) as Hall by reflexivity.
  rewrite forallb_forall in Hall. apply list_elem_of_In, Hall, orb_true_iff in Hc.
  by rewrite N.eqb_eq in Hc.
Qed.

Lemma traces_isolated_witness :
  ∃ s, lit "//.traces/...git" = s ++ lit "/...git" ∧ components s = [lit ".traces"].
Proof.
  apply (traces_isolated (λ _, None) (λ _, None) (lit "//.traces/...git.git")
    (NativeOrImport (lit "//.traces/...git"))); [vm_compute; reflexivity|done|reflexivity].
Defined.

Lemma traces_locator_exact_witness :
  parse_traces_locator (λ _, None) demo_uuid_parse
    (normalize_repo_path (lit "/.traces/by-scope/" ++ demo_uuid ++ lit ".git"))
  = inr (Some (ByScope demo_uuid)).
Proof.
  apply (traces_locator_exact (λ _, None) demo_uuid_parse demo_uuid_hyphenated).
  vm_compute. reflexivity.
Defined.

Lemma view_locator_exact_witness :
  dispatch_repo_locator (λ _, None) (λ _, None) (lit "/.view/team/app@12.git")
  = inr (View (Named (lit "team/app") (Some 12%N))).
Proof.
  apply (proj1 (view_locator_exact (λ _, None) (λ _, None))
    (Named (lit "team/app") (Some 12%N)) (lit ".view/team/app@12") (lit ".git")).
  - split; [reflexivity|]. simpl. unfold u32_max. lia.
  - exists (lit "12"). done.
  - by right.
Defined.

Lemma routes_exact_witness :
  parse_git_protocol_path (λ _, None) (λ _, None) POST (lit "/project/app.git/git-upload-pack")
  = inr (mk_GitProtocolPath (lit "/project/app") (RepoPath (lit "/project/app")) None UploadPack).
Proof.
  apply (routes_exact (λ _, None) (λ _, None)). split; [reflexivity|].
  exists (lit "/project/app.git"). repeat split; vm_compute; reflexivity.
Defined.
