(* ===== verification/CanonicalJson.v ===== *)
(** * Canonical JSON (RFC 8785)

    Models [src/common/canonical_json.rs]: the strict JSON parser, the canonical
    writer and the ECMAScript number format.  A parser state holds what is left of
    the input and the nesting depth; its functions have fuel, which is proved
    sufficient in JsonSpelling.v.  An [f64] is a [spec_float] of the Standard
    Library, and reading one from a string is the correctly rounded conversion of
    the decimal.  The shortest decimal of a float (crate [ryu]) and SHA-256 (crates
    [sha2] and [hex]) are parameters. *)
From Stdlib Require Import SpecFloat.
From stdpp Require Import base strings sets numbers tactics list.
From S2P Require Import Prelude Text.

(** ** Values and errors *)

#[local] Set Warnings "-register-all".

Inductive Canonical :=
  | Null
  | Bool (b : bool)
  | Number (n : text)
  | String (s : text)
  | Array (items : list Canonical)
  | Object (members : list (text * Canonical)).

Inductive JsonError :=
  | Reject (msg : text)
  | RejectDuplicate (key : text)
  | RejectNan
  | RejectInfinity
  | RejectOverflow (lexeme : text).

Definition MAX_NESTING : nat := 128.

(** ** Writing *)

Definition hex_digit (d : N) : N := (if d <? 10 then 48 + d else 87 + d)%N.

(** [write!(out, "\\u{:04x}", c)] for [c < 0x10000] *)
Definition unicode_escape (c : N) : text :=
  [backslash; ch "u"; hex_digit ((c `div` 4096) `mod` 16); hex_digit ((c `div` 256) `mod` 16);
   hex_digit ((c `div` 16) `mod` 16); hex_digit (c `mod` 16)]%N.

Definition write_json_char (c : N) : text :=
  if N.eqb c dquote then [backslash; dquote]
  else if N.eqb c backslash then [backslash; backslash]
  else if N.eqb c 8 then [backslash; ch "b"]
  else if N.eqb c 9 then [backslash; ch "t"]
  else if N.eqb c 10 then [backslash; ch "n"]
  else if N.eqb c 12 then [backslash; ch "f"]
  else if N.eqb c 13 then [backslash; ch "r"]
  else if N.ltb c 32 then unicode_escape c
  else [c].

Definition write_json_string (s : text) : text :=
  dquote :: (s ≫= write_json_char) ++ [dquote].

(** The separators between the items: [if i > 0 { out.push(',') }]. *)
Fixpoint write_jcs (v : Canonical) : text :=
  match v with
  | Null => lit "null"
  | Bool true => lit "true"
  | Bool false => lit "false"
  | Number n => n
  | String s => write_json_string s
  | Array items => ch "[" :: join (ch ",") (map write_jcs items) ++ [ch "]"]
  | Object members =>
      ch "{" :: join (ch ",")
        (map (λ kv, write_json_string (fst kv) ++ ch ":" :: write_jcs (snd kv)) members) ++ [ch "}"]
  end.

(** [str::encode_utf16] *)
Definition utf16_char (c : N) : list N :=
  (if c <? 65536 then [c]
   else [55296 + (c - 65536) `div` 1024; 56320 + (c - 65536) `mod` 1024])%N.

Definition encode_utf16 (s : text) : list N := s ≫= utf16_char.

(** ** Numbers *)

Fixpoint digits_value_from (acc : N) (ds : text) : N :=
  match ds with
  | [] => acc
  | d :: ds => digits_value_from (acc * 10 + (d - 48)) ds
  end.

Definition digits_value : text → N := digits_value_from 0.

(** [{}] of an integer *)
Fixpoint print_digits (fuel : nat) (n : N) (acc : text) : text :=
  match fuel with
  | O => acc
  | S fuel =>
      let acc := (48 + n `mod` 10)%N :: acc in
      if (n <? 10)%N then acc else print_digits fuel (n `div` 10)%N acc
  end.

Definition print_N (n : N) : text := print_digits (S (N.to_nat (N.size n))) n [].

Definition print_Z (z : Z) : text :=
  if (z <? 0)%Z then ch "-" :: print_N (Z.to_N (- z)) else print_N (Z.to_N z).

(** The [f64] nearest to [digits * 10^e], ties to even. *)
Definition round_f64 (negative : bool) (digits : N) (e : Z) : spec_float :=
  match digits with
  | N0 => S754_zero negative
  | Npos m =>
      if (0 <=? e)%Z
      then binary_normalize 53 1024 (cond_Zopp negative (Zpos m * 10 ^ e)) 0 negative
      else SFdiv 53 1024 (S754_finite negative m 0) (S754_finite false (Z.to_pos (10 ^ (- e))) 0)
  end.

Definition is_e (c : N) : bool := N.eqb c (ch "e") || N.eqb c (ch "E").
Definition is_zero_digit (c : N) : bool := N.eqb c (ch "0").

(** The longest prefix of the characters that satisfy [P], and the rest. *)
Fixpoint take_while (P : N → bool) (s : text) : text * text :=
  match s with
  | c :: s' => if P c then let '(a, b) := take_while P s' in (c :: a, b) else ([], s)
  | [] => ([], [])
  end.

(** A decimal: sign, integer digits, fraction digits and exponent. *)
Definition decimal_exponent (s : text) : option Z :=
  match s with
  | [] => Some 0%Z
  | c :: s =>
      if is_e c then
        let '(neg, ds) :=
          match s with
          | d :: s' => if N.eqb d (ch "-") then (true, s')
                       else if N.eqb d (ch "+") then (false, s') else (false, s)
          | [] => (false, s)
          end in
        if bool_decide (ds = []) || negb (forallb is_ascii_digit ds) then None
        else Some (if neg then - Z.of_N (digits_value ds) else Z.of_N (digits_value ds))%Z
      else None
  end.

(** The significant digits of a decimal and the exponent of their last digit:
    [int.frac * 10^e] without zeros at either end. *)
Definition significant (int frac : text) (e : Z) : text * Z :=
  let ds := trim_start_matches is_zero_digit (int ++ frac) in
  let ds' := trim_end_matches is_zero_digit ds in
  (ds', e - Z.of_nat (length frac) + Z.of_nat (length ds - length ds'))%Z.

(** [str::parse::<f64>] on decimal numbers; [None] is an error. *)
Definition parse_f64 (s : text) : option spec_float :=
  let '(neg, s) :=
    match s with
    | c :: s' => if N.eqb c (ch "-") then (true, s') else (false, s)
    | [] => (false, s)
    end in
  let '(int, s) := take_while is_ascii_digit s in
  let '(frac, s) :=
    match s with
    | c :: s' => if N.eqb c (ch ".") then take_while is_ascii_digit s' else ([], s)
    | [] => ([], s)
    end in
  if bool_decide (int ++ frac = []) then None
  else e ← decimal_exponent s;
       let '(ds, e') := significant int frac e in
       Some (round_f64 neg (digits_value ds) e').

(** [str::parse::<i32>] *)
Definition parse_i32 (s : text) : option Z :=
  let '(neg, ds) :=
    match s with
    | c :: s' => if N.eqb c (ch "-") then (true, s')
                 else if N.eqb c (ch "+") then (false, s') else (false, s)
    | [] => (false, s)
    end in
  if bool_decide (ds = []) || negb (forallb is_ascii_digit ds) then None
  else let v := (if neg then - Z.of_N (digits_value ds) else Z.of_N (digits_value ds))%Z in
       if ((-2147483648 <=? v) && (v <=? 2147483647))%Z then Some v else None.

(** [s.find(..)] and the two slices around the character found. *)
Fixpoint find_split (P : N → bool) (s : text) : option (text * text) :=
  match s with
  | [] => None
  | c :: s' => if P c then Some ([], s') else '(a, b) ← find_split P s'; Some (c :: a, b)
  end.

Definition coeff_to_digits (coeff : text) : text * Z :=
  match find_split (N.eqb (ch ".")) coeff with
  | Some (int_part, frac) =>
      if bool_decide (int_part = []) || bool_decide (int_part = lit "0") then
        let leading_zeros := length (fst (take_while is_zero_digit frac)) in
        let digits := trim_end_matches is_zero_digit (drop leading_zeros frac) in
        let digits := if bool_decide (digits = []) then lit "0" else digits in
        (digits, - (Z.of_nat leading_zeros + 1))%Z
      else
        (trim_end_matches is_zero_digit (int_part ++ frac), Z.of_nat (length int_part) - 1)%Z
  | None =>
      let digits := trim_start_matches is_zero_digit coeff in
      let digits := if bool_decide (digits = []) then lit "0" else digits in
      (digits, Z.of_nat (length digits) - 1)%Z
  end.

Definition parse_shortest_decimal (rendered : text) : bool * text * Z :=
  let '(negative, body) :=
    match strip_prefix (lit "-") rendered with
    | Some rest => (true, rest)
    | None => (false, rendered)
    end in
  let '(coeff, exp_from_e) :=
    match find_split is_e body with
    | Some (coeff, e) =>
        (coeff, default 0%Z (parse_i32 (trim_start_matches (N.eqb (ch "+")) e)))
    | None => (body, 0%Z)
    end in
  let '(digits, coeff_exp) := coeff_to_digits coeff in
  (negative, digits, (coeff_exp + exp_from_e)%Z).

Definition es6_format (negative : bool) (digits : text) (e : Z) : text :=
  let k := Z.of_nat (length digits) in
  let sign := if negative then lit "-" else [] in
  if negb ((-6 <=? e) && (e <? 21))%Z then
    sign ++ take 1 digits ++ (if (1 <? k)%Z then ch "." :: drop 1 digits else [])
      ++ lit "e" ++ (if (0 <=? e)%Z then lit "+" else []) ++ print_Z e
  else if (0 <=? e)%Z then
    let int_digits := (e + 1)%Z in
    if (k <=? int_digits)%Z then
      sign ++ digits ++ replicate (Z.to_nat (int_digits - k)) (ch "0")
    else
      let point := Z.to_nat int_digits in
      sign ++ take point digits ++ lit "." ++ drop point digits
  else sign ++ lit "0." ++ replicate (Z.to_nat (- e - 1)) (ch "0") ++ digits.

(** ** Parsing *)

Record Parser := mk_Parser { rest : text; depth : nat }.

Definition with_rest (p : Parser) (r : text) : Parser := mk_Parser r (depth p).

Definition peek (p : Parser) : option N := head (rest p).

Definition bump (p : Parser) : Parser := with_rest p (tail (rest p)).

Definition is_json_ws (c : N) : bool :=
  N.eqb c (ch " ") || N.eqb c 9 || N.eqb c 10 || N.eqb c 13.

Definition skip_ws (p : Parser) : Parser := with_rest p (trim_start_matches is_json_ws (rest p)).

(** The result of a parsing step, with [?]. *)
Inductive parsed (A : Type) :=
  | JOk (a : A) (p : Parser)
  | JErr (e : JsonError)
  | JNoFuel.
Arguments JOk {A} a p.
Arguments JErr {A} e.
Arguments JNoFuel {A}.

Definition jbind {A B} (m : parsed A) (k : A → Parser → parsed B) : parsed B :=
  match m with
  | JOk a p => k a p
  | JErr e => JErr e
  | JNoFuel => JNoFuel
  end.

Declare Scope json_scope.
Notation "'let+' ( a , p ) := m 'in' k" := (jbind m (λ a p, k))
  (at level 10, a name, p name, k at level 200) : json_scope.
Local Open Scope json_scope.

Definition reject {A} (msg : text) : parsed A := JErr (Reject msg).

Definition parse_literal (literal : text) (value : Canonical) (p : Parser) : parsed Canonical :=
  match strip_prefix literal (rest p) with
  | Some r => JOk value (with_rest p r)
  | None => reject (lit "unexpected token")
  end.

Definition enter_nesting (p : Parser) : parsed unit :=
  if MAX_NESTING <=? depth p then reject (lit "JSON nesting exceeds 128")
  else JOk () (mk_Parser (rest p) (S (depth p))).

Definition leave_nesting (p : Parser) : Parser := mk_Parser (rest p) (depth p - 1).

Definition hex_value (b : N) : option N :=
  if in_range 48 57 b then Some (b - 48)%N
  else if in_range 97 102 b then Some (b - 97 + 10)%N
  else if in_range 65 70 b then Some (b - 65 + 10)%N
  else None.

Fixpoint hex_units (unit : N) (bytes : text) : option N :=
  match bytes with
  | [] => Some unit
  | b :: bytes =>
      match hex_value b with
      | Some digit => hex_units (N.lor (N.shiftl unit 4) digit) bytes
      | None => None
      end
  end.

Definition take_hex4 (p : Parser) : parsed N :=
  if length (rest p) <? 4 then reject (lit "invalid unicode escape")
  else match hex_units 0 (take 4 (rest p)) with
       | Some unit => JOk unit (with_rest p (drop 4 (rest p)))
       | None => reject (lit "invalid unicode escape")
       end.

(** [char::from_u32] *)
Definition char_from_u32 (c : N) : option N := if is_scalar c then Some c else None.

Definition parse_hex_escape (p : Parser) : parsed N :=
  let+ (unit, p1) := take_hex4 p in
  if in_range 55296 56319 unit then
    match strip_prefix [backslash; ch "u"] (rest p1) with
    | Some r =>
        let+ (low, p2) := take_hex4 (with_rest p1 r) in
        if in_range 56320 57343 low then
          let cp := (65536 + N.shiftl (unit - 55296) 10 + (low - 56320))%N in
          match char_from_u32 cp with
          | Some c => JOk c p2
          | None => reject (lit "invalid surrogate pair")
          end
        else reject (lit "unpaired UTF-16 surrogate")
    | None => reject (lit "unpaired UTF-16 surrogate")
    end
  else if in_range 56320 57343 unit then reject (lit "unpaired UTF-16 surrogate")
  else match char_from_u32 unit with
       | Some c => JOk c p1
       | None => reject (lit "invalid unicode escape")
       end.

(** The escapes of one letter. *)
Definition simple_escape (c : N) : option N :=
  if N.eqb c dquote then Some dquote
  else if N.eqb c backslash then Some backslash
  else if N.eqb c (ch "/") then Some (ch "/")
  else if N.eqb c (ch "b") then Some 8%N
  else if N.eqb c (ch "f") then Some 12%N
  else if N.eqb c (ch "n") then Some 10%N
  else if N.eqb c (ch "r") then Some 13%N
  else if N.eqb c (ch "t") then Some 9%N
  else None.

Definition parse_escape (p : Parser) : parsed N :=
  match rest p with
  | [] => reject (lit "unterminated string escape")
  | c :: _ =>
      let p := bump p in
      match simple_escape c with
      | Some c' => JOk c' p
      | None =>
          if N.eqb c (ch "u") then parse_hex_escape p
          else reject (lit "invalid string escape")
      end
  end.

(** The loop of [parse_string], after the opening quote. *)
Fixpoint string_loop (fuel : nat) (out : text) (p : Parser) : parsed text :=
  match fuel with
  | O => JNoFuel
  | S fuel =>
      match rest p with
      | [] => reject (lit "unterminated string")
      | c :: _ =>
          if N.eqb c dquote then JOk out (bump p)
          else if N.eqb c backslash then
            let+ (c', p1) := parse_escape (bump p) in
            string_loop fuel (out ++ [c']) p1
          else if N.ltb c 32 then reject (lit "unescaped control character in string")
          else string_loop fuel (out ++ [c]) (bump p)
      end
  end.

Definition parse_string (p : Parser) : parsed text :=
  string_loop (S (length (rest p))) [] (bump p).

(** [while matches!(self.peek(), Some(b'0'..=b'9')) { self.index += 1 }]: the digits
    taken and what is left. *)
Definition take_digits : text → text * text := take_while is_ascii_digit.

(** The lexeme of a number and what is left, or the message of the error.  [lexeme]
    is [&self.input[start..self.index]]. *)
Definition number_sign (s : text) : text * text :=
  match s with
  | c :: s' => if N.eqb c (ch "-") then ([c], s') else ([], s)
  | [] => ([], s)
  end.

Definition number_int (s : text) : text + (text * text) :=
  match s with
  | c :: s' =>
      if N.eqb c (ch "0") then
        if from_option is_ascii_digit false (head s') then inl (lit "leading zeros are not allowed")
        else inr ([c], s')
      else if in_range 49 57 c then let '(ds, r) := take_digits s' in inr (c :: ds, r)
      else inl (lit "invalid number")
  | [] => inl (lit "invalid number")
  end.

Definition number_frac (s : text) : text + (text * text) :=
  match s with
  | c :: s' =>
      if N.eqb c (ch ".") then
        if negb (from_option is_ascii_digit false (head s')) then inl (lit "invalid number fraction")
        else let '(ds, r) := take_digits s' in inr (c :: ds, r)
      else inr ([], s)
  | [] => inr ([], s)
  end.

Definition number_exp (s : text) : text + (text * text) :=
  match s with
  | c :: s' =>
      if is_e c then
        let '(sign, s'') :=
          match s' with
          | d :: t => if N.eqb d (ch "+") || N.eqb d (ch "-") then ([d], t) else ([], s')
          | [] => ([], s')
          end in
        if negb (from_option is_ascii_digit false (head s'')) then inl (lit "invalid number exponent")
        else let '(ds, r) := take_digits s'' in inr (c :: sign ++ ds, r)
      else inr ([], s)
  | [] => inr ([], s)
  end.

Definition number_lexeme (s : text) : text + (text * text) :=
  let '(sign, s0) := number_sign s in
  match number_int s0 with
  | inl e => inl e
  | inr (int, s1) =>
      match number_frac s1 with
      | inl e => inl e
      | inr (frac, s2) =>
          match number_exp s2 with
          | inl e => inl e
          | inr (exp, s3) => inr (sign ++ int ++ frac ++ exp, s3)
          end
      end
  end.

Section Json.
(** [ryu::Buffer::format_finite] *)
Variable format_finite : spec_float → text.

Definition es6_number_to_string (n : spec_float) : text :=
  let '(negative, digits, first_digit_exp) := parse_shortest_decimal (format_finite n) in
  es6_format negative digits first_digit_exp.

Definition number_from_f64 (n : spec_float) (lexeme : text) : JsonError + text :=
  match n with
  | S754_nan => inl RejectNan
  | S754_infinity _ => inl (RejectOverflow lexeme)
  | S754_zero _ => inr (lit "0")
  | S754_finite _ _ _ => inr (es6_number_to_string n)
  end.

Definition parse_number (p : Parser) : parsed Canonical :=
  match number_lexeme (rest p) with
  | inl e => reject e
  | inr (lexeme, r) =>
      match parse_f64 lexeme with
      | None => JErr (RejectOverflow lexeme)
      | Some n =>
          match number_from_f64 n lexeme with
          | inl e => JErr e
          | inr t => JOk (Number t) (with_rest p r)
          end
      end
  end.

(** The order of the members: [a.0.encode_utf16().cmp(b.0.encode_utf16())]. *)
Definition sort_members (members : list (text * Canonical)) : list (text * Canonical) :=
  sort_by (λ kv, encode_utf16 (fst kv)) (lex_compare N.compare) members.

(** [parse_array] and [parse_object] are inlined in [parse_value]; [array_loop] and
    [object_loop] are the loops of their bodies. *)
Fixpoint parse_value (fuel : nat) (p : Parser) {struct fuel} : parsed Canonical :=
  match fuel with
  | O => JNoFuel
  | S fuel =>
    let p := skip_ws p in
    match peek p with
    | None => reject (lit "unexpected end of input")
    | Some c =>
      if N.eqb c (ch "n") then parse_literal (lit "null") Null p
      else if N.eqb c (ch "t") then parse_literal (lit "true") (Bool true) p
      else if N.eqb c (ch "f") then parse_literal (lit "false") (Bool false) p
      else if N.eqb c (ch "N") then
        if starts_with (lit "NaN") (rest p) then JErr RejectNan else reject (lit "unexpected token")
      else if N.eqb c (ch "I") then
        if starts_with (lit "Infinity") (rest p) then JErr RejectInfinity
        else reject (lit "unexpected token")
      else if N.eqb c dquote then
        let+ (s, p1) := parse_string p in JOk (String s) p1
      else if N.eqb c (ch "[") then
        let+ (_u, p1) := enter_nesting p in
        let p2 := skip_ws (bump p1) in
        let+ (items, p3) :=
          if bool_decide (peek p2 = Some (ch "]")) then JOk [] (bump p2)
          else array_loop fuel [] p2 in
        JOk (Array items) (leave_nesting p3)
      else if N.eqb c (ch "{") then
        let+ (_u, p1) := enter_nesting p in
        let p2 := skip_ws (bump p1) in
        let+ (members, p3) :=
          if bool_decide (peek p2 = Some (ch "}")) then JOk [] (bump p2)
          else object_loop fuel [] p2 in
        JOk (Object (sort_members members)) (leave_nesting p3)
      else if N.eqb c (ch "-") && starts_with (lit "-Infinity") (rest p) then JErr RejectInfinity
      else if N.eqb c (ch "-") || is_ascii_digit c then parse_number p
      else reject (lit "unexpected token")
    end
  end
with array_loop (fuel : nat) (items : list Canonical) (p : Parser) {struct fuel}
    : parsed (list Canonical) :=
  match fuel with
  | O => JNoFuel
  | S fuel =>
    let+ (v, p1) := parse_value fuel p in
    let items := items ++ [v] in
    let p2 := skip_ws p1 in
    if bool_decide (peek p2 = Some (ch ",")) then array_loop fuel items (bump p2)
    else if bool_decide (peek p2 = Some (ch "]")) then JOk items (bump p2)
    else reject (lit "expected ',' or ']' in array")
  end
with object_loop (fuel : nat) (members : list (text * Canonical)) (p : Parser) {struct fuel}
    : parsed (list (text * Canonical)) :=
  match fuel with
  | O => JNoFuel
  | S fuel =>
    let p1 := skip_ws p in
    if negb (bool_decide (peek p1 = Some dquote)) then reject (lit "expected object key")
    else
      let+ (key, p2) := parse_string p1 in
      if bool_decide (key ∈ map fst members) then JErr (RejectDuplicate key)
      else
        let p3 := skip_ws p2 in
        if negb (bool_decide (peek p3 = Some (ch ":"))) then
          reject (lit "expected ':' after object key")
        else
          let+ (value, p4) := parse_value fuel (bump p3) in
          let members := members ++ [(key, value)] in
          let p5 := skip_ws p4 in
          if bool_decide (peek p5 = Some (ch ",")) then object_loop fuel members (bump p5)
          else if bool_decide (peek p5 = Some (ch "}")) then JOk members (bump p5)
          else reject (lit "expected ',' or '}' in object")
  end.

(** ** Canonical form *)

Definition json_fuel (s : text) : nat := S (2 * length s).

Definition canonicalize (json_text : text) : outcome JsonError text :=
  match parse_value (json_fuel json_text) (mk_Parser json_text 0) with
  | JOk value p =>
      if bool_decide (rest (skip_ws p) = []) then Ok (write_jcs value)
      else Err (Reject (lit "trailing data after JSON value"))
  | JErr e => Err e
  | JNoFuel => OutOfFuel
  end.

(** SHA-256 of the bytes, in hexadecimal *)
Variable sha256_hex : list N → text.

Definition fingerprint (json_text : text) : outcome JsonError text :=
  match canonicalize json_text with
  | Ok canonical => Ok (sha256_hex (utf8 canonical))
  | Err e => Err e
  | Panic => Panic
  | OutOfFuel => OutOfFuel
  end.
End Json.
