(* ===== verification/JsonNumbers.v ===== *)
(** * Canonical JSON: numbers

    The decimal texts the JSON grammar accepts, what [number_lexeme] and [parse_f64]
    read from them, and the ECMAScript format: the text written for a number is a JSON
    number and reads back as the same [f64]. *)
From Stdlib Require Import SpecFloat.
From stdpp Require Import base strings sets numbers tactics list.
From S2P Require Import Prelude Text CanonicalJson.

#[local] Ltac Zify.zify_post_hook ::= Z.to_euclidean_division_equations.

(** ** Decimal texts *)

(** An exponent: the letter, an optional sign and the digits. *)
Record exponent := mk_exponent { exp_letter : N; exp_sign : text; exp_digits : text }.

Definition digits_ok (ds : text) : Prop := Forall (λ c, is_ascii_digit c = true) ds.

Definition exponent_ok (x : exponent) : Prop :=
  is_e (exp_letter x) = true
  ∧ (exp_sign x = [] ∨ exp_sign x = lit "+" ∨ exp_sign x = lit "-")
  ∧ exp_digits x ≠ [] ∧ digits_ok (exp_digits x).

Definition sign_text (negative : bool) : text := if negative then lit "-" else [].
Definition frac_text (frac : text) : text := if bool_decide (frac = []) then [] else ch "." :: frac.
Definition exp_text (x : option exponent) : text :=
  match x with
  | Some x => exp_letter x :: exp_sign x ++ exp_digits x
  | None => []
  end.

Definition exp_value (x : option exponent) : Z :=
  match x with
  | Some x =>
      let v := Z.of_N (digits_value (exp_digits x)) in
      if bool_decide (exp_sign x = lit "-") then (- v)%Z else v
  | None => 0%Z
  end.

Definition decimal_text (negative : bool) (int frac : text) (x : option exponent) : text :=
  sign_text negative ++ int ++ frac_text frac ++ exp_text x.

(** The integer part: zero, or digits that do not start with zero. *)
Definition int_ok (int : text) : Prop :=
  int = lit "0" ∨ ∃ d ds, int = d :: ds ∧ in_range 49 57 d = true ∧ digits_ok ds.

Definition decimal_ok (int frac : text) (x : option exponent) : Prop :=
  int_ok int ∧ digits_ok frac ∧ from_option exponent_ok True x.

(** What may follow a number: nothing that would continue it. *)
Definition number_end (r : text) : Prop :=
  ∀ c, head r = Some c → is_ascii_digit c = false ∧ c ≠ ch "." ∧ is_e c = false.

(** ** Reading decimal texts *)

Lemma take_while_app P a b :
  Forall (λ c, P c = true) a → (∀ c, head b = Some c → P c = false) →
  take_while P (a ++ b) = (a, b).
Proof.
  intros Ha Hb. induction Ha as [|c a Hc _ IH]; simpl.
  - destruct b as [|c b]; [done|]. simpl. by rewrite (Hb c eq_refl).
  - by rewrite Hc, IH.
Qed.

Lemma take_while_spec P s a b :
  take_while P s = (a, b) →
  s = a ++ b ∧ Forall (λ c, P c = true) a ∧ (∀ c, head b = Some c → P c = false).
Proof.
  revert a b. induction s as [|c s IH]; intros a b; simpl.
  - intros [= <- <-]. split; [done|]. split; [constructor|done].
  - destruct (P c) eqn:E.
    + destruct (take_while P s) as [a' b'] eqn:Et. intros [= <- <-].
      destruct (IH a' b' eq_refl) as (-> & Ha & Hb). split; [done|]. split; [by constructor|done].
    + intros [= <- <-]. split; [done|]. split; [constructor|]. intros d [= <-]. done.
Qed.

Lemma int_ok_digits int : int_ok int → int ≠ [] ∧ digits_ok int.
Proof.
  intros [->|(d & ds & -> & Hd & Hds)]; (split; [done|]); [by repeat constructor|].
  constructor; [|done]. unfold is_ascii_digit, in_range in *.
  rewrite andb_true_iff, !N.leb_le in *. lia.
Qed.

Lemma digit_not_e c : is_ascii_digit c = true → is_e c = false ∧ c ≠ ch "." ∧ c ≠ ch "-" ∧ c ≠ ch "+".
Proof.
  unfold is_ascii_digit, in_range, is_e. rewrite andb_true_iff, !N.leb_le, orb_false_iff, !N.eqb_neq.
  unfold ch. simpl. lia.
Qed.

Lemma e_not_digit c : is_e c = true → is_ascii_digit c = false ∧ c ≠ ch ".".
Proof.
  unfold is_e. rewrite orb_true_iff, !N.eqb_eq. by intros [->| ->].
Qed.

(** The head of what follows the digits of a number. *)
Lemma exp_text_head x c :
  from_option exponent_ok True x → head (exp_text x) = Some c → is_e c = true.
Proof. destruct x as [x|]; simpl; [|done]. intros [H _] [= <-]. done. Qed.

Lemma frac_exp_head frac x r c :
  from_option exponent_ok True x → number_end r →
  head (frac_text frac ++ exp_text x ++ r) = Some c → is_ascii_digit c = false.
Proof.
  intros Hx Hr. unfold frac_text. case_bool_decide.
  - destruct x as [x|]; simpl.
    + destruct Hx as [He _]. intros [= <-]. by apply e_not_digit.
    + intros Hc. by apply (Hr c).
  - simpl. by intros [= <-].
Qed.

Lemma number_sign_ok negative int t :
  int_ok int → number_sign (sign_text negative ++ int ++ t) = (sign_text negative, int ++ t).
Proof.
  intros Hi. destruct negative; [done|].
  destruct (int_ok_digits int Hi) as [Hne Hd]. destruct int as [|c int]; [done|].
  apply Forall_cons in Hd as [Hc _]. cbn. apply digit_not_e in Hc as (_ & _ & Hc & _).
  by rewrite (proj2 (N.eqb_neq c _)).
Qed.

Lemma number_int_ok int t :
  int_ok int → (∀ c, head t = Some c → is_ascii_digit c = false) →
  number_int (int ++ t) = inr (int, t).
Proof.
  intros Hi Ht. destruct Hi as [->|(d & ds & -> & Hd & Hds)].
  - cbn. destruct t as [|c t]; [done|]. cbn. by rewrite (Ht c eq_refl).
  - cbn [app number_int]. destruct (N.eqb_spec d (ch "0")) as [->|_]; [done|].
    rewrite Hd. unfold take_digits. by rewrite take_while_app.
Qed.

Lemma number_frac_ok frac x r :
  digits_ok frac → from_option exponent_ok True x → number_end r →
  number_frac (frac_text frac ++ exp_text x ++ r) = inr (frac_text frac, exp_text x ++ r).
Proof.
  intros Hf Hx Hr. unfold frac_text. case_bool_decide as E.
  - assert (∀ c, head (exp_text x ++ r) = Some c → c ≠ ch ".") as Hne.
    { intros c. destruct x as [x|]; simpl; [|by apply Hr]. intros [= <-].
      destruct Hx as [He _]. by apply e_not_digit. }
    cbn [app]. destruct (exp_text x ++ r) as [|c t]; [done|]. cbn.
    by rewrite (proj2 (N.eqb_neq c _)) by by apply Hne.
  - cbn [app number_frac]. rewrite N.eqb_refl.
    destruct frac as [|d frac]; [done|]. pose proof Hf as Hf'. apply Forall_cons in Hf' as [Hd _].
    change ((d :: frac) ++ exp_text x ++ r) with (d :: frac ++ exp_text x ++ r). cbn [head from_option].
    rewrite Hd. cbn [negb]. change (d :: frac ++ ?l) with ((d :: frac) ++ l).
    unfold take_digits. rewrite take_while_app; [done|done|].
    intros c. destruct x as [x|]; simpl; [|by apply Hr]. intros [= <-].
    destruct Hx as [He _]. by apply e_not_digit.
Qed.

Lemma number_exp_ok x r :
  from_option exponent_ok True x → number_end r →
  number_exp (exp_text x ++ r) = inr (exp_text x, r).
Proof.
  intros Hx Hr. destruct x as [[e sg ds]|]; cbn [exp_text from_option exp_letter exp_sign exp_digits] in *.
  - destruct Hx as (He & Hs & Hne & Hds). cbn [exp_letter exp_sign exp_digits] in *.
    cbn [app number_exp]. rewrite He, <-app_assoc.
    destruct ds as [|d ds]; [done|]. pose proof Hds as Hds'. apply Forall_cons in Hds' as [Hd _].
    destruct (digit_not_e d Hd) as (_ & _ & Hm & Hp).
    assert (take_digits ((d :: ds) ++ r) = (d :: ds, r)) as Ht
      by (unfold take_digits; apply take_while_app; [done|]; intros c Hc; by apply Hr).
    assert (∀ sg : text,
      (if negb (from_option is_ascii_digit false (head ((d :: ds) ++ r)))
       then inl (lit "invalid number exponent")
       else let '(ds', r') := take_digits ((d :: ds) ++ r) in inr (e :: sg ++ ds', r'))
      = inr (e :: sg ++ d :: ds, r)) as Hgo
      by (intros; rewrite Ht; cbn [head app from_option]; by rewrite Hd).
    destruct Hs as [->|[->| ->]]; [|apply (Hgo (lit "+"))|apply (Hgo (lit "-"))].
    cbn [app]. rewrite (proj2 (N.eqb_neq d _) Hp), (proj2 (N.eqb_neq d _) Hm). apply (Hgo []).
  - destruct r as [|c r]; [done|]. cbn. by destruct (Hr c eq_refl) as (_ & _ & ->).
Qed.

(** The parser takes a whole decimal text for its lexeme. *)
Lemma number_lexeme_decimal negative int frac x r :
  decimal_ok int frac x → number_end r →
  number_lexeme (decimal_text negative int frac x ++ r) = inr (decimal_text negative int frac x, r).
Proof.
  intros (Hi & Hf & Hx) Hr. unfold number_lexeme, decimal_text. rewrite <-!app_assoc.
  rewrite number_sign_ok by done.
  rewrite number_int_ok; [|done|by intros c; apply frac_exp_head].
  rewrite number_frac_ok, number_exp_ok by done. done.
Qed.

Lemma number_end_nil : number_end [].
Proof. done. Qed.

Lemma decimal_exponent_text x :
  from_option exponent_ok True x → decimal_exponent (exp_text x) = Some (exp_value x).
Proof.
  destruct x as [[e sg ds]|]; [|done]. intros (He & Hs & Hne & Hds).
  cbn [exp_text exp_letter exp_sign exp_digits] in *. cbn [decimal_exponent]. rewrite He.
  assert (bool_decide (ds = []) || negb (forallb is_ascii_digit ds) = false) as Hok.
  { rewrite bool_decide_eq_false_2 by done. simpl. apply negb_false_iff, forallb_forall.
    intros c Hc%list_elem_of_In. unfold digits_ok in Hds. rewrite Forall_forall in Hds. by apply Hds. }
  destruct Hs as [->|[->| ->]]; cbn [app lit]; [|cbn; by rewrite Hok..].
  destruct ds as [|d ds]; [done|]. apply Forall_cons in Hds as [Hd _].
  destruct (digit_not_e d Hd) as (_ & _ & Hm & Hp). cbn [app].
  rewrite (proj2 (N.eqb_neq d _) Hp), (proj2 (N.eqb_neq d _) Hm). by rewrite Hok.
Qed.

(** The value of a decimal text. *)
Definition decimal_value (negative : bool) (int frac : text) (e : Z) : spec_float :=
  let '(ds, e') := significant int frac e in round_f64 negative (digits_value ds) e'.

Lemma parse_f64_decimal negative int frac x :
  int ≠ [] → digits_ok int → digits_ok frac → from_option exponent_ok True x →
  parse_f64 (decimal_text negative int frac x)
  = Some (decimal_value negative int frac (exp_value x)).
Proof.
  intros Hi Hd Hf Hx. unfold parse_f64, decimal_text.
  assert (∀ t, (match sign_text negative ++ int ++ t with
                | c :: s' => if N.eqb c (ch "-") then (true, s')
                             else (false, sign_text negative ++ int ++ t)
                | [] => (false, sign_text negative ++ int ++ t) end) = (negative, int ++ t)) as Hs.
  { intros t. destruct negative; [done|]. destruct int as [|c int]; [done|].
    apply Forall_cons in Hd as [Hc _]. apply digit_not_e in Hc as (_ & _ & Hc & _). cbn.
    by rewrite (proj2 (N.eqb_neq c _)). }
  rewrite Hs. clear Hs.
  rewrite (take_while_app _ int); [|done|].
  2: { intros c Hc. apply (frac_exp_head frac x [] c Hx number_end_nil). by rewrite app_nil_r. }
  assert ((match frac_text frac ++ exp_text x with
           | c :: s' => if N.eqb c (ch ".") then take_while is_ascii_digit s'
                        else ([], frac_text frac ++ exp_text x)
           | [] => ([], frac_text frac ++ exp_text x) end) = (frac, exp_text x)) as ->.
  { unfold frac_text. case_bool_decide as E.
    - subst. destruct x as [x|]; [|done]. cbn [app exp_text]. destruct Hx as [He _].
      by rewrite (proj2 (N.eqb_neq (exp_letter x) (ch "."))) by by apply e_not_digit.
    - cbn [app]. rewrite N.eqb_refl. apply take_while_app; [done|].
      intros c Hc%exp_text_head; [|done]. by apply e_not_digit. }
  rewrite bool_decide_eq_false_2 by (by destruct int). rewrite decimal_exponent_text by done.
  cbn [mbind option_bind]. unfold decimal_value. by destruct (significant int frac (exp_value x)).
Qed.

(** ** Printed integers *)

Lemma digits_value_from_app v a b :
  digits_value_from v (a ++ b) = digits_value_from (digits_value_from v a) b.
Proof. revert v. induction a as [|d a IH]; intros v; [done|]. apply IH. Qed.

Lemma print_digits_spec f n acc :
  (n < 2 ^ N.of_nat f)%N →
  ∃ ds, print_digits (S f) n acc = ds ++ acc ∧ ds ≠ [] ∧ digits_ok ds ∧ digits_value ds = n.
Proof.
  revert n acc. induction f as [|f IH]; intros n acc Hn.
  { assert (n = 0)%N as -> by (simpl in Hn; lia). exists (lit "0"). split; [done|]. split; [done|].
    split; [by repeat constructor|done]. }
  pose proof (N.mod_lt n 10 ltac:(lia)) as Hm. pose proof (N.div_mod' n 10) as Hdm.
  assert (is_ascii_digit (48 + n `mod` 10) = true) as Hd.
  { unfold is_ascii_digit, in_range. rewrite andb_true_iff, !N.leb_le. lia. }
  remember (S f) as f' eqn:Ef. cbn [print_digits]. destruct (N.ltb_spec n 10) as [Hlt|Hge].
  - exists [48 + n `mod` 10]%N. split; [done|]. split; [done|]. split; [by repeat constructor|].
    cbn. rewrite N.mod_small by lia. lia.
  - subst f'. destruct (IH (n `div` 10)%N ((48 + n `mod` 10)%N :: acc)) as (ds & -> & Hne & Hok & Hv).
    { rewrite Nat2N.inj_succ, N.pow_succ_r' in Hn. lia. }
    exists (ds ++ [48 + n `mod` 10]%N). rewrite <-app_assoc. split; [done|]. split; [by destruct ds|].
    split; [apply Forall_app_2; [done|by repeat constructor]|].
    unfold digits_value in *. rewrite digits_value_from_app, Hv. cbn [digits_value_from]. lia.
Qed.

Lemma print_N_spec n : print_N n ≠ [] ∧ digits_ok (print_N n) ∧ digits_value (print_N n) = n.
Proof.
  unfold print_N. destruct (print_digits_spec (N.to_nat (N.size n)) n []) as (ds & -> & H).
  - rewrite N2Nat.id. apply N.size_gt.
  - by rewrite app_nil_r.
Qed.

(** The exponent as [es6_format] writes it. *)
Definition es6_exponent (e : Z) : exponent :=
  mk_exponent (ch "e") (if (0 <=? e)%Z then lit "+" else lit "-") (print_N (Z.to_N (Z.abs e))).

Lemma es6_exponent_ok e : exponent_ok (es6_exponent e) ∧ exp_value (Some (es6_exponent e)) = e.
Proof.
  destruct (print_N_spec (Z.to_N (Z.abs e))) as (H1 & H2 & H3). split.
  - split; [done|]. split; [|done]. cbn. destruct (0 <=? e)%Z; auto.
  - cbn [exp_value es6_exponent exp_sign exp_digits]. rewrite H3.
    destruct (Z.leb_spec 0 e); [rewrite bool_decide_eq_false_2 by done|rewrite bool_decide_eq_true_2 by done]; lia.
Qed.

Lemma es6_exponent_text e :
  lit "e" ++ (if (0 <=? e)%Z then lit "+" else []) ++ print_Z e = exp_text (Some (es6_exponent e)).
Proof.
  unfold print_Z. cbn [exp_text es6_exponent exp_letter exp_sign exp_digits].
  destruct (Z.leb_spec 0 e), (Z.ltb_spec e 0); try lia.
  - by rewrite Z.abs_eq by lia.
  - by rewrite Z.abs_neq by lia.
Qed.

(** ** Significant digits *)

Definition nonzero_head (ds : text) : Prop := ∃ d ds', ds = d :: ds' ∧ in_range 49 57 d = true ∧ digits_ok ds'.

Lemma nonzero_digit d : in_range 49 57 d = true → is_zero_digit d = false ∧ is_ascii_digit d = true.
Proof.
  unfold is_ascii_digit, is_zero_digit, in_range. rewrite !andb_true_iff, !N.leb_le, N.eqb_neq.
  unfold ch. simpl. lia.
Qed.

Lemma nonzero_head_digits ds : nonzero_head ds → ds ≠ [] ∧ digits_ok ds.
Proof.
  intros (d & ds' & -> & Hd & Hds). split; [done|]. constructor; [by apply nonzero_digit|done].
Qed.

Lemma trim_start_zeros n ds :
  nonzero_head ds → trim_start_matches is_zero_digit (replicate n (ch "0") ++ ds) = ds.
Proof.
  intros (d & ds' & -> & Hd & _). induction n as [|n IH]; [|exact IH]. simpl.
  by destruct (nonzero_digit d Hd) as [-> _].
Qed.

Lemma trim_end_zeros n ds :
  trim_end_matches is_zero_digit (ds ++ replicate n (ch "0")) = trim_end_matches is_zero_digit ds.
Proof.
  unfold trim_end_matches. f_equal. rewrite reverse_app, reverse_replicate.
  induction n as [|n IH]; [done|]. exact IH.
Qed.

Lemma trim_end_length P s : length (trim_end_matches P s) ≤ length s.
Proof.
  unfold trim_end_matches. rewrite length_reverse, <-(length_reverse s).
  generalize (reverse s) as l. induction l as [|c l IH]; simpl; [lia|]. destruct (P c); simpl; lia.
Qed.

(** The exponent of the first digit fixes the significant digits and their exponent,
    wherever the point is. *)
Lemma significant_point n ds k int frac e :
  nonzero_head ds → int ++ frac = replicate n (ch "0") ++ ds ++ replicate k (ch "0") →
  significant int frac e =
    (trim_end_matches is_zero_digit ds,
     (e - Z.of_nat (length frac) + Z.of_nat (length ds + k)
      - Z.of_nat (length (trim_end_matches is_zero_digit ds)))%Z).
Proof.
  intros Hds E. unfold significant. rewrite E.
  assert (nonzero_head (ds ++ replicate k (ch "0"))) as Hz.
  { destruct Hds as (d & ds' & -> & Hd & Hok). exists d, (ds' ++ replicate k (ch "0")).
    split; [done|]. split; [done|]. apply Forall_app_2; [done|]. by apply Forall_replicate. }
  rewrite trim_start_zeros by done. rewrite trim_end_zeros, length_app, length_replicate.
  pose proof (trim_end_length is_zero_digit ds). f_equal. lia.
Qed.

(** ** The ECMAScript format *)

Lemma nonzero_take n D : nonzero_head D → 0 < n → nonzero_head (take n D).
Proof.
  intros (d & ds & -> & Hd & Hds) Hn. destruct n as [|n]; [lia|]. exists d, (take n ds).
  split; [done|]. split; [done|]. by apply Forall_take.
Qed.

Lemma nonzero_int_ok int : nonzero_head int → int_ok int.
Proof. intros H. by right. Qed.

(** The format puts the point in the right place. *)
Lemma es6_decimal negative D e :
  nonzero_head D →
  ∃ int frac x, es6_format negative D e = decimal_text negative int frac x
    ∧ decimal_ok int frac x
    ∧ significant int frac (exp_value x)
      = (trim_end_matches is_zero_digit D,
         e + 1 - Z.of_nat (length (trim_end_matches is_zero_digit D)))%Z.
Proof.
  intros HD. destruct (nonzero_head_digits D HD) as [Hne Hok]. unfold es6_format.
  assert (1 ≤ length D) as Hlen by (destruct D; simpl; [done|lia]).
  destruct (Z.leb_spec (-6) e), (Z.ltb_spec e 21); cbn [andb negb]; cycle 1.
  1-3: (* scientific *)
    rewrite es6_exponent_text; destruct (es6_exponent_ok e) as [Hx Hv];
    exists (take 1 D), (drop 1 D), (Some (es6_exponent e)); split;
      [unfold decimal_text, frac_text; do 2 f_equal;
       destruct D as [|d [|d' D]]; [done|done|simpl length]; cbn [drop];
       rewrite bool_decide_eq_false_2 by done; by destruct (Z.ltb_spec 1 (Z.of_nat (S (S (length D)))));
       [|lia]|];
    (split; [split; [by apply nonzero_int_ok, nonzero_take; [|lia]|];
             split; [by apply Forall_drop|done]|]);
    rewrite Hv, (significant_point 0 D 0) by (done || by rewrite take_drop, app_nil_r);
    f_equal; rewrite length_drop; lia.
  destruct (Z.leb_spec 0 e).
  - destruct (Z.leb_spec (Z.of_nat (length D)) (e + 1)) as [Hk|Hk].
    + set (z := Z.to_nat (e + 1 - Z.of_nat (length D))).
      exists (D ++ replicate z (ch "0")), [], None. split; [by unfold decimal_text; rewrite !app_nil_r|].
      split; [split; [|by split; [constructor|]]|].
      * destruct HD as (d & ds & -> & Hd & Hds). right. exists d, (ds ++ replicate z (ch "0")).
        split; [done|]. split; [done|]. apply Forall_app_2; [done|]. by apply Forall_replicate.
      * rewrite (significant_point 0 D z) by (done || by rewrite app_nil_r). f_equal.
        cbn [exp_value length]. subst z. lia.
    + set (n := Z.to_nat (e + 1)). exists (take n D), (drop n D), None.
      assert (drop n D ≠ []) as Hd.
      { intros E. apply (f_equal length) in E. rewrite length_drop in E. simpl in E. lia. }
      split; [unfold decimal_text, frac_text; rewrite bool_decide_eq_false_2 by done; by rewrite app_nil_r|].
      split; [split; [by apply nonzero_int_ok, nonzero_take; [|lia]|by split; [apply Forall_drop|]]|].
      rewrite (significant_point 0 D 0) by (done || by rewrite take_drop, app_nil_r).
      f_equal. cbn [exp_value]. rewrite length_drop. lia.
  - set (z := Z.to_nat (- e - 1)). exists (lit "0"), (replicate z (ch "0") ++ D), None.
    assert (replicate z (ch "0") ++ D ≠ []) as Hz by (intros [_ ?]%app_nil; done).
    split; [unfold decimal_text, frac_text; rewrite bool_decide_eq_false_2 by done; by rewrite app_nil_r|].
    split; [split; [by left|split; [|done]]|].
    + apply Forall_app_2; [by apply Forall_replicate|done].
    + rewrite (significant_point (S z) D 0) by (done || by rewrite app_nil_r).
      f_equal. cbn [exp_value]. rewrite length_app, length_replicate. subst z. lia.
Qed.

(** ** Reading the shortest decimal *)

Lemma find_split_app P a c b :
  Forall (λ d, P d = false) a → P c = true → find_split P (a ++ c :: b) = Some (a, b).
Proof.
  intros Ha Hc. induction Ha as [|d a Hd _ IH]; simpl; [by rewrite Hc|]. by rewrite Hd, IH.
Qed.

Lemma find_split_None P a : Forall (λ d, P d = false) a → find_split P a = None.
Proof. induction 1 as [|d a Hd _ IH]; simpl; [done|]. by rewrite Hd, IH. Qed.

Lemma digits_no (P : N → bool) ds :
  digits_ok ds → (∀ c, is_ascii_digit c = true → P c = false) → Forall (λ d, P d = false) ds.
Proof. intros Hd HP. eapply Forall_impl; [exact Hd|]. auto. Qed.

Lemma digit_not_point c : is_ascii_digit c = true → N.eqb (ch ".") c = false.
Proof. intros Hc. apply N.eqb_neq. apply digit_not_e in Hc as (_ & H & _). congruence. Qed.

Lemma parse_i32_exponent x :
  exponent_ok x → (Z.abs (exp_value (Some x)) <= 2147483647)%Z →
  parse_i32 (trim_start_matches (N.eqb (ch "+")) (exp_sign x ++ exp_digits x)) = Some (exp_value (Some x)).
Proof.
  destruct x as [l sg ds]. intros (_ & Hs & Hne & Hds). cbn [exp_sign exp_digits] in *.
  destruct ds as [|d ds]; [done|]. pose proof Hds as Hds'. apply Forall_cons in Hds' as [Hd _].
  destruct (digit_not_e d Hd) as (_ & _ & Hm & Hp).
  assert (forallb is_ascii_digit (d :: ds) = true) as Hall.
  { apply forallb_forall. intros c Hc%list_elem_of_In. unfold digits_ok in Hds.
    rewrite Forall_forall in Hds. by apply Hds. }
  assert (trim_start_matches (N.eqb (ch "+")) (d :: ds) = d :: ds) as Ht.
  { cbn [trim_start_matches]. by rewrite (proj2 (N.eqb_neq (ch "+") d)) by congruence. }
  assert (∀ v, (Z.abs v <= 2147483647)%Z → ((-2147483648 <=? v) && (v <=? 2147483647))%Z = true) as Hrange
    by (intros v Hv; apply andb_true_iff; rewrite !Z.leb_le; lia).
  assert ((Z.of_N (digits_value (d :: ds)) <= 2147483647)%Z → parse_i32 (d :: ds) = Some (Z.of_N (digits_value (d :: ds))))
    as Hplain.
  { intros Hv. unfold parse_i32. rewrite (proj2 (N.eqb_neq d _) Hm), (proj2 (N.eqb_neq d _) Hp), Hall.
    rewrite bool_decide_eq_false_2 by done. cbn [negb orb]. by rewrite Hrange by lia. }
  intros Hb. unfold exp_value in *. cbn [exp_sign exp_digits] in *. destruct Hs as [->|[->| ->]].
  - rewrite bool_decide_eq_false_2 in * by done. rewrite app_nil_l, Ht. apply Hplain. lia.
  - rewrite bool_decide_eq_false_2 in * by done. change (lit "+" ++ ?l) with (ch "+" :: l).
    change (trim_start_matches (N.eqb (ch "+")) (ch "+" :: ?l))
      with (trim_start_matches (N.eqb (ch "+")) l).
    rewrite Ht. apply Hplain. lia.
  - rewrite bool_decide_eq_true_2 in * by done. change (lit "-" ++ ?l) with (ch "-" :: l).
    change (trim_start_matches (N.eqb (ch "+")) (ch "-" :: ?l)) with (ch "-" :: l).
    unfold parse_i32. rewrite N.eqb_refl, Hall, bool_decide_eq_false_2 by done. cbn [negb orb].
    by rewrite Hrange by lia.
Qed.

Lemma trim_zeros_split D :
  nonzero_head D →
  ∃ k, D = trim_end_matches is_zero_digit D ++ replicate k (ch "0")
       ∧ nonzero_head (trim_end_matches is_zero_digit D).
Proof.
  intros HD. destruct (trim_end_split is_zero_digit D) as (suf & Hs & Hz).
  assert (suf = replicate (length suf) (ch "0")) as Hrep.
  { symmetry. apply replicate_as_Forall_2; [done|]. eapply Forall_impl; [exact Hz|].
    intros c Hc. by apply N.eqb_eq in Hc. }
  exists (length suf). split; [by rewrite <-Hrep|].
  destruct (trim_end_matches is_zero_digit D) as [|c t] eqn:Et.
  - destruct HD as (d & ds & -> & Hd & _). rewrite app_nil_l in Hs. rewrite <-Hs in Hz.
    apply Forall_cons in Hz as [Hz _]. by destruct (nonzero_digit d Hd) as [Hn _]; rewrite Hn in Hz.
  - destruct HD as (d & ds & -> & Hd & Hds). injection Hs as -> ->. exists c, t.
    split; [done|]. split; [done|]. by apply Forall_app in Hds as [? _].
Qed.

(** The integer and fraction digits, without the zeros around them. *)
Lemma coeff_to_digits_spec int frac :
  int_ok int → digits_ok frac → ¬ Forall (λ c, is_zero_digit c = true) (int ++ frac) →
  ∃ n D k e, coeff_to_digits (int ++ frac_text frac) = (D, e)
    ∧ nonzero_head D ∧ int ++ frac = replicate n (ch "0") ++ D ++ replicate k (ch "0")
    ∧ (e = Z.of_nat (length int) - 1 - Z.of_nat n)%Z.
Proof.
  intros Hi Hf Hnz. unfold coeff_to_digits, frac_text. case_bool_decide as Efr.
  - subst frac. rewrite !app_nil_r in *. destruct (int_ok_digits int Hi) as [Hne Hd].
    rewrite find_split_None by (by apply digits_no; [|apply digit_not_point]).
    destruct Hi as [->|Hi]; [exfalso; apply Hnz; by repeat constructor|].
    exists 0, int, 0, (Z.of_nat (length int) - 1)%Z.
    pose proof (trim_start_zeros 0 int Hi) as Ht. cbn [replicate app] in Ht. rewrite Ht.
    rewrite bool_decide_eq_false_2 by done. rewrite app_nil_r. repeat split; [done|lia].
  - destruct (int_ok_digits int Hi) as [Hne Hd].
    rewrite find_split_app; [|by apply digits_no; [|apply digit_not_point]|apply N.eqb_refl].
    rewrite (bool_decide_eq_false_2 (int = [])) by done. cbn [orb].
    destruct Hi as [->|Hi].
    + rewrite bool_decide_eq_true_2 by done.
      destruct (take_while is_zero_digit frac) as [zs r] eqn:Ez.
      apply take_while_spec in Ez as (-> & Hzs & Hr). cbn [fst]. rewrite drop_app_length.
      assert (zs = replicate (length zs) (ch "0")) as Hrep.
      { symmetry. apply replicate_as_Forall_2; [done|]. eapply Forall_impl; [exact Hzs|].
        intros c Hc. apply N.eqb_eq in Hc. done. }
      assert (nonzero_head r) as HD.
      { destruct r as [|d r].
        - exfalso. apply Hnz. rewrite app_nil_r. apply Forall_app_2; [by repeat constructor|done].
        - apply Forall_app in Hf as [_ [Hd' Hr']%Forall_cons]. exists d, r. split; [done|].
          split; [|done]. specialize (Hr d eq_refl). unfold is_zero_digit, is_ascii_digit, in_range in *.
          rewrite N.eqb_neq in Hr. rewrite andb_true_iff, !N.leb_le in *. unfold ch in Hr. simpl in Hr. lia. }
      destruct (trim_zeros_split r HD) as (k & Hk & HD').
      exists (S (length zs)), (trim_end_matches is_zero_digit r), k, (- (Z.of_nat (length zs) + 1))%Z.
      destruct (nonzero_head_digits _ HD') as [Hne' _]. rewrite bool_decide_eq_false_2 by done.
      split; [done|]. split; [done|]. rewrite <-Hk. split; [|simpl; lia].
      rewrite Hrep at 1. done.
    + rewrite bool_decide_eq_false_2 by (destruct Hi as (d & ds & -> & Hd' & _); intros [= -> ->]; done).
      assert (nonzero_head (int ++ frac)) as HD.
      { destruct Hi as (d & ds & -> & Hd' & Hds). exists d, (ds ++ frac). split; [done|].
        split; [done|]. by apply Forall_app_2. }
      destruct (trim_zeros_split _ HD) as (k & Hk & HD').
      exists 0, (trim_end_matches is_zero_digit (int ++ frac)), k, (Z.of_nat (length int) - 1)%Z.
      split; [done|]. split; [done|]. cbn [replicate app]. split; [done|lia].
Qed.

(** A number as [ryu] renders it is read back with the exponent of its first digit. *)
Lemma parse_shortest_spec negative int frac x :
  decimal_ok int frac x → (Z.abs (exp_value x) <= 2147483647)%Z →
  ¬ Forall (λ c, is_zero_digit c = true) (int ++ frac) →
  ∃ D e, parse_shortest_decimal (decimal_text negative int frac x) = (negative, D, e)
    ∧ nonzero_head D
    ∧ significant int frac (exp_value x)
      = (trim_end_matches is_zero_digit D,
         e + 1 - Z.of_nat (length (trim_end_matches is_zero_digit D)))%Z.
Proof.
  intros (Hi & Hf & Hx) Hb Hnz. destruct (int_ok_digits int Hi) as [Hne Hd].
  destruct (coeff_to_digits_spec int frac Hi Hf Hnz) as (n & D & k & e & Hc & HD & Happ & He).
  exists D, (e + exp_value x)%Z. split; [|split; [done|]].
  - unfold parse_shortest_decimal, decimal_text.
    assert ((match strip_prefix (lit "-") (sign_text negative ++ int ++ frac_text frac ++ exp_text x) with
             | Some rest => (true, rest)
             | None => (false, sign_text negative ++ int ++ frac_text frac ++ exp_text x)
             end) = (negative, int ++ frac_text frac ++ exp_text x)) as ->.
    { destruct negative; [done|]. destruct int as [|c int]; [done|].
      apply Forall_cons in Hd as [Hc' _]. apply digit_not_e in Hc' as (_ & _ & Hm & _).
      change (lit "-") with [ch "-"]. cbn [sign_text app strip_prefix].
      by rewrite (proj2 (N.eqb_neq (ch "-") c)) by congruence. }
    assert (Forall (λ d, is_e d = false) (int ++ frac_text frac)) as Hno.
    { apply Forall_app_2; [by apply digits_no; [|apply digit_not_e]|].
      unfold frac_text. case_bool_decide; [constructor|]. constructor; [done|].
      by apply digits_no; [|apply digit_not_e]. }
    destruct x as [x|]; cbn [exp_text].
    + rewrite app_assoc, find_split_app by (done || by destruct Hx).
      rewrite parse_i32_exponent by done. rewrite Hc. done.
    + rewrite app_nil_r, find_split_None by done. rewrite Hc. cbn [exp_value]. done.
  - rewrite (significant_point n D k) by done. f_equal.
    apply (f_equal length) in Happ. rewrite !length_app, !length_replicate in Happ. lia.
Qed.

(** ** Numbers written and read back *)

Section Es6.
Variable format_finite : spec_float → text.

(** What [ryu] documents: the rendering of a finite float is a decimal that reads
    back as that float. *)
Definition renders (n : spec_float) : Prop :=
  parse_f64 (format_finite n) = Some n
  ∧ ∃ negative int frac x, format_finite n = decimal_text negative int frac x
      ∧ decimal_ok int frac x ∧ (Z.abs (exp_value x) <= 400)%Z.

Definition finite_nonzero (n : spec_float) : bool :=
  match n with S754_finite _ _ _ => true | _ => false end.

(** The digits of a number that is not zero. *)
Lemma value_nonzero negative int frac e n :
  decimal_value negative int frac e = n → finite_nonzero n = true →
  ¬ Forall (λ c, is_zero_digit c = true) (int ++ frac).
Proof.
  intros Hv Hn Hz. unfold decimal_value, significant in Hv.
  assert (trim_start_matches is_zero_digit (int ++ frac) = []) as Ht.
  { clear Hv. induction Hz as [|c l Hc _ IH]; [done|]. simpl. by rewrite Hc. }
  rewrite Ht in Hv. subst n. done.
Qed.

(** The text of a number is a JSON number with the same value. *)
Lemma es6_reads_back n :
  renders n → finite_nonzero n = true →
  ∃ negative int frac x, es6_number_to_string format_finite n = decimal_text negative int frac x
    ∧ decimal_ok int frac x ∧ parse_f64 (es6_number_to_string format_finite n) = Some n.
Proof.
  intros (Hr & neg & int & frac & x & Ht & Hok & Hb) Hn. unfold es6_number_to_string.
  pose proof Hok as (Hi & Hf & Hx). destruct (int_ok_digits int Hi) as [Hne Hd].
  rewrite Ht, (parse_f64_decimal neg int frac x) in Hr by done. injection Hr as Hv.
  pose proof (value_nonzero _ _ _ _ _ Hv Hn) as Hnz. rewrite Ht.
  destruct (parse_shortest_spec neg int frac x Hok) as (D & e & -> & HD & Hsig); [lia|done|].
  destruct (es6_decimal neg D e HD) as (int' & frac' & x' & -> & Hok' & Hsig').
  exists neg, int', frac', x'. split; [done|]. split; [done|].
  destruct Hok' as (Hi' & Hf' & Hx'). destruct (int_ok_digits int' Hi') as [Hne' Hd'].
  rewrite parse_f64_decimal by done. f_equal. rewrite <-Hv. unfold decimal_value.
  by rewrite Hsig, Hsig'.
Qed.
End Es6.

(** ** Every lexeme is a decimal text *)

Lemma take_digits_spec s ds r : take_digits s = (ds, r) → s = ds ++ r ∧ digits_ok ds.
Proof. unfold take_digits. intros (-> & Hd & _)%take_while_spec. done. Qed.

Lemma number_sign_sound s sg r :
  number_sign s = (sg, r) → ∃ negative, sg = sign_text negative ∧ s = sg ++ r.
Proof.
  destruct s as [|c s]; cbn [number_sign]; [intros [= <- <-]; by exists false|].
  destruct (N.eqb_spec c (ch "-")) as [->|]; intros [= <- <-]; [by exists true|by exists false].
Qed.

Lemma number_int_sound s int r : number_int s = inr (int, r) → int_ok int ∧ s = int ++ r.
Proof.
  destruct s as [|c s]; [done|]. cbn [number_int]. destruct (N.eqb_spec c (ch "0")) as [->|].
  - destruct (from_option _ _ _); [done|]. intros [= <- <-]. split; [by left|done].
  - destruct (in_range 49 57 c) eqn:Hc; [|done]. destruct (take_digits s) as [ds r'] eqn:E.
    intros [= <- <-]. apply take_digits_spec in E as [-> Hd]. split; [right; eauto|done].
Qed.

(** At least one digit is taken. *)
Lemma take_digits_nonempty s ds r :
  from_option is_ascii_digit false (head s) = true → take_digits s = (ds, r) → ds ≠ [].
Proof.
  destruct s as [|c s]; [done|]. simpl. intros Hc. unfold take_digits. simpl. rewrite Hc.
  destruct (take_while _ s). by intros [= <- <-].
Qed.

Lemma number_frac_sound s l r :
  number_frac s = inr (l, r) → ∃ frac, l = frac_text frac ∧ digits_ok frac ∧ s = l ++ r.
Proof.
  assert (∀ s, inr ([], s) = inr (l, r) :> text + (text * text) →
    ∃ frac, l = frac_text frac ∧ digits_ok frac ∧ s = l ++ r) as Hnone.
  { intros s' [= <- <-]. exists []. split; [done|]. split; [constructor|done]. }
  destruct s as [|c s]; [apply Hnone|]. cbn [number_frac].
  destruct (N.eqb_spec c (ch ".")) as [->|]; [|apply Hnone].
  destruct (from_option _ _ _) eqn:Eh; [|done]. cbn [negb].
  destruct (take_digits s) as [ds r'] eqn:E. intros [= <- <-].
  pose proof (take_digits_nonempty s ds r' Eh E). apply take_digits_spec in E as [-> Hd].
  exists ds. unfold frac_text. by rewrite bool_decide_eq_false_2.
Qed.

Lemma number_exp_sound s l r :
  number_exp s = inr (l, r) →
  ∃ x, l = exp_text x ∧ from_option exponent_ok True x ∧ s = l ++ r.
Proof.
  assert (∀ s, inr ([], s) = inr (l, r) :> text + (text * text) →
    ∃ x, l = exp_text x ∧ from_option exponent_ok True x ∧ s = l ++ r) as Hnone.
  { intros s' [= <- <-]. by exists None. }
  destruct s as [|c s]; [apply Hnone|]. cbn [number_exp]. destruct (is_e c) eqn:Hc; [|apply Hnone].
  assert (∀ sg s', s = sg ++ s' → (sg = [] ∨ sg = lit "+" ∨ sg = lit "-") →
    (if negb (from_option is_ascii_digit false (head s')) then inl (lit "invalid number exponent")
     else let '(ds, r) := take_digits s' in inr (c :: sg ++ ds, r)) = inr (l, r) →
    ∃ x, l = exp_text x ∧ from_option exponent_ok True x ∧ c :: s = l ++ r) as Hgo.
  { intros sg s' -> Hsg. destruct (from_option _ _ _) eqn:Eh; [|done]. cbn [negb].
    destruct (take_digits s') as [ds r'] eqn:E. intros [= <- <-].
    pose proof (take_digits_nonempty s' ds r' Eh E). apply take_digits_spec in E as [-> Hd].
    exists (Some (mk_exponent c sg ds)). split; [done|]. split; [done|]. cbn. by rewrite <-app_assoc. }
  destruct s as [|d s]; [apply (Hgo []); auto|].
  destruct (N.eqb_spec d (ch "+")) as [->|]; [apply (Hgo (lit "+")); auto|].
  destruct (N.eqb_spec d (ch "-")) as [->|]; [apply (Hgo (lit "-")); auto|].
  apply (Hgo []); auto.
Qed.

Lemma number_lexeme_sound s l r :
  number_lexeme s = inr (l, r) →
  ∃ negative int frac x, decimal_ok int frac x ∧ l = decimal_text negative int frac x ∧ s = l ++ r.
Proof.
  unfold number_lexeme. destruct (number_sign s) as [sg s0] eqn:E0.
  apply number_sign_sound in E0 as (negative & -> & ->).
  destruct (number_int s0) as [|[int s1]] eqn:E1; [done|]. apply number_int_sound in E1 as [Hi ->].
  destruct (number_frac s1) as [|[fl s2]] eqn:E2; [done|].
  apply number_frac_sound in E2 as (frac & -> & Hf & ->).
  destruct (number_exp s2) as [|[xl s3]] eqn:E3; [done|].
  apply number_exp_sound in E3 as (x & -> & Hx & ->). intros [= <- <-].
  exists negative, int, frac, x. split; [done|]. split; [done|]. unfold decimal_text.
  by rewrite <-!app_assoc.
Qed.
