(* ===== verification/JsonSpelling.v ===== *)
(** * Canonical JSON: the grammar

    The texts that spell a JSON value, as a relation, and the theorem that the parser
    of CanonicalJson.v accepts exactly these texts, within the nesting limit and the
    fuel it is given. *)
From Stdlib Require Import SpecFloat.
From stdpp Require Import base strings sets numbers tactics list.
From S2P Require Import Prelude Text CanonicalJson JsonNumbers.

Local Open Scope json_scope.

(** ** Spellings *)

Definition ws (w : text) : Prop := Forall (λ c, is_json_ws c = true) w.

(** The ways to write one character of a string. *)
Inductive char_spells : N → text → Prop :=
  | spell_raw c :
      c ≠ dquote → c ≠ backslash → N.ltb c 32 = false → char_spells c [c]
  | spell_simple e c : simple_escape e = Some c → char_spells c [backslash; e]
  | spell_unicode h c :
      length h = 4 → hex_units 0 h = Some c → is_scalar c = true →
      char_spells c (backslash :: ch "u" :: h)
  | spell_pair h1 h2 hi lo :
      length h1 = 4 → hex_units 0 h1 = Some hi → in_range 55296 56319 hi = true →
      length h2 = 4 → hex_units 0 h2 = Some lo → in_range 56320 57343 lo = true →
      char_spells (65536 + N.shiftl (hi - 55296) 10 + (lo - 56320))%N
        (backslash :: ch "u" :: h1 ++ backslash :: ch "u" :: h2).

Inductive body_spells : text → text → Prop :=
  | body_nil : body_spells [] []
  | body_cons c t s ts : char_spells c t → body_spells s ts → body_spells (c :: s) (t ++ ts).

Definition string_spells (s t : text) : Prop := ∃ b, body_spells s b ∧ t = dquote :: b ++ [dquote].

Section Spelling.
Variable format_finite : spec_float → text.

(** [spells d v t]: the text [t] spells the value [v] with at most [d] levels of
    nesting.  The members of an object may come in any order. *)
Inductive spells : nat → Canonical → text → Prop :=
  | spell_null d : spells d Null (lit "null")
  | spell_true d : spells d (Bool true) (lit "true")
  | spell_false d : spells d (Bool false) (lit "false")
  | spell_number d negative int frac x n t :
      decimal_ok int frac x → parse_f64 (decimal_text negative int frac x) = Some n →
      number_from_f64 format_finite n (decimal_text negative int frac x) = inr t →
      spells d (Number t) (decimal_text negative int frac x)
  | spell_string d s t : string_spells s t → spells d (String s) t
  | spell_empty_array d w : ws w → spells (S d) (Array []) (ch "[" :: w ++ [ch "]"])
  | spell_array d w vs t :
      ws w → items_spell d vs t → spells (S d) (Array vs) (ch "[" :: w ++ t)
  | spell_empty_object d w : ws w → spells (S d) (Object []) (ch "{" :: w ++ [ch "}"])
  | spell_object d w ms t :
      ws w → members_spell d ms t → NoDup (map fst ms) →
      spells (S d) (Object (sort_members ms)) (ch "{" :: w ++ t)
with items_spell : nat → list Canonical → text → Prop :=
  | items_last d v t w : spells d v t → ws w → items_spell d [v] (t ++ w ++ [ch "]"])
  | items_cons d v t w w' vs t' :
      spells d v t → ws w → ws w' → items_spell d vs t' →
      items_spell d (v :: vs) (t ++ w ++ ch "," :: w' ++ t')
with members_spell : nat → list (text * Canonical) → text → Prop :=
  | members_last d k kt w1 w2 v t w3 :
      string_spells k kt → ws w1 → ws w2 → spells d v t → ws w3 →
      members_spell d [(k, v)] (kt ++ w1 ++ ch ":" :: w2 ++ t ++ w3 ++ [ch "}"])
  | members_cons d k kt w1 w2 v t w3 w4 ms t' :
      string_spells k kt → ws w1 → ws w2 → spells d v t → ws w3 → ws w4 →
      members_spell d ms t' →
      members_spell d ((k, v) :: ms) (kt ++ w1 ++ ch ":" :: w2 ++ t ++ w3 ++ ch "," :: w4 ++ t').

Scheme spells_mut := Minimality for spells Sort Prop
  with items_mut := Minimality for items_spell Sort Prop
  with members_mut := Minimality for members_spell Sort Prop.
Combined Scheme spells_ind_mut from spells_mut, items_mut, members_mut.
End Spelling.

(** ** Strings *)

Lemma take_hex4_app h c r d :
  length h = 4 → hex_units 0 h = Some c → take_hex4 (mk_Parser (h ++ r) d) = JOk c (mk_Parser r d).
Proof.
  intros Hl Hh. unfold take_hex4. cbn [rest]. rewrite length_app, Hl.
  destruct (Nat.ltb_spec (4 + length r) 4); [lia|].
  by rewrite take_app_length', Hh, drop_app_length' by done.
Qed.

Lemma take_hex4_JOk p c p' :
  take_hex4 p = JOk c p' →
  ∃ h, length h = 4 ∧ hex_units 0 h = Some c ∧ rest p = h ++ rest p' ∧ depth p' = depth p.
Proof.
  unfold take_hex4. destruct (Nat.ltb_spec (length (rest p)) 4); [done|].
  destruct (hex_units 0 (take 4 (rest p))) as [u|] eqn:E; [|done]. intros [= <- <-].
  exists (take 4 (rest p)). rewrite length_take. split; [lia|]. split; [done|].
  cbn. by rewrite take_drop.
Qed.

Lemma pair_scalar hi lo :
  in_range 55296 56319 hi = true → in_range 56320 57343 lo = true →
  is_scalar (65536 + N.shiftl (hi - 55296) 10 + (lo - 56320)) = true.
Proof.
  unfold in_range, is_scalar. rewrite N.shiftl_mul_pow2. unfold in_range.
  rewrite orb_true_iff, !andb_true_iff, !N.leb_le. change (2 ^ 10)%N with 1024%N. lia.
Qed.

Lemma scalar_not_surrogate c :
  is_scalar c = true → in_range 55296 56319 c = false ∧ in_range 56320 57343 c = false.
Proof.
  unfold is_scalar, in_range. rewrite orb_true_iff, !andb_true_iff, !N.leb_le, !andb_false_iff, !N.leb_gt.
  lia.
Qed.

Lemma hex_escape_unit h c r d :
  length h = 4 → hex_units 0 h = Some c → is_scalar c = true →
  parse_hex_escape (mk_Parser (h ++ r) d) = JOk c (mk_Parser r d).
Proof.
  intros Hl Hh Hs. unfold parse_hex_escape. rewrite take_hex4_app with (c := c) by done.
  cbn [jbind]. destruct (scalar_not_surrogate c Hs) as [-> ->]. unfold char_from_u32. by rewrite Hs.
Qed.

Lemma hex_escape_pair h1 h2 hi lo r d :
  length h1 = 4 → hex_units 0 h1 = Some hi → in_range 55296 56319 hi = true →
  length h2 = 4 → hex_units 0 h2 = Some lo → in_range 56320 57343 lo = true →
  parse_hex_escape (mk_Parser (h1 ++ (backslash :: ch "u" :: h2) ++ r) d)
  = JOk (65536 + N.shiftl (hi - 55296) 10 + (lo - 56320))%N (mk_Parser r d).
Proof.
  intros Hl1 Hh1 Hhi Hl2 Hh2 Hlo. unfold parse_hex_escape.
  rewrite take_hex4_app with (c := hi) by done. cbn [jbind rest]. rewrite Hhi.
  change ((backslash :: ch "u" :: h2) ++ r) with ([backslash; ch "u"] ++ h2 ++ r).
  rewrite strip_prefix_app. unfold with_rest. cbn [depth].
  rewrite take_hex4_app with (c := lo) by done. cbn [jbind]. rewrite Hlo.
  unfold char_from_u32. by rewrite pair_scalar.
Qed.

(** One step of the loop of [parse_string] reads one spelled character. *)
Lemma string_loop_char fuel out c t r d :
  char_spells c t →
  string_loop (S fuel) out (mk_Parser (t ++ r) d) = string_loop fuel (out ++ [c]) (mk_Parser r d).
Proof.
  intros Hc. destruct Hc as [c H1 H2 H3|e c He|h c Hl Hh Hs|h1 h2 hi lo Hl1 Hh1 Hhi Hl2 Hh2 Hlo].
  - cbn. by rewrite (proj2 (N.eqb_neq _ _) H1), (proj2 (N.eqb_neq _ _) H2), H3.
  - cbn. by rewrite He.
  - cbn -[parse_hex_escape]. change (bump (bump _)) with (mk_Parser (h ++ r) d).
    by rewrite (hex_escape_unit h c).
  - rewrite <-!app_comm_cons, <-app_assoc. cbn -[parse_hex_escape].
    change (bump (bump _)) with (mk_Parser (h1 ++ (backslash :: ch "u" :: h2) ++ r) d).
    by rewrite (hex_escape_pair h1 h2 hi lo).
Qed.

Lemma char_spells_nonempty c t : char_spells c t → 1 ≤ length t.
Proof. destruct 1; simpl; lia. Qed.

Lemma string_loop_complete s b :
  body_spells s b → ∀ fuel out r d, length b < fuel →
  string_loop fuel out (mk_Parser (b ++ dquote :: r) d) = JOk (out ++ s) (mk_Parser r d).
Proof.
  induction 1 as [|c t s ts Hc _ IH]; intros fuel out r d Hf.
  - destruct fuel as [|fuel]; [lia|]. cbn. by rewrite app_nil_r.
  - destruct fuel as [|fuel]; [lia|]. rewrite <-app_assoc, (string_loop_char _ _ c) by done.
    rewrite IH; [by rewrite <-app_assoc|].
    rewrite length_app in Hf. apply char_spells_nonempty in Hc. lia.
Qed.

Lemma parse_string_complete s t r d :
  string_spells s t → parse_string (mk_Parser (t ++ r) d) = JOk s (mk_Parser r d).
Proof.
  intros (b & Hb & ->). unfold parse_string. cbn [app rest]. rewrite <-app_assoc.
  change (bump _) with (mk_Parser (b ++ dquote :: r) d).
  rewrite (string_loop_complete s b) by (done || (cbn [length]; rewrite length_app; simpl; lia)). done.
Qed.

Lemma parse_hex_escape_sound p c p' :
  parse_hex_escape p = JOk c p' →
  ∃ t, char_spells c (backslash :: ch "u" :: t) ∧ rest p = t ++ rest p' ∧ depth p' = depth p.
Proof.
  unfold parse_hex_escape. destruct (take_hex4 p) as [u p1| |] eqn:E1; cbn [jbind]; [|done..].
  apply take_hex4_JOk in E1 as (h1 & Hl1 & Hh1 & Hr1 & Hd1).
  destruct (in_range 55296 56319 u) eqn:Hhi.
  - destruct (strip_prefix _ (rest p1)) as [r|] eqn:Es; [|done]. apply strip_prefix_Some in Es.
    destruct (take_hex4 (with_rest p1 r)) as [lo p2| |] eqn:E2; cbn [jbind]; [|done..].
    apply take_hex4_JOk in E2 as (h2 & Hl2 & Hh2 & Hr2 & Hd2).
    destruct (in_range 56320 57343 lo) eqn:Hlo; [|done].
    unfold char_from_u32. rewrite pair_scalar by done. intros [= <- <-].
    exists (h1 ++ backslash :: ch "u" :: h2). split; [by constructor|]. cbn in Hr2, Hd2.
    split; [|congruence]. rewrite Hr1, Es, Hr2, <-app_assoc. done.
  - destruct (in_range 56320 57343 u); [done|]. unfold char_from_u32.
    destruct (is_scalar u) eqn:Hs; [|done]. intros [= <- <-]. exists h1. by split; [constructor|].
Qed.

Lemma parse_escape_sound p c p' :
  parse_escape p = JOk c p' →
  ∃ t, char_spells c (backslash :: t) ∧ rest p = t ++ rest p' ∧ depth p' = depth p.
Proof.
  unfold parse_escape. destruct (rest p) as [|e r] eqn:Er; [done|].
  destruct (simple_escape e) as [c'|] eqn:Es.
  - intros [= <- <-]. exists [e]. split; [by constructor|]. cbn. by rewrite Er.
  - destruct (N.eqb_spec e (ch "u")) as [->|]; [|done].
    intros (t & Ht & Hr & Hd)%parse_hex_escape_sound. exists (ch "u" :: t). split; [done|].
    cbn in Hr, Hd. rewrite Er in Hr. cbn [tail] in Hr. by rewrite Hr.
Qed.

Lemma string_loop_sound fuel out p s' p' :
  string_loop fuel out p = JOk s' p' →
  ∃ s b, s' = out ++ s ∧ body_spells s b ∧ rest p = b ++ dquote :: rest p' ∧ depth p' = depth p.
Proof.
  revert out p. induction fuel as [|fuel IH]; intros out p; [done|]. cbn [string_loop].
  destruct (rest p) as [|c r] eqn:Er; [done|].
  destruct (N.eqb_spec c dquote) as [->|Hq].
  { intros [= <- <-]. exists [], []. cbn. rewrite app_nil_r, Er. split; [done|].
    split; [constructor|done]. }
  destruct (N.eqb_spec c backslash) as [->|Hb].
  - destruct (parse_escape (bump p)) as [c' p1| |] eqn:Ee; cbn [jbind]; [|done..].
    apply parse_escape_sound in Ee as (t & Ht & Hr & Hd). cbn in Hr, Hd. rewrite Er in Hr.
    intros (s & b & -> & Hbs & Hr1 & Hd1)%IH. exists (c' :: s), ((backslash :: t) ++ b).
    split; [by rewrite <-app_assoc|]. split; [by constructor|]. split; [|congruence].
    cbn [tail] in Hr. rewrite Hr, Hr1. cbn. by rewrite app_assoc.
  - destruct (N.ltb c 32) eqn:Hc; [done|]. intros (s & b & -> & Hbs & Hr1 & Hd1)%IH.
    exists (c :: s), ([c] ++ b). split; [by rewrite <-app_assoc|].
    split; [by repeat constructor|]. cbn in Hr1, Hd1. rewrite Er in Hr1. cbn in Hr1.
    split; [by rewrite Hr1|done].
Qed.

Lemma parse_string_sound p s p' :
  head (rest p) = Some dquote → parse_string p = JOk s p' →
  ∃ t, string_spells s t ∧ rest p = t ++ rest p' ∧ depth p' = depth p.
Proof.
  destruct p as [r d]. cbn [rest]. destruct r as [|c r]; [done|]. intros [= ->].
  unfold parse_string. intros (s0 & b & -> & Hb & Hr & Hd)%string_loop_sound. cbn in Hr, Hd.
  exists (dquote :: b ++ [dquote]). split; [by exists b|]. split; [|done].
  rewrite Hr. cbn. by rewrite <-app_assoc.
Qed.

Lemma parse_escape_fuel p : parse_escape p ≠ JNoFuel.
Proof.
  unfold parse_escape, parse_hex_escape, take_hex4, jbind, reject. repeat case_match; done.
Qed.

Lemma string_loop_fuel fuel out p : length (rest p) < fuel → string_loop fuel out p ≠ JNoFuel.
Proof.
  revert out p. induction fuel as [|fuel IH]; intros out p Hf; [lia|]. cbn [string_loop].
  destruct (rest p) as [|c r] eqn:Er; [done|].
  destruct (N.eqb c dquote); [done|]. destruct (N.eqb c backslash).
  - destruct (parse_escape (bump p)) as [c' p1| |] eqn:Ee; cbn [jbind]; [|done|by apply parse_escape_fuel in Ee].
    apply IH. apply parse_escape_sound in Ee as (t & Ht & Hr & _). cbn in Hr. rewrite Er in Hr.
    cbn [tail] in Hr. subst r. simpl in Hf. rewrite length_app in Hf. lia.
  - destruct (N.ltb c 32); [done|]. apply IH. cbn. rewrite Er. simpl in *. lia.
Qed.

Lemma parse_string_fuel p : parse_string p ≠ JNoFuel.
Proof.
  unfold parse_string. apply string_loop_fuel. cbn. destruct (rest p); simpl; lia.
Qed.

(** ** Numbers and literals *)

Lemma skip_ws_app w t d :
  ws w → (∀ c, head t = Some c → is_json_ws c = false) →
  skip_ws (mk_Parser (w ++ t) d) = mk_Parser t d.
Proof.
  intros Hw Ht. unfold skip_ws, with_rest. cbn [rest depth]. f_equal.
  induction Hw as [|c w Hc _ IH]; simpl; [|by rewrite Hc].
  destruct t as [|c t]; [done|]. simpl. by rewrite (Ht c eq_refl).
Qed.

Lemma skip_ws_spec p :
  ∃ w, ws w ∧ rest p = w ++ rest (skip_ws p) ∧ depth (skip_ws p) = depth p
       ∧ ∀ c, head (rest (skip_ws p)) = Some c → is_json_ws c = false.
Proof.
  destruct p as [r d]. unfold skip_ws. cbn. induction r as [|c r (w & Hw & Hr & _ & Hh)]; simpl.
  { exists []. split; [constructor|done]. }
  destruct (is_json_ws c) eqn:E.
  - exists (c :: w). split; [by constructor|]. simpl. by rewrite <-Hr.
  - exists []. split; [constructor|]. split; [done|]. split; [done|]. by intros d' [= <-].
Qed.

(** The characters a value can start with. *)
Definition value_start (c : N) : bool :=
  existsb (N.eqb c) (dquote :: lit "ntf[{-") || is_ascii_digit c.

Lemma value_start_not c :
  value_start c = true →
  is_json_ws c = false ∧ c ≠ ch "]" ∧ c ≠ ch "}" ∧ c ≠ ch ",".
Proof.
  unfold value_start. intros H. apply orb_true_iff in H as [H|H].
  - apply existsb_exists in H as (d & Hd & ->%N.eqb_eq).
    cbn in Hd. by repeat destruct Hd as [<-|Hd].
  - unfold is_ascii_digit, in_range in H. rewrite andb_true_iff, !N.leb_le in H.
    unfold is_json_ws, ch. rewrite !orb_false_iff, !N.eqb_neq. simpl. lia.
Qed.

Lemma decimal_head negative int frac x :
  int_ok int → ∃ c t, decimal_text negative int frac x = c :: t
    ∧ (is_ascii_digit c = true ∨ (c = ch "-" ∧ ∃ d t', t = d :: t' ∧ is_ascii_digit d = true)).
Proof.
  intros Hi. destruct (int_ok_digits int Hi) as [Hne Hd]. destruct int as [|d int]; [done|].
  apply Forall_cons in Hd as [Hd _]. unfold decimal_text. destruct negative; cbn; eauto 10.
Qed.

Section Values.
Variable format_finite : spec_float → text.
Abbreviation spells := (spells format_finite).
Abbreviation items_spell := (items_spell format_finite).
Abbreviation members_spell := (members_spell format_finite).
Abbreviation parse_value := (parse_value format_finite).
Abbreviation array_loop := (array_loop format_finite).
Abbreviation object_loop := (object_loop format_finite).
Abbreviation parse_number := (parse_number format_finite).

Lemma spells_head d v t : spells d v t → ∃ c t', t = c :: t' ∧ value_start c = true.
Proof.
  destruct 1 as [| | |d neg int frac x n t (Hi & _) _ _|d s t (b & _ & ->)|d w _|d w vs t _ _|d w _|d w ms t _ _ _];
    try (by eexists _, _).
  destruct (decimal_head neg int frac x Hi) as (c & t' & -> & Hc). exists c, t'. split; [done|].
  unfold value_start. destruct Hc as [Hc|[-> _]]; [by rewrite Hc, orb_true_r|done].
Qed.

Lemma spells_head_app d v t r c :
  spells d v t → head (t ++ r) = Some c → value_start c = true.
Proof. intros (c' & t' & -> & Hs)%spells_head [= <-]. done. Qed.

(** A digit or a minus sign starts a number. *)
Lemma parse_value_number fuel p c :
  head (rest (skip_ws p)) = Some c → c = ch "-" ∨ is_ascii_digit c = true →
  starts_with (lit "-Infinity") (rest (skip_ws p)) = false →
  parse_value (S fuel) p = parse_number (skip_ws p).
Proof.
  intros Hc Hd Hinf. cbn [CanonicalJson.parse_value]. unfold peek. rewrite Hc.
  assert (existsb (N.eqb c) (dquote :: lit "ntfNI[{") = false) as Hno.
  { destruct Hd as [->|Hd]; [reflexivity|]. unfold is_ascii_digit, in_range in Hd.
    rewrite andb_true_iff, !N.leb_le in Hd. apply not_true_iff_false.
    intros (x & Hx & ->%N.eqb_eq)%existsb_exists. cbn in Hx. unfold dquote in Hx.
    repeat destruct Hx as [<-|Hx]; lia || done. }
  cbn in Hno. rewrite !orb_false_iff in Hno.
  destruct Hno as (H1 & H2 & H3 & H4 & H5 & H6 & H7 & H8 & _).
  unfold ch. cbn [Byte.to_N]. unfold dquote in *. rewrite H1, H2, H3, H4, H5, H6, H7, H8, Hinf, andb_false_r.
  destruct Hd as [->|Hd]; [done|]. by rewrite Hd, orb_true_r.
Qed.

(** ** Completeness *)

Lemma parse_value_peek fuel w t d c :
  ws w → head t = Some c → is_json_ws c = false →
  parse_value (S fuel) (mk_Parser (w ++ t) d) = parse_value (S fuel) (mk_Parser t d).
Proof.
  intros Hw Ht Hc. cbn [CanonicalJson.parse_value].
  rewrite skip_ws_app; [|done|intros c'; rewrite Ht; by intros [= <-]].
  pose proof (skip_ws_app [] t d) as Hs. cbn [app] in Hs.
  rewrite Hs; [done|constructor|intros c'; rewrite Ht; by intros [= <-]].
Qed.

Lemma enter_nesting_ok t d :
  d < MAX_NESTING → enter_nesting (mk_Parser t d) = JOk () (mk_Parser t (S d)).
Proof. intros Hd. unfold enter_nesting. cbn [depth rest]. by destruct (Nat.leb_spec MAX_NESTING d); [lia|]. Qed.

Lemma parse_value_array fuel t d :
  d < MAX_NESTING →
  parse_value (S fuel) (mk_Parser (ch "[" :: t) d) =
    (let p2 := skip_ws (mk_Parser t (S d)) in
     let+ (items, p3) :=
       if bool_decide (peek p2 = Some (ch "]")) then JOk [] (bump p2) else array_loop fuel [] p2 in
     JOk (Array items) (leave_nesting p3)).
Proof.
  intros Hd. cbn [CanonicalJson.parse_value].
  change (skip_ws (mk_Parser (ch "[" :: t) d)) with (mk_Parser (ch "[" :: t) d).
  rewrite enter_nesting_ok by done. reflexivity.
Qed.

Lemma parse_value_object fuel t d :
  d < MAX_NESTING →
  parse_value (S fuel) (mk_Parser (ch "{" :: t) d) =
    (let p2 := skip_ws (mk_Parser t (S d)) in
     let+ (members, p3) :=
       if bool_decide (peek p2 = Some (ch "}")) then JOk [] (bump p2) else object_loop fuel [] p2 in
     JOk (Object (sort_members members)) (leave_nesting p3)).
Proof.
  intros Hd. cbn [CanonicalJson.parse_value].
  change (skip_ws (mk_Parser (ch "{" :: t) d)) with (mk_Parser (ch "{" :: t) d).
  rewrite enter_nesting_ok by done. reflexivity.
Qed.

Definition complete_value (d : nat) (v : Canonical) (t : text) : Prop :=
  ∀ fuel dep w r, ws w → number_end r → dep + d ≤ MAX_NESTING → 2 * length (w ++ t ++ r) < fuel →
  parse_value fuel (mk_Parser (w ++ t ++ r) dep) = JOk v (mk_Parser r dep).

Definition complete_items (d : nat) (vs : list Canonical) (t : text) : Prop :=
  ∀ fuel dep w r items, ws w → dep + d ≤ MAX_NESTING → 2 * length (w ++ t ++ r) + 1 < fuel →
  array_loop fuel items (mk_Parser (w ++ t ++ r) dep) = JOk (items ++ vs) (mk_Parser r dep).

Definition complete_members (d : nat) (ms : list (text * Canonical)) (t : text) : Prop :=
  ∀ fuel dep w r members, ws w → dep + d ≤ MAX_NESTING → NoDup (map fst (members ++ ms)) →
  2 * length (w ++ t ++ r) + 1 < fuel →
  object_loop fuel members (mk_Parser (w ++ t ++ r) dep) = JOk (members ++ ms) (mk_Parser r dep).

Lemma ws_number_end w c r :
  ws w → is_ascii_digit c = false → c ≠ ch "." → is_e c = false → number_end (w ++ c :: r).
Proof.
  intros Hw H1 H2 H3 x. destruct Hw as [|y w Hy _]; simpl.
  - by intros [= <-].
  - intros [= <-]. revert Hy. unfold is_json_ws, is_ascii_digit, in_range, is_e, ch.
    rewrite !orb_true_iff, !N.eqb_eq. simpl. intros Hy. by destruct Hy as [[[->| ->]| ->]| ->].
Qed.

(** What follows an item or a member: a separator after white space. *)
Lemma skip_to w c r d :
  ws w → is_json_ws c = false → skip_ws (mk_Parser (w ++ c :: r) d) = mk_Parser (c :: r) d.
Proof. intros Hw Hc. apply skip_ws_app; [done|]. by intros x [= <-]. Qed.

Lemma items_head d vs t : items_spell d vs t → ∃ c t', t = c :: t' ∧ value_start c = true.
Proof.
  destruct 1 as [d v t w (c & t' & -> & Hc)%spells_head _|d v t w w' vs t' (c & t'' & -> & Hc)%spells_head _ _ _];
    by eexists _, _.
Qed.

Lemma members_head d ms t : members_spell d ms t → ∃ t', t = dquote :: t'.
Proof. destruct 1 as [d k kt ? ? ? ? ? (b & _ & ->)|d k kt ? ? ? ? ? ? ? ? (b & _ & ->)]; by eexists. Qed.

Lemma complete_array d w vs t :
  ws w → items_spell d vs t → complete_items d vs t →
  complete_value (S d) (Array vs) (ch "[" :: w ++ t).
Proof.
  intros Hw Hi IH fuel dep w0 r Hw0 Hr Hd Hf. destruct fuel as [|fuel]; [lia|].
  rewrite (parse_value_peek _ _ _ _ (ch "[")) by done. cbn [app].
  rewrite parse_value_array by lia. rewrite <-app_assoc.
  destruct (items_head d vs t Hi) as (c & t' & Ht & Hc). destruct (value_start_not c Hc) as (Hnw & Hnb & _).
  rewrite skip_ws_app; [|done|subst t; by intros x [= <-]]. cbn zeta.
  rewrite bool_decide_eq_false_2 by (subst t; by intros [= ->]).
  pose proof (IH fuel (S dep) [] r []) as Hloop. cbn [app] in Hloop. rewrite Hloop; [|constructor|lia|].
  - cbn [jbind]. unfold leave_nesting. cbn [depth rest]. by replace (S dep - 1) with dep by lia.
  - rewrite !length_app in Hf. simpl in Hf. rewrite !length_app in *. lia.
Qed.

Lemma complete_object d w ms t :
  ws w → members_spell d ms t → NoDup (map fst ms) → complete_members d ms t →
  complete_value (S d) (Object (sort_members ms)) (ch "{" :: w ++ t).
Proof.
  intros Hw Hi Hnd IH fuel dep w0 r Hw0 Hr Hd Hf. destruct fuel as [|fuel]; [lia|].
  rewrite (parse_value_peek _ _ _ _ (ch "{")) by done. cbn [app].
  rewrite parse_value_object by lia. rewrite <-app_assoc.
  destruct (members_head d ms t Hi) as (t' & Ht).
  rewrite skip_ws_app; [|done|subst t; by intros x [= <-]]. cbn zeta.
  rewrite bool_decide_eq_false_2 by (by subst t).
  pose proof (IH fuel (S dep) [] r []) as Hloop. cbn [app] in Hloop. rewrite Hloop; [|constructor|lia|done|].
  - cbn [jbind]. unfold leave_nesting. cbn [depth rest]. by replace (S dep - 1) with dep by lia.
  - rewrite !length_app in Hf. simpl in Hf. rewrite !length_app in *. lia.
Qed.

Lemma complete_literal v l fuel dep w r :
  ws w → (v, l) ∈ [(Null, lit "null"); (Bool true, lit "true"); (Bool false, lit "false")] →
  parse_value (S fuel) (mk_Parser (w ++ l ++ r) dep) = JOk v (mk_Parser r dep).
Proof.
  intros Hw Hl. rewrite !elem_of_cons in Hl.
  destruct Hl as [[= -> ->]|[[= -> ->]|[[= -> ->]|Hl%elem_of_nil]]]; [..|done];
    (erewrite parse_value_peek; [reflexivity|done|reflexivity|reflexivity]).
Qed.

Lemma complete_number d negative int frac x n t :
  decimal_ok int frac x → parse_f64 (decimal_text negative int frac x) = Some n →
  number_from_f64 format_finite n (decimal_text negative int frac x) = inr t →
  complete_value d (Number t) (decimal_text negative int frac x).
Proof.
  intros Hok Hn Ht fuel dep w r Hw Hr _ Hf. destruct fuel as [|fuel]; [lia|].
  destruct (decimal_head negative int frac x) as (c & t' & Hl & Hc); [by destruct Hok|].
  assert (is_json_ws c = false) as Hnw.
  { apply value_start_not. unfold value_start.
    destruct Hc as [->|[-> _]]; [by rewrite orb_true_r|done]. }
  assert (skip_ws (mk_Parser (w ++ decimal_text negative int frac x ++ r) dep)
          = mk_Parser (decimal_text negative int frac x ++ r) dep) as Hs.
  { apply skip_ws_app; [done|]. rewrite Hl. by intros y [= <-]. }
  rewrite (parse_value_number _ _ c); rewrite ?Hs; cbn [rest].
  - unfold CanonicalJson.parse_number. cbn [rest]. rewrite number_lexeme_decimal by done.
    by rewrite Hn, Ht.
  - by rewrite Hl.
  - destruct Hc as [?|[? _]]; auto.
  - apply not_true_iff_false. rewrite starts_with_spec, Hl. intros [y Hy].
    destruct Hc as [Hc|[-> (d' & t'' & -> & Hd)]].
    + injection Hy as -> _. done.
    + injection Hy as -> _. done.
Qed.

Lemma complete_string d s t : string_spells s t → complete_value d (String s) t.
Proof.
  intros Hs fuel dep w r Hw _ _ Hf. destruct fuel as [|fuel]; [lia|].
  pose proof Hs as (b & _ & Ht). rewrite (parse_value_peek _ _ _ _ dquote) by (done || by subst t).
  cbn [CanonicalJson.parse_value]. pose proof (skip_ws_app [] (t ++ r) dep) as Hsk. cbn [app] in Hsk.
  rewrite Hsk; [|constructor|subst t; by intros y [= <-]].
  assert (peek (mk_Parser (t ++ r) dep) = Some dquote) as -> by by subst t.
  transitivity (let+ (s, p1) := parse_string (mk_Parser (t ++ r) dep) in JOk (String s) p1); [done|].
  by rewrite (parse_string_complete s t).
Qed.

Lemma complete_empty_array d w : ws w → complete_value (S d) (Array []) (ch "[" :: w ++ [ch "]"]).
Proof.
  intros Hw fuel dep w0 r Hw0 _ Hd Hf. destruct fuel as [|fuel]; [lia|].
  rewrite (parse_value_peek _ _ _ _ (ch "[")) by done. cbn [app].
  rewrite parse_value_array by lia. rewrite <-app_assoc. cbn [app].
  rewrite skip_to by done. cbn zeta. rewrite bool_decide_eq_true_2 by done. cbn [jbind].
  unfold leave_nesting, bump, with_rest. cbn [rest depth tail]. by replace (S dep - 1) with dep by lia.
Qed.

Lemma complete_empty_object d w : ws w → complete_value (S d) (Object []) (ch "{" :: w ++ [ch "}"]).
Proof.
  intros Hw fuel dep w0 r Hw0 _ Hd Hf. destruct fuel as [|fuel]; [lia|].
  rewrite (parse_value_peek _ _ _ _ (ch "{")) by done. cbn [app].
  rewrite parse_value_object by lia. rewrite <-app_assoc. cbn [app].
  rewrite skip_to by done. cbn zeta. rewrite bool_decide_eq_true_2 by done. cbn [jbind].
  unfold leave_nesting, bump, with_rest. cbn [rest depth tail]. by replace (S dep - 1) with dep by lia.
Qed.

Lemma complete_items_last d v t w :
  complete_value d v t → ws w → complete_items d [v] (t ++ w ++ [ch "]"]).
Proof.
  intros IH Hw fuel dep w0 r items Hw0 Hd Hf. destruct fuel as [|fuel]; [lia|].
  cbn [CanonicalJson.array_loop]. rewrite <-!app_assoc in *. cbn [app] in *.
  rewrite (IH fuel dep w0 (w ++ ch "]" :: r)); [|done|by apply ws_number_end|done|lia].
  cbn [jbind]. rewrite skip_to by done. reflexivity.
Qed.

Lemma complete_items_cons d v t w w' vs t' :
  complete_value d v t → ws w → ws w' → complete_items d vs t' →
  complete_items d (v :: vs) (t ++ w ++ ch "," :: w' ++ t').
Proof.
  intros IH Hw Hw' IHs fuel dep w0 r items Hw0 Hd Hf. destruct fuel as [|fuel]; [lia|].
  cbn [CanonicalJson.array_loop].
  assert ((t ++ w ++ ch "," :: w' ++ t') ++ r = t ++ w ++ ch "," :: w' ++ t' ++ r) as E
    by (rewrite <-!app_assoc; cbn [app]; by rewrite <-app_assoc).
  rewrite E in *. clear E.
  rewrite (IH fuel dep w0 (w ++ ch "," :: w' ++ t' ++ r)); [|done|by apply ws_number_end|done|lia].
  cbn [jbind]. rewrite skip_to by done.
  change (bump (mk_Parser (ch "," :: ?l) ?d)) with (mk_Parser l d).
  rewrite bool_decide_eq_true_2 by done. rewrite (IHs fuel dep w' r (items ++ [v])).
  - by rewrite <-app_assoc.
  - done.
  - done.
  - rewrite !length_app in *. cbn [length] in Hf. rewrite !length_app in *. lia.
Qed.

(** One member of an object, up to what follows its value. *)
Lemma object_member fuel members dep w k kt w1 w2 v t d r :
  string_spells k kt → ws w → ws w1 → ws w2 → complete_value d v t → dep + d ≤ MAX_NESTING →
  number_end r → (k ∉ map fst members) → 2 * length (w ++ kt ++ w1 ++ ch ":" :: w2 ++ t ++ r) < fuel →
  object_loop (S fuel) members (mk_Parser (w ++ kt ++ w1 ++ ch ":" :: w2 ++ t ++ r) dep) =
    (let members := members ++ [(k, v)] in
     let p5 := skip_ws (mk_Parser r dep) in
     if bool_decide (peek p5 = Some (ch ",")) then object_loop fuel members (bump p5)
     else if bool_decide (peek p5 = Some (ch "}")) then JOk members (bump p5)
     else reject (lit "expected ',' or '}' in object")).
Proof.
  intros Hk Hw Hw1 Hw2 IH Hd Hr Hno Hf. cbn [CanonicalJson.object_loop].
  pose proof Hk as (b & _ & Hkt).
  rewrite skip_ws_app; [|done|subst kt; by intros y [= <-]].
  rewrite (bool_decide_eq_true_2 (peek _ = Some dquote)) by (by subst kt). cbn [negb].
  rewrite (parse_string_complete k kt) by done. cbn [jbind].
  rewrite bool_decide_eq_false_2 by done. rewrite skip_to by done.
  change (bump (mk_Parser (ch ":" :: ?l) ?d)) with (mk_Parser l d).
  rewrite (bool_decide_eq_true_2 (peek _ = Some (ch ":"))) by done. cbn [negb].
  rewrite (IH fuel dep w2 r); [done|done|done|done|].
  rewrite !length_app in *. cbn [length] in Hf. rewrite !length_app in *. lia.
Qed.

Lemma complete_members_last d k kt w1 w2 v t w3 :
  string_spells k kt → ws w1 → ws w2 → complete_value d v t → ws w3 →
  complete_members d [(k, v)] (kt ++ w1 ++ ch ":" :: w2 ++ t ++ w3 ++ [ch "}"]).
Proof.
  intros Hk Hw1 Hw2 IH Hw3 fuel dep w0 r members Hw0 Hd Hnd Hf. destruct fuel as [|fuel]; [lia|].
  assert ((kt ++ w1 ++ ch ":" :: w2 ++ t ++ w3 ++ [ch "}"]) ++ r
          = kt ++ w1 ++ ch ":" :: w2 ++ t ++ w3 ++ ch "}" :: r) as E
    by (rewrite <-!app_assoc; cbn [app]; by rewrite <-!app_assoc).
  rewrite E in *. clear E. rewrite map_app in Hnd. apply NoDup_app in Hnd as (_ & Hno & _).
  rewrite (object_member _ _ _ _ k _ _ _ v _ d); [|done..|by apply ws_number_end| |lia].
  - cbn zeta. rewrite skip_to by done. reflexivity.
  - intros Hin. apply (Hno k Hin). by left.
Qed.

Lemma complete_members_cons d k kt w1 w2 v t w3 w4 ms t' :
  string_spells k kt → ws w1 → ws w2 → complete_value d v t → ws w3 → ws w4 →
  complete_members d ms t' →
  complete_members d ((k, v) :: ms) (kt ++ w1 ++ ch ":" :: w2 ++ t ++ w3 ++ ch "," :: w4 ++ t').
Proof.
  intros Hk Hw1 Hw2 IH Hw3 Hw4 IHs fuel dep w0 r members Hw0 Hd Hnd Hf. destruct fuel as [|fuel]; [lia|].
  assert ((kt ++ w1 ++ ch ":" :: w2 ++ t ++ w3 ++ ch "," :: w4 ++ t') ++ r
          = kt ++ w1 ++ ch ":" :: w2 ++ t ++ w3 ++ ch "," :: w4 ++ t' ++ r) as E
    by (rewrite <-!app_assoc; cbn [app]; rewrite <-!app_assoc; cbn [app]; by rewrite <-!app_assoc).
  rewrite E in *. clear E. pose proof Hnd as Hnd'. rewrite map_app in Hnd.
  apply NoDup_app in Hnd as (_ & Hno & _).
  rewrite (object_member _ _ _ _ k _ _ _ v _ d); [|done..|by apply ws_number_end| |lia].
  - cbn zeta. rewrite skip_to by done.
    change (bump (mk_Parser (ch "," :: ?l) ?d)) with (mk_Parser l d).
    rewrite bool_decide_eq_true_2 by done. rewrite (IHs fuel dep w4 r (members ++ [(k, v)])).
    + by rewrite <-app_assoc.
    + done.
    + done.
    + by rewrite <-app_assoc.
    + rewrite !length_app in *. cbn [length] in Hf. rewrite !length_app in *.
      cbn [length] in Hf. rewrite !length_app in Hf. lia.
  - intros Hin. apply (Hno k Hin). by left.
Qed.

(** The parser reads every spelling of a value. *)
Lemma parse_complete :
  (∀ d v t, spells d v t → complete_value d v t)
  ∧ (∀ d vs t, items_spell d vs t → complete_items d vs t)
  ∧ (∀ d ms t, members_spell d ms t → complete_members d ms t).
Proof.
  apply (spells_ind_mut format_finite).
  1-3: intros d fuel dep w r Hw _ _ Hf; (destruct fuel as [|fuel]; [lia|]);
    apply complete_literal; [done|set_solver].
  - intros. by eapply complete_number.
  - intros. by apply complete_string.
  - intros. by apply complete_empty_array.
  - intros. by apply complete_array.
  - intros. by apply complete_empty_object.
  - intros. by apply complete_object.
  - intros. by apply complete_items_last.
  - intros. by apply complete_items_cons.
  - intros. by apply complete_members_last.
  - intros. by apply complete_members_cons.
Qed.

(** ** Soundness *)

(** What a successful step has read: white space and a spelling. *)
Definition reads {A} (Q : A → text → Prop) (a : A) (p p' : Parser) : Prop :=
  ∃ w t, ws w ∧ Q a t ∧ rest p = w ++ t ++ rest p' ∧ depth p' = depth p.

Lemma reads_skip {A} (Q : A → text → Prop) a t p p' :
  Q a t → rest (skip_ws p) = t ++ rest p' → depth p' = depth p → reads Q a p p'.
Proof.
  intros HQ Hr Hd. destruct (skip_ws_spec p) as (w & Hw & Hp & _). exists w, t. by rewrite Hp, Hr.
Qed.

Definition avail (p : Parser) : nat := MAX_NESTING - depth p.

Lemma parse_number_sound p v p' d :
  parse_number (skip_ws p) = JOk v p' → reads (spells d) v p p'.
Proof.
  unfold CanonicalJson.parse_number. destruct (number_lexeme _) as [|[l r]] eqn:El; [done|].
  apply number_lexeme_sound in El as (neg & int & frac & x & Hok & -> & Hs).
  destruct (parse_f64 _) as [n|] eqn:En; [|done].
  destruct (number_from_f64 _ _ _) as [|t] eqn:Et; [done|]. intros [= <- <-].
  eapply reads_skip; [by eapply spell_number|exact Hs|].
  by destruct (skip_ws_spec p) as (_ & _ & _ & Hd & _).
Qed.

Lemma parse_literal_sound l v v' p p' d :
  spells d v l → parse_literal l v (skip_ws p) = JOk v' p' → reads (spells d) v' p p'.
Proof.
  intros Hv. unfold parse_literal. destruct (strip_prefix l _) as [r|] eqn:E; [|done].
  intros [= <- <-]. apply strip_prefix_Some in E. eapply reads_skip; [done|exact E|].
  by destruct (skip_ws_spec p) as (_ & _ & _ & Hd & _).
Qed.

Lemma parse_string_reads p s p' d :
  peek (skip_ws p) = Some dquote → parse_string (skip_ws p) = JOk s p' →
  reads (spells d) (String s) p p'.
Proof.
  intros Hp H. apply parse_string_sound in H as (t & Ht & Hr & Hd); [|done].
  eapply reads_skip; [by apply spell_string|done|].
  destruct (skip_ws_spec p) as (_ & _ & _ & Hd' & _). congruence.
Qed.

(** The brackets around the items or members of a value. *)
Lemma reads_open (c : N) p p1 :
  peek (skip_ws p) = Some c → enter_nesting (skip_ws p) = JOk () p1 →
  ∃ w, ws w ∧ rest (skip_ws p) = c :: w ++ rest (skip_ws (bump p1))
    ∧ depth (skip_ws (bump p1)) = S (depth p) ∧ avail p = S (avail (skip_ws (bump p1))).
Proof.
  destruct (skip_ws_spec p) as (_ & _ & _ & Hd & _). generalize dependent (skip_ws p).
  intros [r d] Hd Hp. cbn [depth] in Hd. subst d. unfold enter_nesting, peek in *. cbn [rest depth] in *.
  destruct (Nat.leb_spec MAX_NESTING (depth p)); [done|]. intros [= <-].
  destruct r as [|c' r]; [done|]. injection Hp as ->.
  change (bump _) with (mk_Parser r (S (depth p))).
  destruct (skip_ws_spec (mk_Parser r (S (depth p)))) as (w & Hw & Hr & Hd' & _).
  exists w. cbn [rest depth] in Hr, Hd'. unfold avail. rewrite Hd', <-Hr. repeat split; [done|lia].
Qed.

Lemma bump_peek p c : peek p = Some c → rest p = c :: rest (bump p) ∧ depth (bump p) = depth p.
Proof. unfold peek. destruct p as [[|c' r] d]; cbn; [done|]. by intros [= ->]. Qed.

Definition sound_at (fuel : nat) : Prop :=
  (∀ p v p', parse_value fuel p = JOk v p' → reads (spells (avail p)) v p p')
  ∧ (∀ items p vs p', array_loop fuel items p = JOk vs p' →
       ∃ vs', vs = items ++ vs' ∧ reads (items_spell (avail p)) vs' p p')
  ∧ (∀ members p ms p', object_loop fuel members p = JOk ms p' → NoDup (map fst members) →
       ∃ ms', ms = members ++ ms' ∧ NoDup (map fst ms)
              ∧ reads (members_spell (avail p)) ms' p p').

Lemma sound_array fuel p v p' :
  sound_at fuel → peek (skip_ws p) = Some (ch "[") →
  (let+ (_u, p1) := enter_nesting (skip_ws p) in
   let p2 := skip_ws (bump p1) in
   let+ (items, p3) :=
     if bool_decide (peek p2 = Some (ch "]")) then JOk [] (bump p2) else array_loop fuel [] p2 in
   JOk (Array items) (leave_nesting p3)) = JOk v p' →
  reads (spells (avail p)) v p p'.
Proof.
  intros (_ & IH & _) Hp. destruct (enter_nesting _) as [[] p1| |] eqn:Ee; cbn [jbind]; [|done..].
  destruct (reads_open _ _ _ Hp Ee) as (w & Hw & Hr & Hd & Ha). cbn zeta. rewrite Ha.
  case_bool_decide as Hb.
  - cbn [jbind]. intros [= <- <-]. destruct (bump_peek _ _ Hb) as [Hr' Hd'].
    eapply reads_skip; [by apply spell_empty_array| |unfold leave_nesting; cbn [depth]; rewrite Hd', Hd; lia].
    rewrite Hr, Hr'. cbn. by rewrite <-app_assoc.
  - destruct (array_loop fuel [] _) as [items p3| |] eqn:El; cbn [jbind]; [|done..].
    intros [= <- <-]. apply IH in El as (vs & -> & w' & t & Hw' & Ht & Hr' & Hd').
    eapply reads_skip; [apply (spell_array _ _ (w ++ w') vs t); [by apply Forall_app_2|done]| |].
    + rewrite Hr, Hr'. cbn. by rewrite <-!app_assoc.
    + unfold leave_nesting. cbn [depth]. rewrite Hd', Hd. lia.
Qed.

Lemma sound_object fuel p v p' :
  sound_at fuel → peek (skip_ws p) = Some (ch "{") →
  (let+ (_u, p1) := enter_nesting (skip_ws p) in
   let p2 := skip_ws (bump p1) in
   let+ (members, p3) :=
     if bool_decide (peek p2 = Some (ch "}")) then JOk [] (bump p2) else object_loop fuel [] p2 in
   JOk (Object (sort_members members)) (leave_nesting p3)) = JOk v p' →
  reads (spells (avail p)) v p p'.
Proof.
  intros (_ & _ & IH) Hp. destruct (enter_nesting _) as [[] p1| |] eqn:Ee; cbn [jbind]; [|done..].
  destruct (reads_open _ _ _ Hp Ee) as (w & Hw & Hr & Hd & Ha). cbn zeta. rewrite Ha.
  case_bool_decide as Hb.
  - cbn [jbind]. intros [= <- <-]. destruct (bump_peek _ _ Hb) as [Hr' Hd'].
    eapply reads_skip; [by apply (spell_empty_object _ _ w)| |unfold leave_nesting; cbn [depth]; rewrite Hd', Hd; lia].
    rewrite Hr, Hr'. cbn. by rewrite <-app_assoc.
  - destruct (object_loop fuel [] _) as [members p3| |] eqn:El; cbn [jbind]; [|done..].
    intros [= <- <-]. apply IH in El as (ms & -> & Hnd & w' & t & Hw' & Ht & Hr' & Hd'); [|constructor].
    eapply reads_skip; [apply (spell_object _ _ (w ++ w') ms t); [by apply Forall_app_2|done|done]| |].
    + rewrite Hr, Hr'. cbn. by rewrite <-!app_assoc.
    + unfold leave_nesting. cbn [depth]. rewrite Hd', Hd. lia.
Qed.

(** A separator or bracket after white space. *)
Lemma skip_peek p c :
  peek (skip_ws p) = Some c →
  ∃ w, ws w ∧ rest p = w ++ c :: rest (bump (skip_ws p)) ∧ depth (bump (skip_ws p)) = depth p.
Proof.
  intros [Hr Hd]%bump_peek. destruct (skip_ws_spec p) as (w & Hw & Hr' & Hd' & _).
  exists w. rewrite Hr', Hr. split; [done|]. split; [done|congruence].
Qed.

Lemma sound_value fuel p v p' :
  sound_at fuel → parse_value (S fuel) p = JOk v p' → reads (spells (avail p)) v p p'.
Proof.
  intros IH. cbn [CanonicalJson.parse_value]. destruct (peek (skip_ws p)) as [c|] eqn:Hp; [|done].
  destruct (N.eqb_spec c (ch "n")); [apply parse_literal_sound; constructor|].
  destruct (N.eqb_spec c (ch "t")); [apply parse_literal_sound; constructor|].
  destruct (N.eqb_spec c (ch "f")); [apply parse_literal_sound; constructor|].
  destruct (N.eqb_spec c (ch "N")); [by case_match|].
  destruct (N.eqb_spec c (ch "I")); [by case_match|].
  destruct (N.eqb_spec c dquote) as [->|].
  { destruct (parse_string _) as [s p1| |] eqn:Es; cbn [jbind]; [|done..]. intros [= <- <-].
    by apply parse_string_reads. }
  destruct (N.eqb_spec c (ch "[")) as [->|]; [by apply sound_array|].
  destruct (N.eqb_spec c (ch "{")) as [->|]; [by apply sound_object|].
  destruct (_ && _); [done|]. destruct (_ || _); [apply parse_number_sound|done].
Qed.

Lemma sound_items fuel items p vs p' :
  sound_at fuel → array_loop (S fuel) items p = JOk vs p' →
  ∃ vs', vs = items ++ vs' ∧ reads (items_spell (avail p)) vs' p p'.
Proof.
  intros (IHv & IHi & _). cbn [CanonicalJson.array_loop].
  destruct (parse_value fuel p) as [v p1| |] eqn:Ev; cbn [jbind]; [|done..].
  apply IHv in Ev as (w & t & Hw & Ht & Hr & Hd).
  assert (avail p1 = avail p) as Ha by (unfold avail; by rewrite Hd).
  case_bool_decide as Hc; [|case_bool_decide as Hb; [|done]].
  - destruct (skip_peek _ _ Hc) as (w2 & Hw2 & Hr2 & Hd2).
    intros (vs' & -> & w3 & t3 & Hw3 & Ht3 & Hr3 & Hd3)%IHi.
    assert (avail (bump (skip_ws p1)) = avail p) as Ha2 by (unfold avail; by rewrite Hd2, Hd).
    rewrite Ha2 in Ht3. exists (v :: vs'). split; [by rewrite <-app_assoc|].
    exists w, (t ++ w2 ++ ch "," :: w3 ++ t3). split; [done|]. split; [by apply items_cons|].
    split; [|congruence]. rewrite Hr, Hr2, Hr3, <-!app_assoc. cbn [app]. by rewrite <-!app_assoc.
  - destruct (skip_peek _ _ Hb) as (w2 & Hw2 & Hr2 & Hd2). intros [= <- <-].
    exists [v]. split; [done|]. exists w, (t ++ w2 ++ [ch "]"]). split; [done|].
    split; [by apply items_last|]. split; [|congruence]. by rewrite Hr, Hr2, <-!app_assoc.
Qed.

Lemma sound_members fuel members p ms p' :
  sound_at fuel → object_loop (S fuel) members p = JOk ms p' → NoDup (map fst members) →
  ∃ ms', ms = members ++ ms' ∧ NoDup (map fst ms) ∧ reads (members_spell (avail p)) ms' p p'.
Proof.
  intros (IHv & _ & IHm). cbn [CanonicalJson.object_loop]. case_bool_decide as Hq; [|done].
  cbn [negb]. destruct (parse_string _) as [k p2| |] eqn:Es; cbn [jbind]; [|done..].
  apply parse_string_sound in Es as (kt & Hkt & Hrk & Hdk); [|done].
  destruct (skip_ws_spec p) as (w0 & Hw0 & Hr0 & Hd0 & _).
  case_bool_decide as Hin; [done|]. case_bool_decide as Hcol; [|done]. cbn [negb].
  destruct (skip_peek _ _ Hcol) as (w1 & Hw1 & Hr1 & Hd1).
  destruct (parse_value fuel _) as [v p4| |] eqn:Ev; cbn [jbind]; [|done..].
  apply IHv in Ev as (w2 & t & Hw2 & Ht & Hr4 & Hd4).
  assert (avail (bump (skip_ws p2)) = avail p) as Ha by (unfold avail; by rewrite Hd1, Hdk, Hd0).
  rewrite Ha in Ht. intros H Hnd.
  assert (NoDup (map fst (members ++ [(k, v)]))) as Hnd'.
  { rewrite map_app. apply NoDup_app. split; [done|]. split; [|apply NoDup_singleton].
    intros x Hx ->%list_elem_of_singleton. done. }
  revert H. case_bool_decide as Hc; [|case_bool_decide as Hb; [|done]].
  - destruct (skip_peek _ _ Hc) as (w3 & Hw3 & Hr5 & Hd5). intros H.
    apply IHm in H as (ms' & -> & Hnd2 & w4 & t' & Hw4 & Ht' & Hr6 & Hd6); [|done].
    assert (avail (bump (skip_ws p4)) = avail p) as Ha2 by (unfold avail; by rewrite Hd5, Hd4, Hd1, Hdk, Hd0).
    rewrite Ha2 in Ht'. exists ((k, v) :: ms'). split; [by rewrite <-app_assoc|].
    split; [done|]. exists w0, (kt ++ w1 ++ ch ":" :: w2 ++ t ++ w3 ++ ch "," :: w4 ++ t').
    split; [done|]. split; [by apply members_cons|]. split; [|congruence].
    rewrite Hr0, Hrk, Hr1, Hr4, Hr5, Hr6. repeat (rewrite <-!app_assoc; cbn [app]). done.
  - destruct (skip_peek _ _ Hb) as (w3 & Hw3 & Hr5 & Hd5). intros [= <- <-].
    exists [(k, v)]. split; [done|]. split; [done|].
    exists w0, (kt ++ w1 ++ ch ":" :: w2 ++ t ++ w3 ++ [ch "}"]). split; [done|].
    split; [by apply members_last|]. split; [|congruence].
    rewrite Hr0, Hrk, Hr1, Hr4, Hr5. repeat (rewrite <-!app_assoc; cbn [app]). done.
Qed.

Lemma parse_sound fuel : sound_at fuel.
Proof.
  induction fuel as [|fuel IH]; [done|].
  split; [intros; by apply (sound_value fuel)|]. split; intros; [by apply (sound_items fuel)|].
  by apply (sound_members fuel).
Qed.

(** ** Fuel *)

Lemma reads_length {A} (Q : A → text → Prop) a p p' :
  reads Q a p p' → (∀ t, Q a t → 1 ≤ length t) → length (rest p') < length (rest p).
Proof.
  intros (w & t & _ & Ht & -> & _) Hq. specialize (Hq t Ht). rewrite !length_app. lia.
Qed.

Lemma skip_ws_length p : length (rest (skip_ws p)) ≤ length (rest p).
Proof. destruct (skip_ws_spec p) as (w & _ & -> & _). rewrite length_app. lia. Qed.

Lemma bump_length p c : peek p = Some c → S (length (rest (bump p))) = length (rest p).
Proof. intros [-> _]%bump_peek. done. Qed.

Definition fuel_ok (fuel : nat) : Prop :=
  (∀ p, 2 * length (rest p) < fuel → parse_value fuel p ≠ JNoFuel)
  ∧ (∀ items p, 2 * length (rest p) + 1 < fuel → array_loop fuel items p ≠ JNoFuel)
  ∧ (∀ members p, 2 * length (rest p) + 1 < fuel → object_loop fuel members p ≠ JNoFuel).

Lemma value_consumes fuel p v p' :
  parse_value fuel p = JOk v p' → length (rest p') < length (rest p).
Proof.
  intros H. apply (parse_sound fuel) in H. apply (reads_length _ _ _ _ H).
  intros t (c & t' & -> & _)%spells_head. simpl. lia.
Qed.

Lemma fuel_brackets {A} fuel c close p (loop : Parser → parsed A) (empty : A) (k : A → Parser → Canonical * Parser) :
  peek (skip_ws p) = Some c → 2 * length (rest p) < S fuel →
  (∀ q, 2 * length (rest q) + 1 < fuel → loop q ≠ JNoFuel) →
  (let+ (_u, p1) := enter_nesting (skip_ws p) in
   let p2 := skip_ws (bump p1) in
   let+ (a, p3) := if bool_decide (peek p2 = Some close) then JOk empty (bump p2) else loop p2 in
   JOk (fst (k a p3)) (snd (k a p3))) ≠ JNoFuel.
Proof.
  intros Hp Hf Hloop. unfold enter_nesting. destruct (_ <=? _); [done|]. cbn [jbind]. cbn zeta.
  case_bool_decide; [done|].
  assert (loop (skip_ws (bump (mk_Parser (rest (skip_ws p)) (S (depth (skip_ws p)))))) ≠ JNoFuel) as Hl;
    [|by destruct (loop _)].
  apply Hloop. pose proof (skip_ws_length (bump (mk_Parser (rest (skip_ws p)) (S (depth (skip_ws p)))))) as H1.
  pose proof (bump_length (mk_Parser (rest (skip_ws p)) (S (depth (skip_ws p)))) c Hp) as H2.
  cbn [rest] in H2. pose proof (skip_ws_length p). lia.
Qed.

Lemma fuel_value fuel p :
  fuel_ok fuel → 2 * length (rest p) < S fuel → parse_value (S fuel) p ≠ JNoFuel.
Proof.
  intros (_ & IHa & IHo) Hf. cbn [CanonicalJson.parse_value].
  destruct (peek (skip_ws p)) as [c|] eqn:Hp; [|done].
  unfold parse_literal, reject. do 5 (destruct (N.eqb c _); [by case_match|]).
  destruct (N.eqb c dquote).
  { pose proof (parse_string_fuel (skip_ws p)). by destruct (parse_string _). }
  destruct (N.eqb c (ch "[")).
  { apply (fuel_brackets fuel c _ p (array_loop fuel []) [] (λ a p3, (Array a, leave_nesting p3)));
      [done|done|]. intros q Hq. by apply IHa. }
  destruct (N.eqb c (ch "{")).
  { apply (fuel_brackets fuel c _ p (object_loop fuel []) []
      (λ a p3, (Object (sort_members a), leave_nesting p3))); [done|done|]. intros q Hq. by apply IHo. }
  destruct (_ && _); [done|]. destruct (_ || _); [|done].
  unfold CanonicalJson.parse_number, reject. repeat case_match; done.
Qed.

Lemma parse_fuel fuel : fuel_ok fuel.
Proof.
  induction fuel as [|fuel IH]; [split; [intros; lia|split; intros; lia]|].
  split; [intros; by apply fuel_value|]. destruct IH as (IHv & IHa & IHo). split.
  - intros items p Hf. cbn [CanonicalJson.array_loop].
    destruct (parse_value fuel p) as [v p1| |] eqn:Ev; cbn [jbind];
      [|done|exfalso; apply (IHv p); [lia|done]].
    apply value_consumes in Ev. pose proof (skip_ws_length p1).
    case_bool_decide as Hc; [apply IHa; apply bump_length in Hc; lia|]. by case_bool_decide.
  - intros members p Hf. cbn [CanonicalJson.object_loop].
    case_bool_decide as Hq; [|done]. cbn [negb]. pose proof (skip_ws_length p) as H0.
    destruct (parse_string _) as [k p2| |] eqn:Es; cbn [jbind]; [|done|by apply parse_string_fuel in Es].
    apply parse_string_sound in Es as (kt & (b & _ & ->) & Hrk & _); [|done].
    apply (f_equal length) in Hrk. rewrite length_app in Hrk. cbn [length] in Hrk.
    case_bool_decide; [done|]. pose proof (skip_ws_length p2) as H2.
    case_bool_decide as Hcol; [|done]. cbn [negb]. apply bump_length in Hcol.
    destruct (parse_value fuel _) as [v p4| |] eqn:Ev; cbn [jbind];
      [|done|exfalso; apply (IHv (bump (skip_ws p2))); [lia|done]].
    apply value_consumes in Ev. pose proof (skip_ws_length p4).
    case_bool_decide as Hc; [apply IHo; apply bump_length in Hc; lia|]. by case_bool_decide.
Qed.
End Values.
