(* ===== verification/JsonTheorems.v ===== *)
(** * Canonical JSON: theorems

    The canonical form accepts exactly the JSON texts, is itself a spelling of the
    value it was computed from, and does not depend on white space, escapes, number
    lexemes or the order of members. *)
From Stdlib Require Import SpecFloat.
From stdpp Require Import base strings sets numbers tactics sorting list.
From S2P Require Import Prelude Text CanonicalJson JsonNumbers JsonSpelling.

Local Open Scope json_scope.
#[local] Ltac Zify.zify_post_hook ::= Z.to_euclidean_division_equations.

(** ** The canonical text spells its value *)

Lemma control_escape c :
  N.ltb c 32 = true →
  hex_units 0 (drop 2 (unicode_escape c)) = Some c ∧ is_scalar c = true.
Proof.
  intros Hc. assert (forallb (λ c, bool_decide (hex_units 0 (drop 2 (unicode_escape c)) = Some c)
      && is_scalar c) (map N.of_nat (seq 0 32)) = true) as Hall by (vm_compute; reflexivity).
  rewrite forallb_forall in Hall. specialize (Hall c). rewrite andb_true_iff, bool_decide_eq_true in Hall.
  apply Hall, in_map_iff. exists (N.to_nat c). split; [lia|]. apply in_seq. apply N.ltb_lt in Hc. lia.
Qed.

Lemma write_char_spells c : char_spells c (write_json_char c).
Proof.
  unfold write_json_char. destruct (N.eqb_spec c dquote) as [->|H1]; [by constructor|].
  destruct (N.eqb_spec c backslash) as [->|H2]; [by constructor|].
  destruct (N.eqb_spec c 8) as [->|]; [by constructor|].
  destruct (N.eqb_spec c 9) as [->|]; [by constructor|].
  destruct (N.eqb_spec c 10) as [->|]; [by constructor|].
  destruct (N.eqb_spec c 12) as [->|]; [by constructor|].
  destruct (N.eqb_spec c 13) as [->|]; [by constructor|].
  destruct (N.ltb c 32) eqn:H3; [|by constructor].
  destruct (control_escape c H3) as [Hh Hs]. by apply (spell_unicode (drop 2 (unicode_escape c))).
Qed.

Lemma write_string_spells s : string_spells s (write_json_string s).
Proof.
  exists (s ≫= write_json_char). split; [|done].
  induction s as [|c s IH]; [constructor|]. rewrite bind_cons. constructor; [apply write_char_spells|done].
Qed.

Lemma ws_nil : ws [].
Proof. constructor. Qed.
#[local] Hint Resolve ws_nil : mega.

Section Theorems.
Variable format_finite : spec_float → text.
Abbreviation spells := (spells format_finite).
Abbreviation items_spell := (items_spell format_finite).
Abbreviation members_spell := (members_spell format_finite).
Abbreviation canonicalize := (canonicalize format_finite).

(** [l] occurs in [t]. *)
Definition infix (l t : text) : Prop := ∃ a b, t = a ++ l ++ b.

(** The floats of the numbers that occur in a text are rendered as [ryu] documents. *)
Definition numbers_render (t : text) : Prop :=
  ∀ l n, infix l t → parse_f64 l = Some n → finite_nonzero n = true → renders format_finite n.

Lemma numbers_render_infix t t' : numbers_render t → infix t' t → numbers_render t'.
Proof.
  intros H (a & b & ->) l n (a' & b' & ->). apply H. exists (a ++ a'), (b' ++ b).
  by rewrite <-!app_assoc.
Qed.

Lemma infix_refl t : infix t t.
Proof. exists [], []. by rewrite app_nil_r. Qed.

Lemma infix_app_l t a b : infix t a → infix t (a ++ b).
Proof. intros (x & y & ->). exists x, (y ++ b). by rewrite <-!app_assoc. Qed.

Lemma infix_app_r t a b : infix t b → infix t (a ++ b).
Proof. intros (x & y & ->). exists (a ++ x), y. by rewrite <-!app_assoc. Qed.

Lemma infix_cons t c b : infix t b → infix t (c :: b).
Proof. apply (infix_app_r t [c]). Qed.

#[local] Hint Resolve infix_refl infix_app_l infix_app_r infix_cons : mega.

Lemma number_spells d n l t :
  number_from_f64 format_finite n l = inr t →
  (finite_nonzero n = true → renders format_finite n) → spells d (Number t) t.
Proof.
  destruct n as [s|s| |s m e]; cbn [number_from_f64]; [|done..|]; intros [= <-] Hr.
  - change (lit "0") with (decimal_text false (lit "0") [] None).
    apply (spell_number _ _ _ _ _ _ (S754_zero false)); [|reflexivity|reflexivity].
    split; [by left|]. split; [constructor|done].
  - destruct (es6_reads_back format_finite (S754_finite s m e)) as (neg & int & frac & x & Ht & Hok & Hp);
      [by apply Hr|done|].
    rewrite Ht at 2. apply (spell_number _ _ _ _ _ _ (S754_finite s m e)); [done|by rewrite <-Ht|].
    by rewrite <-Ht.
Qed.

Lemma write_items d vs :
  vs ≠ [] → Forall (λ v, spells d v (write_jcs v)) vs →
  items_spell d vs (join (ch ",") (map write_jcs vs) ++ [ch "]"]).
Proof.
  intros Hne H. induction H as [|v vs Hv _ IH]; [done|]. destruct vs as [|v' vs].
  - apply (items_last _ _ _ _ []); [done|apply ws_nil].
  - change (join (ch ",") (map write_jcs (v :: v' :: vs)))
      with (write_jcs v ++ ch "," :: join (ch ",") (map write_jcs (v' :: vs))).
    rewrite <-app_assoc. cbn [app]. apply (items_cons _ _ _ _ [] []); auto with mega.
Qed.

Definition write_member (kv : text * Canonical) : text :=
  write_json_string (fst kv) ++ ch ":" :: write_jcs (snd kv).

Lemma write_members d ms :
  ms ≠ [] → Forall (λ kv, spells d (snd kv) (write_jcs (snd kv))) ms →
  members_spell d ms (join (ch ",") (map write_member ms) ++ [ch "}"]).
Proof.
  intros Hne H. induction H as [|[k v] ms Hv _ IH]; [done|]. destruct ms as [|kv' ms].
  - cbn [map join]. unfold write_member. cbn [fst snd]. rewrite <-app_assoc. cbn [app].
    apply (members_last _ _ k _ [] [] v _ []); auto using write_string_spells with mega.
  - change (join (ch ",") (map write_member ((k, v) :: kv' :: ms)))
      with (write_member (k, v) ++ ch "," :: join (ch ",") (map write_member (kv' :: ms))).
    unfold write_member at 1. cbn [fst snd]. repeat (rewrite <-!app_assoc; cbn [app]).
    apply (members_cons _ _ k _ [] [] v _ [] []); auto using write_string_spells with mega.
Qed.

Lemma sort_members_idemp ms : sort_members (sort_members ms) = sort_members ms.
Proof. apply sort_by_idemp, _. Qed.

Lemma write_object d ms :
  ms ≠ [] → NoDup (map fst ms) → Forall (λ kv, spells d (snd kv) (write_jcs (snd kv))) ms →
  spells (S d) (Object (sort_members ms)) (write_jcs (Object (sort_members ms))).
Proof.
  intros Hne Hnd Hf. pose proof (sort_by_perm (λ kv, encode_utf16 (fst kv)) (lex_compare N.compare) ms) as Hp.
  fold (sort_members ms) in Hp. rewrite <-sort_members_idemp at 1.
  apply (spell_object _ _ []); [apply ws_nil| |].
  - apply write_members; [|by rewrite Hp].
    intros E. rewrite E in Hp. by apply Permutation_nil_l in Hp.
  - by rewrite Hp.
Qed.

(** The text written for a value that has a spelling spells it again. *)
Lemma write_spells :
  (∀ d v t, spells d v t → numbers_render t → spells d v (write_jcs v))
  ∧ (∀ d vs t, items_spell d vs t → numbers_render t →
       vs ≠ [] ∧ Forall (λ v, spells d v (write_jcs v)) vs)
  ∧ (∀ d ms t, members_spell d ms t → numbers_render t →
       ms ≠ [] ∧ Forall (λ kv, spells d (snd kv) (write_jcs (snd kv))) ms).
Proof.
  pose proof numbers_render_infix as Hsub.
  apply (spells_ind_mut format_finite).
  1-3: intros d _; constructor.
  - intros d neg int frac x n t Hok Hn Ht Hr. eapply number_spells; [done|].
    apply (Hr _ n (infix_refl _) Hn).
  - intros d s t _ _. constructor. apply write_string_spells.
  - intros d w _ _. apply (spell_empty_array _ _ []), ws_nil.
  - intros d w vs t _ _ IH Hr. destruct IH as [Hne IH]; [eauto with mega|].
    apply (spell_array _ _ []); [apply ws_nil|by apply write_items].
  - intros d w _ _. apply (spell_empty_object _ _ []), ws_nil.
  - intros d w ms t _ _ IH Hnd Hr. destruct IH as [Hne IH]; [eauto with mega|]. by apply write_object.
  - intros d v t w _ IH _ Hr. split; [done|]. constructor; [|constructor]. eauto with mega.
  - intros d v t w w' vs t' _ IH _ _ _ IHs Hr. split; [done|].
    constructor; [eauto with mega|]. apply IHs. eauto 10 with mega.
  - intros d k kt w1 w2 v t w3 _ _ _ _ IH _ Hr. split; [done|]. constructor; [|constructor].
    apply IH. eauto 10 with mega.
  - intros d k kt w1 w2 v t w3 w4 ms t' _ _ _ _ IH _ _ _ IHs Hr. split; [done|].
    constructor; [apply IH; eauto 10 with mega|apply IHs; eauto 12 with mega].
Qed.

(** Deeper limits accept more. *)
Lemma spells_mono_mut :
  (∀ d v t, spells d v t → ∀ d', d ≤ d' → spells d' v t)
  ∧ (∀ d vs t, items_spell d vs t → ∀ d', d ≤ d' → items_spell d' vs t)
  ∧ (∀ d ms t, members_spell d ms t → ∀ d', d ≤ d' → members_spell d' ms t).
Proof.
  apply (spells_ind_mut format_finite); intros; try (by econstructor; eauto).
  all: match goal with H : S _ ≤ ?d' |- _ => destruct d' as [|d'']; [lia|apply le_S_n in H] end;
    econstructor; eauto.
Qed.

Lemma spells_mono d d' v t : d ≤ d' → spells d v t → spells d' v t.
Proof. intros Hd Hs. by apply (proj1 spells_mono_mut d v t Hs). Qed.

(** ** The canonical form, from spellings *)

Lemma ws_end w : ws w → number_end w.
Proof.
  intros Hw c Hc. destruct w as [|c' w]; [done|]. injection Hc as ->. apply Forall_cons in Hw as [Hc _].
  apply (ws_number_end [c] (ch " ") []); [by constructor|done..].
Qed.

Lemma canonicalize_spells v w t w' :
  ws w → ws w' → spells MAX_NESTING v t → canonicalize (w ++ t ++ w') = Ok (write_jcs v).
Proof.
  intros Hw Hw' Hs. unfold CanonicalJson.canonicalize, json_fuel.
  rewrite (proj1 (parse_complete format_finite) MAX_NESTING v t Hs); [|done|by apply ws_end|lia|lia].
  pose proof (skip_ws_app w' [] 0 Hw') as Hsk. rewrite app_nil_r in Hsk.
  rewrite Hsk by done. done.
Qed.

Lemma canonicalize_sound json c :
  canonicalize json = Ok c →
  ∃ v w t w', ws w ∧ ws w' ∧ json = w ++ t ++ w' ∧ spells MAX_NESTING v t ∧ c = write_jcs v.
Proof.
  unfold CanonicalJson.canonicalize. destruct (parse_value _ _ _) as [v p| |] eqn:E; [|done..].
  apply (parse_sound format_finite) in E as (w & t & Hw & Ht & Hr & _). cbn [rest] in Hr.
  case_bool_decide as He; [|done]. intros [= <-].
  destruct (skip_ws_spec p) as (w' & Hw' & Hr' & _). rewrite He, app_nil_r in Hr'.
  exists v, w, t, w'. by subst w'.
Qed.

(** Only one value has a given spelling. *)
End Theorems.

(** ** The order of members *)

Definition scalars (s : text) : Prop := Forall (λ c, is_scalar c = true) s.

Lemma utf16_char_inj c c' s s' :
  is_scalar c = true → is_scalar c' = true →
  utf16_char c ++ s = utf16_char c' ++ s' → c = c' ∧ s = s'.
Proof.
  unfold utf16_char, is_scalar, in_range. rewrite !orb_true_iff, !andb_true_iff, !N.leb_le.
  intros Hc Hc'. destruct (N.ltb_spec c 65536), (N.ltb_spec c' 65536); cbn [app].
  - by intros [= -> ->].
  - intros [= E _]. lia.
  - intros [= E _]. lia.
  - intros [= E1 E2 ->]. split; [|done]. lia.
Qed.

Lemma encode_utf16_inj s s' : scalars s → scalars s' → encode_utf16 s = encode_utf16 s' → s = s'.
Proof.
  intros Hs. revert s'. induction Hs as [|c s Hc _ IH]; intros s' Hs' E.
  - destruct s' as [|c' s']; [done|]. exfalso. revert E. unfold encode_utf16. rewrite bind_cons.
    unfold utf16_char. by destruct (_ <? _)%N.
  - destruct s' as [|c' s'].
    { exfalso. revert E. unfold encode_utf16. rewrite bind_cons. unfold utf16_char. by destruct (_ <? _)%N. }
    apply Forall_cons in Hs' as [Hc' Hs']. unfold encode_utf16 in E. rewrite !bind_cons in E.
    apply utf16_char_inj in E as [-> E]; [|done..]. f_equal. by apply IH.
Qed.

(** Sorting by distinct keys does not depend on the order before it. *)
Lemma sort_members_perm ms ms' :
  Permutation ms ms' → NoDup (map fst ms) → Forall scalars (map fst ms) →
  sort_members ms = sort_members ms'.
Proof.
  intros Hp Hnd Hsc.
  apply (StronglySorted_unique_strong (key_le (λ kv, encode_utf16 (fst kv)) (lex_compare N.compare)));
    [|apply sort_by_sorted, _..|by unfold sort_members; rewrite !sort_by_perm].
  unfold sort_members. intros [k v] [k' v']. rewrite !sort_by_perm, <-Hp. intros H1 H2 Hle Hle'.
  assert (k = k') as <-.
  { rewrite Forall_forall in Hsc. apply encode_utf16_inj; [apply Hsc|apply Hsc|];
      [apply list_elem_of_fmap; by eexists (_, _)..|].
    by apply (cmp_leb_antisym (lex_compare N.compare)). }
  f_equal. apply list_elem_of_lookup in H1 as [i Hi], H2 as [j Hj].
  assert (i = j) as ->; [|congruence].
  apply (proj1 (NoDup_alt _) Hnd i j k); rewrite list_lookup_fmap; [by rewrite Hi|by rewrite Hj].
Qed.

(** ** Theorems *)

(** C17: canonicalisation accepts exactly the JSON texts: white space around a
    spelling of a value, at most 128 levels deep, with distinct member names and
    numbers in the range of [f64]; its result is the canonical text of that value. *)
Theorem json_canonicalize_exact format_finite json c :
  CanonicalJson.canonicalize format_finite json = Ok c ↔
  ∃ v w t w', ws w ∧ ws w' ∧ json = w ++ t ++ w' ∧ spells format_finite MAX_NESTING v t
              ∧ c = write_jcs v.
Proof.
  split; [apply canonicalize_sound|]. intros (v & w & t & w' & Hw & Hw' & -> & Hs & ->).
  by apply canonicalize_spells.
Qed.

(** The value that a whole text has, white space around it included. *)
Definition json_value format_finite (json : text) (v : Canonical) : Prop :=
  ∃ w t w', ws w ∧ ws w' ∧ json = w ++ t ++ w' ∧ spells format_finite MAX_NESTING v t.

Lemma canonicalize_value format_finite json v :
  json_value format_finite json v → CanonicalJson.canonicalize format_finite json = Ok (write_jcs v).
Proof. intros (w & t & w' & Hw & Hw' & -> & Hs). by apply canonicalize_spells. Qed.

Lemma json_value_parsed format_finite json v :
  json_value format_finite json v → ∃ p, parse_value format_finite (json_fuel json) (mk_Parser json 0) = JOk v p.
Proof.
  intros (w & t & w' & Hw & Hw' & -> & Hs). unfold json_fuel. eexists.
  rewrite (proj1 (parse_complete format_finite) MAX_NESTING v t Hs); [done|done|by apply ws_end|lia|lia].
Qed.

Lemma json_value_unique format_finite json v v' :
  json_value format_finite json v → json_value format_finite json v' → v = v'.
Proof. intros [p Hp]%json_value_parsed [p' Hp']%json_value_parsed. congruence. Qed.

Lemma canonical_value format_finite json c :
  numbers_render format_finite json → CanonicalJson.canonicalize format_finite json = Ok c →
  ∃ v, json_value format_finite json v ∧ json_value format_finite c v.
Proof.
  intros Hr (v & w & t & w' & Hw & Hw' & -> & Hs & ->)%canonicalize_sound. exists v. split; [by exists w, t, w'|].
  exists [], (write_jcs v), []. split_and!; [apply ws_nil..|by rewrite app_nil_r|].
  apply (proj1 (write_spells format_finite) _ _ t Hs). apply (numbers_render_infix _ _ t Hr). by exists w, w'.
Qed.

(** Canonicalisation returns for every text, with a result or an error. *)
Theorem json_canonicalize_total format_finite json :
  (∃ c, CanonicalJson.canonicalize format_finite json = Ok c)
  ∨ (∃ e, CanonicalJson.canonicalize format_finite json = Err e).
Proof.
  unfold CanonicalJson.canonicalize.
  pose proof (proj1 (parse_fuel format_finite (json_fuel json)) (mk_Parser json 0)) as Hf.
  destruct (parse_value _ _ _) as [v p|e|]; [case_bool_decide; eauto|eauto|].
  exfalso. apply Hf; [|done]. unfold json_fuel. cbn [rest]. lia.
Qed.

(** C25: the canonical text of a JSON text says what the text says, and nothing is lost: it
    has the value of the text and no other, it is its own canonical text, and another text
    has the same canonical text exactly when it has the same value, written with other
    white space, order of members, escapes or number lexemes. *)
Theorem json_canonicalize_idempotent format_finite json c :
  numbers_render format_finite json → CanonicalJson.canonicalize format_finite json = Ok c →
  CanonicalJson.canonicalize format_finite c = Ok c
  ∧ ∃ v, json_value format_finite json v
    ∧ (∀ v', json_value format_finite c v' ↔ v' = v)
    ∧ ∀ json', numbers_render format_finite json' →
        CanonicalJson.canonicalize format_finite json' = Ok c ↔ json_value format_finite json' v.
Proof.
  intros Hr Hcan. destruct (canonical_value _ _ _ Hr Hcan) as (v & Hv & Hc). split; [|exists v; split_and!].
  - by apply canonicalize_value in Hc as ->; rewrite (canonicalize_value _ _ _ Hv) in Hcan.
  - done.
  - intros v'. split; [|by intros ->]. intros Hv'. by eapply json_value_unique.
  - intros json' Hr'. split.
    + intros (v' & Hj & Hc')%canonical_value; [|done]. by rewrite (json_value_unique _ _ _ _ Hc Hc').
    + intros Hj. rewrite (canonicalize_value _ _ _ Hj). by rewrite <-(canonicalize_value _ _ _ Hv).
Qed.

(** The fingerprint of an object does not depend on the order of its members,
    nor on the white space, escapes and number lexemes of its text. *)
Theorem json_fingerprint_order format_finite sha256_hex d w ms t w' ms' t' :
  d < MAX_NESTING → ws w → ws w' → Permutation ms ms' →
  NoDup (map fst ms) → Forall scalars (map fst ms) →
  members_spell format_finite d ms t → members_spell format_finite d ms' t' →
  fingerprint format_finite sha256_hex (ch "{" :: w ++ t)
  = fingerprint format_finite sha256_hex (ch "{" :: w' ++ t').
Proof.
  intros Hd Hw Hw' Hp Hnd Hsc Ht Ht'. unfold fingerprint.
  assert (∀ v json, spells format_finite (S d) v json →
    CanonicalJson.canonicalize format_finite json = Ok (write_jcs v)) as Hgo.
  { intros v json Hs. rewrite <-(app_nil_r json). apply (canonicalize_spells _ v [] json []);
      [apply ws_nil..|]. by eapply spells_mono; [|exact Hs]. }
  rewrite (Hgo _ _ (spell_object _ d w ms t Hw Ht Hnd)).
  assert (NoDup (map fst ms')) as Hnd' by by rewrite <-Hp.
  rewrite (Hgo _ _ (spell_object _ d w' ms' t' Hw' Ht' Hnd')).
  by rewrite (sort_members_perm ms ms').
Qed.

(** The number text that is written for a float is a JSON number of the same
    value: reading it back gives the float. *)
Theorem json_number_exact format_finite n r :
  renders format_finite n → finite_nonzero n = true → number_end r →
  number_lexeme (es6_number_to_string format_finite n ++ r)
    = inr (es6_number_to_string format_finite n, r)
  ∧ parse_f64 (es6_number_to_string format_finite n) = Some n.
Proof.
  intros Hr Hn He.
  destruct (es6_reads_back format_finite n Hr Hn) as (neg & int & frac & x & Ht & Hok & Hp).
  split; [|done]. rewrite Ht. by apply number_lexeme_decimal.
Qed.

(** ** Witnesses *)

Definition f64_one : spec_float := S754_finite false 4503599627370496 (-52).
Definition f64_ten : spec_float := S754_finite false 5629499534213120 (-49).

(** The rendering of two floats. *)
Definition demo_format (n : spec_float) : text :=
  match n with
  | S754_finite _ _ (-49) => lit "10.0"
  | _ => lit "1.0"
  end.

Lemma demo_renders n : n = f64_one ∨ n = f64_ten → renders demo_format n.
Proof.
  intros [->| ->]; (split; [vm_compute; reflexivity|]).
  - exists false, (lit "1"), (lit "0"), None. split; [reflexivity|]. split; [|done].
    split; [|by repeat constructor]. right. exists (ch "1"), []. by repeat constructor.
  - exists false, (lit "10"), (lit "0"), None. split; [reflexivity|]. split; [|done].
    split; [|by repeat constructor]. right. exists (ch "1"), (lit "0"). by repeat constructor.
Qed.

Definition infixes (t : text) : list text :=
  i ← seq 0 (S (length t)); j ← seq 0 (S (length t)); [take j (drop i t)].

Lemma infix_infixes l t : infix l t → l ∈ infixes t.
Proof.
  intros (a & b & ->). unfold infixes. apply list_elem_of_bind. exists (length a).
  rewrite !length_app. split; [|apply elem_of_seq; lia].
  apply list_elem_of_bind. exists (length l). split; [|apply elem_of_seq; lia].
  rewrite drop_app_length, take_app_length. by left.
Qed.

(** A text in which only the numbers one and ten occur. *)
Definition demo_json : text := dquote :: lit "a" ++ [dquote] ++ lit " : [ 1e1, 1 ]".
Definition demo_object : text := lit "{ " ++ demo_json ++ lit "}".

Lemma demo_numbers : numbers_render demo_format demo_object.
Proof.
  intros l n Hl Hn Hf. apply demo_renders. apply infix_infixes in Hl.
  assert (forallb (λ l, match parse_f64 l with
      | Some (S754_finite s m e) =>
          negb s && (Pos.eqb m 4503599627370496 && Z.eqb e (-52)
                     || Pos.eqb m 5629499534213120 && Z.eqb e (-49))
      | _ => true end) (infixes demo_object) = true) as Hall by (vm_compute; reflexivity).
  rewrite forallb_forall in Hall. apply list_elem_of_In, Hall in Hl. rewrite Hn in Hl.
  destruct n as [| | |s m e]; [done..|]. apply andb_true_iff in Hl as [Hs Hl].
  destruct s; [done|]. apply orb_true_iff in Hl as [Hl|Hl]; apply andb_true_iff in Hl as [Hm He];
    apply Pos.eqb_eq in Hm; apply Z.eqb_eq in He; subst; [by left|by right].
Qed.

Lemma json_canonicalize_idempotent_witness :
  let c := lit "{" ++ [dquote] ++ lit "a" ++ [dquote] ++ lit ":[10,1]}" in
  CanonicalJson.canonicalize demo_format c = Ok c
  ∧ ∃ v, json_value demo_format demo_object v ∧ ∀ v', json_value demo_format c v' ↔ v' = v.
Proof.
  intros c. destruct (json_canonicalize_idempotent demo_format demo_object c) as (Hc & v & Hv & Hu & _).
  - exact demo_numbers.
  - vm_compute. reflexivity.
  - split; [exact Hc|]. exists v. split; [exact Hv|exact Hu].
Defined.

Lemma quoted_letter c :
  (97 <=? c)%N = true → (c <=? 122)%N = true → string_spells [c] [dquote; c; dquote].
Proof.
  rewrite !N.leb_le. intros H1 H2. exists [c]. split; [|done].
  apply (body_cons c [c] [] []); [|constructor].
  constructor; [unfold dquote; lia|unfold backslash; lia|]. apply N.ltb_ge. lia.
Qed.

Definition demo_members : list (text * Canonical) := [(lit "a", Null); (lit "b", Bool true)].
Definition demo_text : text := [dquote; ch "a"; dquote; ch ":"] ++ lit "null" ++ [ch ","]
  ++ [dquote; ch "b"; dquote; ch ":"] ++ lit "true" ++ [ch "}"].
Definition demo_text' : text := [dquote; ch "b"; dquote; ch ":"] ++ lit "true" ++ [ch ","]
  ++ [dquote; ch "a"; dquote; ch ":"] ++ lit "null" ++ [ch "}"].

Lemma demo_text_spells :
  members_spell demo_format 0 demo_members demo_text
  ∧ members_spell demo_format 0 (reverse demo_members) demo_text'.
Proof.
  pose proof (quoted_letter (ch "a") eq_refl eq_refl) as Ha.
  pose proof (quoted_letter (ch "b") eq_refl eq_refl) as Hb.
  pose proof (spell_null demo_format 0) as Hn. pose proof (spell_true demo_format 0) as Ht.
  split.
  - apply (members_cons demo_format 0 (lit "a") [dquote; ch "a"; dquote] [] [] Null (lit "null") [] []
      [(lit "b", Bool true)] ([dquote; ch "b"; dquote; ch ":"] ++ lit "true" ++ [ch "}"]));
      try done; try apply ws_nil.
    apply (members_last demo_format 0 (lit "b") [dquote; ch "b"; dquote] [] [] (Bool true) (lit "true") []);
      try done; apply ws_nil.
  - apply (members_cons demo_format 0 (lit "b") [dquote; ch "b"; dquote] [] [] (Bool true) (lit "true") [] []
      [(lit "a", Null)] ([dquote; ch "a"; dquote; ch ":"] ++ lit "null" ++ [ch "}"]));
      try done; try apply ws_nil.
    apply (members_last demo_format 0 (lit "a") [dquote; ch "a"; dquote] [] [] Null (lit "null") []);
      try done; apply ws_nil.
Qed.

Lemma json_fingerprint_order_witness :
  fingerprint demo_format (λ b, b) (ch "{" :: [] ++ demo_text)
  = fingerprint demo_format (λ b, b) (ch "{" :: lit " " ++ demo_text').
Proof.
  apply (json_fingerprint_order demo_format (λ b, b) 0 [] demo_members demo_text (lit " ")
    (reverse demo_members) demo_text').
  - unfold MAX_NESTING. lia.
  - apply ws_nil.
  - by repeat constructor.
  - by rewrite reverse_Permutation.
  - apply NoDup_cons. split; [|apply NoDup_singleton]. by intros Hx%list_elem_of_singleton.
  - by repeat constructor.
  - apply demo_text_spells.
  - apply demo_text_spells.
Defined.

Lemma json_number_exact_witness :
  number_lexeme (lit "10,") = inr (lit "10", lit ",") ∧ parse_f64 (lit "10") = Some f64_ten.
Proof.
  apply (json_number_exact demo_format f64_ten (lit ",")).
  - apply demo_renders. by right.
  - reflexivity.
  - by intros c [= <-].
Defined.
