(* ===== verification/QueueTables.v ===== *)
(** * MonoWriteQueue: tables and rows

    Models the tables of the write queue that serialises every change of [main]:
    [src/callisto/push_queue.rs] and [src/callisto/queue_control.rs] (the rows),
    the enums of [src/callisto/sea_orm_active_enums.rs], and the two partial unique
    indexes of the migration [m20260905_000100_add_push_queue.rs].  A SQL statement
    acts on the whole table: [select] is the rows of a [WHERE], [update_where] an
    [UPDATE] with the number of rows it affected, [insert_row] an [INSERT] that the
    unique indexes may refuse.  Timestamps are integers; [now()] is an argument. *)
From stdpp Require Import base strings sets numbers tactics gmap list.
From S2P Require Import Prelude Text.

(** ** Column types *)

Inductive PushQueueKindEnum := Push | Merge | Attach.

Inductive PushQueueStatusEnum := Queued | Running | Done | Failed | Cancelled.

Inductive PushQueueFailureEnum :=
  | PushFailure
  | MergeFailure
  | AttachFailure
  | Conflict
  | QueueBypassDetected
  | WaitTimeout
  | ClaimLost
  | SystemError.

Inductive PushQueuePendingEnum := RequeueConflict.

(** [serde_json::Value]; an integer number keeps its value, a float its bits. *)
#[local] Set Warnings "-register-all".
Inductive Json :=
  | JNull
  | JBool (b : bool)
  | JInt (n : Z)
  | JFloat (bits : N)
  | JString (s : text)
  | JArray (items : list Json)
  | JObject (members : list (text * Json)).

#[export] Instance PushQueueKindEnum_eq_dec : EqDecision PushQueueKindEnum.
Proof. solve_decision. Defined.
#[export] Instance PushQueueStatusEnum_eq_dec : EqDecision PushQueueStatusEnum.
Proof. solve_decision. Defined.
#[export] Instance PushQueueFailureEnum_eq_dec : EqDecision PushQueueFailureEnum.
Proof. solve_decision. Defined.
#[export] Instance PushQueuePendingEnum_eq_dec : EqDecision PushQueuePendingEnum.
Proof. solve_decision. Defined.

(** ** Rows *)

Record PushQueueRow := mk_PushQueueRow {
  row_id : Z;
  kind : PushQueueKindEnum;
  operation_id : text;
  path : text;
  old_id : text;
  new_id : text;
  payload : Json;
  landed_commit_id : option text;
  status : PushQueueStatusEnum;
  requester : option text;
  failure_type : option PushQueueFailureEnum;
  error_message : option text;
  heartbeat_at : Z;
  superseded_by : option Z;
  expected_commit_hash : option text;
  expected_tree_hash : option text;
  expected_native_sequence : option Z;
  expected_native_epoch : option Z;
  expected_native_certificate : option Z;
  pending_action : option PushQueuePendingEnum;
  enqueued_at : Z;
  started_at : option Z;
  finished_at : option Z;
  updated_at : Z;
}.

(** Assignments of single columns ([SET column = value]). *)

Definition set_landed_commit_id (v : option text) (r : PushQueueRow) : PushQueueRow :=
  mk_PushQueueRow (row_id r) (kind r) (operation_id r) (path r) (old_id r) (new_id r)
    (payload r) v (status r) (requester r) (failure_type r) (error_message r)
    (heartbeat_at r) (superseded_by r) (expected_commit_hash r) (expected_tree_hash r)
    (expected_native_sequence r) (expected_native_epoch r)
    (expected_native_certificate r) (pending_action r) (enqueued_at r) (started_at r)
    (finished_at r) (updated_at r).
Definition set_status (v : PushQueueStatusEnum) (r : PushQueueRow) : PushQueueRow :=
  mk_PushQueueRow (row_id r) (kind r) (operation_id r) (path r) (old_id r) (new_id r)
    (payload r) (landed_commit_id r) v (requester r) (failure_type r) (error_message r)
    (heartbeat_at r) (superseded_by r) (expected_commit_hash r) (expected_tree_hash r)
    (expected_native_sequence r) (expected_native_epoch r)
    (expected_native_certificate r) (pending_action r) (enqueued_at r) (started_at r)
    (finished_at r) (updated_at r).
Definition set_failure_type (v : option PushQueueFailureEnum) (r : PushQueueRow) : PushQueueRow :=
  mk_PushQueueRow (row_id r) (kind r) (operation_id r) (path r) (old_id r) (new_id r)
    (payload r) (landed_commit_id r) (status r) (requester r) v (error_message r)
    (heartbeat_at r) (superseded_by r) (expected_commit_hash r) (expected_tree_hash r)
    (expected_native_sequence r) (expected_native_epoch r)
    (expected_native_certificate r) (pending_action r) (enqueued_at r) (started_at r)
    (finished_at r) (updated_at r).
Definition set_error_message (v : option text) (r : PushQueueRow) : PushQueueRow :=
  mk_PushQueueRow (row_id r) (kind r) (operation_id r) (path r) (old_id r) (new_id r)
    (payload r) (landed_commit_id r) (status r) (requester r) (failure_type r) v
    (heartbeat_at r) (superseded_by r) (expected_commit_hash r) (expected_tree_hash r)
    (expected_native_sequence r) (expected_native_epoch r)
    (expected_native_certificate r) (pending_action r) (enqueued_at r) (started_at r)
    (finished_at r) (updated_at r).
Definition set_heartbeat_at (v : Z) (r : PushQueueRow) : PushQueueRow :=
  mk_PushQueueRow (row_id r) (kind r) (operation_id r) (path r) (old_id r) (new_id r)
    (payload r) (landed_commit_id r) (status r) (requester r) (failure_type r)
    (error_message r) v (superseded_by r) (expected_commit_hash r)
    (expected_tree_hash r) (expected_native_sequence r) (expected_native_epoch r)
    (expected_native_certificate r) (pending_action r) (enqueued_at r) (started_at r)
    (finished_at r) (updated_at r).
Definition set_superseded_by (v : option Z) (r : PushQueueRow) : PushQueueRow :=
  mk_PushQueueRow (row_id r) (kind r) (operation_id r) (path r) (old_id r) (new_id r)
    (payload r) (landed_commit_id r) (status r) (requester r) (failure_type r)
    (error_message r) (heartbeat_at r) v (expected_commit_hash r) (expected_tree_hash r)
    (expected_native_sequence r) (expected_native_epoch r)
    (expected_native_certificate r) (pending_action r) (enqueued_at r) (started_at r)
    (finished_at r) (updated_at r).
Definition set_expected_commit_hash (v : option text) (r : PushQueueRow) : PushQueueRow :=
  mk_PushQueueRow (row_id r) (kind r) (operation_id r) (path r) (old_id r) (new_id r)
    (payload r) (landed_commit_id r) (status r) (requester r) (failure_type r)
    (error_message r) (heartbeat_at r) (superseded_by r) v (expected_tree_hash r)
    (expected_native_sequence r) (expected_native_epoch r)
    (expected_native_certificate r) (pending_action r) (enqueued_at r) (started_at r)
    (finished_at r) (updated_at r).
Definition set_expected_tree_hash (v : option text) (r : PushQueueRow) : PushQueueRow :=
  mk_PushQueueRow (row_id r) (kind r) (operation_id r) (path r) (old_id r) (new_id r)
    (payload r) (landed_commit_id r) (status r) (requester r) (failure_type r)
    (error_message r) (heartbeat_at r) (superseded_by r) (expected_commit_hash r) v
    (expected_native_sequence r) (expected_native_epoch r)
    (expected_native_certificate r) (pending_action r) (enqueued_at r) (started_at r)
    (finished_at r) (updated_at r).
Definition set_expected_native_sequence (v : option Z) (r : PushQueueRow) : PushQueueRow :=
  mk_PushQueueRow (row_id r) (kind r) (operation_id r) (path r) (old_id r) (new_id r)
    (payload r) (landed_commit_id r) (status r) (requester r) (failure_type r)
    (error_message r) (heartbeat_at r) (superseded_by r) (expected_commit_hash r)
    (expected_tree_hash r) v (expected_native_epoch r) (expected_native_certificate r)
    (pending_action r) (enqueued_at r) (started_at r) (finished_at r) (updated_at r).
Definition set_expected_native_epoch (v : option Z) (r : PushQueueRow) : PushQueueRow :=
  mk_PushQueueRow (row_id r) (kind r) (operation_id r) (path r) (old_id r) (new_id r)
    (payload r) (landed_commit_id r) (status r) (requester r) (failure_type r)
    (error_message r) (heartbeat_at r) (superseded_by r) (expected_commit_hash r)
    (expected_tree_hash r) (expected_native_sequence r) v
    (expected_native_certificate r) (pending_action r) (enqueued_at r) (started_at r)
    (finished_at r) (updated_at r).
Definition set_expected_native_certificate (v : option Z) (r : PushQueueRow) : PushQueueRow :=
  mk_PushQueueRow (row_id r) (kind r) (operation_id r) (path r) (old_id r) (new_id r)
    (payload r) (landed_commit_id r) (status r) (requester r) (failure_type r)
    (error_message r) (heartbeat_at r) (superseded_by r) (expected_commit_hash r)
    (expected_tree_hash r) (expected_native_sequence r) (expected_native_epoch r) v
    (pending_action r) (enqueued_at r) (started_at r) (finished_at r) (updated_at r).
Definition set_pending_action (v : option PushQueuePendingEnum) (r : PushQueueRow) : PushQueueRow :=
  mk_PushQueueRow (row_id r) (kind r) (operation_id r) (path r) (old_id r) (new_id r)
    (payload r) (landed_commit_id r) (status r) (requester r) (failure_type r)
    (error_message r) (heartbeat_at r) (superseded_by r) (expected_commit_hash r)
    (expected_tree_hash r) (expected_native_sequence r) (expected_native_epoch r)
    (expected_native_certificate r) v (enqueued_at r) (started_at r) (finished_at r)
    (updated_at r).
Definition set_started_at (v : option Z) (r : PushQueueRow) : PushQueueRow :=
  mk_PushQueueRow (row_id r) (kind r) (operation_id r) (path r) (old_id r) (new_id r)
    (payload r) (landed_commit_id r) (status r) (requester r) (failure_type r)
    (error_message r) (heartbeat_at r) (superseded_by r) (expected_commit_hash r)
    (expected_tree_hash r) (expected_native_sequence r) (expected_native_epoch r)
    (expected_native_certificate r) (pending_action r) (enqueued_at r) v (finished_at r)
    (updated_at r).
Definition set_finished_at (v : option Z) (r : PushQueueRow) : PushQueueRow :=
  mk_PushQueueRow (row_id r) (kind r) (operation_id r) (path r) (old_id r) (new_id r)
    (payload r) (landed_commit_id r) (status r) (requester r) (failure_type r)
    (error_message r) (heartbeat_at r) (superseded_by r) (expected_commit_hash r)
    (expected_tree_hash r) (expected_native_sequence r) (expected_native_epoch r)
    (expected_native_certificate r) (pending_action r) (enqueued_at r) (started_at r) v
    (updated_at r).
Definition set_updated_at (v : Z) (r : PushQueueRow) : PushQueueRow :=
  mk_PushQueueRow (row_id r) (kind r) (operation_id r) (path r) (old_id r) (new_id r)
    (payload r) (landed_commit_id r) (status r) (requester r) (failure_type r)
    (error_message r) (heartbeat_at r) (superseded_by r) (expected_commit_hash r)
    (expected_tree_hash r) (expected_native_sequence r) (expected_native_epoch r)
    (expected_native_certificate r) (pending_action r) (enqueued_at r) (started_at r)
    (finished_at r) v.
Definition set_old_id (v : text) (r : PushQueueRow) : PushQueueRow :=
  mk_PushQueueRow (row_id r) (kind r) (operation_id r) (path r) v (new_id r) (payload r)
    (landed_commit_id r) (status r) (requester r) (failure_type r) (error_message r)
    (heartbeat_at r) (superseded_by r) (expected_commit_hash r) (expected_tree_hash r)
    (expected_native_sequence r) (expected_native_epoch r)
    (expected_native_certificate r) (pending_action r) (enqueued_at r) (started_at r)
    (finished_at r) (updated_at r).
Definition set_new_id (v : text) (r : PushQueueRow) : PushQueueRow :=
  mk_PushQueueRow (row_id r) (kind r) (operation_id r) (path r) (old_id r) v (payload r)
    (landed_commit_id r) (status r) (requester r) (failure_type r) (error_message r)
    (heartbeat_at r) (superseded_by r) (expected_commit_hash r) (expected_tree_hash r)
    (expected_native_sequence r) (expected_native_epoch r)
    (expected_native_certificate r) (pending_action r) (enqueued_at r) (started_at r)
    (finished_at r) (updated_at r).
Definition set_requester (v : option text) (r : PushQueueRow) : PushQueueRow :=
  mk_PushQueueRow (row_id r) (kind r) (operation_id r) (path r) (old_id r) (new_id r)
    (payload r) (landed_commit_id r) (status r) v (failure_type r) (error_message r)
    (heartbeat_at r) (superseded_by r) (expected_commit_hash r) (expected_tree_hash r)
    (expected_native_sequence r) (expected_native_epoch r)
    (expected_native_certificate r) (pending_action r) (enqueued_at r) (started_at r)
    (finished_at r) (updated_at r).
Definition set_payload (v : Json) (r : PushQueueRow) : PushQueueRow :=
  mk_PushQueueRow (row_id r) (kind r) (operation_id r) (path r) (old_id r) (new_id r) v
    (landed_commit_id r) (status r) (requester r) (failure_type r) (error_message r)
    (heartbeat_at r) (superseded_by r) (expected_commit_hash r) (expected_tree_hash r)
    (expected_native_sequence r) (expected_native_epoch r)
    (expected_native_certificate r) (pending_action r) (enqueued_at r) (started_at r)
    (finished_at r) (updated_at r).

Record QueueControl := mk_QueueControl {
  paused : bool;
  hard_stopped : bool;
  last_policy : text;
  max_depth : Z;
  published_version : Z;
  control_updated_at : Z;
}.

(** A row of [authz_notify_outbox]. *)
Record OutboxRow := mk_OutboxRow {
  outbox_id : Z;
  outbox_version : option Z;
  dirty : bool;
  outbox_created_at : Z;
  replayed_at : option Z;
}.

(** The tables, with the sequences of their identity columns.  [control] is the
    single row of [queue_control], [None] if it is missing; [indexed_push_id] is
    that column of [blob_paths], by blob. *)
Record Db := mk_Db {
  push_queue : gmap Z PushQueueRow;
  push_queue_seq : Z;
  control : option QueueControl;
  outbox : gmap Z OutboxRow;
  outbox_seq : Z;
  indexed_push_id : gmap Z (option Z);
}.

Definition with_queue (q : gmap Z PushQueueRow) (db : Db) : Db :=
  mk_Db q (push_queue_seq db) (control db) (outbox db) (outbox_seq db) (indexed_push_id db).
Definition with_seq (n : Z) (db : Db) : Db :=
  mk_Db (push_queue db) n (control db) (outbox db) (outbox_seq db) (indexed_push_id db).
Definition with_control (c : option QueueControl) (db : Db) : Db :=
  mk_Db (push_queue db) (push_queue_seq db) c (outbox db) (outbox_seq db) (indexed_push_id db).
Definition with_outbox (o : gmap Z OutboxRow) (n : Z) (db : Db) : Db :=
  mk_Db (push_queue db) (push_queue_seq db) (control db) o n (indexed_push_id db).
Definition with_indexed (x : gmap Z (option Z)) (db : Db) : Db :=
  mk_Db (push_queue db) (push_queue_seq db) (control db) (outbox db) (outbox_seq db) x.

(** ** Predicates of the statements *)

Definition has_status (s : PushQueueStatusEnum) (r : PushQueueRow) : bool :=
  bool_decide (status r = s).

(** [status IN ('Queued', 'Running')] *)
Definition is_active (r : PushQueueRow) : bool := has_status Queued r || has_status Running r.

(** [status IN ('Queued', 'Running', 'Done')] *)
Definition in_operation_states (r : PushQueueRow) : bool := is_active r || has_status Done r.

Definition is_push (r : PushQueueRow) : bool := bool_decide (kind r = Push).

Definition same_operation (k : PushQueueKindEnum) (op p : text) (r : PushQueueRow) : bool :=
  bool_decide (kind r = k) && bool_decide (path r = p) && bool_decide (operation_id r = op).

(** ** Statements *)

Definition rows (db : Db) : list PushQueueRow := (map_to_list (push_queue db)).*2.

Definition select (p : PushQueueRow → bool) (db : Db) : list PushQueueRow :=
  List.filter p (rows db).

(** [ORDER BY id] *)
Definition order_by_id (l : list PushQueueRow) : list PushQueueRow :=
  sort_by row_id Z.compare l.

(** [.one()] without an order: some row of the selection. *)
Definition select_one (p : PushQueueRow → bool) (db : Db) : option PushQueueRow :=
  head (select p db).

Definition count (p : PushQueueRow → bool) (db : Db) : Z := Z.of_nat (length (select p db)).

Definition update_where (p : PushQueueRow → bool) (f : PushQueueRow → PushQueueRow)
    (db : Db) : Db * Z :=
  (with_queue ((λ r, if p r then f r else r) <$> push_queue db) db, count p db).

(** The two partial unique indexes, with the order in which an insertion meets them. *)
Inductive UniqueIndex := push_queue_active_push_path | push_queue_operation_states.

Definition unique_violation (r : PushQueueRow) (db : Db) : option UniqueIndex :=
  if is_push r && is_active r
     && existsb (λ o, is_push o && is_active o && bool_decide (path o = path r)) (rows db)
  then Some push_queue_active_push_path
  else if in_operation_states r
     && existsb (λ o, in_operation_states o
                      && same_operation (kind r) (operation_id r) (path r) o) (rows db)
  then Some push_queue_operation_states
  else None.

(** The identity column takes the next value of its sequence, which a failed
    insertion does not give back. *)
Definition insert_row (r : Z → PushQueueRow) (db : Db) : Db * (UniqueIndex + Z) :=
  let n := push_queue_seq db in
  let db' := with_seq (n + 1) db in
  match unique_violation (r n) db with
  | Some idx => (db', inl idx)
  | None => (with_queue (<[n := r n]> (push_queue db)) db', inr n)
  end.

(** A row as both [INSERT]s write it: the columns they do not name are [NULL] or
    take their default. *)
Definition fresh_row (k : PushQueueKindEnum) (op p old new : text) (req : option text)
    (pay : Json) (now : Z) (n : Z) : PushQueueRow :=
  mk_PushQueueRow n k op p old new pay None Queued req None None now None None None
    None None None None now None None now.
