(* ===== verification/PushQueue.v ===== *)
(** * MonoWriteQueue: storage operations

    Models [src/jupiter/storage/push_queue_storage.rs]: admission (B1), claim
    (B2.5), the terminal transitions, the conflict requeue (B4), the operator
    controls and the authorization outbox.  Each operation is one transaction, a
    function from the tables to the tables and a result; an error rolls the
    transaction back, which leaves the tables as they were except for the identity
    sequence.

    [enqueue_atomic] runs several statements under [READ COMMITTED] while it holds
    the lock on [queue_control].  Transactions that do not take this lock may commit
    between its statements: the arguments [env1], [env2], [env3] are the changes
    they make.  [validate_replay] is the receipt check of
    [validate_queue_publication_replay_in_txn]; it reads only. *)
From stdpp Require Import base strings sets numbers tactics gmap list.
From S2P Require Import Prelude Text QueueTables.

(** ** Results *)

Inductive EnqueueRejectReason :=
  | RejectPaused
  | RejectHardStopped
  | CapacityExceeded (max_depth : Z)
  | ActivePushPathConflict.

Inductive EnqueueOutcome :=
  | Inserted (id : Z)
  | Adopted (id : Z)
  | Replay (id : Z) (landed_commit_id : option text)
  | Rejected (reason : EnqueueRejectReason).

Inductive ClaimOutcome := Claimed | HardStopped | Missed.

(** The [MegaError]s of the file, by message. *)
Inductive MegaError :=
  | UniqueConflictUnclassified
  | ZeroRowsUnclassified
  | QueueControlMissing
  | QueueReplayRowMissing
  | UniqueViolationOnRetry (idx : UniqueIndex)
  | ReplayInvalid (msg : text)
  | LastPolicyZeroRows
  | PolicyChangeNotDrained (from : text) (n : Z)
  | AmbiguousNativeClaim
  | NativeObservationInvalid (msg : text)
  | NativePublicationNotInitialized
  | ConflictRequeueNotRunning
  | ConflictRequeueUnique (idx : UniqueIndex).

Record EnqueueParams := mk_EnqueueParams {
  p_kind : PushQueueKindEnum;
  p_operation_id : text;
  p_path : text;
  p_old_id : text;
  p_new_id : text;
  p_requester : option text;
  p_payload : Json;
}.

(** One row of [native_observation] as the claim statement reads it. *)
Record NativeObservation := mk_NativeObservation {
  root_commit : option text;
  root_tree : option text;
  sequence : option Z;
  writer_epoch : option Z;
  certificate_receipt_id : option Z;
}.

(** ** B1: admission *)

Definition p_same (p : EnqueueParams) (r : PushQueueRow) : bool :=
  same_operation (p_kind p) (p_operation_id p) (p_path p) r.

(** The CTE [pred]: the latest failed, or cancelled and not superseded, attempt. *)
Definition terminal_predecessor (p : EnqueueParams) (db : Db) : option PushQueueRow :=
  last (order_by_id (select (λ r,
    p_same p r && (has_status Failed r
                   || (has_status Cancelled r && bool_decide (superseded_by r = None)))) db)).

Definition new_row (p : EnqueueParams) (now : Z) (db : Db) (n : Z) : PushQueueRow :=
  fresh_row (p_kind p) (p_operation_id p) (p_path p) (p_old_id p) (p_new_id p) (p_requester p)
    (from_option payload (p_payload p) (terminal_predecessor p db)) now n.

(** The [WHERE] of the conditional [INSERT]. *)
Definition admissible (p : EnqueueParams) (db : Db) : bool :=
  match control db with
  | None => false
  | Some c =>
      negb (paused c) && negb (hard_stopped c) && (count is_active db <? max_depth c)%Z
      && negb (existsb (λ r, p_same p r && in_operation_states r) (rows db))
  end.

Inductive InsertResult :=
  | InsertedRow (id : Z)
  | ZeroRows
  | UniqueViolation (idx : UniqueIndex).

Definition conditional_insert (p : EnqueueParams) (now : Z) (db : Db) : Db * InsertResult :=
  if admissible p db then
    match insert_row (new_row p now db) db with
    | (db', inr n) => (db', InsertedRow n)
    | (db', inl idx) => (db', UniqueViolation idx)
    end
  else (db, ZeroRows).

(** The result for an operation that is already Queued, Running or Done;
    [None] is [unreachable!]. *)
Definition existing_outcome (r : PushQueueRow) : option EnqueueOutcome :=
  match status r with
  | Done => Some (Replay (row_id r) (landed_commit_id r))
  | Queued | Running => Some (Adopted (row_id r))
  | _ => None
  end.

Definition find_existing (p : EnqueueParams) (db : Db) : option PushQueueRow :=
  select_one (λ r, p_same p r && in_operation_states r) db.

Definition classify_zero_row (p : EnqueueParams) (db : Db)
    : outcome MegaError (option EnqueueOutcome) :=
  match find_existing p db with
  | Some r => match existing_outcome r with Some o => Ok (Some o) | None => Panic end
  | None =>
    match control db with
    | None => Err QueueControlMissing
    | Some c =>
      if hard_stopped c then Ok (Some (Rejected RejectHardStopped))
      else if paused c then Ok (Some (Rejected RejectPaused))
      else if (max_depth c <=? count is_active db)%Z
        then Ok (Some (Rejected (CapacityExceeded (max_depth c))))
      else if bool_decide (p_kind p = Push)
           && bool_decide (is_Some (select_one (λ r,
                is_push r && bool_decide (path r = p_path p) && is_active r) db))
        then Ok (Some (Rejected ActivePushPathConflict))
      else Ok None
    end
  end.

(** The existing row with the caller's values, as the receipt check sees it. *)
Definition replay_candidate (p : EnqueueParams) (r : PushQueueRow) : PushQueueRow :=
  set_payload (p_payload p) (set_requester (p_requester p)
    (set_new_id (p_new_id p) (set_old_id (p_old_id p) r))).

Definition checks_receipt (k : PushQueueKindEnum) : bool :=
  match k with Push | Merge => true | Attach => false end.

Section Enqueue.
Context (validate_replay : Db → PushQueueRow → option MegaError).

Definition validated (p : EnqueueParams) (db : Db) (r : PushQueueRow) (o : EnqueueOutcome)
    : outcome MegaError EnqueueOutcome :=
  if checks_receipt (p_kind p) then
    match validate_replay db (replay_candidate p r) with
    | Some e => Err e
    | None => Ok o
    end
  else Ok o.

(** The outcome of [classify_zero_row], with the receipt check on an adopted or
    replayed row. *)
Definition finish_classified (p : EnqueueParams) (db : Db) (o : EnqueueOutcome)
    : outcome MegaError EnqueueOutcome :=
  match o with
  | Adopted i | Replay i _ =>
      if checks_receipt (p_kind p) then
        match push_queue db !! i with
        | None => Err QueueReplayRowMissing
        | Some r => validated p db r o
        end
      else Ok o
  | Rejected _ => Ok o
  | Inserted _ => Panic
  end.

(** The branch of a violation of [push_queue_operation_states]: a new transaction
    reads the winner. *)
Definition classify_winner (p : EnqueueParams) (db : Db) : outcome MegaError EnqueueOutcome :=
  match find_existing p db with
  | None => Err UniqueConflictUnclassified
  | Some r =>
      match existing_outcome r with
      | None => Panic
      | Some o => validated p db r o
      end
  end.

(** The loop of two attempts after an insertion of no row: classify, and if the
    cause has gone, insert once more. *)
Definition enqueue_zero_rows (env1 env2 env3 : Db → Db) (p : EnqueueParams) (now : Z) (db1 : Db)
    : Db * outcome MegaError EnqueueOutcome :=
  let db2 := env1 db1 in
  match classify_zero_row p db2 with
  | Ok (Some o) => (db2, finish_classified p db2 o)
  | Ok None =>
      match conditional_insert p now (env2 db2) with
      | (db3, InsertedRow n) => (db3, Ok (Inserted n))
      | (db3, UniqueViolation idx) => (db3, Err (UniqueViolationOnRetry idx))
      | (db3, ZeroRows) =>
          let db4 := env3 db3 in
          match classify_zero_row p db4 with
          | Ok (Some o) => (db4, finish_classified p db4 o)
          | Ok None => (db4, Err ZeroRowsUnclassified)
          | Err e => (db4, Err e)
          | Panic => (db4, Panic)
          | OutOfFuel => (db4, OutOfFuel)
          end
      end
  | Err e => (db2, Err e)
  | Panic => (db2, Panic)
  | OutOfFuel => (db2, OutOfFuel)
  end.

Definition enqueue_atomic (env1 env2 env3 : Db → Db) (p : EnqueueParams) (now : Z) (db : Db)
    : Db * outcome MegaError EnqueueOutcome :=
  match conditional_insert p now db with
  | (db1, InsertedRow n) => (db1, Ok (Inserted n))
  | (db1, UniqueViolation push_queue_active_push_path) =>
      (db1, Ok (Rejected ActivePushPathConflict))
  | (db1, UniqueViolation push_queue_operation_states) =>
      let db2 := env1 db1 in (db2, classify_winner p db2)
  | (db1, ZeroRows) => enqueue_zero_rows env1 env2 env3 p now db1
  end.
End Enqueue.

(** ** B2 and B2.5: waiting and claim *)

Definition touch_heartbeat (i now : Z) (db : Db) : Db :=
  fst (update_where (λ r, (row_id r =? i)%Z)
         (λ r, set_updated_at now (set_heartbeat_at now r)) db).

Definition min_queued (db : Db) : option Z :=
  row_id <$> head (order_by_id (select (has_status Queued) db)).

Definition claim_row (now : Z) (o : NativeObservation) (r : PushQueueRow) : PushQueueRow :=
  set_expected_native_certificate (certificate_receipt_id o)
  (set_expected_native_epoch (writer_epoch o)
  (set_expected_native_sequence (sequence o)
  (set_expected_tree_hash (root_tree o)
  (set_expected_commit_hash (root_commit o)
  (set_updated_at now (set_heartbeat_at now (set_started_at (Some now)
  (set_status Running r)))))))).

(** [WHERE q.id = $2 AND q.status = 'Queued' AND ...] *)
Definition claimable (i : Z) (db : Db) (r : PushQueueRow) : bool :=
  (row_id r =? i)%Z && has_status Queued r
  && from_option (λ c, negb (hard_stopped c)) false (control db)
  && negb (existsb (has_status Running) (rows db))
  && bool_decide (min_queued db = Some i).

(** The rows the statement returns: the observation joined with the claimed row. *)
Definition claim_for_execution (native_publication_enabled : bool)
    (decode_head : NativeObservation → MegaError + bool)
    (observations : list NativeObservation) (i now : Z) (db : Db)
    : Db * outcome MegaError ClaimOutcome :=
  match control db with
  | None => (db, Err QueueControlMissing)
  | Some c =>
    if hard_stopped c then (db, Ok HardStopped)
    else
      let returned := if bool_decide (select (claimable i db) db = []) then [] else observations in
      match returned with
      | [] => (db, Ok Missed)
      | [o] =>
          let db' := fst (update_where (claimable i db) (claim_row now o) db) in
          if native_publication_enabled then
            match decode_head o with
            | inl e => (db, Err e)
            | inr false => (db, Err NativePublicationNotInitialized)
            | inr true => (db', Ok Claimed)
            end
          else (db', Ok Claimed)
      | _ => (db, Err AmbiguousNativeClaim)
      end
  end.

(** ** Transitions of a single row *)

Definition running_with_id (i : Z) (r : PushQueueRow) : bool :=
  (row_id r =? i)%Z && has_status Running r.

Definition clear_expected (r : PushQueueRow) : PushQueueRow :=
  set_expected_native_certificate None (set_expected_native_epoch None
  (set_expected_native_sequence None (set_expected_tree_hash None
  (set_expected_commit_hash None r)))).

Definition requeued_row (now : Z) (r : PushQueueRow) : PushQueueRow :=
  set_updated_at now (set_heartbeat_at now
    (clear_expected (set_started_at None (set_status Queued r)))).

Definition reset_running_to_queued (i now : Z) (db : Db) : Db * bool :=
  let '(db', n) := update_where (running_with_id i)
    (λ r, set_pending_action None (requeued_row now r)) db in (db', (n =? 1)%Z).

Definition reset_running_to_queued_in_txn (i now : Z) (db : Db) : Db * bool :=
  let '(db', n) := update_where (running_with_id i) (requeued_row now) db in (db', (n =? 1)%Z).

Definition persist_requeue_conflict_intent (i now : Z) (db : Db) : Db * bool :=
  let '(db', n) := update_where (running_with_id i)
    (λ r, set_updated_at now (set_pending_action (Some RequeueConflict) r)) db in
  (db', (n =? 1)%Z).

(** [finished_at = now(), pending_action = NULL, updated_at = now()] *)
Definition finish_row (now : Z) (r : PushQueueRow) : PushQueueRow :=
  set_updated_at now (set_pending_action None (set_finished_at (Some now) r)).

Definition mark_done_if_running_in_txn (i : Z) (landed : text) (now : Z) (db : Db) : Db * bool :=
  let '(db', n) := update_where (running_with_id i)
    (λ r, finish_row now (set_landed_commit_id (Some landed) (set_status Done r))) db in
  (db', (n =? 1)%Z).

Definition fail_row (s : PushQueueStatusEnum) (failure : PushQueueFailureEnum) (message : text)
    (now : Z) (r : PushQueueRow) : PushQueueRow :=
  finish_row now (set_error_message (Some message) (set_failure_type (Some failure) (set_status s r))).

Definition mark_failed_if_running_in_txn (i : Z) (failure : PushQueueFailureEnum)
    (message : text) (now : Z) (db : Db) : Db * bool :=
  let '(db', n) := update_where (running_with_id i) (fail_row Failed failure message now) db in
  (db', (n =? 1)%Z).

Definition cancel_if_queued (i now : Z) (db : Db) : Db * bool :=
  let '(db', n) := update_where (λ r, (row_id r =? i)%Z && has_status Queued r)
    (fail_row Cancelled SystemError (lit "cancelled by operator") now) db in
  (db', (n =? 1)%Z).

Definition cancel_stale_queued_in_txn (cutoff now : Z) (db : Db) : Db * Z :=
  update_where (λ r, has_status Queued r && (heartbeat_at r <? cutoff)%Z)
    (fail_row Cancelled SystemError (lit "heartbeat timeout") now) db.

Definition freeze_merge_for_authz (cl_link message : text) (now : Z) (db : Db) : Db * bool :=
  let '(db', n) := update_where
    (λ r, bool_decide (kind r = Merge) && bool_decide (operation_id r = cl_link) && is_active r)
    (fail_row Failed SystemError message now) db in
  (db', (0 <? n)%Z).

(** ** B4: conflict requeue *)

Definition cancel_conflict_row (now : Z) (r : PushQueueRow) : PushQueueRow :=
  finish_row now (set_failure_type (Some Conflict) (set_status Cancelled r)).

Definition requeue_intended (i : Z) (r : PushQueueRow) : bool :=
  running_with_id i r && bool_decide (pending_action r = Some RequeueConflict)
  && bool_decide (superseded_by r = None).

Definition complete_conflict_requeue_in_txn (old : PushQueueRow) (now : Z) (db : Db)
    : Db * outcome MegaError Z :=
  let '(db1, n) := update_where (requeue_intended (row_id old)) (cancel_conflict_row now) db in
  if (n =? 0)%Z then
    match push_queue db !! row_id old ≫= superseded_by with
    | Some successor => (db, Ok successor)
    | None => (db, Err ConflictRequeueNotRunning)
    end
  else
    match insert_row (fresh_row (kind old) (operation_id old) (path old) (old_id old)
                        (new_id old) (requester old) (payload old) now) db1 with
    | (db2, inl idx) => (with_seq (push_queue_seq db2) db, Err (ConflictRequeueUnique idx))
    | (db2, inr successor) =>
        (fst (update_where (λ r, (row_id r =? row_id old)%Z)
                (λ r, set_updated_at now (set_superseded_by (Some successor) r)) db2),
         Ok successor)
    end.

(** ** Queries *)

Definition get_by_id (i : Z) (db : Db) : option PushQueueRow := push_queue db !! i.

Definition get_control (db : Db) : outcome MegaError QueueControl :=
  match control db with Some c => Ok c | None => Err QueueControlMissing end.

Definition is_hard_stopped_in_txn (db : Db) : outcome MegaError bool :=
  match control db with Some c => Ok (hard_stopped c) | None => Err QueueControlMissing end.

Definition count_non_terminal (db : Db) : Z := count is_active db.

Definition list_active (db : Db) : list PushQueueRow := order_by_id (select is_active db).

Definition list_running_in_txn (db : Db) : list PushQueueRow :=
  order_by_id (select (has_status Running) db).

Definition list_merge_for_legacy_ui (db : Db) : list PushQueueRow :=
  order_by_id (select (λ r, bool_decide (kind r = Merge)
    && (has_status Queued r || has_status Running r || has_status Failed r
        || has_status Cancelled r)) db).

Definition count_by_kind_and_status (k : PushQueueKindEnum) (s : PushQueueStatusEnum)
    (db : Db) : Z := count (λ r, bool_decide (kind r = k) && has_status s r) db.

Definition count_by_status (s : PushQueueStatusEnum) (db : Db) : Z := count (has_status s) db.

Definition list_by_kind_and_operation (k : PushQueueKindEnum) (op : text) (db : Db)
    : list PushQueueRow :=
  reverse (order_by_id (select (λ r,
    bool_decide (kind r = k) && bool_decide (operation_id r = op)) db)).

(** [ORDER BY finished_at DESC LIMIT limit]; rows finished at the same time come
    in no particular order. *)
Definition list_recent_finished (limit : nat) (db : Db) : list PushQueueRow :=
  take limit (reverse (sort_by (λ r, default 0%Z (finished_at r)) Z.compare
    (select (λ r, bool_decide (is_Some (finished_at r))) db))).

(** ** Controls *)

Definition set_paused (b : bool) (now : Z) (c : QueueControl) : QueueControl :=
  mk_QueueControl b (hard_stopped c) (last_policy c) (max_depth c) (published_version c) now.
Definition set_hard_stopped (b : bool) (now : Z) (c : QueueControl) : QueueControl :=
  mk_QueueControl (paused c) b (last_policy c) (max_depth c) (published_version c) now.
Definition set_policy (p : text) (now : Z) (c : QueueControl) : QueueControl :=
  mk_QueueControl (paused c) (hard_stopped c) p (max_depth c) (published_version c) now.
Definition set_max_depth (d : Z) (now : Z) (c : QueueControl) : QueueControl :=
  mk_QueueControl (paused c) (hard_stopped c) (last_policy c) d (published_version c) now.
Definition set_published (v : Z) (now : Z) (c : QueueControl) : QueueControl :=
  mk_QueueControl (paused c) (hard_stopped c) (last_policy c) (max_depth c) v now.

Definition update_control (f : QueueControl → QueueControl) (db : Db) : Db :=
  with_control (f <$> control db) db.

Definition set_control_flags (p h : option bool) (d : option Z) (now : Z) (db : Db) : Db :=
  let db1 := from_option (λ b, update_control (set_paused b now) db) db p in
  let db2 := from_option (λ b, update_control (set_hard_stopped b now) db1) db1 h in
  from_option (λ n, update_control (set_max_depth n now) db2) db2 d.

Definition set_hard_stopped_in_txn (b : bool) (now : Z) (db : Db) : Db :=
  update_control (set_hard_stopped b now) db.

Definition set_last_policy (p : text) (now : Z) (db : Db) : Db * outcome MegaError unit :=
  match control db with
  | None => (db, Err LastPolicyZeroRows)
  | Some _ => (update_control (set_policy p now) db, Ok tt)
  end.

Definition switch_last_policy_if_queue_empty (new_policy : text) (now : Z) (db : Db)
    : Db * outcome MegaError (option (text * text)) :=
  match control db with
  | None => (db, Err QueueControlMissing)
  | Some c =>
      if bool_decide (last_policy c = new_policy) then (db, Ok None)
      else
        let n := count is_active db in
        if (0 <? n)%Z then (db, Err (PolicyChangeNotDrained (last_policy c) n))
        else
          let db1 := with_indexed ((λ _, None) <$> indexed_push_id db) db in
          (update_control (set_policy new_policy now) db1,
           Ok (Some (last_policy c, new_policy)))
  end.

(** ** Authorization outbox *)

Definition insert_authz_outbox (version : option Z) (d : bool) (now : Z) (db : Db) : Db :=
  let n := outbox_seq db in
  with_outbox (<[n := mk_OutboxRow n version d now None]> (outbox db)) (n + 1)%Z db.

Definition cas_published_version (version now : Z) (db : Db) : Db * bool :=
  match control db with
  | Some c =>
      if (published_version c <? version)%Z
      then (update_control (set_published version now) db, true) else (db, false)
  | None => (db, false)
  end.

Definition load_published_version (db : Db) : outcome MegaError Z :=
  match control db with Some c => Ok (published_version c) | None => Err QueueControlMissing end.

Definition pending_authz_outbox (db : Db) : list OutboxRow :=
  sort_by outbox_id Z.compare
    (List.filter (λ o, bool_decide (replayed_at o = None)) (map_to_list (outbox db)).*2).

Definition mark_authz_outbox_replayed (i now : Z) (db : Db) : Db :=
  with_outbox (alter (λ o, if bool_decide (replayed_at o = None)
                           then mk_OutboxRow (outbox_id o) (outbox_version o) (dirty o)
                                  (outbox_created_at o) (Some now)
                           else o) i (outbox db)) (outbox_seq db) db.
