(* ===== verification/PushQueueInv.v ===== *)
(** * MonoWriteQueue: invariant of the tables

    The invariant every transaction of [PushQueue] preserves: identifiers come from
    the sequence, at most one row is Running, at most one push per path is in
    flight, at most one row per operation is Queued, Running or Done (so the partial
    unique indexes of the schema are never the ones to refuse an update), the
    columns of a row agree with its status, and a superseded row points forward to
    the row that carries the same operation. *)
From stdpp Require Import base strings sets numbers tactics gmap list.
From S2P Require Import Prelude Text QueueTables PushQueue.

(** ** Definitions *)

(** The columns no transition changes. *)
Definition row_key (r : PushQueueRow) :=
  (row_id r, (kind r, operation_id r, path r), (old_id r, new_id r, requester r, payload r)).

(** The columns that report how an operation ended. *)
Definition row_result (r : PushQueueRow) :=
  (status r, landed_commit_id r, failure_type r, error_message r, finished_at r).

Definition same_request (r s : PushQueueRow) : Prop := snd (fst (row_key r)) = snd (fst (row_key s))
  ∧ snd (row_key r) = snd (row_key s).

Definition expected_cleared (r : PushQueueRow) : Prop :=
  expected_commit_hash r = None ∧ expected_tree_hash r = None
  ∧ expected_native_sequence r = None ∧ expected_native_epoch r = None
  ∧ expected_native_certificate r = None.

(** Agreement of the columns of a row with its status. *)
Definition row_ok (r : PushQueueRow) : Prop :=
  (status r = Running ∨ pending_action r = None)
  ∧ (status r = Cancelled ∨ superseded_by r = None)
  ∧ match status r with
    | Queued => started_at r = None ∧ expected_cleared r
                ∧ finished_at r = None ∧ landed_commit_id r = None
    | Running => finished_at r = None ∧ landed_commit_id r = None
    | Done => is_Some (finished_at r) ∧ is_Some (landed_commit_id r)
    | Failed | Cancelled => is_Some (finished_at r) ∧ landed_commit_id r = None
    end.

(** Two rows that must not both be in the table. *)
Definition clash (r s : PushQueueRow) : Prop :=
  (status r = Running ∧ status s = Running)
  ∨ (kind r = Push ∧ kind s = Push ∧ is_active r = true ∧ is_active s = true ∧ path r = path s)
  ∨ (in_operation_states r = true ∧ in_operation_states s = true
     ∧ snd (fst (row_key r)) = snd (fst (row_key s))).

Record queue_inv (db : Db) : Prop := {
  inv_ids : ∀ k r, push_queue db !! k = Some r →
    row_id r = k ∧ (0 < k < push_queue_seq db)%Z;
  inv_seq : (0 < push_queue_seq db)%Z;
  inv_rows : ∀ k r, push_queue db !! k = Some r → row_ok r;
  inv_clash : ∀ i j r s, push_queue db !! i = Some r → push_queue db !! j = Some s →
    clash r s → i = j;
  inv_superseded : ∀ k r n, push_queue db !! k = Some r → superseded_by r = Some n →
    (k < n)%Z ∧ ∃ s, push_queue db !! n = Some s ∧ same_request r s;
}.

Lemma clash_sym r s : clash r s → clash s r.
Proof. unfold clash. intuition. Qed.

(** ** Lemmas on the statements *)

Lemma has_status_spec s r : has_status s r = true ↔ status r = s.
Proof. unfold has_status. apply bool_decide_eq_true. Qed.

Lemma is_active_spec r : is_active r = true ↔ status r = Queued ∨ status r = Running.
Proof. unfold is_active. by rewrite orb_true_iff, !has_status_spec. Qed.

Lemma in_operation_states_spec r :
  in_operation_states r = true ↔ status r = Queued ∨ status r = Running ∨ status r = Done.
Proof. unfold in_operation_states. rewrite orb_true_iff, is_active_spec, has_status_spec. tauto. Qed.

Lemma elem_of_rows r db : r ∈ rows db ↔ ∃ k, push_queue db !! k = Some r.
Proof.
  unfold rows. rewrite list_elem_of_fmap. split.
  - intros ([k r'] & -> & H%elem_of_map_to_list). by exists k.
  - intros [k H]. exists (k, r). split; [done|]. by apply elem_of_map_to_list.
Qed.

Lemma elem_of_select p r db :
  r ∈ select p db ↔ p r = true ∧ ∃ k, push_queue db !! k = Some r.
Proof.
  unfold select. rewrite list_elem_of_In, filter_In, <-list_elem_of_In, elem_of_rows. tauto.
Qed.

Lemma existsb_rows p db :
  existsb p (rows db) = true ↔ ∃ k r, push_queue db !! k = Some r ∧ p r = true.
Proof.
  rewrite existsb_exists. split.
  - intros (r & Hr & Hp). apply list_elem_of_In, elem_of_rows in Hr as [k Hk]. eauto.
  - intros (k & r & Hk & Hp). exists r. split; [|done].
    apply list_elem_of_In, elem_of_rows. eauto.
Qed.

Lemma existsb_rows_false p db :
  existsb p (rows db) = false ↔ ∀ k r, push_queue db !! k = Some r → p r = false.
Proof.
  rewrite <-not_true_iff_false, existsb_rows. split.
  - intros H k r Hk. destruct (p r) eqn:E; [|done]. destruct H. eauto.
  - intros H (k & r & Hk & Hp). by rewrite (H k r Hk) in Hp.
Qed.

Lemma select_one_Some p db r :
  select_one p db = Some r → p r = true ∧ ∃ k, push_queue db !! k = Some r.
Proof.
  unfold select_one. intros H. apply elem_of_select. destruct (select p db); simplify_eq/=. by left.
Qed.

Lemma select_one_None p db :
  select_one p db = None ↔ ∀ k r, push_queue db !! k = Some r → p r = false.
Proof.
  unfold select_one. split.
  - intros H k r Hk. destruct (p r) eqn:E; [|done].
    assert (r ∈ select p db) as Hin by (apply elem_of_select; eauto).
    destruct (select p db); [by apply elem_of_nil in Hin|done].
  - intros H. destruct (select p db) as [|r l] eqn:E; [done|].
    assert (r ∈ select p db) as [Hp [k Hk]]%elem_of_select by (rewrite E; by left).
    by rewrite (H k r Hk) in Hp.
Qed.

Lemma select_nil p db :
  select p db = [] ↔ ∀ k r, push_queue db !! k = Some r → p r = false.
Proof. rewrite <-select_one_None. unfold select_one. by destruct (select p db). Qed.

(** The number of rows an update by identifier affects. *)
Lemma count_le p q db :
  (∀ r, p r = true → q r = true) → (count p db ≤ count q db)%Z.
Proof.
  intros H. unfold count, select. induction (rows db) as [|r l IH]; simpl; [done|].
  destruct (p r) eqn:Ep; [rewrite (H r Ep); simpl; lia|]. destruct (q r); simpl; lia.
Qed.

Lemma count_fmap p g q db :
  count p (with_queue (g <$> q) db) = count (λ r, p (g r)) (with_queue q db).
Proof.
  unfold count, select, rows, with_queue; simpl. f_equal.
  assert ((map_to_list (g <$> q)).*2 ≡ₚ g <$> (map_to_list q).*2) as Hp.
  { rewrite map_to_list_fmap, <-!list_fmap_compose. done. }
  rewrite (filter_length_perm p _ _ Hp). clear Hp. induction (map_to_list q).*2 as [|r l IH]; simpl; [done|].
  change (list_fmap _ _ g l) with (g <$> l). destruct (p (g r)); simpl; lia.
Qed.

Lemma count_insert p n r q db :
  q !! n = None →
  count p (with_queue (<[n := r]> q) db)
  = (count p (with_queue q db) + if p r then 1 else 0)%Z.
Proof.
  intros Hn. unfold count, select, rows, with_queue; simpl.
  assert ((map_to_list (<[n := r]> q)).*2 ≡ₚ r :: (map_to_list q).*2) as Hp.
  { by rewrite map_to_list_insert. }
  rewrite (filter_length_perm p _ _ Hp). simpl. destruct (p r); simpl; lia.
Qed.

Lemma lookup_update_where p f db k :
  push_queue (fst (update_where p f db)) !! k
  = (λ r, if p r then f r else r) <$> push_queue db !! k.
Proof. unfold update_where. simpl. apply lookup_fmap. Qed.

(** ** Updates *)

(** An [UPDATE] that keeps the fixed columns and creates no clash. *)
Lemma update_inv_gen (p : PushQueueRow → bool) (f : PushQueueRow → PushQueueRow) (db : Db) :
  let g := λ r : PushQueueRow, if p r then f r else r in
  (∀ r, row_key (f r) = row_key r) → (∀ r, superseded_by (f r) = superseded_by r) →
  (∀ k r, push_queue db !! k = Some r → p r = true → row_ok (f r)) →
  (∀ i j r s, push_queue db !! i = Some r → push_queue db !! j = Some s →
     clash (g r) (g s) → i = j) →
  queue_inv db → queue_inv (fst (update_where p f db)).
Proof.
  intros g Hkey Hsup Hok Hclash [Hids Hseq Hrows Hcl Hsp].
  assert (∀ r, row_key (g r) = row_key r) as Hgk by (intros r; unfold g; destruct (p r); auto).
  assert (∀ r, superseded_by (g r) = superseded_by r) as Hgs
    by (intros r; unfold g; destruct (p r); auto).
  assert (∀ k, push_queue (fst (update_where p f db)) !! k = g <$> push_queue db !! k) as Hlook
    by apply lookup_update_where.
  split.
  - intros k r. rewrite Hlook. intros (r0 & Hr0 & ->)%fmap_Some.
    destruct (Hids k r0 Hr0) as [Hk ?]. split; [|done].
    specialize (Hgk r0). unfold row_key in Hgk. simplify_eq. congruence.
  - done.
  - intros k r. rewrite Hlook. intros (r0 & Hr0 & ->)%fmap_Some.
    unfold g. destruct (p r0) eqn:E; eauto.
  - intros i j r s. rewrite !Hlook.
    intros (r0 & Hr0 & ->)%fmap_Some (s0 & Hs0 & ->)%fmap_Some Hc. eauto.
  - intros k r n. rewrite !Hlook. intros (r0 & Hr0 & ->)%fmap_Some Hn. rewrite Hgs in Hn.
    destruct (Hsp k r0 n Hr0 Hn) as (? & s & Hs0 & Hsame). split; [done|].
    rewrite Hs0. eexists. split; [done|]. unfold same_request. by rewrite !Hgk.
Qed.

(** What the statement of an [UPDATE] respects, whatever the table. *)
Record safe_update (p : PushQueueRow → bool) (f : PushQueueRow → PushQueueRow) : Prop := {
  su_key : ∀ r, row_key (f r) = row_key r;
  su_super : ∀ r, superseded_by (f r) = superseded_by r;
  su_ok : ∀ r, p r = true → row_ok r → row_ok (f r);
  su_states : ∀ r, p r = true → in_operation_states (f r) = true → in_operation_states r = true;
  su_active : ∀ r, p r = true → is_active (f r) = true → is_active r = true;
  su_running : ∀ r, p r = true → status (f r) = Running → status r = Running;
  su_result : ∀ r, p r = true → ¬ is_active r = true → row_result (f r) = row_result r;
}.

Lemma update_inv p f db :
  safe_update p f → queue_inv db → queue_inv (fst (update_where p f db)).
Proof.
  intros [Hkey Hsup Hok Hst Hact Hrun _] Hinv. pose proof Hinv as [_ _ Hrows Hcl _].
  apply update_inv_gen; [done|done|by eauto| |done].
  intros i j r s Hi Hj Hc. apply (Hcl i j r s Hi Hj). revert Hc.
  pose proof (Hkey r) as Hr. pose proof (Hkey s) as Hs.
  unfold row_key in *. simplify_eq/=. unfold clash, row_key.
  destruct (p r) eqn:Er, (p s) eqn:Es; simpl;
    intros [(?&?)|[(?&?&?&?&?)|(?&?&?)]]; simplify_eq/=;
    [left|right; left|right; right|left|right; left|right; right
    |left|right; left|right; right|left|right; left|right; right];
    repeat split; auto; congruence.
Qed.

(** Solves [safe_update] for a concrete statement: every column is a projection of
    nested assignments, and the status after the update is known. *)
Ltac solve_safe :=
  split; try done; intros r Hp; unfold running_with_id in *; bool_prop;
  try match goal with Hq : ∀ r, _ → status r = _ |- _ => apply Hq in Hp end;
  rewrite ?is_active_spec, ?in_operation_states_spec, ?has_status_spec in *;
  destruct_or?; simpl;
  unfold row_ok, expected_cleared; simpl;
  repeat match goal with H : status r = _ |- _ => rewrite H in * end; auto;
  try (intros (? & ? & ?); repeat split; by intuition eauto);
  try (by intuition discriminate).

Lemma touch_safe i now :
  safe_update (λ r, (row_id r =? i)%Z) (λ r, set_updated_at now (set_heartbeat_at now r)).
Proof. solve_safe. Qed.

Lemma reset_safe i now :
  safe_update (running_with_id i) (λ r, set_pending_action None (requeued_row now r)).
Proof. solve_safe. Qed.

Lemma intent_safe i now :
  safe_update (running_with_id i)
    (λ r, set_updated_at now (set_pending_action (Some RequeueConflict) r)).
Proof. solve_safe. Qed.

Lemma done_safe i landed now :
  safe_update (running_with_id i)
    (λ r, finish_row now (set_landed_commit_id (Some landed) (set_status Done r))).
Proof. solve_safe. Qed.

Lemma failed_safe i failure message now :
  safe_update (running_with_id i) (fail_row Failed failure message now).
Proof. solve_safe. Qed.

Lemma cancel_safe p message now :
  (∀ r, p r = true → status r = Queued) →
  safe_update p (fail_row Cancelled SystemError message now).
Proof. intros Hq; solve_safe. Qed.

Lemma freeze_safe cl message now :
  safe_update
    (λ r, bool_decide (kind r = Merge) && bool_decide (operation_id r = cl) && is_active r)
    (fail_row Failed SystemError message now).
Proof. solve_safe. Qed.

Lemma cancel_conflict_safe i now :
  safe_update (requeue_intended i) (cancel_conflict_row now).
Proof. unfold requeue_intended. solve_safe. Qed.

Lemma update_where_ext p f g db :
  (∀ k r, push_queue db !! k = Some r → p r = true → f r = g r) →
  update_where p f db = update_where p g db.
Proof.
  intros H. unfold update_where. do 2 f_equal. apply map_eq. intros k.
  rewrite !lookup_fmap. destruct (push_queue db !! k) as [r|] eqn:E; [|done].
  simpl. destruct (p r) eqn:Ep; [|done]. by rewrite (H k r).
Qed.

(** ** Claim *)

Lemma claimable_spec i db k r :
  queue_inv db → push_queue db !! k = Some r → claimable i db r = true →
  k = i ∧ status r = Queued ∧ (∀ j s, push_queue db !! j = Some s → status s ≠ Running)
  ∧ min_queued db = Some i.
Proof.
  intros [Hids _ _ _ _] Hk. unfold claimable. intros ?; bool_prop. rewrite has_status_spec in *.
  destruct (Hids k r Hk). split; [congruence|]. split; [done|]. split; [|done].
  intros j s Hj Hs. rewrite existsb_rows_false in *.
  match goal with H : ∀ k r, _ → has_status Running r = false |- _ => specialize (H j s Hj) end.
  by rewrite (proj2 (has_status_spec Running s) Hs) in *.
Qed.

Lemma claim_row_spec now o r :
  row_key (claim_row now o r) = row_key r
  ∧ superseded_by (claim_row now o r) = superseded_by r
  ∧ status (claim_row now o r) = Running
  ∧ (status r = Queued → row_ok r → row_ok (claim_row now o r)).
Proof.
  destruct r. unfold row_ok. simpl.
  do 3 (split; [done|]). intros ->. intuition (done || eauto).
Qed.

(** Making the only selected row Running when none is. *)
Lemma start_inv p f db i :
  (∀ r, row_key (f r) = row_key r ∧ superseded_by (f r) = superseded_by r
        ∧ status (f r) = Running ∧ (status r = Queued → row_ok r → row_ok (f r))) →
  (∀ k r, push_queue db !! k = Some r → p r = true →
     k = i ∧ status r = Queued ∧ ∀ j s, push_queue db !! j = Some s → status s ≠ Running) →
  queue_inv db → queue_inv (fst (update_where p f db)).
Proof.
  intros Hf Hp Hinv. pose proof Hinv as [_ _ Hrows Hcl _].
  assert (∀ r s, status r = Queued → status s ≠ Running → clash (f r) s → clash r s) as Hmono.
  { intros r s Hr Hs. destruct (Hf r) as (Hk & _ & Hst & _). unfold clash.
    rewrite Hst, !is_active_spec, !in_operation_states_spec, Hk. unfold row_key in Hk.
    simplify_eq. intuition congruence. }
  apply update_inv_gen; [apply Hf|apply Hf| | |done].
  - intros k r Hr E. destruct (Hp k r Hr E) as (_ & Hq & _). apply Hf; eauto.
  - intros a b r s Hr Hs. destruct (p r) eqn:Er, (p s) eqn:Es.
    + intros _. destruct (Hp _ _ Hr Er), (Hp _ _ Hs Es). congruence.
    + destruct (Hp _ _ Hr Er) as (-> & Hq & Hno). intros Hc. apply (Hcl _ _ _ _ Hr Hs).
      by apply Hmono; eauto.
    + destruct (Hp _ _ Hs Es) as (-> & Hq & Hno). intros Hc. apply (Hcl _ _ _ _ Hr Hs).
      apply clash_sym, Hmono; eauto using clash_sym.
    + by apply Hcl.
Qed.

Lemma claim_inv i now o db :
  queue_inv db → queue_inv (fst (update_where (claimable i db) (claim_row now o) db)).
Proof.
  intros Hinv. apply (start_inv _ _ _ i); [apply claim_row_spec| |done].
  intros k r Hk Hp. destruct (claimable_spec i db k r Hinv Hk Hp) as (? & ? & ? & _). auto.
Qed.

(** ** Insertion *)

Lemma seq_fresh db : queue_inv db → push_queue db !! push_queue_seq db = None.
Proof.
  intros [Hids _ _ _ _]. destruct (push_queue db !! push_queue_seq db) as [r|] eqn:E; [|done].
  apply Hids in E as [_ ?]. lia.
Qed.

Lemma seq_inv n db :
  (push_queue_seq db ≤ n)%Z → queue_inv db → queue_inv (with_seq n db).
Proof.
  intros Hn [Hids Hseq Hrows Hcl Hsp]. split; simpl; try done; [|lia].
  intros k r Hk. destruct (Hids k r Hk). split; [done|]. lia.
Qed.

Lemma control_inv c db : queue_inv db → queue_inv (with_control c db).
Proof. by intros [? ? ? ? ?]; split. Qed.

Lemma unique_violation_None r db :
  unique_violation r db = None → status r = Queued →
  ∀ k s, push_queue db !! k = Some s → ¬ clash r s.
Proof.
  intros Hu Hq k s Hk Hc. unfold unique_violation in Hu.
  assert (is_active r = true ∧ in_operation_states r = true) as [Ha Ho]
    by (rewrite is_active_spec, in_operation_states_spec; auto).
  rewrite Ha, Ho in Hu. rewrite andb_true_r in Hu. simpl in Hu.
  destruct Hc as [[? _]|[(Hkr & Hks & _ & Hsa & Hp)|(_ & Hs & Hkey)]]; [congruence| |].
  - assert (is_push r = true) as E1 by (unfold is_push; by case_bool_decide).
    assert (existsb (λ o, is_push o && is_active o && bool_decide (path o = path r)) (rows db)
      = true) as E2.
    { apply existsb_rows. exists k, s. split; [done|]. unfold is_push.
      rewrite !bool_decide_true, Hsa by done. done. }
    by rewrite E1, E2 in Hu.
  - assert (existsb (λ o, in_operation_states o
      && same_operation (kind r) (operation_id r) (path r) o) (rows db) = true) as E2.
    { apply existsb_rows. exists k, s. split; [done|]. rewrite Hs. unfold same_operation, row_key in *.
      simpl in Hkey. simplify_eq. by rewrite !bool_decide_true. }
    rewrite E2 in Hu. by destruct (_ && _).
Qed.

Lemma insert_inv r db db' n :
  queue_inv db → (∀ k, row_id (r k) = k ∧ row_ok (r k) ∧ status (r k) = Queued) →
  insert_row r db = (db', inr n) →
  queue_inv db' ∧ n = push_queue_seq db ∧ push_queue_seq db' = (n + 1)%Z
  ∧ push_queue db' = <[n := r n]> (push_queue db) ∧ control db' = control db.
Proof.
  intros Hinv Hr. unfold insert_row.
  destruct (unique_violation (r (push_queue_seq db)) db) eqn:Hu; [done|].
  intros Heq. injection Heq as <- <-. split; [|done].
  set (m := push_queue_seq db) in *. destruct (Hr m) as (Hid & Hok & Hq).
  pose proof (unique_violation_None _ _ Hu Hq) as Hnc.
  assert (superseded_by (r m) = None) as Hsup.
  { destruct Hok as (_ & [?|?] & _); [congruence|done]. }
  assert (push_queue db !! m = None) as Hfresh by by apply seq_fresh.
  destruct Hinv as [Hids Hseq Hrows Hcl Hsp]. split; simpl.
  - intros k s. rewrite lookup_insert_Some. intros [[<- <-]|[_ Hk]]; [split; [done|lia]|].
    destruct (Hids k s Hk). split; [done|lia].
  - lia.
  - intros k s. rewrite lookup_insert_Some. intros [[<- <-]|[_ Hk]]; eauto.
  - intros i j a b. rewrite !lookup_insert_Some.
    intros [[<- <-]|[? Hi]] [[<- <-]|[? Hj]] Hc; [done| | |by eauto].
    + by destruct (Hnc j b Hj).
    + destruct (Hnc i a Hi). by apply clash_sym.
  - intros k s n'. rewrite lookup_insert_Some. intros [[<- <-]|[_ Hk]] Hn; [congruence|].
    destruct (Hsp k s n' Hk Hn) as (? & t & Ht & Hsame). split; [done|].
    exists t. split; [|done]. rewrite lookup_insert_ne; [done|]. intros <-. congruence.
Qed.

Lemma fresh_row_ok k op p old new req pay now n :
  let r := fresh_row k op p old new req pay now n in
  row_id r = n ∧ row_ok r ∧ status r = Queued.
Proof. simpl. repeat split; auto. Qed.

(** ** Updates by identifier *)

Definition by_id (i : Z) (p : PushQueueRow → bool) : Prop := ∀ r, p r = true → row_id r = i.

Lemma update_by_id p f i db :
  queue_inv db → by_id i p →
  push_queue (fst (update_where p f db))
  = alter (λ r, if p r then f r else r) i (push_queue db).
Proof.
  intros [Hids _ _ _ _] Hp. apply map_eq. intros k. rewrite lookup_update_where.
  destruct (decide (k = i)) as [->|Hne]; [by rewrite lookup_alter_eq|].
  rewrite lookup_alter_ne by done. destruct (push_queue db !! k) as [r|] eqn:E; [|done].
  simpl. destruct (p r) eqn:Ep; [|done]. apply Hp in Ep. apply Hids in E as [? _]. congruence.
Qed.

Lemma count_by_id p i db :
  queue_inv db → by_id i p →
  count p db = from_option (λ r, if p r then 1 else 0)%Z 0%Z (push_queue db !! i).
Proof.
  intros [Hids _ _ _ _] Hp.
  assert (∀ q, (∀ k r, q !! k = Some r → p r = false) → count p (with_queue q db) = 0%Z) as H0.
  { intros q Hq. unfold count. replace (select p (with_queue q db)) with (@nil PushQueueRow); [done|].
    symmetry. by apply select_nil. }
  change (count p db) with (count p (with_queue (push_queue db) db)).
  destruct (push_queue db !! i) as [r|] eqn:E; simpl.
  - rewrite <-(insert_id _ _ _ E), <-insert_delete_eq, count_insert by apply lookup_delete_eq.
    rewrite H0; [lia|]. intros k s [Hne Hs]%lookup_delete_Some.
    destruct (p s) eqn:Ep; [|done]. apply Hp in Ep. apply Hids in Hs as [? _]. congruence.
  - apply H0. intros k s Hs. destruct (p s) eqn:Ep; [|done].
    apply Hp in Ep. pose proof Hs as Hs'. apply Hids in Hs as [? _]. congruence.
Qed.

Lemma running_with_id_spec i r : running_with_id i r = true ↔ row_id r = i ∧ status r = Running.
Proof. unfold running_with_id. rewrite andb_true_iff, has_status_spec, Z.eqb_eq. done. Qed.

Lemma running_by_id i : by_id i (running_with_id i).
Proof. by intros r [? _]%running_with_id_spec. Qed.

Lemma requeue_intended_spec i r :
  requeue_intended i r = true ↔
  row_id r = i ∧ status r = Running ∧ pending_action r = Some RequeueConflict
  ∧ superseded_by r = None.
Proof.
  unfold requeue_intended. rewrite !andb_true_iff, running_with_id_spec, !bool_decide_eq_true. tauto.
Qed.

Lemma requeue_by_id i : by_id i (requeue_intended i).
Proof. by intros r [? _]%requeue_intended_spec. Qed.

(** ** Conflict requeue *)

Lemma link_inv i n now db r s :
  queue_inv db → push_queue db !! i = Some r → push_queue db !! n = Some s →
  status r = Cancelled → same_request r s → (i < n)%Z →
  queue_inv (fst (update_where (λ r, (row_id r =? i)%Z)
    (λ r, set_updated_at now (set_superseded_by (Some n) r)) db)).
Proof.
  intros Hinv Hi Hn Hst Hsame Hlt. pose proof Hinv as [Hids Hseq Hrows Hcl Hsp].
  set (f := λ r, set_updated_at now (set_superseded_by (Some n) r)).
  assert (push_queue (fst (update_where (λ r, (row_id r =? i)%Z) f db)) = <[i := f r]> (push_queue db)) as Hq.
  { rewrite (update_by_id _ _ i); [|done|by intros ? ?%Z.eqb_eq]. apply map_eq. intros k.
    destruct (decide (k = i)) as [->|?].
    - rewrite lookup_alter_eq, lookup_insert_eq, Hi. simpl.
      destruct (Hids i r Hi) as [-> _]. by rewrite Z.eqb_refl.
    - by rewrite lookup_alter_ne, lookup_insert_ne. }
  assert (∀ k t, <[i := f r]> (push_queue db) !! k = Some t →
    ∃ t0, push_queue db !! k = Some t0 ∧ row_key t = row_key t0 ∧ status t = status t0
      ∧ (t = t0 ∨ k = i ∧ t = f r)) as Hback.
  { intros k t. rewrite lookup_insert_Some. intros [[<- <-]|[? Ht]]; [exists r|exists t]; auto 6. }
  assert (∀ k t0, push_queue db !! k = Some t0 →
    ∃ t, <[i := f r]> (push_queue db) !! k = Some t ∧ row_key t = row_key t0) as Hforth.
  { intros k t0 Ht. destruct (decide (k = i)) as [->|?].
    - rewrite lookup_insert_eq. eexists. split; [done|]. simplify_eq. done.
    - rewrite lookup_insert_ne by done. eauto. }
  split; rewrite ?Hq; simpl.
  - intros k t (t0 & Ht0 & Hk & _)%Hback. destruct (Hids k t0 Ht0). unfold row_key in Hk.
    simplify_eq. split; [congruence|done].
  - done.
  - intros k t. rewrite lookup_insert_Some. intros [[<- <-]|[? Ht]]; [|by eauto].
    pose proof (Hrows i r Hi) as Hok. unfold row_ok in *. simpl. rewrite Hst in *. intuition.
  - intros a b t u (t0 & Ht0 & Hkt & Hst0 & _)%Hback (u0 & Hu0 & Hku & Hsu0 & _)%Hback Hc.
    apply (Hcl a b t0 u0 Ht0 Hu0). revert Hc. unfold clash.
    rewrite !is_active_spec, !in_operation_states_spec, Hst0, Hsu0.
    unfold row_key in *. simpl. simplify_eq. intuition congruence.
  - intros k t m (t0 & Ht0 & Hkt & _ & [->|[-> ->]])%Hback Hm.
    + destruct (Hsp k t0 m Ht0 Hm) as (? & u & Hu & Hs). split; [done|].
      destruct (Hforth m u Hu) as (u' & ? & Hk'). exists u'. split; [done|].
      unfold same_request in *. by rewrite Hk'.
    + injection Hm as <-. split; [done|]. destruct (Hforth n s Hn) as (u' & ? & Hk').
      exists u'. split; [done|]. unfold same_request in *. rewrite Hk', Hkt.
      simplify_eq. done.
Qed.

(** No row but the one being requeued holds its operation or its path. *)
Lemma requeue_no_violation db i r q now n :
  queue_inv db → push_queue db !! i = Some r → status r = Running →
  q = <[i := cancel_conflict_row now r]> (push_queue db) →
  unique_violation (fresh_row (kind r) (operation_id r) (path r) (old_id r) (new_id r)
    (requester r) (payload r) now n) (with_queue q db) = None.
Proof.
  intros [_ _ _ Hcl _] Hi Hst ->. unfold unique_violation.
  assert (∀ k o, <[i := cancel_conflict_row now r]> (push_queue db) !! k = Some o →
    in_operation_states o = true → k ≠ i ∧ push_queue db !! k = Some o) as Hne.
  { intros k o. rewrite lookup_insert_Some. intros [[<- <-]|[? ?]]; [done|auto]. }
  assert (∀ o, is_active o = true → in_operation_states o = true) as Hao.
  { intros o. rewrite is_active_spec, in_operation_states_spec. tauto. }
  assert (is_active r = true) as Hra by (rewrite is_active_spec; auto).
  replace (existsb (λ o, in_operation_states o && same_operation _ _ _ o) _) with false.
  2: { symmetry. apply existsb_rows_false. intros k o Ho.
    destruct (in_operation_states o) eqn:Eo; [|done]. destruct (Hne k o Ho Eo) as [Hki Hko].
    apply not_true_iff_false. unfold same_operation. simpl. intros ?; bool_prop. destruct Hki.
    apply (Hcl k i o r Hko Hi). right. right. rewrite (Hao r Hra). unfold row_key. simpl.
    repeat split; [done|congruence]. }
  destruct (is_push r) eqn:Er; [|unfold is_push in *; simpl; by rewrite Er].
  replace (existsb (λ o, is_push o && is_active o && _) _) with false;
    [by rewrite !andb_false_r|].
  symmetry. apply existsb_rows_false. intros k o Ho.
  destruct (is_active o) eqn:Eo; [|by rewrite andb_false_r].
  destruct (Hne k o Ho (Hao o Eo)) as [Hki Hko].
  apply not_true_iff_false. simpl. unfold is_push in *. intros ?; bool_prop. destruct Hki.
  apply (Hcl k i o r Hko Hi). right. left. done.
Qed.
