(* ===== verification/PushQueueSteps.v ===== *)
(** * MonoWriteQueue: transactions as steps

    The transactions of [PushQueue] as a step relation.  [unlocked_step] are those
    that do not lock [queue_control]: they may commit between the statements of an
    admission.  They only move rows towards a terminal status ([evolves]), which is
    what makes the classification of a refused insertion sound.  The invariant holds
    in every reachable state. *)
From stdpp Require Import base strings sets numbers tactics gmap list relations.
From S2P Require Import Prelude Text QueueTables PushQueue PushQueueInv.

(** ** Steps *)

Inductive unlocked_step : Db → Db → Prop :=
  | us_touch_heartbeat i now db : unlocked_step db (touch_heartbeat i now db)
  | us_reset_running i now db : unlocked_step db (fst (reset_running_to_queued i now db))
  | us_persist_intent i now db : unlocked_step db (fst (persist_requeue_conflict_intent i now db))
  | us_mark_done i landed now db :
      unlocked_step db (fst (mark_done_if_running_in_txn i landed now db))
  | us_mark_failed i failure message now db :
      unlocked_step db (fst (mark_failed_if_running_in_txn i failure message now db))
  | us_cancel_if_queued i now db : unlocked_step db (fst (cancel_if_queued i now db))
  | us_cancel_stale cutoff now db :
      unlocked_step db (fst (cancel_stale_queued_in_txn cutoff now db))
  | us_freeze_merge cl_link message now db :
      unlocked_step db (fst (freeze_merge_for_authz cl_link message now db))
  | us_reset_in_txn i now db :
      (∀ r, push_queue db !! i = Some r → status r = Running → pending_action r = None) →
      unlocked_step db (fst (reset_running_to_queued_in_txn i now db))
  | us_insert_outbox version d now db : unlocked_step db (insert_authz_outbox version d now db)
  | us_mark_replayed i now db : unlocked_step db (mark_authz_outbox_replayed i now db).

(** What other transactions do between two statements of an admission. *)
Definition interference (env : Db → Db) : Prop := ∀ db, rtc unlocked_step db (env db).

Inductive queue_step : Db → Db → Prop :=
  | qs_unlocked db db' : unlocked_step db db' → queue_step db db'
  | qs_enqueue validate env1 env2 env3 p now db :
      interference env1 → interference env2 → interference env3 →
      queue_step db (fst (enqueue_atomic validate env1 env2 env3 p now db))
  | qs_claim native decode observations i now db :
      queue_step db (fst (claim_for_execution native decode observations i now db))
  | qs_requeue old r now db :
      push_queue db !! row_id old = Some r → row_key old = row_key r →
      queue_step db (fst (complete_conflict_requeue_in_txn old now db))
  | qs_control p h d now db : queue_step db (set_control_flags p h d now db)
  | qs_hard_stop b now db : queue_step db (set_hard_stopped_in_txn b now db)
  | qs_last_policy p now db : queue_step db (fst (set_last_policy p now db))
  | qs_switch_policy p now db :
      queue_step db (fst (switch_last_policy_if_queue_empty p now db))
  | qs_publish v now db : queue_step db (fst (cas_published_version v now db)).

(** The tables as the migrations create them: no row has been queued. *)
Definition initial (db : Db) : Prop := push_queue db = ∅ ∧ push_queue_seq db = 1%Z.

Definition reachable (db : Db) : Prop := ∃ db0, initial db0 ∧ rtc queue_step db0 db.

(** ** Evolution without the admission lock *)

Definition row_evolves (r r' : PushQueueRow) : Prop :=
  row_key r' = row_key r ∧ superseded_by r' = superseded_by r
  ∧ (in_operation_states r' = true → in_operation_states r = true)
  ∧ (is_active r' = true → is_active r = true)
  ∧ (¬ is_active r = true → row_result r' = row_result r).

Record evolves (db db' : Db) : Prop := {
  ev_control : control db' = control db;
  ev_seq : push_queue_seq db' = push_queue_seq db;
  ev_rows : ∀ k, option_Forall2 row_evolves (push_queue db !! k) (push_queue db' !! k);
  ev_count : (count is_active db' ≤ count is_active db)%Z;
}.

Lemma row_evolves_refl r : row_evolves r r.
Proof. by repeat split. Qed.

Lemma row_evolves_trans r s t : row_evolves r s → row_evolves s t → row_evolves r t.
Proof.
  intros (? & ? & ? & Ha & Hr) (? & ? & ? & Ha' & Hr'). split; [congruence|].
  split; [congruence|]. split; [auto|]. split; [auto|]. intros Hn.
  rewrite Hr', Hr by auto. done.
Qed.

#[export] Instance evolves_preorder : PreOrder evolves.
Proof.
  split.
  - intros db. split; [done|done| |done]. intros k.
    destruct (push_queue db !! k); constructor. apply row_evolves_refl.
  - intros db1 db2 db3 [Hc1 Hs1 Hr1 Hn1] [Hc2 Hs2 Hr2 Hn2].
    split; [congruence|congruence| |lia]. intros k. specialize (Hr1 k). specialize (Hr2 k).
    destruct Hr1 as [r s Hrs|]; inversion Hr2; constructor. subst. by eapply row_evolves_trans.
Qed.

Lemma update_evolves p f db : safe_update p f → evolves db (fst (update_where p f db)).
Proof.
  intros [Hkey Hsup Hok Hst Hact Hrun Hres]. split; [done|done| |].
  - intros k. rewrite lookup_update_where. destruct (push_queue db !! k) as [r|]; constructor.
    destruct (p r) eqn:E; [|apply row_evolves_refl]. unfold row_evolves. auto 6.
  - unfold update_where. simpl. rewrite count_fmap. apply (count_le _ is_active db).
    intros r. destruct (p r) eqn:E; auto.
Qed.

Lemma reset_in_txn_eq i now db :
  queue_inv db →
  (∀ r, push_queue db !! i = Some r → status r = Running → pending_action r = None) →
  reset_running_to_queued_in_txn i now db = reset_running_to_queued i now db.
Proof.
  intros [Hids _ _ _ _] Hp. unfold reset_running_to_queued_in_txn, reset_running_to_queued.
  rewrite (update_where_ext _ _ (λ r, set_pending_action None (requeued_row now r))); [done|].
  intros k r Hk [Hi Hst]%running_with_id_spec. destruct (Hids k r Hk) as [<- _].
  rewrite Hi in Hk. specialize (Hp r Hk Hst). destruct r. simpl in *. by rewrite Hp.
Qed.

(** An unlocked transaction is a safe update of the queue, or leaves it alone. *)
Lemma unlocked_cases db db' :
  queue_inv db → unlocked_step db db' →
  (∃ p f, safe_update p f ∧ db' = fst (update_where p f db))
  ∨ ∃ o n, db' = with_outbox o n db.
Proof.
  intros Hinv Hs. revert Hinv.
  destruct Hs as [i now db1|i now db1|i now db1|i landed now db1|i failure message now db1
    |i now db1|cutoff now db1|cl message now db1|i now db1 Hp|version d now db1|i now db1];
    intros Hinv; try (right; eexists _, _; reflexivity); left.
  - eexists _, _. split; [apply (touch_safe i now)|done].
  - eexists _, _. split; [apply (reset_safe i now)|done].
  - eexists _, _. split; [apply (intent_safe i now)|done].
  - eexists _, _. split; [apply (done_safe i landed now)|done].
  - eexists _, _. split; [apply (failed_safe i failure message now)|done].
  - eexists _, _. split; [apply (cancel_safe (λ r, (row_id r =? i)%Z && has_status Queued r))|done].
    intros r ?; bool_prop. by apply has_status_spec.
  - eexists _, _. split;
      [apply (cancel_safe (λ r, has_status Queued r && (heartbeat_at r <? cutoff)%Z))|done].
    intros r ?; bool_prop. by apply has_status_spec.
  - eexists _, _. split; [apply (freeze_safe cl message now)|done].
  - rewrite reset_in_txn_eq by done. eexists _, _. split; [apply (reset_safe i now)|done].
Qed.

Lemma unlocked_inv db db' : unlocked_step db db' → queue_inv db → queue_inv db'.
Proof.
  intros Hs Hinv. destruct (unlocked_cases db db' Hinv Hs) as [(p & f & Hsafe & ->)|(o & n & ->)].
  - by apply update_inv.
  - by destruct Hinv; split.
Qed.

Lemma unlocked_evolves db db' : queue_inv db → unlocked_step db db' → evolves db db'.
Proof.
  intros Hinv Hs. destruct (unlocked_cases db db' Hinv Hs) as [(p & f & Hsafe & ->)|(o & n & ->)].
  - by apply update_evolves.
  - split; [done|done| |done]. intros k. simpl.
    destruct (push_queue db !! k); constructor. apply row_evolves_refl.
Qed.

Lemma interference_inv env db :
  interference env → queue_inv db → queue_inv (env db) ∧ evolves db (env db).
Proof.
  intros He Hinv. specialize (He db).
  induction He as [db|db1 db2 db3 Hs _ IH]; [done|].
  pose proof (unlocked_evolves _ _ Hinv Hs) as Hev.
  destruct IH as [Hi Hev2]; [by eapply unlocked_inv|]. split; [done|]. by etrans.
Qed.

#[export] Hint Resolve unlocked_inv unlocked_evolves update_inv claim_inv control_inv : mega.

(** ** Conflict requeue *)

Definition requeue_source (now n : Z) (r : PushQueueRow) : PushQueueRow :=
  set_updated_at now (set_superseded_by (Some n) (cancel_conflict_row now r)).

Definition requeue_successor (now n : Z) (r : PushQueueRow) : PushQueueRow :=
  fresh_row (kind r) (operation_id r) (path r) (old_id r) (new_id r) (requester r) (payload r) now n.

Lemma requeue_source_spec now n r :
  row_key (requeue_source now n r) = row_key r
  ∧ row_result (requeue_source now n r)
    = (Cancelled, landed_commit_id r, Some Conflict, error_message r, Some now)
  ∧ superseded_by (requeue_source now n r) = Some n.
Proof. by destruct r. Qed.

Lemma conflict_requeue_ok db old r now :
  queue_inv db → push_queue db !! row_id old = Some r → row_key old = row_key r →
  requeue_intended (row_id old) r = true →
  let n := push_queue_seq db in
  ∃ db', complete_conflict_requeue_in_txn old now db = (db', Ok n) ∧ queue_inv db'
    ∧ push_queue db' = <[row_id old := requeue_source now n r]>
                         (<[n := requeue_successor now n r]> (push_queue db))
    ∧ push_queue_seq db' = (n + 1)%Z ∧ control db' = control db.
Proof.
  intros Hinv Hr Hkey Hint n. pose proof Hinv as [Hids _ _ _ _].
  destruct (proj1 (requeue_intended_spec _ _) Hint) as (_ & Hst & _).
  set (q1 := <[row_id old := cancel_conflict_row now r]> (push_queue db)).
  assert (update_where (requeue_intended (row_id old)) (cancel_conflict_row now) db
    = (with_queue q1 db, 1%Z)) as Hup.
  { apply injective_projections; simpl.
    - f_equal. transitivity (push_queue (fst (update_where (requeue_intended (row_id old)) (cancel_conflict_row now) db)));
        [done|]. rewrite (update_by_id _ _ (row_id old)); [|done|apply requeue_by_id].
      apply map_eq. intros k. unfold q1. destruct (decide (k = row_id old)) as [->|?].
      + rewrite lookup_alter_eq, lookup_insert_eq, Hr. cbn [fmap option_fmap option_map]. by rewrite Hint.
      + by rewrite lookup_alter_ne, lookup_insert_ne.
    - rewrite (count_by_id _ (row_id old)) by (done || apply requeue_by_id).
      rewrite Hr. simpl. by rewrite Hint. }
  assert (queue_inv (with_queue q1 db)) as Hinv1.
  { change (with_queue q1 db) with (fst (with_queue q1 db, 1%Z)). rewrite <-Hup.
    apply update_inv; [apply cancel_conflict_safe|done]. }
  unfold complete_conflict_requeue_in_txn. rewrite Hup. cbn [Z.eqb].
  assert (fresh_row (kind old) (operation_id old) (path old) (old_id old) (new_id old)
    (requester old) (payload old) now = λ n, requeue_successor now n r) as ->.
  { unfold row_key in Hkey. injection Hkey as ? H2 H3 H4 H5 H6 H7 H8.
    unfold requeue_successor. by rewrite H2, H3, H4, H5, H6, H7, H8. }
  destruct (insert_row _ (with_queue q1 db)) as [db2 [idx|m]] eqn:Hins.
  { exfalso. unfold insert_row in Hins. unfold requeue_successor in Hins.
    rewrite (requeue_no_violation db (row_id old) r q1) in Hins by done. done. }
  apply insert_inv in Hins as (Hinv2 & -> & Hseq2 & Hq2 & Hc2); [|done|intros k; apply fresh_row_ok].
  simpl in Hseq2, Hq2, Hc2. fold n in Hseq2, Hq2.
  destruct (Hids _ _ Hr) as [Hid Hlt]. assert (row_id old ≠ n) as Hne by lia.
  assert (push_queue db2 !! row_id old = Some (cancel_conflict_row now r)) as Hl.
  { rewrite Hq2, lookup_insert_ne by done. apply lookup_insert_eq. }
  eexists. split; [done|]. split.
  - apply (link_inv _ _ _ _ (cancel_conflict_row now r) (requeue_successor now n r)); [done|done| |done|done|].
    + simpl. rewrite Hq2. apply lookup_insert_eq.
    + simpl. lia.
  - split; [|by rewrite <-Hseq2, <-Hc2].
    rewrite (update_by_id _ _ (row_id old)); [|done|by intros ? ?%Z.eqb_eq].
    apply map_eq. intros k. destruct (decide (k = row_id old)) as [->|?].
    + rewrite lookup_alter_eq, Hl, lookup_insert_eq. simpl. by rewrite Hid, Z.eqb_refl.
    + rewrite lookup_alter_ne, lookup_insert_ne, Hq2 by done. unfold q1.
      destruct (decide (k = n)) as [->|?]; [by rewrite !lookup_insert_eq|].
      by rewrite !lookup_insert_ne.
Qed.

Lemma conflict_requeue_skip db old r now :
  queue_inv db → push_queue db !! row_id old = Some r →
  requeue_intended (row_id old) r = false →
  complete_conflict_requeue_in_txn old now db
  = (db, match superseded_by r with Some n => Ok n | None => Err ConflictRequeueNotRunning end).
Proof.
  intros Hinv Hr Hint. unfold complete_conflict_requeue_in_txn.
  destruct (update_where _ _ db) as [db1 n] eqn:Hup.
  assert (n = count (requeue_intended (row_id old)) db) as -> by by inversion Hup.
  rewrite (count_by_id _ (row_id old)) by (done || apply requeue_by_id).
  rewrite Hr. simpl. rewrite Hint. simpl. by destruct (superseded_by r).
Qed.
