(* ===== verification/PushQueueSpec.v ===== *)
(** * MonoWriteQueue: admission, claims and requeues

    The lemmas behind the theorems of the write queue: what a refused insertion says
    of the tables, with interfering transactions and without; what a claim takes; and
    where a conflict requeue puts a request. *)
From stdpp Require Import base strings sets numbers tactics gmap list relations.
From S2P Require Import Prelude Text QueueTables PushQueue PushQueueInv PushQueueSteps.

(** ** Admission: lemmas *)

Lemma p_same_key p r r' : row_key r' = row_key r → p_same p r' = p_same p r.
Proof.
  unfold row_key, p_same, same_operation. intros H. injection H as ? H2 H3 H4 ? ? ? ?.
  by rewrite H2, H3, H4.
Qed.

(** A property of rows that moving towards a terminal status cannot create. *)
Definition never_created (P : PushQueueRow → bool) : Prop :=
  ∀ r r', row_evolves r r' → P r' = true → P r = true.

Lemma evolves_none P db db' :
  never_created P → evolves db db' →
  (∀ k r, push_queue db !! k = Some r → P r = false) →
  ∀ k r, push_queue db' !! k = Some r → P r = false.
Proof.
  intros HP [_ _ Hr _] H k r Hk. specialize (Hr k). rewrite Hk in Hr.
  inversion Hr as [r0 ? Hev Hk0|]; subst. apply not_true_iff_false. intros Hp.
  apply (HP _ _ Hev) in Hp. by rewrite (H k r0) in Hp.
Qed.

Lemma never_created_existing p : never_created (λ r, p_same p r && in_operation_states r).
Proof.
  intros r r' (Hk & _ & Hs & _) [H1 H2]%andb_true_iff. rewrite (p_same_key p r r' Hk) in H1.
  by rewrite H1, Hs.
Qed.

Lemma never_created_push t :
  never_created (λ r, is_push r && bool_decide (path r = t) && is_active r).
Proof.
  intros r r' (Hk & _ & _ & Ha & _) ?; bool_prop. unfold row_key in Hk.
  injection Hk as ? Hk ? Hp ? ? ? ?. unfold is_push in *. bool_prop.
  rewrite Ha, !bool_decide_true by congruence. done.
Qed.

(** Nothing stands in the way of the insertion. *)
Record clear_to_insert (p : EnqueueParams) (db : Db) : Prop := {
  cl_admissible : admissible p db = true;
  cl_path : p_kind p = Push → ∀ k r, push_queue db !! k = Some r →
    is_push r && bool_decide (path r = p_path p) && is_active r = false;
}.

Lemma admissible_spec p db c :
  control db = Some c →
  admissible p db = true ↔
    paused c = false ∧ hard_stopped c = false ∧ (count is_active db < max_depth c)%Z
    ∧ ∀ k r, push_queue db !! k = Some r → p_same p r && in_operation_states r = false.
Proof.
  intros Hc. unfold admissible. rewrite Hc.
  rewrite !andb_true_iff, !negb_true_iff, existsb_rows_false, Z.ltb_lt. tauto.
Qed.

Lemma new_row_violation p now db n idx :
  admissible p db = true → unique_violation (new_row p now db n) db = Some idx →
  idx = push_queue_active_push_path ∧ p_kind p = Push
  ∧ ∃ k r, push_queue db !! k = Some r ∧ is_push r && bool_decide (path r = p_path p) && is_active r = true.
Proof.
  intros Hadm. unfold unique_violation, new_row, fresh_row; simpl.
  assert (existsb (λ o, in_operation_states o
    && same_operation (p_kind p) (p_operation_id p) (p_path p) o) (rows db) = false) as Hno.
  { unfold admissible in Hadm. destruct (control db); [|done]. bool_prop.
    rewrite existsb_rows_false in *. intros k r Hk. rewrite andb_comm. by eauto. }
  rewrite Hno. unfold is_push at 1; simpl. unfold is_active at 1, has_status at 1; simpl.
  destruct (bool_decide (p_kind p = Push)) eqn:Ek; simpl; [|done].
  clear Hno Hadm. destruct (existsb _ _) eqn:Ex; [|done]. intros [= <-]. bool_prop. split; [done|]. split; [done|].
  apply existsb_rows in Ex as (k & r & Hk & Hr). exists k, r. split; [done|].
  rewrite <-Hr. by destruct (is_push r), (is_active r), (bool_decide (path r = p_path p)).
Qed.

Lemma clear_insert p now db :
  clear_to_insert p db →
  insert_row (new_row p now db) db
  = (with_queue (<[push_queue_seq db := new_row p now db (push_queue_seq db)]> (push_queue db))
       (with_seq (push_queue_seq db + 1) db), inr (push_queue_seq db)).
Proof.
  intros [Hadm Hpath]. unfold insert_row.
  destruct (unique_violation _ db) as [idx|] eqn:Hu; [|done].
  apply new_row_violation in Hu as (_ & Hk & k & r & Hl & Hr); [|done].
  by rewrite (Hpath Hk k r Hl) in Hr.
Qed.

Lemma clear_evolves p db db' c :
  control db = Some c → evolves db db' → clear_to_insert p db → clear_to_insert p db'.
Proof.
  intros Hc Hev [Hadm Hpath]. pose proof Hev as [Hc' _ _ Hn]. rewrite Hc in Hc'. split.
  - apply (admissible_spec p db' c Hc'). apply (admissible_spec p db c Hc) in Hadm as (? & ? & ? & Hex).
    repeat split; [done|done|lia|]. eapply evolves_none; [apply never_created_existing|done|done].
  - intros Hk. eapply evolves_none; [apply (never_created_push (p_path p))|done|]. by apply Hpath.
Qed.

(** When the classification finds no cause, none is left. *)
Lemma classify_none_clear p db :
  classify_zero_row p db = Ok None → clear_to_insert p db.
Proof.
  unfold classify_zero_row, find_existing. destruct (select_one _ db) as [r|] eqn:Es.
  { by destruct (existing_outcome r). }
  destruct (control db) as [c|] eqn:Hc; [|done].
  destruct (hard_stopped c) eqn:Hh; [done|]. destruct (paused c) eqn:Hp; [done|].
  destruct (_ <=? _)%Z eqn:Hn; [done|].
  destruct (bool_decide (p_kind p = Push) && _) eqn:Hx; [done|]. intros _. split.
  - apply (admissible_spec p db c Hc). repeat split; [done|done|lia|by apply select_one_None].
  - intros Hk. rewrite bool_decide_true in Hx by done. simpl in Hx. bool_prop.
    rewrite <-eq_None_not_Some in Hx. by apply select_one_None.
Qed.

(** Identifier, tail position and capacity of an inserted row. *)
Definition inserted_at_tail (p : EnqueueParams) (db' : Db) (n : Z) : Prop :=
  (∃ r, push_queue db' !! n = Some r ∧ status r = Queued ∧ p_same p r = true)
  ∧ (∀ k r, push_queue db' !! k = Some r → (k ≤ n)%Z)
  ∧ ∃ c, control db' = Some c ∧ paused c = false ∧ hard_stopped c = false
    ∧ (count is_active db' ≤ max_depth c)%Z.

Lemma clear_insert_tail p now db :
  queue_inv db → clear_to_insert p db →
  let db' := fst (insert_row (new_row p now db) db) in
  queue_inv db' ∧ inserted_at_tail p db' (push_queue_seq db).
Proof.
  intros Hinv Hcl. pose proof (clear_insert p now db Hcl) as Hins.
  assert (∀ k, row_id (new_row p now db k) = k ∧ row_ok (new_row p now db k)
    ∧ status (new_row p now db k) = Queued) as Hrow by (intros k; apply fresh_row_ok).
  destruct (insert_inv _ _ _ _ Hinv Hrow Hins) as (Hinv' & _ & Hseq & Hq & Hc).
  rewrite Hins. cbn [fst]. split; [done|]. destruct Hcl as [Hadm _].
  destruct (control db) as [c|] eqn:Ec; [|by unfold admissible in Hadm; rewrite Ec in Hadm].
  apply (admissible_spec p db c Ec) in Hadm as (Hpa & Hha & Hn & _). split; [|split].
  - exists (new_row p now db (push_queue_seq db)). rewrite Hq, lookup_insert_eq. split; [done|].
    split; [done|]. unfold p_same, same_operation. simpl. by rewrite !bool_decide_true.
  - intros k r Hk. apply Hinv' in Hk as [_ Hk]. rewrite Hseq in Hk. lia.
  - exists c. rewrite Hc. repeat split; [done..|].
    transitivity (count is_active db + 1)%Z; [|lia]. etrans; [|apply Z.eq_le_incl].
    2: { apply (count_insert is_active (push_queue_seq db) (new_row p now db (push_queue_seq db))
           (push_queue db) db). by apply seq_fresh. }
    done.
Qed.

(** What each outcome of an admission says of the tables. *)
Definition enqueue_post (p : EnqueueParams) (db' : Db) (c : QueueControl) (o : EnqueueOutcome) : Prop :=
  match o with
  | Inserted n => inserted_at_tail p db' n
  | Adopted i => ∃ r, push_queue db' !! i = Some r ∧ p_same p r = true ∧ is_active r = true
  | Replay i l => ∃ r, push_queue db' !! i = Some r ∧ p_same p r = true ∧ status r = Done
                       ∧ l = landed_commit_id r ∧ is_Some l
  | Rejected RejectPaused => paused c = true
  | Rejected RejectHardStopped => hard_stopped c = true
  | Rejected (CapacityExceeded d) => d = max_depth c ∧ (d ≤ count is_active db')%Z
  | Rejected ActivePushPathConflict =>
      p_kind p = Push ∧ ∃ k r, push_queue db' !! k = Some r ∧ kind r = Push
        ∧ path r = p_path p ∧ is_active r = true
  end.

Definition refused_by (validate : Db → PushQueueRow → option MegaError) (db' : Db)
    (res : outcome MegaError EnqueueOutcome) : Prop :=
  ∃ e r, res = Err e ∧ validate db' r = Some e.

Definition enqueue_ok validate p (db' : Db) (c : QueueControl) res : Prop :=
  (∃ o, res = Ok o ∧ enqueue_post p db' c o) ∨ refused_by validate db' res.

Lemma find_existing_Some p db r :
  queue_inv db → find_existing p db = Some r →
  push_queue db !! row_id r = Some r ∧ p_same p r = true
  ∧ ∃ o, existing_outcome r = Some o ∧ ∀ c, enqueue_post p db c o.
Proof.
  intros [Hids _ Hrows _ _] Hf. apply select_one_Some in Hf as ([Hp Ho]%andb_true_iff & k & Hk).
  destruct (Hids k r Hk) as [<- _]. split; [done|]. split; [done|].
  apply in_operation_states_spec in Ho. unfold existing_outcome.
  pose proof (Hrows _ _ Hk) as (_ & _ & Hok).
  destruct Ho as [Ho|[Ho|Ho]]; rewrite Ho in *; eexists; (split; [done|]); intros c; exists r.
  - split; [done|]. split; [done|]. apply is_active_spec. auto.
  - split; [done|]. split; [done|]. apply is_active_spec. auto.
  - destruct Hok. repeat split; done.
Qed.

Lemma path_conflict_post p db c k r :
  p_kind p = Push → push_queue db !! k = Some r →
  is_push r && bool_decide (path r = p_path p) && is_active r = true →
  enqueue_post p db c (Rejected ActivePushPathConflict).
Proof.
  intros Hk Hl ?. unfold is_push in *. bool_prop. split; [done|]. exists k, r. done.
Qed.

Lemma classified_ok validate p db c :
  queue_inv db → control db = Some c →
  match classify_zero_row p db with
  | Ok (Some o) => enqueue_ok validate p db c (finish_classified validate p db o)
  | Ok None => True
  | _ => False
  end.
Proof.
  intros Hinv Hc. unfold classify_zero_row. destruct (find_existing p db) as [r|] eqn:Hf.
  - destruct (find_existing_Some p db r Hinv Hf) as (Hl & _ & o & Ho & Hpost). rewrite Ho.
    assert (enqueue_ok validate p db c (finish_classified validate p db o)
      = enqueue_ok validate p db c (if checks_receipt (p_kind p) then validated validate p db r o else Ok o)) as ->.
    { unfold existing_outcome in Ho. destruct (status r); simplify_eq; simpl; by rewrite Hl. }
    unfold validated, enqueue_ok, refused_by. destruct (checks_receipt _); [|by eauto].
    destruct (validate db (replay_candidate p r)) eqn:Ev; eauto 6.
  - rewrite Hc. destruct (hard_stopped c) eqn:Hh; [left; by eauto|].
    destruct (paused c) eqn:Hp; [left; by eauto|].
    destruct (_ <=? _)%Z eqn:Hn; [left; eexists; split; [done|]; simpl; split; [done|lia]|].
    destruct (bool_decide (p_kind p = Push) && _) eqn:Hx; [|done].
    bool_prop. match goal with H : is_Some _ |- _ => destruct H as [r Hr] end.
    apply select_one_Some in Hr as [Hr [k Hk]]. left. eexists. split; [done|].
    by eapply path_conflict_post.
Qed.

(** ** Admission: outcome *)

Lemma enqueue_correct validate env1 env2 env3 p now db c :
  queue_inv db → control db = Some c →
  interference env1 → interference env2 → interference env3 →
  let '(db', res) := enqueue_atomic validate env1 env2 env3 p now db in
  queue_inv db' ∧ control db' = Some c ∧ enqueue_ok validate p db' c res.
Proof.
  intros Hinv Hc He1 He2 He3. unfold enqueue_atomic, enqueue_zero_rows.
  unfold conditional_insert at 1. destruct (admissible p db) eqn:Hadm.
  - unfold insert_row. destruct (unique_violation _ db) as [idx|] eqn:Hu.
    + destruct (new_row_violation _ _ _ _ _ Hadm Hu) as (-> & Hk & k & r & Hl & Hr).
      split; [apply seq_inv; [lia|done]|]. split; [done|]. left. eexists. split; [done|].
      by eapply path_conflict_post.
    + assert (clear_to_insert p db) as Hcl.
      { split; [done|]. intros Hk k r Hl. apply not_true_iff_false. intros Hr.
        pose proof (unique_violation_None _ _ Hu eq_refl k r Hl) as Hno. apply Hno.
        unfold is_push in Hr. bool_prop. right. left. repeat split; done. }
      pose proof (clear_insert_tail p now db Hinv Hcl) as [Hi Ht].
      rewrite (clear_insert p now db Hcl) in Hi, Ht. cbn [fst] in Hi, Ht.
      split; [done|]. split; [done|]. left. eauto.
  - destruct (interference_inv env1 db He1 Hinv) as [Hinv1 Hev1].
    pose proof Hev1 as [Hc1 _ _ _]. rewrite Hc in Hc1.
    pose proof (classified_ok validate p (env1 db) c Hinv1 Hc1) as Hcls.
    destruct (classify_zero_row p (env1 db)) as [[o|]|e| |] eqn:Ecls; try done.
    apply classify_none_clear in Ecls.
    destruct (interference_inv env2 (env1 db) He2 Hinv1) as [Hinv2 Hev2].
    pose proof (clear_evolves _ _ _ _ Hc1 Hev2 Ecls) as Hcl.
    pose proof Hev2 as [Hc2 _ _ _]. rewrite Hc1 in Hc2.
    pose proof (clear_insert_tail p now _ Hinv2 Hcl) as [Hi Ht].
    unfold conditional_insert. rewrite (cl_admissible _ _ Hcl).
    rewrite (clear_insert p now _ Hcl) in *. cbn [fst] in Hi, Ht.
    split; [done|]. split; [done|]. left. eauto.
Qed.

(** ** Steps preserve the invariant *)

Lemma enqueue_inv validate env1 env2 env3 p now db :
  queue_inv db → interference env1 → interference env2 → interference env3 →
  queue_inv (fst (enqueue_atomic validate env1 env2 env3 p now db)).
Proof.
  intros Hinv He1 He2 He3. destruct (control db) as [c|] eqn:Hc.
  - pose proof (enqueue_correct validate env1 env2 env3 p now db c Hinv Hc He1 He2 He3) as H.
    by destruct (enqueue_atomic _ _ _ _ _ _ _) as [db' res]; destruct H.
  - unfold enqueue_atomic, enqueue_zero_rows, conditional_insert at 1, admissible. rewrite Hc.
    destruct (interference_inv env1 db He1 Hinv) as [Hinv1 [Hc1 _ _ _]]. rewrite Hc in Hc1.
    unfold classify_zero_row at 1. rewrite Hc1.
    destruct (find_existing p (env1 db)) as [r|]; [|done]. by destruct (existing_outcome r).
Qed.

Lemma claim_step_inv native decode obs i now db :
  queue_inv db → queue_inv (fst (claim_for_execution native decode obs i now db)).
Proof.
  intros Hinv. unfold claim_for_execution. destruct (control db) as [c|]; [|done].
  destruct (hard_stopped c); [done|].
  destruct (bool_decide _); [done|]. destruct obs as [|o [|o' obs]]; [done| |done].
  pose proof (claim_inv i now o db Hinv) as Hcl.
  destruct native; [|done]. by destruct (decode o) as [e|[|]].
Qed.

Lemma requeue_step_inv old r now db :
  queue_inv db → push_queue db !! row_id old = Some r → row_key old = row_key r →
  queue_inv (fst (complete_conflict_requeue_in_txn old now db)).
Proof.
  intros Hinv Hr Hk. destruct (requeue_intended (row_id old) r) eqn:E.
  - by destruct (conflict_requeue_ok db old r now Hinv Hr Hk E) as (db' & -> & ? & _).
  - by rewrite (conflict_requeue_skip db old r now Hinv Hr E).
Qed.

(** The steps that only touch [queue_control] or other tables. *)
Lemma control_step_queue p h d now db :
  push_queue (set_control_flags p h d now db) = push_queue db
  ∧ push_queue_seq (set_control_flags p h d now db) = push_queue_seq db.
Proof. by destruct p, h, d. Qed.

Lemma same_queue_inv db db' :
  push_queue db' = push_queue db → push_queue_seq db' = push_queue_seq db →
  queue_inv db → queue_inv db'.
Proof. intros Hq Hs [? ? ? ? ?]. split; rewrite ?Hq, ?Hs; done. Qed.

Lemma queue_step_inv db db' : queue_step db db' → queue_inv db → queue_inv db'.
Proof.
  destruct 1 as [db db' Hs|validate env1 env2 env3 p now db He1 He2 He3|native decode obs i now db
    |old r now db Hr Hk|p h d now db|b now db|p now db|p now db|v now db]; intros Hinv.
  - by eapply unlocked_inv.
  - by apply enqueue_inv.
  - by apply claim_step_inv.
  - by eapply requeue_step_inv.
  - by apply (same_queue_inv db); [apply control_step_queue..|].
  - by apply (same_queue_inv db).
  - unfold set_last_policy. by destruct (control db); [apply (same_queue_inv db)|].
  - unfold switch_last_policy_if_queue_empty. destruct (control db); [|done].
    destruct (bool_decide _); [done|]. destruct (_ <? _)%Z; [done|]. by apply (same_queue_inv db).
  - unfold cas_published_version. destruct (control db); [|done].
    destruct (_ <? _)%Z; [|done]. by apply (same_queue_inv db).
Qed.


Lemma rtc_queue_inv db db' : rtc queue_step db db' → queue_inv db → queue_inv db'.
Proof. induction 1 as [|db1 db2 db3 Hs _ IH]; [done|]. intros Hinv. by eapply IH, queue_step_inv. Qed.

Lemma initial_inv db : initial db → queue_inv db.
Proof.
  intros [Hq Hs]. split; rewrite ?Hq, ?Hs; [|lia|..]; intros *; rewrite ?lookup_empty; done.
Qed.

(** ** Claim: lemmas *)

Lemma min_queued_spec db i :
  queue_inv db →
  min_queued db = Some i ↔
    (∃ r, push_queue db !! i = Some r ∧ status r = Queued)
    ∧ ∀ k r, push_queue db !! k = Some r → status r = Queued → (i ≤ k)%Z.
Proof.
  intros [Hids _ _ _ _]. unfold min_queued, order_by_id.
  pose proof (sort_by_sorted row_id Z.compare (select (has_status Queued) db)) as Hsort.
  assert (∀ r, r ∈ sort_by row_id Z.compare (select (has_status Queued) db) ↔
    status r = Queued ∧ ∃ k, push_queue db !! k = Some r) as Hel.
  { intros r. rewrite sort_by_perm, elem_of_select, has_status_spec. done. }
  destruct (sort_by row_id Z.compare _) as [|r l] eqn:E; simpl.
  - split; [done|]. intros [(r & Hr & Hs) _].
    assert (r ∈ []) as Hin by (apply Hel; eauto). by apply elem_of_nil in Hin.
  - assert (r ∈ r :: l) as [Hst [k Hk]]%Hel by by left. destruct (Hids k r Hk) as [<- _].
    inversion Hsort as [|? ? _ Hmin]; subst. rewrite Forall_forall in Hmin.
    assert (∀ j s, push_queue db !! j = Some s → status s = Queued → (row_id r ≤ j)%Z) as Hle.
    { intros j s Hj Hs. assert (s ∈ r :: l) as Hin by (apply Hel; eauto).
      apply elem_of_cons in Hin as [->|Hin]; [by destruct (Hids j r Hj); lia|].
      apply Hmin in Hin. unfold key_le, cmp_leb in Hin. destruct (Hids j s Hj) as [Hj' _].
      destruct (Z.compare_spec (row_id r) (row_id s)); [lia|lia|done]. }
    split.
    + intros [= <-]. eauto.
    + intros [(s & Hs & Hq) Hi]. f_equal. specialize (Hle i s Hs Hq).
      specialize (Hi _ _ Hk Hst). lia.
Qed.

Definition claim_ready (db : Db) (i : Z) : Prop :=
  (∃ r, push_queue db !! i = Some r ∧ status r = Queued)
  ∧ (∀ k r, push_queue db !! k = Some r → status r = Queued → (i ≤ k)%Z)
  ∧ (∀ k r, push_queue db !! k = Some r → status r ≠ Running).

Lemma claimable_iff db i r c :
  queue_inv db → control db = Some c → hard_stopped c = false → push_queue db !! i = Some r →
  claimable i db r = true ↔ claim_ready db i.
Proof.
  intros Hinv Hc Hh Hr. pose proof Hinv as [Hids _ _ _ _]. split.
  - intros (_ & Hq & Hno & Hmin)%(claimable_spec i db i r Hinv Hr).
    apply min_queued_spec in Hmin as [_ Hmin]; [|done]. split; eauto.
  - intros ((r' & Hr' & Hq) & Hmin & Hno). rewrite Hr in Hr'. injection Hr' as <-.
    unfold claimable. destruct (Hids i r Hr) as [-> _]. rewrite Z.eqb_refl, Hc. simpl. rewrite Hh.
    rewrite (proj2 (has_status_spec _ _) Hq). simpl. apply andb_true_iff. split.
    + apply negb_true_iff, existsb_rows_false. intros k s Hk.
      apply not_true_iff_false. rewrite has_status_spec. by eapply Hno.
    + apply bool_decide_eq_true, min_queued_spec; [done|]. eauto.
Qed.

Lemma claim_rows db i now o c :
  queue_inv db → control db = Some c → hard_stopped c = false → claim_ready db i →
  ∃ r, push_queue db !! i = Some r
    ∧ push_queue (fst (update_where (claimable i db) (claim_row now o) db))
      = <[i := claim_row now o r]> (push_queue db).
Proof.
  intros Hinv Hc Hh Hready. pose proof Hready as ((r & Hr & Hq) & _). exists r. split; [done|].
  assert (by_id i (claimable i db)) as Hby.
  { intros s. unfold claimable. intros ?; bool_prop. done. }
  rewrite (update_by_id _ _ i) by done. apply map_eq. intros k.
  destruct (decide (k = i)) as [->|?]; [|by rewrite lookup_alter_ne, lookup_insert_ne].
  rewrite lookup_alter_eq, lookup_insert_eq, Hr. cbn [fmap option_fmap option_map].
  by rewrite (proj2 (claimable_iff db i r c Hinv Hc Hh Hr) Hready).
Qed.

(** ** Permanence of results: lemmas *)

(** Rows survive; what is terminal keeps its request and its result. *)
Definition keeps_results (db db' : Db) : Prop :=
  ∀ k r, push_queue db !! k = Some r →
  ∃ r', push_queue db' !! k = Some r' ∧ row_key r' = row_key r
    ∧ (¬ is_active r = true → row_result r' = row_result r).

#[export] Instance keeps_results_preorder : PreOrder keeps_results.
Proof.
  split.
  - intros db k r Hr. eauto.
  - intros db1 db2 db3 H12 H23 k r Hr.
    destruct (H12 k r Hr) as (s & Hs & Hk & Hres). destruct (H23 k s Hs) as (t & Ht & Hk' & Hres').
    exists t. split; [done|]. split; [congruence|]. intros Hn.
    assert (row_result s = row_result r) as E by auto. rewrite <-E. apply Hres'.
    rewrite is_active_spec in *. unfold row_result in E. injection E as E _ _ _ _. by rewrite E.
Qed.

Lemma same_queue_keeps db db' : push_queue db' = push_queue db → keeps_results db db'.
Proof. intros H k r Hr. rewrite H. eauto. Qed.

Lemma evolves_keeps db db' : evolves db db' → keeps_results db db'.
Proof.
  intros [_ _ Hr _] k r Hk. specialize (Hr k). rewrite Hk in Hr.
  inversion Hr as [? r' (? & _ & _ & _ & Hres)|]; subst. eauto.
Qed.

Lemma insert_keeps r db : queue_inv db → keeps_results db (fst (insert_row r db)).
Proof.
  intros Hinv k s Hs. unfold insert_row.
  destruct (unique_violation _ db); [by eauto|]. simpl. exists s. split; [|done].
  rewrite lookup_insert_ne; [done|]. intros <-. by rewrite (seq_fresh db Hinv) in Hs.
Qed.

Lemma conditional_insert_keeps p now db :
  queue_inv db → keeps_results db (fst (conditional_insert p now db)).
Proof.
  intros Hinv. unfold conditional_insert. destruct (admissible p db); [|done].
  pose proof (insert_keeps (new_row p now db) db Hinv) as H.
  by destruct (insert_row _ db) as [db' [idx|n]].
Qed.

Lemma conditional_insert_inv p now db :
  queue_inv db → queue_inv (fst (conditional_insert p now db)).
Proof.
  intros Hinv. unfold conditional_insert. destruct (admissible p db); [|done].
  destruct (insert_row _ db) as [db' [idx|n]] eqn:E; simpl.
  - unfold insert_row in E. destruct (unique_violation _ db); simplify_eq.
    apply seq_inv; [lia|done].
  - eapply insert_inv in E; [by destruct E|done|]. intros k. apply fresh_row_ok.
Qed.

Lemma enqueue_keeps validate env1 env2 env3 p now db :
  queue_inv db → interference env1 → interference env2 → interference env3 →
  keeps_results db (fst (enqueue_atomic validate env1 env2 env3 p now db)).
Proof.
  intros Hinv He1 He2 He3. unfold enqueue_atomic, enqueue_zero_rows.
  assert (∀ env d, interference env → queue_inv d → queue_inv (env d) ∧ keeps_results d (env d)) as Henv.
  { intros env d He Hd. destruct (interference_inv env d He Hd). eauto using evolves_keeps. }
  assert (∀ d, queue_inv d → queue_inv (fst (conditional_insert p now d))
    ∧ keeps_results d (fst (conditional_insert p now d))) as Hci
    by eauto using conditional_insert_inv, conditional_insert_keeps.
  destruct (Hci db Hinv) as [Hi1 Hk1].
  destruct (conditional_insert p now db) as [db1 [n| |[]]]; cbn [fst] in *; [done| |done|].
  - destruct (Henv env1 db1 He1 Hi1) as [Hi2 Hk2].
    destruct (classify_zero_row p (env1 db1)) as [[o|]|e| |]; cbn [fst]; try (by etrans).
    destruct (Henv env2 _ He2 Hi2) as [Hi3 Hk3]. destruct (Hci _ Hi3) as [Hi4 Hk4].
    destruct (conditional_insert p now (env2 (env1 db1))) as [db3 [n| |idx]]; cbn [fst] in *;
      [by do 3 (etrans; [done|])| |by do 3 (etrans; [done|])].
    destruct (Henv env3 _ He3 Hi4) as [_ Hk5].
    destruct (classify_zero_row p (env3 db3)) as [[o|]|e| |]; cbn [fst]; by do 4 (etrans; [done|]).
  - destruct (Henv env1 db1 He1 Hi1) as [_ Hk2]. by etrans.
Qed.

Lemma claim_keeps native decode obs i now db :
  queue_inv db → keeps_results db (fst (claim_for_execution native decode obs i now db)).
Proof.
  intros Hinv. unfold claim_for_execution. destruct (control db) as [c|]; [|done].
  destruct (hard_stopped c); [done|].
  destruct (bool_decide _); [done|]. destruct obs as [|o [|o' obs]]; [done| |done].
  assert (keeps_results db (fst (update_where (claimable i db) (claim_row now o) db))) as Hk.
  { intros k r Hr. rewrite lookup_update_where, Hr. cbn [fmap option_fmap option_map].
    destruct (claimable i db r) eqn:E; [|by eauto].
    eexists. split; [done|]. split; [apply claim_row_spec|]. intros Hn. destruct Hn.
    destruct (claimable_spec i db k r Hinv Hr E) as (_ & Hq & _). apply is_active_spec. auto. }
  destruct native; [|done]. by destruct (decode o) as [e|[|]].
Qed.

Lemma requeue_keeps old r now db :
  queue_inv db → push_queue db !! row_id old = Some r → row_key old = row_key r →
  keeps_results db (fst (complete_conflict_requeue_in_txn old now db)).
Proof.
  intros Hinv Hr Hk. destruct (requeue_intended (row_id old) r) eqn:E.
  - destruct (conflict_requeue_ok db old r now Hinv Hr Hk E) as (db' & -> & _ & Hq & _).
    intros k s Hs. simpl. rewrite Hq. destruct (decide (k = row_id old)) as [->|?].
    + rewrite lookup_insert_eq. eexists. split; [done|]. rewrite Hr in Hs. injection Hs as <-.
      split; [apply requeue_source_spec|]. intros Hn. destruct Hn.
      apply requeue_intended_spec in E as (_ & Hst & _). apply is_active_spec. auto.
    + rewrite !lookup_insert_ne; [by eauto| |done]. intros <-.
      by rewrite (seq_fresh db Hinv) in Hs.
  - by rewrite (conflict_requeue_skip db old r now Hinv Hr E).
Qed.

Lemma queue_step_keeps db db' : queue_inv db → queue_step db db' → keeps_results db db'.
Proof.
  intros Hinv Hs. revert Hinv.
  destruct Hs as [db db' Hs|validate env1 env2 env3 p now db He1 He2 He3|native decode obs i now db
    |old r now db Hr Hk|p h d now db|b now db|p now db|p now db|v now db]; intros Hinv.
  - by apply evolves_keeps, unlocked_evolves.
  - by apply enqueue_keeps.
  - by apply claim_keeps.
  - by eapply requeue_keeps.
  - apply same_queue_keeps, control_step_queue.
  - by apply same_queue_keeps.
  - unfold set_last_policy. by destruct (control db); apply same_queue_keeps.
  - unfold switch_last_policy_if_queue_empty. apply same_queue_keeps.
    destruct (control db); [|done]. destruct (bool_decide _); [done|]. by destruct (_ <? _)%Z.
  - unfold cas_published_version. apply same_queue_keeps.
    destruct (control db); [|done]. by destruct (_ <? _)%Z.
Qed.
