(* ===== verification/PushQueueTheorems.v ===== *)
(** * MonoWriteQueue: theorems

    The properties of the write queue, each with a run of the model on concrete
    tables as its witness.  The lemmas are in [PushQueueInv], [PushQueueSteps] and
    [PushQueueSpec]. *)
From stdpp Require Import base strings sets numbers tactics gmap list relations.
From S2P Require Import Prelude Text QueueTables PushQueue PushQueueInv PushQueueSteps PushQueueSpec.

(** ** Reference definition of the admission decision *)

Definition enqueue_reference (validate : Db → PushQueueRow → option MegaError)
    (p : EnqueueParams) (c : QueueControl) (db : Db) : outcome MegaError EnqueueOutcome :=
  match find_existing p db with
  | Some r =>
      match existing_outcome r with
      | Some o => validated validate p db r o
      | None => Panic
      end
  | None =>
      if hard_stopped c then Ok (Rejected RejectHardStopped)
      else if paused c then Ok (Rejected RejectPaused)
      else if (max_depth c <=? count is_active db)%Z then Ok (Rejected (CapacityExceeded (max_depth c)))
      else if bool_decide (p_kind p = Push)
           && existsb (λ r, is_push r && bool_decide (path r = p_path p) && is_active r) (rows db)
        then Ok (Rejected ActivePushPathConflict)
      else Ok (Inserted (push_queue_seq db))
  end.

(** The row at the end of a chain of conflict requeues ([superseded_by]), as the
    wait loop follows it. *)
Fixpoint follow (fuel : nat) (i : Z) (db : Db) : option Z :=
  match fuel with
  | O => None
  | S fuel =>
      match push_queue db !! i ≫= superseded_by with
      | Some n => follow fuel n db
      | None => Some i
      end
  end.

(** ** Lemmas *)

Lemma existsb_select_one P db :
  existsb P (rows db) = bool_decide (is_Some (select_one P db)).
Proof.
  destruct (select_one P db) as [r|] eqn:E.
  - rewrite bool_decide_true by eauto. apply select_one_Some in E as [Hp [k Hk]].
    apply existsb_rows. eauto.
  - rewrite bool_decide_false by (by intros [? ?]). by apply existsb_rows_false, select_one_None.
Qed.

Lemma admissible_find p db c :
  control db = Some c →
  admissible p db = negb (paused c) && negb (hard_stopped c)
    && (count is_active db <? max_depth c)%Z && bool_decide (find_existing p db = None).
Proof.
  intros Hc. unfold admissible, find_existing. rewrite Hc, existsb_select_one. f_equal.
  by destruct (select_one _ db).
Qed.

Lemma finish_classified_existing validate p db r o :
  queue_inv db → find_existing p db = Some r → existing_outcome r = Some o →
  finish_classified validate p db o = validated validate p db r o.
Proof.
  intros Hinv Hf Ho. destruct (find_existing_Some p db r Hinv Hf) as (Hl & _).
  unfold existing_outcome in Ho. unfold finish_classified, validated.
  destruct (status r); simplify_eq; simpl; rewrite Hl; by destruct (checks_receipt (p_kind p)).
Qed.

Lemma violation_path p now db n :
  admissible p db = true →
  unique_violation (new_row p now db n) db
  = if bool_decide (p_kind p = Push)
       && existsb (λ r, is_push r && bool_decide (path r = p_path p) && is_active r) (rows db)
    then Some push_queue_active_push_path else None.
Proof.
  intros Hadm. destruct (bool_decide (p_kind p = Push) && _) eqn:E.
  - bool_prop. apply existsb_rows in H0 as (k & r & Hk & Hr). unfold is_push in Hr. bool_prop.
    destruct (unique_violation _ db) as [idx|] eqn:Hu.
    + by apply new_row_violation in Hu as (-> & _).
    + exfalso. apply (unique_violation_None _ _ Hu eq_refl k r Hk). right. left. done.
  - destruct (unique_violation _ db) as [idx|] eqn:Hu; [|done].
    apply new_row_violation in Hu as (_ & Hk & k & r & Hl & Hr); [|done].
    rewrite bool_decide_true in E by done. simpl in E.
    rewrite existsb_rows_false in E. by rewrite (E k r Hl) in Hr.
Qed.

Lemma requeue_count db db' i n r now :
  push_queue db !! i = Some r → push_queue db !! n = None → i ≠ n → status r = Running →
  push_queue db' = <[i := requeue_source now n r]> (<[n := requeue_successor now n r]> (push_queue db)) →
  count is_active db' = count is_active db.
Proof.
  intros Hr Hfresh Hne Hst Hq.
  assert (is_active r = true) as Ha by (apply is_active_spec; auto).
  transitivity (count is_active (with_queue (push_queue db') db)); [done|]. rewrite Hq.
  transitivity (count is_active (with_queue (delete i (push_queue db)) db) + 1)%Z.
  - rewrite insert_insert_ne by done.
    rewrite <-(insert_delete_eq (push_queue db)), <-insert_insert_ne by done.
    rewrite !count_insert; [unfold is_active at 2 3; simpl; lia| |].
    + by rewrite lookup_delete_ne.
    + by rewrite lookup_insert_ne, lookup_delete_eq.
  - transitivity (count is_active (with_queue (<[i := r]> (delete i (push_queue db))) db)).
    + by rewrite count_insert, Ha by apply lookup_delete_eq.
    + by rewrite insert_delete_eq, insert_id.
Qed.

(** ** Theorems *)

(** C1: in every state the transactions can reach from the empty queue, whatever
    their order and interleaving, the invariant holds: identifiers are those the
    sequence gave, at most one row is Running, at most one push per path is active,
    an operation has at most one row that is Queued, Running or Done, the columns of
    a row agree with its status, and a superseded row points to a later row with the
    same request. *)
Theorem reachable_invariant db : reachable db → queue_inv db.
Proof. intros (db0 & Hi & Hs). eapply rtc_queue_inv; [exact Hs|by apply initial_inv]. Qed.

(** An admission always ends with an outcome that describes the tables, even
    when other transactions commit between its statements: the row was inserted at
    the tail of the queue within capacity, or is the live row of the same operation,
    or the result of a finished one, or the refusal names a cause that holds.  The
    only errors are those of the receipt check; no conflict stays unclassified. *)
Theorem enqueue_total validate env1 env2 env3 p now db c :
  queue_inv db → control db = Some c →
  interference env1 → interference env2 → interference env3 →
  let '(db', res) := enqueue_atomic validate env1 env2 env3 p now db in
  queue_inv db' ∧ control db' = Some c ∧ enqueue_ok validate p db' c res.
Proof. apply enqueue_correct. Qed.

(** C23: without interference the conditional insertion, the unique indexes and the
    classification of a refused insertion together decide as one ordered list of
    rules; in particular a finished operation is replayed even while the queue is
    paused, stopped or full. *)
Theorem enqueue_decision validate p now db c :
  queue_inv db → control db = Some c →
  snd (enqueue_atomic validate id id id p now db) = enqueue_reference validate p c db.
Proof.
  intros Hinv Hc. unfold enqueue_atomic, enqueue_zero_rows, enqueue_reference, conditional_insert at 1.
  pose proof (admissible_find p db c Hc) as Hadm.
  destruct (admissible p db) eqn:Ea.
  - symmetry in Hadm. bool_prop. rw_bools.
    match goal with H : find_existing _ _ = None |- _ => rewrite H end.
    destruct (Z.leb_spec (max_depth c) (count is_active db)) as [Hle|_]; [lia|].
    unfold insert_row. rewrite (violation_path p now db _ Ea).
    by destruct (bool_decide (p_kind p = Push) && _).
  - change (id db) with db. unfold classify_zero_row.
    destruct (find_existing p db) as [r|] eqn:Hf.
    + destruct (existing_outcome r) as [o|] eqn:Ho; [|done].
      cbn [snd]. by apply finish_classified_existing.
    + rewrite Hc. destruct (hard_stopped c); [done|]. destruct (paused c); [done|].
      destruct (Z.leb_spec (max_depth c) (count is_active db)) as [Hle|Hlt]; [done|].
      exfalso. rewrite bool_decide_true in Hadm by done. simpl in Hadm.
      destruct (Z.ltb_spec (count is_active db) (max_depth c)); [done|lia].
Qed.

(** A claim succeeds exactly when its row is Queued, no Queued row is older and
    no row is Running; it then changes that row alone, to Running, and records the
    observed root as the expected baseline.  Otherwise nothing changes. *)
Theorem claim_exact decode o i now db c :
  queue_inv db → control db = Some c → hard_stopped c = false →
  let '(db', res) := claim_for_execution false decode [o] i now db in
  (claim_ready db i →
     res = Ok Claimed ∧ queue_inv db'
     ∧ ∃ r, push_queue db !! i = Some r
         ∧ push_queue db' = <[i := claim_row now o r]> (push_queue db)
         ∧ status (claim_row now o r) = Running
         ∧ expected_commit_hash (claim_row now o r) = root_commit o
         ∧ expected_tree_hash (claim_row now o r) = root_tree o)
  ∧ (¬ claim_ready db i → res = Ok Missed ∧ db' = db).
Proof.
  intros Hinv Hc Hh. unfold claim_for_execution. rewrite Hc, Hh.
  destruct (bool_decide (select (claimable i db) db = [])) eqn:E; bool_prop.
  - split; [|done]. intros Hready. exfalso. pose proof Hready as ((r & Hr & _) & _).
    rewrite select_nil in E. specialize (E i r Hr).
    by rewrite (proj2 (claimable_iff db i r c Hinv Hc Hh Hr) Hready) in E.
  - split.
    + intros Hready. split; [done|]. split; [by apply claim_inv|].
      destruct (claim_rows db i now o c Hinv Hc Hh Hready) as (r & Hr & Hq). by exists r.
    + intros Hn. destruct E. apply select_nil. intros k r Hk. apply not_true_iff_false. intros Hp.
      destruct (claimable_spec i db k r Hinv Hk Hp) as (-> & _). destruct Hn.
      by apply (claimable_iff db i r c Hinv Hc Hh Hk).
Qed.

(** The queue makes progress: while it is not stopped, some row is Queued and
    none is Running, the oldest Queued row can be claimed. *)
Theorem claim_progress decode o now db c k r :
  queue_inv db → control db = Some c → hard_stopped c = false →
  push_queue db !! k = Some r → status r = Queued →
  (∀ j s, push_queue db !! j = Some s → status s ≠ Running) →
  ∃ i, snd (claim_for_execution false decode [o] i now db) = Ok Claimed ∧ (i ≤ k)%Z.
Proof.
  intros Hinv Hc Hh Hk Hq Hno.
  assert (∃ i, min_queued db = Some i) as [i Hi].
  { unfold min_queued, order_by_id.
    destruct (sort_by row_id Z.compare (select (has_status Queued) db)) as [|s l] eqn:E; [|by eexists].
    exfalso. assert (r ∈ @nil PushQueueRow) as Hin.
    { rewrite <-E, sort_by_perm. apply elem_of_select. rewrite has_status_spec. eauto. }
    by apply elem_of_nil in Hin. }
  apply min_queued_spec in Hi as [Hex Hmin]; [|done]. exists i. split; [|by eapply Hmin].
  assert (claim_ready db i) as Hready by by split.
  unfold claim_for_execution. rewrite Hc, Hh. destruct Hex as (s & Hs & _).
  rewrite bool_decide_false; [done|]. rewrite select_nil. intros Hf.
  specialize (Hf i s Hs). by rewrite (proj2 (claimable_iff db i s c Hinv Hc Hh Hs) Hready) in Hf.
Qed.

(** Results are permanent.  Whatever transactions follow, a row stays in the
    table with the same request, and once it is Done, Failed or Cancelled its status,
    landed commit, failure, message and finish time never change. *)
Theorem results_permanent db db' k r :
  queue_inv db → rtc queue_step db db' → push_queue db !! k = Some r →
  ∃ r', push_queue db' !! k = Some r' ∧ row_key r' = row_key r
    ∧ (¬ is_active r = true → row_result r' = row_result r).
Proof.
  intros Hinv Hs Hk. assert (keeps_results db db') as H; [|by apply H].
  clear Hk. induction Hs as [|db1 db2 db3 Hst _ IH]; [done|].
  etrans; [by apply queue_step_keeps|]. apply IH. by eapply queue_step_inv.
Qed.

(** Completing a conflict requeue cancels the Running row, puts the same
    request at the tail under a new identifier and links the two; no unique index
    refuses it, the number of active rows does not change, and repeating it returns
    the same successor without another row. *)
Theorem conflict_requeue_once db old r now now' :
  queue_inv db → push_queue db !! row_id old = Some r → row_key old = row_key r →
  requeue_intended (row_id old) r = true →
  let n := push_queue_seq db in
  ∃ db', complete_conflict_requeue_in_txn old now db = (db', Ok n) ∧ queue_inv db'
    ∧ push_queue db' !! row_id old = Some (requeue_source now n r)
    ∧ push_queue db' !! n = Some (requeue_successor now n r)
    ∧ count is_active db' = count is_active db
    ∧ complete_conflict_requeue_in_txn old now' db' = (db', Ok n).
Proof.
  intros Hinv Hr Hk Hint n.
  destruct (conflict_requeue_ok db old r now Hinv Hr Hk Hint) as (db' & Heq & Hinv' & Hq & _).
  fold n in Heq, Hq. exists db'. split; [done|]. split; [done|].
  pose proof (seq_fresh db Hinv) as Hfresh. fold n in Hfresh.
  assert (row_id old ≠ n) as Hne by congruence.
  assert (push_queue db' !! row_id old = Some (requeue_source now n r)) as Hl
    by (rewrite Hq; apply lookup_insert_eq).
  split; [done|]. split; [rewrite Hq, lookup_insert_ne by done; apply lookup_insert_eq|]. split.
  - destruct (proj1 (requeue_intended_spec _ _) Hint) as (_ & Hst & _).
    by apply (requeue_count db db' (row_id old) n r now).
  - rewrite (conflict_requeue_skip db' old _ now' Hinv' Hl); [done|].
    apply not_true_iff_false. rewrite requeue_intended_spec. intros (_ & Hs & _). done.
Qed.

(** The wait loop that follows conflict requeues ends: from any row, at most as
    many links as the identifiers that remain lead to a row that is not superseded,
    which is not older and carries the same request. *)
Theorem follow_terminates db i r :
  queue_inv db → push_queue db !! i = Some r →
  ∃ j s, follow (Z.to_nat (push_queue_seq db - i)) i db = Some j
    ∧ push_queue db !! j = Some s ∧ superseded_by s = None ∧ same_request r s ∧ (i ≤ j)%Z.
Proof.
  intros [Hids _ _ _ Hsp] Hi.
  remember (Z.to_nat (push_queue_seq db - i)) as fuel eqn:Hf.
  assert (Z.to_nat (push_queue_seq db - i) ≤ fuel) as Hle by lia. clear Hf.
  revert i r Hi Hle. induction fuel as [|fuel IH]; intros i r Hi Hle.
  - destruct (Hids i r Hi). lia.
  - simpl. rewrite Hi. simpl. destruct (superseded_by r) as [n|] eqn:Hn.
    + destruct (Hsp i r n Hi Hn) as (Hlt & s & Hs & Hsame).
      destruct (Hids i r Hi) as [_ ?]. destruct (Hids n s Hs) as [_ ?].
      destruct (IH n s Hs) as (j & t & Hj & Ht & Htn & Hst & Hij); [lia|].
      exists j, t. unfold same_request in *. repeat split; [done..|intuition congruence|intuition congruence|lia].
    + exists i, r. unfold same_request. repeat split; [done..|lia].
Qed.

(** The push policy changes only while no row is Queued or Running, and then
    the blob index watermarks are cleared with it in the same transaction; in every
    other case the tables stay as they are. *)
Theorem policy_switch_drained pol now db :
  let '(db', res) := switch_last_policy_if_queue_empty pol now db in
  match res with
  | Ok (Some (from, to)) =>
      to = pol ∧ from ≠ pol ∧ (∀ k r, push_queue db !! k = Some r → ¬ is_active r = true)
      ∧ last_policy <$> control db = Some from ∧ last_policy <$> control db' = Some pol
      ∧ push_queue db' = push_queue db
      ∧ ∀ b w, indexed_push_id db' !! b = Some w → w = None
  | _ => db' = db
  end.
Proof.
  unfold switch_last_policy_if_queue_empty. destruct (control db) as [c|] eqn:Hc; [|done].
  destruct (bool_decide (last_policy c = pol)) eqn:Hp; [done|]. bool_prop.
  destruct (Z.ltb_spec 0 (count is_active db)) as [Hn|Hn]; [done|].
  split; [done|]. split; [done|]. split.
  { intros k r Hk Ha. unfold count in Hn.
    assert (r ∈ select is_active db) as Hin by (apply elem_of_select; eauto).
    destruct (select is_active db); [by apply elem_of_nil in Hin|simpl in Hn; lia]. }
  simpl. rewrite Hc. repeat split; [done..|].
  intros b w. rewrite lookup_fmap. intros (x & _ & ->)%fmap_Some. done.
Qed.

(** ** Witnesses: a run of the queue *)

Definition demo_control : QueueControl := mk_QueueControl false false [] 4 0 0.
Definition demo_empty : Db := mk_Db ∅ 1 (Some demo_control) ∅ 1 ∅.
Definition demo_push : EnqueueParams :=
  mk_EnqueueParams Push (lit "op") (lit "/a") (lit "0") (lit "1") None JNull.
Definition demo_root : NativeObservation :=
  mk_NativeObservation (Some (lit "c0")) (Some (lit "t0")) None None None.
Definition no_check (_ : Db) (_ : PushQueueRow) : option MegaError := None.
Definition no_decode (_ : NativeObservation) : MegaError + bool := inr true.

Definition demo_queued : Db := fst (enqueue_atomic no_check id id id demo_push 0 demo_empty).
Definition demo_running : Db :=
  fst (claim_for_execution false no_decode [demo_root] 1 1 demo_queued).
Definition demo_intent : Db := fst (persist_requeue_conflict_intent 1 2 demo_running).
Definition demo_done : Db := fst (mark_done_if_running_in_txn 1 (lit "c1") 3 demo_running).

Lemma id_interference : interference id.
Proof. intros db. apply rtc_refl. Qed.

Lemma demo_queued_step : queue_step demo_empty demo_queued.
Proof. apply qs_enqueue; apply id_interference. Qed.

Lemma demo_running_step : rtc queue_step demo_empty demo_running.
Proof. eapply rtc_l; [apply demo_queued_step|]. apply rtc_once. apply qs_claim. Qed.

Lemma demo_inv :
  queue_inv demo_empty ∧ queue_inv demo_queued ∧ queue_inv demo_running
  ∧ queue_inv demo_intent ∧ queue_inv demo_done.
Proof.
  assert (queue_inv demo_empty) as H0 by by apply initial_inv.
  assert (queue_inv demo_running) as H2 by by eapply rtc_queue_inv; [apply demo_running_step|].
  split; [done|]. split; [by eapply queue_step_inv; [apply demo_queued_step|]|].
  split; [done|]. split.
  - exact (unlocked_inv _ _ (us_persist_intent 1 2 demo_running) H2).
  - exact (unlocked_inv _ _ (us_mark_done 1 (lit "c1") 3 demo_running) H2).
Qed.

Lemma reachable_invariant_witness : reachable demo_running ∧ queue_inv demo_running.
Proof.
  assert (reachable demo_running) as H by (exists demo_empty; split; [done|apply demo_running_step]).
  split; [exact H|]. exact (reachable_invariant demo_running H).
Defined.

Lemma enqueue_total_witness :
  let '(db', res) := enqueue_atomic no_check id id id demo_push 5 demo_running in
  queue_inv db' ∧ control db' = Some demo_control ∧ enqueue_ok no_check demo_push db' demo_control res.
Proof.
  apply (enqueue_total no_check id id id demo_push 5 demo_running demo_control);
    [apply demo_inv|vm_compute; reflexivity|apply id_interference..].
Defined.

Lemma enqueue_decision_witness :
  snd (enqueue_atomic no_check id id id demo_push 5 demo_done) = Ok (Replay 1 (Some (lit "c1"))).
Proof.
  rewrite (enqueue_decision no_check demo_push 5 demo_done demo_control);
    [vm_compute; reflexivity|apply demo_inv|vm_compute; reflexivity].
Defined.

Lemma demo_claim_ready : claim_ready demo_queued 1.
Proof.
  assert (∀ k r, push_queue demo_queued !! k = Some r → k = 1%Z ∧ status r = Queued) as H.
  { intros k r Hk. assert (push_queue demo_queued = {[1%Z := new_row demo_push 0 demo_empty 1]}) as E
      by (vm_compute; reflexivity).
    rewrite E in Hk. apply lookup_singleton_Some in Hk as [<- <-]. done. }
  split; [eexists; split; [vm_compute; reflexivity|done]|]. split.
  - intros k r [-> _]%H _. lia.
  - intros k r [_ ->]%H. done.
Qed.

Lemma claim_exact_witness :
  claim_ready demo_queued 1
  ∧ snd (claim_for_execution false no_decode [demo_root] 1 1 demo_queued) = Ok Claimed.
Proof.
  split; [apply demo_claim_ready|].
  pose proof (claim_exact no_decode demo_root 1 1 demo_queued demo_control
    ltac:(apply demo_inv) ltac:(vm_compute; reflexivity) eq_refl) as H.
  destruct (claim_for_execution _ _ _ _ _ _) as [db' res]. destruct H as [H _].
  by destruct (H demo_claim_ready) as [-> _].
Defined.

Lemma claim_progress_witness :
  ∃ i, snd (claim_for_execution false no_decode [demo_root] i 1 demo_queued) = Ok Claimed ∧ (i ≤ 1)%Z.
Proof.
  apply (claim_progress no_decode demo_root 1 demo_queued demo_control 1
           (new_row demo_push 0 demo_empty 1));
    [apply demo_inv|vm_compute; reflexivity|reflexivity|vm_compute; reflexivity|reflexivity|].
  apply demo_claim_ready.
Defined.

Lemma results_permanent_witness :
  ∃ r r', push_queue demo_done !! 1%Z = Some r ∧ status r = Done
    ∧ push_queue (set_hard_stopped_in_txn true 9 demo_done) !! 1%Z = Some r'
    ∧ row_result r' = row_result r.
Proof.
  eexists. edestruct (results_permanent demo_done (set_hard_stopped_in_txn true 9 demo_done) 1)
    as (r' & Hr' & _ & Hres); [apply demo_inv|apply rtc_once, qs_hard_stop|vm_compute; reflexivity|].
  exists r'. split; [vm_compute; reflexivity|]. split; [reflexivity|]. split; [exact Hr'|].
  apply Hres. done.
Defined.

Lemma conflict_requeue_once_witness :
  ∃ r db', push_queue demo_intent !! 1%Z = Some r
    ∧ complete_conflict_requeue_in_txn r 4 demo_intent = (db', Ok 2%Z)
    ∧ complete_conflict_requeue_in_txn r 5 db' = (db', Ok 2%Z).
Proof.
  destruct (push_queue demo_intent !! 1%Z) as [r|] eqn:E; [|vm_compute in E; discriminate].
  assert (row_id r = 1%Z ∧ requeue_intended 1 r = true) as [Hid Hint]
    by (vm_compute in E; injection E as <-; done).
  destruct (conflict_requeue_once demo_intent r r 4 5) as (db' & H1 & _ & _ & _ & _ & H2);
    [apply demo_inv|by rewrite Hid|done|by rewrite Hid|].
  exists r, db'. done.
Defined.

Lemma follow_terminates_witness :
  ∃ j s, follow (Z.to_nat (push_queue_seq demo_running - 1)) 1 demo_running = Some j
    ∧ push_queue demo_running !! j = Some s ∧ superseded_by s = None.
Proof.
  destruct (push_queue demo_running !! 1%Z) as [r|] eqn:E; [|vm_compute in E; discriminate].
  destruct (follow_terminates demo_running 1 r) as (j & s & H1 & H2 & H3 & _);
    [apply demo_inv|exact E|]. exists j, s. done.
Defined.
