(* ===== verification/GitObjects.v ===== *)
(** * Git objects, as the view code uses them

    The crate [git_internal] is outside the repository.  Its object hashes and tree
    objects are the operations of a class, at the hash kind that an evaluation passes
    through unchanged; what the code relies on is the class of laws [GitLaws].  Tree
    items and their order ([sort_git_tree_items] of [src/jupiter/utils/converter.rs])
    are data. *)
From stdpp Require Import base strings numbers tactics list sorting gmap.
From S2P Require Import Prelude Text.

(** ** Data *)

(** [TreeItemMode] *)
Inductive TreeItemMode := ModeBlob | ModeBlobExecutable | ModeTree | ModeCommit | ModeLink.

#[export] Instance TreeItemMode_eq_dec : EqDecision TreeItemMode.
Proof. solve_decision. Defined.

(** Byte strings, as lists of numbers below 256. *)
Abbreviation bytes := (list N) (only parsing).

Record TreeItem (ObjectHash : Type) := mk_TreeItem {
  item_mode : TreeItemMode;
  item_id : ObjectHash;
  item_name : text;
}.
Arguments mk_TreeItem {_} item_mode item_id item_name.
Arguments item_mode {_} t.
Arguments item_id {_} t.
Arguments item_name {_} t.

#[export] Instance TreeItem_eq_dec {H} `{EqDecision H} : EqDecision (TreeItem H).
Proof. solve_decision. Defined.

(** ** The crate *)

Class GitObjects := {
  ObjectHash : Type;
  ObjectHash_eq_dec :: EqDecision ObjectHash;
  (** [ObjectHash::to_string] and [ObjectHash::from_hex_for_kind] *)
  hash_to_string : ObjectHash → text;
  from_hex_for_kind : text → option ObjectHash;
  (** [ObjectHash::from_type_and_data_for_kind] for trees *)
  hash_tree_data : bytes → option ObjectHash;
  (** the same for commits *)
  hash_commit_data : bytes → option ObjectHash;
  (** [Tree::to_data] and [Tree::from_bytes] *)
  tree_to_data : list (TreeItem ObjectHash) → option bytes;
  tree_from_bytes : bytes → option (list (TreeItem ObjectHash));
  (** [Tree::from_tree_items_with_kind], its identifier *)
  tree_id_of_items : list (TreeItem ObjectHash) → option ObjectHash;
}.

Abbreviation item := (TreeItem ObjectHash).

Record GitTree `{GitObjects} := mk_GitTree { tree_id : ObjectHash; tree_items : list item }.

(** An entry whose name has no NUL byte, which ends a name in a tree object. *)
Definition storable `{GitObjects} (it : item) : Prop := 0%N ∉ item_name it.

(** What the code relies on.  Hash collisions are excluded, as everywhere in Git. *)
Class GitLaws `{GitObjects} : Prop := {
  from_hex_to_string h : from_hex_for_kind (hash_to_string h) = Some h;
  hash_total d : is_Some (hash_tree_data d);
  collision_free d1 d2 h : hash_tree_data d1 = Some h → hash_tree_data d2 = Some h → d1 = d2;
  to_data_nil : tree_to_data [] = Some [];
  from_bytes_to_data its :
    Forall storable its → ∃ d, tree_to_data its = Some d ∧ tree_from_bytes d = Some its;
  from_bytes_storable d its : tree_from_bytes d = Some its → Forall storable its;
  tree_id_of_items_spec its d :
    its ≠ [] → tree_to_data its = Some d → tree_id_of_items its = hash_tree_data d;
}.

(** ** The order of tree entries *)

(** [git_tree_sort_key]: the bytes of the name, and a separator as for a directory. *)
Definition git_tree_sort_key `{GitObjects} (it : item) : bytes :=
  utf8 (item_name it) ++ [if bool_decide (item_mode it = ModeTree) then ch "/" else 0%N].

Definition sort_git_tree_items `{GitObjects} (items : list item) : list item :=
  sort_by git_tree_sort_key (lex_compare N.compare) items.
