(* ===== verification/TreeSource.v ===== *)
(** * Tree sources

    Models [src/ceres/view/tree_source.rs]: reading a tree from data loaded before,
    walking a path through trees, and building a tree from its entries. *)
From stdpp Require Import base strings numbers tactics list sorting gmap.
From S2P Require Import Prelude Text GitObjects.

Inductive MissingObjectReason := Absent | Malformed | Unprefetched.

Record MissingObject := mk_MissingObject { missing_tree_id : text; missing_reason : MissingObjectReason }.

#[export] Instance MissingObjectReason_eq_dec : EqDecision MissingObjectReason.
Proof. solve_decision. Defined.
#[export] Instance MissingObject_eq_dec : EqDecision MissingObject.
Proof. solve_decision. Defined.

Inductive PathLookup :=
  | LookupTree (id : text)
  | LookupAbsent
  | LookupNotTree.

Inductive BuildTreeError :=
  | DuplicateName (name : text)
  | EmptyTreeId
  | InvalidTree.

Section TreeSource.
Context {GO : GitObjects}.

(** The trait [TreeSource]: its one operation. *)
Definition TreeSource : Type := text → MissingObject + GitTree.

Definition missing (tree_id : text) (reason : MissingObjectReason) : MissingObject :=
  mk_MissingObject tree_id reason.

(** [ensure_unique_item_names]: the first name that repeats, with the names before it. *)
Fixpoint unique_names_from (names : gset text) (items : list item) : option text :=
  match items with
  | [] => None
  | it :: items =>
      if bool_decide (item_name it ∈ names) then Some (item_name it)
      else unique_names_from ({[item_name it]} ∪ names) items
  end.

Definition ensure_unique_item_names (items : list item) : option text :=
  unique_names_from ∅ items.

Definition parse_tree_bytes (id : text) (data : bytes) : MissingObject + GitTree :=
  match from_hex_for_kind id with
  | None => inl (missing id Malformed)
  | Some hash =>
      match tree_from_bytes data with
      | None => inl (missing id Malformed)
      | Some items =>
          match ensure_unique_item_names items with
          | Some _ => inl (missing id Malformed)
          | None => inr (mk_GitTree _ hash items)
          end
      end
  end.

Record InMemoryTreeSource := mk_InMemoryTreeSource {
  tree_bytes : gmap text bytes;
  missing_ids : gset text;
}.

(** [impl TreeSource for InMemoryTreeSource] *)
Definition in_memory_read_tree (source : InMemoryTreeSource) : TreeSource := λ id,
  if bool_decide (id ∈ missing_ids source) then inl (missing id Absent)
  else match tree_bytes source !! id with
       | Some data => parse_tree_bytes id data
       | None => inl (missing id Unprefetched)
       end.

Definition empty_tree_id : option ObjectHash := hash_tree_data [].

Definition read_tree (source : TreeSource) (id : text) : MissingObject + GitTree :=
  match empty_tree_id with
  | Some empty_id =>
      if bool_decide (from_hex_for_kind id = Some empty_id) then inr (mk_GitTree _ empty_id [])
      else source id
  | None => source id
  end.

Definition find_item (items : list item) (name : text) : option item :=
  List.find (λ it, bool_decide (item_name it = name)) items.

(** The loop over the parents of the last segment. *)
Fixpoint walk_parents (source : TreeSource) (current : GitTree) (parents : list text)
    : MissingObject + (PathLookup + GitTree) :=
  match parents with
  | [] => inr (inr current)
  | segment :: parents =>
      match find_item (tree_items current) segment with
      | None => inr (inl LookupAbsent)
      | Some it =>
          if negb (bool_decide (item_mode it = ModeTree)) then inr (inl LookupNotTree)
          else match read_tree source (hash_to_string (item_id it)) with
               | inl e => inl e
               | inr next => walk_parents source next parents
               end
      end
  end.

Definition lookup_path (source : TreeSource) (root : text) (path : list text)
    : MissingObject + PathLookup :=
  match last path with
  | None => inr (LookupTree root)
  | Some last_segment =>
      match read_tree source root with
      | inl e => inl e
      | inr tree =>
          match walk_parents source tree (removelast path) with
          | inl e => inl e
          | inr (inl found) => inr found
          | inr (inr current) =>
              match find_item (tree_items current) last_segment with
              | None => inr LookupAbsent
              | Some it =>
                  inr (if bool_decide (item_mode it = ModeTree)
                       then LookupTree (hash_to_string (item_id it)) else LookupNotTree)
              end
          end
      end
  end.

Definition build_tree (items : list item) : BuildTreeError + GitTree :=
  match ensure_unique_item_names items with
  | Some name => inl (DuplicateName name)
  | None =>
      if bool_decide (items = []) then
        match empty_tree_id with
        | Some id => inr (mk_GitTree _ id items)
        | None => inl EmptyTreeId
        end
      else
        let items := sort_git_tree_items items in
        match tree_id_of_items items with
        | Some id => inr (mk_GitTree _ id items)
        | None => inl InvalidTree
        end
  end.
End TreeSource.
