(* ===== verification/ViewMemo.v ===== *)
(** * The memo of the tree projection

    Models [FilterMemo] of [src/ceres/view/tree.rs]: outputs of filter evaluations by
    filter text and input tree, within a budget of bytes.  When the budget is short,
    entries are evicted in the order in which the [HashMap] lists its keys; that order
    is an argument ([first_key]).  Sizes are [usize], with the saturating operations of
    the code. *)
From stdpp Require Import base strings numbers tactics list sorting gmap.
From S2P Require Import Prelude Text FilterValidate GitObjects.

Definition FILTER_TREE_MEMO_CAPACITY_BYTES : N := 64 * 1024 * 1024.

Record FilterOutput := mk_FilterOutput {
  output_tree_id : text;
  output_trees : gmap text bytes;
}.

Record MemoKey := mk_MemoKey { key_filter : text; key_input_tree : text }.

Record MemoValue := mk_MemoValue { value_output : FilterOutput; value_bytes : N }.

#[export] Instance MemoKey_eq_dec : EqDecision MemoKey.
Proof. solve_decision. Defined.
#[export] Instance MemoKey_countable : Countable MemoKey.
Proof.
  apply (inj_countable' (λ k, (key_filter k, key_input_tree k)) (λ p, mk_MemoKey p.1 p.2)).
  by intros [].
Defined.

Abbreviation memo_entries := (gmap MemoKey MemoValue).

Record FilterMemo := mk_FilterMemo {
  capacity_bytes : N;
  used_bytes : N;
  entries : memo_entries;
}.

Definition with_capacity (capacity : N) : FilterMemo := mk_FilterMemo capacity 0 ∅.

(** [impl Default for FilterMemo] *)
Definition default_memo : FilterMemo := with_capacity FILTER_TREE_MEMO_CAPACITY_BYTES.

Definition memo_contains (memo : FilterMemo) (filter input_tree : text) : bool :=
  bool_decide (is_Some (entries memo !! mk_MemoKey filter input_tree)).

Definition memo_get (memo : FilterMemo) (key : MemoKey) : option MemoValue := entries memo !! key.

(** [usize::saturating_add]; [usize::saturating_sub] is [N.sub]. *)
Definition saturating_add (a b : N) : N := N.min (a + b) usize_max.

(** The size of an entry in the memo.  The lengths are those of texts and buffers in
    memory, whose sum does not reach [usize::MAX]. *)
Definition entry_bytes (key : MemoKey) (output : FilterOutput) : N :=
  (str_len (key_filter key) + str_len (key_input_tree key) + str_len (output_tree_id output)
   + foldr (λ d n, N.of_nat (length (snd d)) + n) 0 (map_to_list (output_trees output)))%N.

Section Memo.
(** [HashMap::keys().next()] *)
Variable first_key : memo_entries → option MemoKey.

(** The eviction loop.  Each turn removes an entry or ends the loop, so the number of
    entries bounds the turns. *)
Fixpoint evict (fuel : nat) (capacity used bytes : N) (es : memo_entries) : N * memo_entries :=
  if (saturating_add used bytes <=? capacity)%N then (used, es)
  else match fuel with
       | 0 => (used, es)
       | S fuel =>
           match first_key es with
           | None => (used, es)
           | Some evicted =>
               match es !! evicted with
               | Some value =>
                   evict fuel capacity (used - value_bytes value)%N bytes (delete evicted es)
               | None => evict fuel capacity used bytes es
               end
           end
       end.

Definition memo_insert (memo : FilterMemo) (key : MemoKey) (output : FilterOutput) : FilterMemo :=
  let bytes := entry_bytes key output in
  if (capacity_bytes memo <? bytes)%N then memo
  else
    let '(used, es) :=
      match entries memo !! key with
      | Some previous => ((used_bytes memo - value_bytes previous)%N, delete key (entries memo))
      | None => (used_bytes memo, entries memo)
      end in
    let '(used, es) := evict (size es) (capacity_bytes memo) used bytes es in
    mk_FilterMemo (capacity_bytes memo) (saturating_add used bytes)
      (<[key := mk_MemoValue output bytes]> es).
End Memo.

(** ** The budget *)

(** The bytes that the entries account for. *)
Definition entries_bytes (es : memo_entries) : N := map_fold (λ _ v n, value_bytes v + n)%N 0%N es.

(** The capacity a memo was created with. *)
Class MemoCapacity := memo_capacity : N.

(** The memo counts its entries exactly and stays within its capacity, which is below
    the value at which [saturating_add] stops counting. *)
Definition memo_fits `{MemoCapacity} (m : FilterMemo) : Prop :=
  used_bytes m = entries_bytes (entries m) ∧ capacity_bytes m = memo_capacity
  ∧ (used_bytes m <= capacity_bytes m < usize_max)%N
  ∧ map_Forall (λ k v, value_bytes v = entry_bytes k (value_output v)) (entries m).

(** What the code relies on in [HashMap::keys().next()]. *)
Class FirstKey (first_key : memo_entries → option MemoKey) : Prop := {
  first_key_None es : first_key es = None → es = ∅;
  first_key_Some es k : first_key es = Some k → is_Some (es !! k);
}.

Lemma entries_bytes_insert es k v :
  es !! k = None → entries_bytes (<[k := v]> es) = (value_bytes v + entries_bytes es)%N.
Proof.
  intros E. unfold entries_bytes. rewrite map_fold_insert_L; [done| |done]. intros. lia.
Qed.

Lemma entries_bytes_delete es k v :
  es !! k = Some v → entries_bytes es = (value_bytes v + entries_bytes (delete k es))%N.
Proof.
  intros E. rewrite <-(insert_delete_id es k v) at 1 by done.
  apply entries_bytes_insert, lookup_delete_eq.
Qed.

Section Budget.
Context (first_key : memo_entries → option MemoKey) `{!FirstKey first_key} {MC : MemoCapacity}.

(** Eviction makes room for [bytes]. *)
Lemma evict_fits capacity bytes es :
  (bytes <= capacity < usize_max)%N →
  ∀ fuel, size es ≤ fuel →
  let '(used, es') := evict first_key fuel capacity (entries_bytes es) bytes es in
  used = entries_bytes es' ∧ (used + bytes <= capacity)%N ∧ es' ⊆ es.
Proof.
  intros Hb fuel. revert es. induction fuel as [|fuel IH]; intros es Hs; cbn [evict];
    (destruct (N.leb_spec (saturating_add (entries_bytes es) bytes) capacity) as [Hle|Hgt];
     [unfold saturating_add in Hle; repeat split; [lia|done]|]).
  - assert (es = ∅) as -> by (apply map_size_empty_inv; lia). unfold saturating_add in Hgt.
    change (entries_bytes ∅) with 0%N in *. lia.
  - destruct (first_key es) as [k|] eqn:Ek.
    + destruct (first_key_Some es k Ek) as [v Ev]. rewrite Ev.
      rewrite (entries_bytes_delete es k v Ev).
      replace (value_bytes v + entries_bytes (delete k es) - value_bytes v)%N
        with (entries_bytes (delete k es)) by lia.
      specialize (IH (delete k es)). rewrite (map_size_delete_Some k es) in IH by by eexists.
      destruct (evict _ _ _ _ _ _) as [used es']. destruct IH as (? & ? & ?); [lia|].
      repeat split; [done..|]. etrans; [done|]. apply delete_subseteq.
    + apply first_key_None in Ek as ->. unfold saturating_add in Hgt.
      change (entries_bytes ∅) with 0%N in *. lia.
Qed.

Lemma memo_insert_fits m key output :
  memo_fits m → memo_fits (memo_insert first_key m key output).
Proof.
  intros (Hu & Hcap & Hc & Hv). unfold memo_insert. cbv zeta.
  destruct (N.ltb_spec (capacity_bytes m) (entry_bytes key output)) as [|Hb]; [done|].
  set (prior := match entries m !! key with Some p => _ | None => _ end).
  assert (prior = (entries_bytes (delete key (entries m)), delete key (entries m))) as ->.
  { unfold prior. rewrite Hu. destruct (entries m !! key) as [p|] eqn:E.
    - rewrite (entries_bytes_delete _ _ _ E). f_equal. lia.
    - by rewrite delete_id. }
  pose proof (evict_fits (capacity_bytes m) (entry_bytes key output) (delete key (entries m))
    ltac:(lia) _ (le_n _)) as He.
  destruct (evict _ _ _ _ _ _) as [used es']. destruct He as (-> & Hle & Hsub).
  assert (es' !! key = None) as Hno.
  { eapply lookup_weaken_None; [|done]. apply lookup_delete_eq. }
  unfold memo_fits, saturating_add. cbn [used_bytes entries capacity_bytes].
  rewrite entries_bytes_insert by done. cbn [value_bytes].
  split; [lia|]. split; [done|]. split; [lia|]. apply map_Forall_insert_2; [done|].
  intros k v Hk. apply Hv. eapply lookup_weaken; [done|]. etrans; [done|]. apply delete_subseteq.
Qed.

(** An output that fits is found again. *)
Lemma memo_insert_get m key output :
  (entry_bytes key output <= capacity_bytes m)%N →
  value_output <$> memo_get (memo_insert first_key m key output) key = Some output.
Proof.
  intros Hb. unfold memo_insert. cbv zeta.
  destruct (N.ltb_spec (capacity_bytes m) (entry_bytes key output)) as [|_]; [lia|].
  destruct (match entries m !! key with Some p => _ | None => _ end) as [u es].
  destruct (evict _ _ _ _ _ _) as [used es']. unfold memo_get. cbn [entries]. by rewrite lookup_insert_eq.
Qed.

Lemma with_capacity_fits : (memo_capacity < usize_max)%N → memo_fits (with_capacity memo_capacity).
Proof. intros H. split; [done|]. split; [done|]. split; [simpl; lia|]. apply map_Forall_empty. Qed.
End Budget.
