(* ===== verification/ViewTree.v ===== *)
(** * Projection of a tree through a view

    Models [src/ceres/view/tree.rs]: the evaluation of a filter on a tree of the
    monorepo.  New trees are kept in [available] until the output is collected, and
    results are kept in the memo, which outlives the call and keeps what it learnt
    when the evaluation fails: the state is threaded through errors too.

    [overlay] and [collect_output_trees] recurse along trees that they read, so they
    have fuel here; the bound that suffices is part of the theorems. *)
From stdpp Require Import base strings numbers tactics list sorting gmap.
From S2P Require Import Prelude Text FilterSyntax GitObjects TreeSource ViewMemo.

Inductive FilterTreeError :=
  | Missing (object : MissingObject)
  | Invariant.

(** [SelectorRef] and its [from_selector] *)
Record SelectorRef := mk_SelectorRef { ref_segments : list text; tree_only : bool }.

Definition from_selector (selector : Selector) : SelectorRef :=
  match selector with
  | Entry path => mk_SelectorRef (segments path) false
  | Tree path => mk_SelectorRef (segments path) true
  end.

Record RewriteResult := mk_RewriteResult { rewrite_tree_id : text; changed : bool }.

(** The mutable part of [EvalContext]. *)
Record EvalContext := mk_EvalContext { memo : FilterMemo; available : gmap text bytes }.

(** Computations on the context that may fail; the context survives the failure. *)
Definition M (A : Type) : Type := EvalContext → EvalContext * outcome FilterTreeError A.

Definition ret {A} (a : A) : M A := λ c, (c, Ok a).

Definition fail {A} (e : FilterTreeError) : M A := λ c, (c, Err e).

Definition out_of_fuel {A} : M A := λ c, (c, OutOfFuel).

Definition bind {A B} (m : M A) (f : A → M B) : M B := λ c,
  match m c with
  | (c', Ok a) => f a c'
  | (c', Err e) => (c', Err e)
  | (c', Panic) => (c', Panic)
  | (c', OutOfFuel) => (c', OutOfFuel)
  end.

Declare Scope view_scope.
Delimit Scope view_scope with view.
Notation "'let!' x ':=' m 'in' k" := (bind m (λ x, k))
  (at level 10, x pattern, m at level 100, k at level 200) : view_scope.
#[local] Open Scope view_scope.

(** [Result::map_err(Missing)?], [ok_or(Invariant)?] *)
Definition or_missing {A} (r : MissingObject + A) : M A :=
  match r with inl e => fail (Missing e) | inr a => ret a end.

Definition or_invariant {A} (r : option A) : M A :=
  match r with None => fail Invariant | Some a => ret a end.

Section ViewTree.
Context {GO : GitObjects}.
Variable first_key : memo_entries → option MemoKey.
Variable source : TreeSource.

(** [impl TreeSource for OverlayTreeSource] *)
Definition overlay_read_tree (available : gmap text bytes) : TreeSource := λ id,
  match available !! id with
  | Some data => parse_tree_bytes id data
  | None => source id
  end.

Definition empty_id : M text := or_invariant (hash_to_string <$> empty_tree_id).

Definition is_empty (id : text) : M bool :=
  let! empty := or_invariant empty_tree_id in
  ret (bool_decide (from_hex_for_kind id = Some empty)).

Definition read (id : text) : M GitTree := λ c,
  or_missing (read_tree (overlay_read_tree (available c)) id) c.

Definition tree_item (name id : text) : M item :=
  match from_hex_for_kind id with
  | None => fail Invariant
  | Some h => ret (mk_TreeItem ModeTree h name)
  end.

(** [available.entry(id).or_insert(bytes)] *)
Definition insert_available (id : text) (data : bytes) : M () := λ c,
  let trees := match available c !! id with
               | Some _ => available c
               | None => <[id := data]> (available c)
               end in
  (mk_EvalContext (memo c) trees, Ok tt).

Definition make_tree (items : list item) : M text :=
  match build_tree items with
  | inl _ => fail Invariant
  | inr tree =>
      let id := hash_to_string (tree_id tree) in
      let! data := or_invariant (tree_to_data (tree_items tree)) in
      let! _ := insert_available id data in
      ret id
  end.

Definition subdir (input_tree : text) (path : list text) : M text := λ c,
  (let! found := or_missing (lookup_path (overlay_read_tree (available c)) input_tree path) in
   match found with
   | LookupTree id => ret id
   | LookupAbsent | LookupNotTree => empty_id
   end) c.

Fixpoint wrap (current : text) (rev_path : list text) : M text :=
  match rev_path with
  | [] => ret current
  | segment :: rev_path =>
      let! it := tree_item segment current in
      let! next := make_tree [it] in
      wrap next rev_path
  end.

Definition prefix (input_tree : text) (path : list text) : M text :=
  let! e := is_empty input_tree in
  if e then ret input_tree else wrap input_tree (reverse path).

(** The selectors whose first segment is the name of the item. *)
Definition matching (selectors : list SelectorRef) (name : text) : list SelectorRef :=
  List.filter (λ sel, bool_decide (head (ref_segments sel) = Some name)) selectors.

Definition removes (mode : TreeItemMode) (matches : list SelectorRef) : bool :=
  existsb (λ sel, Nat.eqb (length (ref_segments sel)) 1
                  && (negb (tree_only sel) || bool_decide (mode = ModeTree))) matches.

Definition descendants (matches : list SelectorRef) : list SelectorRef :=
  map (λ sel, mk_SelectorRef (tail (ref_segments sel)) (tree_only sel))
    (List.filter (λ sel, Nat.ltb 1 (length (ref_segments sel))) matches).

(** The loop of [exclude_inner]: what one entry leaves, if anything, and whether it
    changed. *)
Section ExcludeItems.
Variable exclude_inner : text → list SelectorRef → M RewriteResult.

Definition exclude_item (selectors : list SelectorRef) (it : item) : M (option item * bool) :=
  let matches := matching selectors (item_name it) in
  if bool_decide (matches = []) then ret (Some it, false)
  else if removes (item_mode it) matches then ret (None, true)
  else
    let desc := descendants matches in
    if bool_decide (desc = []) || negb (bool_decide (item_mode it = ModeTree))
    then ret (Some it, false)
    else
      let! child := exclude_inner (hash_to_string (item_id it)) desc in
      if negb (changed child) then ret (Some it, false)
      else
        let! e := is_empty (rewrite_tree_id child) in
        if e then ret (None, true)
        else
          let! child_item := tree_item (item_name it) (rewrite_tree_id child) in
          ret (Some child_item, true).

Fixpoint exclude_items (selectors : list SelectorRef) (items : list item)
    : M (list item * bool) :=
  match items with
  | [] => ret ([], false)
  | it :: items =>
      let! (kept, ch) := exclude_item selectors it in
      let! (rest, chs) := exclude_items selectors items in
      ret (option_list kept ++ rest, ch || chs)
  end.
End ExcludeItems.

(** [items.retain(..)] *)
Definition retain_non_empty (empty : ObjectHash) (items : list item) : list item :=
  List.filter (λ it, negb (bool_decide (item_mode it = ModeTree))
                     || negb (bool_decide (item_id it = empty))) items.

(** The recursion follows the selectors, each one segment shorter at a time; the fuel
    is the length of the longest. *)
Fixpoint exclude_inner (fuel : nat) (id : text) (selectors : list SelectorRef) : M RewriteResult :=
  match fuel with
  | 0 => out_of_fuel
  | S fuel =>
      let! tree := read id in
      let! (items, ch) := exclude_items (exclude_inner fuel) selectors (tree_items tree) in
      if negb ch then ret (mk_RewriteResult id false)
      else
        let! empty := or_invariant empty_tree_id in
        let! new_id := make_tree (retain_non_empty empty items) in
        ret (mk_RewriteResult new_id true)
  end.

Definition selector_depth (selectors : list SelectorRef) : nat :=
  foldr (λ sel n, length (ref_segments sel) `max` n) 0 selectors.

Definition exclude (input_tree : text) (selectors : list Selector) : M text :=
  if bool_decide (selectors = []) then ret input_tree
  else
    let refs := map from_selector selectors in
    let! r := exclude_inner (S (selector_depth refs)) input_tree refs in
    ret (rewrite_tree_id r).

(** [by_name.entry(name).or_default().push(item)] on a [BTreeMap], a list ordered by name. *)
Fixpoint push_by_name (by_name : list (text * list item)) (it : item) : list (text * list item) :=
  match by_name with
  | [] => [(item_name it, [it])]
  | (name, its) :: rest =>
      match str_compare (item_name it) name with
      | Lt => (item_name it, [it]) :: by_name
      | Eq => (name, its ++ [it]) :: rest
      | Gt => (name, its) :: push_by_name rest it
      end
  end.

Fixpoint gather_by_name (by_name : list (text * list item)) (ids : list text)
    : M (list (text * list item)) :=
  match ids with
  | [] => ret by_name
  | id :: ids =>
      let! tree := read id in
      gather_by_name (fold_left push_by_name (tree_items tree) by_name) ids
  end.

Fixpoint non_empty (ids : list text) : M (list text) :=
  match ids with
  | [] => ret []
  | id :: ids =>
      let! e := is_empty id in
      let! rest := non_empty ids in
      ret (if e then rest else id :: rest)
  end.

(** The last test of the loop: an empty tree is not pushed. *)
Definition push_unless_empty (it : item) (rest : M (list item)) : M (list item) :=
  let! keep :=
    if negb (bool_decide (item_mode it = ModeTree)) then ret true
    else let! e := is_empty (hash_to_string (item_id it)) in ret (negb e) in
  let! items := rest in
  ret (if keep then it :: items else items).

Section OverlayItems.
Variable overlay : list text → M text.

Fixpoint overlay_items (by_name : list (text * list item)) : M (list item) :=
  match by_name with
  | [] => ret []
  | (name, candidates) :: by_name =>
      match candidates with
      | [it] => push_unless_empty it (overlay_items by_name)
      | _ =>
          if forallb (λ it, bool_decide (item_mode it = ModeTree)) candidates then
            let! child := overlay (map (λ it, hash_to_string (item_id it)) candidates) in
            let! e := is_empty child in
            if e then overlay_items by_name
            else let! it := tree_item name child in push_unless_empty it (overlay_items by_name)
          else fail Invariant
      end
  end.
End OverlayItems.

Fixpoint overlay (fuel : nat) (tree_ids : list text) : M text :=
  match fuel with
  | 0 => out_of_fuel
  | S fuel =>
      let! ids := non_empty tree_ids in
      match ids with
      | [] => empty_id
      | [id] => ret id
      | _ =>
          let! by_name := gather_by_name [] ids in
          let! items := overlay_items (overlay fuel) by_name in
          make_tree items
      end
  end.

(** The loop of [collect_output_trees] over the entries of a tree. *)
Section CollectItems.
Variable collect : text → gmap text bytes → outcome FilterTreeError (gmap text bytes).

Fixpoint collect_items (items : list item) (trees : gmap text bytes)
    : outcome FilterTreeError (gmap text bytes) :=
  match items with
  | [] => Ok trees
  | it :: items =>
      if bool_decide (item_mode it = ModeTree) then
        match collect (hash_to_string (item_id it)) trees with
        | Ok trees => collect_items items trees
        | r => r
        end
      else collect_items items trees
  end.
End CollectItems.

(** Each call on a new tree adds it to [trees], so the number of available trees
    bounds the depth. *)
Fixpoint collect_output_trees (fuel : nat) (available : gmap text bytes) (id : text)
    (trees : gmap text bytes) : outcome FilterTreeError (gmap text bytes) :=
  match fuel with
  | 0 => OutOfFuel
  | S fuel =>
      match available !! id with
      | None => Ok trees
      | Some data =>
          let trees' := <[id := data]> trees in
          match trees !! id with
          | Some _ => Ok trees'
          | None =>
              match parse_tree_bytes id data with
              | inl e => Err (Missing e)
              | inr tree => collect_items (collect_output_trees fuel available) (tree_items tree) trees'
              end
          end
      end
  end.

Definition output_for (id : text) : M FilterOutput :=
  let! e := is_empty id in
  if e then ret (mk_FilterOutput id {[id := []]})
  else λ c,
    (c, match collect_output_trees (S (size (available c))) (available c) id ∅ with
        | Ok trees => Ok (mk_FilterOutput id trees)
        | Err e => Err e
        | Panic => Panic
        | OutOfFuel => OutOfFuel
        end).

(** [self.available.extend(output.trees)] *)
Definition extend_available (trees : gmap text bytes) : M () := λ c,
  (mk_EvalContext (memo c) (trees ∪ available c), Ok tt).

Definition memoise (key : MemoKey) (output : FilterOutput) : M () := λ c,
  (mk_EvalContext (memo_insert first_key (memo c) key output) (available c), Ok tt).

Section EvalList.
Variable eval : Filter → text → M text.

Fixpoint chain_evals (ops : list Filter) (current : text) : M text :=
  match ops with
  | [] => ret current
  | op :: ops => let! next := eval op current in chain_evals ops next
  end.

Fixpoint compose_outputs (members : list Filter) (input_tree : text) : M (list text) :=
  match members with
  | [] => ret []
  | member :: members =>
      let! output := eval member input_tree in
      let! e := is_empty output in
      let! rest := compose_outputs members input_tree in
      ret (if e then rest else output :: rest)
  end.
End EvalList.

(** The dispatch of [compose] on the number of outputs. *)
Definition compose_finish (fuel : nat) (outputs : list text) : M text :=
  match outputs with
  | [] => empty_id
  | [output] => ret output
  | _ => overlay fuel outputs
  end.

(** The memo around the evaluation of one operator. *)
Definition memoised (key : MemoKey) (compute : M text) : M text := λ c,
  match memo_get (memo c) key with
  | Some value =>
      (let! _ := extend_available (output_trees (value_output value)) in
       ret (output_tree_id (value_output value))) c
  | None =>
      (let! id := compute in
       let! output := output_for id in
       let! _ := memoise key output in
       ret id) c
  end.

Fixpoint eval (fuel : nat) (filter : Filter) (input_tree : text) : M text :=
  let key := mk_MemoKey (print filter) input_tree in
  match filter with
  | Nop => ret input_tree
  | Empty => empty_id
  | Subdir path => memoised key (subdir input_tree (segments path))
  | Prefix path => memoised key (prefix input_tree (segments path))
  | Exclude selectors => memoised key (exclude input_tree selectors)
  | Compose members =>
      memoised key (let! outputs := compose_outputs (eval fuel) members input_tree in
                    compose_finish fuel outputs)
  | Chain ops => memoised key (chain_evals (eval fuel) ops input_tree)
  end.

(** [filter_tree]: the output, and the memo that the caller keeps. *)
Definition filter_tree (fuel : nat) (m : FilterMemo) (filter : Filter) (id : text)
    : FilterMemo * outcome FilterTreeError FilterOutput :=
  let '(c, r) := (let! out := eval fuel filter id in output_for out) (mk_EvalContext m ∅) in
  (memo c, r).
End ViewTree.
