(* ===== verification/FileTree.v ===== *)
(** * Trees of files

    The abstract side of the tree projection: a directory is a list of named nodes, and
    its identifier is the hash of its entries, as in Git.  [file_at] is what a tree
    shows to a user: the blob, symbolic link or submodule at each path.  Trees in
    Git's normal form (entries in order, no empty directories) are determined by
    their files ([normal_unique]). *)
From stdpp Require Import base strings numbers tactics list sorting gmap.
From S2P Require Import Prelude Text GitObjects TreeSource.

(** ** Definitions *)

Section FileTree.
Context {GO : GitObjects} {GL : GitLaws}.

#[local] Set Warnings "-register-all".

Inductive node :=
  | File (mode : TreeItemMode) (h : ObjectHash)
  | Dir (es : list (text * node)).

Abbreviation dir := (list (text * node)).

Section NodeInd.
Variable P : node → Prop.
Hypothesis P_file : ∀ m h, P (File m h).
Hypothesis P_dir : ∀ es, Forall (λ e, P e.2) es → P (Dir es).

Fixpoint node_ind' (nd : node) : P nd :=
  match nd with
  | File m h => P_file m h
  | Dir es =>
      P_dir es ((fix all (es : dir) : Forall (λ e, P e.2) es :=
        match es with
        | [] => Forall_nil_2 _
        | e :: es => Forall_cons_2 _ e es (node_ind' e.2) (all es)
        end) es)
  end.
End NodeInd.

(** The hash of a list of entries. *)
Definition digest (its : list item) : ObjectHash :=
  is_Some_proj (hash_total (default [] (tree_to_data its))).

Fixpoint node_id (nd : node) : TreeItemMode * ObjectHash :=
  match nd with
  | File m h => (m, h)
  | Dir es =>
      (ModeTree, digest (map (λ e, mk_TreeItem (node_id e.2).1 (node_id e.2).2 e.1) es))
  end.

Definition entry_item (e : text * node) : item :=
  mk_TreeItem (node_id e.2).1 (node_id e.2).2 e.1.

Definition dir_hash (es : dir) : ObjectHash := digest (map entry_item es).

(** The identifier of a directory, in hexadecimal. *)
Definition dir_id (es : dir) : text := hash_to_string (dir_hash es).

(** Names can be stored and are unique in each directory. *)
Fixpoint node_wf (nd : node) : Prop :=
  match nd with
  | File m _ => m ≠ ModeTree
  | Dir es => NoDup es.*1 ∧ foldr (λ e P, ((0%N ∉ e.1) ∧ node_wf e.2) ∧ P) True es
  end.

Definition dir_wf (es : dir) : Prop := node_wf (Dir es).

Definition entry_le (e1 e2 : text * node) : Prop :=
  key_le git_tree_sort_key (lex_compare N.compare) (entry_item e1) (entry_item e2).

(** Git's normal form below the root: entries in order, no empty directory. *)
Fixpoint node_normal (nd : node) : Prop :=
  match nd with
  | File _ _ => True
  | Dir es =>
      StronglySorted entry_le es
      ∧ foldr (λ e P, (e.2 ≠ Dir [] ∧ node_normal e.2) ∧ P) True es
  end.

Definition normal (es : dir) : Prop := node_normal (Dir es).

Fixpoint height (nd : node) : nat :=
  match nd with
  | File _ _ => 0
  | Dir es => S (foldr (λ e n, height e.2 `max` n) 0 es)
  end.

Definition find_entry (es : dir) (n : text) : option node :=
  snd <$> List.find (λ e, bool_decide (e.1 = n)) es.

(** The file at a path. *)
Fixpoint file_at (es : dir) (path : list text) : option (TreeItemMode * ObjectHash) :=
  match path with
  | [] => None
  | n :: rest =>
      match find_entry es n with
      | Some (File m h) => if decide (rest = []) then Some (m, h) else None
      | Some (Dir es') => file_at es' rest
      | None => None
      end
  end.

(** ** Structure *)

Lemma foldr_and {A} (P : A → Prop) (l : list A) :
  foldr (λ x Q, P x ∧ Q) True l ↔ Forall P l.
Proof. induction l as [|x l IH]; simpl; [by rewrite Forall_nil|]. by rewrite Forall_cons, IH. Qed.

Lemma dir_wf_eq es :
  dir_wf es ↔ NoDup es.*1 ∧ Forall (λ e, (0%N ∉ e.1) ∧ node_wf e.2) es.
Proof. unfold dir_wf. cbn [node_wf]. by rewrite foldr_and. Qed.

Lemma normal_eq es :
  normal es ↔ StronglySorted entry_le es ∧ Forall (λ e, e.2 ≠ Dir [] ∧ node_normal e.2) es.
Proof. unfold normal. cbn [node_normal]. by rewrite foldr_and. Qed.

Lemma height_Dir es h : height (Dir es) ≤ S h ↔ Forall (λ e, height e.2 ≤ h) es.
Proof.
  cbn [height]. induction es as [|e es IH]; simpl; [split; [by constructor|lia]|].
  rewrite Forall_cons. rewrite <-IH. lia.
Qed.

Lemma dir_wf_nil : dir_wf [].
Proof. apply dir_wf_eq. split; constructor. Qed.

Lemma normal_nil : normal [].
Proof. apply normal_eq. split; constructor. Qed.

Lemma node_id_Dir es : node_id (Dir es) = (ModeTree, dir_hash es).
Proof. done. Qed.

Lemma entry_item_Dir n es : entry_item (n, Dir es) = mk_TreeItem ModeTree (dir_hash es) n.
Proof. done. Qed.

Lemma dir_wf_storable es : dir_wf es → Forall storable (map entry_item es).
Proof.
  rewrite dir_wf_eq. intros [_ H]. apply Forall_map. by eapply Forall_impl; [apply H|]; intros e [? _].
Qed.

Lemma dir_wf_elem es n nd : dir_wf es → (n, nd) ∈ es → (0%N ∉ n) ∧ node_wf nd.
Proof. rewrite dir_wf_eq, Forall_forall. intros [_ H] Hin. by apply (H _ Hin). Qed.

(** ** Identifiers determine trees *)

Lemma is_Some_proj_eq {A} (mx : option A) (H : is_Some mx) : mx = Some (is_Some_proj H).
Proof. destruct mx; [done|]. by destruct (is_Some_None H). Qed.

Lemma digest_spec its d : tree_to_data its = Some d → hash_tree_data d = Some (digest its).
Proof. intros H. unfold digest. rewrite H. apply is_Some_proj_eq. Qed.

Lemma digest_inj l k :
  Forall storable l → Forall storable k → digest l = digest k → l = k.
Proof.
  intros Hl Hk E. destruct (from_bytes_to_data l Hl) as (d1 & T1 & B1).
  destruct (from_bytes_to_data k Hk) as (d2 & T2 & B2).
  assert (d1 = d2) as <-; [|congruence].
  eapply collision_free; [by apply digest_spec|]. rewrite E. by apply digest_spec.
Qed.

Lemma node_id_inj nd1 nd2 : node_wf nd1 → node_wf nd2 → node_id nd1 = node_id nd2 → nd1 = nd2.
Proof.
  revert nd2. induction nd1 as [m h|es IH] using node_ind'; intros [m2 h2|es2] W1 W2 E;
    cbn [node_id] in E; simplify_eq/=; try done.
  f_equal. change (dir_wf es) in W1. change (dir_wf es2) in W2.
  match goal with H : digest _ = digest _ |- _ => apply digest_inj in H; [|by apply dir_wf_storable..] end.
  rename select (map _ es = map _ es2) into E.
  apply dir_wf_eq in W1 as [_ W1], W2 as [_ W2].
  revert es2 W2 E. induction es as [|[n nd] es IHes]; intros [|[n2 nd2] es2] W2 E; simplify_eq/=; try done.
  rewrite !Forall_cons in *. destruct IH as [IH0 IH], W1 as [[_ W1] W1s], W2 as [[_ W2] W2s]. simpl in *.
  f_equal; [|by eauto]. f_equal. apply IH0; [done..|]. rewrite (surjective_pairing (node_id nd)), (surjective_pairing (node_id nd2)). congruence.
Qed.

Lemma dir_hash_inj es1 es2 : dir_wf es1 → dir_wf es2 → dir_hash es1 = dir_hash es2 → es1 = es2.
Proof.
  intros W1 W2 E. assert (Dir es1 = Dir es2) as [= ->]; [|done].
  apply node_id_inj; [done..|]. by rewrite !node_id_Dir, E.
Qed.

Lemma hash_to_string_inj h1 h2 : hash_to_string h1 = hash_to_string h2 → h1 = h2.
Proof. intros E. apply (f_equal from_hex_for_kind) in E. rewrite !from_hex_to_string in E. congruence. Qed.

Lemma dir_id_inj es1 es2 : dir_wf es1 → dir_wf es2 → dir_id es1 = dir_id es2 → es1 = es2.
Proof. intros W1 W2 E. apply dir_hash_inj; [done..|]. by apply hash_to_string_inj. Qed.

Lemma empty_tree_id_eq : empty_tree_id = Some (dir_hash []).
Proof. unfold empty_tree_id. apply (digest_spec []), to_data_nil. Qed.

Lemma dir_hash_empty es : dir_wf es → dir_hash es = dir_hash [] ↔ es = [].
Proof. intros W. split; [|by intros ->]. intros E. by apply dir_hash_inj in E; [|done|apply dir_wf_nil]. Qed.

(** ** Entries and files *)

Lemma find_entry_elem es n nd : NoDup es.*1 → find_entry es n = Some nd ↔ (n, nd) ∈ es.
Proof.
  unfold find_entry. induction es as [|[n' nd'] es IH]; simpl.
  { intros _. split; [done|]. by intros ?%elem_of_nil. }
  rewrite NoDup_cons, elem_of_cons. intros [Hn Hes]. case_bool_decide as E; simpl in *.
  - subst. split; [naive_solver|]. intros [[=->]|Hin]; [done|].
    destruct Hn. apply list_elem_of_fmap. by exists (n, nd).
  - rewrite IH by done. naive_solver.
Qed.

Lemma find_entry_None es n : find_entry es n = None ↔ n ∉ es.*1.
Proof.
  unfold find_entry. induction es as [|[n' nd'] es IH]; simpl; [set_solver|].
  case_bool_decide as E; simpl in *; [set_solver|]. rewrite IH. set_solver.
Qed.

Lemma find_entry_cons n nd es n' :
  find_entry ((n, nd) :: es) n' = if bool_decide (n = n') then Some nd else find_entry es n'.
Proof. unfold find_entry. simpl. by case_bool_decide. Qed.

Lemma find_entry_perm es es' n : NoDup es.*1 → es ≡ₚ es' → find_entry es n = find_entry es' n.
Proof.
  intros Hn Hp. assert (NoDup es'.*1) as Hn' by by rewrite <-Hp.
  destruct (find_entry es n) as [nd|] eqn:E, (find_entry es' n) as [nd'|] eqn:E'; try done.
  - apply find_entry_elem in E, E'; try done. rewrite <-Hp in E'.
    f_equal. apply find_entry_elem in E, E'; try done. congruence.
  - apply find_entry_elem in E; [|done]. apply find_entry_None in E'. destruct E'.
    rewrite <-Hp. apply list_elem_of_fmap. by exists (n, nd).
  - apply find_entry_elem in E'; [|done]. apply find_entry_None in E. destruct E.
    rewrite Hp. apply list_elem_of_fmap. by exists (n, nd').
Qed.

(** The file below one entry. *)
Definition node_file (nd : node) (rest : list text) : option (TreeItemMode * ObjectHash) :=
  match nd with
  | File m h => if decide (rest = []) then Some (m, h) else None
  | Dir es => file_at es rest
  end.

Lemma file_at_cons es n rest : file_at es (n :: rest) = find_entry es n ≫= λ nd, node_file nd rest.
Proof. simpl. by destruct (find_entry es n) as [[]|]. Qed.

Lemma file_at_perm es es' path : NoDup es.*1 → es ≡ₚ es' → file_at es path = file_at es' path.
Proof.
  intros Hn Hp. destruct path as [|n rest]; [done|].
  by rewrite !file_at_cons, (find_entry_perm es es').
Qed.

Lemma file_at_elem es n rest b :
  NoDup es.*1 → file_at es (n :: rest) = Some b ↔ ∃ nd, (n, nd) ∈ es ∧ node_file nd rest = Some b.
Proof.
  intros Hn. rewrite file_at_cons, bind_Some. by setoid_rewrite (find_entry_elem es n _ Hn).
Qed.

Lemma file_at_nil path : file_at [] path = None.
Proof. by destruct path. Qed.

(** A path below a file is not a file. *)
Lemma file_at_prefix es p q b c :
  file_at es p = Some b → file_at es (p ++ q) = Some c → q = [].
Proof.
  revert es. induction p as [|n p IH]; intros es; [done|]. cbn [app].
  rewrite !file_at_cons. destruct (find_entry es n) as [[m h|es']|]; simpl; [|by apply IH|done].
  case_decide; [|done]. subst. simpl. by case_decide.
Qed.

(** ** Normal forms *)

Lemma node_has_file nd :
  node_wf nd → node_normal nd → nd ≠ Dir [] → ∃ rest b, node_file nd rest = Some b.
Proof.
  induction nd as [m h|es IH] using node_ind'; intros W Hn Hne.
  { exists []. by exists (m, h). }
  change (dir_wf es) in W. change (normal es) in Hn.
  apply dir_wf_eq in W as [Hnd W]. apply normal_eq in Hn as [_ Hn].
  destruct es as [|[n nd] es]; [done|]. rewrite !Forall_cons in *.
  destruct IH as [IH _], W as [[_ W] _], Hn as [[Hn1 Hn2] _]. simpl in *.
  destruct (IH W Hn2 Hn1) as (rest & b & Hb). exists (n :: rest), b.
  cbn [node_file]. rewrite file_at_cons, find_entry_cons. by rewrite bool_decide_eq_true_2.
Qed.

Lemma entry_le_antisym es e1 e2 :
  NoDup es.*1 → e1 ∈ es → e2 ∈ es → entry_le e1 e2 → entry_le e2 e1 → e1 = e2.
Proof.
  intros Hn H1 H2 L1 L2. unfold entry_le, key_le in *.
  pose proof (cmp_leb_antisym (lex_compare N.compare) _ _ L1 L2) as E.
  unfold git_tree_sort_key in E. apply app_inj_tail in E as [E _]. apply utf8_inj in E.
  destruct e1 as [n1 x1], e2 as [n2 x2]. simpl in E. subst.
  apply find_entry_elem in H1, H2; [|done..]. congruence.
Qed.

(** Entries of directories with the same files correspond. *)
Lemma same_files_entry es1 es2 n nd :
  dir_wf es1 → dir_wf es2 → normal es1 → (∀ p, file_at es1 p = file_at es2 p) → (n, nd) ∈ es1 →
  ∃ nd', (n, nd') ∈ es2 ∧ ∀ rest, node_file nd rest = node_file nd' rest.
Proof.
  intros W1 W2 N1 Hf Hin. pose proof (proj1 (dir_wf_eq _) W1) as [D1 _].
  pose proof (proj1 (dir_wf_eq _) W2) as [D2 _].
  apply normal_eq in N1 as [_ N1]. rewrite Forall_forall in N1.
  destruct (N1 _ Hin) as [Hne Hnd]. simpl in *.
  destruct (node_has_file nd) as (rest & b & Hb); [by apply (dir_wf_elem es1 n)|done..|].
  assert (file_at es2 (n :: rest) = Some b) as H2.
  { rewrite <-Hf. apply file_at_elem; [done|]. eauto. }
  apply file_at_elem in H2 as (nd' & Hin' & _); [|done]. exists nd'. split; [done|].
  intros r. specialize (Hf (n :: r)). rewrite !file_at_cons in Hf.
  apply find_entry_elem in Hin, Hin'; [|done..]. by rewrite Hin, Hin' in Hf.
Qed.

(** Trees in normal form with the same files are equal. *)
Lemma normal_unique_node nd1 nd2 :
  node_wf nd1 → node_wf nd2 → node_normal nd1 → node_normal nd2 →
  (∀ rest, node_file nd1 rest = node_file nd2 rest) → nd1 = nd2.
Proof.
  revert nd2. induction nd1 as [m h|es1 IH] using node_ind'; intros [m2 h2|es2] W1 W2 N1 N2 Hf;
    try by specialize (Hf []).
  { specialize (Hf []). simpl in Hf. congruence. }
  change (dir_wf es1) in W1. change (dir_wf es2) in W2. change (normal es1) in N1.
  change (normal es2) in N2. cbn [node_file] in Hf. rewrite Forall_forall in IH. f_equal.
  pose proof (proj1 (dir_wf_eq _) W1) as [D1 _]. pose proof (proj1 (dir_wf_eq _) W2) as [D2 _].
  assert (∀ n nd1 nd2, (n, nd1) ∈ es1 → (n, nd2) ∈ es2 →
    (∀ rest, node_file nd1 rest = node_file nd2 rest) → nd1 = nd2) as Heq.
  { intros n nd1 nd2 H1 H2 Hr. pose proof (proj1 (normal_eq _) N1) as [_ P1].
    pose proof (proj1 (normal_eq _) N2) as [_ P2]. rewrite Forall_forall in P1, P2.
    apply (IH _ H1); [by apply (dir_wf_elem es1 n)|by apply (dir_wf_elem es2 n)|by apply (P1 _ H1)|by apply (P2 _ H2)|done]. }
  assert (es1 ≡ₚ es2) as Hp.
  { apply NoDup_Permutation; [by eapply NoDup_fmap_1..|]. intros [n nd]. split; intros Hin.
    - destruct (same_files_entry es1 es2 n nd) as (nd' & Hin' & Hr); [done..|].
      by rewrite (Heq n nd nd').
    - destruct (same_files_entry es2 es1 n nd) as (nd' & Hin' & Hr); [done..|].
      by rewrite <-(Heq n nd' nd). }
  apply (StronglySorted_unique_strong entry_le); [|by apply normal_eq in N1 as []|by apply normal_eq in N2 as []|done].
  intros e1 e2 H1 H2. rewrite <-Hp in H2. by apply (entry_le_antisym es1).
Qed.

Lemma normal_unique es1 es2 :
  dir_wf es1 → dir_wf es2 → normal es1 → normal es2 →
  (∀ p, file_at es1 p = file_at es2 p) → es1 = es2.
Proof. intros ????? . assert (Dir es1 = Dir es2) as [= ->]; [by apply normal_unique_node|done]. Qed.
End FileTree.

Abbreviation dir := (list (text * node)).
