(* ===== verification/ViewShows.v ===== *)
(** * What a view shows

    The abstract specification of the tree projection: which file of the source tree is
    shown at which path of the view.  It is the relation [maps] of FilterMeaning.v for
    paths of files, which are never empty: a [:/path] operator that names a file shows
    nothing ([shows_maps]). *)
From stdpp Require Import base strings numbers tactics list sorting gmap.
From S2P Require Import Prelude Text FilterSyntax FilterMeaning FilterRoundTrip.
From S2P Require Import GitObjects TreeSource FileTree.

(** The file at [s] in the source is shown at [d] in the view. *)
Fixpoint shows (f : Filter) (s d : list text) : Prop :=
  match f with
  | Subdir p => s = segments p ++ d ∧ d ≠ []
  | Prefix p => d = segments p ++ s
  | Exclude sels => s = d ∧ ¬ excluded sels d
  | Compose fs => some_maps shows fs s d
  | Chain ops => chain_maps shows ops s d
  | Nop => s = d
  | Empty => False
  end.

(** How much deeper than the source tree a view can be. *)
Fixpoint growth (f : Filter) : nat :=
  match f with
  | Prefix p => length (segments p)
  | Compose fs | Chain fs => foldr (λ g n, growth g + n) 0 fs
  | _ => 0
  end.

(** Two operators of a [Compose] that put a file and something at or below it into the
    same place, for source files at the paths [L].  [Chain] operators see the files
    that the operators before them show. *)
Section ClashesList.
Variable clashes : Filter → (list text → Prop) → Prop.

Definition image_of (f : Filter) (L : list text → Prop) (d : list text) : Prop :=
  ∃ s, L s ∧ shows f s d.

Fixpoint chain_clashes (ops : list Filter) (L : list text → Prop) : Prop :=
  match ops with
  | [] => False
  | op :: ops => clashes op L ∨ chain_clashes ops (image_of op L)
  end.

Fixpoint some_clashes (fs : list Filter) (L : list text → Prop) : Prop :=
  match fs with
  | [] => False
  | f :: fs => clashes f L ∨ some_clashes fs L
  end.
End ClashesList.

Definition nested_images (f g : Filter) (L : list text → Prop) : Prop :=
  ∃ d1 d2, image_of f L d1 ∧ image_of g L d2 ∧ (d1 `prefix_of` d2 ∨ d2 `prefix_of` d1).

Fixpoint clashes (f : Filter) (L : list text → Prop) : Prop :=
  match f with
  | Compose fs =>
      some_clashes clashes fs L
      ∨ ∃ f g, [f; g] `sublist_of` fs ∧ nested_images f g L
  | Chain ops => chain_clashes clashes ops L
  | _ => False
  end.

Lemma clashes_mono f (L L' : list text → Prop) :
  (∀ p, L p → L' p) → clashes f L → clashes f L'.
Proof.
  assert (∀ f (L L' : list text → Prop) d, (∀ p, L p → L' p) → image_of f L d → image_of f L' d) as Himg.
  { unfold image_of. naive_solver. }
  revert L L'. induction f as [| | |fs IH|ops IH| |] using filter_ind; intros L L' HL; simpl; try done.
  - intros [Hs|(f & g & Hs & d1 & d2 & H1 & H2 & Hp)].
    + left. induction IH as [|f fs Hf _ IHfs]; simpl in *; [done|]. destruct Hs; [left|right]; eauto.
    + right. exists f, g. split; [done|]. exists d1, d2. eauto.
  - revert L L' HL. induction IH as [|f fs Hf _ IHfs]; intros L L' HL; simpl; [done|].
    intros [?|?]; [left|right]; eauto.
Qed.

Section Shows.
Context {GO : GitObjects} {GL : GitLaws}.

(** The files of [t'] are those of [t] that the filter shows. *)
Definition image (f : Filter) (t t' : dir) : Prop :=
  ∀ d b, file_at t' d = Some b ↔ ∃ s, shows f s d ∧ file_at t s = Some b.

Definition files (t : dir) (p : list text) : Prop := is_Some (file_at t p).

Lemma image_files f t t' : image f t t' → ∀ d, files t' d ↔ image_of f (files t) d.
Proof.
  intros Hi d. unfold files, image_of. split.
  - intros [b Hb]. apply Hi in Hb as (s & Hs & Hb). eauto.
  - intros (s & [b Hb] & Hs). exists b. apply Hi. eauto.
Qed.

(** ** Subdirectories *)

Fixpoint sub_dir (t : dir) (path : list text) : dir :=
  match path with
  | [] => t
  | n :: path => match find_entry t n with Some (Dir es) => sub_dir es path | _ => [] end
  end.

Lemma find_entry_wf t n nd : dir_wf t → find_entry t n = Some nd → node_wf nd.
Proof.
  intros W E. apply find_entry_elem in E; [|by apply dir_wf_eq in W as []]. by apply (dir_wf_elem t n).
Qed.

Lemma find_entry_normal t n nd :
  dir_wf t → normal t → find_entry t n = Some nd → node_normal nd ∧ nd ≠ Dir [].
Proof.
  intros W [_ N]%normal_eq E. apply find_entry_elem in E; [|by apply dir_wf_eq in W as []].
  rewrite Forall_forall in N. by destruct (N _ E).
Qed.

Lemma find_entry_height t n nd h :
  find_entry t n = Some nd → height (Dir t) ≤ S h → height nd ≤ h.
Proof.
  unfold find_entry. intros E H. apply height_Dir in H. rewrite Forall_forall in H.
  apply fmap_Some in E as ([n' nd'] & E & ->). apply find_some in E as [E _].
  by apply list_elem_of_In, H in E.
Qed.

Lemma sub_dir_wf t path : dir_wf t → dir_wf (sub_dir t path).
Proof.
  revert t. induction path as [|n path IH]; intros t W; [done|]. simpl.
  destruct (find_entry t n) as [[|es]|] eqn:E; try apply dir_wf_nil.
  apply IH. by apply (find_entry_wf t n (Dir es)).
Qed.

Lemma sub_dir_normal t path : dir_wf t → normal t → normal (sub_dir t path).
Proof.
  revert t. induction path as [|n path IH]; intros t W N; [done|]. simpl.
  destruct (find_entry t n) as [[|es]|] eqn:E; try apply normal_nil.
  apply IH; [by apply (find_entry_wf t n (Dir es))|by apply (find_entry_normal t n (Dir es))].
Qed.

Lemma sub_dir_height t path : height (Dir (sub_dir t path)) ≤ height (Dir t).
Proof.
  revert t. induction path as [|n path IH]; intros t; [done|]. simpl sub_dir.
  destruct (find_entry t n) as [[|es]|] eqn:E; try (simpl; lia).
  etransitivity; [apply IH|]. destruct (height (Dir t)) as [|h] eqn:Eh; [done|].
  apply (find_entry_height t n (Dir es) h) in E; lia.
Qed.

Lemma file_at_sub_dir t path d : d ≠ [] → file_at (sub_dir t path) d = file_at t (path ++ d).
Proof.
  intros Hd. revert t. induction path as [|n path IH]; intros t; [done|]. cbn [app sub_dir].
  rewrite file_at_cons. destruct (find_entry t n) as [[m h|es]|]; simpl.
  - rewrite file_at_nil, decide_False; [done|]. by destruct path.
  - apply IH.
  - apply file_at_nil.
Qed.

Lemma sub_dir_image p t : image (Subdir p) t (sub_dir t (segments p)).
Proof.
  intros d b. simpl. split.
  - intros Hb. assert (d ≠ []) by by intros ->. exists (segments p ++ d).
    by rewrite <-file_at_sub_dir.
  - intros (s & [-> Hd] & Hb). by rewrite file_at_sub_dir.
Qed.

(** ** Prefixes *)

Definition wrap_dir (t : dir) (path : list text) : dir :=
  foldr (λ n acc, [(n, Dir acc)]) t path.

Definition prefix_dir (t : dir) (path : list text) : dir :=
  if decide (t = []) then [] else wrap_dir t path.

Lemma wrap_dir_wf t path : dir_wf t → Forall (λ n, 0%N ∉ n) path → dir_wf (wrap_dir t path).
Proof.
  intros W. induction 1 as [|n path Hn _ IH]; [done|]. apply dir_wf_eq. cbn [wrap_dir foldr].
  split; [by apply NoDup_singleton|]. by apply Forall_singleton.
Qed.

Lemma wrap_dir_nonempty t path : t ≠ [] → wrap_dir t path ≠ [].
Proof. by destruct path. Qed.

Lemma wrap_dir_normal t path : t ≠ [] → normal t → normal (wrap_dir t path).
Proof.
  intros Ht N. induction path as [|n path IH]; [done|]. apply normal_eq. cbn [wrap_dir foldr].
  split; [by repeat constructor|]. apply Forall_singleton. split; [|done]. cbn [snd].
  intros [= E]. by apply (wrap_dir_nonempty t path).
Qed.

Lemma wrap_dir_height t path : height (Dir (wrap_dir t path)) = length path + height (Dir t).
Proof.
  induction path as [|n path IH]; [done|]. cbn [wrap_dir foldr length]. fold (wrap_dir t path).
  change (height (Dir [(n, Dir (wrap_dir t path))])) with (S (height (Dir (wrap_dir t path)) `max` 0)). lia.
Qed.

Lemma file_at_wrap t path d b :
  file_at (wrap_dir t path) d = Some b ↔ ∃ s, d = path ++ s ∧ file_at t s = Some b.
Proof.
  revert d. induction path as [|n path IH]; intros d.
  { simpl. naive_solver. }
  destruct d as [|n' d]; [naive_solver|]. cbn [wrap_dir foldr]. fold (wrap_dir t path).
  rewrite file_at_cons, find_entry_cons. case_bool_decide as E.
  - subst. simpl. rewrite IH. naive_solver.
  - split; [done|]. intros (s & [= ? ?] & _). congruence.
Qed.

Lemma prefix_dir_image p t : image (Prefix p) t (prefix_dir t (segments p)).
Proof.
  intros d b. unfold prefix_dir. case_decide as Ht; cbn [shows].
  - subst. rewrite file_at_nil. setoid_rewrite file_at_nil. naive_solver.
  - apply file_at_wrap.
Qed.
End Shows.

(** What is shown is what the path relation of the filter language says. *)
Lemma shows_maps f s d : shows f s d → maps excluded f s d.
Proof.
  revert s d. induction f as [| | |fs IH|ops IH| |] using filter_ind; simpl; try naive_solver.
  - intros s d. induction IH; simpl; naive_solver.
  - intros s d. revert s. induction IH; simpl; naive_solver.
Qed.

(** A file shown at a path has a path of its own. *)
Lemma shows_nonempty f s d : filter_wf f → shows f s d → s ≠ [] → d ≠ [].
Proof.
  revert s d. induction f as [p|p|sels|fs IH|ops IH| |] using filter_ind; simpl; try naive_solver.
  - intros s d W -> Hs Hd. by apply app_nil in Hd as [_ ?].
  - intros s d. induction IH; simpl; naive_solver.
  - intros s d. revert s. induction IH; simpl; naive_solver.
Qed.
