(* ===== verification/ViewTreeOps.v ===== *)
(** * The operators on one tree

    Postconditions of the operators of [src/ceres/view/tree.rs] that read one tree:
    building a tree, [:/path], [:prefix=path] and [:exclude[..]]. *)
From stdpp Require Import base strings numbers tactics list sorting gmap.
From S2P Require Import Prelude Text FilterSyntax FilterRoundTrip FilterMeaning FilterValidate GitObjects TreeSource ViewMemo.
From S2P Require Import ViewTree FileTree ViewShows.

(** * A logic of postconditions *)

#[local] Open Scope view_scope.

(** The reasons an evaluation stops without a result. *)
Inductive stop := StopMissing | StopInvariant | StopFuel.

Section Logic.
Context {GO : GitObjects} {GL : GitLaws} {MC : MemoCapacity}.

(** ** Invariants *)

(** Each tree is stored under the hash of its entries. *)
Definition trees_sound (T : gmap text bytes) : Prop :=
  ∀ id d, T !! id = Some d →
    ∃ es, dir_wf es ∧ id = dir_id es ∧ tree_to_data (map entry_item es) = Some d.

(** The contract of a [TreeSource]: what it returns is the tree of that identifier,
    with unique names. *)
Definition source_sound (source : TreeSource) : Prop :=
  ∀ id t, source id = inr t →
    NoDup (item_name <$> tree_items t) ∧ Forall storable (tree_items t)
    ∧ ∃ d, tree_to_data (tree_items t) = Some d ∧ from_hex_for_kind id = hash_tree_data d.

(** The directories inside a directory, itself included. *)
Inductive within (t : dir) : dir → Prop :=
  | within_refl : within t t
  | within_step es n es' : within t es → (n, Dir es') ∈ es → within t es'.

Definition sub_closed (B : dir → Prop) : Prop :=
  ∀ es n es', B es → (n, Dir es') ∈ es → B es'.

(** Every directory satisfies [B] or is among the trees [T]. *)
Fixpoint grown (T : gmap text bytes) (B : dir → Prop) (nd : node) : Prop :=
  match nd with
  | File _ _ => True
  | Dir es =>
      B es ∨ es = []
      ∨ is_Some (T !! dir_id es) ∧ foldr (λ e P, grown T B e.2 ∧ P) True es
  end.

(** The result of a filter on a tree. *)
Definition result (f : Filter) (t t' : dir) : Prop :=
  dir_wf t' ∧ image f t t' ∧ (normal t → normal t')
  ∧ height (Dir t') ≤ height (Dir t) + growth f.

Definition output_ok (f : Filter) (t : dir) (o : FilterOutput) : Prop :=
  trees_sound (output_trees o)
  ∧ ∃ t', output_tree_id o = dir_id t' ∧ result f t t' ∧ grown (output_trees o) (within t) (Dir t').

Definition memo_ok (m : FilterMemo) : Prop :=
  memo_fits m ∧
  ∀ k v, entries m !! k = Some v → ∀ f t, printable f → dir_wf t →
    k = mk_MemoKey (print f) (dir_id t) → output_ok f t (value_output v).

Definition ctx_ok (c : EvalContext) : Prop := trees_sound (available c) ∧ memo_ok (memo c).

(** A new memo is right. *)
Lemma with_capacity_ok : (memo_capacity < usize_max)%N → memo_ok (with_capacity memo_capacity).
Proof. intros Hc. split; [by apply with_capacity_fits|]. intros k v E.
  cbn [with_capacity entries] in E. by rewrite lookup_empty in E. Qed.

(** [c'] has at least the trees of [c]. *)
Definition ctx_le (c c' : EvalContext) : Prop :=
  ∀ id, is_Some (available c !! id) → is_Some (available c' !! id).

(** ** Postconditions *)

Definition wp {A} (m : M A) (Q : EvalContext → A → Prop) (X : stop → Prop) (c : EvalContext) : Prop :=
  match m c with
  | (c', Ok a) => Q c' a
  | (c', Err (Missing _)) => memo_ok (memo c') ∧ X StopMissing
  | (c', Err Invariant) => memo_ok (memo c') ∧ X StopInvariant
  | (c', OutOfFuel) => memo_ok (memo c') ∧ X StopFuel
  | (_, Panic) => False
  end.

Lemma wp_ret {A} (a : A) Q X c : Q c a → wp (ret a) Q X c.
Proof. done. Qed.

Lemma wp_bind {A B} (m : M A) (f : A → M B) Q X c :
  wp m (λ c' a, wp (f a) Q X c') X c → wp (bind m f) Q X c.
Proof. unfold wp, bind. by destruct (m c) as [c' [a|[]| |]]. Qed.

Lemma wp_mono {A} (m : M A) (Q Q' : EvalContext → A → Prop) (X X' : stop → Prop) c :
  wp m Q X c → (∀ c' a, Q c' a → Q' c' a) → (∀ x, X x → X' x) → wp m Q' X' c.
Proof. unfold wp. destruct (m c) as [c' [a|[]| |]]; naive_solver. Qed.

Lemma bind_ret {A B} (a : A) (f : A → M B) : bind (ret a) f = f a.
Proof. done. Qed.

Lemma ctx_le_refl c : ctx_le c c.
Proof. by intros id. Qed.

Lemma ctx_le_trans c1 c2 c3 : ctx_le c1 c2 → ctx_le c2 c3 → ctx_le c1 c3.
Proof. unfold ctx_le. auto. Qed.

(** ** Where directories can be read *)

Lemma grown_Dir T B es :
  grown T B (Dir es) ↔ B es ∨ es = [] ∨ is_Some (T !! dir_id es) ∧ Forall (λ e, grown T B e.2) es.
Proof. cbn [grown]. by rewrite foldr_and. Qed.

Lemma grown_mono T T' (B B' : dir → Prop) nd :
  (∀ id, is_Some (T !! id) → is_Some (T' !! id)) → (∀ es, B es → grown T' B' (Dir es)) →
  grown T B nd → grown T' B' nd.
Proof.
  intros HT HB. induction nd as [|es IH] using node_ind'; [done|].
  rewrite grown_Dir. intros [?|[->|[Hs Hg]]]; [by apply HB|by right; left|].
  apply grown_Dir. right; right. split; [auto|]. by apply (Forall_mp _ _ _ IH).
Qed.

Lemma grown_le c c' B nd : ctx_le c c' → grown (available c) B nd → grown (available c') B nd.
Proof. intros Hle. apply grown_mono; [done|]. intros es ?. by left. Qed.

Lemma grown_nil T B : grown T B (Dir []).
Proof. by right; left. Qed.

Lemma grown_child T B es n nd :
  sub_closed B → grown T B (Dir es) → (n, nd) ∈ es → grown T B nd.
Proof.
  intros HB Hg Hin. apply grown_Dir in Hg as [Hb|[->|[_ Hg]]].
  - destruct nd as [|es']; [done|]. apply grown_Dir. left. by eapply HB.
  - by apply elem_of_nil in Hin.
  - rewrite Forall_forall in Hg. by apply (Hg _ Hin).
Qed.

Lemma within_closed t : sub_closed (within t).
Proof. intros es n es' ? ?. by eapply within_step. Qed.

Lemma grown_within T B t es :
  sub_closed B → grown T B (Dir t) → within t es → grown T B (Dir es).
Proof. intros HB Hg. induction 1; [done|]. by eapply grown_child. Qed.

Lemma grown_self T t : grown T (within t) (Dir t).
Proof. apply grown_Dir. left. apply within_refl. Qed.

(** ** Reading *)

Lemma unique_names_None names its :
  unique_names_from names its = None ↔
  NoDup (item_name <$> its) ∧ ∀ n, n ∈ names → n ∉ item_name <$> its.
Proof.
  revert names. induction its as [|it its IH]; intros names; simpl.
  { split; [|done]. intros _. split; [constructor|set_solver]. }
  rewrite NoDup_cons. case_bool_decide as E.
  - split; [done|]. intros [_ H]. set_solver.
  - rewrite IH. set_solver.
Qed.

Lemma ensure_unique_None its : ensure_unique_item_names its = None ↔ NoDup (item_name <$> its).
Proof. unfold ensure_unique_item_names. rewrite unique_names_None. set_solver. Qed.

Lemma entry_names es : item_name <$> map entry_item es = es.*1.
Proof. induction es as [|e es IH]; simpl; by f_equal. Qed.

Lemma from_hex_dir_id es : from_hex_for_kind (dir_id es) = Some (dir_hash es).
Proof. apply from_hex_to_string. Qed.

Lemma dir_data es : dir_wf es →
  ∃ d, tree_to_data (map entry_item es) = Some d ∧ tree_from_bytes d = Some (map entry_item es)
       ∧ hash_tree_data d = Some (dir_hash es).
Proof.
  intros W. destruct (from_bytes_to_data (map entry_item es)) as (d & Hd & Hb); [by apply dir_wf_storable|].
  exists d. eauto using digest_spec.
Qed.

(** The bytes of a tree are read back as its entries. *)
Lemma parse_dir es d :
  dir_wf es → tree_to_data (map entry_item es) = Some d →
  parse_tree_bytes (dir_id es) d = inr (mk_GitTree _ (dir_hash es) (map entry_item es)).
Proof.
  intros W Hd. unfold parse_tree_bytes. rewrite from_hex_dir_id.
  destruct (dir_data es W) as (d' & Hd' & Hb & _). simplify_eq. rewrite Hb.
  assert (ensure_unique_item_names (map entry_item es) = None) as ->; [|done].
  apply ensure_unique_None. rewrite entry_names. by apply dir_wf_eq in W as [].
Qed.

Lemma trees_sound_lookup T es d :
  trees_sound T → dir_wf es → T !! dir_id es = Some d → tree_to_data (map entry_item es) = Some d.
Proof.
  intros HT W E. destruct (HT _ _ E) as (es' & W' & Hid & Hd).
  by apply dir_id_inj in Hid as <-.
Qed.

Lemma trees_sound_union T T' : trees_sound T → trees_sound T' → trees_sound (T ∪ T').
Proof. intros H1 H2 id d [E|[_ E]]%lookup_union_Some_raw; eauto. Qed.

Lemma trees_sound_empty : trees_sound ∅.
Proof. intros id d E. by rewrite lookup_empty in E. Qed.

Variable source : TreeSource.
Hypothesis Hsource : source_sound source.
Variable first_key : memo_entries → option MemoKey.

(** Every directory of a node can be read from the source. *)
Fixpoint node_complete (nd : node) : Prop :=
  match nd with
  | File _ _ => True
  | Dir es =>
      (∃ t, read_tree source (dir_id es) = inr t)
      ∧ foldr (λ e P, node_complete e.2 ∧ P) True es
  end.

Definition complete (es : dir) : Prop := node_complete (Dir es).

Lemma complete_closed : sub_closed complete.
Proof.
  intros es n es' [_ H] Hin. cbn [node_complete] in H. rewrite foldr_and, Forall_forall in H.
  by apply (H _ Hin).
Qed.

Lemma source_read es t :
  dir_wf es → source (dir_id es) = inr t → tree_items t = map entry_item es.
Proof.
  intros W E. destruct (Hsource _ _ E) as (_ & Hs & d & Hd & Hh).
  destruct (dir_data es W) as (d' & Hd' & Hb' & Hh'). rewrite from_hex_dir_id in Hh.
  assert (d = d') as <- by by eapply collision_free.
  destruct (from_bytes_to_data _ Hs) as (d2 & ? & ?). congruence.
Qed.

Lemma read_tree_cases (R : TreeSource) es :
  dir_wf es →
  read_tree R (dir_id es) =
    if decide (es = []) then inr (mk_GitTree _ (dir_hash []) []) else R (dir_id es).
Proof.
  intros W. unfold read_tree. rewrite empty_tree_id_eq, from_hex_dir_id.
  case_bool_decide as E; case_decide as E'; try done.
  - destruct E'. apply dir_hash_empty; [done|]. congruence.
  - by subst.
Qed.

(** Reading through the context gives the entries of the tree; it fails only for a tree
    that neither the context nor the source has. *)
Lemma read_spec c es (X : stop → Prop) :
  ctx_ok c → dir_wf es → (¬ grown (available c) complete (Dir es) → X StopMissing) →
  wp (read source (dir_id es)) (λ c' t, c' = c ∧ tree_items t = map entry_item es) X c.
Proof.
  intros [HA Hm] W HX. unfold wp, read. rewrite read_tree_cases by done.
  case_decide as E; [by subst|]. unfold overlay_read_tree.
  destruct (available c !! dir_id es) as [d|] eqn:Ea.
  { rewrite (parse_dir es d); [done..|]. by eapply trees_sound_lookup. }
  destruct (source (dir_id es)) as [m|t] eqn:Es; simpl.
  - split; [done|]. apply HX. rewrite grown_Dir. intros [[[t Ht] _]|[?|[[? ?] _]]]; [|done|congruence].
    rewrite read_tree_cases, decide_False in Ht by done. congruence.
  - split; [done|]. by apply source_read.
Qed.
End Logic.

(** Parsing sound data gives what the contract asks. *)
Lemma parsed_sound {GO : GitObjects} {GL : GitLaws} T id d t :
  trees_sound T → T !! id = Some d → parse_tree_bytes id d = inr t →
  NoDup (item_name <$> tree_items t) ∧ Forall storable (tree_items t)
  ∧ ∃ d, tree_to_data (tree_items t) = Some d ∧ from_hex_for_kind id = hash_tree_data d.
Proof.
  intros HT E. destruct (HT _ _ E) as (es & W & -> & Hd).
  rewrite (parse_dir es d) by done. intros [= <-]. cbn [tree_items].
  split; [rewrite entry_names; by apply dir_wf_eq in W as []|]. split; [by apply dir_wf_storable|].
  exists d. split; [done|]. rewrite from_hex_dir_id. symmetry. by apply digest_spec.
Qed.

(** A source of loaded trees keeps the contract when its data does. *)
Lemma in_memory_sound {GO : GitObjects} {GL : GitLaws} (s : InMemoryTreeSource) :
  trees_sound (tree_bytes s) → source_sound (in_memory_read_tree s).
Proof.
  intros HT id t. unfold in_memory_read_tree. case_bool_decide; [done|].
  destruct (tree_bytes s !! id) as [d|] eqn:E; [|done]. by apply (parsed_sound (tree_bytes s)).
Qed.

(** * Operators *)

#[local] Open Scope view_scope.
#[local] Arguments grown : simpl never.
#[local] Arguments height : simpl never.
#[local] Arguments node_wf : simpl never.

Section Ops.
Context {GO : GitObjects} {GL : GitLaws} {MC : MemoCapacity}.
Variable source : TreeSource.
Hypothesis Hsource : source_sound source.

Abbreviation complete := (complete source).

(** The computation returns the identifier of a tree with property [R], all of whose
    directories can be read if those of [ts] can. *)
Definition tree_post (c : EvalContext) (ts : list dir) (R : dir → Prop) (c' : EvalContext) (t' : dir)
    : Prop :=
  ctx_ok c' ∧ ctx_le c c' ∧ dir_wf t' ∧ R t'
  ∧ ∀ B, sub_closed B → Forall (λ t, grown (available c) B (Dir t)) ts →
         grown (available c') B (Dir t').

Definition id_post c ts R c' (id : text) : Prop := ∃ t', id = dir_id t' ∧ tree_post c ts R c' t'.

Lemma tree_post_self c t (R : dir → Prop) : ctx_ok c → dir_wf t → R t → tree_post c [t] R c t.
Proof.
  intros Hc W HR. split; [done|]. split; [apply ctx_le_refl|]. split; [done|]. split; [done|].
  intros B _ Hg. by rewrite Forall_singleton in Hg.
Qed.

Lemma tree_post_nil c ts (R : dir → Prop) : ctx_ok c → R [] → tree_post c ts R c [].
Proof.
  intros Hc HR. split; [done|]. split; [apply ctx_le_refl|]. split; [apply dir_wf_nil|]. split; [done|].
  intros. apply grown_nil.
Qed.

(** ** Identifiers *)

Lemma empty_id_eq : empty_id = ret (dir_id []).
Proof. unfold empty_id. by rewrite empty_tree_id_eq. Qed.

Lemma is_empty_eq t : dir_wf t → is_empty (dir_id t) = ret (bool_decide (t = [])).
Proof.
  intros W. unfold is_empty. rewrite empty_tree_id_eq, from_hex_dir_id. cbn [or_invariant].
  rewrite bind_ret. f_equal. apply bool_decide_ext.
  rewrite <-(dir_hash_empty t W). split; [by intros [=]|by intros ->].
Qed.

Lemma tree_item_eq n t : tree_item n (dir_id t) = ret (entry_item (n, Dir t)).
Proof. unfold tree_item. by rewrite from_hex_dir_id. Qed.

(** ** Building a tree *)

Definition sort_dir (es : dir) : dir :=
  sort_by (λ e, git_tree_sort_key (entry_item e)) (lex_compare N.compare) es.

Lemma sort_items_dir es : sort_git_tree_items (map entry_item es) = map entry_item (sort_dir es).
Proof.
  unfold sort_git_tree_items, sort_dir. induction es as [|e es IH]; [done|]. simpl. rewrite IH.
  generalize (sort_by (λ e, git_tree_sort_key (entry_item e)) (lex_compare N.compare) es) as l.
  induction l as [|e' l IHl]; [done|]. simpl. case_match; [done|]. simpl. by rewrite IHl.
Qed.

Lemma sort_dir_perm es : sort_dir es ≡ₚ es.
Proof. apply sort_by_perm. Qed.

Lemma sort_dir_wf es : dir_wf es → dir_wf (sort_dir es).
Proof. rewrite !dir_wf_eq. by rewrite sort_dir_perm. Qed.

Lemma sort_dir_sorted es : StronglySorted entry_le (sort_dir es).
Proof. exact (sort_by_sorted (λ e, git_tree_sort_key (entry_item e)) (lex_compare N.compare) es). Qed.

Lemma sort_dir_normal es :
  Forall (λ e, e.2 ≠ Dir [] ∧ node_normal e.2) es → normal (sort_dir es).
Proof. intros H. apply normal_eq. split; [apply sort_dir_sorted|]. by rewrite sort_dir_perm. Qed.

Lemma sort_dir_height es h :
  Forall (λ e, height e.2 ≤ h) es → height (Dir (sort_dir es)) ≤ S h.
Proof. rewrite height_Dir. by rewrite sort_dir_perm. Qed.

Lemma sort_dir_file es path : dir_wf es → file_at (sort_dir es) path = file_at es path.
Proof.
  intros W. symmetry. apply file_at_perm; [by apply dir_wf_eq in W as []|]. by rewrite sort_dir_perm.
Qed.

Lemma insert_available_ok c t d (Q : EvalContext → () → Prop) X :
  ctx_ok c → dir_wf t → tree_to_data (map entry_item t) = Some d →
  (∀ c', ctx_ok c' → ctx_le c c' → is_Some (available c' !! dir_id t) → Q c' tt) →
  wp (insert_available (dir_id t) d) Q X c.
Proof.
  intros [HA Hm] W Hd HQ. unfold wp, insert_available. cbn [fst snd].
  destruct (available c !! dir_id t) as [d'|] eqn:E; apply HQ.
  { by split. }
  { by intros id. }
  { by exists d'. }
  - split; [|done]. cbn [available]. intros id x [[<- <-]|[_ ?]]%lookup_insert_Some; eauto.
  - intros id. cbn [available]. destruct (decide (id = dir_id t)) as [->|].
    + by rewrite lookup_insert_eq.
    + by rewrite lookup_insert_ne.
  - cbn [available]. by rewrite lookup_insert_eq.
Qed.

Lemma make_tree_spec c es (Q : EvalContext → text → Prop) X :
  ctx_ok c → dir_wf es →
  (∀ c', ctx_ok c' → ctx_le c c' → is_Some (available c' !! dir_id (sort_dir es)) →
         Q c' (dir_id (sort_dir es))) →
  wp (make_tree (map entry_item es)) Q X c.
Proof.
  intros Hc W HQ. unfold make_tree, build_tree.
  assert (ensure_unique_item_names (map entry_item es) = None) as ->.
  { apply ensure_unique_None. rewrite entry_names. by apply dir_wf_eq in W as []. }
  pose proof (sort_dir_wf es W) as W'. destruct (dir_data _ W') as (d & Hd & _ & Hh).
  case_bool_decide as E.
  - destruct es; [|done]. rewrite empty_tree_id_eq. cbn [tree_id tree_items map].
    rewrite to_data_nil. cbn [or_invariant]. rewrite bind_ret. apply wp_bind.
    apply (insert_available_ok c []); [done|done|apply to_data_nil|]. intros. by apply HQ.
  - rewrite sort_items_dir. rewrite (tree_id_of_items_spec _ d), Hh; [|by rewrite <-sort_items_dir; intros H%(f_equal length); unfold sort_git_tree_items in H; rewrite sort_by_length in H; destruct es|done].
    cbn [tree_id tree_items]. rewrite Hd. cbn [or_invariant]. rewrite bind_ret. apply wp_bind.
    apply (insert_available_ok c (sort_dir es)); [done..|]. intros. by apply HQ.
Qed.

(** ** Subdirectories *)

Lemma find_item_entry es n : find_item (map entry_item es) n = (λ nd, entry_item (n, nd)) <$> find_entry es n.
Proof.
  unfold find_item, find_entry. induction es as [|[n' nd] es IH]; [done|]. simpl.
  case_bool_decide; subst; [done|]. apply IH.
Qed.

Lemma item_mode_Dir n nd : node_wf nd → item_mode (entry_item (n, nd)) = ModeTree ↔ ∃ es, nd = Dir es.
Proof.
  destruct nd as [m h|es]; intros W; split.
  - intros E. by destruct W.
  - by intros [? ?].
  - by eexists.
  - done.
Qed.

(** Walking through trees that can be read, or stopping at one that cannot. *)
Lemma walk_parents_spec c parents cur es :
  ctx_ok c → dir_wf es → tree_items cur = map entry_item es →
  match walk_parents (overlay_read_tree source (available c)) cur parents with
  | inl _ => ¬ grown (available c) complete (Dir es)
  | inr (inl found) => (∀ id, found ≠ LookupTree id) ∧ ∀ n, sub_dir es (parents ++ [n]) = []
  | inr (inr cur') =>
      ∃ es', tree_items cur' = map entry_item es' ∧ dir_wf es'
        ∧ ∀ n, sub_dir es (parents ++ [n]) = sub_dir es' [n]
  end.
Proof.
  intros Hc. revert cur es. induction parents as [|n parents IH]; intros cur es W Hcur.
  { simpl. by exists es. }
  cbn [walk_parents app sub_dir]. rewrite Hcur, find_item_entry.
  destruct (find_entry es n) as [nd|] eqn:E; [|done]. cbn [fmap option_fmap option_map]. pose proof (find_entry_wf es n nd W E) as Wn.
  case_bool_decide as Em; simpl negb; cbn iota.
  - apply item_mode_Dir in Em as [es' ->]; [|done].
    change (item_id (entry_item (n, Dir es'))) with (dir_hash es'). fold (dir_id es').
    pose proof (read_spec source Hsource c es' (λ _, ¬ grown (available c) complete (Dir es'))
      Hc Wn (λ H, H)) as Hr.
    unfold wp, read, or_missing in Hr.
    destruct (read_tree (overlay_read_tree source (available c)) (dir_id es')) as [m|t]; simpl in Hr.
    + intros Hg. apply Hr. eapply grown_child; [apply complete_closed|done|].
      apply find_entry_elem; [by apply dir_wf_eq in W as []|done].
    + destruct Hr as [_ Ht]. specialize (IH t es' Wn Ht).
      destruct (walk_parents _ t parents) as [m|[l|cur']]; try done.
      intros Hg. apply IH. eapply grown_child; [apply complete_closed|done|].
      apply find_entry_elem; [by apply dir_wf_eq in W as []|done].
  - split; [done|]. intros n'. destruct nd as [|es']; [done|]. by destruct Em.
Qed.

Lemma within_sub_dir t path : dir_wf t → sub_dir t path = [] ∨ within t (sub_dir t path).
Proof.
  assert (∀ es, within t es → dir_wf es → sub_dir es path = [] ∨ within t (sub_dir es path)) as H.
  { induction path as [|n path IH]; intros es Hw W; [by right|]. simpl.
    destruct (find_entry es n) as [[|es']|] eqn:E; auto. apply IH.
    - eapply within_step; [done|]. apply find_entry_elem, E. by apply dir_wf_eq in W as [].
    - by apply (find_entry_wf es n (Dir es')). }
  intros W. apply H; [constructor|done].
Qed.

Lemma sub_dir_post c t path (R : dir → Prop) :
  ctx_ok c → dir_wf t → R (sub_dir t path) → tree_post c [t] R c (sub_dir t path).
Proof.
  intros Hc W HR. split; [done|]. split; [apply ctx_le_refl|]. split; [by apply sub_dir_wf|].
  split; [done|]. intros B HB Hg. rewrite Forall_singleton in Hg.
  destruct (within_sub_dir t path W) as [->|Hw]; [apply grown_nil|].
  by eapply grown_within.
Qed.

Lemma lookup_path_spec c t path :
  ctx_ok c → dir_wf t →
  match lookup_path (overlay_read_tree source (available c)) (dir_id t) path with
  | inl _ => ¬ grown (available c) complete (Dir t)
  | inr (LookupTree id) => id = dir_id (sub_dir t path)
  | inr _ => sub_dir t path = []
  end.
Proof.
  intros Hc W. unfold lookup_path. destruct (last path) as [n|] eqn:El.
  2: { apply last_None in El as ->. done. }
  apply last_Some in El as [parents ->]. rewrite removelast_last.
  pose proof (read_spec source Hsource c t (λ _, ¬ grown (available c) complete (Dir t)) Hc W (λ H, H)) as Hr.
  unfold wp, read, or_missing in Hr.
  destruct (read_tree (overlay_read_tree source (available c)) (dir_id t)) as [m|tr]; [by destruct Hr|].
  destruct Hr as [_ Ht]. pose proof (walk_parents_spec c parents tr t Hc W Ht) as Hw.
  destruct (walk_parents _ tr parents) as [m|[l|cur]]; [done| |].
  { destruct Hw as [Hl Hw]. specialize (Hw n). destruct l as [id| |]; try done. by destruct (Hl id). }
  destruct Hw as (es & -> & We & Hs). rewrite Hs, find_item_entry. cbn [sub_dir].
  destruct (find_entry es n) as [nd|] eqn:E; [|done]. cbn [fmap option_fmap option_map].
  pose proof (find_entry_wf es n nd We E) as Wn.
  case_bool_decide as Em; simpl; [|by destruct nd; [|destruct Em]].
  by apply item_mode_Dir in Em as [es' ->].
Qed.

Lemma subdir_spec c t path (R : dir → Prop) (X : stop → Prop) :
  ctx_ok c → dir_wf t → R (sub_dir t path) →
  (¬ grown (available c) complete (Dir t) → X StopMissing) →
  wp (subdir source (dir_id t) path) (id_post c [t] R) X c.
Proof.
  intros Hc W HR HX. unfold subdir, wp. pose proof (lookup_path_spec c t path Hc W) as Hl.
  assert (id_post c [t] R c (dir_id (sub_dir t path))) as Hpost.
  { exists (sub_dir t path). split; [done|]. by apply sub_dir_post. }
  unfold bind. destruct (lookup_path _ _ _) as [m|[id| |]]; simpl.
  - split; [by apply Hc|]. by apply HX.
  - by subst.
  - rewrite empty_id_eq. simpl. by rewrite Hl in Hpost.
  - rewrite empty_id_eq. simpl. by rewrite Hl in Hpost.
Qed.

(** ** Prefixes *)

Lemma sort_dir_singleton e : sort_dir [e] = [e].
Proof. done. Qed.

Lemma wrap_spec c t rev_path (X : stop → Prop) :
  ctx_ok c → dir_wf t → Forall (λ n, 0%N ∉ n) rev_path →
  wp (wrap (dir_id t) rev_path)
    (id_post c [t] (λ t', t' = wrap_dir t (reverse rev_path))) X c.
Proof.
  intros Hc W Hp. revert c t Hc W. induction Hp as [|n rev_path Hn Hp IH]; intros c t Hc W.
  { apply wp_ret. exists t. split; [done|]. by apply tree_post_self. }
  cbn [wrap]. rewrite tree_item_eq, bind_ret. apply wp_bind.
  assert (dir_wf [(n, Dir t)]) as Wn by by apply (wrap_dir_wf t [n]); [|constructor].
  apply (make_tree_spec c [(n, Dir t)]); [done..|]. rewrite sort_dir_singleton.
  intros c1 Hc1 Hle Hin. eapply wp_mono; [by apply IH| |done].
  intros c2 id (t' & -> & Hc2 & Hle2 & Wt & -> & Hg). exists (wrap_dir t (reverse (n :: rev_path))).
  assert (wrap_dir t (reverse (n :: rev_path)) = wrap_dir [(n, Dir t)] (reverse rev_path)) as ->.
  { unfold wrap_dir. by rewrite reverse_cons, foldr_app. }
  split; [done|]. split; [done|]. split; [by eapply ctx_le_trans|]. split; [done|]. split; [done|].
  intros B HB HB1. apply Hg; [done|]. apply Forall_singleton, grown_Dir. right; right.
  split; [done|]. rewrite Forall_singleton in HB1. apply Forall_singleton. by apply (grown_le c c1).
Qed.

Lemma prefix_spec c t path (X : stop → Prop) :
  ctx_ok c → dir_wf t → Forall (λ n, 0%N ∉ n) path →
  wp (prefix (dir_id t) path) (id_post c [t] (λ t', t' = prefix_dir t path)) X c.
Proof.
  intros Hc W Hp. unfold prefix, prefix_dir. rewrite is_empty_eq, bind_ret by done.
  case_bool_decide as E; case_decide; try done.
  - apply wp_ret. subst. exists []. split; [done|]. by apply tree_post_nil.
  - pose proof (wrap_spec c t (reverse path) X Hc W) as Hw. rewrite reverse_involutive in Hw.
    apply Hw. by apply Forall_reverse.
Qed.
End Ops.
