(* ===== verification/ViewTreeExclude.v ===== *)
(** * Exclusion

    Postcondition of [exclude] of [src/ceres/view/tree.rs]: the files that remain are
    those that no selector excludes.  [pruned] relates a list of named things to the
    entries that a loop makes of them; the overlay uses it too. *)
From stdpp Require Import base strings numbers tactics list sorting gmap.
From S2P Require Import Prelude Text FilterSyntax FilterMeaning FilterRoundTrip GitObjects.
From S2P Require Import TreeSource ViewMemo ViewTree FileTree ViewShows ViewTreeOps.

#[local] Open Scope view_scope.
#[local] Arguments grown : simpl never.
#[local] Arguments height : simpl never.
#[local] Arguments node_wf : simpl never.
#[local] Arguments node_normal : simpl never.

(** ** Loops over named things *)

Section Pruned.
Context {GO : GitObjects} {GL : GitLaws} {A : Type}.

Inductive pruned (K : text → A → option node → Prop) : list (text * A) → dir → Prop :=
  | pruned_nil : pruned K [] []
  | pruned_step n a o es es' :
      K n a o → pruned K es es' → pruned K ((n, a) :: es) (option_list (pair n <$> o) ++ es').

Implicit Types K : text → A → option node → Prop.

Lemma pruned_mono K K' es es' :
  (∀ n a o, (n, a) ∈ es → K n a o → K' n a o) → pruned K es es' → pruned K' es es'.
Proof.
  intros HK. induction 1 as [|n a o es es' Ho _ IH]; constructor.
  - apply HK; [by left|done].
  - apply IH. intros. apply HK; [by right|done].
Qed.

Lemma pruned_elem K es es' n nd :
  pruned K es es' → (n, nd) ∈ es' → ∃ a, (n, a) ∈ es ∧ K n a (Some nd).
Proof.
  induction 1 as [|n' a o es es' Ho _ IH]; [by intros ?%elem_of_nil|].
  rewrite elem_of_app. intros [Hin|Hin].
  - destruct o as [nd'|]; simpl in Hin; [|by apply elem_of_nil in Hin].
    apply list_elem_of_singleton in Hin as [= -> ->]. exists a. split; [by left|done].
  - destruct (IH Hin) as (a' & ? & ?). exists a'. split; [by right|done].
Qed.

Lemma pruned_elem_inv K es es' n a :
  pruned K es es' → (n, a) ∈ es → K n a None ∨ ∃ nd, K n a (Some nd) ∧ (n, nd) ∈ es'.
Proof.
  induction 1 as [|n' a' o es es' Ho _ IH]; [by intros ?%elem_of_nil|].
  rewrite elem_of_cons. intros [[= <- <-]|Hin].
  - destruct o as [nd|]; [right; exists nd; split; [done|by left]|by left].
  - destruct (IH Hin) as [?|(nd & ? & ?)]; [by left|right]. exists nd. split; [done|].
    apply elem_of_app. by right.
Qed.

Lemma pruned_names K es es' : pruned K es es' → es'.*1 `sublist_of` es.*1.
Proof.
  induction 1 as [|n a o es es' Ho _ IH]; [done|]. destruct o; simpl; by constructor.
Qed.

Lemma pruned_NoDup K es es' : pruned K es es' → NoDup es.*1 → NoDup es'.*1.
Proof. intros Hp Hn. by eapply sublist_NoDup; [apply Hn|apply (pruned_names K)]. Qed.

Lemma pruned_Forall K (P : node → Prop) es es' :
  pruned K es es' → (∀ n a nd, (n, a) ∈ es → K n a (Some nd) → P nd) → Forall (λ e, P e.2) es'.
Proof.
  intros Hp HP. apply Forall_forall. intros [n nd] Hin.
  destruct (pruned_elem K es es' n nd Hp Hin) as (a & ? & ?). by eapply HP.
Qed.

(** The files of the entries, from those of each of them. *)
Lemma pruned_file K (F : text → A → list text → TreeItemMode * ObjectHash → Prop) es es' n rest b :
  pruned K es es' → NoDup es.*1 →
  (∀ n a o, (n, a) ∈ es → K n a o → (o ≫= λ nd, node_file nd rest) = Some b ↔ F n a rest b) →
  file_at es' (n :: rest) = Some b ↔ ∃ a, (n, a) ∈ es ∧ F n a rest b.
Proof.
  intros Hp Hn HF. rewrite file_at_elem by by eapply pruned_NoDup. split.
  - intros (nd & Hin & Hb). destruct (pruned_elem K es es' n nd Hp Hin) as (a & Ha & HK).
    exists a. split; [done|]. by apply (HF n a (Some nd)).
  - intros (a & Ha & Hb). destruct (pruned_elem_inv K es es' n a Hp Ha) as [HK|(nd & HK & Hin)].
    + by apply (HF n a None) in Hb.
    + exists nd. split; [done|]. by apply (HF n a (Some nd)).
Qed.
End Pruned.

(** ** Empty directories *)

Section Retain.
Context {GO : GitObjects} {GL : GitLaws}.

Definition nonempty_entry (e : text * node) : bool :=
  match e.2 with Dir [] => false | _ => true end.

Lemma nonempty_entry_spec e : nonempty_entry e = true ↔ e.2 ≠ Dir [].
Proof. unfold nonempty_entry. destruct e as [n [|[|]]]; naive_solver. Qed.

Lemma retain_dir es :
  Forall (λ e, node_wf e.2) es →
  retain_non_empty (dir_hash []) (map entry_item es) = map entry_item (List.filter nonempty_entry es).
Proof.
  unfold retain_non_empty. induction 1 as [|[n nd] es W _ IH]; [done|]. cbn [map List.filter].
  rewrite IH. destruct nd as [m h|es0]; simpl.
  { by rewrite bool_decide_eq_false_2. }
  fold (dir_hash es0). case_bool_decide as E; simpl.
  - apply dir_hash_empty in E as ->; done.
  - by destruct es0.
Qed.

Lemma retain_elem es n nd :
  (n, nd) ∈ List.filter nonempty_entry es ↔ (n, nd) ∈ es ∧ nd ≠ Dir [].
Proof.
  rewrite !list_elem_of_In, filter_In, nonempty_entry_spec. done.
Qed.

Lemma retain_NoDup es : NoDup es.*1 → NoDup (List.filter nonempty_entry es).*1.
Proof.
  intros Hn. eapply sublist_NoDup; [apply Hn|]. clear Hn. induction es as [|e es IH]; [done|]. simpl. destruct (nonempty_entry e); by constructor.
Qed.

(** Dropping empty directories leaves the files alone. *)
Lemma retain_file es path :
  NoDup es.*1 → file_at (List.filter nonempty_entry es) path = file_at es path.
Proof.
  intros Hn. destruct path as [|n rest]; [done|]. apply option_eq. intros b.
  rewrite !file_at_elem by (done || by apply retain_NoDup). setoid_rewrite retain_elem.
  split; [naive_solver|]. intros (nd & Hin & Hb). exists nd. split; [|done]. split; [done|].
  intros ->. simpl in Hb. by rewrite file_at_nil in Hb.
Qed.
End Retain.

(** ** Selectors *)

(** The paths that a selector excludes, as [excluded_by]. *)
Definition ref_excludes (path : list text) (sel : SelectorRef) : Prop :=
  ref_segments sel `prefix_of` path ∧ (tree_only sel = true → ref_segments sel ≠ path).

Definition refs_exclude (sels : list SelectorRef) (path : list text) : Prop :=
  ∃ sel, sel ∈ sels ∧ ref_excludes path sel.

Definition refs_ok (fuel : nat) (sels : list SelectorRef) : Prop :=
  Forall (λ sel, ref_segments sel ≠ [] ∧ length (ref_segments sel) ≤ fuel) sels.

Lemma refs_exclude_from sels path :
  refs_exclude (map from_selector sels) path ↔ excluded sels path.
Proof.
  unfold refs_exclude, excluded. rewrite Exists_exists. split.
  - intros (r & (s & -> & Hs)%list_elem_of_fmap & Hp & Hn). exists s. split; [done|].
    destruct s as [p|p]; simpl in *; auto.
  - intros (s & Hs & He). exists (from_selector s). split; [by apply list_elem_of_fmap_2|].
    destruct s as [p|p]; simpl in *; split; simpl; naive_solver.
Qed.

Lemma matching_elem sels n sel :
  sel ∈ matching sels n ↔ sel ∈ sels ∧ head (ref_segments sel) = Some n.
Proof.
  unfold matching. rewrite !list_elem_of_In, filter_In. by rewrite bool_decide_eq_true.
Qed.

Lemma removes_spec mode ms :
  removes mode ms = true ↔
  ∃ sel, sel ∈ ms ∧ length (ref_segments sel) = 1 ∧ (tree_only sel = false ∨ mode = ModeTree).
Proof.
  unfold removes. rewrite existsb_exists. setoid_rewrite list_elem_of_In.
  apply exist_proper. intros sel.
  rewrite andb_true_iff, orb_true_iff, negb_true_iff, bool_decide_eq_true, Nat.eqb_eq. done.
Qed.

Lemma descendants_elem ms sel :
  sel ∈ descendants ms ↔
  ∃ s, s ∈ ms ∧ 1 < length (ref_segments s)
       ∧ sel = mk_SelectorRef (tail (ref_segments s)) (tree_only s).
Proof.
  unfold descendants. rewrite list_elem_of_fmap. setoid_rewrite list_elem_of_In.
  setoid_rewrite filter_In. setoid_rewrite Nat.ltb_lt. naive_solver.
Qed.

(** Only the selectors that match the first segment matter. *)
Lemma refs_exclude_matching fuel sels n rest :
  refs_ok fuel sels → refs_exclude sels (n :: rest) ↔ refs_exclude (matching sels n) (n :: rest).
Proof.
  intros Hok. unfold refs_exclude. setoid_rewrite matching_elem. split; [|naive_solver].
  intros (sel & Hs & Hp & Hn). exists sel. split; [|done]. split; [done|].
  unfold refs_ok in Hok. rewrite Forall_forall in Hok. destruct (Hok _ Hs) as [Hne _].
  destruct (ref_segments sel) as [|x segs]; [done|]. by apply prefix_cons_inv_1 in Hp as ->.
Qed.

Lemma matching_head sels n sel :
  sel ∈ matching sels n → ∃ segs, ref_segments sel = n :: segs.
Proof.
  intros [_ H]%matching_elem. destruct (ref_segments sel) as [|x segs]; simplify_eq/=. eauto.
Qed.

Section Exclude.
Context {GO : GitObjects} {GL : GitLaws} {MC : MemoCapacity}.

(** A removed entry holds excluded files only. *)
Lemma removes_all fuel sels n nd rest b :
  refs_ok fuel sels → removes (item_mode (entry_item (n, nd))) (matching sels n) = true →
  node_wf nd → node_file nd rest = Some b → refs_exclude sels (n :: rest).
Proof.
  intros Hok Hr W Hb. apply (refs_exclude_matching fuel); [done|].
  apply removes_spec in Hr as (sel & Hs & Hl & Ht). exists sel. split; [done|].
  destruct (matching_head sels n sel Hs) as [segs E]. unfold ref_excludes. rewrite E in *.
  destruct segs; [|done]. split; [apply prefix_cons, prefix_nil|]. intros Htree [= <-].
  destruct Ht as [?|Hm]; [congruence|]. apply item_mode_Dir in Hm as [es ->]; done.
Qed.

(** For an entry that is not removed, the selectors go on below it. *)
Lemma not_removed_exclude fuel sels n nd rest b :
  refs_ok fuel sels → removes (item_mode (entry_item (n, nd))) (matching sels n) = false →
  node_wf nd → node_file nd rest = Some b →
  refs_exclude sels (n :: rest) ↔
  match nd with File _ _ => False | Dir _ => refs_exclude (descendants (matching sels n)) rest end.
Proof.
  intros Hok Hr W Hb. rewrite (refs_exclude_matching fuel) by done.
  assert (∀ sel, sel ∈ matching sels n → length (ref_segments sel) = 1 →
    tree_only sel = true ∧ item_mode (entry_item (n, nd)) ≠ ModeTree) as Hone.
  { intros sel Hs Hl. destruct (tree_only sel) eqn:Et, (decide (item_mode (entry_item (n, nd)) = ModeTree)) as [Em|];
      try done; rewrite (proj2 (removes_spec _ _)) in Hr; try done; exists sel; auto. }
  unfold refs_exclude. destruct nd as [m h|es].
  - simpl in Hb. case_decide; [|done]. subst. split; [|done]. intros (sel & Hs & Hp & Ht).
    destruct (matching_head sels n sel Hs) as [segs E]. rewrite E in *.
    apply prefix_cons_inv_2, prefix_nil_inv in Hp as ->.
    destruct (Hone sel Hs) as [? _]; [by rewrite E|]. by apply Ht.
  - setoid_rewrite descendants_elem. split.
    + intros (sel & Hs & Hp & Ht). destruct (matching_head sels n sel Hs) as [segs E].
      destruct segs as [|x segs]; [by destruct (Hone sel Hs) as [_ []]; [rewrite E|]|].
      exists (mk_SelectorRef (x :: segs) (tree_only sel)). split.
      * exists sel. rewrite E. split; [done|]. split; [simpl; lia|done].
      * rewrite E in *. apply prefix_cons_inv_2 in Hp. split; [done|]. simpl. naive_solver.
    + intros (? & (sel & Hs & Hl & ->) & Hp & Ht). exists sel. split; [done|].
      destruct (matching_head sels n sel Hs) as [segs E]. unfold ref_excludes. rewrite E in *. simpl in *.
      split; [by apply prefix_cons|]. naive_solver.
Qed.

Lemma descendants_ok fuel sels n :
  refs_ok (S fuel) sels → refs_ok fuel (descendants (matching sels n)).
Proof.
  unfold refs_ok. rewrite !Forall_forall. intros H r (sel & Hs & Hl & ->)%descendants_elem.
  apply matching_elem in Hs as [Hs _]. destruct (H _ Hs) as [_ Hle].
  destruct (ref_segments sel) as [|? [|? ?]]; simpl in *; [lia..|]. split; [done|lia].
Qed.

(** ** The loop and the recursion *)

Variable source : TreeSource.
Hypothesis Hsource : source_sound source.

Abbreviation complete := (complete source).

(** What the loop makes of the entry [n]: [o], with the files that are not excluded. *)
Definition excluded_entry (sels : list SelectorRef) (c c' : EvalContext)
    (n : text) (nd : node) (o : option node) : Prop :=
  (∀ rest b, (o ≫= λ nd', node_file nd' rest) = Some b ↔
             node_file nd rest = Some b ∧ ¬ refs_exclude sels (n :: rest))
  ∧ ∀ nd', o = Some nd' →
      node_wf nd' ∧ (nd ≠ Dir [] → node_normal nd → nd' ≠ Dir [] ∧ node_normal nd')
      ∧ height nd' ≤ height nd
      ∧ ∀ B, sub_closed B → grown (available c) B nd → grown (available c') B nd'.

(** The relation between a tree and what exclusion makes of it. *)
Definition excluded_dir (sels : list SelectorRef) (t t' : dir) : Prop :=
  (∀ d b, file_at t' d = Some b ↔ file_at t d = Some b ∧ ¬ refs_exclude sels d)
  ∧ (normal t → normal t') ∧ height (Dir t') ≤ height (Dir t).

Definition rewrite_post (c : EvalContext) (sels : list SelectorRef) (t : dir)
    (c' : EvalContext) (r : RewriteResult) : Prop :=
  ∃ t', rewrite_tree_id r = dir_id t' ∧ (changed r = false → t' = t)
        ∧ tree_post c [t] (excluded_dir sels t) c' t'.

Lemma excluded_entry_keep sels c n nd :
  node_wf nd → (∀ rest b, node_file nd rest = Some b → ¬ refs_exclude sels (n :: rest)) →
  excluded_entry sels c c n nd (Some nd).
Proof.
  intros W Hf. split.
  - intros rest b. simpl. naive_solver.
  - intros nd' [= <-]. repeat split; auto.
Qed.

Section Loop.
Variable exclude_rec : text → list SelectorRef → M RewriteResult.
Variable fuel : nat.
Variable X : stop → Prop.
Hypothesis exclude_rec_spec : ∀ c t sels,
  ctx_ok c → dir_wf t → refs_ok fuel sels → sels ≠ [] →
  (¬ grown (available c) complete (Dir t) → X StopMissing) →
  wp (exclude_rec (dir_id t) sels) (rewrite_post c sels t) X c.

Definition item_post (c : EvalContext) sels n nd (c' : EvalContext) (r : option item * bool) : Prop :=
  ctx_ok c' ∧ ctx_le c c' ∧
  ∃ o, r.1 = (λ nd', entry_item (n, nd')) <$> o ∧ (r.2 = false → o = Some nd)
       ∧ excluded_entry sels c c' n nd o.

Lemma item_post_keep c sels n nd :
  ctx_ok c → node_wf nd →
  (∀ rest b, node_file nd rest = Some b → ¬ refs_exclude sels (n :: rest)) →
  item_post c sels n nd c (Some (entry_item (n, nd)), false).
Proof.
  intros Hc W Hf. split; [done|]. split; [apply ctx_le_refl|]. exists (Some nd).
  split; [done|]. split; [done|]. by apply excluded_entry_keep.
Qed.

Lemma exclude_item_dir c sels n es :
  ctx_ok c → node_wf (Dir es) → refs_ok (S fuel) sels →
  removes ModeTree (matching sels n) = false → descendants (matching sels n) ≠ [] →
  (¬ grown (available c) complete (Dir es) → X StopMissing) →
  wp (let! child := exclude_rec (dir_id es) (descendants (matching sels n)) in
      if negb (changed child) then ret (Some (entry_item (n, Dir es)), false)
      else
        let! e := is_empty (rewrite_tree_id child) in
        if e then ret (None, true)
        else
          let! child_item := tree_item n (rewrite_tree_id child) in
          ret (Some child_item, true)) (item_post c sels n (Dir es)) X c.
Proof.
  intros Hc W Hok Hr Hd HX. apply wp_bind.
  assert (∀ rest b, file_at es rest = Some b →
    refs_exclude sels (n :: rest) ↔ refs_exclude (descendants (matching sels n)) rest) as Hsel.
  { intros rest b Hb. exact (not_removed_exclude (S fuel) sels n (Dir es) rest b Hok Hr W Hb). }
  eapply wp_mono; [apply exclude_rec_spec; [done|done|by apply descendants_ok|done|done]| |done].
  intros c1 [id ch] (t' & Hid & Hch & Hc1 & Hle & Wt & (Hf & Hn & Hh) & Hg). simpl in *. subst id.
  assert (∀ o, o = Some (Dir t') ∧ (t' ≠ [] ∨ t' = es) ∨ o = None ∧ t' = [] →
    excluded_entry sels c c1 n (Dir es) o) as He.
  { intros o Ho. split.
    - intros rest b. assert ((o ≫= λ nd', node_file nd' rest) = file_at t' rest) as ->.
      { destruct Ho as [[-> _]|[-> ->]]; simpl; by rewrite ?file_at_nil. }
      rewrite Hf. simpl. naive_solver.
    - intros nd' ->. destruct Ho as [[[= ->] Ht]|[? _]]; [|done]. split; [done|].
      split; [|split; [done|]].
      + intros Hne Hes. split; [|by apply Hn]. intros [= ->]. by destruct Ht as [?|<-].
      + intros B HB Hes. apply Hg; [done|]. by apply Forall_singleton. }
  destruct ch; simpl.
  - rewrite is_empty_eq, bind_ret by done. case_bool_decide as E.
    + apply wp_ret. split; [done|]. split; [done|]. exists None. split; [done|]. split; [done|]. auto.
    + rewrite tree_item_eq, bind_ret. apply wp_ret. split; [done|]. split; [done|].
      exists (Some (Dir t')). split; [done|]. split; [done|]. auto.
  - specialize (Hch eq_refl). subst t'. apply wp_ret. split; [done|]. split; [done|].
    exists (Some (Dir es)). split; [done|]. split; [done|]. auto.
Qed.

Lemma exclude_item_spec c sels n nd :
  ctx_ok c → node_wf nd → refs_ok (S fuel) sels →
  (¬ grown (available c) complete nd → X StopMissing) →
  wp (exclude_item exclude_rec sels (entry_item (n, nd))) (item_post c sels n nd) X c.
Proof.
  intros Hc W Hok HX. unfold exclude_item.
  change (item_name (entry_item (n, nd))) with n. case_bool_decide as Em.
  { apply wp_ret, item_post_keep; [done..|]. intros rest b _.
    rewrite (refs_exclude_matching (S fuel)), Em by done. intros (sel & ?%elem_of_nil & _). done. }
  destruct (removes _ _) eqn:Er.
  { apply wp_ret. split; [done|]. split; [apply ctx_le_refl|]. exists None. split; [done|].
    split; [done|]. split; [|done]. intros rest b. simpl. split; [done|]. intros [Hb Hn].
    destruct Hn. by eapply removes_all. }
  destruct (bool_decide (descendants _ = []) || _) eqn:Ed.
  - apply wp_ret, item_post_keep; [done..|]. intros rest b Hb.
    rewrite (not_removed_exclude (S fuel) sels n nd rest b) by done.
    destruct nd as [m h|es]; [by intros ?|]. simpl in Ed. rewrite orb_false_r, bool_decide_eq_true in Ed.
    rewrite Ed. intros (sel & ?%elem_of_nil & _). done.
  - bool_prop. apply (item_mode_Dir n nd) in W as HW.
    assert (∃ es, nd = Dir es) as [es ->] by by apply HW.
    by apply exclude_item_dir.
Qed.

Lemma excluded_entry_le sels c0 c1 c2 c3 n nd o :
  ctx_le c0 c1 → ctx_le c2 c3 → excluded_entry sels c1 c2 n nd o → excluded_entry sels c0 c3 n nd o.
Proof.
  intros H1 H2 [Hf Ho]. split; [done|]. intros nd' E. destruct (Ho nd' E) as (W & Hn & Hh & Hg).
  split; [done|]. split; [done|]. split; [done|]. intros B HB Hb.
  eapply grown_le; [done|]. apply Hg; [done|]. by eapply grown_le.
Qed.

Lemma exclude_items_spec c sels es :
  ctx_ok c → Forall (λ e, node_wf e.2) es → refs_ok (S fuel) sels →
  (¬ Forall (λ e, grown (available c) complete e.2) es → X StopMissing) →
  wp (exclude_items exclude_rec sels (map entry_item es))
    (λ c' r, ctx_ok c' ∧ ctx_le c c' ∧
       ∃ es', r.1 = map entry_item es' ∧ (r.2 = false → es' = es)
              ∧ pruned (excluded_entry sels c c') es es') X c.
Proof.
  intros Hc W Hok. revert c Hc. induction W as [|[n nd] es Wn W IH]; intros c Hc HX.
  { apply wp_ret. split; [done|]. split; [apply ctx_le_refl|]. exists []. repeat constructor. }
  cbn [map exclude_items]. apply wp_bind.
  eapply wp_mono; [apply (exclude_item_spec c sels n nd); [done..|]| |done].
  { intros Hg. apply HX. by intros [? _]%Forall_cons. }
  intros c1 [oi ch] (Hc1 & Hle & o & Ho & Hch & He). simpl in *. subst oi. apply wp_bind.
  eapply wp_mono; [apply (IH c1 Hc1)| |done].
  { intros Hg. apply HX. intros [_ Hall]%Forall_cons. apply Hg. eapply Forall_impl; [done|].
    intros e. by apply grown_le. }
  intros c2 [kept chs] (Hc2 & Hle2 & es' & Hk & Hchs & Hp). simpl in *. subst kept. apply wp_ret.
  split; [done|]. split; [by eapply ctx_le_trans|].
  exists (option_list (pair n <$> o) ++ es'). split; [by destruct o|]. split.
  - intros [-> ->]%orb_false_iff. rewrite Hch, Hchs by done. done.
  - constructor; [by eapply excluded_entry_le; [apply ctx_le_refl|..]|].
    eapply pruned_mono; [|done]. intros n' a o' _. by eapply excluded_entry_le; [|apply ctx_le_refl].
Qed.
End Loop.

(** The files of the pruned entries. *)
Lemma pruned_excluded_file sels c c' t es' :
  dir_wf t → pruned (excluded_entry sels c c') t es' →
  ∀ d b, file_at es' d = Some b ↔ file_at t d = Some b ∧ ¬ refs_exclude sels d.
Proof.
  intros [Hn W]%dir_wf_eq Hp [|n rest] b; [naive_solver|].
  rewrite (pruned_file _ (λ n nd rest b, node_file nd rest = Some b ∧ ¬ refs_exclude sels (n :: rest))
             _ _ _ _ _ Hp Hn) by by intros ??? _ [Hf _].
  rewrite file_at_elem by done. naive_solver.
Qed.

Lemma pruned_excluded_wf sels c c' t es' :
  dir_wf t → pruned (excluded_entry sels c c') t es' → dir_wf es'.
Proof.
  intros W Hp. pose proof (proj1 (dir_wf_eq _) W) as [Hn Hw]. apply dir_wf_eq.
  split; [by eapply pruned_NoDup|]. apply Forall_forall. intros [n nd] Hin.
  destruct (pruned_elem _ _ _ _ _ Hp Hin) as (a & Ha & _ & Ho). simpl.
  split; [by apply (dir_wf_elem t n a)|]. by apply Ho.
Qed.

Lemma filter_dir_wf es : dir_wf es → dir_wf (List.filter nonempty_entry es).
Proof.
  rewrite !dir_wf_eq. intros [Hn W]. split; [by apply retain_NoDup|].
  rewrite Forall_forall in *. intros [n nd] [Hin _]%retain_elem. by apply (W _ Hin).
Qed.

(** A changed tree: its entries pruned, without empty directories, in order. *)
Lemma pruned_excluded_dir sels c c' t es' :
  dir_wf t → pruned (excluded_entry sels c c') t es' →
  excluded_dir sels t (sort_dir (List.filter nonempty_entry es')).
Proof.
  intros W Hp. pose proof (pruned_excluded_wf _ _ _ _ _ W Hp) as W'.
  split; [|split].
  - intros d b. rewrite sort_dir_file by by apply filter_dir_wf.
    rewrite retain_file by by apply dir_wf_eq in W' as []. by eapply pruned_excluded_file.
  - intros [_ Hn]%normal_eq. apply sort_dir_normal. rewrite Forall_forall in *.
    intros [n nd] [Hin Hne]%retain_elem. split; [done|].
    destruct (pruned_elem _ _ _ _ _ Hp Hin) as (a & Ha & _ & Ho). destruct (Hn _ Ha).
    by apply (Ho nd eq_refl).
  - destruct (height (Dir t)) as [|h] eqn:E; [done|]. apply sort_dir_height.
    assert (height (Dir t) ≤ S h) as Hh by lia. rewrite height_Dir in Hh. rewrite Forall_forall in *.
    intros [n nd] [Hin Hne]%retain_elem.
    destruct (pruned_elem _ _ _ _ _ Hp Hin) as (a & Ha & _ & Ho). specialize (Hh _ Ha). simpl in *.
    destruct (Ho nd eq_refl) as (_ & _ & Hle & _). lia.
Qed.

Lemma excluded_dir_same sels c c' t :
  dir_wf t → pruned (excluded_entry sels c c') t t → excluded_dir sels t t.
Proof. intros W Hp. split; [by eapply pruned_excluded_file|]. auto. Qed.

Lemma exclude_inner_spec fuel c t sels (X : stop → Prop) :
  ctx_ok c → dir_wf t → refs_ok fuel sels → sels ≠ [] →
  (¬ grown (available c) complete (Dir t) → X StopMissing) →
  wp (exclude_inner source fuel (dir_id t) sels) (rewrite_post c sels t) X c.
Proof.
  revert c t sels. induction fuel as [|fuel IH]; intros c t sels Hc W Hok Hne HX.
  { destruct sels as [|sel sels]; [done|]. apply Forall_cons in Hok as [[? ?] _].
    destruct (ref_segments sel); simpl in *; [done|lia]. }
  cbn [exclude_inner]. apply wp_bind.
  eapply wp_mono; [by apply (read_spec source Hsource c t X)| |done]. intros c' tr [-> Htr]. rewrite Htr. apply wp_bind.
  eapply wp_mono; [apply (exclude_items_spec _ fuel X); [|done| |done|]| |done].
  { intros. by apply IH. }
  { apply dir_wf_eq in W as [_ W]. by eapply Forall_impl; [apply W|]; intros e []. }
  { intros Hg. apply HX. intros Ht. apply Hg. apply Forall_forall. intros [n nd] Hin.
    by eapply grown_child; [apply complete_closed|..]. }
  intros c1 [its ch] (Hc1 & Hle & es' & Hits & Hch & Hp). simpl in *. subst its.
  assert (∀ B, sub_closed B → Forall (λ t, grown (available c) B (Dir t)) [t] →
    Forall (λ e, grown (available c1) B e.2) es') as Hgrown.
  { intros B HB Ht. rewrite Forall_singleton in Ht. eapply pruned_Forall; [apply Hp|].
    intros n a nd Ha [_ Ho]. destruct (Ho nd eq_refl) as (_ & _ & _ & Hg).
    apply Hg; [done|]. by eapply grown_child. }
  destruct ch; cbn [negb].
  2: { specialize (Hch eq_refl). subst es'. apply wp_ret. exists t. split; [done|]. split; [done|].
    split; [done|]. split; [done|]. split; [done|]. split; [by eapply excluded_dir_same|].
    intros B HB Ht. rewrite Forall_singleton in Ht. by eapply grown_le. }
  pose proof (pruned_excluded_wf _ _ _ _ _ W Hp) as W'.
  rewrite empty_tree_id_eq. cbn [or_invariant]. rewrite bind_ret, retain_dir by
    (apply dir_wf_eq in W' as [_ W']; by eapply Forall_impl; [apply W'|]; intros e []).
  apply wp_bind, make_tree_spec; [done|by apply filter_dir_wf|]. intros c2 Hc2 Hle2 Hin.
  apply wp_ret. eexists. split; [done|]. split; [done|]. split; [done|].
  split; [by eapply ctx_le_trans|]. split; [by apply sort_dir_wf, filter_dir_wf|].
  split; [by eapply pruned_excluded_dir|]. intros B HB Ht. apply grown_Dir. right; right.
  split; [done|]. rewrite sort_dir_perm. specialize (Hgrown B HB Ht). rewrite Forall_forall in *.
  intros [n nd] [Hin' _]%retain_elem. eapply grown_le; [done|]. by apply (Hgrown _ Hin').
Qed.

Lemma selector_depth_le sels : Forall (λ sel, length (ref_segments sel) ≤ selector_depth sels) sels.
Proof. unfold selector_depth. rewrite <-foldr_max_le. lia. Qed.

Lemma exclude_spec c t sels (X : stop → Prop) :
  ctx_ok c → dir_wf t → Forall (λ s, path_wf (selector_path s)) sels →
  (¬ grown (available c) complete (Dir t) → X StopMissing) →
  wp (exclude source (dir_id t) sels)
    (id_post c [t] (λ t', image (Exclude sels) t t' ∧ (normal t → normal t')
                          ∧ height (Dir t') ≤ height (Dir t))) X c.
Proof.
  intros Hc W Hs HX. unfold exclude. case_bool_decide as E.
  { apply wp_ret. subst. exists t. split; [done|]. apply tree_post_self; [done..|].
    split; [|done]. intros d b. cbn [shows]. split.
    - intros ?. exists d. split; [|done]. split; [done|]. by intros ?%Exists_nil.
    - by intros (s & [-> _] & ?). }
  apply wp_bind. eapply wp_mono; [apply exclude_inner_spec; [done|done| | |done]| |done].
  - apply Forall_forall. intros r Hr. pose proof (selector_depth_le (map from_selector sels)) as Hd.
    rewrite Forall_forall in Hd. rewrite Forall_forall in Hs. split; [|by apply le_S, Hd].
    apply list_elem_of_fmap in Hr as (s & -> & Hin). specialize (Hs _ Hin).
    unfold path_wf, valid_view_path in Hs. bool_prop. by destruct s.
  - by destruct sels.
  - intros c' [id ch] (t' & Hid & _ & Hc' & Hle & W' & (Hf & Hn & Hh) & Hg). simpl in *. subst id.
    apply wp_ret. exists t'. split; [done|]. split; [done|]. split; [done|]. split; [done|].
    split; [|done]. split; [|done]. intros d b. rewrite Hf, refs_exclude_from. cbn [shows]. naive_solver.
Qed.
End Exclude.
