(* ===== verification/ViewTreeOverlay.v ===== *)
(** * Overlay

    Postcondition of [overlay] of [src/ceres/view/tree.rs]: the files of the result are
    those of all its trees, and it refuses only trees that put a file and something at
    or below it into the same place ([clash]). *)
From stdpp Require Import base strings numbers tactics list sorting gmap.
From S2P Require Import Prelude Text FilterSyntax FilterMeaning FilterRoundTrip GitObjects.
From S2P Require Import TreeSource ViewMemo ViewTree FileTree ViewShows ViewTreeOps.
From S2P Require Import ViewTreeExclude.

#[local] Open Scope view_scope.
#[local] Arguments grown : simpl never.
#[local] Arguments height : simpl never.
#[local] Arguments node_wf : simpl never.
#[local] Arguments node_normal : simpl never.

Section Overlay.
Context {GO : GitObjects} {GL : GitLaws} {MC : MemoCapacity}.

(** ** Entries by name *)

(** The nodes with a name, in order. *)
Definition named (n : text) (E : dir) : list node :=
  snd <$> List.filter (λ e, bool_decide (e.1 = n)) E.

Lemma named_app n E E' : named n (E ++ E') = named n E ++ named n E'.
Proof. unfold named. by rewrite List.filter_app, fmap_app. Qed.

Lemma named_elem n E nd : nd ∈ named n E ↔ (n, nd) ∈ E.
Proof.
  unfold named. rewrite list_elem_of_fmap. setoid_rewrite list_elem_of_In. setoid_rewrite filter_In.
  setoid_rewrite bool_decide_eq_true. split.
  - intros ([n' nd'] & -> & Hin & <-). done.
  - intros ?. by exists (n, nd).
Qed.

Lemma named_NoDup n t : NoDup t.*1 → length (named n t) ≤ 1.
Proof.
  unfold named. induction t as [|[n' nd] t IH]; simpl; [lia|]. rewrite NoDup_cons. intros [Hn Ht].
  case_bool_decide as E; simpl; [|by apply IH]. subst.
  replace (List.filter (λ e, bool_decide (e.1 = n)) t) with (@nil (text * node)); [simpl; lia|].
  clear IH Ht. induction t as [|[m nd'] t IH]; [done|]. simpl in *. rewrite bool_decide_eq_false_2; [|set_solver].
  apply IH. set_solver.
Qed.

(** Two nodes with the same name are in different trees. *)
Lemma named_pair n ts nd1 nd2 :
  Forall (λ t, NoDup t.*1) ts → [nd1; nd2] `sublist_of` named n (concat ts) →
  ∃ t1 t2, [t1; t2] `sublist_of` ts ∧ (n, nd1) ∈ t1 ∧ (n, nd2) ∈ t2.
Proof.
  assert (∀ ts nd, [nd] `sublist_of` named n (concat ts) → ∃ t, [t] `sublist_of` ts ∧ (n, nd) ∈ t) as Hone.
  { intros ts' nd H. apply singleton_sublist_l, named_elem in H. apply list_elem_of_In, in_concat in H as (t & Ht & Hin).
    exists t. rewrite singleton_sublist_l. by rewrite !list_elem_of_In. }
  induction 1 as [|t ts Ht _ IH]; simpl; [by intros ?%sublist_nil_r|].
  rewrite named_app, sublist_app_r. intros (l1 & l2 & E & H1 & H2).
  destruct l1 as [|x [|y l1]]; simplify_eq/=.
  - destruct (IH H2) as (t1 & t2 & Hs & ?). exists t1, t2. split; [by constructor|done].
  - apply Hone in H2 as (t2 & Hs & H2). exists t, t2. split; [by constructor|]. split; [|done].
    by apply named_elem, singleton_sublist_l.
  - apply sublist_length in H1. pose proof (named_NoDup n t Ht). simpl in *. lia.
Qed.

(** [push_by_name] on named nodes. *)
Fixpoint push_node (bn : list (text * list node)) (e : text * node) : list (text * list node) :=
  match bn with
  | [] => [(e.1, [e.2])]
  | (n, nds) :: rest =>
      match str_compare e.1 n with
      | Lt => (e.1, [e.2]) :: bn
      | Eq => (n, nds ++ [e.2]) :: rest
      | Gt => (n, nds) :: push_node rest e
      end
  end.

Definition group_items (g : text * list node) : text * list item :=
  (g.1, map (λ nd, entry_item (g.1, nd)) g.2).

Lemma push_node_items bn e :
  push_by_name (map group_items bn) (entry_item e) = map group_items (push_node bn e).
Proof.
  induction bn as [|[n nds] bn IH]; [by destruct e|]. destruct e as [m nd]. cbn [map push_by_name push_node fst snd group_items].
  change (item_name (entry_item (m, nd))) with m. destruct (str_compare m n) eqn:E; cbn [map group_items fst snd].
  - apply (cmp_eq str_compare) in E as ->. unfold group_items. cbn [map fst snd]. by rewrite map_app.
  - done.
  - f_equal. apply IH.
Qed.

Lemma push_nodes_items E bn :
  fold_left push_by_name (map entry_item E) (map group_items bn)
  = map group_items (fold_left push_node E bn).
Proof.
  revert bn. induction E as [|e E IH]; intros bn; [done|]. cbn [map fold_left].
  by rewrite push_node_items, IH.
Qed.

Definition name_lt (g1 g2 : text * list node) : Prop := str_compare g1.1 g2.1 = Lt.

(** The groups of the entries [E]. *)
Definition groups (E : dir) (bn : list (text * list node)) : Prop :=
  StronglySorted name_lt bn ∧ (∀ n nds, (n, nds) ∈ bn → nds = named n E ∧ nds ≠ [])
  ∧ ∀ n, n ∈ E.*1 → n ∈ bn.*1.

Lemma push_node_names bn e n : n ∈ (push_node bn e).*1 ↔ n = e.1 ∨ n ∈ bn.*1.
Proof.
  induction bn as [|[m nds] bn IH]; simpl; [set_solver|].
  destruct (str_compare e.1 m) eqn:E; simpl; [|set_solver|].
  - apply (cmp_eq str_compare) in E as ->. set_solver.
  - rewrite !elem_of_cons, IH. set_solver.
Qed.

Lemma push_node_sorted bn e : StronglySorted name_lt bn → StronglySorted name_lt (push_node bn e).
Proof.
  induction 1 as [|[m nds] bn Hs IH Hf]; simpl; [by repeat constructor|].
  destruct (str_compare e.1 m) eqn:E.
  - by constructor.
  - constructor; [by constructor|]. constructor; [done|]. eapply Forall_impl; [apply Hf|].
    intros g Hg. eapply (cmp_trans str_compare); [apply E|apply Hg].
  - constructor; [done|]. apply Forall_forall. intros [n' nds'] Hin.
    assert (n' ∈ (push_node bn e).*1) as Hn by by apply list_elem_of_fmap; exists (n', nds').
    unfold name_lt. simpl. apply push_node_names in Hn as [->|Hn].
    + by apply (cmp_gt_lt str_compare).
    + apply list_elem_of_fmap in Hn as ([n2 nds2] & -> & Hin2).
      rewrite Forall_forall in Hf. by apply (Hf _ Hin2).
Qed.

Lemma push_node_elem bn e n nds :
  StronglySorted name_lt bn → (n, nds) ∈ push_node bn e →
  n ≠ e.1 ∧ (n, nds) ∈ bn
  ∨ n = e.1 ∧ ∃ old, nds = old ++ [e.2] ∧ ((n, old) ∈ bn ∨ old = [] ∧ n ∉ bn.*1).
Proof.
  induction 1 as [|[m old] bn Hs IH Hf]; cbn [push_node].
  { intros [= -> ->]%list_elem_of_singleton. right. split; [done|]. exists []. set_solver. }
  destruct (str_compare e.1 m) eqn:E; rewrite !elem_of_cons.
  - apply (cmp_eq str_compare) in E as <-. intros [[= -> ->]|Hin].
    { right. split; [done|]. exists old. split; [done|]. left. by left. }
    left.
    rewrite Forall_forall in Hf. specialize (Hf _ Hin). unfold name_lt in Hf. simpl in Hf.
    split; [|by auto]. intros ->. by rewrite (cmp_refl str_compare) in Hf.
  - intros Hin. assert (∀ g, g ∈ (m, old) :: bn → str_compare e.1 g.1 = Lt) as Hlt.
    { intros g [->|Hg]%elem_of_cons; [done|]. rewrite Forall_forall in Hf.
      eapply (cmp_trans str_compare); [apply E|apply (Hf _ Hg)]. }
    assert (e.1 ∉ ((m, old) :: bn).*1) as Hno.
    { intros (g & Hg & Hin')%list_elem_of_fmap. specialize (Hlt _ Hin'). by rewrite <-Hg, (cmp_refl str_compare) in Hlt. }
    destruct Hin as [[= -> ->]|Hin]; [right; split; [done|]; by exists []; auto|].
    left. split; [|by auto]. intros ->. destruct Hno. apply list_elem_of_fmap.
    exists (e.1, nds). split; [done|]. by apply elem_of_cons.
  - intros [[= -> ->]|Hin].
    + left. split; [|by auto]. intros ->. by rewrite (cmp_refl str_compare) in E.
    + destruct (IH Hin) as [[? ?]|(-> & o & -> & Ho)]; [by auto|right]. split; [done|].
      exists o. split; [done|]. destruct Ho as [?|[-> Hn]]; [by left; right|right]. split; [done|].
      rewrite fmap_cons, elem_of_cons. intros [Hm|?]; [|done]. simpl in Hm. subst.
      by rewrite (cmp_refl str_compare) in E.
Qed.

Lemma named_not_in n E : n ∉ E.*1 → named n E = [].
Proof.
  intros Hn. destruct (named n E) as [|nd l] eqn:En; [done|]. destruct Hn.
  assert (nd ∈ named n E) as Hin by (rewrite En; by left). apply named_elem in Hin.
  apply list_elem_of_fmap. by exists (n, nd).
Qed.

Lemma groups_push E bn e : groups E bn → groups (E ++ [e]) (push_node bn e).
Proof.
  intros (Hs & Hg & Hn). split; [by apply push_node_sorted|]. split.
  - intros n nds Hin. rewrite named_app. destruct e as [m nd].
    apply push_node_elem in Hin as [[Hne Hin]|(-> & old & -> & Ho)]; [| |done].
    + destruct (Hg _ _ Hin) as [-> ?]. unfold named at 3. simpl. rewrite bool_decide_eq_false_2 by done.
      by rewrite app_nil_r.
    + simpl. split; [|by destruct old]. unfold named at 2. simpl. rewrite bool_decide_eq_true_2 by done.
      simpl. f_equal. destruct Ho as [Hin|[-> Hno]]; [by apply Hg|].
      rewrite named_not_in; [done|]. intros ?. by apply Hno, Hn.
  - intros n. rewrite fmap_app, elem_of_app, push_node_names. simpl.
    rewrite list_elem_of_singleton. intros [?|?]; auto.
Qed.

Lemma groups_fold E' E bn : groups E bn → groups (E ++ E') (fold_left push_node E' bn).
Proof.
  revert E bn. induction E' as [|e E' IH]; intros E bn Hg; [by rewrite app_nil_r|]. simpl.
  rewrite cons_middle, app_assoc. by apply IH, groups_push.
Qed.

Lemma groups_nil : groups [] [].
Proof. split; [constructor|]. split; [|done]. by intros n nds ?%elem_of_nil. Qed.

Lemma groups_NoDup E bn : groups E bn → NoDup bn.*1.
Proof.
  intros [Hs _]. induction Hs as [|g bn _ IH Hf]; simpl; constructor; [|done].
  intros (g' & Heq & Hin)%list_elem_of_fmap. rewrite Forall_forall in Hf. specialize (Hf _ Hin).
  unfold name_lt in Hf. by rewrite Heq, (cmp_refl str_compare) in Hf.
Qed.

(** ** The specification *)

Definition prefix_related (d1 d2 : list text) : Prop := d1 `prefix_of` d2 ∨ d2 `prefix_of` d1.

(** Two of the trees have a file and something at or below it in the same place. *)
Definition clash (ts : list dir) : Prop :=
  ∃ t1 t2, [t1; t2] `sublist_of` ts ∧
    ∃ d1 d2, files t1 d1 ∧ files t2 d2 ∧ prefix_related d1 d2.

Definition node_clash (nds : list node) : Prop :=
  ∃ nd1 nd2, [nd1; nd2] `sublist_of` nds ∧
    ∃ r1 r2, is_Some (node_file nd1 r1) ∧ is_Some (node_file nd2 r2) ∧ prefix_related r1 r2.

Definition overlaid (ts : list dir) (t' : dir) : Prop :=
  (∀ d b, file_at t' d = Some b ↔ ∃ t, t ∈ ts ∧ file_at t d = Some b)
  ∧ (Forall normal ts → normal t')
  ∧ ∀ h, Forall (λ t, height (Dir t) ≤ h) ts → height (Dir t') ≤ h.

(** What the loop makes of the nodes named [n]. *)
Definition overlaid_entry (c c' : EvalContext) (n : text) (nds : list node) (o : option node) : Prop :=
  (∀ rest b, (o ≫= λ nd, node_file nd rest) = Some b ↔ ∃ nd, nd ∈ nds ∧ node_file nd rest = Some b)
  ∧ ∀ nd, o = Some nd →
      node_wf nd ∧ nd ≠ Dir [] ∧ (Forall node_normal nds → node_normal nd)
      ∧ (∀ h, Forall (λ nd, height nd ≤ h) nds → height nd ≤ h)
      ∧ ∀ B, sub_closed B → Forall (grown (available c) B) nds → grown (available c') B nd.

Lemma overlaid_entry_le c0 c1 c2 c3 n nds o :
  ctx_le c0 c1 → ctx_le c2 c3 → overlaid_entry c1 c2 n nds o → overlaid_entry c0 c3 n nds o.
Proof.
  intros H1 H2 [Hf Ho]. split; [done|]. intros nd E. destruct (Ho nd E) as (W & Hne & Hn & Hh & Hg).
  repeat split; try done. intros B HB Hb. eapply grown_le; [done|]. apply Hg; [done|].
  eapply Forall_impl; [done|]. intros nd'. by apply grown_le.
Qed.

(** The stops of an overlay of nodes with one name. *)
Definition node_stops (source : TreeSource) (fuel : nat) (X : stop → Prop) (c : EvalContext)
    (nds : list node) : Prop :=
  (¬ Forall (grown (available c) (complete source)) nds → X StopMissing)
  ∧ ((Forall (λ nd, node_normal nd ∧ nd ≠ Dir []) nds → node_clash nds) → X StopInvariant)
  ∧ (¬ Forall (λ nd, height nd ≤ fuel) nds → X StopFuel).

Definition dir_stops (source : TreeSource) (fuel : nat) (X : stop → Prop) (c : EvalContext)
    (ts : list dir) : Prop :=
  (¬ Forall (λ t, grown (available c) (complete source) (Dir t)) ts → X StopMissing)
  ∧ ((Forall normal ts → clash ts) → X StopInvariant)
  ∧ (¬ Forall (λ t, height (Dir t) ≤ fuel) ts → X StopFuel).

Lemma node_stops_le source fuel X c c' nds :
  ctx_le c c' → node_stops source fuel X c nds → node_stops source fuel X c' nds.
Proof.
  intros Hle (H1 & H2 & H3). repeat split; try done. intros Hg. apply H1. intros Hall. apply Hg.
  eapply Forall_impl; [done|]. intros nd. by apply grown_le.
Qed.

(** ** The loop *)

Lemma push_unless_empty_eq n nd (rest : M (list item)) :
  node_wf nd →
  push_unless_empty (entry_item (n, nd)) rest =
  let! items := rest in ret (if nonempty_entry (n, nd) then entry_item (n, nd) :: items else items).
Proof.
  intros W. unfold push_unless_empty. destruct nd as [m h|es].
  - simpl item_mode. rewrite bool_decide_eq_false_2 by done. done.
  - simpl item_mode. rewrite bool_decide_eq_true_2 by done. cbn [negb].
    change (hash_to_string (item_id (entry_item (n, Dir es)))) with (dir_id es).
    rewrite is_empty_eq by done. by destruct es.
Qed.

(** The nodes of a group that are all directories. *)
Lemma all_dirs n nds :
  Forall node_wf nds →
  forallb (λ it, bool_decide (item_mode it = ModeTree)) (map (λ nd, entry_item (n, nd)) nds) = true →
  ∃ ess, nds = map Dir ess.
Proof.
  induction 1 as [|nd nds W _ IH]; simpl forallb; [by exists []|]. intros H. bool_prop.
  apply (item_mode_Dir n nd) in H as [es ->]; [|done]. destruct (IH ltac:(done)) as [ess ->].
  by exists (es :: ess).
Qed.

(** A group of two or more nodes with a file among them. *)
Lemma file_clash n nds :
  Forall node_wf nds → length nds ≠ 1 →
  forallb (λ it, bool_decide (item_mode it = ModeTree)) (map (λ nd, entry_item (n, nd)) nds) = false →
  Forall (λ nd, node_normal nd ∧ nd ≠ Dir []) nds → node_clash nds.
Proof.
  intros W Hl Hf Hn.
  assert (∃ m h, File m h ∈ nds) as (m & h & Hin).
  { clear Hl Hn. induction W as [|nd nds Wn _ IH]; [done|]. simpl in Hf. apply andb_false_iff in Hf as [Hf|Hf].
    - bool_prop. destruct nd as [m h|es]; [|done]. exists m, h. by left.
    - destruct (IH Hf) as (m & h & ?). exists m, h. by right. }
  apply list_elem_of_split in Hin as (l1 & l2 & ->).
  apply Forall_app in W as [W1 W], Hn as [N1 N]. rewrite Forall_cons in W, N.
  assert (∀ nd, nd ∈ l1 ∨ nd ∈ l2 → ∃ r, is_Some (node_file nd r)) as Hfile.
  { destruct W as [_ W2], N as [_ N2]. intros nd Hin.
    assert (nd ∈ l1 ++ l2) as Hin' by by apply elem_of_app.
    assert (Forall (λ nd, node_wf nd ∧ node_normal nd ∧ nd ≠ Dir []) (l1 ++ l2)) as Hall.
    { apply Forall_app. by split; apply Forall_and. }
    rewrite Forall_forall in Hall. destruct (Hall _ Hin') as (? & ? & ?).
    destruct (node_has_file nd) as (r & b & Hb); [done..|]. by exists r, b. }
  destruct l2 as [|nd l2]; [destruct l1 as [|nd l1]; [done|]|].
  - destruct (Hfile nd) as [r Hr]; [left; by left|]. exists nd, (File m h). split.
    + simpl. constructor. apply sublist_inserts_l. done.
    + exists r, []. split; [done|]. split; [by eexists|]. right. apply prefix_nil.
  - destruct (Hfile nd) as [r Hr]; [right; by left|]. exists (File m h), nd. split.
    + apply sublist_inserts_l. do 2 constructor. apply sublist_nil_l.
    + exists [], r. split; [by eexists|]. split; [done|]. left. apply prefix_nil.
Qed.

Variable source : TreeSource.
Hypothesis Hsource : source_sound source.

Definition items_post (c : EvalContext) (bn : list (text * list node)) (c' : EvalContext)
    (its : list item) : Prop :=
  ctx_ok c' ∧ ctx_le c c' ∧ ∃ es', its = map entry_item es' ∧ pruned (overlaid_entry c c') bn es'.

Lemma items_post_cons c c1 c2 n nds o bn its :
  ctx_le c c1 → overlaid_entry c c1 n nds o → items_post c1 bn c2 its →
  items_post c ((n, nds) :: bn) c2 (option_list ((λ nd, entry_item (n, nd)) <$> o) ++ its).
Proof.
  intros Hle He (Hc2 & Hle2 & es' & -> & Hp). split; [done|]. split; [by eapply ctx_le_trans|].
  exists (option_list (pair n <$> o) ++ es'). split; [by destruct o|]. constructor.
  - by eapply overlaid_entry_le; [apply ctx_le_refl|..].
  - eapply pruned_mono; [|done]. intros n' a o' _. by apply overlaid_entry_le; [|apply ctx_le_refl].
Qed.

(** One node of a name. *)
Lemma single_entry c n nd :
  node_wf nd →
  overlaid_entry c c n [nd] (if nonempty_entry (n, nd) then Some nd else None).
Proof.
  intros W. split.
  - intros rest b. setoid_rewrite list_elem_of_singleton.
    destruct (nonempty_entry (n, nd)) eqn:E; simpl; [naive_solver|].
    destruct nd as [|[|]]; try done. split; [done|]. intros (? & -> & Hb). simpl in Hb.
    by rewrite file_at_nil in Hb.
  - intros nd' E. destruct (nonempty_entry (n, nd)) eqn:En; simplify_eq.
    apply nonempty_entry_spec in En. split; [done|]. split; [done|].
    split; [by rewrite Forall_singleton|]. split; [intros h; by rewrite Forall_singleton|].
    intros B _. by rewrite Forall_singleton.
Qed.

(** Directories of one name, overlaid to [t']. *)
Lemma dirs_entry c c' n ess t' o :
  tree_post c ess (overlaid ess) c' t' → o = (if decide (t' = []) then None else Some (Dir t')) →
  overlaid_entry c c' n (map Dir ess) o.
Proof.
  intros (_ & _ & W & (Hf & Hn & Hh) & Hg) ->. split.
  - intros rest b. transitivity (file_at t' rest = Some b).
    + case_decide as E; [subst|done]. simpl. by rewrite file_at_nil.
    + rewrite Hf. setoid_rewrite list_elem_of_fmap. naive_solver.
  - intros nd E. case_decide; [done|]. simplify_eq. split; [done|]. split; [by intros [=]|].
    split; [by rewrite Forall_map|]. split; [intros h; rewrite Forall_map; apply Hh|].
    intros B HB. rewrite Forall_map. by apply Hg.
Qed.

Lemma sublist_map {A B} (f : A → B) l k : l `sublist_of` k → map f l `sublist_of` map f k.
Proof. induction 1; simpl; by constructor. Qed.

Lemma dirs_stops fuel X c ess :
  node_stops source fuel X c (map Dir ess) → dir_stops source fuel X c ess.
Proof.
  intros (H1 & H2 & H3). rewrite !Forall_map in *. split; [done|]. split; [|done].
  intros Hc. apply H2. intros Hn. destruct Hc as (t1 & t2 & Hs & d1 & d2 & F1 & F2 & Hp).
  - eapply Forall_impl; [apply Hn|]. by intros t [].
  - exists (Dir t1), (Dir t2). split; [by apply (sublist_map Dir [t1; t2])|]. by exists d1, d2.
Qed.

Section Loop.
Variable overlay_rec : list text → M text.
Variable fuel : nat.
Variable X : stop → Prop.
Hypothesis overlay_rec_spec : ∀ c ess,
  ctx_ok c → Forall dir_wf ess → ess ≠ [] → dir_stops source fuel X c ess →
  wp (overlay_rec (map dir_id ess)) (id_post c ess (overlaid ess)) X c.

Lemma overlay_dirs_spec c n ess bn :
  ctx_ok c → Forall dir_wf ess → ess ≠ [] → node_stops source fuel X c (map Dir ess) →
  (∀ c1, ctx_ok c1 → ctx_le c c1 →
    wp (overlay_items overlay_rec (map group_items bn)) (items_post c1 bn) X c1) →
  wp (let! child := overlay_rec (map dir_id ess) in
      let! e := is_empty child in
      if e then overlay_items overlay_rec (map group_items bn)
      else let! it := tree_item n child in
           push_unless_empty it (overlay_items overlay_rec (map group_items bn)))
     (items_post c ((n, map Dir ess) :: bn)) X c.
Proof.
  intros Hc W Hne Hst IH. apply wp_bind.
  eapply wp_mono; [apply overlay_rec_spec; [done..|by apply dirs_stops]| |done].
  intros c1 id (t' & -> & Hpost). pose proof Hpost as (Hc1 & Hle & Wt & _ & _).
  rewrite is_empty_eq, bind_ret by done. specialize (IH c1 Hc1 Hle).
  pose proof (dirs_entry c c1 n ess t' _ Hpost eq_refl) as He.
  case_bool_decide as E; case_decide; try done.
  - eapply wp_mono; [apply IH| |done]. intros c2 its. by apply (items_post_cons c c1 c2 n _ None).
  - rewrite tree_item_eq, bind_ret, push_unless_empty_eq by done. apply wp_bind.
    eapply wp_mono; [apply IH| |done]. intros c2 its Hi. apply wp_ret.
    assert (nonempty_entry (n, Dir t') = true) as -> by by apply nonempty_entry_spec; intros [= ->].
    by apply (items_post_cons c c1 c2 n _ (Some (Dir t'))).
Qed.

Lemma overlay_items_spec c bn :
  ctx_ok c → (∀ n nds, (n, nds) ∈ bn →
    nds ≠ [] ∧ Forall node_wf nds ∧ node_stops source fuel X c nds) →
  wp (overlay_items overlay_rec (map group_items bn)) (items_post c bn) X c.
Proof.
  revert c. induction bn as [|[n nds] bn IH]; intros c Hc Hbn.
  { apply wp_ret. split; [done|]. split; [apply ctx_le_refl|]. exists []. split; [done|]. constructor. }
  destruct (Hbn n nds) as (Hne & W & Hst); [by left|].
  assert (∀ c1, ctx_ok c1 → ctx_le c c1 →
    wp (overlay_items overlay_rec (map group_items bn)) (items_post c1 bn) X c1) as IH'.
  { intros c1 Hc1 Hle. apply IH; [done|]. intros m nds' Hin. destruct (Hbn m nds') as (? & ? & ?); [by right|].
    split; [done|]. split; [done|]. by eapply node_stops_le. }
  clear IH Hbn. cbn [map overlay_items group_items fst snd].
  destruct (decide (length nds = 1)) as [Hl|Hl].
  - destruct nds as [|nd [|]]; try done. cbn [map]. rewrite Forall_singleton in W.
    rewrite push_unless_empty_eq by done. apply wp_bind.
    eapply wp_mono; [apply (IH' c Hc), ctx_le_refl| |done]. intros c2 its Hi. apply wp_ret.
    pose proof (items_post_cons c c c2 n [nd] _ bn its (ctx_le_refl c) (single_entry c n nd W) Hi) as Hp.
    by destruct (nonempty_entry (n, nd)).
  - assert (∀ a b, match map (λ nd, entry_item (n, nd)) nds with [it] => a it | _ => b end = (b : M (list item))) as ->.
    { intros a b. by destruct nds as [|? [|]]. }
    destruct (forallb _ _) eqn:Ef.
    + destruct (all_dirs n nds W Ef) as [ess ->]. rewrite !map_map.
      change (λ x, hash_to_string (item_id (entry_item (n, Dir x)))) with dir_id.
      rewrite Forall_map in W. apply overlay_dirs_spec; try done. by intros ->.
    + unfold wp, fail. split; [by apply Hc|]. apply Hst. by apply (file_clash n).
Qed.
End Loop.

(** ** Collecting the entries *)

Lemma gather_spec c ts bn (X : stop → Prop) :
  ctx_ok c → Forall dir_wf ts →
  (¬ Forall (λ t, grown (available c) (complete source) (Dir t)) ts → X StopMissing) →
  wp (gather_by_name source (map group_items bn) (map dir_id ts))
    (λ c' r, c' = c ∧ r = map group_items (fold_left push_node (concat ts) bn)) X c.
Proof.
  intros Hc W. revert bn. induction W as [|t ts Wt W IH]; intros bn HX; [by apply wp_ret|].
  cbn [map gather_by_name]. apply wp_bind.
  eapply wp_mono; [apply (read_spec source Hsource c t X Hc Wt)| |done].
  { intros Hg. apply HX. by intros [? _]%Forall_cons. }
  intros c' tr [-> ->]. rewrite push_nodes_items. cbn [concat]. rewrite fold_left_app. apply IH.
  intros Hg. apply HX. by intros [_ ?]%Forall_cons.
Qed.

Lemma non_empty_eq ts :
  Forall dir_wf ts →
  ∀ c, non_empty (map dir_id ts) c = (c, Ok (map dir_id (List.filter (λ t, negb (bool_decide (t = []))) ts))).
Proof.
  induction 1 as [|t ts Wt W IH]; intros c; [done|]. cbn [map non_empty].
  rewrite is_empty_eq, bind_ret by done. unfold bind. rewrite IH. cbn [List.filter].
  by case_bool_decide.
Qed.

(** ** The overlay *)

(** The nodes of a group are entries of the trees. *)
Lemma group_elem ts bn n nds nd :
  groups (concat ts) bn → (n, nds) ∈ bn → nd ∈ nds → ∃ t, t ∈ ts ∧ (n, nd) ∈ t.
Proof.
  intros (_ & Hg & _) Hin Hnd. destruct (Hg _ _ Hin) as [-> _].
  apply named_elem, list_elem_of_In, in_concat in Hnd as (t & Ht & Hnt).
  exists t. by rewrite !list_elem_of_In.
Qed.

Lemma group_Forall (P : dir → Prop) (Q : node → Prop) ts bn n nds :
  groups (concat ts) bn → (n, nds) ∈ bn → (∀ t nd, P t → (n, nd) ∈ t → Q nd) →
  Forall P ts → Forall Q nds.
Proof.
  intros Hg Hin HPQ HP. rewrite Forall_forall in HP. apply Forall_forall. intros nd Hnd.
  destruct (group_elem ts bn n nds nd Hg Hin Hnd) as (t & Ht & Hnt). by eapply HPQ; [apply HP|].
Qed.

Lemma height_pos t : 1 ≤ height (Dir t).
Proof. unfold height. lia. Qed.

Lemma height_elem t n nd h : (n, nd) ∈ t → height (Dir t) ≤ S h → height nd ≤ h.
Proof. intros Hin Hh. rewrite height_Dir, Forall_forall in Hh. by apply (Hh _ Hin). Qed.

Lemma group_stops fuel X c ts bn n nds :
  Forall dir_wf ts → groups (concat ts) bn → (n, nds) ∈ bn →
  dir_stops source (S fuel) X c ts → node_stops source fuel X c nds.
Proof.
  intros W Hg Hin (H1 & H2 & H3). split; [|split].
  - intros Hn. apply H1. intros Ht. apply Hn. eapply group_Forall; [done..| |apply Ht].
    intros t nd Hgt Hnt. exact (grown_child _ _ t n nd (complete_closed source) Hgt Hnt).
  - intros Hn. apply H2. intros Ht. destruct Hn as (nd1 & nd2 & Hs & r1 & r2 & F1 & F2 & Hp).
    + eapply (group_Forall normal); [done..| |done]. intros t nd [_ Hnt]%normal_eq Hnd.
      rewrite Forall_forall in Hnt. by destruct (Hnt _ Hnd).
    + destruct Hg as (_ & Hg & _). destruct (Hg _ _ Hin) as [-> _].
      assert (Forall (λ t, NoDup t.*1) ts) as Hnd by
        by eapply Forall_impl; [apply W|]; intros t []%dir_wf_eq.
      destruct (named_pair n ts nd1 nd2 Hnd Hs) as (t1 & t2 & Hs2 & I1 & I2).
      exists t1, t2. split; [done|]. exists (n :: r1), (n :: r2). unfold files.
      assert (t1 ∈ ts ∧ t2 ∈ ts) as [T1 T2].
      { split; eapply sublist_subseteq; [apply Hs2| |apply Hs2|]; set_solver. }
      rewrite Forall_forall in Hnd. rewrite !file_at_cons.
      rewrite (proj2 (find_entry_elem t1 n nd1 (Hnd _ T1)) I1), (proj2 (find_entry_elem t2 n nd2 (Hnd _ T2)) I2).
      split; [done|]. split; [done|]. destruct Hp; [left|right]; by apply prefix_cons.
  - intros Hn. apply H3. intros Ht. apply Hn. eapply group_Forall; [done..| |apply Ht].
    intros t nd Hh Hnt. exact (height_elem t n nd fuel Hnt Hh).
Qed.

(** The entries of the groups make the overlay of the trees. *)
Lemma pruned_overlaid c c' ts bn es' :
  Forall dir_wf ts → ts ≠ [] → groups (concat ts) bn → pruned (overlaid_entry c c') bn es' →
  dir_wf es' ∧ overlaid ts (sort_dir es').
Proof.
  intros W Hne Hg Hp. pose proof (groups_NoDup _ _ Hg) as Hn.
  assert (dir_wf es') as We.
  { apply dir_wf_eq. split; [by eapply pruned_NoDup|]. apply Forall_forall. intros [n nd] Hin.
    destruct (pruned_elem _ _ _ _ _ Hp Hin) as (nds & Ha & _ & Ho). simpl.
    split; [|by apply (Ho nd)]. pose proof Hg as (_ & Hg' & _). destruct (Hg' _ _ Ha) as [_ Hnds].
    destruct nds as [|x nds]; [done|].
    destruct (group_elem ts bn n (x :: nds) x Hg Ha) as (t & Ht & Hx); [by left|].
    rewrite Forall_forall in W. by apply (dir_wf_elem t n x); [apply W|]. }
  split; [done|]. split; [|split].
  - intros [|n rest] b; [split; [done|]; by intros (t & _ & ?)|]. rewrite sort_dir_file by done.
    rewrite (pruned_file _ (λ n nds rest b, ∃ nd, nd ∈ nds ∧ node_file nd rest = Some b) _ _ _ _ _ Hp Hn)
      by by intros ??? _ [Hf _].
    assert (∀ t, t ∈ ts → file_at t (n :: rest) = Some b ↔ ∃ nd, (n, nd) ∈ t ∧ node_file nd rest = Some b) as Hfile.
    { intros t Ht. rewrite Forall_forall in W. apply file_at_elem. apply W, dir_wf_eq in Ht. by destruct Ht. }
    split.
    + intros (nds & Ha & nd & Hnd & Hb). destruct (group_elem ts bn n nds nd Hg Ha Hnd) as (t & Ht & Hx).
      exists t. split; [done|]. apply Hfile; [done|]. eauto.
    + intros (t & Ht & Hb). apply Hfile in Hb as (nd & Hx & Hb); [|done].
      assert ((n, nd) ∈ concat ts) as Hc.
      { apply list_elem_of_In, in_concat. exists t. by rewrite <-!list_elem_of_In. }
      destruct Hg as (_ & Hg & Hnames).
      assert (n ∈ bn.*1) as Hbn by by apply Hnames, list_elem_of_fmap; exists (n, nd).
      apply list_elem_of_fmap in Hbn as ([n' nds] & Heq & Ha). simpl in Heq. subst n'. exists nds. split; [done|].
      destruct (Hg _ _ Ha) as [-> _]. exists nd. split; [by apply named_elem|done].
  - intros Hnorm. apply sort_dir_normal. apply Forall_forall. intros [n nd] Hin.
    destruct (pruned_elem _ _ _ _ _ Hp Hin) as (nds & Ha & _ & Ho). destruct (Ho nd eq_refl) as (_ & ? & Hnd & _).
    split; [done|]. apply Hnd. eapply (group_Forall normal); [done..| |done].
    intros t nd' [_ Ht]%normal_eq Hx. rewrite Forall_forall in Ht. by destruct (Ht _ Hx).
  - intros h Hh. destruct h as [|h].
    { destruct ts as [|t ts]; [done|]. apply Forall_cons in Hh as [Hh _]. pose proof (height_pos t). lia. }
    apply sort_dir_height. apply Forall_forall. intros [n nd] Hin.
    destruct (pruned_elem _ _ _ _ _ Hp Hin) as (nds & Ha & _ & Ho). destruct (Ho nd eq_refl) as (_ & _ & _ & Hnd & _).
    apply Hnd. eapply group_Forall; [done..| |apply Hh]. intros t nd' Ht Hx. exact (height_elem t n nd' h Hx Ht).
Qed.

(** Two or more trees, none of them empty. *)
Lemma overlay_merge fuel X c ts (rec : list text → M text) :
  (∀ c ess, ctx_ok c → Forall dir_wf ess → ess ≠ [] → dir_stops source fuel X c ess →
     wp (rec (map dir_id ess)) (id_post c ess (overlaid ess)) X c) →
  ctx_ok c → Forall dir_wf ts → ts ≠ [] → dir_stops source (S fuel) X c ts →
  wp (let! by_name := gather_by_name source [] (map dir_id ts) in
      let! items := overlay_items rec by_name in make_tree items)
    (id_post c ts (overlaid ts)) X c.
Proof.
  intros IH Hc W Hne Hst. apply wp_bind.
  eapply wp_mono; [apply (gather_spec c ts []); [done..|by apply Hst]| |done].
  intros c' r [-> ->]. pose proof (groups_fold (concat ts) [] [] groups_nil) as Hg. simpl in Hg.
  revert Hg. generalize (fold_left push_node (concat ts) []) as bn. intros bn Hg. apply wp_bind.
  eapply wp_mono; [apply (overlay_items_spec rec fuel X IH c bn Hc)| |done].
  { intros n nds Hin. split; [by apply Hg in Hin as []|]. split; [|by eapply group_stops].
    eapply (group_Forall dir_wf); [done..| |done]. intros t nd Wt Hx. by apply (dir_wf_elem t n). }
  intros c1 its (Hc1 & Hle & es' & -> & Hp). destruct (pruned_overlaid _ _ _ _ _ W Hne Hg Hp) as [We Ho].
  apply make_tree_spec; [done..|]. intros c2 Hc2 Hle2 Hin. exists (sort_dir es'). split; [done|].
  split; [done|]. split; [by eapply ctx_le_trans|]. split; [by apply sort_dir_wf|]. split; [done|].
  intros B HB Ht. apply grown_Dir. right; right. split; [done|]. rewrite sort_dir_perm.
  eapply pruned_Forall; [apply Hp|]. intros n nds nd Ha [_ Hnd].
  destruct (Hnd nd eq_refl) as (_ & _ & _ & _ & Hgr). eapply grown_le; [done|]. apply Hgr; [done|].
  eapply group_Forall; [done..| |apply Ht]. intros t nd' Hgt Hx. exact (grown_child _ _ t n nd' HB Hgt Hx).
Qed.

(** ** Empty trees *)

Definition nonempty_dirs (ts : list dir) : list dir := List.filter (λ t, negb (bool_decide (t = []))) ts.

Lemma nonempty_dirs_elem ts t : t ∈ nonempty_dirs ts ↔ t ∈ ts ∧ t ≠ [].
Proof.
  unfold nonempty_dirs. by rewrite !list_elem_of_In, filter_In, negb_true_iff, bool_decide_eq_false.
Qed.

Lemma nonempty_dirs_sublist ts : nonempty_dirs ts `sublist_of` ts.
Proof. unfold nonempty_dirs. induction ts as [|t ts IH]; [done|]. simpl. case_match; by constructor. Qed.

Lemma nonempty_dirs_Forall (P : dir → Prop) ts : Forall P ts → Forall P (nonempty_dirs ts).
Proof. rewrite !Forall_forall. intros H t [Hin _]%nonempty_dirs_elem. auto. Qed.

Lemma overlaid_nonempty ts t' : overlaid (nonempty_dirs ts) t' → overlaid ts t'.
Proof.
  intros (Hf & Hn & Hh). split; [|split].
  - intros d b. rewrite Hf. setoid_rewrite nonempty_dirs_elem. split; [naive_solver|].
    intros (t & Hin & Hb). exists t. split; [|done]. split; [done|]. intros ->. by rewrite file_at_nil in Hb.
  - intros H. by apply Hn, nonempty_dirs_Forall.
  - intros h H. by apply Hh, nonempty_dirs_Forall.
Qed.

Lemma id_post_nonempty c ts c' id :
  id_post c (nonempty_dirs ts) (overlaid (nonempty_dirs ts)) c' id → id_post c ts (overlaid ts) c' id.
Proof.
  intros (t' & -> & Hc & Hle & W & Ho & Hg). exists t'. split; [done|]. split; [done|]. split; [done|].
  split; [done|]. split; [by apply overlaid_nonempty|]. intros B HB H. by apply Hg, nonempty_dirs_Forall.
Qed.

Lemma dir_stops_nonempty fuel X c ts :
  dir_stops source fuel X c ts → dir_stops source fuel X c (nonempty_dirs ts).
Proof.
  intros (H1 & H2 & H3). split; [|split].
  - intros Hn. apply H1. intros H. by apply Hn, nonempty_dirs_Forall.
  - intros Hn. apply H2. intros H. destruct Hn as (t1 & t2 & Hs & ?); [by apply nonempty_dirs_Forall|].
    exists t1, t2. split; [|done]. etrans; [done|apply nonempty_dirs_sublist].
  - intros Hn. apply H3. intros H. by apply Hn, nonempty_dirs_Forall.
Qed.

Lemma overlaid_nil ts : ts ≠ [] → nonempty_dirs ts = [] → overlaid ts [].
Proof.
  intros Hne E. split; [|split].
  - intros d b. rewrite file_at_nil. split; [done|]. intros (t & Hin & Hb).
    destruct (decide (t = [])) as [->|Ht]; [by rewrite file_at_nil in Hb|].
    assert (t ∈ nonempty_dirs ts) as Hx by by apply nonempty_dirs_elem. rewrite E in Hx. by apply elem_of_nil in Hx.
  - intros _. apply normal_nil.
  - intros h Hh. destruct ts as [|t ts]; [done|]. apply Forall_cons in Hh as [Hh _].
    etrans; [|apply Hh]. apply height_pos.
Qed.

Lemma overlaid_single t : overlaid [t] t.
Proof.
  split; [|split].
  - intros d b. setoid_rewrite list_elem_of_singleton. naive_solver.
  - by rewrite Forall_singleton.
  - intros h. by rewrite Forall_singleton.
Qed.

Lemma overlay_spec fuel X c ts :
  ctx_ok c → Forall dir_wf ts → ts ≠ [] → dir_stops source fuel X c ts →
  wp (overlay source fuel (map dir_id ts)) (id_post c ts (overlaid ts)) X c.
Proof.
  revert c ts. induction fuel as [|fuel IH]; intros c ts Hc W Hne Hst.
  { split; [by apply Hc|]. apply Hst. intros Hh. destruct ts as [|t ts]; [done|].
    apply Forall_cons in Hh as [Hh _]. pose proof (height_pos t). lia. }
  cbn [overlay]. unfold wp at 1, bind at 1. rewrite non_empty_eq by done. fold (nonempty_dirs ts).
  pose proof (nonempty_dirs_Forall _ ts W) as W'. apply dir_stops_nonempty in Hst.
  destruct (nonempty_dirs ts) as [|t [|t2 ts']] eqn:E; cbn [map].
  - rewrite empty_id_eq. cbn [ret]. exists []. split; [done|]. apply tree_post_nil; [done|].
    by apply overlaid_nil.
  - apply id_post_nonempty. rewrite E. exists t. split; [done|]. rewrite Forall_singleton in W'.
    apply tree_post_self; [done..|]. apply overlaid_single.
  - change (dir_id t :: dir_id t2 :: map dir_id ts') with (map dir_id (t :: t2 :: ts')).
    pose proof (overlay_merge fuel X c (t :: t2 :: ts') (overlay source fuel) IH Hc W' ltac:(done) Hst) as Hm.
    eapply wp_mono in Hm; [apply Hm| |done]. intros c' id. rewrite <-E. apply id_post_nonempty.
Qed.
End Overlay.
