(* ===== verification/ViewTreeEval.v ===== *)
(** * The evaluation of a filter

    Collecting the trees of an output, the memo around an operator, and the evaluation
    of a whole filter: its result shows exactly the files that the filter shows, and
    it stops only for a missing tree or for a clash. *)
From stdpp Require Import base strings numbers tactics list sorting gmap.
From S2P Require Import Prelude Text FilterSyntax FilterParse FilterMeaning FilterRoundTrip GitObjects.
From S2P Require Import TreeSource ViewMemo ViewTree FileTree ViewShows ViewTreeOps.
From S2P Require Import ViewTreeExclude ViewTreeOverlay.

#[local] Open Scope view_scope.
#[local] Arguments grown : simpl never.
#[local] Arguments height : simpl never.
#[local] Arguments node_wf : simpl never.
#[local] Arguments node_normal : simpl never.

Section Eval.
Context {GO : GitObjects} {GL : GitLaws} {MC : MemoCapacity}.

(** ** Collecting the output *)

Section Collect.
Variable A : gmap text bytes.
Hypothesis HA : trees_sound A.

(** The trees collected have all their available children, except the trees [P] whose
    children are being visited. *)
Definition closed_but (P : list dir) (T : gmap text bytes) : Prop :=
  ∀ es n es', dir_wf es → is_Some (T !! dir_id es) → (n, Dir es') ∈ es →
    es ∈ P ∨ (is_Some (A !! dir_id es') → is_Some (T !! dir_id es')).

Definition collected (P : list dir) (T T' : gmap text bytes) : Prop :=
  T ⊆ T' ∧ T' ⊆ A ∧ closed_but P T'.

Lemma is_Some_subseteq (T T' : gmap text bytes) id : T ⊆ T' → is_Some (T !! id) → is_Some (T' !! id).
Proof. intros H [d Hd]. exists d. by eapply lookup_weaken. Qed.

Lemma collect_items_spec (collect : text → gmap text bytes → outcome FilterTreeError (gmap text bytes))
    P es T :
  Forall (λ e, node_wf e.2) es →
  (∀ n t T1, (n, Dir t) ∈ es → T ⊆ T1 → T1 ⊆ A → closed_but P T1 →
     ∃ T2, collect (dir_id t) T1 = Ok T2 ∧ collected P T1 T2
           ∧ (is_Some (A !! dir_id t) → is_Some (T2 !! dir_id t))) →
  T ⊆ A → closed_but P T →
  ∃ T', collect_items collect (map entry_item es) T = Ok T' ∧ collected P T T'
        ∧ ∀ n t, (n, Dir t) ∈ es → is_Some (A !! dir_id t) → is_Some (T' !! dir_id t).
Proof.
  intros W. revert T. induction W as [|[n nd] es Wn _ IH]; intros T Hc HT Hcl.
  { exists T. split; [done|]. split; [done|]. by intros n t ?%elem_of_nil. }
  cbn [map collect_items]. destruct nd as [m h|t].
  - simpl item_mode. rewrite bool_decide_eq_false_2 by done.
    destruct (IH T) as (T' & E & HT' & Hin); [|done..|].
    { intros n' t' T1 ?. apply (Hc n'). by right. }
    exists T'. split; [done|]. split; [done|]. intros n' t [?|?]%elem_of_cons; [done|]. by eapply Hin.
  - simpl item_mode. rewrite bool_decide_eq_true_2 by done.
    change (hash_to_string (item_id (entry_item (n, Dir t)))) with (dir_id t).
    destruct (Hc n t T) as (T1 & E1 & (S1 & S1' & C1) & I1); [by left|done..|]. rewrite E1.
    destruct (IH T1) as (T2 & E2 & (S2 & S2' & C2) & I2); [|done..|].
    { intros n' t' T1' ? ?. apply (Hc n'); [by right|]. by etrans. }
    exists T2. split; [done|]. split; [by split; [etrans|]|].
    intros n' t' [[= -> ->]|?]%elem_of_cons Ha; [|by eapply I2]. eapply is_Some_subseteq; eauto.
Qed.

Lemma collect_spec fuel t T P :
  dir_wf t → T ⊆ A → size A < fuel + size T → closed_but P T →
  ∃ T', collect_output_trees fuel A (dir_id t) T = Ok T' ∧ collected P T T'
        ∧ (is_Some (A !! dir_id t) → is_Some (T' !! dir_id t)).
Proof.
  revert t T P. induction fuel as [|fuel IH]; intros t T P W HT Hf Hcl.
  { apply map_subseteq_size in HT. lia. }
  cbn [collect_output_trees]. destruct (A !! dir_id t) as [d|] eqn:Ea.
  2: { exists T. split; [done|]. split; [done|]. by intros [? ?]. }
  assert (<[dir_id t := d]> T ⊆ A) as HT' by by apply insert_subseteq_l.
  destruct (T !! dir_id t) as [d'|] eqn:Et.
  { assert (d' = d) as -> by (eapply lookup_weaken in Et; [|done]; congruence).
    exists (<[dir_id t := d]> T). rewrite insert_id by done. split; [done|]. split; [done|]. by eexists. }
  rewrite (parse_dir t d W) by by eapply trees_sound_lookup. cbn [tree_items].
  destruct (collect_items_spec (collect_output_trees fuel A) (t :: P) t (<[dir_id t := d]> T))
    as (T' & E & (S1 & S2 & C) & I).
  - apply dir_wf_eq in W as [_ W]. by eapply Forall_impl; [apply W|]; intros e [].
  - intros n t' T1 Hin HT1 HT1' Hc1. apply IH; [by apply (dir_wf_elem t n (Dir t'))|done| |done].
    apply map_subseteq_size in HT1. rewrite map_size_insert_None in HT1 by done. lia.
  - done.
  - intros es n es' We Hes Hin. destruct (decide (dir_id es = dir_id t)) as [Heq|Hne].
    + apply dir_id_inj in Heq as ->; [|done..]. left. by left.
    + rewrite lookup_insert_ne in Hes by done. destruct (Hcl es n es' We Hes Hin) as [?|Hx]; [left; by right|right].
      intros Ha. eapply is_Some_subseteq; [by apply insert_subseteq|]. auto.
  - exists T'. split; [done|]. split.
    + split; [by etrans; [apply insert_subseteq|]|]. split; [done|].
      intros es n es' We Hes Hin. destruct (C es n es' We Hes Hin) as [[->|?]%elem_of_cons|?]; [|by auto..].
      right. intros Ha. by eapply I.
    + intros _. eapply is_Some_subseteq; [done|]. by rewrite lookup_insert_eq.
Qed.
End Collect.

(** What is grown from the available trees is grown from the collected ones. *)
Lemma collected_grown A T B nd :
  node_wf nd → T ⊆ A → closed_but A [] T → grown A B nd →
  (∀ es, nd = Dir es → is_Some (A !! dir_id es) → is_Some (T !! dir_id es)) → grown T B nd.
Proof.
  intros W HT Hcl. induction nd as [|es IH] using node_ind'; [done|].
  rewrite !grown_Dir. intros [?|[?|[Hs Hg]]] Hin; [by auto..|]. right; right.
  specialize (Hin es eq_refl Hs). split; [done|].
  change (dir_wf es) in W. pose proof (proj1 (dir_wf_eq _) W) as [_ We].
  rewrite Forall_forall in IH. rewrite Forall_forall in Hg. rewrite Forall_forall in We.
  apply Forall_forall. intros [n nd] Hnd. apply (IH _ Hnd); [by apply (We _ Hnd)|by apply (Hg _ Hnd)|].
  intros es' Heq Ha. simpl in Heq. subst nd. destruct (Hcl es n es' W Hin Hnd) as [?%elem_of_nil|Hx]; [done|auto].
Qed.

Lemma output_for_spec c t (X : stop → Prop) :
  ctx_ok c → dir_wf t →
  wp (output_for (dir_id t))
    (λ c' o, c' = c ∧ output_tree_id o = dir_id t ∧ trees_sound (output_trees o)
       ∧ ∀ B, grown (available c) B (Dir t) → grown (output_trees o) B (Dir t)) X c.
Proof.
  intros [HA Hm] W. unfold output_for. rewrite is_empty_eq, bind_ret by done. case_bool_decide as E.
  - apply wp_ret. subst. split; [done|]. split; [done|]. split; [|intros; apply grown_nil].
    cbn [output_trees]. intros id d [<- <-]%lookup_singleton_Some. exists []. split; [done|]. split; [done|]. apply to_data_nil.
  - unfold wp. destruct (collect_spec (available c) HA (S (size (available c))) t ∅ []) as (T & -> & (_ & HT & Hcl) & Hin).
    + done.
    + apply map_empty_subseteq.
    + lia.
    + intros es n es' _ [? Hx]. by rewrite lookup_empty in Hx.
    + split; [done|]. split; [done|]. cbn [output_trees]. split.
      * intros id d Hd. apply HA. by eapply lookup_weaken.
      * intros B Hg. eapply collected_grown; [done..|]. by intros es [= <-].
Qed.

(** ** The memo *)

Variable source : TreeSource.
Hypothesis Hsource : source_sound source.
Context (first_key : memo_entries → option MemoKey) `{!FirstKey first_key}.

Lemma evict_lookup fuel cap used b es k v :
  (evict first_key fuel cap used b es).2 !! k = Some v → es !! k = Some v.
Proof.
  revert used es. induction fuel as [|fuel IH]; intros used es; simpl.
  { by case_match. }
  case_match; [done|]. destruct (first_key es) as [k0|]; [|done]. destruct (es !! k0) as [v0|] eqn:E0.
  - intros Hk%IH. by apply lookup_delete_Some in Hk as [_ ?].
  - apply IH.
Qed.

(** An entry of the memo after an insertion is the new one or an old one. *)
Lemma memo_insert_lookup m k o k' v :
  entries (memo_insert first_key m k o) !! k' = Some v →
  k' = k ∧ value_output v = o ∨ entries m !! k' = Some v.
Proof.
  unfold memo_insert. case_match; [by right|].
  destruct (match entries m !! k with Some p => _ | None => _ end) as [used es] eqn:E.
  destruct (evict _ _ _ _ _ _) as [used' es'] eqn:Ev. cbn [entries].
  intros [[<- <-]|[Hne Hk]]%lookup_insert_Some; [by left|right].
  assert (es !! k' = Some v) as Hes.
  { pose proof (evict_lookup (size es) (capacity_bytes m) used (entry_bytes k o) es k' v) as He'.
    rewrite Ev in He'. by apply He'. }
  destruct (entries m !! k) eqn:Em; simplify_eq; [|done]. by apply lookup_delete_Some in Hes as [_ ?].
Qed.

Lemma print_inj f g : printable f → printable g → print f = print g → f = g.
Proof.
  intros Pf Pg E. set (n := nesting f `max` nesting g).
  pose proof (parse_with_max_print f n Pf ltac:(lia)) as Hf.
  pose proof (parse_with_max_print g n Pg ltac:(lia)) as Hg. congruence.
Qed.

Lemma memo_ok_insert m f t o :
  printable f → dir_wf t → memo_ok m → output_ok f t o →
  memo_ok (memo_insert first_key m (mk_MemoKey (print f) (dir_id t)) o).
Proof.
  intros Pf W [Hfit Hm] Ho. split; [by apply memo_insert_fits|].
  intros k v [[-> <-]|Hk]%memo_insert_lookup g t' Pg W' E.
  - injection E as E1 E2. apply print_inj in E1 as ->; [|done..]. by apply dir_id_inj in E2 as ->.
  - by eapply Hm.
Qed.

Definition eval_post (f : Filter) (t : dir) (c c' : EvalContext) (id : text) : Prop :=
  id_post c [t] (result f t) c' id.

Lemma memoised_spec f t (compute : M text) X c :
  printable f → dir_wf t → ctx_ok c → wp compute (eval_post f t c) X c →
  wp (memoised first_key (mk_MemoKey (print f) (dir_id t)) compute) (eval_post f t c) X c.
Proof.
  intros Pf W Hc Hcomp. unfold memoised, memo_get, wp at 1.
  destruct (entries (memo c) !! _) as [v|] eqn:E.
  - destruct Hc as [HA Hm]. destruct (proj2 Hm _ _ E f t Pf W eq_refl) as (HT & t' & Hid & Hr & Hg).
    cbn. exists t'. split; [done|]. split.
    { split; [by apply trees_sound_union|done]. }
    assert (∀ id, is_Some (output_trees (value_output v) !! id) →
      is_Some ((output_trees (value_output v) ∪ available c) !! id)) as Hl.
    { intros id [d Hd]. exists d. by apply lookup_union_Some_l. }
    assert (∀ id, is_Some (available c !! id) →
      is_Some ((output_trees (value_output v) ∪ available c) !! id)) as Hr'.
    { intros id Hd. apply lookup_union_is_Some. by right. }
    split; [done|]. split; [by destruct Hr|]. split; [done|]. intros B HB Ht.
    rewrite Forall_singleton in Ht. eapply grown_mono; [apply Hl| |apply Hg].
    intros es Hes. eapply grown_within; [done| |apply Hes].
    eapply grown_mono; [apply Hr'| |apply Ht]. intros es' ?. by left.
  - change (wp (let! id := compute in let! output := output_for id in
      let! _ := memoise first_key (mk_MemoKey (print f) (dir_id t)) output in ret id) (eval_post f t c) X c).
    apply wp_bind. eapply wp_mono; [apply Hcomp| |done].
    intros c1 id (t' & -> & Hc1 & Hle & W' & Hr & Hg). apply wp_bind.
    eapply wp_mono; [by apply output_for_spec| |done]. intros c2 o (-> & Ho & HT & Hgo). cbn.
    exists t'. split; [done|]. split.
    { split; [by apply Hc1|]. apply memo_ok_insert; [done..|by apply Hc1|]. split; [done|].
      exists t'. split; [done|]. split; [done|]. apply Hgo, Hg; [apply within_closed|].
      apply Forall_singleton, grown_self. }
    split; [done|]. split; [done|]. split; [done|]. exact Hg.
Qed.

(** ** Evaluation *)

(** Why the evaluation of a filter may stop. *)
Definition eval_stops (fuel : nat) (X : stop → Prop) (f : Filter) (t : dir) (c : EvalContext) : Prop :=
  (¬ grown (available c) (complete source) (Dir t) → X StopMissing)
  ∧ ((normal t → clashes f (files t)) → X StopInvariant)
  ∧ (fuel < height (Dir t) + growth f → X StopFuel).

Definition eval_spec (fuel : nat) (f : Filter) : Prop :=
  ∀ X t c, printable f → dir_wf t → ctx_ok c → eval_stops fuel X f t c →
    wp (eval first_key source fuel f (dir_id t)) (eval_post f t c) X c.

(** The parts of a result compose along a chain. *)
Lemma result_chain op ops t t1 t2 :
  result op t t1 → result (Chain ops) t1 t2 → result (Chain (op :: ops)) t t2.
Proof.
  intros (_ & I1 & N1 & H1) (W2 & I2 & N2 & H2). split; [done|]. split; [|split; [by auto|]].
  - intros d b. rewrite (I2 d b). cbn [shows chain_maps]. setoid_rewrite (I1 _ b). naive_solver.
  - cbn [growth foldr] in *. lia.
Qed.

Lemma id_post_trans c c1 c2 t t1 R id :
  tree_post c [t] R c1 t1 → ∀ R', id_post c1 [t1] R' c2 id → id_post c [t] R' c2 id.
Proof.
  intros (_ & Hle & _ & _ & Hg) R' (t2 & -> & Hc2 & Hle2 & W2 & HR & Hg2). exists t2. split; [done|].
  split; [done|]. split; [by eapply ctx_le_trans|]. split; [done|]. split; [done|].
  intros B HB Ht. apply Hg2; [done|]. apply Forall_singleton. by apply Hg.
Qed.

Lemma id_post_impl c ts (R R' : dir → Prop) c' id :
  (∀ t', R t' → R' t') → id_post c ts R c' id → id_post c ts R' c' id.
Proof.
  intros HR (t' & -> & Hc & Hle & W & Ht & Hg). exists t'. split; [done|].
  split; [done|]. split; [done|]. split; [done|]. split; [by apply HR|done].
Qed.

Lemma chain_evals_spec fuel ops X t c :
  Forall (eval_spec fuel) ops → Forall printable ops → dir_wf t → ctx_ok c →
  eval_stops fuel X (Chain ops) t c →
  wp (chain_evals (eval first_key source fuel) ops (dir_id t)) (eval_post (Chain ops) t c) X c.
Proof.
  intros He. revert t c. induction He as [|op ops He _ IH]; intros t c Hp W Hc (S1 & S2 & S3).
  { apply wp_ret. exists t. split; [done|]. apply tree_post_self; [done..|]. split; [done|].
    split; [|split; [done|lia]]. intros d b. cbn [shows chain_maps]. naive_solver. }
  apply Forall_cons in Hp as [Pop Pops]. cbn [chain_evals]. apply wp_bind.
  cbn [growth foldr clashes chain_clashes] in S2, S3.
  eapply wp_mono; [apply He; [done..|]| |done].
  { split; [done|]. split; [intros Hcl; apply S2; by left; auto|]. intros ?. apply S3. lia. }
  intros c1 id (t1 & -> & Hpost). pose proof Hpost as (Hc1 & Hle & W1 & Hr & Hg).
  eapply wp_mono; [apply IH; [done..|]| |done].
  - pose proof Hr as (_ & I1 & N1 & H1). split; [|split].
    + intros Hn. apply S1. intros Ht. apply Hn, Hg; [apply complete_closed|]. by apply Forall_singleton.
    + intros Hcl. apply S2. intros Hn. right. eapply (clashes_mono (Chain ops)); [|by apply Hcl, N1].
      intros p. by apply image_files.
    + cbn [growth]. intros ?. apply S3. lia.
  - intros c2 id Hid. eapply id_post_trans; [apply Hpost|]. eapply id_post_impl; [|apply Hid].
    intros t2. by apply result_chain.
Qed.

Lemma compose_outputs_spec fuel fs X t c :
  Forall (eval_spec fuel) fs → Forall printable fs → dir_wf t → ctx_ok c →
  (∀ f, f ∈ fs → ∀ c', ctx_le c c' → eval_stops fuel X f t c') →
  wp (compose_outputs (eval first_key source fuel) fs (dir_id t))
    (λ c' ids, ctx_ok c' ∧ ctx_le c c' ∧
       ∃ ts, ids = map dir_id (nonempty_dirs ts) ∧ Forall2 (λ f t', result f t t') fs ts
         ∧ ∀ B, sub_closed B → grown (available c) B (Dir t) →
                Forall (λ t', grown (available c') B (Dir t')) ts) X c.
Proof.
  intros He. revert c. induction He as [|f fs He _ IH]; intros c Hp W Hc Hst.
  { apply wp_ret. split; [done|]. split; [apply ctx_le_refl|]. exists []. repeat constructor. }
  apply Forall_cons in Hp as [Pf Pfs]. cbn [compose_outputs]. apply wp_bind.
  eapply wp_mono; [apply He; [done..|]| |done].
  { apply Hst; [by left|apply ctx_le_refl]. }
  intros c1 id (t1 & -> & Hc1 & Hle & W1 & Hr & Hg). rewrite is_empty_eq, bind_ret by done. apply wp_bind.
  eapply wp_mono; [apply (IH c1); [done..|]| |done].
  { intros g Hin c' Hle'. apply Hst; [by right|]. by eapply ctx_le_trans. }
  intros c2 ids (Hc2 & Hle2 & ts & -> & Hts & Hgs). apply wp_ret. split; [done|].
  split; [by eapply ctx_le_trans|]. exists (t1 :: ts). split.
  { unfold nonempty_dirs. cbn [List.filter]. by case_bool_decide. }
  split; [by constructor|]. intros B HB Ht. constructor.
  - eapply grown_le; [apply Hle2|]. apply Hg; [done|]. by apply Forall_singleton.
  - apply Hgs; [done|]. by eapply grown_le.
Qed.

(** Trees of the members that clash are images that clash. *)
Lemma clash_images fs ts t :
  Forall2 (λ f t', result f t t') fs ts → clash ts → clashes (Compose fs) (files t).
Proof.
  intros Hts (t1 & t2 & Hs & d1 & d2 & F1 & F2 & Hp). right.
  destruct (Forall2_sublist _ _ _ _ Hts Hs) as (l' & Hl & HR).
  apply Forall2_cons_inv_r in HR as (f & l1 & (_ & If & _) & HR & ->).
  apply Forall2_cons_inv_r in HR as (g & l2 & (_ & Ig & _) & HR & ->).
  apply Forall2_nil_inv_r in HR as ->. exists f, g. split; [done|]. exists d1, d2.
  split; [by apply (image_files f t t1)|]. split; [by apply (image_files g t t2)|done].
Qed.

Lemma result_normals fs ts t :
  Forall2 (λ f t', result f t t') fs ts → normal t → Forall normal ts.
Proof. intros Hts Ht. induction Hts as [|f t1 fs ts (_ & _ & N & _) _ IH]; constructor; auto. Qed.

Lemma result_heights fs ts t :
  Forall2 (λ f t', result f t t') fs ts →
  Forall (λ t', height (Dir t') ≤ height (Dir t) + growth (Compose fs)) ts.
Proof.
  intros Hts. cbn [growth]. induction Hts as [|f t1 fs ts (_ & _ & _ & Hh) _ IH]; constructor.
  - cbn [foldr]. lia.
  - eapply Forall_impl; [apply IH|]. cbn [foldr]. lia.
Qed.

Lemma result_compose fs ts t t' :
  Forall2 (λ f t', result f t t') fs ts → dir_wf t' → overlaid ts t' → result (Compose fs) t t'.
Proof.
  intros Hts W (Hf & Hn & Hh). split; [done|]. split; [|split].
  - intros d b. rewrite Hf. cbn [shows]. clear Hf Hn Hh.
    induction Hts as [|f t1 fs ts (_ & I & _) _ IH]; cbn [some_maps].
    { split; [by intros (? & ?%elem_of_nil & _)|naive_solver]. }
    setoid_rewrite elem_of_cons. specialize (I d b). naive_solver.
  - intros Ht. apply Hn. by eapply result_normals.
  - apply Hh. by apply result_heights.
Qed.

(** A member stops for a reason of the whole. *)
Lemma member_stops fuel X fs f t c c' :
  f ∈ fs → ctx_le c c' → eval_stops fuel X (Compose fs) t c → eval_stops fuel X f t c'.
Proof.
  intros Hin Hle (S1 & S2 & S3). split; [|split].
  - intros Hn. apply S1. intros Ht. apply Hn. by eapply grown_le.
  - intros Hcl. apply S2. intros Hn. left. specialize (Hcl Hn). clear - Hin Hcl.
    induction fs as [|g fs IH]; simpl; [by apply elem_of_nil in Hin|].
    apply elem_of_cons in Hin as [->|]; [by left|right; auto].
  - intros ?. apply S3. assert (growth f ≤ growth (Compose fs)); [|lia]. clear - Hin. cbn [growth].
    induction fs as [|g fs IH]; [by apply elem_of_nil in Hin|]. cbn [foldr].
    apply elem_of_cons in Hin as [->|Hin]; [lia|]. specialize (IH Hin). lia.
Qed.

(** The overlay of the members' trees stops for a reason of the whole. *)
Lemma overlay_stops fuel X fs ts t c c1 :
  Forall2 (λ f t', result f t t') fs ts → eval_stops fuel X (Compose fs) t c →
  (∀ B, sub_closed B → grown (available c) B (Dir t) →
        Forall (λ t', grown (available c1) B (Dir t')) ts) →
  dir_stops source fuel X c1 ts.
Proof.
  intros Hts (S1 & S2 & S3) Hg. split; [|split].
  - intros Hn. apply S1. intros Ht. apply Hn, Hg; [apply complete_closed|done].
  - intros Hcl. apply S2. intros Hn. eapply clash_images; [done|]. by apply Hcl, (result_normals fs ts t).
  - intros Hn. apply S3. destruct (decide (fuel < height (Dir t) + growth (Compose fs))) as [|Hge]; [done|].
    destruct Hn. eapply Forall_impl; [by apply result_heights|]. intros t' ?. simpl in *. lia.
Qed.

Lemma compose_eval_spec fuel fs X t c :
  Forall (eval_spec fuel) fs → Forall printable fs → fs ≠ [] → dir_wf t → ctx_ok c →
  eval_stops fuel X (Compose fs) t c →
  wp (let! outputs := compose_outputs (eval first_key source fuel) fs (dir_id t) in
      compose_finish source fuel outputs) (eval_post (Compose fs) t c) X c.
Proof.
  intros He Hp Hne W Hc Hst. apply wp_bind.
  eapply wp_mono; [apply compose_outputs_spec; [done..|]| |done].
  { intros f Hin c' Hle. by eapply member_stops. }
  intros c1 ids (Hc1 & Hle & ts & -> & Hts & Hg).
  assert (ts ≠ []) as Htne by by (intros ->; apply Forall2_nil_inv_r in Hts).
  assert (Forall dir_wf ts) as Wts.
  { clear - Hts. induction Hts as [|f t1 fs ts (? & _) _ IH]; by constructor. }
  pose proof (dir_stops_nonempty source _ _ _ _ (overlay_stops fuel X fs ts t c c1 Hts Hst Hg)) as Hds.
  assert (∀ c2 id, id_post c1 ts (overlaid ts) c2 id → eval_post (Compose fs) t c c2 id) as Hfin.
  { intros c2 id (t' & -> & Hc2 & Hle2 & W2 & Ho & Hg2). exists t'. split; [done|]. split; [done|].
    split; [by eapply ctx_le_trans|]. split; [done|]. split; [by eapply result_compose|].
    intros B HB Ht. apply Hg2; [done|]. rewrite Forall_singleton in Ht. by apply Hg. }
  pose proof (nonempty_dirs_Forall _ ts Wts) as Wn. unfold compose_finish.
  destruct (nonempty_dirs ts) as [|t1 [|t2 ts']] eqn:E; cbn [map].
  - rewrite empty_id_eq. apply wp_ret, Hfin. exists []. split; [done|].
    apply tree_post_nil; [done|]. by apply overlaid_nil.
  - apply wp_ret, Hfin, id_post_nonempty. rewrite E. rewrite Forall_singleton in Wn. exists t1.
    split; [done|]. apply tree_post_self; [done..|]. apply overlaid_single.
  - eapply wp_mono; [apply (overlay_spec source Hsource fuel X c1 (t1 :: t2 :: ts')); done| |done].
    intros c2 id. rewrite <-E. intros Hid. by apply Hfin, id_post_nonempty.
Qed.

Lemma segments_storable p : path_wf p → Forall (λ n, 0%N ∉ n) (segments p).
Proof.
  unfold path_wf, valid_view_path. intros Hp. bool_prop.
  apply Forall_forall. intros n Hn. rename select (forallb _ _ = true) into Hf.
  rewrite forallb_forall in Hf. apply list_elem_of_In, Hf in Hn. unfold valid_path_segment in Hn.
  bool_prop. intros Hz. rename select (existsb is_control n = false) into Hctl.
  assert (existsb is_control n = true) as Hx; [|congruence].
  apply existsb_exists. exists 0%N. by rewrite <-list_elem_of_In.
Qed.

Lemma eval_correct fuel f : eval_spec fuel f.
Proof.
  induction f as [p|p|sels|fs IH|ops IH| |] using filter_ind; intros X t c Pf W Hc Hst;
    cbn [eval]; pose proof Hst as (S1 & S2 & S3).
  - apply memoised_spec; [done..|]. eapply wp_mono; [apply (subdir_spec source Hsource c t (segments p)
      (result (Subdir p) t) X Hc W)|done..]; [|done].
    split; [by apply sub_dir_wf|]. split; [apply sub_dir_image|]. split; [by apply sub_dir_normal|].
    rewrite Nat.add_0_r. apply sub_dir_height.
  - apply memoised_spec; [done..|].
    eapply wp_mono; [apply prefix_spec; [done..|by apply segments_storable]| |done].
    intros c' id (t' & -> & Hc' & Hle & W' & -> & Hg). eexists. split; [done|]. split; [done|].
    split; [done|]. split; [done|]. split; [|done]. split; [done|]. split; [apply prefix_dir_image|].
    unfold prefix_dir. case_decide as E; [subst; split; [by intros|cbn [growth]; lia]|].
    split; [by apply wrap_dir_normal|]. rewrite wrap_dir_height. cbn [growth]. lia.
  - apply memoised_spec; [done..|]. destruct Pf as [_ Hsel].
    eapply wp_mono; [apply exclude_spec; [done..|by apply S1]| |done]. intros c' id.
    intros (t' & -> & Hc' & Hle & W' & (Hi & Hn & Hh) & Hg). exists t'. split; [done|]. split; [done|].
    split; [done|]. split; [done|]. split; [|done]. split; [done|]. split; [done|]. split; [done|].
    by rewrite Nat.add_0_r.
  - apply memoised_spec; [done..|]. destruct Pf as [Hne Pfs]. rewrite foldr_and in Pfs.
    by apply compose_eval_spec.
  - apply memoised_spec; [done..|]. destruct Pf as (_ & _ & Pfs). rewrite foldr_and in Pfs.
    by apply chain_evals_spec.
  - apply wp_ret. exists t. split; [done|]. apply tree_post_self; [done..|]. split; [done|].
    split; [|split; [done|lia]]. intros d b. cbn [shows]. naive_solver.
  - rewrite empty_id_eq. apply wp_ret. exists []. split; [done|]. apply tree_post_nil; [done|].
    split; [apply dir_wf_nil|]. split; [|split; [by intros; apply normal_nil|]].
    + intros d b. rewrite file_at_nil. cbn [shows]. naive_solver.
    + pose proof (height_pos t). change (height (Dir [])) with 1. lia.
Qed.

(** The outcome of [filter_tree], for any memo that is right. *)
Lemma filter_tree_outcome fuel m f t :
  printable f → dir_wf t → memo_ok m →
  let '(m', r) := filter_tree first_key source fuel m f (dir_id t) in
  memo_ok m' ∧
  match r with
  | Ok o => output_ok f t o
  | Err (Missing _) => ¬ complete source t
  | Err Invariant => normal t → clashes f (files t)
  | Panic => False
  | OutOfFuel => fuel < height (Dir t) + growth f
  end.
Proof.
  intros Pf W Hm. unfold filter_tree.
  set (X := λ x, match x with
    | StopMissing => ¬ complete source t
    | StopInvariant => normal t → clashes f (files t)
    | StopFuel => fuel < height (Dir t) + growth f
    end).
  assert (ctx_ok (mk_EvalContext m ∅)) as Hc by (split; [apply trees_sound_empty|done]).
  assert (wp (let! out := eval first_key source fuel f (dir_id t) in output_for out)
    (λ c' o, memo_ok (memo c') ∧ output_ok f t o) X (mk_EvalContext m ∅)) as Hwp.
  { apply wp_bind. eapply wp_mono; [apply (eval_correct fuel f X); [done..|]| |done].
    - split; [|split; [done..|done]]. intros Hn Hcm. apply Hn. by left.
    - intros c1 id (t' & -> & Hc1 & Hle & W1 & Hr & Hg).
      eapply wp_mono; [by apply output_for_spec| |done]. intros c2 o (-> & Ho & HT & Hgo).
      split; [by apply Hc1|]. split; [done|]. exists t'. split; [done|]. split; [done|].
      apply Hgo, Hg; [apply within_closed|]. apply Forall_singleton, grown_self. }
  unfold wp in Hwp. destruct (bind _ _ _) as [c r]. by destruct r as [o|[]| |].
Qed.
End Eval.
