(* ===== verification/ViewRegistered.v ===== *)
(** * Registered views do not clash

    The destination check of [validate_for_registration] works on the inverse of the
    filter.  The inverse of a canonical filter mirrors it operator by operator
    ([inverse_shape]), so the check says that the members of every composition write
    to disjoint places of the view. *)
From stdpp Require Import base strings numbers tactics list sorting gmap.
From S2P Require Import Prelude Text FilterSyntax FilterParse FilterRoundTrip FilterCanonical.
From S2P Require Import FilterSemantics FilterMeaning MonoPath FilterValidate ViewShows.

(** ** The shape of an inverse *)

Definition dual (f g : Filter) : Prop :=
  match f, g with
  | Subdir _, Prefix _ | Prefix _, Subdir _ | Exclude _, Exclude _ | Compose _, Compose _
  | Chain _, Chain _ | Nop, Nop | Empty, Empty => True
  | _, _ => False
  end.

Lemma dual_irreducible f1 f2 g1 g2 :
  dual f1 g1 → dual f2 g2 → irreducible f1 f2 → irreducible g2 g1.
Proof. by destruct f1, g1, f2, g2. Qed.

Lemma dual_chain_or_unit f g : dual f g → is_chain_or_unit g = is_chain_or_unit f.
Proof. by destruct f, g. Qed.

Lemma dual_compose_or_empty f g : dual f g → is_compose_or_empty g = is_compose_or_empty f.
Proof. by destruct f, g. Qed.

Definition inverse_parts (f g : Filter) : Prop :=
  match f, g with
  | Compose fs, Compose gs' =>
      ∃ gs, gs ≡ₚ gs' ∧ Forall2 (λ f g, invert f = Some g) fs gs
  | Chain fs, Chain gs' => ∃ gs, gs' = reverse gs ∧ Forall2 (λ f g, invert f = Some g) fs gs
  | _, _ => True
  end.

Lemma Forall2_dual (P : Filter → Prop) fs gs :
  Forall (λ f, canonical f → ∀ g, invert f = Some g → canonical g ∧ dual f g) fs →
  Forall canonical fs → Forall2 (λ f g, invert f = Some g) fs gs →
  Forall canonical gs ∧ Forall2 dual fs gs.
Proof.
  intros IH Hc H2. induction H2 as [|f g fs gs Hg _ IHl]; [by repeat constructor|].
  apply Forall_cons in IH as [IHf IH], Hc as [Hf Hc]. destruct (IHf Hf g Hg), (IHl IH Hc).
  split; by constructor.
Qed.

Lemma dual_sorted fs gs :
  Forall2 dual fs gs → Sorted irreducible fs → Sorted irreducible (reverse gs).
Proof.
  intros H2 Hs. apply Sorted_reverse. revert Hs. induction H2 as [|f g fs gs Hg H2 IH]; intros Hs; [constructor|].
  apply Sorted_inv in Hs as [Hs Hh]. constructor; [by apply IH|].
  destruct H2 as [|f2 g2 fs gs Hg2 H2]; constructor. inversion Hh; subst. by eapply dual_irreducible.
Qed.

Lemma inverse_canonical f g :
  canonical f → invert f = Some g → canonical g ∧ dual f g ∧ inverse_parts f g.
Proof.
  revert g. induction f as [p|p|sels|fs IH|fs IH| |] using filter_ind; intros g Hc Hg; cbn [invert] in Hg.
  - simpl in Hg. by simplify_eq.
  - simpl in Hg. by simplify_eq.
  - change (canonicalize (Exclude sels) = Some g) in Hg. rewrite canonicalize_id in Hg by done. by simplify_eq.
  - destruct (mapM invert fs) as [gs|] eqn:Em; [|done]. apply mapM_maps in Em.
    destruct Hc as (Hl & Hne & _ & Hcs). apply foldr_and_Forall in Hcs.
    destruct (Forall2_dual (λ _, True) fs gs) as [Cgs Dgs]; [|done..|].
    { eapply Forall_impl; [apply IH|]. intros f Hf Hcf g' Hg'. by destruct (Hf g' Hcf Hg') as (? & ? & _). }
    assert (Forall (λ g, is_compose_or_empty g = false) gs) as Hngs.
    { clear - Dgs Hne. induction Dgs as [|f g fs gs Hd _ IHd]; [constructor|].
      apply Forall_cons in Hne as [? ?]. constructor; [by rewrite (dual_compose_or_empty f g)|auto]. }
    cbn [fmap option_fmap option_map mbind option_bind canonicalize] in Hg.
    rewrite (compose_members_flat canonicalize gs []) in Hg; [|by eapply Forall_impl; [apply Cgs|]; apply canonicalize_id|done].
    cbn [mbind option_bind app] in Hg.
    assert (length (sort_by print str_compare gs) = length fs) as Hls.
    { rewrite sort_by_length. symmetry. by eapply Forall2_length. }
    destruct (sort_by print str_compare gs) as [|x [|y l]] eqn:Es; simpl in Hls; [lia..|].
    injection Hg as <-. rewrite <-Es in *. pose proof (sort_by_perm print str_compare gs) as Hperm.
    split; [|split; [done|]].
    + cbn [canonical]. split; [rewrite sort_by_length; apply Forall2_length in Em; lia|].
      split; [by rewrite Hperm|]. split; [apply sort_by_sorted; apply _|].
      apply foldr_and_Forall. by rewrite Hperm.
    + exists gs. split; [done|]. exact Em.
  - destruct (mapM invert fs) as [gs|] eqn:Em; [|done]. apply mapM_maps in Em.
    destruct Hc as (Hl & Hne & Hs & Hcs). apply foldr_and_Forall in Hcs.
    destruct (Forall2_dual (λ _, True) fs gs) as [Cgs Dgs]; [|done..|].
    { eapply Forall_impl; [apply IH|]. intros f Hf Hcf g' Hg'. by destruct (Hf g' Hcf Hg') as (? & ? & _). }
    cbn [fmap option_fmap option_map mbind option_bind] in Hg.
    assert (canonical (Chain (reverse gs))) as Hcan.
    { cbn [canonical]. split; [rewrite length_reverse; apply Forall2_length in Em; lia|]. split.
      - rewrite Forall_reverse. clear - Dgs Hne. induction Dgs as [|f g fs gs Hd _ IHd]; [constructor|].
        apply Forall_cons in Hne as [? ?]. constructor; [by rewrite (dual_chain_or_unit f g)|auto].
      - split; [by eapply dual_sorted|]. apply foldr_and_Forall. by rewrite Forall_reverse. }
    rewrite canonicalize_id in Hg by done. injection Hg as <-. split; [done|]. split; [done|]. by exists gs.
  - by simplify_eq/=.
  - by simplify_eq/=.
Qed.

(** ** Images *)

(** At every composition the members write to different places. *)
Fixpoint images_apart (f : Filter) : Prop :=
  match f with
  | Compose fs =>
      (∀ f1 f2, [f1; f2] `sublist_of` fs → ∀ s1 s2 d, may_map f1 s1 d → ¬ may_map f2 s2 d)
      ∧ foldr (λ g P, images_apart g ∧ P) True fs
  | Chain fs => foldr (λ g P, images_apart g ∧ P) True fs
  | _ => True
  end.

Lemma perm_pair {A} (l k : list A) x y :
  l ≡ₚ k → [x; y] `sublist_of` l → [x; y] `sublist_of` k ∨ [y; x] `sublist_of` k.
Proof.
  intros Hp. revert x y. induction Hp as [|a l k Hp IH|a b l|l k m _ IH1 _ IH2]; intros x y Hs.
  - by left.
  - apply sublist_cons_r in Hs as [Hs|(l' & E & Hs)].
    + destruct (IH x y Hs); [left|right]; by constructor.
    + simplify_eq. rewrite singleton_sublist_l, Hp in Hs. left. constructor. by apply singleton_sublist_l.
  - apply sublist_cons_r in Hs as [Hs|(l' & E & Hs)].
    + apply sublist_cons_r in Hs as [Hs|(l' & E & Hs)]; [left; by do 2 constructor|].
      simplify_eq. left. constructor. by constructor.
    + simplify_eq. apply sublist_cons_r in Hs as [Hs|(l' & E & Hs)].
      * left. constructor. by constructor.
      * simplify_eq. right. do 2 constructor. apply sublist_nil_l.
  - destruct (IH1 x y Hs) as [H1|H1]; [by apply IH2|]. destruct (IH2 y x H1); auto.
Qed.

Lemma members_apart_pair fs f1 f2 s d d' :
  members_apart fs → [f1; f2] `sublist_of` fs → may_map f1 s d → ¬ may_map f2 s d'.
Proof.
  induction fs as [|f fs IH]; intros Ha Hs; [by apply sublist_nil_r in Hs|].
  destruct Ha as [Hf Ha]. apply sublist_cons_r in Hs as [Hs|(l' & E & Hs)]; [by apply IH|].
  simplify_eq. apply singleton_sublist_l in Hs. by apply Hf.
Qed.

(** A check of the inverse is a check of the images. *)
Lemma source_disjoint_images f g :
  canonical f → invert f = Some g → source_disjoint g → images_apart f.
Proof.
  revert g. induction f as [p|p|sels|fs IH|fs IH| |] using filter_ind; intros g Hc Hg Hd; try done.
  - destruct (inverse_canonical _ _ Hc Hg) as (_ & Hdual & Hparts). destruct g as [| | |gs'| | |]; try done.
    destruct Hparts as (gs & Hperm & H2). destruct Hd as [Hap Hd].
    destruct Hc as (_ & _ & _ & Hcs). apply foldr_and_Forall in Hcs, Hd. rewrite <-Hperm in Hd.
    split.
    + intros f1 f2 Hs s1 s2 d H1 Hd2. assert (Forall2 (λ g f, invert f = Some g) gs fs) as H2' by by apply Forall2_flip.
      destruct (Forall2_sublist _ _ _ _ H2' Hs) as (l & Hl & HR).
      apply Forall2_cons_inv_r in HR as (g1 & l1 & Hg1 & HR & ->).
      apply Forall2_cons_inv_r in HR as (g2 & l2 & Hg2 & HR & ->). apply Forall2_nil_inv_r in HR as ->.
      rewrite <-(invert_maps f1 g1 Hg1) in H1. rewrite <-(invert_maps f2 g2 Hg2) in Hd2.
      destruct (perm_pair _ _ _ _ Hperm Hl) as [Hl'|Hl']; by eapply members_apart_pair.
    + apply foldr_and_Forall. clear - IH H2 Hcs Hd. induction H2 as [|f g fs gs Hg _ IHl]; [constructor|].
      apply Forall_cons in IH as [IHf IH], Hcs as [Hf Hcs], Hd as [Hdg Hd].
      constructor; [by apply (IHf g)|by apply IHl].
  - destruct (inverse_canonical _ _ Hc Hg) as (_ & Hdual & Hparts). destruct g as [| | | |gs'| |]; try done.
    destruct Hparts as (gs & -> & H2). cbn [source_disjoint] in Hd.
    destruct Hc as (_ & _ & _ & Hcs). apply foldr_and_Forall in Hcs, Hd. rewrite Forall_reverse in Hd.
    apply foldr_and_Forall. clear - IH H2 Hcs Hd. induction H2 as [|f g fs gs Hg _ IHl]; [constructor|].
    apply Forall_cons in IH as [IHf IH], Hcs as [Hf Hcs], Hd as [Hdg Hd].
      constructor; [by apply (IHf g)|by apply IHl].
Qed.

(** What is below a mapped path is mapped below it. *)
Lemma may_map_app f s d x : may_map f s d → may_map f (s ++ x) (d ++ x).
Proof.
  revert s d. induction f as [p|p|sels|fs IH|fs IH| |] using filter_ind; intros s d Hm; try done.
  - simpl in *. subst. by rewrite app_assoc.
  - simpl in *. subst. by rewrite app_assoc.
  - apply may_exclude in Hm as ->. by apply may_exclude.
  - induction IH as [|f fs Hf _ IHfs]; [done|]. destruct Hm as [Hm|Hm]; [left; auto|right; by apply IHfs].
  - revert s Hm. induction IH as [|f fs Hf _ IHfs]; intros s Hm; [by simpl in *; subst|].
    destruct Hm as (m & Hm & Hd). exists (m ++ x). split; [auto|by apply IHfs].
  - simpl in *. by subst.
Qed.

Lemma image_may_map f L d : image_of f L d → ∃ s, may_map f s d.
Proof. intros (s & _ & Hs). exists s. by eapply maps_may_map, shows_maps. Qed.

Lemma images_apart_no_clash f L : images_apart f → ¬ clashes f L.
Proof.
  revert L. induction f as [p|p|sels|fs IH|fs IH| |] using filter_ind; intros L Ha Hcl; try done.
  - destruct Ha as [Hap Ha]. apply foldr_and_Forall in Ha.
    destruct Hcl as [Hcl|(f1 & f2 & Hs & d1 & d2 & H1 & H2 & Hp)].
    + clear Hap. induction IH as [|f fs Hf _ IHfs]; [done|]. apply Forall_cons in Ha as [Haf Ha].
      destruct Hcl as [Hcl|Hcl]; [by eapply Hf|by apply IHfs].
    + apply image_may_map in H1 as [s1 H1], H2 as [s2 H2].
      destruct Hp as [[x ->]|[x ->]]; [eapply (Hap f1 f2 Hs _ _ _ (may_map_app f1 s1 d1 x H1) H2)|].
      eapply (Hap f1 f2 Hs _ _ _ H1 (may_map_app f2 s2 d2 x H2)).
  - cbn [images_apart] in Ha. apply foldr_and_Forall in Ha. cbn [clashes] in Hcl. revert L Hcl.
    induction IH as [|f fs Hf _ IHfs]; intros L Hcl; [done|]. apply Forall_cons in Ha as [Haf Ha].
    destruct Hcl as [Hcl|Hcl]; [by eapply Hf|by eapply IHfs].
Qed.

(** The evaluation of a registered filter never finds a clash. *)
Lemma registered_no_clash f config r L :
  canonical f → validate_for_registration f config = Ok r → ¬ clashes f L.
Proof.
  intros Hcan Hr. apply validate_Ok in Hr as (c & inv & sgs & dgs & Hc & Hi & _ & _ & _ & Hd & Hdo & _).
  rewrite canonicalize_id in Hc by done. injection Hc as <-.
  apply images_apart_no_clash, (source_disjoint_images f inv Hcan Hi).
  eapply groups_disjoint; [|apply Hd|apply Hdo].
  destruct (inverse_canonical f inv Hcan Hi) as (Hcan' & _). by apply canonical_wf.
Qed.
