(* ===== verification/ViewTreeDemo.v ===== *)
(** * A concrete object format

    An instance of [GitObjects] with its laws, on which the witnesses of the projection
    run: an identifier is the data itself, and an entry is its mode, its name and its
    identifier with their lengths. *)
From stdpp Require Import base strings numbers tactics list sorting gmap.
From S2P Require Import Prelude Text FilterSyntax GitObjects TreeSource ViewMemo ViewTree FileTree.
From S2P Require Import ViewTreeOps.

Definition mode_code (m : TreeItemMode) : N :=
  match m with ModeBlob => 1 | ModeBlobExecutable => 2 | ModeTree => 3 | ModeCommit => 4 | ModeLink => 5 end.

Definition mode_decode (n : N) : option TreeItemMode :=
  match n with
  | 1%N => Some ModeBlob | 2%N => Some ModeBlobExecutable | 3%N => Some ModeTree
  | 4%N => Some ModeCommit | 5%N => Some ModeLink | _ => None
  end.

Definition encode_item (it : TreeItem (list N)) : list N :=
  mode_code (item_mode it) :: N.of_nat (length (item_name it)) :: N.of_nat (length (item_id it))
  :: item_name it ++ item_id it.

Fixpoint decode_items (fuel : nat) (d : list N) : option (list (TreeItem (list N))) :=
  match fuel, d with
  | _, [] => Some []
  | S fuel, m :: n :: h :: d =>
      mode ← mode_decode m;
      let name := take (N.to_nat n) d in
      let rest := drop (N.to_nat n) d in
      its ← decode_items fuel (drop (N.to_nat h) rest);
      if contains_char 0 name then None
      else Some (mk_TreeItem mode (take (N.to_nat h) rest) name :: its)
  | _, _ => None
  end.

#[export] Instance demo_objects : GitObjects := {|
  ObjectHash := list N;
  hash_to_string h := h;
  from_hex_for_kind := Some;
  hash_tree_data := Some;
  hash_commit_data d := Some (0%N :: d);
  tree_to_data its := Some (concat (map encode_item its));
  tree_from_bytes d := decode_items (length d) d;
  tree_id_of_items its := match its with [] => None | _ => Some (concat (map encode_item its)) end;
|}.

Lemma decode_encode fuel its :
  Forall storable its → length (concat (map encode_item its)) ≤ fuel →
  decode_items fuel (concat (map encode_item its)) = Some its.
Proof.
  intros Hs. revert fuel. induction Hs as [|[m h n] its Hn _ IH]; intros fuel Hf; [by destruct fuel|].
  destruct fuel as [|fuel]; [simpl in Hf; lia|]. simpl in *.
  replace (mode_decode (mode_code m)) with (Some m) by by destruct m.
  rewrite !Nat2N.id, <-!app_assoc, take_app_length, !drop_app_length, take_app_length. simpl.
  rewrite IH by (rewrite !length_app in Hf; lia). simpl.
  by rewrite (proj2 (contains_char_false 0 n)).
Qed.

Lemma decode_storable fuel d its : decode_items fuel d = Some its → Forall storable its.
Proof.
  revert d its. induction fuel as [|fuel IH]; intros [|m [|n [|h d]]] its E; simplify_eq/=; try constructor.
  destruct (mode_decode m); [|done]. simpl in E. destruct (decode_items fuel _) as [its'|] eqn:Ed; [|done].
  simpl in E. destruct (contains_char 0 _) eqn:Ec; [done|]. simplify_eq.
  constructor; [|by eapply IH]. by apply contains_char_false.
Qed.

#[export] Instance demo_laws : GitLaws.
Proof.
  split.
  - done.
  - intros d. by exists d.
  - intros d1 d2 h [= ->] [= ->]. done.
  - done.
  - intros its Hs. eexists. split; [done|]. by apply decode_encode.
  - intros d its. apply decode_storable.
  - intros its d Hne [= <-]. by destruct its.
Qed.

(** The first key in the order of the map. *)
Definition demo_first_key (es : memo_entries) : option MemoKey := head (map_to_list es).*1.

#[export] Instance demo_first_key_ok : FirstKey demo_first_key.
Proof.
  unfold demo_first_key. split.
  - intros es E. apply map_to_list_empty_iff. by destruct (map_to_list es).
  - intros es k E. destruct (map_to_list es) as [|[k' v] l] eqn:El; simplify_eq/=.
    exists v. apply elem_of_map_to_list. rewrite El. by left.
Qed.

(** A store of trees. *)
Definition demo_store (ts : list dir) : gmap text bytes :=
  list_to_map (map (λ t, (dir_id t, concat (map encode_item (map entry_item t)))) ts).

Lemma demo_store_sound ts : Forall dir_wf ts → trees_sound (demo_store ts).
Proof.
  intros W id d E. apply elem_of_list_to_map_2, list_elem_of_fmap in E as (t & [= -> ->] & Ht).
  rewrite Forall_forall in W. exists t. auto.
Qed.

(** The capacity of the service. *)
#[export] Instance demo_capacity : MemoCapacity := FILTER_TREE_MEMO_CAPACITY_BYTES.

Lemma default_memo_ok : memo_ok default_memo.
Proof. apply with_capacity_ok. reflexivity. Qed.

(** Proves [dir_wf] of a concrete tree. *)
Ltac dir_wf_by_computation :=
  repeat match goal with
  | |- _ ∧ _ => split
  | |- True => exact I
  | |- NoDup _ => apply (bool_decide_unpack _); vm_compute; exact I
  | |- _ ∉ _ => apply (bool_decide_unpack _); vm_compute; exact I
  | |- _ ≠ _ => discriminate
  | _ => progress cbn [node_wf foldr fst snd]
  end.
