(* ===== verification/ViewTreeTheorems.v ===== *)
(** * The tree projection: theorems

    [filter_tree] refines the relation [shows]; its result does not depend on the memo;
    registered views are always projected; the memo stays right and within its budget. *)
From stdpp Require Import base strings numbers tactics list sorting gmap.
From S2P Require Import Prelude Text FilterSyntax FilterParse FilterRoundTrip FilterCanonical.
From S2P Require Import FilterSemantics FilterMeaning MonoPath FilterValidate.
From S2P Require Import GitObjects TreeSource ViewMemo ViewTree FileTree ViewShows ViewTreeOps.
From S2P Require Import ViewTreeEval ViewRegistered ViewTreeDemo.

#[local] Arguments grown : simpl never.

Section Theorems.
Context {GO : GitObjects} {GL : GitLaws} {MC : MemoCapacity}.
Context (first_key : memo_entries → option MemoKey) `{!FirstKey first_key}.

(** ** Requests *)

(** One projection: the trees loaded for it, the filter and the input tree. *)
Record request := mk_request {
  req_source : TreeSource; req_fuel : nat; req_filter : Filter; req_tree : dir;
}.

Definition request_ok (r : request) : Prop :=
  source_sound (req_source r) ∧ printable (req_filter r) ∧ dir_wf (req_tree r).

(** The memo after a sequence of projections, failed ones included. *)
Definition memo_after (m : FilterMemo) (rs : list request) : FilterMemo :=
  fold_left (λ m r, (filter_tree first_key (req_source r) (req_fuel r) m (req_filter r)
                       (dir_id (req_tree r))).1) rs m.

Lemma memo_after_ok m rs : memo_ok m → Forall request_ok rs → memo_ok (memo_after m rs).
Proof.
  intros Hm Hrs. revert m Hm. induction Hrs as [|r rs (Hs & Hp & Hw) _ IH]; intros m Hm; [done|].
  simpl. apply IH.
  pose proof (filter_tree_outcome (req_source r) Hs first_key (req_fuel r) m (req_filter r) (req_tree r) Hp Hw Hm) as Ho.
  destruct (filter_tree _ _ _ _ _ _) as [m' o]. by destruct Ho.
Qed.

(** ** Properties *)

Section Projection.
Context (source : TreeSource) (Hsource : source_sound source).

(** The trees of an output, over the source, hold every directory of the view. *)
Lemma grown_complete T nd :
  trees_sound T → node_wf nd → grown T (complete source) nd →
  node_complete (overlay_read_tree source T) nd.
Proof.
  intros HT. induction nd as [m h|es IH] using node_ind'; intros W Hg; [done|].
  change (dir_wf es) in W. cbn [node_complete]. rewrite foldr_and. split.
  - rewrite read_tree_cases by done. case_decide as E; [by eexists|]. unfold overlay_read_tree.
    destruct (T !! dir_id es) as [d|] eqn:Et.
    { rewrite (parse_dir es d); [by eexists|done|]. by eapply trees_sound_lookup. }
    apply grown_Dir in Hg as [[[t Ht] _]|[?|[[? ?] _]]]; [|done|congruence].
    rewrite read_tree_cases, decide_False in Ht by done. by exists t.
  - apply Forall_forall. intros [n nd] Hin. rewrite Forall_forall in IH. apply (IH _ Hin).
    + by apply (dir_wf_elem es n nd).
    + exact (grown_child _ _ es n nd (complete_closed source) Hg Hin).
Qed.

(** C5: a projected tree shows exactly the files that the filter shows, with any memo
    that is right and any source that returns the trees it is asked for, however few of
    them it has; and if the source holds the whole input tree, the trees of the output
    complete it to a store of the whole view. *)
Theorem view_tree_exact fuel m f t m' o :
  memo_ok m → printable f → dir_wf t →
  filter_tree first_key source fuel m f (dir_id t) = (m', Ok o) →
  ∃ t', output_tree_id o = dir_id t' ∧ dir_wf t'
    ∧ (∀ d b, file_at t' d = Some b ↔ ∃ s, shows f s d ∧ file_at t s = Some b)
    ∧ (complete source t → complete (overlay_read_tree source (output_trees o)) t').
Proof.
  intros Hm Pf W E. pose proof (filter_tree_outcome source Hsource first_key fuel m f t Pf W Hm) as Ho.
  rewrite E in Ho. destruct Ho as (_ & HT & t' & Hid & (W' & Hi & _) & Hg). exists t'.
  split; [done|]. split; [done|]. split; [exact Hi|]. intros Hc. apply grown_complete; [done..|].
  eapply grown_mono; [|intros es Hes|apply Hg]; [done|]. simpl.
  eapply grown_within; [apply complete_closed| |apply Hes]. by left.
Qed.

(** C38: projecting a tree in Git's normal form (entries in order, no empty directories)
    gives a tree in normal form, no deeper than the input by more than the prefixes of
    the filter. *)
Theorem view_tree_normal fuel m f t m' o :
  memo_ok m → printable f → dir_wf t → normal t →
  filter_tree first_key source fuel m f (dir_id t) = (m', Ok o) →
  ∃ t', output_tree_id o = dir_id t' ∧ dir_wf t' ∧ normal t'
    ∧ height (Dir t') ≤ height (Dir t) + growth f.
Proof.
  intros Hm Pf W Hn E. pose proof (filter_tree_outcome source Hsource first_key fuel m f t Pf W Hm) as Ho.
  rewrite E in Ho. destruct Ho as (_ & _ & t' & Hid & (W' & _ & Hn' & Hh) & _). exists t'. auto.
Qed.

(** C36: a filter that registration accepts is projected whenever its source is whole:
    on a tree in normal form the evaluation returns an output, with a bound on its
    recursion. *)
Theorem registered_view_projects config r fuel m f t :
  canonical f → validate_for_registration f config = Ok r → memo_ok m →
  dir_wf t → normal t → complete source t → height (Dir t) + growth f ≤ fuel →
  ∃ m' o, filter_tree first_key source fuel m f (dir_id t) = (m', Ok o) ∧ memo_ok m'.
Proof.
  intros Hcan Hr Hm W Hn Hc Hf.
  pose proof (filter_tree_outcome source Hsource first_key fuel m f t (canonical_printable f Hcan) W Hm) as Ho.
  destruct (filter_tree _ _ _ _ _ _) as [m' [o|[]| |]]; destruct Ho as [Hm' Ho].
  - by exists m', o.
  - by destruct (Ho Hc).
  - by destruct (registered_no_clash f config r (files t) Hcan Hr (Ho Hn)).
  - done.
  - lia.
Qed.

(** An evaluation fails only with cause: for a tree that the source lacks, or for
    members of a composition that put a file and something at or below it into the same
    place.  It never panics, and the memo stays right. *)
Theorem view_tree_failures fuel m f t m' e :
  memo_ok m → printable f → dir_wf t → normal t → height (Dir t) + growth f ≤ fuel →
  filter_tree first_key source fuel m f (dir_id t) = (m', e) → (∀ o, e ≠ Ok o) →
  memo_ok m' ∧ ((∃ missing, e = Err (Missing missing) ∧ ¬ complete source t)
                ∨ (e = Err Invariant ∧ clashes f (files t))).
Proof.
  intros Hm Pf W Hn Hf E Hne. pose proof (filter_tree_outcome source Hsource first_key fuel m f t Pf W Hm) as Ho.
  rewrite E in Ho. destruct Ho as [Hm' Ho]. split; [done|].
  destruct e as [o|[mo|]| |]; [by destruct (Hne o)|by left; exists mo|by right; auto|done|lia].
Qed.
End Projection.

(** The identifier of a projected tree is a function of the files it shows: two
    evaluations, with different filters, trees, sources, memos and orders of eviction,
    return the same tree if they show the same files.  In particular the memo never
    changes a result. *)
Theorem view_tree_determined first_key' `{!FirstKey first_key'} source source' fuel fuel'
    m m' f f' t t' m1 m2 o o' :
  source_sound source → source_sound source' → memo_ok m → memo_ok m' →
  printable f → printable f' → dir_wf t → dir_wf t' → normal t → normal t' →
  (∀ d b, (∃ s, shows f s d ∧ file_at t s = Some b) ↔ (∃ s, shows f' s d ∧ file_at t' s = Some b)) →
  filter_tree first_key source fuel m f (dir_id t) = (m1, Ok o) →
  filter_tree first_key' source' fuel' m' f' (dir_id t') = (m2, Ok o') →
  output_tree_id o = output_tree_id o'.
Proof.
  intros Hs Hs' Hm Hm' Pf Pf' W W' Hn Hn' Hsame E E'.
  pose proof (filter_tree_outcome source Hs first_key fuel m f t Pf W Hm) as Ho.
  pose proof (filter_tree_outcome source' Hs' first_key' fuel' m' f' t' Pf' W' Hm') as Ho'.
  rewrite E in Ho. rewrite E' in Ho'. destruct Ho as (_ & _ & v & -> & (Wv & Iv & Nv & _) & _).
  destruct Ho' as (_ & _ & v' & -> & (Wv' & Iv' & Nv' & _) & _). f_equal.
  apply normal_unique; [done|done|by auto|by auto|]. intros d. apply option_eq. intros b.
  rewrite (Iv d b), (Iv' d b). apply Hsame.
Qed.

(** C40: the memo stays right and within its budget over any sequence of projections,
    failed ones included: the bytes it counts are those of its entries and never exceed
    the capacity. *)
Theorem memo_budget rs :
  (memo_capacity < usize_max)%N → Forall request_ok rs →
  let m := memo_after (with_capacity memo_capacity) rs in
  memo_ok m ∧ used_bytes m = entries_bytes (entries m) ∧ (used_bytes m <= memo_capacity)%N.
Proof.
  intros Hc Hrs m. assert (memo_ok m) as Hm by (apply memo_after_ok; [by apply with_capacity_ok|done]).
  split; [done|]. destruct Hm as [(Hu & <- & [Hle _] & _) _]. done.
Qed.
End Theorems.

(** ** Witnesses *)

Definition demo_a : dir := [(lit "f", File ModeBlob [2%N])].
Definition demo_b : dir := [(lit "g", File ModeLink [3%N])].
Definition demo_project : dir := [(lit "a", Dir demo_a); (lit "b", Dir demo_b)].
Definition demo_tree : dir := [(lit "README", File ModeBlob [1%N]); (lit "project", Dir demo_project)].

Definition demo_memory (dirs : list dir) : InMemoryTreeSource :=
  mk_InMemoryTreeSource (demo_store dirs) ∅.
Definition demo_source : TreeSource :=
  in_memory_read_tree (demo_memory [demo_tree; demo_project; demo_a; demo_b]).
(** Only the root was loaded. *)
Definition demo_partial : TreeSource := in_memory_read_tree (demo_memory [demo_tree]).

Definition demo_project_tree (source : TreeSource) (m : FilterMemo)
    : FilterMemo * outcome FilterTreeError FilterOutput :=
  filter_tree demo_first_key source 10 m demo_registered (dir_id demo_tree).

Lemma demo_dirs_wf : Forall dir_wf [demo_tree; demo_project; demo_a; demo_b].
Proof. repeat constructor; unfold dir_wf; dir_wf_by_computation. Qed.

Lemma demo_tree_wf : dir_wf demo_tree.
Proof. by destruct (Forall_inv demo_dirs_wf). Qed.

Lemma demo_source_sound : source_sound demo_source.
Proof. apply in_memory_sound, demo_store_sound, demo_dirs_wf. Qed.

Lemma demo_partial_sound : source_sound demo_partial.
Proof. apply in_memory_sound, demo_store_sound. repeat constructor; unfold dir_wf; dir_wf_by_computation. Qed.

Lemma demo_tree_normal : normal demo_tree.
Proof.
  unfold normal. cbn [node_normal foldr fst snd demo_tree demo_project demo_a demo_b].
  repeat match goal with
  | |- _ ∧ _ => split
  | |- StronglySorted _ _ => constructor
  | |- Forall _ _ => constructor
  | |- entry_le _ _ => vm_compute; reflexivity
  | |- _ ≠ _ => discriminate
  | |- True => exact I
  end.
Qed.

Lemma demo_tree_complete : complete demo_source demo_tree.
Proof. vm_compute. repeat split; eexists; reflexivity. Qed.

Lemma demo_registered_canonical : canonical demo_registered.
Proof.
  cbn [canonical demo_registered foldr].
  repeat match goal with
  | |- _ ∧ _ => split
  | |- StronglySorted _ _ => constructor
  | |- Sorted _ _ => constructor
  | |- HdRel _ _ _ => constructor
  | |- Forall _ _ => constructor
  | |- _ => solve [done | vm_compute; reflexivity | simpl; lia]
  end.
Qed.

(** The outcome of a first run, and of a second one that has only the root of the tree
    and finds the rest in the memo. *)
Definition demo_run1 := demo_project_tree demo_source default_memo.
Definition demo_run2 := demo_project_tree demo_partial demo_run1.1.

Definition run_output (r : FilterMemo * outcome FilterTreeError FilterOutput) : FilterOutput :=
  match r.2 with Ok o => o | _ => mk_FilterOutput [] ∅ end.

Lemma run_output_eq (r : FilterMemo * outcome FilterTreeError FilterOutput) :
  match r.2 with Ok _ => true | _ => false end = true → r = (r.1, Ok (run_output r)).
Proof. by destruct r as [m [o| | |]]. Qed.

Lemma demo_run1_eq : demo_run1 = (demo_run1.1, Ok (run_output demo_run1)).
Proof. apply run_output_eq. vm_compute. reflexivity. Qed.

Lemma demo_run2_eq : demo_run2 = (demo_run2.1, Ok (run_output demo_run2)).
Proof. apply run_output_eq. vm_compute. reflexivity. Qed.

Lemma demo_printable : printable demo_registered.
Proof. exact (canonical_printable _ demo_registered_canonical). Qed.

Lemma demo_memo_ok : memo_ok demo_run1.1.
Proof.
  apply (memo_after_ok demo_first_key default_memo [mk_request demo_source 10 demo_registered demo_tree]
    default_memo_ok).
  constructor; [|constructor]. exact (conj demo_source_sound (conj demo_printable demo_tree_wf)).
Qed.

Lemma demo_shows : shows demo_registered [lit "project"; lit "a"; lit "f"] [lit "x"; lit "f"].
Proof. left. exists [lit "f"]. split; [by split|]. exists [lit "x"; lit "f"]. by split. Qed.

Lemma view_tree_exact_witness :
  output_tree_id (run_output demo_run1) = dir_id [(lit "x", Dir demo_a); (lit "y", Dir demo_b)]
  ∧ ∃ t', output_tree_id (run_output demo_run1) = dir_id t'
      ∧ file_at t' [lit "x"; lit "f"] = Some (ModeBlob, [2%N]).
Proof.
  split; [vm_compute; reflexivity|].
  destruct (view_tree_exact demo_first_key demo_source demo_source_sound 10 default_memo demo_registered
    demo_tree demo_run1.1 (run_output demo_run1) default_memo_ok demo_printable demo_tree_wf demo_run1_eq)
    as (t' & Hid & _ & Hf & _).
  exists t'. split; [exact Hid|]. apply Hf. exists [lit "project"; lit "a"; lit "f"].
  split; [exact demo_shows|reflexivity].
Defined.

Lemma view_tree_normal_witness :
  ∃ t', output_tree_id (run_output demo_run1) = dir_id t' ∧ normal t'.
Proof.
  destruct (view_tree_normal demo_first_key demo_source demo_source_sound 10 default_memo demo_registered
    demo_tree demo_run1.1 (run_output demo_run1) default_memo_ok demo_printable demo_tree_wf
    demo_tree_normal demo_run1_eq) as (t' & Hid & _ & Hn & _). exists t'. exact (conj Hid Hn).
Defined.

Lemma registered_view_projects_witness :
  ∃ m' o, filter_tree demo_first_key demo_source 10 default_memo demo_registered (dir_id demo_tree)
          = (m', Ok o) ∧ memo_ok m'.
Proof.
  apply (registered_view_projects demo_first_key demo_source demo_source_sound demo_config
    (mk_RegistrationCheck [lit "/project/a"; lit "/project/b"] true) 10 default_memo demo_registered demo_tree).
  - exact demo_registered_canonical.
  - vm_compute. reflexivity.
  - exact default_memo_ok.
  - exact demo_tree_wf.
  - exact demo_tree_normal.
  - exact demo_tree_complete.
  - apply (bool_decide_unpack _). vm_compute. exact I.
Defined.

Definition demo_missing : outcome FilterTreeError FilterOutput :=
  Err (Missing (mk_MissingObject (dir_id demo_project) Unprefetched)).

Lemma demo_partial_eq :
  demo_project_tree demo_partial default_memo = ((demo_project_tree demo_partial default_memo).1, demo_missing).
Proof.
  apply injective_projections; [reflexivity|]. vm_compute. reflexivity.
Qed.

Lemma view_tree_failures_witness : memo_ok (demo_project_tree demo_partial default_memo).1.
Proof.
  apply (view_tree_failures demo_first_key demo_partial demo_partial_sound 10 default_memo demo_registered
    demo_tree (demo_project_tree demo_partial default_memo).1 demo_missing default_memo_ok demo_printable
    demo_tree_wf demo_tree_normal).
  - apply (bool_decide_unpack _). vm_compute. exact I.
  - exact demo_partial_eq.
  - intros o. discriminate.
Defined.

Lemma view_tree_determined_witness :
  output_tree_id (run_output demo_run1) = output_tree_id (run_output demo_run2).
Proof.
  apply (view_tree_determined demo_first_key demo_first_key demo_source demo_partial 10 10
    default_memo demo_run1.1 demo_registered demo_registered demo_tree demo_tree demo_run1.1 demo_run2.1
    (run_output demo_run1) (run_output demo_run2)
    demo_source_sound demo_partial_sound default_memo_ok demo_memo_ok demo_printable demo_printable
    demo_tree_wf demo_tree_wf demo_tree_normal demo_tree_normal).
  - intros d b. reflexivity.
  - exact demo_run1_eq.
  - exact demo_run2_eq.
Defined.

Lemma memo_budget_witness :
  let rs := [mk_request demo_source 10 demo_registered demo_tree;
             mk_request demo_partial 10 demo_registered demo_tree] in
  let m := memo_after demo_first_key default_memo rs in
  memo_ok m ∧ used_bytes m = entries_bytes (entries m) ∧ (used_bytes m <= 67108864)%N.
Proof.
  apply (memo_budget demo_first_key [mk_request demo_source 10 demo_registered demo_tree;
             mk_request demo_partial 10 demo_registered demo_tree]); [reflexivity|].
  constructor; [|constructor; [|constructor]].
  - exact (conj demo_source_sound (conj demo_printable demo_tree_wf)).
  - exact (conj demo_partial_sound (conj demo_printable demo_tree_wf)).
Defined.
