(* ===== verification/ViewCommit.v ===== *)
(** * Rewriting a commit for a view

    Models [src/ceres/view/commit.rs] and [rebuild_canonical_commit_bytes] of
    [src/ceres/merge_checker/gpg_signature_checker.rs]: a commit of the view has the
    author, committer and message of the commit it projects, its own tree and parents,
    and no signature.  The signature headers that [strip_signature_headers] drops are
    those that [split_commit_message] of [src/common/utils.rs] would find. *)
From stdpp Require Import base strings numbers tactics list sorting gmap.
From S2P Require Import Prelude Text CommitMessage CanonicalJson GitObjects.

(** [mega_commit::Model], the columns that are read. *)
Record CommitRow := mk_CommitRow {
  commit_id : text;
  commit_tree : text;
  parents_id : Canonical;
  author : option text;
  committer : option text;
  content : option text;
}.

Inductive RewriteError :=
  | PremiseMismatch (commit_id : text)
  | CorruptRow (commit_id : text).

(** [serde_json::from_value::<Vec<String>>] *)
Definition string_array (v : Canonical) : option (list text) :=
  match v with
  | Array items => mapM (λ i, match i with String s => Some s | _ => None end) items
  | _ => None
  end.

Definition parent_lines (parents : list text) : text :=
  parents ≫= λ parent, lit "parent " ++ parent ++ [newline].

Definition rebuild_canonical_commit_bytes (row : CommitRow) : option text :=
  parents ← string_array (parents_id row);
  Some (lit "tree " ++ commit_tree row ++ [newline] ++ parent_lines parents
        ++ default [] (author row) ++ [newline] ++ default [] (committer row) ++ [newline]
        ++ default [] (content row)).

(** The key of the line is compared with ASCII names, so its bytes are taken for its
    characters. *)
Definition signature_header_line (line : bytes) : bool :=
  match split_once space line with
  | None => false
  | Some (key, _) => is_signature_header key
  end.

(** The loop over the lines from the cursor: the pieces between line feeds, of which
    the last has none after it. *)
Fixpoint strip_lines (input : bytes) (pieces : list bytes) (skip : bool) (output : bytes) : bytes :=
  match pieces with
  | [] | [_] => input
  | line :: rest =>
      if bool_decide (line = []) then output ++ newline :: join newline rest
      else
        let skip := if starts_with [space] line then skip else signature_header_line line in
        strip_lines input rest skip (if skip then output else output ++ line ++ [newline])
  end.

Definition strip_signature_headers (input : bytes) : bytes :=
  strip_lines input (split_on newline input) false [].

Definition rebuild_rewritten_bytes (row : CommitRow) (tree : text) (parents : list text) : bytes :=
  utf8 (lit "tree ") ++ utf8 tree ++ [newline]
  ++ (parents ≫= λ parent, utf8 (lit "parent ") ++ utf8 parent ++ [newline])
  ++ utf8 (default [] (author row)) ++ [newline] ++ utf8 (default [] (committer row)) ++ [newline]
  ++ strip_signature_headers (utf8 (default [] (content row))).

Section Rewrite.
Context {GO : GitObjects}.

Definition rewrite_commit (row : CommitRow) (tree : text) (parents : list text)
    : RewriteError + (ObjectHash * bytes) :=
  match rebuild_canonical_commit_bytes row with
  | None => inl (CorruptRow (commit_id row))
  | Some original =>
      match hash_commit_data (utf8 original) with
      | None => inl (PremiseMismatch (commit_id row))
      | Some original_id =>
          if negb (bool_decide (hash_to_string original_id = commit_id row))
          then inl (PremiseMismatch (commit_id row))
          else
            let bytes := rebuild_rewritten_bytes row tree parents in
            match hash_commit_data bytes with
            | None => inl (PremiseMismatch (commit_id row))
            | Some id => inr (id, bytes)
            end
      end
  end.
End Rewrite.

(** ** Header blocks *)

(** Header lines, a blank line and a body. *)
Definition message_text (ls : list bytes) (body : bytes) : bytes :=
  (ls ≫= λ l, l ++ [newline]) ++ newline :: body.

Definition header_lines (ls : list bytes) : Prop := Forall (λ l, l ≠ [] ∧ newline ∉ l) ls.

(** The lines that are kept; a header is dropped with its continuation lines. *)
Fixpoint kept_lines (skip : bool) (ls : list bytes) : list bytes :=
  match ls with
  | [] => []
  | l :: ls =>
      let skip := if starts_with [space] l then skip else signature_header_line l in
      if skip then kept_lines skip ls else l :: kept_lines skip ls
  end.

Lemma split_on_line l rest : newline ∉ l → split_on newline (l ++ newline :: rest) = l :: split_on newline rest.
Proof. intros Hl. rewrite split_on_sep, split_on_no_sep by done. done. Qed.

Lemma strip_lines_cons input line rest skip output :
  rest ≠ [] →
  strip_lines input (line :: rest) skip output =
  if bool_decide (line = []) then output ++ newline :: join newline rest
  else
    let skip := if starts_with [space] line then skip else signature_header_line line in
    strip_lines input rest skip (if skip then output else output ++ line ++ [newline]).
Proof. by destruct rest. Qed.

Lemma strip_lines_text input ls body skip output :
  header_lines ls →
  strip_lines input (split_on newline (message_text ls body)) skip output
  = output ++ message_text (kept_lines skip ls) body.
Proof.
  intros Hls. revert skip output. induction Hls as [|l ls [Hne Hl] _ IH]; intros skip output.
  - unfold message_text. cbn [mbind list_bind app kept_lines].
    pose proof (split_on_line [] body ltac:(set_solver)) as Hs. cbn [app] in Hs. rewrite Hs.
    rewrite strip_lines_cons by apply split_on_nonempty.
    rewrite bool_decide_eq_true_2 by done. by rewrite join_split.
  - unfold message_text in *. cbn [mbind list_bind]. rewrite <-!app_assoc. cbn [app].
    rewrite (split_on_line l), strip_lines_cons by (done || apply split_on_nonempty).
    rewrite bool_decide_eq_false_2 by done. cbn zeta. cbn [kept_lines].
    rewrite IH. destruct (if starts_with _ _ then _ else _); [done|].
    cbn [mbind list_bind]. by rewrite <-!app_assoc.
Qed.

Lemma pieces_text_or ps :
  Forall (λ l, newline ∉ l) ps →
  (∃ ls body, header_lines ls ∧ join newline ps = message_text ls body)
  ∨ Forall (λ l, l ≠ []) (removelast ps).
Proof.
  induction 1 as [|l ls Hl _ IH]; [by right; constructor|].
  destruct ls as [|l' ls]; [by right; constructor|].
  destruct (decide (l = [])) as [->|Hne].
  { left. exists [], (join newline (l' :: ls)). split; [constructor|done]. }
  destruct IH as [(hs & body & Hh & E)|IH].
  - left. exists (l :: hs), body. split; [by constructor|].
    change (join newline (l :: l' :: ls)) with (l ++ newline :: join newline (l' :: ls)). rewrite E.
    unfold message_text. cbn [mbind list_bind]. by rewrite <-!app_assoc.
  - right. change (Forall (λ l, l ≠ []) (l :: removelast (l' :: ls))). by constructor.
Qed.

(** Every text is a header block or has no blank line. *)
Lemma message_text_or input :
  (∃ ls body, header_lines ls ∧ input = message_text ls body)
  ∨ Forall (λ l, l ≠ []) (removelast (split_on newline input)).
Proof.
  pose proof (pieces_text_or _ (split_on_pieces newline input)) as Hp. by rewrite join_split in Hp.
Qed.

Lemma strip_lines_whole input pieces skip output :
  Forall (λ l, l ≠ []) (removelast pieces) → strip_lines input pieces skip output = input.
Proof.
  revert skip output. induction pieces as [|l [|l' ps] IH]; intros skip output Hp; [done..|].
  change (Forall (λ l, l ≠ []) (l :: removelast (l' :: ps))) in Hp. apply Forall_cons in Hp as [Hl Hp].
  rewrite strip_lines_cons by done. rewrite bool_decide_eq_false_2 by done. by apply IH.
Qed.

Lemma strip_text ls body :
  header_lines ls → strip_signature_headers (message_text ls body) = message_text (kept_lines false ls) body.
Proof. intros Hls. unfold strip_signature_headers. by rewrite strip_lines_text. Qed.

Lemma kept_sublist skip ls : kept_lines skip ls `sublist_of` ls.
Proof.
  revert skip. induction ls as [|l ls IH]; intros skip; [done|]. cbn [kept_lines].
  destruct (if starts_with _ _ then _ else _); by constructor.
Qed.

Lemma kept_header_lines skip ls : header_lines ls → header_lines (kept_lines skip ls).
Proof.
  unfold header_lines. rewrite !Forall_forall. intros Hls l Hin. apply Hls.
  eapply sublist_subseteq; [apply kept_sublist|done].
Qed.

(** ** Signature headers *)

Definition is_continuation (l : text) : bool := starts_with [space] l.

(** No line starts a signature header. *)
Definition unsigned_lines (ls : list bytes) : Prop :=
  Forall (λ l, is_continuation l = true ∨ signature_header_line l = false) ls.

Lemma kept_unsigned skip ls : unsigned_lines (kept_lines skip ls).
Proof.
  revert skip. induction ls as [|l ls IH]; intros skip; [constructor|]. cbn [kept_lines].
  destruct (starts_with [space] l) eqn:Es; [destruct skip|destruct (signature_header_line l) eqn:El];
    try apply IH; constructor; auto; apply IH.
Qed.

Lemma kept_idempotent skip ls : kept_lines false (kept_lines skip ls) = kept_lines skip ls.
Proof.
  revert skip. induction ls as [|l ls IH]; intros skip; [done|]. cbn [kept_lines].
  destruct (starts_with [space] l) eqn:Es; [destruct skip|destruct (signature_header_line l) eqn:El];
    try apply IH; cbn [kept_lines]; rewrite Es, ?El; by rewrite IH.
Qed.

(** The header loop of [split_commit_message] over lines. *)
Fixpoint fold_headers (hs : list (text * text)) (ls : list text) : option (list (text * text)) :=
  match ls with
  | [] => Some hs
  | l :: ls => hs' ← header_line hs l; fold_headers hs' ls
  end.

Lemma message_text_length ls body : length ls < S (length (message_text ls body)).
Proof.
  unfold message_text. rewrite length_app. assert (length ls ≤ length (ls ≫= λ l, l ++ [newline])); [|lia].
  induction ls as [|l ls IH]; [done|]. cbn [mbind list_bind]. rewrite !length_app. cbn [length]. lia.
Qed.

Lemma header_loop_text fuel hs ls body :
  header_lines ls → length ls < fuel →
  header_loop fuel hs (message_text ls body) =
  match fold_headers hs ls with
  | Some hs' => Parts (mk_CommitMessageParts hs' body)
  | None => Whole
  end.
Proof.
  intros Hls. revert fuel hs. induction Hls as [|l ls [Hne Hl] _ IH]; intros fuel hs Hf;
    (destruct fuel as [|fuel]; [simpl in Hf; lia|]).
  - reflexivity.
  - unfold message_text. cbn [mbind list_bind header_loop]. rewrite <-!app_assoc. cbn [app].
    rewrite split_once_app by done. rewrite bool_decide_eq_false_2 by done. cbn [fold_headers].
    destruct (header_line hs l) as [hs'|]; [|done]. cbn [mbind option_bind]. apply IH. simpl in Hf. lia.
Qed.

Lemma split_once_pieces s :
  split_once newline s =
  match split_on newline s with
  | l :: l' :: ls => Some (l, join newline (l' :: ls))
  | _ => None
  end.
Proof.
  induction s as [|c s IH]; [done|]. cbn [split_once split_on].
  destruct (N.eqb_spec c newline) as [->|Hne].
  - pose proof (split_on_nonempty newline s) as Hn. pose proof (join_split newline s) as Hj.
    destruct (split_on newline s) as [|l ls]; [done|]. by rewrite Hj.
  - rewrite IH. destruct (split_on newline s) as [|l [|l' ls]] eqn:E; [by apply split_on_nonempty in E|..]; reflexivity.
Qed.

Lemma header_loop_whole fuel hs s p :
  Forall (λ l, l ≠ []) (removelast (split_on newline s)) → header_loop fuel hs s ≠ Parts p.
Proof.
  revert hs s. induction fuel as [|fuel IH]; intros hs s Hp; [done|]. cbn [header_loop].
  rewrite split_once_pieces. destruct (split_on newline s) as [|l [|l' ls]] eqn:E; [done..|].
  change (Forall (λ l, l ≠ []) (l :: removelast (l' :: ls))) in Hp. apply Forall_cons in Hp as [Hl Hp].
  rewrite bool_decide_eq_false_2 by done. destruct (header_line hs l) as [hs'|]; [|done].
  apply IH. rewrite split_join; [done|done|]. pose proof (split_on_pieces newline s) as Hs. rewrite E in Hs.
  by apply Forall_cons in Hs as [_ Hs].
Qed.

(** [push_continuation] keeps the keys. *)
Lemma push_continuation_keys hs c hs' : push_continuation hs c = Some hs' → hs'.*1 = hs.*1.
Proof.
  revert hs'. induction hs as [|[k v] [|h hs] IH]; intros hs' E; [done|by simplify_eq/=|].
  change (cons (k, v) <$> push_continuation (h :: hs) c = Some hs') in E.
  apply fmap_Some in E as (hs2 & E & ->). rewrite !fmap_cons. f_equal. by apply IH.
Qed.

Definition unsigned (kv : text * text) : Prop := is_signature_header kv.1 = false.

Lemma unsigned_keys hs : Forall unsigned hs ↔ Forall (λ k, is_signature_header k = false) hs.*1.
Proof. rewrite Forall_fmap. done. Qed.

Lemma strip_space_starts l c : strip_prefix [space] l = Some c → is_continuation l = true.
Proof. intros E. unfold is_continuation, starts_with. rewrite E. by apply bool_decide_eq_true_2. Qed.

Lemma strip_space_not l : strip_prefix [space] l = None → is_continuation l = false.
Proof. intros E. unfold is_continuation, starts_with. rewrite E. apply bool_decide_eq_false_2. by intros [? ?]. Qed.

Lemma fold_unsigned hs ls hs' :
  unsigned_lines ls → Forall unsigned hs → fold_headers hs ls = Some hs' → Forall unsigned hs'.
Proof.
  intros Hl. revert hs. induction Hl as [|l ls Hl _ IH]; intros hs Hhs E; [by simplify_eq/=|].
  cbn [fold_headers] in E. destruct (header_line hs l) as [hs1|] eqn:E1; [|done]. apply (IH hs1); [|done].
  unfold header_line in E1. destruct (strip_prefix [space] l) as [c|] eqn:Es.
  - apply push_continuation_keys in E1. apply unsigned_keys. rewrite E1. by apply unsigned_keys.
  - apply strip_space_not in Es. destruct Hl as [Hl|Hl]; [congruence|].
    unfold signature_header_line in Hl. destruct (split_once space l) as [[k v]|]; [|done].
    destruct (_ && _); [|done]. simplify_eq. apply Forall_app. split; [done|]. by repeat constructor.
Qed.

Lemma has_signature_false hs body : Forall unsigned hs → has_signature (mk_CommitMessageParts hs body) = false.
Proof.
  intros Hf. unfold has_signature. cbn [headers]. induction Hf as [|kv hs Hk _ IH]; [done|].
  simpl. by rewrite Hk.
Qed.

(** What [strip_signature_headers] leaves has no signature header. *)
Lemma strip_has_no_signature message p :
  split_commit_message (strip_signature_headers message) = Some p → has_signature p = false.
Proof.
  unfold split_commit_message. destruct (message_text_or message) as [(ls & body & Hls & ->)|Hw].
  - rewrite strip_text by done. pose proof (kept_header_lines false ls Hls) as Hk.
    pose proof (kept_unsigned false ls) as Hu. set (ks := kept_lines false ls) in *.
    destruct (strip_prefix [newline] (message_text ks body)); [by intros [= <-]|].
    rewrite header_loop_text by (done || apply message_text_length). destruct (fold_headers [] ks) as [hs|] eqn:E; intros [= <-]; [|done].
    apply has_signature_false. by eapply fold_unsigned.
  - unfold strip_signature_headers. rewrite strip_lines_whole by done.
    destruct (strip_prefix [newline] message); [by intros [= <-]|].
    destruct (header_loop _ [] message) eqn:E; [by intros [= <-]| |done].
    by apply header_loop_whole in E.
Qed.

(** ** Exactly the signature headers are dropped *)

Definition drop_signatures (hs : list (text * text)) : list (text * text) :=
  List.filter (λ kv, negb (is_signature_header kv.1)) hs.

Lemma drop_signatures_app l k : drop_signatures (l ++ k) = drop_signatures l ++ drop_signatures k.
Proof. apply List.filter_app. Qed.

Lemma push_continuation_snoc hs k v c :
  push_continuation (hs ++ [(k, v)]) c = Some (hs ++ [(k, v ++ newline :: c)]).
Proof.
  induction hs as [|h hs IH]; [done|]. destruct hs as [|h' hs]; [by destruct h|].
  transitivity (cons h <$> push_continuation ((h' :: hs) ++ [(k, v)]) c); [by destruct h|]. by rewrite IH.
Qed.

(** [skip] says that the last header read is a signature. *)
Definition skip_state (skip : bool) (hs : list (text * text)) : Prop :=
  skip = match last hs with Some (k, _) => is_signature_header k | None => false end.

Lemma fold_drop skip hs ls hs' :
  skip_state skip hs → fold_headers hs ls = Some hs' →
  fold_headers (drop_signatures hs) (kept_lines skip ls) = Some (drop_signatures hs').
Proof.
  revert skip hs. induction ls as [|l ls IH]; intros skip hs Hs E; [by simplify_eq/=|].
  cbn [fold_headers] in E. destruct (header_line hs l) as [hs1|] eqn:E1; [|done]. cbn [mbind option_bind] in E.
  cbn [kept_lines]. pose proof E1 as El. unfold header_line in E1.
  destruct (strip_prefix [space] l) as [c|] eqn:Es.
  - pose proof (strip_space_starts l c Es) as Hc. unfold is_continuation in Hc. rewrite Hc.
    destruct hs as [|h hs _] using rev_ind; [done|]. destruct h as [k v].
    rewrite push_continuation_snoc in E1. simplify_eq. unfold skip_state in Hs. rewrite last_snoc in Hs. subst skip.
    rewrite drop_signatures_app. assert (skip_state (is_signature_header k) (hs ++ [(k, v ++ newline :: c)])) as Hs'.
    { unfold skip_state. by rewrite last_snoc. }
    specialize (IH _ _ Hs' E). rewrite drop_signatures_app in IH. cbn [drop_signatures List.filter fst] in *.
    destruct (is_signature_header k) eqn:Ek; cbn [negb] in *; [done|].
    cbn [fold_headers]. unfold header_line. rewrite Es, push_continuation_snoc. exact IH.
  - pose proof (strip_space_not l Es) as Hc. unfold is_continuation in Hc. rewrite Hc.
    destruct (split_once space l) as [[k v]|] eqn:Ek; [|done].
    destruct (negb (bool_decide (k = [])) && forallb header_key_char k) eqn:Ev; [|done]. simplify_eq.
    assert (signature_header_line l = is_signature_header k) as Hsig by (unfold signature_header_line; by rewrite Ek).
    rewrite Hsig. assert (skip_state (is_signature_header k) (hs ++ [(k, v)])) as Hs'.
    { unfold skip_state. by rewrite last_snoc. }
    specialize (IH _ _ Hs' E). rewrite drop_signatures_app in IH. cbn [drop_signatures List.filter fst] in *.
    destruct (is_signature_header k) eqn:Es2; cbn [negb] in *; [by rewrite app_nil_r in IH|].
    cbn [fold_headers]. unfold header_line. rewrite Es, Ek, Ev. exact IH.
Qed.

Lemma split_message_text ls body :
  header_lines ls →
  split_commit_message (message_text ls body) =
  Some match fold_headers [] ls with
       | Some hs => mk_CommitMessageParts hs body
       | None => mk_CommitMessageParts [] (message_text ls body)
       end.
Proof.
  intros Hls. unfold split_commit_message. destruct ls as [|l ls]; [done|].
  assert (strip_prefix [newline] (message_text (l :: ls) body) = None) as ->.
  { apply Forall_cons in Hls as [[Hne Hl] _]. destruct l as [|c l]; [done|].
    unfold message_text. cbn [mbind list_bind app strip_prefix].
    by rewrite (proj2 (N.eqb_neq newline c)) by set_solver. }
  rewrite header_loop_text by (done || apply message_text_length).
  by destruct (fold_headers [] (l :: ls)).
Qed.

(** ** Bytes and characters *)

Lemma newline_ascii : (newline < 128)%N.
Proof. done. Qed.

Lemma space_ascii : (space < 128)%N.
Proof. done. Qed.

Lemma utf8_nil s : utf8 s = [] ↔ s = [].
Proof. split; [apply (utf8_inj s [])|by intros ->]. Qed.

Lemma starts_with_space_utf8 l : starts_with [space] (utf8 l) = starts_with [space] l.
Proof.
  unfold starts_with. apply bool_decide_ext. destruct l as [|c l]; [done|].
  rewrite (utf8_ascii_char space space_ascii). cbn [strip_prefix]. destruct (N.eqb_spec c space) as [->|Hne].
  - by rewrite N.eqb_refl.
  - rewrite (proj2 (N.eqb_neq space c)) by congruence.
    pose proof (utf8_char_no space space_ascii c Hne) as Hno. destruct (utf8_char c) as [|b bs] eqn:E.
    + unfold utf8_char in E. by repeat case_match.
    + cbn [app strip_prefix]. rewrite (proj2 (N.eqb_neq space b)) by set_solver. done.
Qed.

Lemma is_signature_utf8 k : is_signature_header (utf8 k) = is_signature_header k.
Proof.
  assert (∀ n, Forall (λ c, (c < 128)%N) n → utf8 k = n ↔ k = n) as Hn.
  { intros n Hn. rewrite <-(utf8_ascii n Hn) at 1. split; [apply utf8_inj|by intros ->]. }
  unfold is_signature_header. f_equal; apply bool_decide_ext, Hn; by repeat constructor.
Qed.

Lemma signature_header_line_utf8 l : signature_header_line (utf8 l) = signature_header_line l.
Proof.
  unfold signature_header_line. rewrite (split_once_utf8 space space_ascii).
  destruct (split_once space l) as [[k v]|]; [|done]. apply is_signature_utf8.
Qed.

(** Stripping the bytes of a text is stripping the text. *)
Lemma strip_utf8 s : strip_signature_headers (utf8 s) = utf8 (strip_signature_headers s).
Proof.
  unfold strip_signature_headers. rewrite (split_on_utf8 newline newline_ascii).
  change (@nil N) with (utf8 []) at 1. generalize (@nil N) as out, false as skip.
  generalize s at 1 3 as input. intros input.
  assert (∀ ps skip out, strip_lines (utf8 input) (map utf8 ps) skip (utf8 out)
            = utf8 (strip_lines input ps skip out)) as H; [|intros; apply H].
  induction ps as [|l [|l' ps] IH]; intros skip out; [done..|]. rewrite map_cons, !strip_lines_cons by done.
  rewrite (bool_decide_ext (utf8 l = []) (l = [])) by apply utf8_nil.
  case_bool_decide as E.
  - rewrite (join_utf8 newline newline_ascii), utf8_app, (utf8_ascii_char newline newline_ascii), N.eqb_refl. done.
  - rewrite starts_with_space_utf8, signature_header_line_utf8. cbn zeta. rewrite <-IH. f_equal.
    destruct (if starts_with _ _ then _ else _); [done|]. by rewrite !utf8_app.
Qed.

(** ** Theorems *)

(** Stripping drops exactly the signature headers: a message whose header block is
    read as [headers] and [body] is read afterwards as the headers that are no
    signatures and the same body; no message has a signature left, and stripping again
    changes nothing. *)
Theorem strip_signature_exact message :
  (∀ ls body hs, header_lines ls → message = message_text ls body → fold_headers [] ls = Some hs →
     split_commit_message message = Some (mk_CommitMessageParts hs body)
     ∧ split_commit_message (strip_signature_headers message)
       = Some (mk_CommitMessageParts (drop_signatures hs) body))
  ∧ (∀ p, split_commit_message (strip_signature_headers message) = Some p → has_signature p = false)
  ∧ strip_signature_headers (strip_signature_headers message) = strip_signature_headers message.
Proof.
  split; [|split].
  - intros ls body hs Hls -> E. rewrite split_message_text, E by done. split; [done|].
    rewrite strip_text, split_message_text by (done || by apply kept_header_lines).
    pose proof (fold_drop false [] ls hs eq_refl E) as Hd. change (drop_signatures []) with (@nil (text * text)) in Hd.
    by rewrite Hd.
  - apply strip_has_no_signature.
  - destruct (message_text_or message) as [(ls & body & Hls & ->)|Hw].
    + rewrite !strip_text by (done || by apply kept_header_lines). by rewrite kept_idempotent.
    + assert (strip_signature_headers message = message) as Hs by by apply strip_lines_whole.
      by rewrite !Hs.
Qed.

(** The row of the rewritten commit. *)
Definition rewritten_row (row : CommitRow) (tree : text) (parents : list text) : CommitRow :=
  mk_CommitRow (commit_id row) tree (Array (map String parents)) (author row) (committer row)
    (Some (strip_signature_headers (default [] (content row)))).

(** A commit is rewritten only when its row is the commit of its identifier; the
    new commit is the row with the new tree and parents and a content without
    signatures, under the hash of its own bytes. *)
Theorem rewrite_commit_exact `{GO : GitObjects} row tree parents id data :
  rewrite_commit row tree parents = inr (id, data) →
  (∃ original h, rebuild_canonical_commit_bytes row = Some original
     ∧ hash_commit_data (utf8 original) = Some h ∧ hash_to_string h = commit_id row)
  ∧ hash_commit_data data = Some id
  ∧ ∃ new, rebuild_canonical_commit_bytes (rewritten_row row tree parents) = Some new ∧ data = utf8 new.
Proof.
  unfold rewrite_commit. destruct (rebuild_canonical_commit_bytes row) as [original|] eqn:Eo; [|done].
  destruct (hash_commit_data (utf8 original)) as [h|] eqn:Eh; [|done]. case_bool_decide as Ec; [|done].
  cbn [negb]. destruct (hash_commit_data (rebuild_rewritten_bytes row tree parents)) as [h'|] eqn:Ed; [|done].
  intros [= <- <-]. split; [by exists original, h|]. split; [done|].
  unfold rebuild_canonical_commit_bytes, string_array, rewritten_row.
  cbn [parents_id commit_tree author committer content].
  assert (mapM (λ i, match i with String s => Some s | _ => None end) (map String parents) = Some parents) as ->.
  { clear. induction parents as [|p ps IH]; [done|]. cbn [map mapM]. by rewrite IH. }
  eexists. split; [done|]. unfold rebuild_rewritten_bytes. cbn [default]. rewrite strip_utf8, !utf8_app.
  assert (utf8 (parent_lines parents) = parents ≫= λ parent, utf8 (lit "parent ") ++ utf8 parent ++ [newline]) as ->; [|done].
  clear. unfold parent_lines. induction parents as [|p ps IH]; [done|]. cbn [mbind list_bind].
  by rewrite !utf8_app, IH.
Qed.
