(* ===== verification/ViewProject.v ===== *)
(** * Projecting a commit

    Models [src/ceres/view/project.rs]: what a commit of the monorepo becomes in a view,
    a commit, the remark that the view is still empty, or nothing.  The check named R8
    only writes to the log, but it runs the projection and so changes the memo; its
    message is part of the result here.  Running out of fuel in it counts as a skipped
    check.

    [TrackingTreeSource] of [src/jupiter/service/view_projection_service.rs] records the
    trees that were asked for and not loaded.  A read error ends the function that
    meets it, so the record is the identifier of the error; it is the second
    component of the results. *)
From stdpp Require Import base strings numbers tactics list sorting gmap.
From S2P Require Import Prelude Text FilterSyntax FilterDefinition CommitMessage CanonicalJson.
From S2P Require Import GitObjects TreeSource ViewMemo ViewTree ViewCommit.

Record ProjectionInput := mk_ProjectionInput {
  in_seq : Z; in_commit_id : text; in_tree_id : text; in_row : option CommitRow;
}.

Record PreviousProjection := mk_PreviousProjection {
  prev_view_commit : option text; prev_view_tree : text;
}.

Record ProjectionRequest := mk_ProjectionRequest {
  request_input : ProjectionInput; request_parent_tree : text; request_prev : PreviousProjection;
}.

Inductive ProjectError :=
  | Premise (e : RewriteError)
  | MissingTree (e : MissingObject)
  | MissingCommit (commit_id : text).

Inductive ProjectFailure :=
  | Data (e : ProjectError)
  | Internal.

(** The messages of the R8 check. *)
Inductive R8Event :=
  | R8IntermediateEmptyRoot (filter_id : text) (seq : Z) (level : nat) (tree_id : text)
  | R8Skipped (filter_id : text) (seq : Z) (level : nat).

Section Project.
Context {GO : GitObjects}.
Variable sha256_hex : text → text.
Variable first_key : memo_entries → option MemoKey.

Record Segment := mk_Segment {
  seg_seq : Z; seg_view_commit : option (ObjectHash * bytes); seg_view_tree : text;
}.

Definition data_missing {A} (e : MissingObject) : outcome ProjectFailure A := Err (Data (MissingTree e)).

Definition map_filter_error (e : FilterTreeError) : ProjectFailure :=
  match e with Missing e => Data (MissingTree e) | Invariant => Internal end.

(** What the tracking source has recorded when a read failed with [e]. *)
Definition unprefetched_of (e : MissingObject) : list text :=
  if bool_decide (missing_reason e = Unprefetched) then [missing_tree_id e] else [].

Definition filter_unprefetched {A} (r : outcome FilterTreeError A) : list text :=
  match r with Err (Missing e) => unprefetched_of e | _ => [] end.

Definition project_unprefetched {A} (r : outcome ProjectFailure A) : list text :=
  match r with Err (Data (MissingTree e)) => unprefetched_of e | _ => [] end.

(** [is_empty_root]: no file below the tree.  It follows the trees it reads, with fuel. *)
Section EmptyRootItems.
Variable is_empty_root : text → outcome MissingObject bool.

Fixpoint empty_roots (items : list item) : outcome MissingObject bool :=
  match items with
  | [] => Ok true
  | it :: items =>
      match is_empty_root (hash_to_string (item_id it)) with
      | Ok true => empty_roots items
      | r => r
      end
  end.
End EmptyRootItems.

Fixpoint is_empty_root (fuel : nat) (source : TreeSource) (id : text) : outcome MissingObject bool :=
  match fuel with
  | 0 => OutOfFuel
  | S fuel =>
      match read_tree source id with
      | inl e => Err e
      | inr tree =>
          if existsb (λ it, negb (bool_decide (item_mode it = ModeTree))) (tree_items tree)
          then Ok false
          else empty_roots (is_empty_root fuel source) (tree_items tree)
      end
  end.

Definition is_empty_tree (id : text) : bool :=
  match empty_tree_id with
  | Some empty => bool_decide (id = hash_to_string empty)
  | None => false
  end.

Definition write_segment (input : ProjectionInput) (tree_id : text) (parents : list text)
    : outcome ProjectFailure (option Segment) :=
  match in_row input with
  | None => Err (Data (MissingCommit (in_commit_id input)))
  | Some row =>
      match rewrite_commit row tree_id parents with
      | inl e => Err (Data (Premise e))
      | inr commit => Ok (Some (mk_Segment (in_seq input) (Some commit) tree_id))
      end
  end.

Definition project_from_output (fuel : nat) (source : TreeSource) (input : ProjectionInput)
    (parent_tree : text) (prev : PreviousProjection) (filtered : FilterOutput)
    : outcome ProjectFailure (option Segment) :=
  match prev_view_commit prev with
  | None =>
      let rest :=
        if is_empty_tree (output_tree_id filtered) then
          Ok (if bool_decide (in_seq input = 1%Z)
              then Some (mk_Segment 1 None (output_tree_id filtered)) else None)
        else write_segment input (output_tree_id filtered) [] in
      if bool_decide (in_seq input = 1%Z) then
        match is_empty_root fuel source (in_tree_id input) with
        | Ok true => write_segment input (output_tree_id filtered) []
        | Ok false => rest
        | Err e => data_missing e
        | Panic => Panic
        | OutOfFuel => OutOfFuel
        end
      else rest
  | Some view_commit =>
      if bool_decide (in_tree_id input = parent_tree) then
        write_segment input (output_tree_id filtered) [view_commit]
      else if bool_decide (output_tree_id filtered = prev_view_tree prev) then Ok None
      else write_segment input (output_tree_id filtered) [view_commit]
  end.

Definition should_detect_r8 (filter : Filter) (prev : PreviousProjection) (result : option Segment) : bool :=
  bool_decide (prev_view_commit prev = None)
  && match filter with Chain ops => Nat.leb 2 (length ops) | _ => false end
  && match result with
     | None => true
     | Some seg => match seg_view_commit seg with None => true | Some _ => false end
     end.

(** The loop of [detect_r8] over the operators but the last: the memo, the trees asked
    for in vain, and the message. *)
Fixpoint r8_loop (fuel : nat) (source : TreeSource) (fid : text) (seq : Z) (m : FilterMemo)
    (available : gmap text bytes) (id : text) (level : nat) (ops : list Filter)
    : FilterMemo * list text * option R8Event :=
  match ops with
  | [] => (m, [], None)
  | op :: ops =>
      let '(m, output) := filter_tree first_key (overlay_read_tree source available) fuel m op id in
      match output with
      | Ok output =>
          let available := output_trees output ∪ available in
          let id := output_tree_id output in
          match is_empty_root fuel (overlay_read_tree source available) id with
          | Ok true =>
              if negb (is_empty_tree id) then (m, [], Some (R8IntermediateEmptyRoot fid seq level id))
              else r8_loop fuel source fid seq m available id (S level) ops
          | Ok false => r8_loop fuel source fid seq m available id (S level) ops
          | Err e => (m, unprefetched_of e, Some (R8Skipped fid seq level))
          | Panic | OutOfFuel => (m, [], Some (R8Skipped fid seq level))
          end
      | _ => (m, filter_unprefetched output, Some (R8Skipped fid seq level))
      end
  end.

Definition detect_r8 (fuel : nat) (source : TreeSource) (m : FilterMemo) (filter : Filter)
    (input : ProjectionInput) : FilterMemo * list text * option R8Event :=
  match filter with
  | Chain ops =>
      r8_loop fuel source (filter_id sha256_hex (print filter)) (in_seq input) m ∅ (in_tree_id input) 1
        (removelast ops)
  | _ => (m, [], None)
  end.

(** The memo, the trees asked for in vain, the message of R8, and the result. *)
Definition projection : Type :=
  FilterMemo * list text * option R8Event * outcome ProjectFailure (option Segment).

Definition project_with_output (fuel : nat) (source : TreeSource) (m : FilterMemo) (filter : Filter)
    (request : ProjectionRequest) (filtered : FilterOutput) : projection :=
  let result := project_from_output fuel source (request_input request) (request_parent_tree request)
                  (request_prev request) filtered in
  match result with
  | Ok segment =>
      if should_detect_r8 filter (request_prev request) segment then
        (detect_r8 fuel source m filter (request_input request), Ok segment)
      else (m, [], None, Ok segment)
  | _ => (m, project_unprefetched result, None, result)
  end.

Definition project_commit (fuel : nat) (source : TreeSource) (m : FilterMemo) (filter : Filter)
    (request : ProjectionRequest) : projection :=
  let '(m, filtered) := filter_tree first_key source fuel m filter (in_tree_id (request_input request)) in
  match filtered with
  | Ok filtered => project_with_output fuel source m filter request filtered
  | Err e => (m, filter_unprefetched filtered, None, Err (map_filter_error e))
  | Panic => (m, [], None, Panic)
  | OutOfFuel => (m, [], None, OutOfFuel)
  end.
End Project.
