(* ===== verification/ViewCatchUp.v ===== *)
(** * Keeping a view up to date

    Models the catch-up of a view with the commits of the monorepo:
    [src/jupiter/service/view_projection_service.rs] ([catch_up_in_transaction],
    [prefetch_filter_outputs], [project_with_prefetch] and their helpers),
    [src/jupiter/storage/view_tree_source.rs] and the statements of
    [src/jupiter/storage/view_projection_storage.rs] that it uses.

    A batch is one transaction: it reads the tables and returns the tables after commit,
    or an error after which they are unchanged; the memo survives either way.  Errors of
    the database itself, locks taken by others and log messages are left out; the two
    locks a batch tries to take are arguments. *)
From stdpp Require Import base strings numbers tactics list sorting gmap.
From S2P Require Import Prelude Text FilterSyntax FilterDefinition CommitMessage CanonicalJson.
From S2P Require Import GitObjects TreeSource ViewMemo ViewTree ViewCommit ViewProject.

(** ** Tables *)

(** [mega_view_filter], the columns that are used. *)
Record FilterRow := mk_FilterRow {
  row_filter_id : text;
  row_canonical_spec : text;
  row_projected_seq : Z;
  row_ready_seq : option Z;
  row_warming_since : option Z;
}.

(** [mega_view_object] *)
Record ViewObject := mk_ViewObject { object_kind : Z; object_data : bytes; object_gc_marked : option Z }.

Record ViewTables := mk_ViewTables {
  (** [mega_view_filter] by primary key *)
  view_filters : gmap Z FilterRow;
  (** [mega_view_root_chain]: commit and tree by position *)
  root_chain : gmap Z (text * text);
  (** [mega_view_commit_map]: view commit and view tree by filter and position *)
  commit_map : gmap (Z * Z) (option text * text);
  view_objects : gmap text ViewObject;
  (** [mega_view_object_ref] *)
  object_refs : gset (Z * text);
  (** [mega_commit] and [mega_tree] by object identifier *)
  mono_commits : gmap text CommitRow;
  mono_trees : gmap text bytes;
  (** the commit of [main] in [mega_refs] *)
  main_ref : option text;
}.

Inductive ViewProjectionStopReason :=
  | PremiseCheckFailed
  | RowAbsent (tree_id : text)
  | Unparsable (tree_id : text)
  | CommitRowMissing.

Record ViewProjectionStop := mk_ViewProjectionStop {
  stop_filter_id : text; stop_seq : Z; stop_commit_id : text; stop_reason : ViewProjectionStopReason;
}.

Inductive CatchUpOutcome :=
  | Advanced
  | Ready
  | MainNotCovered
  | NotRun
  | BatchPremiseFailed
  | Stopped (stop : ViewProjectionStop).

(** The messages of [MegaError::Other]. *)
Inductive CatchUpError :=
  | FilterDoesNotExist (pk : Z)
  | DefinitionRejected
  | EmptyTreeUnavailable
  | UnprefetchedAfterPrefetch
  | ProjectionFailed (failure : ProjectFailure).

Inductive StopDispatch :=
  | Stop (reason : ViewProjectionStopReason)
  | DispatchInternal.

Definition stop_dispatch (error : ProjectError) : StopDispatch :=
  match error with
  | Premise _ => Stop PremiseCheckFailed
  | MissingTree e =>
      match missing_reason e with
      | Absent => Stop (RowAbsent (missing_tree_id e))
      | Malformed => Stop (Unparsable (missing_tree_id e))
      | Unprefetched => DispatchInternal
      end
  | MissingCommit _ => Stop CommitRowMissing
  end.

Definition i64_max : Z := 9223372036854775807.

(** [batch_bounds], with the overflow checks of [i64] *)
Definition batch_bounds (s0 tip batch_size : Z) : option (Z * Z) :=
  if (i64_max <? batch_size)%Z then None
  else if (batch_size <=? 0)%Z then None
  else if (i64_max <? s0 + batch_size)%Z then None
  else
    let first := Z.max s0 1 in
    let last := Z.min (s0 + batch_size) tip in
    if (first <=? last)%Z then Some (first, last) else None.

(** A row of the chain with its position. *)
Abbreviation chain_row := (Z * (text * text))%type.

Definition contiguous_rows (rows : list chain_row) (first last : Z) : bool :=
  (Z.of_nat (length rows) =? last - first + 1)%Z
  && forallb (λ p, (fst (snd p) =? first + Z.of_nat (fst p))%Z) (imap pair rows).

(** The largest of a list of positions. *)
Fixpoint max_seq (seqs : list Z) : option Z :=
  match seqs with
  | [] => None
  | s :: seqs => Some match max_seq seqs with Some m => Z.max s m | None => s end
  end.

Definition projection_tip (db : ViewTables) : Z := default 0%Z (max_seq (map_to_list (root_chain db)).*1).

Definition projection_rows (db : ViewTables) (first last : Z) : list chain_row :=
  omap (λ s, pair s <$> root_chain db !! s) (seqZ first (last - first + 1)).

(** The row with the largest [seq_from] up to [seq]. *)
Definition latest_row (cm : gmap (Z * Z) (option text * text)) (pk seq : Z) : option (option text * text) :=
  s ← max_seq (List.filter (λ s, (s <=? seq)%Z)
         (omap (λ p, if bool_decide (p.1.1 = pk) then Some p.1.2 else None) (map_to_list cm)));
  cm !! (pk, s).

Definition previous_projection (db : ViewTables) (pk seq : Z) (empty_tree : text) : PreviousProjection :=
  match latest_row (commit_map db) pk seq with
  | None => mk_PreviousProjection None empty_tree
  | Some (view_commit, view_tree) => mk_PreviousProjection view_commit view_tree
  end.

Section CatchUp.
Context {GO : GitObjects}.
Variable sha256_hex : text → text.
Variable first_key : memo_entries → option MemoKey.

(** ** [ViewTreeSource] *)

(** Its loaded trees and missing rows; reading it is reading an [InMemoryTreeSource]. *)
Definition view_read_tree (source : InMemoryTreeSource) : TreeSource := in_memory_read_tree source.

Fixpoint pending_from (seen : gset text) (empty_tree : text) (source : InMemoryTreeSource)
    (ids : list text) : list text :=
  match ids with
  | [] => []
  | id :: ids =>
      if negb (bool_decide (id = empty_tree)) && bool_decide (tree_bytes source !! id = None)
         && negb (bool_decide (id ∈ missing_ids source)) && negb (bool_decide (id ∈ seen))
      then id :: pending_from ({[id]} ∪ seen) empty_tree source ids
      else pending_from seen empty_tree source ids
  end.

Definition pending_ids (empty_tree : text) (source : InMemoryTreeSource) (ids : list text) : list text :=
  pending_from ∅ empty_tree source ids.

(** The row of a tree: of [mega_view_object] first, of [mega_tree] otherwise. *)
Definition load_tree (db : ViewTables) (id : text) : option bytes :=
  match view_objects db !! id with
  | Some o => if bool_decide (object_kind o = 2%Z) then Some (object_data o) else mono_trees db !! id
  | None => mono_trees db !! id
  end.

Definition prefetch (db : ViewTables) (empty_tree : text) (source : InMemoryTreeSource)
    (ids : list text) : InMemoryTreeSource :=
  let requested := pending_ids empty_tree source ids in
  let loaded := list_to_map (omap (λ id, pair id <$> load_tree db id) requested) : gmap text bytes in
  let absent := List.filter (λ id, bool_decide (load_tree db id = None)) requested in
  mk_InMemoryTreeSource (loaded ∪ tree_bytes source) (list_to_set absent ∪ missing_ids source).

(** ** Trial projections, to find out what to load *)

Fixpoint trial_rows (fuel : nat) (source : TreeSource) (filter : Filter) (projected_seq : Z)
    (rows : list chain_row) (m : FilterMemo) (outputs : gmap Z FilterOutput) (needed : list text)
    : FilterMemo * gmap Z FilterOutput * list text :=
  match rows with
  | [] => (m, outputs, needed)
  | (seq, (_, tree)) :: rows =>
      if (seq <=? projected_seq)%Z || bool_decide (is_Some (outputs !! seq))
      then trial_rows fuel source filter projected_seq rows m outputs needed
      else
        let '(m, r) := filter_tree first_key source fuel m filter tree in
        let outputs := match r with Ok o => <[seq := o]> outputs | _ => outputs end in
        trial_rows fuel source filter projected_seq rows m outputs (needed ++ filter_unprefetched r)
  end.

(** [prefetch_filter_outputs]: rounds of trials until nothing more is asked for. *)
Fixpoint prefetch_outputs (rounds fuel : nat) (db : ViewTables) (empty_tree : text) (filter : Filter)
    (projected_seq : Z) (rows : list chain_row) (m : FilterMemo) (source : InMemoryTreeSource)
    (outputs : gmap Z FilterOutput) (prefetched : gset text)
    : FilterMemo * outcome CatchUpError (InMemoryTreeSource * gmap Z FilterOutput) :=
  match rounds with
  | 0 => (m, OutOfFuel)
  | S rounds =>
      let '(m, outputs, needed) :=
        trial_rows fuel (view_read_tree source) filter projected_seq rows m outputs [] in
      if bool_decide (needed = []) then (m, Ok (source, outputs))
      else if existsb (λ id, bool_decide (id ∈ prefetched)) needed
      then (m, Err UnprefetchedAfterPrefetch)
      else prefetch_outputs rounds fuel db empty_tree filter projected_seq rows m
             (prefetch db empty_tree source needed) outputs (list_to_set needed ∪ prefetched)
  end.

Fixpoint project_with_prefetch (rounds fuel : nat) (db : ViewTables) (empty_tree : text)
    (filter : Filter) (request : ProjectionRequest) (output : option FilterOutput)
    (m : FilterMemo) (source : InMemoryTreeSource) (prefetched : gset text)
    : FilterMemo * InMemoryTreeSource * outcome CatchUpError (outcome ProjectFailure (option Segment)) :=
  match rounds with
  | 0 => (m, source, OutOfFuel)
  | S rounds =>
      let '(m, needed, _, result) :=
        match output with
        | Some o => project_with_output sha256_hex first_key fuel (view_read_tree source) m filter request o
        | None => project_commit sha256_hex first_key fuel (view_read_tree source) m filter request
        end in
      if bool_decide (needed = []) then (m, source, Ok result)
      else if existsb (λ id, bool_decide (id ∈ prefetched)) needed
      then (m, source, Err UnprefetchedAfterPrefetch)
      else project_with_prefetch rounds fuel db empty_tree filter request output m
             (prefetch db empty_tree source needed) (list_to_set needed ∪ prefetched)
  end.

(** ** The batch *)

(** What the loop over the rows has accumulated. *)
Record Batch := mk_Batch {
  batch_segments : list Segment;
  batch_outputs : gmap Z FilterOutput;
  batch_previous : PreviousProjection;
}.

Definition previous_of (segment : Segment) : PreviousProjection :=
  mk_PreviousProjection ((λ c, hash_to_string (fst c)) <$> seg_view_commit segment) (seg_view_tree segment).

(** [if let Some(segment) = segment { .. }] *)
Definition push_segment (batch : Batch) (output : option FilterOutput) (segment : option Segment) : Batch :=
  match segment with
  | None => batch
  | Some segment =>
      let outputs :=
        match seg_view_commit segment, output with
        | Some _, Some o => <[seg_seq segment := o]> (batch_outputs batch)
        | _, _ => batch_outputs batch
        end in
      mk_Batch (batch_segments batch ++ [segment]) outputs (previous_of segment)
  end.

Section Rows.
Variables (rounds fuel : nat) (db : ViewTables) (empty_tree : text) (filter : Filter)
  (row : FilterRow) (outputs : gmap Z FilterOutput).

(** The loop over the rows; [parent_tree] is the tree of the row before.  The result is
    the batch and the stop, if any. *)
Fixpoint project_rows (parent_tree : text) (rows : list chain_row) (m : FilterMemo)
    (source : InMemoryTreeSource) (batch : Batch)
    : FilterMemo * outcome CatchUpError (Batch * option ViewProjectionStop) :=
  match rows with
  | [] => (m, Ok (batch, None))
  | (seq, (commit_id, tree_id)) :: rows =>
      if (seq <=? row_projected_seq row)%Z then project_rows tree_id rows m source batch
      else
        let input := mk_ProjectionInput seq commit_id tree_id (mono_commits db !! commit_id) in
        let request := mk_ProjectionRequest input parent_tree (batch_previous batch) in
        let '(m, source, r) :=
          project_with_prefetch rounds fuel db empty_tree filter request (outputs !! seq) m source ∅ in
        match r with
        | Ok (Ok segment) => project_rows tree_id rows m source (push_segment batch (outputs !! seq) segment)
        | Ok (Err Internal) => (m, Err (ProjectionFailed Internal))
        | Ok (Err (Data error)) =>
            match stop_dispatch error with
            | Stop reason =>
                (m, Ok (batch, Some (mk_ViewProjectionStop (row_filter_id row) seq commit_id reason)))
            | DispatchInternal => (m, Err (ProjectionFailed (Data error)))
            end
        | Ok Panic | Panic => (m, Panic)
        | Ok OutOfFuel | OutOfFuel => (m, OutOfFuel)
        | Err e => (m, Err e)
        end
  end.
End Rows.

(** [insert .. on conflict do nothing] *)
Definition insert_ignore `{Countable K} {V} (rows : list (K * V)) (table : gmap K V) : gmap K V :=
  fold_left (λ t r, match t !! r.1 with Some _ => t | None => <[r.1 := r.2]> t end) rows table.

(** The objects of a batch: its commits, and the trees of the outputs that do not have
    the identifier of an object already there.  The trees of one identifier have one
    content, so the order in which the outputs are visited does not matter. *)
Definition batch_objects (batch : Batch) : gmap text (Z * bytes) :=
  let commits : gmap text (Z * bytes) :=
    fold_left (λ t seg, match seg_view_commit seg with
                        | Some (id, data) => <[hash_to_string id := (1%Z, data)]> t
                        | None => t
                        end) (batch_segments batch) ∅ in
  map_fold (λ _ o t, map_fold (λ id data t, match t !! id with
                                            | Some _ => t
                                            | None => <[id := (2%Z, data)]> t
                                            end) t (output_trees o)) commits (batch_outputs batch).

Definition write_projection_batch (db : ViewTables) (pk : Z) (batch : Batch) (projected_seq : Z)
    : ViewTables :=
  let objects := batch_objects batch in
  let stored :=
    insert_ignore (map (λ p, (p.1, mk_ViewObject p.2.1 p.2.2 None)) (map_to_list objects)) (view_objects db) in
  mk_ViewTables
    (alter (λ f, mk_FilterRow (row_filter_id f) (row_canonical_spec f)
                   (Z.max (row_projected_seq f) projected_seq) (row_ready_seq f) (row_warming_since f))
       pk (view_filters db))
    (root_chain db)
    (insert_ignore (map (λ seg, ((pk, seg_seq seg),
                           ((λ c, hash_to_string (fst c)) <$> seg_view_commit seg, seg_view_tree seg)))
                      (batch_segments batch)) (commit_map db))
    (** [UPDATE .. SET gc_marked_at = NULL] for the objects of the batch *)
    (map_imap (λ id o, Some match objects !! id with
                            | Some _ => mk_ViewObject (object_kind o) (object_data o) None
                            | None => o
                            end) stored)
    (object_refs db ∪ list_to_set (map (λ p, (pk, p.1)) (map_to_list objects)))
    (mono_commits db) (mono_trees db) (main_ref db).

Definition mark_ready_if_covered (db : ViewTables) (pk tip : Z) : ViewTables * bool :=
  match root_chain db !! tip with
  | None => (db, false)
  | Some (tail_commit, _) =>
      if bool_decide (main_ref db = Some tail_commit) then
        (mk_ViewTables
           (alter (λ f, mk_FilterRow (row_filter_id f) (row_canonical_spec f) (row_projected_seq f)
                          (Some (default tip (row_ready_seq f)))
                          (match row_ready_seq f with None => None | Some _ => row_warming_since f end))
              pk (view_filters db))
           (root_chain db) (commit_map db) (view_objects db) (object_refs db)
           (mono_commits db) (mono_trees db) (main_ref db), true)
      else (db, false)
  end.

Definition ready_outcome (r : ViewTables * bool) : ViewTables * CatchUpOutcome :=
  (r.1, if r.2 then Ready else MainNotCovered).

Definition catch_up_in_transaction (rounds fuel : nat) (db : ViewTables) (pk batch_size : Z) (m : FilterMemo)
    : FilterMemo * outcome CatchUpError (ViewTables * CatchUpOutcome) :=
  match view_filters db !! pk with
  | None => (m, Err (FilterDoesNotExist pk))
  | Some row =>
      if bool_decide (row_ready_seq row = None) && bool_decide (row_warming_since row = None)
      then (m, Ok (db, NotRun))
      else
        match recheck_definition sha256_hex (row_canonical_spec row) (row_filter_id row) with
        | Ok canonical =>
            let filter := FilterDefinition.filter canonical in
            let tip := projection_tip db in
            if (tip <=? row_projected_seq row)%Z then
              (m, Ok (ready_outcome (mark_ready_if_covered db pk tip)))
            else
              match batch_bounds (row_projected_seq row) tip batch_size with
              | None => (m, Ok (db, BatchPremiseFailed))
              | Some (first, last) =>
                  let rows := projection_rows db first last in
                  if negb (contiguous_rows rows first last) then (m, Ok (db, BatchPremiseFailed))
                  else
                    match empty_tree_id with
                    | None => (m, Err EmptyTreeUnavailable)
                    | Some empty =>
                        let empty_tree := hash_to_string empty in
                        let previous := previous_projection db pk (row_projected_seq row) empty_tree in
                        let source := prefetch db empty_tree (mk_InMemoryTreeSource ∅ ∅)
                                        (map (λ r, r.2.2) rows) in
                        let '(m, r) := prefetch_outputs rounds fuel db empty_tree filter
                                         (row_projected_seq row) rows m source ∅ ∅ in
                        match r with
                        | Ok (source, outputs) =>
                            let '(m, r) := project_rows rounds fuel db empty_tree filter row outputs
                                             empty_tree rows m source (mk_Batch [] ∅ previous) in
                            match r with
                            | Ok (batch, stop) =>
                                let projected := match stop with None => last | Some s => (stop_seq s - 1)%Z end in
                                let db := write_projection_batch db pk batch projected in
                                match stop with
                                | Some stop => (m, Ok (db, Stopped stop))
                                | None =>
                                    if (last =? tip)%Z
                                    then (m, Ok (ready_outcome (mark_ready_if_covered db pk tip)))
                                    else (m, Ok (db, Advanced))
                                end
                            | Err e => (m, Err e)
                            | Panic => (m, Panic)
                            | OutOfFuel => (m, OutOfFuel)
                            end
                        | Err e => (m, Err e)
                        | Panic => (m, Panic)
                        | OutOfFuel => (m, OutOfFuel)
                        end
                    end
              end
        | Panic => (m, Panic)
        | OutOfFuel => (m, OutOfFuel)
        | Err _ => (m, Err DefinitionRejected)
        end
  end.

(** [catch_up_one_batch]: with the locks of the filter and of the object collector. *)
Definition catch_up_one_batch (rounds fuel : nat) (filter_locked gc_locked : bool) (db : ViewTables)
    (pk batch_size : Z) (m : FilterMemo)
    : FilterMemo * outcome CatchUpError (ViewTables * CatchUpOutcome) :=
  if negb filter_locked then (m, Ok (db, NotRun))
  else if negb gc_locked then (m, Ok (db, NotRun))
  else catch_up_in_transaction rounds fuel db pk batch_size m.

(** [catch_up]: batches until one does not advance.  [env i] has the locks and the
    configured batch size that the [i]-th batch finds; no result means that the number
    of batches did not suffice.  A batch that fails is rolled back. *)
Fixpoint catch_up (batches rounds fuel : nat) (env : nat → bool * bool * Z) (i : nat) (pk : Z)
    (db : ViewTables) (m : FilterMemo)
    : ViewTables * FilterMemo * option (outcome CatchUpError CatchUpOutcome) :=
  match batches with
  | 0 => (db, m, None)
  | S batches =>
      let '(filter_locked, gc_locked, batch_size) := env i in
      match catch_up_one_batch rounds fuel filter_locked gc_locked db pk batch_size m with
      | (m, Ok (db, Advanced)) => catch_up batches rounds fuel env (S i) pk db m
      | (m, Ok (db, outcome)) => (db, m, Some (Ok outcome))
      | (m, Err e) => (db, m, Some (Err e))
      | (m, Panic) => (db, m, Some Panic)
      | (m, OutOfFuel) => (db, m, Some OutOfFuel)
      end
  end.
End CatchUp.
