(* ===== verification/ViewCatchUpInv.v ===== *)
(** * Catch-up: the invariant

    What the commit map of a view says ([tracks]): for every position of the root chain
    that has been projected, the latest row up to it names the view of the tree at that
    position.  Lemmas on the parts of a batch. *)
From stdpp Require Import base strings numbers tactics list sorting gmap.
From S2P Require Import Prelude Text FilterSyntax FilterParse FilterRoundTrip FilterCanonical FilterDefinition CommitMessage CanonicalJson.
From S2P Require Import GitObjects TreeSource ViewMemo ViewTree FileTree ViewShows ViewTreeOps ViewTreeEval ViewCommit.
From S2P Require Import ViewProject ViewCatchUp.

(** ** The latest row *)

Lemma max_seq_Some l m : max_seq l = Some m ↔ m ∈ l ∧ Forall (λ x, (x <= m)%Z) l.
Proof.
  revert m. induction l as [|s l IH]; intros m; simpl.
  { split; [done|]. by intros [?%elem_of_nil _]. }
  rewrite elem_of_cons, Forall_cons. destruct (max_seq l) as [m'|] eqn:E.
  - destruct (proj1 (IH m') eq_refl) as [Hin Hall]. rewrite Forall_forall in Hall. split.
    + intros [= <-]. split; [destruct (Z.max_spec s m') as [[_ ->]|[_ ->]]; auto|].
      split; [lia|]. apply Forall_forall. intros x Hx. specialize (Hall x Hx). simpl in *. lia.
    + intros [Hm [Hs Hl]]. rewrite Forall_forall in Hl. f_equal.
      pose proof (Hl _ Hin). simpl in *. destruct Hm as [->|Hm]; [lia|].
      pose proof (Hall _ Hm). simpl in *. lia.
  - destruct l as [|x l]; [|by simpl in E]. split.
    + intros [= <-]. split; [by left|]. split; [lia|constructor].
    + intros [[->|Hm] _]; [done|]. by apply elem_of_nil in Hm.
Qed.

Lemma max_seq_None l : max_seq l = None ↔ l = [].
Proof. by destruct l. Qed.

Abbreviation view_map := (gmap (Z * Z) (option text * text)).

Definition map_seqs (cm : view_map) (pk seq : Z) : list Z :=
  List.filter (λ s, (s <=? seq)%Z)
    (omap (λ p, if bool_decide (p.1.1 = pk) then Some p.1.2 else None) (map_to_list cm)).

Lemma map_seqs_elem cm pk seq s : s ∈ map_seqs cm pk seq ↔ (s <= seq)%Z ∧ is_Some (cm !! (pk, s)).
Proof.
  unfold map_seqs. rewrite list_elem_of_In, filter_In, <-list_elem_of_In, list_elem_of_omap, Z.leb_le. split.
  - intros [([[pk' s'] r] & Hin & E) Hle]. case_bool_decide; simplify_eq/=. split; [done|].
    apply elem_of_map_to_list in Hin. by eexists.
  - intros [Hle [r Hr]]. split; [|done]. exists ((pk, s), r). split; [by apply elem_of_map_to_list|].
    by rewrite bool_decide_eq_true_2.
Qed.

(** The latest row is the one whose position no other row exceeds. *)
Lemma latest_row_spec cm pk seq q r :
  cm !! (pk, q) = Some r → (q <= seq)%Z →
  (∀ q', (q' <= seq)%Z → is_Some (cm !! (pk, q')) → (q' <= q)%Z) → latest_row cm pk seq = Some r.
Proof.
  intros Hr Hq Hmax. unfold latest_row. fold (map_seqs cm pk seq).
  assert (max_seq (map_seqs cm pk seq) = Some q) as ->; [|done].
  apply max_seq_Some. split; [apply map_seqs_elem; split; [done|by eexists]|].
  apply Forall_forall. intros x [? ?]%map_seqs_elem. auto.
Qed.

Lemma latest_row_inv cm pk seq r :
  latest_row cm pk seq = Some r →
  ∃ q, cm !! (pk, q) = Some r ∧ (q <= seq)%Z ∧ ∀ q', (q' <= seq)%Z → is_Some (cm !! (pk, q')) → (q' <= q)%Z.
Proof.
  unfold latest_row. fold (map_seqs cm pk seq). destruct (max_seq (map_seqs cm pk seq)) as [q|] eqn:E; [|done].
  apply max_seq_Some in E as [[Hq _]%map_seqs_elem Hall]. rewrite Forall_forall in Hall.
  intros Hr. exists q. split; [done|]. split; [done|]. intros q' Hle Hs. by apply Hall, map_seqs_elem.
Qed.

Lemma latest_row_empty cm pk s :
  (∀ q, (q <= s)%Z → cm !! (pk, q) = None) → latest_row cm pk s = None.
Proof.
  intros Hno. destruct (latest_row cm pk s) as [r|] eqn:E; [|done].
  apply latest_row_inv in E as (q & Hq & Hle & _). by rewrite Hno in Hq.
Qed.

(** The latest row depends only on the rows up to the position. *)
Lemma latest_row_agree cm cm' pk s s' :
  (∀ q r, (q <= s)%Z ∧ cm !! (pk, q) = Some r ↔ (q <= s')%Z ∧ cm' !! (pk, q) = Some r) →
  latest_row cm pk s = latest_row cm' pk s'.
Proof.
  assert (∀ cm cm' s s' r,
    (∀ q r, (q <= s)%Z ∧ cm !! (pk, q) = Some r ↔ (q <= s')%Z ∧ cm' !! (pk, q) = Some r) →
    latest_row cm pk s = Some r → latest_row cm' pk s' = Some r) as Hhalf.
  { clear. intros cm cm' s s' r Hag (q & Hq & Hle & Hmax)%latest_row_inv.
    destruct (proj1 (Hag q r)) as [Hle' Hq']; [done|]. apply (latest_row_spec _ _ _ q); [done..|].
    intros q' Hs' [r' Hr']. destruct (proj2 (Hag q' r')) as [? ?]; [done|]. apply Hmax; [done|by eexists]. }
  intros Hag. apply option_eq. intros r. split; apply Hhalf; [done|]. intros. symmetry. apply Hag.
Qed.

(** Rows of later positions do not matter. *)
Lemma latest_row_insert cm pk q r s :
  (s < q)%Z → latest_row (<[(pk, q) := r]> cm) pk s = latest_row cm pk s.
Proof.
  intros Hlt. apply latest_row_agree. intros q' r'.
  destruct (decide (q = q')) as [->|]; [lia|]. by rewrite lookup_insert_ne by congruence.
Qed.

Lemma removelast_elem {A} (x : A) l : x ∈ removelast l → x ∈ l.
Proof.
  intros Hx. destruct l as [|a l]; [done|]. rewrite (app_removelast_last a (l := a :: l)) by done.
  by apply elem_of_app; left.
Qed.

(** ** Trees that a batch reads *)

Section Batch.
Context {GO : GitObjects} {GL : GitLaws} {MC : MemoCapacity}.

Lemma overlay_sound source T :
  source_sound source → trees_sound T → source_sound (overlay_read_tree source T).
Proof.
  intros Hs HT id t. unfold overlay_read_tree.
  destruct (T !! id) as [d|] eqn:E; [|apply Hs]. by apply (parsed_sound T).
Qed.

(** Every tree row of the tables is the tree of its identifier. *)
Definition tables_sound (db : ViewTables) : Prop :=
  ∀ id d, load_tree db id = Some d →
    ∃ es, dir_wf es ∧ id = dir_id es ∧ tree_to_data (map entry_item es) = Some d.

Lemma prefetch_sound db empty source ids :
  tables_sound db → trees_sound (tree_bytes source) →
  trees_sound (tree_bytes (prefetch db empty source ids)).
Proof.
  intros Hdb Hs. apply trees_sound_union; [|done]. intros id d E.
  apply elem_of_list_to_map_2, list_elem_of_omap in E as (id' & _ & E').
  destruct (load_tree db id') as [d'|] eqn:El; simplify_eq/=. by apply Hdb.
Qed.

(** The chain names trees. *)
Definition chain_sound (db : ViewTables) : Prop :=
  ∀ s c id, root_chain db !! s = Some (c, id) → ∃ t, dir_wf t ∧ id = dir_id t.

(** ** Trials *)

Context (sha256_hex : text → text) (first_key : memo_entries → option MemoKey) `{!FirstKey first_key}.

Section Filter.
Context (db : ViewTables) (f : Filter) (Hdb : tables_sound db) (Hchain : chain_sound db) (Pf : printable f).

(** The output at a position is the view of the tree there. *)
Definition outputs_ok (outputs : gmap Z FilterOutput) : Prop :=
  ∀ s o, outputs !! s = Some o → ∀ c t, root_chain db !! s = Some (c, dir_id t) → dir_wf t → output_ok f t o.

(** Rows of the chain from position [k] on, without gaps. *)
Fixpoint rows_from (k : Z) (rows : list chain_row) : Prop :=
  match rows with
  | [] => True
  | (s, r) :: rows => s = k ∧ root_chain db !! k = Some r ∧ rows_from (k + 1) rows
  end.

Lemma filter_tree_step source fuel m t :
  source_sound source → dir_wf t → memo_ok m →
  let '(m', r) := filter_tree first_key source fuel m f (dir_id t) in
  memo_ok m' ∧ ∀ o, r = Ok o → output_ok f t o.
Proof.
  intros Hs W Hm. pose proof (filter_tree_outcome source Hs first_key fuel m f t Pf W Hm) as Ho.
  destruct (filter_tree _ _ _ _ _ _) as [m' r]. destruct Ho as [? Ho]. split; [done|]. by intros o ->.
Qed.

Lemma trial_rows_ok fuel source p k rows m outputs needed :
  source_sound source → rows_from k rows → memo_ok m → outputs_ok outputs →
  let '(m', outputs', _) := trial_rows first_key fuel source f p rows m outputs needed in
  memo_ok m' ∧ outputs_ok outputs'.
Proof.
  intros Hs. revert k m outputs needed. induction rows as [|[s [c id]] rows IH]; intros k m outputs needed;
    cbn [rows_from trial_rows]; [done|]. intros (-> & Hc & Hr) Hm Ho.
  destruct (_ || _); [by apply (IH (k + 1)%Z)|]. destruct (Hchain _ _ _ Hc) as (t & W & ->).
  pose proof (filter_tree_step source fuel m t Hs W Hm) as Hft.
  destruct (filter_tree _ _ _ _ _ _) as [m1 r]. destruct Hft as [Hm1 Hok].
  apply (IH (k + 1)%Z); [done..|]. destruct r as [o| | |]; try done.
  intros s o' E c' t' Hc' W'. destruct (decide (s = k)) as [->|Hne].
  - rewrite lookup_insert_eq in E. rewrite Hc in Hc'. injection E as <-. injection Hc' as _ Hid.
    apply dir_id_inj in Hid as <-; auto.
  - rewrite lookup_insert_ne in E by done. by eapply Ho.
Qed.

Lemma prefetch_outputs_ok rounds fuel empty p k rows m source outputs prefetched :
  trees_sound (tree_bytes source) → rows_from k rows → memo_ok m → outputs_ok outputs →
  let '(m', r) := prefetch_outputs first_key rounds fuel db empty f p rows m source outputs prefetched in
  memo_ok m' ∧ ∀ source' outputs', r = Ok (source', outputs') →
    trees_sound (tree_bytes source') ∧ outputs_ok outputs'.
Proof.
  revert m source outputs prefetched. induction rounds as [|rounds IH]; intros m source outputs prefetched Hs Hr Hm Ho;
    cbn [prefetch_outputs]; [done|].
  pose proof (trial_rows_ok fuel (view_read_tree source) p k rows m outputs []
    (in_memory_sound source Hs) Hr Hm Ho) as Ht.
  destruct (trial_rows _ _ _ _ _ _ _ _ _) as [[m1 outputs1] needed]. destruct Ht as [Hm1 Ho1].
  case_bool_decide; [by split; [done|]; intros ? ? [= <- <-]|]. destruct (existsb _ _); [done|].
  apply IH; auto using prefetch_sound.
Qed.

(** ** Projecting a row *)

Lemma r8_loop_ok fuel source fid seq ops m available t level :
  source_sound source → Forall printable ops → memo_ok m → trees_sound available → dir_wf t →
  memo_ok (r8_loop first_key fuel source fid seq m available (dir_id t) level ops).1.1.
Proof.
  intros Hs Hops. revert m available t level. induction Hops as [|op ops Pop _ IH];
    intros m available t level Hm HA W; cbn [r8_loop]; [done|].
  pose proof (filter_tree_outcome _ (overlay_sound source available Hs HA) first_key fuel m op t Pop W Hm) as Ho.
  destruct (filter_tree _ _ _ _ _ _) as [m1 r]. destruct Ho as [Hm1 Ho]. destruct r as [o|e| |]; try done.
  destruct Ho as (HT & t' & -> & (W' & _) & _).
  assert (memo_ok (r8_loop first_key fuel source fid seq m1 (output_trees o ∪ available) (dir_id t') (S level) ops).1.1)
    by (apply IH; auto using trees_sound_union).
  destruct (is_empty_root _ _ _) as [[]| | |]; try done. by destruct (negb _).
Qed.

Lemma detect_r8_ok fuel source m input t :
  source_sound source → memo_ok m → dir_wf t → in_tree_id input = dir_id t →
  memo_ok (detect_r8 sha256_hex first_key fuel source m f input).1.1.
Proof.
  intros Hs Hm W Ht. unfold detect_r8. destruct f as [| | | |ops| |] eqn:Ef; try done. rewrite Ht.
  apply r8_loop_ok; auto using trees_sound_empty.
  destruct Pf as (_ & _ & Hops). rewrite foldr_and in Hops.
  rewrite Forall_forall in *. intros op Hop. apply Hops. by apply removelast_elem.
Qed.

(** What a projection decides: a commit on top of the previous one, the remark that the
    view is empty, or nothing, when the view is the previous one. *)
Definition decision (input : ProjectionInput) (parent : text) (prev : PreviousProjection) (out : text)
    (segment : option Segment) : Prop :=
  match segment with
  | Some seg =>
      seg_seq seg = in_seq input ∧ seg_view_tree seg = out ∧
      match seg_view_commit seg with
      | Some commit =>
          (∃ row, in_row input = Some row
                  ∧ rewrite_commit row out (option_list (prev_view_commit prev)) = inr commit)
          ∧ (is_Some (prev_view_commit prev) → out = prev_view_tree prev → in_tree_id input = parent)
      | None => is_empty_tree out = true ∧ in_seq input = 1%Z ∧ prev_view_commit prev = None
      end
  | None =>
      (prev_view_commit prev = None ∧ in_seq input ≠ 1%Z ∧ is_empty_tree out = true)
      ∨ (is_Some (prev_view_commit prev) ∧ out = prev_view_tree prev)
  end.

Lemma write_segment_decision input parent prev out seg :
  (is_Some (prev_view_commit prev) → out = prev_view_tree prev → in_tree_id input = parent) →
  write_segment input out (option_list (prev_view_commit prev)) = Ok seg → decision input parent prev out seg.
Proof.
  unfold write_segment, decision. intros Hne E. destruct (in_row input) as [row|]; [|done].
  destruct (rewrite_commit _ _ _) as [|commit] eqn:Er; simplify_eq/=. eauto 10.
Qed.

Lemma project_from_output_decision fuel source input parent prev o seg :
  project_from_output fuel source input parent prev o = Ok seg →
  decision input parent prev (output_tree_id o) seg.
Proof.
  unfold project_from_output. destruct (prev_view_commit prev) as [vc|] eqn:Ep.
  - pose proof (write_segment_decision input parent prev (output_tree_id o) seg) as Hw. rewrite Ep in Hw.
    case_bool_decide; [by apply Hw|]. case_bool_decide; [|by apply Hw].
    intros [= <-]. right. rewrite Ep. eauto.
  - assert (write_segment input (output_tree_id o) [] = Ok seg → decision input parent prev (output_tree_id o) seg) as Hw.
    { intros E. apply write_segment_decision; rewrite Ep; [by intros []|done]. }
    assert ((if is_empty_tree (output_tree_id o) then
          Ok (if bool_decide (in_seq input = 1%Z)
              then Some (mk_Segment 1 None (output_tree_id o)) else None)
        else write_segment input (output_tree_id o) []) = Ok seg →
        decision input parent prev (output_tree_id o) seg) as Hrest.
    { destruct (is_empty_tree _) eqn:Ee; [|done]. intros [= <-]. case_bool_decide; [by simpl; auto|left; auto]. }
    case_bool_decide; [|done]. by destruct (is_empty_root _ _ _) as [[]| | |].
Qed.

Lemma project_with_output_ok fuel source m request t o :
  source_sound source → memo_ok m → dir_wf t → in_tree_id (request_input request) = dir_id t →
  let '(m', _, _, r) := project_with_output sha256_hex first_key fuel source m f request o in
  memo_ok m' ∧ ∀ seg, r = Ok seg →
    decision (request_input request) (request_parent_tree request) (request_prev request) (output_tree_id o) seg.
Proof.
  intros Hs Hm W Ht. unfold project_with_output. destruct (project_from_output _ _ _ _ _ _) as [seg| | |] eqn:E; try done.
  apply project_from_output_decision in E. pose proof (detect_r8_ok fuel source m (request_input request) t Hs Hm W Ht).
  destruct (should_detect_r8 _ _ _); [|by split; [|intros ? [= <-]]].
  destruct (detect_r8 _ _ _ _ _ _ _) as [[m' ?] ?]. by split; [|intros ? [= <-]].
Qed.

(** A row that is projected: its decision is about the view of its tree. *)
Definition projected (request : ProjectionRequest) (t : dir) (seg : option Segment) : Prop :=
  ∃ v, result f t v ∧
    decision (request_input request) (request_parent_tree request) (request_prev request) (dir_id v) seg.

Lemma projected_of_output request t o seg :
  output_ok f t o →
  decision (request_input request) (request_parent_tree request) (request_prev request) (output_tree_id o) seg →
  projected request t seg.
Proof. intros (_ & v & -> & Hr & _) Hd. by exists v. Qed.

Lemma project_once_ok fuel source m request t output :
  source_sound source → memo_ok m → dir_wf t → in_tree_id (request_input request) = dir_id t →
  (∀ o, output = Some o → output_ok f t o) →
  let '(m', _, _, r) :=
    match output with
    | Some o => project_with_output sha256_hex first_key fuel source m f request o
    | None => project_commit sha256_hex first_key fuel source m f request
    end in
  memo_ok m' ∧ ∀ seg, r = Ok seg → projected request t seg.
Proof.
  intros Hs Hm W Ht Ho. destruct output as [o|].
  - pose proof (project_with_output_ok fuel source m request t o Hs Hm W Ht) as H.
    destruct (project_with_output _ _ _ _ _ _ _ _) as [[[m' ?] ?] r]. destruct H as [? Hd].
    split; [done|]. intros seg E. eapply projected_of_output; eauto.
  - unfold project_commit. rewrite Ht. pose proof (filter_tree_step source fuel m t Hs W Hm) as Hft.
    destruct (filter_tree _ _ _ _ _ _) as [m1 r]. destruct Hft as [Hm1 Hok]. destruct r as [o| | |]; try done.
    pose proof (project_with_output_ok fuel source m1 request t o Hs Hm1 W Ht) as H.
    destruct (project_with_output _ _ _ _ _ _ _ _) as [[[m' ?] ?] r]. destruct H as [? Hd].
    split; [done|]. intros seg E. eapply projected_of_output; eauto.
Qed.

Lemma project_with_prefetch_ok rounds fuel empty request t output m source prefetched :
  trees_sound (tree_bytes source) → memo_ok m → dir_wf t → in_tree_id (request_input request) = dir_id t →
  (∀ o, output = Some o → output_ok f t o) →
  let '(m', source', r) := project_with_prefetch sha256_hex first_key rounds fuel db empty f request output
                             m source prefetched in
  memo_ok m' ∧ trees_sound (tree_bytes source') ∧ ∀ seg, r = Ok (Ok seg) → projected request t seg.
Proof.
  intros Hs Hm W Ht Ho. revert m source prefetched Hs Hm.
  induction rounds as [|rounds IH]; intros m source prefetched Hs Hm; cbn [project_with_prefetch]; [done|].
  pose proof (project_once_ok fuel (view_read_tree source) m request t output
    (in_memory_sound source Hs) Hm W Ht Ho) as H.
  destruct (match output with Some _ => _ | None => _ end) as [[[m' needed] ?] r]. destruct H as [Hm' Hd].
  case_bool_decide; [by split; [done|]; split; [done|]; intros ? [= ->]; auto|]. destruct (existsb _ _); [done|].
  apply IH; auto using prefetch_sound.
Qed.
End Filter.
End Batch.

(** * Views in step with the chain *)

#[local] Open Scope Z_scope.

(** The commit of a view before a position. *)
Definition commit_before (cm : view_map) (pk q : Z) : option text := latest_row cm pk (q - 1) ≫= fst.

Section Tracks.
Context {GO : GitObjects} {GL : GitLaws} {MC : MemoCapacity}.
Context (db : ViewTables) (pk : Z) (f : Filter).

(** The view of the tree at a position. *)
Definition view_at (cm : view_map) (s : Z) : Prop :=
  ∃ c t vc v, root_chain db !! s = Some (c, dir_id t) ∧ dir_wf t
    ∧ latest_row cm pk s = Some (vc, dir_id v) ∧ result f t v ∧ (vc = None → v = []).

(** A commit of the view: the rewritten commit of its position.  It is there for a
    reason: the view has changed, or the commit did not change the tree. *)
Definition commit_at (cm : view_map) (q : Z) (vc vt : text) : Prop :=
  ∃ c tree row id data, root_chain db !! q = Some (c, tree) ∧ mono_commits db !! c = Some row
    ∧ rewrite_commit row vt (option_list (commit_before cm pk q)) = inr (id, data)
    ∧ vc = hash_to_string id
    ∧ (∀ vc', latest_row cm pk (q - 1) = Some (Some vc', vt) → ∃ c', root_chain db !! (q - 1) = Some (c', tree)).

Record tracks (cm : view_map) (n : Z) : Prop := mk_tracks {
  tracks_rows : ∀ q, is_Some (cm !! (pk, q)) → 1 <= q <= n;
  tracks_views : ∀ s, 1 <= s <= n → view_at cm s;
  tracks_commits : ∀ q vc vt, cm !! (pk, q) = Some (Some vc, vt) → commit_at cm q vc vt;
}.

Definition prev_at (cm : view_map) (n : Z) : PreviousProjection :=
  match latest_row cm pk n with
  | None => mk_PreviousProjection None (dir_id [])
  | Some (vc, vt) => mk_PreviousProjection vc vt
  end.

Lemma prev_commit_before cm n : prev_view_commit (prev_at cm n) = commit_before cm pk (n + 1).
Proof.
  unfold prev_at, commit_before. replace (n + 1 - 1) with n by lia.
  by destruct (latest_row cm pk n) as [[vc vt]|].
Qed.

Lemma latest_row_after cm n s : tracks cm n → n <= s → latest_row cm pk s = latest_row cm pk n.
Proof.
  intros Ht Hs. apply latest_row_agree. intros q r. split; intros [Hq Hr]; (split; [|done]); [|lia].
  apply (tracks_rows _ _ Ht). by eexists.
Qed.

(** A row keeps what is said of the positions before it. *)
Lemma view_at_insert cm q r s : s < q → view_at cm s → view_at (<[(pk, q) := r]> cm) s.
Proof. intros Hlt. unfold view_at. by rewrite latest_row_insert. Qed.

Lemma commit_at_insert cm q r q' vc vt :
  q' <= q → commit_at cm q' vc vt → commit_at (<[(pk, q) := r]> cm) q' vc vt.
Proof. intros Hlt. unfold commit_at, commit_before. by rewrite !latest_row_insert by lia. Qed.

Lemma is_empty_dir v : dir_wf v → is_empty_tree (dir_id v) = true → v = [].
Proof.
  intros W. unfold is_empty_tree. rewrite empty_tree_id_eq, bool_decide_eq_true. intros E.
  apply dir_id_inj; [done|apply dir_wf_nil|done].
Qed.

(** ** One row *)

Definition segment_row (seg : Segment) : (Z * Z) * (option text * text) :=
  ((pk, seg_seq seg), ((λ c, hash_to_string (fst c)) <$> seg_view_commit seg, seg_view_tree seg)).

Definition insert_segment (cm : view_map) (seg : option Segment) : view_map :=
  match seg with
  | None => cm
  | Some seg => <[(segment_row seg).1 := (segment_row seg).2]> cm
  end.

Section Step.
Context (cm : view_map) (n : Z) (Htr : tracks cm n) (Hn : 0 <= n).
Context (c : text) (t : dir) (parent : text).
Context (Hrow : root_chain db !! (n + 1) = Some (c, dir_id t)) (W : dir_wf t).
Context (Hparent : 1 <= n → ∃ c', root_chain db !! n = Some (c', parent)).

Let request := mk_ProjectionRequest (mk_ProjectionInput (n + 1) c (dir_id t) (mono_commits db !! c)) parent (prev_at cm n).

Lemma tracks_none : projected f request t None → tracks cm (n + 1).
Proof.
  intros (v & Hr & Hd). split; [intros q Hq%(tracks_rows _ _ Htr); lia| |apply (tracks_commits _ _ Htr)].
  intros s Hs. destruct (decide (s = n + 1)) as [->|]; [|apply (tracks_views _ _ Htr); lia].
  unfold view_at. rewrite (latest_row_after cm n) by (done || lia). cbn in Hd. destruct Hd as [(Hc & Hne & He)|[[vc Hc] Ev]].
  - destruct (tracks_views _ _ Htr n) as (? & ? & vc & v' & _ & _ & Hl & _ & Hv'); [lia|].
    unfold prev_at in Hc. rewrite Hl in *. cbn in Hc. apply is_empty_dir in He as ->; [|apply Hr].
    rewrite (Hv' Hc). by exists c, t, vc, [].
  - unfold prev_at in *. destruct (latest_row cm pk n) as [[vc' vt]|] eqn:El; simplify_eq/=.
    by exists c, t, (Some vc), v.
Qed.

Lemma tracks_some seg : projected f request t (Some seg) → tracks (insert_segment cm (Some seg)) (n + 1).
Proof.
  intros (v & Hr & Hs & Ht & Hd). cbn in Hs. destruct seg as [seq vc vt]. simplify_eq/=. split.
  - intros q Hq. destruct (decide (q = n + 1)) as [->|Hne]; [lia|].
    rewrite lookup_insert_ne in Hq by congruence. apply (tracks_rows _ _ Htr) in Hq. lia.
  - intros s Hs. destruct (decide (s = n + 1)) as [->|]; [|apply view_at_insert; [lia|apply (tracks_views _ _ Htr); lia]].
    exists c, t, ((λ x, hash_to_string x.1) <$> vc), v. split; [done|]. split; [done|]. split; [|split; [done|]].
    + apply (latest_row_spec _ pk _ (n + 1)); [by rewrite lookup_insert_eq|lia|by intros].
    + intros Hvc. destruct vc; [done|]. destruct Hd as (He & _). apply is_empty_dir in He; [done|apply Hr].
  - intros q vc' vt E. destruct (decide (q = n + 1)) as [->|Hne].
    + rewrite lookup_insert_eq in E. simplify_eq. destruct vc as [[id data]|]; [|done]. simplify_eq/=.
      destruct Hd as [(row & Hrw & Hrew) Hwhy]. apply commit_at_insert; [lia|]. rewrite prev_commit_before in Hrew.
      exists c, (dir_id t), row, id, data. split; [done|]. split; [done|]. split; [done|]. split; [done|].
      replace (n + 1 - 1) with n by lia. intros vc' Hl. unfold prev_at in Hwhy. rewrite Hl in Hwhy. cbn in Hwhy.
      rewrite Hwhy by eauto. apply Hparent. destruct (decide (1 <= n)); [done|].
      rewrite latest_row_empty in Hl; [done|]. intros q Hq. apply eq_None_not_Some. intros Hq'%(tracks_rows _ _ Htr). lia.
    + rewrite lookup_insert_ne in E by congruence. apply commit_at_insert; [|by apply (tracks_commits _ _ Htr)].
      assert (1 <= q <= n); [|lia]. apply (tracks_rows _ _ Htr). by eexists.
Qed.
End Step.
End Tracks.

(** ** A batch *)

Lemma insert_ignore_snoc `{Countable K} {V} (rows : list (K * V)) r table :
  insert_ignore (rows ++ [r]) table =
    match insert_ignore rows table !! r.1 with
    | Some _ => insert_ignore rows table
    | None => <[r.1 := r.2]> (insert_ignore rows table)
    end.
Proof. unfold insert_ignore. by rewrite fold_left_app. Qed.

Section Loop.
Context {GO : GitObjects} {GL : GitLaws} {MC : MemoCapacity}.
Context (sha256_hex : text → text) (first_key : memo_entries → option MemoKey) `{!FirstKey first_key}.
Context (db : ViewTables) (pk : Z) (f : Filter).
Context (Hdb : tables_sound db) (Hchain : chain_sound db) (Pf : printable f).
Context (rounds fuel : nat) (row : FilterRow) (outputs : gmap Z FilterOutput) (Houts : outputs_ok db f outputs).

(** The commit map that the batch will write. *)
Definition batch_map (batch : Batch) : view_map :=
  insert_ignore (map (segment_row pk) (batch_segments batch)) (commit_map db).

Definition batch_inv (batch : Batch) (n : Z) : Prop :=
  tracks db pk f (batch_map batch) n ∧ batch_previous batch = prev_at pk (batch_map batch) n
  ∧ ∀ s o, batch_outputs batch !! s = Some o → trees_sound (output_trees o).

Lemma batch_map_push batch n output seg :
  tracks db pk f (batch_map batch) n → n < seg_seq seg →
  batch_map (push_segment batch output (Some seg)) = insert_segment pk (batch_map batch) (Some seg).
Proof.
  intros Ht Hn. unfold batch_map, push_segment. cbn [batch_segments]. rewrite map_app. cbn [map].
  rewrite insert_ignore_snoc. destruct (insert_ignore _ _ !! _) as [r|] eqn:E; [|done].
  assert (1 <= seg_seq seg <= n); [|lia]. apply (tracks_rows _ _ _ _ _ Ht). by eexists.
Qed.

Lemma batch_step batch n c t parent seg :
  batch_inv batch n → 0 <= n → root_chain db !! (n + 1) = Some (c, dir_id t) → dir_wf t →
  (1 <= n → ∃ c', root_chain db !! n = Some (c', parent)) →
  projected f (mk_ProjectionRequest (mk_ProjectionInput (n + 1) c (dir_id t) (mono_commits db !! c))
                 parent (batch_previous batch)) t seg →
  batch_inv (push_segment batch (outputs !! (n + 1)) seg) (n + 1).
Proof.
  intros (Ht & Hp & Ho) Hn Hr W Hpar Hproj. rewrite Hp in Hproj. destruct seg as [seg|].
  - pose proof (tracks_some db pk f (batch_map batch) n Ht Hn c t parent Hr W Hpar seg Hproj) as Ht'.
    destruct Hproj as (v & _ & Hs & _). cbn in Hs.
    rewrite <-(batch_map_push batch n (outputs !! (n + 1)) seg Ht) in Ht' by lia. split; [done|]. split.
    + unfold prev_at. rewrite (batch_map_push batch n _ seg Ht) by lia.
      erewrite latest_row_spec; [|apply lookup_insert_eq|lia|].
      * by destruct seg.
      * intros q ? _. lia.
    + cbn. intros s o. destruct (seg_view_commit seg); [|apply Ho].
      destruct (outputs !! (n + 1)) as [o'|] eqn:Eo; [|apply Ho]. rewrite Hs.
      intros [[_ <-]|[_ E]]%lookup_insert_Some; [|by eapply Ho]. by apply (Houts _ _ Eo _ _ Hr W).
  - split; [by apply (tracks_none db pk f (batch_map batch) n Ht Hn c t parent)|]. split; [|done].
    cbn. rewrite Hp. unfold prev_at. by rewrite (latest_row_after db pk f (batch_map batch) n (n + 1)) by (done || lia).
Qed.

Lemma project_rows_ok empty k parent rows m source batch :
  trees_sound (tree_bytes source) → memo_ok m → rows_from db k rows →
  batch_inv batch (Z.max (k - 1) (row_projected_seq row)) →
  0 <= row_projected_seq row → 1 <= k →
  (row_projected_seq row < k → 2 <= k → ∃ c', root_chain db !! (k - 1) = Some (c', parent)) →
  let '(m', r) := project_rows sha256_hex first_key rounds fuel db empty f row outputs parent rows m source batch in
  memo_ok m' ∧ ∀ batch' stop, r = Ok (batch', stop) →
    let n := match stop with
             | None => Z.max (k - 1 + Z.of_nat (length rows)) (row_projected_seq row)
             | Some s => stop_seq s - 1
             end in
    batch_inv batch' n ∧ row_projected_seq row <= n
    ∧ ∀ s, stop = Some s → stop_seq s <= k - 1 + Z.of_nat (length rows).
Proof.
  revert k parent m source batch. induction rows as [|[s [c id]] rows IH]; intros k parent m source batch Hs Hm Hr Hb Hp Hk Hpar;
    cbn [project_rows].
  { split; [done|]. intros batch' stop [= <- <-]. cbn. rewrite Z.add_0_r. split; [done|]. split; [lia|done]. }
  destruct Hr as (-> & Hc & Hr). destruct (Z.leb_spec k (row_projected_seq row)) as [Hle|Hlt].
  - specialize (IH (k + 1) id m source batch Hs Hm Hr). cbn [length].
    replace (k - 1 + Z.of_nat (S (length rows))) with (k + 1 - 1 + Z.of_nat (length rows)) by lia.
    apply IH; [|lia..|intros; replace (k + 1 - 1) with k by lia; by eexists].
    by replace (Z.max (k + 1 - 1) (row_projected_seq row)) with (Z.max (k - 1) (row_projected_seq row)) by lia.
  - destruct (Hchain _ _ _ Hc) as (t & W & ->).
    replace (Z.max (k - 1) (row_projected_seq row)) with (k - 1) in Hb by lia.
    set (request := mk_ProjectionRequest _ _ _).
    pose proof (project_with_prefetch_ok sha256_hex first_key db f Hdb Pf rounds fuel empty request t (outputs !! k)
      m source ∅ Hs Hm W eq_refl (λ o Eo, Houts _ _ Eo _ _ Hc W)) as H.
    destruct (project_with_prefetch _ _ _ _ _ _ _ _ _ _ _ _) as [[m1 source1] r]. destruct H as (Hm1 & Hs1 & Hd).
    destruct r as [[seg|[e|]| |]|e| |]; try done.
    + pose proof (batch_step batch (k - 1) c t parent seg) as Hstep. replace (k - 1 + 1) with k in Hstep by lia.
      specialize (IH (k + 1) (dir_id t) m1 source1 (push_segment batch (outputs !! k) seg) Hs1 Hm1 Hr). cbn [length].
      replace (k - 1 + Z.of_nat (S (length rows))) with (k + 1 - 1 + Z.of_nat (length rows)) by lia.
      apply IH; [|lia..|intros; replace (k + 1 - 1) with k by lia; by eexists].
      replace (Z.max (k + 1 - 1) (row_projected_seq row)) with k by lia.
      apply Hstep; [done|lia|done|done|intros; apply Hpar; lia|by apply Hd].
    + destruct (stop_dispatch e); [|done]. split; [done|]. intros batch' stop [= <- <-]. cbn [stop_seq length].
      split; [done|]. split; [lia|]. intros s [= <-]. cbn [stop_seq]. lia.
Qed.
End Loop.
