(* ===== verification/ViewCatchUpBatch.v ===== *)
(** * Catch-up: batches and the loop over them

    What a batch reads and writes, how every view stays in step with the chain
    ([views_ok]), and what the outcome of a batch and of the loop says
    ([outcome_says], [loop_result]). *)
From stdpp Require Import base strings numbers tactics list sorting gmap.
From S2P Require Import Prelude Text FilterSyntax FilterParse FilterRoundTrip FilterCanonical FilterDefinition.
From S2P Require Import CommitMessage CanonicalJson GitObjects TreeSource ViewMemo ViewTree FileTree ViewShows.
From S2P Require Import ViewTreeOps ViewTreeEval ViewCommit ViewProject ViewCatchUp ViewCatchUpInv.

#[local] Open Scope Z_scope.

(** ** Rows of the chain *)

Section Rows.
Context (db : ViewTables).

Definition chain_entry (s : Z) : option chain_row := pair s <$> root_chain db !! s.

Lemma chain_entries_cons s l :
  omap chain_entry (s :: l) = match chain_entry s with Some r => r :: omap chain_entry l | None => omap chain_entry l end.
Proof. done. Qed.

Lemma chain_entries_length l : (length (omap chain_entry l) ≤ length l)%nat.
Proof. induction l as [|s l IH]; [done|]. rewrite chain_entries_cons. destruct (chain_entry s); simpl; lia. Qed.

Lemma rows_from_seqZ len k :
  length (omap chain_entry (seqZ k (Z.of_nat len))) = len → rows_from db k (omap chain_entry (seqZ k (Z.of_nat len))).
Proof.
  revert k. induction len as [|len IH]; intros k; [done|].
  rewrite seqZ_cons by lia. replace (Z.pred (Z.of_nat (S len))) with (Z.of_nat len) by lia.
  replace (Z.succ k) with (k + 1) by lia. rewrite chain_entries_cons. destruct (chain_entry k) as [r|] eqn:Er.
  - unfold chain_entry in Er. destruct (root_chain db !! k) as [r'|] eqn:E; [|done]. injection Er as <-.
    cbn [length]. intros H. split; [done|]. split; [done|]. apply IH. lia.
  - intros H. pose proof (chain_entries_length (seqZ (k + 1) (Z.of_nat len))) as Hl. rewrite length_seqZ in Hl. lia.
Qed.

(** Contiguous rows are those of the chain. *)
Lemma contiguous_rows_from first last :
  first <= last → contiguous_rows (projection_rows db first last) first last = true →
  rows_from db first (projection_rows db first last)
  ∧ Z.of_nat (length (projection_rows db first last)) = last - first + 1.
Proof.
  intros Hle H. apply andb_true_iff in H as [Hl _]. apply Z.eqb_eq in Hl. split; [|done].
  unfold projection_rows in *. fold chain_entry in *.
  replace (last - first + 1) with (Z.of_nat (Z.to_nat (last - first + 1))) in * by lia.
  apply rows_from_seqZ. lia.
Qed.
End Rows.

(** ** Writing a batch *)

Lemma insert_ignore_keeps `{Countable K} {V} (rows : list (K * V)) table k v :
  table !! k = Some v → insert_ignore rows table !! k = Some v.
Proof.
  intros E. induction rows as [|r rows IH] using rev_ind; [done|]. rewrite insert_ignore_snoc.
  destruct (insert_ignore rows table !! r.1) eqn:Er; [done|]. rewrite lookup_insert_ne; [done|]. congruence.
Qed.

Lemma insert_ignore_lookup `{Countable K} {V} (rows : list (K * V)) table k v :
  insert_ignore rows table !! k = Some v → table !! k = Some v ∨ (table !! k = None ∧ (k, v) ∈ rows).
Proof.
  induction rows as [|r rows IH] using rev_ind; [by left|]. rewrite insert_ignore_snoc.
  assert (insert_ignore rows table !! k = Some v →
    table !! k = Some v ∨ (table !! k = None ∧ (k, v) ∈ rows ++ [r])) as Hold.
  { intros [?|[? ?]]%IH; [by left|]. right. split; [done|]. apply elem_of_app. by left. }
  destruct (insert_ignore rows table !! r.1) eqn:E; [done|].
  intros [[<- <-]|[_ Hk]]%lookup_insert_Some; [|auto].
  right. split; [|apply elem_of_app; right; destruct r; by left].
  destruct (table !! r.1) eqn:Et; [|done]. by rewrite (insert_ignore_keeps rows _ _ _ Et) in E.
Qed.

Section Write.
Context {GO : GitObjects} {GL : GitLaws} {MC : MemoCapacity}.

(** The trees among the objects of a batch are those of its outputs. *)
Lemma batch_objects_trees batch id d :
  batch_objects batch !! id = Some (2, d) →
  ∃ s o, batch_outputs batch !! s = Some o ∧ output_trees o !! id = Some d.
Proof.
  unfold batch_objects. set (commits := fold_left _ _ _).
  assert (∀ id d, commits !! id = Some (2, d) → False) as Hc.
  { subst commits. clear id d. induction (batch_segments batch) as [|seg segs IH] using rev_ind; [done|].
    intros id d. rewrite fold_left_app. cbn. destruct (seg_view_commit seg) as [[h data]|]; [|apply IH].
    intros [[_ ?]|[_ ?]]%lookup_insert_Some; [done|by eapply IH]. }
  revert id d. apply (map_fold_weak_ind (λ t outs, ∀ id d, t !! id = Some (2, d) →
    ∃ s o, outs !! s = Some o ∧ output_trees o !! id = Some d)).
  { intros id d E. by destruct (Hc id d). }
  intros s o outs t Hs IH id d.
  assert (∀ T, T ⊆ output_trees o → ∀ id d, map_fold (λ id data t, match t !! id with Some _ => t
    | None => <[id:=(2, data)]> t end) t T !! id = Some (2, d) → t !! id = Some (2, d) ∨ T !! id = Some d) as Hin.
  { intros T _. apply (map_fold_weak_ind (λ t' T, ∀ id d, t' !! id = Some (2, d) → t !! id = Some (2, d) ∨ T !! id = Some d));
      [by left|]. intros i x T' t' Hi IHt id' d'. destruct (t' !! i) eqn:E.
    - intros [?|?]%IHt; [by left|]. right. rewrite lookup_insert_ne by congruence. done.
    - intros [[<- [= <-]]|[Hne ?]]%lookup_insert_Some; [right; by rewrite lookup_insert_eq|].
      rewrite lookup_insert_ne by done. auto. }
  intros [?|?]%(Hin (output_trees o)); [| |done].
  - destruct (IH id d) as (s' & o' & ? & ?); [done|]. exists s', o'. rewrite lookup_insert_ne by congruence. done.
  - exists s, o. by rewrite lookup_insert_eq.
Qed.

Lemma load_tree_written db pk batch n id d :
  load_tree (write_projection_batch db pk batch n) id = Some d →
  load_tree db id = Some d ∨ ∃ s o, batch_outputs batch !! s = Some o ∧ output_trees o !! id = Some d.
Proof.
  unfold load_tree, write_projection_batch. cbn [view_objects mono_trees].
  rewrite map_lookup_imap. destruct (insert_ignore _ _ !! id) as [o|] eqn:E; cbn.
  - set (o' := match batch_objects batch !! id with Some _ => _ | None => o end).
    assert (object_kind o' = object_kind o ∧ object_data o' = object_data o) as [-> ->]
      by (subst o'; by destruct (batch_objects batch !! id)).
    apply insert_ignore_lookup in E as [->|[-> Hin]]; [by left|].
    apply list_elem_of_fmap in Hin as ([id' [k data]] & [= <- ->] & Hin). cbn.
    case_bool_decide as Ek; [|by left]. intros [= <-]. right. subst k.
    apply elem_of_map_to_list in Hin. by apply batch_objects_trees.
  - destruct (view_objects db !! id) as [o|] eqn:Ev; [|by left].
    by rewrite (insert_ignore_keeps _ _ _ _ Ev) in E.
Qed.

Lemma tables_sound_written db pk batch n :
  tables_sound db → (∀ s o, batch_outputs batch !! s = Some o → trees_sound (output_trees o)) →
  tables_sound (write_projection_batch db pk batch n).
Proof. intros Hdb Ho id d [?|(s & o & Hs & Hd)]%load_tree_written; [by apply Hdb|by apply (Ho _ _ Hs)]. Qed.

(** ** The views of all filters *)

(** [tracks] depends on the chain, the commits and the rows of the view. *)
Lemma latest_row_same cm cm' pk s :
  (∀ q, cm !! (pk, q) = cm' !! (pk, q)) → latest_row cm pk s = latest_row cm' pk s.
Proof. intros Hq. apply latest_row_agree. intros q r. by rewrite Hq. Qed.

Lemma tracks_weaken db db' pk f cm cm' n :
  root_chain db ⊆ root_chain db' → mono_commits db ⊆ mono_commits db' →
  (∀ q, cm !! (pk, q) = cm' !! (pk, q)) → tracks db pk f cm n → tracks db' pk f cm' n.
Proof.
  intros Hc Hm Hq [Hr Hv Hco]. split.
  - intros q. rewrite <-Hq. apply Hr.
  - intros s Hs. destruct (Hv s Hs) as (c & t & vc & v & ? & ? & ? & ?). exists c, t, vc, v.
    rewrite <-(latest_row_same cm cm') by done. split; [by eapply lookup_weaken|done].
  - intros q vc vt. rewrite <-Hq. intros (c & tree & row & id & data & H1 & H2 & H3 & H4 & H5)%Hco.
    exists c, tree, row, id, data. unfold commit_before. rewrite <-(latest_row_same cm cm') by done.
    split; [by eapply lookup_weaken|]. split; [by eapply lookup_weaken|]. split; [done|]. split; [done|].
    intros vc' E. destruct (H5 vc' E) as [c' ?]. exists c'. by eapply lookup_weaken.
Qed.

Context (sha256_hex : text → text) (first_key : memo_entries → option MemoKey) `{!FirstKey first_key}.

(** A view is in step with the chain up to its [projected_seq]. *)
Definition view_ok (db : ViewTables) (pk : Z) (row : FilterRow) : Prop :=
  0 <= row_projected_seq row ∧
  ∀ c, recheck_definition sha256_hex (row_canonical_spec row) (row_filter_id row) = Ok c →
       tracks db pk (FilterDefinition.filter c) (commit_map db) (row_projected_seq row).

Definition views_ok (db : ViewTables) : Prop :=
  tables_sound db ∧ chain_sound db ∧ ∀ pk row, view_filters db !! pk = Some row → view_ok db pk row.

Lemma view_ok_weaken db db' pk row row' :
  root_chain db ⊆ root_chain db' → mono_commits db ⊆ mono_commits db' →
  (∀ q, commit_map db !! (pk, q) = commit_map db' !! (pk, q)) →
  row_canonical_spec row' = row_canonical_spec row → row_filter_id row' = row_filter_id row →
  row_projected_seq row' = row_projected_seq row → view_ok db pk row → view_ok db' pk row'.
Proof.
  intros Hc Hm Hq E1 E2 E3 [Hp Ht]. unfold view_ok. rewrite E1, E2, E3. split; [done|].
  intros c Ec. apply (tracks_weaken db _ _ _ (commit_map db)); auto.
Qed.

Lemma recheck_printable spec id c :
  recheck_definition sha256_hex spec id = Ok c → printable (FilterDefinition.filter c).
Proof.
  unfold recheck_definition, parse. pose proof (parse_canonicalize spec PARSE_MAX_NESTING) as H.
  destruct (parse_with_max _ _); try done. destruct H as (c' & -> & Hc & _).
  repeat (case_bool_decide; cbn; try done). intros [= <-]. by apply canonical_printable.
Qed.

Lemma batch_bounds_Some s0 tip size first last :
  batch_bounds s0 tip size = Some (first, last) → 0 <= s0 < tip →
  first = Z.max s0 1 ∧ last = Z.min (s0 + size) tip ∧ first <= last ∧ s0 < last <= i64_max.
Proof.
  unfold batch_bounds. intros H Hs. destruct (Z.ltb_spec i64_max size); [done|].
  destruct (Z.leb_spec size 0); [done|]. destruct (Z.ltb_spec i64_max (s0 + size)); [done|].
  destruct (Z.leb_spec (Z.max s0 1) (Z.min (s0 + size) tip)); [|done]. simplify_eq.
  lia.
Qed.

(** ** A batch *)

(** What a batch does to the tables. *)
Inductive batch_result (db : ViewTables) (pk : Z) (row : FilterRow) (size : Z) : ViewTables → CatchUpOutcome → Prop :=
  | result_unchanged out :
      out = NotRun ∨ out = BatchPremiseFailed → batch_result db pk row size db out
  | result_covered c db' out :
      recheck_definition sha256_hex (row_canonical_spec row) (row_filter_id row) = Ok c →
      projection_tip db <= row_projected_seq row →
      (db', out) = ready_outcome (mark_ready_if_covered db pk (projection_tip db)) →
      batch_result db pk row size db' out
  | result_stopped c batch stop :
      recheck_definition sha256_hex (row_canonical_spec row) (row_filter_id row) = Ok c →
      batch_inv db pk (FilterDefinition.filter c) batch (stop_seq stop - 1) →
      row_projected_seq row < stop_seq stop <= projection_tip db →
      batch_result db pk row size (write_projection_batch db pk batch (stop_seq stop - 1)) (Stopped stop)
  | result_advanced c batch n :
      recheck_definition sha256_hex (row_canonical_spec row) (row_filter_id row) = Ok c →
      batch_inv db pk (FilterDefinition.filter c) batch n →
      row_projected_seq row < n < projection_tip db → n = row_projected_seq row + size →
      batch_result db pk row size (write_projection_batch db pk batch n) Advanced
  | result_finished c batch db' out :
      recheck_definition sha256_hex (row_canonical_spec row) (row_filter_id row) = Ok c →
      batch_inv db pk (FilterDefinition.filter c) batch (projection_tip db) →
      row_projected_seq row < projection_tip db →
      (db', out) = ready_outcome (mark_ready_if_covered
        (write_projection_batch db pk batch (projection_tip db)) pk (projection_tip db)) →
      batch_result db pk row size db' out.

Lemma catch_up_in_transaction_result rounds fuel db pk size m :
  views_ok db → memo_ok m →
  let '(m', r) := catch_up_in_transaction sha256_hex first_key rounds fuel db pk size m in
  memo_ok m' ∧ ∀ db' out, r = Ok (db', out) →
    ∃ row, view_filters db !! pk = Some row ∧ batch_result db pk row size db' out.
Proof.
  intros (Hdb & Hch & Hv) Hm. unfold catch_up_in_transaction.
  destruct (view_filters db !! pk) as [row|] eqn:Erow; [|done]. destruct (Hv _ _ Erow) as [Hp Htr].
  destruct (_ && _). { split; [done|]. intros ? ? [= <- <-]. exists row. split; [done|]. constructor. auto. }
  destruct (recheck_definition _ _ _) as [c| | |] eqn:Ec; try done.
  specialize (Htr c eq_refl). apply recheck_printable in Ec as Pf.
  destruct (Z.leb_spec (projection_tip db) (row_projected_seq row)) as [Hle|Hlt].
  { split; [done|]. intros db' out E. exists row. split; [done|]. eapply result_covered; [done..|congruence]. }
  destruct (batch_bounds _ _ _) as [[first last]|] eqn:Eb;
    [|split; [done|]; intros ? ? [= <- <-]; exists row; split; [done|]; constructor; auto].
  apply batch_bounds_Some in Eb as (Ef & El & Hfl & Hsl); [|lia].
  destruct (contiguous_rows _ _ _) eqn:Econ; cbn [negb];
    [|split; [done|]; intros ? ? [= <- <-]; exists row; split; [done|]; constructor; auto].
  apply contiguous_rows_from in Econ as [Hrows Hlen]; [|done].
  rewrite empty_tree_id_eq. fold (dir_id []).
  set (rows := projection_rows db first last) in *. set (source := prefetch _ _ _ _).
  assert (trees_sound (tree_bytes source)) as Hs by (apply prefetch_sound; [done|apply trees_sound_empty]).
  pose proof (prefetch_outputs_ok first_key db (FilterDefinition.filter c) Hdb Hch Pf rounds fuel (dir_id [])
    (row_projected_seq row) first rows m source ∅ ∅ Hs Hrows Hm) as Hpre.
  destruct (prefetch_outputs _ _ _ _ _ _ _ _ _ _ _ _) as [m1 r]. destruct Hpre as [Hm1 Hr1]; [done|].
  destruct r as [[source1 outputs]| | |]; try done. destruct (Hr1 _ _ eq_refl) as [Hs1 Ho1].
  pose proof (project_rows_ok sha256_hex first_key db pk (FilterDefinition.filter c) Hdb Hch Pf rounds fuel row outputs Ho1
    (dir_id []) first (dir_id []) rows m1 source1
    (mk_Batch [] ∅ (previous_projection db pk (row_projected_seq row) (dir_id []))) Hs1 Hm1 Hrows) as Hrow.
  destruct (project_rows _ _ _ _ _ _ _ _ _ _ _ _ _ _) as [m2 r].
  destruct Hrow as [Hm2 Hr2].
  { replace (Z.max (first - 1) (row_projected_seq row)) with (row_projected_seq row) by lia.
    split; [done|]. split; [done|]. cbn. by intros s o ?%lookup_empty_Some. }
  { lia. } { lia. } { lia. }
  destruct r as [[batch stop]| | |]; try done. destruct (Hr2 _ _ eq_refl) as (Hinv & Hn & Hstop). clear Hr1 Hr2.
  replace (Z.max (first - 1 + Z.of_nat (length rows)) (row_projected_seq row)) with last in * by lia.
  destruct stop as [stop|].
  - split; [done|]. intros ? ? [= <- <-]. exists row. split; [done|]. specialize (Hstop _ eq_refl).
    eapply result_stopped; [done..|lia].
  - destruct (Z.eqb_spec last (projection_tip db)) as [->|Hne].
    + split; [done|]. intros ? ? E. exists row. split; [done|]. eapply result_finished; [done..|congruence].
    + split; [done|]. intros ? ? [= <- <-]. exists row. split; [done|]. eapply result_advanced; [done..|lia|lia].
Qed.

(** ** The tables after a batch *)

(** The filters of [db'] are those of [db], and [pk] is projected up to [n]. *)
Definition filters_kept (db db' : ViewTables) (pk n : Z) : Prop :=
  (∀ pk', pk' ≠ pk → view_filters db' !! pk' = view_filters db !! pk') ∧
  ∀ row, view_filters db !! pk = Some row → ∃ row', view_filters db' !! pk = Some row'
    ∧ row_canonical_spec row' = row_canonical_spec row ∧ row_filter_id row' = row_filter_id row
    ∧ row_projected_seq row' = n.

Lemma written_ok db pk row c batch n :
  views_ok db → view_filters db !! pk = Some row →
  recheck_definition sha256_hex (row_canonical_spec row) (row_filter_id row) = Ok c →
  batch_inv db pk (FilterDefinition.filter c) batch n → row_projected_seq row <= n →
  views_ok (write_projection_batch db pk batch n) ∧ filters_kept db (write_projection_batch db pk batch n) pk n.
Proof.
  intros (Hdb & Hch & Hv) Erow Ec (Ht & _ & Ho) Hn. split; [split; [by apply tables_sound_written|split; [done|]]|split].
  - intros pk' row'. cbn [write_projection_batch view_filters]. destruct (decide (pk = pk')) as [<-|Hne].
    + rewrite lookup_alter_eq, Erow. intros [= <-]. destruct (Hv _ _ Erow) as [Hp _].
      split; cbn [row_projected_seq row_canonical_spec row_filter_id]; [lia|].
      intros c' E. rewrite Ec in E. injection E as <-. rewrite Z.max_r by done. by apply (tracks_weaken db _ _ _ (batch_map db pk batch)).
    + rewrite lookup_alter_ne by done. intros E. apply (view_ok_weaken db _ _ row'); auto.
      intros q. cbn. destruct (commit_map db !! (pk', q)) as [r|] eqn:Eq; symmetry; [by apply insert_ignore_keeps|].
      apply eq_None_not_Some. intros [r [Er|[_ Hin]]%insert_ignore_lookup]; [congruence|].
      apply list_elem_of_fmap in Hin as (seg & [= ? ? ?] & _). congruence.
  - intros pk' Hne. cbn. by rewrite lookup_alter_ne.
  - intros row' E. rewrite Erow in E. injection E as <-. eexists. cbn. rewrite lookup_alter_eq, Erow. split; [done|]. cbn. split; [done|].
    split; [done|lia].
Qed.

Lemma mark_ready_ok db pk tip n :
  views_ok db → (∀ row, view_filters db !! pk = Some row → row_projected_seq row = n) →
  views_ok (mark_ready_if_covered db pk tip).1 ∧ filters_kept db (mark_ready_if_covered db pk tip).1 pk n.
Proof.
  intros (Hdb & Hch & Hv) Hn. unfold mark_ready_if_covered.
  assert (views_ok db ∧ filters_kept db db pk n) as Hsame by (split; [done|split; [done|]]; eauto 10).
  destruct (root_chain db !! tip) as [[c t]|]; [|done]. case_bool_decide; [|done]. clear Hsame.
  split; [split; [done|split; [done|]]|split].
  - intros pk' row'. cbn [fst view_filters]. destruct (decide (pk = pk')) as [<-|Hne].
    + rewrite lookup_alter_eq. destruct (view_filters db !! pk) as [row|] eqn:E; [|done]. intros [= <-].
      apply (view_ok_weaken db _ _ row); auto.
    + rewrite lookup_alter_ne by done. intros E. apply (view_ok_weaken db _ _ row'); auto.
  - intros pk' Hne. cbn. by rewrite lookup_alter_ne.
  - intros row E. eexists. cbn. rewrite lookup_alter_eq, E. split; [done|]. cbn. auto.
Qed.

Definition is_ok {E A} (r : outcome E A) : Prop := ∃ a, r = Ok a.

(** [main] is at the end of the chain. *)
Definition covered (db : ViewTables) : Prop :=
  ∃ c t, root_chain db !! projection_tip db = Some (c, t) ∧ main_ref db = Some c.

(** What an outcome says about the position [n] that a view has reached from [n0]. *)
Definition outcome_says (db : ViewTables) (size n0 n : Z) (out : CatchUpOutcome) : Prop :=
  match out with
  | Advanced => n0 < n < projection_tip db ∧ n = n0 + size
  | Ready => n = Z.max n0 (projection_tip db) ∧ covered db
  | MainNotCovered => n = Z.max n0 (projection_tip db) ∧ ¬ covered db
  | NotRun | BatchPremiseFailed => n = n0
  | Stopped stop => n = stop_seq stop - 1 ∧ n0 < stop_seq stop <= projection_tip db
  end.

Lemma ready_outcome_says db db0 pk size n0 n db' out :
  (db', out) = ready_outcome (mark_ready_if_covered db pk (projection_tip db0)) →
  root_chain db = root_chain db0 → main_ref db = main_ref db0 → n = Z.max n0 (projection_tip db0) →
  root_chain db' = root_chain db0 ∧ main_ref db' = main_ref db0 ∧ db' = (mark_ready_if_covered db pk (projection_tip db0)).1
  ∧ outcome_says db0 size n0 n out.
Proof.
  unfold ready_outcome, mark_ready_if_covered, outcome_says, covered. intros E Hc Hm Hn. rewrite Hc, Hm in *.
  destruct (root_chain db0 !! projection_tip db0) as [[c t]|].
  - case_bool_decide as Em; simplify_eq/=; repeat split; eauto; naive_solver.
  - simplify_eq/=. repeat split; try done. naive_solver.
Qed.

Lemma batch_result_ok db pk row size db' out :
  views_ok db → view_filters db !! pk = Some row → batch_result db pk row size db' out →
  views_ok db' ∧ root_chain db' = root_chain db ∧ main_ref db' = main_ref db
  ∧ ∃ n, filters_kept db db' pk n ∧ row_projected_seq row <= n ∧ outcome_says db size (row_projected_seq row) n out
  ∧ (out = Ready → is_ok (recheck_definition sha256_hex (row_canonical_spec row) (row_filter_id row))).
Proof.
  intros Hok Erow Hres. destruct Hres as [out Hout|c db' out Ec Htip E|c batch stop Ec Hinv Hs|c batch n Ec Hinv Hn En|c batch db' out Ec Hinv Hlt E].
  - split; [done|]. split; [done|]. split; [done|]. exists (row_projected_seq row).
    split; [|by destruct Hout as [-> | ->]]. split; [done|]. rewrite Erow. intros ? [= <-]. eauto.
  - apply (ready_outcome_says _ db _ size (row_projected_seq row) (row_projected_seq row)) in E as (Hc & Hm & -> & Hsays); [|done|done|lia].
    destruct (mark_ready_ok db pk (projection_tip db) (row_projected_seq row) Hok) as [Hok' Hk].
    { rewrite Erow. by intros ? [= <-]. }
    split; [done|]. split; [done|]. split; [done|]. exists (row_projected_seq row).
    split; [done|]. split; [done|]. split; [done|]. by exists c.
  - destruct (written_ok db pk row c batch (stop_seq stop - 1)) as [Hok' Hk]; [done..|lia|].
    split; [done|]. split; [done|]. split; [done|]. exists (stop_seq stop - 1). split; [done|]. split; [lia|]. split; [split; [done|lia]|done].
  - destruct (written_ok db pk row c batch n) as [Hok' Hk]; [done..|lia|].
    split; [done|]. split; [done|]. split; [done|]. exists n. split; [done|]. split; [lia|]. split; [split; [lia|done]|done].
  - destruct (written_ok db pk row c batch (projection_tip db)) as [Hok' [Ho Hk]]; [done..|lia|].
    apply (ready_outcome_says _ db _ size (row_projected_seq row) (projection_tip db)) in E as (Hc & Hm & -> & Hsays); [|done|done|lia].
    destruct (Hk row Erow) as (row' & Erow' & E1 & E2 & E3).
    destruct (mark_ready_ok (write_projection_batch db pk batch (projection_tip db)) pk (projection_tip db) (projection_tip db) Hok') as [Hok'' [Ho' Hk']].
    { rewrite Erow'. by intros ? [= <-]. }
    split; [done|]. split; [done|]. split; [done|]. exists (projection_tip db). split; [|split; [lia|split; [done|by exists c]]].
    split; [intros pk' Hne; rewrite Ho', Ho by done; done|]. intros row0 E0. rewrite Erow in E0. injection E0 as <-.
    destruct (Hk' row' Erow') as (row'' & ? & ? & ? & ?). exists row''. repeat split; congruence.
Qed.

Lemma catch_up_one_batch_ok rounds fuel fl gl db pk size m m' r :
  views_ok db → memo_ok m → catch_up_one_batch sha256_hex first_key rounds fuel fl gl db pk size m = (m', r) →
  memo_ok m' ∧ ∀ db' out, r = Ok (db', out) →
    views_ok db' ∧ root_chain db' = root_chain db ∧ main_ref db' = main_ref db ∧
    (db' = db ∧ out = NotRun ∨
     ∃ row n, view_filters db !! pk = Some row ∧ filters_kept db db' pk n ∧ row_projected_seq row <= n
              ∧ outcome_says db size (row_projected_seq row) n out
              ∧ (out = Ready → is_ok (recheck_definition sha256_hex (row_canonical_spec row) (row_filter_id row)))).
Proof.
  intros Hok Hm. unfold catch_up_one_batch.
  destruct fl; cbn [negb]; [|intros [= <- <-]; split; [done|]; intros ? ? [= <- <-]; auto 10].
  destruct gl; cbn [negb]; [|intros [= <- <-]; split; [done|]; intros ? ? [= <- <-]; auto 10].
  pose proof (catch_up_in_transaction_result rounds fuel db pk size m Hok Hm) as H. intros E. rewrite E in H.
  destruct H as [Hm' Hr]. split; [done|]. intros db' out Hout. destruct (Hr _ _ Hout) as (row & Erow & Hres).
  destruct (batch_result_ok _ _ _ _ _ _ Hok Erow Hres) as (? & ? & ? & n & ?).
  split; [done|]. split; [done|]. split; [done|]. right. by exists row, n.
Qed.

(** ** The loop *)

Lemma filters_kept_refl db pk row :
  view_filters db !! pk = Some row → filters_kept db db pk (row_projected_seq row).
Proof. intros E. split; [done|]. rewrite E. intros ? [= <-]. eauto. Qed.

Lemma filters_kept_trans db1 db2 db3 pk row n1 n2 :
  view_filters db1 !! pk = Some row → filters_kept db1 db2 pk n1 → filters_kept db2 db3 pk n2 → filters_kept db1 db3 pk n2.
Proof.
  intros E [Ho1 Hk1] [Ho2 Hk2]. split; [intros pk' Hne; by rewrite Ho2, Ho1|].
  intros row1 E1. destruct (Hk1 _ E1) as (row2 & E2 & ? & ? & _). destruct (Hk2 _ E2) as (row3 & E3 & ? & ? & ?).
  exists row3. repeat split; congruence.
Qed.

(** What the loop keeps, and what it means that it ends with [Ready]. *)
Definition loop_result (pk : Z) (db db' : ViewTables) (r : option (outcome CatchUpError CatchUpOutcome)) : Prop :=
  views_ok db' ∧ root_chain db' = root_chain db ∧ main_ref db' = main_ref db ∧
  match view_filters db !! pk with
  | None => r ≠ Some (Ok Ready)
  | Some row =>
      ∃ n, filters_kept db db' pk n ∧ row_projected_seq row <= n
        ∧ (r = Some (Ok Ready) → projection_tip db <= n ∧ covered db
             ∧ is_ok (recheck_definition sha256_hex (row_canonical_spec row) (row_filter_id row)))
  end.

Lemma loop_unchanged pk db r : views_ok db → r ≠ Some (Ok Ready) → loop_result pk db db r.
Proof.
  intros Hok Hr. split; [done|]. split; [done|]. split; [done|].
  destruct (view_filters db !! pk) as [row|] eqn:E; [|done].
  exists (row_projected_seq row). split; [by apply filters_kept_refl|]. done.
Qed.

Lemma loop_batch pk db db' db'' row n r :
  view_filters db !! pk = Some row → filters_kept db db' pk n → row_projected_seq row <= n →
  root_chain db' = root_chain db → main_ref db' = main_ref db →
  loop_result pk db' db'' r → loop_result pk db db'' r.
Proof.
  intros E Hk Hn Hc Hm (Hok & Hc' & Hm' & H). destruct (proj2 Hk _ E) as (row' & E' & E1 & E2 & E3).
  rewrite E' in H. destruct H as (n' & Hk' & Hn' & Hr). split; [done|]. split; [congruence|]. split; [congruence|].
  rewrite E. exists n'. split; [by eapply filters_kept_trans|]. split; [lia|].
  intros HR. destruct (Hr HR) as (Htip & (c & t & Hct & Hmr) & Hre). rewrite E1, E2 in Hre.
  unfold covered, projection_tip in *. rewrite Hc, Hm in *. split; [done|]. split; [by exists c, t|done].
Qed.

Lemma loop_last pk db db' out row n size :
  views_ok db' → view_filters db !! pk = Some row → filters_kept db db' pk n → row_projected_seq row <= n →
  root_chain db' = root_chain db → main_ref db' = main_ref db →
  outcome_says db size (row_projected_seq row) n out →
  (out = Ready → is_ok (recheck_definition sha256_hex (row_canonical_spec row) (row_filter_id row))) →
  loop_result pk db db' (Some (Ok out)).
Proof.
  intros Hok E Hk Hn Hc Hm Hsays Hre. split; [done|]. split; [done|]. split; [done|]. rewrite E.
  exists n. split; [done|]. split; [done|]. intros [= ->]. destruct Hsays as [-> Hcov]. split; [lia|]. auto.
Qed.

Lemma catch_up_loop batches rounds fuel env i pk db m :
  views_ok db → memo_ok m →
  let '(db', m', r) := catch_up sha256_hex first_key batches rounds fuel env i pk db m in
  memo_ok m' ∧ loop_result pk db db' r.
Proof.
  revert i db m. induction batches as [|batches IH]; intros i db m Hok Hm; cbn [catch_up]; [by split; [|apply loop_unchanged]|].
  destruct (env i) as [[fl gl] size]. destruct (catch_up_one_batch _ _ _ _ _ _ _ _ _ _) as [m1 r] eqn:E.
  destruct (catch_up_one_batch_ok _ _ _ _ _ _ _ _ _ _ Hok Hm E) as [Hm1 Hr].
  destruct r as [[db1 out]|e| |]; try (by split; [|apply loop_unchanged]).
  destruct (Hr _ _ eq_refl) as (Hok1 & Hc & Hmr & [[-> ->]|(row & n & Erow & Hk & Hn & Hsays & Hre)]);
    [by split; [|apply loop_unchanged]|].
  destruct out; try (split; [done|by eapply loop_last]).
  specialize (IH (S i) db1 m1 Hok1 Hm1). destruct (catch_up _ _ _ _ _ _ _ _ _ _) as [[db2 m2] r2].
  destruct IH as [? ?]. split; [done|]. by eapply loop_batch.
Qed.

Lemma catch_up_S batches rounds fuel env i pk db m :
  catch_up sha256_hex first_key (S batches) rounds fuel env i pk db m =
    let '(filter_locked, gc_locked, batch_size) := env i in
    match catch_up_one_batch sha256_hex first_key rounds fuel filter_locked gc_locked db pk batch_size m with
    | (m, Ok (db, Advanced)) => catch_up sha256_hex first_key batches rounds fuel env (S i) pk db m
    | (m, Ok (db, out)) => (db, m, Some (Ok out))
    | (m, Err e) => (db, m, Some (Err e))
    | (m, Panic) => (db, m, Some Panic)
    | (m, OutOfFuel) => (db, m, Some OutOfFuel)
    end.
Proof. done. Qed.

Lemma catch_up_ends batches rounds fuel env i pk db m :
  views_ok db → memo_ok m →
  (∀ row, view_filters db !! pk = Some row → projection_tip db - row_projected_seq row <= Z.of_nat batches) →
  (catch_up sha256_hex first_key (S batches) rounds fuel env i pk db m).2 ≠ None.
Proof.
  revert i db m. induction batches as [|batches IH]; intros i db m Hok Hm Hb;
    rewrite catch_up_S; destruct (env i) as [[fl gl] size];
    destruct (catch_up_one_batch _ _ _ _ _ _ _ _ _ _) as [m1 r] eqn:E;
    destruct (catch_up_one_batch_ok _ _ _ _ _ _ _ _ _ _ Hok Hm E) as [Hm1 Hr];
    (destruct r as [[db1 []]|e| |]; try done);
    destruct (Hr _ _ eq_refl) as (Hok1 & Hc & Hmr & [[_ ?]|(row & n & Erow & [_ Hk] & Hn & [Hlt _] & _)]); try done.
  - specialize (Hb _ Erow). lia.
  - apply IH; [done..|]. destruct (Hk _ Erow) as (row' & Erow' & _ & _ & En).
    rewrite Erow'. intros ? [= <-]. specialize (Hb _ Erow). unfold projection_tip in *. rewrite Hc. lia.
Qed.
End Write.
