(* ===== verification/ViewCatchUpTheorems.v ===== *)
(** * Catch-up: theorems

    The loop over batches keeps every view in step with the chain, ends, and its outcome
    tells the truth. *)
From stdpp Require Import base strings numbers tactics list sorting gmap relations.
From S2P Require Import Prelude Text FilterSyntax FilterParse FilterRoundTrip FilterCanonical FilterDefinition.
From S2P Require Import CommitMessage CanonicalJson GitObjects TreeSource ViewMemo ViewTree FileTree ViewShows.
From S2P Require Import ViewTreeOps ViewTreeEval ViewCommit ViewProject ViewCatchUp ViewCatchUpInv.
From S2P Require Import ViewCatchUpBatch ViewTreeDemo.

#[local] Open Scope Z_scope.

Section Theorems.
Context {GO : GitObjects} {GL : GitLaws} {MC : MemoCapacity}.
Context (sha256_hex : text → text) (first_key : memo_entries → option MemoKey) `{!FirstKey first_key}.

(** ** The system *)

(** The tables and the memo change when a view catches up, when a push appends to the
    chain and stores its objects, and when a filter is registered. *)
Inductive view_step : ViewTables * FilterMemo → ViewTables * FilterMemo → Prop :=
  | step_catch_up batches rounds fuel env pk db m db' m' r :
      catch_up sha256_hex first_key batches rounds fuel env 0 pk db m = (db', m', r) →
      view_step (db, m) (db', m')
  | step_push db db' m :
      root_chain db ⊆ root_chain db' → mono_commits db ⊆ mono_commits db' →
      view_filters db' = view_filters db → commit_map db' = commit_map db →
      tables_sound db' → chain_sound db' → view_step (db, m) (db', m)
  | step_register db m pk row :
      view_filters db !! pk = None → (∀ q, commit_map db !! (pk, q) = None) → row_projected_seq row = 0 →
      view_step (db, m)
        (mk_ViewTables (<[pk := row]> (view_filters db)) (root_chain db) (commit_map db) (view_objects db)
           (object_refs db) (mono_commits db) (mono_trees db) (main_ref db), m).

Lemma view_step_ok db m db' m' :
  view_step (db, m) (db', m') → views_ok sha256_hex db ∧ memo_ok m → views_ok sha256_hex db' ∧ memo_ok m'.
Proof.
  intros Hs [Hok Hm]. inversion Hs as [? ? ? ? ? ? ? ? ? r E|? ? ? Hc Hmc Hf Hcm Ht Hch|? ? pk row Hpk Hcm Hrow]; subst.
  - pose proof (catch_up_loop sha256_hex first_key batches rounds fuel env 0 pk db m Hok Hm) as H.
    rewrite E in H. destruct H as [? H]. split; [apply H|done].
  - split; [|done]. split; [done|]. split; [done|]. intros pk row. rewrite Hf. intros E.
    apply (view_ok_weaken _ db _ _ row); [done|done|by rewrite Hcm|done|done|done|by apply Hok].
  - split; [|done]. destruct Hok as (Ht & Hch & Hv). split; [done|]. split; [done|].
    intros pk' row'. cbn. intros [[<- <-]|[_ E]]%lookup_insert_Some; [|by apply (view_ok_weaken _ db _ _ row'); auto].
    split; [lia|]. intros c _. rewrite Hrow. split.
    + intros q [r Hq]. cbn in Hq. by rewrite Hcm in Hq.
    + intros s Hss. lia.
    + intros q vc vt Hq. cbn in Hq. by rewrite Hcm in Hq.
Qed.

(** C10: from tables with no views, whatever pushes, registrations and catch-ups happen
    in whatever order, every view is in step with the chain up to its [projected_seq]:
    at each position the latest row of the commit map names the filtered tree of that
    position, its commits are the rewritten commits of their positions, each on top of
    the one before, and the memo stays right. *)
Theorem views_stay_ok s s' :
  rtc view_step s s' → views_ok sha256_hex s.1 → memo_ok s.2 → views_ok sha256_hex s'.1 ∧ memo_ok s'.2.
Proof.
  intros Hs Hok Hm. assert (views_ok sha256_hex s.1 ∧ memo_ok s.2) as H by done. clear Hok Hm. revert H.
  induction Hs as [|[db1 m1] [db2 m2] ? Hst _ IH]; [done|]. intros H. by apply IH, (view_step_ok db1 m1).
Qed.

(** C16: when catching up ends with [Ready], [main] is at the end of the chain, and every
    position of the chain has its view: the latest row up to it names a tree that has
    exactly the files that the filter shows of the tree at that position. *)
Theorem catch_up_ready batches rounds fuel env pk db m db' m' row :
  views_ok sha256_hex db → memo_ok m → view_filters db !! pk = Some row →
  catch_up sha256_hex first_key batches rounds fuel env 0 pk db m = (db', m', Some (Ok Ready)) →
  (∃ commit tree, root_chain db' !! projection_tip db' = Some (commit, tree) ∧ main_ref db' = Some commit) ∧
  ∃ c, recheck_definition sha256_hex (row_canonical_spec row) (row_filter_id row) = Ok c ∧
  ∀ s, 1 <= s <= projection_tip db' →
    ∃ commit t vc v, root_chain db' !! s = Some (commit, dir_id t)
      ∧ latest_row (commit_map db') pk s = Some (vc, dir_id v)
      ∧ ∀ d b, file_at v d = Some b ↔ ∃ p, shows (FilterDefinition.filter c) p d ∧ file_at t p = Some b.
Proof.
  intros Hok Hm Erow E. pose proof (catch_up_loop sha256_hex first_key batches rounds fuel env 0 pk db m Hok Hm) as H.
  rewrite E in H. destruct H as (_ & (_ & _ & Hv) & Hc & Hmr & H). rewrite Erow in H.
  destruct H as (n & [_ Hk] & Hn & Hr). destruct (Hr eq_refl) as (Htip & Hcov & [c Ec]). unfold covered, projection_tip in *.
  rewrite Hc, Hmr. split; [done|]. exists c. split; [done|]. intros s Hs. destruct (Hk _ Erow) as (row' & Erow' & E1 & E2 & En).
  destruct (Hv _ _ Erow') as [_ Ht]. rewrite E1, E2, En in Ht.
  destruct (tracks_views _ _ _ _ _ (Ht c Ec) s) as (cm & t & vc & v & Hrc & _ & Hl & (_ & Hi & _) & _); [lia|].
  exists cm, t, vc, v. rewrite <-Hc. split; [done|]. split; [done|]. exact Hi.
Qed.

(** Catching up ends: at most one batch more than the positions that are missing
    gives a result, whatever the locks and the batch sizes of the batches. *)
Theorem catch_up_terminates rounds fuel env pk db m row :
  views_ok sha256_hex db → memo_ok m → view_filters db !! pk = Some row →
  (catch_up sha256_hex first_key (S (Z.to_nat (projection_tip db - row_projected_seq row)))
     rounds fuel env 0 pk db m).2 ≠ None.
Proof.
  intros Hok Hm Erow. apply catch_up_ends; [done..|]. rewrite Erow. intros ? [= <-]. lia.
Qed.

(** A batch moves its view only forward and reports how far: [Advanced] is a full
    batch short of the end, [Ready] and [MainNotCovered] the end of the chain with
    [main] there or elsewhere, [Stopped] the position before the one that failed; the
    chain, [main] and the rows of all other filters are untouched, and a batch that is
    not run changes nothing. *)
Theorem batch_reports rounds fuel filter_locked gc_locked db pk size m m' db' out row :
  views_ok sha256_hex db → memo_ok m → view_filters db !! pk = Some row →
  catch_up_one_batch sha256_hex first_key rounds fuel filter_locked gc_locked db pk size m = (m', Ok (db', out)) →
  root_chain db' = root_chain db ∧ main_ref db' = main_ref db
  ∧ (∀ pk', pk' ≠ pk → view_filters db' !! pk' = view_filters db !! pk')
  ∧ ∃ row', view_filters db' !! pk = Some row'
    ∧ row_projected_seq row <= row_projected_seq row'
    ∧ outcome_says db size (row_projected_seq row) (row_projected_seq row') out.
Proof.
  intros Hok Hm Erow E. destruct (catch_up_one_batch_ok _ _ _ _ _ _ _ _ _ _ _ _ Hok Hm E) as [_ Hr].
  destruct (Hr _ _ eq_refl) as (_ & Hc & Hmr & H). split; [done|]. split; [done|].
  destruct H as [[-> ->]|(row0 & n & E0 & [Ho Hk] & Hn & Hsays & _)]; [split; [done|]; by exists row|].
  rewrite Erow in E0. injection E0 as <-. split; [done|]. destruct (Hk _ Erow) as (row' & Erow' & _ & _ & <-). by exists row'.
Qed.
End Theorems.

(** ** Witnesses *)

Definition demo_files : dir := [(lit "f", File ModeBlob [2%N])].
Definition demo_root1 : dir := [(lit "README", File ModeBlob [1%N])].
Definition demo_root2 : dir := [(lit "README", File ModeBlob [1%N]); (lit "a", Dir demo_files)].
Definition demo_root3 : dir := [(lit "README", File ModeBlob [3%N]); (lit "a", Dir demo_files)].

(** A commit whose identifier is the hash of its bytes. *)
Definition demo_commit (tree : dir) (parents : list text) (message : text) : CommitRow :=
  let row id := mk_CommitRow id (dir_id tree) (Array (map String parents)) (Some (lit "author A <a@x> 1 +0000"))
                  (Some (lit "committer C <c@x> 1 +0000")) (Some message) in
  row (0%N :: utf8 (default [] (rebuild_canonical_commit_bytes (row [])))).

Definition demo_commit1 := demo_commit demo_root1 [] (lit "one").
Definition demo_commit2 := demo_commit demo_root2 [commit_id demo_commit1] (lit "two").
Definition demo_commit3 := demo_commit demo_root3 [commit_id demo_commit2] (lit "three").

Definition demo_filter_row : FilterRow :=
  mk_FilterRow (filter_id (λ t, t) (lit ":/a")) (lit ":/a") 0 None (Some 7).

(** Three commits: the view is empty after the first, has a file after the second, and
    does not change with the third. *)
Definition demo_tables : ViewTables :=
  mk_ViewTables {[ 5 := demo_filter_row ]}
    (list_to_map [(1, (commit_id demo_commit1, dir_id demo_root1)); (2, (commit_id demo_commit2, dir_id demo_root2));
                  (3, (commit_id demo_commit3, dir_id demo_root3))])
    ∅ ∅ ∅
    (list_to_map (map (λ c, (commit_id c, c)) [demo_commit1; demo_commit2; demo_commit3]))
    (demo_store [demo_root1; demo_root2; demo_root3; demo_files])
    (Some (commit_id demo_commit3)).

Lemma demo_roots_wf : Forall dir_wf [demo_root1; demo_root2; demo_root3; demo_files].
Proof.
  repeat constructor; unfold dir_wf; dir_wf_by_computation.
Qed.

Lemma demo_tables_sound : tables_sound demo_tables.
Proof. intros id d E. by apply (demo_store_sound _ demo_roots_wf). Qed.

Lemma demo_chain_sound : chain_sound demo_tables.
Proof.
  intros s c id E. apply elem_of_list_to_map_2 in E. pose proof demo_roots_wf as W.
  rewrite !Forall_cons in W. destruct W as (W1 & W2 & W3 & _).
  repeat (apply elem_of_cons in E as [E|E]; [injection E as _ _ ->; eauto|]). by apply elem_of_nil in E.
Qed.

Lemma demo_views_ok : views_ok (λ t, t) demo_tables.
Proof.
  split; [exact demo_tables_sound|]. split; [exact demo_chain_sound|].
  intros pk row E. apply (lookup_singleton_Some 5 pk demo_filter_row row) in E as [<- <-]. split; [done|]. intros c _. split.
  - intros q [r Hr]. cbn in Hr. by rewrite lookup_empty in Hr.
  - intros s Hs. cbn in Hs. lia.
  - intros q vc vt Hr. cbn in Hr. by rewrite lookup_empty in Hr.
Qed.

Definition demo_env (i : nat) : bool * bool * Z := (true, true, 2).
Definition demo_up := catch_up (λ t, t) demo_first_key 4 5 9 demo_env 0 5 demo_tables default_memo.

Lemma demo_up_eq : demo_up = (demo_up.1.1, demo_up.1.2, Some (Ok Ready)).
Proof.
  assert (demo_up.2 = Some (Ok Ready)) as <- by (vm_compute; reflexivity). by destruct demo_up as [[? ?] ?].
Qed.

Lemma views_stay_ok_witness :
  let s := (demo_up.1.1, demo_up.1.2) in views_ok (λ t, t) s.1 ∧ memo_ok s.2.
Proof.
  intros s. apply (views_stay_ok (λ t, t) demo_first_key (demo_tables, default_memo) s).
  - apply rtc_once. exact (step_catch_up _ _ _ _ _ _ _ _ _ _ _ _ demo_up_eq).
  - exact demo_views_ok.
  - exact default_memo_ok.
Defined.

(** The view at the third position is the tree with the file, named by the row of the
    second; the commit is on top of nothing. *)
Lemma catch_up_ready_witness :
  latest_row (commit_map demo_up.1.1) 5 3 = latest_row (commit_map demo_up.1.1) 5 2
  ∧ snd <$> latest_row (commit_map demo_up.1.1) 5 3 = Some (dir_id demo_files)
  ∧ latest_row (commit_map demo_up.1.1) 5 1 = Some (None, dir_id [])
  ∧ ∃ commit tree, root_chain demo_up.1.1 !! projection_tip demo_up.1.1 = Some (commit, tree)
      ∧ main_ref demo_up.1.1 = Some commit.
Proof.
  split; [vm_compute; reflexivity|]. split; [vm_compute; reflexivity|]. split; [vm_compute; reflexivity|].
  destruct (catch_up_ready (λ t, t) demo_first_key 4 5 9 demo_env 5 demo_tables default_memo demo_up.1.1 demo_up.1.2
    demo_filter_row demo_views_ok default_memo_ok eq_refl demo_up_eq) as [H _]. exact H.
Defined.

Lemma catch_up_terminates_witness :
  (catch_up (λ t, t) demo_first_key 4 5 9 demo_env 0 5 demo_tables default_memo).2 ≠ None.
Proof.
  exact (catch_up_terminates (λ t, t) demo_first_key 5 9 demo_env 5 demo_tables default_memo demo_filter_row
    demo_views_ok default_memo_ok eq_refl).
Defined.

(** The first batch of two commits. *)
Definition demo_batch := catch_up_one_batch (λ t, t) demo_first_key 5 9 true true demo_tables 5 2 default_memo.
Definition demo_batch_tables : ViewTables :=
  match demo_batch.2 with Ok (db, _) => db | _ => demo_tables end.

Lemma demo_batch_eq : demo_batch = (demo_batch.1, Ok (demo_batch_tables, Advanced)).
Proof.
  unfold demo_batch_tables.
  assert (match demo_batch.2 with Ok (_, Advanced) => true | _ => false end = true) as H by (vm_compute; reflexivity).
  revert H. destruct demo_batch as [m [[db []]| | |]]; try discriminate. reflexivity.
Qed.

Lemma batch_reports_witness :
  ∃ row', view_filters demo_batch_tables !! 5 = Some row' ∧ outcome_says demo_tables 2 0 (row_projected_seq row') Advanced.
Proof.
  destruct (batch_reports (λ t, t) demo_first_key 5 9 true true demo_tables 5 2 default_memo demo_batch.1
    demo_batch_tables Advanced demo_filter_row demo_views_ok default_memo_ok eq_refl demo_batch_eq)
    as (_ & _ & _ & row' & E & _ & H). exists row'. exact (conj E H).
Defined.

(** The second commit as the view has it. *)
Definition demo_rewritten : RewriteError + (ObjectHash * list N) :=
  rewrite_commit demo_commit2 (dir_id demo_files) [lit "p"].

Lemma rewrite_commit_exact_witness :
  ∃ id data, demo_rewritten = inr (id, data) ∧ hash_commit_data data = Some id.
Proof.
  eexists _, _. split; [vm_compute; reflexivity|].
  refine (proj1 (proj2 (rewrite_commit_exact demo_commit2 (dir_id demo_files) [lit "p"] _ _ _))).
  vm_compute. reflexivity.
Defined.
