(* ===== verification/Similarity.v ===== *)
(** * Similarity of file contents

    Models [src/ceres/diff/similarity.rs]: contents are cut into spans at newlines and
    after 64 bytes, each span is hashed to 32 bits, and the score is the share of bytes
    in common spans.  The sort of the span table is the stable sort of the prelude; its
    keys are distinct.  Sizes are natural numbers: [similarity_reference] shows how far
    they stay within [u64]. *)
From stdpp Require Import base strings numbers tactics list sorting gmap.
From S2P Require Import Prelude Text GitObjects.

#[local] Open Scope N_scope.

Definition MAX_SCORE : N := 100.
Definition SPAN_SIZE : N := 64.

Record SpanHash := mk_SpanHash { span_hash : N; span_bytes : N }.

(** Arithmetic of [u32]. *)
Definition u32_wrap (n : N) : N := n mod 4294967296.
Definition u32_shl (n k : N) : N := u32_wrap (N.shiftl n k).
Definition wrapping_add (a b : N) : N := u32_wrap (a + b).
Definition wrapping_mul (a b : N) : N := u32_wrap (a * b).

Definition carriage_return : N := 13.
Definition line_feed : N := 10.

Definition is_probably_binary (content : bytes) : bool := contains_char 0 content.

Definition add_span_hash (spans : gmap N N) (accum1 accum2 span_len : N) : gmap N N :=
  let hash := wrapping_add accum1 (wrapping_mul accum2 97) in
  <[hash := default 0 (spans !! hash) + span_len]> spans.

(** The loop of [build_span_hashes] and the last span after it. *)
Fixpoint span_loop (is_text : bool) (content : bytes) (accum1 accum2 span_len : N) (spans : gmap N N)
    : gmap N N :=
  match content with
  | [] => if 0 <? span_len then add_span_hash spans accum1 accum2 span_len else spans
  | byte :: rest =>
      if is_text && (byte =? carriage_return) && bool_decide (head rest = Some line_feed)
      then span_loop is_text rest accum1 accum2 span_len spans
      else
        let accum1' := wrapping_add (N.lxor (u32_shl accum1 7) (N.shiftr accum2 25)) byte in
        let accum2' := N.lxor (u32_shl accum2 7) (N.shiftr accum1 25) in
        let span_len := span_len + 1 in
        if (span_len <? SPAN_SIZE) && (negb is_text || negb (byte =? line_feed))
        then span_loop is_text rest accum1' accum2' span_len spans
        else span_loop is_text rest 0 0 0 (add_span_hash spans accum1' accum2' span_len)
  end.

Definition span_table (content : bytes) : gmap N N :=
  span_loop (negb (is_probably_binary content)) content 0 0 0 ∅.

Definition build_span_hashes (content : bytes) : list SpanHash :=
  sort_by span_hash N.compare (map (λ p, mk_SpanHash p.1 p.2) (map_to_list (span_table content))).

(** The two cursors of the merge are the remaining lists. *)
Fixpoint count_copied_source_bytes (src_spans : list SpanHash) : list SpanHash → N :=
  match src_spans with
  | [] => λ _, 0
  | src :: src_rest =>
      fix scan (dst_spans : list SpanHash) : N :=
        match dst_spans with
        | [] => 0
        | dst :: dst_rest =>
            match span_hash src ?= span_hash dst with
            | Lt => count_copied_source_bytes src_rest dst_spans
            | Gt => scan dst_rest
            | Eq => N.min (span_bytes src) (span_bytes dst) + count_copied_source_bytes src_rest dst_rest
            end
        end
  end.

Definition passes_size_guard (old_size new_size minimum_score : N) : bool :=
  let max_size := N.max old_size new_size in
  let base_size := N.min old_size new_size in
  let delta_size := max_size - base_size in
  delta_size * MAX_SCORE <=? max_size * (MAX_SCORE - minimum_score).

Definition byte_len (content : bytes) : N := N.of_nat (length content).

Definition content_similarity_percent (old_bytes new_bytes : bytes) (minimum_score : N) : N :=
  if bool_decide (old_bytes = new_bytes) then 100
  else if bool_decide (old_bytes = []) || bool_decide (new_bytes = []) then 0
  else
    let minimum_score := N.min minimum_score MAX_SCORE in
    if negb (passes_size_guard (byte_len old_bytes) (byte_len new_bytes) minimum_score) then 0
    else
      let old_spans := build_span_hashes old_bytes in
      let new_spans := build_span_hashes new_bytes in
      let src_copied := count_copied_source_bytes old_spans new_spans in
      let max_size := N.max (byte_len old_bytes) (byte_len new_bytes) in
      if max_size =? 0 then 0
      else N.min (src_copied * MAX_SCORE / max_size) MAX_SCORE.

(** ** The reference *)

Definition sum_by {A} (f : A → N) (l : list A) : N := foldr (λ x n, f x + n) 0 l.

(** Bytes of the spans of one table that another table has too. *)
Definition shared_bytes (src dst : gmap N N) : N :=
  sum_by (λ p, N.min p.2 (default 0 (dst !! p.1))) (map_to_list src).

Definition table_bytes (spans : gmap N N) : N := sum_by snd (map_to_list spans).

(** The score without a threshold, on the tables themselves. *)
Definition reference_score (old_bytes new_bytes : bytes) : N :=
  if bool_decide (old_bytes = new_bytes) then 100
  else if bool_decide (old_bytes = []) || bool_decide (new_bytes = []) then 0
  else shared_bytes (span_table old_bytes) (span_table new_bytes) * 100
       / N.max (byte_len old_bytes) (byte_len new_bytes).

(** ** Sums *)

Lemma sum_by_cons {A} (f : A → N) x l : sum_by f (x :: l) = f x + sum_by f l.
Proof. done. Qed.

Lemma sum_by_zero {A} (f : A → N) l : (∀ x, f x = 0) → sum_by f l = 0.
Proof. intros H. induction l as [|x l IH]; [done|]. by rewrite sum_by_cons, H, IH. Qed.

Lemma sum_by_app {A} (f : A → N) l k : sum_by f (l ++ k) = sum_by f l + sum_by f k.
Proof. unfold sum_by. induction l as [|x l IH]; simpl; [done|]. rewrite IH. lia. Qed.

#[export] Instance sum_by_perm {A} (f : A → N) : Proper (Permutation ==> eq) (sum_by f).
Proof. intros l k. unfold sum_by. induction 1; simpl; lia. Qed.

Lemma sum_by_le {A} (f g : A → N) l : (∀ x, x ∈ l → f x <= g x) → sum_by f l <= sum_by g l.
Proof.
  unfold sum_by. induction l as [|x l IH]; intros H; simpl; [lia|].
  pose proof (H x ltac:(by left)). assert (∀ y, y ∈ l → f y <= g y) by (intros; apply H; by right).
  specialize (IH ltac:(done)). lia.
Qed.

Lemma sum_by_ext {A} (f g : A → N) l : (∀ x, x ∈ l → f x = g x) → sum_by f l = sum_by g l.
Proof.
  intros H. apply N.le_antisymm; apply sum_by_le; intros x Hx; by rewrite H.
Qed.

Lemma sum_by_map {A B} (f : B → N) (g : A → B) l : sum_by f (map g l) = sum_by (λ x, f (g x)) l.
Proof. unfold sum_by. induction l as [|x l IH]; simpl; by rewrite ?IH. Qed.

(** ** The tables *)

Lemma table_bytes_insert m h v :
  table_bytes (<[h := default 0 (m !! h) + v]> m) = table_bytes m + v.
Proof.
  unfold table_bytes. destruct (m !! h) as [w|] eqn:E.
  - rewrite <-insert_delete_eq, map_to_list_insert by apply lookup_delete_eq.
    rewrite <-(insert_delete_id m h w E) at 2. rewrite map_to_list_insert by apply lookup_delete_eq.
    simpl. lia.
  - rewrite map_to_list_insert by done. simpl. lia.
Qed.

Lemma span_loop_bytes is_text content a1 a2 len spans :
  table_bytes (span_loop is_text content a1 a2 len spans) <= table_bytes spans + len + byte_len content.
Proof.
  revert a1 a2 len spans. induction content as [|b rest IH]; intros a1 a2 len spans; cbn [span_loop].
  - destruct (0 <? len); [|lia]. unfold add_span_hash. rewrite table_bytes_insert. lia.
  - unfold byte_len in *. cbn [length]. destruct (_ && _ && _).
    { specialize (IH a1 a2 len spans). lia. }
    destruct (_ && _).
    + eapply N.le_trans; [apply IH|]. lia.
    + eapply N.le_trans; [apply IH|]. unfold add_span_hash. rewrite table_bytes_insert. lia.
Qed.

Lemma span_table_bytes content : table_bytes (span_table content) <= byte_len content.
Proof.
  unfold span_table. pose proof (span_loop_bytes (negb (is_probably_binary content)) content 0 0 0 ∅) as H.
  unfold table_bytes at 2 in H. rewrite map_to_list_empty in H. simpl in H. lia.
Qed.

(** ** The merge *)

(** The bytes of a hash in a list of spans. *)
Definition weight_of (h : N) (spans : list SpanHash) : N :=
  sum_by (λ s, if span_hash s =? h then span_bytes s else 0) spans.

Abbreviation increasing := (StronglySorted (λ s t, span_hash s < span_hash t)).

Lemma weight_of_absent h spans :
  Forall (λ s, span_hash s ≠ h) spans → weight_of h spans = 0.
Proof.
  unfold weight_of, sum_by. induction 1 as [|s l Hs _ IH]; simpl; [done|].
  rewrite IH. by rewrite (proj2 (N.eqb_neq _ _) Hs).
Qed.

Lemma count_copied_reference src dst :
  increasing src → increasing dst →
  count_copied_source_bytes src dst = sum_by (λ s, N.min (span_bytes s) (weight_of (span_hash s) dst)) src.
Proof.
  intros Hsrc. revert dst. induction Hsrc as [|s src Hsrc IH Hs]; intros dst Hdst; [by destruct dst|].
  induction Hdst as [|d dst Hdst IHd Hd]; cbn [count_copied_source_bytes].
  { symmetry. apply sum_by_zero. intros x. apply N.min_0_r. }
  rewrite sum_by_cons.
  assert (∀ x, weight_of x (d :: dst) = (if span_hash d =? x then span_bytes d else 0) + weight_of x dst) as Hw by done.
  destruct (N.compare_spec (span_hash s) (span_hash d)) as [E|E|E].
  - rewrite IH by done. rewrite Hw, E, N.eqb_refl, weight_of_absent
      by (eapply Forall_impl; [exact Hd|]; simpl; intros; lia).
    rewrite N.add_0_r. f_equal. apply sum_by_ext. intros x Hx. rewrite Hw.
    rewrite Forall_forall in Hs. specialize (Hs _ Hx). simpl in Hs.
    by rewrite (proj2 (N.eqb_neq (span_hash d) (span_hash x))) by lia.
  - rewrite IH by by constructor. rewrite (weight_of_absent (span_hash s)), N.min_0_r; [done|].
    constructor; [lia|]. eapply Forall_impl; [exact Hd|]. simpl. intros. lia.
  - etransitivity; [exact IHd|]. rewrite sum_by_cons.
    rewrite Hw, (proj2 (N.eqb_neq (span_hash d) (span_hash s))) by lia. f_equal. apply sum_by_ext. intros x Hx. rewrite Hw.
    rewrite Forall_forall in Hs. specialize (Hs _ Hx). simpl in Hs.
    by rewrite (proj2 (N.eqb_neq (span_hash d) (span_hash x))) by lia.
Qed.

Lemma weight_of_table h (m : gmap N N) :
  weight_of h (map (λ p, mk_SpanHash p.1 p.2) (map_to_list m)) = default 0 (m !! h).
Proof.
  unfold weight_of. rewrite sum_by_map. induction m as [|i x m Hi IH] using map_ind.
  { by rewrite map_to_list_empty, lookup_empty. }
  rewrite map_to_list_insert, sum_by_cons, IH by done. cbn.
  destruct (N.eqb_spec i h) as [->|Hne].
  - rewrite lookup_insert_eq, Hi. simpl. lia.
  - by rewrite lookup_insert_ne.
Qed.

Lemma build_span_hashes_perm content :
  Permutation (build_span_hashes content) (map (λ p, mk_SpanHash p.1 p.2) (map_to_list (span_table content))).
Proof. apply sort_by_perm. Qed.

Lemma build_span_hashes_increasing content : increasing (build_span_hashes content).
Proof.
  assert (NoDup (span_hash <$> build_span_hashes content)) as Hnd.
  { rewrite build_span_hashes_perm, <-list_fmap_compose. apply NoDup_fst_map_to_list. }
  pose proof (sort_by_sorted span_hash N.compare
    (map (λ p, mk_SpanHash p.1 p.2) (map_to_list (span_table content)))) as Hs.
  fold (build_span_hashes content) in Hs. induction Hs as [|s l Hl IH Hle]; [constructor|].
  cbn in Hnd. apply NoDup_cons in Hnd as [Hnin Hnd]. constructor; [by apply IH|].
  rewrite Forall_forall in *. intros x Hx. specialize (Hle x Hx). unfold key_le in Hle.
  apply (cmp_leb_spec N.compare) in Hle as [E|E%N.compare_lt_iff]; [|done].
  destruct Hnin. rewrite E. by apply list_elem_of_fmap_2.
Qed.

(** The merge of the two sorted tables counts the shared bytes. *)
Lemma copied_shared old new :
  count_copied_source_bytes (build_span_hashes old) (build_span_hashes new)
  = shared_bytes (span_table old) (span_table new).
Proof.
  rewrite count_copied_reference by apply build_span_hashes_increasing.
  rewrite (sum_by_perm _ _ _ (build_span_hashes_perm old)), sum_by_map. apply sum_by_ext. intros p _. cbn. f_equal.
  unfold weight_of. rewrite (sum_by_perm _ _ _ (build_span_hashes_perm new)). apply weight_of_table.
Qed.

Lemma shared_insert_l m m' h v : m !! h = None →
  shared_bytes (<[h := v]> m) m' = N.min v (default 0 (m' !! h)) + shared_bytes m m'.
Proof. intros H. unfold shared_bytes. by rewrite map_to_list_insert, sum_by_cons. Qed.

Lemma shared_insert_r m m' h v : m' !! h = None →
  shared_bytes m (<[h := v]> m') = N.min v (default 0 (m !! h)) + shared_bytes m m'.
Proof.
  intros Hh. induction m as [|i x m Hi IH] using map_ind.
  { unfold shared_bytes. rewrite map_to_list_empty, lookup_empty. simpl. lia. }
  rewrite !shared_insert_l, IH by done. destruct (decide (i = h)) as [->|Hne].
  - rewrite !lookup_insert_eq, Hi, Hh. simpl. lia.
  - rewrite !lookup_insert_ne by done. lia.
Qed.

Lemma shared_comm m m' : shared_bytes m m' = shared_bytes m' m.
Proof.
  induction m as [|i x m Hi IH] using map_ind.
  - unfold shared_bytes. rewrite map_to_list_empty. symmetry. apply sum_by_zero.
    intros [h v]. rewrite lookup_empty. simpl. lia.
  - by rewrite shared_insert_l, shared_insert_r, IH.
Qed.

Lemma shared_le m m' : shared_bytes m m' <= table_bytes m.
Proof. apply sum_by_le. intros p _. lia. Qed.

Lemma shared_le_min old new :
  shared_bytes (span_table old) (span_table new) <= N.min (byte_len old) (byte_len new).
Proof.
  apply N.min_glb.
  - eapply N.le_trans; [apply shared_le|apply span_table_bytes].
  - rewrite shared_comm. eapply N.le_trans; [apply shared_le|apply span_table_bytes].
Qed.

Lemma byte_len_pos content : content ≠ [] → 0 < byte_len content.
Proof. unfold byte_len. destruct content; [done|]. simpl. lia. Qed.

(** ** The score *)

Lemma reference_le old new : reference_score old new <= 100.
Proof.
  unfold reference_score. case_bool_decide; [lia|]. do 2 (case_bool_decide; [cbn [orb]; lia|]). cbn [orb].
  pose proof (shared_le_min old new). pose proof (byte_len_pos old ltac:(done)).
  apply N.Div0.div_le_upper_bound; lia.
Qed.

Lemma reference_comm old new : reference_score old new = reference_score new old.
Proof.
  unfold reference_score. rewrite shared_comm, (N.max_comm (byte_len old)), orb_comm.
  by rewrite (bool_decide_ext (old = new) (new = old)).
Qed.

(** The guard on the sizes only rejects what is below the threshold. *)
Lemma size_guard_sound old new minimum :
  old ≠ [] → minimum <= 100 → passes_size_guard (byte_len old) (byte_len new) minimum = false →
  shared_bytes (span_table old) (span_table new) * 100 / N.max (byte_len old) (byte_len new) < minimum.
Proof.
  intros Hne Hm Hg. unfold passes_size_guard, MAX_SCORE in Hg. apply N.leb_gt in Hg.
  pose proof (shared_le_min old new). pose proof (byte_len_pos old Hne).
  apply N.Div0.div_lt_upper_bound.
  set (a := N.max _ _) in *. set (b := N.min _ _) in *. assert (b <= a) by (subst a b; lia).
  rewrite N.mul_sub_distr_r, N.mul_sub_distr_l in Hg. lia.
Qed.

Lemma similarity_cases old new minimum :
  content_similarity_percent old new minimum = reference_score old new
  ∨ content_similarity_percent old new minimum = 0 ∧ reference_score old new < N.min minimum 100.
Proof.
  pose proof (reference_le old new) as Hle. unfold content_similarity_percent, reference_score in *.
  case_bool_decide as E1; [by left|]. case_bool_decide as E2; [by left|]. case_bool_decide as E3; [by left|].
  cbn [orb] in *. destruct (passes_size_guard _ _ _) eqn:Eg; cbn [negb].
  - left. pose proof (byte_len_pos old E2). rewrite copied_shared.
    destruct (N.eqb_spec (N.max (byte_len old) (byte_len new)) 0); [lia|].
    unfold MAX_SCORE. lia.
  - right. split; [done|]. apply size_guard_sound; [done| |done]. unfold MAX_SCORE in *. lia.
Qed.

Lemma similarity_comm old new minimum :
  content_similarity_percent old new minimum = content_similarity_percent new old minimum.
Proof.
  unfold content_similarity_percent, passes_size_guard. rewrite !copied_shared, shared_comm.
  rewrite (N.max_comm (byte_len old)), (N.min_comm (byte_len old)), orb_comm.
  by rewrite (bool_decide_ext (old = new) (new = old)).
Qed.

Definition u64_max : N := 18446744073709551615.

(** The score of two contents is the share of bytes in common spans, from 0 to 100
    and the same both ways.  The guard on the sizes is only an optimisation: the
    requested minimum is reached exactly when the score without the guard reaches it,
    and a score that is not 0 is that score.  For contents of up to [u64::MAX / 100]
    bytes no intermediate value overflows. *)
Theorem similarity_reference old new minimum :
  let score := content_similarity_percent old new minimum in
  score <= 100 ∧ score = content_similarity_percent new old minimum
  ∧ (0 < minimum → N.min minimum 100 <= score ↔ N.min minimum 100 <= reference_score old new)
  ∧ (score ≠ 0 → score = reference_score old new)
  ∧ (byte_len old <= u64_max / 100 →
     count_copied_source_bytes (build_span_hashes old) (build_span_hashes new) * MAX_SCORE <= u64_max).
Proof.
  intros score. pose proof (reference_le old new). split; [|split; [apply similarity_comm|]].
  { destruct (similarity_cases old new minimum) as [E|[E _]]; unfold score; rewrite E; lia. }
  split; [|split].
  - intros Hm. destruct (similarity_cases old new minimum) as [E|[E ?]]; unfold score; rewrite E; [done|]. lia.
  - destruct (similarity_cases old new minimum) as [E|[E _]]; unfold score; rewrite E; done.
  - intros Hl. rewrite copied_shared. pose proof (shared_le_min old new).
    unfold MAX_SCORE, u64_max in *. assert (18446744073709551615 / 100 = 184467440737095516) as Hd by reflexivity.
    rewrite Hd in Hl. lia.
Qed.

(** Three of four lines in common. *)
Example similarity_lines :
  content_similarity_percent (utf8 (lit "same
same
same
old
")) (utf8 (lit "same
same
same
other
")) 50 = 71.
Proof. vm_compute. reflexivity. Qed.
