(* ===== verification/TreeDiff.v ===== *)
(** * Differences of two file lists

    Models [src/ceres/diff/tree_diff.rs] and [ClDiffFile] of
    [src/ceres/model/change_list.rs]: files that are new, deleted or modified, and the
    pairing of deleted and new files into renames and moves, first by equal hashes, then
    by equal names, then by similarity.

    A path is the list of its components, on which equality and order of [Path] are
    defined.  An index out of bounds is a panic, [None]; the comparison of candidates
    takes the empty path there, which is never used since a candidate is built from
    entries that were found.  The order in which a [HashSet] is visited is a parameter. *)
From stdpp Require Import base strings numbers tactics list sorting gmap.
From S2P Require Import Prelude Text GitObjects Similarity.

Abbreviation path := (list text).

Definition NUM_CANDIDATES_PER_DST : nat := 4.

(** [Path::parent] and [Path::file_name] *)
Definition parent (p : path) : option path :=
  match p with [] => None | _ => Some (removelast p) end.

Definition file_name (p : path) : option text :=
  name ← last p; if bool_decide (name = lit "..") then None else Some name.

Definition basename_key (p : path) : option text := file_name p.

Definition basename_same (old_path new_path : path) : bool :=
  bool_decide (basename_key old_path = basename_key new_path).

(** [RenameConfig] and [RenameHeuristics] *)
Record RenameConfig := mk_RenameConfig { config_similarity_threshold : N; config_rename_limit : N }.

Record RenameHeuristics := mk_RenameHeuristics { similarity_threshold : N; rename_limit : N }.

Definition from_config (config : RenameConfig) : RenameHeuristics :=
  mk_RenameHeuristics (N.min (config_similarity_threshold config) 100) (config_rename_limit config).

Record SimilarityPair := mk_SimilarityPair { deleted_idx : nat; new_idx : nat; similarity : N }.

Record SimilarityCandidate := mk_SimilarityCandidate { cand_pair : SimilarityPair; name_score : N }.

Definition should_skip_inexact_phase (num_destinations num_sources rename_limit : N) : bool :=
  if (rename_limit =? 0)%N then false
  else (rename_limit * rename_limit <? num_destinations * num_sources)%N.

(** [Ordering::then_with] *)
Definition then_with (c d : comparison) : comparison := match c with Eq => d | _ => c end.

Section TreeDiff.
Context {ObjectHash : Type} `{Countable ObjectHash}.
(** The order in which the union of the paths is visited. *)
Variable iter_paths : gset path → list path.

Record PathHash := mk_PathHash { entry_path : path; entry_hash : ObjectHash }.

Inductive ClDiffFile :=
  | New (p : path) (hash : ObjectHash)
  | Deleted (p : path) (hash : ObjectHash)
  | Modified (p : path) (old_hash new_hash : ObjectHash)
  | Renamed (old_path new_path : path) (old_hash new_hash : ObjectHash) (similarity : N)
  | Moved (old_path new_path : path) (old_hash new_hash : ObjectHash) (similarity : N).

Definition diff_path (item : ClDiffFile) : path :=
  match item with
  | New p _ | Deleted p _ | Modified p _ _ => p
  | Renamed _ p _ _ _ | Moved _ p _ _ _ => p
  end.

Definition kind_weight (item : ClDiffFile) : N :=
  match item with
  | New _ _ => 0 | Deleted _ _ => 1 | Renamed _ _ _ _ _ => 2 | Moved _ _ _ _ _ => 3 | Modified _ _ _ => 4
  end.

(** ** Relocations *)

Definition build_relocated_diff (old_path new_path : path) (old_hash new_hash : ObjectHash) (similarity : N)
    : ClDiffFile :=
  if bool_decide (parent old_path = parent new_path)
  then Renamed old_path new_path old_hash new_hash similarity
  else Moved old_path new_path old_hash new_hash similarity.

Definition collect_relocated_paths (relocated_items : list ClDiffFile) : gset path * gset path :=
  fold_left (λ '(old_paths, new_paths) item,
    match item with
    | Renamed old_path new_path _ _ _ | Moved old_path new_path _ _ _ =>
        ({[old_path]} ∪ old_paths, {[new_path]} ∪ new_paths)
    | _ => (old_paths, new_paths)
    end) relocated_items (∅, ∅).

(** The indices already paired, and the relocations found. *)
Record Consumed := mk_Consumed {
  consumed_deleted_idx : gset nat; consumed_new_idx : gset nat; relocated_items : list ClDiffFile;
}.

Section Entries.
Variables (deleted_entries new_entries : list PathHash).

Fixpoint consume_pairs (pairs : list SimilarityPair) (c : Consumed) : option Consumed :=
  match pairs with
  | [] => Some c
  | sp :: pairs =>
      if bool_decide (deleted_idx sp ∈ consumed_deleted_idx c) || bool_decide (new_idx sp ∈ consumed_new_idx c)
      then consume_pairs pairs c
      else
        old_entry ← deleted_entries !! deleted_idx sp;
        new_entry ← new_entries !! new_idx sp;
        if bool_decide (entry_path old_entry = entry_path new_entry) then consume_pairs pairs c
        else
          consume_pairs pairs
            (mk_Consumed ({[deleted_idx sp]} ∪ consumed_deleted_idx c) ({[new_idx sp]} ∪ consumed_new_idx c)
               (relocated_items c ++
                  [build_relocated_diff (entry_path old_entry) (entry_path new_entry)
                     (entry_hash old_entry) (entry_hash new_entry) (similarity sp)]))
  end.

(** ** Equal hashes *)

Definition deleted_by_hash : gmap ObjectHash (list nat) :=
  fold_left (λ m p, <[entry_hash p.2 := default [] (m !! entry_hash p.2) ++ [p.1]]> m)
    (imap pair deleted_entries) ∅.

(** The loop over the deleted files of the hash. *)
Fixpoint best_deleted_loop (used_deleted : gset nat) (new_entry : PathHash) (candidates : list nat)
    (best_deleted : option nat) : option (option nat) :=
  match candidates with
  | [] => Some best_deleted
  | idx :: candidates =>
      if bool_decide (idx ∈ used_deleted)
      then best_deleted_loop used_deleted new_entry candidates best_deleted
      else
        old_entry ← deleted_entries !! idx;
        if bool_decide (entry_path old_entry = entry_path new_entry)
        then best_deleted_loop used_deleted new_entry candidates best_deleted
        else
          should_replace ←
            match best_deleted with
            | None => Some true
            | Some best_idx =>
                best_entry ← deleted_entries !! best_idx;
                let candidate_name := basename_same (entry_path old_entry) (entry_path new_entry) in
                let best_name := basename_same (entry_path best_entry) (entry_path new_entry) in
                Some ((candidate_name && negb best_name)
                      || (eqb candidate_name best_name
                          && bool_decide (segs_compare (entry_path old_entry) (entry_path best_entry) = Lt)))
            end;
          best_deleted_loop used_deleted new_entry candidates
            (if (should_replace : bool) then Some idx else best_deleted)
  end.

Fixpoint exact_loop (news : list (nat * PathHash)) (used_deleted : gset nat) (pairs : list SimilarityPair)
    : option (list SimilarityPair) :=
  match news with
  | [] => Some pairs
  | (new_idx, new_entry) :: news =>
      match deleted_by_hash !! entry_hash new_entry with
      | None => exact_loop news used_deleted pairs
      | Some candidate_deleted =>
          best ← best_deleted_loop used_deleted new_entry candidate_deleted None;
          match best with
          | Some idx =>
              exact_loop news ({[idx]} ∪ used_deleted) (pairs ++ [mk_SimilarityPair idx new_idx 100])
          | None => exact_loop news used_deleted pairs
          end
      end
  end.

Definition collect_exact_match_pairs : option (list SimilarityPair) :=
  exact_loop (imap pair new_entries) ∅ [].

(** ** Similar contents *)

Section Similarity.
Variables (blob_cache : gmap ObjectHash bytes) (heuristics : RenameHeuristics).

Definition compute_similarity (old_entry new_entry : PathHash) : option N :=
  if bool_decide (entry_hash old_entry = entry_hash new_entry) then Some 100%N
  else
    old_bytes ← blob_cache !! entry_hash old_entry;
    new_bytes ← blob_cache !! entry_hash new_entry;
    Some (content_similarity_percent old_bytes new_bytes (similarity_threshold heuristics)).

Definition path_at (entries : list PathHash) (idx : nat) : path := default [] (entry_path <$> entries !! idx).

Definition compare_candidates (left right : SimilarityCandidate) : comparison :=
  then_with (similarity (cand_pair right) ?= similarity (cand_pair left))%N
  (then_with (name_score right ?= name_score left)%N
  (then_with (segs_compare (path_at deleted_entries (deleted_idx (cand_pair left)))
                           (path_at deleted_entries (deleted_idx (cand_pair right))))
             (segs_compare (path_at new_entries (new_idx (cand_pair left)))
                           (path_at new_entries (new_idx (cand_pair right)))))).

Definition sort_candidates : list SimilarityCandidate → list SimilarityCandidate :=
  sort_by (λ c, c) compare_candidates.

(** The loop that takes candidates whose files are both free. *)
Fixpoint greedy (candidates : list SimilarityCandidate) (used_deleted used_new : gset nat)
    (pairs : list SimilarityPair) : list SimilarityPair :=
  match candidates with
  | [] => pairs
  | candidate :: candidates =>
      let sp := cand_pair candidate in
      if bool_decide (deleted_idx sp ∈ used_deleted) || bool_decide (new_idx sp ∈ used_new)
      then greedy candidates used_deleted used_new pairs
      else greedy candidates ({[deleted_idx sp]} ∪ used_deleted) ({[new_idx sp]} ∪ used_new) (pairs ++ [sp])
  end.

(** The candidate of two files, if they are similar enough. *)
Definition candidate (deleted_idx new_idx : nat) (score : PathHash → PathHash → N)
    : option (list SimilarityCandidate) :=
  old_entry ← deleted_entries !! deleted_idx;
  new_entry ← new_entries !! new_idx;
  Some match compute_similarity old_entry new_entry with
       | None => []
       | Some similarity =>
           if (similarity <? similarity_threshold heuristics)%N then []
           else [mk_SimilarityCandidate (mk_SimilarityPair deleted_idx new_idx similarity)
                   (score old_entry new_entry)]
       end.

(** [build_unique_basename_index]: the names seen, and those seen twice. *)
Fixpoint basename_loop (entries : list PathHash) (indices : list nat) (seen : gmap text nat)
    (duplicates : gset text) : option (gmap text nat * gset text) :=
  match indices with
  | [] => Some (seen, duplicates)
  | idx :: indices =>
      entry ← entries !! idx;
      match basename_key (entry_path entry) with
      | None => basename_loop entries indices seen duplicates
      | Some basename =>
          basename_loop entries indices (<[basename := idx]> seen)
            (if bool_decide (is_Some (seen !! basename)) then {[basename]} ∪ duplicates else duplicates)
      end
  end.

Definition build_unique_basename_index (entries : list PathHash) (indices : list nat)
    : option (gmap text nat) :=
  '(seen, duplicates) ← basename_loop entries indices ∅ ∅;
  Some (filter (λ kv, kv.1 ∉ duplicates) seen).

Definition collect_basename_pairs (unmatched_deleted unmatched_new : list nat)
    : option (list SimilarityPair) :=
  deleted_by_basename ← build_unique_basename_index deleted_entries unmatched_deleted;
  new_by_basename ← build_unique_basename_index new_entries unmatched_new;
  let basename_keys :=
    sort_by (λ b, b) str_compare
      (List.filter (λ b, bool_decide (is_Some (new_by_basename !! b))) (map_to_list deleted_by_basename).*1) in
  candidates ← mapM (λ basename,
    deleted_idx ← deleted_by_basename !! basename;
    new_idx ← new_by_basename !! basename;
    candidate deleted_idx new_idx (λ _ _, 1%N)) basename_keys;
  Some (greedy (sort_candidates (concat candidates)) ∅ ∅ []).

Definition same_name_score (old_entry new_entry : PathHash) : N :=
  if basename_same (entry_path old_entry) (entry_path new_entry) then 1 else 0.

(** The strongest sources of one destination. *)
Definition per_dst_candidates (remaining_deleted : list nat) (new_idx : nat)
    : option (list SimilarityCandidate) :=
  candidates ← mapM (λ deleted_idx, candidate deleted_idx new_idx same_name_score) remaining_deleted;
  Some (take NUM_CANDIDATES_PER_DST (sort_candidates (concat candidates))).

Definition collect_phase_three_pairs (unmatched_deleted unmatched_new : list nat)
    : option (list SimilarityPair) :=
  selected_pairs ← collect_basename_pairs unmatched_deleted unmatched_new;
  let used_deleted := list_to_set (map deleted_idx selected_pairs) : gset nat in
  let used_new := list_to_set (map new_idx selected_pairs) : gset nat in
  let remaining_deleted := List.filter (λ idx, negb (bool_decide (idx ∈ used_deleted))) unmatched_deleted in
  let remaining_new := List.filter (λ idx, negb (bool_decide (idx ∈ used_new))) unmatched_new in
  if should_skip_inexact_phase (N.of_nat (length remaining_new)) (N.of_nat (length remaining_deleted))
       (rename_limit heuristics)
  then Some selected_pairs
  else
    candidates ← mapM (per_dst_candidates remaining_deleted) remaining_new;
    Some (greedy (sort_candidates (concat candidates)) used_deleted used_new selected_pairs).
End Similarity.
End Entries.

(** ** The difference *)

(** [into_iter().collect()] into a [HashMap]: the last entry of a key stays. *)
Definition collect_files (files : list (path * ObjectHash)) : gmap path ObjectHash :=
  fold_left (λ m f, <[f.1 := f.2]> m) files ∅.

Definition base_item (old_files new_files : gmap path ObjectHash) (p : path) : option ClDiffFile :=
  match old_files !! p, new_files !! p with
  | None, None => None
  | None, Some new => Some (New p new)
  | Some old, None => Some (Deleted p old)
  | Some old, Some new => if bool_decide (old = new) then None else Some (Modified p old new)
  end.

Definition base_res (old_files new_files : gmap path ObjectHash) : list ClDiffFile :=
  omap (base_item old_files new_files) (iter_paths (dom old_files ∪ dom new_files)).

Definition deleted_of (item : ClDiffFile) : option PathHash :=
  match item with Deleted p hash => Some (mk_PathHash p hash) | _ => None end.
Definition new_of (item : ClDiffFile) : option PathHash :=
  match item with New p hash => Some (mk_PathHash p hash) | _ => None end.

Definition sort_entries : list PathHash → list PathHash := sort_by entry_path segs_compare.

Definition unmatched (entries : list PathHash) (consumed : gset nat) : list nat :=
  List.filter (λ idx, negb (bool_decide (idx ∈ consumed))) (seq 0 (length entries)).

Definition kept (old_paths new_paths : gset path) (item : ClDiffFile) : bool :=
  match item with
  | Deleted p _ => negb (bool_decide (p ∈ old_paths))
  | New p _ => negb (bool_decide (p ∈ new_paths))
  | _ => true
  end.

Definition diff_compare (k l : path * N) : comparison :=
  then_with (segs_compare k.1 l.1) (k.2 ?= l.2)%N.

Definition sort_diff : list ClDiffFile → list ClDiffFile :=
  sort_by (λ item, (diff_path item, kind_weight item)) diff_compare.

Definition calculate_tree_diff_internal (old_files new_files : list (path * ObjectHash))
    (similarity_input : option (RenameHeuristics * gmap ObjectHash bytes)) : option (list ClDiffFile) :=
  let base := base_res (collect_files old_files) (collect_files new_files) in
  let deleted_entries := sort_entries (omap deleted_of base) in
  let new_entries := sort_entries (omap new_of base) in
  exact_pairs ← collect_exact_match_pairs deleted_entries new_entries;
  c ← consume_pairs deleted_entries new_entries exact_pairs (mk_Consumed ∅ ∅ []);
  c ← match similarity_input with
      | None => Some c
      | Some (heuristics, blob_cache) =>
          selected_pairs ←
            collect_phase_three_pairs deleted_entries new_entries blob_cache heuristics
              (unmatched deleted_entries (consumed_deleted_idx c)) (unmatched new_entries (consumed_new_idx c));
          consume_pairs deleted_entries new_entries selected_pairs c
      end;
  let '(old_paths, new_paths) := collect_relocated_paths (relocated_items c) in
  Some (sort_diff (List.filter (kept old_paths new_paths) base ++ relocated_items c)).

Definition calculate_tree_diff_basic (old_files new_files : list (path * ObjectHash)) :=
  calculate_tree_diff_internal old_files new_files None.

Definition calculate_tree_diff_with_blobs (old_files new_files : list (path * ObjectHash))
    (rename_config : RenameConfig) (blob_cache : gmap ObjectHash bytes) :=
  calculate_tree_diff_internal old_files new_files (Some (from_config rename_config, blob_cache)).
End TreeDiff.
Arguments PathHash : clear implicits.
Arguments ClDiffFile : clear implicits.
Arguments Consumed : clear implicits.
