(* ===== verification/TreeDiffInv.v ===== *)
(** * Differences of two file lists: lemmas

    What the parts of [calculate_tree_diff_internal] compute: the base result, the
    entries, the pairing by hash and by similarity, and the pairs that are consumed. *)
From stdpp Require Import base strings numbers tactics list sorting gmap.
From S2P Require Import Prelude Text GitObjects Similarity TreeDiff.

(** A visiting order of a set lists its elements once. *)
Class SetOrder (iter_paths : gset path → list path) : Prop :=
  set_order s : Permutation (iter_paths s) (elements s).

#[export] Instance str_compare_total : TotalCompare str_compare.
Proof. unfold str_compare. apply _. Qed.

#[export] Instance segs_compare_total : TotalCompare segs_compare.
Proof. unfold segs_compare. apply _. Qed.

#[export] Instance diff_compare_total : TotalCompare diff_compare.
Proof.
  unfold diff_compare. split.
  - intros [p n] [q k]. simpl. destruct (segs_compare p q) eqn:E; simpl.
    + apply (cmp_eq segs_compare) in E as ->. rewrite (cmp_eq N.compare). naive_solver.
    + split; [done|]. intros [= -> ->]. by rewrite (cmp_refl segs_compare) in E.
    + split; [done|]. intros [= -> ->]. by rewrite (cmp_refl segs_compare) in E.
  - intros [p n] [q k]. simpl. rewrite (cmp_opp segs_compare p q). destruct (segs_compare p q); simpl; [|done..].
    apply (cmp_opp N.compare).
  - intros [p n] [q k] [r l]. simpl. destruct (segs_compare p q) eqn:E1; simpl; [|intros _|done].
    + apply (cmp_eq segs_compare) in E1 as ->. destruct (segs_compare q r); simpl; [|done..]. apply (cmp_trans N.compare).
    + destruct (segs_compare q r) eqn:E2; simpl; [intros _|intros _|done].
      * apply (cmp_eq segs_compare) in E2 as <-. by rewrite E1.
      * by rewrite (cmp_trans segs_compare _ _ _ E1 E2).
Qed.

Lemma mapM_Forall {A B} (f : A → option B) (P : A → Prop) (Q : B → Prop) l :
  (∀ x, P x → ∃ y, f x = Some y ∧ Q y) → Forall P l → ∃ ys, mapM f l = Some ys ∧ Forall Q ys.
Proof.
  intros Hf. induction 1 as [|x l Hx _ (ys & IH & Hys)]; [by exists []|].
  destruct (Hf x Hx) as (y & Hy & Qy). exists (y :: ys). cbn [mapM]. rewrite Hy. cbn. rewrite IH. auto.
Qed.

Section Inv.
Context {ObjectHash : Type} `{Countable ObjectHash}.
Context (iter_paths : gset path → list path) `{!SetOrder iter_paths}.
Abbreviation PathHash := (PathHash ObjectHash).
Abbreviation ClDiffFile := (ClDiffFile ObjectHash).

(** ** The base result *)

Section Base.
Context (old new : gmap path ObjectHash).

Lemma base_item_path p item : base_item old new p = Some item → diff_path item = p.
Proof. unfold base_item. repeat case_match; intros; simplify_eq; done. Qed.

Lemma base_res_elem item : item ∈ base_res iter_paths old new ↔ base_item old new (diff_path item) = Some item.
Proof.
  unfold base_res. rewrite list_elem_of_omap. split.
  - intros (p & _ & E). by rewrite (base_item_path p item E).
  - intros E. exists (diff_path item). split; [|done]. rewrite (set_order (dom old ∪ dom new)), elem_of_elements.
    apply elem_of_union. rewrite !elem_of_dom. unfold base_item in E.
    destruct (old !! diff_path item); [left; by eexists|]. destruct (new !! diff_path item); [right; by eexists|done].
Qed.

Lemma base_res_paths : NoDup (diff_path <$> base_res iter_paths old new).
Proof.
  unfold base_res. assert (NoDup (iter_paths (dom old ∪ dom new))) as Hnd
    by (rewrite set_order; apply NoDup_elements).
  induction Hnd as [|p l Hp _ IH]; simpl; [constructor|].
  destruct (base_item old new p) as [item|] eqn:E; [|done]. simpl. constructor; [|done].
  rewrite (base_item_path _ _ E). intros (item' & -> & Hin)%list_elem_of_fmap.
  apply list_elem_of_omap in Hin as (q & Hq & E'). by rewrite (base_item_path _ _ E') in Hp.
Qed.

Lemma base_deleted p h : Deleted p h ∈ base_res iter_paths old new ↔ old !! p = Some h ∧ new !! p = None.
Proof.
  rewrite base_res_elem. unfold base_item. cbn [diff_path].
  destruct (old !! p), (new !! p); try case_bool_decide; naive_solver.
Qed.

Lemma base_new p h : New p h ∈ base_res iter_paths old new ↔ old !! p = None ∧ new !! p = Some h.
Proof.
  rewrite base_res_elem. unfold base_item. cbn [diff_path].
  destruct (old !! p), (new !! p); try case_bool_decide; naive_solver.
Qed.

Lemma base_modified p h k :
  Modified p h k ∈ base_res iter_paths old new ↔ old !! p = Some h ∧ new !! p = Some k ∧ h ≠ k.
Proof.
  rewrite base_res_elem. unfold base_item. cbn [diff_path].
  destruct (old !! p), (new !! p); try case_bool_decide; naive_solver.
Qed.

Lemma base_not_relocated o n h k s :
  (Renamed o n h k s ∉ base_res iter_paths old new) ∧ (Moved o n h k s ∉ base_res iter_paths old new).
Proof.
  rewrite !base_res_elem. unfold base_item. cbn [diff_path].
  destruct (old !! n), (new !! n); try case_bool_decide; naive_solver.
Qed.

Definition deleted_entries : list PathHash := sort_entries (omap deleted_of (base_res iter_paths old new)).
Definition new_entries : list PathHash := sort_entries (omap new_of (base_res iter_paths old new)).

Lemma deleted_entries_elem e :
  e ∈ deleted_entries ↔ old !! entry_path e = Some (entry_hash e) ∧ new !! entry_path e = None.
Proof.
  unfold deleted_entries, sort_entries. rewrite sort_by_perm, list_elem_of_omap. rewrite <-base_deleted. split.
  - intros ([] & Hin & E); simplify_eq/=. done.
  - intros Hin. exists (Deleted (entry_path e) (entry_hash e)). by destruct e.
Qed.

Lemma new_entries_elem e :
  e ∈ new_entries ↔ old !! entry_path e = None ∧ new !! entry_path e = Some (entry_hash e).
Proof.
  unfold new_entries, sort_entries. rewrite sort_by_perm, list_elem_of_omap. rewrite <-base_new. split.
  - intros ([] & Hin & E); simplify_eq/=. done.
  - intros Hin. exists (New (entry_path e) (entry_hash e)). by destruct e.
Qed.

(** Parts of the base result keep its distinct paths. *)
Lemma entries_paths (part : ClDiffFile → option PathHash) :
  (∀ item e, part item = Some e → entry_path e = diff_path item) →
  NoDup (entry_path <$> omap part (base_res iter_paths old new)).
Proof.
  intros Hpart. pose proof base_res_paths as Hnd. induction (base_res iter_paths old new) as [|item l IH]; [constructor|].
  cbn in Hnd. apply NoDup_cons in Hnd as [Hin Hnd]. simpl. destruct (part item) as [e|] eqn:E; [|by apply IH].
  simpl. constructor; [|by apply IH]. rewrite (Hpart _ _ E). intros (e' & Ee & Hin')%list_elem_of_fmap.
  apply list_elem_of_omap in Hin' as (item' & Hin' & E'). destruct Hin. rewrite Ee, (Hpart _ _ E').
  by apply list_elem_of_fmap_2.
Qed.

Lemma deleted_entries_paths : NoDup (entry_path <$> deleted_entries).
Proof.
  unfold deleted_entries, sort_entries. rewrite sort_by_perm. apply entries_paths.
  intros [] e E; by simplify_eq/=.
Qed.

Lemma new_entries_paths : NoDup (entry_path <$> new_entries).
Proof.
  unfold new_entries, sort_entries. rewrite sort_by_perm. apply entries_paths.
  intros [] e E; by simplify_eq/=.
Qed.
End Base.
End Inv.

(** ** Pairs *)

Section Pairs.
Context {ObjectHash : Type} `{Countable ObjectHash}.
Abbreviation PathHash := (PathHash ObjectHash).
Abbreviation ClDiffFile := (ClDiffFile ObjectHash).
Context (D N : list PathHash) (Hdisj : ∀ d n, d ∈ D → n ∈ N → entry_path d ≠ entry_path n).

(** The files of a pair, with their hashes. *)
Definition pair_at (sp : SimilarityPair) (d n : PathHash) : Prop :=
  D !! deleted_idx sp = Some d ∧ N !! new_idx sp = Some n.

Definition in_range (sp : SimilarityPair) : Prop := ∃ d n, pair_at sp d n.

Definition relocation (sp : SimilarityPair) : option ClDiffFile :=
  d ← D !! deleted_idx sp;
  n ← N !! new_idx sp;
  Some (build_relocated_diff (entry_path d) (entry_path n) (entry_hash d) (entry_hash n) (similarity sp)).

(** No file is in two pairs. *)
Definition matching (ps : list SimilarityPair) : Prop :=
  NoDup (deleted_idx <$> ps) ∧ NoDup (new_idx <$> ps).

(** The pairs that have been consumed. *)
Definition consumed_by (c : Consumed ObjectHash) (ps : list SimilarityPair) : Prop :=
  consumed_deleted_idx c = list_to_set (deleted_idx <$> ps)
  ∧ consumed_new_idx c = list_to_set (new_idx <$> ps)
  ∧ Forall2 (λ sp item, relocation sp = Some item) ps (relocated_items c)
  ∧ matching ps.

Lemma consumed_push c ps sp d n :
  consumed_by c ps → pair_at sp d n → deleted_idx sp ∉ consumed_deleted_idx c → new_idx sp ∉ consumed_new_idx c →
  consumed_by (mk_Consumed ({[deleted_idx sp]} ∪ consumed_deleted_idx c) ({[new_idx sp]} ∪ consumed_new_idx c)
    (relocated_items c ++ [build_relocated_diff (entry_path d) (entry_path n) (entry_hash d) (entry_hash n) (similarity sp)]))
    (ps ++ [sp]).
Proof.
  intros (Hd & Hn & Hr & Hnd & Hnn) [Ed En] Hi Hj. rewrite Hd in Hi. rewrite Hn in Hj.
  rewrite elem_of_list_to_set in Hi, Hj. unfold consumed_by, matching. cbn [consumed_deleted_idx consumed_new_idx relocated_items].
  rewrite Hd, Hn, !fmap_app. cbn [fmap list_fmap]. split; [set_solver|]. split; [set_solver|]. split; [|split].
  - apply Forall2_app; [done|]. repeat constructor. unfold relocation. by rewrite Ed, En.
  - apply NoDup_app. split; [done|]. split; [set_solver|]. apply NoDup_singleton.
  - apply NoDup_app. split; [done|]. split; [set_solver|]. apply NoDup_singleton.
Qed.

Lemma consume_pairs_ok pairs c ps :
  consumed_by c ps → Forall in_range pairs →
  ∃ c' qs, consume_pairs D N pairs c = Some c' ∧ consumed_by c' (ps ++ qs) ∧ (∀ q, q ∈ qs → q ∈ pairs)
    ∧ (matching (ps ++ pairs) → qs = pairs).
Proof.
  intros Hc Hr. revert c ps Hc. induction Hr as [|sp pairs (d & n & Hd & Hn) _ IH]; intros c ps Hc; cbn [consume_pairs].
  { exists c, []. rewrite app_nil_r. auto. }
  destruct (bool_decide (deleted_idx sp ∈ consumed_deleted_idx c) || bool_decide (new_idx sp ∈ consumed_new_idx c)) eqn:Eu.
  - destruct (IH c ps Hc) as (c' & qs & E & Hc' & Hin & _). exists c', qs. split; [done|]. split; [done|].
    split; [intros q Hq; right; auto|]. intros [Hmd Hmn]. destruct Hc as (Hcd & Hcn & _). rewrite Hcd, Hcn in Eu. exfalso.
    rewrite fmap_app in Hmd, Hmn. apply NoDup_app in Hmd as (_ & Hmd & _). apply NoDup_app in Hmn as (_ & Hmn & _).
    apply orb_true_iff in Eu as [Hx%bool_decide_eq_true|Hx%bool_decide_eq_true]; rewrite elem_of_list_to_set in Hx.
    + apply (Hmd _ Hx). by left.
    + apply (Hmn _ Hx). by left.
  - apply orb_false_iff in Eu as [Hi%bool_decide_eq_false Hj%bool_decide_eq_false].
    rewrite Hd, Hn. cbn. rewrite bool_decide_eq_false_2
      by (apply Hdisj; eapply list_elem_of_lookup_2; eassumption).
    destruct (IH _ (ps ++ [sp]) (consumed_push c ps sp d n Hc (conj Hd Hn) Hi Hj)) as (c' & qs & E & Hc' & Hin & Hall).
    exists c', (sp :: qs). rewrite <-app_assoc in Hc', Hall. split; [done|]. split; [done|]. split.
    + intros q [->|Hq]%elem_of_cons; [by left|right; auto].
    + intros Hm. f_equal. by apply Hall.
Qed.

(** ** Equal hashes *)

Lemma deleted_by_hash_elem h i :
  i ∈ default [] (deleted_by_hash D !! h) ↔ ∃ d, D !! i = Some d ∧ entry_hash d = h.
Proof.
  clear Hdisj. unfold deleted_by_hash. induction D as [|d l IH] using rev_ind.
  { simpl. rewrite lookup_empty. simpl. split; [by intros ?%elem_of_nil|]. intros (d & E & _). by rewrite lookup_nil in E. }
  rewrite imap_app, fold_left_app. cbn. rewrite Nat.add_0_r.
  set (m := fold_left _ _ _) in *. destruct (decide (entry_hash d = h)) as [Eh|Hne].
  - rewrite Eh, lookup_insert_eq. cbn. rewrite elem_of_app, list_elem_of_singleton, IH. split.
    + intros [(d' & E & ?)| ->]; [exists d'; split; [by apply lookup_app_l_Some|done]|].
      exists d. by rewrite list_lookup_middle.
    + intros (d' & E & Eh'). apply lookup_app_Some in E as [E|[Hle E]]; [left; by eexists|].
      right. apply list_lookup_singleton_Some in E as [? _]. lia.
  - rewrite lookup_insert_ne by done. rewrite IH. split; intros (d' & E & Eh'); exists d'; (split; [|done]).
    + by apply lookup_app_l_Some.
    + apply lookup_app_Some in E as [E|[_ E]]; [done|]. apply list_lookup_singleton_Some in E as [_ <-]. congruence.
Qed.

(** The best candidate is free, and there is one when any is free. *)
Lemma best_deleted_ok used e cands best :
  e ∈ N → Forall (λ i, is_Some (D !! i)) cands →
  (∀ b, best = Some b → is_Some (D !! b) ∧ b ∉ used) →
  ∃ r, best_deleted_loop D used e cands best = Some r
    ∧ (∀ i, r = Some i → (i ∉ used) ∧ (i ∈ cands ∨ best = Some i))
    ∧ (r = None → best = None ∧ ∀ i, i ∈ cands → i ∈ used).
Proof.
  intros He Hc. revert best. induction Hc as [|i cands [d Hd] _ IH]; intros best Hb; cbn [best_deleted_loop].
  { exists best. split; [done|]. split; [intros i ->; split; [by apply (Hb i)|auto]|]. intros ->. set_solver. }
  case_bool_decide as Eu.
  { destruct (IH best Hb) as (r & E & H1 & H2). exists r. split; [done|]. split; [set_solver|].
    intros Hr. destruct (H2 Hr) as [? Hall]. split; [done|]. intros j [->|?]%elem_of_cons; auto. }
  rewrite Hd. cbn. rewrite bool_decide_eq_false_2
    by (apply Hdisj; [by eapply list_elem_of_lookup_2|done]).
  assert (∃ b : bool, match best with
    | None => Some true
    | Some best_idx => best_entry ← D !! best_idx;
        Some ((basename_same (entry_path d) (entry_path e) && negb (basename_same (entry_path best_entry) (entry_path e)))
          || (eqb (basename_same (entry_path d) (entry_path e)) (basename_same (entry_path best_entry) (entry_path e))
              && bool_decide (segs_compare (entry_path d) (entry_path best_entry) = Lt)))
    end = Some b ∧ (best = None → b = true)) as (b & -> & Hbt).
  { destruct best as [b0|]; [|by exists true]. destruct (Hb b0 eq_refl) as [[be ->] _]. cbn. by eexists. }
  cbn. destruct (IH (if b then Some i else best)) as (r & E & H1 & H2).
  { destruct b; [|done]. intros ? [= <-]. split; [by eexists|done]. }
  exists r. split; [done|]. split.
  - intros j Hj. destruct (H1 j Hj) as [? Hor]. split; [done|]. destruct b; [|set_solver].
    destruct Hor as [?|[= <-]]; [left; by right|left; by left].
  - intros Hr. destruct (H2 Hr) as [Hn _]. destruct b; [done|]. by specialize (Hbt Hn).
Qed.

Lemma matching_snoc ps sp :
  matching ps → deleted_idx sp ∉ deleted_idx <$> ps → new_idx sp ∉ new_idx <$> ps → matching (ps ++ [sp]).
Proof.
  intros [Hd Hn] Hi Hj. split; rewrite fmap_app; cbn [fmap list_fmap]; apply NoDup_app;
    (split; [done|]); (split; [set_solver|]); apply NoDup_singleton.
Qed.

(** A pair of files with the same hash. *)
Definition exact (sp : SimilarityPair) : Prop :=
  similarity sp = 100%N ∧ ∃ d n, pair_at sp d n ∧ entry_hash d = entry_hash n.

(** Every new file of [news] is paired, or no deleted file of its hash is left. *)
Definition exhausted (news : list (nat * PathHash)) (ps : list SimilarityPair) : Prop :=
  ∀ j e, (j, e) ∈ news →
    j ∈ new_idx <$> ps ∨ ∀ i d, D !! i = Some d → entry_hash d = entry_hash e → i ∈ deleted_idx <$> ps.

Lemma exact_loop_ok news pairs :
  matching pairs → Forall exact pairs → NoDup news.*1 →
  (∀ j e, (j, e) ∈ news → N !! j = Some e ∧ j ∉ new_idx <$> pairs) →
  ∃ qs, exact_loop D news (list_to_set (deleted_idx <$> pairs)) pairs = Some (pairs ++ qs)
    ∧ matching (pairs ++ qs) ∧ Forall exact (pairs ++ qs) ∧ exhausted news (pairs ++ qs).
Proof.
  revert pairs. induction news as [|[j e] news IH]; intros pairs Hm Hx Hnd Hnews; cbn [exact_loop].
  { exists []. rewrite app_nil_r. split; [done|]. split; [done|]. split; [done|]. intros j e []%elem_of_nil. }
  cbn in Hnd. apply NoDup_cons in Hnd as [Hj Hnd]. destruct (Hnews j e) as [He Hjp]; [by left|].
  pose proof (λ i, deleted_by_hash_elem (entry_hash e) i) as Hby.
  (** the rest of the loop when [j] is not paired *)
  assert ((∀ i d, D !! i = Some d → entry_hash d = entry_hash e → i ∈ deleted_idx <$> pairs) →
    ∃ qs, exact_loop D news (list_to_set (deleted_idx <$> pairs)) pairs = Some (pairs ++ qs)
      ∧ matching (pairs ++ qs) ∧ Forall exact (pairs ++ qs) ∧ exhausted ((j, e) :: news) (pairs ++ qs)) as Hskip.
  { intros Hnone. destruct (IH pairs) as (qs & E & Hm' & Hx' & Hex); [done..|intros; apply Hnews; by right|].
    exists qs. split; [done|]. split; [done|]. split; [done|]. intros j' e' [[= -> ->]|Hin]%elem_of_cons; [|by apply Hex].
    right. intros i d Hd Hh. rewrite fmap_app, elem_of_app. left. by apply (Hnone i d). }
  destruct (deleted_by_hash D !! entry_hash e) as [cands|].
  2: { apply Hskip. intros i d Hd Hh. assert (i ∈ ([] : list nat)) as []%elem_of_nil by (apply Hby; by exists d). }
  cbn [default] in Hby. destruct (best_deleted_ok (list_to_set (deleted_idx <$> pairs)) e cands None) as (r & -> & Hs & Hn).
  { by eapply list_elem_of_lookup_2. }
  { apply Forall_forall. intros i Hi. destruct (proj1 (Hby i) Hi) as (d & Hd & _). by eexists. }
  { done. }
  cbn. destruct r as [i|].
  2: { apply Hskip. intros i d Hd Hh. destruct (Hn eq_refl) as [_ Hall].
       specialize (Hall i (proj2 (Hby i) (ex_intro _ d (conj Hd Hh)))). by rewrite elem_of_list_to_set in Hall. }
  destruct (Hs i eq_refl) as [Hi [Hc|?]]; [|done]. rewrite elem_of_list_to_set in Hi.
  destruct (proj1 (Hby i) Hc) as (d & Hd & Hh). set (sp := mk_SimilarityPair i j 100).
  destruct (IH (pairs ++ [sp])) as (qs & E & Hm' & Hx' & Hex).
  { by apply matching_snoc. }
  { apply Forall_app_2; [done|]. repeat constructor. by exists d, e. }
  { done. }
  { intros j' e' Hin. destruct (Hnews j' e') as [? Hnin]; [by right|]. split; [done|].
    rewrite fmap_app, elem_of_app. intros [?|Hjj%list_elem_of_singleton]; [done|].
    cbn in Hjj. subst j'. apply Hj. apply list_elem_of_fmap. by exists (j, e'). }
  exists (sp :: qs). replace (pairs ++ sp :: qs) with ((pairs ++ [sp]) ++ qs) by by rewrite <-app_assoc.
  split; [|split; [done|split; [done|]]].
  - rewrite <-E. f_equal. rewrite fmap_app. cbn. set_solver.
  - intros j' e' [[= -> ->]|Hin]%elem_of_cons; [|by apply Hex]. left. rewrite !fmap_app, !elem_of_app. left. right. by left.
Qed.

Lemma collect_exact_ok :
  ∃ ps, collect_exact_match_pairs D N = Some ps ∧ matching ps ∧ Forall exact ps
    ∧ ∀ j e, N !! j = Some e →
        j ∈ new_idx <$> ps ∨ ∀ i d, D !! i = Some d → entry_hash d = entry_hash e → i ∈ deleted_idx <$> ps.
Proof.
  assert (∀ j e, (j, e) ∈ imap pair N ↔ N !! j = Some e) as Himap.
  { intros j e. rewrite elem_of_lookup_imap. naive_solver. }
  destruct (exact_loop_ok (imap pair N) []) as (ps & E & Hm & Hx & Hex).
  - split; constructor.
  - constructor.
  - rewrite fmap_imap. apply NoDup_alt. intros i j x Hi Hj. rewrite !list_lookup_imap in *.
    apply fmap_Some in Hi as (? & _ & Hi), Hj as (? & _ & Hj). cbn in Hi, Hj. congruence.
  - intros j e Hin. rewrite <-Himap. split; [done|]. intros []%elem_of_nil.
  - exists ps. split; [done|]. split; [done|]. split; [done|]. intros j e Hj. by apply Hex, Himap.
Qed.

(** ** Similar contents *)

Section Similar.
Context (blobs : gmap ObjectHash bytes) (heur : RenameHeuristics).

(** A pair of files that are similar enough. *)
Definition similar (sp : SimilarityPair) : Prop :=
  ∃ d n, pair_at sp d n ∧ compute_similarity blobs heur d n = Some (similarity sp)
    ∧ (similarity_threshold heur <= similarity sp)%N.

Lemma candidate_ok i j score :
  is_Some (D !! i) → is_Some (N !! j) →
  ∃ l, candidate D N blobs heur i j score = Some l ∧ Forall (λ c, similar (cand_pair c)) l.
Proof.
  intros [d Hd] [n Hn]. unfold candidate. rewrite Hd, Hn. cbn. eexists. split; [done|].
  destruct (compute_similarity blobs heur d n) as [sim|] eqn:E; [|constructor].
  destruct (N.ltb_spec sim (similarity_threshold heur)); [constructor|]. repeat constructor. by exists d, n.
Qed.

Lemma basename_loop_ok entries indices seen duplicates :
  Forall (λ i, is_Some (entries !! i)) indices →
  map_Forall (λ _ i, is_Some (entries !! i)) seen →
  ∃ seen' duplicates', basename_loop (ObjectHash := ObjectHash) entries indices seen duplicates = Some (seen', duplicates')
    ∧ map_Forall (λ _ i, is_Some (entries !! i)) seen'.
Proof.
  intros Hi. revert seen duplicates. induction Hi as [|i indices [e He] _ IH]; intros seen duplicates Hs; cbn [basename_loop];
    [by eexists _, _|]. rewrite He. cbn. destruct (basename_key (entry_path e)) as [b|]; [|by apply IH].
  apply IH. apply map_Forall_insert_2; [by eexists|done].
Qed.

Lemma basename_index_ok entries indices :
  Forall (λ i, is_Some (entries !! i)) indices →
  ∃ m, build_unique_basename_index (ObjectHash := ObjectHash) entries indices = Some m
    ∧ map_Forall (λ _ i, is_Some (entries !! i)) m.
Proof.
  intros Hi. unfold build_unique_basename_index.
  destruct (basename_loop_ok entries indices ∅ ∅ Hi) as (seen & dups & -> & Hs); [apply map_Forall_empty|].
  cbn. eexists. split; [done|]. intros b i [E _]%map_lookup_filter_Some. by apply (Hs b i).
Qed.

Lemma greedy_ok (P : SimilarityPair → Prop) cands used_d used_n ps :
  Forall (λ c, P (cand_pair c)) cands → Forall P ps → Forall P (greedy cands used_d used_n ps).
Proof.
  intros Hc. revert used_d used_n ps. induction Hc as [|c cands Hc _ IH]; intros used_d used_n ps Hps; cbn [greedy]; [done|].
  destruct (_ || _); [by apply IH|]. apply IH, Forall_app_2; [done|]. by constructor.
Qed.

Lemma sorted_similar l :
  Forall (λ c, similar (cand_pair c)) l → Forall (λ c, similar (cand_pair c)) (sort_candidates D N l).
Proof. intros Hl. unfold sort_candidates. by rewrite sort_by_perm. Qed.

Lemma collect_basename_ok ds ns :
  Forall (λ i, is_Some (D !! i)) ds → Forall (λ j, is_Some (N !! j)) ns →
  ∃ ps, collect_basename_pairs D N blobs heur ds ns = Some ps ∧ Forall similar ps.
Proof.
  intros Hds Hns. unfold collect_basename_pairs.
  destruct (basename_index_ok D ds Hds) as (md & -> & Hmd). destruct (basename_index_ok N ns Hns) as (mn & -> & Hmn). cbn.
  set (keys := sort_by _ _ _).
  assert (Forall (λ b, is_Some (md !! b) ∧ is_Some (mn !! b)) keys) as Hkeys.
  { subst keys. rewrite sort_by_perm. apply Forall_forall. intros b Hb.
    apply list_elem_of_In, filter_In in Hb as [Hb Hn%bool_decide_eq_true]. split; [|done].
    apply list_elem_of_In, list_elem_of_fmap in Hb as ([b' i] & -> & Hb%elem_of_map_to_list). by eexists. }
  destruct (mapM_Forall (λ b, i ← md !! b; j ← mn !! b; candidate D N blobs heur i j (λ _ _, 1%N))
    (λ b, is_Some (md !! b) ∧ is_Some (mn !! b)) (Forall (λ c, similar (cand_pair c))) keys) as (cands & E & Hc); [|done|].
  { intros b [[i Hi] [j Hj]]. rewrite Hi, Hj. cbn. apply candidate_ok; [by apply (Hmd b)|by apply (Hmn b)]. }
  rewrite E. cbn. eexists. split; [done|]. apply greedy_ok; [|constructor]. by apply sorted_similar, Forall_concat.
Qed.

Lemma per_dst_ok ds j :
  Forall (λ i, is_Some (D !! i)) ds → is_Some (N !! j) →
  ∃ l, per_dst_candidates D N blobs heur ds j = Some l ∧ Forall (λ c, similar (cand_pair c)) l.
Proof.
  intros Hds Hj. unfold per_dst_candidates.
  destruct (mapM_Forall (λ i, candidate D N blobs heur i j same_name_score) (λ i, is_Some (D !! i))
    (Forall (λ c, similar (cand_pair c))) ds) as (cands & -> & Hc); [by intros; apply candidate_ok|done|].
  cbn. eexists. split; [done|]. by apply Forall_take, sorted_similar, Forall_concat.
Qed.

Lemma Forall_list_filter {A} (P : A → Prop) (f : A → bool) l : Forall P l → Forall P (List.filter f l).
Proof. rewrite !Forall_forall. intros Hl x Hx%list_elem_of_In%filter_In. apply Hl, list_elem_of_In. tauto. Qed.

Lemma collect_phase_three_ok ds ns :
  Forall (λ i, is_Some (D !! i)) ds → Forall (λ j, is_Some (N !! j)) ns →
  ∃ ps, collect_phase_three_pairs D N blobs heur ds ns = Some ps ∧ Forall similar ps.
Proof.
  intros Hds Hns. unfold collect_phase_three_pairs.
  destruct (collect_basename_ok ds ns Hds Hns) as (ps & -> & Hps). cbn. destruct (should_skip_inexact_phase _ _ _); [by eexists|].
  set (rd := List.filter _ ds). set (rn := List.filter _ ns).
  destruct (mapM_Forall (per_dst_candidates D N blobs heur rd) (λ j, is_Some (N !! j))
    (Forall (λ c, similar (cand_pair c))) rn) as (cands & -> & Hc).
  { intros j Hj. apply per_dst_ok; [by apply Forall_list_filter|done]. }
  { by apply Forall_list_filter. }
  cbn. eexists. split; [done|]. apply greedy_ok; [|done]. by apply sorted_similar, Forall_concat.
Qed.

Lemma similar_in_range sp : similar sp → in_range sp.
Proof. intros (d & n & Hp & _). by exists d, n. Qed.
End Similar.

Lemma exact_in_range sp : exact sp → in_range sp.
Proof. intros (_ & d & n & Hp & _). by exists d, n. Qed.

Lemma unmatched_in_range (entries : list PathHash) consumed :
  Forall (λ i, is_Some (entries !! i)) (unmatched entries consumed).
Proof.
  unfold unmatched. apply Forall_list_filter, Forall_forall. intros i Hi%elem_of_seq.
  apply lookup_lt_is_Some_2. lia.
Qed.
End Pairs.
