(* ===== verification/TreeDiffTheorems.v ===== *)
(** * Differences of two file lists: theorems

    The difference turns the old files into the new ones, says only what is true of
    them, and does not depend on the order in which a hash set is visited. *)
From stdpp Require Import base strings numbers tactics list sorting gmap.
From S2P Require Import Prelude Text GitObjects Similarity TreeDiff TreeDiffInv.

(** ** What a difference says *)

Section Meaning.
Context {ObjectHash : Type} `{Countable ObjectHash}.
Abbreviation ClDiffFile := (ClDiffFile ObjectHash).
Abbreviation files := (gmap path ObjectHash).

(** The paths that an item removes and the files that it adds. *)
Definition removed_by (item : ClDiffFile) : list path :=
  match item with
  | Deleted p _ => [p]
  | Renamed o _ _ _ _ | Moved o _ _ _ _ => [o]
  | New _ _ | Modified _ _ _ => []
  end.

Definition added_by (item : ClDiffFile) : list (path * ObjectHash) :=
  match item with
  | New p h => [(p, h)]
  | Modified p _ k => [(p, k)]
  | Renamed _ n _ k _ | Moved _ n _ k _ => [(n, k)]
  | Deleted _ _ => []
  end.

Definition apply_diff (items : list ClDiffFile) (old : files) : files :=
  list_to_map (items ≫= added_by) ∪ foldr delete old (items ≫= removed_by).

Definition touched (item : ClDiffFile) : list path := removed_by item ++ (added_by item).*1.

(** The score of a relocation: equal contents, or contents similar enough. *)
Definition score_ok (input : option (RenameHeuristics * gmap ObjectHash bytes))
    (h k : ObjectHash) (s : N) : Prop :=
  (h = k ∧ s = 100%N)
  ∨ ∃ heur blobs a b, input = Some (heur, blobs) ∧ blobs !! h = Some a ∧ blobs !! k = Some b
      ∧ s = content_similarity_percent a b (similarity_threshold heur)
      ∧ (similarity_threshold heur <= s)%N.

(** What an item says of the two sets of files. *)
Definition says (old new : files) (input : option (RenameHeuristics * gmap ObjectHash bytes))
    (item : ClDiffFile) : Prop :=
  match item with
  | New p h => old !! p = None ∧ new !! p = Some h
  | Deleted p h => old !! p = Some h ∧ new !! p = None
  | Modified p h k => old !! p = Some h ∧ new !! p = Some k ∧ h ≠ k
  | Renamed o n h k s =>
      (old !! o = Some h ∧ new !! o = None ∧ old !! n = None ∧ new !! n = Some k)
      ∧ parent o = parent n ∧ score_ok input h k s
  | Moved o n h k s =>
      (old !! o = Some h ∧ new !! o = None ∧ old !! n = None ∧ new !! n = Some k)
      ∧ parent o ≠ parent n ∧ score_ok input h k s
  end.

Lemma foldr_delete_lookup (ps : list path) (m : files) p :
  foldr delete m ps !! p = if decide (p ∈ ps) then None else m !! p.
Proof.
  induction ps as [|q ps IH]; cbn [foldr].
  { case_decide as Hp; [by apply elem_of_nil in Hp|done]. }
  destruct (decide (q = p)) as [->|Hne].
  - rewrite lookup_delete_eq. destruct (decide (p ∈ p :: ps)) as [|Hp]; [done|]. destruct Hp. by left.
  - rewrite lookup_delete_ne, IH by done.
    destruct (decide (p ∈ ps)), (decide (p ∈ q :: ps)); set_solver.
Qed.

(** A difference that adds and removes what has changed turns [old] into [new]. *)
Lemma apply_diff_eq items old new :
  (∀ p h, (p, h) ∈ items ≫= added_by ↔ new !! p = Some h ∧ old !! p ≠ Some h) →
  (∀ p, p ∈ items ≫= removed_by ↔ is_Some (old !! p) ∧ new !! p = None) →
  apply_diff items old = new.
Proof.
  intros Hadd Hrem. apply map_eq. intros p. unfold apply_diff. rewrite lookup_union, foldr_delete_lookup.
  assert (∀ h, list_to_map (M := files) (items ≫= added_by) !! p = Some h ↔ new !! p = Some h ∧ old !! p ≠ Some h) as Hl.
  { intros h. rewrite <-Hadd. split; [apply elem_of_list_to_map_2|]. intros Hin. apply elem_of_list_to_map_1'; [|done].
    intros h' Hin'. apply Hadd in Hin as [? _], Hin' as [? _]. congruence. }
  destruct (list_to_map (M := files) (items ≫= added_by) !! p) as [h|] eqn:El.
  { destruct (proj1 (Hl h) eq_refl) as [-> _]. by destruct (if decide _ then _ else _). }
  rewrite (left_id_L None (∪)). destruct (decide _) as [Hin|Hnin].
  { by apply Hrem in Hin as [_ ->]. }
  destruct (new !! p) as [h|] eqn:En.
  - destruct (decide (old !! p = Some h)) as [|Hne]; [done|]. discriminate (proj2 (Hl h) (conj eq_refl Hne)).
  - destruct (old !! p) as [h|] eqn:Eo; [|done]. destruct Hnin. apply Hrem. rewrite Eo. by eauto.
Qed.

(** ** The run *)

Context (iter_paths : gset path → list path) `{!SetOrder iter_paths}.

(** The paths of a relocation. *)
Definition relocated_paths (item : ClDiffFile) : option (path * path) :=
  match item with Renamed o n _ _ _ | Moved o n _ _ _ => Some (o, n) | _ => None end.

Lemma collect_relocated_elem items p :
  (p ∈ (collect_relocated_paths items).1 ↔ ∃ item n, item ∈ items ∧ relocated_paths item = Some (p, n))
  ∧ (p ∈ (collect_relocated_paths items).2 ↔ ∃ item o, item ∈ items ∧ relocated_paths item = Some (o, p)).
Proof.
  unfold collect_relocated_paths. induction items as [|item items IH] using rev_ind.
  { simpl. split; (split; [set_solver|]); by intros (? & ? & []%elem_of_nil & _). }
  rewrite fold_left_app. destruct (fold_left _ items _) as [ops nps]. destruct IH as [IH1 IH2].
  cbn [fold_left]. split.
  - transitivity (p ∈ ops ∨ ∃ n, relocated_paths item = Some (p, n)); [destruct item; set_solver|].
    cbn in IH1. rewrite IH1. set_solver.
  - transitivity (p ∈ nps ∨ ∃ o, relocated_paths item = Some (o, p)); [destruct item; set_solver|].
    cbn in IH2. rewrite IH2. set_solver.
Qed.

(** The pairs that the phases consume, from the entries alone. *)
Definition consume_all (D N : list (PathHash ObjectHash))
    (input : option (RenameHeuristics * gmap ObjectHash bytes)) : option (Consumed ObjectHash) :=
  exact_pairs ← collect_exact_match_pairs D N;
  c ← consume_pairs D N exact_pairs (mk_Consumed ∅ ∅ []);
  match input with
  | None => Some c
  | Some (heuristics, blob_cache) =>
      selected_pairs ← collect_phase_three_pairs D N blob_cache heuristics
        (unmatched D (consumed_deleted_idx c)) (unmatched N (consumed_new_idx c));
      consume_pairs D N selected_pairs c
  end.

(** ** The run of a difference *)

Section Run.
Context (old_files new_files : list (path * ObjectHash)) (input : option (RenameHeuristics * gmap ObjectHash bytes)).
Let old := collect_files old_files.
Let new := collect_files new_files.
Let D := deleted_entries iter_paths old new.
Let N := new_entries iter_paths old new.

Lemma entries_disjoint d n : d ∈ D → n ∈ N → entry_path d ≠ entry_path n.
Proof.
  intros [Hd _]%deleted_entries_elem [Hn _]%new_entries_elem E; [|done..]. rewrite E in Hd. congruence.
Qed.

(** A run: the pairs it consumed, those of equal hashes first. *)
Definition run_of (c : Consumed ObjectHash) (es qs : list SimilarityPair) : Prop :=
  consumed_by D N c (es ++ qs) ∧ Forall (exact D N) es
  ∧ (∀ j e, N !! j = Some e → j ∈ new_idx <$> es
       ∨ ∀ i d, D !! i = Some d → entry_hash d = entry_hash e → i ∈ deleted_idx <$> es)
  ∧ match input with
    | None => qs = []
    | Some (heur, blobs) => Forall (similar D N blobs heur) qs
    end.

(** The items before they are sorted. *)
Definition unsorted (c : Consumed ObjectHash) : list ClDiffFile :=
  List.filter (kept (collect_relocated_paths (relocated_items c)).1 (collect_relocated_paths (relocated_items c)).2)
    (base_res iter_paths old new) ++ relocated_items c.

Lemma calculate_eq :
  calculate_tree_diff_internal iter_paths old_files new_files input
  = (λ c, sort_diff (unsorted c)) <$> consume_all D N input.
Proof.
  unfold calculate_tree_diff_internal, consume_all, unsorted. fold old new.
  change (sort_entries (omap deleted_of (base_res iter_paths old new))) with D.
  change (sort_entries (omap new_of (base_res iter_paths old new))) with N.
  destruct (collect_exact_match_pairs D N) as [es|]; [|done]. cbn.
  destruct (consume_pairs D N es _) as [c|]; [|done]. cbn.
  destruct (match input with Some _ => _ | None => _ end) as [c'|]; [|done]. cbn.
  by destruct (collect_relocated_paths (relocated_items c')).
Qed.

Lemma diff_run : ∃ c es qs, consume_all D N input = Some c ∧ run_of c es qs.
Proof.
  unfold consume_all. destruct (collect_exact_ok D N entries_disjoint) as (es & -> & Hm & Hx & Hex). cbn.
  destruct (consume_pairs_ok D N entries_disjoint es (mk_Consumed ∅ ∅ []) []) as (c & es' & -> & Hc & _ & Hall).
  { split; [done|]. split; [done|]. split; [constructor|]. split; constructor. }
  { eapply Forall_impl; [exact Hx|apply exact_in_range]. }
  rewrite (Hall Hm) in Hc. cbn in *. unfold run_of. destruct input as [[heur blobs]|]; cbn.
  - destruct (collect_phase_three_ok D N blobs heur (unmatched D (consumed_deleted_idx c)) (unmatched N (consumed_new_idx c)))
      as (ps & -> & Hps); [apply unmatched_in_range..|]. cbn.
    destruct (consume_pairs_ok D N entries_disjoint ps c es Hc) as (c' & qs & -> & Hc' & Hin & _).
    { eapply Forall_impl; [exact Hps|apply similar_in_range]. }
    exists c', es, qs. split; [done|]. split; [done|]. split; [done|]. split; [done|].
    rewrite Forall_forall in Hps |- *. auto.
  - exists c, es, []. by rewrite app_nil_r.
Qed.

Context (c : Consumed ObjectHash) (es qs : list SimilarityPair) (Hrun : run_of c es qs).

Lemma relocated_item item :
  item ∈ relocated_items c → ∃ sp d n, sp ∈ es ++ qs ∧ pair_at D N sp d n
    ∧ item = build_relocated_diff (entry_path d) (entry_path n) (entry_hash d) (entry_hash n) (similarity sp).
Proof.
  intros [k Hk]%list_elem_of_lookup. destruct Hrun as ((_ & _ & HF & _) & _).
  destruct (Forall2_lookup_r _ _ _ _ _ HF Hk) as (sp & Hsp & Hr). exists sp.
  unfold relocation in Hr. destruct (D !! deleted_idx sp) as [d|] eqn:Ed; [|done].
  destruct (N !! new_idx sp) as [n|] eqn:En; simplify_eq/=. exists d, n. split; [by eapply list_elem_of_lookup_2|]. done.
Qed.

Lemma pair_relocated sp d n :
  sp ∈ es ++ qs → pair_at D N sp d n →
  build_relocated_diff (entry_path d) (entry_path n) (entry_hash d) (entry_hash n) (similarity sp) ∈ relocated_items c.
Proof.
  intros [k Hk]%list_elem_of_lookup [Hd Hn]. destruct Hrun as ((_ & _ & HF & _) & _).
  destruct (Forall2_lookup_l _ _ _ _ _ HF Hk) as (item & Hi & Hr). unfold relocation in Hr. rewrite Hd, Hn in Hr.
  simplify_eq/=. by eapply list_elem_of_lookup_2.
Qed.

Lemma pair_files sp d n : pair_at D N sp d n →
  old !! entry_path d = Some (entry_hash d) ∧ new !! entry_path d = None
  ∧ old !! entry_path n = None ∧ new !! entry_path n = Some (entry_hash n).
Proof.
  intros [Hd%list_elem_of_lookup_2 Hn%list_elem_of_lookup_2].
  apply deleted_entries_elem in Hd as [? ?]; [|done]. apply new_entries_elem in Hn as [? ?]; done.
Qed.

Lemma pair_score sp d n :
  sp ∈ es ++ qs → pair_at D N sp d n → score_ok input (entry_hash d) (entry_hash n) (similarity sp).
Proof.
  intros Hsp [Hd Hn]. destruct Hrun as (_ & Hx & _ & Hq). rewrite elem_of_app in Hsp. destruct Hsp as [He|He].
  - rewrite Forall_forall in Hx. destruct (Hx _ He) as (-> & d' & n' & [Hd' Hn'] & Hh). left. split; [congruence|done].
  - unfold score_ok. destruct input as [[heur blobs]|]; [|subst qs; by apply elem_of_nil in He].
    rewrite Forall_forall in Hq. destruct (Hq _ He) as (d' & n' & [Hd' Hn'] & Hs & Hle).
    rewrite Hd in Hd'. rewrite Hn in Hn'. simplify_eq. unfold compute_similarity in Hs.
    case_bool_decide as Eh; [left; by simplify_eq|]. right.
    destruct (blobs !! entry_hash d') as [a|] eqn:Ea; [|done]. destruct (blobs !! entry_hash n') as [b|] eqn:Eb; simplify_eq/=.
    by exists heur, blobs, a, b.
Qed.

Lemma unsorted_elem item :
  item ∈ unsorted c ↔
    (item ∈ base_res iter_paths old new
     ∧ kept (collect_relocated_paths (relocated_items c)).1 (collect_relocated_paths (relocated_items c)).2 item = true)
    ∨ item ∈ relocated_items c.
Proof. unfold unsorted. by rewrite elem_of_app, list_elem_of_In, filter_In, <-list_elem_of_In. Qed.

Lemma build_relocated_cases o n h k s :
  (build_relocated_diff o n h k s = Renamed o n h k s ∧ parent o = parent n)
  ∨ (build_relocated_diff o n h k s = Moved (ObjectHash := ObjectHash) o n h k s ∧ parent o ≠ parent n).
Proof. unfold build_relocated_diff. case_bool_decide; auto. Qed.

Lemma relocation_paths sp d n : relocated_paths (build_relocated_diff (entry_path d) (entry_path n) (entry_hash d)
  (entry_hash n) (similarity sp)) = Some (entry_path d, entry_path n) :> option (path * path).
Proof. unfold build_relocated_diff. by case_bool_decide. Qed.

(** Every item is true. *)
Lemma unsorted_says item : item ∈ unsorted c → says old new input item.
Proof.
  intros [[Hb _]|Hr]%unsorted_elem.
  - destruct item; cbn.
    + by apply (base_new iter_paths) in Hb.
    + by apply (base_deleted iter_paths) in Hb.
    + by apply (base_modified iter_paths) in Hb.
    + by destruct (base_not_relocated iter_paths old new old_path new_path old_hash new_hash similarity).
    + by destruct (base_not_relocated iter_paths old new old_path new_path old_hash new_hash similarity).
  - destruct (relocated_item item Hr) as (sp & d & n & Hsp & Hp & ->). pose proof (pair_files _ _ _ Hp).
    pose proof (pair_score _ _ _ Hsp Hp).
    destruct (build_relocated_cases (entry_path d) (entry_path n) (entry_hash d) (entry_hash n) (similarity sp)) as [[-> ?]|[-> ?]];
      done.
Qed.

Lemma relocated_old_elem p :
  p ∈ (collect_relocated_paths (relocated_items c)).1 ↔ ∃ sp d n, sp ∈ es ++ qs ∧ pair_at D N sp d n ∧ entry_path d = p.
Proof.
  rewrite (proj1 (collect_relocated_elem _ p)). split.
  - intros (item & n' & Hin & Hp). destruct (relocated_item item Hin) as (sp & d & n & Hsp & Hat & ->).
    rewrite relocation_paths in Hp. simplify_eq. eauto 10.
  - intros (sp & d & n & Hsp & Hat & <-). eexists _, _. split; [by apply (pair_relocated sp d n)|apply relocation_paths].
Qed.

Lemma relocated_new_elem p :
  p ∈ (collect_relocated_paths (relocated_items c)).2 ↔ ∃ sp d n, sp ∈ es ++ qs ∧ pair_at D N sp d n ∧ entry_path n = p.
Proof.
  rewrite (proj2 (collect_relocated_elem _ p)). split.
  - intros (item & n' & Hin & Hp). destruct (relocated_item item Hin) as (sp & d & n & Hsp & Hat & ->).
    rewrite relocation_paths in Hp. simplify_eq. eauto 10.
  - intros (sp & d & n & Hsp & Hat & <-). eexists _, _. split; [by apply (pair_relocated sp d n)|apply relocation_paths].
Qed.

Lemma relocation_effect sp d n :
  let item := build_relocated_diff (entry_path d) (entry_path n) (entry_hash d) (entry_hash n) (similarity sp) in
  removed_by item = [entry_path d] ∧ added_by item = [(entry_path n, entry_hash n)].
Proof. unfold build_relocated_diff. by case_bool_decide. Qed.

Lemma added_elem p h : (p, h) ∈ unsorted c ≫= added_by ↔ new !! p = Some h ∧ old !! p ≠ Some h.
Proof.
  rewrite list_elem_of_bind. split.
  - intros (item & Ha & Hin). apply unsorted_says in Hin. destruct item; cbn in *; try set_solver;
      apply list_elem_of_singleton in Ha; simplify_eq; naive_solver congruence.
  - intros [Hn Ho]. destruct (old !! p) as [h0|] eqn:Eo.
    + exists (Modified p h0 h). split; [by left|]. apply unsorted_elem. left. split; [|done].
      apply (base_modified iter_paths). naive_solver.
    + assert (New p h ∈ base_res iter_paths old new) as Hb by by apply (base_new iter_paths).
      destruct (decide (p ∈ (collect_relocated_paths (relocated_items c)).2)) as [Hr|Hr].
      * apply relocated_new_elem in Hr as (sp & d & n & Hsp & Hat & <-). eexists.
        split; [|apply unsorted_elem; right; by apply (pair_relocated sp d n)].
        rewrite (proj2 (relocation_effect sp d n)). destruct (pair_files _ _ _ Hat) as (_ & _ & _ & ?). simplify_eq. by left.
      * exists (New p h). split; [by left|]. apply unsorted_elem. left. split; [done|]. cbn. by rewrite bool_decide_eq_false_2.
Qed.

Lemma removed_elem p : p ∈ unsorted c ≫= removed_by ↔ is_Some (old !! p) ∧ new !! p = None.
Proof.
  rewrite list_elem_of_bind. split.
  - intros (item & Ha & Hin). apply unsorted_says in Hin. destruct item; cbn in *; try set_solver;
      apply list_elem_of_singleton in Ha; simplify_eq; naive_solver.
  - intros [[h Ho] Hn]. assert (Deleted p h ∈ base_res iter_paths old new) as Hb by by apply (base_deleted iter_paths).
    destruct (decide (p ∈ (collect_relocated_paths (relocated_items c)).1)) as [Hr|Hr].
    + apply relocated_old_elem in Hr as (sp & d & n & Hsp & Hat & <-). eexists.
      split; [|apply unsorted_elem; right; by apply (pair_relocated sp d n)].
      rewrite (proj1 (relocation_effect sp d n)). by left.
    + exists (Deleted p h). split; [by left|]. apply unsorted_elem. left. split; [done|]. cbn. by rewrite bool_decide_eq_false_2.
Qed.

(** ** Each path in one item *)

Lemma entry_index (entries : list (PathHash ObjectHash)) i j e e' :
  NoDup (entry_path <$> entries) → entries !! i = Some e → entries !! j = Some e' →
  entry_path e = entry_path e' → i = j.
Proof.
  intros Hnd Hi Hj Hp. apply (NoDup_lookup (entry_path <$> entries) i j (entry_path e)); [done| |];
    rewrite list_lookup_fmap; [by rewrite Hi|by rewrite Hj, Hp].
Qed.

(** Consumed pairs with a file in common are the same. *)
Lemma pair_unique sp sp' d n d' n' :
  sp ∈ es ++ qs → sp' ∈ es ++ qs → pair_at D N sp d n → pair_at D N sp' d' n' →
  entry_path d = entry_path d' ∨ entry_path n = entry_path n' → sp = sp'.
Proof.
  intros [i Hi]%list_elem_of_lookup [j Hj]%list_elem_of_lookup [Hd Hn] [Hd' Hn'] Hp.
  destruct Hrun as ((_ & _ & _ & Hmd & Hmn) & _). assert (i = j) as ->; [|congruence]. destruct Hp as [Hp|Hp].
  - apply (NoDup_lookup _ i j (deleted_idx sp) Hmd); rewrite list_lookup_fmap; [by rewrite Hi|rewrite Hj]. cbn. f_equal.
    by eapply (entry_index D); [apply deleted_entries_paths|..].
  - apply (NoDup_lookup _ i j (new_idx sp) Hmn); rewrite list_lookup_fmap; [by rewrite Hi|rewrite Hj]. cbn. f_equal.
    by eapply (entry_index N); [apply new_entries_paths|..].
Qed.

Lemma touched_relocation sp d n :
  touched (build_relocated_diff (entry_path d) (entry_path n) (entry_hash d) (entry_hash n) (similarity sp))
  = [entry_path d; entry_path n].
Proof. unfold touched. destruct (relocation_effect sp d n) as [-> ->]. done. Qed.

Lemma touched_base item : item ∈ base_res iter_paths old new → touched item = [diff_path item].
Proof.
  destruct item; try done; intros Hb;
    by destruct (base_not_relocated iter_paths old new old_path new_path old_hash new_hash similarity).
Qed.

(** A relocation and an item that is kept have no path in common. *)
Lemma kept_apart item item' p :
  item ∈ base_res iter_paths old new →
  kept (collect_relocated_paths (relocated_items c)).1 (collect_relocated_paths (relocated_items c)).2 item = true →
  item' ∈ relocated_items c → p ∈ touched item → p ∈ touched item' → False.
Proof.
  intros Hb Hk Hr Hp Hp'. destruct (relocated_item item' Hr) as (sp & d & n & Hsp & Hat & ->).
  rewrite touched_relocation in Hp'. rewrite touched_base in Hp by done. apply list_elem_of_singleton in Hp as ->.
  apply base_res_elem in Hb; [|done]. unfold base_item in Hb. destruct (pair_files _ _ _ Hat) as (H1 & H2 & H3 & H4).
  assert (entry_path d ∈ (collect_relocated_paths (relocated_items c)).1) by (apply relocated_old_elem; eauto 10).
  assert (entry_path n ∈ (collect_relocated_paths (relocated_items c)).2) by (apply relocated_new_elem; eauto 10).
  rewrite elem_of_cons, list_elem_of_singleton in Hp'. destruct Hp' as [E|E]; rewrite E in Hb.
  - rewrite H1, H2 in Hb. rewrite <-E in *. destruct item; simplify_eq/=. by rewrite bool_decide_eq_true_2 in Hk.
  - rewrite H3, H4 in Hb. rewrite <-E in *. destruct item; simplify_eq/=. by rewrite bool_decide_eq_true_2 in Hk.
Qed.

Lemma touched_unique item item' p :
  item ∈ unsorted c → item' ∈ unsorted c → p ∈ touched item → p ∈ touched item' → item = item'.
Proof.
  intros [[Hb Hk]|Hr]%unsorted_elem [[Hb' Hk']|Hr']%unsorted_elem Hp Hp'.
  - rewrite touched_base in Hp, Hp' by done. apply list_elem_of_singleton in Hp, Hp'.
    apply base_res_elem in Hb, Hb'; [|done..]. congruence.
  - by destruct (kept_apart item item' p).
  - by destruct (kept_apart item' item p).
  - destruct (relocated_item item Hr) as (sp & d & n & Hsp & Hat & ->).
    destruct (relocated_item item' Hr') as (sp' & d' & n' & Hsp' & Hat' & ->). rewrite touched_relocation in Hp, Hp'.
    assert (∀ i j x y, D !! i = Some x → N !! j = Some y → entry_path x ≠ entry_path y) as Hdis.
    { intros i j x y Hx%list_elem_of_lookup_2 Hy%list_elem_of_lookup_2. by apply entries_disjoint. }
    assert (sp = sp') as <-; [|destruct Hat, Hat'; congruence].
    apply (pair_unique sp sp' d n d' n' Hsp Hsp' Hat Hat'). destruct Hat as [Hd Hn], Hat' as [Hd' Hn'].
    rewrite elem_of_cons, list_elem_of_singleton in Hp, Hp'. destruct Hp as [E|E], Hp' as [E'|E'].
    + left. congruence.
    + destruct (Hdis _ _ _ _ Hd Hn'). congruence.
    + destruct (Hdis _ _ _ _ Hd' Hn). congruence.
    + right. congruence.
Qed.

Lemma NoDup_touched : NoDup (unsorted c ≫= touched).
Proof.
  apply NoDup_bind.
  - apply touched_unique.
  - intros item [[Hb _]|Hr]%unsorted_elem; [rewrite touched_base by done; apply NoDup_singleton|].
    destruct (relocated_item item Hr) as (sp & d & n & _ & [Hd%list_elem_of_lookup_2 Hn%list_elem_of_lookup_2] & ->).
    rewrite touched_relocation. apply NoDup_cons. split; [|apply NoDup_singleton].
    intros E%list_elem_of_singleton. by apply (entries_disjoint d n).
  - unfold unsorted. apply NoDup_app. split; [|split].
    + apply NoDup_ListNoDup, List.NoDup_filter, NoDup_ListNoDup. by eapply NoDup_fmap_1, base_res_paths.
    + intros item [Hb Hk]%list_elem_of_In%filter_In Hr. apply list_elem_of_In in Hb.
      apply (kept_apart item item (diff_path item)); try done; rewrite touched_base by done; by left.
    + destruct Hrun as ((_ & _ & HF & Hmd & _) & _). apply NoDup_alt. intros i j item Hi Hj.
      destruct (Forall2_lookup_r _ _ _ _ _ HF Hi) as (sp & Hsp & Hr).
      destruct (Forall2_lookup_r _ _ _ _ _ HF Hj) as (sp' & Hsp' & Hr').
      apply (NoDup_lookup _ i j (deleted_idx sp) Hmd); rewrite list_lookup_fmap; [by rewrite Hsp|rewrite Hsp']. cbn. f_equal.
      unfold relocation in Hr, Hr'. destruct (D !! deleted_idx sp) as [d|] eqn:Ed; [|done].
      destruct (N !! new_idx sp) as [n|]; [|done]. destruct (D !! deleted_idx sp') as [d'|] eqn:Ed'; [|done].
      destruct (N !! new_idx sp') as [n'|]; [|done]. cbn in Hr, Hr'. injection Hr as Hr. injection Hr' as Hr'.
      assert (relocated_paths item = Some (entry_path d, entry_path n)) as E by (rewrite <-Hr; apply relocation_paths).
      rewrite <-Hr', relocation_paths in E. eapply (entry_index D); [by apply deleted_entries_paths|done..|congruence].
Qed.

(** The keys of the last sort are distinct. *)
Lemma NoDup_keys : NoDup ((λ item, (diff_path item, kind_weight item)) <$> unsorted c).
Proof.
  apply (NoDup_fmap_1 fst). rewrite <-list_fmap_compose. pose proof NoDup_touched as Hnd.
  induction (unsorted c) as [|item items IH]; [constructor|]. cbn in Hnd. apply NoDup_app in Hnd as (_ & Hdis & Hnd).
  cbn. constructor; [|by apply IH]. intros (item' & E & Hin)%list_elem_of_fmap. cbn in E.
  apply (Hdis (diff_path item)); [by destruct item; cbn; set_solver|].
  apply list_elem_of_bind. exists item'. split; [|done]. rewrite E. destruct item'; cbn; set_solver.
Qed.

(** No deleted file has the hash of a new one. *)
Lemma no_exact_left p q h : Deleted p h ∈ unsorted c → New q h ∈ unsorted c → False.
Proof.
  intros [[Hb Hk]|Hr]%unsorted_elem Hnew; [|destruct (relocated_item _ Hr) as (sp & d & n & _ & _ & E);
    pose proof (relocation_paths sp d n) as Hp; by rewrite <-E in Hp].
  apply unsorted_elem in Hnew as [[Hb' Hk']|Hr]; [|destruct (relocated_item _ Hr) as (sp & d & n & _ & _ & E);
    pose proof (relocation_paths sp d n) as Hp; by rewrite <-E in Hp].
  cbn in Hk, Hk'. apply negb_true_iff, bool_decide_eq_false in Hk, Hk'.
  assert (mk_PathHash p h ∈ D) as [i Hi]%list_elem_of_lookup
    by (apply deleted_entries_elem; [done|]; by apply (base_deleted iter_paths)).
  assert (mk_PathHash q h ∈ N) as [j Hj]%list_elem_of_lookup
    by (apply new_entries_elem; [done|]; by apply (base_new iter_paths)).
  destruct Hrun as (_ & Hx & Hex & _). rewrite Forall_forall in Hx. destruct (Hex j _ Hj) as [Hin|Hin].
  - apply list_elem_of_fmap in Hin as (sp & -> & Hsp). destruct (Hx _ Hsp) as (_ & d & n & [Hd Hn] & _).
    apply Hk', relocated_new_elem. exists sp, d, n. rewrite elem_of_app. split; [by left|]. split; [done|].
    rewrite Hn in Hj. by simplify_eq.
  - specialize (Hin i _ Hi eq_refl). apply list_elem_of_fmap in Hin as (sp & -> & Hsp).
    destruct (Hx _ Hsp) as (_ & d & n & [Hd Hn] & _). apply Hk, relocated_old_elem. exists sp, d, n.
    rewrite elem_of_app. split; [by left|]. split; [done|]. rewrite Hd in Hi. by simplify_eq.
Qed.
End Run.

(** ** Theorems *)

(** C35: the difference of two lists of files is always found (no index is out of
    bounds) and turns the old files into the new ones: removing the paths it removes and
    adding the files it adds gives exactly the new files.  Every path is in at most one
    item, at one of its ends, and the items are in the order of their paths. *)
Theorem tree_diff_exact old_files new_files input :
  ∃ items, calculate_tree_diff_internal iter_paths old_files new_files input = Some items
    ∧ apply_diff items (collect_files old_files) = collect_files new_files
    ∧ NoDup (items ≫= touched)
    ∧ StronglySorted (λ a b, segs_compare (diff_path a) (diff_path b) = Lt) items.
Proof.
  destruct (diff_run old_files new_files input) as (c & es & qs & E & Hrun). rewrite calculate_eq, E.
  pose proof (sort_by_perm (λ item, (diff_path item, kind_weight item)) diff_compare
    (unsorted old_files new_files c)) as Hp. fold (sort_diff (unsorted old_files new_files c)) in Hp.
  exists (sort_diff (unsorted old_files new_files c)). split; [done|].
  assert (NoDup (sort_diff (unsorted old_files new_files c) ≫= touched)) as Hnd
    by (rewrite Hp; by apply (NoDup_touched old_files new_files input c es qs)).
  split; [|split; [done|]].
  - apply apply_diff_eq.
    + intros p h. rewrite Hp. by apply (added_elem old_files new_files input c es qs).
    + intros p. rewrite Hp. by apply (removed_elem old_files new_files input c es qs).
  - pose proof (sort_by_sorted (λ item, (diff_path item, kind_weight item)) diff_compare
      (unsorted old_files new_files c)) as Hs. fold (sort_diff (unsorted old_files new_files c)) in Hs.
    revert Hnd Hs. generalize (sort_diff (unsorted old_files new_files c)). clear.
    intros items Hnd Hs. induction Hs as [|item items Hs IH Hle]; [constructor|].
    cbn in Hnd. apply NoDup_app in Hnd as (_ & Hdis & Hnd). constructor; [by apply IH|].
    rewrite Forall_forall in *. intros item' Hin. specialize (Hle _ Hin). unfold key_le in Hle.
    destruct (segs_compare (diff_path item) (diff_path item')) eqn:E; [|done|].
    + apply (cmp_eq segs_compare) in E. destruct (Hdis (diff_path item)); [by destruct item; cbn; set_solver|].
      apply list_elem_of_bind. exists item'. split; [|done]. rewrite E. destruct item'; cbn; set_solver.
    + unfold cmp_leb, diff_compare in Hle. cbn in Hle. by rewrite E in Hle.
Qed.

(** Every item of a difference is true of the two lists: a new file is not in the
    old one, a deleted file not in the new one, a modified file has another hash, and a
    rename (within a directory) or move (between directories) takes a file that is
    gone to one that was not there, with score 100 for equal hashes or else the
    similarity of the two contents, at least the threshold.  No deleted and new file
    with the same hash are left apart. *)
Theorem tree_diff_true old_files new_files input items :
  calculate_tree_diff_internal iter_paths old_files new_files input = Some items →
  Forall (says (collect_files old_files) (collect_files new_files) input) items
  ∧ ∀ p q h, Deleted p h ∈ items → New q h ∈ items → False.
Proof.
  destruct (diff_run old_files new_files input) as (c & es & qs & E & Hrun). rewrite calculate_eq, E. intros [= <-].
  unfold sort_diff. rewrite !sort_by_perm. split.
  - apply Forall_forall. intros item Hin. by apply (unsorted_says old_files new_files input c es qs).
  - intros p q h. rewrite !sort_by_perm. by apply (no_exact_left old_files new_files input c es qs).
Qed.
End Meaning.

Section Order.
Context {ObjectHash : Type} `{Countable ObjectHash}.
Context (iter iter' : gset path → list path) `{!SetOrder iter} `{!SetOrder iter'}.

Lemma list_filter_perm {A} (f : A → bool) l k : Permutation l k → Permutation (List.filter f l) (List.filter f k).
Proof. induction 1; simpl; repeat case_match; eauto using Permutation. Qed.

Lemma base_res_perm (old new : gmap path ObjectHash) : Permutation (base_res iter old new) (base_res iter' old new).
Proof. unfold base_res. by rewrite (set_order (iter_paths := iter)), <-(set_order (iter_paths := iter')). Qed.

Lemma entries_order (old new : gmap path ObjectHash) :
  deleted_entries iter old new = deleted_entries iter' old new ∧ new_entries iter old new = new_entries iter' old new.
Proof.
  split; unfold deleted_entries, new_entries, sort_entries; apply (sort_by_unique entry_path segs_compare).
  - f_equiv. apply base_res_perm.
  - rewrite <-(sort_by_perm entry_path segs_compare). by apply deleted_entries_paths.
  - f_equiv. apply base_res_perm.
  - rewrite <-(sort_by_perm entry_path segs_compare). by apply new_entries_paths.
Qed.

(** The difference does not depend on the order in which the union of the paths,
    a hash set, is visited. *)
Theorem tree_diff_order old_files new_files input :
  calculate_tree_diff_internal iter old_files new_files input
  = calculate_tree_diff_internal (ObjectHash := ObjectHash) iter' old_files new_files input.
Proof.
  destruct (diff_run iter old_files new_files input) as (c & es & qs & E & Hrun). rewrite !calculate_eq.
  destruct (entries_order (collect_files old_files) (collect_files new_files)) as [<- <-]. rewrite E. cbn. f_equal.
  apply (sort_by_unique (λ item, (diff_path item, kind_weight item)) diff_compare); [|by apply (NoDup_keys iter old_files new_files input c es qs)].
  unfold unsorted. apply Permutation_app_tail, list_filter_perm, base_res_perm.
Qed.
End Order.

(** ** Witnesses *)

#[local] Instance elements_order : SetOrder elements.
Proof. by intros s. Qed.

(** The reverse of the order of the elements. *)
Definition rev_elements (s : gset path) : list path := reverse (elements s).

#[local] Instance rev_elements_order : SetOrder rev_elements.
Proof. intros s. apply reverse_Permutation. Qed.

Definition demo_old_files : list (path * N) :=
  [([lit "a"; lit "f"], 1%N); ([lit "g"], 2%N); ([lit "h"], 3%N); ([lit "k"], 5%N)].
Definition demo_new_files : list (path * N) :=
  [([lit "b"; lit "f"], 1%N); ([lit "g2"], 4%N); ([lit "h"], 6%N); ([lit "n"], 7%N)].
Definition demo_blobs : gmap N (list N) :=
  list_to_map [(2%N, utf8 (lit "0123456789")); (4%N, utf8 (lit "0123456789"));
               (5%N, utf8 (lit "x")); (7%N, utf8 (lit "y"))].
Definition demo_input : option (RenameHeuristics * gmap N (list N)) :=
  Some (from_config (mk_RenameConfig 50 1000), demo_blobs).

(** A move of equal hashes, a rename of similar contents, a change, and two files that
    have nothing in common. *)
Definition demo_diff : list (ClDiffFile N) :=
  [Moved [lit "a"; lit "f"] [lit "b"; lit "f"] 1%N 1%N 100; Renamed [lit "g"] [lit "g2"] 2%N 4%N 100;
   Modified [lit "h"] 3%N 6%N; Deleted [lit "k"] 5%N; New [lit "n"] 7%N].

Lemma demo_diff_eq : calculate_tree_diff_internal elements demo_old_files demo_new_files demo_input = Some demo_diff.
Proof. vm_compute. reflexivity. Qed.

Lemma tree_diff_exact_witness :
  ∃ items, calculate_tree_diff_internal elements demo_old_files demo_new_files demo_input = Some items
    ∧ apply_diff items (collect_files demo_old_files) = collect_files demo_new_files.
Proof.
  destruct (tree_diff_exact elements demo_old_files demo_new_files demo_input) as (items & E & Ha & _).
  exists items. exact (conj E Ha).
Defined.

Lemma tree_diff_true_witness :
  Forall (says (collect_files demo_old_files) (collect_files demo_new_files) demo_input) demo_diff.
Proof. exact (proj1 (tree_diff_true elements demo_old_files demo_new_files demo_input demo_diff demo_diff_eq)). Defined.

Lemma tree_diff_order_witness :
  calculate_tree_diff_internal elements demo_old_files demo_new_files demo_input
  = calculate_tree_diff_internal rev_elements demo_old_files demo_new_files demo_input.
Proof. exact (tree_diff_order elements rev_elements demo_old_files demo_new_files demo_input). Defined.
