(* ===== verification/GitCommits.v ===== *)
(** * Commits and their rows

    Models the conversions between Git objects and rows of
    [src/jupiter/utils/converter.rs] that the monorepo storage uses: a commit as a row
    of [mega_commit] and back, a tree from a row of [mega_tree].  Signatures and the
    constructors of commits belong to the crate [git_internal]; they are the operations
    of a class, with the laws [CommitLaws]. *)
From stdpp Require Import base strings numbers tactics list gmap.
From S2P Require Import Prelude Text CommitMessage CanonicalJson GitObjects ViewCommit.

Inductive SignatureType := SigAuthor | SigCommitter | SigTagger.

Record Signature := mk_Signature {
  signature_type : SignatureType;
  sig_name : text;
  sig_email : text;
  timestamp : Z;
  timezone : text;
}.

#[export] Instance SignatureType_eq_dec : EqDecision SignatureType.
Proof. solve_decision. Defined.
#[export] Instance Signature_eq_dec : EqDecision Signature.
Proof. solve_decision. Defined.

Record Commit `{GitObjects} := mk_Commit {
  c_id : ObjectHash;
  c_tree_id : ObjectHash;
  c_parents : list ObjectHash;
  c_author : Signature;
  c_committer : Signature;
  c_message : text;
}.

(** ** The crate *)

Class GitCommits `{GitObjects} := {
  (** [Signature::to_data], read as text, and [Signature::from_data] of a text *)
  signature_text : Signature → option text;
  signature_from_text : text → option Signature;
  (** [Commit::new_with_kind] and [Commit::from_tree_id_with_kind] *)
  commit_new : Signature → Signature → ObjectHash → list ObjectHash → text → option Commit;
  commit_from_tree_id : ObjectHash → list ObjectHash → text → option Commit;
}.

(** A new commit has the tree and the parents it was asked for. *)
Class CommitLaws `{GitCommits} : Prop := {
  commit_new_fields a c t ps m k : commit_new a c t ps m = Some k →
    c_tree_id k = t ∧ c_parents k = ps ∧ c_author k = a ∧ c_committer k = c ∧ c_message k = m;
  commit_from_tree_id_fields t ps m k : commit_from_tree_id t ps m = Some k →
    c_tree_id k = t ∧ c_parents k = ps ∧ c_message k = m;
}.

(** ** Conversions *)

Inductive ConvertError :=
  | InvalidCommitIdentity
  | InvalidCommitParents
  | MissingSignature
  | InvalidSignature
  | MissingBody
  | InvalidTreeIdentity
  | InvalidTreeBody.

Section Convert.
Context `{GitCommits}.

Definition parse_hash (value : text) : outcome ConvertError ObjectHash :=
  match from_hex_for_kind value with Some h => Ok h | None => Err InvalidCommitIdentity end.

Definition parse_signature (value : option text) : outcome ConvertError Signature :=
  match value with
  | None => Err MissingSignature
  | Some value => match signature_from_text value with Some s => Ok s | None => Err InvalidSignature end
  end.

(** The fields in the order in which the struct expression evaluates them. *)
Definition commit_from_mega_model_with_kind (model : CommitRow) : outcome ConvertError Commit :=
  match string_array (parents_id model) with
  | None => Err InvalidCommitParents
  | Some parents =>
      oid ← parse_hash (commit_id model);
      tree ← parse_hash (commit_tree model);
      parent_ids ← mapM parse_hash parents;
      a ← parse_signature (author model);
      c ← parse_signature (committer model);
      match content model with
      | None => Err MissingBody
      | Some message => Ok (mk_Commit _ oid tree parent_ids a c message)
      end
  end.

(** [impl IntoMegaModel for Commit]; [None] is the panic of [to_data().unwrap()]. *)
Definition commit_into_mega_model (c : Commit) : option CommitRow :=
  a ← signature_text (c_author c);
  k ← signature_text (c_committer c);
  Some (mk_CommitRow (hash_to_string (c_id c)) (hash_to_string (c_tree_id c))
          (Array (map (λ p, String (hash_to_string p)) (c_parents c))) (Some a) (Some k)
          (Some (c_message c))).

Definition tree_from_mega_model_with_kind (id : text) (sub_trees : bytes)
    : outcome ConvertError GitTree :=
  match from_hex_for_kind id with
  | None => Err InvalidTreeIdentity
  | Some hash =>
      match tree_from_bytes sub_trees with
      | None => Err InvalidTreeBody
      | Some items => Ok (mk_GitTree _ hash items)
      end
  end.

(** [impl FromMegaModel for Tree] *)
Definition tree_from_mega_model (id : text) (sub_trees : bytes) : outcome ConvertError GitTree :=
  match from_hex_for_kind id with
  | None => Panic
  | Some hash =>
      match tree_from_bytes sub_trees with
      | None => Panic
      | Some items => Ok (mk_GitTree _ hash items)
      end
  end.

(** ** Lemmas *)

Lemma string_array_map {A} (f : A → text) (l : list A) :
  string_array (Array (map (λ a, String (f a)) l)) = Some (map f l).
Proof. simpl. induction l as [|a l IH]; [done|]. simpl. by rewrite IH. Qed.

Lemma parse_hash_to_string `{!GitLaws} h : parse_hash (hash_to_string h) = Ok h.
Proof. unfold parse_hash. by rewrite from_hex_to_string. Qed.

Lemma parse_hashes `{!GitLaws} ps : mapM parse_hash (map hash_to_string ps) = Ok ps.
Proof. apply mapM_Ok. induction ps; constructor; [apply parse_hash_to_string|done]. Qed.

(** A signature that the text of a row gives back. *)
Definition readable (s : Signature) : Prop :=
  ∃ t, signature_text s = Some t ∧ signature_from_text t = Some s.

(** A stored commit is read back as it was. *)
Lemma commit_row_read `{!GitLaws} c row :
  readable (c_author c) → readable (c_committer c) → commit_into_mega_model c = Some row →
  commit_from_mega_model_with_kind row = Ok c.
Proof.
  intros (a & Ha & Ra) (k & Hk & Rk). unfold commit_into_mega_model. rewrite Ha, Hk.
  intros [= <-]. unfold commit_from_mega_model_with_kind. cbn [parents_id commit_id].
  rewrite string_array_map. cbn [commit_tree author committer content parse_signature].
  rewrite !parse_hash_to_string, parse_hashes, Ra, Rk. by destruct c.
Qed.

Lemma tree_decoders id d t :
  tree_from_mega_model id d = Ok t ↔ tree_from_mega_model_with_kind id d = Ok t.
Proof.
  unfold tree_from_mega_model, tree_from_mega_model_with_kind.
  destruct (from_hex_for_kind id); [|done]. by destruct (tree_from_bytes d).
Qed.
End Convert.
