(* ===== verification/TrunkProvenance.v ===== *)
(** * Provenance of trunk commits

    Models [src/ceres/pack/trunk_provenance.rs]: author, committer and message of the
    commits that a push on the trunk synthesises.  Timestamps are integers below
    [2^64]; the time library is the argument [format_datetime], which prints a number
    of seconds at an offset, or fails when there is no such date. *)
From stdpp Require Import base strings numbers tactics list gmap.
From S2P Require Import Prelude Text CommitMessage CanonicalJson GitObjects ViewCommit GitCommits.

Definition AUTHOR_DATE_RANGE_THRESHOLD_SECS : Z := 86400.

Definition line (s : text) : text := s ++ [newline].

(** Seven lines of fixed text in a squash message, around the number of commits. *)
Definition squash_notice (n : text) : text :=
  line (lit "This commit was created by mega2. The push carried " ++ n ++ lit " commits, which")
  ++ line (lit "were squashed into this single commit. The original commits are listed")
  ++ line (lit "below in topological order; their objects remain retrievable from the")
  ++ line (lit "object store via Mono-Squash-Range (omitted for creation pushes without")
  ++ line (lit "a baseline " ++ [8212%N] ++ lit " traversal starts from the persisted tip recorded in the")
  ++ line (lit "push queue row).") ++ [newline].

(** The first [n] bytes and the rest, when [n] is a character boundary. *)
Fixpoint split_at_byte (n : N) (s : text) : option (text * text) :=
  if N.eqb n 0 then Some ([], s)
  else match s with
       | [] => None
       | c :: s' =>
           if N.ltb n (len_utf8 c) then None
           else '(a, b) ← split_at_byte (n - len_utf8 c) s'; Some (c :: a, b)
       end.

(** [str::parse::<i32>] of a text of at most two bytes, where nothing overflows. *)
Definition parse_short_int (s : text) : option Z :=
  let digits ds := if negb (bool_decide (ds = [])) && forallb is_ascii_digit ds
                   then Some (Z.of_N (digits_value ds)) else None in
  match s with
  | c :: s' => if N.eqb c (ch "-") then Z.opp <$> digits s'
               else if N.eqb c (ch "+") then digits s' else digits s
  | [] => None
  end.

Definition parse_tz_offset_secs (tz : text) : Z :=
  let trimmed := trim tz in
  let '(sign, rest) :=
    match strip_prefix (lit "-") trimmed with
    | Some r => ((-1)%Z, r)
    | None => (1%Z, trim_start_matches (N.eqb (ch "+")) trimmed)
    end in
  let hours := default 0%Z ('(h, _) ← split_at_byte 2 rest; parse_short_int h) in
  let mins := default 0%Z ('(_, r) ← split_at_byte 2 rest; '(m, _) ← split_at_byte 2 r;
                           parse_short_int m) in
  (sign * (hours * 3600 + mins * 60))%Z.

(** [usize as i64] *)
Definition as_i64 (z : Z) : Z :=
  (if (z <? 9223372036854775808) then z else z - 18446744073709551616)%Z.

(** [FixedOffset::east_opt], else no offset: less than a day. *)
Definition east_or_zero (offset : Z) : Z :=
  if ((-86400 <? offset) && (offset <? 86400))%Z then offset else 0%Z.

Definition author_from_tip `{GitObjects} (tip : Commit) : Signature :=
  mk_Signature SigAuthor (sig_name (c_author tip)) (sig_email (c_author tip))
    (timestamp (c_author tip)) (timezone (c_author tip)).

Definition committer_at_land (name email : text) (prev : option Signature) (land_ts : Z) : Signature :=
  let '(ts, tz) :=
    match prev with
    | Some p => if (land_ts <=? timestamp p)%Z then (timestamp p, timezone p)
                else (land_ts, lit "+0000")
    | None => (land_ts, lit "+0000")
    end in
  mk_Signature SigCommitter name email ts tz.

Definition identity_key (s : Signature) : text := sig_name s ++ lit " <" ++ sig_email s ++ lit ">".

Definition range_line (range : option (text * text)) : text :=
  match range with
  | Some (old, new) => line (lit "Mono-Squash-Range: " ++ old ++ lit ".." ++ new)
  | None => []
  end.

Definition compact_message (path_p ref_path : text) (n : N) (squash_id : text)
    (range : option (text * text)) : text :=
  line (lit "Land " ++ print_N n ++ lit " commits at " ++ path_p) ++ [newline]
  ++ line (lit "Squashed on the pushed path; see Mono-Squash-Commit for the full listing.") ++ [newline]
  ++ line (lit "Mono-Path: " ++ path_p)
  ++ line (lit "Mono-Ref-Path: " ++ ref_path)
  ++ line (lit "Mono-Squash-Commit: " ++ squash_id)
  ++ range_line range
  ++ line (lit "Mono-Squash-Count: " ++ print_N n).

(** The body of a message; the loop of [split_commit_message] always ends. *)
Definition commit_body (message : text) : text :=
  from_option body [] (split_commit_message message).

Definition commit_subject (message : text) : text := commit_body_subject (commit_body message).

Section Messages.
Context `{GitObjects}.
Context (format_datetime : Z → Z → option text).

Definition format_sig_datetime (s : Signature) : text :=
  match format_datetime (as_i64 (timestamp s)) (east_or_zero (parse_tz_offset_secs (timezone s))) with
  | Some t => t
  | None => print_N (Z.to_N (timestamp s)) ++ lit " " ++ timezone s
  end.

(** The loop keeps the identities seen so far. *)
Fixpoint co_authors_from (seen : gset text) (topo_asc : list Commit) : list text :=
  match topo_asc with
  | [] => []
  | c :: rest =>
      let key := identity_key (c_author c) in
      if bool_decide (key ∈ seen) then co_authors_from seen rest
      else (lit "Co-authored-by: " ++ sig_name (c_author c) ++ lit " <" ++ sig_email (c_author c)
            ++ lit ">") :: co_authors_from ({[key]} ∪ seen) rest
  end.

Definition co_authored_by_lines (tip_author : Signature) (topo_asc : list Commit) : list text :=
  co_authors_from {[identity_key tip_author]} topo_asc.

(** One step of the search for the earliest and the latest author; the bounds start at
    [usize::MAX] and at zero. *)
Definition date_range_step (acc : (Z * option Signature) * (Z * option Signature)) (c : Commit)
    : (Z * option Signature) * (Z * option Signature) :=
  let a := c_author c in
  let '((min_ts, min_sig), (max_ts, max_sig)) := acc in
  (if (timestamp a <? min_ts)%Z then (timestamp a, Some a) else (min_ts, min_sig),
   if (max_ts <? timestamp a)%Z then (timestamp a, Some a) else (max_ts, max_sig)).

Definition author_date_range_trailer (topo_asc : list Commit) : option text :=
  let '((min_ts, min_sig), (max_ts, max_sig)) :=
    foldl date_range_step ((18446744073709551615%Z, None), (0%Z, None)) topo_asc in
  if (Z.max 0 (max_ts - min_ts) <? AUTHOR_DATE_RANGE_THRESHOLD_SECS)%Z then None
  else min ← min_sig; max ← max_sig;
       Some (format_sig_datetime min ++ lit ".." ++ format_sig_datetime max).

Definition commit_entry (c : Commit) : text :=
  line (lit "  " ++ hash_to_string (c_id c) ++ lit "  " ++ format_sig_datetime (c_author c)
        ++ lit "  " ++ sig_name (c_author c) ++ lit " <" ++ sig_email (c_author c) ++ lit ">")
  ++ line (lit "      " ++ commit_subject (c_message c)).

Definition squash_message (path : text) (topo_asc : list Commit) (range : option (text * text))
    (tip_author : Signature) : text :=
  let n := print_N (N.of_nat (length topo_asc)) in
  line (lit "Squash " ++ n ++ lit " commits at " ++ path) ++ [newline]
  ++ squash_notice n
  ++ (topo_asc ≫= commit_entry) ++ [newline]
  ++ line (lit "Mono-Path: " ++ path)
  ++ line (lit "Mono-Ref-Path: " ++ path)
  ++ range_line range
  ++ line (lit "Mono-Squash-Count: " ++ n)
  ++ from_option (λ span, line (lit "Mono-Author-Date-Range: " ++ span)) []
       (author_date_range_trailer topo_asc)
  ++ (co_authored_by_lines tip_author topo_asc ≫= line).

Record TrunkProvenance := mk_TrunkProvenance {
  tp_author : Signature;
  committer_name : text;
  committer_email : text;
  tp_n : N;
  path_p : text;
  squash_commit_id : text;
  tp_range : option (text * text);
  land_ts : Z;
  n1_message : text;
}.

Definition from_tip (tip : Commit) (n : N) (path squash_id : text) (range : option (text * text))
    (ts : Z) : TrunkProvenance :=
  mk_TrunkProvenance (author_from_tip tip) (sig_name (c_committer tip))
    (sig_email (c_committer tip)) n path squash_id range ts (commit_body (c_message tip)).

Definition tp_committer (plan : TrunkProvenance) (prev : option Signature) : Signature :=
  committer_at_land (committer_name plan) (committer_email plan) prev (land_ts plan).

Definition tp_squash_message (plan : TrunkProvenance) (topo_asc : list Commit) : text :=
  squash_message (path_p plan) topo_asc (tp_range plan) (tp_author plan).

Definition layer_message (plan : TrunkProvenance) (ref_path : text) : text :=
  if (tp_n plan <=? 1)%N then n1_message plan
  else compact_message (path_p plan) ref_path (tp_n plan) (squash_commit_id plan) (tp_range plan).

(** The oldest commit first; [None] for an empty chain. *)
Definition load_topo_asc (tip_first : list Commit) : option (list Commit) :=
  match tip_first with [] => None | _ => Some (reverse tip_first) end.
End Messages.
Arguments TrunkProvenance : clear implicits.

(** ** Lemmas *)

Section Attribution.
Context `{GitObjects}.

Definition credit (s : Signature) : text := lit "Co-authored-by: " ++ identity_key s.

Lemma credit_inj s t : credit s = credit t ↔ identity_key s = identity_key t.
Proof. split; [apply app_inv_head|]. intros E. unfold credit. by rewrite E. Qed.

Lemma co_authors_spec seen l :
  NoDup (co_authors_from seen l)
  ∧ ∀ t, t ∈ co_authors_from seen l ↔
         ∃ c, c ∈ l ∧ (identity_key (c_author c) ∉ seen) ∧ t = credit (c_author c).
Proof.
  revert seen. induction l as [|c l IH]; intros seen; simpl.
  { split; [constructor|]. intros t. split; [by intros ?%not_elem_of_nil|].
    intros (c & ?%not_elem_of_nil & _); done. }
  destruct (bool_decide _) eqn:E; bool_prop.
  - destruct (IH seen) as [Hn Ht]. split; [done|]. intros t. rewrite Ht. split.
    + intros (k & Hk & ?). exists k. by rewrite elem_of_cons; eauto.
    + intros (k & [->|Hk]%elem_of_cons & Hs & ->); [done|]. by eauto.
  - destruct (IH ({[identity_key (c_author c)]} ∪ seen)) as [Hn Ht].
    change (lit _ ++ _) with (credit (c_author c)). split.
    + constructor; [|done]. intros (k & Hk & Hs & Hc%credit_inj)%Ht. set_solver.
    + intros t. rewrite elem_of_cons, Ht. split.
      * intros [->|(k & Hk & Hs & ->)].
        -- exists c. split; [by constructor|done].
        -- exists k. split; [by constructor|]. set_solver.
      * intros (k & [->|Hk]%elem_of_cons & Hs & ->); [by left|].
        destruct (decide (identity_key (c_author k) = identity_key (c_author c))) as [Ek|Ek].
        -- left. by apply credit_inj.
        -- right. exists k. set_solver.
Qed.

(** The earliest and the latest author time seen so far, from their start values. *)
Definition range_inv (l : list Commit) (acc : (Z * option Signature) * (Z * option Signature)) : Prop :=
  let '((min_ts, min_sig), (max_ts, max_sig)) := acc in
  (∀ c, c ∈ l → min_ts ≤ timestamp (c_author c) ≤ max_ts)%Z
  ∧ match min_sig with
    | None => l = []
    | Some s => timestamp s = min_ts ∧ ∃ c, c ∈ l ∧ c_author c = s
    end
  ∧ match max_sig with
    | None => max_ts = 0%Z
    | Some s => timestamp s = max_ts ∧ ∃ c, c ∈ l ∧ c_author c = s
    end.

Definition time_ok (c : Commit) : Prop := (0 ≤ timestamp (c_author c) < 18446744073709551615)%Z.

Lemma date_range_step_inv l acc c :
  time_ok c → range_inv l acc → (l = [] → acc = ((18446744073709551615, None), (0, None)))%Z →
  range_inv (l ++ [c]) (date_range_step acc c).
Proof.
  intros Ht Hi H0. destruct acc as [[mn mns] [mx mxs]]. destruct Hi as (Hb & Hmn & Hmx).
  assert (∀ k, k ∈ l ++ [c] ↔ k ∈ l ∨ k = c) as Hin
    by (intros k; by rewrite elem_of_app, list_elem_of_singleton).
  unfold date_range_step. unfold time_ok in Ht.
  assert (mns = None → timestamp (c_author c) < mn)%Z as Hfirst.
  { intros ->. specialize (H0 Hmn). simplify_eq. lia. }
  assert (∀ s, (timestamp s = mn ∧ (∃ k, k ∈ l ∧ c_author k = s)) →
    timestamp s = mn ∧ ∃ k, k ∈ l ++ [c] ∧ c_author k = s) as Hmn' by (set_solver).
  assert (∀ s, (timestamp s = mx ∧ (∃ k, k ∈ l ∧ c_author k = s)) →
    timestamp s = mx ∧ ∃ k, k ∈ l ++ [c] ∧ c_author k = s) as Hmx' by (set_solver).
  destruct (timestamp (c_author c) <? mn)%Z eqn:E1, (mx <? timestamp (c_author c))%Z eqn:E2;
    (split; [intros k [Hk| ->]%Hin; try specialize (Hb k Hk); lia|]);
    (split; [try (split; [done|exists c; rewrite Hin; auto])
            |try (split; [done|exists c; rewrite Hin; auto]); destruct mxs; auto]);
    (destruct mns as [s|]; [auto|specialize (Hfirst eq_refl); lia]).
Qed.

Lemma date_range_inv l :
  Forall time_ok l →
  range_inv l (foldl date_range_step ((18446744073709551615, None), (0, None))%Z l).
Proof.
  induction l as [|c l IH] using rev_ind; intros Hl.
  { split; [|done]. by intros c ?%not_elem_of_nil. }
  rewrite Forall_app, Forall_singleton in Hl. destruct Hl as [Hl Hc]. rewrite foldl_app.
  cbn [foldl]. apply (date_range_step_inv l _ c); [done|by apply IH|]. by intros ->.
Qed.

(** The trailer is there exactly when two author dates are a day apart. *)
Lemma date_range_trailer_spec fmt l :
  Forall time_ok l →
  (is_Some (author_date_range_trailer fmt l) ↔
   ∃ a b, a ∈ l ∧ b ∈ l
          ∧ (AUTHOR_DATE_RANGE_THRESHOLD_SECS ≤ timestamp (c_author b) - timestamp (c_author a))%Z).
Proof.
  intros Hl. pose proof (date_range_inv l Hl) as Hi. unfold author_date_range_trailer.
  destruct (foldl _ _ _) as [[mn mns] [mx mxs]]. destruct Hi as (Hb & Hmn & Hmx).
  unfold AUTHOR_DATE_RANGE_THRESHOLD_SECS in *. destruct (_ <? 86400)%Z eqn:E.
  - split; [by intros []|]. intros (a & b & Ha & Hbb & Hd).
    specialize (Hb a Ha) as Ha'. specialize (Hb b Hbb). lia.
  - split; [|intros (a & b & Ha & Hbb & Hd)].
    + intros [t Ht]. destruct mns as [s|]; [|done]. destruct mxs as [s'|]; [|done].
      destruct Hmn as (Es & a & Ha & <-), Hmx as (Es' & b & Hbb & <-). exists a, b. split_and!; [done..|lia].
    + destruct mns as [s|]; [|subst l; by apply not_elem_of_nil in Ha].
      destruct mxs as [s'|]; [by eexists|].
      rewrite Forall_forall in Hl. pose proof (Hl a Ha). pose proof (Hl b Hbb).
      specialize (Hb b Hbb). unfold time_ok in *. lia.
Qed.

(** ** Attribution *)

(** The trailers of a squashed push credit every author but the author of its tip,
    each once; the date range is given exactly when two author dates are a day apart;
    and the commit time of a layer is the later one of the landing and of the commit it
    follows, so that it never goes back. *)
Theorem trunk_attribution fmt tip_author l name email prev land :
  Forall time_ok l →
  NoDup (co_authored_by_lines tip_author l)
  ∧ (∀ t, t ∈ co_authored_by_lines tip_author l ↔
          ∃ c, c ∈ l ∧ identity_key (c_author c) ≠ identity_key tip_author
               ∧ t = credit (c_author c))
  ∧ (is_Some (author_date_range_trailer fmt l) ↔
     ∃ a b, a ∈ l ∧ b ∈ l
       ∧ (AUTHOR_DATE_RANGE_THRESHOLD_SECS ≤ timestamp (c_author b) - timestamp (c_author a))%Z)
  ∧ timestamp (committer_at_land name email (Some prev) land) = Z.max (timestamp prev) land
  ∧ timestamp (committer_at_land name email None land) = land.
Proof.
  intros Hl. unfold co_authored_by_lines.
  destruct (co_authors_spec {[identity_key tip_author]} l) as [Hn Ht].
  split_and!; [done| |by apply date_range_trailer_spec| |done].
  - intros t. rewrite Ht. by setoid_rewrite not_elem_of_singleton.
  - unfold committer_at_land. destruct (land <=? timestamp prev)%Z eqn:E; simpl; lia.
Qed.
End Attribution.
