(* ===== verification/MonoRefs.v ===== *)
(** * Monorepo storage: references and tombstones

    Models the part of [src/jupiter/storage/mono_storage.rs] that reads and writes the
    tables [mega_refs] and [mega_ref_tombstones], with their rows
    ([src/callisto/mega_refs.rs], [mega_ref_tombstones.rs], [entity_ext/mega_refs.rs]).
    The tables have a primary key and the unique index [uniq_mref_path] on the path and
    the name.  An operation in a transaction maps the tables to the tables or to an
    error, on which its caller rolls back.  Identifiers ([generate_id]) and the time are
    arguments.  A query for one row without an order takes some row of the selection. *)
From stdpp Require Import base strings numbers tactics list gmap.
From S2P Require Import Prelude Text FilterSyntax FilterCanonical FilterSemantics MonoPath CommitMessage.
From S2P Require Import CanonicalJson GitObjects ViewCommit GitCommits.

(** [MEGA_BRANCH_NAME] *)
Definition MEGA_BRANCH_NAME : text := lit "refs/heads/main".

(** ** Rows *)

Record MegaRef := mk_MegaRef {
  ref_id : Z;
  ref_path : text;
  ref_name : text;
  ref_commit_hash : text;
  ref_tree_hash : text;
  ref_created_at : Z;
  ref_updated_at : Z;
  is_cl : bool;
}.

Record Tombstone := mk_Tombstone {
  last_commit_hash : text;
  last_tree_hash : text;
  deleted_at : Z;
}.

#[export] Instance MegaRef_eq_dec : EqDecision MegaRef.
Proof. solve_decision. Defined.

(** The tables of the monorepo: references by identifier, tombstones by path and name,
    the data of trees and the rows of commits by their object identifier, and the
    identifiers of the blobs that have a row. *)
Record MonoDb := mk_MonoDb {
  mega_refs : gmap Z MegaRef;
  tombstones : gmap (text * text) Tombstone;
  mega_tree : gmap text bytes;
  mega_commit : gmap text CommitRow;
  mega_blob : gset text;
}.

Definition with_refs (refs : gmap Z MegaRef) (db : MonoDb) : MonoDb :=
  mk_MonoDb refs (tombstones db) (mega_tree db) (mega_commit db) (mega_blob db).
Definition with_tombstones (ts : gmap (text * text) Tombstone) (db : MonoDb) : MonoDb :=
  mk_MonoDb (mega_refs db) ts (mega_tree db) (mega_commit db) (mega_blob db).
Definition with_trees (ts : gmap text bytes) (db : MonoDb) : MonoDb :=
  mk_MonoDb (mega_refs db) (tombstones db) ts (mega_commit db) (mega_blob db).
Definition with_commits (cs : gmap text CommitRow) (db : MonoDb) : MonoDb :=
  mk_MonoDb (mega_refs db) (tombstones db) (mega_tree db) cs (mega_blob db).
Definition with_blobs (bs : gset text) (db : MonoDb) : MonoDb :=
  mk_MonoDb (mega_refs db) (tombstones db) (mega_tree db) (mega_commit db) bs.

Record RefUpdateData := mk_RefUpdateData {
  up_path : text;
  up_ref_name : text;
  up_commit_id : text;
  up_tree_hash : text;
}.

(** The errors of the storage, by message. *)
Inductive MonoError :=
  | RefUniqueViolation
  | RefNotUpdated
  | RefRowVanished
  | NativeRefAmbiguous
  | RefRowMissing (path ref_name : text)
  | InvalidTombstoneParent
  | InvalidRootTree
  | StaleMonorepoRootRef
  | AttachRefusedTarget (path : text)
  | AttachRefusedAncestor (path : text)
  | AttachRefusedDescendant (path : text)
  | MonoPathInvalid (e : MonoPathError)
  | MonoConvert (e : ConvertError)
  | DescendantParentHash (path : text)
  | DescendantTreeHash (path : text)
  | DescendantSynthesis (path : text)
  | TrunkSynthesis
  | SignFailed.

(** ** SQL *)

(** [LIKE] with the backslash as escape character: a percent sign matches any text, an
    underscore one character. *)
Fixpoint like_match (pattern : text) : text → bool :=
  match pattern with
  | [] => λ s, bool_decide (s = [])
  | c :: pattern' =>
      if N.eqb c (ch "%") then
        fix any s := like_match pattern' s || match s with [] => false | _ :: s' => any s' end
      else if N.eqb c (ch "_") then
        λ s, match s with [] => false | _ :: s' => like_match pattern' s' end
      else if N.eqb c backslash then
        match pattern' with
        | [] => λ _, false
        | d :: pattern'' =>
            λ s, match s with [] => false | x :: s' => N.eqb x d && like_match pattern'' s' end
        end
      else λ s, match s with [] => false | x :: s' => N.eqb x c && like_match pattern' s' end
  end.

Definition ref_rows (db : MonoDb) : list MegaRef := (map_to_list (mega_refs db)).*2.

Definition select_refs (p : MegaRef → bool) (db : MonoDb) : list MegaRef :=
  List.filter p (ref_rows db).

(** [DELETE ... WHERE], with the number of rows it removed. *)
Definition delete_refs (p : MegaRef → bool) (db : MonoDb) : MonoDb * nat :=
  (with_refs (filter (λ kr, p kr.2 = false) (mega_refs db)) db, length (select_refs p db)).

(** [UPDATE ... SET ... WHERE], with the number of rows it changed. *)
Definition update_refs (p : MegaRef → bool) (f : MegaRef → MegaRef) (db : MonoDb) : MonoDb * nat :=
  (with_refs ((λ r, if p r then f r else r) <$> mega_refs db) db, length (select_refs p db)).

Definition at_key (path name : text) (r : MegaRef) : bool :=
  bool_decide (ref_path r = path) && bool_decide (ref_name r = name).

(** A plain [INSERT]: the primary key and the unique index may refuse it. *)
Definition insert_ref (r : MegaRef) (db : MonoDb) : outcome MonoError MonoDb :=
  if bool_decide (is_Some (mega_refs db !! ref_id r))
     || existsb (at_key (ref_path r) (ref_name r)) (ref_rows db)
  then Err RefUniqueViolation
  else Ok (with_refs (<[ref_id r := r]> (mega_refs db)) db).

(** [SET ref_commit_hash, ref_tree_hash, updated_at] *)
Definition move_ref (commit tree : text) (now : Z) (r : MegaRef) : MegaRef :=
  mk_MegaRef (ref_id r) (ref_path r) (ref_name r) commit tree (ref_created_at r) now (is_cl r).

(** [ActiveModel::update]: by primary key, an error when the row is gone. *)
Definition update_ref_by_id (i : Z) (commit tree : text) (now : Z) (db : MonoDb)
    : outcome MonoError MonoDb :=
  match mega_refs db !! i with
  | None => Err RefNotUpdated
  | Some r => Ok (with_refs (<[i := move_ref commit tree now r]> (mega_refs db)) db)
  end.

(** [mega_refs::Model::new] *)
Definition new_ref (id : Z) (path name commit tree : text) (cl : bool) (now : Z) : MegaRef :=
  mk_MegaRef id path name commit tree now now cl.

(** ** References *)

Definition save_refs (model : MegaRef) (db : MonoDb) : outcome MonoError MonoDb := insert_ref model db.

(** [path.starts_with(p)] is [LIKE] with the path and a percent sign, unescaped. *)
Definition remove_none_cl_refs (path : text) (db : MonoDb) : MonoDb :=
  fst (delete_refs (λ r, like_match (path ++ lit "%") (ref_path r)
                         && negb (bool_decide (ref_path r = path)) && negb (is_cl r)) db).

Definition normalize_query (path : text) : text :=
  if bool_decide (path = []) then lit "/" else path.

(** The pattern of the descendants of a path, at a component boundary. *)
Definition descendant_pattern (normalized : text) : text :=
  if bool_decide (normalized = lit "/") then lit "/%"
  else escape_like (trim_end_matches is_slash normalized) ++ lit "/%".

(** [path LIKE pattern AND path <> normalized] *)
Definition below (path : text) (p : text) : bool :=
  let normalized := normalize_query path in
  like_match (descendant_pattern normalized) p && negb (bool_decide (p = normalized)).

Definition remove_none_cl_refs_in_txn (path : text) (db : MonoDb) : MonoDb :=
  fst (delete_refs (λ r, below path (ref_path r) && negb (is_cl r)) db).

Definition remove_ref (r : MegaRef) (db : MonoDb) : MonoDb :=
  with_refs (delete (ref_id r) (mega_refs db)) db.

Definition remove_ref_if_unchanged (name expected_commit : text) (db : MonoDb) : MonoDb * bool :=
  let '(db', n) := delete_refs (λ r, bool_decide (ref_name r = name)
                                     && bool_decide (ref_commit_hash r = expected_commit)) db in
  (db', negb (Nat.eqb n 0)).

Definition order_by_name (l : list MegaRef) : list MegaRef := sort_by ref_name str_compare l.

Definition get_refs_for_paths_and_cls (paths : list text) (cls : option (list text)) (db : MonoDb)
    : list MegaRef :=
  order_by_name (select_refs (λ r, bool_decide (ref_path r ∈ paths)
    && match cls with
       | Some names => bool_decide (ref_name r ∈ names)
       | None => bool_decide (ref_name r = MEGA_BRANCH_NAME)
       end) db).

Definition get_all_refs (path : text) (filter_cl : bool) (db : MonoDb) : list MegaRef :=
  order_by_name (select_refs (λ r, bool_decide (ref_path r = path)
    && (negb filter_cl || negb (is_cl r))) db).

Definition get_ref (path name : text) (db : MonoDb) : option MegaRef :=
  head (select_refs (at_key path name) db).

(** [get_main_ref], [get_main_ref_in_txn] *)
Definition get_main_ref (path : text) (db : MonoDb) : option MegaRef :=
  get_ref path MEGA_BRANCH_NAME db.

(** [get_native_main_ref_in_txn], and [lock_native_root_in_txn] at the root. *)
Definition get_native_main_ref (path : text) (db : MonoDb) : outcome MonoError (option MegaRef) :=
  match select_refs (λ r, at_key path MEGA_BRANCH_NAME r && negb (is_cl r)) db with
  | [] => Ok None
  | [r] => Ok (Some r)
  | _ => Err NativeRefAmbiguous
  end.

(** [INSERT ... WHERE NOT EXISTS], with the row that is there in the end; a primary key
    in use is an error. *)
Definition insert_ref_if_not_exists (model : MegaRef) (db : MonoDb)
    : outcome MonoError (MonoDb * MegaRef) :=
  if existsb (at_key (ref_path model) (ref_name model)) (ref_rows db) then
    match get_ref (ref_path model) (ref_name model) db with
    | Some r => Ok (db, r)
    | None => Err RefRowVanished
    end
  else db' ← insert_ref model db; Ok (db', model).

Definition get_ref_by_commit (path commit : text) (db : MonoDb) : option MegaRef :=
  head (select_refs (λ r, bool_decide (ref_path r = path)
                          && bool_decide (ref_commit_hash r = commit)) db).

Definition get_ref_by_name (name : text) (db : MonoDb) : option MegaRef :=
  head (select_refs (λ r, bool_decide (ref_name r = name)) db).

Definition update_ref (model : MegaRef) (db : MonoDb) : outcome MonoError MonoDb :=
  update_ref_by_id (ref_id model) (ref_commit_hash model) (ref_tree_hash model)
    (ref_updated_at model) db.

Definition save_or_update_cl_ref (id : Z) (path name commit tree : text) (now : Z) (db : MonoDb)
    : outcome MonoError MonoDb :=
  match get_ref_by_name name db with
  | Some r => update_ref_by_id (ref_id r) commit tree now db
  | None => insert_ref (new_ref id path name commit tree true now) db
  end.

(** The rows for all updates are read first, then changed one by one; of rows with the
    same path and name the last one read counts. *)
Definition ref_map (updates : list RefUpdateData) (db : MonoDb) : gmap (text * text) MegaRef :=
  list_to_map (reverse (map (λ r, ((ref_path r, ref_name r), r))
    (select_refs (λ r, existsb (λ u, at_key (up_path u) (up_ref_name u) r) updates) db))).

Fixpoint update_from_map (refs : gmap (text * text) MegaRef) (now : Z)
    (updates : list RefUpdateData) (db : MonoDb) : outcome MonoError MonoDb :=
  match updates with
  | [] => Ok db
  | u :: updates =>
      match refs !! (up_path u, up_ref_name u) with
      | None => Err (RefRowMissing (up_path u) (up_ref_name u))
      | Some r =>
          db' ← update_ref_by_id (ref_id r) (up_commit_id u) (up_tree_hash u) now db;
          update_from_map refs now updates db'
      end
  end.

Definition batch_update_by_path_in_txn (updates : list RefUpdateData) (now : Z) (db : MonoDb)
    : outcome MonoError MonoDb :=
  if bool_decide (updates = []) then Ok db
  else update_from_map (ref_map updates db) now updates db.

(** The variant outside a transaction skips a reference that has no row; [completed] is
    the order in which its concurrent updates finish. *)
Fixpoint update_present (refs : gmap (text * text) MegaRef) (now : Z)
    (completed : list RefUpdateData) (db : MonoDb) : outcome MonoError MonoDb :=
  match completed with
  | [] => Ok db
  | u :: completed =>
      match refs !! (up_path u, up_ref_name u) with
      | None => update_present refs now completed db
      | Some r =>
          db' ← update_ref_by_id (ref_id r) (up_commit_id u) (up_tree_hash u) now db;
          update_present refs now completed db'
      end
  end.

Definition batch_update_by_path_concurrent (updates completed : list RefUpdateData) (now : Z)
    (db : MonoDb) : outcome MonoError MonoDb :=
  update_present (ref_map updates db) now completed db.

(** [INSERT ... ON CONFLICT (path, ref_name) DO UPDATE]; a primary key in use is an
    error. *)
Definition upsert_ref_by_path (id : Z) (u : RefUpdateData) (now : Z) (db : MonoDb)
    : outcome MonoError MonoDb :=
  if existsb (at_key (up_path u) (up_ref_name u)) (ref_rows db)
  then Ok (fst (update_refs (at_key (up_path u) (up_ref_name u))
                  (move_ref (up_commit_id u) (up_tree_hash u) now) db))
  else insert_ref (new_ref id (up_path u) (up_ref_name u) (up_commit_id u) (up_tree_hash u)
                     false now) db.

(** Each update comes with the identifier generated for it. *)
Fixpoint batch_upsert_by_path (updates : list (Z * RefUpdateData)) (now : Z) (db : MonoDb)
    : outcome MonoError MonoDb :=
  match updates with
  | [] => Ok db
  | (id, u) :: updates => db' ← upsert_ref_by_path id u now db; batch_upsert_by_path updates now db'
  end.

(** The compare-and-swap of the root: a missing expectation matches no row, since the
    columns are not null. *)
Definition is_root_at (commit tree : option text) (r : MegaRef) : bool :=
  at_key (lit "/") MEGA_BRANCH_NAME r && negb (is_cl r)
  && bool_decide (Some (ref_commit_hash r) = commit) && bool_decide (Some (ref_tree_hash r) = tree).

Definition cas_update_root_main_ref (expected_commit expected_tree : option text)
    (new_commit new_tree : text) (now : Z) (db : MonoDb) : MonoDb * bool :=
  let '(db', n) := update_refs (is_root_at expected_commit expected_tree)
                     (move_ref new_commit new_tree now) db in
  (db', Nat.eqb n 1).

(** ** Tombstones *)

Definition get_tombstone (path name : text) (db : MonoDb) : option Tombstone :=
  tombstones db !! (path, name).

Definition list_tombstones_under_prefix (path : text) (db : MonoDb)
    : list ((text * text) * Tombstone) :=
  List.filter (λ kt, below path kt.1.1) (map_to_list (tombstones db)).

Definition upsert_tombstone (path name commit tree : text) (now : Z) (db : MonoDb) : MonoDb :=
  with_tombstones (<[(path, name) := mk_Tombstone commit tree now]> (tombstones db)) db.

Definition delete_tombstone (path name : text) (db : MonoDb) : MonoDb :=
  with_tombstones (delete (path, name) (tombstones db)) db.

Definition backfill_tombstones_best_effort (entries : list (text * text * text * text)) (now : Z)
    (db : MonoDb) : MonoDb * nat :=
  (foldl (λ db '(p, n, c, t), upsert_tombstone p n c t now db) db entries, length entries).

Definition backfill_tombstones_fail_closed : nat := 0.

Definition tombstone_and_delete_main_ref (path : text) (now : Z) (db : MonoDb) : MonoDb * bool :=
  match get_main_ref path db with
  | None => (db, false)
  | Some row =>
      (remove_ref row (upsert_tombstone path MEGA_BRANCH_NAME (ref_commit_hash row)
                         (ref_tree_hash row) now db), true)
  end.

(** ** Descendants *)

Definition list_descendant_main_refs (path : text) (db : MonoDb) : list MegaRef :=
  select_refs (λ r, below path (ref_path r) && bool_decide (ref_name r = MEGA_BRANCH_NAME)
                    && negb (is_cl r)) db.

Definition path_slash_depth (path : text) : nat := length (List.filter is_slash path).

Definition descendant_main_refs (path : text) (db : MonoDb) : list MegaRef :=
  sort_by (λ r, path_slash_depth (ref_path r)) Nat.compare (list_descendant_main_refs path db).

Definition path_is_under (path prefix : text) : bool :=
  bool_decide (path = prefix) || starts_with (trim_end_matches is_slash prefix ++ lit "/") path.

Definition nonempty (s : text) : option text := if bool_decide (s = []) then None else Some s.

Definition descendant_relative (parent descendant : text) : option text :=
  if bool_decide (parent = lit "/") then s ← strip_prefix (lit "/") descendant; nonempty s
  else rest ← strip_prefix (trim_end_matches is_slash parent) descendant;
       s ← strip_prefix (lit "/") rest; nonempty s.

(** [Path::ancestors] without the path itself, for a path whose components are neither
    empty nor a dot: what is before each separator, from the last one, and the root. *)
Fixpoint parents_of (fuel : nat) (path : text) : list text :=
  match fuel with
  | O => []
  | S fuel =>
      match rsplit_once (ch "/") path with
      | None => []
      | Some ([], []) => []
      | Some ([], _) => [lit "/"]
      | Some (parent, _) => parent :: parents_of fuel parent
      end
  end.

Definition strict_non_root_ancestor_paths (path : text) : list text :=
  List.filter (λ a, negb (bool_decide (a = []) || bool_decide (a = lit "/")))
    (parents_of (length path) path).

(** The first of the targets that has a main reference. *)
Definition first_materialized (paths : list text) (db : MonoDb) : option text :=
  List.find (λ p, bool_decide (is_Some (get_main_ref p db))) paths.

Definition attach_materialization_precheck (path : text) (db : MonoDb) : outcome MonoError unit :=
  match canonicalize_mono_ref_path path with
  | inl e => Err (MonoPathInvalid e)
  | inr normalized =>
      let check_descendants :=
        match list_descendant_main_refs normalized db with
        | d :: _ => Err (AttachRefusedDescendant (ref_path d))
        | [] => Ok tt
        end in
      if bool_decide (normalized = lit "/") then check_descendants
      else if bool_decide (is_Some (get_main_ref normalized db))
        then Err (AttachRefusedTarget normalized)
      else match first_materialized (strict_non_root_ancestor_paths normalized) db with
           | Some a => Err (AttachRefusedAncestor a)
           | None => check_descendants
           end
  end.

(** ** Objects *)

Section Objects.
Context `{GitCommits}.

Definition materialize_parents (path name : text) (db : MonoDb)
    : outcome MonoError (list ObjectHash) :=
  match get_tombstone path name db with
  | None => Ok []
  | Some row =>
      match from_hex_for_kind (last_commit_hash row) with
      | Some h => Ok [h]
      | None => Err InvalidTombstoneParent
      end
  end.

(** [ON CONFLICT DO NOTHING] on the object identifier. *)
Definition insert_absent {V} (k : text) (v : V) (m : gmap text V) : gmap text V :=
  match m !! k with Some _ => m | None => <[k := v]> m end.

Definition or_panic {A} (o : option A) : outcome MonoError A :=
  match o with Some a => Ok a | None => Panic end.

Definition save_mega_commits (commits : list Commit) (db : MonoDb) : outcome MonoError MonoDb :=
  models ← mapM (λ c, or_panic (commit_into_mega_model c)) commits;
  Ok (with_commits (foldl (λ m row, insert_absent (commit_id row) row m) (mega_commit db) models) db).

Definition save_mega_trees (trees : list GitTree) (db : MonoDb) : outcome MonoError MonoDb :=
  models ← mapM (λ t, d ← or_panic (tree_to_data (tree_items t));
                      Ok (hash_to_string (tree_id t), d)) trees;
  Ok (with_trees (foldl (λ m kd, insert_absent kd.1 kd.2 m) (mega_tree db) models) db).

Definition attach_to_monorepo_parent (root_ref_id : Z) (expected_commit expected_tree : text)
    (commit : Commit) (trees : list GitTree) (now : Z) (db : MonoDb) : outcome MonoError MonoDb :=
  db1 ← save_mega_trees trees db;
  db2 ← save_mega_commits [commit] db1;
  let '(db3, n) := update_refs (λ r, (ref_id r =? root_ref_id)%Z
                       && bool_decide (ref_commit_hash r = expected_commit)
                       && bool_decide (ref_tree_hash r = expected_tree))
                     (move_ref (hash_to_string (c_id commit)) (hash_to_string (c_tree_id commit)) now)
                     db2 in
  if Nat.eqb n 0 then Err StaleMonorepoRootRef else Ok db3.

Definition mega_head_hash (model : MegaRef) (commit : Commit) (db : MonoDb)
    : outcome MonoError MonoDb :=
  db1 ← save_refs model db; save_mega_commits [commit] db1.
End Objects.
