(* ===== verification/MonoTrees.v ===== *)
(** * Monorepo storage: paths through trees

    Models [resolve_path_tree_hash_in_txn], its variant with an explicit hash kind and
    [existing_path_trees_in_txn] of [src/jupiter/storage/mono_storage.rs]: the first two
    walk one path, the third one walks many paths together, level by level, with one
    batch of queries for each level.  The rows of a batch come back in the order
    [row_order] of the database. *)
From stdpp Require Import base strings numbers tactics list gmap.
From S2P Require Import Prelude Text CommitMessage CanonicalJson GitObjects ViewCommit GitCommits MonoRefs.

Definition path_components (path : text) : list text :=
  List.filter (λ c, negb (bool_decide (c = []))) (split_on (ch "/") path).

(** [BATCH_CHUNK_SIZE] *)
Definition BATCH_CHUNK_SIZE : nat := 1000.

(** [slice::chunks] *)
Fixpoint chunks {A} (fuel n : nat) (l : list A) : list (list A) :=
  match fuel, l with
  | S fuel, _ :: _ => take n l :: chunks fuel n (drop n l)
  | _, _ => []
  end.

(** Requests by the tree they have reached: the index of a path and a depth in it. *)
Abbreviation requests := (gmap text (list (nat * nat))).

Definition push_request (h : text) (r : nat * nat) (m : requests) : requests :=
  <[h := default [] (m !! h) ++ [r]]> m.

Section Walk.
Context {GO : GitObjects}.

Definition item_named (name : text) (items : list item) : option item :=
  List.find (λ it, bool_decide (item_name it = name)) items.

(** The identifier of the directory of that name. *)
Definition find_dir (name : text) (items : list item) : option text :=
  match item_named name items with
  | Some it => if bool_decide (item_mode it = ModeTree) then Some (hash_to_string (item_id it)) else None
  | None => None
  end.

Definition get_tree_by_hash (db : MonoDb) (hash : text) : option bytes := mega_tree db !! hash.

(** The loop of both walks; [decode] reads a row. *)
Fixpoint walk_components (decode : text → bytes → outcome ConvertError GitTree) (db : MonoDb)
    (tree : GitTree) (components : list text) : outcome MonoError (option GitTree) :=
  match components with
  | [] => Ok (Some tree)
  | component :: components =>
      match item_named component (tree_items tree) with
      | None => Ok None
      | Some it =>
          if negb (bool_decide (item_mode it = ModeTree)) then Ok None
          else
            let id := hash_to_string (item_id it) in
            match get_tree_by_hash db id with
            | None => Ok None
            | Some data =>
                next ← map_err MonoConvert (decode id data);
                walk_components decode db next components
            end
      end
  end.

Definition walk_path (decode : text → bytes → outcome ConvertError GitTree) (db : MonoDb)
    (root_tree_hash path : text) : outcome MonoError (option text) :=
  if bool_decide (path = []) || bool_decide (path = lit "/") then Ok (Some root_tree_hash)
  else match get_tree_by_hash db root_tree_hash with
       | None => Ok None
       | Some data =>
           tree ← map_err MonoConvert (decode root_tree_hash data);
           found ← walk_components decode db tree (path_components path);
           Ok (option_map (λ t, hash_to_string (tree_id t)) found)
       end.

Definition resolve_path_tree_hash (db : MonoDb) (root_tree_hash path : text)
    : outcome MonoError (option text) := walk_path tree_from_mega_model db root_tree_hash path.

Definition resolve_path_tree_hash_with_kind (db : MonoDb) (root_tree_hash path : text)
    : outcome MonoError (option text) :=
  match from_hex_for_kind root_tree_hash with
  | None => Err InvalidRootTree
  | Some _ => walk_path tree_from_mega_model_with_kind db root_tree_hash path
  end.

(** ** Many paths at once *)

Section Levels.
Context (db : MonoDb) (row_order : list text → list text).
Context (paths : list text) (components : list (list text)).

(** One request at a tree that was read. *)
Definition serve (items : list item) (acc : requests * gset text) (r : nat * nat)
    : outcome MonoError (requests * gset text) :=
  let '(next, existing) := acc in
  let '(index, depth) := r in
  match components !! index with
  | None => Panic
  | Some cs =>
      match cs !! depth with
      | None =>
          match paths !! index with
          | None => Panic
          | Some p => Ok (next, {[p]} ∪ existing)
          end
      | Some component =>
          match find_dir component items with
          | Some h => Ok (push_request h (index, S depth) next, existing)
          | None => Ok acc
          end
      end
  end.

Definition visit_model (acc : requests * (requests * gset text)) (hash : text)
    : outcome MonoError (requests * (requests * gset text)) :=
  let '(frontier, found) := acc in
  match get_tree_by_hash db hash with
  | None => Ok acc
  | Some data =>
      match frontier !! hash with
      | None => Ok acc
      | Some rs =>
          tree ← map_err MonoConvert (tree_from_mega_model_with_kind hash data);
          found' ← foldM (serve (tree_items tree)) found rs;
          Ok (delete hash frontier, found')
      end
  end.

(** The body of the outer loop. *)
Definition next_level (frontier : requests) (existing : gset text)
    : outcome MonoError (requests * gset text) :=
  let hashes := sort_by id str_compare (map_to_list frontier).*1 in
  acc ← foldM (λ acc chunk, foldM visit_model acc (row_order chunk)) (frontier, (∅, existing))
          (chunks (length hashes) BATCH_CHUNK_SIZE hashes);
  Ok acc.2.

Fixpoint levels (fuel : nat) (frontier : requests) (existing : gset text)
    : outcome MonoError (gset text) :=
  if bool_decide (frontier = ∅) then Ok existing
  else match fuel with
       | O => OutOfFuel
       | S fuel =>
           found ← next_level frontier existing;
           levels fuel found.1 found.2
       end.
End Levels.

Definition first_request (root_tree_hash : text) (acc : requests * gset text) (ip : nat * text)
    : requests * gset text :=
  let '(frontier, existing) := acc in
  let '(index, path) := ip in
  if bool_decide (path = []) || bool_decide (path = lit "/") then (frontier, {[path]} ∪ existing)
  else (push_request root_tree_hash (index, 0) frontier, existing).

(** A request goes one component deeper at each level. *)
Definition existing_path_trees (row_order : list text → list text) (db : MonoDb)
    (root_tree_hash : text) (paths : list text) : outcome MonoError (gset text) :=
  let components := map path_components paths in
  let '(frontier, existing) := foldl (first_request root_tree_hash) (∅, ∅) (imap pair paths) in
  levels db row_order paths components (S (list_max (map length components))) frontier existing.
End Walk.
