(* ===== verification/MonoTreesTheorems.v ===== *)
(** * The level-by-level walk finds what the walks of single paths find *)
From stdpp Require Import base strings numbers tactics list gmap.
From S2P Require Import Prelude Text CommitMessage CanonicalJson GitObjects ViewCommit GitCommits MonoRefs.
From S2P Require Import MonoTrees.

(** A query returns its rows in any order. *)
Class RowOrder (row_order : list text → list text) : Prop :=
  row_order_perm l : Permutation (row_order l) l.

(** ** Chunks *)

Lemma concat_chunks {A} fuel n (l : list A) :
  0 < n → length l ≤ fuel → concat (chunks fuel n l) = l.
Proof.
  intros Hn. revert l. induction fuel as [|fuel IH]; intros l Hl; simpl.
  { by destruct l; [|simpl in Hl; lia]. }
  destruct l as [|a l]; [done|]. cbn [concat].
  rewrite IH; [apply take_drop|]. rewrite length_drop. simpl in *. lia.
Qed.

Lemma foldM_chunks {E S A} (f : S → A → outcome E S) (order : list A → list A) s (cs : list (list A)) :
  foldM (λ acc chunk, foldM f acc (order chunk)) s cs = foldM f s (concat (map order cs)).
Proof.
  revert s. induction cs as [|c cs IH]; intros s; [done|]. cbn [foldM map concat].
  rewrite foldM_app. destruct (foldM f s (order c)); simpl; auto.
Qed.

Lemma concat_perm (order : list text → list text) `{!RowOrder order} cs :
  Permutation (concat (map order cs)) (concat cs).
Proof.
  induction cs as [|c cs IH]; [done|]. cbn [map concat]. by rewrite IH, (row_order_perm c).
Qed.

(** ** Requests *)

Definition req_in (m : requests) (h : text) (i d : nat) : Prop :=
  ∃ l, m !! h = Some l ∧ (i, d) ∈ l.

Definition nonempty_lists (m : requests) : Prop := ∀ h l, m !! h = Some l → l ≠ [].

Lemma req_in_push m h r h' i d :
  req_in (push_request h r m) h' i d ↔ req_in m h' i d ∨ (h' = h ∧ (i, d) = r).
Proof.
  unfold req_in, push_request. destruct (decide (h' = h)) as [->|Hne].
  - rewrite lookup_insert_eq. split.
    + intros (l & [= <-] & [Hl|Hl%list_elem_of_singleton]%elem_of_app); [|by right].
      destruct (m !! h) as [l0|] eqn:E; simpl in Hl; [by left; eauto|by apply not_elem_of_nil in Hl].
    + intros [(l & -> & Hl)|[_ <-]]; eexists; (split; [done|]); set_solver.
  - rewrite lookup_insert_ne by done. naive_solver.
Qed.

Lemma no_request h i d : ¬ req_in ∅ h i d.
Proof. intros (l & Hl & _). by rewrite lookup_empty in Hl. Qed.

Lemma nonempty_push m h r : nonempty_lists m → nonempty_lists (push_request h r m).
Proof.
  intros Hm h' l. unfold push_request. destruct (decide (h' = h)) as [->|Hne].
  - rewrite lookup_insert_eq. intros [= <-]. by destruct (default [] _).
  - rewrite lookup_insert_ne by done. apply Hm.
Qed.

Section Levels.
Context {GO : GitObjects} (db : MonoDb).

(** The tree of a row, when there is one. *)
Definition tree_at (h : text) : outcome MonoError (option GitTree) :=
  match get_tree_by_hash db h with
  | None => Ok None
  | Some data => t ← map_err MonoConvert (tree_from_mega_model_with_kind h data); Ok (Some t)
  end.

(** Whether the components lead from a tree to a tree that can be read. *)
Fixpoint reaches (h : text) (cs : list text) : outcome MonoError bool :=
  t ← tree_at h;
  match t with
  | None => Ok false
  | Some tree =>
      match cs with
      | [] => Ok true
      | c :: cs => match find_dir c (tree_items tree) with Some h' => reaches h' cs | None => Ok false end
      end
  end.

Lemma tree_at_cases h : (∃ o, tree_at h = Ok o) ∨ ∃ e, tree_at h = Err e.
Proof.
  unfold tree_at, tree_from_mega_model_with_kind. destruct (get_tree_by_hash db h); [|by eauto].
  destruct (from_hex_for_kind h); simpl; [|by eauto]. destruct (tree_from_bytes _); simpl; eauto.
Qed.

Lemma reaches_unfold h cs :
  reaches h cs = t ← tree_at h;
    match t with
    | None => Ok false
    | Some tree =>
        match cs with
        | [] => Ok true
        | c :: cs => match find_dir c (tree_items tree) with Some h' => reaches h' cs | None => Ok false end
        end
    end.
Proof. by destruct cs. Qed.

Lemma reaches_cases h cs : (∃ b, reaches h cs = Ok b) ∨ ∃ e, reaches h cs = Err e.
Proof.
  revert h. induction cs as [|c cs IH]; intros h; rewrite reaches_unfold;
    (destruct (tree_at_cases h) as [[o ->]|[e ->]]; simpl; [|by eauto]);
    destruct o as [t|]; try by eauto.
  destruct (find_dir c (tree_items t)); [apply IH|by eauto].
Qed.

Context (row_order : list text → list text) `{!RowOrder row_order}.
Context (paths : list text).
Abbreviation comps := (map path_components paths).

(** The tree a request leads to, and the path that a request has come to the end of. *)
Definition wants (items : list item) (i d : nat) (h : text) : Prop :=
  ∃ cs c, comps !! i = Some cs ∧ cs !! d = Some c ∧ find_dir c items = Some h.
Definition ends (i d : nat) (p : text) : Prop :=
  ∃ cs, comps !! i = Some cs ∧ cs !! d = None ∧ paths !! i = Some p.

(** What a step adds to the next level and to the result. *)
Record adds (L : text → nat → nat → Prop) (P : text → Prop) (a b : requests * gset text) : Prop := {
  adds_requests h i d : req_in b.1 h i d ↔ req_in a.1 h i d ∨ L h i d;
  adds_paths p : p ∈ b.2 ↔ p ∈ a.2 ∨ P p;
  adds_nonempty : nonempty_lists a.1 → nonempty_lists b.1;
}.

Lemma adds_none (L : text → nat → nat → Prop) (P : text → Prop) a :
  (∀ h i d, ¬ L h i d) → (∀ p, ¬ P p) → adds L P a a.
Proof. intros HL HP. split; naive_solver. Qed.

Lemma adds_trans L1 P1 L2 P2 (L : text → nat → nat → Prop) (P : text → Prop) a b c :
  adds L1 P1 a b → adds L2 P2 b c →
  (∀ h i d, L h i d ↔ L1 h i d ∨ L2 h i d) → (∀ p, P p ↔ P1 p ∨ P2 p) → adds L P a c.
Proof.
  intros [R1 X1 N1] [R2 X2 N2] HL HP. split; [| |auto].
  - intros h i d. rewrite R2, R1, HL. tauto.
  - intros p. rewrite X2, X1, HP. tauto.
Qed.

Lemma serve_one items a i0 d0 :
  i0 < length paths →
  ∃ b, serve paths comps items a (i0, d0) = Ok b
    ∧ adds (λ h i d, i = i0 ∧ d = S d0 ∧ wants items i0 d0 h) (ends i0 d0) a b.
Proof.
  intros Hi. destruct a as [next X]. destruct (lookup_lt_is_Some_2 paths i0 Hi) as [p0 Hp0].
  assert (comps !! i0 = Some (path_components p0)) as Hc0 by (by rewrite list_lookup_fmap, Hp0).
  cbn [serve]. rewrite Hc0, Hp0. unfold wants, ends.
  destruct (path_components p0 !! d0) as [c0|] eqn:Ec; [|];
    [destruct (find_dir c0 items) as [h0|] eqn:Ef|]; (eexists; split; [done|]).
  - split; simpl.
    + intros h i d. rewrite req_in_push. naive_solver.
    + naive_solver.
    + apply nonempty_push.
  - apply adds_none; naive_solver.
  - split; simpl; [naive_solver| |done]. intros p. rewrite elem_of_union, elem_of_singleton.
    naive_solver.
Qed.

Lemma serve_spec items a rs :
  Forall (λ r, r.1 < length paths) rs →
  ∃ b, foldM (serve paths comps items) a rs = Ok b
    ∧ adds (λ h i d, ∃ d0, (i, d0) ∈ rs ∧ d = S d0 ∧ wants items i d0 h)
           (λ p, ∃ i d, (i, d) ∈ rs ∧ ends i d p) a b.
Proof.
  revert a. induction rs as [|[i0 d0] rs IH]; intros a Hrs.
  { exists a. split; [done|]. apply adds_none; set_solver. }
  apply Forall_cons in Hrs as [Hi Hrs].
  destruct (serve_one items a i0 d0 Hi) as (b & Hb & Ab). destruct (IH b Hrs) as (c & Hc & Ac).
  exists c. cbn [foldM]. rewrite Hb. split; [done|]. eapply adds_trans; [exact Ab|exact Ac| |].
  - intros h i d. setoid_rewrite elem_of_cons. naive_solver.
  - intros p. setoid_rewrite elem_of_cons. naive_solver.
Qed.

Definition in_paths (m : requests) : Prop := ∀ h i d, req_in m h i d → i < length paths.

(** The same for a request at the tree of a row. *)
Definition leads (h : text) (i d : nat) (h' : text) : Prop :=
  ∃ t, tree_at h = Ok (Some t) ∧ wants (tree_items t) i d h'.
Definition lands (h : text) (i d : nat) (p : text) : Prop :=
  ∃ t, tree_at h = Ok (Some t) ∧ ends i d p.

Section Level.
Context (F : requests) (HF : in_paths F).

(** What the trees of a list add. *)
Definition level_requests (L : list text) (h' : text) (i d : nat) : Prop :=
  ∃ h d0, h ∈ L ∧ req_in F h i d0 ∧ d = S d0 ∧ leads h i d0 h'.
Definition level_paths (L : list text) (p : text) : Prop :=
  ∃ h i d, h ∈ L ∧ req_in F h i d ∧ lands h i d p.

Definition readable_rows (L : list text) : Prop :=
  ∀ h, h ∈ L → is_Some (F !! h) → ∃ o, tree_at h = Ok o.
Definition unreadable_row (L : list text) : Prop :=
  ∃ h e, h ∈ L ∧ is_Some (F !! h) ∧ tree_at h = Err e.

Lemma level_requests_one h h' i d :
  level_requests [h] h' i d ↔ ∃ d0, req_in F h i d0 ∧ d = S d0 ∧ leads h i d0 h'.
Proof. unfold level_requests. setoid_rewrite list_elem_of_singleton. naive_solver. Qed.

Lemma level_paths_one h p : level_paths [h] p ↔ ∃ i d, req_in F h i d ∧ lands h i d p.
Proof. unfold level_paths. setoid_rewrite list_elem_of_singleton. naive_solver. Qed.

Lemma adds_one h a b :
  adds (λ h' i d, ∃ d0, req_in F h i d0 ∧ d = S d0 ∧ leads h i d0 h')
       (λ p, ∃ i d, req_in F h i d ∧ lands h i d p) a b →
  adds (level_requests [h]) (level_paths [h]) a b.
Proof.
  intros [R P N]. split; [| |done].
  - intros h' i d. by rewrite R, level_requests_one.
  - intros p. by rewrite P, level_paths_one.
Qed.

Lemma req_in_at h rs i d : F !! h = Some rs → req_in F h i d ↔ (i, d) ∈ rs.
Proof. intros E. unfold req_in. rewrite E. split; [by intros (l & [= <-] & ?)|by eauto]. Qed.

Lemma leads_at h t i d h' : tree_at h = Ok (Some t) → leads h i d h' ↔ wants (tree_items t) i d h'.
Proof. intros E. unfold leads. rewrite E. split; [by intros (l & [= <-] & ?)|by eauto]. Qed.

Lemma lands_at h t i d p : tree_at h = Ok (Some t) → lands h i d p ↔ ends i d p.
Proof. intros E. unfold lands. rewrite E. split; [by intros (l & [= <-] & ?)|by eauto]. Qed.

Lemma visit_one fr a h :
  fr !! h = F !! h →
  (∃ fr' b, visit_model db paths comps (fr, a) h = Ok (fr', b)
     ∧ adds (level_requests [h]) (level_paths [h]) a b ∧ readable_rows [h]
     ∧ ∀ h', h' ≠ h → fr' !! h' = fr !! h')
  ∨ (∃ e, visit_model db paths comps (fr, a) h = Err e ∧ unreadable_row [h]).
Proof.
  intros Hfr. unfold visit_model. rewrite Hfr.
  assert (∀ o, tree_at h = Ok o → readable_rows [h]) as Hread
    by (intros o Ho h' ->%list_elem_of_singleton _; by exists o).
  destruct (get_tree_by_hash db h) as [data|] eqn:Ed; [destruct (F !! h) as [rs|] eqn:Er|].
  - destruct (tree_at_cases h) as [[o Ho]|[e He]].
    + pose proof Ho as Ht. unfold tree_at in Ht. rewrite Ed in Ht.
      apply bind_Ok in Ht as (t & Ht & [= <-]). rewrite Ht.
      destruct (serve_spec (tree_items t) a rs) as (b & Hb & [R P N]).
      { apply Forall_forall. intros [i d] Hr. apply (HF h i d). by exists rs. }
      left. cbn [mbind outcome_bind]. eexists _, b. rewrite Hb. split; [done|].
      split; [|split; [by eauto|intros h' Hn; by apply lookup_delete_ne]].
      apply adds_one. split; [| |done].
      * intros h' i d. rewrite R. setoid_rewrite (λ i d, req_in_at h rs i d Er).
        by setoid_rewrite (λ i d h', leads_at h t i d h' Ho).
      * intros p. rewrite P. setoid_rewrite (λ i d, req_in_at h rs i d Er).
        by setoid_rewrite (λ i d p, lands_at h t i d p Ho).
    + right. exists e. pose proof He as He'. unfold tree_at in He'. rewrite Ed in He'.
      split; [destruct (map_err _ _); simpl in *; congruence|]. exists h, e. rewrite list_elem_of_singleton. eauto.
  - left. eexists _, a. split; [done|]. split; [|split; [|done]].
    { apply adds_one, adds_none.
      + intros h' i d (? & (l & ? & _) & _). congruence.
      + intros p (? & ? & (l & ? & _) & _). congruence. }
    intros h' ->%list_elem_of_singleton [? ?]. congruence.
  - left. assert (tree_at h = Ok None) as Ht by (unfold tree_at; by rewrite Ed).
    eexists _, a. split; [done|]. split; [|by eauto].
    apply adds_one, adds_none.
    + intros h' i d (? & _ & _ & t & Et & _). congruence.
    + intros p (? & ? & _ & t & Et & _). congruence.
Qed.

Lemma visits L fr a :
  NoDup L → (∀ h, h ∈ L → fr !! h = F !! h) →
  (∃ fr' b, foldM (visit_model db paths comps) (fr, a) L = Ok (fr', b)
     ∧ adds (level_requests L) (level_paths L) a b ∧ readable_rows L)
  ∨ (∃ e, foldM (visit_model db paths comps) (fr, a) L = Err e ∧ unreadable_row L).
Proof.
  revert fr a. induction L as [|h L IH]; intros fr a Hn Hfr.
  { left. exists fr, a. split; [done|]. split; [apply adds_none|].
    - intros h i d (? & ? & ?%not_elem_of_nil & _). done.
    - intros p (? & ? & ? & ?%not_elem_of_nil & _). done.
    - intros h ?%not_elem_of_nil. done. }
  apply NoDup_cons in Hn as [Hh Hn]. cbn [foldM]. unfold unreadable_row, readable_rows in *.
  destruct (visit_one fr a h) as [(fr' & b & -> & Ab & Hr & Hne)|(e & -> & Hu)];
    [apply Hfr; by constructor| |right].
  - cbn [mbind outcome_bind]. destruct (IH fr' b Hn) as [(fr'' & c & -> & Ac & Hr')|(e & -> & Hu)].
    + intros h' Hh'. rewrite Hne by set_solver. apply Hfr. by constructor.
    + left. exists fr'', c. split; [done|]. split.
      * eapply adds_trans; [exact Ab|exact Ac| |]; unfold level_requests, level_paths;
          setoid_rewrite elem_of_cons; setoid_rewrite elem_of_nil; naive_solver.
      * intros h' [->|Hh']%elem_of_cons; [apply Hr; by constructor|by apply Hr'].
    + right. exists e. split; [done|]. destruct Hu as (h' & e' & Hh' & Hu).
      exists h', e'. split; [by constructor|done].
  - exists e. split; [done|]. destruct Hu as (h' & e' & ->%list_elem_of_singleton & Hu).
    exists h, e'. split; [by constructor|done].
Qed.

(** The tables of one level. *)
Lemma next_level_spec X :
  (∃ b, next_level db row_order paths comps F X = Ok b
     ∧ adds (λ h' i d, ∃ h d0, req_in F h i d0 ∧ d = S d0 ∧ leads h i d0 h')
            (λ p, ∃ h i d, req_in F h i d ∧ lands h i d p) (∅, X) b
     ∧ ∀ h, is_Some (F !! h) → ∃ o, tree_at h = Ok o)
  ∨ (∃ e h e', next_level db row_order paths comps F X = Err e
     ∧ is_Some (F !! h) ∧ tree_at h = Err e').
Proof.
  unfold next_level. set (hashes := sort_by id str_compare (map_to_list F).*1).
  rewrite foldM_chunks. set (L := concat _).
  assert (Permutation L (map_to_list F).*1) as HL.
  { unfold L. rewrite (concat_perm row_order), concat_chunks by (unfold BATCH_CHUNK_SIZE; lia).
    apply sort_by_perm. }
  assert (∀ h, h ∈ L ↔ is_Some (F !! h)) as Hin.
  { intros h. rewrite HL, list_elem_of_fmap. split.
    - intros ([h' rs] & -> & Hm%elem_of_map_to_list). by eexists.
    - intros [rs Hrs]. exists (h, rs). split; [done|]. by apply elem_of_map_to_list. }
  assert (NoDup L) as Hnd by (rewrite HL; apply NoDup_fst_map_to_list).
  destruct (visits L F (∅, X) Hnd ltac:(done)) as [(fr & b & -> & [R P N] & Hr)|(e & -> & h & e' & Hh & Hs & He)].
  - left. exists b. split; [done|]. split; [split; [| |done]|].
    + intros h i d. rewrite R. unfold level_requests, req_in. setoid_rewrite Hin. naive_solver.
    + intros p. rewrite P. unfold level_paths, req_in. setoid_rewrite Hin. naive_solver.
    + intros h Hs. by apply Hr; [apply Hin|].
  - right. exists e, h, e'. done.
Qed.
End Level.

(** The rest of the path of a request, and what its walk gives. *)
Definition rest_of (i d : nat) : list text := drop d (default [] (comps !! i)).

Lemma reaches_ends h i d p :
  ends i d p → reaches h (rest_of i d) = (t ← tree_at h; Ok (bool_decide (is_Some t))).
Proof.
  intros (cs & Hcs & Hd & _). unfold rest_of. rewrite Hcs. simpl.
  rewrite drop_ge by (by apply lookup_ge_None). rewrite reaches_unfold.
  destruct (tree_at h) as [[t|]| | |]; done.
Qed.

Lemma reaches_step h i d cs c t :
  comps !! i = Some cs → cs !! d = Some c → tree_at h = Ok (Some t) →
  reaches h (rest_of i d) =
    match find_dir c (tree_items t) with Some h' => reaches h' (rest_of i (S d)) | None => Ok false end.
Proof.
  intros Hcs Hc Ht. unfold rest_of. rewrite Hcs. simpl.
  rewrite (drop_S _ _ _ Hc), reaches_unfold, Ht. done.
Qed.

(** Every path of the frontier can be walked with the fuel. *)
Record frontier_ok (fuel : nat) (F : requests) : Prop := {
  fr_paths : in_paths F;
  fr_lists : nonempty_lists F;
  fr_fuel h i d : req_in F h i d → length (rest_of i d) < fuel ∧ d ≤ length (default [] (comps !! i));
}.

Lemma in_paths_request F h i d :
  in_paths F → req_in F h i d → ∃ p cs, paths !! i = Some p ∧ comps !! i = Some cs.
Proof.
  intros Hp Hr. destruct (lookup_lt_is_Some_2 paths i (Hp h i d Hr)) as [p E].
  exists p, (path_components p). by rewrite list_lookup_fmap, E.
Qed.

Lemma next_frontier_ok fuel F b X :
  frontier_ok (S fuel) F →
  adds (λ h' i d, ∃ h d0, req_in F h i d0 ∧ d = S d0 ∧ leads h i d0 h')
       (λ p, ∃ h i d, req_in F h i d ∧ lands h i d p) (∅, X) b →
  frontier_ok fuel b.1.
Proof.
  intros [Hp Hl Hf] [R P N].
  split.
  - intros h i d [?%no_request|(h0 & d0 & Hr & _)]%R; [done|by eapply Hp].
  - apply N. intros h l Hl'. cbn in Hl'. by rewrite lookup_empty in Hl'.
  - intros h i d [?%no_request|(h0 & d0 & Hr & -> & t & Ht & cs & c & Hcs & Hc & Hd)]%R; [done|].
    destruct (Hf h0 i d0 Hr) as [Hlen Hle]. unfold rest_of in *. rewrite Hcs in *. simpl in *.
    rewrite length_drop in *. apply lookup_lt_Some in Hc. lia.
Qed.

(** What the rest of the walk adds, or the request on which it fails. *)
Definition found (F : requests) (X X' : gset text) : Prop :=
  (∀ p, p ∈ X' ↔ p ∈ X ∨ ∃ h i d, req_in F h i d ∧ paths !! i = Some p
                                  ∧ reaches h (rest_of i d) = Ok true)
  ∧ ∀ h i d, req_in F h i d → ∃ b, reaches h (rest_of i d) = Ok b.
Definition fails (F : requests) : Prop :=
  ∃ h i d e, req_in F h i d ∧ reaches h (rest_of i d) = Err e.

(** One level and what follows it. *)
Lemma found_level F X b X' :
  in_paths F →
  adds (λ h' i d, ∃ h d0, req_in F h i d0 ∧ d = S d0 ∧ leads h i d0 h')
       (λ p, ∃ h i d, req_in F h i d ∧ lands h i d p) (∅, X) b →
  (∀ h, is_Some (F !! h) → ∃ o, tree_at h = Ok o) →
  found b.1 b.2 X' → found F X X'.
Proof.
  intros Hp [R P _] Hread [HX Hall].
  assert (∀ h i d, req_in F h i d → ∃ o, tree_at h = Ok o) as Hread'
    by (intros h i d (l & Hl & _); apply Hread; by exists l).
  split.
  - intros p. rewrite HX, P. setoid_rewrite R. split.
    + intros [[?|(h & i & d & Hr & t & Ht & Hend)]|(h & i & d & [?%no_request|Hn] & Hpi & Hw)]; [by left| |done|].
      * right. exists h, i, d. split; [done|]. split; [by destruct Hend as (cs & _ & _ & ?)|].
        rewrite (reaches_ends h i d p Hend), Ht. done.
      * destruct Hn as (h0 & d0 & Hr & -> & t & Ht & cs & c & Hcs & Hc & Hd). right.
        exists h0, i, d0. split; [done|]. split; [done|].
        by rewrite (reaches_step h0 i d0 cs c t Hcs Hc Ht), Hd.
    + intros [?|(h & i & d & Hr & Hpi & Hw)]; [by left; left|].
      destruct (in_paths_request F h i d Hp Hr) as (p' & cs & Hp' & Hcs). simplify_eq.
      destruct (Hread' h i d Hr) as [o Ho]. rewrite reaches_unfold, Ho in Hw. cbn in Hw.
      destruct o as [t|]; [|done]. destruct (cs !! d) as [c|] eqn:Ec.
      * unfold rest_of in Hw. rewrite Hcs in Hw. simpl in Hw. rewrite (drop_S _ _ _ Ec) in Hw.
        destruct (find_dir c (tree_items t)) as [h'|] eqn:Ed; [|done]. right.
        exists h', i, (S d). split; [|split; [done|unfold rest_of; by rewrite Hcs]].
        right. exists h, d. split; [done|]. split; [done|]. exists t. split; [done|]. by exists cs, c.
      * left; right. exists h, i, d. split; [done|]. exists t. split; [done|]. by exists cs.
  - intros h i d Hr. destruct (in_paths_request F h i d Hp Hr) as (p & cs & Hpi & Hcs).
    destruct (Hread' h i d Hr) as [o Ho]. destruct (cs !! d) as [c|] eqn:Ec.
    + destruct o as [t|]; [|rewrite reaches_unfold, Ho; by eexists].
      rewrite (reaches_step h i d cs c t Hcs Ec Ho). destruct (find_dir c _) as [h'|] eqn:Ed; [|by eexists].
      apply (Hall h' i (S d)), R. right. exists h, d. split; [done|]. split; [done|]. exists t.
      split; [done|]. by exists cs, c.
    + rewrite (reaches_ends h i d p), Ho; [by eexists|]. by exists cs.
Qed.

Lemma found_empty X : found ∅ X X.
Proof.
  split; [|by intros h i d []%no_request]. intros p. split; [by left|].
  by intros [?|(h & i & d & []%no_request & _)].
Qed.

Lemma levels_spec fuel F X :
  frontier_ok fuel F →
  (∃ X', levels db row_order paths comps fuel F X = Ok X' ∧ found F X X')
  ∨ (∃ e, levels db row_order paths comps fuel F X = Err e ∧ fails F).
Proof.
  revert F X. induction fuel as [|fuel IH]; intros F X HF; simpl;
    (destruct (bool_decide (F = ∅)) eqn:E; bool_prop;
     [left; exists X; split; [done|]; subst F; apply found_empty|]).
  - exfalso. apply map_choose in E as (h & l & Hl). destruct l as [|[i d] l].
    { by destruct (fr_lists 0 F HF h [] Hl). }
    destruct (fr_fuel 0 F HF h i d) as [? _]; [|lia]. exists ((i, d) :: l). split; [done|by constructor].
  - destruct (next_level_spec F (fr_paths _ _ HF) X) as [(b & -> & Hb & Hread)|(e & h & e' & -> & [l Hl] & He)].
    + cbn [mbind outcome_bind].
      destruct (IH b.1 b.2) as [(X' & -> & Hf)|(e & -> & h & i & d & e' & Hr & He)].
      * by eapply next_frontier_ok.
      * left. exists X'. split; [done|]. eapply found_level; [apply HF|done..].
      * right. exists e. split; [done|]. apply (adds_requests _ _ _ _ Hb) in Hr as [[]%no_request|Hr].
        destruct Hr as (h0 & d0 & Hr & -> & t & Ht & cs & c & Hcs & Hc & Hd).
        exists h0, i, d0, e'. split; [done|]. by rewrite (reaches_step h0 i d0 cs c t Hcs Hc Ht), Hd.
    + right. exists e. split; [done|]. destruct l as [|[i d] l].
      { by destruct (fr_lists _ F HF h [] Hl). }
      exists h, i, d, e'. split; [exists ((i, d) :: l); split; [done|by constructor]|].
      by rewrite reaches_unfold, He.
Qed.
End Levels.

(** ** The walk of one path *)

Section Exact.
Context {GO : GitObjects} (db : MonoDb).

(** The walk of one path panics where the walk by levels reports an error. *)
Definition agrees {A} (b : outcome MonoError bool) (o : outcome MonoError (option A)) : Prop :=
  match b, o with
  | Ok true, Ok (Some _) | Ok false, Ok None | Err _, Panic => True
  | _, _ => False
  end.

(** A tree is read by both, or by none. *)
Lemma decode_cases h :
  (∃ data t, get_tree_by_hash db h = Some data ∧ tree_from_mega_model h data = Ok t
             ∧ tree_at db h = Ok (Some t))
  ∨ (get_tree_by_hash db h = None ∧ tree_at db h = Ok None)
  ∨ (∃ data e, get_tree_by_hash db h = Some data ∧ tree_from_mega_model h data = Panic
               ∧ tree_at db h = Err e).
Proof.
  unfold tree_at, tree_from_mega_model, tree_from_mega_model_with_kind.
  destruct (get_tree_by_hash db h) as [data|]; [|by auto].
  destruct (from_hex_for_kind h) as [x|]; [destruct (tree_from_bytes data) as [its|] eqn:Eb|];
    simpl; [left|right; right|right; right]; eexists _, _; rewrite ?Eb; done.
Qed.

Lemma walk_agrees h t cs :
  tree_at db h = Ok (Some t) →
  agrees (reaches db h cs) (walk_components tree_from_mega_model db t cs).
Proof.
  revert h t. induction cs as [|c cs IH]; intros h t Ht; rewrite reaches_unfold, Ht; cbn; [done|].
  unfold find_dir. destruct (item_named c (tree_items t)) as [it|]; [|done].
  destruct (bool_decide (item_mode it = ModeTree)); cbn; [|done].
  destruct (decode_cases (hash_to_string (item_id it)))
    as [(data & t' & -> & -> & Ht')|[(-> & Ht')|(data & e & -> & -> & Ht')]]; cbn.
  - by apply IH.
  - by rewrite reaches_unfold, Ht'.
  - by rewrite reaches_unfold, Ht'.
Qed.

Definition root_path (p : text) : bool := bool_decide (p = []) || bool_decide (p = lit "/").

Lemma resolve_agrees root p :
  root_path p = false →
  agrees (reaches db root (path_components p)) (resolve_path_tree_hash db root p).
Proof.
  unfold root_path, resolve_path_tree_hash, walk_path. intros ->.
  destruct (decode_cases root)
    as [(data & t & -> & -> & Ht)|[(-> & Ht)|(data & e & -> & -> & Ht)]]; cbn.
  - pose proof (walk_agrees root t (path_components p) Ht) as Hw.
    destruct (reaches db root _) as [[]| | |], (walk_components _ db t _) as [[]| | |]; done.
  - by rewrite reaches_unfold, Ht.
  - by rewrite reaches_unfold, Ht.
Qed.

Lemma resolve_root root p : root_path p = true → resolve_path_tree_hash db root p = Ok (Some root).
Proof. unfold root_path, resolve_path_tree_hash, walk_path. by intros ->. Qed.

(** The requests of the first level. *)
Lemma first_requests root l :
  let a := foldl (first_request root) (∅, ∅) (imap pair l) in
  (∀ h i d, req_in a.1 h i d ↔ h = root ∧ d = 0 ∧ ∃ p, l !! i = Some p ∧ root_path p = false)
  ∧ (∀ p, p ∈ a.2 ↔ p ∈ l ∧ root_path p = true) ∧ nonempty_lists a.1.
Proof.
  induction l as [|p l IH] using rev_ind; cbn zeta in *.
  { split_and!; simpl; [|set_solver|by intros h k; rewrite lookup_empty].
    intros h i d. split; [by intros []%no_request|]. intros (_ & _ & p & ? & _). by rewrite lookup_nil in H. }
  rewrite imap_app, foldl_app. cbn [imap foldl]. destruct (foldl _ _ _) as [F X]. simpl in *.
  destruct IH as (HF & HX & HN). unfold root_path in *. rewrite Nat.add_0_r.
  setoid_rewrite lookup_app_Some. setoid_rewrite list_lookup_singleton_Some.
  setoid_rewrite elem_of_app. setoid_rewrite list_elem_of_singleton.
  destruct (bool_decide (p = []) || bool_decide (p = lit "/")) eqn:E; simpl.
  - split_and!; [| |done].
    + intros h i d. rewrite HF. split; [by intros (-> & -> & q & Hq & Eq); eauto 6|].
      intros (-> & -> & q & [Hq|(_ & _ & <-)] & Eq); [by eauto|congruence].
    + intros q. rewrite elem_of_union, elem_of_singleton, HX. split.
      * intros [->|[? ?]]; auto.
      * intros [[?| ->] ?]; auto.
  - split_and!; [| |by apply nonempty_push].
    + intros h i d. rewrite req_in_push, HF. split.
      * intros [(-> & -> & q & Hq & Eq)|[-> [= -> ->]]]; [by eauto 6|].
        split; [done|]. split; [done|]. exists p. split; [right|done]. split_and!; [lia..|done].
      * intros (-> & -> & q & [Hq|(Hle & Hi & <-)] & Eq); [by eauto 6|]. right. split; [done|].
        f_equal. lia.
    + intros q. rewrite HX. split; [intros [? ?]; auto|]. intros [[?| ->] ?]; [auto|congruence].
Qed.

Lemma resolve_cases root p :
  (∃ o, resolve_path_tree_hash db root p = Ok o) ∨ resolve_path_tree_hash db root p = Panic.
Proof.
  destruct (root_path p) eqn:E; [left; exists (Some root); by apply resolve_root|].
  pose proof (resolve_agrees root p E) as Ha.
  destruct (reaches_cases db root (path_components p)) as [[b Hb]|[e He]].
  - rewrite Hb in Ha. destruct b, (resolve_path_tree_hash db root p) as [[]| | |]; by eauto.
  - rewrite He in Ha. destruct (resolve_path_tree_hash db root p) as [[]| | |]; by eauto.
Qed.

Lemma first_frontier_ok root paths :
  frontier_ok paths (S (list_max (map length (map path_components paths))))
    (foldl (first_request root) (∅, ∅) (imap pair paths)).1.
Proof.
  destruct (first_requests root paths) as (HF & _ & HN). split; [|done|].
  - intros h i d (_ & _ & p & Hp & _)%HF. by eapply lookup_lt_Some.
  - intros h i d (_ & -> & p & Hp & _)%HF. unfold rest_of.
    rewrite list_lookup_fmap, Hp. cbn. split; [|lia].
    set (ls := map length (map path_components paths)).
    assert (Forall (λ n, n ≤ list_max ls) ls) as Hm by (by apply list_max_le).
    rewrite Forall_forall in Hm. apply Nat.lt_succ_r, Hm.
    apply list_elem_of_fmap. eexists; split; [done|]. apply list_elem_of_fmap.
    eexists; split; [done|]. by eapply list_elem_of_lookup_2.
Qed.

(** The walk of many paths by levels returns exactly the paths that the walk of a
    single path resolves, whatever the order in which the database returns the rows of a
    batch; it always ends, and it reports an error exactly when the walk of one of the
    paths meets a row that cannot be read, on which that walk panics. *)
Theorem existing_paths_exact row_order root paths :
  RowOrder row_order →
  (∃ found, existing_path_trees row_order db root paths = Ok found
     ∧ (∀ p, p ∈ found ↔ p ∈ paths ∧ ∃ h, resolve_path_tree_hash db root p = Ok (Some h))
     ∧ ∀ p, p ∈ paths → ∃ o, resolve_path_tree_hash db root p = Ok o)
  ∨ (∃ e p, existing_path_trees row_order db root paths = Err e
     ∧ p ∈ paths ∧ resolve_path_tree_hash db root p = Panic).
Proof.
  intros Ho. unfold existing_path_trees. pose proof (first_frontier_ok root paths) as Hok.
  destruct (first_requests root paths) as (HF & HX & _).
  destruct (foldl _ _ _) as [F X]. cbn [fst snd] in *.
  assert (∀ h i d p, req_in F h i d → paths !! i = Some p →
            h = root ∧ root_path p = false ∧ rest_of paths i d = path_components p) as Hreq.
  { intros h i d p (-> & -> & q & Hq & Eq)%HF Hp. assert (q = p) as -> by congruence. split; [done|]. split; [done|].
    unfold rest_of. by rewrite list_lookup_fmap, Hp. }
  destruct (levels_spec db row_order paths _ F X Hok) as [(X' & -> & HX' & Hall)|(e & -> & h & i & d & e' & Hr & He)].
  - left. exists X'. split; [done|]. split.
    + intros p. rewrite HX', HX. split.
      * intros [[Hp Er]|(h & i & d & Hr & Hp & Hw)]; [by rewrite resolve_root by done; eauto|].
        split; [by eapply list_elem_of_lookup_2|]. destruct (Hreq _ _ _ _ Hr Hp) as (-> & Er & Ec).
        rewrite Ec in Hw. pose proof (resolve_agrees root p Er) as Ha. rewrite Hw in Ha.
        destruct (resolve_path_tree_hash db root p) as [[]| | |]; by eauto.
      * intros [[i Hp]%list_elem_of_lookup_1 [h Hh]]. destruct (root_path p) eqn:Er;
          [left; split; [by eapply list_elem_of_lookup_2|done]|right].
        exists root, i, 0. assert (req_in F root i 0) as Hr by (apply HF; eauto). split; [done|].
        split; [done|]. destruct (Hreq _ _ _ _ Hr Hp) as (_ & _ & ->).
        pose proof (resolve_agrees root p Er) as Ha. rewrite Hh in Ha.
        by destruct (reaches db root _) as [[]| | |].
    + intros p [i Hp]%list_elem_of_lookup_1. destruct (resolve_cases root p) as [?|Hpan]; [done|].
      destruct (root_path p) eqn:Er; [by rewrite resolve_root in Hpan|].
      assert (req_in F root i 0) as Hr by (apply HF; eauto). destruct (Hall _ _ _ Hr) as [b Hb].
      destruct (Hreq _ _ _ _ Hr Hp) as (_ & _ & Ec). rewrite Ec in Hb.
      pose proof (resolve_agrees root p Er) as Ha. rewrite Hb, Hpan in Ha. by destruct b.
  - right. destruct (in_paths_request paths F h i d (fr_paths _ _ _ Hok) Hr) as (p & cs & Hp & _).
    exists e, p. split; [done|]. split; [by eapply list_elem_of_lookup_2|].
    destruct (Hreq _ _ _ _ Hr Hp) as (-> & Er & Ec). rewrite Ec in He.
    pose proof (resolve_agrees root p Er) as Ha. rewrite He in Ha.
    by destruct (resolve_path_tree_hash db root p) as [[]| | |].
Qed.
End Exact.
