(* ===== verification/MonoRefsInv.v ===== *)
(** * Monorepo references: uniqueness and the descendants of a path

    The unique index and the primary key as an invariant of every sequence of
    operations; the SQL patterns as statements about path components. *)
From stdpp Require Import base strings numbers tactics list gmap relations.
From S2P Require Import Prelude Text FilterSyntax FilterCanonical FilterSemantics MonoPath CommitMessage.
From S2P Require Import CanonicalJson GitObjects ViewCommit GitCommits MonoRefs MonoTrees.

(** ** The invariant *)

Record refs_inv (db : MonoDb) : Prop := {
  ri_id k r : mega_refs db !! k = Some r → ref_id r = k;
  ri_key i j r s : mega_refs db !! i = Some r → mega_refs db !! j = Some s →
    ref_path r = ref_path s → ref_name r = ref_name s → i = j;
}.

Lemma elem_of_ref_rows r db : r ∈ ref_rows db ↔ ∃ k, mega_refs db !! k = Some r.
Proof.
  unfold ref_rows. rewrite list_elem_of_fmap. split.
  - intros ([k r'] & -> & Hk%elem_of_map_to_list). by exists k.
  - intros [k Hk]. exists (k, r). split; [done|]. by apply elem_of_map_to_list.
Qed.

Lemma elem_of_select_refs p r db : r ∈ select_refs p db ↔ p r = true ∧ ∃ k, mega_refs db !! k = Some r.
Proof.
  unfold select_refs. rewrite list_elem_of_In, filter_In, <-list_elem_of_In, elem_of_ref_rows. tauto.
Qed.

Lemma at_key_spec p n r : at_key p n r = true ↔ ref_path r = p ∧ ref_name r = n.
Proof. unfold at_key. by rewrite andb_true_iff, !bool_decide_eq_true. Qed.

Lemma row_at r db k : refs_inv db → mega_refs db !! k = Some r → mega_refs db !! ref_id r = Some r.
Proof. intros [Hid _] Hk. by rewrite (Hid k r Hk). Qed.

Lemma ref_ids_NoDup db : refs_inv db → NoDup (ref_id <$> ref_rows db).
Proof.
  intros Hinv. assert (ref_id <$> ref_rows db = (map_to_list (mega_refs db)).*1) as ->;
    [|apply NoDup_fst_map_to_list].
  unfold ref_rows. rewrite <-list_fmap_compose. apply list_fmap_ext. intros i [k r] Hk. simpl.
  apply (ri_id db Hinv), elem_of_map_to_list. by eapply list_elem_of_lookup_2.
Qed.

Lemma select_refs_NoDup p db : refs_inv db → NoDup (select_refs p db).
Proof.
  intros Hinv. apply (sublist_NoDup _ (ref_rows db)); [|apply filter_sublist].
  by eapply NoDup_fmap_1, ref_ids_NoDup.
Qed.

Lemma exists_key_false p n db :
  existsb (at_key p n) (ref_rows db) = false ↔
  ∀ k r, mega_refs db !! k = Some r → ¬ (ref_path r = p ∧ ref_name r = n).
Proof.
  rewrite <-not_true_iff_false, existsb_exists. split.
  - intros Hn k r Hk Hkey. apply Hn. exists r. split; [|by apply at_key_spec].
    apply list_elem_of_In, elem_of_ref_rows. by exists k.
  - intros Hn (r & [k Hk]%list_elem_of_In%elem_of_ref_rows & Hkey%at_key_spec). by eapply Hn.
Qed.

(** Lookup by path and name. *)
Lemma get_ref_spec p n db r :
  refs_inv db →
  get_ref p n db = Some r ↔
  mega_refs db !! ref_id r = Some r ∧ ref_path r = p ∧ ref_name r = n.
Proof.
  intros Hinv. unfold get_ref. split.
  - intros Hh. assert (r ∈ select_refs (at_key p n) db) as [Hk%at_key_spec [k Hr]]%elem_of_select_refs.
    { destruct (select_refs _ db); [done|]. injection Hh as ->. by constructor. }
    split; [by eapply row_at|done].
  - intros (Hr & Hk). destruct (select_refs (at_key p n) db) as [|s l] eqn:E; simpl.
    + assert (r ∈ select_refs (at_key p n) db) as Hin.
      { apply elem_of_select_refs. split; [by apply at_key_spec|by eexists]. }
      rewrite E in Hin. by apply not_elem_of_nil in Hin.
    + assert (s ∈ select_refs (at_key p n) db) as [Hs%at_key_spec [j Hj]]%elem_of_select_refs
        by (rewrite E; by constructor).
      f_equal. assert (ref_id r = j) as Eij by (eapply (ri_key db Hinv _ _ r s); intuition congruence).
      congruence.
Qed.

Lemma get_ref_None p n db :
  get_ref p n db = None ↔ ∀ k r, mega_refs db !! k = Some r → ¬ (ref_path r = p ∧ ref_name r = n).
Proof.
  unfold get_ref. rewrite <-exists_key_false, <-not_true_iff_false, existsb_exists.
  split.
  - intros Hh (r & Hr%list_elem_of_In & Hk).
    assert (r ∈ select_refs (at_key p n) db) as Hin.
    { apply elem_of_select_refs. split; [done|]. by apply elem_of_ref_rows. }
    destruct (select_refs _ db); [by apply not_elem_of_nil in Hin|done].
  - intros Hn. destruct (select_refs (at_key p n) db) as [|r l] eqn:E; [done|]. exfalso. apply Hn.
    assert (r ∈ select_refs (at_key p n) db) as [Hk Hr%elem_of_ref_rows]%elem_of_select_refs
      by (rewrite E; by constructor).
    exists r. split; [by apply list_elem_of_In|done].
Qed.

(** *** Preservation *)

Lemma refs_inv_refs db db' : mega_refs db' = mega_refs db → refs_inv db → refs_inv db'.
Proof. intros E [Hid Hkey]. split; rewrite E; [exact Hid|exact Hkey]. Qed.

Lemma insert_ref_inv r db db' : insert_ref r db = Ok db' → refs_inv db → refs_inv db'.
Proof.
  unfold insert_ref. destruct (_ || _) eqn:E; [done|]. intros [= <-] [Hid Hkey].
  bool_prop. match goal with H : existsb _ _ = false |- _ => rewrite exists_key_false in H end.
  split; simpl.
  - intros k s. rewrite lookup_insert_Some. intros [[<- <-]|[_ Hs]]; [done|by apply Hid].
  - intros i j s t. rewrite !lookup_insert_Some.
    intros [[<- <-]|[Hi Hs]] [[<- <-]|[Hj Ht]] Hp Hn; [done|naive_solver..|by eapply Hkey].
Qed.

(** An update of some columns keeps identifiers and keys. *)
Lemma fmap_refs_inv f db :
  (∀ r, ref_id (f r) = ref_id r ∧ ref_path (f r) = ref_path r ∧ ref_name (f r) = ref_name r) →
  refs_inv db → refs_inv (with_refs (f <$> mega_refs db) db).
Proof.
  intros Hf [Hid Hkey]. split; simpl.
  - intros k r. rewrite lookup_fmap_Some. intros (s & <- & Hs). destruct (Hf s) as (-> & _). by apply Hid.
  - intros i j r s. rewrite !lookup_fmap_Some. intros (r' & <- & Hr) (s' & <- & Hs).
    destruct (Hf r') as (_ & -> & ->), (Hf s') as (_ & -> & ->). by eapply Hkey.
Qed.

Lemma update_refs_inv p commit tree now db :
  refs_inv db → refs_inv (fst (update_refs p (move_ref commit tree now) db)).
Proof. intros Hinv. apply fmap_refs_inv; [|done]. intros r. by destruct (p r). Qed.

Lemma subset_refs_inv refs db : refs ⊆ mega_refs db → refs_inv db → refs_inv (with_refs refs db).
Proof.
  intros Hs [Hid Hkey]. split; simpl.
  - intros k r Hr. eapply Hid, lookup_weaken; done.
  - intros i j r s Hr Hs'. eapply Hkey; by eapply lookup_weaken.
Qed.

Lemma delete_refs_inv p db : refs_inv db → refs_inv (fst (delete_refs p db)).
Proof. apply subset_refs_inv, map_filter_subseteq. Qed.

Lemma remove_ref_inv r db : refs_inv db → refs_inv (remove_ref r db).
Proof. apply subset_refs_inv, delete_subseteq. Qed.

Lemma update_by_id_inv i commit tree now db db' :
  update_ref_by_id i commit tree now db = Ok db' → refs_inv db → refs_inv db'.
Proof.
  unfold update_ref_by_id. destruct (mega_refs db !! i) as [r|] eqn:Er; [|done].
  intros [= <-] [Hid Hkey]. split; simpl.
  - intros k s. rewrite lookup_insert_Some. intros [[<- <-]|[_ Hs]]; [exact (Hid _ _ Er)|by apply Hid].
  - intros a b s t. rewrite !lookup_insert_Some.
    intros [[<- <-]|[Ha Hs]] [[<- <-]|[Hb Ht]] Hp Hn; [done|by eapply (Hkey _ _ r t)
      |by eapply (Hkey _ _ s r)|by eapply Hkey].
Qed.

Lemma update_from_map_inv m now us db db' :
  update_from_map m now us db = Ok db' → refs_inv db → refs_inv db'.
Proof.
  revert db. induction us as [|u us IH]; intros db; simpl; [by intros [= <-]|].
  destruct (m !! _); [|done]. intros (db1 & H1 & H2)%bind_Ok Hinv.
  eapply IH, update_by_id_inv; done.
Qed.

Lemma update_present_inv m now us db db' :
  update_present m now us db = Ok db' → refs_inv db → refs_inv db'.
Proof.
  revert db. induction us as [|u us IH]; intros db; simpl; [by intros [= <-]|].
  destruct (m !! _); [|apply IH]. intros (db1 & H1 & H2)%bind_Ok Hinv.
  eapply IH, update_by_id_inv; done.
Qed.

Lemma upsert_inv id u now db db' : upsert_ref_by_path id u now db = Ok db' → refs_inv db → refs_inv db'.
Proof.
  unfold upsert_ref_by_path. destruct (existsb _ _); [|apply insert_ref_inv].
  intros [= <-]. apply update_refs_inv.
Qed.

Lemma tombstone_delete_inv p now db : refs_inv db → refs_inv (fst (tombstone_and_delete_main_ref p now db)).
Proof.
  intros Hinv. unfold tombstone_and_delete_main_ref. destruct (get_main_ref p db); [|done]. cbn [fst].
  apply remove_ref_inv. by apply (refs_inv_refs db).
Qed.

#[export] Hint Resolve insert_ref_inv update_refs_inv delete_refs_inv remove_ref_inv update_by_id_inv
  update_from_map_inv update_present_inv upsert_inv tombstone_delete_inv refs_inv_refs : mega.

(** ** Steps *)

(** The operations that change references, by any caller. *)
Inductive ref_step : MonoDb → MonoDb → Prop :=
  | rs_save r db db' : save_refs r db = Ok db' → ref_step db db'
  | rs_remove_none_cl p db : ref_step db (remove_none_cl_refs p db)
  | rs_remove_none_cl_in_txn p db : ref_step db (remove_none_cl_refs_in_txn p db)
  | rs_remove r db : ref_step db (remove_ref r db)
  | rs_remove_unchanged n c db : ref_step db (fst (remove_ref_if_unchanged n c db))
  | rs_insert_absent r db db' s : insert_ref_if_not_exists r db = Ok (db', s) → ref_step db db'
  | rs_update r db db' : update_ref r db = Ok db' → ref_step db db'
  | rs_save_cl id p n c t now db db' : save_or_update_cl_ref id p n c t now db = Ok db' → ref_step db db'
  | rs_batch_update us now db db' : batch_update_by_path_in_txn us now db = Ok db' → ref_step db db'
  | rs_batch_concurrent us completed now db db' :
      Permutation completed us → batch_update_by_path_concurrent us completed now db = Ok db' →
      ref_step db db'
  | rs_batch_upsert us now db db' : batch_upsert_by_path us now db = Ok db' → ref_step db db'
  | rs_cas ec et nc nt now db : ref_step db (fst (cas_update_root_main_ref ec et nc nt now db))
  | rs_tombstone p now db : ref_step db (fst (tombstone_and_delete_main_ref p now db))
  | rs_upsert_tombstone p n c t now db : ref_step db (upsert_tombstone p n c t now db)
  | rs_delete_tombstone p n db : ref_step db (delete_tombstone p n db)
  | rs_attach `{GitCommits} id c t k ts now db db' :
      attach_to_monorepo_parent id c t k ts now db = Ok db' → ref_step db db'
  | rs_head `{GitCommits} r k db db' : mega_head_hash r k db = Ok db' → ref_step db db'.

Lemma save_commits_refs `{GitCommits} cs db db' :
  save_mega_commits cs db = Ok db' → mega_refs db' = mega_refs db.
Proof. unfold save_mega_commits. by intros (ms & _ & [= <-])%bind_Ok. Qed.

Lemma save_trees_refs `{GitObjects} ts db db' :
  save_mega_trees ts db = Ok db' → mega_refs db' = mega_refs db.
Proof. unfold save_mega_trees. by intros (ms & _ & [= <-])%bind_Ok. Qed.

Lemma batch_upsert_inv us now db db' :
  batch_upsert_by_path us now db = Ok db' → refs_inv db → refs_inv db'.
Proof.
  revert db. induction us as [|[id u] us IH]; intros db; simpl; [by intros [= <-]|].
  intros (db1 & H1 & H2)%bind_Ok Hinv. eauto with mega.
Qed.

Lemma insert_absent_inv r db db' s :
  insert_ref_if_not_exists r db = Ok (db', s) → refs_inv db → refs_inv db'.
Proof.
  unfold insert_ref_if_not_exists. destruct (existsb _ _).
  - destruct (get_ref _ _ _); [by intros [= <- <-]|done].
  - intros (db1 & H1 & [= <- <-])%bind_Ok. eauto with mega.
Qed.

Lemma save_cl_inv id p n c t now db db' :
  save_or_update_cl_ref id p n c t now db = Ok db' → refs_inv db → refs_inv db'.
Proof. unfold save_or_update_cl_ref. destruct (get_ref_by_name n db); eauto with mega. Qed.

Lemma batch_update_inv us now db db' :
  batch_update_by_path_in_txn us now db = Ok db' → refs_inv db → refs_inv db'.
Proof.
  unfold batch_update_by_path_in_txn. destruct (bool_decide _); [by intros [= <-]|]. eauto with mega.
Qed.

Lemma attach_inv `{GitCommits} id c t k ts now db db' :
  attach_to_monorepo_parent id c t k ts now db = Ok db' → refs_inv db → refs_inv db'.
Proof.
  unfold attach_to_monorepo_parent. intros (db1 & H1 & (db2 & H2 & H3)%bind_Ok)%bind_Ok Hinv.
  cbn in H3. destruct (Nat.eqb _ 0); [done|]. injection H3 as <-.
  apply (update_refs_inv _ _ _ _ db2), (refs_inv_refs db); [|done].
  by rewrite (save_commits_refs _ _ _ H2), (save_trees_refs _ _ _ H1).
Qed.

Lemma head_inv `{GitCommits} r k db db' : mega_head_hash r k db = Ok db' → refs_inv db → refs_inv db'.
Proof.
  unfold mega_head_hash. intros (db1 & H1 & H2)%bind_Ok Hinv.
  apply (refs_inv_refs db1); [by eapply save_commits_refs|]. by eapply insert_ref_inv.
Qed.

Lemma cas_inv ec et nc nt now db :
  refs_inv db → refs_inv (fst (cas_update_root_main_ref ec et nc nt now db)).
Proof. apply update_refs_inv. Qed.

#[export] Hint Resolve batch_upsert_inv insert_absent_inv save_cl_inv batch_update_inv attach_inv
  head_inv cas_inv : mega.

Lemma ref_step_inv db db' : ref_step db db' → refs_inv db → refs_inv db'.
Proof.
  destruct 1; intros Hinv; try by eauto with mega.
  - by apply delete_refs_inv.
  - by apply (refs_inv_refs db).
  - by apply (refs_inv_refs db).
Qed.

(** ** Patterns *)

Lemma like_any s : like_match (lit "%") s = true.
Proof.
  change (lit "%") with [ch "%"]. cbn. by induction s.
Qed.

(** An escaped text matches itself only. *)
Lemma like_escape p pattern s :
  like_match (escape_like p ++ pattern) s =
  match strip_prefix p s with Some r => like_match pattern r | None => false end.
Proof.
  revert s. induction p as [|c p IH]; intros s; [done|]. unfold escape_like. rewrite bind_cons.
  fold (escape_like p). rewrite <-app_assoc.
  destruct (N.eqb c backslash || N.eqb c (ch "%") || N.eqb c (ch "_")) eqn:E.
  - cbn [app like_match]. change (N.eqb backslash (ch "%")) with false.
    change (N.eqb backslash (ch "_")) with false. rewrite N.eqb_refl. destruct s as [|x s]; [done|].
    rewrite IH. cbn [strip_prefix]. rewrite (N.eqb_sym x c). by destruct (N.eqb c x).
  - bool_prop. cbn [app like_match].
    repeat match goal with H : ?a ≠ ?b |- _ => apply N.eqb_neq in H; rewrite H; clear H end.
    destruct s as [|x s]; [done|]. rewrite IH. cbn [strip_prefix]. rewrite (N.eqb_sym x c).
    by destruct (N.eqb c x).
Qed.

Lemma like_slash s : like_match (lit "/%") s = starts_with (lit "/") s.
Proof.
  change (lit "/%") with (escape_like (lit "/") ++ lit "%"). rewrite like_escape. unfold starts_with.
  destruct (strip_prefix (lit "/") s) as [r|] eqn:E; [by rewrite like_any|].
  symmetry. apply bool_decide_eq_false. by intros [].
Qed.

Definition dir_text (path : text) : text := trim_end_matches is_slash (normalize_query path) ++ lit "/".

Lemma descendant_pattern_match path s :
  like_match (descendant_pattern (normalize_query path)) s = starts_with (dir_text path) s.
Proof.
  unfold descendant_pattern, dir_text. destruct (bool_decide _) eqn:E; bool_prop.
  - rewrite E. apply like_slash.
  - rewrite like_escape. apply eq_true_iff_eq. rewrite starts_with_spec.
    destruct (strip_prefix _ s) as [r|] eqn:Es.
    + apply strip_prefix_Some in Es as ->. rewrite like_slash, starts_with_spec.
      split; intros [t Ht]; exists t; [by rewrite Ht, app_assoc|].
      rewrite <-app_assoc in Ht. by apply app_inv_head in Ht.
    + split; [done|]. intros [t ->]. by rewrite <-app_assoc, strip_prefix_app in Es.
Qed.

(** Below a path: its text, a separator and more, and not the path itself. *)
Lemma below_spec path p :
  below path p = true ↔ (∃ rest, p = dir_text path ++ rest) ∧ p ≠ normalize_query path.
Proof.
  unfold below. rewrite andb_true_iff, descendant_pattern_match, starts_with_spec, negb_true_iff,
    bool_decide_eq_false. done.
Qed.

(** *** Components *)

Lemma path_components_app a b :
  path_components (a ++ ch "/" :: b) = path_components a ++ path_components b.
Proof. unfold path_components. by rewrite split_on_sep, List.filter_app. Qed.

Lemma path_components_slashes s : Forall (λ c, is_slash c = true) s → path_components s = [].
Proof.
  induction s as [|c s IH]; [done|]. intros [Hc Hs]%Forall_cons. apply N.eqb_eq in Hc as ->.
  change (ch "/" :: s) with ([] ++ ch "/" :: s). rewrite path_components_app. by rewrite IH.
Qed.

Lemma path_components_trim s : path_components (trim_end_matches is_slash s) = path_components s.
Proof.
  destruct (trim_end_split is_slash s) as (suf & Hs & Hsuf).
  rewrite Hs at 2. destruct suf as [|c suf]; [by rewrite app_nil_r|].
  apply Forall_cons in Hsuf as [->%N.eqb_eq Hsuf].
  by rewrite path_components_app, (path_components_slashes suf), app_nil_r.
Qed.

Lemma path_components_display segs : Forall plain_segment segs → path_components (display_path segs) = segs.
Proof.
  intros Hp. rewrite display_cons. change (lit "/" ++ ?s) with ([] ++ ch "/" :: s).
  rewrite path_components_app. change (path_components []) with (@nil text). rewrite app_nil_l.
  destruct (decide (segs = [])) as [->|Hne]; [done|]. unfold path_components.
  rewrite split_plain by done. clear Hne. induction Hp as [|s segs [Hs _] Hp IH]; [done|]. simpl.
  rewrite bool_decide_eq_false_2 by done. simpl. by rewrite IH.
Qed.

Lemma normalize_components path : path_components (normalize_query path) = path_components path.
Proof. unfold normalize_query. destruct (bool_decide _) eqn:E; bool_prop; by subst. Qed.

Lemma dir_text_components path rest :
  path_components (dir_text path ++ rest) = path_components path ++ path_components rest.
Proof.
  unfold dir_text. rewrite <-app_assoc. change (lit "/" ++ rest) with (ch "/" :: rest).
  by rewrite path_components_app, path_components_trim, normalize_components.
Qed.

Lemma path_is_under_components p q :
  path_is_under p q = true → ∃ cs, path_components p = path_components q ++ cs.
Proof.
  unfold path_is_under. intros [Hb|[t ->]%starts_with_spec]%orb_true_iff.
  - bool_prop. subst. exists []. by rewrite app_nil_r.
  - rewrite <-app_assoc. change (lit "/" ++ t) with (ch "/" :: t).
    rewrite path_components_app, path_components_trim. by eexists.
Qed.

Lemma nonempty_Some s r : nonempty s = Some r ↔ s = r ∧ r ≠ [].
Proof. unfold nonempty. destruct (bool_decide _) eqn:E; bool_prop; naive_solver. Qed.

Lemma descendant_relative_spec p q r :
  p ≠ [] → descendant_relative p q = Some r ↔ q = dir_text p ++ r ∧ r ≠ [].
Proof.
  intros Hp. unfold descendant_relative, dir_text, normalize_query.
  rewrite (bool_decide_eq_false_2 (p = [])) by done.
  destruct (bool_decide (p = lit "/")) eqn:E; bool_prop.
  - subst p. change (trim_end_matches is_slash (lit "/")) with (@nil N). rewrite app_nil_l, bind_Some.
    setoid_rewrite nonempty_Some. setoid_rewrite strip_prefix_Some. naive_solver.
  - rewrite bind_Some. setoid_rewrite bind_Some. setoid_rewrite nonempty_Some.
    setoid_rewrite strip_prefix_Some. split.
    + intros (s & -> & t & -> & -> & ?). by rewrite <-app_assoc.
    + intros [-> ?]. exists (lit "/" ++ r). rewrite <-app_assoc. eauto.
Qed.

Lemma relative_components p q r :
  p ≠ [] → descendant_relative p q = Some r → path_components q = path_components p ++ path_components r.
Proof. intros Hp [-> _]%descendant_relative_spec; [|done]. apply dir_text_components. Qed.
