(* ===== verification/MonoRefsTheorems.v ===== *)
(** * Monorepo references: what the operations guarantee *)
From stdpp Require Import base strings numbers tactics list gmap relations.
From S2P Require Import Prelude Text FilterSyntax FilterCanonical FilterSemantics MonoPath CommitMessage GitPath.
From S2P Require Import CanonicalJson GitObjects ViewCommit GitCommits MonoRefs MonoTrees MonoRefsInv.

(** ** Ancestors *)

Lemma display_snoc segs s :
  display_path (segs ++ [s]) = (if bool_decide (segs = []) then [] else display_path segs) ++ ch "/" :: s.
Proof.
  destruct (bool_decide (segs = [])) eqn:E; bool_prop; [by subst|].
  rewrite !display_cons, join_app by done. by rewrite app_assoc.
Qed.

(** The proper prefixes of a path, as texts. *)
Lemma parents_of_display fuel segs p :
  Forall plain_segment segs → length segs ≤ fuel →
  p ∈ parents_of fuel (display_path segs) ↔ ∃ q s r, segs = q ++ s :: r ∧ p = display_path q.
Proof.
  revert fuel. induction segs as [|s segs IH] using rev_ind; intros fuel Hp Hf.
  { split; [|by intros ([] & ? & ? & ? & _)]. destruct fuel; simpl; [by intros ?%not_elem_of_nil|].
    change (rsplit_once (ch "/") (lit "/")) with (Some (@nil N, @nil N)). by intros ?%not_elem_of_nil. }
  rewrite Forall_app, Forall_singleton in Hp. destruct Hp as [Hp [Hs Hsl]].
  rewrite length_app in Hf. simpl in Hf. destruct fuel as [|fuel]; [lia|]. cbn [parents_of].
  rewrite display_snoc, rsplit_once_app by done.
  assert (∀ q t r, segs ++ [s] = q ++ t :: r ↔ (q = segs ∧ t = s ∧ r = []) ∨ ∃ r', segs = q ++ t :: r' ∧ r = r' ++ [s]) as Hsplit.
  { intros q t r. split.
    - intros E. destruct r as [|x r _] using rev_ind; [left; by apply app_inj_2 in E as [? [= ?]]|right].
      rewrite app_comm_cons, app_assoc in E. apply app_inj_2 in E as [-> [= ->]]; [|done]. eauto.
    - intros [(-> & -> & ->)|(r' & -> & ->)]; [done|]. by rewrite <-app_assoc. }
  setoid_rewrite Hsplit. destruct (bool_decide (segs = [])) eqn:E; bool_prop.
  - subst segs. destruct s as [|c s]; [done|]. rewrite list_elem_of_singleton. split.
    + intros ->. exists [], (c :: s), []. split; [by left|done].
    + intros (q & t & r & [(-> & _)|(r' & E & _)] & ->); [done|by destruct q].
  - destruct (display_path segs) as [|c d] eqn:Ed; [by destruct segs|].
    rewrite elem_of_cons, IH, <-Ed by (done || lia). split.
    + intros [->|(q & t & r & -> & ->)]; [exists segs, s, []; split; [by left|done]|].
      exists q, t, (r ++ [s]). split; [right; by eauto|done].
    + intros (q & t & r & [(-> & -> & ->)|(r' & -> & ->)] & ->); [by left|right; by eauto].
Qed.

Lemma length_display segs : Forall plain_segment segs → length segs ≤ length (display_path segs).
Proof.
  rewrite display_cons, length_app. change (length (lit "/")) with 1. intros Hp.
  enough (length segs ≤ S (length (join (ch "/") segs))) by lia.
  induction Hp as [|s segs [Hs _] Hp IH]; [simpl; lia|].
  destruct segs as [|s' segs]; [simpl; lia|].
  change (join (ch "/") (s :: s' :: segs)) with (s ++ ch "/" :: join (ch "/") (s' :: segs)).
  rewrite length_app. destruct s as [|c s]; [done|]. set (j := join _ _) in *. simpl in *. lia.
Qed.

Lemma ancestors_spec segs p :
  Forall plain_segment segs →
  p ∈ strict_non_root_ancestor_paths (display_path segs) ↔
  ∃ q s r, segs = q ++ s :: r ∧ q ≠ [] ∧ p = display_path q.
Proof.
  intros Hp. unfold strict_non_root_ancestor_paths.
  rewrite list_elem_of_In, filter_In, <-list_elem_of_In, parents_of_display by (done || by apply length_display).
  rewrite negb_true_iff, orb_false_iff, !bool_decide_eq_false. split.
  - intros [(q & s & r & -> & ->) [_ Hr]]. exists q, s, r. split; [done|]. split; [|done]. by intros ->.
  - intros (q & s & r & -> & Hq & ->). split; [by eauto|]. split.
    + by rewrite display_cons.
    + intros E. apply Hq. apply (display_inj q []); [by apply Forall_app in Hp as [? _]|done|done].
Qed.

(** ** Descendants *)

Lemma trim_display_dir a :
  Forall plain_segment a → a ≠ [] → trim_end_matches is_slash (display_path a) = display_path a.
Proof.
  intros Ha Hne. destruct (last a) as [s|] eqn:El; [|by apply last_None in El].
  assert (plain_segment s) as [Hs Hsl].
  { rewrite Forall_forall in Ha. apply Ha. apply last_Some in El as [l ->]. set_solver. }
  destruct (last s) as [c|] eqn:Ec; [|by apply last_None in Ec].
  apply (trim_end_id _ _ c); [by eapply display_last|]. apply N.eqb_neq. intros ->. apply Hsl.
  apply last_Some in Ec as [l ->]. set_solver.
Qed.

Lemma below_display a b :
  Forall plain_segment a → Forall plain_segment b →
  below (display_path a) (display_path b) = true ↔ ∃ s r, b = a ++ s :: r.
Proof.
  intros Ha Hb. rewrite below_spec.
  assert (normalize_query (display_path a) = display_path a) as En.
  { unfold normalize_query. rewrite bool_decide_eq_false_2; [done|]. by rewrite display_cons. }
  split.
  - intros [[rest E] Hne]. assert (path_components (display_path b) = b) as Eb by (by apply path_components_display).
    rewrite E, dir_text_components, path_components_display in Eb by done.
    destruct (path_components rest) as [|s r]; [|by eauto]. rewrite En in Hne.
    rewrite app_nil_r in Eb. by subst b.
  - intros (s & r & ->). rewrite En. split.
    + apply Forall_app in Hb as [_ Hb]. unfold dir_text. rewrite En. destruct (decide (a = [])) as [->|Hna].
      * exists (join (ch "/") (s :: r)). by rewrite app_nil_l, display_cons.
      * rewrite trim_display_dir by done. exists (join (ch "/") (s :: r)).
        rewrite !display_cons, join_app by done. by rewrite <-!app_assoc.
    + intros E. apply display_inj in E; [|done..]. apply (f_equal length) in E.
      rewrite length_app in E. simpl in E. lia.
Qed.

(** ** Attaching *)

Lemma find_None {A} (p : A → bool) l : List.find p l = None ↔ ∀ a, a ∈ l → p a = false.
Proof.
  split; [intros E a Ha; by eapply List.find_none, list_elem_of_In|].
  intros Hp. destruct (List.find p l) as [a|] eqn:E; [|done].
  apply List.find_some in E as [Ha%list_elem_of_In E]. rewrite Hp in E by done. done.
Qed.

Lemma no_main_ref p db :
  bool_decide (is_Some (get_main_ref p db)) = false ↔
  ∀ k r, mega_refs db !! k = Some r → ref_name r = MEGA_BRANCH_NAME → ref_path r ≠ p.
Proof.
  rewrite bool_decide_eq_false, <-eq_None_not_Some. unfold get_main_ref. rewrite get_ref_None.
  naive_solver.
Qed.

(** The condition of the check: no main reference at the path or at a directory above it
    except the root, and none below it. *)
Definition unmaterialized (segs : list text) (db : MonoDb) : Prop :=
  ∀ k r q, mega_refs db !! k = Some r → ref_name r = MEGA_BRANCH_NAME →
    Forall plain_segment q → ref_path r = display_path q → q ≠ [] →
    (¬ q `prefix_of` segs) ∧ (is_cl r = false → ¬ segs `prefix_of` q).

Lemma no_descendants segs db :
  Forall plain_segment segs →
  (∀ k r, mega_refs db !! k = Some r → ref_name r = MEGA_BRANCH_NAME →
     ∃ q, Forall plain_segment q ∧ ref_path r = display_path q) →
  (list_descendant_main_refs (display_path segs) db = [] ↔
   ∀ k r q s t, mega_refs db !! k = Some r → ref_name r = MEGA_BRANCH_NAME → is_cl r = false →
     Forall plain_segment q → ref_path r = display_path q → q ≠ segs ++ s :: t).
Proof.
  intros Hs Hplain. unfold list_descendant_main_refs. split.
  - intros E k r q s t Hk Hn Hcl Hq Hp ->.
    assert (r ∈ select_refs (λ r, below (display_path segs) (ref_path r)
              && bool_decide (ref_name r = MEGA_BRANCH_NAME) && negb (is_cl r)) db) as Hin.
    { apply elem_of_select_refs. split; [|by eexists]. rewrite Hcl, bool_decide_eq_true_2, !andb_true_r by done.
      rewrite Hp. apply below_display; eauto. }
    rewrite E in Hin. by apply not_elem_of_nil in Hin.
  - intros Hn. destruct (select_refs _ db) as [|r l] eqn:E; [done|]. exfalso.
    assert (r ∈ select_refs (λ r, below (display_path segs) (ref_path r)
              && bool_decide (ref_name r = MEGA_BRANCH_NAME) && negb (is_cl r)) db) as Hin
      by (rewrite E; by constructor).
    apply elem_of_select_refs in Hin as [Hb [k Hk]]. bool_prop. destruct (Hplain k r Hk) as (q & Hq & Hp); [done|].
    rewrite Hp in *. destruct (below_display segs q Hs Hq) as [Hbd _]. destruct Hbd as (s & t & ->); [done|].
    by eapply Hn.
Qed.

(** Attaching an imported repository at a path is let through exactly when no main
    reference is materialised at the path, at a directory above it or below it: a
    reference at the root does not count, and the [LIKE] pattern of the code, with its
    escapes, compares whole components. *)
Theorem attach_precheck_exact path segs db :
  canonicalize_mono_ref_path path = inr (display_path segs) → Forall mono_segment segs →
  refs_inv db →
  (∀ k r, mega_refs db !! k = Some r → ref_name r = MEGA_BRANCH_NAME →
     ∃ q, Forall plain_segment q ∧ ref_path r = display_path q) →
  attach_materialization_precheck path db = Ok tt ↔ unmaterialized segs db.
Proof.
  intros Hcan Hms Hinv Hplain. pose proof (mono_plain segs Hms) as Hs.
  unfold attach_materialization_precheck. rewrite Hcan.
  pose proof (no_descendants segs db Hs Hplain) as Hdesc.
  assert (∀ (o : list MegaRef), match o with d :: _ => Err (AttachRefusedDescendant (ref_path d)) | [] => Ok tt end
            = Ok tt ↔ o = []) as Hmatch by (by intros []).
  assert (display_path segs = lit "/" ↔ segs = []) as Hroot.
  { split; [intros E; by apply (display_inj segs [])|by intros ->]. }
  destruct (bool_decide (display_path segs = lit "/")) eqn:E; bool_prop.
  - apply Hroot in E as ->. rewrite Hmatch, Hdesc. unfold unmaterialized. split.
    + intros Hn k r q Hk Hr Hq Hp Hne. split; [by intros ?%prefix_nil_inv|]. intros Hcl _.
      destruct q as [|s q]; [done|]. by eapply (Hn k r (s :: q) s q).
    + intros Hu k r q s t Hk Hr Hcl Hq Hp ->. destruct (Hu k r (s :: t) Hk Hr Hq Hp) as [_ Hx]; [done|].
      by apply Hx, prefix_nil.
  - destruct (bool_decide (is_Some (get_main_ref (display_path segs) db))) eqn:Et.
    + split; [done|]. intros Hu. exfalso. bool_prop. destruct Et as [r Hr]. unfold get_main_ref in Hr.
      apply get_ref_spec in Hr as (Hk & Hp & Hn); [|done].
      destruct (Hu _ r segs Hk Hn Hs Hp) as [Hx _]; [by intros ->; apply E|]. apply Hx. reflexivity.
    + rewrite no_main_ref in Et. destruct (first_materialized _ db) as [a|] eqn:Ea.
      * split; [done|]. intros Hu. exfalso. apply List.find_some in Ea as [Ha%list_elem_of_In Em].
        apply ancestors_spec in Ha as (q & s & t & -> & Hq & ->); [|done]. bool_prop.
        destruct Em as [r Hr]. unfold get_main_ref in Hr. apply get_ref_spec in Hr as (Hk & Hp & Hn); [|done].
        apply Forall_app in Hs as [Hsq _]. destruct (Hu _ r q Hk Hn Hsq Hp Hq) as [Hx _].
        apply Hx. by exists (s :: t).
      * unfold first_materialized in Ea. rewrite find_None in Ea. setoid_rewrite no_main_ref in Ea.
        rewrite Hmatch, Hdesc. unfold unmaterialized. split.
        -- intros Hn k r q Hk Hr Hq Hp Hne. split.
           ++ intros [[|s t] ->]; [by eapply Et; rewrite ?app_nil_r in *|].
              eapply (Ea (display_path q)); [|done..]. apply ancestors_spec; [done|by eauto 6].
           ++ intros Hcl [[|s t] ->]; [by eapply Et; rewrite ?app_nil_r in *|]. by eapply Hn.
        -- intros Hu k r q s t Hk Hr Hcl Hq Hp ->.
           destruct (Hu k r (segs ++ s :: t) Hk Hr Hq Hp) as [_ Hx]; [by destruct segs|].
           apply Hx; [done|]. by exists (s :: t).
Qed.

(** ** Uniqueness *)

(** Whatever operations run on an empty table, there is at most one reference with a
    given path and name, and a lookup by path and name finds exactly it. *)
Theorem refs_stay_unique db0 db p n r :
  mega_refs db0 = ∅ → rtc ref_step db0 db →
  refs_inv db
  ∧ (get_ref p n db = Some r ↔ mega_refs db !! ref_id r = Some r ∧ ref_path r = p ∧ ref_name r = n).
Proof.
  intros H0 Hs. assert (refs_inv db) as Hinv; [|split; [done|by apply get_ref_spec]].
  assert (refs_inv db0) as Hinv0 by (split; rewrite H0; intros *; by rewrite lookup_empty).
  revert Hinv0. clear H0. induction Hs as [db|db1 db2 db3 H1 _ IH]; [done|].
  intros Hinv. by eapply IH, ref_step_inv.
Qed.

(** ** The root *)

Lemma select_root ec et db :
  refs_inv db →
  (select_refs (is_root_at ec et) db = []
   ∧ ∀ k r, mega_refs db !! k = Some r → is_root_at ec et r = false)
  ∨ ∃ r, select_refs (is_root_at ec et) db = [r] ∧ mega_refs db !! ref_id r = Some r
         ∧ is_root_at ec et r = true
         ∧ ∀ k s, mega_refs db !! k = Some s → k ≠ ref_id r → is_root_at ec et s = false.
Proof.
  intros Hinv.
  assert (∀ k j r s, mega_refs db !! k = Some r → mega_refs db !! j = Some s →
            is_root_at ec et r = true → is_root_at ec et s = true → k = j) as Huniq.
  { intros k j r s Hk Hj Hr Hs. unfold is_root_at in Hr, Hs. bool_prop.
    repeat match goal with H : at_key _ _ _ = true |- _ => apply at_key_spec in H as [? ?] end.
    eapply (ri_key db Hinv k j r s); congruence. }
  destruct (select_refs (is_root_at ec et) db) as [|r l] eqn:E; [left|right].
  - split; [done|]. intros k r Hk. apply not_true_iff_false. intros Hr.
    assert (r ∈ select_refs (is_root_at ec et) db) as Hin by (apply elem_of_select_refs; eauto).
    rewrite E in Hin. by apply not_elem_of_nil in Hin.
  - assert (∀ s, s ∈ r :: l → is_root_at ec et s = true ∧ ∃ k, mega_refs db !! k = Some s) as Hall
      by (intros s; rewrite <-E; apply elem_of_select_refs).
    destruct (Hall r ltac:(by constructor)) as [Hr [k Hk]]. exists r.
    pose proof (row_at r db k Hinv Hk) as Hid. split; [|split_and!; [done|done|]].
    + assert (NoDup (r :: l)) as Hn by (rewrite <-E; by apply select_refs_NoDup).
      destruct l as [|s l]; [done|]. exfalso. destruct (Hall s ltac:(by right; left)) as [Hs [j Hj]].
      assert (k = j) as -> by (by eapply Huniq). apply NoDup_cons in Hn as [Hn _]. apply Hn.
      assert (r = s) as -> by congruence. by constructor.
    + intros j s Hj Hne. apply not_true_iff_false. intros Hs. apply Hne. by eapply Huniq.
Qed.

(** The compare-and-swap of the root succeeds exactly when the root reference is at
    the expected commit and tree; then it is at the new ones and nothing else has changed;
    otherwise nothing has. *)
Theorem root_cas_exact ec et nc nt now db :
  refs_inv db →
  match cas_update_root_main_ref ec et nc nt now db with
  | (db', true) =>
      ∃ r, mega_refs db !! ref_id r = Some r ∧ ref_path r = lit "/" ∧ ref_name r = MEGA_BRANCH_NAME
        ∧ ec = Some (ref_commit_hash r) ∧ et = Some (ref_tree_hash r)
        ∧ db' = with_refs (<[ref_id r := move_ref nc nt now r]> (mega_refs db)) db
  | (db', false) =>
      db' = db ∧ ∀ k r, mega_refs db !! k = Some r → ref_path r = lit "/" →
        ref_name r = MEGA_BRANCH_NAME → is_cl r = false →
        ¬ (ec = Some (ref_commit_hash r) ∧ et = Some (ref_tree_hash r))
  end.
Proof.
  intros Hinv. unfold cas_update_root_main_ref, update_refs.
  destruct (select_root ec et db Hinv) as [[-> Hnone]|(r & -> & Hr & Hroot & Hother)]; simpl.
  - split.
    + assert ((λ r, if is_root_at ec et r then move_ref nc nt now r else r) <$> mega_refs db = mega_refs db) as ->;
        [|by destruct db].
      apply map_eq. intros k. rewrite lookup_fmap. destruct (mega_refs db !! k) as [r|] eqn:E; [|done].
      simpl. by rewrite (Hnone k r E).
    + intros k r Hk Hp Hn Hcl [-> ->]. specialize (Hnone k r Hk). unfold is_root_at, at_key in Hnone.
      rewrite Hp, Hn, Hcl in Hnone. by repeat rewrite bool_decide_eq_true_2 in Hnone by done.
  - exists r. pose proof Hroot as Hb. unfold is_root_at in Hb. bool_prop.
    match goal with H : at_key _ _ _ = true |- _ => apply at_key_spec in H as [Hp Hn] end.
    split_and!; [done..|]. f_equal. apply map_eq. intros k. rewrite lookup_fmap.
    destruct (decide (k = ref_id r)) as [->|Hne].
    + rewrite lookup_insert_eq, Hr. simpl. by rewrite Hroot.
    + rewrite lookup_insert_ne by done. destruct (mega_refs db !! k) as [s|] eqn:E; [|done].
      simpl. by rewrite (Hother k s E Hne).
Qed.
