(* ===== verification/MonoAdvance.v ===== *)
(** * Monorepo storage: advancing the descendants of a path

    Models [advance_descendant_refs_with], [resolve_descendant_tree] and
    [load_tree_cached_with_kind] of [src/jupiter/storage/mono_storage.rs].  When the tree
    at a path changes, every materialised [main] reference below it gets a continuation
    commit on its new tree, or a tombstone if its directory is gone.  The code reads each
    tree once, skips a reference below one that it found unchanged, and stops the walk of
    a path where the old and the new tree have the same entry.

    [committed] are the commits outside the transaction, which the code reads for the
    committer of the previous commit; [sign] is the closure of the caller. *)
From stdpp Require Import base strings numbers tactics list gmap.
From S2P Require Import Prelude Text CommitMessage CanonicalJson GitObjects ViewCommit GitCommits TrunkProvenance.
From S2P Require Import MonoRefs MonoTrees.

Inductive DescendantResolve :=
  | Unchanged
  | Changed (hash : text)
  | DescendantGone.

Section Advance.
Context `{GitCommits}.

Inductive DescendantCommitStyle :=
  | Legacy
  | Trunk (plan : TrunkProvenance) (sign : Commit → option Commit).

Definition load_tree_cached (db : MonoDb) (hash : text) (cache : gmap text GitTree)
    : outcome MonoError (gmap text GitTree * option GitTree) :=
  match cache !! hash with
  | Some tree => Ok (cache, Some tree)
  | None =>
      match get_tree_by_hash db hash with
      | None => Ok (cache, None)
      | Some data =>
          tree ← map_err MonoConvert (tree_from_mega_model_with_kind hash data);
          Ok (<[hash := tree]> cache, Some tree)
      end
  end.

(** The entry of the old tree is the directory [next_new]. *)
Definition same_entry (component next_new : text) (old_tree : option GitTree) : bool :=
  match old_tree with
  | None => false
  | Some t =>
      match item_named component (tree_items t) with
      | Some it => bool_decide (item_mode it = ModeTree)
                   && bool_decide (hash_to_string (item_id it) = next_new)
      | None => false
      end
  end.

(** The first directory of that name. *)
Definition find_named_dir (component : text) (t : GitTree) : option text :=
  (λ it, hash_to_string (item_id it)) <$>
  List.find (λ it : item, bool_decide (item_name it = component) && bool_decide (item_mode it = ModeTree))
    (tree_items t).

Definition load_optional (db : MonoDb) (hash : option text) (cache : gmap text GitTree)
    : outcome MonoError (gmap text GitTree * option GitTree) :=
  match hash with None => Ok (cache, None) | Some h => load_tree_cached db h cache end.

Fixpoint resolve_components (db : MonoDb) (components : list text) (new_hash : text)
    (old_hash : option text) (cache : gmap text GitTree)
    : outcome MonoError (gmap text GitTree * DescendantResolve) :=
  match components with
  | [] => Ok (cache, Changed new_hash)
  | component :: components =>
      loaded ← load_tree_cached db new_hash cache;
      match loaded with
      | (cache, None) => Ok (cache, DescendantGone)
      | (cache, Some new_tree) =>
          match item_named component (tree_items new_tree) with
          | None => Ok (cache, DescendantGone)
          | Some it =>
              if negb (bool_decide (item_mode it = ModeTree)) then Ok (cache, DescendantGone)
              else
                let next_new := hash_to_string (item_id it) in
                compared ← load_optional db old_hash cache;
                if same_entry component next_new compared.2 then Ok (compared.1, Unchanged)
                else
                  stepped ← load_optional db old_hash compared.1;
                  resolve_components db components next_new
                    (t ← stepped.2; find_named_dir component t) stepped.1
          end
      end
  end.

Definition resolve_descendant_tree (db : MonoDb) (new_tree_hash : text) (old_tree_hash : option text)
    (relative : text) (cache : gmap text GitTree)
    : outcome MonoError (gmap text GitTree * DescendantResolve) :=
  resolve_components db (path_components relative) new_tree_hash old_tree_hash cache.

(** The committer of the commit the reference was at, if that commit is stored. *)
Definition previous_committer (committed : gmap text CommitRow) (row : MegaRef)
    : outcome MonoError (option Signature) :=
  match committed !! ref_commit_hash row with
  | None => Ok None
  | Some model =>
      c ← map_err MonoConvert (commit_from_mega_model_with_kind model);
      Ok (Some (c_committer c))
  end.

(** The continuation commit of a reference whose tree is now [new_hash]. *)
Definition continuation (committed : gmap text CommitRow) (style : DescendantCommitStyle)
    (row : MegaRef) (new_hash : text) : outcome MonoError Commit :=
  match from_hex_for_kind (ref_commit_hash row) with
  | None => Err (DescendantParentHash (ref_path row))
  | Some parent =>
      match from_hex_for_kind new_hash with
      | None => Err (DescendantTreeHash (ref_path row))
      | Some tree =>
          match style with
          | Legacy =>
              match commit_from_tree_id tree [parent]
                      (format_commit_msg (lit "trunk descendant continuation") None) with
              | Some c => Ok c
              | None => Err (DescendantSynthesis (ref_path row))
              end
          | Trunk plan sign =>
              prev ← previous_committer committed row;
              match commit_new (tp_author plan)
                      (committer_at_land (committer_name plan) (committer_email plan) prev (land_ts plan))
                      tree [parent] (layer_message plan (ref_path row)) with
              | None => Err TrunkSynthesis
              | Some unsigned =>
                  match sign unsigned with Some c => Ok c | None => Err SignFailed end
              end
          end
      end
  end.

Record AdvanceState := mk_AdvanceState {
  adv_cache : gmap text GitTree;
  adv_unchanged : list text;
  adv_updates : list RefUpdateData;
  adv_commits : list Commit;
  adv_db : MonoDb;
}.

Definition update_of (row : MegaRef) (new_hash : text) (c : Commit) : RefUpdateData :=
  mk_RefUpdateData (ref_path row) MEGA_BRANCH_NAME (hash_to_string (c_id c)) new_hash.

Section Loop.
Context (normalized new_tree_hash : text) (old_tree_hash : option text).
Context (committed : gmap text CommitRow) (style : DescendantCommitStyle) (now : Z).

(** The body of the loop over the candidates. *)
Definition advance_row (st : AdvanceState) (row : MegaRef) : outcome MonoError AdvanceState :=
  if existsb (path_is_under (ref_path row)) (adv_unchanged st) then Ok st
  else
    match descendant_relative normalized (ref_path row) with
    | None => Ok st
    | Some relative =>
        resolved ← resolve_descendant_tree (adv_db st) new_tree_hash old_tree_hash relative (adv_cache st);
        let '(cache, res) := resolved in
        match res with
        | Unchanged =>
            Ok (mk_AdvanceState cache (ref_path row :: adv_unchanged st) (adv_updates st)
                  (adv_commits st) (adv_db st))
        | Changed new_hash =>
            if bool_decide (new_hash = ref_tree_hash row) then
              Ok (mk_AdvanceState cache (ref_path row :: adv_unchanged st) (adv_updates st)
                    (adv_commits st) (adv_db st))
            else
              c ← continuation committed style row new_hash;
              Ok (mk_AdvanceState cache (adv_unchanged st) (adv_updates st ++ [update_of row new_hash c])
                    (adv_commits st ++ [c]) (adv_db st))
        | DescendantGone =>
            Ok (mk_AdvanceState cache (adv_unchanged st) (adv_updates st) (adv_commits st)
                  (fst (tombstone_and_delete_main_ref (ref_path row) now (adv_db st))))
        end
    end.

(** What is written after the loop. *)
Definition write_advance (updates : list RefUpdateData) (commits : list Commit) (db : MonoDb)
    : outcome MonoError MonoDb :=
  db1 ← match commits with [] => Ok db | _ => save_mega_commits commits db end;
  batch_update_by_path_in_txn updates now db1.
End Loop.

Definition advance_descendant_refs_with (path new_tree_hash : text) (old_tree_hash : option text)
    (committed : gmap text CommitRow) (style : DescendantCommitStyle) (now : Z) (db : MonoDb)
    : outcome MonoError MonoDb :=
  let normalized := normalize_query path in
  let candidates := descendant_main_refs normalized db in
  if bool_decide (candidates = []) then Ok db
  else
    st ← foldM (advance_row normalized new_tree_hash old_tree_hash committed style now)
           (mk_AdvanceState ∅ [] [] [] db) candidates;
    write_advance now (adv_updates st) (adv_commits st) (adv_db st).
End Advance.
Arguments DescendantCommitStyle {_} : assert.
