(* ===== verification/MonoAdvanceInv.v ===== *)
(** * Advancing descendants: the cache and the pruning are sound

    The loop of [advance_descendant_refs_with] does what a loop without a cache and
    without pruning does, which resolves every reference in the new tree. *)
From stdpp Require Import base strings numbers tactics list gmap.
From S2P Require Import Prelude Text FilterSyntax FilterCanonical FilterSemantics MonoPath CommitMessage.
From S2P Require Import CanonicalJson GitObjects ViewCommit GitCommits TrunkProvenance MonoRefs MonoTrees.
From S2P Require Import MonoRefsInv MonoAdvance.

Section Inv.
Context `{GitCommits}.

(** ** Trees *)

(** Every row is a tree that can be read. *)
Definition trees_ok (db : MonoDb) : Prop :=
  ∀ h d, mega_tree db !! h = Some d → ∃ t, tree_from_mega_model_with_kind h d = Ok t.

Definition stored_tree (db : MonoDb) (h : text) : option GitTree :=
  d ← mega_tree db !! h;
  match tree_from_mega_model_with_kind h d with Ok t => Some t | _ => None end.

(** The directory that the components lead to. *)
Fixpoint tree_below (db : MonoDb) (h : text) (cs : list text) : option text :=
  match cs with
  | [] => Some h
  | c :: cs => t ← stored_tree db h; h' ← find_dir c (tree_items t); tree_below db h' cs
  end.

Lemma tree_below_app db h cs cs' :
  tree_below db h (cs ++ cs') = h' ← tree_below db h cs; tree_below db h' cs'.
Proof.
  revert h. induction cs as [|c cs IH]; intros h; [done|]. simpl.
  destruct (stored_tree db h); [|done]. simpl. destruct (find_dir c _); [|done]. apply IH.
Qed.

Definition cache_ok (db : MonoDb) (cache : gmap text GitTree) : Prop :=
  ∀ h t, cache !! h = Some t → stored_tree db h = Some t.

Lemma load_spec db h cache :
  trees_ok db → cache_ok db cache →
  ∃ cache', load_tree_cached db h cache = Ok (cache', stored_tree db h) ∧ cache_ok db cache'.
Proof.
  intros Hok Hc. unfold load_tree_cached. destruct (cache !! h) as [t|] eqn:E.
  - exists cache. by rewrite (Hc h t E).
  - unfold get_tree_by_hash, stored_tree. destruct (mega_tree db !! h) as [d|] eqn:Ed; simpl; [|by eauto].
    destruct (Hok h d Ed) as [t Ht]. rewrite Ht. simpl. eexists. split; [done|].
    intros h' t'. rewrite lookup_insert_Some. intros [[<- <-]|[_ Hl]]; [|by apply Hc].
    unfold stored_tree. rewrite Ed. simpl. by rewrite Ht.
Qed.

Lemma load_optional_spec db o cache :
  trees_ok db → cache_ok db cache →
  ∃ cache', load_optional db o cache = Ok (cache', o ≫= stored_tree db) ∧ cache_ok db cache'.
Proof. intros Hok Hc. destruct o as [h|]; simpl; [by apply load_spec|by eauto]. Qed.

Lemma find_dir_Some c its h :
  find_dir c its = Some h ↔
  ∃ it, item_named c its = Some it ∧ item_mode it = ModeTree ∧ hash_to_string (item_id it) = h.
Proof.
  unfold find_dir. destruct (item_named c its) as [it|]; [|naive_solver].
  destruct (bool_decide _) eqn:E; bool_prop; naive_solver.
Qed.

(** When the first entry of the name is a directory, the search for a directory of the
    name finds it. *)
Lemma find_named_dir_first c t h : find_dir c (tree_items t) = Some h → find_named_dir c t = Some h.
Proof.
  intros (it & Hf & Hm & <-)%find_dir_Some. unfold find_named_dir, item_named in *.
  induction (tree_items t) as [|i its IH]; simpl in *; [done|].
  destruct (bool_decide (item_name i = c)); simpl; [|by apply IH].
  injection Hf as ->. rewrite Hm. done.
Qed.

Lemma same_entry_spec c n t h :
  find_dir c (tree_items t) = Some h → same_entry c n (Some t) = bool_decide (h = n).
Proof.
  intros (it & Hf & Hm & <-)%find_dir_Some. unfold same_entry. rewrite Hf, Hm. done.
Qed.

(** The walk of one reference.  [old] is the tree in which the reference is known to
    resolve, if there is one. *)
Definition resolved (db : MonoDb) (cs : list text) (new : text) (old : option text)
    (res : DescendantResolve) : Prop :=
  match res with
  | Changed h => tree_below db new cs = Some h
  | DescendantGone => tree_below db new cs = None
  | Unchanged => ∃ o, old = Some o ∧ tree_below db new cs = tree_below db o cs
  end.

Lemma resolve_components_spec db cs new old cache :
  trees_ok db → cache_ok db cache → (∀ o, old = Some o → is_Some (tree_below db o cs)) →
  ∃ cache' res, resolve_components db cs new old cache = Ok (cache', res)
    ∧ cache_ok db cache' ∧ resolved db cs new old res.
Proof.
  intros Hok. revert new old cache. induction cs as [|c cs IH]; intros new old cache Hc Hold.
  { exists cache, (Changed new). done. }
  cbn [resolve_components]. destruct (load_spec db new cache Hok Hc) as (c1 & -> & Hc1).
  cbn [mbind outcome_bind]. unfold resolved. cbn [tree_below].
  destruct (stored_tree db new) as [nt|]; [|by exists c1, DescendantGone].
  destruct (item_named c (tree_items nt)) as [it|] eqn:Ei; cbn.
  2: { exists c1, DescendantGone. unfold find_dir. by rewrite Ei. }
  destruct (bool_decide (item_mode it = ModeTree)) eqn:Em; cbn; bool_prop.
  2: { exists c1, DescendantGone. unfold find_dir. rewrite Ei, bool_decide_eq_false_2 by done. done. }
  assert (find_dir c (tree_items nt) = Some (hash_to_string (item_id it))) as ->
    by (apply find_dir_Some; eauto).
  destruct (load_optional_spec db old c1 Hok Hc1) as (c2 & -> & Hc2). cbn [mbind outcome_bind fst snd].
  destruct (load_optional_spec db old c2 Hok Hc2) as (c3 & -> & Hc3).
  destruct old as [o|]; cbn [mbind outcome_bind option_bind fst snd].
  - destruct (Hold o eq_refl) as [x Hx]. cbn in Hx. apply bind_Some in Hx as (ot & Hot & Hx).
    apply bind_Some in Hx as (h' & Hh' & Hx). rewrite Hot.
    rewrite (same_entry_spec c _ ot h' Hh').
    destruct (bool_decide (h' = _)) eqn:Es; bool_prop.
    + exists c2, Unchanged. split; [done|]. split; [done|]. exists o. split; [done|].
      rewrite Hot. cbn. by rewrite Hh', Es.
    + cbn [mbind outcome_bind option_bind fst snd]. rewrite (find_named_dir_first c ot h' Hh').
      destruct (IH (hash_to_string (item_id it)) (Some h') c3 Hc3) as (c4 & res & -> & Hc4 & Hres).
      { intros o' [= <-]. by exists x. }
      exists c4, res. split; [done|]. split; [done|]. destruct res; [|done..].
      destruct Hres as (o' & [= <-] & ->). exists o. split; [done|]. rewrite Hot. cbn. by rewrite Hh'.
  - destruct (IH (hash_to_string (item_id it)) None c3 Hc3 ltac:(done)) as (c4 & res & -> & Hc4 & Hres).
    exists c4, res. split; [done|]. split; [done|]. destruct res; [|done..]. by destruct Hres as (? & ? & _).
Qed.

(** ** The loop *)

Lemma load_tree_trees d db h cache :
  mega_tree d = mega_tree db → load_tree_cached d h cache = load_tree_cached db h cache.
Proof. intros E. unfold load_tree_cached, get_tree_by_hash. by rewrite E. Qed.

Lemma resolve_components_trees d db cs new old cache :
  mega_tree d = mega_tree db →
  resolve_components d cs new old cache = resolve_components db cs new old cache.
Proof.
  intros E. revert new old cache.
  assert (∀ o c, load_optional d o c = load_optional db o c) as Eo
    by (intros [h|] c; [by apply load_tree_trees|done]).
  induction cs as [|c cs IH]; intros new old cache; [done|]. cbn [resolve_components].
  rewrite (load_tree_trees d db) by done.
  destruct (load_tree_cached db new cache) as [[c1 [t|]]| | |]; try done. cbn [mbind outcome_bind].
  destruct (item_named c (tree_items t)); [|done]. destruct (negb _); [done|]. rewrite Eo.
  destruct (load_optional db old c1) as [[c2 ot]| | |]; try done. cbn [mbind outcome_bind fst snd].
  destruct (same_entry _ _ _); [done|]. rewrite Eo.
  destruct (load_optional db old c2) as [[c3 ot']| | |]; try done. apply IH.
Qed.

Section Loop.
Context (path new : text) (old : option text).
Context (committed : gmap text CommitRow) (style : DescendantCommitStyle) (now : Z) (db : MonoDb).
Abbreviation norm := (normalize_query path).

(** What the new tree has where a reference is. *)
Definition new_tree_of (row : MegaRef) : option (option text) :=
  rel ← descendant_relative norm (ref_path row); Some (tree_below db new (path_components rel)).

Definition reference_row (acc : list RefUpdateData * list Commit * MonoDb) (row : MegaRef)
    : outcome MonoError (list RefUpdateData * list Commit * MonoDb) :=
  let '(updates, commits, d) := acc in
  match new_tree_of row with
  | None => Ok acc
  | Some None => Ok (updates, commits, fst (tombstone_and_delete_main_ref (ref_path row) now d))
  | Some (Some h) =>
      if bool_decide (h = ref_tree_hash row) then Ok acc
      else c ← continuation committed style row h;
           Ok (updates ++ [update_of row h c], commits ++ [c], d)
  end.

(** The operation without a cache and without pruning. *)
Definition advance_reference : outcome MonoError MonoDb :=
  acc ← foldM reference_row ([], [], db) (descendant_main_refs norm db);
  write_advance now acc.1.1 acc.1.2 acc.2.

(** Every candidate is at its place in the tree [base]. *)
Definition consistent (base : text) : Prop :=
  ∀ row rel, row ∈ descendant_main_refs norm db → descendant_relative norm (ref_path row) = Some rel →
    tree_below db base (path_components rel) = Some (ref_tree_hash row).

Context (base : text) (Hok : trees_ok db) (Hbase : consistent base).
Context (Hold : ∀ o, old = Some o → o = base).

Definition steady (u : text) : Prop :=
  ∃ rel h, descendant_relative norm u = Some rel
    ∧ tree_below db new (path_components rel) = Some h ∧ tree_below db base (path_components rel) = Some h.

Record loop_inv (st : AdvanceState) : Prop := {
  li_cache : cache_ok db (adv_cache st);
  li_trees : mega_tree (adv_db st) = mega_tree db;
  li_unchanged u : u ∈ adv_unchanged st → steady u;
}.

Definition proj (st : AdvanceState) := (adv_updates st, adv_commits st, adv_db st).

Lemma norm_nonempty : norm ≠ [].
Proof. unfold normalize_query. destruct (bool_decide _) eqn:E; bool_prop; done. Qed.

(** A reference below one that has not changed has not changed. *)
Lemma pruned u p rel :
  steady u → path_is_under p u = true → descendant_relative norm p = Some rel →
  tree_below db new (path_components rel) = tree_below db base (path_components rel).
Proof.
  intros (rel0 & h & Hu & Hn & Hb) [cs Hcs]%path_is_under_components Hp.
  apply (relative_components _ _ _ norm_nonempty) in Hu, Hp.
  assert (path_components rel = path_components rel0 ++ cs) as ->.
  { rewrite Hu, <-app_assoc, Hp in Hcs. by apply app_inv_head in Hcs. }
  by rewrite !tree_below_app, Hn, Hb.
Qed.

Lemma tombstone_trees p d : mega_tree (fst (tombstone_and_delete_main_ref p now d)) = mega_tree d.
Proof. unfold tombstone_and_delete_main_ref. by destruct (get_main_ref p d). Qed.

Lemma advance_row_spec st row :
  loop_inv st → row ∈ descendant_main_refs norm db →
  match advance_row norm new old committed style now st row with
  | Ok st' => reference_row (proj st) row = Ok (proj st') ∧ loop_inv st'
  | Err e => reference_row (proj st) row = Err e
  | Panic => reference_row (proj st) row = Panic
  | OutOfFuel => reference_row (proj st) row = OutOfFuel
  end.
Proof.
  intros [Hc Ht Hu] Hrow. unfold advance_row, reference_row, new_tree_of, proj.
  destruct (descendant_relative norm (ref_path row)) as [rel|] eqn:Er; cbn [mbind option_bind].
  2: { by destruct (existsb _ _). }
  specialize (Hbase row rel Hrow Er).
  destruct (existsb _ _) eqn:Ep.
  { apply existsb_exists in Ep as (u & Hin%list_elem_of_In & Hund).
    rewrite (pruned u (ref_path row) rel), Hbase by auto. by rewrite bool_decide_eq_true_2. }
  unfold resolve_descendant_tree. rewrite (resolve_components_trees _ db) by done.
  destruct (resolve_components_spec db (path_components rel) new old (adv_cache st) Hok Hc)
    as (cache & res & -> & Hc' & Hres).
  { intros o Ho. rewrite (Hold o Ho). by eexists. }
  cbn [mbind outcome_bind]. destruct res as [|h|]; cbn in Hres.
  - destruct Hres as (o & Ho & Hres). rewrite (Hold o Ho), Hbase in Hres. rewrite Hres.
    rewrite bool_decide_eq_true_2 by done. split; [done|]. split; [done|done|]. simpl.
    intros u [->|Hin]%elem_of_cons; [|by apply Hu]. exists rel, (ref_tree_hash row). done.
  - rewrite Hres. destruct (bool_decide (h = ref_tree_hash row)) eqn:Eh; bool_prop.
    + split; [done|]. split; [done|done|]. simpl.
      intros u [->|Hin]%elem_of_cons; [|by apply Hu]. exists rel, (ref_tree_hash row). by subst h.
    + by destruct (continuation committed style row h).
  - rewrite Hres. split; [done|]. split; [done| |done]. simpl. by rewrite tombstone_trees.
Qed.

Lemma loop_spec rows st :
  loop_inv st → (∀ r, r ∈ rows → r ∈ descendant_main_refs norm db) →
  (s ← foldM (advance_row norm new old committed style now) st rows; Ok (proj s))
  = foldM reference_row (proj st) rows.
Proof.
  revert st. induction rows as [|r rows IH]; intros st Hst Hrows; [done|]. cbn [foldM].
  pose proof (advance_row_spec st r Hst (Hrows r ltac:(by constructor))) as Hr.
  destruct (advance_row _ _ _ _ _ _ st r) as [st'| | |]; [|by rewrite Hr..].
  destruct Hr as [-> Hst']. cbn [mbind outcome_bind]. apply IH; [done|].
  intros r' Hr'. apply Hrows. by constructor.
Qed.

(** The cache and the pruning change nothing. *)
Lemma advance_is_reference :
  advance_descendant_refs_with path new old committed style now db = advance_reference.
Proof.
  unfold advance_descendant_refs_with, advance_reference.
  destruct (bool_decide _) eqn:E; bool_prop; [by rewrite E|].
  rewrite <-(loop_spec _ (mk_AdvanceState ∅ [] [] [] db)); [| |done].
  - by destruct (foldM _ _ _).
  - split; [|done|by intros u ?%not_elem_of_nil]. intros h t Ht. cbn in Ht. by rewrite lookup_empty in Ht.
Qed.
End Loop.
End Inv.
