(* ===== verification/MonoAdvanceTheorems.v ===== *)
(** * Advancing descendants: where every reference ends up *)
From stdpp Require Import base strings numbers tactics list gmap.
From S2P Require Import Prelude Text FilterSyntax FilterCanonical FilterSemantics MonoPath CommitMessage.
From S2P Require Import CanonicalJson GitObjects ViewCommit GitCommits TrunkProvenance MonoRefs MonoTrees.
From S2P Require Import MonoRefsInv MonoAdvance MonoAdvanceInv.

(** ** Deleting and updating rows *)

Definition bury (now : Z) (d : MonoDb) (r : MegaRef) : MonoDb :=
  fst (tombstone_and_delete_main_ref (ref_path r) now d).

Definition main_row (d : MonoDb) (r : MegaRef) : Prop :=
  mega_refs d !! ref_id r = Some r ∧ ref_name r = MEGA_BRANCH_NAME.

Lemma bury_row now d r :
  refs_inv d → main_row d r →
  bury now d r = remove_ref r (upsert_tombstone (ref_path r) MEGA_BRANCH_NAME (ref_commit_hash r)
                                 (ref_tree_hash r) now d).
Proof.
  intros Hinv [Hr Hn]. unfold bury, tombstone_and_delete_main_ref, get_main_ref.
  assert (get_ref (ref_path r) MEGA_BRANCH_NAME d = Some r) as -> by (by apply get_ref_spec). done.
Qed.

(** The tombstone a reference leaves. *)
Definition tombstone_of (now : Z) (r : MegaRef) : Tombstone :=
  mk_Tombstone (ref_commit_hash r) (ref_tree_hash r) now.

Record buried (now : Z) (rows : list MegaRef) (d d' : MonoDb) : Prop := {
  bu_inv : refs_inv d';
  bu_gone r : r ∈ rows → mega_refs d' !! ref_id r = None;
  bu_kept k : (∀ r, r ∈ rows → ref_id r ≠ k) → mega_refs d' !! k = mega_refs d !! k;
  bu_tombstones r : r ∈ rows → tombstones d' !! (ref_path r, MEGA_BRANCH_NAME) = Some (tombstone_of now r);
  bu_commits : mega_commit d' = mega_commit d;
}.

Lemma bury_all_other now rows p d :
  (∀ t, t ∈ rows → ref_path t ≠ p) →
  tombstones (foldl (bury now) d rows) !! (p, MEGA_BRANCH_NAME) = tombstones d !! (p, MEGA_BRANCH_NAME).
Proof.
  revert d. induction rows as [|t rows IH]; intros d Hp; [done|]. simpl. rewrite IH.
  - unfold bury, tombstone_and_delete_main_ref. destruct (get_main_ref _ _); [|done]. simpl.
    apply lookup_insert_ne. intros [= E]. by apply (Hp t); [constructor|].
  - intros t' Ht'. apply Hp. by constructor.
Qed.

Lemma bury_all now rows d :
  refs_inv d → NoDup (ref_id <$> rows) → NoDup (ref_path <$> rows) → Forall (main_row d) rows →
  buried now rows d (foldl (bury now) d rows).
Proof.
  revert d. induction rows as [|r rows IH]; intros d Hinv Hn Hp Hrows; simpl.
  { split; [done|set_solver|done|set_solver|done]. }
  apply NoDup_cons in Hn as [Hr Hn]. apply NoDup_cons in Hp as [Hrp Hp].
  apply Forall_cons in Hrows as [Hmain Hrows].
  pose proof (tombstone_delete_inv (ref_path r) now d Hinv) as Hinv'. fold (bury now d r) in Hinv'.
  rewrite (bury_row now d r Hinv Hmain) in *. set (d1 := remove_ref r _) in *.
  assert (∀ s, s ∈ rows → ref_id s ≠ ref_id r) as Hids.
  { intros s Hs E. apply Hr. rewrite <-E. by apply list_elem_of_fmap_2. }
  destruct (IH d1 Hinv' Hn Hp) as [Ii Ig Ik It Ic].
  { rewrite Forall_forall in *. intros s Hs. destruct (Hrows s Hs) as [Hl Hm].
    split; [|done]. simpl. rewrite lookup_delete_ne by (specialize (Hids s Hs); congruence). done. }
  split; [done| | | |done].
  - intros s [->|Hs]%elem_of_cons; [|by apply Ig]. rewrite Ik by done. apply lookup_delete_eq.
  - intros k Hk. rewrite Ik by (intros s Hs; apply Hk; by constructor).
    apply lookup_delete_ne. apply Hk. by constructor.
  - intros s [->|Hs]%elem_of_cons; [|by apply It].
    assert (∀ t, t ∈ rows → ref_path t ≠ ref_path r) as Hpaths.
    { intros t Ht E. apply Hrp. rewrite <-E. by apply list_elem_of_fmap_2. }
    rewrite bury_all_other by done. simpl. apply lookup_insert_eq.
Qed.

(** *** Batches *)

Definition up_key (u : RefUpdateData) : text * text := (up_path u, up_ref_name u).
Definition row_key_of (r : MegaRef) : text * text := (ref_path r, ref_name r).

(** The row after a batch. *)
Definition moved (us : list RefUpdateData) (now : Z) (r : MegaRef) : MegaRef :=
  match List.find (λ u, bool_decide (up_key u = row_key_of r)) us with
  | Some u => move_ref (up_commit_id u) (up_tree_hash u) now r
  | None => r
  end.

Lemma moved_key us now r : row_key_of (moved us now r) = row_key_of r.
Proof. unfold moved. by destruct (List.find _ us). Qed.

Lemma moved_none us now r : row_key_of r ∉ (up_key <$> us) → moved us now r = r.
Proof.
  intros Hn. unfold moved. destruct (List.find _ us) as [u|] eqn:E; [|done].
  apply List.find_some in E as [Hin%list_elem_of_In E]. bool_prop. exfalso. apply Hn.
  rewrite <-E. by apply list_elem_of_fmap_2.
Qed.

Lemma moved_some us now r u :
  NoDup (up_key <$> us) → u ∈ us → up_key u = row_key_of r →
  moved us now r = move_ref (up_commit_id u) (up_tree_hash u) now r.
Proof.
  intros Hn Hu Hk. unfold moved. induction us as [|v us IH]; [by apply not_elem_of_nil in Hu|].
  apply NoDup_cons in Hn as [Hv Hn]. simpl. destruct (bool_decide _) eqn:E; bool_prop.
  - apply elem_of_cons in Hu as [->|Hu]; [done|]. exfalso. apply Hv. rewrite E, <-Hk.
    by apply list_elem_of_fmap_2.
  - apply elem_of_cons in Hu as [->|Hu]; [done|by apply IH].
Qed.

Lemma update_from_map_spec m now us d :
  refs_inv d → NoDup (up_key <$> us) →
  (∀ u, u ∈ us → ∃ r s, m !! up_key u = Some r ∧ mega_refs d !! ref_id r = Some s
                        ∧ row_key_of s = up_key u) →
  update_from_map m now us d = Ok (with_refs (moved us now <$> mega_refs d) d).
Proof.
  revert d. induction us as [|u us IH]; intros d Hinv Hn Hm; simpl.
  { assert (moved [] now <$> mega_refs d = mega_refs d) as ->; [|by destruct d].
    rewrite <-(map_fmap_id (mega_refs d)) at 2. done. }
  apply NoDup_cons in Hn as [Hu Hn].
  destruct (Hm u ltac:(by constructor)) as (r & s & Hr & Hs & Hk). unfold up_key in Hr. rewrite Hr.
  unfold update_ref_by_id. rewrite Hs. cbn [mbind outcome_bind].
  set (s' := move_ref _ _ now s). set (d1 := with_refs _ d).
  assert (refs_inv d1) as Hinv1.
  { eapply (update_by_id_inv (ref_id r) (up_commit_id u) (up_tree_hash u) now d); [|done].
    unfold update_ref_by_id. by rewrite Hs. }
  rewrite IH; [|done|done|].
  - f_equal. unfold d1, with_refs. simpl. f_equal. rewrite fmap_insert. apply map_eq. intros k.
    rewrite lookup_fmap. destruct (decide (k = ref_id r)) as [->|Hne].
    + rewrite lookup_insert_eq, Hs. simpl. f_equal. rewrite moved_none.
      * unfold moved. simpl. by rewrite bool_decide_eq_true_2 by done.
      * change (row_key_of s') with (row_key_of s). by rewrite Hk.
    + rewrite lookup_insert_ne, lookup_fmap by done. destruct (mega_refs d !! k) as [t|] eqn:Et; [|done].
      simpl. f_equal. unfold moved. simpl. rewrite bool_decide_eq_false_2; [done|]. intros E.
      apply Hne. unfold row_key_of in *. rewrite <-Hk in E. injection E as E1 E2.
      eapply (ri_key d Hinv k (ref_id r) t s); done.
  - intros v Hv. destruct (Hm v ltac:(by constructor)) as (r2 & s2 & Hr2 & Hs2 & Hk2).
    exists r2. simpl. destruct (decide (ref_id r2 = ref_id r)) as [E|Hne].
    + exists s'. rewrite E, lookup_insert_eq. split; [done|]. split; [done|].
      change (row_key_of s') with (row_key_of s). rewrite E, Hs in Hs2. by injection Hs2 as ->.
    + exists s2. by rewrite lookup_insert_ne.
Qed.

Lemma ref_map_lookup us d u r :
  refs_inv d → u ∈ us → mega_refs d !! ref_id r = Some r → row_key_of r = up_key u →
  ref_map us d !! up_key u = Some r.
Proof.
  intros Hinv Hu Hr Hk. unfold ref_map. apply elem_of_list_to_map'.
  - intros r' _ Hin. rewrite elem_of_reverse in Hin. apply list_elem_of_fmap in Hin as (s & Es & Hs).
    apply elem_of_select_refs in Hs as [_ [k Hs]].
    unfold row_key_of, up_key in *. injection Hk as K1 K2. injection Es as E1 E2 ->.
    assert (ref_id r = k) as E by (apply (ri_key d Hinv _ _ r s); congruence). congruence.
  - rewrite elem_of_reverse. apply list_elem_of_fmap. exists r. rewrite <-Hk. split; [done|].
    apply elem_of_select_refs. split; [|by eexists]. apply existsb_exists. exists u.
    split; [by apply list_elem_of_In|]. apply at_key_spec. unfold row_key_of, up_key in Hk.
    injection Hk as K1 K2. done.
Qed.

Lemma batch_update_spec us now d :
  refs_inv d → NoDup (up_key <$> us) →
  (∀ u, u ∈ us → ∃ r, mega_refs d !! ref_id r = Some r ∧ row_key_of r = up_key u) →
  batch_update_by_path_in_txn us now d = Ok (with_refs (moved us now <$> mega_refs d) d).
Proof.
  intros Hinv Hn Hr. unfold batch_update_by_path_in_txn. destruct (bool_decide _) eqn:E; bool_prop.
  - subst us. f_equal. assert (moved [] now <$> mega_refs d = mega_refs d) as ->; [|by destruct d].
    rewrite <-(map_fmap_id (mega_refs d)) at 2. done.
  - apply update_from_map_spec; [done|done|]. intros u Hu. destruct (Hr u Hu) as (r & Hl & Hk).
    exists r, r. split; [by apply ref_map_lookup|done].
Qed.

Lemma insert_absent_mono (rows : list CommitRow) (m : gmap text CommitRow) (k : text) :
  is_Some (m !! k) → is_Some (foldl (λ m row, insert_absent (commit_id row) row m) m rows !! k).
Proof.
  revert m. induction rows as [|row rows IH]; intros m Hk; [done|]. simpl. apply IH.
  unfold insert_absent. destruct (m !! commit_id row) eqn:E; [done|]. by apply lookup_insert_is_Some'; right.
Qed.

(** ** The loop *)

Section Post.
Context `{GitCommits}.
Context (path new : text) (committed : gmap text CommitRow) (style : DescendantCommitStyle) (now : Z).
Context (db : MonoDb).
Abbreviation norm := (normalize_query path).
Abbreviation fate := (new_tree_of path new db).

Definition is_gone (r : MegaRef) : bool := match fate r with Some None => true | _ => false end.
Definition is_moving (r : MegaRef) : bool :=
  match fate r with Some (Some h) => negb (bool_decide (h = ref_tree_hash r)) | _ => false end.

(** A reference that moves has a continuation commit that can be stored. *)
Definition continues (rows : list MegaRef) : Prop :=
  ∀ r h, r ∈ rows → fate r = Some (Some h) → h ≠ ref_tree_hash r →
    ∃ c row, continuation committed style r h = Ok c ∧ commit_into_mega_model c = Some row.

(** The update of a row, with its commit among the new ones. *)
Definition update_for (commits : list Commit) (r : MegaRef) (u : RefUpdateData) : Prop :=
  ∃ h c, fate r = Some (Some h) ∧ h ≠ ref_tree_hash r ∧ continuation committed style r h = Ok c
         ∧ u = update_of r h c ∧ c ∈ commits.

Definition storable_commits (cs : list Commit) : Prop :=
  Forall (λ c, is_Some (commit_into_mega_model c)) cs.

Lemma reference_loop rows us cs d :
  continues rows → storable_commits cs →
  ∃ us' cs', foldM (reference_row path new committed style now db) (us, cs, d) rows
      = Ok (us ++ us', cs ++ cs', foldl (bury now) d (List.filter is_gone rows))
    ∧ Forall2 (update_for cs') (List.filter is_moving rows) us' ∧ storable_commits (cs ++ cs').
Proof.
  revert us cs d. induction rows as [|r rows IH]; intros us cs d Hc Hcs.
  { exists [], []. rewrite !app_nil_r. done. }
  assert (continues rows) as Hc' by (intros r' h Hr'; apply Hc; by constructor).
  cbn [foldM List.filter reference_row]. unfold is_gone at 1, is_moving at 1.
  destruct (fate r) as [[h|]|] eqn:Ef.
  - destruct (bool_decide (h = ref_tree_hash r)) eqn:Eh; bool_prop; cbn [negb mbind outcome_bind].
    { by apply IH. }
    destruct (Hc r h ltac:(by constructor) Ef Eh) as (c & row & Ec & Erow). rewrite Ec.
    cbn [mbind outcome_bind].
    destruct (IH (us ++ [update_of r h c]) (cs ++ [c]) d Hc') as (us' & cs' & -> & Hf & Hs).
    { apply Forall_app. split; [done|]. constructor; [by eexists|constructor]. }
    exists (update_of r h c :: us'), (c :: cs'). rewrite <-!app_assoc in *. split; [done|].
    split; [|done]. constructor; [exists h, c; split_and!; [done..|by constructor]|].
    eapply Forall2_impl; [exact Hf|]. intros r' u (h' & c' & ? & ? & ? & ? & ?).
    exists h', c'. split_and!; [done..|by constructor].
  - cbn [mbind outcome_bind]. destruct (IH us cs (bury now d r) Hc' Hcs) as (us' & cs' & E & ?).
    exists us', cs'. split; [exact E|done].
  - by apply IH.
Qed.

Lemma save_commits_spec cs d :
  storable_commits cs →
  ∃ m, save_mega_commits cs d = Ok (with_commits m d)
    ∧ ∀ c, c ∈ cs → is_Some (m !! hash_to_string (c_id c)).
Proof.
  intros Hs. unfold save_mega_commits.
  assert (∃ rows, mapM (λ c, or_panic (commit_into_mega_model c)) cs = Ok rows
            ∧ Forall2 (λ c row, commit_id row = hash_to_string (c_id c)) cs rows) as (rows & -> & Hrows).
  { induction Hs as [|c cs [row Hrow] Hs (rows & IH & IHf)]; [by exists []|].
    exists (row :: rows). cbn [mapM]. rewrite Hrow. cbn. rewrite IH. split; [done|]. constructor; [|done].
    revert Hrow. unfold commit_into_mega_model. destruct (signature_text (c_author c)); [|done].
    cbn. destruct (signature_text (c_committer c)); [|done]. cbn. by intros [= <-]. }
  cbn [mbind outcome_bind]. eexists. split; [done|]. generalize (mega_commit d). clear Hs.
  induction Hrows as [|c row cs rows Hid Hrows IH]; intros m c' Hc'; [by apply not_elem_of_nil in Hc'|].
  apply elem_of_cons in Hc' as [->|Hc']; [|by apply IH].
  simpl. apply insert_absent_mono. rewrite Hid. unfold insert_absent.
  destruct (m !! hash_to_string (c_id c)) eqn:E; [by eexists|]. rewrite lookup_insert_eq. by eexists.
Qed.

(** ** Candidates *)

Lemma elem_of_candidates r :
  r ∈ descendant_main_refs norm db ↔
  (∃ k, mega_refs db !! k = Some r) ∧ below norm (ref_path r) = true
  ∧ ref_name r = MEGA_BRANCH_NAME ∧ is_cl r = false.
Proof.
  unfold descendant_main_refs. rewrite (sort_by_perm _ _ _).
  unfold list_descendant_main_refs. rewrite elem_of_select_refs, !andb_true_iff, negb_true_iff,
    bool_decide_eq_true. tauto.
Qed.

Context (Hinv : refs_inv db).

Lemma candidate_row r : r ∈ descendant_main_refs norm db → main_row db r.
Proof. intros ([k Hk] & _ & Hn & _)%elem_of_candidates. split; [by eapply row_at|done]. Qed.

Lemma candidates_ids : NoDup (ref_id <$> descendant_main_refs norm db).
Proof.
  unfold descendant_main_refs, list_descendant_main_refs. rewrite (sort_by_perm _ _ _).
  apply (sublist_NoDup _ (ref_id <$> ref_rows db)); [by apply ref_ids_NoDup|].
  apply fmap_sublist, filter_sublist.
Qed.

Lemma candidates_paths : NoDup (ref_path <$> descendant_main_refs norm db).
Proof.
  apply NoDup_fmap_2_strong; [|by eapply NoDup_fmap_1, candidates_ids].
  intros r s [Hr Hrn]%candidate_row [Hs Hsn]%candidate_row E.
  assert (ref_id r = ref_id s) as Ei by (eapply (ri_key db Hinv _ _ r s); congruence). congruence.
Qed.

(** ** Where the references are afterwards *)

(** The reference [r] in the tables [d], given what the new tree has at its place. *)
Definition followed (d : MonoDb) (r : MegaRef) : Prop :=
  match fate r with
  | None => mega_refs d !! ref_id r = Some r
  | Some None =>
      mega_refs d !! ref_id r = None
      ∧ tombstones d !! (ref_path r, MEGA_BRANCH_NAME) = Some (tombstone_of now r)
  | Some (Some h) =>
      if bool_decide (h = ref_tree_hash r) then mega_refs d !! ref_id r = Some r
      else ∃ c, continuation committed style r h = Ok c
        ∧ mega_refs d !! ref_id r = Some (move_ref (hash_to_string (c_id c)) h now r)
        ∧ is_Some (mega_commit d !! hash_to_string (c_id c))
  end.

(** The batch written after the loop. *)
Lemma write_spec us cs d :
  refs_inv d → storable_commits cs → NoDup (up_key <$> us) →
  (∀ u, u ∈ us → ∃ r, mega_refs d !! ref_id r = Some r ∧ row_key_of r = up_key u) →
  ∃ m, write_advance now us cs d = Ok (with_refs (moved us now <$> mega_refs d) (with_commits m d))
    ∧ ∀ c, c ∈ cs → is_Some (m !! hash_to_string (c_id c)).
Proof.
  intros Hd Hs Hn Hu. unfold write_advance.
  assert (∃ m, match cs with [] => Ok d | _ => save_mega_commits cs d end = Ok (with_commits m d)
            ∧ ∀ c, c ∈ cs → is_Some (m !! hash_to_string (c_id c))) as (m & -> & Hm).
  { destruct cs as [|c cs]; [|by apply save_commits_spec]. exists (mega_commit d).
    split; [by destruct d|]. by intros c ?%not_elem_of_nil. }
  exists m. split; [|done]. cbn [mbind outcome_bind]. rewrite batch_update_spec; [done| |done|done].
  by apply (refs_inv_refs d).
Qed.

Lemma updates_keys cs rows us :
  Forall2 (update_for cs) rows us → up_key <$> us = (λ r, (ref_path r, MEGA_BRANCH_NAME)) <$> rows.
Proof.
  induction 1 as [|r u rows us (h & c & _ & _ & _ & -> & _) _ IH]; [done|].
  rewrite !fmap_cons, IH. done.
Qed.

(** A candidate whose directory is still there is not deleted. *)
Lemma kept_row d r :
  buried now (List.filter is_gone (descendant_main_refs norm db)) db d →
  r ∈ descendant_main_refs norm db → is_gone r = false → mega_refs d !! ref_id r = Some r.
Proof.
  intros [_ _ Ik _ _] Hr Hg. pose proof (candidate_row r Hr) as [Hl _]. rewrite Ik; [done|].
  intros s [Hs Hsg]%list_elem_of_In%filter_In E. apply list_elem_of_In, candidate_row in Hs as [Hs _].
  rewrite E, Hl in Hs. injection Hs as ->. congruence.
Qed.

(** A row with the key of an update is the row the update is for. *)
Lemma updated_row (rows : list MegaRef) k r :
  (∀ s, s ∈ rows → s ∈ descendant_main_refs norm db) → mega_refs db !! k = Some r →
  row_key_of r ∈ (λ r, (ref_path r, MEGA_BRANCH_NAME)) <$> rows → r ∈ rows.
Proof.
  intros Hrows Hr (s & [= E1 E2] & Hs)%list_elem_of_fmap. pose proof (candidate_row s (Hrows s Hs)) as [Hl Hn].
  assert (k = ref_id s) as -> by (apply (ri_key db Hinv _ _ r s); congruence). congruence.
Qed.

Lemma reference_follows :
  continues (descendant_main_refs norm db) →
  ∃ d, advance_reference path new committed style now db = Ok d ∧ refs_inv d
    ∧ (∀ r, r ∈ descendant_main_refs norm db → followed d r)
    ∧ (∀ k r, mega_refs db !! k = Some r → r ∉ descendant_main_refs norm db → mega_refs d !! k = Some r).
Proof.
  intros Hc. pose proof candidates_ids as Hids. pose proof candidates_paths as Hpaths.
  pose proof candidate_row as Hmain. unfold advance_reference. set (cands := descendant_main_refs norm db) in *.
  destruct (reference_loop cands [] [] db Hc ltac:(constructor)) as (us & cs & -> & Hus & Hcs).
  cbn [mbind outcome_bind fst snd app] in *. set (gone := List.filter is_gone cands).
  assert (gone `sublist_of` cands) as Hsub by apply filter_sublist.
  destruct (bury_all now gone db Hinv) as [Ib Ig Ik It Ic].
  { eapply sublist_NoDup; [exact Hids|]. by apply fmap_sublist. }
  { eapply sublist_NoDup; [exact Hpaths|]. by apply fmap_sublist. }
  { apply Forall_forall. intros r Hr. apply Hmain. by eapply elem_of_sublist. }
  set (d := foldl (bury now) db gone) in *.
  assert (buried now gone db d) as Hb by done.
  assert (up_key <$> us = (λ r, (ref_path r, MEGA_BRANCH_NAME)) <$> List.filter is_moving cands) as Hkeys
    by (by eapply updates_keys).
  assert (∀ r, r ∈ List.filter is_moving cands → r ∈ cands ∧ is_moving r = true) as Hmov.
  { intros r [Hr Hm]%list_elem_of_In%filter_In. split; [by apply list_elem_of_In|done]. }
  assert (∀ r, is_moving r = true → is_gone r = false) as Hexcl.
  { intros r. unfold is_moving, is_gone. by destruct (fate r) as [[]|]. }
  assert (NoDup (up_key <$> us)) as Hnd.
  { rewrite Hkeys. apply (NoDup_fmap_1 fst). rewrite <-list_fmap_compose.
    eapply sublist_NoDup; [exact Hpaths|]. apply fmap_sublist, filter_sublist. }
  assert (∀ u, u ∈ us → ∃ r, mega_refs d !! ref_id r = Some r ∧ row_key_of r = up_key u) as Hrow.
  { intros u Hu. destruct (Forall2_in_r _ _ _ _ Hus Hu) as (r & Hr & h & c & _ & _ & _ & -> & _).
    apply Hmov in Hr as [Hr Hm]. exists r. split; [apply kept_row; auto|].
    unfold row_key_of. by rewrite (proj2 (Hmain r Hr)). }
  destruct (write_spec us cs d Ib Hcs Hnd Hrow) as (m & -> & Hm). eexists. split; [done|].
  split; [apply (fmap_refs_inv _ (with_commits m d)); [|by apply (refs_inv_refs d)]|split].
  - intros r. unfold moved. by destruct (List.find _ us).
  - intros r Hr. unfold followed. simpl. rewrite lookup_fmap. pose proof (Hmain r Hr) as [Hl _].
    assert (is_moving r = false → moved us now r = r) as Hstay.
    { intros Hf. apply moved_none. rewrite Hkeys. intros Hin.
      apply (updated_row _ _ _ (λ s Hs, proj1 (Hmov s Hs)) Hl), Hmov in Hin as [_ ?]. congruence. }
    assert (is_gone r = false → mega_refs d !! ref_id r = Some r) as Hkept by (by apply kept_row).
    unfold is_moving, is_gone in Hstay, Hkept. destruct (fate r) as [[h|]|] eqn:Ef.
    + rewrite Hkept by done. destruct (bool_decide (h = ref_tree_hash r)) eqn:Eh.
      * simpl. by rewrite Hstay.
      * assert (r ∈ List.filter is_moving cands) as Hrm.
        { apply list_elem_of_In, filter_In. split; [by apply list_elem_of_In|].
          unfold is_moving. by rewrite Ef, Eh. }
        destruct (Forall2_in_l _ _ _ _ Hus Hrm) as (u & Hu & h' & c & Ef' & _ & Hcont & -> & Hin).
        rewrite Ef in Ef'. injection Ef' as <-. exists c. split; [done|]. split; [|by apply Hm].
        simpl. f_equal. rewrite (moved_some us now r _ Hnd Hu); [done|].
        unfold up_key, row_key_of. simpl. by rewrite (proj2 (Hmain r Hr)).
    + assert (r ∈ gone) as Hg.
      { apply list_elem_of_In, filter_In. split; [by apply list_elem_of_In|].
        unfold is_gone. by rewrite Ef. }
      rewrite Ig by done. split; [done|by apply It].
    + rewrite Hkept by done. simpl. by rewrite Hstay.
  - intros k r Hk Hr. simpl. rewrite lookup_fmap, Ik.
    + rewrite Hk. simpl. f_equal. apply moved_none. rewrite Hkeys. intros Hin.
      by apply (updated_row _ _ _ (λ s Hs, proj1 (Hmov s Hs)) Hk), Hmov in Hin as [? _].
    + intros s Hs <-. assert (s ∈ cands) as Hsc by (by eapply elem_of_sublist).
      pose proof (Hmain s Hsc) as [Hl _]. congruence.
Qed.
End Post.

(** ** The theorem *)

Section Follow.
Context `{CommitLaws}.

(** The caller's signature keeps the tree and the parents of a commit. *)
Definition style_keeps (style : DescendantCommitStyle) : Prop :=
  match style with
  | Legacy => True
  | Trunk _ sign => ∀ u c, sign u = Some c → c_tree_id c = c_tree_id u ∧ c_parents c = c_parents u
  end.

Lemma continuation_fields committed style r h c :
  style_keeps style → continuation committed style r h = Ok c →
  from_hex_for_kind h = Some (c_tree_id c)
  ∧ ∃ parent, from_hex_for_kind (ref_commit_hash r) = Some parent ∧ c_parents c = [parent].
Proof.
  intros Hs. unfold continuation. destruct (from_hex_for_kind (ref_commit_hash r)) as [p|]; [|done].
  destruct (from_hex_for_kind h) as [t|]; [|done]. destruct style as [|plan sign].
  - destruct (commit_from_tree_id t [p] _) as [k|] eqn:E; [|done]. intros [= <-].
    apply commit_from_tree_id_fields in E as (-> & -> & _). eauto.
  - intros (prev & _ & E)%bind_Ok.
    destruct (commit_new _ _ t [p] _) as [u|] eqn:Eu; [|done].
    destruct (sign u) as [k|] eqn:Ek; [|done]. injection E as <-.
    apply commit_new_fields in Eu as (Et & Ep & _). destruct (Hs u k Ek) as [-> ->]. rewrite Et, Ep. eauto.
Qed.

(** C33: when the tree at a path changes, every materialised reference below the path
    follows it: it gets a commit on the tree that the new tree has at its place, with the
    commit it was at as the only parent; it stays as it is when that tree is its own; and
    it leaves a tombstone with its last commit when the directory is gone.  No other
    reference changes.  This needs that the references were at their places in one tree,
    which is the old tree when the caller names one: then the cache, the pruning below
    unchanged references and the comparison with the old tree lose nothing. *)
Theorem descendants_follow path new old committed style now db base :
  refs_inv db → trees_ok db → consistent path db base → (∀ o, old = Some o → o = base) →
  style_keeps style →
  continues path new committed style db (descendant_main_refs (normalize_query path) db) →
  ∃ db', advance_descendant_refs_with path new old committed style now db = Ok db'
    ∧ refs_inv db'
    ∧ (∀ r, r ∈ descendant_main_refs (normalize_query path) db →
         followed path new committed style now db db' r)
    ∧ (∀ k r, mega_refs db !! k = Some r → (r ∉ descendant_main_refs (normalize_query path) db) →
         mega_refs db' !! k = Some r)
    ∧ (∀ r h c, continuation committed style r h = Ok c →
         from_hex_for_kind h = Some (c_tree_id c)
         ∧ ∃ parent, from_hex_for_kind (ref_commit_hash r) = Some parent ∧ c_parents c = [parent]).
Proof.
  intros Hinv Hok Hbase Hold Hs Hc.
  destruct (reference_follows path new committed style now db Hinv Hc) as (d & Hd & Hi & Hf & Hk).
  exists d. rewrite (advance_is_reference path new old committed style now db base) by done.
  split_and!; [done..|]. intros r h c. by apply continuation_fields.
Qed.
End Follow.
