(* ===== verification/MonoDemo.v ===== *)
(** * A small monorepo

    Concrete tables on which the theorems about references and trees apply. *)
From stdpp Require Import base strings numbers tactics list gmap relations.
From S2P Require Import Prelude Text FilterSyntax FilterCanonical FilterSemantics MonoPath CommitMessage.
From S2P Require Import CanonicalJson GitObjects ViewTreeDemo ViewCommit GitCommits TrunkProvenance MonoRefs MonoTrees.
From S2P Require Import MonoTreesTheorems MonoRefsInv MonoRefsTheorems MonoAdvance MonoAdvanceInv MonoAdvanceTheorems.

(** ** Commits *)

Definition demo_sig : Signature := mk_Signature SigAuthor (lit "A") (lit "a@x") 5 (lit "+0000").

#[export] Instance demo_commits : GitCommits := {|
  signature_text s := Some (sig_name s);
  signature_from_text t := Some (mk_Signature SigAuthor t [] 0 []);
  commit_new a c t ps m := Some (mk_Commit _ (1%N :: t) t ps a c m);
  commit_from_tree_id t ps m := Some (mk_Commit _ (2%N :: t) t ps demo_sig demo_sig m);
|}.

#[export] Instance demo_commit_laws : CommitLaws.
Proof. split; intros; simplify_eq/=; done. Qed.

(** ** Trees and references *)

Definition enc (its : list (TreeItem (list N))) : list N := concat (map encode_item its).
Definition leaf1 : list N := enc [mk_TreeItem ModeBlob [7%N] (lit "f")].
Definition leaf2 : list N := enc [mk_TreeItem ModeBlob [8%N] (lit "f")].
Definition root0 : list N :=
  enc [mk_TreeItem ModeTree leaf1 (lit "a"); mk_TreeItem ModeTree leaf1 (lit "b");
       mk_TreeItem ModeTree leaf1 (lit "c")].
Definition root1 : list N :=
  enc [mk_TreeItem ModeTree leaf2 (lit "a"); mk_TreeItem ModeTree leaf1 (lit "b")].

Definition demo_ref (id : Z) (p commit tree : text) : MegaRef :=
  new_ref id p MEGA_BRANCH_NAME commit tree false 0.
Definition ref_root : MegaRef := demo_ref 1 (lit "/") (lit "r0") root0.
Definition ref_a : MegaRef := demo_ref 2 (lit "/a") (lit "a0") leaf1.
Definition ref_b : MegaRef := demo_ref 3 (lit "/b") (lit "b0") leaf1.
Definition ref_c : MegaRef := demo_ref 4 (lit "/c") (lit "c0") leaf1.

Definition demo_refs : gmap Z MegaRef := list_to_map [(1%Z, ref_root); (2%Z, ref_a); (3%Z, ref_b); (4%Z, ref_c)].
Definition demo_trees : gmap text bytes :=
  list_to_map [(leaf1, leaf1); (leaf2, leaf2); (root0, root0); (root1, root1)].
Definition demo_mono : MonoDb := mk_MonoDb demo_refs ∅ demo_trees ∅ ∅.
Definition empty_mono : MonoDb := mk_MonoDb ∅ ∅ demo_trees ∅ ∅.

Lemma saves_steps rs db db' :
  foldM (λ db r, save_refs r db) db rs = Ok db' → rtc ref_step db db'.
Proof.
  revert db. induction rs as [|r rs IH]; intros db; simpl; [intros [= <-]; apply rtc_refl|].
  intros (db1 & H1 & H2)%bind_Ok. eapply rtc_l; [by eapply rs_save|by apply IH].
Qed.

Lemma demo_mono_steps : rtc ref_step empty_mono demo_mono.
Proof. apply (saves_steps [ref_root; ref_a; ref_b; ref_c]). vm_compute. reflexivity. Qed.

Lemma demo_mono_inv : refs_inv demo_mono.
Proof.
  assert (refs_inv empty_mono) as H0 by (split; simpl; intros *; by rewrite lookup_empty).
  revert H0. induction demo_mono_steps as [|db1 db2 db3 H1 _ IH]; [done|]. intros H. by eapply IH, ref_step_inv.
Qed.

Lemma demo_trees_ok : trees_ok demo_mono.
Proof.
  intros h d E. simpl in E. apply elem_of_list_to_map_2 in E.
  repeat (apply elem_of_cons in E as [[= -> ->]|E]; [eexists; vm_compute; reflexivity|]).
  by apply not_elem_of_nil in E.
Qed.

Lemma demo_candidates : descendant_main_refs (lit "/") demo_mono = [ref_b; ref_c; ref_a].
Proof. vm_compute. reflexivity. Qed.

Lemma demo_consistent : consistent (lit "/") demo_mono root0.
Proof.
  intros row rel Hin. change (normalize_query (lit "/")) with (lit "/") in *.
  rewrite demo_candidates in Hin.
  repeat (apply elem_of_cons in Hin as [->|Hin]; [intros [= <-]; vm_compute; reflexivity|]).
  by apply not_elem_of_nil in Hin.
Qed.

Lemma demo_continues :
  continues (lit "/") root1 ∅ Legacy demo_mono (descendant_main_refs (lit "/") demo_mono).
Proof.
  intros r h _ _ _. eexists _, _. split; [reflexivity|]. reflexivity.
Qed.

(** ** Witnesses *)

Lemma descendants_follow_witness :
  ∃ db', advance_descendant_refs_with (lit "/") root1 (Some root0) ∅ Legacy 9 demo_mono = Ok db'
    ∧ followed (lit "/") root1 ∅ Legacy 9 demo_mono db' ref_a
    ∧ followed (lit "/") root1 ∅ Legacy 9 demo_mono db' ref_c.
Proof.
  destruct (descendants_follow (lit "/") root1 (Some root0) ∅ Legacy 9 demo_mono root0
    demo_mono_inv demo_trees_ok demo_consistent ltac:(congruence) I demo_continues)
    as (db' & Hdb & _ & Hf & _).
  exists db'. change (normalize_query (lit "/")) with (lit "/") in Hf. rewrite demo_candidates in Hf.
  split; [exact Hdb|]. split; apply Hf; set_solver.
Defined.

Lemma existing_paths_exact_witness :
  ∃ found, existing_path_trees id demo_mono root0 [lit "/a"; lit "/x"; lit "/"] = Ok found.
Proof.
  destruct (existing_paths_exact demo_mono id root0 [lit "/a"; lit "/x"; lit "/"] (λ l, reflexivity l))
    as [(found & Hf & _)|(e & p & He & _)]; [exists found; exact Hf|].
  exfalso. assert (is_Some (match existing_path_trees id demo_mono root0 [lit "/a"; lit "/x"; lit "/"]
    with Ok _ => Some tt | _ => None end)) as Hs by (vm_compute; eexists; reflexivity).
  rewrite He in Hs. by destruct Hs.
Defined.

Lemma demo_paths_plain k r :
  mega_refs demo_mono !! k = Some r → ref_name r = MEGA_BRANCH_NAME →
  ∃ q, Forall plain_segment q ∧ ref_path r = display_path q.
Proof.
  simpl. intros E _. apply elem_of_list_to_map_2 in E.
  repeat (apply elem_of_cons in E as [[= -> ->]|E];
    [first [exists []; by vm_compute | (eexists [_]; split; [|reflexivity]);
      constructor; [split; [done|vm_compute; set_solver]|constructor]]|]).
  by apply not_elem_of_nil in E.
Qed.

Lemma attach_precheck_exact_witness :
  let segs := [lit "d"; lit "e"] in
  canonicalize_mono_ref_path (lit "/d/e") = inr (display_path segs)
  ∧ (attach_materialization_precheck (lit "/d/e") demo_mono = Ok tt ↔ unmaterialized segs demo_mono).
Proof.
  intros segs. split; [reflexivity|].
  apply (attach_precheck_exact (lit "/d/e") segs demo_mono);
    [reflexivity| |exact demo_mono_inv|exact demo_paths_plain].
  repeat constructor; try (vm_compute; congruence); apply (bool_decide_unpack _); reflexivity.
Defined.

Lemma refs_stay_unique_witness : refs_inv demo_mono.
Proof. apply (refs_stay_unique empty_mono demo_mono [] [] ref_a); [reflexivity|exact demo_mono_steps]. Defined.

Lemma root_cas_exact_witness :
  snd (cas_update_root_main_ref (Some (lit "r0")) (Some root0) (lit "r1") root1 9 demo_mono) = true
  ∧ ∃ r, mega_refs demo_mono !! ref_id r = Some r ∧ ref_path r = lit "/".
Proof.
  assert (snd (cas_update_root_main_ref (Some (lit "r0")) (Some root0) (lit "r1") root1 9 demo_mono) = true)
    as Hb by (vm_compute; reflexivity).
  split; [exact Hb|].
  pose proof (root_cas_exact (Some (lit "r0")) (Some root0) (lit "r1") root1 9 demo_mono demo_mono_inv) as Hc.
  destruct (cas_update_root_main_ref _ _ _ _ _ _) as [db' b]. simpl in Hb. subst b.
  destruct Hc as (r & Hr & Hp & _). exists r. split; [exact Hr|exact Hp].
Defined.

Lemma trunk_attribution_witness :
  let c := mk_Commit _ [] [] [] demo_sig demo_sig [] in
  NoDup (co_authored_by_lines demo_sig [c; c]).
Proof.
  intros c. apply (trunk_attribution (λ _ _, None) demo_sig [c; c] [] [] demo_sig 0).
  repeat constructor; vm_compute; congruence.
Defined.
