(* ===== verification/PushQueueReaper.v ===== *)
(** * MonoWriteQueue: the reaper

    Models [src/jupiter/service/push_queue_reaper.rs] over the transactions of the queue
    ([PushQueue.v]) and the references ([MonoRefs.v]).  One cycle is one transaction: it
    tries the write lock, cancels queued rows whose client has stopped its heartbeat and,
    when it has the lock, settles the rows that are still Running.  [lock_acquired] and
    [holders] are what the database answers about the lock, [now] is the time of the
    cycle.  Durations are in the unit of the timestamps and in the range of the time
    library.  An error or a panic rolls the transaction back; the identity sequence of
    the queue does not go back. *)
From stdpp Require Import base strings sets numbers tactics gmap list.
From S2P Require Import Prelude Text CommitMessage GitObjects ViewCommit GitCommits MonoRefs MonoTrees.
From S2P Require Import QueueTables PushQueue.

Record MonoWriteLockHolder := mk_MonoWriteLockHolder {
  holder_pid : Z;
  query_start : option Z;
  holder_query : text;
}.

Record ReapReport := mk_ReapReport {
  lock_acquired : bool;
  skipped_started_at_grace : Z;
  running_failed : Z;
  running_reset_queued : Z;
  conflict_requeued : Z;
  stale_queued_cancelled : Z;
  bypass_detected : Z;
  i3_tombstoned : Z;
  stuck_alarm : bool;
  lock_holders : list MonoWriteLockHolder;
}.

Record PushQueueReaper := mk_PushQueueReaper {
  heartbeat_timeout : Z;
  started_at_grace : Z;
  stuck_timeout : Z;
}.

Inductive RunningReap :=
  | FailedBypass
  | FailedOrdinary
  | ResetQueued
  | ConflictRequeued
  | TombstonedThenFailed.

Inductive ReapError :=
  | ReapQueue (e : MegaError)
  | ReapMono (e : MonoError).

(** ** The transaction *)

(** The tables in the transaction and a result or the reason for which it ends. *)
Definition ReapM (A : Type) : Type := Db * MonoDb → (Db * MonoDb) * outcome ReapError A.

#[export] Instance reap_ret : MRet ReapM := λ A a s, (s, Ok a).
#[export] Instance reap_bind : MBind ReapM := λ A B f x s,
  match x s with
  | (s', Ok a) => f a s'
  | (s', Err e) => (s', Err e)
  | (s', Panic) => (s', Panic)
  | (s', OutOfFuel) => (s', OutOfFuel)
  end.

Definition on_queue {A} (f : Db → Db * A) : ReapM A := λ s,
  let '(q, a) := f s.1 in ((q, s.2), Ok a).
Definition on_queue_res {A} (f : Db → Db * outcome MegaError A) : ReapM A := λ s,
  let '(q, r) := f s.1 in ((q, s.2), map_err ReapQueue r).
Definition on_mono {A} (f : MonoDb → MonoDb * A) : ReapM A := λ s,
  let '(d, a) := f s.2 in ((s.1, d), Ok a).
Definition read_queue {A} (f : Db → outcome MegaError A) : ReapM A := λ s, (s, map_err ReapQueue (f s.1)).
Definition read_mono {A} (f : MonoDb → outcome MonoError A) : ReapM A := λ s, (s, map_err ReapMono (f s.2)).

Section Reaper.
Context {GO : GitObjects}.
Context (now : Z).

(** The repair of the reference at the path of a row; [true] when it wrote a tombstone.
    The lookups of a tombstone for a missing reference only choose a log message. *)
Definition apply_i3 (row : PushQueueRow) (root : option MegaRef) : ReapM bool :=
  let repair : ReapM bool :=
    _ ← on_mono (tombstone_and_delete_main_ref (path row) now); mret true in
  match kind row with
  | Attach =>
      if bool_decide (path row = lit "/") then mret false
      else
        path_ref ← read_mono (λ d, Ok (get_main_ref (path row) d));
        match path_ref with
        | None => mret false
        | Some _ => repair
        end
  | Push | Merge =>
      path_ref ← read_mono (λ d, Ok (get_main_ref (path row) d));
      match path_ref with
      | None => mret false
      | Some pref =>
          match root with
          | None => mret false
          | Some root =>
              resolved ← read_mono (λ d, resolve_path_tree_hash d (ref_tree_hash root) (path row));
              if bool_decide (resolved = Some (ref_tree_hash pref)) then mret false else repair
          end
      end
  end.

Definition baseline_ok (row : PushQueueRow) (root : option MegaRef) : bool :=
  bool_decide (ref_commit_hash <$> root = expected_commit_hash row)
  && bool_decide (ref_tree_hash <$> root = expected_tree_hash row).

Definition reap_running_row (row : PushQueueRow) (hard_stopped_at_start : bool)
    : ReapM (RunningReap * bool) :=
  root ← read_mono (λ d, Ok (get_main_ref (lit "/") d));
  i3 ← apply_i3 row root;
  if negb (baseline_ok row root) then
    _ ← on_queue (λ q : Db, (set_hard_stopped_in_txn true now q, tt));
    _ ← on_queue (mark_failed_if_running_in_txn (row_id row) QueueBypassDetected
                    (lit "reaper expected_* baseline mismatch") now);
    mret (FailedBypass, i3)
  else if bool_decide (pending_action row = Some RequeueConflict) then
    _ ← on_queue_res (complete_conflict_requeue_in_txn row now);
    mret (ConflictRequeued, i3)
  else if hard_stopped_at_start then
    _ ← on_queue (reset_running_to_queued_in_txn (row_id row) now);
    mret (ResetQueued, i3)
  else
    let msg := if (i3 : bool) then lit "I3 tombstone repair after Running crash"
               else lit "reaper terminalized Running after crash" in
    _ ← on_queue (mark_failed_if_running_in_txn (row_id row) SystemError msg now);
    mret (if i3 then (TombstonedThenFailed, true) else (FailedOrdinary, false)).

(** ** The report *)

Definition count_skip (r : ReapReport) : ReapReport :=
  mk_ReapReport (lock_acquired r) (skipped_started_at_grace r + 1)%Z (running_failed r)
    (running_reset_queued r) (conflict_requeued r) (stale_queued_cancelled r) (bypass_detected r)
    (i3_tombstoned r) (stuck_alarm r) (lock_holders r).

Definition count_row (reaped : RunningReap * bool) (r : ReapReport) : ReapReport :=
  let '(k, tombstoned) := reaped in
  let b (x : bool) : Z := if x then 1%Z else 0%Z in
  mk_ReapReport (lock_acquired r) (skipped_started_at_grace r)
    (running_failed r + b match k with FailedBypass | FailedOrdinary | TombstonedThenFailed => true | _ => false end)%Z
    (running_reset_queued r + b match k with ResetQueued => true | _ => false end)%Z
    (conflict_requeued r + b match k with ConflictRequeued => true | _ => false end)%Z
    (stale_queued_cancelled r)
    (bypass_detected r + b match k with FailedBypass => true | _ => false end)%Z
    (i3_tombstoned r + b tombstoned)%Z (stuck_alarm r) (lock_holders r).

Context (reaper : PushQueueReaper).

(** [started > grace_cutoff] *)
Definition in_grace (row : PushQueueRow) : bool :=
  match started_at row with Some t => (now - started_at_grace reaper <? t)%Z | None => false end.

Fixpoint reap_rows (hard_stopped_at_start : bool) (running : list PushQueueRow) (r : ReapReport)
    : ReapM ReapReport :=
  match running with
  | [] => mret r
  | row :: running =>
      if in_grace row then reap_rows hard_stopped_at_start running (count_skip r)
      else
        reaped ← reap_running_row row hard_stopped_at_start;
        reap_rows hard_stopped_at_start running (count_row reaped r)
  end.

(** The alarm: the lock or a row is older than [stuck_timeout]. *)
Definition is_stuck (holders : list MonoWriteLockHolder) (running : list PushQueueRow) : bool :=
  let old (t : option Z) : bool := from_option (λ t, stuck_timeout reaper <? now - t)%Z false t in
  existsb (λ h, old (query_start h)) holders || existsb (λ row, old (started_at row)) running.

Definition reap_body (acquired : bool) (holders : list MonoWriteLockHolder) : ReapM ReapReport :=
  hard_stopped_at_start ← read_queue is_hard_stopped_in_txn;
  cancelled ← (if hard_stopped_at_start then mret 0%Z
               else on_queue (cancel_stale_queued_in_txn (now - heartbeat_timeout reaper) now));
  running ← read_queue (λ q, Ok (list_running_in_txn q));
  let report alarm hs := mk_ReapReport acquired 0 0 0 0 cancelled 0 0 alarm hs in
  if negb acquired then
    mret (if bool_decide (running = []) then report false []
          else report (is_stuck holders running) holders)
  else reap_rows hard_stopped_at_start running (report false []).

(** The tables after the transaction has been committed or rolled back. *)
Definition reap_once (acquired : bool) (holders : list MonoWriteLockHolder) (s : Db * MonoDb)
    : (Db * MonoDb) * outcome ReapError ReapReport :=
  match reap_body acquired holders s with
  | (s', Ok r) => (s', Ok r)
  | (s', e) => ((with_seq (push_queue_seq s'.1) s.1, s.2), e)
  end.
End Reaper.
