(* ===== verification/PushQueueReaperTheorems.v ===== *)
(** * MonoWriteQueue: what a cycle of the reaper leaves behind *)
From stdpp Require Import base strings sets numbers tactics gmap list relations.
From S2P Require Import Prelude Text CommitMessage GitObjects ViewCommit GitCommits MonoRefs MonoTrees.
From S2P Require Import MonoTreesTheorems MonoRefsInv MonoAdvanceInv QueueTables PushQueue PushQueueInv PushQueueSteps PushQueueSpec.
From S2P Require Import PushQueueReaper PushQueueTheorems ViewTreeDemo MonoDemo.

(** ** Running rows *)

Lemma order_by_id_elem l r : r ∈ order_by_id l ↔ r ∈ l.
Proof. unfold order_by_id. by rewrite (sort_by_perm _ _ _). Qed.

Lemma elem_of_running r q :
  queue_inv q → r ∈ list_running_in_txn q ↔ push_queue q !! row_id r = Some r ∧ status r = Running.
Proof.
  intros Hinv. unfold list_running_in_txn. rewrite order_by_id_elem, elem_of_select, has_status_spec. split.
  - intros [Hs [k Hk]]. destruct (inv_ids q Hinv k r Hk) as [-> _]. done.
  - intros [Hk Hs]. eauto.
Qed.

Lemma rows_NoDup q : queue_inv q → NoDup (rows q).
Proof.
  intros Hinv. unfold rows. apply NoDup_fmap_2_strong; [|apply NoDup_map_to_list].
  intros [i s] [j t] Hi%elem_of_map_to_list Hj%elem_of_map_to_list. simpl. intros ->.
  destruct (inv_ids q Hinv i t Hi) as [<- _], (inv_ids q Hinv j t Hj) as [<- _]. done.
Qed.

(** At most one row is Running. *)
Lemma running_rows q :
  queue_inv q → list_running_in_txn q = [] ∨ ∃ r, list_running_in_txn q = [r].
Proof.
  intros Hinv. pose proof (λ r, elem_of_running r q Hinv) as Hel.
  assert (NoDup (list_running_in_txn q)) as Hn.
  { unfold list_running_in_txn, order_by_id. rewrite (sort_by_perm _ _ _).
    eapply sublist_NoDup; [by apply rows_NoDup|apply filter_sublist]. }
  destruct (list_running_in_txn q) as [|r [|s l]]; [by left|by right; exists r|exfalso].
  destruct (proj1 (Hel r) ltac:(by constructor)) as [Hr Hrs].
  destruct (proj1 (Hel s) ltac:(by right; constructor)) as [Hs Hss].
  assert (row_id r = row_id s) as E by (eapply (inv_clash q Hinv _ _ r s); [done..|by left]).
  apply NoDup_cons in Hn as [Hn _]. apply Hn. rewrite E, Hs in Hr. injection Hr as ->. by constructor.
Qed.

(** The update of a single Running row. *)
Lemma update_running f i r q :
  queue_inv q → push_queue q !! i = Some r → status r = Running →
  push_queue (fst (update_where (running_with_id i) f q)) = <[i := f r]> (push_queue q).
Proof.
  intros Hinv Hr Hs. rewrite (update_by_id _ _ i); [|done|apply running_by_id].
  apply map_eq. intros k. destruct (decide (k = i)) as [->|?].
  - rewrite lookup_alter_eq, lookup_insert_eq, Hr. simpl.
    assert (running_with_id i r = true) as ->; [|done].
    apply running_with_id_spec. split; [|done]. by destruct (inv_ids q Hinv i r Hr).
  - by rewrite lookup_alter_ne, lookup_insert_ne.
Qed.

(** Cancelling stale rows leaves Running rows and the controls alone. *)
Lemma cancel_stale_running cutoff now q k r :
  push_queue (fst (cancel_stale_queued_in_txn cutoff now q)) !! k = Some r ∧ status r = Running ↔
  push_queue q !! k = Some r ∧ status r = Running.
Proof.
  unfold cancel_stale_queued_in_txn. rewrite lookup_update_where.
  destruct (push_queue q !! k) as [s|]; simpl; [|naive_solver].
  destruct (has_status Queued s && (heartbeat_at s <? cutoff)%Z) eqn:E; [|done].
  bool_prop. match goal with H : has_status Queued s = true |- _ => apply has_status_spec in H end.
  split; intros [[= <-] Hs]; [by destruct s|congruence].
Qed.

(** ** The repair of references *)

(** One step of the transaction. *)
Ltac run := cbn -[tombstone_and_delete_main_ref resolve_path_tree_hash get_main_ref lit].

Section Reaper.
Context {GO : GitObjects}.

Lemma walk_components_total d t cs :
  trees_ok d → ∃ o, walk_components tree_from_mega_model d t cs = Ok o.
Proof.
  intros Hok. revert t. induction cs as [|c cs IH]; intros t; simpl; [by eauto|].
  destruct (item_named c (tree_items t)); [|by eauto]. destruct (negb _); [by eauto|].
  unfold get_tree_by_hash. destruct (mega_tree d !! _) as [data|] eqn:E; [|by eauto].
  destruct (Hok _ _ E) as [t' Ht'%tree_decoders]. rewrite Ht'. apply IH.
Qed.

Lemma resolve_total d h p : trees_ok d → ∃ o, resolve_path_tree_hash d h p = Ok o.
Proof.
  intros Hok. unfold resolve_path_tree_hash, walk_path. destruct (_ || _); [by eauto|].
  unfold get_tree_by_hash. destruct (mega_tree d !! h) as [data|] eqn:E; [|by eauto].
  destruct (Hok _ _ E) as [t Ht%tree_decoders]. rewrite Ht. cbn.
  destruct (walk_components_total d t (path_components p) Hok) as [o ->]. cbn. by eauto.
Qed.

(** The reference at the path of a row is gone or is where the root has it. *)
Definition repaired (row : PushQueueRow) (root : option MegaRef) (d d' : MonoDb) : Prop :=
  match kind row with
  | Attach => path row ≠ lit "/" → get_main_ref (path row) d' = None
  | Push | Merge =>
      ∀ pref rt, get_main_ref (path row) d' = Some pref → root = Some rt →
        resolve_path_tree_hash d (ref_tree_hash rt) (path row) = Ok (Some (ref_tree_hash pref))
  end.

Lemma tombstone_removes p now d :
  refs_inv d → get_main_ref p (fst (tombstone_and_delete_main_ref p now d)) = None.
Proof.
  intros Hinv. unfold tombstone_and_delete_main_ref. destruct (get_main_ref p d) as [r|] eqn:E; [|done].
  apply get_ref_spec in E as (Hr & Hp & Hn); [|done]. simpl. apply get_ref_None. simpl.
  intros k s. rewrite lookup_delete_Some. intros [Hne Hs] [Hsp Hsn]. apply Hne.
  eapply (ri_key d Hinv _ _ r s); congruence.
Qed.

(** The repair succeeds, or it meets a tree that cannot be read. *)
Lemma apply_i3_spec now row root q d :
  refs_inv d →
  (∃ d' b, apply_i3 now row root (q, d) = ((q, d'), Ok b) ∧ refs_inv d' ∧ repaired row root d d')
  ∨ (apply_i3 now row root (q, d) = ((q, d), Panic) ∧ ¬ trees_ok d).
Proof.
  intros Hinv. pose proof (tombstone_removes (path row) now d Hinv) as Hgone.
  pose proof (tombstone_delete_inv (path row) now d Hinv) as Hinv'.
  destruct (tombstone_and_delete_main_ref (path row) now d) as [d1 b1] eqn:Et. simpl in *.
  unfold apply_i3, repaired, mbind, mret, reap_bind, reap_ret, on_mono, read_mono.
  destruct (kind row); run.
  1, 2: destruct (get_main_ref (path row) d) as [pref|] eqn:Ep; run;
    [|left; exists d, false; split_and!; [done..|congruence]];
    destruct root as [rt|]; run; [|left; exists d, false; split_and!; [done..|congruence]];
    destruct (resolve_cases d (ref_tree_hash rt) (path row)) as [[o Ho]|Ho]; rewrite Ho; run;
    [left; destruct (bool_decide _) eqn:Eb; bool_prop;
     [exists d, false; split_and!; [done..|congruence]
     |run; rewrite Et; run; exists d1, true; split_and!; [done..|congruence]]
    |right; split; [done|]; intros Hok; destruct (resolve_total d (ref_tree_hash rt) (path row) Hok); congruence].
  left. destruct (bool_decide (path row = lit "/")) eqn:Er; bool_prop; run; [by exists d, false|].
  destruct (get_main_ref (path row) d) as [pref|] eqn:Ep; run; [|by exists d, false].
  rewrite Et. run. by exists d1, true.
Qed.

(** ** One row *)

(** What becomes of a Running row. *)
Definition settled (now : Z) (hard_stopped_at_start : bool) (row : PushQueueRow) (root : option MegaRef)
    (q q' : Db) : Prop :=
  let n := push_queue_seq q in
  if negb (baseline_ok row root) then
    push_queue q' = <[row_id row := fail_row Failed QueueBypassDetected
                        (lit "reaper expected_* baseline mismatch") now row]> (push_queue q)
    ∧ control q' = set_hard_stopped true now <$> control q
  else if bool_decide (pending_action row = Some RequeueConflict) then
    push_queue q' = <[row_id row := requeue_source now n row]>
                      (<[n := requeue_successor now n row]> (push_queue q))
    ∧ control q' = control q
  else if hard_stopped_at_start then
    push_queue q' = <[row_id row := requeued_row now row]> (push_queue q) ∧ control q' = control q
  else
    ∃ msg, push_queue q' = <[row_id row := fail_row Failed SystemError msg now row]> (push_queue q)
           ∧ control q' = control q.

Lemma fst_bool {A} (x : A * Z) (f : Z → bool) : fst (let '(a, n) := x in (a, f n)) = fst x.
Proof. by destruct x. Qed.

Lemma mark_failed_row i f msg now r q :
  queue_inv q → push_queue q !! i = Some r → status r = Running →
  let q' := fst (mark_failed_if_running_in_txn i f msg now q) in
  push_queue q' = <[i := fail_row Failed f msg now r]> (push_queue q) ∧ control q' = control q
  ∧ queue_inv q' ∧ keeps_results q q'.
Proof.
  intros Hinv Hr Hs q'. unfold q', mark_failed_if_running_in_txn.
  pose proof (us_mark_failed i f msg now q) as Hstep. unfold mark_failed_if_running_in_txn in Hstep.
  rewrite fst_bool in *. split; [by apply update_running|]. split; [done|].
  split; [by eapply unlocked_inv|]. by apply evolves_keeps, unlocked_evolves.
Qed.

Lemma reset_row i now r q :
  queue_inv q → push_queue q !! i = Some r → status r = Running → pending_action r = None →
  let q' := fst (reset_running_to_queued_in_txn i now q) in
  push_queue q' = <[i := requeued_row now r]> (push_queue q) ∧ control q' = control q
  ∧ queue_inv q' ∧ keeps_results q q'.
Proof.
  intros Hinv Hr Hs Hp q'. unfold q'.
  assert (unlocked_step q (fst (reset_running_to_queued_in_txn i now q))) as Hstep.
  { apply us_reset_in_txn. intros r' Hr' _. congruence. }
  unfold reset_running_to_queued_in_txn in *. rewrite fst_bool in *.
  split; [by apply update_running|]. split; [done|].
  split; [by eapply unlocked_inv|]. by apply evolves_keeps, unlocked_evolves.
Qed.

Lemma hard_stop_row now q :
  queue_inv q → let q' := set_hard_stopped_in_txn true now q in
  push_queue q' = push_queue q ∧ push_queue_seq q' = push_queue_seq q ∧ queue_inv q'
  ∧ control q' = set_hard_stopped true now <$> control q.
Proof. intros Hinv q'. split_and!; [done..| |done]. by apply (same_queue_inv q). Qed.

Lemma on_queue_run {A} (f : Db → Db * A) q d : on_queue f (q, d) = ((fst (f q), d), Ok (snd (f q))).
Proof. unfold on_queue. simpl. by destruct (f q). Qed.

Lemma reap_bind_Ok {A B} (x : ReapM A) (f : A → ReapM B) s s' a : x s = (s', Ok a) → (x ≫= f) s = f a s'.
Proof. intros E. unfold mbind, reap_bind. by rewrite E. Qed.

(** The row as it is when its turn comes. *)
Lemma reap_running_row_spec now row hs q d :
  queue_inv q → refs_inv d → push_queue q !! row_id row = Some row → status row = Running →
  let root := get_main_ref (lit "/") d in
  (∃ q' d' res, reap_running_row now row hs (q, d) = ((q', d'), Ok res)
     ∧ settled now hs row root q q' ∧ queue_inv q' ∧ keeps_results q q'
     ∧ refs_inv d' ∧ repaired row root d d')
  ∨ (reap_running_row now row hs (q, d) = ((q, d), Panic) ∧ ¬ trees_ok d).
Proof.
  intros Hq Hd Hrow Hrun root. unfold reap_running_row.
  rewrite (reap_bind_Ok _ _ (q, d) (q, d) root eq_refl). fold root.
  destruct (apply_i3_spec now row root q d Hd) as [(d' & b & Hi & Hd' & Hrep)|[Hp Hbad]].
  2: { right. unfold mbind, reap_bind. by rewrite Hp. }
  left. rewrite (reap_bind_Ok _ _ _ _ _ Hi). unfold settled.
  destruct (negb (baseline_ok row root)).
  - rewrite (reap_bind_Ok _ _ _ _ _ (on_queue_run _ q d')). cbn [fst snd].
    rewrite (reap_bind_Ok _ _ _ _ _ (on_queue_run _ _ d')).
    destruct (hard_stop_row now q Hq) as (Hq1 & _ & Hinv1 & Hc1).
    destruct (mark_failed_row (row_id row) QueueBypassDetected (lit "reaper expected_* baseline mismatch")
      now row (set_hard_stopped_in_txn true now q)) as (Hf & Hc & Hi2 & Hk); [done..|].
    eexists _, d', _. split; [done|]. split; [split; [by rewrite Hf|by rewrite Hc]|].
    split; [done|]. split; [|done]. etrans; [|exact Hk]. by apply same_queue_keeps.
  - destruct (bool_decide (pending_action row = Some RequeueConflict)) eqn:Ep; bool_prop.
    + assert (requeue_intended (row_id row) row = true) as Hint.
      { apply requeue_intended_spec. split; [done|]. split; [done|]. split; [done|].
        destruct (inv_rows q Hq _ _ Hrow) as (_ & [?|?] & _); [congruence|done]. }
      destruct (conflict_requeue_ok q row row now Hq Hrow eq_refl Hint) as (q' & Hc & Hi2 & Hpq & _ & Hcc).
      pose proof (requeue_keeps row row now q Hq Hrow eq_refl) as Hk. rewrite Hc in Hk.
      rewrite (reap_bind_Ok _ _ (q, d') (q', d') (push_queue_seq q)) by (unfold on_queue_res; simpl; by rewrite Hc).
      by eexists _, d', _.
    + assert (pending_action row = None) as Hpn by (destruct (pending_action row) as [[]|]; done).
      destruct hs.
      * rewrite (reap_bind_Ok _ _ _ _ _ (on_queue_run _ q d')).
        destruct (reset_row (row_id row) now row q Hq Hrow Hrun Hpn) as (Hf & Hc & Hi2 & Hk).
        by eexists _, d', _.
      * set (msg := if b then lit "I3 tombstone repair after Running crash"
                    else lit "reaper terminalized Running after crash").
        rewrite (reap_bind_Ok _ _ _ _ _ (on_queue_run _ q d')).
        destruct (mark_failed_row (row_id row) SystemError msg now row q Hq Hrow Hrun) as (Hf & Hc & Hi2 & Hk).
        eexists _, d', _. split; [done|]. split; [by exists msg|done].
Qed.

(** A settled row is not Running, and no other row has started. *)
Lemma settled_running now hs row root q q' k r :
  queue_inv q → push_queue q !! row_id row = Some row → status row = Running →
  settled now hs row root q q' → push_queue q' !! k = Some r → status r ≠ Running.
Proof.
  intros Hq Hrow Hrun Hset Hk Hr.
  assert (∀ s, status s ≠ Running → push_queue q' = <[row_id row := s]> (push_queue q) → False) as Hone.
  { intros s Hs E. rewrite E, lookup_insert_Some in Hk. destruct Hk as [[_ <-]|[Hne Hk]]; [done|].
    apply Hne. eapply (inv_clash q Hq _ _ row r Hrow Hk). by left. }
  unfold settled in Hset. destruct (negb _); [by destruct Hset as [E _]; eapply Hone, E|].
  destruct (bool_decide _).
  - destruct Hset as [E _]. rewrite E, !lookup_insert_Some in Hk.
    destruct Hk as [[_ <-]|[Hne [[_ <-]|[_ Hk]]]]; [done|done|].
    apply Hne. eapply (inv_clash q Hq _ _ row r Hrow Hk). by left.
  - destruct hs; [by destruct Hset as [E _]; eapply Hone, E|].
    by destruct Hset as (msg & E & _); eapply Hone, E.
Qed.

(** ** One cycle *)

Section Cycle.
Context (now : Z) (reaper : PushQueueReaper).

(** The queue after the stale rows have been cancelled. *)
Definition swept (hs : bool) (q : Db) : Db :=
  if hs then q else fst (cancel_stale_queued_in_txn (now - heartbeat_timeout reaper) now q).

(** What a committed cycle does to the tables: it settles the Running row past its grace
    period, or there is none. *)
Definition reaped (acquired hs : bool) (q1 : Db) (d : MonoDb) (q' : Db) (d' : MonoDb) : Prop :=
  let root := get_main_ref (lit "/") d in
  (q' = q1 ∧ d' = d
   ∧ (acquired = true → ∀ k r, push_queue q1 !! k = Some r → status r = Running → in_grace now reaper r = true))
  ∨ (acquired = true ∧ ∃ row, push_queue q1 !! row_id row = Some row ∧ status row = Running
     ∧ in_grace now reaper row = false
     ∧ settled now hs row root q1 q' ∧ repaired row root d d').

Lemma swept_inv hs q : queue_inv q → queue_inv (swept hs q) ∧ keeps_results q (swept hs q).
Proof.
  intros Hq. unfold swept. destruct hs; [done|].
  split; [eapply unlocked_inv; [apply us_cancel_stale|done]|].
  apply evolves_keeps, unlocked_evolves; [done|apply us_cancel_stale].
Qed.

Lemma swept_running hs q k r :
  push_queue (swept hs q) !! k = Some r ∧ status r = Running ↔ push_queue q !! k = Some r ∧ status r = Running.
Proof. unfold swept. destruct hs; [done|]. apply cancel_stale_running. Qed.

(** The loop over the Running rows. *)
Lemma reap_rows_spec hs q d rep :
  queue_inv q → refs_inv d →
  (∃ q' d' rep', reap_rows now reaper hs (list_running_in_txn q) rep (q, d) = ((q', d'), Ok rep')
     ∧ queue_inv q' ∧ refs_inv d' ∧ keeps_results q q' ∧ reaped true hs q d q' d')
  ∨ (reap_rows now reaper hs (list_running_in_txn q) rep (q, d) = ((q, d), Panic) ∧ ¬ trees_ok d).
Proof.
  intros Hq Hd. pose proof (λ r, elem_of_running r q Hq) as Hel.
  assert (∀ k r, push_queue q !! k = Some r → status r = Running → r ∈ list_running_in_txn q) as Hin.
  { intros k r Hk Hs. apply Hel. by destruct (inv_ids q Hq k r Hk) as [-> _]. }
  destruct (running_rows q Hq) as [E|[row E]]; rewrite E in *; cbn [reap_rows].
  - left. exists q, d, rep. split_and!; [done..|]. left. split_and!; [done..|].
    intros _ k r Hk Hs. by specialize (Hin k r Hk Hs) as ?%elem_of_nil.
  - destruct (proj1 (Hel row) ltac:(by constructor)) as [Hrow Hrun].
    destruct (in_grace now reaper row) eqn:Eg.
    + left. exists q, d, (count_skip rep). split_and!; [done..|]. left. split_and!; [done..|].
      intros _ k r Hk Hs. by specialize (Hin k r Hk Hs) as ->%list_elem_of_singleton.
    + destruct (reap_running_row_spec now row hs q d Hq Hd Hrow Hrun)
        as [(q' & d' & res & Er & Hset & Hq' & Hk & Hd' & Hrep)|[Ep Hbad]].
      * left. rewrite (reap_bind_Ok _ _ _ _ _ Er). exists q', d', (count_row res rep).
        split_and!; [done..|]. right. split; [done|]. by exists row.
      * right. unfold mbind, reap_bind. by rewrite Ep.
Qed.

Lemma reap_body_spec acquired holders q d c :
  queue_inv q → refs_inv d → control q = Some c →
  let q1 := swept (hard_stopped c) q in
  (∃ q' d' rep, reap_body now reaper acquired holders (q, d) = ((q', d'), Ok rep)
     ∧ queue_inv q' ∧ refs_inv d' ∧ keeps_results q q' ∧ reaped acquired (hard_stopped c) q1 d q' d')
  ∨ (reap_body now reaper acquired holders (q, d) = ((q1, d), Panic) ∧ ¬ trees_ok d).
Proof.
  intros Hq Hd Hc q1. destruct (swept_inv (hard_stopped c) q Hq) as [Hq1 Hk1]. fold q1 in Hq1, Hk1.
  unfold reap_body.
  rewrite (reap_bind_Ok _ _ (q, d) (q, d) (hard_stopped c))
    by (unfold read_queue, is_hard_stopped_in_txn; simpl; by rewrite Hc).
  assert (∃ n, (if hard_stopped c then mret 0%Z
     else on_queue (cancel_stale_queued_in_txn (now - heartbeat_timeout reaper) now)) (q, d) = ((q1, d), Ok n))
    as [n En].
  { unfold q1, swept. destruct (hard_stopped c); [by eexists|]. rewrite on_queue_run. by eexists. }
  rewrite (reap_bind_Ok _ _ _ _ _ En).
  rewrite (reap_bind_Ok _ _ (q1, d) (q1, d) (list_running_in_txn q1) eq_refl).
  destruct acquired; cbn [negb].
  - destruct (reap_rows_spec (hard_stopped c) q1 d (mk_ReapReport true 0 0 0 0 n 0 0 false []) Hq1 Hd)
      as [(q' & d' & rep & Er & Hq' & Hd' & Hk & Hr)|[Ep Hbad]]; [left|by right].
    exists q', d', rep. split_and!; [done..| |done]. by etrans.
  - left. eexists q1, d, _. split; [done|]. split_and!; [done..|]. by left.
Qed.
End Cycle.
End Reaper.

(** C21: Every crashed write is settled by one cycle: with the write lock, readable trees
    and the control row, the cycle succeeds.  Afterwards the only Running row, if any, is
    one of before that is still in its grace period.  A Running row past it is failed as a
    bypass, with the queue stopped, when the root has left its recorded baseline;
    requeued when a conflict had asked for it; put back in the queue when the queue was
    stopped at the start of the cycle; failed otherwise.  The reference at its path is then
    gone or agrees with the root.  No recorded result changes and the tables stay
    consistent. *)
Theorem reap_settles {GO : GitObjects} now reaper holders q d c :
  queue_inv q → refs_inv d → trees_ok d → control q = Some c →
  ∃ q' d' rep, reap_once now reaper true holders (q, d) = ((q', d'), Ok rep)
    ∧ queue_inv q' ∧ refs_inv d' ∧ keeps_results q q'
    ∧ reaped now reaper true (hard_stopped c) (swept now reaper (hard_stopped c) q) d q' d'
    ∧ (∀ k r, push_queue q' !! k = Some r → status r = Running →
        push_queue q !! k = Some r ∧ in_grace now reaper r = true).
Proof.
  intros Hq Hd Hok Hc. unfold reap_once.
  destruct (reap_body_spec now reaper true holders q d c Hq Hd Hc)
    as [(q' & d' & rep & E & Hq' & Hd' & Hk & Hr)|[_ Hbad]]; [|done].
  rewrite E. exists q', d', rep. split_and!; [done..|]. intros k r Hk' Hs.
  destruct Hr as [(-> & _ & Hg)|(_ & row & Hrow & Hrun & _ & Hset & _)].
  - split; [|by eapply Hg]. by apply (swept_running now reaper (hard_stopped c)).
  - by eapply settled_running in Hset; [|apply swept_inv|..].
Qed.

(** The tables after a rollback that has used up no identity. *)
Lemma rolled_back {A} q (d : MonoDb) n (res : outcome ReapError A) (acquired : bool) :
  queue_inv q → refs_inv d → n = push_queue_seq q →
  let q' := with_seq n q in
  queue_inv q' ∧ refs_inv d ∧ keeps_results q q'
  ∧ ((∃ rep, res = Ok rep) ∨ push_queue q' = push_queue q ∧ control q' = control q ∧ d = d)
  ∧ (acquired = false → d = d ∧ ∀ k r,
      push_queue q' !! k = Some r ∧ status r = Running ↔ push_queue q !! k = Some r ∧ status r = Running).
Proof.
  intros Hq Hd -> q'. split; [by apply seq_inv|]. split; [done|]. split; [by apply same_queue_keeps|].
  split; [by right|done].
Qed.

(** A cycle is safe whatever it meets: whether or not it has the lock, and also when
    the control row is missing or a tree cannot be read, the tables stay consistent and
    recorded results stay.  A cycle that does not commit changes no row and no reference;
    one without the lock changes no reference and no Running row. *)
Theorem reap_keeps {GO : GitObjects} now reaper acquired holders q d :
  queue_inv q → refs_inv d →
  let '((q', d'), res) := reap_once now reaper acquired holders (q, d) in
  queue_inv q' ∧ refs_inv d' ∧ keeps_results q q'
  ∧ ((∃ rep, res = Ok rep) ∨ push_queue q' = push_queue q ∧ control q' = control q ∧ d' = d)
  ∧ (acquired = false → d' = d ∧ ∀ k r,
      push_queue q' !! k = Some r ∧ status r = Running ↔ push_queue q !! k = Some r ∧ status r = Running).
Proof.
  intros Hq Hd. unfold reap_once. destruct (control q) as [c|] eqn:Hc.
  - destruct (reap_body_spec now reaper acquired holders q d c Hq Hd Hc)
      as [(q' & d' & rep & -> & Hq' & Hd' & Hk & Hr)|[-> _]].
    + split_and!; [done..|by left; eexists|]. intros ->.
      destruct Hr as [(-> & -> & _)|[? _]]; [|done]. split; [done|]. apply swept_running.
    + cbn [fst snd]. rewrite <-Hc. apply (rolled_back q d _ (@Panic ReapError ReapReport) acquired); [done..|]. unfold swept. by destruct (hard_stopped c).
  - assert (reap_body now reaper acquired holders (q, d) = ((q, d), Err (ReapQueue QueueControlMissing))) as ->.
    { unfold reap_body, mbind, reap_bind, read_queue, is_hard_stopped_in_txn. simpl. by rewrite Hc. }
    cbn [fst snd]. rewrite <-Hc. by apply (rolled_back q d _ (@Err ReapError ReapReport _) acquired).
Qed.

(** ** Examples *)

(** The defaults of the source, in milliseconds. *)
Definition demo_reaper : PushQueueReaper := mk_PushQueueReaper 15000 2000 60000.

Lemma reap_settles_witness :
  ∃ q' d' rep, reap_once 100000 demo_reaper true [] (demo_running, demo_mono) = ((q', d'), Ok rep)
    ∧ ∀ k r, push_queue q' !! k = Some r → status r = Running →
        push_queue demo_running !! k = Some r ∧ in_grace 100000 demo_reaper r = true.
Proof.
  destruct (reap_settles 100000 demo_reaper [] demo_running demo_mono demo_control)
    as (q' & d' & rep & E & _ & _ & _ & _ & H);
    [apply demo_inv|apply demo_mono_inv|apply demo_trees_ok|vm_compute; reflexivity|].
  exists q', d', rep. split; [exact E|exact H].
Defined.

Lemma reap_keeps_witness :
  let '((q', d'), res) := reap_once 100000 demo_reaper false [] (demo_running, demo_mono) in
  queue_inv q' ∧ d' = demo_mono.
Proof.
  pose proof (reap_keeps 100000 demo_reaper false [] demo_running demo_mono
    ltac:(apply demo_inv) demo_mono_inv) as H.
  destruct (reap_once 100000 demo_reaper false [] (demo_running, demo_mono)) as [[q' d'] res].
  destruct H as (Hq & _ & _ & _ & Hd). split; [exact Hq|]. by apply Hd.
Defined.
