(* ===== verification/TreeOps.v ===== *)
(** * Changing a directory of the monorepo: the trees

    Models the tree part of [src/ceres/api_service/tree_ops.rs] and of
    [src/ceres/api_service/mono_api_service/logic.rs]: finding the chain of trees from
    the root to a directory, creating the directories that are missing, and rebuilding
    the chain around a new subtree, with the references that move.

    Trees are read on a connection of their own: [committed] is the table of trees that
    it sees.  All hashes are of the kind of the root tree, so that the comparisons of
    kinds hold.  [Path] operations are those of a path whose components are neither
    empty nor dots.  [gitkeep] is the identifier of the placeholder blob, which contains
    the time. *)
From stdpp Require Import base strings numbers tactics list gmap.
From S2P Require Import Prelude Text MonoPath CommitMessage GitObjects ViewCommit GitCommits MonoRefs MonoTrees.

Inductive TreeOpsError :=
  | TreeNotFound (hash : text)
  | TreeUnreadable (e : ConvertError)
  | PathNotExist (name : text)
  | PathNotTree (name : text)
  | TreeItemNotFound (name : text)
  | ModeChange (name : text)
  | DuplicateItem (name : text)
  | InvalidTree
  | InvalidPath
  | InvalidChain
  | LeafExists.

(** ** Paths *)

(** [MonoServiceLogic::clean_path_str] *)
Definition clean_path_str (path : text) : text :=
  let s := trim_end_matches is_slash path in
  if bool_decide (s = []) then lit "/" else s.

(** [Path::path_file_name] *)
Definition path_file_name (path : text) : option text :=
  let name := match rsplit_once (ch "/") path with Some (_, name) => name | None => path end in
  if bool_decide (name = []) || bool_decide (name = lit "..") then None else Some name.

(** [Path::parent] *)
Definition path_parent (path : text) : option text :=
  match rsplit_once (ch "/") path with
  | None => if bool_decide (path = []) then None else Some []
  | Some ([], []) => None
  | Some ([], _) => Some (lit "/")
  | Some (parent, _) => Some parent
  end.

(** The path after [PathBuf::pop]. *)
Definition path_pop (path : text) : text := default path (path_parent path).

(** ** Trees *)

Section TreeOps.
Context {GO : GitObjects}.

(** [Tree::from_tree_items_with_kind] *)
Definition tree_of_items (items : list item) : option GitTree :=
  id ← tree_id_of_items items; Some (mk_GitTree _ id items).

Definition item_position (name : text) (items : list item) : option nat :=
  fst <$> list_find (λ it, item_name it = name) items.

(** [items\[index\].id = hash] *)
Definition set_item_id (hash : ObjectHash) (it : item) : item :=
  mk_TreeItem (item_mode it) hash (item_name it).

Definition update_tree_hash (tree : GitTree) (name : text) (target_hash : ObjectHash)
    : outcome TreeOpsError GitTree :=
  match item_position name (tree_items tree) with
  | None => Err (TreeItemNotFound name)
  | Some index =>
      match tree_of_items (alter (set_item_id target_hash) index (tree_items tree)) with
      | Some t => Ok t
      | None => Err InvalidTree
      end
  end.

(** The first name that occurs again. *)
Fixpoint duplicate_name (seen : gset text) (items : list item) : option text :=
  match items with
  | [] => None
  | it :: items =>
      if bool_decide (item_name it ∈ seen) then Some (item_name it)
      else duplicate_name ({[item_name it]} ∪ seen) items
  end.

Definition tree_from_items_checked (items : list item) : outcome TreeOpsError GitTree :=
  match duplicate_name ∅ items with
  | Some name => Err (DuplicateItem name)
  | None =>
      match tree_of_items (sort_git_tree_items items) with
      | Some t => Ok t
      | None => Err InvalidTree
      end
  end.

Definition insert_or_replace_tree_item (tree : GitTree) (name : text) (target_hash : ObjectHash)
    (mode : TreeItemMode) : outcome TreeOpsError GitTree :=
  let items := tree_items tree in
  match item_position name items with
  | Some index =>
      match items !! index with
      | None => Panic
      | Some it =>
          if negb (bool_decide (item_mode it = mode)) then Err (ModeChange name)
          else tree_from_items_checked (alter (set_item_id target_hash) index items)
      end
  | None => tree_from_items_checked (items ++ [mk_TreeItem mode target_hash name])
  end.

Definition insert_or_replace_tree_hash (tree : GitTree) (name : text) (target_hash : ObjectHash)
    : outcome TreeOpsError GitTree :=
  insert_or_replace_tree_item tree name target_hash ModeTree.

(** ** Missing directories *)

(** A new tree for every missing component but the first; [missing_up] are the names
    above [child_name], the deepest one first. *)
Fixpoint new_intermediates (child_hash : ObjectHash) (child_name : text) (missing_up : list text)
    (produced : list GitTree) : outcome TreeOpsError (ObjectHash * text * list GitTree) :=
  match missing_up with
  | [] => Ok (child_hash, child_name, produced)
  | name :: missing_up =>
      intermediate ← tree_from_items_checked [mk_TreeItem ModeTree child_hash child_name];
      new_intermediates (tree_id intermediate) name missing_up (produced ++ [intermediate])
  end.

(** The existing trees, the deepest one first, with the names that lead to them. *)
Fixpoint roll_up (chain_up : list GitTree) (names_up : list text) (next_name : text)
    (next_hash : ObjectHash) (produced : list GitTree)
    : outcome TreeOpsError (GitTree * list GitTree) :=
  match chain_up with
  | [] => Panic
  | tree :: above =>
      updated ← insert_or_replace_tree_item tree next_name next_hash ModeTree;
      match above, names_up with
      | [], _ => Ok (updated, produced ++ [updated])
      | _, [] => Panic
      | _, name :: names_up => roll_up above names_up name (tree_id updated) (produced ++ [updated])
      end
  end.

Definition ensure_tree_path_with_chain (chain : list GitTree) (existing_child_names : list text)
    (missing_components : list text) (leaf : GitTree)
    : outcome TreeOpsError (GitTree * list GitTree) :=
  if bool_decide (chain = []) || negb (Nat.eqb (length existing_child_names + 1) (length chain))
  then Err InvalidChain
  else
    match reverse missing_components with
    | [] => Err InvalidChain
    | last_name :: missing_up =>
        made ← new_intermediates (tree_id leaf) last_name missing_up [leaf];
        let '(child_hash, child_name, produced) := made in
        roll_up (reverse chain) (reverse existing_child_names) child_name child_hash produced
    end.

(** ** The chain of trees *)

(** [ApiHandler::get_tree_by_hash] of the monorepo *)
Definition handler_tree (committed : gmap text bytes) (hash : text) : outcome TreeOpsError GitTree :=
  match committed !! hash with
  | None => Err (TreeNotFound hash)
  | Some data => map_err TreeUnreadable (tree_from_mega_model_with_kind hash data)
  end.

(** The trees below [current] along the names; the mode of an entry is not looked at. *)
Fixpoint chain_below (committed : gmap text bytes) (current : GitTree) (names : list text)
    : outcome TreeOpsError (list GitTree) :=
  match names with
  | [] => Ok []
  | name :: names =>
      match item_named name (tree_items current) with
      | None => Err (PathNotExist name)
      | Some it =>
          next ← handler_tree committed (hash_to_string (item_id it));
          rest ← chain_below committed next names;
          Ok (next :: rest)
      end
  end.

Definition search_tree_for_update_from_root (committed : gmap text bytes) (path : text)
    (root_tree : GitTree) : outcome TreeOpsError (list GitTree) :=
  rest ← chain_below committed root_tree (path_components path); Ok (root_tree :: rest).

(** The existing trees below [cursor] with the names that lead to them, and the names
    from the first one that has no entry. *)
Fixpoint split_existing (committed : gmap text bytes) (cursor : GitTree) (names : list text)
    : outcome TreeOpsError (list GitTree * list text * list text) :=
  match names with
  | [] => Ok ([], [], [])
  | name :: rest =>
      match item_named name (tree_items cursor) with
      | None => Ok ([], [], names)
      | Some it =>
          if negb (bool_decide (item_mode it = ModeTree)) then Err (PathNotTree name)
          else
            next ← handler_tree committed (hash_to_string (item_id it));
            found ← split_existing committed next rest;
            let '(trees, existing, missing) := found in
            Ok (next :: trees, name :: existing, missing)
      end
  end.

(** The chain, and the placeholder blob when a directory was created.  In the chain only
    the deepest existing tree has its new entry already. *)
Definition search_tree_for_update_or_create_from_root (committed : gmap text bytes)
    (gitkeep : option ObjectHash) (path : text) (root_tree : GitTree)
    : outcome TreeOpsError (list GitTree * option ObjectHash) :=
  found ← split_existing committed root_tree (path_components path);
  let '(trees, existing_names, missing) := found in
  let existing_chain := root_tree :: trees in
  if bool_decide (missing = []) then Ok (existing_chain, None)
  else
    match gitkeep with
    | None => Err InvalidTree
    | Some blob =>
        leaf ← tree_from_items_checked [mk_TreeItem ModeBlob blob (lit ".gitkeep")];
        made ← ensure_tree_path_with_chain existing_chain existing_names missing leaf;
        let produced := made.2 in
        let create_count := length produced - length existing_chain in
        match produced !! create_count with
        | None => Err InvalidChain
        | Some rewritten_deepest =>
            Ok (take (length existing_chain - 1) existing_chain ++ [rewritten_deepest]
                ++ reverse (take create_count produced), Some blob)
        end
    end.

(** ** The new trees and references *)

Record RefUpdate := mk_RefUpdate { ru_path : text; ru_tree_id : ObjectHash }.

Record TreeUpdateResult := mk_TreeUpdateResult {
  updated_trees : list GitTree;
  ref_updates : list RefUpdate;
}.

Definition ref_path_of (path : text) : text :=
  let clean := clean_path_str path in
  if starts_with (lit "/") clean then clean else lit "/" ++ clean.

(** The loop of both functions; [chain_up] is the chain from its end, [rebuild] puts the
    new child into a tree. *)
Fixpoint build_loop (rebuild : GitTree → text → ObjectHash → outcome TreeOpsError GitTree)
    (chain_up : list GitTree) (path : text) (updated_tree_hash : ObjectHash)
    : outcome TreeOpsError TreeUpdateResult :=
  let update := mk_RefUpdate (ref_path_of path) updated_tree_hash in
  match chain_up with
  | [] => Ok (mk_TreeUpdateResult [] [update])
  | tree :: chain_up =>
      match path_file_name path with
      | None => Err InvalidPath
      | Some name =>
          new_tree ← rebuild tree name updated_tree_hash;
          result ← build_loop rebuild chain_up (path_pop path) (tree_id new_tree);
          Ok (mk_TreeUpdateResult (new_tree :: updated_trees result) (update :: ref_updates result))
      end
  end.

Definition build_result_by_chain (path : text) (update_chain : list GitTree)
    (updated_tree_hash : ObjectHash) : outcome TreeOpsError TreeUpdateResult :=
  build_loop update_tree_hash (reverse update_chain) path updated_tree_hash.

Definition build_result_by_chain_inserting (path : text) (update_chain : list GitTree)
    (updated_tree_hash : ObjectHash) : outcome TreeOpsError TreeUpdateResult :=
  build_loop insert_or_replace_tree_hash (reverse update_chain) path updated_tree_hash.

(** ** Import repositories *)

Definition is_gitkeep_only (tree : GitTree) : bool :=
  match tree_items tree with
  | [it] => bool_decide (item_name it = lit ".gitkeep") && bool_decide (item_mode it = ModeBlob)
  | _ => false
  end.

(** The loop from the parent of the leaf up to the root: the index of each tree, its
    entry on the way down, and the new identifier of that entry, [None] to remove it. *)
Fixpoint remove_loop (gitkeep : ObjectHash) (floor : nat) (chain_up : list (nat * (GitTree * text)))
    (child : option ObjectHash) (trees : list GitTree) (keep : option ObjectHash)
    : outcome TreeOpsError (list GitTree * option ObjectHash) :=
  match chain_up with
  | [] => Ok (trees, keep)
  | (idx, (tree, name)) :: chain_up =>
      match item_position name (tree_items tree) with
      | None => Err (TreeItemNotFound name)
      | Some pos =>
          let items := match child with
                       | Some id => alter (set_item_id id) pos (tree_items tree)
                       | None => delete pos (tree_items tree)
                       end in
          let rebuilt items keep :=
            match tree_of_items items with
            | None => Err InvalidTree
            | Some t => remove_loop gitkeep floor chain_up (Some (tree_id t)) (trees ++ [t]) keep
            end in
          match items with
          | [] =>
              if Nat.ltb floor idx then remove_loop gitkeep floor chain_up None trees keep
              else rebuilt [mk_TreeItem ModeBlob gitkeep (lit ".gitkeep")] (Some gitkeep)
          | _ => rebuilt items keep
          end
      end
  end.

Definition remove_import_leaf (gitkeep : ObjectHash) (chain : list GitTree) (names : list text)
    (floor : nat) : outcome TreeOpsError (list GitTree * option ObjectHash) :=
  if bool_decide (chain = []) || negb (Nat.eqb (length chain) (length names))
     || Nat.leb (length chain) floor
  then Err InvalidChain
  else remove_loop gitkeep floor (reverse (imap pair (zip chain names))) None [] None.
End TreeOps.
