(* ===== verification/TreeOpsInv.v ===== *)
(** * Changing a directory: stored trees and one level of the chain

    Rows of trees are found under the hash of their data; saving trees keeps that, and
    what was read before is read again.  A rebuilt tree differs from the tree it was
    made from in one entry. *)
From stdpp Require Import base strings numbers tactics list gmap.
From S2P Require Import Prelude Text MonoPath CommitMessage GitObjects ViewCommit GitCommits MonoRefs MonoTrees.
From S2P Require Import MonoAdvanceInv TreeOps.

Section Stored.
Context `{GitLaws}.

(** ** Rows *)

Definition names_of (its : list item) : list text := item_name <$> its.

Lemma hash_text_inj h1 h2 : hash_to_string h1 = hash_to_string h2 → h1 = h2.
Proof. intros E. apply (f_equal from_hex_for_kind) in E. rewrite !from_hex_to_string in E. by injection E. Qed.

Definition trees_sound (m : gmap text bytes) : Prop :=
  ∀ h d, m !! h = Some d → ∃ id its, h = hash_to_string id ∧ hash_tree_data d = Some id
                                     ∧ tree_from_bytes d = Some its ∧ NoDup (names_of its).

Lemma sound_ok db : trees_sound (mega_tree db) → trees_ok db.
Proof.
  intros Hs h d (id & its & -> & _ & Hb & _)%Hs. unfold tree_from_mega_model_with_kind.
  rewrite from_hex_to_string, Hb. eauto.
Qed.

(** A tree with entries that can be stored. *)
Definition good_tree (t : GitTree) : Prop :=
  tree_items t ≠ [] ∧ Forall storable (tree_items t) ∧ NoDup (names_of (tree_items t))
  ∧ tree_id_of_items (tree_items t) = Some (tree_id t).

Lemma tree_of_items_good its :
  its ≠ [] → Forall storable its → NoDup (names_of its) →
  ∃ t, tree_of_items its = Some t ∧ tree_items t = its ∧ good_tree t.
Proof.
  intros Hne Hst Hnd. destruct (from_bytes_to_data its Hst) as (d & Hd & _).
  destruct (hash_total d) as [id Hid].
  assert (tree_id_of_items its = Some id) as E by (by rewrite (tree_id_of_items_spec its d)).
  unfold tree_of_items. rewrite E. by exists (mk_GitTree _ id its).
Qed.

Lemma good_data t :
  good_tree t → ∃ d, tree_to_data (tree_items t) = Some d ∧ hash_tree_data d = Some (tree_id t)
    ∧ tree_from_bytes d = Some (tree_items t).
Proof.
  intros (Hne & Hst & _ & Hid). destruct (from_bytes_to_data _ Hst) as (d & Hd & Hb).
  exists d. by rewrite <-(tree_id_of_items_spec _ d Hne Hd).
Qed.

Lemma stored_sound db h t :
  trees_sound (mega_tree db) → stored_tree db h = Some t →
  h = hash_to_string (tree_id t) ∧ Forall storable (tree_items t) ∧ NoDup (names_of (tree_items t)).
Proof.
  intros Hs. unfold stored_tree. destruct (mega_tree db !! h) as [d|] eqn:E; [|done]. simpl.
  destruct (Hs h d E) as (id & its & -> & Hh & Hb & Hnd). unfold tree_from_mega_model_with_kind.
  rewrite from_hex_to_string, Hb. intros [= <-]. split; [done|]. split; [by eapply from_bytes_storable|done].
Qed.

Lemma stored_mono db db' h t :
  mega_tree db ⊆ mega_tree db' → stored_tree db h = Some t → stored_tree db' h = Some t.
Proof.
  intros Hsub. unfold stored_tree. destruct (mega_tree db !! h) as [d|] eqn:E; [|done]. simpl.
  by rewrite (lookup_weaken _ _ _ _ E Hsub).
Qed.

Lemma tree_below_mono db db' h cs x :
  mega_tree db ⊆ mega_tree db' → tree_below db h cs = Some x → tree_below db' h cs = Some x.
Proof.
  intros Hsub. revert h. induction cs as [|c cs IH]; intros h; [done|]. simpl.
  destruct (stored_tree db h) as [t|] eqn:E; [|done]. rewrite (stored_mono _ _ _ _ Hsub E). simpl.
  destruct (find_dir c (tree_items t)) as [h'|]; [|done]. apply IH.
Qed.

(** ** Saving trees *)

Definition tree_row (t : GitTree) (kd : text * bytes) : Prop :=
  kd.1 = hash_to_string (tree_id t) ∧ tree_to_data (tree_items t) = Some kd.2.

Lemma insert_rows m ts rows :
  trees_sound m → Forall good_tree ts → Forall2 tree_row ts rows →
  let m' := foldl (λ m kd, insert_absent kd.1 kd.2 m) m rows in
  trees_sound m' ∧ m ⊆ m' ∧ Forall (λ kd, m' !! kd.1 = Some kd.2) rows.
Proof.
  intros Hs Hg Hr. revert m Hs. induction Hr as [|t [k d] ts rows [Hk Hd] Hr IH]; intros m Hs.
  { split_and!; [done..|constructor]. }
  apply Forall_cons in Hg as [Hgt Hg]. simpl in Hk, Hd. subst k.
  destruct (good_data t Hgt) as (d' & Hd' & Hh & Hb). rewrite Hd in Hd'. injection Hd' as <-.
  assert (∃ m1, insert_absent (hash_to_string (tree_id t)) d m = m1 ∧ trees_sound m1 ∧ m ⊆ m1
            ∧ m1 !! hash_to_string (tree_id t) = Some d) as (m1 & Hm1 & Hs1 & Hsub & Hl).
  { unfold insert_absent. destruct (m !! hash_to_string (tree_id t)) as [d0|] eqn:E.
    - exists m. split_and!; [done..|]. destruct (Hs _ _ E) as (id & its & Eid & Hh0 & _ & _).
      apply hash_text_inj in Eid as <-. by rewrite (collision_free _ _ _ Hh0 Hh) in E.
    - eexists. split; [done|]. split; [|split; [by apply insert_subseteq|by rewrite lookup_insert_eq]].
      intros h x. rewrite lookup_insert_Some. intros [[<- <-]|[_ Hx]]; [|by apply Hs].
      destruct Hgt as (_ & _ & Hnd & _). by exists (tree_id t), (tree_items t). }
  simpl. rewrite Hm1. destruct (IH Hg m1 Hs1) as (IH1 & IH2 & IH3).
  split_and!; [done|by etrans|]. constructor; [|done]. simpl. by eapply lookup_weaken.
Qed.

Lemma save_trees_spec ts db :
  trees_sound (mega_tree db) → Forall good_tree ts →
  ∃ m, save_mega_trees ts db = Ok (with_trees m db) ∧ trees_sound m ∧ mega_tree db ⊆ m
    ∧ ∀ t, t ∈ ts → stored_tree (with_trees m db) (hash_to_string (tree_id t)) = Some t.
Proof.
  intros Hs Hg. unfold save_mega_trees.
  assert (∃ rows, mapM (λ t, d ← or_panic (tree_to_data (tree_items t));
                             Ok (hash_to_string (tree_id t), d)) ts = Ok rows
            ∧ Forall2 tree_row ts rows) as (rows & -> & Hrows).
  { clear Hs. induction Hg as [|t ts Hgt Hg (rows & IH & IHf)]; [by exists []|].
    destruct (good_data t Hgt) as (d & Hd & _). cbn [mapM]. rewrite Hd. cbn [or_panic mbind outcome_bind].
    rewrite IH. eexists. split; [done|]. by constructor. }
  cbn [mbind outcome_bind]. destruct (insert_rows _ ts rows Hs Hg Hrows) as (H1 & H2 & H3).
  eexists. split; [done|]. split_and!; [done..|]. intros t Ht.
  destruct (Forall2_in_l _ _ _ _ Hrows Ht) as ([k d] & Hin & Hk & Hd). simpl in Hk, Hd. subst k.
  rewrite Forall_forall in H3. rewrite Forall_forall in Hg. specialize (H3 _ Hin). simpl in H3. unfold stored_tree. simpl. rewrite H3. simpl.
  destruct (good_data t (Hg t Ht)) as (d' & Hd' & _ & Hb). rewrite Hd in Hd'. injection Hd' as <-.
  unfold tree_from_mega_model_with_kind. rewrite from_hex_to_string, Hb. by destruct t.
Qed.

(** ** One level *)

Lemma item_named_find name its it :
  item_named name its = Some it ↔ snd <$> list_find (λ it, item_name it = name) its = Some it.
Proof.
  unfold item_named. induction its as [|i its IH]; simpl; [done|].
  destruct (decide (item_name i = name)) as [E|E].
  - rewrite bool_decide_eq_true_2 by done. done.
  - rewrite bool_decide_eq_false_2 by done. rewrite IH. by destruct (list_find _ its) as [[]|].
Qed.

Lemma item_named_Some name its it : item_named name its = Some it → it ∈ its ∧ item_name it = name.
Proof. intros [Hin E]%List.find_some. bool_prop. split; [by apply list_elem_of_In|done]. Qed.

Lemma item_named_None name its : item_named name its = None ↔ (name ∉ names_of its).
Proof.
  unfold item_named, names_of. split.
  - intros Hn (it & -> & Hin%list_elem_of_In)%list_elem_of_fmap. eapply List.find_none in Hn; [|done].
    by rewrite bool_decide_eq_true_2 in Hn.
  - intros Hn. destruct (List.find _ its) as [it|] eqn:E; [|done].
    apply item_named_Some in E as [Hin <-]. exfalso. by apply Hn, list_elem_of_fmap_2.
Qed.

Lemma item_named_unique name its it :
  NoDup (names_of its) → it ∈ its → item_name it = name → item_named name its = Some it.
Proof.
  intros Hn Hin <-. destruct (item_named (item_name it) its) as [it'|] eqn:E.
  - apply item_named_Some in E as [Hin' E]. f_equal.
    apply list_elem_of_lookup in Hin as [i Hi], Hin' as [j Hj].
    assert (i = j) as ->; [|congruence].
    eapply NoDup_lookup; [exact Hn|unfold names_of; by rewrite list_lookup_fmap, Hi|].
    unfold names_of. rewrite list_lookup_fmap, Hj. simpl. by rewrite E.
  - apply item_named_None in E. exfalso. by apply E, list_elem_of_fmap_2.
Qed.

Lemma item_named_perm name its its' :
  NoDup (names_of its) → its ≡ₚ its' → item_named name its' = item_named name its.
Proof.
  intros Hn Hp. assert (NoDup (names_of its')) as Hn' by (unfold names_of; by rewrite <-Hp).
  destruct (item_named name its) as [it|] eqn:E.
  - apply item_named_Some in E as [Hin <-]. apply item_named_unique; [done| |done]. by rewrite <-Hp.
  - apply item_named_None in E. apply item_named_None. unfold names_of in *. by rewrite <-Hp.
Qed.

Lemma names_alter h i its : names_of (alter (set_item_id h) i its) = names_of its.
Proof.
  unfold names_of. revert i. induction its as [|it its IH]; intros [|i]; simpl; [done..|].
  f_equal. apply (IH i).
Qed.

Lemma position_spec name its :
  match item_position name its with
  | Some i => ∃ it, its !! i = Some it ∧ item_named name its = Some it
  | None => item_named name its = None
  end.
Proof.
  unfold item_position. destruct (list_find _ its) as [[i it]|] eqn:E; simpl.
  - exists it. split; [by apply list_find_Some in E as (? & _)|]. apply item_named_find. by rewrite E.
  - apply item_named_None. intros (it & -> & Hin)%list_elem_of_fmap.
    apply list_find_None in E. rewrite Forall_forall in E. by apply (E it).
Qed.

Lemma item_named_cons c it its :
  item_named c (it :: its) = if bool_decide (item_name it = c) then Some it else item_named c its.
Proof. done. Qed.

(** The first entry of the name gets another identifier. *)
Lemma item_named_alter name c h i its :
  item_position name its = Some i →
  item_named c (alter (set_item_id h) i its) =
  if bool_decide (c = name) then set_item_id h <$> item_named name its else item_named c its.
Proof.
  unfold item_position. revert i. induction its as [|it its IH]; intros i; simpl; [done|].
  destruct (decide (item_name it = name)) as [E|E].
  - intros [= <-]. change (alter (set_item_id h) 0 (it :: its)) with (set_item_id h it :: its).
    rewrite !item_named_cons. change (item_name (set_item_id h it)) with (item_name it). rewrite E.
    rewrite (bool_decide_eq_true_2 (name = name)) by done. simpl.
    repeat case_bool_decide; congruence.
  - destruct (list_find _ its) as [[j it']|] eqn:Ef; [|done]. simpl. intros [= <-].
    change (alter (set_item_id h) (S j) (it :: its)) with (it :: alter (set_item_id h) j its).
    rewrite !item_named_cons, (IH j eq_refl). repeat case_bool_decide; congruence.
Qed.

Lemma alter_storable h i its : Forall storable its → Forall storable (alter (set_item_id h) i its).
Proof. intros Hs. apply Forall_alter; [done|]. intros it _ Hst. exact Hst. Qed.

(** [t'] is [t] with the entry [name], of that mode, at [h]. *)
Record replaced (mode : TreeItemMode) (name : text) (h : ObjectHash) (t t' : GitTree) : Prop := {
  rp_good : good_tree t';
  rp_entry : item_named name (tree_items t') = Some (mk_TreeItem mode h name);
  rp_other c : c ≠ name → item_named c (tree_items t') = item_named c (tree_items t);
}.

Lemma update_tree_hash_spec t name h it :
  Forall storable (tree_items t) → NoDup (names_of (tree_items t)) → item_named name (tree_items t) = Some it →
  ∃ t', update_tree_hash t name h = Ok t' ∧ replaced (item_mode it) name h t t'.
Proof.
  intros Hs Hnd Hit. unfold update_tree_hash. pose proof (position_spec name (tree_items t)) as Hp.
  destruct (item_position name (tree_items t)) as [i|] eqn:Ei; [|congruence].
  destruct Hp as (it' & Hi & Hit'). rewrite Hit in Hit'. injection Hit' as <-.
  destruct (tree_of_items_good (alter (set_item_id h) i (tree_items t))) as (t' & -> & Ht & Hg).
  { intros E. apply (f_equal length) in E. rewrite length_alter in E. apply lookup_lt_Some in Hi. simpl in E. lia. }
  { by apply alter_storable. }
  { by rewrite names_alter. }
  exists t'. split; [done|]. split; [done| |].
  - rewrite Ht, (item_named_alter name) by done. rewrite bool_decide_eq_true_2 by done.
    rewrite Hit. simpl. apply item_named_Some in Hit as [_ <-]. done.
  - intros c Hc. rewrite Ht, (item_named_alter name) by done. by rewrite bool_decide_eq_false_2.
Qed.

Lemma update_tree_hash_missing t name h :
  item_named name (tree_items t) = None → update_tree_hash t name h = Err (TreeItemNotFound name).
Proof.
  intros Hn. unfold update_tree_hash. pose proof (position_spec name (tree_items t)) as Hp.
  destruct (item_position _ _); [|done]. destruct Hp as (it & _ & ?). congruence.
Qed.

(** *** Insertion *)

Lemma duplicate_name_None seen its :
  duplicate_name seen its = None ↔ NoDup (names_of its) ∧ ∀ n, n ∈ names_of its → (n ∉ seen).
Proof.
  revert seen. induction its as [|it its IH]; intros seen; simpl.
  { split; [|done]. intros _. split; [constructor|]. by intros n ?%not_elem_of_nil. }
  unfold names_of. simpl. destruct (bool_decide _) eqn:E; bool_prop.
  - split; [done|]. intros [_ Hn]. exfalso. eapply Hn; [by constructor|done].
  - rewrite IH, NoDup_cons. unfold names_of. set_solver.
Qed.

Lemma sort_items_perm its : sort_git_tree_items its ≡ₚ its.
Proof. apply sort_by_perm. Qed.

Lemma tree_from_items_checked_spec its :
  its ≠ [] → Forall storable its → NoDup (names_of its) →
  ∃ t, tree_from_items_checked its = Ok t ∧ good_tree t
    ∧ ∀ c, item_named c (tree_items t) = item_named c its.
Proof.
  intros Hne Hst Hn. unfold tree_from_items_checked.
  rewrite (proj2 (duplicate_name_None ∅ its)) by (split; [done|set_solver]).
  pose proof (sort_items_perm its) as Hp.
  destruct (tree_of_items_good (sort_git_tree_items its)) as (t & -> & Ht & Hg).
  { intros E. rewrite E in Hp. by apply Permutation_nil_l in Hp. }
  { by rewrite Hp. }
  { unfold names_of. by rewrite Hp. }
  exists t. split; [done|]. split; [done|]. rewrite Ht. intros c. by apply item_named_perm.
Qed.

Lemma insert_or_replace_spec t name h :
  Forall storable (tree_items t) → NoDup (names_of (tree_items t)) → (0%N ∉ name) →
  (∀ it, item_named name (tree_items t) = Some it → item_mode it = ModeTree) →
  ∃ t', insert_or_replace_tree_hash t name h = Ok t' ∧ replaced ModeTree name h t t'.
Proof.
  intros Hs Hn Hname Hmode. unfold insert_or_replace_tree_hash, insert_or_replace_tree_item.
  pose proof (position_spec name (tree_items t)) as Hp.
  destruct (item_position name (tree_items t)) as [i|] eqn:Ei.
  - destruct Hp as (it & Hi & Hit). rewrite Hi, (bool_decide_eq_true_2 _ (Hmode it Hit)). cbn [negb].
    destruct (tree_from_items_checked_spec (alter (set_item_id h) i (tree_items t))) as (t' & -> & Hg & Ht).
    { intros E. apply (f_equal length) in E. rewrite length_alter in E. apply lookup_lt_Some in Hi. simpl in E. lia. }
    { by apply alter_storable. }
    { by rewrite names_alter. }
    exists t'. split; [done|]. split; [done| |].
    + rewrite Ht, (item_named_alter name) by done. rewrite bool_decide_eq_true_2 by done.
      rewrite Hit. simpl. unfold set_item_id. rewrite (Hmode it Hit). by apply item_named_Some in Hit as [_ <-].
    + intros c Hc. rewrite Ht, (item_named_alter name) by done. by rewrite bool_decide_eq_false_2.
  - apply item_named_None in Hp.
    destruct (tree_from_items_checked_spec (tree_items t ++ [mk_TreeItem ModeTree h name])) as (t' & -> & Hg & Ht).
    { by destruct (tree_items t). }
    { apply Forall_app. split; [done|]. by constructor. }
    { unfold names_of. rewrite fmap_app. apply NoDup_app. split; [done|]. split; [|apply NoDup_singleton].
      intros n Hin ->%list_elem_of_singleton. done. }
    exists t'. split; [done|]. split; [done| |].
    + rewrite Ht. apply item_named_unique.
      * unfold names_of. rewrite fmap_app. apply NoDup_app. split; [done|]. split; [|apply NoDup_singleton].
        intros n Hin ->%list_elem_of_singleton. done.
      * apply elem_of_app. right. by constructor.
      * done.
    + intros c Hc. rewrite Ht. unfold item_named. clear -Hc. induction (tree_items t) as [|it its IH]; simpl.
      * by rewrite bool_decide_eq_false_2 by congruence.
      * by destruct (bool_decide _).
Qed.
End Stored.
