(* ===== verification/TreeSurgery.v ===== *)
(** * Changing a directory: the whole chain

    The chain of trees that a search returns, rebuilt around a new subtree: what the new
    root has at every path.  [spine] relates the chain to the tables, also when some of
    its trees are new directories. *)
From stdpp Require Import base strings numbers tactics list gmap.
From S2P Require Import Prelude Text FilterSyntax FilterCanonical FilterSemantics MonoPath CommitMessage GitPath GitObjects.
From S2P Require Import ViewCommit GitCommits MonoRefs MonoTrees MonoRefsInv MonoRefsTheorems MonoAdvanceInv TreeOps TreeOpsInv.

(** ** Paths *)

Lemma file_name_display ns n : mono_segment n → path_file_name (display_path (ns ++ [n])) = Some n.
Proof.
  intros ([Hne Hsl] & _ & Hdd & _). unfold path_file_name. rewrite display_snoc, rsplit_once_app by done.
  by rewrite !bool_decide_eq_false_2 by done.
Qed.

Lemma path_parent_display ns n :
  mono_segment n → path_parent (display_path (ns ++ [n])) = Some (display_path ns).
Proof.
  intros ([Hne Hsl] & _). unfold path_parent. rewrite display_snoc, rsplit_once_app by done.
  destruct (decide (ns = [])) as [->|Hns].
  - rewrite bool_decide_eq_true_2 by done. by destruct n.
  - rewrite bool_decide_eq_false_2 by done. by destruct (display_path ns) eqn:E; rewrite display_cons in E.
Qed.

Lemma path_pop_display ns n : mono_segment n → path_pop (display_path (ns ++ [n])) = display_path ns.
Proof. intros Hn. unfold path_pop. by rewrite path_parent_display. Qed.

Lemma clean_display ns : Forall plain_segment ns → clean_path_str (display_path ns) = display_path ns.
Proof.
  intros Hn. unfold clean_path_str. destruct (decide (ns = [])) as [->|Hne]; [done|].
  rewrite trim_display_dir by done. rewrite bool_decide_eq_false_2; [done|]. by rewrite display_cons.
Qed.

Lemma ref_path_display ns : Forall plain_segment ns → ref_path_of (display_path ns) = display_path ns.
Proof.
  intros Hn. unfold ref_path_of. rewrite clean_display by done.
  assert (starts_with (lit "/") (display_path ns) = true) as ->; [|done].
  apply starts_with_spec. rewrite display_cons. by eexists.
Qed.

(** Neither path leads to the other. *)
Definition diverges (cs names : list text) : Prop := ¬ (cs `prefix_of` names) ∧ ¬ (names `prefix_of` cs).

Lemma diverges_cons c cs names : diverges (c :: cs) (c :: names) → diverges cs names.
Proof. intros [H1 H2]. split; intros Hp; [apply H1|apply H2]; by apply prefix_cons. Qed.

Section Surgery.
Context `{GitLaws}.

(** ** The rebuilt chain *)

Definition head_id (chain : list GitTree) (x : ObjectHash) : ObjectHash :=
  match chain with t :: _ => tree_id t | [] => x end.

Fixpoint rebuilt (chain : list GitTree) (names : list text) (x : ObjectHash) (chain' : list GitTree) : Prop :=
  match chain, names, chain' with
  | [], [], [] => True
  | t :: chain, n :: names, t' :: chain' =>
      replaced ModeTree n (head_id chain' x) t t' ∧ rebuilt chain names x chain'
  | _, _, _ => False
  end.

Lemma rebuilt_snoc chain names x chain' t n t' :
  rebuilt chain names (tree_id t') chain' → replaced ModeTree n x t t' →
  rebuilt (chain ++ [t]) (names ++ [n]) x (chain' ++ [t']).
Proof.
  revert names chain'. induction chain as [|u chain IH]; intros [|m names] [|u' chain']; try done.
  intros [Hu Hr] Ht. split; [|by apply IH]. by destruct chain'.
Qed.

Lemma rebuilt_length chain names x chain' :
  rebuilt chain names x chain' → length chain = length names ∧ length chain' = length names.
Proof.
  revert names chain'. induction chain as [|u chain IH]; intros [|m names] [|u' chain']; try done.
  intros [_ Hr]. simpl. destruct (IH names chain' Hr). lia.
Qed.

Lemma rebuilt_good chain names x chain' : rebuilt chain names x chain' → Forall good_tree chain'.
Proof.
  revert names chain'. induction chain as [|u chain IH]; intros [|m names] [|u' chain']; try done.
  intros [Hu Hr]. constructor; [by destruct Hu|by eapply IH].
Qed.

(** The references of the chain, the deepest one first. *)
Definition chain_updates (names : list text) (ids : list ObjectHash) : list RefUpdate :=
  reverse (imap (λ i id, mk_RefUpdate (display_path (take i names)) id) ids).

Lemma chain_updates_snoc names n ids x :
  length ids = S (length names) →
  chain_updates (names ++ [n]) (ids ++ [x]) = mk_RefUpdate (display_path (names ++ [n])) x :: chain_updates names ids.
Proof.
  intros Hl. unfold chain_updates. rewrite imap_app, reverse_app. simpl. rewrite Nat.add_0_r, Hl.
  rewrite take_ge by (rewrite length_app; simpl; lia). f_equal. f_equal. apply imap_ext.
  intros i id Hi%lookup_lt_Some. f_equal. rewrite take_app_le by lia. done.
Qed.

(** The level can be rebuilt. *)
Definition rebuilds (rebuild : GitTree → text → ObjectHash → outcome TreeOpsError GitTree)
    (t : GitTree) (n : text) : Prop :=
  ∀ h, ∃ t', rebuild t n h = Ok t' ∧ replaced ModeTree n h t t'.

Lemma build_loop_spec rebuild chain names x :
  Forall mono_segment names → Forall2 (rebuilds rebuild) chain names →
  ∃ chain', build_loop rebuild (reverse chain) (display_path names) x
      = Ok (mk_TreeUpdateResult (reverse chain') (chain_updates names ((tree_id <$> chain') ++ [x])))
    ∧ rebuilt chain names x chain'.
Proof.
  revert names x. induction chain as [|t chain IH] using rev_ind; intros names x Hn Hf.
  { apply Forall2_nil_inv_l in Hf as ->. by exists []. }
  apply Forall2_app_inv_l in Hf as (ns & n' & Hf & Hl & ->).
  apply Forall2_cons_inv_l in Hl as (n & n'' & Hr & ->%Forall2_nil_inv_l & ->).
  apply Forall_app in Hn as [Hns Hn]. apply Forall_cons in Hn as [Hn _].
  rewrite reverse_app. cbn [reverse app rev_append build_loop].
  change (reverse [t]) with [t]. cbn [app build_loop].
  rewrite file_name_display, path_pop_display by done. destruct (Hr x) as (t' & -> & Ht').
  cbn [mbind outcome_bind]. destruct (IH ns (tree_id t') Hns Hf) as (chain' & -> & Hc).
  cbn [mbind outcome_bind updated_trees ref_updates]. exists (chain' ++ [t']).
  split; [|by apply rebuilt_snoc]. destruct (rebuilt_length _ _ _ _ Hc) as [_ Hl'].
  rewrite reverse_app, fmap_app. change (reverse [t']) with [t']. cbn [app].
  rewrite chain_updates_snoc by (rewrite length_app, length_fmap; simpl; lia).
  rewrite ref_path_display by (apply mono_plain, Forall_app; by split; [|constructor]).
  done.
Qed.

(** ** Where the new root leads *)

Section Lookup.
Context (db : MonoDb) (x : ObjectHash).

Definition all_stored (chain' : list GitTree) : Prop :=
  ∀ t, t ∈ chain' → stored_tree db (hash_to_string (tree_id t)) = Some t.

Lemma replaced_dir n h t t' : replaced ModeTree n h t t' → find_dir n (tree_items t') = Some (hash_to_string h).
Proof. intros [_ He _]. apply find_dir_Some. eexists. split; [exact He|done]. Qed.

Lemma rebuilt_below chain names chain' cs :
  rebuilt chain names x chain' → all_stored chain' →
  tree_below db (hash_to_string (head_id chain' x)) (names ++ cs) = tree_below db (hash_to_string x) cs.
Proof.
  revert names chain'. induction chain as [|t chain IH]; intros [|n names] [|t' chain']; try done.
  intros [Ht Hr] Hs. simpl. rewrite (Hs t') by constructor. simpl.
  rewrite (replaced_dir _ _ _ _ Ht). simpl. apply IH; [done|]. intros u Hu. apply Hs. by constructor.
Qed.

Lemma rebuilt_prefix chain names chain' i t :
  rebuilt chain names x chain' → all_stored chain' → chain' !! i = Some t →
  tree_below db (hash_to_string (head_id chain' x)) (take i names) = Some (hash_to_string (tree_id t)).
Proof.
  revert names chain' i. induction chain as [|u chain IH]; intros [|n names] [|t' chain'] i; try done.
  intros [Ht Hr] Hs. destruct i as [|i]; [by intros [= ->]|]. intros Hi. simpl in Hi. cbn [take tree_below head_id].
  rewrite (Hs t') by constructor. simpl. rewrite (replaced_dir _ _ _ _ Ht). simpl.
  apply IH; [done| |done]. intros v Hv. apply Hs. by constructor.
Qed.

(** [t] has what the old tree has, but for the entry [n]; a directory that did not exist
    has at most the placeholder. *)
Definition level_kept (o : option GitTree) (n : text) (t : GitTree) : Prop :=
  ∀ c, c ≠ n →
    item_named c (tree_items t) = (o ≫= λ o, item_named c (tree_items o))
    ∨ (o = None ∧ c = lit ".gitkeep" ∧ ∃ b, item_named c (tree_items t) = Some (mk_TreeItem ModeBlob b c)).

Fixpoint spine (h : option text) (names : list text) (chain : list GitTree) : Prop :=
  match names, chain with
  | [], [] => True
  | n :: names, t :: chain =>
      let o := h ≫= stored_tree db in
      level_kept o n t ∧ spine (o ≫= λ o, find_dir n (tree_items o)) names chain
  | _, _ => False
  end.

Lemma level_dirs o n t c :
  level_kept o n t → c ≠ n → find_dir c (tree_items t) = o ≫= λ o, find_dir c (tree_items o).
Proof.
  intros Hk Hc. unfold find_dir at 1. destruct (Hk c Hc) as [->|(-> & _ & b & ->)]; [|done].
  by destruct o.
Qed.

Lemma spine_kept h chain names chain' cs :
  rebuilt chain names x chain' → all_stored chain' → spine h names chain → diverges cs names →
  tree_below db (hash_to_string (head_id chain' x)) cs = h ≫= λ h, tree_below db h cs.
Proof.
  revert h names chain' cs. induction chain as [|t chain IH]; intros h [|n names] [|t' chain'] cs; try done.
  { intros _ _ _ [_ []]. apply prefix_nil. }
  intros [Ht Hr] Hs [Hk Hsp] Hd. destruct cs as [|c cs]; [by destruct Hd as [[] _]; apply prefix_nil|].
  cbn [tree_below head_id]. rewrite (Hs t') by constructor. cbn [mbind option_bind].
  assert (h ≫= (λ h, t ← stored_tree db h; h' ← find_dir c (tree_items t); tree_below db h' cs)
          = ((h ≫= stored_tree db) ≫= λ o, find_dir c (tree_items o)) ≫= λ h', tree_below db h' cs) as E.
  { destruct h as [h|]; [|done]. simpl. by destruct (stored_tree db h). }
  rewrite E. destruct (decide (c = n)) as [->|Hne].
  - rewrite (replaced_dir _ _ _ _ Ht). cbn [mbind option_bind].
    eapply IH; [exact Hr| |exact Hsp|by eapply diverges_cons]. intros u Hu. apply Hs. by constructor.
  - assert (find_dir c (tree_items t') = find_dir c (tree_items t)) as ->
      by (unfold find_dir; by rewrite (rp_other _ _ _ _ _ Ht)).
    by rewrite (level_dirs _ _ _ _ Hk Hne).
Qed.

(** *** Entries *)

(** The entry at the path [c :: cs]. *)
Fixpoint entry_at (h : text) (c : text) (cs : list text) : option item :=
  t ← stored_tree db h;
  match cs with
  | [] => item_named c (tree_items t)
  | c' :: cs' => h' ← find_dir c (tree_items t); entry_at h' c' cs'
  end.

Lemma spine_entries h chain names chain' c cs :
  rebuilt chain names x chain' → all_stored chain' → spine h names chain → diverges (c :: cs) names →
  entry_at (hash_to_string (head_id chain' x)) c cs = (h ≫= λ h, entry_at h c cs)
  ∨ ∃ b, entry_at (hash_to_string (head_id chain' x)) c cs = Some (mk_TreeItem ModeBlob b (lit ".gitkeep"))
      ∧ (h ≫= λ h, tree_below db h (removelast (c :: cs)) ≫= stored_tree db) = None.
Proof.
  revert h names chain' c cs. induction chain as [|t chain IH]; intros h [|n names] [|t' chain'] c cs; try done.
  { intros _ _ _ [_ []]. apply prefix_nil. }
  intros [Ht Hr] Hs [Hk Hsp] Hd. cbn [head_id].
  assert (∀ u, u ∈ chain' → stored_tree db (hash_to_string (tree_id u)) = Some u) as Hs'
    by (intros u Hu; apply Hs; by constructor).
  assert (stored_tree db (hash_to_string (tree_id t')) = Some t') as Est by (apply Hs; by constructor).
  destruct cs as [|c' cs].
  - cbn [entry_at removelast tree_below]. rewrite Est. cbn [mbind option_bind].
    assert (c ≠ n) as Hne. { intros ->. destruct Hd as [[] _]. apply prefix_cons, prefix_nil. }
    rewrite (rp_other _ _ _ _ _ Ht c Hne). destruct (Hk c Hne) as [->|(Ho & -> & b & ->)].
    + left. by destruct h.
    + right. exists b. split; [done|]. by destruct h.
  - change (removelast (c :: c' :: cs)) with (c :: removelast (c' :: cs)).
    cbn [entry_at tree_below]. rewrite Est. cbn [mbind option_bind].
    set (o := h ≫= stored_tree db) in *.
    assert ((h ≫= λ h, t ← stored_tree db h; h' ← find_dir c (tree_items t); entry_at h' c' cs)
            = (o ≫= λ o, find_dir c (tree_items o)) ≫= λ h', entry_at h' c' cs) as E1
      by (unfold o; destruct h as [h|]; [|done]; simpl; by destruct (stored_tree db h)).
    assert ((h ≫= λ h, (t ← stored_tree db h; h' ← find_dir c (tree_items t);
                          tree_below db h' (removelast (c' :: cs))) ≫= stored_tree db)
            = (o ≫= λ o, find_dir c (tree_items o)) ≫= λ h',
                tree_below db h' (removelast (c' :: cs)) ≫= stored_tree db) as E2.
    { unfold o. destruct h as [h|]; [|done]. simpl. destruct (stored_tree db h) as [u|]; [|done]. simpl.
      by destruct (find_dir c (tree_items u)). }
    rewrite E1, E2. destruct (decide (c = n)) as [->|Hne].
    + rewrite (replaced_dir _ _ _ _ Ht). cbn [mbind option_bind].
      apply (IH _ names chain'); [done|exact Hs'|done|by eapply diverges_cons].
    + left. assert (find_dir c (tree_items t') = find_dir c (tree_items t)) as ->
        by (unfold find_dir; by rewrite (rp_other _ _ _ _ _ Ht)).
      by rewrite (level_dirs _ _ _ _ Hk Hne).
Qed.
End Lookup.
End Surgery.

(** * Searching and creating directories *)

Section Search.
Context `{GitLaws}.
Context (db db' : MonoDb) (committed : gmap text bytes).
Context (Hsound : trees_sound (mega_tree db)).
Context (Hcom : mega_tree db ⊆ committed) (Hsub : mega_tree db ⊆ mega_tree db').

Lemma handler_stored h t : stored_tree db h = Some t → handler_tree committed h = Ok t.
Proof.
  unfold stored_tree, handler_tree. destruct (mega_tree db !! h) as [d|] eqn:E; [|done]. simpl.
  rewrite (lookup_weaken _ _ _ _ E Hcom). destruct (tree_from_mega_model_with_kind h d); by intros [= ->].
Qed.

(** ** Spines *)

Lemma level_kept_refl (t : GitTree) n : level_kept (Some t) n t.
Proof. intros c _. by left. Qed.

Lemma level_kept_replaced o n h t t' : level_kept o n t → replaced ModeTree n h t t' → level_kept o n t'.
Proof. intros Hk Hr c Hc. rewrite (rp_other _ _ _ _ _ Hr c Hc). by apply Hk. Qed.

Definition below_opt (h : option text) (cs : list text) : option text := h ≫= λ h, tree_below db' h cs.

Lemma below_opt_cons h c cs :
  below_opt h (c :: cs) = below_opt ((h ≫= stored_tree db') ≫= λ o, find_dir c (tree_items o)) cs.
Proof. destruct h as [h|]; [|done]. unfold below_opt. simpl. by destruct (stored_tree db' h). Qed.

Lemma spine_app h ns ms chain chain2 :
  spine db' h ns chain → spine db' (below_opt h ns) ms chain2 → spine db' h (ns ++ ms) (chain ++ chain2).
Proof.
  revert h chain. induction ns as [|n ns IH]; intros h [|t chain]; try done.
  { by destruct h. }
  intros [Hk Hs]. rewrite below_opt_cons. intros H2. split; [done|]. by apply IH.
Qed.

Lemma spine_last h ns n chain t t' x :
  spine db' h (ns ++ [n]) (chain ++ [t]) → replaced ModeTree n x t t' →
  spine db' h (ns ++ [n]) (chain ++ [t']).
Proof.
  revert h chain. induction ns as [|m ns IH]; intros h [|u chain]; cbn [app spine].
  - intros [Hk _] Hr. split; [by eapply level_kept_replaced|done].
  - intros [_ Hs]. by destruct chain.
  - intros [_ Hs]. by destruct ns.
  - intros [Hk Hs] Hr. split; [done|]. by apply IH.
Qed.

Lemma spine_None ns chain : Forall2 (λ t n, level_kept None n t) chain ns → spine db' None ns chain.
Proof. induction 1; [done|]. by split. Qed.

(** ** Update *)

Definition has_dir (t : GitTree) (n : text) : Prop :=
  Forall storable (tree_items t) ∧ NoDup (names_of (tree_items t)) ∧ ∃ it, item_named n (tree_items t) = Some it ∧ item_mode it = ModeTree.

Lemma has_dir_rebuilds t n : has_dir t n → rebuilds update_tree_hash t n.
Proof.
  intros (Hs & Hn & it & Hit & Hm) h. destruct (update_tree_hash_spec t n h it Hs Hn Hit) as (t' & E & Hr).
  rewrite Hm in Hr. eauto.
Qed.

Lemma dir_entry h t n y :
  stored_tree db h = Some t → find_dir n (tree_items t) = Some y →
  has_dir t n ∧ ∃ it, item_named n (tree_items t) = Some it ∧ hash_to_string (item_id it) = y.
Proof.
  intros Ht (it & Hit & Hm & E)%find_dir_Some. split; [|by exists it].
  destruct (stored_sound db h t Hsound Ht) as (_ & ? & ?). split_and!; [done..|by exists it].
Qed.

Lemma chain_below_spec h t ps n y :
  stored_tree db h = Some t → tree_below db h (ps ++ [n]) = Some y →
  ∃ rest, chain_below committed t ps = Ok rest ∧ Forall2 has_dir (t :: rest) (ps ++ [n])
    ∧ spine db' (Some h) (ps ++ [n]) (t :: rest).
Proof.
  revert h t. induction ps as [|p ps IH]; intros h t Ht; cbn [app tree_below]; rewrite Ht; cbn [mbind option_bind].
  - destruct (find_dir n (tree_items t)) as [h'|] eqn:E; [|done]. intros _. exists []. split; [done|].
    destruct (dir_entry h t n h' Ht E) as [Hd _]. split; [by constructor|]. cbn [spine mbind option_bind].
    rewrite (stored_mono db db' h t Hsub Ht). split; [apply level_kept_refl|done].
  - destruct (find_dir p (tree_items t)) as [h'|] eqn:E; [|done]. cbn [mbind option_bind]. intros Hy.
    destruct (dir_entry h t p h' Ht E) as [Hd (it & Hit & Eid)].
    assert (∃ t', stored_tree db h' = Some t') as [t' Ht'].
    { destruct ps; simpl in Hy; destruct (stored_tree db h'); naive_solver. }
    destruct (IH h' t' Ht' Hy) as (rest & Hr & Hf & Hsp). exists (t' :: rest).
    cbn [chain_below]. rewrite Hit, Eid, (handler_stored h' t' Ht'). cbn [mbind outcome_bind]. rewrite Hr.
    cbn [mbind outcome_bind]. split; [done|]. split; [by constructor|].
    change (level_kept (stored_tree db' h) p t
      ∧ spine db' (stored_tree db' h ≫= λ o, find_dir p (tree_items o)) (ps ++ [n]) (t' :: rest)).
    rewrite (stored_mono db db' h t Hsub Ht). cbn [mbind option_bind]. rewrite E.
    split; [apply level_kept_refl|done].
Qed.

(** ** Creation *)

(** The path can be created: none of its components is a file, and the trees that exist
    are stored. *)
Fixpoint creatable (h : text) (names : list text) : Prop :=
  match names with
  | [] => True
  | n :: names =>
      ∃ t, stored_tree db h = Some t
        ∧ match item_named n (tree_items t) with
          | None => True
          | Some it => item_mode it = ModeTree ∧ creatable (hash_to_string (item_id it)) names
          end
  end.

Definition insertable (t : GitTree) (n : text) : Prop :=
  Forall storable (tree_items t) ∧ NoDup (names_of (tree_items t)) ∧ (0%N ∉ n)
  ∧ ∀ it, item_named n (tree_items t) = Some it → item_mode it = ModeTree.

Lemma insertable_rebuilds t n : insertable t n → rebuilds insert_or_replace_tree_hash t n.
Proof.
  intros (Hs & Hn & Hz & Hm) h. destruct (insert_or_replace_spec t n h Hs Hn Hz Hm) as (t' & ? & ?). eauto.
Qed.

Lemma insertable_again t n h t' :
  insertable t n → insert_or_replace_tree_hash t n h = Ok t' → replaced ModeTree n h t t' ∧ insertable t' n.
Proof.
  intros (Hs & Hn & Hz & Hm) E. destruct (insert_or_replace_spec t n h Hs Hn Hz Hm) as (u & E' & Hr).
  rewrite E in E'. injection E' as <-. split; [done|]. destruct Hr as [(_ & Hst & Hnd & _) He _].
  split_and!; [done..|]. intros it Hit. rewrite He in Hit. by injection Hit as <-.
Qed.

(** The trees that exist, up to the first missing name. *)
Lemma split_existing_spec h t ps n :
  Forall (λ s, 0%N ∉ s) (ps ++ [n]) → stored_tree db h = Some t → creatable h (ps ++ [n]) →
  ∃ trees ex mi m r, split_existing committed t ps = Ok (trees, ex, mi) ∧ ps = ex ++ mi ∧ mi ++ [n] = m :: r
    ∧ Forall2 insertable (t :: trees) (ex ++ [m]) ∧ spine db' (Some h) (ex ++ [m]) (t :: trees)
    ∧ (mi ≠ [] → tree_below db' h (ex ++ [m]) = None).
Proof.
  revert h t. induction ps as [|p ps IH]; intros h t Hz Ht (t' & Ht' & Hc); rewrite Ht in Ht'; injection Ht' as <-;
    destruct (stored_sound db h t Hsound Ht) as (_ & Hst & Hn).
  - exists [], [], [], n, []. split; [done|]. split; [done|]. split; [done|]. split; [|split; [|done]].
    + constructor; [|constructor]. split; [done|]. apply Forall_cons in Hz as [Hz _].
      split_and!; [done..|]. intros it Hit. rewrite Hit in Hc. by destruct Hc.
    + simpl. rewrite (stored_mono db db' h t Hsub Ht). split; [apply level_kept_refl|done].
  - cbn [split_existing]. apply Forall_cons in Hz as [Hzp Hz]. destruct (item_named p (tree_items t)) as [it|] eqn:E.
    + destruct Hc as [Hm Hc]. rewrite Hm. rewrite bool_decide_eq_true_2 by done. cbn [negb].
      assert (∃ t', stored_tree db (hash_to_string (item_id it)) = Some t') as [t' Ht'].
      { destruct ps; destruct Hc as (t' & ? & _); eauto. }
      rewrite (handler_stored _ _ Ht'). cbn [mbind outcome_bind].
      destruct (IH _ t' Hz Ht' Hc) as (trees & ex & mi & m & r & -> & -> & Hmr & Hf & Hsp & Hb).
      cbn [mbind outcome_bind]. exists (t' :: trees), (p :: ex), mi, m, r.
      assert (find_dir p (tree_items t) = Some (hash_to_string (item_id it))) as Ef
        by (apply find_dir_Some; eauto).
      split; [done|]. split; [done|]. split; [done|]. cbn [app]. split; [|split].
      * constructor; [|done]. split; [done|]. split_and!; [done..|]. congruence.
      * change (level_kept (stored_tree db' h) p t
          ∧ spine db' (stored_tree db' h ≫= λ o, find_dir p (tree_items o)) (ex ++ [m]) (t' :: trees)).
        rewrite (stored_mono db db' h t Hsub Ht). cbn [mbind option_bind]. rewrite Ef.
        split; [apply level_kept_refl|done].
      * intros Hne. cbn [tree_below]. rewrite (stored_mono db db' h t Hsub Ht). cbn [mbind option_bind].
        rewrite Ef. by apply Hb.
    + exists [], [], (p :: ps), p, (ps ++ [n]). do 3 (split; [done|]). split; [|split].
      * constructor; [|constructor]. split; [done|]. split_and!; [done..|]. congruence.
      * simpl. rewrite (stored_mono db db' h t Hsub Ht). split; [apply level_kept_refl|done].
      * intros _. simpl. rewrite (stored_mono db db' h t Hsub Ht). simpl. unfold find_dir. by rewrite E.
Qed.

(** A directory made for the path. *)
Definition fresh_level (t : GitTree) (n : text) : Prop := insertable t n ∧ level_kept None n t.

Lemma storable_dir (h : ObjectHash) n : (0%N ∉ n) → Forall storable [mk_TreeItem ModeTree h n].
Proof. intros Hz. by constructor. Qed.

Lemma single_dir n h :
  (0%N ∉ n) → ∃ t, tree_from_items_checked [mk_TreeItem ModeTree h n] = Ok t ∧ fresh_level t n.
Proof.
  intros Hz. destruct (tree_from_items_checked_spec [mk_TreeItem ModeTree h n]) as (t & E & Hg & Ht);
    [done|by apply storable_dir|apply NoDup_singleton|].
  exists t. split; [done|].
  assert (tree_items t = [mk_TreeItem ModeTree h n]) as Hi.
  { revert E. unfold tree_from_items_checked. simpl. unfold sort_git_tree_items. cbn [sort_by].
    unfold tree_of_items. destruct (tree_id_of_items _); [|done]. by intros [= <-]. }
  assert (∀ it, item_named n (tree_items t) = Some it → item_mode it = ModeTree) as Hm.
  { rewrite Hi. unfold item_named. simpl. rewrite bool_decide_eq_true_2 by done. by intros it [= <-]. }
  split; [split_and!; [by destruct Hg as (_ & ? & _)|rewrite Hi; apply NoDup_singleton|done|done]|].
  intros c Hc. left. rewrite Hi. unfold item_named. simpl. by rewrite bool_decide_eq_false_2 by congruence.
Qed.

(** The new directories, from the deepest one; the last name is that of the first one. *)
Lemma new_intermediates_spec h cn mu prod :
  Forall (λ s, 0%N ∉ s) (cn :: mu) →
  ∃ h' ns m new, new_intermediates h cn mu prod = Ok (h', m, prod ++ new)
    ∧ cn :: mu = ns ++ [m] ∧ Forall2 fresh_level new ns.
Proof.
  revert h cn prod. induction mu as [|n mu IH]; intros h cn prod [Hz Hzs]%Forall_cons.
  { exists h, [], cn, []. by rewrite app_nil_r. }
  cbn [new_intermediates]. destruct (single_dir cn h Hz) as (t & -> & Ht). cbn [mbind outcome_bind].
  destruct (IH (tree_id t) n (prod ++ [t]) Hzs) as (h' & ns & m & new & -> & E & Hf).
  exists h', (cn :: ns), m, (t :: new). rewrite <-app_assoc. split; [done|]. split; [by rewrite E|by constructor].
Qed.

Lemma roll_up_cons t u chain m names n h prod :
  roll_up (t :: u :: chain) (m :: names) n h prod =
  (updated ← insert_or_replace_tree_hash t n h;
   roll_up (u :: chain) names m (tree_id updated) (prod ++ [updated])).
Proof. done. Qed.

Lemma roll_up_spec chain_up names_up n h prod t :
  Forall2 insertable (t :: chain_up) (n :: names_up) →
  ∃ r t' rolled, roll_up (t :: chain_up) names_up n h prod = Ok (r, prod ++ t' :: rolled)
    ∧ length rolled = length chain_up ∧ replaced ModeTree n h t t' ∧ insertable t' n.
Proof.
  revert names_up n h prod t. induction chain_up as [|u chain_up IH]; intros names_up n h prod t
    (Ht & Hf)%Forall2_cons; destruct (insertable_rebuilds t n Ht h) as (t' & E & _);
    pose proof (insertable_again t n h t' Ht E) as Hr.
  - exists t', t', []. unfold insert_or_replace_tree_hash in E. cbn [roll_up]. by rewrite E.
  - destruct names_up as [|m names_up]; [by apply Forall2_nil_inv_r in Hf|].
    destruct (IH names_up m (tree_id t') (prod ++ [t']) u Hf) as (r & u' & rolled & Er & Hl & _ & _).
    exists r, t', (u' :: rolled). rewrite roll_up_cons, E. cbn [mbind outcome_bind]. rewrite Er, <-app_assoc.
    split; [done|]. split; [simpl; by rewrite Hl|done].
Qed.

(** ** The chains *)

Lemma search_update_spec h t ps n y :
  Forall plain_segment ps → stored_tree db h = Some t → tree_below db h (ps ++ [n]) = Some y →
  ∃ chain, search_tree_for_update_from_root committed (display_path ps) t = Ok chain
    ∧ Forall2 (rebuilds update_tree_hash) chain (ps ++ [n]) ∧ spine db' (Some h) (ps ++ [n]) chain.
Proof.
  intros Hp Ht Hy. destruct (chain_below_spec h t ps n y Ht Hy) as (rest & Hr & Hf & Hs).
  unfold search_tree_for_update_from_root. rewrite path_components_display, Hr by done.
  exists (t :: rest). split; [done|]. split; [|done]. eapply Forall2_impl; [exact Hf|]. apply has_dir_rebuilds.
Qed.

Lemma leaf_fresh (b : ObjectHash) n :
  (0%N ∉ n) → n ≠ lit ".gitkeep" →
  ∃ t, tree_from_items_checked [mk_TreeItem ModeBlob b (lit ".gitkeep")] = Ok t ∧ fresh_level t n.
Proof.
  intros Hz Hn. set (it := mk_TreeItem ModeBlob b (lit ".gitkeep")).
  assert (Forall storable [it]) as Hst.
  { constructor; [|constructor]. unfold storable. simpl. apply (bool_decide_unpack _). vm_compute. done. }
  destruct (tree_from_items_checked_spec [it] ltac:(done) Hst ltac:(apply NoDup_singleton)) as (t & E & Hg & Ht).
  exists t. split; [done|].
  assert (tree_items t = [it]) as Hi.
  { revert E. unfold tree_from_items_checked. simpl. unfold sort_git_tree_items. cbn [sort_by].
    unfold tree_of_items. destruct (tree_id_of_items _); [|done]. by intros [= <-]. }
  split.
  - split_and!; [by destruct Hg as (_ & ? & _)|rewrite Hi; apply NoDup_singleton|done|].
    rewrite Hi, item_named_cons. rewrite bool_decide_eq_false_2 by (simpl; congruence). done.
  - intros c Hc. rewrite Hi, item_named_cons. destruct (bool_decide _) eqn:Ec; bool_prop; [|by left].
    right. simpl in Ec. subst c. split_and!; [done..|]. by exists b.
Qed.

(** The chain put together from the trees that [ensure_tree_path_with_chain] made. *)
Lemma created_chain (up rolled new : list GitTree) d d' leaf :
  length rolled = length up →
  let produced := ([leaf] ++ new) ++ d' :: rolled in
  let existing := reverse up ++ [d] in
  let count := length produced - length existing in
  produced !! count = Some d'
  ∧ take (length existing - 1) existing ++ [d'] ++ reverse (take count produced)
    = (reverse up ++ [d']) ++ reverse new ++ [leaf].
Proof.
  intros Hl produced existing count.
  assert (count = length ([leaf] ++ new)) as ->.
  { unfold count, produced, existing. rewrite !length_app, length_reverse. simpl. lia. }
  split; [unfold produced; by rewrite lookup_app_r, Nat.sub_diag by done|].
  unfold produced. rewrite take_app_length. unfold existing. rewrite length_app, length_reverse. simpl.
  rewrite Nat.add_sub, <-(length_reverse up), take_app_length, reverse_cons, <-!app_assoc. done.
Qed.

Lemma search_create_spec h t ps n b :
  Forall plain_segment ps → Forall (λ s, 0%N ∉ s) (ps ++ [n]) →
  (∀ trees ex mi, split_existing committed t ps = Ok (trees, ex, mi) → mi ≠ [] → n ≠ lit ".gitkeep") →
  stored_tree db h = Some t → creatable h (ps ++ [n]) →
  ∃ chain blob, search_tree_for_update_or_create_from_root committed (Some b) (display_path ps) t = Ok (chain, blob)
    ∧ Forall2 (rebuilds insert_or_replace_tree_hash) chain (ps ++ [n]) ∧ spine db' (Some h) (ps ++ [n]) chain.
Proof.
  intros Hp Hz Hgk Ht Hc.
  destruct (split_existing_spec h t ps n Hz Ht Hc) as (trees & ex & mi & m & r & Es & -> & Hmr & Hf & Hs & Hb).
  unfold search_tree_for_update_or_create_from_root. rewrite path_components_display, Es by done.
  cbn [mbind outcome_bind]. destruct (bool_decide (mi = [])) eqn:Em; bool_prop.
  { subst mi. injection Hmr as <- <-. rewrite app_nil_r. exists (t :: trees), None. split; [done|].
    split; [|done]. eapply Forall2_impl; [exact Hf|]. apply insertable_rebuilds. }
  specialize (Hgk _ _ _ Es Em). destruct mi as [|m' mi]; [done|]. injection Hmr as -> <-. rewrite <-app_assoc in Hz.
  apply Forall_app in Hz as [_ [Hzm Hzn]%Forall_app].
  destruct (leaf_fresh b n) as (leaf & -> & Hleaf); [by apply Forall_cons in Hzn as [? _]|done|].
  cbn [mbind outcome_bind]. unfold ensure_tree_path_with_chain.
  pose proof (Forall2_length _ _ _ Hf) as Hlen. rewrite length_app in Hlen. simpl in Hlen.
  rewrite bool_decide_eq_false_2 by done. cbn [orb].
  assert ((length ex + 1 =? length (t :: trees)) = true) as -> by (apply Nat.eqb_eq; simpl; lia). cbn [negb].
  destruct (reverse (m :: mi)) as [|ln mu] eqn:Erev.
  { apply (f_equal reverse) in Erev. by rewrite reverse_involutive in Erev. }
  destruct (new_intermediates_spec (tree_id leaf) ln mu [leaf]) as (h' & ns & m' & new & -> & Ens & Hnew).
  { rewrite <-Erev. by apply Forall_reverse. }
  rewrite Ens in Erev. apply (f_equal reverse) in Erev. rewrite reverse_involutive, reverse_snoc in Erev.
  injection Erev as <- ->. cbn [mbind outcome_bind].
  apply Forall2_reverse in Hf. rewrite reverse_snoc in Hf.
  destruct (reverse (t :: trees)) as [|d up] eqn:Eup; [by apply Forall2_nil_inv_l in Hf|].
  destruct (roll_up_spec up (reverse ex) m h' ([leaf] ++ new) d Hf) as (rt & d' & rolled & -> & Hrl & Hrep & Hins).
  cbn [mbind outcome_bind snd].
  assert (t :: trees = reverse up ++ [d]) as Echain.
  { apply (f_equal reverse) in Eup. by rewrite reverse_involutive, reverse_cons in Eup. }
  rewrite Echain in Hs |- *. destruct (created_chain up rolled new d d' leaf Hrl) as [-> ->].
  eexists _, _. split; [done|].
  assert (Forall2 fresh_level (reverse new ++ [leaf]) (reverse ns ++ [n])) as Hfresh
    by (apply Forall2_app; [by apply Forall2_reverse|by constructor]).
  assert ((ex ++ m :: reverse ns) ++ [n] = (ex ++ [m]) ++ (reverse ns ++ [n])) as -> by (by rewrite <-!app_assoc).
  split.
  - apply Forall2_app; [apply Forall2_app|].
    + apply Forall2_cons in Hf as [_ Hf]. rewrite <-(reverse_involutive ex). apply Forall2_reverse.
      eapply Forall2_impl; [exact Hf|]. apply insertable_rebuilds.
    + constructor; [by apply insertable_rebuilds|constructor].
    + eapply Forall2_impl; [exact Hfresh|]. intros u c [Hi _]. by apply insertable_rebuilds.
  - apply spine_app; [by eapply spine_last|]. unfold below_opt. cbn [mbind option_bind].
    rewrite Hb by done. apply spine_None. eapply Forall2_impl; [exact Hfresh|]. by intros u c [_ ?].
Qed.
End Search.

(** * Directory changes *)

Section Landing.
Context `{GitLaws}.

(** [chain'] are the new trees from the root to the parent of the path, and the new root
    differs from [h0] at the path only: there it has the tree [x]. *)
Record surgery (d : MonoDb) (h0 : text) (segs : list text) (x : ObjectHash) (res : TreeUpdateResult)
    (chain' : list GitTree) : Prop := {
  sg_trees : updated_trees res = reverse chain';
  sg_updates : ref_updates res = chain_updates segs ((tree_id <$> chain') ++ [x]);
  sg_good : Forall good_tree chain';
  sg_length : length chain' = length segs;
  sg_below db' cs : mega_tree d ⊆ mega_tree db' → all_stored db' chain' →
    tree_below db' (hash_to_string (head_id chain' x)) (segs ++ cs) = tree_below db' (hash_to_string x) cs;
  sg_prefix db' i t : mega_tree d ⊆ mega_tree db' → all_stored db' chain' → chain' !! i = Some t →
    tree_below db' (hash_to_string (head_id chain' x)) (take i segs) = Some (hash_to_string (tree_id t));
  sg_other db' cs : mega_tree d ⊆ mega_tree db' → all_stored db' chain' → diverges cs segs →
    tree_below db' (hash_to_string (head_id chain' x)) cs = tree_below db' h0 cs;
  sg_entries db' c cs : mega_tree d ⊆ mega_tree db' → all_stored db' chain' → diverges (c :: cs) segs →
    entry_at db' (hash_to_string (head_id chain' x)) c cs = entry_at db' h0 c cs
    ∨ ∃ b, entry_at db' (hash_to_string (head_id chain' x)) c cs
             = Some (mk_TreeItem ModeBlob b (lit ".gitkeep"))
        ∧ tree_below db' h0 (removelast (c :: cs)) ≫= stored_tree db' = None;
}.

Context (d : MonoDb) (Hsound : trees_sound (mega_tree d)).
Context (h0 : text) (root : GitTree) (Hroot : stored_tree d h0 = Some root).
Context (ps : list text) (n : text) (x : ObjectHash) (Hseg : Forall mono_segment (ps ++ [n])).

Lemma ps_plain : Forall plain_segment ps.
Proof. apply mono_plain. by apply Forall_app in Hseg as [? _]. Qed.

Lemma chain_surgery rebuild chain :
  Forall2 (rebuilds rebuild) chain (ps ++ [n]) →
  (∀ db', mega_tree d ⊆ mega_tree db' → spine db' (Some h0) (ps ++ [n]) chain) →
  ∃ res chain', build_loop rebuild (reverse chain) (display_path (ps ++ [n])) x = Ok res
    ∧ surgery d h0 (ps ++ [n]) x res chain'.
Proof.
  intros Hf Hsp. destruct (build_loop_spec rebuild chain (ps ++ [n]) x Hseg Hf) as (chain' & E & Hr).
  eexists _, chain'. split; [exact E|]. split; simpl.
  - done.
  - done.
  - by eapply rebuilt_good.
  - by destruct (rebuilt_length _ _ _ _ Hr).
  - intros db' cs Hs Ha. by eapply rebuilt_below.
  - intros db' i t Hs Ha Hi. by eapply rebuilt_prefix.
  - intros db' cs Hs Ha Hd. by rewrite (spine_kept db' x (Some h0) chain (ps ++ [n]) chain' cs Hr Ha (Hsp db' Hs) Hd).
  - intros db' c cs Hs Ha Hd. exact (spine_entries db' x (Some h0) chain (ps ++ [n]) chain' c cs Hr Ha (Hsp db' Hs) Hd).
Qed.

(** ** Update *)

Lemma update_surgery y :
  tree_below d h0 (ps ++ [n]) = Some y →
  ∃ chain res chain',
    search_tree_for_update_from_root (mega_tree d) (display_path ps) root = Ok chain
    ∧ build_result_by_chain (display_path (ps ++ [n])) chain x = Ok res
    ∧ surgery d h0 (ps ++ [n]) x res chain'.
Proof.
  intros Hy. pose proof ps_plain as Hps.
  destruct (search_update_spec d d (mega_tree d) Hsound ltac:(done) ltac:(done) h0 root ps n y Hps Hroot Hy)
    as (chain & Es & Hf & _).
  destruct (chain_surgery update_tree_hash chain Hf) as (res & chain' & Eb & Hsg).
  { intros db' Hsub.
    destruct (search_update_spec d db' (mega_tree d) Hsound ltac:(done) Hsub h0 root ps n y Hps Hroot Hy)
      as (chain2 & Es2 & _ & Hsp). rewrite Es in Es2. by injection Es2 as <-. }
  exists chain, res, chain'. done.
Qed.

(** ** Creation *)

Lemma create_surgery b :
  Forall (λ s, 0%N ∉ s) (ps ++ [n]) →
  (∀ trees ex mi, split_existing (mega_tree d) root ps = Ok (trees, ex, mi) → mi ≠ [] → n ≠ lit ".gitkeep") →
  creatable d h0 (ps ++ [n]) →
  ∃ chain blob res chain',
    search_tree_for_update_or_create_from_root (mega_tree d) (Some b) (display_path ps) root = Ok (chain, blob)
    ∧ build_result_by_chain_inserting (display_path (ps ++ [n])) chain x = Ok res
    ∧ surgery d h0 (ps ++ [n]) x res chain'.
Proof.
  intros Hz Hgk Hc. pose proof ps_plain as Hps.
  destruct (search_create_spec d d (mega_tree d) Hsound ltac:(done) ltac:(done) h0 root ps n b Hps Hz Hgk Hroot Hc)
    as (chain & blob & Es & Hf & _).
  destruct (chain_surgery insert_or_replace_tree_hash chain Hf) as (res & chain' & Eb & Hsg).
  { intros db' Hsub.
    destruct (search_create_spec d db' (mega_tree d) Hsound ltac:(done) Hsub h0 root ps n b Hps Hz Hgk Hroot Hc)
      as (chain2 & blob2 & Es2 & _ & Hsp). rewrite Es in Es2. by injection Es2 as <- _. }
  exists chain, blob, res, chain'. done.
Qed.

(** *** A creation that has succeeded *)

Lemma handler_reads h t : handler_tree (mega_tree d) h = Ok t → stored_tree d h = Some t.
Proof.
  unfold handler_tree, stored_tree. destruct (mega_tree d !! h); [|done]. intros E%map_err_Ok. simpl. by rewrite E.
Qed.

Lemma last_default {A} (a b u : A) l : List.last (u :: l) a = List.last (u :: l) b.
Proof. revert u. induction l as [|v l IH]; intros u; [done|]. exact (IH v). Qed.

Lemma split_creatable h t trees ex mi qs :
  stored_tree d h = Some t → split_existing (mega_tree d) t qs = Ok (trees, ex, mi) →
  (mi = [] → ∀ it, item_named n (tree_items (List.last (t :: trees) t)) = Some it → item_mode it = ModeTree) →
  creatable d h (qs ++ [n]).
Proof.
  revert h t trees ex mi. induction qs as [|q qs IH]; intros h t trees ex mi Ht; cbn [split_existing app creatable].
  - intros [= <- <- <-] Hl. exists t. split; [done|]. destruct (item_named n (tree_items t)) as [it|] eqn:E; [|done].
    split; [|done]. by apply Hl.
  - destruct (item_named q (tree_items t)) as [it|] eqn:E.
    2: { intros [= <- <- <-] _. exists t. by rewrite E. }
    destruct (bool_decide (item_mode it = ModeTree)) eqn:Em; [|done]. bool_prop. cbn [negb].
    intros (next & Hn & ([[trees' ex'] mi'] & Hs & [= <- <- <-])%bind_Ok)%bind_Ok Hl.
    exists t. rewrite E. split; [done|]. split; [done|]. apply handler_reads in Hn.
    eapply IH; [exact Hn|exact Hs|]. intros Hmi it' Hit'. apply (Hl Hmi). cbn [List.last] in *.
    destruct trees' as [|u trees']; [exact Hit'|]. by rewrite (last_default t next).
Qed.

Lemma insert_mode t name h t' it :
  insert_or_replace_tree_hash t name h = Ok t' → item_named name (tree_items t) = Some it → item_mode it = ModeTree.
Proof.
  unfold insert_or_replace_tree_hash, insert_or_replace_tree_item. pose proof (position_spec name (tree_items t)) as Hp.
  destruct (item_position _ _) as [i|]; [|congruence]. destruct Hp as (it' & -> & ->). intros E [= <-].
  by destruct (bool_decide _) eqn:Em; bool_prop.
Qed.

(** The first step of the rebuild puts the tree into the last tree of the chain. *)
Lemma build_first rebuild (chain : list GitTree) u res :
  build_loop rebuild (reverse (chain ++ [u])) (display_path (ps ++ [n])) x = Ok res →
  ∃ t', rebuild u n x = Ok t'.
Proof.
  apply Forall_app in Hseg as [_ [Hn _]%Forall_cons]. rewrite reverse_snoc. cbn [build_loop].
  rewrite file_name_display by done. intros (t' & E & _)%bind_Ok. eauto.
Qed.

Lemma new_intermediates_grows h cn mu prod h' m p' :
  new_intermediates h cn mu prod = Ok (h', m, p') → ∃ new, p' = prod ++ new.
Proof.
  revert h cn prod. induction mu as [|q mu IH]; intros h cn prod; cbn [new_intermediates].
  { intros [= _ _ <-]. exists []. by rewrite app_nil_r. }
  intros (t & _ & [new ->]%IH)%bind_Ok. exists (t :: new). by rewrite <-app_assoc.
Qed.

Lemma roll_up_grows up names nn h prod r p' :
  roll_up up names nn h prod = Ok (r, p') → ∃ rolled, p' = prod ++ rolled ∧ length rolled = length up.
Proof.
  revert names nn h prod. induction up as [|t up IH]; intros names nn h prod; [done|].
  destruct up as [|u up].
  { cbn [roll_up]. intros (t' & _ & [= _ <-])%bind_Ok. by exists [t']. }
  destruct names as [|m names]; [cbn [roll_up]; by intros (t' & _ & [=])%bind_Ok|].
  rewrite roll_up_cons. intros (t' & _ & (rolled & -> & Hl)%IH)%bind_Ok.
  exists (t' :: rolled). rewrite <-app_assoc. split; [done|]. simpl in *. by rewrite Hl.
Qed.

Lemma ensure_produced chain names mi leaf r p' :
  ensure_tree_path_with_chain chain names mi leaf = Ok (r, p') →
  ∃ new rolled, p' = (leaf :: new) ++ rolled ∧ length rolled = length chain.
Proof.
  unfold ensure_tree_path_with_chain. destruct (_ || _); [done|]. destruct (reverse mi); [done|].
  intros ([[h m] p] & [new ->]%new_intermediates_grows & (rolled & -> & Hl)%roll_up_grows)%bind_Ok.
  exists new, rolled. by rewrite length_reverse in Hl.
Qed.

(** The chain ends in the tree of the placeholder when a directory was created. *)
Lemma created_last committed gk chain blob trees ex mi :
  search_tree_for_update_or_create_from_root committed gk (display_path ps) root = Ok (chain, blob) →
  split_existing committed root ps = Ok (trees, ex, mi) → mi ≠ [] →
  ∃ b leaf front, gk = Some b ∧ tree_from_items_checked [mk_TreeItem ModeBlob b (lit ".gitkeep")] = Ok leaf
    ∧ chain = front ++ [leaf].
Proof.
  unfold search_tree_for_update_or_create_from_root. rewrite path_components_display by apply ps_plain.
  intros E Es Hmi. rewrite Es in E.
  cbn [mbind outcome_bind] in E. rewrite bool_decide_eq_false_2 in E by done. destruct gk as [b|]; [|done].
  apply bind_Ok in E as (leaf & El & ([r p'] & Hmade & E)%bind_Ok). exists b, leaf.
  apply ensure_produced in Hmade as (new & rolled & -> & Hl). cbn [snd] in E.
  destruct (_ !! _) as [d'|]; [|done]. injection E as <- _.
  assert (length (new ++ rolled) - length trees = length (leaf :: new)) as ->
    by (rewrite length_app, Hl; simpl; lia).
  change (leaf :: new ++ rolled) with ((leaf :: new) ++ rolled).
  rewrite take_app_length, reverse_cons. eexists. split; [done|]. split; [done|].
  rewrite app_comm_cons. by rewrite !app_assoc.
Qed.

(** The tree of the placeholder takes no directory of its name. *)
Lemma leaf_refuses b leaf h t' :
  tree_from_items_checked [mk_TreeItem ModeBlob b (lit ".gitkeep")] = Ok leaf →
  insert_or_replace_tree_hash leaf n h = Ok t' → n ≠ lit ".gitkeep".
Proof.
  intros El Ei ->. assert (tree_items leaf = [mk_TreeItem ModeBlob b (lit ".gitkeep")]) as Hi.
  { revert El. unfold tree_from_items_checked. simpl. unfold sort_git_tree_items. cbn [sort_by].
    unfold tree_of_items. destruct (tree_id_of_items _); [|done]. by intros [= <-]. }
  eapply insert_mode in Ei; [|by rewrite Hi, item_named_cons, bool_decide_eq_true_2].
  done.
Qed.

Lemma create_success gk chain blob res :
  Forall (λ s, 0%N ∉ s) (ps ++ [n]) →
  search_tree_for_update_or_create_from_root (mega_tree d) gk (display_path ps) root = Ok (chain, blob) →
  build_result_by_chain_inserting (display_path (ps ++ [n])) chain x = Ok res →
  ∃ chain', surgery d h0 (ps ++ [n]) x res chain'.
Proof.
  intros Hz Es Eb. pose proof Es as E. unfold search_tree_for_update_or_create_from_root in E.
  rewrite path_components_display in E by apply ps_plain.
  apply bind_Ok in E as ([[trees ex] mi] & Esp & E). destruct (exists_last (l := chain)) as (front & u & Eu).
  { intros ->. unfold build_result_by_chain_inserting in Eb. destruct (bool_decide (mi = [])) eqn:Em; [done|].
    bool_prop. by destruct (created_last _ _ _ _ _ _ _ Es Esp Em) as (? & ? & [] & _ & _ & ?). }
  assert (∃ t', insert_or_replace_tree_hash u n x = Ok t') as [t' Et'].
  { unfold build_result_by_chain_inserting in Eb. rewrite Eu in Eb. by eapply build_first. }
  assert (∃ b, search_tree_for_update_or_create_from_root (mega_tree d) (Some b) (display_path ps) root = Ok (chain, blob)
     ∧ creatable d h0 (ps ++ [n]) ∧ (mi ≠ [] → n ≠ lit ".gitkeep")) as (b & Es' & Hc & Hn).
  { destruct (bool_decide (mi = [])) eqn:Em; bool_prop.
    - exists x. subst mi. injection E as <- <-. split_and!; [|eapply split_creatable; [exact Hroot|exact Esp|]|done].
      + unfold search_tree_for_update_or_create_from_root. by rewrite path_components_display, Esp by apply ps_plain.
      + intros _ it Hit. eapply insert_mode; [exact Et'|]. by rewrite Eu, List.last_last in Hit.
    - destruct (created_last _ _ _ _ _ _ _ Es Esp Em) as (b & leaf & front' & -> & El & Ef).
      rewrite Ef in Eu. apply app_inj_tail in Eu as [_ <-]. exists b.
      split; [done|]. split; [by eapply split_creatable|]. intros _. by eapply leaf_refuses. }
  destruct (create_surgery b Hz) as (chain2 & blob2 & res2 & chain' & Es2 & Eb2 & Hsg); [|exact Hc|].
  { intros trees' ex' mi' Esp'. rewrite Esp in Esp'. by injection Esp' as <- <- <-. }
  rewrite Es' in Es2. injection Es2 as <- <-. rewrite Eb in Eb2. injection Eb2 as <-. by exists chain'.
Qed.
End Landing.
