(* ===== verification/ImportLeaf.v ===== *)
(** * Removing the directory of an import repository

    Models the reads of a detach in [src/jupiter/service/push_queue_service.rs]
    ([import_leaf_in_txn], [import_leaf_chain_in_txn]) and shows what the trees of
    [remove_import_leaf] ([src/ceres/api_service/tree_ops.rs]) make of the root. *)
From stdpp Require Import base strings numbers tactics list gmap.
From S2P Require Import Prelude Text FilterSyntax FilterCanonical FilterSemantics MonoPath CommitMessage.
From S2P Require Import GitObjects ViewTreeDemo ViewCommit GitCommits MonoRefs MonoTrees MonoRefsInv MonoAdvance.
From S2P Require Import MonoAdvanceInv MonoDemo TreeOps TreeOpsInv TreeSurgery.

Inductive ImportLeaf := Absent | GitkeepOnly | Directory | NotDirectory.

Section Reads.
Context {GO : GitObjects}.
Context (db : MonoDb).

Fixpoint leaf_below (tree : GitTree) (names : list text) : outcome TreeOpsError ImportLeaf :=
  match names with
  | [] => Ok (if is_gitkeep_only tree then GitkeepOnly else Directory)
  | component :: names =>
      match item_named component (tree_items tree) with
      | None => Ok Absent
      | Some it =>
          if negb (bool_decide (item_mode it = ModeTree)) then Ok NotDirectory
          else next ← handler_tree (mega_tree db) (hash_to_string (item_id it)); leaf_below next names
      end
  end.

Definition import_leaf_in_txn (root_tree path : text) : outcome TreeOpsError ImportLeaf :=
  tree ← handler_tree (mega_tree db) root_tree; leaf_below tree (path_components path).

(** The trees from [tree] down along the names, [tree] included. *)
Fixpoint chain_down (tree : GitTree) (down : list text) : outcome TreeOpsError (list GitTree) :=
  match down with
  | [] => Ok [tree]
  | name :: down =>
      match find_named_dir name tree with
      | None => Err (TreeItemNotFound name)
      | Some hash =>
          next ← handler_tree (mega_tree db) hash;
          rest ← chain_down next down;
          Ok (tree :: rest)
      end
  end.

Definition import_leaf_chain_in_txn (root_tree path : text)
    : outcome TreeOpsError (list GitTree * list text) :=
  let names := path_components path in
  if bool_decide (names = []) then Err InvalidPath
  else
    tree ← handler_tree (mega_tree db) root_tree;
    chain ← chain_down tree (removelast names);
    Ok (chain, names).
End Reads.

(** ** The chain *)

Section Removal.
Context `{GitLaws}.
Context (d : MonoDb) (Hsound : trees_sound (mega_tree d)).

(** The trees [chain] lead from [h] to [h'] along the names. *)
Fixpoint leads_down (h : text) (chain : list GitTree) (names : list text) (h' : text) : Prop :=
  match chain, names with
  | [], [] => h' = h
  | t :: chain, n :: names =>
      stored_tree d h = Some t ∧ ∃ h1, find_dir n (tree_items t) = Some h1 ∧ leads_down h1 chain names h'
  | _, _ => False
  end.

Lemma leads_down_snoc h chain names t n h' :
  leads_down h (chain ++ [t]) (names ++ [n]) h' →
  ∃ h1, leads_down h chain names h1 ∧ stored_tree d h1 = Some t ∧ find_dir n (tree_items t) = Some h'.
Proof.
  revert h names. induction chain as [|u chain IH]; intros h [|m names]; simpl.
  - intros (Ht & h1 & Hf & ->). by exists h.
  - by intros (_ & ? & _ & ?); destruct names.
  - by intros (_ & ? & _ & ?); destruct chain.
  - intros (Hu & h1 & Hm & (h2 & ? & ?)%IH). exists h2. split; [|done]. eauto.
Qed.

Lemma leads_down_length h chain names h' : leads_down h chain names h' → length chain = length names.
Proof.
  revert h names. induction chain as [|t chain IH]; intros h [|n names]; try done.
  intros (_ & h1 & _ & Hl). simpl. by rewrite (IH h1 names Hl).
Qed.

Lemma chain_down_spec h t ns n y :
  stored_tree d h = Some t → tree_below d h (ns ++ [n]) = Some y →
  ∃ chain, chain_down d t ns = Ok chain ∧ leads_down h chain (ns ++ [n]) y.
Proof.
  revert h t. induction ns as [|m ns IH]; intros h t Ht; cbn [app tree_below chain_down]; rewrite Ht; cbn [mbind option_bind].
  - destruct (find_dir n (tree_items t)) as [h1|] eqn:Ef; [|done]. intros [= <-]. exists [t]. split; [done|].
    split; [done|]. by exists h1.
  - destruct (find_dir m (tree_items t)) as [h1|] eqn:Ef; [|done]. cbn [mbind option_bind]. intros Hy.
    assert (∃ t1, stored_tree d h1 = Some t1) as [t1 Ht1].
    { destruct ns; simpl in Hy; destruct (stored_tree d h1); naive_solver. }
    destruct (IH h1 t1 Ht1 Hy) as (chain & Hc & Hl). exists (t :: chain).
    rewrite (find_named_dir_first _ _ _ Ef), (handler_stored d (mega_tree d) ltac:(done) h1 t1 Ht1). cbn. rewrite Hc.
    split; [done|]. split; [done|]. by exists h1.
Qed.

(** ** One level *)

Lemma item_named_app c (l k : list item) :
  item_named c (l ++ k) = match item_named c l with Some it => Some it | None => item_named c k end.
Proof. unfold item_named. induction l as [|it l IH]; simpl; [done|]. by destruct (bool_decide _). Qed.

Lemma position_split n (its : list item) i :
  item_position n its = Some i →
  ∃ l it k, its = l ++ it :: k ∧ length l = i ∧ item_name it = n ∧ item_named n l = None.
Proof.
  unfold item_position. intros ([j it] & (Hj & Hn & Hb)%list_find_Some & ->)%fmap_Some. simpl.
  exists (take j its), it, (drop (S j) its). split; [by rewrite take_drop_middle|].
  split; [apply length_take_le; apply lookup_lt_Some in Hj; lia|]. split; [done|].
  unfold item_named. destruct (List.find _ (take j its)) as [x|] eqn:E; [|done].
  apply List.find_some in E as [Hin%list_elem_of_In E]. bool_prop.
  apply elem_of_take in Hin as (k & Hk & Hlt). by destruct (Hb k x Hk Hlt).
Qed.

Lemma item_named_delete n c its i :
  NoDup (names_of its) → item_position n its = Some i →
  item_named c (delete i its) = if bool_decide (c = n) then None else item_named c its.
Proof.
  intros Hnd (l & it & k & -> & <- & Hn & Hl)%position_split.
  replace (delete (length l) (l ++ it :: k)) with (l ++ k)
    by (by rewrite delete_take_drop, take_app_length, drop_app_ge, Nat.sub_succ_l, Nat.sub_diag by lia).
  rewrite !item_named_app, item_named_cons, Hn. destruct (bool_decide (c = n)) eqn:E; bool_prop.
  - subst c. rewrite Hl. apply item_named_None. unfold names_of in Hnd. rewrite fmap_app, fmap_cons in Hnd.
    apply NoDup_app in Hnd as (_ & _ & Hnd). apply NoDup_cons in Hnd as [Hnd _]. by rewrite <-Hn.
  - by rewrite (bool_decide_eq_false_2 (n = c)) by congruence.
Qed.

(** The entries of a level after the removal. *)
Definition level_items (child : option ObjectHash) (pos : nat) (its : list item) : list item :=
  match child with Some id => alter (set_item_id id) pos its | None => delete pos its end.

Lemma level_items_spec child pos n h1 its :
  Forall storable its → NoDup (names_of its) → item_position n its = Some pos → find_dir n its = Some h1 →
  Forall storable (level_items child pos its) ∧ NoDup (names_of (level_items child pos its))
  ∧ find_dir n (level_items child pos its) = hash_to_string <$> child
  ∧ (child = None → item_named n (level_items child pos its) = None)
  ∧ ∀ c, c ≠ n → item_named c (level_items child pos its) = item_named c its.
Proof.
  intros Hs Hnd Hp (it & Hit & Hm & _)%find_dir_Some. destruct child as [id|]; simpl.
  - split_and!; [by apply alter_storable|by rewrite names_alter| |done|].
    + apply find_dir_Some. exists (set_item_id id it). rewrite (item_named_alter n) by done.
      by rewrite bool_decide_eq_true_2, Hit.
    + intros c Hc. rewrite (item_named_alter n) by done. by rewrite bool_decide_eq_false_2.
  - assert (delete pos its `sublist_of` its) as Hsub by apply sublist_delete.
    split_and!.
    + rewrite Forall_forall in Hs |- *. intros x Hx. apply Hs. by eapply elem_of_sublist.
    + eapply sublist_NoDup; [exact Hnd|]. by apply fmap_sublist.
    + unfold find_dir. by rewrite (item_named_delete n), bool_decide_eq_true_2.
    + intros _. by rewrite (item_named_delete n), bool_decide_eq_true_2.
    + intros c Hc. by rewrite (item_named_delete n), bool_decide_eq_false_2.
Qed.

(** ** Entries *)

(** The entry that the components lead to, a file or a directory. *)
Fixpoint entry_below (db : MonoDb) (h : text) (cs : list text) : option item :=
  match cs with
  | [] => None
  | c :: cs =>
      t ← stored_tree db h;
      match cs with
      | [] => item_named c (tree_items t)
      | _ => h' ← find_dir c (tree_items t); entry_below db h' cs
      end
  end.

Lemma entry_below_cons db h t c cs :
  stored_tree db h = Some t → cs ≠ [] →
  entry_below db h (c :: cs) = h' ← find_dir c (tree_items t); entry_below db h' cs.
Proof. intros Ht Hcs. cbn [entry_below]. rewrite Ht. by destruct cs. Qed.

Lemma tree_below_entry db h cs :
  cs ≠ [] → tree_below db h cs =
    it ← entry_below db h cs; if bool_decide (item_mode it = ModeTree) then Some (hash_to_string (item_id it)) else None.
Proof.
  revert h. induction cs as [|c cs IH]; [done|]. intros h _. cbn [tree_below entry_below].
  destruct (stored_tree db h) as [t|]; [|done]. cbn [mbind option_bind]. destruct (decide (cs = [])) as [->|Hcs].
  - unfold find_dir. destruct (item_named c (tree_items t)) as [it|]; [|done]. simpl. by case_bool_decide.
  - destruct (find_dir c (tree_items t)) as [h'|]; cbn [mbind option_bind]; [rewrite IH by done|]; by destruct cs.
Qed.

(** Entries of trees that agree on a name agree below it. *)
Lemma entry_below_same db h h' t t' c cs :
  stored_tree db h = Some t → stored_tree db h' = Some t' → item_named c (tree_items t) = item_named c (tree_items t') →
  entry_below db h (c :: cs) = entry_below db h' (c :: cs).
Proof. intros Ht Ht' Hc. cbn [entry_below]. rewrite Ht, Ht'. simpl. unfold find_dir. by rewrite Hc. Qed.

Lemma diverges_nonempty cs ns : diverges cs ns → cs ≠ [].
Proof. intros [Hp _] ->. apply Hp, prefix_nil. Qed.

Lemma diverges_cons_iff c cs ns : diverges (c :: cs) (c :: ns) ↔ diverges cs ns.
Proof.
  split; [apply diverges_cons|]. intros [H1 H2]. split; intros Hp%prefix_cons_inv_2; [by apply H1|by apply H2].
Qed.

Lemma diverges_head c cs n ns : c ≠ n → diverges (c :: cs) (n :: ns).
Proof. intros Hc. split; intros Hp%prefix_cons_inv_1; congruence. Qed.

(** Below the first [j] directories on the way [ns] nothing is found but the way itself. *)
Definition bare (db : MonoDb) (h : text) (ns : list text) (j : nat) : Prop :=
  ∀ cs, diverges cs ns → take j ns `prefix_of` cs → entry_below db h cs = None.

Section Bare.
Context (db : MonoDb) (h h1 : text) (t : GitTree) (n : text) (ns : list text).
Context (Ht : stored_tree db h = Some t) (Hn : find_dir n (tree_items t) = Some h1).

Lemma entry_below_way cs : cs ≠ [] → entry_below db h (n :: cs) = entry_below db h1 cs.
Proof. intros Hcs. rewrite (entry_below_cons _ _ t) by done. by rewrite Hn. Qed.

Lemma bare_cons j : bare db h (n :: ns) (S j) ↔ bare db h1 ns j.
Proof.
  split.
  - intros Hb cs Hd Hp. rewrite <-entry_below_way by (by eapply diverges_nonempty). apply Hb; [by apply diverges_cons_iff|].
    by apply prefix_cons.
  - intros Hb cs Hd Hp. cbn [take] in Hp. destruct cs as [|c cs]; [by apply prefix_nil_not in Hp|].
    pose proof (prefix_cons_inv_1 _ _ _ _ Hp) as <-. apply prefix_cons_inv_2 in Hp.
    apply diverges_cons_iff in Hd. rewrite entry_below_way by (by eapply diverges_nonempty). by apply Hb.
Qed.

Lemma bare_zero :
  bare db h (n :: ns) 0 ↔ (∀ c, c ≠ n → item_named c (tree_items t) = None) ∧ bare db h1 ns 0.
Proof.
  split.
  - intros Hb. split.
    + intros c Hc. specialize (Hb [c] (diverges_head _ _ _ _ Hc) (prefix_nil _)). cbn [entry_below] in Hb.
      by rewrite Ht in Hb.
    + intros cs Hd _. rewrite <-entry_below_way by (by eapply diverges_nonempty).
      apply Hb; [by apply diverges_cons_iff|apply prefix_nil].
  - intros [Ho Hb] [|c cs] Hd _; [done|]. destruct (decide (c = n)) as [->|Hc].
    + apply diverges_cons_iff in Hd. rewrite entry_below_way by (by eapply diverges_nonempty).
      apply Hb; [done|apply prefix_nil].
    + cbn [entry_below]. rewrite Ht. cbn [mbind option_bind]. unfold find_dir. rewrite Ho by done. by destruct cs.
Qed.
End Bare.

(** ** The loop *)

Section Loop.
Context (gk : ObjectHash) (floor : nat).

Definition placeholder : item := mk_TreeItem ModeBlob gk (lit ".gitkeep").

(** The directory at level [idx], that was at [h] and led to the leaf along [ns], is now at
    [n]: of the way down it keeps what is not below the import root and what is not bare; the
    import root has a placeholder when it is bare; and every other entry is as before. *)
Record trimmed (db : MonoDb) (idx : nat) (h : text) (ns : list text) (keep : option ObjectHash) (n : text) : Prop := {
  tr_way j : j ≤ length ns → tree_below db n (take j ns) = None ↔ floor < idx + j ∧ bare db h ns j;
  tr_keep : keep = Some gk ↔ idx ≤ floor ∧ bare db h ns (floor - idx);
  tr_placed : keep = Some gk → entry_below db n (take (floor - idx) ns ++ [lit ".gitkeep"]) = Some placeholder;
  tr_same cs : diverges cs ns → (keep = Some gk → cs ≠ take (floor - idx) ns ++ [lit ".gitkeep"]) →
    entry_below db n cs = entry_below db h cs;
}.

Definition pruned (idx : nat) (h : text) (ns : list text) (child : option ObjectHash) (keep : option ObjectHash)
    (trees : list GitTree) : Prop :=
  ∀ db', mega_tree d ⊆ mega_tree db' → all_stored db' trees →
  match child with
  | Some id => trimmed db' idx h ns keep (hash_to_string id)
  | None => floor < idx ∧ keep = None ∧ bare db' h ns 0
  end.

Lemma all_stored_app db' (l k : list GitTree) : all_stored db' (l ++ k) → all_stored db' l ∧ all_stored db' k.
Proof. intros Hs. split; intros t Ht; apply Hs, elem_of_app; auto. Qed.

Section Level.
Context (db : MonoDb) (idx : nat) (h h1 : text) (t t' : GitTree) (n : text) (ns : list text).
Context (Ht : stored_tree db h = Some t) (Hn : find_dir n (tree_items t) = Some h1).
Context (Ht' : stored_tree db (hash_to_string (tree_id t')) = Some t').
Abbreviation new := (hash_to_string (tree_id t')).

(** The directory below stays. *)
Lemma level_kept keep n1 :
  trimmed db (S idx) h1 ns keep n1 → find_dir n (tree_items t') = Some n1 →
  (∀ c, c ≠ n → item_named c (tree_items t') = item_named c (tree_items t)) →
  trimmed db idx h (n :: ns) keep new.
Proof.
  intros [Hway Hkeep Hplaced Hsame] Hn' Ho.
  assert (floor < S idx → ¬ bare db h1 ns 0) as Hlive.
  { intros Hf Hb. specialize (Hway 0 ltac:(lia)). rewrite take_0 in Hway. cbn in Hway.
    destruct Hway as [_ Hway]. discriminate Hway. split; [lia|done]. }
  assert (keep = Some gk → take (floor - idx) (n :: ns) = n :: take (floor - S idx) ns) as Htake.
  { intros [Hle _]%Hkeep. replace (floor - idx) with (S (floor - S idx)) by lia. done. }
  split.
  - intros [|j] Hj; simpl in Hj.
    + rewrite take_0. cbn. split; [done|]. intros [Hf [_ Hb]%(bare_zero _ _ _ _ _ _ Ht Hn)]. destruct Hlive; [lia|done].
    + cbn [take tree_below]. rewrite Ht'. cbn [mbind option_bind]. rewrite Hn'. cbn [mbind option_bind].
      rewrite Hway by lia. rewrite (bare_cons _ _ _ _ _ _ Ht Hn). by rewrite Nat.add_succ_r.
  - rewrite Hkeep. destruct (decide (S idx ≤ floor)) as [Hle|Hle].
    + replace (floor - idx) with (S (floor - S idx)) by lia. rewrite (bare_cons _ _ _ _ _ _ Ht Hn).
      split; intros [_ Hb]; (split; [lia|done]).
    + split; [lia|]. intros [Hi Hb]. exfalso. replace (floor - idx) with 0 in Hb by lia.
      apply (bare_zero _ _ _ _ _ _ Ht Hn) in Hb as [_ Hb]. by apply Hlive; [lia|].
  - intros Hk. rewrite Htake by done. cbn [app]. rewrite (entry_below_way _ _ n1 t' n Ht' Hn') by (by destruct (take _ ns)).
    by apply Hplaced.
  - intros [|c cs] Hd Hc; [done|]. destruct (decide (c = n)) as [->|Hcn].
    + apply diverges_cons_iff in Hd. pose proof (diverges_nonempty _ _ Hd) as Hne.
      rewrite (entry_below_way _ _ n1 t' n Ht' Hn'), (entry_below_way _ _ h1 t n Ht Hn) by done.
      apply Hsame; [done|]. intros Hk ->. apply (Hc Hk). by rewrite Htake.
    + by eapply entry_below_same; [..|apply Ho].
Qed.

(** The entry is removed and others stay. *)
Lemma level_removed :
  floor < S idx → bare db h1 ns 0 → tree_items t' ≠ [] → item_named n (tree_items t') = None →
  (∀ c, c ≠ n → item_named c (tree_items t') = item_named c (tree_items t)) →
  trimmed db idx h (n :: ns) None new.
Proof.
  intros Hf Hb Hne Hn' Ho.
  assert (find_dir n (tree_items t') = None) as Hnd by (unfold find_dir; by rewrite Hn').
  assert (¬ bare db h (n :: ns) 0) as Hlive.
  { intros [Hall _]%(bare_zero _ _ _ _ _ _ Ht Hn). destruct (tree_items t') as [|it its] eqn:E; [done|].
    assert (item_named (item_name it) (it :: its) = Some it) as Hit by (rewrite item_named_cons; by case_bool_decide).
    destruct (decide (item_name it = n)) as [Heq|Hc]; [congruence|]. rewrite Ho, Hall in Hit by done. done. }
  split.
  - intros [|j] Hj; simpl in Hj.
    + rewrite take_0. cbn. split; [done|]. by intros [_ ?].
    + cbn [take tree_below]. rewrite Ht'. cbn [mbind option_bind]. rewrite Hnd. split; [|done]. intros _.
      split; [lia|]. rewrite (bare_cons _ _ _ _ _ _ Ht Hn). intros cs Hd _. apply Hb; [done|apply prefix_nil].
  - split; [done|]. intros [Hi Hb']. exfalso. replace (floor - idx) with 0 in Hb' by lia. done.
  - done.
  - intros [|c cs] Hd _; [done|]. destruct (decide (c = n)) as [->|Hcn].
    + apply diverges_cons_iff in Hd. pose proof (diverges_nonempty _ _ Hd) as Hne'.
      rewrite (entry_below_way _ _ h1 t n Ht Hn) by done. rewrite (Hb cs Hd) by apply prefix_nil.
      rewrite (entry_below_cons _ _ t') by done. by rewrite Hnd.
    + by eapply entry_below_same; [..|apply Ho].
Qed.

(** The import root is left with nothing and gets the placeholder. *)
Lemma level_placed :
  idx = floor → bare db h (n :: ns) 0 → tree_items t' = [placeholder] →
  trimmed db idx h (n :: ns) (Some gk) new.
Proof.
  intros Hf Hb Hit. assert (∀ c, find_dir c (tree_items t') = None) as Hnd.
  { intros c. rewrite Hit. unfold find_dir. rewrite item_named_cons. by destruct (bool_decide (_ = c)). }
  assert (∀ j, bare db h (n :: ns) j) as Hall by (intros j cs Hd _; apply Hb; [done|apply prefix_nil]).
  split.
  - intros [|j] Hj.
    + rewrite take_0. cbn. split; [done|lia].
    + cbn [take tree_below]. rewrite Ht'. cbn [mbind option_bind]. rewrite Hnd. split; [|done].
      intros _. split; [lia|apply Hall].
  - split; [|done]. intros _. split; [lia|apply Hall].
  - intros _. replace (floor - idx) with 0 by lia. cbn [take app entry_below]. rewrite Ht'. cbn [mbind option_bind]. rewrite Hit. done.
  - intros cs Hd Hc. rewrite (Hb cs Hd) by apply prefix_nil. replace (floor - idx) with 0 in Hc by lia.
    destruct cs as [|c cs]; [done|]. cbn [entry_below]. rewrite Ht'. cbn [mbind option_bind]. rewrite Hnd.
    destruct cs as [|]; [|done]. rewrite Hit, item_named_cons. case_bool_decide as E; [|done].
    by destruct (Hc eq_refl); subst.
Qed.
End Level.

(** The result of the loop. *)
Definition removal_ok (h : text) (names : list text) (res : list GitTree * option ObjectHash) : Prop :=
  Forall good_tree res.1 ∧ (res.2 = None ∨ res.2 = Some gk)
  ∧ ∃ root, last res.1 = Some root ∧ pruned 0 h names (Some (tree_id root)) res.2 res.1.

Lemma position_dir n its h1 : find_dir n its = Some h1 → ∃ pos, item_position n its = Some pos.
Proof.
  intros (it & Hit & _)%find_dir_Some. pose proof (position_spec n its) as Hp.
  destruct (item_position n its) as [pos|]; [by exists pos|congruence].
Qed.

Lemma remove_loop_cons idx t n up child trees keep pos :
  item_position n (tree_items t) = Some pos →
  remove_loop gk floor ((idx, (t, n)) :: up) child trees keep =
  let rebuilt items keep :=
    match tree_of_items items with
    | None => Err InvalidTree
    | Some t' => remove_loop gk floor up (Some (tree_id t')) (trees ++ [t']) keep
    end in
  match level_items child pos (tree_items t) with
  | [] => if Nat.ltb floor idx then remove_loop gk floor up None trees keep
          else rebuilt [mk_TreeItem ModeBlob gk (lit ".gitkeep")] (Some gk)
  | items => rebuilt items keep
  end.
Proof. intros Hp. cbn [remove_loop]. rewrite Hp. unfold level_items. destruct child; [by destruct (alter _ _ _)|by destruct (delete _ _)]. Qed.

Lemma reverse_levels {A B} (l : list A) (k : list B) a b :
  length l = length k →
  reverse (imap pair (zip (l ++ [a]) (k ++ [b]))) = (length l, (a, b)) :: reverse (imap pair (zip l k)).
Proof.
  intros Hl. rewrite zip_with_app by done. rewrite imap_app, reverse_app. simpl.
  by rewrite length_zip_with, <-Hl, Nat.min_id, Nat.add_0_r.
Qed.

Lemma placeholder_good : ∃ t, tree_of_items [placeholder] = Some t ∧ tree_items t = [placeholder] ∧ good_tree t.
Proof.
  apply tree_of_items_good; [done| |apply NoDup_singleton]. constructor; [|constructor].
  unfold storable. simpl. apply (bool_decide_unpack _). vm_compute. done.
Qed.

(** One turn of the loop: the tree is dropped, or rebuilt with the right entries. *)
Lemma level_step idx h t n h1 ns child keep trees pos :
  stored_tree d h = Some t → find_dir n (tree_items t) = Some h1 → item_position n (tree_items t) = Some pos →
  pruned (S idx) h1 ns child keep trees →
  (level_items child pos (tree_items t) = [] ∧ floor < idx ∧ pruned idx h (n :: ns) None keep trees)
  ∨ ∃ its t' keep', tree_of_items its = Some t' ∧ good_tree t' ∧ (keep' = keep ∨ keep' = Some gk)
    ∧ pruned idx h (n :: ns) (Some (tree_id t')) keep' (trees ++ [t'])
    ∧ (level_items child pos (tree_items t) = its ∧ its ≠ [] ∧ keep' = keep
       ∨ level_items child pos (tree_items t) = [] ∧ ¬ floor < idx ∧ its = [placeholder] ∧ keep' = Some gk).
Proof.
  intros Ht Hf Hpos Hp. destruct (stored_sound d h t Hsound Ht) as (_ & Hst & Hnd).
  destruct (level_items_spec child pos n h1 _ Hst Hnd Hpos Hf) as (Hst' & Hnd' & Hn' & Hi' & Ho').
  assert (∀ t', ∀ db', mega_tree d ⊆ mega_tree db' → all_stored db' (trees ++ [t']) →
    stored_tree db' h = Some t ∧ stored_tree db' (hash_to_string (tree_id t')) = Some t' ∧ all_stored db' trees) as Hdb.
  { intros t' db' Hsub [Hs1 Hs2]%all_stored_app. split_and!; [by eapply stored_mono|apply Hs2; by constructor|done]. }
  destruct (level_items child pos (tree_items t)) as [|it its] eqn:Ei.
  - change (find_dir n []) with (@None text) in Hn'. destruct child as [id|]; [done|].
    assert (∀ db', mega_tree d ⊆ mega_tree db' → all_stored db' trees → bare db' h (n :: ns) 0) as Hbare.
    { intros db' Hsub Hst2. apply (bare_zero db' h h1 t); [by eapply stored_mono|done|]. split; [|by apply Hp].
      intros c Hc. by rewrite <-Ho'. }
    destruct (decide (floor < idx)) as [Hlt|Hlt]; [left|right].
    + split_and!; [done..|]. intros db' Hsub Hst2. destruct (Hp db' Hsub Hst2) as (_ & -> & _). auto.
    + destruct placeholder_good as (t' & Et' & Hit & Hg'). exists [placeholder], t', (Some gk).
      split_and!; [done|done|by right| |by right]. intros db' Hsub Hst2. destruct (Hdb t' db' Hsub Hst2) as (E & E' & Hs1).
      destruct (Hp db' Hsub Hs1) as [Hlt2 _]. apply (level_placed db' idx h t' n ns); try done; [lia|by apply Hbare].
  - right. destruct (tree_of_items_good (it :: its)) as (t' & Et' & Hit & Hg'); [done..|].
    exists (it :: its), t', keep. split_and!; [done|done|by left| |left; done].
    intros db' Hsub Hst2. destruct (Hdb t' db' Hsub Hst2) as (E & E' & Hs1). specialize (Hp db' Hsub Hs1).
    destruct child as [id|].
    + apply (level_kept db' idx h h1 t t' n ns E Hf E' keep (hash_to_string id)); [done|by rewrite Hit|by rewrite Hit].
    + destruct Hp as (Hlt & -> & Hb).
      apply (level_removed db' idx h h1 t t' n ns E Hf E'); rewrite ?Hit; try done. by apply Hi'.
Qed.

Lemma remove_loop_spec h0 chain names h ns child trees keep :
  leads_down h0 chain names h → pruned (length chain) h ns child keep trees → Forall good_tree trees →
  (keep = None ∨ keep = Some gk) → (chain = [] → ∃ root, last trees = Some root ∧ child = Some (tree_id root)) →
  ∃ res, remove_loop gk floor (reverse (imap pair (zip chain names))) child trees keep = Ok res
    ∧ removal_ok h0 (names ++ ns) res.
Proof.
  revert names h ns child trees keep. induction chain as [|t chain IH] using rev_ind;
    intros names h ns child trees keep Hl Hp Hg Hk Hroot.
  { destruct names; [|done]. simpl in Hl. subst h. destruct (Hroot eq_refl) as (root & Hlast & ->).
    eexists. split; [done|]. split; [done|]. split; [done|]. by exists root. }
  pose proof (leads_down_length _ _ _ _ Hl) as Hlen.
  destruct (exists_last (l := names)) as (names' & n & ->); [by intros ->; rewrite length_app in Hlen; simpl in Hlen; lia|].
  rewrite !length_app in Hlen. simpl in Hlen. apply leads_down_snoc in Hl as (h1 & Hl & Ht & Hf).
  rewrite reverse_levels by lia. rewrite length_app, Nat.add_1_r in Hp.
  destruct (position_dir _ _ _ Hf) as [pos Hpos]. rewrite (remove_loop_cons _ _ _ _ _ _ _ pos) by done. cbv zeta.
  rewrite <-app_assoc. cbn [app].
  destruct (level_step _ _ _ _ _ _ _ _ _ _ Ht Hf Hpos Hp) as [(Ei & Hlt & Hp')|(its & t' & keep' & Et' & Hg' & Hk' & Hp' & Hits)].
  - rewrite Ei. rewrite (proj2 (Nat.ltb_lt _ _) Hlt). apply (IH _ h1); [done..|]. intros ->. simpl in Hlt. lia.
  - assert (∃ res, remove_loop gk floor (reverse (imap pair (zip chain names'))) (Some (tree_id t')) (trees ++ [t']) keep' = Ok res
      ∧ removal_ok h0 (names' ++ n :: ns) res) as Hgo.
    { apply (IH _ h1); [done|done| |destruct Hk' as [->| ->]; auto|].
      - apply Forall_app. by split; [|constructor].
      - intros _. exists t'. by rewrite last_snoc. }
    destruct Hits as [(-> & Hne & ->)|(-> & Hlt & -> & ->)].
    + destruct its as [|it its]; [done|]. by rewrite Et'.
    + rewrite (proj2 (Nat.ltb_ge _ _)) by lia. fold placeholder. by rewrite Et'.
Qed.

(** What the trimmed root says. *)
Lemma trimmed_root db h segs keep n :
  trimmed db 0 h segs keep n → floor < length segs →
  let gitkeep := take floor segs ++ [lit ".gitkeep"] in
  (∀ j, j ≤ length segs → tree_below db n (take j segs) = None ↔ floor < j ∧ bare db h segs j)
  ∧ tree_below db n segs = None
  ∧ (keep = Some gk ↔ bare db h segs floor)
  ∧ (keep = Some gk → entry_below db n gitkeep = Some placeholder)
  ∧ (∀ cs, diverges cs segs → (keep = Some gk → cs ≠ gitkeep) → entry_below db n cs = entry_below db h cs)
  ∧ (∀ cs, diverges cs segs → tree_below db n cs = tree_below db h cs).
Proof.
  intros [Hway Hkeep Hplaced Hsame] Hfl gitkeep. rewrite Nat.sub_0_r in *. split_and!; try done.
  - rewrite <-(firstn_all segs). apply Hway; [done|]. split; [lia|]. intros cs [_ Hd] Hp. rewrite firstn_all in Hp. done.
  - rewrite Hkeep. split; [by intros [_ ?]|]. intros ?. split; [lia|done].
  - intros cs Hd. rewrite !tree_below_entry by (by eapply diverges_nonempty).
    destruct (decide (keep = Some gk ∧ cs = gitkeep)) as [[Hk ->]|Hno]; [|by rewrite Hsame by naive_solver].
    unfold gitkeep. rewrite Hplaced by done. apply Hkeep in Hk as [_ Hb]. rewrite Hb; [done|done|by apply prefix_app_r].
Qed.
End Loop.
End Removal.

(** C27: detaching an import repository removes its directory, prunes what it leaves empty
    and touches nothing else.  The chain to the directory is found and the new trees are made,
    well formed, with the new root last.  Once they are stored, of the directories on the way
    to the leaf, the leaf included, exactly those are gone that are below the import root and
    held nothing, no file and no directory, off that way; the import root gets the placeholder
    exactly when it would be left empty; and every other entry, file or directory, that is off
    the way is the same as below the old root. *)
Theorem import_leaf_removed `{GitLaws} d h0 root segs y gk floor :
  trees_sound (mega_tree d) → stored_tree d h0 = Some root → Forall mono_segment segs →
  tree_below d h0 segs = Some y → floor < length segs →
  ∃ chain trees keep root',
    import_leaf_chain_in_txn d h0 (display_path segs) = Ok (chain, segs)
    ∧ remove_import_leaf gk chain segs floor = Ok (trees, keep)
    ∧ (keep = None ∨ keep = Some gk) ∧ Forall good_tree trees ∧ last trees = Some root'
    ∧ ∀ db', mega_tree d ⊆ mega_tree db' → all_stored db' trees →
        let new := hash_to_string (tree_id root') in
        let gitkeep := take floor segs ++ [lit ".gitkeep"] in
        (∀ j, j ≤ length segs → tree_below db' new (take j segs) = None ↔ floor < j ∧ bare db' h0 segs j)
        ∧ tree_below db' new segs = None
        ∧ (keep = Some gk ↔ bare db' h0 segs floor)
        ∧ (keep = Some gk → entry_below db' new gitkeep = Some (placeholder gk))
        ∧ (∀ cs, diverges cs segs → (keep = Some gk → cs ≠ gitkeep) → entry_below db' new cs = entry_below db' h0 cs)
        ∧ (∀ cs, diverges cs segs → tree_below db' new cs = tree_below db' h0 cs).
Proof.
  intros Hs Hroot Hseg Hy Hfl. assert (segs ≠ []) as Hne by (intros ->; simpl in Hfl; lia).
  unfold import_leaf_chain_in_txn. rewrite path_components_display by (by apply mono_plain).
  rewrite bool_decide_eq_false_2 by done. rewrite (handler_stored d (mega_tree d) ltac:(done) h0 root Hroot).
  cbn [mbind outcome_bind]. destruct (exists_last Hne) as (ns & n & ->). rewrite removelast_last.
  destruct (chain_down_spec d h0 root ns n y Hroot Hy) as (chain & Hc & Hl). rewrite Hc. cbn [mbind outcome_bind].
  pose proof (leads_down_length d _ _ _ _ Hl) as Hlen.
  destruct (remove_loop_spec d Hs gk floor h0 chain (ns ++ [n]) y [] None [] None Hl) as ([trees keep] & El & Hg & Hk & root' & Hlast & Hp).
  - intros db' _ _. split; [lia|]. split; [done|]. intros cs [_ []]. apply prefix_nil.
  - constructor.
  - by left.
  - intros ->. rewrite length_app in Hlen. simpl in Hlen. lia.
  - exists chain, trees, keep, root'. rewrite app_nil_r in Hp. split; [done|]. split.
    + unfold remove_import_leaf. rewrite bool_decide_eq_false_2 by (intros ->; rewrite length_app in Hlen; simpl in Hlen; lia).
      rewrite Hlen, Nat.eqb_refl. destruct (Nat.leb_spec (length (ns ++ [n])) floor); [lia|]. exact El.
    + split_and!; [done..|]. intros db' Hsub Hst. apply trimmed_root; [exact (Hp db' Hsub Hst)|done].
Qed.

(** ** Example *)

(** The repository [/imports/x/leaf], alone below the import root [/imports]. *)
Definition import_leaf0 : list N := enc [mk_TreeItem ModeBlob [5%N] (lit ".gitkeep")].
Definition import_x : list N := enc [mk_TreeItem ModeTree import_leaf0 (lit "leaf")].
Definition import_root : list N := enc [mk_TreeItem ModeTree import_x (lit "x")].
Definition import_top : list N :=
  enc [mk_TreeItem ModeBlob [7%N] (lit "README"); mk_TreeItem ModeTree import_root (lit "imports")].
Definition import_trees : gmap text bytes :=
  list_to_map [(import_leaf0, import_leaf0); (import_x, import_x); (import_root, import_root); (import_top, import_top)].
Definition import_mono : MonoDb := mk_MonoDb ∅ ∅ import_trees ∅ ∅.
Definition import_segs : list text := [lit "imports"; lit "x"; lit "leaf"].

Lemma import_trees_sound : trees_sound (mega_tree import_mono).
Proof.
  intros h x E. change (import_trees !! h = Some x) in E. apply elem_of_list_to_map_2 in E.
  repeat (apply elem_of_cons in E as [[= -> ->]|E]; [eexists _, _; split; [reflexivity|]; split; [reflexivity|];
    split; [vm_compute; reflexivity|]; apply (bool_decide_unpack _); vm_compute; reflexivity|]).
  by apply not_elem_of_nil in E.
Qed.

(** [/imports/x] goes with the leaf, [/imports] stays with a placeholder, [/README] stays. *)
Lemma import_leaf_removed_witness :
  ∃ chain trees keep root',
    import_leaf_chain_in_txn import_mono import_top (display_path import_segs) = Ok (chain, import_segs)
    ∧ remove_import_leaf [9%N] chain import_segs 1 = Ok (trees, keep)
    ∧ keep = Some [9%N]
    ∧ ∀ db', mega_tree import_mono ⊆ mega_tree db' → all_stored db' trees →
        tree_below db' (hash_to_string (tree_id root')) [lit "imports"; lit "x"] = None
        ∧ is_Some (tree_below db' (hash_to_string (tree_id root')) [lit "imports"])
        ∧ entry_below db' (hash_to_string (tree_id root')) [lit "imports"; lit ".gitkeep"] = Some (placeholder [9%N])
        ∧ entry_below db' (hash_to_string (tree_id root')) [lit "README"] = entry_below db' import_top [lit "README"].
Proof.
  destruct (stored_tree import_mono import_top) as [root|] eqn:Er; [|vm_compute in Er; discriminate].
  destruct (import_leaf_removed import_mono import_top root import_segs import_leaf0 [9%N] 1 import_trees_sound Er)
    as (chain & trees & keep & root' & E1 & E2 & _ & _ & _ & Hall).
  - repeat constructor; try (vm_compute; congruence); apply (bool_decide_unpack _); reflexivity.
  - vm_compute. reflexivity.
  - simpl. lia.
  - exists chain, trees, keep, root'. split; [exact E1|]. split; [exact E2|].
    assert (keep = Some [9%N]) as Hk.
    { assert (∃ c, import_leaf_chain_in_txn import_mono import_top (display_path import_segs) = Ok (c, import_segs)
        ∧ ∃ ts, remove_import_leaf [9%N] c import_segs 1 = Ok (ts, Some [9%N])) as (c & Ec & ts & Et)
        by (eexists; split; [vm_compute; reflexivity|eexists; vm_compute; reflexivity]).
      rewrite E1 in Ec. injection Ec as <-. rewrite E2 in Et. by injection Et. }
    split; [exact Hk|]. intros db' Hsub Hst. destruct (Hall db' Hsub Hst) as (Hway & _ & Hkeep & Hp & Hsame & _).
    pose proof (proj1 Hkeep Hk) as Hb. split_and!.
    + apply (Hway 2); [simpl; lia|]. split; [lia|]. intros cs Hd Hpre. apply (Hb cs Hd).
      etrans; [|exact Hpre]. exists [lit "x"]. reflexivity.
    + destruct (tree_below db' _ [lit "imports"]) eqn:E; [by eexists|]. apply (Hway 1) in E as [? _]; [lia|simpl; lia].
    + apply (Hp Hk).
    + apply (Hsame [lit "README"]); [by apply diverges_head|by intros _ ?].
Defined.
