(* ===== verification/TrunkPush.v ===== *)
(** * Landing a push on the trunk: the writes

    Models [apply_push_in_txn] of [src/ceres/api_service/mono_api_service/merge.rs] and
    the descriptor [PushPayload] of [src/jupiter/service/push_queue_service.rs]: the
    commits and references of every directory from the pushed path up to the root, with
    one compare-and-swap of the root.

    [committed] are the tables that a connection outside the transaction reads;
    [fresh_id] generates the identifiers of new references.  An error leaves the tables
    to the caller, which rolls them back. *)
From stdpp Require Import base strings numbers tactics list gmap.
From S2P Require Import Prelude Text FilterSyntax FilterCanonical FilterSemantics MonoPath CommitMessage.
From S2P Require Import CanonicalJson GitObjects ViewCommit GitCommits TrunkProvenance MonoRefs MonoTrees.
From S2P Require Import MonoAdvance QueueTables TreeOps.

(** The errors of a landing, by message. *)
Inductive PushError :=
  | PushMono (e : MonoError)
  | PushTrees (e : TreeOpsError)
  | PushConvert (e : ConvertError)
  | PushPolicyRefused (e : PathPolicyError)
  | PayloadInvalid
  | CommitMissing (id : text)
  | RootTreeMissing (id : text)
  | PushPathInvalid (path : text)
  | ProvenanceMissing
  | SigningUnavailable
  | PushSignFailed
  | PushSynthesis
  | PushHashInvalid
  | EmptyChain
  | RootUpdateMissing
  | ExpectedRootMissing
  | RootCasMiss
  | PublicationFailed (message : text)
  | NativeReservationMissing
  | TargetsFailed (message : text).

(** ** The descriptor *)

Record PushPayload := mk_PushPayload {
  pl_commits : list text;
  fork_base : option text;
  pl_n : Z;
}.

(** [Value::get] *)
Definition json_get (key : text) (j : Json) : option Json :=
  match j with
  | JObject members => snd <$> List.find (λ kv : text * Json, bool_decide (kv.1 = key)) members
  | _ => None
  end.

Definition json_text (j : Json) : option text := match j with JString s => Some s | _ => None end.

Definition json_u32 (j : Json) : option Z :=
  match j with JInt n => if ((0 <=? n) && (n <? 4294967296))%Z then Some n else None | _ => None end.

Definition json_u64 (j : Json) : option Z :=
  match j with JInt n => if ((0 <=? n) && (n <? 18446744073709551616))%Z then Some n else None | _ => None end.

Definition json_texts (j : Json) : option (list text) :=
  match j with JArray items => mapM json_text items | _ => None end.

(** A field of type [Option<String>]: missing is null. *)
Definition json_opt_text (j : option Json) : option (option text) :=
  match j with None | Some JNull => Some None | Some j => Some <$> json_text j end.

(** The derived [Deserialize]: an object, or the fields in order. *)
Definition push_payload_from_value (j : Json) : option PushPayload :=
  match j with
  | JObject _ =>
      cs ← json_get (lit "commits") j ≫= json_texts;
      fb ← json_opt_text (json_get (lit "fork_base") j);
      n ← json_get (lit "n") j ≫= json_u32;
      Some (mk_PushPayload cs fb n)
  | JArray [c; f; n] =>
      cs ← json_texts c; fb ← json_opt_text (Some f); n ← json_u32 n; Some (mk_PushPayload cs fb n)
  | _ => None
  end.

(** The derived [Serialize]. *)
Definition push_payload_to_json (p : PushPayload) : Json :=
  JObject [(lit "commits", JArray (JString <$> pl_commits p));
           (lit "fork_base", from_option JString JNull (fork_base p)); (lit "n", JInt (pl_n p))].

Section Apply.
Context `{GitCommits}.

Definition parse_oid (s : text) : outcome PushError ObjectHash :=
  match from_hex_for_kind s with Some h => Ok h | None => Err PushHashInvalid end.

(** The committer of a stored commit, if it is there. *)
Definition stored_committer (committed : gmap text CommitRow) (id : text)
    : outcome PushError (option Signature) :=
  match committed !! id with
  | None => Ok None
  | Some model =>
      c ← map_err PushConvert (commit_from_mega_model_with_kind model); Ok (Some (c_committer c))
  end.

(** [PushPayload::from_chain]; the chain is given by its commits and its base. *)
Definition push_payload_from_chain (old new : text) (ordered_commits : list Commit) (base : text)
    : PushPayload :=
  mk_PushPayload (map (λ c, hash_to_string (c_id c)) ordered_commits) (Some base)
    (if bool_decide (old = new) then 0 else Z.min (Z.of_nat (length ordered_commits)) 4294967295)%Z.

Record PushApplyArgs := mk_PushApplyArgs {
  pa_result : TreeUpdateResult;
  pa_path_p : text;
  landed_at_p : text;
  expected_root_commit : option text;
  expected_root_tree : option text;
  extra_commits : list Commit;
  extra_blob : option ObjectHash;
  provenance : option TrunkProvenance;
  sign_trunk : option (Commit → option Commit);
}.

Section Layers.
Context (committed : gmap text CommitRow) (plan : TrunkProvenance) (sign : Commit → option Commit).

(** The closure [trunk_commit]. *)
Definition trunk_commit (tree : ObjectHash) (parents : list ObjectHash) (ref_path : text)
    (prev : option Signature) : outcome PushError Commit :=
  match commit_new (tp_author plan) (tp_committer plan prev) tree parents (layer_message plan ref_path) with
  | None => Err PushSynthesis
  | Some unsigned => match sign unsigned with Some c => Ok c | None => Err PushSignFailed end
  end.

(** A commit on top of the one at [previous], if there is one. *)
Definition layer_commit (tree : ObjectHash) (ref_path : text) (previous : option text)
    : outcome PushError Commit :=
  parents ← match previous with Some id => h ← parse_oid id; Ok [h] | None => Ok [] end;
  prev ← match previous with Some id => stored_committer committed id | None => Ok None end;
  trunk_commit tree parents ref_path prev.

(** What the loop over the reference updates has collected. *)
Record Layers := mk_Layers {
  other_updates : list RefUpdateData;
  new_commits : list Commit;
  root_tree_new : option ObjectHash;
}.

Definition add_layer (db : MonoDb) (path_p landed : text) (l : Layers) (u : RefUpdate)
    : outcome PushError Layers :=
  let clean := clean_path_str (ru_path u) in
  let tree := hash_to_string (ru_tree_id u) in
  if bool_decide (clean = path_p) then
    Ok (mk_Layers (other_updates l ++ [mk_RefUpdateData path_p MEGA_BRANCH_NAME landed tree])
          (new_commits l) (root_tree_new l))
  else if bool_decide (clean = lit "/") then
    Ok (mk_Layers (other_updates l) (new_commits l) (Some (ru_tree_id u)))
  else
    let existing := get_main_ref clean db in
    if bool_decide (ref_tree_hash <$> existing = Some tree) then Ok l
    else
      c ← layer_commit (ru_tree_id u) clean (ref_commit_hash <$> existing);
      Ok (mk_Layers (other_updates l ++ [mk_RefUpdateData clean MEGA_BRANCH_NAME (hash_to_string (c_id c)) tree])
            (new_commits l ++ [c]) (root_tree_new l)).
End Layers.

(** [batch_save_model_with_txn] of one row of [mega_blob]. *)
Definition save_blob_row (blob : option ObjectHash) (db : MonoDb) : MonoDb :=
  match blob with
  | Some b => with_blobs ({[hash_to_string b]} ∪ mega_blob db) db
  | None => db
  end.

Definition apply_push_in_txn (committed : gmap text CommitRow) (fresh_id : nat → Z) (now : Z)
    (args : PushApplyArgs) (db : MonoDb) : outcome PushError (MonoDb * (text * Z)) :=
  let path_p := clean_path_str (pa_path_p args) in
  match provenance args, sign_trunk args with
  | Some plan, Some sign =>
      layers ← foldM (add_layer committed plan sign db path_p (landed_at_p args))
                 (mk_Layers [] (extra_commits args) None) (ref_updates (pa_result args));
      match root_tree_new layers with
      | None => Err RootUpdateMissing
      | Some new_root_tree =>
          let new_root_tree_str := hash_to_string new_root_tree in
          root ← (if bool_decide (expected_root_tree args = Some new_root_tree_str) then
                    match expected_root_commit args with
                    | Some c => Ok (c, new_commits layers)
                    | None => Err ExpectedRootMissing
                    end
                  else
                    c ← layer_commit committed plan sign new_root_tree (lit "/") (expected_root_commit args);
                    Ok (hash_to_string (c_id c), new_commits layers ++ [c]));
          let '(root_commit, commits) := root in
          let '(db1, cas_ok) := cas_update_root_main_ref (expected_root_commit args)
                                  (expected_root_tree args) root_commit new_root_tree_str now db in
          if negb cas_ok then Err RootCasMiss
          else
            db2 ← map_err PushMono (batch_upsert_by_path
                     (imap (λ i u, (fresh_id i, u)) (other_updates layers)) now db1);
            db3 ← match commits with [] => Ok db2 | _ => map_err PushMono (save_mega_commits commits db2) end;
            db4 ← match updated_trees (pa_result args) with
                  | [] => Ok db3
                  | ts => map_err PushMono (save_mega_trees ts db3)
                  end;
            Ok (save_blob_row (extra_blob args) db4, (landed_at_p args, 1%Z))
      end
  | _, _ => Err ProvenanceMissing
  end.
End Apply.
