(* ===== verification/PushQueueService.v ===== *)
(** * MonoWriteQueue: the service

    Models [src/jupiter/service/push_queue_service.rs]: the admission of a request (B0 and
    B1), waiting and claiming (B2), the execution of a claimed row (B3) with the landing
    of a push, and the requeue after a conflict (B4).

    The execution is one transaction over the queue and the monorepo, which holds the
    write lock.  It reads first and writes afterwards; [env] is what other connections
    commit between its reads and its writes, such as a writer that ignores the lock.
    When the transaction is rolled back, the tables are those that the others left.  A
    service that keeps its own tables (publication receipts, trace targets) is known by
    its answers, in [Publication].  The writers of attach and merge rows are arguments.
    Metrics, log lines, notifications, storage events and the indexing after the commit
    are not part of the model; neither are the knobs that exist in tests only. *)
From stdpp Require Import base strings sets numbers tactics list gmap.
From S2P Require Import Prelude Text FilterSyntax FilterCanonical FilterSemantics MonoPath CommitMessage.
From S2P Require Import CanonicalJson GitObjects ViewCommit GitCommits TrunkProvenance MonoRefs MonoTrees.
From S2P Require Import MonoAdvance QueueTables PushQueue PushQueueReaper TreeOps TrunkPush.

(** ** Results *)

Inductive PushPolicy := PolicyReview | PolicyTrunk.

Record EnqueueRequest := mk_EnqueueRequest {
  er_kind : PushQueueKindEnum;
  er_operation_id : text;
  er_path : text;
  er_old_id : text;
  er_new_id : text;
  er_requester : option text;
  er_payload : Json;
  er_ref_name : option text;
  is_delete : bool;
}.

Inductive QueueWaitResult :=
  | WaitReady (id : Z)
  | WaitReplayed (id : Z) (landed : option text)
  | WaitAbandoned (id : Z)
  | WaitRejected (id : Z) (message : option text).

Inductive ExecuteOutcome :=
  | ExDone (id : Z) (landed : text) (root_cas_writes : Z)
  | ExClaimLost (id : Z)
  | ExHardStopped (id : Z)
  | ExBypassDetected (id : Z)
  | ExRequeued (id : Z) (successor_id : Z)
  | ExFailed (id : Z) (failure : PushQueueFailureEnum) (message : text).

Inductive CancelQueuedOutcome :=
  | CancelDone
  | CancelNotFound
  | CancelNotQueued (s : PushQueueStatusEnum).

Record StaleMainRef := mk_StaleMainRef {
  stale_path : text;
  stale_commit_hash : text;
  stored_tree_hash : text;
  resolved_tree_hash : option text;
}.

Inductive KindRootWrite := NetZero | Advance.

Record ExecuteRequest := mk_ExecuteRequest {
  req_id : Z;
  kind_root_write : KindRootWrite;
  advance_commit : option text;
  advance_tree : option text;
}.

(** Reasons to refuse a request at B0, by message. *)
Inductive B0Reject :=
  | ReviewPolicy
  | TrunkDelete
  | TrunkRefName (ref_name : text)
  | TrunkRootPath
  | ChainTooLong (limit : Z)
  | TombstoneExists (path : text).

Inductive ServiceError :=
  | SvQueue (e : MegaError)
  | SvPush (e : PushError)
  | SvB0 (e : B0Reject)
  | SvRejected (reason : EnqueueRejectReason)
  | SvRowMissing (id : Z)
  | SvDatabase (message : text)
  | SvWriter (message : text).

(** ** Operation identifiers *)

Definition push_operation_id (old new : text) : text := old ++ [8594%N] ++ new.

Definition merge_operation_id (cl_link : text) : text := cl_link.

(** Rows [(ref_name, command_type, old_id, new_id)], ordered as tuples. *)
Definition normalize_attach_commands (cmds : list (text * text * text * text)) : text :=
  let fields '(r, c, o, n) := [r; c; o; n] in
  join newline (map (λ cmd, join (ch ":") (fields cmd)) (sort_by fields (lex_compare str_compare) cmds)).

Definition attach_operation_id (sha256_hex : text → text) (repo_id normalized_commands : text) : text :=
  sha256_hex (repo_id ++ [0%N] ++ normalized_commands).

(** [repo_id] is the decimal text of the identifier. *)
Definition detach_operation_id (sha256_hex : text → text) (repo_id canonical_path : text) : text :=
  sha256_hex (lit "import_repo.detach" ++ [0%N] ++ repo_id ++ [0%N] ++ canonical_path).

(** ** B0 *)

(** The limit for the review policy is not reached: that policy refuses before. *)
Definition b0_reject_push (policy : PushPolicy) (max_push_commits : Z) (req : EnqueueRequest)
    : option B0Reject :=
  if negb (bool_decide (er_kind req = Push)) then None
  else match policy with
  | PolicyReview => Some ReviewPolicy
  | PolicyTrunk =>
      if is_delete req || is_protocol_zero_id (er_new_id req) then Some TrunkDelete
      else
        let ref_name := default [] (er_ref_name req) in
        if negb (bool_decide (ref_name = MEGA_BRANCH_NAME)) then Some (TrunkRefName ref_name)
        else if bool_decide (er_path req = lit "/") then Some TrunkRootPath
        else match json_get (lit "n") (er_payload req) ≫= json_u64 with
             | Some n => if (max_push_commits <? n)%Z then Some (ChainTooLong max_push_commits) else None
             | None => None
             end
  end.

Definition b0_reject_create_on_tombstone (req : EnqueueRequest) (db : MonoDb) : option B0Reject :=
  if negb (bool_decide (er_kind req = Push)) || negb (is_protocol_zero_id (er_old_id req)) then None
  else match get_tombstone (er_path req) MEGA_BRANCH_NAME db with
       | None => None
       | Some _ => Some (TombstoneExists (er_path req))
       end.

(** ** Ends of a round *)

Abbreviation tables := (Db * MonoDb)%type.

(** Not fencing: an update of no row is an error of the log only. *)
Definition b3_fail_merge (i : Z) (failure : PushQueueFailureEnum) (message : text) (now : Z) (s : tables)
    : tables * ExecuteOutcome :=
  let '(q, updated) := mark_failed_if_running_in_txn i failure message now s.1 in
  if negb updated then (s, ExClaimLost i) else ((q, s.2), ExFailed i failure message).

(** [terminalize_push_failure] and its siblings: a transaction of its own. *)
Definition terminalize_failure (failure : PushQueueFailureEnum) (i : Z) (message : text) (now : Z)
    (s : tables) : tables * ExecuteOutcome :=
  let '(q, updated) := mark_failed_if_running_in_txn i failure message now s.1 in
  if negb updated then (s, ExClaimLost i) else ((q, s.2), ExFailed i failure message).

(** The queue is stopped and the row failed. *)
Definition fail_closed (i : Z) (message : text) (now : Z) (s : tables) : tables * ExecuteOutcome :=
  let q := set_hard_stopped_in_txn true now s.1 in
  ((fst (mark_failed_if_running_in_txn i QueueBypassDetected message now q), s.2), ExBypassDetected i).

Definition b3_tombstone_repair_after_savepoint (i : Z) (path message : text) (now : Z) (s : tables)
    : tables * ExecuteOutcome :=
  let d := fst (tombstone_and_delete_main_ref path now s.2) in
  ((fst (mark_failed_if_running_in_txn i Conflict message now s.1), d), ExFailed i Conflict message).

Definition b3_refuse_stale_main_tree (i : Z) (path : text) (now : Z) (s : tables)
    : tables * ExecuteOutcome :=
  b3_tombstone_repair_after_savepoint i path (lit "stale materialized main ref; advertise then fetch") now s.

(** Done, or the tables [back] after a rollback when the row has gone. *)
Definition finish_done (i : Z) (landed : text) (writes now : Z) (back s : tables)
    : tables * ExecuteOutcome :=
  let '(q, updated) := mark_done_if_running_in_txn i landed now s.1 in
  if negb updated then (back, ExClaimLost i) else ((q, s.2), ExDone i landed writes).

Definition b3_replay_committed_operation (i : Z) (landed : text) (now : Z) (s : tables)
    : tables * ExecuteOutcome := finish_done i landed 0 now s s.

(** A stopped queue: the transaction is over, the row goes back to the queue. *)
Definition back_to_queue (i now : Z) (s : tables) : tables * ExecuteOutcome :=
  let '(q, reset) := reset_running_to_queued i now s.1 in
  if negb reset then ((q, s.2), ExClaimLost i) else ((q, s.2), ExHardStopped i).

(** ** B4 *)

(** The intent is written on another connection; [env] is what others commit before the
    second check of the stop flag. *)
Definition b4_conflict_requeue_holding_lock (env : Db → Db) (i : Z) (row : PushQueueRow) (now : Z)
    (s : tables) : tables * outcome ServiceError ExecuteOutcome :=
  match is_hard_stopped_in_txn s.1 with
  | Ok true => let '(s', o) := back_to_queue i now s in (s', Ok o)
  | Ok false =>
      let '(q1, persisted) := persist_requeue_conflict_intent i now s.1 in
      if negb persisted then (s, Ok (ExClaimLost i))
      else
        let q2 := env q1 in
        match is_hard_stopped_in_txn q2 with
        | Ok true => let '(s', o) := back_to_queue i now (q2, s.2) in (s', Ok o)
        | Ok false =>
            match complete_conflict_requeue_in_txn row now q2 with
            | (q3, Ok successor) => ((q3, s.2), Ok (ExRequeued i successor))
            | (q3, Err e) => ((q3, s.2), Err (SvQueue e))
            | (q3, Panic) => ((q3, s.2), Panic)
            | (q3, OutOfFuel) => ((q3, s.2), OutOfFuel)
            end
        | Err e => ((q2, s.2), Err (SvQueue e))
        | Panic => ((q2, s.2), Panic)
        | OutOfFuel => ((q2, s.2), OutOfFuel)
        end
  | Err e => (s, Err (SvQueue e))
  | Panic => (s, Panic)
  | OutOfFuel => (s, OutOfFuel)
  end.

(** ** B3 *)

(** What the publication service answers; errors by message. *)
Inductive PublicationPreparation :=
  | Prepared
  | AlreadyCommitted (landed : text)
  | PublicationRefused (message : text)
  | PublicationDatabase (message : text).

Inductive NativeReservation :=
  | Reserved
  | ReservationRefused (message : text)
  | ReservationDatabase (message : text).

Record Publication := mk_Publication {
  publication_enabled : bool;
  instance_uuid : option text;
  begin_publication : PushQueueRow → PublicationPreparation;
  reserve_native_publication : PushQueueRow → text → NativeReservation;
  (** [None] is success *)
  finish_native_noop : option text;
  record_noop_operation : text → text → text → option text;
  record_publication : text → text → option text;
  record_native_publication : option text;
  publish_target_paths : text → text → option text;
}.

Section Execute.
Context `{GitCommits}.
Context (format_datetime : Z → Z → option text) (error_text : PushError → text).

(** The storage and the context of a round: configuration, signing key, what another
    connection reads, generated values. *)
Record PushExecContext := mk_PushExecContext {
  px_config : MonoConfig;
  px_signing : option (Commit → option Commit);
  px_committed : MonoDb;
  px_gitkeep : option ObjectHash;
  px_fresh_id : nat → Z;
  px_land_ts : Z;
  px_publication : Publication;
}.

(** [assert_main_path_tree_hash_in_txn_with_kind] *)
Definition assert_main_path_tree_hash (path root_tree_hash : text) (db : MonoDb)
    : outcome MonoError (option StaleMainRef) :=
  if bool_decide (path = []) || bool_decide (path = lit "/") then Ok None
  else match get_main_ref path db with
       | None => Ok None
       | Some pref =>
           resolved ← resolve_path_tree_hash_with_kind db root_tree_hash path;
           if bool_decide (resolved = Some (ref_tree_hash pref)) then Ok None
           else Ok (Some (mk_StaleMainRef (ref_path pref) (ref_commit_hash pref) (ref_tree_hash pref) resolved))
       end.

Section Push.
Context (ctx : PushExecContext) (now : Z) (env : tables → tables).
Context (row : PushQueueRow) (root : MegaRef).
Context (published native : bool).

Abbreviation committed := (px_committed ctx).
Abbreviation pub := (px_publication ctx).

Definition check (o : option text) (e : text → PushError) : outcome PushError unit :=
  match o with None => Ok tt | Some m => Err (e m) end.

(** A push that carries nothing: the root is written with its own values. *)
Definition push_nothing (pref : MegaRef) (s : tables) : tables * outcome PushError ExecuteOutcome :=
  if negb (bool_decide (new_id row = ref_commit_hash pref)) then
    let '(s', o) := b3_fail_merge (row_id row) PushFailure
                      (lit "non-fast-forward: new_id does not match current tip") now s in (s', Ok o)
  else
    let s1 := env s in
    let '(d, cas_ok) := cas_update_root_main_ref (Some (ref_commit_hash root)) (Some (ref_tree_hash root))
                          (ref_commit_hash root) (ref_tree_hash root) now s1.2 in
    if negb cas_ok then
      let '(s', o) := fail_closed (row_id row) (lit "root CAS affected 0 rows") now s1 in (s', Ok o)
    else
      let '(s', o) := finish_done (row_id row) (ref_commit_hash pref) 1 now s1 (s1.1, d) in
      match o with
      | ExDone _ _ _ =>
          match (_ ← (if native then check (finish_native_noop pub) PublicationFailed else Ok tt);
                 if published then check (record_noop_operation pub (ref_commit_hash root)
                                            (ref_tree_hash root) (ref_commit_hash pref)) PublicationFailed
                 else Ok tt) with
          | Ok tt => (s', Ok o)
          | Err e => (s1, Err e)
          | Panic => (s1, Panic)
          | OutOfFuel => (s1, OutOfFuel)
          end
      | _ => (s', Ok o)
      end.

(** What the reads of a landing yield: the writes to make. *)
Record LandingPlan := mk_LandingPlan {
  lp_normalized : text;
  lp_tip_tree : ObjectHash;
  lp_args : PushApplyArgs;
  lp_plan : TrunkProvenance;
  lp_sign : Commit → option Commit;
}.

Definition stored_commit (id : text) : outcome PushError Commit :=
  match mega_commit committed !! id with
  | None => Err (CommitMissing id)
  | Some model => map_err PushConvert (commit_from_mega_model_with_kind model)
  end.

(** The commit that lands at the path: the tip itself, or a squash of the chain. *)
Definition landing_commit (payload : PushPayload) (creating : bool) (tip : Commit) (normalized : text)
    (topo_asc : list Commit) (prev_p : option Signature) (range : option (text * text))
    (sign : Commit → option Commit) : outcome PushError (text * list Commit) :=
  if (pl_n payload =? 1)%Z then Ok (new_id row, [])
  else
    parents ← (if creating then Ok [] else h ← parse_oid (old_id row); Ok [h]);
    let draft := from_tip tip (Z.to_N (pl_n payload)) normalized [] range (px_land_ts ctx) in
    match commit_new (tp_author draft) (tp_committer draft prev_p) (c_tree_id tip) parents
            (tp_squash_message format_datetime draft topo_asc) with
    | None => Err PushSynthesis
    | Some unsigned =>
        match sign unsigned with
        | None => Err PushSignFailed
        | Some squash => Ok (hash_to_string (c_id squash), [squash])
        end
    end.

Definition plan_landing (payload : PushPayload) (creating : bool) (tip : Commit)
    : outcome PushError LandingPlan :=
  data ← match mega_tree committed !! ref_tree_hash root with
         | None => Err (RootTreeMissing (ref_tree_hash root))
         | Some d => Ok d
         end;
  root_tree ← map_err PushConvert (tree_from_mega_model_with_kind (ref_tree_hash root) data);
  let normalized := clean_path_str (path row) in
  parent ← match path_parent normalized with Some p => Ok p | None => Err (PushPathInvalid normalized) end;
  found ← map_err PushTrees
    (if creating then search_tree_for_update_or_create_from_root (mega_tree committed) (px_gitkeep ctx)
                        parent root_tree
     else chain ← search_tree_for_update_from_root (mega_tree committed) parent root_tree; Ok (chain, None));
  let '(update_chain, blob) := found in
  result ← map_err PushTrees
    (if creating then build_result_by_chain_inserting normalized update_chain (c_tree_id tip)
     else build_result_by_chain normalized update_chain (c_tree_id tip));
  sign ← match px_signing ctx with Some sign => Ok sign | None => Err SigningUnavailable end;
  tip_first ← (if bool_decide (pl_commits payload = []) then Ok [tip] else mapM stored_commit (pl_commits payload));
  topo_asc ← match load_topo_asc tip_first with Some l => Ok l | None => Err EmptyChain end;
  prev_p ← (if creating then Ok None else stored_committer (mega_commit committed) (old_id row));
  let range := if creating then None else Some (old_id row, new_id row) in
  landed ← landing_commit payload creating tip normalized topo_asc prev_p range sign;
  let '(landed_p, extra) := landed in
  let plan := from_tip tip (Z.to_N (pl_n payload)) normalized landed_p range (px_land_ts ctx) in
  Ok (mk_LandingPlan normalized (c_tree_id tip)
        (mk_PushApplyArgs result normalized landed_p (Some (ref_commit_hash root)) (Some (ref_tree_hash root))
           extra blob (Some plan) (Some sign)) plan sign).

(** The writes after the one of the path and its ancestors. *)
Definition finish_landing (lp : LandingPlan) (path_row : option MegaRef) (s1 : tables) (d : MonoDb)
    (landed : text) (writes : Z) : tables * outcome PushError ExecuteOutcome :=
  let landed_tree := from_option ref_tree_hash (hash_to_string (lp_tip_tree lp))
                       (get_main_ref (lp_normalized lp) d) in
  match advance_descendant_refs_with (lp_normalized lp) landed_tree (ref_tree_hash <$> path_row)
          (mega_commit committed) (Trunk (lp_plan lp) (lp_sign lp)) now d with
  | Err e => (s1, Err (PushMono e))
  | Panic => (s1, Panic)
  | OutOfFuel => (s1, OutOfFuel)
  | Ok d' =>
      let '(s', o) := finish_done (row_id row) landed writes now s1 (s1.1, d') in
      match o with
      | ExDone _ _ _ =>
          match (_ ← (if published then
                        _ ← check (record_publication pub (ref_commit_hash root) landed) PublicationFailed;
                        if native then check (record_native_publication pub) PublicationFailed
                        else Err NativeReservationMissing
                      else Ok tt);
                 check (publish_target_paths pub (lp_normalized lp) landed_tree) TargetsFailed) with
          | Ok tt => (s', Ok o)
          | Err e => (s1, Err e)
          | Panic => (s1, Panic)
          | OutOfFuel => (s1, OutOfFuel)
          end
      | _ => (s', Ok o)
      end
  end.

(** A push of at least one commit. *)
Definition push_commits (payload : PushPayload) (path_row : option MegaRef) (s : tables)
    : tables * outcome PushError ExecuteOutcome :=
  let creating := bool_decide (path_row = None) in
  let refuse message := let '(s', o) := b3_fail_merge (row_id row) PushFailure message now s in (s', Ok o) in
  match (tip ← stored_commit (new_id row);
         resolved ← map_err PushMono (resolve_path_tree_hash_with_kind s.2 (ref_tree_hash root) (path row));
         Ok (tip, resolved)) with
  | Err e => (s, Err e)
  | Panic => (s, Panic)
  | OutOfFuel => (s, OutOfFuel)
  | Ok (tip, resolved) =>
      if creating && bool_decide (is_Some resolved)
         && negb (bool_decide (resolved = Some (hash_to_string (c_tree_id tip))))
      then refuse (lit "create tree must match resolve(root, P) or the path must be absent from the root tree")
      else
        match (if creating && bool_decide (resolved = None)
               then classify_creation_path (px_config ctx) (path row) else None) with
        | Some e => refuse (error_text (PushPolicyRefused e))
        | None =>
        match plan_landing payload creating tip with
        | Err e => (s, Err e)
        | Panic => (s, Panic)
        | OutOfFuel => (s, OutOfFuel)
        | Ok lp =>
            let s1 := env s in
            match apply_push_in_txn (mega_commit committed) (px_fresh_id ctx) now (lp_args lp) s1.2 with
            | Err RootCasMiss =>
                let '(s', o) := fail_closed (row_id row) (lit "root CAS affected 0 rows") now s1 in (s', Ok o)
            | Err e =>
                let '(s', o) := b3_fail_merge (row_id row) PushFailure (error_text e) now s1 in (s', Ok o)
            | Panic => (s1, Panic)
            | OutOfFuel => (s1, OutOfFuel)
            | Ok (d, (landed, writes)) => finish_landing lp path_row s1 d landed writes
            end
        end
        end
  end.
End Push.

Definition b3_execute_push_inner (ctx : PushExecContext) (now : Z) (env : tables → tables)
    (row : PushQueueRow) (root : option MegaRef) (published native : bool) (s : tables)
    : tables * outcome PushError ExecuteOutcome :=
  let refuse failure message :=
    let '(s', o) := b3_fail_merge (row_id row) failure message now s in (s', Ok o) in
  match push_payload_from_value (payload row) with
  | None => (s, Err PayloadInvalid)
  | Some payload =>
      if negb (Bool.eqb (bool_decide (old_id row = new_id row)) (pl_n payload =? 0)%Z)
      then refuse SystemError (lit "push descriptor n invariant: n=0 iff old_id == new_id")
      else match root with
      | None => refuse PushFailure (lit "push requires an existing root ref")
      | Some root =>
          match get_native_main_ref (path row) s.2 with
          | Err e => (s, Err (PushMono e))
          | Panic => (s, Panic)
          | OutOfFuel => (s, OutOfFuel)
          | Ok None =>
              if bool_decide (is_Some (get_tombstone (path row) MEGA_BRANCH_NAME s.2))
              then refuse Conflict (lit "tombstone exists; advertise then fetch")
              else if negb (is_protocol_zero_id (old_id row))
              then refuse PushFailure (lit "cannot update missing path; create requires old_id=ZERO_ID")
              else if (pl_n payload =? 0)%Z
              then refuse PushFailure (lit "create is unreachable for n=0")
              else push_commits ctx now env row root published native payload None s
          | Ok (Some pref) =>
              if is_protocol_zero_id (old_id row)
              then refuse PushFailure (lit "path materialized while waiting; fetch then re-push")
              else if (pl_n payload =? 0)%Z then push_nothing ctx now env row root published native pref s
              else if negb (bool_decide (ref_commit_hash pref = old_id row))
              then refuse PushFailure (lit "non-fast-forward: ref_commit_hash does not match old_id")
              else push_commits ctx now env row root published native payload (Some pref) s
          end
      end
  end.

(** An error drops the transaction and fails the row in another one. *)
Definition b3_execute_push (ctx : PushExecContext) (now : Z) (env : tables → tables)
    (row : PushQueueRow) (root : option MegaRef) (published native : bool) (s : tables)
    : tables * outcome ServiceError ExecuteOutcome :=
  match b3_execute_push_inner ctx now env row root published native s with
  | (s', Ok o) => (s', Ok o)
  | (s', Err e) => let '(s'', o) := terminalize_failure PushFailure (row_id row) (error_text e) now s' in (s'', Ok o)
  | (s', Panic) => (s', Panic)
  | (s', OutOfFuel) => (s', OutOfFuel)
  end.

(** The writer of a row of another kind; that of merges comes with the flag of its
    configuration that publication is enabled. *)
Abbreviation writer :=
  (PushQueueRow → option MegaRef → tables → tables * outcome ServiceError ExecuteOutcome).

(** The single root write of a row without a writer of its own. *)
Definition b3_stub (req : ExecuteRequest) (ctx : option PushExecContext) (published : bool) (now : Z)
    (env : tables → tables) (root : option MegaRef) (s : tables)
    : tables * outcome ServiceError ExecuteOutcome :=
  let i := req_id req in
  match root with
  | None =>
      ((fst (mark_failed_if_running_in_txn i SystemError
               (lit "B3 skeleton requires an existing root ref for CAS") now s.1), s.2),
       Ok (ExFailed i SystemError (lit "missing root")))
  | Some root =>
      let '(new_commit, new_tree) :=
        match kind_root_write req with
        | NetZero => (ref_commit_hash root, ref_tree_hash root)
        | Advance => (default (replicate 40 (ch "e")) (advance_commit req),
                      default (replicate 40 (ch "f")) (advance_tree req))
        end in
      let s1 := env s in
      let '(d, cas_ok) := cas_update_root_main_ref (Some (ref_commit_hash root)) (Some (ref_tree_hash root))
                            new_commit new_tree now s1.2 in
      if negb cas_ok then
        let '(s', o) := fail_closed i (lit "root CAS affected 0 rows") now s1 in (s', Ok o)
      else
        let '(s', o) := finish_done i new_commit 1 now s1 (s1.1, d) in
        match o, ctx with
        | ExDone _ _ _, Some ctx =>
            if published then
              match record_publication (px_publication ctx) (ref_commit_hash root) new_commit with
              | Some m => (s1, Err (SvDatabase m))
              | None => (s', Ok o)
              end
            else (s', Ok o)
        | _, _ => (s', Ok o)
        end
  end.

(** The dispatch on the kind, with the baseline checked. *)
Definition b3_dispatch (req : ExecuteRequest) (attach_ctx : option writer) (merge_ctx : option (bool * writer))
    (push_ctx : option PushExecContext) (published native : bool) (now : Z) (env : tables → tables)
    (row : PushQueueRow) (root : option MegaRef) (s : tables)
    : tables * outcome ServiceError ExecuteOutcome :=
  let i := req_id req in
  match kind row with
  | Attach =>
      match attach_ctx with
      | None =>
          let '(s', o) := terminalize_failure AttachFailure i
                            (lit "execute_b3 attach requires AttachExecContext") now s in (s', Ok o)
      | Some w => w row root s
      end
  | Push =>
      match match root with
            | Some root => assert_main_path_tree_hash (path row) (ref_tree_hash root) s.2
            | None => Ok None
            end with
      | Ok (Some _) => let '(s', o) := b3_refuse_stale_main_tree i (path row) now s in (s', Ok o)
      | Ok None =>
          match push_ctx with
          | Some ctx => b3_execute_push ctx now env row root published native s
          | None => b3_stub req push_ctx published now env root s
          end
      | Err e => (s, Err (SvPush (PushMono e)))
      | Panic => (s, Panic)
      | OutOfFuel => (s, OutOfFuel)
      end
  | Merge =>
      match merge_ctx with
      | Some (_, w) => w row root s
      | None => b3_stub req push_ctx published now env root s
      end
  end.

(** The baseline, the gate of merges and the reservation, then the dispatch. *)
Definition b3_checked (req : ExecuteRequest) (attach_ctx : option writer) (merge_ctx : option (bool * writer))
    (push_ctx : option PushExecContext) (published : bool) (now : Z) (env : tables → tables)
    (row : PushQueueRow) (s : tables) : tables * outcome ServiceError ExecuteOutcome :=
  let i := req_id req in
  match get_native_main_ref (lit "/") s.2 with
  | Err e => (s, Err (SvPush (PushMono e)))
  | Panic => (s, Panic)
  | OutOfFuel => (s, OutOfFuel)
  | Ok root =>
      if negb (baseline_ok row root) then
        let '(s', o) := fail_closed i (lit "expected_* baseline mismatch (queue-external root writer)") now s in
        (s', Ok o)
      else if bool_decide (kind row = Merge) && from_option fst false merge_ctx then
        let '(s', o) := b3_fail_merge i Conflict
                          (lit "MST2 native publication does not cover merge writer") now s in (s', Ok o)
      else
        let dispatch native := b3_dispatch req attach_ctx merge_ctx push_ctx published native now env row root s in
        match push_ctx with
        | Some ctx =>
            if published && bool_decide (kind row = Push) then
              match instance_uuid (px_publication ctx) with
              | None =>
                  let '(s', o) := b3_fail_merge i Conflict (lit "native publication instance missing") now s in
                  (s', Ok o)
              | Some instance =>
                  match reserve_native_publication (px_publication ctx) row instance with
                  | Reserved => dispatch true
                  | ReservationRefused m => let '(s', o) := b3_fail_merge i Conflict m now s in (s', Ok o)
                  | ReservationDatabase m => (s, Err (SvDatabase m))
                  end
              end
            else dispatch false
        | None => dispatch false
        end
  end.

Definition execute_b3 (req : ExecuteRequest) (attach_ctx : option writer) (merge_ctx : option (bool * writer))
    (push_ctx : option PushExecContext) (now : Z) (env : tables → tables) (s : tables)
    : tables * outcome ServiceError ExecuteOutcome :=
  let i := req_id req in
  match push_queue s.1 !! i with
  | None => (s, Err (SvRowMissing i))
  | Some row =>
      if negb (has_status Running row) then (s, Ok (ExClaimLost i))
      else match is_hard_stopped_in_txn s.1 with
      | Err e => (s, Err (SvQueue e))
      | Panic => (s, Panic)
      | OutOfFuel => (s, OutOfFuel)
      | Ok true => let '(s', o) := back_to_queue i now s in (s', Ok o)
      | Ok false =>
          let checked published :=
            b3_checked req attach_ctx merge_ctx push_ctx published now env row s in
          match push_ctx with
          | Some ctx =>
              if publication_enabled (px_publication ctx) && negb (bool_decide (kind row = Attach))
                 && negb (bool_decide (kind row = Merge) && bool_decide (is_Some merge_ctx))
              then match begin_publication (px_publication ctx) row with
                   | Prepared => checked true
                   | AlreadyCommitted landed =>
                       let '(s', o) := b3_replay_committed_operation i landed now s in (s', Ok o)
                   | PublicationRefused m => let '(s', o) := b3_fail_merge i Conflict m now s in (s', Ok o)
                   | PublicationDatabase m => (s, Err (SvDatabase m))
                   end
              else checked false
          | None => checked false
          end
      end
  end.
End Execute.

(** ** Admission *)

Section Admission.
Context (validate_replay : Db → PushQueueRow → option MegaError).

Definition enqueue (policy : PushPolicy) (max_push_commits : Z) (env1 env2 env3 : Db → Db)
    (req : EnqueueRequest) (now : Z) (s : tables) : tables * outcome ServiceError EnqueueOutcome :=
  match b0_reject_push policy max_push_commits req with
  | Some e => (s, Err (SvB0 e))
  | None =>
      match b0_reject_create_on_tombstone req s.2 with
      | Some e => (s, Err (SvB0 e))
      | None =>
          let '(q, r) := enqueue_atomic validate_replay env1 env2 env3
            (mk_EnqueueParams (er_kind req) (er_operation_id req) (er_path req) (er_old_id req)
               (er_new_id req) (er_requester req) (er_payload req)) now s.1 in
          ((q, s.2), map_err SvQueue r)
      end
  end.
End Admission.

(** ** B2: waiting *)

(** One turn of the loop: the time, what others have committed before it, and what the
    claim observes. *)
Record Poll := mk_Poll {
  poll_time : Z;
  poll_env : Db → Db;
  poll_observations : list NativeObservation;
}.

Section Wait.
Context (native_publication_enabled : bool) (decode_head : NativeObservation → MegaError + bool).
Context (wait_timeout : Z).

(** [polls] are the turns; [OutOfFuel] when the caller still waits after them.  A failed
    heartbeat is only logged. *)
Fixpoint wait_and_claim (polls : list Poll) (id deadline : Z) (seen_running : bool) (q : Db)
    : Db * outcome ServiceError QueueWaitResult :=
  match polls with
  | [] => (q, OutOfFuel)
  | p :: polls =>
      let q := poll_env p q in
      let observe (seen_running : bool) :=
        if negb seen_running && (deadline <=? poll_time p)%Z then (q, Ok (WaitAbandoned id))
        else
          let q1 := touch_heartbeat id (poll_time p) q in
          match claim_for_execution native_publication_enabled decode_head (poll_observations p) id
                  (poll_time p) q1 with
          | (q2, Ok Claimed) => (q2, Ok (WaitReady id))
          | (q2, Ok _) => wait_and_claim polls id deadline seen_running q2
          | (q2, Err e) => (q2, Err (SvQueue e))
          | (q2, Panic) => (q2, Panic)
          | (q2, OutOfFuel) => (q2, OutOfFuel)
          end in
      match get_by_id id q with
      | None => observe seen_running
      | Some row =>
          match status row with
          | Done => (q, Ok (WaitReplayed id (landed_commit_id row)))
          | Failed => (q, Ok (WaitRejected id (error_message row)))
          | Cancelled =>
              match superseded_by row with
              | Some successor => wait_and_claim polls successor (poll_time p + wait_timeout) false q
              | None => (q, Ok (WaitRejected id (error_message row)))
              end
          | Running => observe true
          | Queued => observe seen_running
          end
      end
  end.
End Wait.

(** Admission and the wait; [deadline] is the time of the first turn plus the timeout. *)
Definition enqueue_and_wait (validate_replay : Db → PushQueueRow → option MegaError)
    (policy : PushPolicy) (max_push_commits : Z) (env1 env2 env3 : Db → Db)
    (native_publication_enabled : bool) (decode_head : NativeObservation → MegaError + bool)
    (wait_timeout : Z) (polls : list Poll) (deadline : Z) (req : EnqueueRequest) (now : Z) (s : tables)
    : tables * outcome ServiceError QueueWaitResult :=
  match enqueue validate_replay policy max_push_commits env1 env2 env3 req now s with
  | (s1, Ok (Inserted id)) | (s1, Ok (Adopted id)) =>
      let '(q, r) := wait_and_claim native_publication_enabled decode_head wait_timeout polls id deadline
                       false s1.1 in ((q, s1.2), r)
  | (s1, Ok (Replay id landed)) => (s1, Ok (WaitReplayed id landed))
  | (s1, Ok (Rejected reason)) => (s1, Err (SvRejected reason))
  | (s1, Err e) => (s1, Err e)
  | (s1, Panic) => (s1, Panic)
  | (s1, OutOfFuel) => (s1, OutOfFuel)
  end.

(** ** Operator controls *)

Definition pause (now : Z) (q : Db) : Db := set_control_flags (Some true) None None now q.
Definition resume (now : Z) (q : Db) : Db := set_control_flags (Some false) None None now q.
Definition clear_hard_stop (now : Z) (q : Db) : Db := set_control_flags None (Some false) None now q.

(** [env] is what others commit between the read and the update. *)
Definition cancel_queued (env : Db → Db) (i now : Z) (q : Db) : Db * CancelQueuedOutcome :=
  match get_by_id i q with
  | None => (q, CancelNotFound)
  | Some row =>
      if negb (has_status Queued row) then (q, CancelNotQueued (status row))
      else
        let '(q1, cancelled) := cancel_if_queued i now (env q) in
        if cancelled then (q1, CancelDone)
        else (q1, CancelNotQueued (from_option status Cancelled (get_by_id i q1)))
  end.

(** The repair of a single row that the reaper replaced. *)
Definition reaper_i3_tombstone_repair (i now : Z) (s : tables) : tables * bool :=
  match get_by_id i s.1 with
  | None => (s, false)
  | Some row =>
      if negb (has_status Running row) then (s, false)
      else if negb (baseline_ok row (get_main_ref (lit "/") s.2)) then (s, false)
      else
        ((fst (mark_failed_if_running_in_txn i SystemError (lit "I3 tombstone repair after Running crash") now s.1),
          fst (tombstone_and_delete_main_ref (path row) now s.2)), true)
  end.
