(* ===== verification/TrunkPushInv.v ===== *)
(** * Landing a push: the layers

    What [apply_push_in_txn] leaves when it succeeds: the reference of every directory
    from the root to the path is at its tree of the new chain, and no other reference has
    changed. *)
From stdpp Require Import base strings numbers tactics list gmap.
From S2P Require Import Prelude Text FilterSyntax FilterCanonical FilterSemantics MonoPath CommitMessage CanonicalJson GitObjects.
From S2P Require Import ViewCommit GitCommits TrunkProvenance MonoRefs MonoTrees MonoRefsInv MonoRefsTheorems MonoAdvance MonoAdvanceInv.
From S2P Require Import MonoAdvanceTheorems TreeOps TreeOpsInv TreeSurgery TrunkPush.

(** * References under the writes of a push *)

Lemma get_ref_refs p n d d' : mega_refs d' = mega_refs d → get_ref p n d' = get_ref p n d.
Proof. intros E. unfold get_ref, select_refs, ref_rows. by rewrite E. Qed.

Lemma update_get p n sel c t now d :
  refs_inv d →
  get_ref p n (fst (update_refs sel (move_ref c t now) d))
  = (λ r, if sel r then move_ref c t now r else r) <$> get_ref p n d.
Proof.
  intros Hinv. pose proof (update_refs_inv sel c t now d Hinv) as Hinv'.
  set (f := λ r, if sel r then move_ref c t now r else r).
  assert (∀ r, ref_id (f r) = ref_id r ∧ ref_path (f r) = ref_path r ∧ ref_name (f r) = ref_name r) as Hf
    by (intros r; unfold f; by destruct (sel r)).
  destruct (get_ref p n d) as [r|] eqn:E; simpl.
  - apply get_ref_spec in E as (Hl & Hp & Hn); [|done]. apply get_ref_spec; [done|].
    fold f. destruct (Hf r) as (Ei & Ep & En). simpl. rewrite Ei, Ep, En, lookup_fmap, Hl. done.
  - rewrite get_ref_None in E |- *. simpl. intros k r Hr. rewrite lookup_fmap in Hr.
    destruct (mega_refs d !! k) as [s|] eqn:Es; [|done]. injection Hr as <-. fold (f s).
    destruct (Hf s) as (_ & -> & ->). by eapply E.
Qed.

Lemma insert_get p n r d d' :
  refs_inv d → insert_ref r d = Ok d' →
  get_ref p n d' = if bool_decide ((ref_path r, ref_name r) = (p, n)) then Some r else get_ref p n d.
Proof.
  intros Hinv E. pose proof (insert_ref_inv r d d' E Hinv) as Hinv'. revert E. unfold insert_ref.
  destruct (_ || _) eqn:Eb; [done|]. intros [= <-]. apply orb_false_iff in Eb as [Eb _]. bool_prop.
  apply eq_None_not_Some in Eb. destruct (bool_decide (_ = (p, n))) eqn:Ek; bool_prop.
  - injection Ek as <- <-. apply get_ref_spec; [done|]. simpl. by rewrite lookup_insert_eq.
  - destruct (get_ref p n d) as [s|] eqn:E.
    + apply get_ref_spec in E as (Hs & Hp & Hn); [|done]. apply get_ref_spec; [done|]. simpl.
      rewrite lookup_insert_ne by congruence. done.
    + rewrite get_ref_None in E |- *. simpl. intros k s [[<- <-]|[_ Hs]]%lookup_insert_Some; [|by eapply E].
      intros [E1 E2]. apply Ek. by rewrite E1, E2.
Qed.

(** ** Upserts *)

(** The row that an upsert leaves. *)
Definition upserted (id : Z) (u : RefUpdateData) (now : Z) (o : option MegaRef) : MegaRef :=
  match o with
  | Some r => move_ref (up_commit_id u) (up_tree_hash u) now r
  | None => new_ref id (up_path u) (up_ref_name u) (up_commit_id u) (up_tree_hash u) false now
  end.

Lemma upsert_get p n id u now d d' :
  refs_inv d → upsert_ref_by_path id u now d = Ok d' →
  get_ref p n d' = if bool_decide (up_key u = (p, n)) then Some (upserted id u now (get_ref p n d))
                   else get_ref p n d.
Proof.
  intros Hinv. unfold upsert_ref_by_path. destruct (existsb _ _) eqn:Ex.
  - intros Hok. assert (d' = fst (update_refs (at_key (up_path u) (up_ref_name u))
      (move_ref (up_commit_id u) (up_tree_hash u) now) d)) as -> by congruence. rewrite update_get by done. destruct (get_ref p n d) as [r|] eqn:E; simpl.
    + apply get_ref_spec in E as (_ & <- & <-); [|done]. unfold at_key, up_key.
      destruct (bool_decide (_ = (_, _))) eqn:Ek; bool_prop.
      * injection Ek as -> ->. rewrite !bool_decide_eq_true_2 by done. done.
      * destruct (_ && _) eqn:Eb; [|done]. bool_prop. congruence.
    + destruct (bool_decide _) eqn:Ek; [|done]. bool_prop. injection Ek as <- <-.
      rewrite get_ref_None, <-exists_key_false in E. congruence.
  - intros E. rewrite (insert_get p n _ d d' Hinv E). unfold up_key. simpl.
    destruct (bool_decide _) eqn:Ek; [|done]. bool_prop. injection Ek as <- <-.
    rewrite exists_key_false, <-get_ref_None in Ex. by rewrite Ex.
Qed.

Lemma batch_upsert_other p n us now d d' :
  refs_inv d → batch_upsert_by_path us now d = Ok d' → ((p, n) ∉ up_key <$> us.*2) →
  get_ref p n d' = get_ref p n d.
Proof.
  revert d. induction us as [|[id u] us IH]; intros d Hinv; simpl; [by intros [= <-]|].
  intros (d1 & H1 & H2)%bind_Ok [Hu Hus]%not_elem_of_cons.
  rewrite (IH d1 ltac:(by eapply upsert_inv) H2 Hus), (upsert_get p n id u now d d1 Hinv H1).
  by rewrite bool_decide_eq_false_2.
Qed.

Lemma batch_upsert_key id u us now d d' :
  refs_inv d → batch_upsert_by_path us now d = Ok d' → NoDup (up_key <$> us.*2) → (id, u) ∈ us →
  get_ref (up_path u) (up_ref_name u) d' = Some (upserted id u now (get_ref (up_path u) (up_ref_name u) d)).
Proof.
  revert d. induction us as [|[id' u'] us IH]; intros d Hinv; simpl; [by intros _ _ ?%not_elem_of_nil|].
  intros (d1 & H1 & H2)%bind_Ok [Hu Hn]%NoDup_cons Hin.
  pose proof (upsert_inv _ _ _ _ _ H1 Hinv) as Hinv1.
  apply elem_of_cons in Hin as [[= -> ->]|Hin].
  - rewrite (batch_upsert_other _ _ us now d1 d' Hinv1 H2 Hu), (upsert_get _ _ id' u' now d d1 Hinv H1).
    by rewrite bool_decide_eq_true_2.
  - rewrite (IH d1 Hinv1 H2 Hn Hin), (upsert_get _ _ id' u' now d d1 Hinv H1).
    rewrite bool_decide_eq_false_2; [done|]. intros E. apply Hu. rewrite E.
    apply list_elem_of_fmap. exists u. split; [done|]. apply list_elem_of_fmap. by exists (id, u).
Qed.

Lemma batch_upsert_tables us now d d' :
  batch_upsert_by_path us now d = Ok d' →
  tombstones d' = tombstones d ∧ mega_tree d' = mega_tree d ∧ mega_commit d' = mega_commit d
  ∧ mega_blob d' = mega_blob d.
Proof.
  revert d. induction us as [|[id u] us IH]; intros d; simpl; [by intros [= <-]|].
  intros (d1 & H1 & H2)%bind_Ok. apply IH in H2 as (-> & -> & -> & ->).
  revert H1. unfold upsert_ref_by_path. destruct (existsb _ _); [by intros [= <-]|].
  unfold insert_ref. destruct (_ || _); [done|]. by intros [= <-].
Qed.

(** ** The root *)

Lemma cas_get ec et nc nt now d d' :
  refs_inv d → cas_update_root_main_ref ec et nc nt now d = (d', true) →
  ∃ r, get_main_ref (lit "/") d = Some r ∧ is_cl r = false ∧ ec = Some (ref_commit_hash r)
    ∧ et = Some (ref_tree_hash r)
    ∧ get_main_ref (lit "/") d' = Some (move_ref nc nt now r)
    ∧ (∀ p, p ≠ lit "/" → get_main_ref p d' = get_main_ref p d)
    ∧ refs_inv d' ∧ tombstones d' = tombstones d ∧ mega_tree d' = mega_tree d ∧ mega_commit d' = mega_commit d
    ∧ mega_blob d' = mega_blob d.
Proof.
  intros Hinv. unfold cas_update_root_main_ref. cbn [update_refs].
  destruct (select_root ec et d Hinv) as [[-> _]|(r & -> & Hr & Hroot & _)]; [done|].
  intros [= <-]. pose proof Hroot as Hb. unfold is_root_at in Hb. bool_prop.
  match goal with H : at_key _ _ _ = true |- _ => apply at_key_spec in H as [Hp Hn] end.
  assert (get_main_ref (lit "/") d = Some r) as Hg by (by apply get_ref_spec).
  pose proof (λ p, update_get p MEGA_BRANCH_NAME (is_root_at ec et) nc nt now d Hinv) as Hget.
  exists r. split_and!; [done|done|done|done| | |by apply update_refs_inv|done..].
  - unfold get_main_ref in *. cbn [update_refs fst] in Hget. rewrite Hget, Hg. simpl. by rewrite Hroot.
  - intros p Hne. unfold get_main_ref in *. cbn [update_refs fst] in Hget. rewrite Hget.
    destruct (get_ref p _ d) as [s|] eqn:Es; [|done]. simpl. apply get_ref_spec in Es as (_ & <- & Hsn); [|done].
    destruct (is_root_at ec et s) eqn:E; [|done]. unfold is_root_at in E. bool_prop.
    match goal with H : at_key _ _ s = true |- _ => by apply at_key_spec in H as [? _] end.
Qed.

(** * The write of a push *)

Section Layers.
Context `{GitCommits}.
Context (committed : gmap text CommitRow) (plan : TrunkProvenance) (sign : Commit → option Commit).
Context (db : MonoDb) (path_p landed : text) (Hp : path_p ≠ lit "/").

(** The update comes from [u], and its commit is the landed one or a new one. *)
Definition update_from (us : list RefUpdate) (new : list Commit) (up : RefUpdateData) : Prop :=
  up_ref_name up = MEGA_BRANCH_NAME ∧ up_path up ≠ lit "/"
  ∧ (if bool_decide (up_path up = path_p) then up_commit_id up = landed
     else ∃ c, c ∈ new ∧ up_commit_id up = hash_to_string (c_id c))
  ∧ ∃ u, u ∈ us ∧ up_path up = ru_path u ∧ up_tree_hash up = hash_to_string (ru_tree_id u).

(** The reference is written, or it is at its tree already. *)
Definition covered (ups : list RefUpdateData) (u : RefUpdate) : Prop :=
  ru_path u ∈ up_path <$> ups
  ∨ ru_path u ≠ path_p
    ∧ ∃ r, get_main_ref (ru_path u) db = Some r ∧ ref_tree_hash r = hash_to_string (ru_tree_id u).

Record layered (us : list RefUpdate) (l l' : Layers) (ups : list RefUpdateData) : Prop := {
  ly_updates : other_updates l' = other_updates l ++ ups;
  ly_paths : (up_path <$> ups) `sublist_of` (ru_path <$> us);
  ly_from : Forall (update_from us (new_commits l')) ups;
  ly_covered u : u ∈ us → ru_path u ≠ lit "/" → covered ups u;
  ly_commits c : c ∈ new_commits l → c ∈ new_commits l';
  ly_root u : u ∈ us → ru_path u = lit "/" → NoDup (ru_path <$> us) → root_tree_new l' = Some (ru_tree_id u);
  ly_no_root : (lit "/" ∉ ru_path <$> us) → root_tree_new l' = root_tree_new l;
}.

Lemma update_from_mono u us new up : update_from us new up → update_from (u :: us) new up.
Proof.
  intros (? & ? & ? & v & Hv & ?). split_and!; [done..|]. exists v. split; [by constructor|done].
Qed.

(** The step for one reference. *)
Lemma layered_cons u us l l1 l' ups (o : option RefUpdateData) :
  layered us l1 l' ups → other_updates l1 = other_updates l ++ from_option (λ up, [up]) [] o →
  (∀ up, o = Some up → update_from [u] (new_commits l1) up) → (∀ c, c ∈ new_commits l → c ∈ new_commits l1) →
  (o = None → ru_path u ≠ lit "/" → covered [] u) →
  root_tree_new l1 = (if bool_decide (ru_path u = lit "/") then Some (ru_tree_id u) else root_tree_new l) →
  layered (u :: us) l l' (from_option (λ up, [up]) [] o ++ ups).
Proof.
  intros [Hu Hs Hf Hc Hk Hr Hn] E Ho Hcs Hcov Hroot. split.
  - by rewrite Hu, E, app_assoc.
  - destruct o as [up|]; simpl; [|by apply sublist_cons].
    destruct (Ho up eq_refl) as (_ & _ & _ & v & ->%list_elem_of_singleton & -> & _). by apply sublist_skip.
  - apply Forall_app. split; [|eapply Forall_impl; [exact Hf|]; intros; by apply update_from_mono].
    destruct o as [up|]; [|constructor]. constructor; [|constructor].
    destruct (Ho up eq_refl) as (? & ? & Hcm & v & ->%list_elem_of_singleton & ?). split_and!; [done..| |].
    + case_bool_decide; [done|]. destruct Hcm as (c & Hc' & ?). exists c. split; [by apply Hk|done].
    + exists u. split; [by constructor|done].
  - intros v [->|Hv]%elem_of_cons Hne.
    + destruct o as [up|]; [|destruct (Hcov eq_refl Hne) as [?%not_elem_of_nil|?]; [done|by right]].
      destruct (Ho up eq_refl) as (_ & _ & _ & w & ->%list_elem_of_singleton & Ew & _). left. simpl.
      rewrite <-Ew. by constructor.
    + destruct (Hc v Hv Hne) as [Hin|?]; [|by right]. left. rewrite fmap_app. apply elem_of_app. by right.
  - auto.
  - intros v Hv Hvr [Hnu Hnd]%NoDup_cons. apply elem_of_cons in Hv as [->|Hv]; [|by apply Hr].
    rewrite Hvr in Hnu. rewrite Hn, Hroot by done. by rewrite bool_decide_eq_true_2.
  - intros [Hnu Hnr]%not_elem_of_cons. rewrite Hn, Hroot by done. by rewrite bool_decide_eq_false_2.
Qed.

Lemma layers_spec us l l' :
  Forall (λ u, clean_path_str (ru_path u) = ru_path u) us →
  foldM (add_layer committed plan sign db path_p landed) l us = Ok l' → ∃ ups, layered us l l' ups.
Proof.
  revert l. induction us as [|u us IH]; intros l Hcl.
  { intros [= <-]. exists []. split; simpl; [by rewrite app_nil_r|done|constructor|by intros ? ?%not_elem_of_nil
      |done|by intros ? ?%not_elem_of_nil|done]. }
  apply Forall_cons in Hcl as [Ecl Hcl]. cbn [foldM]. intros (l1 & E1 & (ups & Hly)%IH)%bind_Ok; [|done].
  unfold add_layer in E1. rewrite Ecl in E1. destruct (bool_decide (ru_path u = path_p)) eqn:Eq; bool_prop.
  { injection E1 as <-. eexists. eapply (layered_cons u us l _ l' ups (Some _)); [exact Hly|done| |done|done|].
    - intros up [= <-]. split_and!; [done..| |]; simpl; [by rewrite bool_decide_eq_true_2|].
      exists u. split; [by constructor|done].
    - rewrite bool_decide_eq_false_2 by congruence. done. }
  destruct (bool_decide (ru_path u = lit "/")) eqn:Er; bool_prop.
  { injection E1 as <-. eexists. eapply (layered_cons u us l _ l' ups None); [exact Hly| |done|done|done|].
    - simpl. by rewrite app_nil_r.
    - by rewrite bool_decide_eq_true_2. }
  destruct (bool_decide (_ = Some _)) eqn:Es; bool_prop.
  { injection E1 as <-. eexists. eapply (layered_cons u us l _ l' ups None); [exact Hly| |done|done| |].
    - simpl. by rewrite app_nil_r.
    - intros _ _. right. split; [done|]. apply fmap_Some in Es as (r & Hr & Et). by exists r.
    - by rewrite bool_decide_eq_false_2. }
  apply bind_Ok in E1 as (c & Ec & [= <-]). eexists.
  eapply (layered_cons u us l _ l' ups (Some _)); [exact Hly|done| | |done|].
  - intros up [= <-]. split_and!; [done..| |]; simpl.
    + rewrite bool_decide_eq_false_2 by done. exists c. split; [set_solver|done].
    + exists u. split; [by constructor|done].
  - simpl. intros c' Hc'. set_solver.
  - by rewrite bool_decide_eq_false_2.
Qed.
End Layers.

(** ** Objects *)

Lemma saved_commits `{GitCommits} cs d d' :
  save_mega_commits cs d = Ok d' →
  ∃ m, d' = with_commits m d ∧ storable_commits cs
    ∧ (∀ c, c ∈ cs → is_Some (m !! hash_to_string (c_id c)))
    ∧ ∀ k, is_Some (mega_commit d !! k) → is_Some (m !! k).
Proof.
  intros E. assert (storable_commits cs) as Hs.
  { revert E. unfold save_mega_commits. intros (rows & E%mapM_Ok & _)%bind_Ok.
    induction E as [|c row cs rows Hc _ IH]; constructor; [|done]. by destruct (commit_into_mega_model c). }
  destruct (save_commits_spec cs d Hs) as (m & E' & Hm). rewrite E in E'. injection E' as ->.
  exists m. split_and!; [done..|]. revert E. unfold save_mega_commits. intros (rows & _ & [= <-])%bind_Ok.
  intros k Hk. by apply insert_absent_mono.
Qed.

Lemma saved_trees `{GitLaws} (ts : list GitTree) d d' :
  trees_sound (mega_tree d) → Forall good_tree ts →
  match ts with [] => Ok d | t :: ts' => map_err PushMono (save_mega_trees (t :: ts') d) end = Ok d' →
  ∃ m, d' = with_trees m d ∧ trees_sound m ∧ mega_tree d ⊆ m ∧ all_stored d' ts.
Proof.
  intros Hs Hg E. destruct ts as [|t ts].
  { injection E as <-. exists (mega_tree d). split_and!; [by destruct d|done|done|by intros ? ?%not_elem_of_nil]. }
  apply map_err_Ok in E. destruct (save_trees_spec (t :: ts) d Hs Hg) as (m & E' & ?).
  rewrite E in E'. injection E' as ->. by exists m.
Qed.

Lemma saved_optional `{GitCommits} (cs : list Commit) d d' :
  match cs with [] => Ok d | _ => map_err PushMono (save_mega_commits cs d) end = Ok d' →
  ∃ m, d' = with_commits m d ∧ (∀ c, c ∈ cs → is_Some (m !! hash_to_string (c_id c)))
    ∧ ∀ k, is_Some (mega_commit d !! k) → is_Some (m !! k).
Proof.
  destruct cs as [|c cs].
  - intros [= <-]. exists (mega_commit d). split_and!; [by destruct d|by intros ? ?%not_elem_of_nil|done].
  - intros (m & -> & _ & ?)%map_err_Ok%saved_commits. by exists m.
Qed.

(** ** The chain of references *)

Lemma take_display_inj names i j :
  Forall plain_segment names → i ≤ length names → j ≤ length names →
  display_path (take i names) = display_path (take j names) → i = j.
Proof.
  intros Hp Hi Hj E%display_inj; [|by apply Forall_take..].
  apply (f_equal length) in E. rewrite !length_take in E. lia.
Qed.

Lemma elem_of_chain_updates `{GitObjects} names ids u :
  u ∈ chain_updates names ids ↔ ∃ i id, ids !! i = Some id ∧ u = mk_RefUpdate (display_path (take i names)) id.
Proof.
  unfold chain_updates. rewrite elem_of_reverse, list_elem_of_lookup. split.
  - intros [i Hi]. rewrite list_lookup_imap in Hi. apply fmap_Some in Hi as (id & Hid & ->). eauto.
  - intros (i & id & Hi & ->). exists i. by rewrite list_lookup_imap, Hi.
Qed.

Lemma chain_paths_NoDup `{GitObjects} names ids :
  Forall plain_segment names → length ids = S (length names) → NoDup (ru_path <$> chain_updates names ids).
Proof.
  intros Hp Hl. unfold chain_updates. rewrite fmap_reverse, reverse_Permutation. apply NoDup_alt.
  intros i j p Hi Hj. rewrite list_lookup_fmap, list_lookup_imap in Hi, Hj.
  destruct (ids !! i) eqn:Ei; [|done]. destruct (ids !! j) eqn:Ej; [|done].
  apply lookup_lt_Some in Ei, Ej. simpl in Hi, Hj. eapply (take_display_inj names); [done|lia|lia|congruence].
Qed.

(** ** The batch of upserts *)

Lemma imap_snd {A B} (f : nat → B) (l : list A) : (imap (λ i a, (f i, a)) l).*2 = l.
Proof. revert f. induction l as [|a l IH]; intros f; [done|]. simpl. f_equal. apply (IH (f ∘ S)). Qed.

Section Batch.
Context (fresh : nat → Z) (ups : list RefUpdateData) (now : Z) (d d' : MonoDb).
Context (Hinv : refs_inv d) (Hmain : Forall (λ up, up_ref_name up = MEGA_BRANCH_NAME) ups).
Context (Hn : NoDup (up_path <$> ups)).
Context (E : batch_upsert_by_path (imap (λ i u, (fresh i, u)) ups) now d = Ok d').

Lemma up_keys : up_key <$> ups = (λ p, (p, MEGA_BRANCH_NAME)) <$> (up_path <$> ups).
Proof.
  rewrite <-list_fmap_compose. apply list_fmap_ext. intros i u Hu. rewrite Forall_lookup in Hmain.
  unfold up_key. by rewrite (Hmain i u Hu).
Qed.

Lemma upsert_kept p : (p ∉ up_path <$> ups) → get_main_ref p d' = get_main_ref p d.
Proof.
  intros Hp. eapply batch_upsert_other; [done|exact E|]. rewrite imap_snd, up_keys.
  by intros (p' & [= <-] & ?)%list_elem_of_fmap.
Qed.

Lemma upsert_row up :
  up ∈ ups →
  ∃ r, get_main_ref (up_path up) d' = Some r ∧ ref_commit_hash r = up_commit_id up
    ∧ ref_tree_hash r = up_tree_hash up
    ∧ (is_cl r = false ∨ ∃ s, get_main_ref (up_path up) d = Some s ∧ is_cl s = is_cl r).
Proof.
  intros Hup. assert (∃ i, (fresh i, up) ∈ imap (λ i u, (fresh i, u)) ups) as [i Hi].
  { apply list_elem_of_lookup in Hup as [i Hi]. exists i. apply list_elem_of_lookup. exists i.
    by rewrite list_lookup_imap, Hi. }
  pose proof (batch_upsert_key (fresh i) up _ now d d' Hinv E) as Hk. rewrite imap_snd, up_keys in Hk.
  rewrite Forall_forall in Hmain. rewrite (Hmain up Hup) in Hk. unfold get_main_ref. rewrite Hk; [|..|done].
  - eexists. split; [done|]. destruct (get_ref (up_path up) MEGA_BRANCH_NAME d) as [s|]; simpl; [|by auto].
    split_and!; [done..|]. right. by exists s.
  - apply NoDup_fmap_2; [|done]. by intros ? ? [= ->].
Qed.
End Batch.

Section Applied.
Context `{GitCommits} {GL : GitLaws}.

(** The tables after the writes of a landing.  [ids] are the trees from the root to the
    path, [segs] the names of the path. *)
Record applied (segs : list text) (ids : list ObjectHash) (landed : text) (db db' : MonoDb) : Prop := {
  ap_refs : refs_inv db';
  ap_level i id : ids !! i = Some id →
    ∃ r, get_main_ref (display_path (take i segs)) db' = Some r ∧ ref_tree_hash r = hash_to_string id;
  ap_other p : (∀ i, i ≤ length segs → p ≠ display_path (take i segs)) → get_main_ref p db' = get_main_ref p db;
  ap_cl p r' : get_main_ref p db' = Some r' →
    is_cl r' = false ∨ ∃ r, get_main_ref p db = Some r ∧ is_cl r = is_cl r';
  ap_commit p r' : get_main_ref p db' = Some r' →
    is_Some (mega_commit db' !! ref_commit_hash r') ∨ ref_commit_hash r' = landed
    ∨ ∃ r, get_main_ref p db = Some r ∧ ref_commit_hash r = ref_commit_hash r';
  ap_landed : ref_commit_hash <$> get_main_ref (display_path segs) db' = Some landed;
  ap_commits k : is_Some (mega_commit db !! k) → is_Some (mega_commit db' !! k);
  ap_tombstones : tombstones db' = tombstones db;
}.
Section Intro.
Context (segs : list text) (Hseg : Forall plain_segment segs) (Hne : segs ≠ []).
Context (ids : list ObjectHash) (Hlen : length ids = S (length segs)) (landed : text).
Abbreviation us := (chain_updates segs ids).

Lemma root_not_path : display_path segs ≠ lit "/".
Proof. change (lit "/") with (display_path []). intros E%display_inj; [done|done|constructor]. Qed.

Lemma level_root i : i ≤ length segs → display_path (take i segs) = lit "/" → i = 0.
Proof. intros Hi E. apply (take_display_inj segs); [done|done|lia|]. by rewrite take_0. Qed.

Lemma chain_clean : Forall (λ u, clean_path_str (ru_path u) = ru_path u) us.
Proof.
  apply Forall_forall. intros u (i & id & _ & ->)%elem_of_chain_updates. simpl.
  by apply clean_display, Forall_take.
Qed.

(** Two updates of the chain for one path are the same. *)
Lemma chain_same i id u :
  ids !! i = Some id → u ∈ us → display_path (take i segs) = ru_path u → ru_tree_id u = id.
Proof.
  intros Hi (j & id' & Hj & ->)%elem_of_chain_updates E. simpl in *.
  assert (i = j) as ->; [|congruence]. pose proof (lookup_lt_Some _ _ _ Hi). pose proof (lookup_lt_Some _ _ _ Hj).
  apply (take_display_inj segs); [done|lia|lia|done].
Qed.

Context (fresh : nat → Z) (now : Z) (db db1 db2 : MonoDb) (Hinv1 : refs_inv db1).
Context (Hdb1 : ∀ p, p ≠ lit "/" → get_main_ref p db1 = get_main_ref p db).
Context (l0 l : Layers) (ups : list RefUpdateData) (Hly : layered db (display_path segs) landed us l0 l ups).
Context (Hups : batch_upsert_by_path (imap (λ i u, (fresh i, u)) ups) now db1 = Ok db2).

Lemma ups_main : Forall (λ up, up_ref_name up = MEGA_BRANCH_NAME) ups.
Proof. eapply Forall_impl; [exact (ly_from _ _ _ _ _ _ _ Hly)|]. by intros up [? _]. Qed.

Lemma ups_NoDup : NoDup (up_path <$> ups).
Proof.
  eapply sublist_NoDup; [|exact (ly_paths _ _ _ _ _ _ _ Hly)]. by apply chain_paths_NoDup.
Qed.

Lemma ups_no_root : (lit "/" ∉ up_path <$> ups).
Proof.
  intros (up & E & Hup)%list_elem_of_fmap. pose proof (ly_from _ _ _ _ _ _ _ Hly) as Hf.
  rewrite Forall_forall in Hf. by destruct (Hf up Hup) as (_ & ? & _).
Qed.

Lemma level_written i id :
  ids !! i = Some id → i ≠ 0 →
  ∃ r, get_main_ref (display_path (take i segs)) db2 = Some r ∧ ref_tree_hash r = hash_to_string id.
Proof.
  intros Hi Hi0. pose proof (lookup_lt_Some _ _ _ Hi).
  assert (display_path (take i segs) ≠ lit "/") as Hp by (intros E; apply level_root in E; lia).
  set (p := display_path (take i segs)) in *. destruct (decide (p ∈ up_path <$> ups)) as [Hin|Hnin].
  - apply list_elem_of_fmap in Hin as (up & Ep & Hup).
    destruct (upsert_row fresh ups now db1 db2 Hinv1 ups_main ups_NoDup Hups up Hup) as (r & Hr & _ & Ht & _).
    exists r. rewrite Ep. split; [done|]. rewrite Ht. pose proof (ly_from _ _ _ _ _ _ _ Hly) as Hf.
    rewrite Forall_forall in Hf. destruct (Hf up Hup) as (_ & _ & _ & u & Hu & E & ->).
    f_equal. apply (chain_same i id u Hi Hu). unfold p in Ep. congruence.
  - rewrite (upsert_kept fresh ups now db1 db2 Hinv1 ups_main Hups p Hnin), (Hdb1 p Hp).
    destruct (ly_covered _ _ _ _ _ _ _ Hly (mk_RefUpdate p id)) as [?|(_ & r & Hr & Ht)]; [|done|done|by exists r].
    apply elem_of_chain_updates. by exists i, id.
Qed.

Lemma level_landed : ref_commit_hash <$> get_main_ref (display_path segs) db2 = Some landed.
Proof.
  destruct (ids !! length segs) as [id|] eqn:Ei; [|apply lookup_ge_None in Ei; lia].
  destruct (ly_covered _ _ _ _ _ _ _ Hly (mk_RefUpdate (display_path segs) id)) as [Hin|[? _]]; [| |simpl in *|done].
  - apply elem_of_chain_updates. exists (length segs), id. by rewrite take_ge.
  - apply root_not_path.
  - apply list_elem_of_fmap in Hin as (up & Ep & Hup).
    destruct (upsert_row fresh ups now db1 db2 Hinv1 ups_main ups_NoDup Hups up Hup) as (r & Hr & Hc & _).
    rewrite Ep, Hr. simpl. rewrite Hc. pose proof (ly_from _ _ _ _ _ _ _ Hly) as Hf.
    rewrite Forall_forall in Hf. destruct (Hf up Hup) as (_ & _ & Hcm & _).
    rewrite bool_decide_eq_true_2 in Hcm by done. by rewrite Hcm.
Qed.

Lemma level_other p :
  (∀ i, i ≤ length segs → p ≠ display_path (take i segs)) → get_main_ref p db2 = get_main_ref p db.
Proof.
  intros Hp. assert (p ≠ lit "/") as Hr by (apply (Hp 0); lia). rewrite <-(Hdb1 p Hr).
  eapply upsert_kept; [done|exact ups_main|exact Hups|]. intros (up & -> & Hup)%list_elem_of_fmap.
  pose proof (ly_from _ _ _ _ _ _ _ Hly) as Hf. rewrite Forall_forall in Hf.
  destruct (Hf up Hup) as (_ & _ & _ & u & (i & id & Hi & ->)%elem_of_chain_updates & E & _).
  apply lookup_lt_Some in Hi. apply (Hp i); [lia|done].
Qed.

Lemma level_row p r :
  p ≠ lit "/" → get_main_ref p db2 = Some r →
  get_main_ref p db = Some r
  ∨ (is_cl r = false ∨ ∃ s, get_main_ref p db = Some s ∧ is_cl s = is_cl r)
    ∧ (ref_commit_hash r = landed ∨ ∃ c, c ∈ new_commits l ∧ ref_commit_hash r = hash_to_string (c_id c)).
Proof.
  intros Hp Hr. destruct (decide (p ∈ up_path <$> ups)) as [Hin|Hnin].
  - right. apply list_elem_of_fmap in Hin as (up & -> & Hup).
    destruct (upsert_row fresh ups now db1 db2 Hinv1 ups_main ups_NoDup Hups up Hup) as (r' & Hr' & Hc & _ & Hcl).
    rewrite Hr in Hr'. injection Hr' as <-. rewrite (Hdb1 _ Hp) in Hcl. split; [done|].
    pose proof (ly_from _ _ _ _ _ _ _ Hly) as Hf. rewrite Forall_forall in Hf.
    destruct (Hf up Hup) as (_ & _ & Hcm & _). rewrite Hc.
    case_bool_decide; [by left|by right].
  - left. rewrite <-(Hdb1 p Hp), <-(upsert_kept fresh ups now db1 db2 Hinv1 ups_main Hups p Hnin). done.
Qed.
(** *** Together *)

Context (r0 : MegaRef) (rc : text) (nrt : ObjectHash) (db' : MonoDb).
Context (Hr0 : get_main_ref (lit "/") db = Some r0) (Hcl0 : is_cl r0 = false).
Context (Hr1 : get_main_ref (lit "/") db1 = Some (move_ref rc (hash_to_string nrt) now r0)).
Context (Hnrt : root_tree_new l = Some nrt) (Hrefs : mega_refs db' = mega_refs db2).
Context (Hnew : ∀ c, c ∈ new_commits l → is_Some (mega_commit db' !! hash_to_string (c_id c))).
Context (Hrc : rc = ref_commit_hash r0 ∨ is_Some (mega_commit db' !! rc)).

Lemma applied_get p : get_main_ref p db' = get_main_ref p db2.
Proof. by apply get_ref_refs. Qed.

Lemma root_written : get_main_ref (lit "/") db' = Some (move_ref rc (hash_to_string nrt) now r0).
Proof.
  rewrite applied_get, (upsert_kept fresh ups now db1 db2 Hinv1 ups_main Hups); [done|exact ups_no_root].
Qed.

Lemma levels_applied :
  (∀ k, is_Some (mega_commit db !! k) → is_Some (mega_commit db' !! k)) → tombstones db' = tombstones db →
  applied segs ids landed db db'.
Proof.
  intros Hk Ht. split; [| | | | | |exact Hk|exact Ht].
  - apply (refs_inv_refs db2 db' Hrefs). by eapply batch_upsert_inv.
  - intros [|i] id Hi; [|rewrite applied_get; by apply level_written].
    rewrite take_0. eexists. split; [exact root_written|]. simpl. f_equal.
    assert (mk_RefUpdate (lit "/") id ∈ us) as Hu by (apply elem_of_chain_updates; exists 0, id; by rewrite take_0).
    pose proof (ly_root _ _ _ _ _ _ _ Hly _ Hu eq_refl (chain_paths_NoDup segs ids Hseg Hlen)) as Er. simpl in Er.
    congruence.
  - intros p Hp. rewrite applied_get. by apply level_other.
  - intros p r' Hr'. destruct (decide (p = lit "/")) as [->|Hp].
    + rewrite root_written in Hr'. injection Hr' as <-. by left.
    + rewrite applied_get in Hr'. destruct (level_row p r' Hp Hr') as [Hs|[? _]]; [|done]. right. by exists r'.
  - intros p r' Hr'. destruct (decide (p = lit "/")) as [->|Hp].
    + rewrite root_written in Hr'. injection Hr' as <-. simpl. destruct Hrc as [->|?]; [|by left].
      right. right. by exists r0.
    + rewrite applied_get in Hr'. destruct (level_row p r' Hp Hr') as [Hs|[_ [?|(c & Hc & ->)]]].
      * right. right. by exists r'.
      * right. by left.
      * left. by apply Hnew.
  - rewrite applied_get. exact level_landed.
Qed.
End Intro.
(** ** The whole transaction *)

Lemma save_blob_row_same b db :
  mega_refs (save_blob_row b db) = mega_refs db ∧ mega_tree (save_blob_row b db) = mega_tree db
  ∧ mega_commit (save_blob_row b db) = mega_commit db ∧ tombstones (save_blob_row b db) = tombstones db.
Proof. by destruct b. Qed.

Lemma all_stored_trees db db' chain : mega_tree db' = mega_tree db → all_stored db chain → all_stored db' chain.
Proof. intros E Hs t Ht. rewrite <-(Hs t Ht). unfold stored_tree. by rewrite E. Qed.

Lemma apply_spec committed fresh now args db db' lw segs chain' x :
  refs_inv db → trees_sound (mega_tree db) → Forall plain_segment segs → segs ≠ [] →
  ref_updates (pa_result args) = chain_updates segs ((tree_id <$> chain') ++ [x]) →
  updated_trees (pa_result args) = reverse chain' → Forall good_tree chain' → length chain' = length segs →
  pa_path_p args = display_path segs →
  apply_push_in_txn committed fresh now args db = Ok (db', lw) →
  lw = (landed_at_p args, 1%Z)
  ∧ (∃ root, get_main_ref (lit "/") db = Some root ∧ is_cl root = false
       ∧ expected_root_commit args = Some (ref_commit_hash root)
       ∧ expected_root_tree args = Some (ref_tree_hash root))
  ∧ applied segs ((tree_id <$> chain') ++ [x]) (landed_at_p args) db db'
  ∧ trees_sound (mega_tree db') ∧ mega_tree db ⊆ mega_tree db' ∧ all_stored db' chain'
  ∧ (∀ c, c ∈ extra_commits args → is_Some (mega_commit db' !! hash_to_string (c_id c))).
Proof.
  intros Hinv Hsound Hseg Hne Eu Et Hg Hl Ep. set (ids := (tree_id <$> chain') ++ [x]) in *.
  assert (length ids = S (length segs)) as Hlen by (unfold ids; rewrite length_app, length_fmap; simpl; lia).
  unfold apply_push_in_txn. rewrite Ep, clean_display, Eu, Et by done.
  destruct (provenance args) as [plan|]; [|done]. destruct (sign_trunk args) as [sign|]; [|done].
  intros (l & (ups & Hly)%layers_spec & E)%bind_Ok; [|by apply root_not_path|by apply chain_clean].
  destruct (root_tree_new l) as [nrt|] eqn:Ert; [|done].
  apply bind_Ok in E as ([rc cs] & Erc & E). destruct (cas_update_root_main_ref _ _ _ _ _ db) as [db1 ok] eqn:Ecas.
  destruct ok; [|done]. cbn [negb] in E. apply cas_get in Ecas as (r0 & Hr0 & Hcl & Hec & Het & Hr1 & Hoth & Hinv1 & T1 & M1 & C1 & _); [|done].
  apply bind_Ok in E as (db2 & Eb%map_err_Ok & (db3 & (m & -> & Hm & Hmono)%saved_optional & (db4 & E4 & [= <- <-])%bind_Ok)%bind_Ok).
  rewrite (ly_updates _ _ _ _ _ _ _ Hly) in Eb. simpl in Eb.
  pose proof (batch_upsert_tables _ _ _ _ Eb) as (T2 & M2 & C2 & _).
  apply saved_trees in E4 as (m4 & -> & Hs4 & Hsub & Hst); [|by simpl; rewrite M2, M1|by apply Forall_reverse].
  destruct (save_blob_row_same (extra_blob args) (with_trees m4 (with_commits m db2))) as (Sr & St & Sc & Sts).
  simpl in Sr, St, Sc, Sts, Hsub.
  assert (∀ p, get_main_ref p (save_blob_row (extra_blob args) (with_trees m4 (with_commits m db2))) = get_main_ref p db2)
    as Hget by (intros p; by apply get_ref_refs).
  assert (∀ c, c ∈ new_commits l → is_Some (m !! hash_to_string (c_id c))) as Hnew.
  { intros c Hc. apply Hm. destruct (bool_decide _) in Erc.
    - destruct (expected_root_commit args); [|done]. by injection Erc as <- <-.
    - apply bind_Ok in Erc as (k & _ & [= <- <-]). set_solver. }
  split; [done|]. split; [by exists r0|]. rewrite St, Sc. split_and!; [|done|by rewrite <-M1, <-M2| |].
  2: { intros t Ht. rewrite <-(Hst t) by (by apply elem_of_reverse). unfold stored_tree. by rewrite St. }
  2: { intros c Hc. apply Hnew, (ly_commits _ _ _ _ _ _ _ Hly). done. }
  eapply levels_applied; eauto.
  - rewrite Sc. intros c Hc. by apply Hnew.
  - rewrite Sc. destruct (bool_decide _) in Erc.
    + rewrite Hec in Erc. injection Erc as <- <-. by left.
    + apply bind_Ok in Erc as (k & _ & [= <- <-]). right. apply Hm. set_solver.
  - rewrite Sc. intros k Hk. apply Hmono. by rewrite C2, C1.
  - by rewrite Sts, T2, T1.
Qed.
(** The reference at the path. *)
Lemma applied_tip segs ids x landed db db' :
  applied segs (ids ++ [x]) landed db db' → length ids = length segs →
  ∃ r, get_main_ref (display_path segs) db' = Some r ∧ ref_tree_hash r = hash_to_string x.
Proof.
  intros Hap Hl. destruct (ap_level _ _ _ _ _ Hap (length segs) x) as (r & Hr & Ht).
  - rewrite lookup_app_r by lia. by rewrite Hl, Nat.sub_diag.
  - rewrite take_ge in Hr by done. by exists r.
Qed.
End Applied.
