(* ===== verification/TrunkLanding.v ===== *)
(** * Landing a push: the monorepo afterwards

    [monorepo_ok]: every main reference is at the directory of its path in the tree of
    the root, and its commit is stored.  A landing keeps that, and changes the root at
    the pushed path only. *)
From stdpp Require Import base strings numbers tactics list gmap.
From S2P Require Import Prelude Text FilterSyntax FilterCanonical FilterSemantics MonoPath CommitMessage.
From S2P Require Import CanonicalJson GitObjects ViewCommit GitCommits TrunkProvenance MonoRefs MonoTrees.
From S2P Require Import MonoRefsInv MonoRefsTheorems MonoAdvance MonoAdvanceInv MonoAdvanceTheorems.
From S2P Require Import TreeOps TreeOpsInv TreeSurgery TrunkPush TrunkPushInv.

(** ** Advancing descendants: success *)

(** What a pass over the descendants does to the tables, whatever the trees are. *)
Record shrinks (d d' : MonoDb) : Prop := {
  sh_trees : mega_tree d' = mega_tree d;
  sh_rows k r' : mega_refs d' !! k = Some r' →
    ∃ r, mega_refs d !! k = Some r ∧ row_key_of r' = row_key_of r ∧ is_cl r' = is_cl r;
  sh_commits k : is_Some (mega_commit d !! k) → is_Some (mega_commit d' !! k);
}.

Lemma shrinks_refl d : shrinks d d.
Proof. split; [done| |done]. intros k r Hr. by exists r. Qed.

Lemma shrinks_trans d1 d2 d3 : shrinks d1 d2 → shrinks d2 d3 → shrinks d1 d3.
Proof.
  intros [T1 R1 C1] [T2 R2 C2]. split; [congruence| |auto].
  intros k r3 (r2 & (r1 & ? & ? & ?)%R1 & ? & ?)%R2. exists r1. split_and!; congruence.
Qed.

Lemma bury_shrinks now p d : shrinks d (fst (tombstone_and_delete_main_ref p now d)).
Proof.
  unfold tombstone_and_delete_main_ref. destruct (get_main_ref p d) as [r|]; [|apply shrinks_refl].
  split; [done| |done]. simpl. intros k s [_ Hs]%lookup_delete_Some. by exists s.
Qed.

Lemma update_from_map_shrinks m now us d d' : update_from_map m now us d = Ok d' → shrinks d d'.
Proof.
  revert d. induction us as [|u us IH]; intros d; simpl; [intros [= <-]; apply shrinks_refl|].
  destruct (m !! _) as [r|]; [|done]. intros (d1 & E1 & E2%IH)%bind_Ok. eapply shrinks_trans; [|exact E2].
  revert E1. unfold update_ref_by_id. destruct (mega_refs d !! ref_id r) as [s|] eqn:Es; [|done]. intros [= <-].
  split; [done| |done]. simpl. intros k t [[<- <-]|[_ Ht]]%lookup_insert_Some; [by exists s|by exists t].
Qed.

Section Success.
Context `{GitCommits}.
Context (path new : text) (comms : gmap text CommitRow) (style : DescendantCommitStyle) (now : Z).
Context (db : MonoDb).

Lemma reference_success rows us cs d us' cs' d' :
  foldM (reference_row path new comms style now db) (us, cs, d) rows = Ok (us', cs', d') →
  shrinks d d' ∧ (∀ c, c ∈ cs → c ∈ cs')
  ∧ ∀ r h, r ∈ rows → new_tree_of path new db r = Some (Some h) → h ≠ ref_tree_hash r →
      ∃ c, continuation comms style r h = Ok c ∧ c ∈ cs'.
Proof.
  revert us cs d. induction rows as [|r rows IH]; intros us cs d.
  { intros [= <- <- <-]. split; [apply shrinks_refl|]. split; [done|]. by intros ? ? ?%not_elem_of_nil. }
  cbn [foldM]. intros ([[us1 cs1] d1] & E1 & (Hs & Hc & Hr)%IH)%bind_Ok. unfold reference_row in E1.
  assert (∀ r' h', r' ∈ r :: rows → new_tree_of path new db r' = Some (Some h') → h' ≠ ref_tree_hash r' →
    (r' = r → ∃ c, continuation comms style r h' = Ok c ∧ c ∈ cs1) →
    ∃ c, continuation comms style r' h' = Ok c ∧ c ∈ cs') as Hall.
  { intros r' h' [->|Hin]%elem_of_cons Ef Hne Hr1; [|by eapply Hr].
    destruct (Hr1 eq_refl) as (c & ? & ?). exists c. auto. }
  destruct (new_tree_of path new db r) as [[h|]|] eqn:Ef; [destruct (bool_decide _) eqn:Eh; bool_prop|..].
  - injection E1 as <- <- <-. split_and!; [done..|]. intros r' h' Hin Ef' Hne. apply Hall; [done..|].
    intros ->. congruence.
  - apply bind_Ok in E1 as (c & Ec & [= <- <- <-]). split; [done|]. split; [intros; apply Hc; set_solver|].
    intros r' h' Hin Ef' Hne. apply Hall; [done..|]. intros ->. rewrite Ef in Ef'. injection Ef' as <-.
    exists c. split; [done|set_solver].
  - injection E1 as <- <- <-. split; [eapply shrinks_trans; [apply bury_shrinks|exact Hs]|]. split; [done|].
    intros r' h' Hin Ef' Hne. apply Hall; [done..|]. intros ->. congruence.
  - injection E1 as <- <- <-. split_and!; [done..|]. intros r' h' Hin Ef' Hne. apply Hall; [done..|].
    intros ->. congruence.
Qed.

Lemma advance_success d' :
  advance_reference path new comms style now db = Ok d' →
  shrinks db d' ∧ continues path new comms style db (descendant_main_refs (normalize_query path) db).
Proof.
  unfold advance_reference. intros ([[us cs] d] & (Hs & _ & Hr)%reference_success & E)%bind_Ok.
  unfold write_advance in E. cbn [fst snd] in E. apply bind_Ok in E as (d1 & E1 & E2).
  assert (shrinks d d1 ∧ storable_commits cs) as [Hs1 Hst].
  { destruct cs as [|c cs].
    - injection E1 as <-. split; [apply shrinks_refl|constructor].
    - apply saved_commits in E1 as (m & -> & Hst & _ & Hm). split; [|done]. split; [done| |done].
      simpl. intros k r Hk. by exists r. }
  split.
  - eapply shrinks_trans; [exact Hs|]. eapply shrinks_trans; [exact Hs1|].
    revert E2. unfold batch_update_by_path_in_txn. destruct (bool_decide _); [intros [= <-]; apply shrinks_refl|].
    apply update_from_map_shrinks.
  - intros r h Hin Ef Hne. destruct (Hr r h Hin Ef Hne) as (c & Ec & Hc). unfold storable_commits in Hst.
    rewrite Forall_forall in Hst. destruct (Hst c Hc) as [row Hrow]. by exists c, row.
Qed.
End Success.

(** ** Descendants of a displayed path *)

Lemma display_nonempty segs : display_path segs ≠ [].
Proof. by rewrite display_cons. Qed.

Lemma normalize_display segs : normalize_query (display_path segs) = display_path segs.
Proof. unfold normalize_query. rewrite bool_decide_eq_false_2; [done|]. apply display_nonempty. Qed.

Lemma relative_display segs c cs :
  Forall plain_segment (segs ++ c :: cs) →
  ∃ rel, descendant_relative (display_path segs) (display_path (segs ++ c :: cs)) = Some rel
    ∧ path_components rel = c :: cs.
Proof.
  intros Hp. pose proof Hp as [Hs Hc]%Forall_app.
  assert (below (display_path segs) (display_path (segs ++ c :: cs)) = true) as [[rest E] _]%below_spec
    by (apply below_display; [done|done|by eauto]).
  exists rest. assert (rest ≠ []) as Hne.
  { intros ->. apply (f_equal path_components) in E.
    rewrite dir_text_components, !path_components_display in E by done.
    change (path_components []) with (@nil text) in E. rewrite app_nil_r in E.
    apply (f_equal length) in E. rewrite length_app in E. simpl in E. lia. }
  assert (descendant_relative (display_path segs) (display_path (segs ++ c :: cs)) = Some rest) as Hr.
  { apply descendant_relative_spec; [apply display_nonempty|done]. }
  split; [done|]. apply relative_components in Hr; [|apply display_nonempty].
  rewrite !path_components_display in Hr by done. by apply app_inv_head in Hr.
Qed.

(** ** The monorepo *)

Section Mono.
Context `{GitCommits} {GL : GitLaws}.

(** The reference is at the directory of its path in the tree of the root. *)
Definition at_place (d : MonoDb) (p : text) (r : MegaRef) : Prop :=
  ∃ q root, Forall mono_segment q ∧ p = display_path q ∧ get_main_ref (lit "/") d = Some root
    ∧ tree_below d (ref_tree_hash root) q = Some (ref_tree_hash r).

Record monorepo_ok (d : MonoDb) : Prop := {
  mo_refs : refs_inv d;
  mo_trees : trees_sound (mega_tree d);
  mo_cl p r : get_main_ref p d = Some r → is_cl r = false;
  mo_commit p r : get_main_ref p d = Some r → is_Some (mega_commit d !! ref_commit_hash r);
  mo_place p r : get_main_ref p d = Some r → at_place d p r;
}.

Lemma main_candidate d path r :
  r ∈ descendant_main_refs (normalize_query path) d →
  refs_inv d → get_main_ref (ref_path r) d = Some r ∧ below (normalize_query path) (ref_path r) = true.
Proof.
  intros ([k Hk] & Hb & Hn & _)%elem_of_candidates Hinv. split; [|done].
  apply get_ref_spec; [done|]. split; [by eapply row_at|done].
Qed.

(** A pass over the descendants of [segs], to the tree [new]. *)
Section Pass.
Context (segs : list text) (new : text) (comms : gmap text CommitRow) (style : DescendantCommitStyle).
Context (now : Z) (d d' : MonoDb) (old : option text) (base : text).
Context (Hseg : Forall plain_segment segs) (Hinv : refs_inv d) (Htrees : trees_sound (mega_tree d)).
Context (Hcl : ∀ p r, get_main_ref p d = Some r → is_cl r = false).
Context (Hbase : ∀ c cs r, Forall plain_segment (segs ++ c :: cs) → get_main_ref (display_path (segs ++ c :: cs)) d = Some r →
                           tree_below d base (c :: cs) = Some (ref_tree_hash r)).
Context (Hplain : ∀ p r, get_main_ref p d = Some r → ∃ q, Forall plain_segment q ∧ p = display_path q).
Context (Hold : ∀ o, old = Some o → o = base).
Context (E : advance_descendant_refs_with (display_path segs) new old comms style now d = Ok d').

Lemma pass_consistent : consistent (display_path segs) d base.
Proof.
  intros row rel [Hr Hb]%main_candidate; [|done]. rewrite normalize_display in *. intros Hrel.
  destruct (Hplain _ _ Hr) as (q & Hq & Ep). rewrite Ep in *.
  apply below_display in Hb as (c & cs & ->); [|done|done].
  destruct (relative_display segs c cs Hq) as (rel' & Hrel' & Ec). rewrite Hrel in Hrel'. injection Hrel' as <-.
  rewrite Ec. by apply Hbase.
Qed.

Lemma pass_spec :
  shrinks d d' ∧ refs_inv d'
  ∧ (∀ r, r ∈ descendant_main_refs (normalize_query (display_path segs)) d →
       followed (display_path segs) new comms style now d d' r)
  ∧ (∀ k r, mega_refs d !! k = Some r → (r ∉ descendant_main_refs (normalize_query (display_path segs)) d) →
       mega_refs d' !! k = Some r).
Proof.
  pose proof E as E'. rewrite (advance_is_reference _ _ _ _ _ _ _ base) in E'
    by (done || exact pass_consistent || by apply sound_ok).
  destruct (advance_success _ _ _ _ _ _ _ E') as [Hs Hc].
  destruct (reference_follows _ _ _ _ now d Hinv Hc) as (d2 & E2 & ? & ? & ?).
  rewrite E' in E2. injection E2 as <-. done.
Qed.

Lemma pass_None p : get_main_ref p d = None → get_main_ref p d' = None.
Proof.
  destruct pass_spec as ([_ Hr _] & _). unfold get_main_ref. rewrite !get_ref_None. intros Hn k r' Hk [E1 E2].
  destruct (Hr k r' Hk) as (r & Hkr & [= Ep En] & _). apply (Hn k r Hkr). split; congruence.
Qed.

Lemma pass_outside p :
  (∀ c cs, Forall plain_segment (segs ++ c :: cs) → p ≠ display_path (segs ++ c :: cs)) →
  get_main_ref p d' = get_main_ref p d.
Proof.
  intros Hp. destruct (get_main_ref p d) as [r|] eqn:Er; [|by apply pass_None].
  destruct pass_spec as (_ & Hinv' & _ & Hk). pose proof Er as (Hl & Ep & En)%get_ref_spec; [|done].
  apply get_ref_spec; [done|]. split; [|done]. apply Hk; [done|]. rewrite elem_of_candidates.
  intros (_ & Hb & _ & _). rewrite normalize_display in Hb. destruct (Hplain p r Er) as (q & Hq & Eq).
  rewrite Ep, Eq in Hb. apply below_display in Hb as (c & cs & ->); [|done|done]. by apply (Hp c cs).
Qed.

Lemma pass_fate c cs r :
  Forall plain_segment (segs ++ c :: cs) → get_main_ref (display_path (segs ++ c :: cs)) d = Some r →
  r ∈ descendant_main_refs (normalize_query (display_path segs)) d
  ∧ new_tree_of (display_path segs) new d r = Some (tree_below d new (c :: cs)).
Proof.
  intros Hq Hr. pose proof Hr as (Hl & Ep & En)%get_ref_spec; [|done]. split.
  - apply elem_of_candidates. split; [by eexists|]. rewrite normalize_display, Ep.
    split; [apply below_display; [done|done|by eauto]|]. split; [done|by eapply Hcl].
  - unfold new_tree_of. rewrite normalize_display, Ep.
    destruct (relative_display segs c cs Hq) as (rel & -> & Erel). simpl. by rewrite Erel.
Qed.

Lemma pass_below c cs r :
  Forall plain_segment (segs ++ c :: cs) → get_main_ref (display_path (segs ++ c :: cs)) d = Some r →
  match tree_below d new (c :: cs) with
  | None => get_main_ref (display_path (segs ++ c :: cs)) d' = None
            ∧ tombstones d' !! (display_path (segs ++ c :: cs), MEGA_BRANCH_NAME) = Some (tombstone_of now r)
  | Some h => ∃ r', get_main_ref (display_path (segs ++ c :: cs)) d' = Some r' ∧ ref_tree_hash r' = h
      ∧ is_cl r' = is_cl r ∧ (r' = r ∨ is_Some (mega_commit d' !! ref_commit_hash r'))
  end.
Proof.
  intros Hq Hr. destruct (pass_fate c cs r Hq Hr) as [Hin Hf]. destruct pass_spec as (Hsh & Hinv' & Hfol & _).
  specialize (Hfol r Hin). unfold followed in Hfol. rewrite Hf in Hfol.
  pose proof Hr as (Hl & Ep & En)%get_ref_spec; [|done].
  destruct (tree_below d new (c :: cs)) as [h|].
  - destruct (bool_decide (h = ref_tree_hash r)) eqn:Eh; bool_prop.
    + exists r. split_and!; [|done|done|by left]. apply get_ref_spec; [done|by split_and!].
    + destruct Hfol as (k & _ & Hm & Hk). exists (move_ref (hash_to_string (c_id k)) h now r).
      split; [|split_and!; [done|done|right; exact Hk]]. apply get_ref_spec; [done|]. by split_and!.
  - destruct Hfol as [Hg Ht]. rewrite Ep in Ht. split; [|done]. apply get_ref_None. intros k r' Hk [E1 E2].
    destruct (sh_rows _ _ Hsh k r' Hk) as (s & Hs & [= Es En'] & _).
    assert (k = ref_id r) as -> by (apply (ri_key d Hinv k (ref_id r) s r); congruence). congruence.
Qed.
End Pass.

Lemma stored_tree_same d d' h : mega_tree d' = mega_tree d → stored_tree d' h = stored_tree d h.
Proof. intros E. unfold stored_tree. by rewrite E. Qed.

Lemma tree_below_same d d' h cs : mega_tree d' = mega_tree d → tree_below d' h cs = tree_below d h cs.
Proof.
  intros E. revert h. induction cs as [|c cs IH]; intros h; [done|]. simpl. rewrite (stored_tree_same d d' h E).
  destruct (stored_tree d h) as [t|]; [|done]. simpl. destruct (find_dir c (tree_items t)); [apply IH|done].
Qed.

(** ** A landing *)

(** The tables [d'] after a landing of the tree [x] with the commit [landed] at [segs],
    in a monorepo [db] whose root was at the tree [h0]. *)
Record landed_at (segs : list text) (x : ObjectHash) (landed h0 : text) (now : Z) (db d' : MonoDb) : Prop := {
  la_ok : monorepo_ok d';
  la_trees : mega_tree db ⊆ mega_tree d';
  la_path : ∃ r, get_main_ref (display_path segs) d' = Some r ∧ ref_commit_hash r = landed
              ∧ ref_tree_hash r = hash_to_string x;
  la_levels i : i ≤ length segs → is_Some (get_main_ref (display_path (take i segs)) d');
  la_root : ∃ root, get_main_ref (lit "/") d' = Some root
    ∧ (∀ cs, tree_below d' (ref_tree_hash root) (segs ++ cs) = tree_below d' (hash_to_string x) cs)
    ∧ (∀ cs, diverges cs segs → tree_below d' (ref_tree_hash root) cs = tree_below d' h0 cs)
    ∧ (∀ c cs, diverges (c :: cs) segs →
         entry_at d' (ref_tree_hash root) c cs = entry_at d' h0 c cs
         ∨ ∃ b, entry_at d' (ref_tree_hash root) c cs = Some (mk_TreeItem ModeBlob b (lit ".gitkeep"))
              ∧ tree_below d' h0 (removelast (c :: cs)) ≫= stored_tree d' = None);
  la_other q : Forall mono_segment q → diverges q segs →
    get_main_ref (display_path q) d' = get_main_ref (display_path q) db;
  la_below c cs r : Forall mono_segment (segs ++ c :: cs) →
    get_main_ref (display_path (segs ++ c :: cs)) db = Some r →
    match tree_below d' (hash_to_string x) (c :: cs) with
    | Some h => ∃ r', get_main_ref (display_path (segs ++ c :: cs)) d' = Some r' ∧ ref_tree_hash r' = h
    | None => get_main_ref (display_path (segs ++ c :: cs)) d' = None
        ∧ tombstones d' !! (display_path (segs ++ c :: cs), MEGA_BRANCH_NAME) = Some (tombstone_of now r)
    end;
}.

Section Land.
Context (d0 db d2 d3 : MonoDb) (h0 landed : text) (root0 : MegaRef) (now : Z).
Context (segs : list text) (x : ObjectHash) (res : TreeUpdateResult) (chain' : list GitTree).
Context (old : option text) (comms : gmap text CommitRow) (style : DescendantCommitStyle).
Context (Hok : monorepo_ok db) (Hroot0 : get_main_ref (lit "/") db = Some root0) (Eh0 : ref_tree_hash root0 = h0).
Context (Hseg : Forall mono_segment segs) (Hne : segs ≠ []).
Context (Hsg : surgery d0 h0 segs x res chain').
Context (Hd0 : mega_tree d0 ⊆ mega_tree db) (Hd2 : mega_tree db ⊆ mega_tree d2).
Context (Hap : applied segs ((tree_id <$> chain') ++ [x]) landed db d2).
Context (Htr2 : trees_sound (mega_tree d2)) (Hst : all_stored d2 chain').
Context (Hlanded : is_Some (mega_commit d2 !! landed)).
Context (Hold : ∀ o, old = Some o → tree_below db h0 segs = Some o).
Context (E : advance_descendant_refs_with (display_path segs) (hash_to_string x) old comms style now d2 = Ok d3).

Abbreviation ids := ((tree_id <$> chain') ++ [x]).
Abbreviation h1 := (hash_to_string (head_id chain' x)).

Lemma plain : Forall plain_segment segs.
Proof. by apply mono_plain. Qed.

(** *** After the writes of the levels *)

(** A row is a level, or the row that was there. *)
Lemma levels_or_old p r :
  get_main_ref p d2 = Some r →
  (∃ i, i ≤ length segs ∧ p = display_path (take i segs)) ∨ get_main_ref p db = Some r.
Proof.
  intros Hr. destruct (decide (Exists (λ i, p = display_path (take i segs)) (seq 0 (S (length segs))))) as [Hx|Hx].
  - left. apply Exists_exists in Hx as (i & Hi%elem_of_seq & ->). exists i. split; [lia|done].
  - right. rewrite <-(ap_other _ _ _ _ _ Hap p); [done|]. intros i Hi ->. apply Hx, Exists_exists.
    exists i. split; [apply elem_of_seq; lia|done].
Qed.

Lemma d2_mono p r : get_main_ref p d2 = Some r → ∃ q, Forall mono_segment q ∧ p = display_path q.
Proof.
  intros [(i & _ & ->)|Hr]%levels_or_old; [exists (take i segs); split; [by apply Forall_take|done]|].
  destruct (mo_place _ Hok _ _ Hr) as (q & _ & ? & ? & _). by exists q.
Qed.

Lemma d2_cl p r : get_main_ref p d2 = Some r → is_cl r = false.
Proof.
  intros Hr. destruct (ap_cl _ _ _ _ _ Hap p r Hr) as [?|(s & Hs & <-)]; [done|]. by eapply mo_cl.
Qed.

Lemma not_level c cs i : Forall mono_segment (segs ++ c :: cs) → display_path (segs ++ c :: cs) ≠ display_path (take i segs).
Proof.
  intros Hq Eq%display_inj_mono; [|done|by apply Forall_take].
  apply (f_equal length) in Eq. rewrite length_app, length_take in Eq. simpl in Eq. lia.
Qed.

(** A row below the path is at its place in the old tree of the path. *)
Lemma old_place c cs r :
  Forall mono_segment (segs ++ c :: cs) → get_main_ref (display_path (segs ++ c :: cs)) d2 = Some r →
  get_main_ref (display_path (segs ++ c :: cs)) db = Some r
  ∧ ∃ b, tree_below db h0 segs = Some b ∧ tree_below db b (c :: cs) = Some (ref_tree_hash r).
Proof.
  intros Hq Hr. apply levels_or_old in Hr as [(i & _ & Ei)|Hr]; [by apply not_level in Ei|].
  split; [done|]. destruct (mo_place _ Hok _ _ Hr) as (q & root & Hqm & Ep & Hroot & Ht).
  apply display_inj_mono in Ep as <-; [|done|done]. rewrite Hroot0 in Hroot. injection Hroot as <-.
  rewrite Eh0, tree_below_app in Ht. destruct (tree_below db h0 segs) as [b|]; [|done]. by exists b.
Qed.

(** *** The pass over the descendants *)

Abbreviation base := (default [] (tree_below db h0 segs)).

Lemma mono_row p q r : get_main_ref p d2 = Some r → Forall plain_segment q → p = display_path q → Forall mono_segment q.
Proof.
  intros Hr Hq ->. destruct (d2_mono _ _ Hr) as (q' & Hq' & Eq).
  apply display_inj in Eq as <-; [done|done|by apply mono_plain].
Qed.

Lemma pass_place c cs r :
  Forall plain_segment (segs ++ c :: cs) → get_main_ref (display_path (segs ++ c :: cs)) d2 = Some r →
  tree_below d2 base (c :: cs) = Some (ref_tree_hash r).
Proof.
  intros Hq Hr. pose proof (mono_row _ _ _ Hr Hq eq_refl) as Hm.
  destruct (old_place c cs r Hm Hr) as (_ & b & -> & Hb). by eapply tree_below_mono.
Qed.

Lemma pass_plain p r : get_main_ref p d2 = Some r → ∃ q, Forall plain_segment q ∧ p = display_path q.
Proof. intros (q & Hq & ->)%d2_mono. exists q. split; [by apply mono_plain|done]. Qed.

Lemma pass_old o : old = Some o → o = base.
Proof. intros Ho. by rewrite (Hold o Ho). Qed.

Let inv2 : refs_inv d2 := ap_refs _ _ _ _ _ Hap.
Let spec := pass_spec segs (hash_to_string x) comms style now d2 d3 old base plain inv2 Htr2 pass_place
              pass_plain pass_old E.
Let outside := pass_outside segs (hash_to_string x) comms style now d2 d3 old base plain inv2 Htr2 pass_place
              pass_plain pass_old E.
Let below_row := pass_below segs (hash_to_string x) comms style now d2 d3 old base plain inv2 Htr2 d2_cl pass_place
              pass_plain pass_old E.
Let none := pass_None segs (hash_to_string x) comms style now d2 d3 old base plain inv2 Htr2 pass_place
              pass_plain pass_old E.

Lemma trees3 : mega_tree d3 = mega_tree d2.
Proof. by destruct spec as ([] & _). Qed.

Lemma stored3 : all_stored d3 chain'.
Proof. intros t Ht. rewrite (stored_tree_same d2 d3) by exact trees3. by apply Hst. Qed.

Lemma sub3 : mega_tree d0 ⊆ mega_tree d3.
Proof. rewrite trees3. by etrans. Qed.

(** A path that does not lead below [segs] has the row of the levels. *)
Lemma outside_row q : Forall plain_segment q → ¬ (∃ c cs, q = segs ++ c :: cs) →
  get_main_ref (display_path q) d3 = get_main_ref (display_path q) d2.
Proof.
  intros Hq Hn. apply outside. intros c cs Hp Eq%display_inj; [|done|done]. apply Hn. by exists c, cs.
Qed.

Lemma take_outside i : ¬ (∃ c cs, take i segs = segs ++ c :: cs).
Proof.
  intros (c & cs & Eq). apply (f_equal length) in Eq. rewrite length_app, length_take in Eq. simpl in Eq. lia.
Qed.

Lemma level_row3 i : i ≤ length segs →
  ∃ r, get_main_ref (display_path (take i segs)) d3 = Some r
    ∧ tree_below d3 h1 (take i segs) = Some (ref_tree_hash r).
Proof.
  intros Hi. rewrite outside_row; [|apply Forall_take, plain|apply take_outside].
  pose proof (sg_length _ _ _ _ _ _ Hsg) as Hl.
  assert (is_Some (ids !! i)) as [id Hid] by (apply lookup_lt_is_Some; rewrite length_app, length_fmap; simpl; lia).
  destruct (ap_level _ _ _ _ _ Hap i id Hid) as (r & Hr & Ht). exists r. split; [done|]. rewrite Ht.
  destruct (decide (i = length segs)) as [->|Hn].
  - rewrite take_ge by done. rewrite <-(app_nil_r segs) at 1.
    rewrite (sg_below _ _ _ _ _ _ Hsg d3 [] sub3 stored3). simpl. f_equal. f_equal.
    rewrite lookup_app_r in Hid by (rewrite length_fmap; lia). rewrite length_fmap, Hl, Nat.sub_diag in Hid.
    by injection Hid.
  - rewrite lookup_app_l, list_lookup_fmap in Hid by (rewrite length_fmap; lia).
    apply fmap_Some in Hid as (t & Ht' & ->). by apply (sg_prefix _ _ _ _ _ _ Hsg d3 i t sub3 stored3).
Qed.

Lemma root3 : ∃ root, get_main_ref (lit "/") d3 = Some root ∧ ref_tree_hash root = h1.
Proof.
  destruct (level_row3 0) as (r & Hr & Ht); [lia|]. rewrite take_0 in Hr, Ht. exists r. split; [done|].
  by injection Ht.
Qed.

(** *** Where the references are *)

Lemma path_cases (q : list text) :
  (∃ i, i ≤ length segs ∧ q = take i segs) ∨ (∃ c cs, q = segs ++ c :: cs) ∨ diverges q segs.
Proof.
  destruct (decide (q `prefix_of` segs)) as [[k Ek]|H1].
  { left. exists (length q). rewrite Ek, take_app_length, length_app. split; [lia|done]. }
  destruct (decide (segs `prefix_of` q)) as [[[|c cs] ->]|H2].
  - rewrite app_nil_r in H1. by destruct H1.
  - right. left. by exists c, cs.
  - right. right. by split.
Qed.

Lemma other_row q : Forall mono_segment q → diverges q segs →
  get_main_ref (display_path q) d3 = get_main_ref (display_path q) db.
Proof.
  intros Hq [Hd1 Hd2']. rewrite outside_row; [|by apply mono_plain|].
  - apply (ap_other _ _ _ _ _ Hap). intros i _ Eq%display_inj_mono; [|done|by apply Forall_take].
    apply Hd1. rewrite Eq. apply prefix_take.
  - intros (c & cs & ->). apply Hd2'. by exists (c :: cs).
Qed.

Lemma below_row3 c cs r :
  Forall mono_segment (segs ++ c :: cs) → get_main_ref (display_path (segs ++ c :: cs)) db = Some r →
  match tree_below d3 (hash_to_string x) (c :: cs) with
  | Some h => ∃ r', get_main_ref (display_path (segs ++ c :: cs)) d3 = Some r' ∧ ref_tree_hash r' = h
  | None => get_main_ref (display_path (segs ++ c :: cs)) d3 = None
      ∧ tombstones d3 !! (display_path (segs ++ c :: cs), MEGA_BRANCH_NAME) = Some (tombstone_of now r)
  end.
Proof.
  intros Hq Hr. assert (get_main_ref (display_path (segs ++ c :: cs)) d2 = Some r) as Hr2.
  { rewrite (ap_other _ _ _ _ _ Hap); [done|]. intros i _. by apply not_level. }
  pose proof (below_row c cs r (mono_plain _ Hq) Hr2) as Hb. rewrite (tree_below_same d2 d3) by exact trees3.
  destruct (tree_below d2 _ _) as [h|]; [|done]. destruct Hb as (r' & ? & ? & _). by exists r'.
Qed.

Lemma row3 p r' :
  get_main_ref p d3 = Some r' →
  ∃ q r, Forall mono_segment q ∧ p = display_path q ∧ get_main_ref p d2 = Some r ∧ is_cl r' = is_cl r
    ∧ (r' = r ∨ is_Some (mega_commit d3 !! ref_commit_hash r')) ∧ tree_below d3 h1 q = Some (ref_tree_hash r').
Proof.
  intros Hr'. destruct (get_main_ref p d2) as [r|] eqn:Hr; [|by rewrite none in Hr'].
  destruct (d2_mono p r Hr) as (q & Hq & ->). exists q, r.
  destruct (path_cases q) as [(i & Hi & ->)|[(c & cs & ->)|Hd]].
  - destruct (level_row3 i Hi) as (r3 & Hr3 & Ht). rewrite Hr' in Hr3. injection Hr3 as <-.
    rewrite outside_row in Hr'; [|apply mono_plain; done|apply take_outside].
    rewrite Hr in Hr'. injection Hr' as ->. split_and!; [done..|by left|done].
  - pose proof (below_row c cs r (mono_plain _ Hq) Hr) as Hb.
    rewrite (sg_below _ _ _ _ _ _ Hsg d3 (c :: cs) sub3 stored3), (tree_below_same d2 d3) by exact trees3.
    destruct (tree_below d2 _ _) as [h|]; [|by destruct Hb; congruence].
    destruct Hb as (r2 & Hr2 & <- & ? & ?). rewrite Hr' in Hr2. injection Hr2 as <-. by split_and!.
  - pose proof Hr' as Hr0. rewrite other_row in Hr0 by done.
    rewrite outside_row, Hr in Hr'; [injection Hr' as ->|by apply mono_plain|].
    2: { intros (c & cs & ->). destruct Hd as [_ []]. by exists (c :: cs). }
    split_and!; [done..|by left|]. rewrite (sg_other _ _ _ _ _ _ Hsg d3 q sub3 stored3 Hd).
    destruct (mo_place _ Hok _ _ Hr0) as (q' & root & Hq' & Eq & Hroot & Ht).
    apply display_inj_mono in Eq as <-; [|done|done]. rewrite Hroot0 in Hroot. injection Hroot as <-.
    rewrite Eh0 in Ht. eapply tree_below_mono; [|exact Ht]. by rewrite trees3.
Qed.

Lemma landing_ok : monorepo_ok d3.
Proof.
  destruct spec as ([_ _ Hcm] & Hinv3 & _). destruct root3 as (root & Hroot & Eroot). split.
  - done.
  - by rewrite trees3.
  - intros p r' (q & r & _ & _ & Hr & -> & _)%row3. by eapply d2_cl.
  - intros p r' (q & r & _ & _ & Hr & _ & [->|?] & _)%row3; [|done]. apply Hcm.
    destruct (ap_commit _ _ _ _ _ Hap p r Hr) as [?|[->|(s & Hs & <-)]]; [done|done|].
    apply (ap_commits _ _ _ _ _ Hap). by eapply mo_commit.
  - intros p r' (q & r & Hq & -> & _ & _ & _ & Ht)%row3. exists q, root. by rewrite Eroot.
Qed.

Lemma landing_spec : landed_at segs x landed h0 now db d3.
Proof.
  destruct root3 as (root & Hroot & Eroot). split.
  - exact landing_ok.
  - by rewrite trees3.
  - destruct (level_row3 (length segs)) as (r & Hr & Ht); [done|]. rewrite take_ge in Hr, Ht by done.
    exists r. split; [done|].
    rewrite outside_row in Hr; [|apply plain|].
    2: { pose proof (take_outside (length segs)) as Ho. by rewrite take_ge in Ho. }
    pose proof (ap_landed _ _ _ _ _ Hap) as Hl. rewrite Hr in Hl. injection Hl as ->. split; [done|].
    pose proof (sg_below _ _ _ _ _ _ Hsg d3 [] sub3 stored3) as Hb. rewrite app_nil_r, Ht in Hb.
    by injection Hb.
  - intros i Hi. destruct (level_row3 i Hi) as (r & ? & _). by exists r.
  - exists root. rewrite Eroot. split_and!; [done|intros..].
    + by apply (sg_below _ _ _ _ _ _ Hsg d3 cs sub3 stored3).
    + by apply (sg_other _ _ _ _ _ _ Hsg d3 cs sub3 stored3).
    + by apply (sg_entries _ _ _ _ _ _ Hsg d3 c cs sub3 stored3).
  - apply other_row.
  - apply below_row3.
Qed.
End Land.

End Mono.
