(* ===== verification/PushServiceInv.v ===== *)
(** * MonoWriteQueue: the rounds of the service

    How a round ends: what each end does to the row and to the monorepo, and that an
    error leaves the tables to the others. *)
From stdpp Require Import base strings sets numbers tactics list gmap relations.
From S2P Require Import Prelude Text FilterSyntax FilterCanonical FilterSemantics MonoPath CommitMessage CanonicalJson QueueTables.
From S2P Require Import PushQueue PushQueueInv PushQueueSteps PushQueueSpec PushQueueTheorems GitObjects ViewCommit GitCommits TrunkProvenance.
From S2P Require Import MonoRefs MonoTrees MonoRefsInv MonoRefsTheorems MonoAdvance MonoAdvanceInv MonoAdvanceTheorems PushQueueReaper PushQueueReaperTheorems.
From S2P Require Import TreeOps TreeOpsInv TreeSurgery TrunkPush PushQueueService TrunkPushInv.
From S2P Require Import TrunkLanding.

(** * Rounds as transactions of the queue *)

(** The queue in a result comes from [q]. *)
Definition steps_to {A} (q : Db) (r : tables * A) : Prop := rtc queue_step q r.1.1.

Lemma mark_failed_steps i failure message now q :
  rtc queue_step q (fst (mark_failed_if_running_in_txn i failure message now q)).
Proof. apply rtc_once, qs_unlocked, us_mark_failed. Qed.

Lemma mark_done_steps i landed now q : rtc queue_step q (fst (mark_done_if_running_in_txn i landed now q)).
Proof. apply rtc_once, qs_unlocked, us_mark_done. Qed.

Lemma fail_merge_steps i failure message now s : steps_to s.1 (b3_fail_merge i failure message now s).
Proof.
  unfold steps_to, b3_fail_merge. pose proof (mark_failed_steps i failure message now s.1) as Hm.
  destruct (mark_failed_if_running_in_txn _ _ _ _ _) as [q []]; [exact Hm|apply rtc_refl].
Qed.

Lemma fail_closed_steps i message now s : steps_to s.1 (fail_closed i message now s).
Proof. eapply rtc_l; [apply qs_hard_stop|apply mark_failed_steps]. Qed.

Lemma stale_steps i path now s : steps_to s.1 (b3_refuse_stale_main_tree i path now s).
Proof. apply mark_failed_steps. Qed.

Lemma finish_done_steps i landed writes now back s :
  back.1 = s.1 → steps_to s.1 (finish_done i landed writes now back s).
Proof.
  intros E. unfold steps_to, finish_done. pose proof (mark_done_steps i landed now s.1) as Hm.
  destruct (mark_done_if_running_in_txn _ _ _ _) as [q []]; [exact Hm|]. cbn. rewrite E. apply rtc_refl.
Qed.

Lemma back_to_queue_steps i now s : steps_to s.1 (back_to_queue i now s).
Proof.
  unfold steps_to, back_to_queue.
  assert (rtc queue_step s.1 (fst (reset_running_to_queued i now s.1))) as Hm by apply rtc_once, qs_unlocked, us_reset_running.
  destruct (reset_running_to_queued _ _ _) as [q []]; exact Hm.
Qed.

Lemma steps_ok {A B E} q (r : tables * A) (f : A → B) :
  steps_to q r → steps_to q (let '(s, a) := r in (s, (Ok (f a) : outcome E B))).
Proof. by destruct r. Qed.

#[export] Hint Resolve fail_merge_steps fail_closed_steps stale_steps back_to_queue_steps rtc_refl : mega.

(** A refusal at once. *)
Ltac refuses := match goal with
  | |- steps_to _ (let '(s, o) := ?r in (s, Ok o)) => apply (steps_ok _ r (λ o, o)); eauto with mega
  end.

Section Rounds.
Context `{GitCommits}.
Context (format_datetime : Z → Z → option text) (error_text : PushError → text).
Context (ctx : PushExecContext) (now : Z) (env : tables → tables) (s : tables).
Context (Henv : rtc queue_step s.1 (env s).1).

(** From the tables that the others leave. *)
Lemma steps_after {A} (r : tables * A) : steps_to (env s).1 r → steps_to s.1 r.
Proof. unfold steps_to. by etrans. Qed.

Lemma push_nothing_steps row root published native pref :
  steps_to s.1 (push_nothing ctx now env row root published native pref s).
Proof.
  unfold push_nothing. destruct (negb _); [refuses|].
  destruct (cas_update_root_main_ref _ _ _ _ _ _) as [d []]; cbn [negb]; [|apply steps_after; refuses].
  apply steps_after. pose proof (finish_done_steps (row_id row) (ref_commit_hash pref) 1 now (env s) ((env s).1, d) eq_refl) as Hf.
  destruct (finish_done _ _ _ _ _ _) as [s' o]. cbn [fst] in Hf. destruct o; try exact Hf.
  destruct (mbind _ _) as [[]| | |]; [exact Hf|apply rtc_refl..].
Qed.

Lemma finish_landing_steps row root published native lp path_row d landed writes :
  steps_to (env s).1 (finish_landing ctx now row root published native lp path_row (env s) d landed writes).
Proof.
  unfold finish_landing. destruct (advance_descendant_refs_with _ _ _ _ _ _ _) as [d'| | |]; [|apply rtc_refl..].
  pose proof (finish_done_steps (row_id row) landed writes now (env s) ((env s).1, d') eq_refl) as Hf.
  destruct (finish_done _ _ _ _ _ _) as [s' o]. cbn [fst] in Hf. destruct o; try exact Hf.
  destruct (mbind _ _) as [[]| | |]; [exact Hf|apply rtc_refl..].
Qed.

Lemma push_commits_steps row root published native payload path_row :
  steps_to s.1 (push_commits format_datetime error_text ctx now env row root published native payload path_row s).
Proof.
  unfold push_commits. destruct (mbind _ _) as [[tip resolved]| | |]; [|apply rtc_refl..].
  destruct (_ && _); [refuses|]. case_match; [refuses|].
  destruct (plan_landing _ _ _ _ _ _ _) as [lp| | |]; [|apply rtc_refl..]. apply steps_after.
  destruct (apply_push_in_txn _ _ _ _ _) as [[d [landed writes]]|[]| |];
    [apply finish_landing_steps|refuses..|apply rtc_refl|apply rtc_refl].
Qed.

Lemma execute_push_steps row root published native :
  steps_to s.1 (b3_execute_push format_datetime error_text ctx now env row root published native s).
Proof.
  unfold b3_execute_push.
  assert (steps_to s.1 (b3_execute_push_inner format_datetime error_text ctx now env row root published native s)) as Hi.
  { unfold b3_execute_push_inner. destruct (push_payload_from_value _) as [payload|]; [|apply rtc_refl].
    destruct (negb _); [refuses|]. destruct root as [root|]; [|refuses].
    destruct (get_native_main_ref _ _) as [[pref|]| | |]; [| |apply rtc_refl..].
    - destruct (is_protocol_zero_id _); [refuses|]. destruct (_ =? 0)%Z; [apply push_nothing_steps|].
      destruct (negb _); [refuses|apply push_commits_steps].
    - destruct (bool_decide _); [refuses|]. destruct (negb _); [refuses|]. destruct (_ =? 0)%Z; [refuses|apply push_commits_steps]. }
  destruct (b3_execute_push_inner _ _ _ _ _ _ _ _ _ _) as [s1 [o|e| |]]; try exact Hi.
  apply (steps_ok _ (terminalize_failure PushFailure (row_id row) (error_text e) now s1) (λ o, o)).
  unfold steps_to in *. etrans; [exact Hi|]. apply (fail_merge_steps (row_id row) PushFailure (error_text e) now s1).
Qed.

Lemma stub_steps req published root :
  steps_to s.1 (b3_stub req (Some ctx) published now env root s).
Proof.
  unfold b3_stub. destruct root as [root|]; [|apply mark_failed_steps].
  destruct (match kind_root_write req with NetZero => _ | Advance => _ end) as [new_commit new_tree]. apply steps_after.
  destruct (cas_update_root_main_ref _ _ _ _ _ _) as [d []]; cbn [negb]; [|refuses].
  pose proof (finish_done_steps (req_id req) new_commit 1 now (env s) ((env s).1, d) eq_refl) as Hf.
  destruct (finish_done _ _ _ _ _ _) as [s' o]. cbn [fst] in Hf. destruct o; try exact Hf.
  destruct published; [|exact Hf]. destruct (record_publication _ _ _); [apply rtc_refl|exact Hf].
Qed.

Lemma dispatch_steps req published native row root :
  steps_to s.1 (b3_dispatch format_datetime error_text req None None (Some ctx) published native now env row root s).
Proof.
  unfold b3_dispatch. destruct (kind row).
  - destruct (match root with Some _ => _ | None => _ end) as [[st|]| | |]; [refuses|apply execute_push_steps|apply rtc_refl..].
  - apply stub_steps.
  - apply (steps_ok _ (terminalize_failure AttachFailure _ _ now s) (λ o, o)). apply fail_merge_steps.
Qed.

(** A round without writers for rows of other kinds. *)
Lemma execute_steps req :
  steps_to s.1 (execute_b3 format_datetime error_text req None None (Some ctx) now env s).
Proof.
  unfold execute_b3. destruct (push_queue s.1 !! req_id req) as [row|]; [|apply rtc_refl].
  destruct (negb _); [apply rtc_refl|]. destruct (is_hard_stopped_in_txn s.1) as [[]| | |]; [refuses| |apply rtc_refl..].
  assert (∀ published, steps_to s.1
    (b3_checked format_datetime error_text req None None (Some ctx) published now env row s)) as Hc.
  { intros published. unfold b3_checked. destruct (get_native_main_ref _ _) as [root| | |]; [|apply rtc_refl..].
    destruct (negb _); [refuses|]. destruct (_ && _); [refuses|]. destruct (published && _); [|apply dispatch_steps].
    destruct (instance_uuid _); [|refuses]. destruct (reserve_native_publication _ _ _);
      [apply dispatch_steps|refuses|apply rtc_refl]. }
  destruct (_ && _); [|apply Hc]. destruct (begin_publication _ _) as [|landed|m|m]; [apply Hc| |refuses|apply rtc_refl].
  apply (steps_ok _ (b3_replay_committed_operation (req_id req) landed now s) (λ o, o)). by apply finish_done_steps.
Qed.
End Rounds.

(** * Rounds and the monorepo *)

(** ** The row of a round *)

Definition not_running (i : Z) (q : Db) : Prop := ∀ r, push_queue q !! i = Some r → status r ≠ Running.

(** The row at the end of a round, by its outcome. *)
Definition ended (i : Z) (q : Db) (o : ExecuteOutcome) : Prop :=
  match o with
  | ExDone j landed _ => j = i ∧ ∃ r, push_queue q !! i = Some r ∧ status r = Done ∧ landed_commit_id r = Some landed
  | ExFailed j failure message =>
      j = i ∧ ∃ r, push_queue q !! i = Some r ∧ status r = Failed ∧ failure_type r = Some failure
                   ∧ error_message r = Some message
  | ExBypassDetected j => j = i ∧ not_running i q ∧ ∀ c, control q = Some c → hard_stopped c = true
  | ExHardStopped j => j = i ∧ ∃ r, push_queue q !! i = Some r ∧ status r = Queued
  | ExClaimLost j => j = i ∧ not_running i q
  | ExRequeued _ _ => False
  end.

Lemma mark_spec f i q q' n :
  queue_inv q → safe_update (running_with_id i) f → update_where (running_with_id i) f q = (q', n) →
  queue_inv q' ∧ control q' = control q
  ∧ ((n =? 1)%Z = true ∧ (∃ r, push_queue q !! i = Some r ∧ status r = Running ∧ push_queue q' !! i = Some (f r))
     ∨ (n =? 1)%Z = false ∧ not_running i q ∧ not_running i q').
Proof.
  intros Hinv Hs E. pose proof (update_inv _ _ q Hs Hinv) as Hinv'. rewrite E in Hinv'. split; [done|].
  assert (q' = fst (update_where (running_with_id i) f q)) as -> by (by rewrite E).
  assert (n = count (running_with_id i) q) as -> by (unfold update_where in E; by injection E).
  split; [done|]. rewrite (count_by_id _ i q Hinv (running_by_id i)).
  rewrite (update_by_id _ f i q Hinv (running_by_id i)). unfold not_running.
  rewrite (update_by_id _ f i q Hinv (running_by_id i)), lookup_alter_eq.
  destruct (push_queue q !! i) as [r|] eqn:Er; simpl; [|by right].
  destruct (inv_ids q Hinv i r Er) as [Hid _]. destruct (running_with_id i r) eqn:Eb.
  - left. split; [done|]. apply running_with_id_spec in Eb as [_ ?]. by exists r.
  - right. assert (status r ≠ Running) as Hst.
    { intros Hst. assert (running_with_id i r = true) by (by apply running_with_id_spec). congruence. }
    split_and!; [done|by intros ? [= <-]..].
Qed.

(** ** The ends *)

(** A failure that leaves the monorepo as it is. *)
Definition refused (i : Z) (s s' : tables) (o : ExecuteOutcome) : Prop :=
  queue_inv s'.1 ∧ s'.2 = s.2 ∧ control s'.1 = control s.1 ∧ ended i s'.1 o.

Lemma b3_fail_merge_spec i failure message now s :
  queue_inv s.1 →
  let '(s', o) := b3_fail_merge i failure message now s in
  refused i s s' o ∧ (o = ExClaimLost i ∨ o = ExFailed i failure message).
Proof.
  intros Hinv. unfold b3_fail_merge, mark_failed_if_running_in_txn.
  destruct (update_where _ _ s.1) as [q n] eqn:E.
  destruct (mark_spec _ _ _ _ _ Hinv (failed_safe i failure message now) E) as (? & ? & [[-> (r & ? & ? & Hr)]|(-> & ? & ?)]);
    cbn [negb].
  - split; [|by right]. split_and!; [done..|]. split; [done|]. eexists. split; [exact Hr|]. by destruct r.
  - split; [|by left]. split_and!; done.
Qed.

Lemma terminalize_spec i failure message now s :
  queue_inv s.1 →
  let '(s', o) := terminalize_failure failure i message now s in
  refused i s s' o ∧ (o = ExClaimLost i ∨ o = ExFailed i failure message).
Proof. exact (b3_fail_merge_spec i failure message now s). Qed.

Lemma fail_closed_spec i message now s :
  queue_inv s.1 →
  let '(s', o) := fail_closed i message now s in
  queue_inv s'.1 ∧ s'.2 = s.2 ∧ o = ExBypassDetected i ∧ ended i s'.1 o.
Proof.
  intros Hinv. unfold fail_closed, mark_failed_if_running_in_txn. cbn [fst snd].
  assert (queue_inv (set_hard_stopped_in_txn true now s.1)) as Hq by (by apply control_inv).
  destruct (update_where _ _ _) as [q n] eqn:E.
  destruct (mark_spec _ _ _ _ _ Hq (failed_safe i QueueBypassDetected message now) E) as (? & Hc & Hr).
  split_and!; [done..|]. split; [done|]. cbn [fst]. split.
  - destruct Hr as [[_ (r & ? & ? & Hr)]|(_ & _ & ?)]; [|done]. intros r' Hr'. rewrite Hr in Hr'.
    injection Hr' as <-. by destruct r.
  - rewrite Hc. unfold set_hard_stopped_in_txn, update_control. simpl. destruct (control s.1); [|done].
    simpl. by intros c [= <-].
Qed.

Lemma finish_done_spec i landed writes now back s :
  queue_inv s.1 → queue_inv back.1 → back.1 = s.1 →
  let '(s', o) := finish_done i landed writes now back s in
  queue_inv s'.1 ∧ ended i s'.1 o
  ∧ (o = ExClaimLost i ∧ s' = back ∨ o = ExDone i landed writes ∧ s'.2 = s.2).
Proof.
  intros Hinv Hback Eb. unfold finish_done, mark_done_if_running_in_txn.
  destruct (update_where _ _ s.1) as [q n] eqn:E.
  destruct (mark_spec _ _ _ _ _ Hinv (done_safe i landed now) E) as (? & ? & [[-> (r & ? & ? & Hr)]|(-> & ? & ?)]);
    cbn [negb].
  - split_and!; [done| |by right]. split; [done|]. eexists. split; [exact Hr|]. by destruct r.
  - split_and!; [done| |by left]. split; [done|]. by rewrite Eb.
Qed.

Lemma back_to_queue_spec i now s :
  queue_inv s.1 → let '(s', o) := back_to_queue i now s in refused i s s' o.
Proof.
  intros Hinv. unfold back_to_queue, reset_running_to_queued.
  destruct (update_where _ _ s.1) as [q n] eqn:E.
  destruct (mark_spec _ _ _ _ _ Hinv (reset_safe i now) E) as (? & ? & [[-> (r & ? & ? & Hr)]|(-> & ? & ?)]);
    cbn [negb].
  - split_and!; [done..|]. split; [done|]. eexists. split; [exact Hr|]. by destruct r.
  - split_and!; [done..|]. done.
Qed.

(** ** The monorepo *)

Section Mono.
Context `{GitCommits} {GL : GitLaws}.

Definition head_of (r : MegaRef) : text * text := (ref_commit_hash r, ref_tree_hash r).

(** Every main reference is at the commit and the tree it was at. *)
Definition unmoved (d d' : MonoDb) : Prop :=
  mega_tree d' = mega_tree d ∧ ∀ p, head_of <$> get_main_ref p d' = head_of <$> get_main_ref p d.

Lemma monorepo_ok_rows d d' :
  monorepo_ok d → refs_inv d' → mega_tree d' = mega_tree d → mega_commit d' = mega_commit d →
  (∀ p r', get_main_ref p d' = Some r' →
     ∃ r, get_main_ref p d = Some r ∧ head_of r' = head_of r ∧ is_cl r' = is_cl r) →
  head_of <$> get_main_ref (lit "/") d' = head_of <$> get_main_ref (lit "/") d →
  monorepo_ok d'.
Proof.
  intros Hok Hinv Et Ec Hrow Hroot. split; [done|rewrite Et; apply Hok| | |].
  - intros p r' (r & Hr & _ & ->)%Hrow. by eapply mo_cl.
  - intros p r' (r & Hr & [= -> _] & _)%Hrow. rewrite Ec. by eapply mo_commit.
  - intros p r' (r & Hr & [= _ Eh] & _)%Hrow. destruct (mo_place _ Hok _ _ Hr) as (q & root & Hq & Ep & Hr0 & Ht).
    rewrite Hr0 in Hroot. apply fmap_Some in Hroot as (root' & Hroot' & [= _ Er]).
    exists q, root'. split_and!; [done..|]. rewrite (tree_below_same d d') by done. by rewrite <-Er, Eh.
Qed.

(** The root written with its own values. *)
Lemma root_rewrite_ok c t now d d' :
  monorepo_ok d → cas_update_root_main_ref (Some c) (Some t) c t now d = (d', true) →
  monorepo_ok d' ∧ unmoved d d' ∧ head_of <$> get_main_ref (lit "/") d = Some (c, t).
Proof.
  intros Hok (r0 & Hr0 & Hcl & [= ->] & [= ->] & Hr1 & Hoth & Hinv & _ & Et & Ec & _)%cas_get; [|apply Hok].
  assert (∀ p, head_of <$> get_main_ref p d' = head_of <$> get_main_ref p d) as Hh.
  { intros p. destruct (decide (p = lit "/")) as [->|Hp]; [by rewrite Hr0, Hr1|by rewrite Hoth]. }
  split_and!; [|done|by rewrite Hr0]. apply (monorepo_ok_rows d); [done..| |done].
  intros p r' Hr'. destruct (decide (p = lit "/")) as [->|Hp].
  - rewrite Hr1 in Hr'. injection Hr' as <-. by exists r0.
  - rewrite Hoth in Hr' by done. by exists r'.
Qed.

Lemma removed_get p q now d :
  refs_inv d → p ≠ q → get_main_ref q (fst (tombstone_and_delete_main_ref p now d)) = get_main_ref q d.
Proof.
  intros Hinv Hne. pose proof (tombstone_delete_inv p now d Hinv) as Hinv'.
  pose proof (bury_shrinks now p d) as [_ Hr _].
  destruct (get_main_ref q d) as [r|] eqn:Er.
  - apply get_ref_spec in Er as (Hl & Ep & En); [|done]. apply get_ref_spec; [done|]. split; [|done].
    unfold tombstone_and_delete_main_ref. destruct (get_main_ref p d) as [s|] eqn:Es; [|done]. simpl.
    apply get_ref_spec in Es as (Hs & Esp & _); [|done]. rewrite lookup_delete_ne; [done|]. congruence.
  - unfold get_main_ref in *. rewrite get_ref_None in Er |- *. intros k r' Hk [E1 E2].
    destruct (Hr k r' Hk) as (r & Hkr & [= ? ?] & _). apply (Er k r Hkr). split; congruence.
Qed.

Lemma removed_ok p now d :
  monorepo_ok d → p ≠ lit "/" → monorepo_ok (fst (tombstone_and_delete_main_ref p now d)).
Proof.
  intros Hok Hp. pose proof (mo_refs _ Hok) as Hinv. apply (monorepo_ok_rows d); [done| | | | |].
  - by apply tombstone_delete_inv.
  - apply (sh_trees _ _ (bury_shrinks now p d)).
  - unfold tombstone_and_delete_main_ref. by destruct (get_main_ref p d).
  - intros q r Hr. destruct (decide (p = q)) as [<-|Hne].
    + by rewrite tombstone_removes in Hr.
    + rewrite removed_get in Hr by done. by exists r.
  - by rewrite removed_get.
Qed.

Lemma native_main p d : monorepo_ok d → get_native_main_ref p d = Ok (get_main_ref p d).
Proof.
  intros Hok. unfold get_native_main_ref.
  assert (NoDup (select_refs (λ r, at_key p MEGA_BRANCH_NAME r && negb (is_cl r)) d)) as Hn
    by apply select_refs_NoDup, Hok.
  assert (∀ r, r ∈ select_refs (λ r, at_key p MEGA_BRANCH_NAME r && negb (is_cl r)) d ↔ get_main_ref p d = Some r) as Hel.
  { intros r. rewrite elem_of_select_refs, andb_true_iff, at_key_spec, negb_true_iff. split.
    - intros [[[? ?] _] [k Hk]]. apply get_ref_spec; [apply Hok|]. split; [eapply row_at; [apply Hok|done]|done].
    - intros Hr. pose proof (mo_cl _ Hok _ _ Hr). apply get_ref_spec in Hr as (? & ? & ?); [|apply Hok].
      by split_and!; [..|eexists]. }
  destruct (select_refs _ d) as [|r [|s l]].
  - destruct (get_main_ref p d) as [r|]; [|done]. pose proof (proj2 (Hel r) eq_refl) as Hr.
    by apply not_elem_of_nil in Hr.
  - by rewrite (proj1 (Hel r) ltac:(by constructor)).
  - exfalso. pose proof (proj1 (Hel r) ltac:(by constructor)) as E1.
    pose proof (proj1 (Hel s) ltac:(by right; constructor)) as E2. rewrite E1 in E2. injection E2 as ->.
    apply NoDup_cons in Hn as [Hn _]. apply Hn. by constructor.
Qed.
End Mono.

(** ** The plan of a landing *)

(** What a round may rely on: the tables that other connections leave before its writes
    are well formed, and rows of objects are not removed. *)
Record round_env `{GitCommits} {GL : GitLaws} (committed : MonoDb) (s s1 : tables) : Prop := {
  re_queue : queue_inv s1.1;
  re_mono : monorepo_ok s1.2;
  re_sound : trees_sound (mega_tree committed);
  re_seen : mega_tree s.2 ⊆ mega_tree committed;
  re_kept : mega_tree committed ⊆ mega_tree s1.2;
  re_commits k : is_Some (mega_commit committed !! k) → is_Some (mega_commit s1.2 !! k);
}.

(** A path that a push may land at: below the root, without the character NUL. *)
Definition push_path (p : text) (segs : list text) : Prop :=
  p = display_path segs ∧ segs ≠ [] ∧ Forall mono_segment segs ∧ Forall (λ s, 0%N ∉ s) segs.

Section Plan.
Context `{GitCommits} {GL : GitLaws}.
Context (format_datetime : Z → Z → option text) (ctx : PushExecContext) (row : PushQueueRow) (root : MegaRef).
Context (segs : list text) (Hpath : push_path (path row) segs).
Context (Hsound : trees_sound (mega_tree (px_committed ctx))).

Lemma landing_commit_spec payload creating tip normalized topo prev range sign landed extra :
  landing_commit format_datetime ctx row payload creating tip normalized topo prev range sign = Ok (landed, extra) →
  landed = new_id row ∨ ∃ c, c ∈ extra ∧ landed = hash_to_string (c_id c).
Proof.
  unfold landing_commit. destruct (_ =? 1)%Z; [intros [= <- <-]; by left|].
  intros (parents & _ & E)%bind_Ok. destruct (commit_new _ _ _ _ _) as [u|]; [|done].
  destruct (sign u) as [c|]; [|done]. injection E as <- <-. right. exists c. split; [by constructor|done].
Qed.

(** A single commit lands as it is. *)
Lemma plan_single payload creating tip lp :
  pl_n payload = 1%Z → plan_landing format_datetime ctx row root payload creating tip = Ok lp →
  landed_at_p (lp_args lp) = new_id row.
Proof.
  intros En. unfold plan_landing.
  intros (data & _ & (rt & _ & (parent & _ & ([chain blob] & _ & (res & _ & (sign & _ & E)%bind_Ok)%bind_Ok)%bind_Ok)%bind_Ok)%bind_Ok)%bind_Ok.
  apply bind_Ok in E as (tf & _ & (topo & _ & (prev & _ & ([landed extra] & Hl & [= <-])%bind_Ok)%bind_Ok)%bind_Ok).
  revert Hl. unfold landing_commit. rewrite En. by intros [= <- <-].
Qed.

Lemma plan_spec payload creating tip lp :
  (creating = false → is_Some (tree_below (px_committed ctx) (ref_tree_hash root) segs)) →
  plan_landing format_datetime ctx row root payload creating tip = Ok lp →
  (∃ chain', surgery (px_committed ctx) (ref_tree_hash root) segs (c_tree_id tip) (pa_result (lp_args lp)) chain')
  ∧ lp_normalized lp = display_path segs ∧ pa_path_p (lp_args lp) = display_path segs
  ∧ lp_tip_tree lp = c_tree_id tip
  ∧ expected_root_commit (lp_args lp) = Some (ref_commit_hash root)
  ∧ expected_root_tree (lp_args lp) = Some (ref_tree_hash root)
  ∧ (landed_at_p (lp_args lp) = new_id row
     ∨ ∃ c, c ∈ extra_commits (lp_args lp) ∧ landed_at_p (lp_args lp) = hash_to_string (c_id c)).
Proof.
  destruct Hpath as (Ep & Hne & Hseg & Hz). intros Hy. unfold plan_landing. rewrite Ep.
  rewrite clean_display by (by apply mono_plain).
  destruct (exists_last Hne) as (ps & n & ->). pose proof Hseg as [Hps Hn]%Forall_app.
  apply Forall_cons in Hn as [Hn _]. rewrite path_parent_display by done.
  intros (data & Hdata & (rt & Hrt%map_err_Ok & (parent & [= <-] & ([chain blob] & Hf%map_err_Ok & E)%bind_Ok)%bind_Ok)%bind_Ok)%bind_Ok.
  apply bind_Ok in E as (res & Hres%map_err_Ok & (sign & _ & (tf & _ & (topo & _ & (prev & _ & E)%bind_Ok)%bind_Ok)%bind_Ok)%bind_Ok).
  apply bind_Ok in E as ([landed extra] & Hl%landing_commit_spec & [= <-]). simpl.
  split_and!; try done.
  assert (stored_tree (px_committed ctx) (ref_tree_hash root) = Some rt) as Hroot.
  { unfold stored_tree. destruct (mega_tree _ !! _); [|done]. injection Hdata as ->. simpl. by rewrite Hrt. }
  destruct creating.
  - by eapply create_success.
  - apply bind_Ok in Hf as (chain0 & Hc & [= <- <-]). destruct (Hy eq_refl) as [y Hy'].
    destruct (update_surgery _ Hsound _ rt Hroot ps n (c_tree_id tip) Hseg y Hy') as (c2 & r2 & ch & E1 & E2 & Hs).
    rewrite Hc in E1. injection E1 as <-. rewrite Hres in E2. injection E2 as <-. by exists ch.
Qed.
End Plan.

(** ** A push *)

Section Push.
Context `{GitCommits} {GL : GitLaws}.
Context (format_datetime : Z → Z → option text) (error_text : PushError → text).
Context (ctx : PushExecContext) (now : Z) (env : tables → tables) (row : PushQueueRow) (root : MegaRef).
Context (published native : bool) (segs : list text) (s : tables).
Context (Hpath : push_path (path row) segs) (Hq : queue_inv s.1) (Hm : monorepo_ok s.2).
Context (Henv : round_env (px_committed ctx) s (env s)).
Context (Hroot : get_main_ref (lit "/") s.2 = Some root).
Abbreviation i := (row_id row).

(** The root that the writes replace is the one that was read. *)
Definition root_held : Prop := head_of <$> get_main_ref (lit "/") (env s).2 = Some (head_of root).

(** What a push that is done has done. *)
Definition done_effect (s' : tables) (landed : text) : Prop :=
  root_held
  ∧ (old_id row = new_id row ∧ unmoved (env s).2 s'.2
     ∨ ∃ tip, stored_commit ctx (new_id row) = Ok tip
         ∧ landed_at segs (c_tree_id tip) landed (ref_tree_hash root) now (env s).2 s'.2).

(** The end of a round of a push, by its outcome. *)
Definition push_ended (s' : tables) (o : ExecuteOutcome) : Prop :=
  queue_inv s'.1 ∧ monorepo_ok s'.2 ∧ ended i s'.1 o
  ∧ match o with
    | ExDone _ landed _ => done_effect s' landed
    | _ => s'.2 = s.2 ∨ s'.2 = (env s).2
    end.

Definition push_result (r : tables * outcome PushError ExecuteOutcome) : Prop :=
  match r with
  | (s', Ok o) => push_ended s' o
  | (s', _) => s' = s ∨ s' = env s
  end.

Lemma refused_ended s0 s' o :
  s0 = s ∨ s0 = env s → refused i s0 s' o → (∀ j l w, o ≠ ExDone j l w) → push_ended s' o.
Proof.
  intros Hs0 (Hq' & E2 & _ & He) Hnd. split; [done|].
  split; [rewrite E2; destruct Hs0 as [->| ->]; [done|apply Henv]|]. split; [done|].
  assert (s'.2 = s.2 ∨ s'.2 = (env s).2) as Hs by (rewrite E2; destruct Hs0 as [->| ->]; auto).
  destruct o; [|done..]. by destruct (Hnd id landed root_cas_writes).
Qed.

Lemma fail_ended failure message s0 :
  s0 = s ∨ s0 = env s → queue_inv s0.1 →
  push_result (let '(s', o) := b3_fail_merge i failure message now s0 in (s', Ok o)).
Proof.
  intros Hs0 Hq0. pose proof (b3_fail_merge_spec i failure message now s0 Hq0) as Hf.
  destruct (b3_fail_merge _ _ _ _ s0) as [s' o]. destruct Hf as [Hr Ho]. apply (refused_ended s0); [done..|].
  by destruct Ho as [->| ->].
Qed.

Lemma closed_ended message :
  push_result (let '(s', o) := fail_closed i message now (env s) in (s', Ok o)).
Proof.
  pose proof (fail_closed_spec i message now (env s) (re_queue _ _ _ Henv)) as Hf.
  destruct (fail_closed _ _ _ _) as [s' o]. destruct Hf as (Hq' & E2 & -> & He).
  split; [done|]. split; [rewrite E2; apply Henv|]. split; [done|by right].
Qed.

(** *** The writes of a landing *)

Lemma finish_landing_spec lp path_row d landed writes tip :
  stored_commit ctx (new_id row) = Ok tip → lp_normalized lp = display_path segs →
  lp_tip_tree lp = c_tree_id tip → root_held →
  (∀ d', advance_descendant_refs_with (display_path segs) (hash_to_string (c_tree_id tip)) (ref_tree_hash <$> path_row)
           (mega_commit (px_committed ctx)) (Trunk (lp_plan lp) (lp_sign lp)) now d = Ok d' →
         landed_at segs (c_tree_id tip) landed (ref_tree_hash root) now (env s).2 d') →
  (∀ r, get_main_ref (display_path segs) d = Some r → ref_tree_hash r = hash_to_string (c_tree_id tip)) →
  push_result (finish_landing ctx now row root published native lp path_row (env s) d landed writes).
Proof.
  intros Htip En Et Hheld Hadv Hr. unfold finish_landing. rewrite En, Et.
  assert (from_option ref_tree_hash (hash_to_string (c_tree_id tip)) (get_main_ref (display_path segs) d)
          = hash_to_string (c_tree_id tip)) as ->
    by (destruct (get_main_ref (display_path segs) d) as [r|]; [by apply Hr|done]).
  destruct (advance_descendant_refs_with _ _ _ _ _ _ d) as [d'| | |]; [|by right..].
  specialize (Hadv d' eq_refl).
  pose proof (finish_done_spec i landed writes now (env s) ((env s).1, d') (re_queue _ _ _ Henv)
                (re_queue _ _ _ Henv) eq_refl) as Hf.
  destruct (finish_done _ _ _ _ _ _) as [s' o]. destruct Hf as (Hq' & He & [[-> ->]|[-> E2]]).
  - split; [done|]. split; [apply Henv|]. split; [done|by right].
  - destruct (mbind _ _) as [[]| | |]; [|by right..]. split; [done|]. simpl in E2.
    split; [rewrite E2; apply Hadv|]. split; [done|]. split; [done|]. right. exists tip. by rewrite E2.
Qed.

(** The reference of the path is at its place in the tree of the root that was read. *)
Lemma old_tree_place o :
  ref_tree_hash <$> get_main_ref (path row) s.2 = Some o → tree_below s.2 (ref_tree_hash root) segs = Some o.
Proof.
  intros (pref & Hp & ->)%fmap_Some. destruct Hpath as (Ep & _ & Hseg & _). rewrite Ep in Hp.
  destruct (mo_place _ Hm _ _ Hp) as (q & root' & Hq' & Eq & Hr & Ht). apply display_inj_mono in Eq as <-; [|done|done].
  rewrite Hroot in Hr. by injection Hr as <-.
Qed.

Lemma landing_writes lp path_row tip d lw :
  stored_commit ctx (new_id row) = Ok tip → path_row = get_main_ref (path row) s.2 →
  (∃ chain', surgery (px_committed ctx) (ref_tree_hash root) segs (c_tree_id tip) (pa_result (lp_args lp)) chain') →
  pa_path_p (lp_args lp) = display_path segs →
  expected_root_commit (lp_args lp) = Some (ref_commit_hash root) →
  expected_root_tree (lp_args lp) = Some (ref_tree_hash root) →
  (landed_at_p (lp_args lp) = new_id row
   ∨ ∃ c, c ∈ extra_commits (lp_args lp) ∧ landed_at_p (lp_args lp) = hash_to_string (c_id c)) →
  apply_push_in_txn (mega_commit (px_committed ctx)) (px_fresh_id ctx) now (lp_args lp) (env s).2 = Ok (d, lw) →
  lw = (landed_at_p (lp_args lp), 1%Z) ∧ root_held
  ∧ (∀ r, get_main_ref (display_path segs) d = Some r → ref_tree_hash r = hash_to_string (c_tree_id tip))
  ∧ (∀ comms style d',
       advance_descendant_refs_with (display_path segs) (hash_to_string (c_tree_id tip)) (ref_tree_hash <$> path_row)
         comms style now d = Ok d' →
       landed_at segs (c_tree_id tip) (landed_at_p (lp_args lp)) (ref_tree_hash root) now (env s).2 d').
Proof.
  intros Htip Epr [chain' Hsg] Epp Eec Eet Hl Ha. destruct Hpath as (Ep & Hne & Hseg & _).
  destruct Henv as [_ Hmono _ Hseen Hkept Hcom].
  destruct (apply_spec _ _ _ _ _ _ _ segs chain' (c_tree_id tip) (mo_refs _ Hmono) (mo_trees _ Hmono)
    (mono_plain _ Hseg) Hne (sg_updates _ _ _ _ _ _ Hsg) (sg_trees _ _ _ _ _ _ Hsg) (sg_good _ _ _ _ _ _ Hsg)
    (sg_length _ _ _ _ _ _ Hsg) Epp Ha) as (-> & (r1 & Hr1 & _ & Ec & Et) & Hap & Hs2 & Hd2 & Hst & Hex).
  rewrite Eec in Ec. rewrite Eet in Et. injection Ec as Ec. injection Et as Et.
  split; [done|]. split; [unfold root_held, head_of; rewrite Hr1; simpl; congruence|]. split.
  - intros r Hr. destruct (applied_tip _ _ _ _ _ _ Hap) as (r' & Hr' & <-); [|congruence].
    rewrite length_fmap. apply Hsg.
  - intros comms style d' Hadv.
    refine (landing_spec (px_committed ctx) (env s).2 d d' _ _ r1 now segs _ _ chain' _ comms style Hmono Hr1
      (eq_sym Et) Hseg Hsg Hkept Hd2 Hap Hs2 Hst _ _ Hadv).
    + destruct Hl as [->|(c & Hc & ->)]; [|by apply Hex]. apply (ap_commits _ _ _ _ _ Hap), Hcom.
      unfold stored_commit in Htip. destruct (mega_commit _ !! new_id row); [by eexists|done].
    + intros o Ho. subst path_row. apply old_tree_place in Ho. eapply tree_below_mono; [|exact Ho]. by etrans.
Qed.

Lemma push_commits_spec payload path_row :
  path_row = get_main_ref (path row) s.2 →
  push_result (push_commits format_datetime error_text ctx now env row root published native payload path_row s).
Proof.
  intros Epr. unfold push_commits.
  destruct (mbind _ (stored_commit ctx (new_id row))) as [[tip resolved]| | |] eqn:E; [|by left..].
  apply bind_Ok in E as (tip' & Htip & (res & _ & [= -> ->])%bind_Ok).
  destruct (_ && _); [apply fail_ended; [by left|done]|].
  destruct (if _ && _ then _ else None); [apply fail_ended; [by left|done]|].
  destruct (plan_landing _ _ _ _ _ _ _) as [lp| | |] eqn:Elp; [|by left..].
  apply (plan_spec _ _ _ _ _ Hpath (re_sound _ _ _ Henv)) in Elp as (Hsg & En & Epp & Et & Eec & Eet & Hl).
  2: { intros Hcr. bool_prop. destruct path_row as [pref|]; [|done]. exists (ref_tree_hash pref).
    eapply tree_below_mono; [apply Henv|]. apply old_tree_place. by rewrite <-Epr. }
  destruct (apply_push_in_txn _ _ _ _ _) as [[d [landed writes]]|e| |] eqn:Ea; [| |by right..].
  - destruct (landing_writes _ _ _ _ _ Htip Epr Hsg Epp Eec Eet Hl Ea) as ([= -> ->] & Hheld & Hr & Hadv).
    apply (finish_landing_spec lp path_row d _ _ tip); [done..| |done]. intros d'. apply Hadv.
  - destruct e; first [exact (closed_ended _) | apply fail_ended; [by right|apply Henv]].
Qed.

Lemma push_nothing_spec pref :
  old_id row = new_id row → push_result (push_nothing ctx now env row root published native pref s).
Proof.
  intros Eid. unfold push_nothing. destruct (negb _); [apply fail_ended; [by left|done]|].
  destruct (cas_update_root_main_ref _ _ _ _ _ (env s).2) as [d ok] eqn:Ecas.
  destruct ok; cbn [negb]; [|apply closed_ended].
  apply root_rewrite_ok in Ecas as (Hok & Hun & Hheld); [|apply Henv].
  pose proof (finish_done_spec i (ref_commit_hash pref) 1 now (env s) ((env s).1, d) (re_queue _ _ _ Henv)
                (re_queue _ _ _ Henv) eq_refl) as Hf.
  destruct (finish_done _ _ _ _ _ _) as [s' o]. destruct Hf as (Hq' & He & [[-> ->]|[-> E2]]).
  - split; [done|]. split; [apply Henv|]. split; [done|by right].
  - destruct (mbind _ _) as [[]| | |]; [|by right..]. simpl in E2. split; [done|]. rewrite E2. split; [done|].
    split; [done|]. split; [done|]. left. by rewrite E2.
Qed.
End Push.

Section Rounds.
Context `{GitCommits} {GL : GitLaws}.
Context (format_datetime : Z → Z → option text) (error_text : PushError → text).
Context (ctx : PushExecContext) (now : Z) (env : tables → tables) (row : PushQueueRow).
Context (segs : list text) (s : tables).
Context (Hpath : push_path (path row) segs) (Hq : queue_inv s.1) (Hm : monorepo_ok s.2).
Context (Henv : round_env (px_committed ctx) s (env s)).

(** The end of a round in which the root was [root]. *)
Definition round_ended (root : option MegaRef) (s' : tables) (o : ExecuteOutcome) : Prop :=
  queue_inv s'.1 ∧ monorepo_ok s'.2 ∧ ended (row_id row) s'.1 o
  ∧ match o with
    | ExDone _ landed _ => ∃ r, root = Some r ∧ done_effect ctx now env row r segs s s' landed
    | _ => s'.2 = s.2 ∨ s'.2 = (env s).2
    end.

Lemma round_refused root s0 s' o :
  s0 = s ∨ s0 = env s → refused (row_id row) s0 s' o → (∀ j l w, o ≠ ExDone j l w) → round_ended root s' o.
Proof.
  intros Hs0 (Hq' & E2 & _ & He) Hnd. split; [done|].
  split; [rewrite E2; destruct Hs0 as [->| ->]; [done|apply Henv]|]. split; [done|].
  assert (s'.2 = s.2 ∨ s'.2 = (env s).2) as Hs by (rewrite E2; destruct Hs0 as [->| ->]; auto).
  destruct o; [|done..]. by destruct (Hnd id landed root_cas_writes).
Qed.

Lemma round_failed root failure message s0 :
  s0 = s ∨ s0 = env s → queue_inv s0.1 →
  let '(s', o) := b3_fail_merge (row_id row) failure message now s0 in round_ended root s' o.
Proof.
  intros Hs0 Hq0. pose proof (b3_fail_merge_spec (row_id row) failure message now s0 Hq0) as Hf.
  destruct (b3_fail_merge _ _ _ _ s0) as [s' o]. destruct Hf as [Hr Ho]. apply (round_refused root s0); [done..|].
  by destruct Ho as [->| ->].
Qed.

Lemma push_ended_round r s' o : push_ended ctx now env row r segs s s' o → round_ended (Some r) s' o.
Proof. intros (? & ? & ? & Ho). split_and!; [done..|]. destruct o; try done. by exists r. Qed.

Lemma push_result_round r (res : tables * outcome PushError ExecuteOutcome) :
  push_result ctx now env row r segs s res →
  match res with (s', Ok o) => round_ended (Some r) s' o | (s', _) => s' = s ∨ s' = env s end.
Proof. destruct res as [s' [o| | |]]; [apply push_ended_round|done..]. Qed.

Lemma push_inner_spec root published native :
  root = get_main_ref (lit "/") s.2 →
  match b3_execute_push_inner format_datetime error_text ctx now env row root published native s with
  | (s', Ok o) => round_ended root s' o
  | (s', _) => s' = s ∨ s' = env s
  end.
Proof.
  intros Eroot.
  assert (∀ failure message,
    match (let '(s', o) := b3_fail_merge (row_id row) failure message now s in (s', Ok o))
          : tables * outcome PushError ExecuteOutcome with
    | (s', Ok o) => round_ended root s' o
    | (s', _) => s' = s ∨ s' = env s
    end) as Hrefuse.
  { intros failure message. pose proof (round_failed root failure message s (or_introl eq_refl) Hq) as Hf.
    by destruct (b3_fail_merge _ _ _ _ _). }
  unfold b3_execute_push_inner. destruct (push_payload_from_value _) as [payload|]; [|by left].
  destruct (negb _) eqn:En; [apply Hrefuse|]. apply negb_false_iff, eqb_prop in En.
  destruct root as [root|]; [|apply Hrefuse]. symmetry in Eroot. rewrite (native_main _ _ Hm).
  destruct (get_main_ref (path row) s.2) as [pref|] eqn:Ep.
  - destruct (is_protocol_zero_id _); [apply Hrefuse|]. destruct (pl_n payload =? 0)%Z eqn:E0.
    + bool_prop. by apply push_result_round, push_nothing_spec.
    + destruct (negb _); [apply Hrefuse|]. by apply push_result_round, push_commits_spec.
  - destruct (bool_decide (is_Some _)); [apply Hrefuse|]. destruct (negb _); [apply Hrefuse|].
    destruct (pl_n payload =? 0)%Z; [apply Hrefuse|]. by apply push_result_round, push_commits_spec.
Qed.

Lemma execute_push_spec root published native :
  root = get_main_ref (lit "/") s.2 →
  match b3_execute_push format_datetime error_text ctx now env row root published native s with
  | (s', Ok o) => round_ended root s' o
  | (s', _) => s' = s ∨ s' = env s
  end.
Proof.
  intros Eroot. unfold b3_execute_push. pose proof (push_inner_spec root published native Eroot) as Hi.
  destruct (b3_execute_push_inner _ _ _ _ _ _ _ _ _ _) as [s1 [o|e| |]]; [done| |done..].
  assert (queue_inv s1.1) as Hq1 by (destruct Hi as [->| ->]; [done|apply Henv]).
  pose proof (round_failed root PushFailure (error_text e) s1 Hi Hq1) as Hf.
  change (b3_fail_merge (row_id row) PushFailure) with (terminalize_failure PushFailure (row_id row)) in Hf.
  by destruct (terminalize_failure _ _ _ _ _).
Qed.

(** ** A round *)

(** The end of a round: also the reference of the path may be gone, when it was not
    where the root has it, and a push may have been done before. *)
Definition executed (s' : tables) (o : ExecuteOutcome) : Prop :=
  queue_inv s'.1 ∧ monorepo_ok s'.2 ∧ ended (row_id row) s'.1 o
  ∧ match o with
    | ExDone _ landed _ =>
        (begin_publication (px_publication ctx) row = AlreadyCommitted landed ∧ s'.2 = s.2)
        ∨ ∃ r, get_main_ref (lit "/") s.2 = Some r ∧ done_effect ctx now env row r segs s s' landed
    | ExFailed _ Conflict _ =>
        s'.2 = s.2 ∨ s'.2 = (env s).2 ∨ s'.2 = fst (tombstone_and_delete_main_ref (path row) now s.2)
    | _ => s'.2 = s.2 ∨ s'.2 = (env s).2
    end.

Definition executed_or_undone (r : tables * outcome ServiceError ExecuteOutcome) : Prop :=
  match r with (s', Ok o) => executed s' o | (s', _) => s' = s ∨ s' = env s end.

Lemma round_executed root s' o : root = get_main_ref (lit "/") s.2 → round_ended root s' o → executed s' o.
Proof.
  intros -> (? & ? & ? & Ho). split_and!; [done..|]. destruct o as [? ? ?|?|?|?|? ?|? [] ?]; try done; [by right|].
  destruct Ho as [?|?]; [by left|by right; left].
Qed.

Lemma fail_executed failure message :
  executed_or_undone (let '(s', o) := b3_fail_merge (row_id row) failure message now s in (s', Ok o)).
Proof.
  pose proof (round_failed (get_main_ref (lit "/") s.2) failure message s (or_introl eq_refl) Hq) as Hf.
  destruct (b3_fail_merge _ _ _ _ _) as [s' o]. by eapply round_executed.
Qed.

Lemma closed_executed message :
  executed_or_undone (let '(s', o) := fail_closed (row_id row) message now s in (s', Ok o)).
Proof.
  pose proof (fail_closed_spec (row_id row) message now s Hq) as Hf.
  destruct (fail_closed _ _ _ _) as [s' o]. destruct Hf as (? & E2 & -> & ?).
  split; [done|]. rewrite E2. split_and!; [done..|by left].
Qed.

Context (Hrow : push_queue s.1 !! row_id row = Some row) (Hrun : status row = Running).

Lemma stale_executed :
  executed_or_undone (let '(s', o) := b3_refuse_stale_main_tree (row_id row) (path row) now s in (s', Ok o)).
Proof.
  unfold b3_refuse_stale_main_tree, b3_tombstone_repair_after_savepoint, mark_failed_if_running_in_txn.
  destruct (update_where _ _ s.1) as [q n] eqn:E. cbn [fst snd].
  destruct (mark_spec _ _ _ _ _ Hq (failed_safe _ _ _ _) E) as (Hq' & _ & [[_ (r & Hr & _ & Hf)]|(_ & Hn & _)]).
  - destruct Hpath as (Ep & Hne & Hseg & _). split; [done|]. split.
    { apply removed_ok; [done|]. rewrite Ep. apply root_not_path; [by apply mono_plain|done]. }
    split; [|by right; right]. split; [done|]. eexists. split; [exact Hf|]. by destruct r.
  - by destruct (Hn _ Hrow Hrun).
Qed.

Lemma dispatch_executed req attach_ctx merge_ctx published native root :
  req_id req = row_id row → kind row = Push → root = get_main_ref (lit "/") s.2 →
  executed_or_undone
    (b3_dispatch format_datetime error_text req attach_ctx merge_ctx (Some ctx) published native now env row root s).
Proof.
  intros Ei Ek Eroot. unfold b3_dispatch. rewrite Ek, Ei.
  destruct (match root with Some _ => _ | None => _ end) as [[st|]| | |]; [apply stale_executed| |by left..].
  pose proof (execute_push_spec root published native Eroot) as He.
  destruct (b3_execute_push _ _ _ _ _ _ _ _ _ _) as [s' [o| | |]]; [|done..]. by eapply round_executed.
Qed.

Lemma checked_executed req attach_ctx merge_ctx published :
  req_id req = row_id row → kind row = Push →
  executed_or_undone
    (b3_checked format_datetime error_text req attach_ctx merge_ctx (Some ctx) published now env row s).
Proof.
  intros Ei Ek. unfold b3_checked. rewrite (native_main _ _ Hm), Ek, Ei. destruct (negb _); [apply closed_executed|].
  cbn [bool_decide]. rewrite (bool_decide_eq_false_2 (Push = Merge)) by done. cbn [andb].
  destruct (published && _); [|by apply dispatch_executed].
  destruct (instance_uuid _) as [instance|]; [|apply fail_executed].
  destruct (reserve_native_publication _ _ _); [by apply dispatch_executed|apply fail_executed|by left].
Qed.
End Rounds.

(** A round of a push row that has been claimed. *)
Lemma execute_executed `{GitCommits} {GL : GitLaws} format_datetime error_text ctx now env row segs s req
    attach_ctx merge_ctx :
  push_path (path row) segs → queue_inv s.1 → monorepo_ok s.2 → round_env (px_committed ctx) s (env s) →
  push_queue s.1 !! req_id req = Some row → kind row = Push →
  executed_or_undone ctx now env row segs s
    (execute_b3 format_datetime error_text req attach_ctx merge_ctx (Some ctx) now env s).
Proof.
  intros Hpath Hq Hm Henv Hrow Ek. unfold execute_b3. rewrite Hrow.
  destruct (inv_ids _ Hq _ _ Hrow) as [Hid _]. rewrite <-Hid in Hrow.
  destruct (has_status Running row) eqn:Er; cbn [negb].
  2: { split; [done|]. split; [done|]. split; [|by left]. split; [done|]. intros r Hr.
       rewrite Hrow in Hr. injection Hr as <-. intros Hs. by rewrite (proj2 (has_status_spec _ _) Hs) in Er. }
  apply has_status_spec in Er. rewrite Ek. destruct (is_hard_stopped_in_txn s.1) as [[]| | |]; [| |by left..].
  { pose proof (back_to_queue_spec (req_id req) now s Hq) as Hb. rewrite <-Hid in *.
    destruct (back_to_queue _ _ _) as [s' o] eqn:E. eapply (round_executed _ _ _ _ _ _ _ s' o); [done|].
    eapply (round_refused _ _ _ _ _ _ Hm Henv _ s); [by left|done|]. intros j l w ->.
    unfold back_to_queue in E. destruct (reset_running_to_queued _ _ _) as [q []]; discriminate. }
  destruct (_ && _); [|by apply checked_executed].
  destruct (begin_publication _ _) as [|landed|m|m] eqn:Eb; [by apply checked_executed| | |by left].
  - unfold b3_replay_committed_operation.
    pose proof (finish_done_spec (req_id req) landed 0 now s s Hq Hq eq_refl) as Hf.
    destruct (finish_done _ _ _ _ _ _) as [s' o]. destruct Hf as (? & He & [[-> ->]|[-> E2]]); rewrite <-Hid in *.
    + split_and!; [done..|by left].
    + split; [done|]. rewrite E2. split_and!; [done..|by left].
  - rewrite <-Hid. by apply fail_executed.
Qed.
