(* ===== verification/PushServiceLive.v ===== *)
(** * MonoWriteQueue: a push that lands

    When nothing interferes and the object store is sound, the round of an landable
    push ends with the push landed. *)
From stdpp Require Import base strings sets numbers tactics list gmap.
From S2P Require Import Prelude Text FilterSyntax FilterCanonical FilterSemantics MonoPath CommitMessage.
From S2P Require Import CanonicalJson GitObjects ViewCommit GitCommits TrunkProvenance MonoRefs MonoTrees.
From S2P Require Import MonoRefsInv MonoRefsTheorems MonoAdvance MonoAdvanceInv MonoAdvanceTheorems.
From S2P Require Import QueueTables PushQueue PushQueueInv PushQueueReaper PushQueueReaperTheorems.
From S2P Require Import TreeOps TreeOpsInv TreeSurgery TrunkPush TrunkPushInv.
From S2P Require Import TrunkLanding PushQueueService PushServiceInv.

(** ** Resolving a path *)

Section Resolve.
Context `{GitCommits} {GL : GitLaws}.

Lemma walk_spec d h t cs :
  trees_ok d → stored_tree d h = Some t →
  walk_components tree_from_mega_model_with_kind d t cs = Ok (tree_below d h cs ≫= stored_tree d).
Proof.
  intros Hok. revert h t. induction cs as [|c cs IH]; intros h t Ht; [simpl; by rewrite Ht|].
  cbn [walk_components tree_below]. rewrite Ht. cbn [mbind option_bind].
  unfold find_dir. destruct (item_named c (tree_items t)) as [it|]; [|done].
  destruct (bool_decide (item_mode it = ModeTree)); cbn [negb mbind option_bind]; [|done].
  set (h' := hash_to_string (item_id it)). unfold get_tree_by_hash.
  destruct (mega_tree d !! h') as [data|] eqn:Ed.
  - destruct (Hok _ _ Ed) as [t' Et']. rewrite Et'. cbn. apply IH. unfold stored_tree. rewrite Ed. cbn. by rewrite Et'.
  - assert (stored_tree d h' = None) as Hn by (unfold stored_tree; by rewrite Ed).
    destruct cs as [|c' cs]; cbn [tree_below mbind option_bind]; by rewrite Hn.
Qed.

Lemma resolve_spec d h t segs :
  trees_sound (mega_tree d) → stored_tree d h = Some t → Forall plain_segment segs → segs ≠ [] →
  resolve_path_tree_hash_with_kind d h (display_path segs)
  = Ok (h' ← tree_below d h segs; _ ← stored_tree d h'; Some h').
Proof.
  intros Hs Ht Hp Hne. destruct (stored_sound _ _ _ Hs Ht) as (Eh & _).
  unfold resolve_path_tree_hash_with_kind. rewrite Eh at 1. rewrite from_hex_to_string.
  unfold walk_path. rewrite !bool_decide_eq_false_2; [|by apply root_not_path|apply display_nonempty].
  cbn [orb]. pose proof Ht as Ht'. unfold get_tree_by_hash. unfold stored_tree in Ht'.
  destruct (mega_tree d !! h) as [data|] eqn:Ed; [|done]. cbn in Ht'.
  destruct (tree_from_mega_model_with_kind h data) as [t'| | |]; [|done..]. injection Ht' as ->. cbn.
  rewrite (walk_spec d h) by (done || by apply sound_ok). rewrite path_components_display by done. cbn.
  f_equal. destruct (tree_below d h segs) as [h'|]; [|done]. cbn.
  destruct (stored_tree d h') as [u|] eqn:Eu; [|done]. simpl. by destruct (stored_sound _ _ _ Hs Eu) as [-> _].
Qed.
End Resolve.

(** ** Writes that succeed *)

Lemma batch_upsert_total us now d :
  NoDup us.*1 → (∀ k, k ∈ us.*1 → mega_refs d !! k = None) → ∃ d', batch_upsert_by_path us now d = Ok d'.
Proof.
  revert d. induction us as [|[k u] us IH]; intros d Hn Hk; simpl; [by eauto|].
  apply NoDup_cons in Hn as [Hk0 Hn].
  assert (∃ d1, upsert_ref_by_path k u now d = Ok d1 ∧ ∀ j, j ∈ us.*1 → mega_refs d1 !! j = None) as (d1 & -> & Hd1).
  { unfold upsert_ref_by_path. destruct (existsb _ _) eqn:Ex.
    - eexists. split; [done|]. intros j Hj. simpl. rewrite lookup_fmap, Hk; [done|by constructor].
    - unfold insert_ref. cbn [ref_id ref_path ref_name new_ref]. rewrite Ex, Hk by (simpl; by constructor).
      rewrite bool_decide_eq_false_2 by (by intros []). eexists. split; [done|]. intros j Hj. simpl.
      rewrite lookup_insert_ne by (intros <-; done). apply Hk. by constructor. }
  cbn [mbind outcome_bind]. by apply IH.
Qed.

Lemma imap_ids_NoDup {A} (fresh : nat → Z) (l : list A) :
  Inj (=) (=) fresh → NoDup (imap (λ i a, (fresh i, a)) l).*1.
Proof.
  intros Hi. apply NoDup_alt. intros i j k Ei Ej. rewrite list_lookup_fmap, list_lookup_imap in Ei, Ej.
  destruct (l !! i), (l !! j); try done. simpl in *. apply Hi. congruence.
Qed.

Lemma cas_total d r nc nt now :
  refs_inv d → get_main_ref (lit "/") d = Some r → is_cl r = false →
  ∃ d', cas_update_root_main_ref (Some (ref_commit_hash r)) (Some (ref_tree_hash r)) nc nt now d = (d', true).
Proof.
  intros Hinv (Hl & Hp & Hn)%get_ref_spec Hcl; [|done]. unfold cas_update_root_main_ref. cbn [update_refs].
  destruct (select_root (Some (ref_commit_hash r)) (Some (ref_tree_hash r)) d Hinv)
    as [[_ Hf]|(s & -> & _)]; [|by eexists].
  specialize (Hf _ _ Hl). exfalso. revert Hf. unfold is_root_at.
  rewrite (proj2 (at_key_spec _ _ _) (conj Hp Hn)), Hcl, !bool_decide_eq_true_2 by done. done.
Qed.

(** ** A sound service *)

Section Live.
Context `{GitCommits} {GL : GitLaws}.

(** The store can be read by another connection, commits can be made, signed and stored,
    and new identifiers are new. *)
Record healthy (ctx : PushExecContext) (d : MonoDb) : Prop := {
  hy_committed : px_committed ctx = d;
  hy_sign : ∃ sign, px_signing ctx = Some sign ∧ ∀ u, is_Some (sign u);
  hy_gitkeep : is_Some (px_gitkeep ctx);
  hy_new a c t ps m : is_Some (commit_new a c t ps m);
  hy_storable c : is_Some (commit_into_mega_model c);
  hy_rows id row : mega_commit d !! id = Some row → ∃ c, commit_from_mega_model_with_kind row = Ok c;
  hy_hashes p r : get_main_ref p d = Some r → is_Some (from_hex_for_kind (ref_commit_hash r));
  hy_unused n : mega_refs d !! px_fresh_id ctx n = None;
  hy_distinct : Inj (=) (=) (px_fresh_id ctx);
}.

Context (ctx : PushExecContext) (d : MonoDb) (Hy : healthy ctx d).
Abbreviation comms := (mega_commit d).

Lemma committer_total id : ∃ o, stored_committer comms id = Ok o.
Proof.
  unfold stored_committer. destruct (comms !! id) as [row|] eqn:E; [|by eauto].
  destruct (hy_rows _ _ Hy id row E) as [c ->]. cbn. by eauto.
Qed.

Lemma previous_total r : ∃ o, previous_committer comms r = Ok o.
Proof.
  unfold previous_committer. destruct (comms !! _) as [row|] eqn:E; [|by eauto].
  destruct (hy_rows _ _ Hy _ row E) as [c ->]. cbn. by eauto.
Qed.

Context (plan : TrunkProvenance) (sign : Commit → option Commit) (Hsign : ∀ u, is_Some (sign u)).

Lemma layer_commit_total tree p previous :
  (∀ id, previous = Some id → is_Some (from_hex_for_kind id)) →
  ∃ c, layer_commit comms plan sign tree p previous = Ok c.
Proof.
  intros Hp. unfold layer_commit, trunk_commit.
  assert (∃ ps, match previous with Some id => h ← parse_oid id; Ok [h] | None => Ok [] end = Ok ps) as [ps ->].
  { destruct previous as [id|]; [|by eauto]. unfold parse_oid. destruct (Hp id eq_refl) as [h ->]. cbn. by eauto. }
  assert (∃ o, match previous with Some id => stored_committer comms id | None => Ok None end = Ok o) as [o ->].
  { destruct previous as [id|]; [apply committer_total|by eauto]. }
  cbn. destruct (hy_new _ _ Hy (tp_author plan) (tp_committer plan o) tree ps (layer_message plan p)) as [u ->].
  destruct (Hsign u) as [c ->]. by eauto.
Qed.

Lemma continuation_total r h x :
  is_Some (from_hex_for_kind (ref_commit_hash r)) → h = hash_to_string x →
  ∃ c row, continuation comms (Trunk plan sign) r h = Ok c ∧ commit_into_mega_model c = Some row.
Proof.
  intros [parent Hp] ->. unfold continuation. rewrite Hp, from_hex_to_string.
  destruct (previous_total r) as [o ->]. cbn.
  match goal with |- context [commit_new ?a ?c ?t ?ps ?m] => destruct (hy_new _ _ Hy a c t ps m) as [u ->] end.
  destruct (Hsign u) as [c ->]. destruct (hy_storable _ _ Hy c) as [row Hrow]. by exists c, row.
Qed.

Lemma layers_total (l : Layers) us path_p landed :
  ∃ l', foldM (add_layer comms plan sign d path_p landed) l us = Ok l'.
Proof.
  revert l. induction us as [|u us IH]; intros l; [by eexists|]. cbn [foldM].
  assert (∃ l1, add_layer comms plan sign d path_p landed l u = Ok l1) as [l1 E]; [|rewrite E; apply IH].
  unfold add_layer. destruct (bool_decide _); [by eexists|]. destruct (bool_decide _); [by eexists|].
  destruct (bool_decide _); [by eexists|].
  destruct (layer_commit_total (ru_tree_id u) (clean_path_str (ru_path u))
    (ref_commit_hash <$> get_main_ref (clean_path_str (ru_path u)) d)) as [c Hc].
  - intros id (r & Hr & ->)%fmap_Some. by eapply hy_hashes.
  - rewrite Hc. cbn. by eexists.
Qed.

Lemma root_commit_total root t (cs : list Commit) :
  get_main_ref (lit "/") d = Some root →
  ∃ rc, (if bool_decide (Some (ref_tree_hash root) = Some (hash_to_string t)) then Ok (ref_commit_hash root, cs)
         else c ← layer_commit comms plan sign t (lit "/") (Some (ref_commit_hash root));
              Ok (hash_to_string (c_id c), cs ++ [c])) = Ok rc.
Proof.
  intros Hroot. destruct (bool_decide _); [by eexists|].
  destruct (layer_commit_total t (lit "/") (Some (ref_commit_hash root))) as [c ->]; [|by eexists].
  intros id [= <-]. by eapply hy_hashes.
Qed.

Lemma commits_total (cs : list Commit) d2 :
  ∃ d3, match cs with [] => Ok d2 | _ => map_err PushMono (save_mega_commits cs d2) end = Ok d3
    ∧ mega_tree d3 = mega_tree d2.
Proof.
  destruct (save_commits_spec cs d2) as (m & Es & _); [apply Forall_forall; intros c _; by eapply hy_storable|].
  destruct cs; [by eexists|]. rewrite Es. by eexists.
Qed.

Lemma apply_total now args segs chain' x root :
  monorepo_ok d → get_main_ref (lit "/") d = Some root → Forall plain_segment segs → segs ≠ [] →
  ref_updates (pa_result args) = chain_updates segs ((tree_id <$> chain') ++ [x]) →
  updated_trees (pa_result args) = reverse chain' → Forall good_tree chain' → length chain' = length segs →
  pa_path_p args = display_path segs → provenance args = Some plan → sign_trunk args = Some sign →
  expected_root_commit args = Some (ref_commit_hash root) → expected_root_tree args = Some (ref_tree_hash root) →
  ∃ r, apply_push_in_txn comms (px_fresh_id ctx) now args d = Ok r.
Proof.
  intros Hok Hroot Hseg Hne Eu Et Hg Hl Ep Epr Esg Eec Eet. unfold apply_push_in_txn.
  rewrite Epr, Esg, Ep, clean_display, Eu, Et, Eec, Eet by done.
  set (ids := (tree_id <$> chain') ++ [x]).
  assert (length ids = S (length segs)) as Hlen by (unfold ids; rewrite length_app, length_fmap; simpl; lia).
  destruct (layers_total (mk_Layers [] (extra_commits args) None) (chain_updates segs ids) (display_path segs)
    (landed_at_p args)) as [l El]. rewrite El. cbn [mbind outcome_bind].
  apply layers_spec in El as [ups Hly]; [|by apply root_not_path|by apply chain_clean].
  assert (∃ t, root_tree_new l = Some t) as [t ->].
  { destruct (ids !! 0) as [t|] eqn:E0; [|apply lookup_ge_None in E0; lia]. exists t.
    refine (ly_root _ _ _ _ _ _ _ Hly (mk_RefUpdate (lit "/") t) _ eq_refl (chain_paths_NoDup segs ids Hseg Hlen)).
    apply elem_of_chain_updates. exists 0, t. by rewrite take_0. }
  destruct (root_commit_total root t (new_commits l) Hroot) as [[rc cs] ->]. cbn [mbind outcome_bind].
  destruct (cas_total d root rc (hash_to_string t) now (mo_refs _ Hok) Hroot (mo_cl _ Hok _ _ Hroot)) as [d1 Ecas].
  rewrite Ecas. cbn [negb].
  assert (mega_tree d1 = mega_tree d ∧ ∀ k, mega_refs d !! k = None → mega_refs d1 !! k = None) as [Et1 Hk1].
  { unfold cas_update_root_main_ref in Ecas. cbn [update_refs] in Ecas. injection Ecas as <- _. split; [done|].
    intros k Hk. simpl. by rewrite lookup_fmap, Hk. }
  destruct (batch_upsert_total (imap (λ i u, (px_fresh_id ctx i, u)) (other_updates l)) now d1) as [d2 Eb].
  { apply imap_ids_NoDup, Hy. }
  { intros k ([k' u] & -> & Hin)%list_elem_of_fmap. apply Hk1. apply list_elem_of_lookup in Hin as [j Hj].
    rewrite list_lookup_imap in Hj. destruct (other_updates l !! j); [|done]. injection Hj as <- _. apply Hy. }
  rewrite Eb. cbn [map_err mbind outcome_bind].
  assert (mega_tree d2 = mega_tree d) as Et2 by (rewrite <-Et1; apply (batch_upsert_tables _ _ _ _ Eb)).
  destruct (commits_total cs d2) as (d3 & -> & Et3). rewrite Et2 in Et3. cbn [mbind outcome_bind].
  destruct (save_trees_spec (reverse chain') d3) as (m3 & Es3 & _); [rewrite Et3; apply Hok|by apply Forall_reverse|].
  destruct (reverse chain') as [|g gs]; [by eexists|]. rewrite Es3. by eexists.
Qed.

Lemma tree_below_hash d2 h c cs h' : tree_below d2 h (c :: cs) = Some h' → ∃ y, h' = hash_to_string y.
Proof.
  revert h c. induction cs as [|c' cs IH]; intros h c; cbn [tree_below]; destruct (stored_tree d2 h) as [t|]; try done;
    cbn [mbind option_bind]; destruct (find_dir c (tree_items t)) as [h1|] eqn:E; try done.
  - intros [= <-]. apply find_dir_Some in E as (it & _ & _ & <-). by eexists.
  - apply IH.
Qed.

Lemma advance_total d2 h0 landed root segs x chain' old now :
  monorepo_ok d → get_main_ref (lit "/") d = Some root → ref_tree_hash root = h0 → Forall mono_segment segs →
  mega_tree d ⊆ mega_tree d2 → applied segs ((tree_id <$> chain') ++ [x]) landed d d2 → trees_sound (mega_tree d2) →
  (∀ o, old = Some o → tree_below d h0 segs = Some o) →
  ∃ d3, advance_descendant_refs_with (display_path segs) (hash_to_string x) old comms (Trunk plan sign) now d2 = Ok d3.
Proof.
  intros Hok Hroot Eh0 Hseg Hd2 Hap Htr Hold. pose proof (ap_refs _ _ _ _ _ Hap) as Hinv2.
  pose proof (pass_place d d2 h0 landed root segs x chain' old Hok Hroot Eh0 Hseg Hd2 Hap Hold) as Hplace.
  pose proof (pass_plain d d2 landed segs x chain' Hok Hseg Hap) as Hplain.
  rewrite (advance_is_reference _ _ _ _ _ _ _ (default [] (tree_below d h0 segs))).
  - destruct (reference_follows (display_path segs) (hash_to_string x) comms (Trunk plan sign) now d2 Hinv2)
      as (d3 & -> & _); [|by eexists].
    intros r h [Hr Hb]%main_candidate; [|done]. rewrite normalize_display in Hb. intros Hf _.
    destruct (Hplain _ _ Hr) as (q & Hq & Ep). rewrite Ep in Hb, Hr. apply below_display in Hb as (c & cs & ->);
      [|by apply mono_plain|done].
    unfold new_tree_of in Hf. rewrite normalize_display, Ep in Hf.
    destruct (relative_display segs c cs Hq) as (rel & Erel & Ec). rewrite Erel in Hf. injection Hf as Hf.
    rewrite Ec in Hf. apply tree_below_hash in Hf as [y Ey].
    eapply (continuation_total r h y); [|done]. eapply hy_hashes; [exact Hy|].
    refine (proj1 (old_place d d2 h0 landed root segs x chain' old Hok Hroot Eh0 Hseg Hap Hold c cs r _ Hr)).
    by eapply (mono_row d d2 landed segs x chain').
  - by apply sound_ok.
  - apply pass_consistent; [by apply mono_plain|done..].
  - intros o Ho. by rewrite (Hold o Ho).
Qed.
End Live.

Section Lands.
Context `{GitCommits} {GL : GitLaws}.
Context (format_datetime : Z → Z → option text) (error_text : PushError → text).
Context (ctx : PushExecContext) (now : Z) (row : PushQueueRow) (root : MegaRef) (segs : list text).
Context (d : MonoDb) (Hy : healthy ctx d) (Hok : monorepo_ok d) (Hpath : push_path (path row) segs).
Context (Hroot : get_main_ref (lit "/") d = Some root) (rt : GitTree).
Context (Hrt : stored_tree d (ref_tree_hash root) = Some rt).

(** The push moves the reference at its path, or creates it where there is nothing. *)
Inductive landable : Prop :=
  | adm_update pref :
      get_main_ref (path row) d = Some pref → ref_commit_hash pref = old_id row →
      is_protocol_zero_id (old_id row) = false → is_Some (stored_tree d (ref_tree_hash pref)) → landable
  | adm_create :
      get_main_ref (path row) d = None → get_tombstone (path row) MEGA_BRANCH_NAME d = None →
      is_protocol_zero_id (old_id row) = true → last segs ≠ Some (lit ".gitkeep") →
      creatable d (ref_tree_hash root) segs → tree_below d (ref_tree_hash root) segs = None →
      classify_creation_path (px_config ctx) (path row) = None → landable.

Context (Hadm : landable) (payload : PushPayload).
Context (tip : Commit) (Htip : stored_commit ctx (new_id row) = Ok tip).
Context (Hcommits : Forall (λ id, is_Some (mega_commit d !! id)) (pl_commits payload)).
Abbreviation creating := (bool_decide (get_main_ref (path row) d = None)).

Lemma stored_commits_total : ∃ l, mapM (stored_commit ctx) (pl_commits payload) = Ok l.
Proof.
  assert (∀ ids, Forall (λ id, is_Some (mega_commit d !! id)) ids → ∃ l, mapM (stored_commit ctx) ids = Ok l)
    as Ha; [|by apply Ha].
  intros ids Hids. induction Hids as [|id ids Hr _ IH]; [by eexists|]. destruct Hr as [r Hr], IH as [l Hl].
  destruct (hy_rows _ _ Hy id r Hr) as [c Hc].
  assert (stored_commit ctx id = Ok c) as Es.
  { unfold stored_commit. by rewrite (hy_committed _ _ Hy), Hr, Hc. }
  exists (c :: l). cbn [mapM]. rewrite Es. cbn [mbind outcome_bind]. by rewrite Hl.
Qed.

Lemma topo_total :
  ∃ l, (tip_first ← (if bool_decide (pl_commits payload = []) then Ok [tip] else mapM (stored_commit ctx) (pl_commits payload));
        match load_topo_asc tip_first with Some l => Ok l | None => Err EmptyChain end) = Ok l.
Proof.
  destruct (bool_decide _) eqn:E; bool_prop; [by eexists|]. destruct stored_commits_total as [l Hl]. rewrite Hl.
  cbn [mbind outcome_bind]. destruct l; [|by eexists]. apply mapM_Ok, Forall2_nil_inv_r in Hl. done.
Qed.

Lemma old_parses : creating = false → is_Some (from_hex_for_kind (old_id row)).
Proof.
  intros Hc. bool_prop. destruct Hadm as [pref Hp <- _ _|?]; [|done]. by eapply hy_hashes.
Qed.

Lemma landing_commit_total normalized topo prev range sign :
  (∀ u, is_Some (sign u)) →
  ∃ r, landing_commit format_datetime ctx row payload creating tip normalized topo prev range sign = Ok r.
Proof.
  intros Hs. unfold landing_commit. destruct (_ =? 1)%Z; [by eexists|].
  assert (∃ ps, (if creating then Ok [] else h ← parse_oid (old_id row); Ok [h]) = Ok ps) as [ps ->].
  { destruct creating eqn:Ec; [by eexists|]. unfold parse_oid. destruct (old_parses Ec) as [h ->]. by eexists. }
  cbn [mbind outcome_bind].
  match goal with |- context [commit_new ?a ?c ?t ?ps ?m] => destruct (hy_new _ _ Hy a c t ps m) as [u ->] end.
  destruct (Hs u) as [c ->]. by eexists.
Qed.

Lemma pref_place pref :
  get_main_ref (path row) d = Some pref → tree_below d (ref_tree_hash root) segs = Some (ref_tree_hash pref).
Proof.
  destruct Hpath as (-> & _ & Hseg & _). intros Hp.
  destruct (mo_place _ Hok _ _ Hp) as (k & r & Hk & Eq & Hr & Ht). apply display_inj_mono in Eq as <-; [|done|done].
  rewrite Hroot in Hr. by injection Hr as <-.
Qed.

(** The search and the rebuild succeed. *)
Lemma trees_total ps n :
  segs = ps ++ [n] →
  ∃ chain blob res,
    (if creating then search_tree_for_update_or_create_from_root (mega_tree d) (px_gitkeep ctx) (display_path ps) rt
     else chain ← search_tree_for_update_from_root (mega_tree d) (display_path ps) rt; Ok (chain, None))
    = Ok (chain, blob)
    ∧ (if creating then build_result_by_chain_inserting (display_path segs) chain (c_tree_id tip)
       else build_result_by_chain (display_path segs) chain (c_tree_id tip)) = Ok res.
Proof.
  intros Es. destruct Hpath as (Ep & Hne & Hseg & Hz). rewrite Es in Ep, Hseg, Hz. rewrite Es. destruct Hadm as [pref Hp _ _ _|Hn _ _ Hgk Hc _ _].
  - rewrite bool_decide_eq_false_2 by congruence. pose proof (pref_place pref Hp) as Ht. rewrite Es in Ht.
    destruct (update_surgery d (mo_trees _ Hok) _ rt Hrt ps n (c_tree_id tip) Hseg _ Ht) as (c & res & ch & -> & Hb & _).
    exists c, None, res. done.
  - rewrite bool_decide_eq_true_2 by done. destruct (hy_gitkeep _ _ Hy) as [b ->].
    destruct (create_surgery d (mo_trees _ Hok) _ rt Hrt ps n (c_tree_id tip) Hseg b Hz) as (c & bl & res & ch & -> & Hb & _).
    + intros _ _ _ _ _ En. apply Hgk. by rewrite Es, last_snoc, En.
    + by rewrite <-Es.
    + by exists c, bl, res.
Qed.

Lemma plan_total :
  ∃ lp, plan_landing format_datetime ctx row root payload creating tip = Ok lp
    ∧ provenance (lp_args lp) = Some (lp_plan lp) ∧ sign_trunk (lp_args lp) = Some (lp_sign lp)
    ∧ ∀ u, is_Some (lp_sign lp u).
Proof.
  destruct Hpath as (Ep & Hne & Hseg & _). destruct (exists_last Hne) as (ps & n & Es).
  destruct (trees_total ps n Es) as (chain & blob & res & Hs & Hb). pose proof landing_commit_total as Hl.
  set (cr := creating) in *. unfold plan_landing. rewrite (hy_committed _ _ Hy). pose proof Hrt as Hd. unfold stored_tree in Hd.
  destruct (mega_tree d !! ref_tree_hash root) as [data|]; [|done]. cbn [mbind option_bind outcome_bind] in *.
  destruct (tree_from_mega_model_with_kind _ data) as [t| | |]; [|done..]. injection Hd as ->.
  cbn [map_err mbind outcome_bind]. rewrite Ep, clean_display by (by apply mono_plain).
  assert (path_parent (display_path segs) = Some (display_path ps)) as ->.
  { rewrite Es in Hseg |- *. apply Forall_app in Hseg as [_ Hn]. apply path_parent_display. by apply Forall_cons in Hn as [? _]. }
  cbn [mbind outcome_bind]. rewrite Hs. cbn [map_err mbind outcome_bind]. rewrite Hb. cbn [map_err mbind outcome_bind].
  destruct (hy_sign _ _ Hy) as (sign & -> & Hsign). cbn [mbind outcome_bind].
  destruct topo_total as [topo (tf & -> & Ht)%bind_Ok]. cbn [mbind outcome_bind]. rewrite Ht. cbn [mbind outcome_bind].
  assert (∃ prev, (if cr then Ok None else stored_committer (mega_commit d) (old_id row)) = Ok prev) as [prev ->].
  { destruct cr; [by eexists|]. by apply (committer_total ctx). }
  cbn [mbind outcome_bind].
  match goal with |- context [landing_commit _ _ _ _ _ _ ?p ?t ?v ?r ?s] =>
    destruct (Hl p t v r s Hsign) as [[landed extra] ->] end.
  cbn [mbind outcome_bind]. eexists. split; [done|]. done.
Qed.

(** *** The round *)

Context (q : Db) (Hq : queue_inv q) (Hrow : push_queue q !! row_id row = Some row) (Hrun : status row = Running).
Context (Htargets : ∀ p t, publish_target_paths (px_publication ctx) p t = None).

Lemma finish_done_total landed writes d' :
  ∃ q', finish_done (row_id row) landed writes now (q, d) (q, d') = ((q', d'), ExDone (row_id row) landed writes).
Proof.
  unfold finish_done, mark_done_if_running_in_txn. cbn [fst snd]. destruct (update_where _ _ q) as [q' n] eqn:E.
  destruct (mark_spec _ _ _ _ _ Hq (done_safe _ _ _) E) as (_ & _ & [[-> _]|(_ & Hn & _)]); [by exists q'|].
  by destruct (Hn _ Hrow).
Qed.

Lemma resolved_total :
  ∃ o, resolve_path_tree_hash_with_kind d (ref_tree_hash root) (path row) = Ok o
    ∧ (get_main_ref (path row) d = None → o = None)
    ∧ ∀ pref, get_main_ref (path row) d = Some pref → o = Some (ref_tree_hash pref).
Proof.
  destruct Hpath as (Ep & Hne & Hseg & _). eexists. split.
  { rewrite Ep. apply (resolve_spec d _ rt); [apply Hok|done|by apply mono_plain|done]. }
  destruct Hadm as [pref Hp _ _ [t Ht]|Hn _ _ _ _ -> _]; [|by split; [|congruence]].
  split; [congruence|]. intros pref' Hp'. rewrite Hp in Hp'. injection Hp' as <-.
  rewrite (pref_place pref Hp). cbn [mbind option_bind]. by rewrite Ht.
Qed.

Lemma push_commits_total :
  ∃ s' landed,
    push_commits format_datetime error_text ctx now id row root false false payload (get_main_ref (path row) d) (q, d)
    = (s', Ok (ExDone (row_id row) landed 1)) ∧ (pl_n payload = 1%Z → landed = new_id row).
Proof.
  unfold push_commits. rewrite Htip. cbn [mbind outcome_bind snd]. destruct resolved_total as (o & -> & Hn & Hs).
  cbn [map_err mbind outcome_bind].
  assert (creating && bool_decide (is_Some o) && negb (bool_decide (o = Some (hash_to_string (c_tree_id tip)))) = false) as ->.
  { destruct (get_main_ref (path row) d); [done|]. by rewrite (Hn eq_refl). }
  assert ((if creating && bool_decide (o = None) then classify_creation_path (px_config ctx) (path row) else None) = None) as ->.
  { destruct Hadm as [pref Hp _ _ _|_ _ _ _ _ _ ->]; [by rewrite Hp|by destruct (_ && _)]. }
  destruct plan_total as (lp & Elp & Epr & Esg & Hsign). rewrite Elp.
  pose proof Hpath as (Ep & Hne & Hseg & _).
  pose proof (λ E1, plan_single _ _ _ _ _ _ _ _ E1 Elp) as Hsingle. apply (plan_spec _ _ _ _ _ Hpath) in Elp as ([chain' Hsg] & En & Epp & Et & Eec & Eet & _).
  2: { rewrite (hy_committed _ _ Hy). apply Hok. }
  2: { intros Hc. bool_prop. rewrite (hy_committed _ _ Hy).
       destruct (get_main_ref (path row) d) as [pref|] eqn:Ep'; [|done]. rewrite (pref_place pref Ep'). by eexists. }
  cbn [id snd]. rewrite (hy_committed _ _ Hy) in *.
  destruct (apply_total ctx d Hy (lp_plan lp) (lp_sign lp) Hsign now (lp_args lp) segs chain' (c_tree_id tip) root)
    as [[d2 lw] Ea]; try done; [by apply mono_plain|apply Hsg..|]. rewrite Ea.
  destruct (apply_spec _ _ _ _ _ _ _ segs chain' (c_tree_id tip) (mo_refs _ Hok) (mo_trees _ Hok)
    (mono_plain _ Hseg) Hne (sg_updates _ _ _ _ _ _ Hsg) (sg_trees _ _ _ _ _ _ Hsg) (sg_good _ _ _ _ _ _ Hsg)
    (sg_length _ _ _ _ _ _ Hsg) Epp Ea) as (-> & _ & Hap & Hs2 & Hd2 & _).
  destruct (applied_tip _ _ _ _ _ _ Hap) as (r & Hr & Ert); [rewrite length_fmap; apply Hsg|].
  destruct (advance_total ctx d Hy (lp_plan lp) (lp_sign lp) Hsign d2 (ref_tree_hash root) (landed_at_p (lp_args lp))
    root segs (c_tree_id tip) chain' (ref_tree_hash <$> get_main_ref (path row) d) now) as [d3 Ead]; try done.
  { intros o' (pref & Hp & ->)%fmap_Some. by apply pref_place. }
  unfold finish_landing. rewrite En, Et, (hy_committed _ _ Hy), Hr. cbn [from_option]. rewrite Ert, Ead. cbn [fst].
  destruct (finish_done_total (landed_at_p (lp_args lp)) 1 d3) as [q' ->]. cbn [mbind outcome_bind].
  rewrite Htargets. by eexists _, _.
Qed.

Lemma still_env : round_env (px_committed ctx) (q, d) (id (q, d)).
Proof. rewrite (hy_committed _ _ Hy). split; [exact Hq|exact Hok|apply Hok|done..]. Qed.

Context (Hpayload : push_payload_from_value (QueueTables.payload row) = Some payload).
Context (Hmoves : old_id row ≠ new_id row) (Hcount : pl_n payload ≠ 0%Z).

(** The tables after the landing. *)
Definition landing_done (s' : tables) (landed : text) : Prop :=
  queue_inv s'.1 ∧ ended (row_id row) s'.1 (ExDone (row_id row) landed 1)
  ∧ landed_at segs (c_tree_id tip) landed (ref_tree_hash root) now d s'.2
  ∧ (pl_n payload = 1%Z → landed = new_id row).

Lemma execute_push_total :
  ∃ s' landed,
    b3_execute_push format_datetime error_text ctx now id row (Some root) false false (q, d)
    = (s', Ok (ExDone (row_id row) landed 1)) ∧ landing_done s' landed.
Proof.
  destruct push_commits_total as (s' & landed & E & Hone). exists s', landed.
  pose proof (push_commits_spec format_datetime error_text ctx now id row root false false segs (q, d) Hpath Hq Hok
    still_env Hroot payload _ eq_refl) as Hres. cbn [snd] in Hres. rewrite E in Hres.
  destruct Hres as (Hq' & _ & He & _ & [[Ee _]|(tip' & Htip' & Hl)]); [done|].
  rewrite Htip in Htip'. injection Htip' as <-. split; [|done].
  unfold b3_execute_push, b3_execute_push_inner. rewrite Hpayload, (bool_decide_eq_false_2 _ Hmoves).
  rewrite (proj2 (Z.eqb_neq _ _) Hcount). cbn [Bool.eqb negb snd]. rewrite (native_main _ _ Hok).
  destruct Hadm as [pref Hp Ec Hz _|Hn Ht Hz _ _ _ _].
  - rewrite Hp in E |- *. rewrite Hz, bool_decide_eq_true_2 by done. cbn [negb]. by rewrite E.
  - rewrite Hn in E |- *. rewrite Ht, Hz. rewrite bool_decide_eq_false_2 by (by intros []). cbn [negb]. by rewrite E.
Qed.

Lemma assert_total : assert_main_path_tree_hash (path row) (ref_tree_hash root) d = Ok None.
Proof.
  unfold assert_main_path_tree_hash. destruct (_ || _); [done|].
  destruct (get_main_ref (path row) d) as [pref|] eqn:Ep; [|done].
  destruct resolved_total as (o & -> & _ & Ho). cbn [mbind outcome_bind].
  rewrite (Ho pref Ep). by rewrite bool_decide_eq_true_2.
Qed.

Context (Hkind : kind row = Push) (Hstop : is_hard_stopped_in_txn q = Ok false).
Context (Hbase : baseline_ok row (Some root) = true) (Hpub : publication_enabled (px_publication ctx) = false).

Lemma execute_total req attach_ctx merge_ctx :
  req_id req = row_id row →
  ∃ s' landed,
    execute_b3 format_datetime error_text req attach_ctx merge_ctx (Some ctx) now id (q, d)
    = (s', Ok (ExDone (row_id row) landed 1)) ∧ landing_done s' landed.
Proof.
  intros Ei. destruct execute_push_total as (s' & landed & E & Hl). exists s', landed. split; [|done].
  unfold execute_b3. rewrite Ei. cbn [fst]. rewrite Hrow, (proj2 (has_status_spec _ _) Hrun). cbn [negb].
  rewrite Hstop, Hpub. cbn [andb]. unfold b3_checked. cbn [snd]. rewrite (native_main _ _ Hok), Hroot, Hbase, Hkind.
  cbn [negb]. rewrite (bool_decide_eq_false_2 (Push = Merge)) by done. cbn [andb].
  unfold b3_dispatch. rewrite Hkind. cbn [snd]. by rewrite assert_total.
Qed.
End Lands.
