(* ===== verification/PushServiceTheorems.v ===== *)
(** * MonoWriteQueue: the theorems of the service *)
From stdpp Require Import base strings sets numbers tactics list gmap relations.
From S2P Require Import Prelude Text FilterSyntax FilterCanonical FilterSemantics MonoPath CommitMessage.
From S2P Require Import CanonicalJson GitObjects ViewCommit GitCommits TrunkProvenance MonoRefs MonoTrees.
From S2P Require Import MonoRefsInv MonoRefsTheorems MonoAdvance MonoAdvanceInv MonoAdvanceTheorems.
From S2P Require Import QueueTables PushQueue PushQueueInv PushQueueSteps PushQueueSpec PushQueueReaper.
From S2P Require Import TreeOps TreeOpsInv TreeSurgery TrunkPush TrunkPushInv.
From S2P Require Import TrunkLanding PushQueueService PushServiceInv PushServiceLive.

(** ** Landing *)

(** C2: an admissible push lands.  A claimed row whose push moves the reference of its
    path, or creates it where the monorepo has nothing, ends Done when nothing
    interferes: the reference of the path is at the pushed tree, with the tip itself when
    the push has one commit; the new root has that tree at the path and differs from the
    old root nowhere else, but for placeholders in directories that were created; the
    directories above have references at their new trees, references below follow, all
    others stay; and every reference is again at its place in the tree of the root. *)
Theorem push_lands `{GitCommits} {GL : GitLaws} format_datetime error_text req attach_ctx merge_ctx
    ctx now row root segs pl tip q d :
  queue_inv q → monorepo_ok d → healthy ctx d →
  push_queue q !! req_id req = Some row → status row = Running → kind row = Push → push_path (path row) segs →
  is_hard_stopped_in_txn q = Ok false →
  get_main_ref (lit "/") d = Some root → is_Some (stored_tree d (ref_tree_hash root)) →
  baseline_ok row (Some root) = true →
  publication_enabled (px_publication ctx) = false → (∀ p t, publish_target_paths (px_publication ctx) p t = None) →
  push_payload_from_value (payload row) = Some pl → pl_n pl ≠ 0%Z → old_id row ≠ new_id row →
  Forall (λ id, is_Some (mega_commit d !! id)) (pl_commits pl) → stored_commit ctx (new_id row) = Ok tip →
  landable ctx row root segs d →
  ∃ q' d' landed,
    execute_b3 format_datetime error_text req attach_ctx merge_ctx (Some ctx) now id (q, d)
    = ((q', d'), Ok (ExDone (row_id row) landed 1))
    ∧ queue_inv q' ∧ ended (row_id row) q' (ExDone (row_id row) landed 1)
    ∧ landed_at segs (c_tree_id tip) landed (ref_tree_hash root) now d d'
    ∧ (pl_n pl = 1%Z → landed = new_id row).
Proof.
  intros Hq Hok Hy Hrow Hrun Hkind Hpath Hstop Hroot [rt Hrt] Hbase Hpub Htargets Hpl Hn Hmoves Hcs Htip Hadm.
  destruct (inv_ids _ Hq _ _ Hrow) as [Hid _]. rewrite <-Hid in Hrow.
  destruct (execute_total format_datetime error_text ctx now row root segs d Hy Hok Hpath Hroot rt Hrt Hadm pl tip Htip
    Hcs q Hq Hrow Hrun Htargets Hpl Hmoves Hn Hkind Hstop Hbase Hpub req attach_ctx merge_ctx (eq_sym Hid))
    as ([q' d'] & landed & E & Hl). exists q', d', landed. by split.
Qed.

(** C4: a round of a push is safe whatever other connections commit between its reads and
    its writes and whatever fails.  The queue stays consistent, and every main reference
    stays at its place in the tree of the root, with a stored commit.  The row is settled
    as the outcome says; a push is Done only when the root that its writes replaced is the
    one it had read, and then it has landed as a whole, or moved nothing, or had landed
    before; in every other case no reference has moved, but for the removal of a reference
    at the path that was not where the root has it.  An error leaves the tables to the
    others. *)
Theorem push_round_safe `{GitCommits} {GL : GitLaws} format_datetime error_text req attach_ctx merge_ctx
    ctx now env row segs s :
  queue_inv s.1 → monorepo_ok s.2 → round_env (px_committed ctx) s (env s) →
  push_queue s.1 !! req_id req = Some row → kind row = Push → push_path (path row) segs →
  let '(s', r) := execute_b3 format_datetime error_text req attach_ctx merge_ctx (Some ctx) now env s in
  queue_inv s'.1 ∧ monorepo_ok s'.2
  ∧ match r with
    | Ok o => ended (row_id row) s'.1 o ∧ executed ctx now env row segs s s' o
    | _ => s' = s ∨ s' = env s
    end.
Proof.
  intros Hq Hm Henv Hrow Hkind Hpath.
  pose proof (execute_executed format_datetime error_text ctx now env row segs s req attach_ctx merge_ctx
    Hpath Hq Hm Henv Hrow Hkind) as He.
  destruct (execute_b3 _ _ _ _ _ _ _ _ _) as [s' [o| | |]]; cbn [executed_or_undone] in He.
  - pose proof He as (? & ? & ? & _). done.
  - destruct He as [->| ->]; [by auto|]. split; [apply Henv|]. split; [apply Henv|by right].
  - destruct He as [->| ->]; [by auto|]. split; [apply Henv|]. split; [apply Henv|by right].
  - destruct He as [->| ->]; [by auto|]. split; [apply Henv|]. split; [apply Henv|by right].
Qed.

(** ** Directories *)

(** C18: changing a directory of the monorepo changes nothing else.  For a directory that
    exists, and for one that can be created, the search and the rebuild succeed; the new
    trees are well formed, one for each directory from the root to the parent, with their
    references from the path up to the root; and once they are stored, the new root leads
    to the new tree at the path, to the new trees above it, and everywhere else to what
    the old root leads to, but for placeholders in directories that did not exist. *)
Theorem directory_change_exact `{GitLaws} d h0 root ps n x :
  trees_sound (mega_tree d) → stored_tree d h0 = Some root → Forall mono_segment (ps ++ [n]) →
  (∀ y, tree_below d h0 (ps ++ [n]) = Some y →
     ∃ chain res chain',
       search_tree_for_update_from_root (mega_tree d) (display_path ps) root = Ok chain
       ∧ build_result_by_chain (display_path (ps ++ [n])) chain x = Ok res
       ∧ surgery d h0 (ps ++ [n]) x res chain')
  ∧ (∀ b, Forall (λ s, 0%N ∉ s) (ps ++ [n]) → n ≠ lit ".gitkeep" → creatable d h0 (ps ++ [n]) →
     ∃ chain blob res chain',
       search_tree_for_update_or_create_from_root (mega_tree d) (Some b) (display_path ps) root = Ok (chain, blob)
       ∧ build_result_by_chain_inserting (display_path (ps ++ [n])) chain x = Ok res
       ∧ surgery d h0 (ps ++ [n]) x res chain').
Proof.
  intros Hs Hroot Hseg. split.
  - intros y. by apply update_surgery.
  - intros b Hz Hn. by apply create_surgery.
Qed.

(** ** Waiting *)

Lemma rtc_keeps q q' : rtc queue_step q q' → queue_inv q → keeps_results q q'.
Proof.
  induction 1 as [|q1 q2 q3 Hs _ IH]; [done|]. intros Hinv.
  etrans; [by apply queue_step_keeps|]. by eapply IH, queue_step_inv.
Qed.

Lemma same_request_key r s : row_key r = row_key s → same_request r s.
Proof. unfold same_request. by intros ->. Qed.

Lemma same_request_trans r s t : same_request r s → same_request s t → same_request r t.
Proof. unfold same_request. intros [-> ->] [-> ->]. done. Qed.

(** The result of waiting for the request of [r0], in the tables at its end. *)
Definition wait_true (r0 : PushQueueRow) (q : Db) (w : QueueWaitResult) : Prop :=
  match w with
  | WaitReady j => ∃ r, push_queue q !! j = Some r ∧ same_request r0 r ∧ status r = Running
  | WaitReplayed j landed =>
      ∃ r, push_queue q !! j = Some r ∧ same_request r0 r ∧ status r = Done ∧ landed_commit_id r = landed
  | WaitRejected j message =>
      ∃ r, push_queue q !! j = Some r ∧ same_request r0 r ∧ error_message r = message
           ∧ (status r = Failed ∨ status r = Cancelled ∧ superseded_by r = None)
  | WaitAbandoned j => ∃ r, push_queue q !! j = Some r ∧ same_request r0 r ∧ status r = Queued
  end.

Lemma claimed_runs native decode obs i now q q' :
  queue_inv q → claim_for_execution native decode obs i now q = (q', Ok Claimed) →
  ∃ r, push_queue q' !! i = Some r ∧ status r = Running.
Proof.
  intros Hinv. unfold claim_for_execution. destruct (control q) as [c|]; [|done].
  destruct (hard_stopped c); [done|]. destruct (bool_decide _) eqn:E; [done|]. bool_prop.
  destruct obs as [|o [|]]; try done. intros Hq'.
  assert (q' = fst (update_where (claimable i q) (claim_row now o) q)) as ->.
  { destruct native; [destruct (decode o) as [|[]]; by injection Hq' as <-|by injection Hq' as <-]. }
  destruct (select (claimable i q) q) as [|r l] eqn:Es; [done|].
  assert (r ∈ select (claimable i q) q) as [Hc [k Hk]]%elem_of_select by (rewrite Es; by constructor).
  destruct (claimable_spec i q k r Hinv Hk Hc) as (-> & _). exists (claim_row now o r).
  rewrite lookup_update_where, Hk. simpl. rewrite Hc. split; [done|]. by destruct r.
Qed.

Definition waited (r0 : PushQueueRow) (q : Db) (res : Db * outcome ServiceError QueueWaitResult) : Prop :=
  queue_inv res.1 ∧ keeps_results q res.1 ∧ match res.2 with Ok w => wait_true r0 res.1 w | _ => True end.

(** One look at the queue; [next] goes on waiting. *)
Lemma observe_waited native decode obs r0 r j now b next q0 q :
  queue_inv q → keeps_results q0 q → push_queue q !! j = Some r → same_request r0 r →
  (b = true → status r = Queued) →
  (∀ q2, queue_inv q2 → keeps_results q q2 → waited r0 q0 (next q2)) →
  waited r0 q0
    (if b then (q, Ok (WaitAbandoned j))
     else match claim_for_execution native decode obs j now (touch_heartbeat j now q) with
          | (q2, Ok Claimed) => (q2, Ok (WaitReady j))
          | (q2, Ok _) => next q2
          | (q2, Err e) => (q2, Err (SvQueue e))
          | (q2, Panic) => (q2, Panic)
          | (q2, OutOfFuel) => (q2, OutOfFuel)
          end).
Proof.
  intros Hinv Hk Hr Hs Hb Hnext. destruct b; [split_and!; [done..|]; exists r; auto|].
  assert (queue_step q (touch_heartbeat j now q)) as Hst1 by (apply qs_unlocked; apply us_touch_heartbeat).
  pose proof (queue_step_inv _ _ Hst1 Hinv) as Hinv1.
  pose proof (claimed_runs native decode obs j now _ (fst (claim_for_execution native decode obs j now (touch_heartbeat j now q))) Hinv1) as Hc.
  assert (queue_step (touch_heartbeat j now q) (fst (claim_for_execution native decode obs j now (touch_heartbeat j now q)))) as Hst2
    by apply qs_claim.
  pose proof (queue_step_inv _ _ Hst2 Hinv1) as Hinv2.
  assert (keeps_results q0 (fst (claim_for_execution native decode obs j now (touch_heartbeat j now q)))) as Hk2
    by (etrans; [exact Hk|etrans; by apply queue_step_keeps]).
  assert (keeps_results q (fst (claim_for_execution native decode obs j now (touch_heartbeat j now q)))) as Hk3
    by (etrans; by apply queue_step_keeps).
  destruct (claim_for_execution native decode obs j now _) as [q2 [[]| | |]]; cbn [fst] in *; try (by apply Hnext);
    try by split_and!.
  destruct (Hc eq_refl) as (r2 & Hr2 & Hrun). destruct (Hk3 j r Hr) as (r2' & Hr2' & Ekey & _).
  rewrite Hr2 in Hr2'. injection Hr2' as <-. split_and!; [done..|]. exists r2. split_and!; [done| |done].
  eapply same_request_trans; [exact Hs|by apply same_request_key].
Qed.

Lemma wait_waited native decode timeout polls r0 :
  Forall (λ p, ∀ q, rtc queue_step q (poll_env p q)) polls →
  ∀ i deadline seen q0 q r, queue_inv q → keeps_results q0 q → push_queue q !! i = Some r → same_request r0 r →
  waited r0 q0 (wait_and_claim native decode timeout polls i deadline seen q).
Proof.
  intros He. induction He as [|p polls Hp _ IH]; intros i deadline seen q0 q r Hinv Hk Hr Hs; [by split_and!|].
  specialize (Hp q). pose proof (rtc_queue_inv _ _ Hp Hinv) as Hinv1. pose proof (rtc_keeps _ _ Hp Hinv) as Hk1.
  cbn [wait_and_claim]. set (q1 := poll_env p q) in *. clearbody q1.
  destruct (Hk1 i r Hr) as (r1 & Hr1 & Ekey & _). unfold get_by_id. rewrite Hr1.
  assert (keeps_results q0 q1) as Hk01 by (by etrans).
  assert (same_request r0 r1) as Hs1 by (eapply same_request_trans; [exact Hs|by apply same_request_key]).
  assert (∀ seen', (seen' = false → status r1 = Queued) → waited r0 q0
    (if negb seen' && (deadline <=? poll_time p)%Z then (q1, Ok (WaitAbandoned i))
     else match claim_for_execution native decode (poll_observations p) i (poll_time p)
                  (touch_heartbeat i (poll_time p) q1) with
          | (q2, Ok Claimed) => (q2, Ok (WaitReady i))
          | (q2, Ok _) => wait_and_claim native decode timeout polls i deadline seen' q2
          | (q2, Err e) => (q2, Err (SvQueue e))
          | (q2, Panic) => (q2, Panic)
          | (q2, OutOfFuel) => (q2, OutOfFuel)
          end)) as Hobs.
  { intros seen' Hseen. apply (observe_waited _ _ _ r0 r1); [done..| |].
    - intros [Hn _]%andb_true_iff. apply Hseen. by destruct seen'.
    - intros q2 Hinv2 Hk2. destruct (Hk2 i r1 Hr1) as (r2 & Hr2 & Ekey2 & _).
      eapply IH; [done|by etrans|exact Hr2|]. eapply same_request_trans; [exact Hs1|by apply same_request_key]. }
  destruct (status r1) eqn:Est; [by apply Hobs|by apply Hobs|..].
  - split_and!; [done..|]. by exists r1.
  - split_and!; [done..|]. exists r1. split_and!; [done..|by left].
  - destruct (superseded_by r1) as [n|] eqn:En.
    + destruct (inv_superseded _ Hinv1 i r1 n Hr1 En) as (_ & s & Hsn & Hss).
      eapply IH; [done..|exact Hsn|]. by eapply same_request_trans.
    + split_and!; [done..|]. exists r1. split_and!; [done..|by right].
Qed.

(** C28: a waiter is told the truth about its request.  Whatever happens to the queue while
    it waits, the row it is told about belongs to the request it waits for, possibly a
    successor after a conflict: it runs when the waiter is to execute it, it is done with
    that commit, or it has failed or was cancelled with that message; and the waiter gives
    up only on a row that never ran while it waited.  Waiting keeps the queue consistent
    and every recorded result. *)
Theorem wait_result_true native decode timeout polls i deadline q r0 :
  queue_inv q → Forall (λ p, ∀ q, rtc queue_step q (poll_env p q)) polls → push_queue q !! i = Some r0 →
  let '(q', res) := wait_and_claim native decode timeout polls i deadline false q in
  queue_inv q' ∧ keeps_results q q' ∧ match res with Ok w => wait_true r0 q' w | _ => True end.
Proof.
  intros Hinv He Hr.
  pose proof (wait_waited native decode timeout polls r0 He i deadline false q q r0 Hinv (reflexivity q) Hr) as Hw.
  destruct (wait_and_claim _ _ _ _ _ _ _ _) as [q' res]. by apply Hw.
Qed.

(** ** Conflicts *)

Lemma back_to_queue_keeps i now s :
  queue_inv s.1 →
  let '(s', o) := back_to_queue i now s in
  queue_inv s'.1 ∧ s'.2 = s.2 ∧ keeps_results s.1 s'.1 ∧ ended i s'.1 o.
Proof.
  intros Hinv. pose proof (back_to_queue_spec i now s Hinv) as Hb.
  assert (keeps_results s.1 (fst (back_to_queue i now s)).1) as Hk.
  { assert (queue_step s.1 (fst (reset_running_to_queued i now s.1))) as Hst
      by (apply qs_unlocked; apply us_reset_running).
    apply (queue_step_keeps _ _ Hinv) in Hst. unfold back_to_queue.
    destruct (reset_running_to_queued i now s.1) as [q []]; exact Hst. }
  destruct (back_to_queue i now s) as [s' o]. destruct Hb as (? & ? & _ & ?). done.
Qed.

(** The second half: the row is superseded by a row of the same request, or the requeue
    fails and nothing changes. *)
Lemma requeue_completes row r now q q' res :
  queue_inv q → push_queue q !! row_id row = Some r → row_key row = row_key r →
  complete_conflict_requeue_in_txn row now q = (q', res) →
  queue_inv q' ∧ keeps_results q q'
  ∧ match res with
    | Ok n => ∃ old new, push_queue q' !! row_id row = Some old ∧ status old = Cancelled ∧ superseded_by old = Some n
                ∧ push_queue q' !! n = Some new ∧ same_request row new
    | _ => q' = q
    end.
Proof.
  intros Hinv Hr Hkey E. assert (queue_step q q') as Hst.
  { assert (q' = fst (complete_conflict_requeue_in_txn row now q)) as -> by (by rewrite E).
    by apply (qs_requeue row r). }
  pose proof (queue_step_inv _ _ Hst Hinv) as Hinv'. split; [done|]. split; [by apply queue_step_keeps|].
  assert (∀ n old, push_queue q' !! row_id row = Some old → row_key old = row_key r → superseded_by old = Some n →
    ∃ old new, push_queue q' !! row_id row = Some old ∧ status old = Cancelled ∧ superseded_by old = Some n
      ∧ push_queue q' !! n = Some new ∧ same_request row new) as Hlink.
  { intros n old Hold Hk Hsup. destruct (inv_superseded _ Hinv' _ _ _ Hold Hsup) as (_ & new & Hnew & Hs).
    exists old, new. destruct (inv_rows _ Hinv' _ _ Hold) as (_ & [?|?] & _); [|congruence].
    split_and!; [done..|]. eapply same_request_trans; [|exact Hs]. apply same_request_key. congruence. }
  destruct (requeue_intended (row_id row) r) eqn:Ei.
  - destruct (conflict_requeue_ok q row r now Hinv Hr Hkey Ei) as (q2 & E2 & _ & Hq2 & _).
    rewrite E in E2. injection E2 as <- ->. destruct (requeue_source_spec now (push_queue_seq q) r) as (Hk & _ & Hs).
    eapply Hlink; [rewrite Hq2; apply lookup_insert_eq|done..].
  - rewrite (conflict_requeue_skip q row r now Hinv Hr Ei) in E. injection E as <- <-.
    destruct (superseded_by r) as [n|] eqn:En; [|done]. by apply (Hlink n r).
Qed.

(** C29: a conflict never loses a request.  However the queue changes while the lock is
    held, the round ends with the row superseded by a row of the same request, or back in
    the queue when the queue was stopped, or with the claim lost to another settlement of
    the row; no reference moves and no recorded result changes, also when it fails. *)
Theorem conflict_keeps_request env i row now s :
  queue_inv s.1 → (∀ q, rtc queue_step q (env q)) → push_queue s.1 !! i = Some row →
  let '(s', res) := b4_conflict_requeue_holding_lock env i row now s in
  queue_inv s'.1 ∧ s'.2 = s.2 ∧ keeps_results s.1 s'.1
  ∧ match res with
    | Ok (ExRequeued j n) =>
        j = i ∧ ∃ old new, push_queue s'.1 !! i = Some old ∧ status old = Cancelled ∧ superseded_by old = Some n
                  ∧ push_queue s'.1 !! n = Some new ∧ same_request row new
    | Ok o => ended i s'.1 o
    | _ => True
    end.
Proof.
  intros Hinv Henv Hrow. destruct (inv_ids _ Hinv _ _ Hrow) as [Hid _]. unfold b4_conflict_requeue_holding_lock.
  assert (∀ q, queue_inv q → keeps_results s.1 q →
    let '(s', o) := back_to_queue i now (q, s.2) in
    queue_inv s'.1 ∧ s'.2 = s.2 ∧ keeps_results s.1 s'.1
    ∧ match o with ExRequeued _ _ => False | o => ended i s'.1 o end) as Hback.
  { intros q Hq Hk. pose proof (back_to_queue_keeps i now (q, s.2) Hq) as Hb.
    destruct (back_to_queue i now (q, s.2)) as [s' o]. destruct Hb as (? & ? & ? & He).
    split_and!; [done|done|by etrans|]. by destruct o. }
  destruct (is_hard_stopped_in_txn s.1) as [[]| | |]; [| |by split_and!..].
  { specialize (Hback s.1 Hinv (reflexivity _)). rewrite <-surjective_pairing in Hback.
    destruct (back_to_queue i now s) as [s' []]; naive_solver. }
  destruct (persist_requeue_conflict_intent i now s.1) as [q1 persisted] eqn:Ep.
  assert (queue_step s.1 q1) as Hst1.
  { assert (q1 = fst (persist_requeue_conflict_intent i now s.1)) as -> by (by rewrite Ep).
    apply qs_unlocked. apply us_persist_intent. }
  pose proof (queue_step_inv _ _ Hst1 Hinv) as Hinv1. pose proof (queue_step_keeps _ _ Hinv Hst1) as Hk1.
  unfold persist_requeue_conflict_intent in Ep. destruct (update_where _ _ s.1) as [q1' n] eqn:Eu. injection Ep as <- <-.
  destruct (mark_spec _ _ _ _ _ Hinv (intent_safe i now) Eu) as (_ & _ & [[-> _]|(-> & Hn & _)]); cbn [negb].
  2: { split_and!; done. }
  pose proof (rtc_queue_inv _ _ (Henv q1') Hinv1) as Hinv2.
  assert (keeps_results s.1 (env q1')) as Hk2 by (etrans; [exact Hk1|by apply rtc_keeps]).
  destruct (is_hard_stopped_in_txn (env q1')) as [[]| | |]; [| |by split_and!..].
  { specialize (Hback _ Hinv2 Hk2). destruct (back_to_queue i now _) as [s' []]; naive_solver. }
  destruct (Hk2 i row Hrow) as (r2 & Hr2 & Ekey & _). rewrite <-Hid in Hr2.
  destruct (complete_conflict_requeue_in_txn row now (env q1')) as [q3 res] eqn:Ec.
  destruct (requeue_completes row r2 now _ q3 res Hinv2 Hr2 (eq_sym Ekey) Ec) as (Hinv3 & Hk3 & Hres).
  assert (keeps_results s.1 q3) as Hk03 by (by etrans).
  destruct res as [m| | |]; (split; [exact Hinv3|]; split; [done|]; split; [exact Hk03|]); [|done..].
  split; [done|]. rewrite Hid in Hres. exact Hres.
Qed.
