(* ===== verification/PushServiceDemo.v ===== *)
(** * A push on a small monorepo

    Concrete tables on which the theorems about the service apply: a push of one commit
    moves [/a] of the monorepo of [MonoDemo]. *)
From stdpp Require Import base strings sets numbers tactics list gmap relations.
From S2P Require Import Prelude Text FilterSyntax FilterCanonical FilterSemantics MonoPath CommitMessage.
From S2P Require Import CanonicalJson GitObjects ViewTreeDemo ViewCommit GitCommits TrunkProvenance MonoRefs MonoTrees.
From S2P Require Import MonoRefsInv MonoRefsTheorems MonoAdvance MonoAdvanceInv MonoAdvanceTheorems MonoDemo.
From S2P Require Import QueueTables PushQueue PushQueueInv PushQueueSteps PushQueueSpec PushQueueReaper PushQueueTheorems.
From S2P Require Import TreeOps TreeOpsInv TreeSurgery TrunkPush TrunkPushInv.
From S2P Require Import TrunkLanding PushQueueService PushServiceInv PushServiceLive PushServiceTheorems.

(** ** The monorepo *)

Definition demo_row (id tree : text) (parents : list text) : CommitRow :=
  mk_CommitRow id tree (Array (map String parents)) (Some (lit "A")) (Some (lit "A")) (Some (lit "m")).

Definition push_commits_table : gmap text CommitRow :=
  list_to_map [(lit "r0", demo_row (lit "r0") root0 []); (lit "a0", demo_row (lit "a0") leaf1 []);
               (lit "b0", demo_row (lit "b0") leaf1 []); (lit "c0", demo_row (lit "c0") leaf1 []);
               (lit "t1", demo_row (lit "t1") leaf2 [lit "a0"])].

Definition push_mono : MonoDb := mk_MonoDb demo_refs ∅ demo_trees push_commits_table ∅.

Lemma push_mono_refs : refs_inv push_mono.
Proof. apply (refs_inv_refs demo_mono); [done|exact demo_mono_inv]. Qed.

Ltac each_row H := apply elem_of_list_to_map_2 in H;
  repeat (apply elem_of_cons in H as [[= -> ->]|H]); [..|by apply not_elem_of_nil in H].

Lemma push_mono_sound : trees_sound (mega_tree push_mono).
Proof.
  intros h d E. change (demo_trees !! h = Some d) in E. each_row E.
  all: eexists _, _; split; [reflexivity|]; split; [reflexivity|]; split; [vm_compute; reflexivity|].
  all: apply (bool_decide_unpack _); vm_compute; reflexivity.
Qed.

Lemma push_mono_rows p r : get_main_ref p push_mono = Some r → r ∈ [ref_root; ref_a; ref_b; ref_c] ∧ ref_path r = p.
Proof.
  intros (Hr & Hp & _)%get_ref_spec; [|exact push_mono_refs]. split; [|done].
  change (demo_refs !! ref_id r = Some r) in Hr. apply elem_of_list_to_map_2 in Hr.
  apply (list_elem_of_fmap_2 snd) in Hr. exact Hr.
Qed.

Lemma push_mono_ok : monorepo_ok push_mono.
Proof.
  split.
  - exact push_mono_refs.
  - exact push_mono_sound.
  - intros p r [Hr _]%push_mono_rows. by repeat (apply elem_of_cons in Hr as [->|Hr]; [done|]); apply not_elem_of_nil in Hr.
  - intros p r [Hr _]%push_mono_rows.
    repeat (apply elem_of_cons in Hr as [->|Hr]; [eexists; vm_compute; reflexivity|]). by apply not_elem_of_nil in Hr.
  - intros p r [Hr <-]%push_mono_rows.
    apply elem_of_cons in Hr as [->|Hr]; [exists [], ref_root; split_and!; [constructor|done|vm_compute; reflexivity..]|].
    repeat (apply elem_of_cons in Hr as [->|Hr]; [eexists [_], ref_root; split_and!; [|reflexivity|vm_compute; reflexivity..];
      repeat constructor; try (vm_compute; congruence); apply (bool_decide_unpack _); reflexivity|]).
    by apply not_elem_of_nil in Hr.
Qed.

(** ** The context *)

Definition demo_publication : Publication :=
  mk_Publication false None (λ _, Prepared) (λ _ _, Reserved) None (λ _ _ _, None) (λ _ _, None) None (λ _ _, None).

Definition demo_config : MonoConfig := mk_MonoConfig [] [].

Definition push_ctx : PushExecContext :=
  mk_PushExecContext demo_config (Some Some) push_mono (Some [9%N]) (λ n, 100 + Z.of_nat n)%Z 7 demo_publication.

Lemma push_healthy : healthy push_ctx push_mono.
Proof.
  split.
  - done.
  - exists Some. split; [done|]. by intros u; eexists.
  - by eexists.
  - intros. by eexists.
  - intros c. by eexists.
  - intros i row E. change (push_commits_table !! i = Some row) in E. each_row E.
    all: eexists; vm_compute; reflexivity.
  - intros p r _. by eexists.
  - intros n. change (demo_refs !! (100 + Z.of_nat n)%Z = None). apply not_elem_of_list_to_map_1.
    intros Hin. simpl in Hin. repeat (apply elem_of_cons in Hin as [?|Hin]; [lia|]). by apply not_elem_of_nil in Hin.
  - intros n m E. simpl in E. lia.
Qed.

(** ** The queue *)

Definition push_payload : PushPayload := mk_PushPayload [lit "t1"] (Some (lit "a0")) 1.

Definition push_params : EnqueueParams :=
  mk_EnqueueParams Push (lit "op") (lit "/a") (lit "a0") (lit "t1") None (push_payload_to_json push_payload).

Definition push_root_seen : NativeObservation := mk_NativeObservation (Some (lit "r0")) (Some root0) None None None.

Definition push_queued : Db := fst (enqueue_atomic no_check id id id push_params 0 demo_empty).
Definition push_claimed : Db := fst (claim_for_execution false no_decode [push_root_seen] 1 1 push_queued).

Lemma push_claimed_inv : queue_inv push_claimed.
Proof.
  eapply rtc_queue_inv; [|exact (proj1 demo_inv)].
  eapply rtc_l; [apply qs_enqueue; apply id_interference|]. apply rtc_once. apply qs_claim.
Qed.

Definition demo_request : ExecuteRequest := mk_ExecuteRequest 1 NetZero None None.
Definition no_date (_ _ : Z) : option text := None.
Definition no_text (_ : PushError) : text := [].
Definition push_row : PushQueueRow := default (fresh_row Push [] [] [] [] None JNull 0 0) (push_queue push_claimed !! 1%Z).

Lemma push_row_there : push_queue push_claimed !! 1%Z = Some push_row.
Proof. vm_compute. reflexivity. Qed.

Lemma push_row_path : push_path (path push_row) [lit "a"].
Proof.
  split; [vm_compute; reflexivity|]. split; [done|].
  split; repeat constructor; try (vm_compute; congruence); apply (bool_decide_unpack _); reflexivity.
Qed.

Definition push_tip : Commit := mk_Commit _ (lit "t1") leaf2 [lit "a0"] (mk_Signature SigAuthor (lit "A") [] 0 [])
  (mk_Signature SigAuthor (lit "A") [] 0 []) (lit "m").

Lemma push_admissible : landable push_ctx push_row ref_root [lit "a"] push_mono.
Proof.
  apply (adm_update _ _ _ _ _ ref_a); [vm_compute; reflexivity..|]. eexists. vm_compute. reflexivity.
Qed.

Lemma push_lands_witness :
  ∃ q' d' landed,
    execute_b3 no_date no_text demo_request None None (Some push_ctx) 9 id (push_claimed, push_mono)
    = ((q', d'), Ok (ExDone 1 landed 1)) ∧ landed = lit "t1"
    ∧ landed_at [lit "a"] leaf2 (lit "t1") root0 9 push_mono d'.
Proof.
  destruct (push_lands no_date no_text demo_request None None push_ctx 9 push_row ref_root [lit "a"] push_payload
    push_tip push_claimed push_mono push_claimed_inv push_mono_ok push_healthy push_row_there)
    as (q' & d' & landed & E & _ & _ & Hl & Hone).
  - vm_compute; reflexivity.
  - vm_compute; reflexivity.
  - exact push_row_path.
  - vm_compute; reflexivity.
  - vm_compute; reflexivity.
  - eexists. vm_compute. reflexivity.
  - vm_compute; reflexivity.
  - reflexivity.
  - intros p t. reflexivity.
  - vm_compute; reflexivity.
  - discriminate.
  - vm_compute. discriminate.
  - constructor; [eexists; vm_compute; reflexivity|constructor].
  - vm_compute; reflexivity.
  - exact push_admissible.
  - exists q', d', landed. specialize (Hone eq_refl). change (new_id push_row) with (lit "t1") in Hone. subst landed.
    split; [exact E|]. split; [reflexivity|exact Hl].
Defined.

Lemma push_still : round_env (px_committed push_ctx) (push_claimed, push_mono) (id (push_claimed, push_mono)).
Proof. split; [exact push_claimed_inv|exact push_mono_ok|exact push_mono_sound|done..]. Qed.

Lemma push_round_safe_witness :
  let '(s', r) := execute_b3 no_date no_text demo_request None None (Some push_ctx) 9 id (push_claimed, push_mono) in
  queue_inv s'.1 ∧ monorepo_ok s'.2.
Proof.
  pose proof (push_round_safe no_date no_text demo_request None None push_ctx 9 id push_row [lit "a"]
    (push_claimed, push_mono) push_claimed_inv push_mono_ok push_still push_row_there
    ltac:(vm_compute; reflexivity) push_row_path) as H.
  destruct (execute_b3 _ _ _ _ _ _ _ _ _) as [s' r]. destruct H as (Hq & Hm & _). split; [exact Hq|exact Hm].
Defined.

Definition root0_tree : GitTree :=
  mk_GitTree demo_objects root0 [mk_TreeItem ModeTree leaf1 (lit "a"); mk_TreeItem ModeTree leaf1 (lit "b");
                             mk_TreeItem ModeTree leaf1 (lit "c")].

Lemma directory_change_exact_witness :
  ∃ chain res chain',
    search_tree_for_update_from_root demo_trees (display_path []) root0_tree = Ok chain
    ∧ build_result_by_chain (display_path [lit "a"]) chain leaf2 = Ok res
    ∧ surgery push_mono root0 [lit "a"] leaf2 res chain'.
Proof.
  apply (proj1 (directory_change_exact push_mono root0 root0_tree [] (lit "a") leaf2 push_mono_sound
      ltac:(vm_compute; reflexivity) (proj1 (proj2 (proj2 push_row_path)))) leaf1).
  vm_compute. reflexivity.
Defined.

Lemma wait_result_true_witness :
  let '(q', res) := wait_and_claim false no_decode 60 [mk_Poll 1 id [push_root_seen]] 1 50 false push_queued in
  res = Ok (WaitReady 1) ∧ queue_inv q'.
Proof.
  assert (queue_inv push_queued) as Hq
    by (eapply queue_step_inv; [apply qs_enqueue; apply id_interference|exact (proj1 demo_inv)]).
  destruct (push_queue push_queued !! 1%Z) as [r0|] eqn:Hr; [|vm_compute in Hr; discriminate].
  pose proof (wait_result_true false no_decode 60 [mk_Poll 1 id [push_root_seen]] 1 50 push_queued r0 Hq
    ltac:(repeat constructor) Hr) as H.
  assert (snd (wait_and_claim false no_decode 60 [mk_Poll 1 id [push_root_seen]] 1 50 false push_queued)
          = Ok (WaitReady 1)) as Hres by (vm_compute; reflexivity).
  destruct (wait_and_claim _ _ _ _ _ _ _ _) as [q' res]. split; [exact Hres|exact (proj1 H)].
Defined.

Lemma conflict_keeps_request_witness :
  let '(s', res) := b4_conflict_requeue_holding_lock id 1 push_row 9 (push_claimed, push_mono) in
  res = Ok (ExRequeued 1 2) ∧ queue_inv s'.1.
Proof.
  pose proof (conflict_keeps_request id 1 push_row 9 (push_claimed, push_mono) push_claimed_inv
    (λ q, rtc_refl queue_step q) push_row_there) as H.
  assert (snd (b4_conflict_requeue_holding_lock id 1 push_row 9 (push_claimed, push_mono)) = Ok (ExRequeued 1 2))
    as Hres by (vm_compute; reflexivity).
  destruct (b4_conflict_requeue_holding_lock _ _ _ _ _) as [s' res]. split; [exact Hres|exact (proj1 H)].
Defined.
