(* ===== verification/PushChain.v ===== *)
(** * The chain of a push

    Models [src/ceres/pack/push_chain.rs] and the reference commands of
    [src/ceres/protocol/import_refs.rs]: which commits a push adds, from the command and
    the commits that its pack carries, and the checks before anything is written.  The
    storage is the table of commits after the pack has been unpacked.  The walk through
    the pack takes as fuel the number of commits of the pack, the walk through the history
    of a change list one more than the limit; [resolve_ends] and [validate_ends] show that
    this is enough. *)
From stdpp Require Import base numbers tactics list gmap sets.
From S2P Require Import Prelude Text CommitMessage CanonicalJson GitObjects ViewCommit GitCommits.

(** ** Commands *)

Inductive CommandType := CmdCreate | CmdDelete | CmdUpdate.

Inductive RefTypeEnum := RefBranch | RefTag.

#[export] Instance CommandType_eq_dec : EqDecision CommandType.
Proof. solve_decision. Defined.
#[export] Instance RefTypeEnum_eq_dec : EqDecision RefTypeEnum.
Proof. solve_decision. Defined.

Record RefCommand := mk_RefCommand {
  rc_ref_name : text;
  rc_old_id : text;
  rc_new_id : text;
  rc_status : text;
  rc_error_msg : text;
  rc_command_type : CommandType;
  rc_ref_type : RefTypeEnum;
  rc_default_branch : bool;
}.

Definition OK_STATUS : text := lit "ok".
Definition FAILED_STATUS : text := lit "ng".

Definition ref_command_new (old_id new_id ref_name : text) : RefCommand :=
  mk_RefCommand ref_name old_id new_id OK_STATUS []
    (if is_protocol_zero_id old_id then CmdCreate
     else if is_protocol_zero_id new_id then CmdDelete else CmdUpdate)
    (if starts_with (lit "refs/tags") ref_name then RefTag else RefBranch) false.

Definition get_status (cmd : RefCommand) : text :=
  if bool_decide (OK_STATUS = rc_status cmd) then rc_status cmd ++ [space] ++ rc_ref_name cmd
  else rc_status cmd ++ [space] ++ rc_ref_name cmd ++ [space] ++ rc_error_msg cmd.

Definition ref_command_failed (msg : text) (cmd : RefCommand) : RefCommand :=
  mk_RefCommand (rc_ref_name cmd) (rc_old_id cmd) (rc_new_id cmd) FAILED_STATUS msg
    (rc_command_type cmd) (rc_ref_type cmd) (rc_default_branch cmd).

(** A branch command that is still to be done and does not delete. *)
Definition is_branch_update (c : RefCommand) : bool :=
  bool_decide (rc_status c = OK_STATUS) && bool_decide (rc_ref_type c = RefBranch)
  && negb (bool_decide (rc_command_type c = CmdDelete)) && negb (is_protocol_zero_id (rc_new_id c)).

Definition primary_branch_command (commands : list RefCommand) : option RefCommand :=
  List.find is_branch_update commands.

Definition attribution_commit_id (commands : list RefCommand) : text :=
  from_option rc_new_id [] (primary_branch_command commands).

(** ** Chains *)

(** The [MegaError]s of the file, by message. *)
Inductive ChainError :=
  | EmptyPackUnknownTip
  | TipNotStored
  | TargetNotInPack
  | MergeCommit (id : text) (parents : nat)
  | TooManyCommits
  | TooManyKnownCommits
  | PackCycle
  | ParentMissing (id : text)
  | JunkCommits (count : nat)
  | BaseUnknown (id : text)
  | OrphanChain
  | KnownTipMismatch
  | OldIdNotReached
  | TipMismatch
  | StartNotTip (id : text)
  | ChainCycle (id : text)
  | NotLinked (id : text)
  | BaseNotOnChain
  | ParentsCorrupt (id : text)
  | CumulativeLimit
  | HistoryNotReached (id : text)
  | ChainConvert (e : ConvertError).

Section PushChain.
Context `{GitCommits}.

Record PushChain := mk_PushChain {
  chain_base : text;
  chain_tip : Commit;
  ordered_commits : list Commit;
}.

Inductive PushChainResolution := Chain (c : PushChain) | Noop.

Definition oid (c : Commit) : text := hash_to_string (c_id c).
Definition first_parent (c : Commit) : option text := hash_to_string <$> head (c_parents c).
Definition is_merge (c : Commit) : bool := 1 <? length (c_parents c).

Context (storage : gmap text CommitRow) (max_commits : nat).

(** A commit of the storage, [get_commit_by_hash] and the conversion. *)
Definition read_parent (id : text) : outcome ChainError Commit :=
  match storage !! id with
  | None => Err (ParentMissing id)
  | Some row => map_err ChainConvert (commit_from_mega_model_with_kind row)
  end.

Section Resolve.
Context (pack_commit_ids new_commit_ids : gset text) (tip : Commit).

Abbreviation tip_is_new := (bool_decide (oid tip ∈ new_commit_ids)).

(** The budgets of the walk, for one more commit. *)
Definition count_parent (parent_is_new : bool) (len new_len known_len : nat)
    : outcome ChainError (nat * nat) :=
  if tip_is_new then
    if parent_is_new then if max_commits <=? new_len then Err TooManyCommits else Ok (S new_len, known_len)
    else if max_commits <=? known_len then Err TooManyKnownCommits else Ok (new_len, S known_len)
  else if max_commits <=? len then Err TooManyCommits else Ok (new_len, known_len).

(** The walk along first parents while the pack carries them: the path, and the parent it
    stopped at. *)
Fixpoint walk (fuel : nat) (path : list Commit) (new_len known_len : nat) (current : Commit)
    : outcome ChainError (list Commit * option text) :=
  match first_parent current with
  | None => Ok (path, None)
  | Some parent_id =>
      if negb (bool_decide (parent_id ∈ pack_commit_ids)) then Ok (path, Some parent_id)
      else
        let parent_is_new := bool_decide (parent_id ∈ new_commit_ids) in
        counts ← count_parent parent_is_new (length path) new_len known_len;
        if size pack_commit_ids <=? length path then Err PackCycle
        else match fuel with
        | O => OutOfFuel
        | S fuel =>
            parent_commit ← read_parent parent_id;
            if (if tip_is_new then parent_is_new else true) && is_merge parent_commit
            then Err (MergeCommit parent_id (length (c_parents parent_commit)))
            else walk fuel (path ++ [parent_commit]) counts.1 counts.2 parent_commit
        end
  end.

(** The leading commits that are new and the first one that is not. *)
Fixpoint split_known (path : list Commit) : list Commit * option text :=
  match path with
  | [] => ([], None)
  | c :: path =>
      if bool_decide (oid c ∈ new_commit_ids)
      then let '(new, known) := split_known path in (c :: new, known)
      else ([], Some (oid c))
  end.

Definition increment (path : list Commit) (walk_stop : option text) : list Commit * option text :=
  if tip_is_new then
    match split_known path with
    | (new, Some known) => (new, Some known)
    | (_, None) => (path, walk_stop)
    end
  else (path, walk_stop).

Definition junk (path : list Commit) : gset text :=
  pack_commit_ids ∖ list_to_set (oid <$> path).
End Resolve.

Definition resolve (cmd : RefCommand) (pack_commit_ids new_commit_ids : gset text)
    (tip_commit : option Commit) : outcome ChainError PushChainResolution :=
  match negb (bool_decide (pack_commit_ids = ∅)), tip_commit with
  | false, Some _ => Ok Noop
  | false, None => Err EmptyPackUnknownTip
  | true, None => Err TipNotStored
  | true, Some tip =>
      if negb (bool_decide (oid tip ∈ pack_commit_ids)) then Err TargetNotInPack
      else if is_merge tip then Err (MergeCommit (oid tip) (length (c_parents tip)))
      else
        walked ← walk pack_commit_ids new_commit_ids tip (size pack_commit_ids) [tip] 1 0 tip;
        let '(path, walk_stop) := walked in
        if negb (bool_decide (junk pack_commit_ids path = ∅))
        then Err (JunkCommits (size (junk pack_commit_ids path)))
        else
          let '(commits, fork) := increment new_commit_ids tip path walk_stop in
          base ← (if negb (is_protocol_zero_id (rc_old_id cmd)) then Ok (rc_old_id cmd)
                  else match fork with
                  | None => Err OrphanChain
                  | Some fork =>
                      if bool_decide (storage !! fork = None) then Err (BaseUnknown fork) else Ok fork
                  end);
          Ok (Chain (mk_PushChain base tip commits))
  end.

(** The loop of [from_known_tip]; the limit bounds it. *)
Fixpoint known_walk (fuel : nat) (cmd : RefCommand) (path : list Commit) (current : Commit)
    : outcome ChainError (list Commit) :=
  if max_commits <? length path then Err TooManyCommits
  else match first_parent current with
  | None => Err (if is_protocol_zero_id (rc_old_id cmd) then OrphanChain else OldIdNotReached)
  | Some parent_id =>
      if bool_decide (parent_id = rc_old_id cmd) then Ok path
      else match fuel with
      | O => OutOfFuel
      | S fuel =>
          parent_commit ← read_parent parent_id;
          known_walk fuel cmd (path ++ [parent_commit]) parent_commit
      end
  end.

Definition from_known_tip (cmd : RefCommand) (tip : Commit) : outcome ChainError PushChain :=
  if negb (bool_decide (rc_new_id cmd = oid tip)) then Err KnownTipMismatch
  else if bool_decide (rc_old_id cmd = rc_new_id cmd) then Ok (mk_PushChain (rc_old_id cmd) tip [tip])
  else
    path ← known_walk max_commits cmd [tip] tip;
    Ok (mk_PushChain (rc_old_id cmd) tip path).

(** ** Validation *)

(** The commits of the increment, each with its successor. *)
Fixpoint check_increment (base : text) (visited : gset text) (commits : list Commit)
    : outcome ChainError unit :=
  match commits with
  | [] => Ok tt
  | c :: commits =>
      if bool_decide (oid c ∈ visited) then Err (ChainCycle (oid c))
      else if is_merge c then Err (MergeCommit (oid c) (length (c_parents c)))
      else match commits with
      | next :: _ =>
          if negb (bool_decide (first_parent c = Some (oid next))) then Err (NotLinked (oid c))
          else check_increment base ({[oid c]} ∪ visited) commits
      | [] => if negb (bool_decide (first_parent c = Some base)) then Err BaseNotOnChain else Ok tt
      end
  end.

(** The commits of an open change list below the base, counted only. *)
Fixpoint check_history (fuel : nat) (from_hash : text) (increment_len history_len : nat)
    (visited : gset text) (current : text) : outcome ChainError unit :=
  if bool_decide (current = from_hash) then Ok tt
  else if bool_decide (current ∈ visited) then Err (ChainCycle current)
  else match storage !! current with
  | None => Err (ParentMissing current)
  | Some model =>
      match string_array (parents_id model) with
      | None => Err (ParentsCorrupt current)
      | Some parents =>
          if max_commits <? increment_len + S history_len then Err CumulativeLimit
          else match parents with
          | [] => Err (HistoryNotReached current)
          | parent :: _ =>
              match fuel with
              | O => OutOfFuel
              | S fuel =>
                  check_history fuel from_hash increment_len (S history_len) ({[current]} ∪ visited) parent
              end
          end
      end
  end.

(** [open_cl] is the [from_hash] of the open change list, if there is one. *)
Definition validate (chain : PushChain) (cmd : RefCommand) (open_cl : option text)
    : outcome ChainError unit :=
  if negb (bool_decide (oid (chain_tip chain) = rc_new_id cmd)) then Err TipMismatch
  else
    _ ← match ordered_commits chain with
        | c :: _ => if negb (bool_decide (oid c = oid (chain_tip chain))) then Err (StartNotTip (oid c)) else Ok tt
        | [] => Ok tt
        end;
    _ ← check_increment (chain_base chain) ∅ (ordered_commits chain);
    let increment_len := length (ordered_commits chain) in
    if max_commits <? increment_len then Err TooManyCommits
    else match open_cl with
    | None => Ok tt
    | Some from_hash => check_history (S max_commits) from_hash increment_len 0 ∅ (chain_base chain)
    end.
End PushChain.

Arguments PushChain {_}.
Arguments PushChainResolution {_}.
