(* ===== verification/PushChainTheorems.v ===== *)
(** * Theorems on the chain of a push

    [well_chained] is the specification of an accepted chain: distinct commits with one
    parent each, from the tip of the command down to a child of the base.  The checks
    accept exactly these, the resolution finds them, and both return for every input. *)
From stdpp Require Import base numbers tactics list gmap sets.
From S2P Require Import Prelude Text CommitMessage CanonicalJson GitObjects ViewCommit GitCommits PushChain.

Section Spec.
Context `{GitCommits}.

(** Commit by commit to the first parent; after the last one comes [stop]. *)
Fixpoint linked (c : Commit) (l : list Commit) (stop : option text) : Prop :=
  match l with
  | [] => first_parent c = stop
  | x :: l => first_parent c = Some (oid x) ∧ linked x l stop
  end.

Lemma linked_app c l k stop :
  linked c (l ++ k) stop ↔
  match k with
  | [] => linked c l stop
  | x :: k => linked c l (Some (oid x)) ∧ linked x k stop
  end.
Proof.
  revert c. induction l as [|y l IH]; intros c; simpl; [by destruct k|].
  rewrite IH. destruct k; [done|]. by rewrite (assoc (∧)).
Qed.

Lemma linked_det c l s s' : linked c l s → linked c l s' → s = s'.
Proof.
  revert c. induction l as [|x l IH]; intros c; simpl; [congruence|]. intros [_ ?] [_ ?]. by apply (IH x).
Qed.

(** Linear: distinct commits with one parent. *)
Record linear (c : Commit) (l : list Commit) (base : text) : Prop := {
  lin_linked : linked c l (Some base);
  lin_nodup : NoDup (oid <$> c :: l);
  lin_single : Forall (λ c, is_merge c = false) (c :: l);
}.

Context (storage : gmap text CommitRow) (max_commits : nat).

Record well_chained (cmd : RefCommand) (chain : PushChain) : Prop := {
  wc_tip : oid (chain_tip chain) = rc_new_id cmd;
  wc_chain : ∃ c l, ordered_commits chain = c :: l ∧ oid c = oid (chain_tip chain) ∧ linear c l (chain_base chain);
  wc_limit : length (ordered_commits chain) ≤ max_commits;
}.

(** The first ancestors of a commit in the table. *)
Definition parent_row (id : text) : option text :=
  row ← storage !! id; parents ← string_array (parents_id row); head parents.

Fixpoint ancestor (k : nat) (id : text) : option text :=
  match k with O => Some id | S k => parent_row id ≫= ancestor k end.

(** The history of an open change list, within the limit. *)
Definition history_fits (chain : PushChain) (from_hash : text) : Prop :=
  ∃ k, ancestor k (chain_base chain) = Some from_hash ∧ length (ordered_commits chain) + k ≤ max_commits.

(** ** Validation *)

Lemma check_increment_cons base vis c x l :
  check_increment base vis (c :: x :: l) =
  if bool_decide (oid c ∈ vis) then Err (ChainCycle (oid c))
  else if is_merge c then Err (MergeCommit (oid c) (length (c_parents c)))
  else if negb (bool_decide (first_parent c = Some (oid x))) then Err (NotLinked (oid c))
  else check_increment base ({[oid c]} ∪ vis) (x :: l).
Proof. done. Qed.

Lemma check_increment_exact base vis c l :
  check_increment base vis (c :: l) = Ok tt ↔
  linear c l base ∧ ∀ x, x ∈ c :: l → oid x ∉ vis.
Proof.
  revert c vis. induction l as [|x l IH]; intros c vis.
  - simpl. repeat case_bool_decide; destruct (is_merge c) eqn:Em; simpl; split; try done.
    + intros [_ Hv]. exfalso. by apply (Hv c); [left|].
    + intros [_ Hv]. exfalso. by apply (Hv c); [left|].
    + intros [[_ _ Hs] _]. apply Forall_cons in Hs as [Hs _]. congruence.
    + intros _. split; [split; [done|apply NoDup_singleton|by constructor]|].
      intros y ->%list_elem_of_singleton. done.
    + intros [[Hl _ Hs] _]. apply Forall_cons in Hs as [Hs _]. congruence.
    + intros [[Hl _ _] _]. simpl in Hl. congruence.
  - rewrite check_increment_cons. case_bool_decide as Hc.
    { split; [done|]. intros [_ Hv]. exfalso. by apply (Hv c); [left|]. }
    destruct (is_merge c) eqn:Em.
    { split; [done|]. intros [[_ _ Hs] _]. apply Forall_cons in Hs as [Hs _]. congruence. }
    case_bool_decide as Hp; cbn [negb].
    2:{ split; [done|]. intros [[[Hl _] _ _] _]. congruence. }
    rewrite IH. split.
    + intros [[Hl Hn Hs] Hv]. split.
      * split; [done| |by constructor]. rewrite fmap_cons. constructor; [|done].
        intros (y & E & Hy)%list_elem_of_fmap. apply (Hv y Hy). rewrite <-E. set_solver.
      * intros y [->|Hy]%elem_of_cons; [done|]. specialize (Hv y Hy). set_solver.
    + intros [[[_ Hl] Hn Hs] Hv]. rewrite fmap_cons, NoDup_cons in Hn. destruct Hn as [Hc' Hn].
      apply Forall_cons in Hs as [_ Hs]. split; [done|]. intros y Hy [E%elem_of_singleton|?]%elem_of_union.
      * apply Hc'. rewrite <-E. by apply list_elem_of_fmap_2.
      * by apply (Hv y); [right|].
Qed.

(** A path that does not lead to the base. *)
Lemma check_increment_off base vis c l stop :
  linked c l stop → stop ≠ Some base → NoDup (oid <$> c :: l) → Forall (λ c, is_merge c = false) (c :: l) →
  (∀ x, x ∈ c :: l → oid x ∉ vis) → check_increment base vis (c :: l) = Err BaseNotOnChain.
Proof.
  revert c vis. induction l as [|x l IH]; intros c vis Hl Hs Hn Hm Hv;
    (apply Forall_cons in Hm as [Hmc Hm]); (assert (oid c ∉ vis) as Hc by (apply Hv; by left)).
  - simpl in *. rewrite bool_decide_eq_false_2, Hmc, bool_decide_eq_false_2 by congruence. done.
  - destruct Hl as [Hp Hl]. rewrite check_increment_cons.
    rewrite bool_decide_eq_false_2, Hmc, bool_decide_eq_true_2 by done. cbn [negb].
    rewrite fmap_cons, NoDup_cons in Hn. destruct Hn as [Hcn Hn]. apply IH; [done..|].
    intros y Hy [E%elem_of_singleton|?]%elem_of_union; [|by apply (Hv y); [right|]].
    apply Hcn. rewrite <-E. by apply list_elem_of_fmap_2.
Qed.

Lemma check_increment_ends base vis l : answers (check_increment base vis l).
Proof.
  revert vis. induction l as [|c l IH]; intros vis; [done|].
  destruct l as [|x l].
  - simpl. by repeat case_match.
  - rewrite check_increment_cons. specialize (IH ({[oid c]} ∪ vis)). by repeat case_match.
Qed.

Lemma ancestor_add j k id : ancestor (j + k) id = ancestor j id ≫= ancestor k.
Proof. revert id. induction j as [|j IH]; intros id; simpl; [done|]. destruct (parent_row id); simpl; auto. Qed.

Lemma min_ex (P : nat → Prop) `{!∀ k, Decision (P k)} k :
  P k → ∃ k', P k' ∧ k' ≤ k ∧ ∀ j, j < k' → ¬ P j.
Proof.
  induction (lt_wf k) as [k _ IH]. intros Hk.
  destruct (decide (Exists P (seq 0 k))) as [(j & Hj & HP)%Exists_exists|Hn].
  - apply elem_of_seq in Hj. destruct (IH j) as (k' & ? & ? & ?); [lia|done|]. exists k'. auto with lia.
  - exists k. split_and!; [done|done|]. intros j Hj HP. apply Hn, Exists_exists. exists j. split; [|done].
    apply elem_of_seq. lia.
Qed.

(** A walk that comes back to where it was never gets anywhere new. *)
Lemma ancestor_cycle x id j h k y :
  j < h → h ≤ k → ancestor j id = Some x → ancestor h id = Some x → ancestor k id = Some y →
  ∃ k', k' < k ∧ ancestor k' id = Some y.
Proof.
  intros Hjh Hhk Hj Hh Hk. exists (j + (k - h)). split; [lia|].
  rewrite ancestor_add, Hj. simpl. replace k with (h + (k - h)) in Hk by lia.
  by rewrite ancestor_add, Hh in Hk.
Qed.

Section History.
Context (base from_hash : text) (len : nat).

(** The state of the loop after [h] steps. *)
Record walked (h : nat) (vis : gset text) (current : text) : Prop := {
  wk_current : ancestor h base = Some current;
  wk_before x : x ∈ vis ↔ ∃ j, j < h ∧ ancestor j base = Some x;
  wk_missed j : j < h → ancestor j base ≠ Some from_hash;
}.

Lemma walked_step h vis current parent :
  walked h vis current → current ≠ from_hash → parent_row current = Some parent →
  walked (S h) ({[current]} ∪ vis) parent.
Proof.
  intros [Hc Hv Hm] Hne Hp. split.
  - replace (S h) with (h + 1) by lia. rewrite ancestor_add, Hc. simpl. by rewrite Hp.
  - intros x. rewrite elem_of_union, elem_of_singleton, Hv. split.
    + intros [->|(j & ? & ?)]; [exists h; auto with lia|exists j; auto with lia].
    + intros (j & Hj & E). destruct (decide (j = h)) as [->|]; [left; congruence|right; exists j; split; [lia|done]].
  - intros j Hj. destruct (decide (j = h)) as [->|]; [congruence|apply Hm; lia].
Qed.

Lemma check_history_sound fuel h vis current :
  walked h vis current → check_history storage max_commits fuel from_hash len h vis current = Ok tt →
  ∃ k, ancestor k base = Some from_hash ∧ (k = h ∨ len + k ≤ max_commits).
Proof.
  revert h vis current. induction fuel as [|fuel IH]; intros h vis current Hw; cbn [check_history];
    (case_bool_decide as E; [intros _; exists h; split; [rewrite (wk_current _ _ _ Hw); by f_equal|by left]|]);
    (case_bool_decide; [done|]);
    (destruct (storage !! current) as [row|] eqn:Er; [|done]);
    (destruct (string_array (parents_id row)) as [[|parent ps]|] eqn:Ep; [by case_match| |done]);
    (destruct (Nat.ltb_spec max_commits (len + S h)) as [|Hl]; [done|]); [done|].
  intros Hc. destruct (IH (S h) ({[current]} ∪ vis) parent) as (k & Hk & Hb); [|done|].
  - apply (walked_step h vis current); [done..|]. unfold parent_row. rewrite Er. cbn. by rewrite Ep.
  - exists k. split; [done|]. right. destruct Hb as [->|]; [done|lia].
Qed.

Lemma check_history_complete fuel h vis current k :
  walked h vis current → h ≤ k → ancestor k base = Some from_hash →
  (∀ j, j < k → ancestor j base ≠ Some from_hash) → len + k ≤ max_commits → k - h ≤ fuel →
  check_history storage max_commits fuel from_hash len h vis current = Ok tt.
Proof.
  revert h vis current. induction fuel as [|fuel IH]; intros h vis current Hw Hhk Hk Hmin Hlen Hf; cbn [check_history];
    (case_bool_decide as E; [done|]);
    (assert (h ≠ k) as Hne by (intros ->; apply E; pose proof (wk_current _ _ _ Hw); congruence)); [lia|].
  rewrite bool_decide_eq_false_2.
  2:{ intros (j & Hj & Ej)%(wk_before _ _ _ Hw).
      destruct (ancestor_cycle current base j h k from_hash Hj Hhk Ej (wk_current _ _ _ Hw) Hk) as (k' & ? & ?).
      by apply (Hmin k'). }
  assert (∃ parent, parent_row current = Some parent) as [parent Hp].
  { replace k with (h + S (k - S h)) in Hk by lia. rewrite ancestor_add, (wk_current _ _ _ Hw) in Hk. simpl in Hk.
    destruct (parent_row current); [by eexists|done]. }
  assert (walked (S h) ({[current]} ∪ vis) parent) as Hw' by (by apply (walked_step h vis current)).
  unfold parent_row in Hp. destruct (storage !! current) as [row|]; [|done]. cbn in Hp.
  destruct (string_array (parents_id row)) as [[|p ps]|]; try done. injection Hp as <-.
  destruct (Nat.ltb_spec max_commits (len + S h)); [lia|]. apply IH; [done|lia|done..|lia].
Qed.

Lemma check_history_ends fuel h vis current :
  max_commits < len + h + fuel →
  answers (check_history storage max_commits fuel from_hash len h vis current).
Proof.
  revert h vis current. induction fuel as [|fuel IH]; intros h vis current Hf; cbn [check_history];
    repeat (case_match; try done).
  - destruct (Nat.ltb_spec max_commits (len + S h)); [done|lia].
  - apply IH. lia.
Qed.
End History.

Lemma validate_spec chain cmd open_cl :
  ordered_commits chain ≠ [] →
  validate storage max_commits chain cmd open_cl = Ok tt ↔
  well_chained cmd chain ∧ ∀ from_hash, open_cl = Some from_hash → history_fits chain from_hash.
Proof.
  intros Hne. unfold validate. destruct chain as [base tip [|c l]]; [done|]. cbn [chain_base chain_tip ordered_commits].
  case_bool_decide as Et; cbn [negb]; [|split; [done|by intros [[] _]]].
  case_bool_decide as Ec; cbn [negb mbind outcome_bind].
  2:{ split; [done|]. intros [[_ (c' & l' & E & Hc & _) _] _]. simpl in E, Hc. congruence. }
  destruct (check_increment base ∅ (c :: l)) as [[]|e| |] eqn:Ei; cbn [mbind outcome_bind].
  2-4: split; [done|]; intros [[_ (c' & l' & E & Hc & Hl) _] _]; simpl in E, Hl; injection E as <- <-;
    rewrite (proj2 (check_increment_exact base ∅ c l) (conj Hl (λ x _, not_elem_of_empty _))) in Ei; done.
  apply check_increment_exact in Ei as [Hl _].
  destruct (Nat.ltb_spec max_commits (length (c :: l))) as [Hlt|Hle].
  { split; [done|]. intros [[_ _ Hm] _]. simpl in Hm, Hlt. lia. }
  assert (well_chained cmd (mk_PushChain base tip (c :: l))) as Hwc by (split; [done|by exists c, l|done]).
  destruct open_cl as [from_hash|]; [|by split].
  assert (walked base from_hash 0 ∅ base) as Hw by (split; [done|set_solver by lia|lia]).
  split.
  - intros Hc. split; [done|]. intros f [= <-].
    destruct (check_history_sound _ _ _ _ _ _ _ Hw Hc) as (k & Hk & [->|Hb]); [exists 0|exists k]; simpl in *; split; (done || lia).
  - intros [_ Hh]. destruct (Hh from_hash eq_refl) as (k & Hk & Hb). cbn [chain_base ordered_commits] in Hk, Hb.
    destruct (min_ex (λ k, ancestor k base = Some from_hash) k Hk) as (k' & Hk' & Hle' & Hmin).
    apply (check_history_complete base from_hash _ _ _ _ _ k'); [done|lia|done..|lia|lia].
Qed.

Lemma validate_ends chain cmd open_cl :
  answers (validate storage max_commits chain cmd open_cl).
Proof.
  unfold validate. case_match; [done|]. apply answers_bind; [by repeat case_match|]. intros [] _.
  apply answers_bind; [apply check_increment_ends|]. intros [] _. destruct (_ <? _) eqn:El; [done|]. destruct open_cl; [|done]. apply check_history_ends. apply Nat.ltb_ge in El. lia.
Qed.
End Spec.

(** ** Resolution *)

(** Rows are stored under their identifiers. *)
Definition commits_keyed (storage : gmap text CommitRow) : Prop :=
  ∀ id row, storage !! id = Some row → commit_id row = id.

Section Resolution.
Context `{GitCommits} {GL : GitLaws}.
Context (storage : gmap text CommitRow) (max_commits : nat) (Hkeyed : commits_keyed storage).

(** A commit that the storage gives back under its identifier. *)
Definition stored_as (c : Commit) : Prop := read_parent storage (oid c) = Ok c.

Lemma read_row_oid h row c :
  commit_id row = hash_to_string h → commit_from_mega_model_with_kind row = Ok c → oid c = hash_to_string h.
Proof.
  intros Hid. unfold commit_from_mega_model_with_kind. destruct (string_array _); [|done]. rewrite Hid, parse_hash_to_string.
  intros (t & Ht & E)%bind_Ok. revert E. intros (i & Hi & E)%bind_Ok.
  simplify_eq. apply bind_Ok in E as (ps & _ & (a & _ & (k & _ & E)%bind_Ok)%bind_Ok).
  destruct (content row); [|done]. by injection E as <-.
Qed.

Lemma read_parent_kept c0 id c :
  first_parent c0 = Some id → read_parent storage id = Ok c → oid c = id ∧ stored_as c.
Proof.
  intros Hp Hr. assert (oid c = id) as <-; [|done]. revert Hr. unfold read_parent.
  unfold first_parent in Hp. destruct (head (c_parents c0)) as [h|]; [|done]. injection Hp as <-.
  destruct (storage !! hash_to_string h) as [row|] eqn:Er; [|done]. rewrite map_err_Ok.
  apply read_row_oid. by apply Hkeyed.
Qed.

Lemma read_parent_ends id : answers (read_parent storage id).
Proof.
  unfold read_parent. destruct (storage !! id) as [row|]; [|done]. apply answers_map_err.
  unfold commit_from_mega_model_with_kind, parse_hash, parse_signature. destruct (string_array _) as [ps|]; [|done].
  repeat (apply answers_bind; [by repeat case_match|intros ? _]).
  apply answers_bind; [apply answers_mapM; intros ?; by case_match|intros ? _].
  repeat (apply answers_bind; [by repeat case_match|intros ? _]). by case_match.
Qed.

Section Walk.
Context (pack new_ids : gset text) (tip : Commit).
Abbreviation tip_new := (bool_decide (oid tip ∈ new_ids)).
Abbreviation is_new c := (bool_decide (oid c ∈ new_ids)).
Abbreviation walk := (walk storage max_commits pack new_ids tip).

Lemma count_parent_ends b len nl kl : answers (count_parent max_commits new_ids tip b len nl kl).
Proof. unfold count_parent. by repeat case_match. Qed.

Lemma walk_ends fuel path nl kl current :
  size pack ≤ length path + fuel → answers (walk fuel path nl kl current).
Proof.
  revert path nl kl current. induction fuel as [|fuel IH]; intros path nl kl current Hf; cbn [PushChain.walk];
    (destruct (first_parent current) as [p|]; [|done]); (destruct (negb _); [done|]);
    apply answers_bind; try apply count_parent_ends; intros [nl' kl'] _.
  - destruct (Nat.leb_spec (size pack) (length path)); [done|lia].
  - destruct (_ <=? _); [done|]. apply answers_bind; [apply read_parent_ends|]. intros c _.
    destruct (_ && _); [done|]. apply IH. rewrite length_app. simpl. lia.
Qed.

Lemma walk_sound fuel path nl kl current path' stop :
  walk fuel path nl kl current = Ok (path', stop) →
  ∃ rest, path' = path ++ rest ∧ linked current rest stop
    ∧ Forall (λ c, oid c ∈ pack ∧ stored_as c) rest ∧ (∀ p, stop = Some p → p ∉ pack).
Proof.
  revert path nl kl current. induction fuel as [|fuel IH]; intros path nl kl current; cbn [PushChain.walk];
    (destruct (first_parent current) as [p|] eqn:Ep;
      [|intros [= <- <-]; exists []; rewrite app_nil_r; split_and!; [done..|constructor|done]]);
    (case_bool_decide as Hp; cbn [negb];
      [|intros [= <- <-]; exists []; rewrite app_nil_r; split_and!; [done..|constructor|by intros ? [= <-]]]);
    intros ([nl' kl'] & _ & E)%bind_Ok; (destruct (_ <=? _); [done|]); [done|].
  apply bind_Ok in E as (c & Hc & E). destruct (read_parent_kept _ _ _ Ep Hc) as [<- Hk].
  destruct (_ && _); [done|]. destruct (IH _ _ _ _ E) as (rest & -> & Hl & Hf & Hs).
  exists (c :: rest). rewrite <-(assoc_L (++)). split_and!; [done|done|by constructor|done].
Qed.

(** The budgets that a walk over [rest] needs. *)
Definition within (len nl kl : nat) (rest : list Commit) : Prop :=
  if tip_new then nl + length (List.filter (λ c, is_new c) rest) ≤ max_commits
                  ∧ kl + length (List.filter (λ c, negb (is_new c)) rest) ≤ max_commits
  else len + length rest ≤ max_commits.

Lemma within_cons len nl kl c rest :
  within len nl kl (c :: rest) →
  ∃ nl' kl', count_parent max_commits new_ids tip (is_new c) len nl kl = Ok (nl', kl') ∧ within (S len) nl' kl' rest.
Proof.
  unfold within, count_parent. destruct tip_new.
  - simpl. destruct (is_new c); simpl; intros [H1 H2].
    + destruct (Nat.leb_spec max_commits nl); [lia|]. exists (S nl), kl. split; [done|]. split; [lia|done].
    + destruct (Nat.leb_spec max_commits kl); [lia|]. exists nl, (S kl). split; [done|]. split; [done|lia].
  - simpl. intros Hl. destruct (Nat.leb_spec max_commits len); [lia|]. exists nl, kl. split; [done|lia].
Qed.

Lemma walk_complete fuel path nl kl current rest stop :
  linked current rest stop → Forall (λ c, oid c ∈ pack ∧ stored_as c) rest →
  (∀ p, stop = Some p → p ∉ pack) → within (length path) nl kl rest →
  Forall (λ c, (if tip_new then is_new c else true) = true → is_merge c = false) rest →
  length path + length rest ≤ size pack → length rest ≤ fuel →
  walk fuel path nl kl current = Ok (path ++ rest, stop).
Proof.
  revert fuel path nl kl current. induction rest as [|c rest IH]; intros fuel path nl kl current Hl Hf Hs Hw Hm Hsz Hfu.
  - rewrite app_nil_r. simpl in Hl. destruct fuel; cbn [PushChain.walk]; rewrite Hl;
      (destruct stop as [p|]; [|done]); by rewrite bool_decide_eq_false_2 by auto.
  - destruct fuel as [|fuel]; [simpl in Hfu; lia|]. destruct Hl as [Hp Hl]. apply Forall_cons in Hf as [[Hc Hk] Hf].
    apply Forall_cons in Hm as [Hm1 Hm]. simpl in Hsz, Hfu. cbn [PushChain.walk]. rewrite Hp, bool_decide_eq_true_2 by done. cbn [negb].
    destruct (within_cons _ _ _ _ _ Hw) as (nl' & kl' & -> & Hw'). cbn [mbind outcome_bind fst snd].
    destruct (Nat.leb_spec (size pack) (length path)); [lia|]. rewrite Hk. cbn [mbind outcome_bind].
    rewrite (proj2 (andb_false_iff _ _)).
    2:{ destruct (if tip_new then _ else _) eqn:E; [right; by apply Hm1|by left]. }
    rewrite (IH fuel (path ++ [c]) nl' kl' c); [by rewrite <-(assoc_L (++))|done..| |done| |lia];
      rewrite length_app; simpl; [by rewrite Nat.add_1_r|lia].
Qed.

Lemma split_known_spec path :
  ∃ k, path = (split_known new_ids path).1 ++ k
    ∧ Forall (λ c, oid c ∈ new_ids) (split_known new_ids path).1
    ∧ (split_known new_ids path).2 = oid <$> head k ∧ (∀ c, head k = Some c → oid c ∉ new_ids).
Proof.
  induction path as [|c path IH]; [by exists []|]. simpl. case_bool_decide as Hc.
  - destruct (split_known new_ids path) as [new known]. destruct IH as (k & Ek & Hf & Eh & Hn). simpl in *.
    exists k. split_and!; [by rewrite Ek|by constructor|done|done].
  - exists (c :: path). split_and!; [done|constructor|done|by intros ? [= <-]].
Qed.

Lemma split_known_app commits known :
  Forall (λ c, oid c ∈ new_ids) commits → (∀ c, head known = Some c → oid c ∉ new_ids) →
  split_known new_ids (commits ++ known) = (commits, oid <$> head known).
Proof.
  intros Hc Hk. induction Hc as [|c commits Hc _ IH]; simpl.
  - destruct known as [|c known]; [done|]. simpl. by rewrite bool_decide_eq_false_2 by (by apply Hk).
  - by rewrite bool_decide_eq_true_2, IH by done.
Qed.
End Walk.

Lemma resolve_ends cmd pack new_ids tip_commit : answers (resolve storage max_commits cmd pack new_ids tip_commit).
Proof.
  unfold resolve. destruct (negb _), tip_commit as [tip|]; try done.
  destruct (negb _); [done|]. destruct (is_merge tip); [done|]. apply answers_bind; [apply walk_ends; simpl; lia|].
  intros [path stop] _. destruct (negb _); [done|]. destruct (increment _ _ _ _) as [commits fork].
  apply answers_bind; [by repeat case_match|done].
Qed.

Lemma increment_spec new_ids tip rest stop commits fork :
  increment new_ids tip (tip :: rest) stop = (commits, fork) →
  commits ≠ [] ∧ commits `prefix_of` tip :: rest
  ∧ (oid tip ∈ new_ids → Forall (λ c, oid c ∈ new_ids) commits).
Proof.
  unfold increment. case_bool_decide as Ht; [|by intros [= <- <-]].
  destruct (split_known_spec new_ids (tip :: rest)) as (k & Ek & Hf & Eh & _).
  destruct (split_known new_ids (tip :: rest)) as [new known] eqn:E. cbn [fst snd] in *.
  destruct known as [o|]; intros [= <- <-].
  - split_and!; [|by exists k|done]. simpl in E. rewrite bool_decide_eq_true_2 in E by done.
    destruct (split_known new_ids rest). by injection E as <-.
  - destruct k; [|done]. rewrite app_nil_r in Ek. rewrite Ek in *. split_and!; [|done|done]. by rewrite <-Ek.
Qed.

Lemma resolve_noop cmd pack new_ids tip_commit :
  resolve storage max_commits cmd pack new_ids tip_commit = Ok Noop → pack = ∅.
Proof.
  unfold resolve. case_bool_decide as E; [done|]. cbn [negb]. destruct tip_commit as [tip|]; [|done].
  destruct (negb _); [done|]. destruct (is_merge tip); [done|]. intros ([path stop] & _ & Er)%bind_Ok.
  destruct (negb _); [done|]. destruct (increment _ _ _ _). by apply bind_Ok in Er as (b & _ & Er).
Qed.

(** What the resolution has found, before the checks. *)
Lemma resolve_sound cmd pack new_ids tip chain :
  resolve storage max_commits cmd pack new_ids (Some tip) = Ok (Chain chain) →
  chain_tip chain = tip
  ∧ (∃ rest stop, linked tip rest stop ∧ Forall stored_as rest ∧ pack = list_to_set (oid <$> tip :: rest)
       ∧ ordered_commits chain `prefix_of` tip :: rest)
  ∧ ordered_commits chain ≠ []
  ∧ (oid tip ∈ new_ids → Forall (λ c, oid c ∈ new_ids) (ordered_commits chain))
  ∧ (if is_protocol_zero_id (rc_old_id cmd) then is_Some (storage !! chain_base chain)
     else chain_base chain = rc_old_id cmd).
Proof.
  unfold resolve. destruct (negb _); [|done]. case_bool_decide as Ht; cbn [negb]; [|done].
  destruct (is_merge tip); [done|]. intros ([path stop] & Hw & E)%bind_Ok.
  apply walk_sound in Hw as (rest & -> & Hl & Hf & Hs). change ([tip] ++ rest) with (tip :: rest) in E.
  case_bool_decide as Hj; cbn [negb] in E; [|done].
  destruct (increment _ _ _ _) as [commits fork] eqn:Ei. apply increment_spec in Ei as (Hne & Hpre & Hnew).
  apply bind_Ok in E as (base & Hb & [= <-]). cbn [chain_tip ordered_commits chain_base]. split_and!; [done| |done..|].
  - exists rest, stop. split_and!; [done| | |done].
    + eapply Forall_impl; [exact Hf|]. by intros ? [].
    + apply set_eq. intros x. split.
      * intros Hx. destruct (decide (x ∈ (list_to_set (oid <$> tip :: rest) : gset text))) as [|Hn]; [done|].
        exfalso. assert (x ∈ junk pack (tip :: rest)) as Hj' by (apply elem_of_difference; done). rewrite Hj in Hj'. set_solver.
      * rewrite elem_of_list_to_set, fmap_cons, elem_of_cons. intros [->|(c & -> & Hc)%list_elem_of_fmap]; [done|].
        rewrite Forall_forall in Hf. by apply Hf.
  - destruct (is_protocol_zero_id _); cbn [negb] in Hb; [|by injection Hb as <-].
    destruct fork as [fork|]; [|done]. case_bool_decide as Hs'; [done|]. injection Hb as <-. by apply not_eq_None_Some.
Qed.

(** The base that the command or the fork gives. *)
Definition base_of (cmd : RefCommand) (fork : option text) : outcome ChainError text :=
  if negb (is_protocol_zero_id (rc_old_id cmd)) then Ok (rc_old_id cmd)
  else match fork with
  | None => Err OrphanChain
  | Some fork => if bool_decide (storage !! fork = None) then Err (BaseUnknown fork) else Ok fork
  end.

(** A base that a push from [base] may have. *)
Definition base_ok (cmd : RefCommand) (base : text) : Prop :=
  if is_protocol_zero_id (rc_old_id cmd) then is_Some (storage !! base) else base = rc_old_id cmd.

Lemma base_of_ok cmd base : base_ok cmd base → base_of cmd (Some base) = Ok base.
Proof.
  unfold base_ok, base_of. destruct (is_protocol_zero_id _); simpl; [|by intros ->].
  intros [row Hr]. by rewrite bool_decide_eq_false_2 by congruence.
Qed.

(** A pack that carries a path of first parents and nothing else. *)
Record carries (pack : gset text) (tip : Commit) (rest : list Commit) (stop : option text) : Prop := {
  cr_linked : linked tip rest stop;
  cr_nodup : NoDup (oid <$> tip :: rest);
  cr_kept : Forall stored_as rest;
  cr_pack : pack = list_to_set (oid <$> tip :: rest);
  cr_stop p : stop = Some p → p ∉ pack;
}.

Lemma resolve_path cmd pack new_ids tip rest stop :
  carries pack tip rest stop → is_merge tip = false → within new_ids tip 1 1 0 rest →
  Forall (λ c, (if bool_decide (oid tip ∈ new_ids) then bool_decide (oid c ∈ new_ids) else true) = true →
    is_merge c = false) rest →
  resolve storage max_commits cmd pack new_ids (Some tip) =
  let '(commits, fork) := increment new_ids tip (tip :: rest) stop in
  base ← base_of cmd fork; Ok (Chain (mk_PushChain base tip commits)).
Proof.
  clear Hkeyed GL. intros [Hl Hn Hk Hp Hs] Hm Hw Hc. unfold resolve.
  assert (oid tip ∈ pack) as Ht by (rewrite Hp; set_solver).
  rewrite bool_decide_eq_false_2 by set_solver. cbn [negb]. rewrite bool_decide_eq_true_2 by done. cbn [negb]. rewrite Hm.
  rewrite (walk_complete pack new_ids tip (size pack) [tip] 1 0 tip rest stop); [|done|..|done|done|done| |].
  - cbn [mbind outcome_bind]. change ([tip] ++ rest) with (tip :: rest).
    rewrite bool_decide_eq_true_2; [|unfold junk; rewrite Hp; set_solver]. cbn [negb].
    by destruct (increment _ _ _ _).
  - rewrite Forall_forall in Hk |- *. intros c Hin. split; [|by apply Hk]. rewrite Hp. apply elem_of_list_to_set.
    right. by apply list_elem_of_fmap_2.
  - rewrite Hp, size_list_to_set, length_fmap by done. simpl. lia.
  - rewrite Hp, size_list_to_set, length_fmap by done. simpl. lia.
Qed.

Lemma filter_all {A} (p : A → bool) l : Forall (λ a, p a = true) l → List.filter p l = l.
Proof. induction 1 as [|a l Ha _ IH]; simpl; [done|]. by rewrite Ha, IH. Qed.

Lemma filter_none {A} (p : A → bool) l : Forall (λ a, p a = false) l → List.filter p l = [].
Proof. induction 1 as [|a l Ha _ IH]; simpl; [done|]. by rewrite Ha. Qed.

(** [tip :: l] is what the push adds, [known] what its pack carries beyond that. *)
Lemma resolve_first cmd pack new_ids tip l known base stop :
  carries pack tip (l ++ known) stop → linked tip l (Some base) → Forall (λ c, is_merge c = false) (tip :: l) →
  length (tip :: l) ≤ max_commits → length known ≤ max_commits →
  Forall (λ c, oid c ∈ new_ids) (tip :: l) → Forall (λ c, oid c ∉ new_ids) known → base_ok cmd base →
  resolve storage max_commits cmd pack new_ids (Some tip) = Ok (Chain (mk_PushChain base tip (tip :: l))).
Proof.
  intros Hc Hl Hm Hlen Hlen' Hnew Hknown Hb. apply Forall_cons in Hm as [Hmt Hm].
  pose proof Hnew as [Ht Hnl]%Forall_cons. rewrite (resolve_path _ _ _ _ (l ++ known) stop Hc Hmt).
  - unfold increment. rewrite bool_decide_eq_true_2 by done. change (tip :: l ++ known) with ((tip :: l) ++ known).
    rewrite split_known_app; [|done|].
    2:{ intros c Hh. rewrite Forall_forall in Hknown. apply Hknown. by apply head_Some_elem_of. }
    pose proof (cr_linked _ _ _ _ Hc) as Hl'. rewrite linked_app in Hl'. destruct known as [|x known]; simpl.
    + rewrite app_nil_r. rewrite <-(linked_det _ _ _ _ Hl Hl'). by rewrite base_of_ok.
    + destruct Hl' as [Hl' _]. injection (linked_det _ _ _ _ Hl Hl') as ->. by rewrite base_of_ok.
  - assert (Forall (λ c, bool_decide (oid c ∈ new_ids) = true) l ∧ Forall (λ c, bool_decide (oid c ∈ new_ids) = false) known)
      as [Hl1 Hk1].
    { split; [eapply Forall_impl; [exact Hnl|]|eapply Forall_impl; [exact Hknown|]]; intros c; by case_bool_decide. }
    assert (∀ (b : bool) k, Forall (λ c, bool_decide (oid c ∈ new_ids) = b) k →
      Forall (λ c, negb (bool_decide (oid c ∈ new_ids)) = negb b) k) as Hneg.
    { intros b k Hk. eapply Forall_impl; [exact Hk|]. by intros c ->. }
    unfold within. rewrite bool_decide_eq_true_2, !List.filter_app by done.
    rewrite (filter_all _ l Hl1), (filter_none _ known Hk1), (filter_none _ l (Hneg true l Hl1)).
    rewrite (filter_all _ known (Hneg false known Hk1)), !length_app. simpl in *. lia.
  - rewrite bool_decide_eq_true_2 by done. apply Forall_app. split.
    + eapply Forall_impl; [exact Hm|]. done.
    + eapply Forall_impl; [exact Hknown|]. intros c ? ?. by case_bool_decide.
Qed.

(** A push whose tip is known: the whole path is what it claims. *)
Lemma resolve_again cmd pack new_ids tip rest base stop :
  carries pack tip rest stop → Forall (λ c, is_merge c = false) (tip :: rest) →
  length (tip :: rest) ≤ max_commits → oid tip ∉ new_ids → base_of cmd stop = Ok base →
  resolve storage max_commits cmd pack new_ids (Some tip) = Ok (Chain (mk_PushChain base tip (tip :: rest))).
Proof.
  intros Hc Hm Hlen Ht Hb. apply Forall_cons in Hm as [Hmt Hm].
  rewrite (resolve_path _ _ _ _ rest stop Hc Hmt).
  - unfold increment. rewrite bool_decide_eq_false_2 by done. by rewrite Hb.
  - unfold within. rewrite bool_decide_eq_false_2 by done. simpl in Hlen. lia.
  - rewrite bool_decide_eq_false_2 by done. eapply Forall_impl; [exact Hm|]. done.
Qed.

(** ** Known tips *)

Lemma known_walk_ends fuel cmd path current :
  max_commits < length path + fuel → answers (known_walk storage max_commits fuel cmd path current).
Proof.
  revert path current. induction fuel as [|fuel IH]; intros path current Hf; cbn [known_walk];
    (destruct (Nat.ltb_spec max_commits (length path)); [done|]); [lia|].
  destruct (first_parent current) as [p|]; [|done]. case_match; [done|].
  apply answers_bind; [apply read_parent_ends|]. intros c _. apply IH. rewrite length_app. simpl. lia.
Qed.

Lemma from_known_tip_ends cmd tip : answers (from_known_tip storage max_commits cmd tip).
Proof.
  unfold from_known_tip. repeat (case_match; [done|]). apply answers_bind; [|done]. apply known_walk_ends. simpl. lia.
Qed.

Lemma known_walk_sound fuel cmd path current path' :
  known_walk storage max_commits fuel cmd path current = Ok path' →
  ∃ rest, path' = path ++ rest ∧ linked current rest (Some (rc_old_id cmd)) ∧ Forall stored_as rest.
Proof.
  revert path current. induction fuel as [|fuel IH]; intros path current; cbn [known_walk];
    (destruct (_ <? _); [done|]); (destruct (first_parent current) as [p|] eqn:Ep; [|done]);
    (case_bool_decide as E; [intros [= <-]; exists []; rewrite app_nil_r; subst; by split_and!|]); [done|].
  intros (c & Hc & Hw)%bind_Ok. destruct (read_parent_kept _ _ _ Ep Hc) as [<- Hk].
  destruct (IH _ _ Hw) as (rest & -> & Hl & Hf). exists (c :: rest). rewrite <-(assoc_L (++)).
  split_and!; [done|done|by constructor].
Qed.

Lemma known_walk_complete fuel cmd path current rest :
  linked current rest (Some (rc_old_id cmd)) → Forall stored_as rest → Forall (λ c, oid c ≠ rc_old_id cmd) rest →
  length path + length rest ≤ max_commits → length rest ≤ fuel →
  known_walk storage max_commits fuel cmd path current = Ok (path ++ rest).
Proof.
  revert fuel path current. induction rest as [|c rest IH]; intros fuel path current Hl Hk Ho Hm Hf.
  - simpl in Hl, Hm. rewrite app_nil_r. destruct fuel; cbn [known_walk];
      (destruct (Nat.ltb_spec max_commits (length path)); [lia|]); by rewrite Hl, bool_decide_eq_true_2 by done.
  - destruct fuel as [|fuel]; [simpl in Hf; lia|]. destruct Hl as [Hp Hl]. simpl in Hm, Hf.
    apply Forall_cons in Hk as [Hkc Hk], Ho as [Hoc Ho]. cbn [known_walk].
    destruct (Nat.ltb_spec max_commits (length path)); [lia|]. rewrite Hp, bool_decide_eq_false_2 by done.
    rewrite Hkc. cbn [mbind outcome_bind]. rewrite IH; [by rewrite <-(assoc_L (++))|done..| |lia].
    rewrite length_app. simpl. lia.
Qed.

(** With no old tip to meet, the walk goes down to the root, or past the limit. *)
Lemma known_walk_orphan fuel cmd path current rest :
  is_protocol_zero_id (rc_old_id cmd) = true → linked current rest None → Forall stored_as rest →
  Forall (λ c, oid c ≠ rc_old_id cmd) rest → max_commits < length path + fuel →
  known_walk storage max_commits fuel cmd path current =
    Err (if max_commits <? length path + length rest then TooManyCommits else OrphanChain).
Proof.
  intros Hz. revert fuel path current. induction rest as [|c rest IH]; intros fuel path current Hl Hk Ho Hf.
  - simpl in Hl. rewrite Nat.add_0_r. destruct fuel; cbn [known_walk]; (destruct (max_commits <? length path); [done|]);
      by rewrite Hl, Hz.
  - destruct Hl as [Hp Hl]. apply Forall_cons in Hk as [Hkc Hk], Ho as [Hoc Ho].
    destruct (Nat.ltb_spec max_commits (length path)) as [Hlt|Hle].
    + assert ((max_commits <? length path + length (c :: rest)) = true) as -> by (apply Nat.ltb_lt; lia).
      apply Nat.ltb_lt in Hlt. destruct fuel; cbn [known_walk]; by rewrite Hlt.
    + destruct fuel as [|fuel]; [lia|]. cbn [known_walk]. rewrite (proj2 (Nat.ltb_ge _ _)) by lia.
      rewrite Hp, bool_decide_eq_false_2 by done. rewrite Hkc. cbn [mbind outcome_bind].
      rewrite IH; [|done..|rewrite length_app; simpl; lia]. rewrite length_app. simpl. by rewrite <-(Nat.add_assoc _ 1).
Qed.
End Resolution.

(** ** The theorems *)

(** The chain of a push: from its pack, or from its tip when the pack is empty. *)
Definition chain_of `{GitCommits} (storage : gmap text CommitRow) (max_commits : nat) (cmd : RefCommand) (pack new_ids : gset text) (tip : Commit)
    : outcome ChainError PushChain :=
  match resolve storage max_commits cmd pack new_ids (Some tip) with
  | Ok (Chain chain) => Ok chain
  | Ok Noop => from_known_tip storage max_commits cmd tip
  | Err e => Err e
  | Panic => Panic
  | OutOfFuel => OutOfFuel
  end.

Lemma chain_of_empty `{GitCommits} (storage : gmap text CommitRow) (max_commits : nat) cmd new_ids tip :
  oid tip = rc_new_id cmd → rc_old_id cmd ≠ rc_new_id cmd →
  chain_of storage max_commits cmd ∅ new_ids tip =
    path ← known_walk storage max_commits max_commits cmd [tip] tip; Ok (mk_PushChain (rc_old_id cmd) tip path).
Proof.
  intros Ht Hno. unfold chain_of, resolve. rewrite bool_decide_eq_true_2 by done. cbn [negb].
  unfold from_known_tip. rewrite bool_decide_eq_true_2 by done. cbn [negb]. by rewrite bool_decide_eq_false_2.
Qed.

Lemma chain_of_ends `{GitCommits} (storage : gmap text CommitRow) (max_commits : nat) cmd pack new_ids tip :
  answers (chain_of storage max_commits cmd pack new_ids tip).
Proof.
  unfold chain_of. pose proof (resolve_ends storage max_commits cmd pack new_ids (Some tip)) as Hends.
  destruct (resolve _ _ _ _ _ _) as [[]| | |]; try done. apply from_known_tip_ends.
Qed.

(** What is known of a chain that has been found. *)
Record found `{GitCommits} (storage : gmap text CommitRow) (cmd : RefCommand) (pack : gset text) (tip : Commit)
    (chain : PushChain) : Prop := {
  fd_tip : chain_tip chain = tip;
  fd_some : ordered_commits chain ≠ [];
  fd_kept : Forall (stored_as storage) (tail (ordered_commits chain));
  fd_base : if is_protocol_zero_id (rc_old_id cmd) && negb (bool_decide (pack = ∅))
            then is_Some (storage !! chain_base chain) else chain_base chain = rc_old_id cmd;
  fd_pack : pack ≠ ∅ → ∃ rest stop, linked tip rest stop ∧ pack = list_to_set (oid <$> tip :: rest)
              ∧ ordered_commits chain `prefix_of` tip :: rest;
}.

Lemma chain_of_found `{GitCommits} {GL : GitLaws} (storage : gmap text CommitRow) (max_commits : nat)
    cmd pack new_ids tip chain :
  commits_keyed storage → rc_old_id cmd ≠ rc_new_id cmd →
  chain_of storage max_commits cmd pack new_ids tip = Ok chain → found storage cmd pack tip chain.
Proof.
  intros Hkey Hne. unfold chain_of.
  destruct (resolve storage max_commits cmd pack new_ids (Some tip)) as [[ch|]|e| |] eqn:Er; try done.
  - intros [= ->].
    apply (resolve_sound storage max_commits Hkey) in Er as (Ht & (rest & stop & Hl & Hk & Hp & Hpre) & Ho & _ & Hb).
    split; [done|done| | |by intros _; exists rest, stop].
    + destruct Hpre as [k Hk']. destruct (ordered_commits chain) as [|c l]; [done|]. injection Hk' as <- ->.
      by apply Forall_app in Hk as [Hk _].
    + rewrite bool_decide_eq_false_2, andb_true_r by (rewrite Hp; set_solver). done.
  - intros Hc. apply resolve_noop in Er as ->.
    unfold from_known_tip in Hc. case_bool_decide as Et; cbn [negb] in Hc; [|done].
    rewrite bool_decide_eq_false_2 in Hc by done. apply bind_Ok in Hc as (path & Hw & [= <-]).
    destruct (known_walk_sound storage max_commits Hkey _ _ _ _ _ Hw) as (rest & -> & Hl & Hk).
    split; [done|done|done| |done]. by rewrite andb_false_r.
Qed.

(** C13: a push that is accepted is what it says.  Whatever the pack carries, the chain and
    its checks return; and a chain that passes consists of distinct commits with one
    parent, at most as many as the limit, from the tip that the command names down to a
    child of the base, those below the tip, which the caller has read, all stored; the base is the old tip of the command, or for a new
    branch with commits a stored commit; with commits in the pack, the pack carries this
    chain and ancestors of it and nothing else; and with a change list, its history from
    the base is there and the whole fits the limit.  Nothing else is needed: a chain that
    was found passes when it is of this form. *)
Theorem push_chain_sound `{GitCommits} {GL : GitLaws} (storage : gmap text CommitRow) (max_commits : nat)
    cmd pack new_ids tip open_cl :
  commits_keyed storage → rc_old_id cmd ≠ rc_new_id cmd →
  answers (chain_of storage max_commits cmd pack new_ids tip)
  ∧ ∀ chain, chain_of storage max_commits cmd pack new_ids tip = Ok chain →
    answers (validate storage max_commits chain cmd open_cl) ∧ found storage cmd pack tip chain
    ∧ (validate storage max_commits chain cmd open_cl = Ok tt ↔
         well_chained max_commits cmd chain
         ∧ ∀ from_hash, open_cl = Some from_hash → history_fits storage max_commits chain from_hash).
Proof.
  intros Hkey Hne. split; [apply chain_of_ends|]. intros chain Hc.
  pose proof (chain_of_found _ _ _ _ _ _ _ Hkey Hne Hc) as Hf.
  split; [apply validate_ends|]. split; [done|]. apply validate_spec, Hf.
Qed.

(** C22: a push that is what it says is accepted.  A linear chain of commits within the
    limit, from the tip of the command to its old tip, or to a stored commit for a new
    branch, passes the checks, and is found in three cases: its commits are new and the pack
    carries them with at most [max_commits] known ancestors; the same pack without ancestors
    comes again; and, for a branch that has an old tip, the pack is empty because everything
    is known.  For a new branch an empty pack is never accepted: with the history down to the
    root stored, the chain is refused as an orphan, or as too long. *)
Theorem push_chain_accepts `{GitCommits} (storage : gmap text CommitRow) (max_commits : nat)
    cmd pack new_ids tip l known base stop open_cl :
  oid tip = rc_new_id cmd → linear tip l base → length (tip :: l) ≤ max_commits → base_ok storage cmd base →
  (∀ from_hash, open_cl = Some from_hash →
     ∃ k, ancestor storage k base = Some from_hash ∧ length (tip :: l) + k ≤ max_commits) →
  let chain := mk_PushChain base tip (tip :: l) in
  validate storage max_commits chain cmd open_cl = Ok tt
  ∧ (carries storage pack tip (l ++ known) stop → length known ≤ max_commits →
     Forall (λ c, oid c ∈ new_ids) (tip :: l) ∧ Forall (λ c, oid c ∉ new_ids) known
     ∨ known = [] ∧ oid tip ∉ new_ids →
     chain_of storage max_commits cmd pack new_ids tip = Ok chain)
  ∧ (is_protocol_zero_id (rc_old_id cmd) = false → Forall (stored_as storage) l → base ∉ oid <$> tip :: l →
     chain_of storage max_commits cmd ∅ new_ids tip = Ok chain)
  ∧ (∀ history, is_protocol_zero_id (rc_old_id cmd) = true → linked tip (l ++ history) None →
     Forall (stored_as storage) (l ++ history) → rc_old_id cmd ∉ oid <$> tip :: l ++ history →
     chain_of storage max_commits cmd ∅ new_ids tip
     = Err (if max_commits <? length (tip :: l ++ history) then TooManyCommits else OrphanChain)).
Proof.
  intros Ht Hlin Hlen Hb Hh chain. split_and!.
  - rewrite validate_spec by done. split; [|done]. split; [done|by exists tip, l|done].
  - intros Hc Hlen' Hcase. unfold chain_of. destruct Hcase as [[Hnew Hkn]|[-> Hn]].
    + by rewrite (resolve_first storage max_commits cmd pack new_ids tip l known base stop) by (done || by destruct Hlin).
    + rewrite app_nil_r in Hc.
      rewrite (resolve_again storage max_commits cmd pack new_ids tip l base stop); [done|done|by destruct Hlin|done|done|].
      rewrite (linked_det _ _ _ _ (cr_linked _ _ _ _ _ Hc) (lin_linked _ _ _ Hlin)). by apply base_of_ok.
  - intros Hz Hk Hno. unfold base_ok in Hb. rewrite Hz in Hb. subst base.
    rewrite fmap_cons, not_elem_of_cons in Hno. destruct Hno as [Hnt Hno]. rewrite chain_of_empty by (done || congruence).
    rewrite (known_walk_complete storage max_commits max_commits cmd [tip] tip l); [done|by destruct Hlin|done| |simpl in *; lia..].
    rewrite Forall_forall. intros c Hc E. apply Hno. rewrite <-E. by apply list_elem_of_fmap_2.
  - intros history Hz Hlk Hk Hno. rewrite fmap_cons, not_elem_of_cons in Hno. destruct Hno as [Hnt Hno].
    rewrite chain_of_empty by (done || congruence).
    rewrite (known_walk_orphan storage max_commits max_commits cmd [tip] tip (l ++ history)); [done..| |simpl; lia].
    rewrite Forall_forall. intros c Hc E. apply Hno. rewrite <-E. by apply list_elem_of_fmap_2.
Qed.

(** C39: a push that landed is refused when it is sent again with the same pack, if the pack
    carries an ancestor that the server had: the first time the chain ends at the known
    ancestor; the second time, with everything known, the ancestor counts as part of the
    chain, which then does not end at the old tip. *)
Theorem retried_push_refused `{GitCommits} (storage : gmap text CommitRow) (max_commits : nat)
    cmd pack new_ids tip l x known stop :
  oid tip = rc_new_id cmd → is_protocol_zero_id (rc_old_id cmd) = false → oid x = rc_old_id cmd →
  carries storage pack tip (l ++ x :: known) stop → Forall (λ c, is_merge c = false) (tip :: l ++ x :: known) →
  length (tip :: l ++ x :: known) ≤ max_commits →
  Forall (λ c, oid c ∈ new_ids) (tip :: l) → Forall (λ c, oid c ∉ new_ids) (x :: known) →
  (∃ chain, chain_of storage max_commits cmd pack new_ids tip = Ok chain
     ∧ validate storage max_commits chain cmd None = Ok tt)
  ∧ (∃ chain, chain_of storage max_commits cmd pack ∅ tip = Ok chain
     ∧ validate storage max_commits chain cmd None = Err BaseNotOnChain).
Proof.
  intros Ht Hz Hx Hc Hm Hlen Hnew Hkn. assert (base_ok storage cmd (oid x)) as Hb by (unfold base_ok; by rewrite Hz).
  pose proof (cr_linked _ _ _ _ _ Hc) as [Hl _]%linked_app. pose proof (cr_nodup _ _ _ _ _ Hc) as Hn.
  pose proof Hm as Hm'. rewrite app_comm_cons in Hn, Hm'. apply Forall_app in Hm' as [Hm1 _].
  simpl in Hlen. rewrite length_app in Hlen. simpl in Hlen. split.
  - eexists. unfold chain_of. rewrite (resolve_first storage max_commits cmd pack new_ids tip l (x :: known) (oid x) stop);
      try done; [|simpl; lia..]. split; [done|]. rewrite validate_spec by done. split; [|done].
    split; [done| |simpl; lia]. exists tip, l. split_and!; [done..|]. split; [done| |done].
    rewrite fmap_app in Hn. by apply NoDup_app in Hn as [Hn _].
  - eexists. unfold chain_of. rewrite (resolve_again storage max_commits cmd pack ∅ tip (l ++ x :: known) (oid x) stop);
      [|done|done|simpl; rewrite length_app; simpl; lia|set_solver|unfold base_of; rewrite Hz, Hx; done].
    split; [done|]. unfold validate. cbn [chain_tip ordered_commits chain_base]. rewrite !bool_decide_eq_true_2 by done.
    cbn [negb mbind outcome_bind]. rewrite (check_increment_off _ _ _ _ stop); [done|apply Hc| |apply Hc|done|set_solver].
    intros ->. apply (cr_stop _ _ _ _ _ Hc (oid x) eq_refl). rewrite (cr_pack _ _ _ _ _ Hc). set_solver.
Qed.

(** A push to the tip that the branch has: its chain does not pass the checks. *)
Lemma repush_invalid `{GitCommits} (storage : gmap text CommitRow) (max_commits : nat) cmd tip open_cl :
  oid tip = rc_new_id cmd → rc_old_id cmd = rc_new_id cmd → first_parent tip ≠ Some (oid tip) →
  ∃ chain, from_known_tip storage max_commits cmd tip = Ok chain
    ∧ ∀ u, validate storage max_commits chain cmd open_cl ≠ Ok u.
Proof.
  intros Ht Ho Hp. eexists. split.
  - unfold from_known_tip. by rewrite !bool_decide_eq_true_2 by congruence.
  - intros []. rewrite validate_spec by done. intros [[_ (c & l & E & _ & [Hl _ _]) _] _].
    cbn [ordered_commits chain_base] in E, Hl. injection E as <- <-. simpl in Hl. rewrite Ho, <-Ht in Hl. done.
Qed.
