(* ===== verification/TrunkReceive.v ===== *)
(** * Receiving a push

    Models the part of [src/ceres/pack/monorepo.rs] that decides on a received push,
    [validate_incoming_push], [build_push_chain] with its cache, [trunk_creation_path]
    and [finalize_trunk_push], and [src/ceres/pack/api_tip_lander.rs], which enters the
    push into the queue, waits for it and executes it.

    What other connections commit meanwhile is given with each turn of the loop ([Round]).
    The change of a final error message ([typed_creation_rejection],
    [trunk_align_finalize_err]) is not modelled. *)
From stdpp Require Import base strings sets numbers tactics list gmap.
From S2P Require Import Prelude Text CommitMessage CanonicalJson GitObjects ViewCommit GitCommits MonoPath MonoRefs MonoTrees.
From S2P Require Import TreeOps QueueTables PushQueue TrunkPush PushQueueService PushChain.

(** ** The gate *)

Record Receive := mk_Receive {
  rv_policy : PushPolicy;
  rv_config : MonoConfig;
  rv_max_push_commits : nat;
  rv_path : text;
  rv_username : option text;
  rv_pack_commit_ids : gset text;
  rv_new_commit_ids : gset text;
  rv_commands : list RefCommand;
  (** [from_hash] of the change list that [get_open_cl_by_path] finds *)
  rv_open_cl : option text;
}.

(** What the client is told besides the status. *)
Inductive Notice := NothingNew (new_id : text) | SquashLanded (landed : text).

Inductive LandError :=
  | LandService (e : ServiceError)
  | ReplayMissing
  | LandAbandoned (id : Z)
  | LandRejected (id : Z) (message : option text)
  | LandFailed (message : text)
  | LandHardStopped (id : Z)
  | LandBypass (id : Z)
  | FollowExceeded.

Inductive ReceiveError :=
  | ManyBranchUpdates (n : nat)
  | TrunkRefRejected (ref_name : text)
  | CreationRefused (e : PathPolicyError)
  | PathUninitialized (path : text)
  | RvChain (e : ChainError)
  | RvConvert (e : ConvertError)
  | RvMono (e : MonoError)
  | TrunkDeleteRejected
  | ChainExpected
  | RvLand (e : LandError).

Definition MAX_CL_CHAIN_COMMITS : nat := 250.

Section Receive.
Context `{GitCommits}.

(** The cache of chains and the notice. *)
Record ReceiveState := mk_ReceiveState {
  push_chain_cache : gmap text (option PushChain);
  no_op_notice : option Notice;
}.

Context (rv : Receive).

Definition is_trunk : bool := match rv_policy rv with PolicyTrunk => true | PolicyReview => false end.

Definition chain_commit_limit : nat := if is_trunk then rv_max_push_commits rv else MAX_CL_CHAIN_COMMITS.

Definition stored_tip (db : MonoDb) (id : text) : outcome ReceiveError (option Commit) :=
  match mega_commit db !! id with
  | None => Ok None
  | Some model => c ← map_err RvConvert (commit_from_mega_model_with_kind model); Ok (Some c)
  end.

(** A chain that is not in the cache. *)
Definition resolve_push_chain (db : MonoDb) (cmd : RefCommand)
    : outcome ReceiveError (option PushChain * option Notice) :=
  tip_commit ← stored_tip db (rc_new_id cmd);
  resolution ← map_err RvChain (resolve (mega_commit db) chain_commit_limit cmd (rv_pack_commit_ids rv)
                 (rv_new_commit_ids rv) tip_commit);
  match resolution with
  | Chain chain => Ok (Some chain, None)
  | Noop =>
      if is_trunk then
        match tip_commit with
        | None => Err ChainExpected
        | Some tip =>
            chain ← map_err RvChain (from_known_tip (mega_commit db) chain_commit_limit cmd tip);
            Ok (Some chain, None)
        end
      else Ok (None, Some (NothingNew (rc_new_id cmd)))
  end.

Definition build_push_chain (db : MonoDb) (st : ReceiveState) (cmd : RefCommand)
    : ReceiveState * outcome ReceiveError (option PushChain) :=
  match push_chain_cache st !! rc_new_id cmd with
  | Some cached => (st, Ok cached)
  | None =>
      match resolve_push_chain db cmd with
      | Ok (chain, notice) =>
          (mk_ReceiveState (<[rc_new_id cmd := chain]> (push_chain_cache st))
             (match notice with Some n => Some n | None => no_op_notice st end), Ok chain)
      | Err e => (st, Err e)
      | Panic => (st, Panic)
      | OutOfFuel => (st, OutOfFuel)
      end
  end.

(** The path that a push of a new branch would create. *)
Definition trunk_creation_path (db : MonoDb) (cmd : RefCommand) : outcome ReceiveError (option text) :=
  if negb is_trunk || negb (is_protocol_zero_id (rc_old_id cmd)) then Ok None
  else
    let path := rv_path rv in
    if bool_decide (is_Some (get_main_ref path db)) || bool_decide (is_Some (get_tombstone path MEGA_BRANCH_NAME db))
    then Ok None
    else match get_main_ref (lit "/") db with
    | None => Ok None
    | Some root =>
        resolved ← map_err RvMono (resolve_path_tree_hash_with_kind db (ref_tree_hash root) path);
        Ok (if bool_decide (resolved = None) then Some path else None)
    end.

(** The chain, with the error of an orphan on a path to create. *)
Definition incoming_chain (db : MonoDb) (st : ReceiveState) (cmd : RefCommand) (creation : option text)
    : ReceiveState * outcome ReceiveError (option PushChain) :=
  match build_push_chain db st cmd with
  | (st', Err (RvChain OrphanChain)) =>
      (st', Err (match creation with Some path => PathUninitialized path | None => RvChain OrphanChain end))
  | r => r
  end.

(** The checks on the command that gives the push its meaning. *)
Definition validate_primary (db : MonoDb) (st : ReceiveState) (cmd : RefCommand)
    : ReceiveState * outcome ReceiveError unit :=
  match trunk_creation_path db cmd with
  | Err e => (st, Err e)
  | Panic => (st, Panic)
  | OutOfFuel => (st, OutOfFuel)
  | Ok creation =>
      match creation ≫= classify_creation_path (rv_config rv) with
      | Some e => (st, Err (CreationRefused e))
      | None =>
          match incoming_chain db st cmd creation with
          | (st', Ok None) => (st', Ok tt)
          | (st', Ok (Some chain)) =>
              (st', map_err RvChain (validate (mega_commit db) chain_commit_limit chain cmd (rv_open_cl rv)))
          | (st', Err e) => (st', Err e)
          | (st', Panic) => (st', Panic)
          | (st', OutOfFuel) => (st', OutOfFuel)
          end
      end
  end.

Definition validate_incoming_push (db : MonoDb) (st : ReceiveState) : ReceiveState * outcome ReceiveError unit :=
  let cmds := rv_commands rv in
  let branch_updates := length (List.filter is_branch_update cmds) in
  if 1 <? branch_updates then (st, Err (ManyBranchUpdates branch_updates))
  else match List.find (λ c, is_trunk && bool_decide (rc_ref_type c = RefBranch)
                             && negb (bool_decide (rc_ref_name c = MEGA_BRANCH_NAME))) cmds with
  | Some c => (st, Err (TrunkRefRejected (rc_ref_name c)))
  | None =>
      match primary_branch_command cmds with
      | None => (st, Ok tt)
      | Some cmd => validate_primary db st cmd
      end
  end.
End Receive.

Arguments ReceiveState {_}.

(** ** The lander *)

(** [str::contains] for a text *)
Fixpoint contains_text (needle s : text) : bool :=
  starts_with needle s || match s with [] => false | _ :: s => contains_text needle s end.

Definition ALIGN : text := lit "git fetch && git reset --hard origin/main".

Definition trunk_nff_align_message (message : text) : text :=
  if (contains_text (lit "non-fast-forward") message || contains_text (lit "push chain is broken") message)
     && negb (contains_text ALIGN message)
  then message ++ lit "; align with `" ++ ALIGN ++ lit "`"
  else message.

(** One turn of [follow_push_queue]: what others commit before it, the context it finds, its
    time, what others commit between its reads and its writes; then the wait after it. *)
Record Round `{GitCommits} := mk_Round {
  rd_before : tables → tables;
  rd_ctx : tables → PushExecContext;
  rd_now : Z;
  rd_env : tables → tables;
  rd_wait : Z;
  rd_polls : list Poll;
}.

Definition MAX_ROUNDS : nat := 32.

Section Land.
Context `{GitCommits}.
Context (format_datetime : Z → Z → option text) (error_text : PushError → text).
Context (validate_replay : Db → PushQueueRow → option MegaError).
Context (native_publication_enabled : bool) (decode_head : NativeObservation → MegaError + bool) (wait_timeout : Z).

Definition rewait (r : Round) (j : Z) (s : tables) : tables * outcome LandError QueueWaitResult :=
  let '(q, w) := wait_and_claim native_publication_enabled decode_head wait_timeout (rd_polls r) j
                   (rd_wait r + wait_timeout) false s.1 in
  ((q, s.2), map_err LandService w).

Fixpoint follow_push_queue (turns : nat) (rounds : list Round) (wait : QueueWaitResult) (s : tables)
    : tables * outcome LandError text :=
  match turns with
  | O => (s, Err FollowExceeded)
  | S turns =>
      match wait with
      | WaitReplayed _ (Some landed) => (s, Ok landed)
      | WaitReplayed _ None => (s, Err ReplayMissing)
      | WaitAbandoned id => (s, Err (LandAbandoned id))
      | WaitRejected id message => (s, Err (LandRejected id (trunk_nff_align_message <$> message)))
      | WaitReady id =>
          match rounds with
          | [] => (s, OutOfFuel)
          | r :: rounds =>
              let s1 := rd_before r s in
              let again j s2 :=
                match rewait r j s2 with
                | (s3, Ok w) => follow_push_queue turns rounds w s3
                | (s3, Err e) => (s3, Err e)
                | (s3, Panic) => (s3, Panic)
                | (s3, OutOfFuel) => (s3, OutOfFuel)
                end in
              match execute_b3 format_datetime error_text (mk_ExecuteRequest id NetZero None None) None None
                      (Some (rd_ctx r s1)) (rd_now r) (rd_env r) s1 with
              | (s2, Ok o) =>
                  match o with
                  | ExDone _ landed _ => (s2, Ok landed)
                  | ExRequeued _ successor_id => again successor_id s2
                  | ExClaimLost id => again id s2
                  | ExFailed _ _ message => (s2, Err (LandFailed (trunk_nff_align_message message)))
                  | ExHardStopped id => (s2, Err (LandHardStopped id))
                  | ExBypassDetected id => (s2, Err (LandBypass id))
                  end
              | (s2, Err e) => (s2, Err (LandService e))
              | (s2, Panic) => (s2, Panic)
              | (s2, OutOfFuel) => (s2, OutOfFuel)
              end
          end
      end
  end.

(** What others do during the admission and the first wait. *)
Record Admission := mk_Admission {
  ad_env1 : Db → Db; ad_env2 : Db → Db; ad_env3 : Db → Db;
  ad_now : Z;
  ad_wait : Z;
  ad_polls : list Poll;
}.

Definition tip_push_request (path old_id new_id : text) (requester : option text) (payload : PushPayload)
    : EnqueueRequest :=
  mk_EnqueueRequest Push (push_operation_id old_id new_id) path old_id new_id requester
    (push_payload_to_json payload) (Some MEGA_BRANCH_NAME) false.

Definition land_api_tip_push (policy : PushPolicy) (max_push_commits : Z) (ad : Admission) (rounds : list Round)
    (path old_id new_id : text) (requester : option text) (payload : PushPayload) (s : tables)
    : tables * outcome LandError text :=
  match enqueue_and_wait validate_replay policy max_push_commits (ad_env1 ad) (ad_env2 ad) (ad_env3 ad)
          native_publication_enabled decode_head wait_timeout (ad_polls ad) (ad_wait ad + wait_timeout)
          (tip_push_request path old_id new_id requester payload) (ad_now ad) s with
  | (s1, Ok wait) => follow_push_queue MAX_ROUNDS rounds wait s1
  | (s1, Err e) => (s1, Err (LandService e))
  | (s1, Panic) => (s1, Panic)
  | (s1, OutOfFuel) => (s1, OutOfFuel)
  end.

(** ** The end of a receive *)

Definition deletes_branch (c : RefCommand) : bool :=
  bool_decide (rc_ref_type c = RefBranch)
  && (bool_decide (rc_command_type c = CmdDelete) || is_protocol_zero_id (rc_new_id c)).

Definition finalize_trunk_push (rv : Receive) (ad : Admission) (rounds : list Round) (st : ReceiveState)
    (s : tables) : tables * ReceiveState * outcome ReceiveError unit :=
  if existsb deletes_branch (rv_commands rv) then (s, st, Err TrunkDeleteRejected)
  else match primary_branch_command (rv_commands rv) with
  | None => (s, st, Ok tt)
  | Some cmd =>
      match build_push_chain rv s.2 st cmd with
      | (st', Err e) => (s, st', Err e)
      | (st', Panic) => (s, st', Panic)
      | (st', OutOfFuel) => (s, st', OutOfFuel)
      | (st', Ok None) => (s, st', Err ChainExpected)
      | (st', Ok (Some chain)) =>
          let payload := push_payload_from_chain (rc_old_id cmd) (rc_new_id cmd) (ordered_commits chain) (chain_base chain) in
          match land_api_tip_push (rv_policy rv) (Z.of_nat (rv_max_push_commits rv)) ad rounds (rv_path rv)
                  (rc_old_id cmd) (rc_new_id cmd) (rv_username rv) payload s with
          | (s', Ok landed) =>
              (s', if (1 <? pl_n payload)%Z then mk_ReceiveState (push_chain_cache st') (Some (SquashLanded landed)) else st',
               Ok tt)
          | (s', Err e) => (s', st', Err (RvLand e))
          | (s', Panic) => (s', st', Panic)
          | (s', OutOfFuel) => (s', st', OutOfFuel)
          end
      end
  end.

(** The review policy writes change lists instead; its writer is an argument. *)
Definition finalize_receive_pack (rv : Receive) (ad : Admission) (rounds : list Round)
    (review : ReceiveState → tables → tables * ReceiveState * outcome ReceiveError unit)
    (st : ReceiveState) (s : tables) : tables * ReceiveState * outcome ReceiveError unit :=
  match validate_incoming_push rv s.2 st with
  | (st', Ok _) => if is_trunk rv then finalize_trunk_push rv ad rounds st' s else review st' s
  | (st', Err e) => (s, st', Err e)
  | (st', Panic) => (s, st', Panic)
  | (st', OutOfFuel) => (s, st', OutOfFuel)
  end.
End Land.
