(* ===== verification/TrunkReceiveTheorems.v ===== *)
(** * Theorems on received pushes

    What the client of a push is told is true of the tables, whatever other connections
    commit meanwhile; and on a quiet server a push that is in order lands. *)
From stdpp Require Import base strings sets numbers tactics list gmap relations.
From S2P Require Import Prelude Text MonoPath CommitMessage CanonicalJson QueueTables PushQueue PushQueueInv PushQueueSteps.
From S2P Require Import PushQueueSpec GitObjects ViewCommit GitCommits TrunkProvenance MonoRefs MonoTrees MonoRefsInv MonoAdvance.
From S2P Require Import MonoAdvanceInv PushQueueReaper TreeOps TreeOpsInv TreeSurgery TrunkPush PushQueueService TrunkPushInv TrunkLanding.
From S2P Require Import PushServiceInv PushServiceLive PushServiceTheorems PushChain PushChainTheorems TrunkReceive.

(** * A push on a quiet server *)

(** ** The descriptor *)

Lemma json_texts_map l : json_texts (JArray (JString <$> l)) = Some l.
Proof.
  unfold json_texts. induction l as [|t l IH]; [done|]. rewrite fmap_cons. cbn [mapM json_text mbind option_bind]. by rewrite IH.
Qed.

Lemma payload_read p :
  (0 ≤ pl_n p < 4294967296)%Z → push_payload_from_value (push_payload_to_json p) = Some p.
Proof.
  destruct p as [cs fb n]. intros Hn. unfold push_payload_from_value, push_payload_to_json.
  cbn [pl_commits fork_base pl_n].
  change (json_get (lit "commits") _) with (Some (JArray (JString <$> cs))).
  change (json_get (lit "n") _) with (Some (JInt n)).
  change (json_get (lit "fork_base") _) with (Some (from_option JString JNull fb)).
  cbn [mbind option_bind]. rewrite json_texts_map. cbn [mbind option_bind].
  assert (json_opt_text (Some (from_option JString JNull fb)) = Some fb) as -> by (by destruct fb).
  cbn [mbind option_bind]. simpl in Hn. cbn [json_u32].
  destruct (Z.leb_spec 0 n), (Z.ltb_spec n 4294967296); [done|lia..].
Qed.

(** ** The queue *)

Section Quiet.
Context (validate_replay : Db → PushQueueRow → option MegaError).
Context (decode_head : NativeObservation → MegaError + bool) (wait_timeout : Z).

(** Nothing is queued or running, nothing stops the queue, and the push is not known. *)
Record idle (p : EnqueueParams) (c : QueueControl) (q : Db) : Prop := {
  id_inv : queue_inv q;
  id_control : control q = Some c;
  id_open : paused c = false ∧ hard_stopped c = false ∧ (0 < max_depth c)%Z;
  id_quiet k r : push_queue q !! k = Some r → is_active r = false;
  id_new k r : push_queue q !! k = Some r → p_same p r = false;
}.

Lemma count_none (P : PushQueueRow → bool) q : (∀ k r, push_queue q !! k = Some r → P r = false) → count P q = 0%Z.
Proof.
  intros Hn. unfold count. assert (select P q = []) as ->; [|done]. apply select_nil. intros k r Hk.
  by eapply Hn.
Qed.

Lemma idle_clear p c q : idle p c q → clear_to_insert p q.
Proof.
  intros [Hinv Hc (Hp & Hh & Hd) Hq Hn]. split.
  - apply (admissible_spec p q c Hc). split_and!; [done..| |].
    + by rewrite count_none.
    + intros k r Hk. by rewrite (Hn k r Hk).
  - intros _ k r Hk. by rewrite (Hq k r Hk), andb_false_r.
Qed.

Definition pushed_row (p : EnqueueParams) (now n : Z) : PushQueueRow :=
  fresh_row (p_kind p) (p_operation_id p) (p_path p) (p_old_id p) (p_new_id p) (p_requester p) (p_payload p) now n.

Lemma idle_new_row p c q now n : idle p c q → new_row p now q n = pushed_row p now n.
Proof.
  intros Hi. unfold new_row, terminal_predecessor. rewrite (proj2 (select_nil _ _)); [done|].
  intros k r Hk. by rewrite (id_new _ _ _ Hi k r Hk).
Qed.

Lemma idle_enqueue p c q now env1 env2 env3 :
  idle p c q →
  ∃ q1, enqueue_atomic validate_replay env1 env2 env3 p now q = (q1, Ok (Inserted (push_queue_seq q)))
    ∧ queue_inv q1 ∧ control q1 = Some c
    ∧ push_queue q1 = <[push_queue_seq q := pushed_row p now (push_queue_seq q)]> (push_queue q).
Proof.
  intros Hi. pose proof (idle_clear _ _ _ Hi) as Hcl. pose proof (clear_insert p now q Hcl) as Hins.
  pose proof (clear_insert_tail p now q (id_inv _ _ _ Hi) Hcl) as [Hinv _].
  unfold enqueue_atomic, conditional_insert. rewrite (cl_admissible _ _ Hcl). rewrite Hins in *. cbn [fst] in Hinv.
  eexists. split; [done|]. split; [done|]. split; [apply (id_control _ _ _ Hi)|].
  simpl. by rewrite (idle_new_row p c).
Qed.

(** The claim at the first turn. *)
Lemma idle_claim p c q now n o t :
  idle p c q → n = push_queue_seq q →
  ∀ q1, queue_inv q1 → control q1 = Some c → push_queue q1 = <[n := pushed_row p now n]> (push_queue q) →
  ∃ q2 r, claim_for_execution false decode_head [o] n t (touch_heartbeat n t q1) = (q2, Ok Claimed)
    ∧ queue_inv q2 ∧ control q2 = Some c ∧ push_queue q2 !! n = Some r ∧ status r = Running
    ∧ row_key r = row_key (pushed_row p now n)
    ∧ expected_commit_hash r = root_commit o ∧ expected_tree_hash r = root_tree o.
Proof.
  intros Hi Hn q1 Hinv1 Hc1 Hq1. set (qt := touch_heartbeat n t q1).
  assert (queue_inv qt) as Hinv by (apply (queue_step_inv q1); [apply qs_unlocked, us_touch_heartbeat|done]).
  assert (control qt = Some c) as Hc by done.
  assert (∀ k, push_queue qt !! k = (λ r, if (row_id r =? n)%Z then set_updated_at t (set_heartbeat_at t r) else r) <$> push_queue q1 !! k)
    as Hl by (intros k; apply lookup_update_where).
  assert (claim_ready qt n) as Hready.
  { split_and!.
    - eexists. rewrite Hl, Hq1, lookup_insert_eq. split; [done|]. simpl. by rewrite Z.eqb_refl.
    - intros k r Hk Hst. rewrite Hl, Hq1 in Hk. destruct (decide (k = n)) as [->|Hne]; [done|].
      rewrite lookup_insert_ne in Hk by done. destruct (push_queue q !! k) as [r0|] eqn:E; [|done].
      injection Hk as <-. pose proof (id_quiet _ _ _ Hi k r0 E) as Ha. exfalso.
      rewrite <-not_true_iff_false, is_active_spec in Ha. apply Ha. by destruct (_ =? _)%Z, r0; auto.
    - intros k r Hk Hst. rewrite Hl, Hq1 in Hk. destruct (decide (k = n)) as [->|Hne].
      + rewrite lookup_insert_eq in Hk. injection Hk as <-. simpl in Hst. by rewrite Z.eqb_refl in Hst.
      + rewrite lookup_insert_ne in Hk by done. destruct (push_queue q !! k) as [r0|] eqn:E; [|done].
        injection Hk as <-. pose proof (id_quiet _ _ _ Hi k r0 E) as Ha.
        rewrite <-not_true_iff_false, is_active_spec in Ha. apply Ha. by destruct (_ =? _)%Z, r0; auto. }
  pose proof (id_open _ _ _ Hi) as (_ & Hh & _).
  destruct (claim_rows qt n t o c Hinv Hc Hh Hready) as (r & Hr & Hq2).
  eexists _, (claim_row t o r). unfold claim_for_execution. rewrite Hc, Hh, bool_decide_eq_false_2.
  2: { rewrite select_nil. intros Hf. specialize (Hf n r Hr).
       by rewrite (proj2 (claimable_iff qt n r c Hinv Hc Hh Hr) Hready) in Hf. }
  split; [done|]. split; [by apply claim_inv|]. split; [done|]. rewrite Hq2, lookup_insert_eq.
  rewrite Hl, Hq1, lookup_insert_eq in Hr. simpl in Hr. rewrite Z.eqb_refl in Hr. injection Hr as <-.
  split_and!; done.
Qed.
End Quiet.

(** ** The gate *)

Section Gate.
Context `{GitCommits} {GL : GitLaws}.
Context (rv : Receive) (cmd : RefCommand).

(** One update of the public branch, under the trunk policy. *)
Record plain_push : Prop := {
  pp_trunk : rv_policy rv = PolicyTrunk;
  pp_one : length (List.filter is_branch_update (rv_commands rv)) ≤ 1;
  pp_main : Forall (λ c, rc_ref_type c = RefBranch → rc_ref_name c = MEGA_BRANCH_NAME) (rv_commands rv);
  pp_cmd : primary_branch_command (rv_commands rv) = Some cmd;
  pp_deletes : existsb deletes_branch (rv_commands rv) = false;
}.

Context (Hpush : plain_push).

Lemma plain_trunk : is_trunk rv = true.
Proof. unfold is_trunk. by rewrite (pp_trunk Hpush). Qed.

Lemma plain_limit : chain_commit_limit rv = rv_max_push_commits rv.
Proof. unfold chain_commit_limit. by rewrite plain_trunk. Qed.

Lemma plain_new : is_protocol_zero_id (rc_new_id cmd) = false.
Proof.
  pose proof (pp_cmd Hpush) as [_ Hu]%List.find_some. unfold is_branch_update in Hu. bool_prop. done.
Qed.

Lemma plain_validate db st : validate_incoming_push rv db st = validate_primary rv db st cmd.
Proof.
  unfold validate_incoming_push. destruct (Nat.ltb_spec 1 (length (List.filter is_branch_update (rv_commands rv)))) as [Hl|_].
  { pose proof (pp_one Hpush). lia. }
  destruct (List.find _ (rv_commands rv)) as [c|] eqn:Ef; [|by rewrite (pp_cmd Hpush)].
  apply List.find_some in Ef as [Hc%list_elem_of_In Hb]. bool_prop.
  pose proof (pp_main Hpush) as Hm. rewrite Forall_forall in Hm. by specialize (Hm c Hc ltac:(done)).
Qed.

(** The push fits the monorepo, whatever its row. *)
Definition fits (ctx : PushExecContext) (root : MegaRef) (segs : list text) (d : MonoDb) : Prop :=
  ∀ row, path row = rv_path rv → old_id row = rc_old_id cmd → landable ctx row root segs d.

Context (ctx : PushExecContext) (root : MegaRef) (segs : list text) (d : MonoDb) (rt : GitTree).
Context (Hok : monorepo_ok d) (Hpath : push_path (rv_path rv) segs) (Hfits : fits ctx root segs d).
Context (Hroot : get_main_ref (lit "/") d = Some root) (Hrt : stored_tree d (ref_tree_hash root) = Some rt).
Context (Hconfig : px_config ctx = rv_config rv).

Lemma fits_cases :
  (is_protocol_zero_id (rc_old_id cmd) = false)
  ∨ (is_protocol_zero_id (rc_old_id cmd) = true ∧ get_main_ref (rv_path rv) d = None
     ∧ get_tombstone (rv_path rv) MEGA_BRANCH_NAME d = None ∧ tree_below d (ref_tree_hash root) segs = None
     ∧ classify_creation_path (rv_config rv) (rv_path rv) = None).
Proof.
  destruct (Hfits (fresh_row Push [] (rv_path rv) (rc_old_id cmd) [] None JNull 0 0)) as [pref _ _ Hz _|Hn Ht Hz _ _ Hb Hc];
    [done..|by left|]. simpl in *. right. rewrite <-Hconfig. by split_and!.
Qed.

Lemma creation_allowed :
  ∃ creation, trunk_creation_path rv d cmd = Ok creation ∧ creation ≫= classify_creation_path (rv_config rv) = None.
Proof.
  destruct fits_cases as [Hz|(Hz & Hn & Ht & Hb & Hc)]; [exists None|exists (Some (rv_path rv))]; (split; [|done]);
    unfold trunk_creation_path; rewrite plain_trunk, Hz; [done|]. cbn [negb orb]. rewrite Hn, Ht.
  rewrite !(bool_decide_eq_false_2 (is_Some None)) by (by intros []). cbn [orb]. rewrite Hroot.
  destruct Hpath as (Ep & Hne & Hseg & _). rewrite Ep at 1.
  rewrite (resolve_spec d (ref_tree_hash root) rt segs); [|apply Hok|done|by apply mono_plain|done].
  by rewrite Hb.
Qed.

Context (tip : Commit) (chain : PushChain).
Context (Htip : stored_tip d (rc_new_id cmd) = Ok (Some tip)).
Context (Hchain : chain_of (mega_commit d) (rv_max_push_commits rv) cmd (rv_pack_commit_ids rv) (rv_new_commit_ids rv) tip
                  = Ok chain).
Context (Hvalid : validate (mega_commit d) (rv_max_push_commits rv) chain cmd (rv_open_cl rv) = Ok tt).

Definition gate_start : ReceiveState := mk_ReceiveState ∅ None.
Definition gate_passed : ReceiveState := mk_ReceiveState {[rc_new_id cmd := Some chain]} None.

Lemma chain_resolved : resolve_push_chain rv d cmd = Ok (Some chain, None).
Proof.
  unfold resolve_push_chain. rewrite Htip. cbn [mbind outcome_bind]. rewrite plain_limit, plain_trunk.
  revert Hchain. unfold chain_of. destruct (resolve _ _ _ _ _ _) as [[ch|]| | |]; cbn [map_err mbind outcome_bind]; try done.
  - by intros [= ->].
  - intros E. by rewrite E.
Qed.

Lemma gate_passes : validate_incoming_push rv d gate_start = (gate_passed, Ok tt).
Proof.
  rewrite plain_validate. unfold validate_primary. destruct creation_allowed as (creation & -> & ->).
  unfold incoming_chain, build_push_chain, gate_start. cbn [push_chain_cache]. rewrite lookup_empty, chain_resolved.
  cbn [no_op_notice]. rewrite plain_limit, Hvalid. done.
Qed.
End Gate.

(** * What a pusher is told *)

(** ** Interference *)

Section Truth.
Context `{GitCommits} {GL : GitLaws}.
Context (format_datetime : Z → Z → option text) (error_text : PushError → text).
Context (validate_replay : Db → PushQueueRow → option MegaError).
Context (native : bool) (decode_head : NativeObservation → MegaError + bool) (wait_timeout : Z).

Definition polls_sound (polls : list Poll) : Prop := Forall (λ p, ∀ q, rtc queue_step q (poll_env p q)) polls.

(** Other connections run transactions of the queue and keep the monorepo well formed. *)
Record round_sound (r : Round) : Prop := {
  rs_before s : rtc queue_step s.1 (rd_before r s).1;
  rs_before_mono s : monorepo_ok s.2 → monorepo_ok (rd_before r s).2;
  rs_env s : rtc queue_step s.1 (rd_env r s).1;
  rs_round s : queue_inv s.1 → monorepo_ok s.2 → round_env (px_committed (rd_ctx r s)) s (rd_env r s);
  rs_polls : polls_sound (rd_polls r);
}.

Record admission_sound (ad : Admission) : Prop := {
  as_env1 : interference (ad_env1 ad);
  as_env2 : interference (ad_env2 ad);
  as_env3 : interference (ad_env3 ad);
  as_polls : polls_sound (ad_polls ad);
}.

(** The tables stay consistent and keep what they record. *)
Definition kept_sound (q : Db) (s : tables) : Prop :=
  queue_inv s.1 ∧ monorepo_ok s.2 ∧ keeps_results q s.1.

(** The request of [r0] is done with this commit. *)
Definition done_with (r0 : PushQueueRow) (q : Db) (landed : text) : Prop :=
  ∃ j r, push_queue q !! j = Some r ∧ same_request r0 r ∧ status r = Done ∧ landed_commit_id r = Some landed.

Definition followed (r0 : PushQueueRow) (q : Db) (res : tables * outcome LandError text) : Prop :=
  kept_sound q res.1 ∧ match res.2 with Ok landed => done_with r0 res.1.1 landed | _ => True end.

Lemma kept_sound_trans q s s' : kept_sound q s → kept_sound s.1 s' → kept_sound q s'.
Proof. intros (_ & _ & H1) (? & ? & H2). split_and!; [done..|by etrans]. Qed.

Lemma followed_from r0 q s res : kept_sound q s → followed r0 s.1 res → followed r0 q res.
Proof. intros Hk [Hs Hr]. split; [by eapply kept_sound_trans|done]. Qed.

Lemma stopped_followed r0 q s (o : outcome LandError text) :
  kept_sound q s → (∀ l, o ≠ Ok l) → followed r0 q (s, o).
Proof. intros Hk Ho. split; [done|]. by destruct o as [l| | |]; [destruct (Ho l)|..]. Qed.

Lemma rtc_sound q q' d : rtc queue_step q q' → queue_inv q → monorepo_ok d → kept_sound q (q', d).
Proof. intros Hr Hq Hd. split_and!; [by eapply rtc_queue_inv|done|by apply rtc_keeps]. Qed.

(** A round of the loop: what it leaves, and the row it ran. *)
Lemma round_followed r r0 i ri s segs :
  round_sound r → queue_inv s.1 → monorepo_ok s.2 → push_queue s.1 !! i = Some ri → same_request r0 ri →
  kind r0 = Push → push_path (path r0) segs →
  let s1 := rd_before r s in
  let '(s2, res) := execute_b3 format_datetime error_text (mk_ExecuteRequest i NetZero None None) None None
                      (Some (rd_ctx r s1)) (rd_now r) (rd_env r) s1 in
  kept_sound s.1 s2
  ∧ match res with
    | Ok (ExDone _ landed _) => done_with r0 s2.1 landed
    | Ok (ExRequeued _ _) => False
    | Ok (ExClaimLost j) => j = i
    | _ => True
    end
  ∧ ∃ r2, push_queue s2.1 !! i = Some r2 ∧ same_request r0 r2.
Proof.
  intros Hr Hq Hm Hi Hs Hk Hp s1. pose proof (rs_before _ Hr s) as Hst. fold s1 in Hst.
  pose proof (rs_before_mono _ Hr s Hm) as Hm1. fold s1 in Hm1. clearbody s1.
  pose proof (rtc_queue_inv _ _ Hst Hq) as Hq1. pose proof (rtc_keeps _ _ Hst Hq) as Hk1.
  destruct (Hk1 i ri Hi) as (r1 & Hi1 & Ekey & _).
  assert (same_request r0 r1) as Hs1 by (eapply same_request_trans; [exact Hs|by apply same_request_key]).
  assert (kind r1 = Push ∧ path r1 = path r0) as [Hk1' Hp1].
  { destruct Hs1 as [E _]. unfold row_key in E. simpl in E. injection E as ? ? ?. split; congruence. }
  set (req := mk_ExecuteRequest i NetZero None None).
  pose proof (execute_steps format_datetime error_text (rd_ctx r s1) (rd_now r) (rd_env r) s1 (rs_env _ Hr s1) req) as Hsteps.
  pose proof (execute_executed format_datetime error_text (rd_ctx r s1) (rd_now r) (rd_env r) r1 segs s1 req None None) as He.
  destruct (inv_ids _ Hq1 _ _ Hi1) as [Hid _].
  specialize (He ltac:(by rewrite Hp1) Hq1 Hm1 (rs_round _ Hr s1 Hq1 Hm1) Hi1 Hk1').
  destruct (execute_b3 _ _ _ _ _ _ _ _ s1) as [s2 res]. unfold steps_to in Hsteps. cbn [fst] in Hsteps.
  pose proof (rtc_keeps _ _ Hsteps Hq1) as Hk2.
  destruct (Hk2 i r1 Hi1) as (r2 & Hi2 & Ekey2 & _).
  assert (same_request r0 r2) as Hs2 by (eapply same_request_trans; [exact Hs1|by apply same_request_key]).
  assert (monorepo_ok s2.2) as Hm2.
  { destruct res as [o| | |]; cbn [executed_or_undone] in He; [by destruct He as (_ & ? & _)|..];
      (destruct He as [->| ->]; [done|apply (rs_round _ Hr s1 Hq1 Hm1)]). }
  split; [|split; [|by exists r2]].
  - split_and!; [by eapply rtc_queue_inv|done|by etrans].
  - destruct res as [o| | |]; [|done..]. destruct He as (_ & _ & He & _).
    destruct o; try done; cbn [ended] in He.
    + destruct He as [-> (r' & Hr' & Hd & Hl)]. exists i, r2. rewrite Hid in Hr'. split_and!; congruence.
    + destruct He as [-> _]. done.
Qed.

Lemma follow_true segs r0 turns rounds wait s :
  Forall round_sound rounds → kind r0 = Push → push_path (path r0) segs →
  queue_inv s.1 → monorepo_ok s.2 → wait_true r0 s.1 wait →
  followed r0 s.1 (follow_push_queue format_datetime error_text native decode_head wait_timeout turns rounds wait s).
Proof.
  intros Hrs Hk Hp. revert rounds wait s Hrs. induction turns as [|turns IH]; intros rounds wait s Hrs Hq Hm Hw;
    (assert (kept_sound s.1 s) as Hrefl by (split_and!; [done..|reflexivity])); [by apply stopped_followed|].
  cbn [follow_push_queue]. destruct wait as [i|i [landed|]|i|i message]; try by apply stopped_followed.
  2: { destruct Hw as (r & ? & ? & ? & ?). split; [done|]. by exists i, r. }
  destruct Hrs as [|r rounds Hr Hrs]; [by apply stopped_followed|].
  destruct Hw as (ri & Hi & Hs & _).
  pose proof (round_followed r r0 i ri s segs Hr Hq Hm Hi Hs Hk Hp) as Hround. cbn zeta in Hround.
  destruct (execute_b3 _ _ _ _ _ _ _ _ (rd_before r s)) as [s2 res]. destruct Hround as (Hks & Ho & r2 & Hi2 & Hs2).
  destruct res as [o|e| |]; [|by apply stopped_followed..].
  destruct o as [j landed w|j|j|j|j n|j f m]; try by apply stopped_followed.
  { by split. }
  subst j. unfold rewait. destruct Hks as (Hq2 & Hm2 & Hkp).
  pose proof (wait_waited native decode_head wait_timeout (rd_polls r) r0 (rs_polls _ Hr) i
    (rd_wait r + wait_timeout) false s2.1 s2.1 r2 Hq2 (reflexivity _) Hi2 Hs2) as (Hq3 & Hk3 & Hw).
  destruct (wait_and_claim _ _ _ _ _ _ _ _) as [q [w|e| |]]; cbn [fst snd map_err] in *;
    try (apply stopped_followed; [split_and!; [done..|by etrans]|done]).
  eapply followed_from; [|apply (IH rounds w (q, s2.2)); done]. split_and!; [done..|by etrans].
Qed.

(** A row of the push from [old] to [new] at a path. *)
Definition push_row_of (path0 old new : text) (r : PushQueueRow) : Prop :=
  kind r = Push ∧ path r = path0 ∧ operation_id r = push_operation_id old new.

Lemma push_row_same path0 old new r r' : push_row_of path0 old new r → same_request r r' → push_row_of path0 old new r'.
Proof.
  intros (? & ? & ?) [E _]. unfold row_key in E. simpl in E. injection E as ? ? ?. split_and!; congruence.
Qed.

Lemma p_same_push path0 old new requester j r :
  p_same (mk_EnqueueParams Push (push_operation_id old new) path0 old new requester j) r = true →
  push_row_of path0 old new r.
Proof. unfold p_same, same_operation. simpl. intros ?; bool_prop. done. Qed.

Lemma admitted_true policy max_push_commits ad path0 old new requester payload s c :
  queue_inv s.1 → monorepo_ok s.2 → control s.1 = Some c → admission_sound ad →
  let '(s1, res) := enqueue_and_wait validate_replay policy max_push_commits (ad_env1 ad) (ad_env2 ad) (ad_env3 ad)
    native decode_head wait_timeout (ad_polls ad) (ad_wait ad + wait_timeout)
    (tip_push_request path0 old new requester payload) (ad_now ad) s in
  kept_sound s.1 s1
  ∧ match res with Ok w => ∃ r0, push_row_of path0 old new r0 ∧ wait_true r0 s1.1 w | _ => True end.
Proof.
  intros Hq Hm Hc [He1 He2 He3 Hp]. assert (kept_sound s.1 s) as Hrefl by (split_and!; [done..|reflexivity]).
  unfold enqueue_and_wait, enqueue. destruct (b0_reject_push _ _ _); [done|].
  destruct (b0_reject_create_on_tombstone _ _); [done|]. cbn [er_kind er_operation_id er_path er_old_id er_new_id er_requester er_payload tip_push_request].
  set (p := mk_EnqueueParams Push (push_operation_id old new) path0 old new requester _).
  pose proof (enqueue_correct validate_replay _ _ _ p (ad_now ad) s.1 c Hq Hc He1 He2 He3) as Hen.
  pose proof (enqueue_keeps validate_replay _ _ _ p (ad_now ad) s.1 Hq He1 He2 He3) as Hkp.
  destruct (enqueue_atomic _ _ _ _ p _ _) as [q1 res]. cbn [fst] in Hkp. destruct Hen as (Hq1 & _ & Hok).
  assert (kept_sound s.1 (q1, s.2)) as Hk1 by (split_and!; done).
  assert (∀ id r, push_queue q1 !! id = Some r → p_same p r = true →
    let '(q, w) := wait_and_claim native decode_head wait_timeout (ad_polls ad) id (ad_wait ad + wait_timeout) false q1 in
    kept_sound s.1 (q, s.2)
    ∧ match w with Ok w => ∃ r0, push_row_of path0 old new r0 ∧ wait_true r0 q w | _ => True end) as Hwait.
  { intros id r Hr Hs. apply p_same_push in Hs.
    pose proof (wait_waited native decode_head wait_timeout (ad_polls ad) r Hp id (ad_wait ad + wait_timeout) false
      q1 q1 r Hq1 (reflexivity _) Hr (same_request_key _ _ eq_refl)) as (? & ? & Hw).
    destruct (wait_and_claim _ _ _ _ _ _ _ _) as [q w]. cbn [fst snd] in *. split; [split_and!; [done..|by etrans]|].
    destruct w; [|done..]. by exists r. }
  destruct Hok as [(o & -> & Ho)|(e & r & -> & _)]; cbn [map_err]; [|done].
  destruct o as [n|n|n l|reason]; cbn [enqueue_post] in Ho; [| | |done].
  - destruct Ho as ((r & Hr & _ & Hs) & _). specialize (Hwait n r Hr Hs). cbn [fst snd].
    by destruct (wait_and_claim _ _ _ _ _ _ _ _).
  - destruct Ho as (r & Hr & Hs & _). specialize (Hwait n r Hr Hs). cbn [fst snd].
    by destruct (wait_and_claim _ _ _ _ _ _ _ _).
  - destruct Ho as (r & Hr & Hs & Hd & -> & _). split; [done|]. exists r.
    apply p_same_push in Hs. split; [done|]. by exists r.
Qed.

(** The whole of the lander. *)
Lemma landed_followed policy max_push_commits ad rounds segs path0 old new requester payload s c :
  queue_inv s.1 → monorepo_ok s.2 → control s.1 = Some c → admission_sound ad → Forall round_sound rounds →
  push_path path0 segs →
  let '(s', res) := land_api_tip_push format_datetime error_text validate_replay native decode_head wait_timeout
                      policy max_push_commits ad rounds path0 old new requester payload s in
  queue_inv s'.1 ∧ monorepo_ok s'.2 ∧ keeps_results s.1 s'.1
  ∧ match res with
    | Ok landed => ∃ j r, push_queue s'.1 !! j = Some r ∧ push_row_of path0 old new r
                     ∧ status r = Done ∧ landed_commit_id r = Some landed
    | _ => True
    end.
Proof.
  intros Hq Hm Hc Had Hrs Hpath.
  pose proof (admitted_true policy max_push_commits ad path0 old new requester payload s c Hq Hm Hc Had) as Ha.
  unfold land_api_tip_push. destruct (enqueue_and_wait _ _ _ _ _ _ _ _ _ _ _ _ _ _) as [s1 [w|e| |]];
    destruct Ha as [(? & ? & ?) Hw]; [|by split_and!..].
  destruct Hw as (r0 & Hr0 & Hw). pose proof Hr0 as (Hk0 & Hp0 & _).
  pose proof (follow_true segs r0 MAX_ROUNDS rounds w s1 Hrs Hk0 ltac:(by rewrite Hp0) ltac:(done) ltac:(done) Hw) as Hf.
  destruct (follow_push_queue _ _ _ _ _ _ _ _ _) as [s' res]. destruct Hf as [(? & ? & ?) Ho]. cbn [fst snd] in *.
  split_and!; [done..|by etrans|]. destruct res as [landed| | |]; [|done..].
  destruct Ho as (j & r & ? & ? & ? & ?). exists j, r. split_and!; [done|by eapply push_row_same|done|done].
Qed.

(** C7: a pusher is told the truth.  Whatever other connections commit while the push is
    admitted, waits, is executed and perhaps executed again, the tables stay consistent
    and keep every recorded result; and when the caller is given a commit, the queue has a
    row for this push at this path that is done with that commit. *)
Theorem landed_true policy max_push_commits ad rounds segs path0 old new requester payload s c :
  queue_inv s.1 → monorepo_ok s.2 → control s.1 = Some c → admission_sound ad → Forall round_sound rounds →
  push_path path0 segs →
  let '(s', res) := land_api_tip_push format_datetime error_text validate_replay native decode_head wait_timeout
                      policy max_push_commits ad rounds path0 old new requester payload s in
  queue_inv s'.1 ∧ monorepo_ok s'.2 ∧ keeps_results s.1 s'.1
  ∧ match res with
    | Ok landed => ∃ j r, push_queue s'.1 !! j = Some r ∧ push_row_of path0 old new r
                     ∧ status r = Done ∧ landed_commit_id r = Some landed
    | _ => True
    end.
Proof. intros. by apply (landed_followed policy max_push_commits ad rounds segs path0 old new requester payload s c). Qed.
End Truth.

(** ** Landing *)

Section Lands.
Context `{GitCommits} {GL : GitLaws}.
Context (format_datetime : Z → Z → option text) (error_text : PushError → text).
Context (validate_replay : Db → PushQueueRow → option MegaError).
Context (decode_head : NativeObservation → MegaError + bool) (wait_timeout : Z).
Context (rv : Receive) (cmd : RefCommand) (chain : PushChain) (tip : Commit).

Definition payload_of : PushPayload :=
  push_payload_from_chain (rc_old_id cmd) (rc_new_id cmd) (ordered_commits chain) (chain_base chain).

Definition params_of : EnqueueParams :=
  mk_EnqueueParams Push (push_operation_id (rc_old_id cmd) (rc_new_id cmd)) (rv_path rv) (rc_old_id cmd)
    (rc_new_id cmd) (rv_username rv) (push_payload_to_json payload_of).

(** Nothing happens during the admission and the first turn, which comes in time and sees
    the root; nothing happens around the first round. *)
Record quiet (root : MegaRef) (ctx : PushExecContext) (ad : Admission) (r : Round) (poll : Poll) : Prop := {
  qt_polls : ad_polls ad = [poll];
  qt_poll : poll_env poll = id;
  qt_time : (poll_time poll < ad_wait ad + wait_timeout)%Z;
  qt_seen : ∃ o, poll_observations poll = [o] ∧ root_commit o = Some (ref_commit_hash root)
                 ∧ root_tree o = Some (ref_tree_hash root);
  qt_before : rd_before r = id;
  qt_env : rd_env r = id;
  qt_ctx s : rd_ctx r s = ctx;
}.

Context (Hmoves : rc_old_id cmd ≠ rc_new_id cmd).
Context (Hpush : plain_push rv cmd) (segs : list text) (Hpath : push_path (rv_path rv) segs).
Context (Hlen : 0 < length (ordered_commits chain) ≤ rv_max_push_commits rv).

Lemma payload_of_n : pl_n payload_of = Z.min (Z.of_nat (length (ordered_commits chain))) 4294967295.
Proof. unfold payload_of, push_payload_from_chain. cbn [pl_n]. by rewrite bool_decide_eq_false_2. Qed.

Lemma admitted_b0 :
  b0_reject_push (rv_policy rv) (Z.of_nat (rv_max_push_commits rv))
    (tip_push_request (rv_path rv) (rc_old_id cmd) (rc_new_id cmd) (rv_username rv) payload_of) = None.
Proof.
  unfold b0_reject_push. rewrite (pp_trunk _ _ Hpush). cbn [er_kind er_new_id er_ref_name er_path er_payload is_delete tip_push_request].
  rewrite bool_decide_eq_true_2 by done. cbn [negb]. rewrite (plain_new _ _ Hpush). cbn [orb default].
  rewrite bool_decide_eq_true_2 by done. cbn [negb].
  destruct Hpath as (Ep & Hne & Hseg & _). rewrite bool_decide_eq_false_2.
  2: { rewrite Ep. apply root_not_path; [by apply mono_plain|done]. }
  change (json_get (lit "n") (push_payload_to_json payload_of)) with (Some (JInt (pl_n payload_of))).
  cbn [mbind option_bind json_u64]. rewrite payload_of_n.
  destruct (_ && _); [|done]. destruct (Z.ltb_spec (Z.of_nat (rv_max_push_commits rv))
    (Z.min (Z.of_nat (length (ordered_commits chain))) 4294967295)); [lia|done].
Qed.

Context (root : MegaRef) (ctx : PushExecContext) (ad : Admission) (r : Round) (poll : Poll).
Context (Hquiet : quiet root ctx ad r poll) (q : Db) (d : MonoDb) (c : QueueControl) (Hidle : idle params_of c q).
Context (Htomb : b0_reject_create_on_tombstone
  (tip_push_request (rv_path rv) (rc_old_id cmd) (rc_new_id cmd) (rv_username rv) payload_of) d = None).

(** The row that the first round finds. *)
Record claimed (row : PushQueueRow) (q' : Db) : Prop := {
  ck_inv : queue_inv q';
  ck_row : push_queue q' !! row_id row = Some row;
  ck_running : status row = Running;
  ck_stop : is_hard_stopped_in_txn q' = Ok false;
  ck_key : kind row = Push ∧ path row = rv_path rv ∧ old_id row = rc_old_id cmd ∧ new_id row = rc_new_id cmd
           ∧ payload row = push_payload_to_json payload_of;
  ck_base : baseline_ok row (Some root) = true;
}.

Lemma quiet_claims :
  ∃ q' row,
    enqueue_and_wait validate_replay (rv_policy rv) (Z.of_nat (rv_max_push_commits rv)) (ad_env1 ad) (ad_env2 ad)
      (ad_env3 ad) false decode_head wait_timeout (ad_polls ad) (ad_wait ad + wait_timeout)
      (tip_push_request (rv_path rv) (rc_old_id cmd) (rc_new_id cmd) (rv_username rv) payload_of) (ad_now ad) (q, d)
    = ((q', d), Ok (WaitReady (row_id row))) ∧ claimed row q'.
Proof.
  destruct (idle_enqueue validate_replay params_of c q (ad_now ad) (ad_env1 ad) (ad_env2 ad) (ad_env3 ad) Hidle)
    as (q1 & He & Hinv1 & Hc1 & Hq1).
  destruct (qt_seen _ _ _ _ _ Hquiet) as (o & Ho & Hoc & Hot).
  destruct (idle_claim decode_head params_of c q (ad_now ad) _ o (poll_time poll) Hidle eq_refl q1 Hinv1 Hc1 Hq1)
    as (q2 & row & Hcl & Hinv2 & Hc2 & Hrow & Hrun & Hkey & Hec & Het).
  destruct (inv_ids _ Hinv2 _ _ Hrow) as [Hid _]. pose proof (id_open _ _ _ Hidle) as (_ & Hh & _).
  exists q2, row. split.
  - unfold enqueue_and_wait, enqueue. rewrite admitted_b0. cbn [snd]. rewrite Htomb.
    unfold params_of in He. cbn [er_kind er_operation_id er_path er_old_id er_new_id er_requester er_payload tip_push_request fst].
    rewrite He. cbn [map_err fst snd]. rewrite (qt_polls _ _ _ _ _ Hquiet). cbn [wait_and_claim].
    rewrite (qt_poll _ _ _ _ _ Hquiet). cbn [id]. unfold get_by_id. rewrite Hq1, lookup_insert_eq. cbn [status pushed_row fresh_row].
    destruct (Z.leb_spec (ad_wait ad + wait_timeout) (poll_time poll)) as [Hle|_].
    { pose proof (qt_time _ _ _ _ _ Hquiet). lia. }
    cbn [negb andb]. rewrite Ho, Hcl, Hid. done.
  - unfold row_key in Hkey. simpl in Hkey. injection Hkey as ? ? ? ? ? ? ? ?.
    split; [done|by rewrite Hid|done| |by split_and!|].
    + unfold is_hard_stopped_in_txn. by rewrite Hc2, Hh.
    + unfold baseline_ok. rewrite Hec, Het, Hoc, Hot. by rewrite !bool_decide_eq_true_2.
Qed.
End Lands.

Section Received.
Context `{GitCommits} {GL : GitLaws}.

(** The commits of an accepted chain are stored. *)
Lemma chain_stored d cmd pack tip chain :
  found (mega_commit d) cmd pack tip chain → is_Some (mega_commit d !! oid tip) →
  (∃ c l, ordered_commits chain = c :: l ∧ oid c = oid (chain_tip chain)) →
  Forall (λ id, is_Some (mega_commit d !! id)) (pl_commits (payload_of cmd chain)).
Proof.
  intros [Ht _ Hk _ _] Hs (c & l & Eo & Hc). unfold payload_of, push_payload_from_chain. cbn [pl_commits].
  rewrite Eo in *. rewrite Ht in Hc. cbn [tail] in Hk. apply Forall_cons. split; [by rewrite <-Hc in Hs|].
  apply Forall_map. eapply Forall_impl; [exact Hk|]. intros x Hx. unfold stored_as, read_parent, oid in Hx.
  destruct (mega_commit d !! hash_to_string (c_id x)); [by eexists|done].
Qed.

Lemma stored_tip_commit ctx d id tip :
  px_committed ctx = d → stored_tip d id = Ok (Some tip) →
  stored_commit ctx id = Ok tip ∧ is_Some (mega_commit d !! id).
Proof.
  intros E. unfold stored_tip, stored_commit. rewrite E. destruct (mega_commit d !! id) as [model|]; [|done].
  intros (c & Hc%map_err_Ok & [= ->])%bind_Ok. rewrite Hc. split; [done|by eexists].
Qed.

(** No tombstone stands in the way of the admission. *)
Lemma fits_no_tombstone rv cmd chain ctx root segs d :
  fits rv cmd ctx root segs d → px_config ctx = rv_config rv →
  b0_reject_create_on_tombstone
    (tip_push_request (rv_path rv) (rc_old_id cmd) (rc_new_id cmd) (rv_username rv) (payload_of cmd chain)) d = None.
Proof.
  intros Hf Hc. unfold b0_reject_create_on_tombstone. cbn [er_kind er_old_id er_path tip_push_request].
  destruct (fits_cases rv cmd ctx root segs d Hf Hc) as [->|(-> & _ & -> & _)];
    [by rewrite orb_true_r|by destruct (_ || _)].
Qed.

(** The first round of the lander. *)
Lemma quiet_lands format_datetime error_text decode_head wait_timeout rv cmd chain tip segs root rt ctx ad r rounds
    poll q d row turns :
  rc_old_id cmd ≠ rc_new_id cmd → push_path (rv_path rv) segs → monorepo_ok d → healthy ctx d →
  publication_enabled (px_publication ctx) = false → (∀ p t, publish_target_paths (px_publication ctx) p t = None) →
  get_main_ref (lit "/") d = Some root → stored_tree d (ref_tree_hash root) = Some rt →
  fits rv cmd ctx root segs d → stored_commit ctx (rc_new_id cmd) = Ok tip →
  Forall (λ id, is_Some (mega_commit d !! id)) (pl_commits (payload_of cmd chain)) →
  0 < length (ordered_commits chain) → quiet wait_timeout root ctx ad r poll → claimed rv cmd chain root row q →
  ∃ s' landed,
    follow_push_queue format_datetime error_text false decode_head wait_timeout (S turns) (r :: rounds)
      (WaitReady (row_id row)) (q, d) = (s', Ok landed)
    ∧ landing_done (rd_now r) row root segs d (payload_of cmd chain) tip s' landed.
Proof.
  intros Hmoves Hpath Hok Hy Hpub Htargets Hroot Hrt Hfits Htip Hcs Hlen Hquiet
    [Hq Hrow Hrun Hstop (Hk & Hp & Ho & Hn & Hpl) Hbase].
  pose proof (payload_of_n cmd chain Hmoves) as En.
  destruct (execute_total format_datetime error_text ctx (rd_now r) row root segs d Hy Hok ltac:(by rewrite Hp) Hroot rt Hrt
    (Hfits row Hp Ho) (payload_of cmd chain) tip ltac:(by rewrite Hn) Hcs q Hq Hrow Hrun Htargets
    ltac:(rewrite Hpl; apply payload_read; lia) ltac:(congruence) ltac:(lia) Hk Hstop Hbase Hpub
    (mk_ExecuteRequest (row_id row) NetZero None None) None None eq_refl) as (s' & landed & E & Hl).
  exists s', landed. split; [|done]. cbn [follow_push_queue].
  rewrite (qt_before _ _ _ _ _ _ Hquiet), (qt_env _ _ _ _ _ _ Hquiet), (qt_ctx _ _ _ _ _ _ Hquiet). cbn [id].
  by rewrite E.
Qed.

(** The cache and the notice after a push has landed. *)
Definition landed_state (cmd : RefCommand) (chain : PushChain) (landed : text) : ReceiveState :=
  if (1 <? pl_n (payload_of cmd chain))%Z
  then mk_ReceiveState (push_chain_cache (gate_passed cmd chain)) (Some (SquashLanded landed)) else gate_passed cmd chain.

(** The whole of a receive on a quiet server. *)
Lemma received_lands format_datetime error_text validate_replay decode_head wait_timeout rv cmd chain tip
    segs root ctx ad r rounds poll review q d c :
  plain_push rv cmd → rc_old_id cmd ≠ rc_new_id cmd → push_path (rv_path rv) segs →
  monorepo_ok d → healthy ctx d → commits_keyed (mega_commit d) → px_config ctx = rv_config rv →
  publication_enabled (px_publication ctx) = false → (∀ p t, publish_target_paths (px_publication ctx) p t = None) →
  get_main_ref (lit "/") d = Some root → is_Some (stored_tree d (ref_tree_hash root)) →
  fits rv cmd ctx root segs d →
  stored_tip d (rc_new_id cmd) = Ok (Some tip) →
  chain_of (mega_commit d) (rv_max_push_commits rv) cmd (rv_pack_commit_ids rv) (rv_new_commit_ids rv) tip = Ok chain →
  validate (mega_commit d) (rv_max_push_commits rv) chain cmd (rv_open_cl rv) = Ok tt →
  idle (params_of rv cmd chain) c q → quiet wait_timeout root ctx ad r poll →
  ∃ q' d' landed,
    finalize_receive_pack format_datetime error_text validate_replay false decode_head wait_timeout rv ad
      (r :: rounds) review gate_start (q, d) = ((q', d'), landed_state cmd chain landed, Ok tt)
    ∧ queue_inv q' ∧ landed_at segs (c_tree_id tip) landed (ref_tree_hash root) (rd_now r) d d'
    ∧ (∃ j row, push_queue q' !! j = Some row ∧ status row = Done ∧ landed_commit_id row = Some landed)
    ∧ (length (ordered_commits chain) = 1 → landed = rc_new_id cmd).
Proof.
  intros Hpush Hmoves Hpath Hok Hy Hkeyed Hcfg Hpub Htargets Hroot [rt Hrt] Hfits Htip Hchain Hvalid Hidle Hquiet.
  pose proof (chain_of_found _ _ _ _ _ _ _ Hkeyed Hmoves Hchain) as Hf.
  pose proof (proj1 (validate_spec _ _ _ _ _ (fd_some _ _ _ _ _ Hf)) Hvalid) as [[Hwt Hwc Hwl] _].
  pose proof (gate_passes rv cmd Hpush ctx root segs d rt Hok Hpath Hfits Hroot Hrt Hcfg tip chain Htip Hchain Hvalid) as Hgate.
  destruct (stored_tip_commit ctx d _ _ (hy_committed _ _ Hy) Htip) as [Hsc Hst].
  assert (0 < length (ordered_commits chain)) as Hpos by (destruct Hwc as (c0 & l & -> & _); simpl; lia).
  assert (oid tip = rc_new_id cmd) as Hoid by (by rewrite <-(fd_tip _ _ _ _ _ Hf)).
  assert (Forall (λ id, is_Some (mega_commit d !! id)) (pl_commits (payload_of cmd chain))) as Hcs.
  { apply (chain_stored d cmd _ tip chain Hf); [by rewrite Hoid|]. destruct Hwc as (c0 & l & ? & ? & _). by exists c0, l. }
  destruct (quiet_claims validate_replay decode_head wait_timeout rv cmd chain Hmoves Hpush segs Hpath (conj Hpos Hwl)
    root ctx ad r poll Hquiet q d c Hidle (fits_no_tombstone rv cmd chain ctx root segs d Hfits Hcfg)) as (q1 & row & Hadm & Hclaimed).
  destruct (quiet_lands format_datetime error_text decode_head wait_timeout rv cmd chain tip segs root rt ctx ad r rounds
    poll q1 d row 31 Hmoves Hpath Hok Hy Hpub Htargets Hroot Hrt Hfits Hsc Hcs Hpos Hquiet Hclaimed)
    as ([q' d'] & landed & Hfol & Hq' & [_ Hdone] & Hl & Hone).
  exists q', d', landed. split_and!; [|done|done| |].
  - unfold finalize_receive_pack. cbn [snd]. rewrite Hgate, (plain_trunk _ _ Hpush).
    unfold finalize_trunk_push. rewrite (pp_deletes _ _ Hpush), (pp_cmd _ _ Hpush).
    unfold build_push_chain, gate_passed. cbn [push_chain_cache]. rewrite lookup_singleton_eq.
    fold (payload_of cmd chain). unfold land_api_tip_push. rewrite Hadm. change MAX_ROUNDS with (S 31). rewrite Hfol. reflexivity.
  - destruct Hdone as (row' & ? & ? & ?). by exists (row_id row), row'.
  - intros E1. destruct Hclaimed as [_ _ _ _ (_ & _ & _ & Hnew & _) _]. rewrite <-Hnew. apply Hone.
    rewrite payload_of_n by done. by rewrite E1.
Qed.

(** On a quiet server a received push lands.  When the push passes the checks on its
    commands and its chain, fits the monorepo and is not known to the idle queue, then the
    whole of the receive succeeds: the gate, the admission, the claim and the round.  The
    queue has a row of this push that is done with the landed commit, and the monorepo has
    the tree of the tip at the path and is otherwise changed only as a landing changes
    it. *)
Theorem received_push_lands format_datetime error_text validate_replay decode_head wait_timeout rv cmd chain tip
    segs root ctx ad r rounds poll review q d c :
  plain_push rv cmd → rc_old_id cmd ≠ rc_new_id cmd → push_path (rv_path rv) segs →
  monorepo_ok d → healthy ctx d → commits_keyed (mega_commit d) → px_config ctx = rv_config rv →
  publication_enabled (px_publication ctx) = false → (∀ p t, publish_target_paths (px_publication ctx) p t = None) →
  get_main_ref (lit "/") d = Some root → is_Some (stored_tree d (ref_tree_hash root)) →
  fits rv cmd ctx root segs d →
  stored_tip d (rc_new_id cmd) = Ok (Some tip) →
  chain_of (mega_commit d) (rv_max_push_commits rv) cmd (rv_pack_commit_ids rv) (rv_new_commit_ids rv) tip = Ok chain →
  validate (mega_commit d) (rv_max_push_commits rv) chain cmd (rv_open_cl rv) = Ok tt →
  idle (params_of rv cmd chain) c q → quiet wait_timeout root ctx ad r poll →
  ∃ q' d' st' landed,
    finalize_receive_pack format_datetime error_text validate_replay false decode_head wait_timeout rv ad
      (r :: rounds) review gate_start (q, d) = ((q', d'), st', Ok tt)
    ∧ queue_inv q' ∧ landed_at segs (c_tree_id tip) landed (ref_tree_hash root) (rd_now r) d d'
    ∧ (∃ j row, push_queue q' !! j = Some row ∧ status row = Done ∧ landed_commit_id row = Some landed)
    ∧ (length (ordered_commits chain) = 1 → landed = rc_new_id cmd).
Proof.
  intros H1 H2 H3 H4 H5 H6 H7 H8 H9 H10 H11 H12 H13 H14 H15 H16 H17.
  destruct (received_lands format_datetime error_text validate_replay decode_head wait_timeout rv cmd chain tip segs root
    ctx ad r rounds poll review q d c H1 H2 H3 H4 H5 H6 H7 H8 H9 H10 H11 H12 H13 H14 H15 H16 H17)
    as (q' & d' & landed & Hf & Hrest).
  by exists q', d', (landed_state cmd chain landed), landed.
Qed.
End Received.

(** ** A push to the tip the branch has *)

(** C34: a push of the commit that the branch is at is refused.  With an empty pack and
    equal identifiers the chain is the tip alone with the tip as its base, which the check
    of the base on the first-parent chain refuses: nothing enters the queue, although the
    executor has a branch for such pushes. *)
Theorem repush_refused `{GitCommits} format_datetime error_text validate_replay native decode_head wait_timeout rv cmd
    tip ad rounds review s :
  plain_push rv cmd → rc_old_id cmd = rc_new_id cmd → rv_pack_commit_ids rv = ∅ →
  stored_tip s.2 (rc_new_id cmd) = Ok (Some tip) → oid tip = rc_new_id cmd → first_parent tip ≠ Some (oid tip) →
  ∃ st' e, finalize_receive_pack format_datetime error_text validate_replay native decode_head wait_timeout rv ad
             rounds review gate_start s = (s, st', Err (RvChain e)).
Proof.
  intros Hpush Heq Hpack Htip Hoid Hp. unfold finalize_receive_pack.
  destruct (repush_invalid (mega_commit s.2) (rv_max_push_commits rv) cmd tip (rv_open_cl rv) Hoid Heq Hp)
    as (chain & Hchain & Hbad).
  assert (∃ st' e, validate_incoming_push rv s.2 gate_start = (st', Err (RvChain e))) as (st' & e & ->); [|by exists st', e].
  rewrite (plain_validate _ _ Hpush). unfold validate_primary, trunk_creation_path. rewrite Heq, (plain_new _ _ Hpush), orb_true_r.
  unfold incoming_chain, build_push_chain, gate_start. cbn [push_chain_cache mbind option_bind]. rewrite lookup_empty.
  unfold resolve_push_chain. rewrite Htip. cbn [mbind outcome_bind]. unfold resolve. rewrite Hpack, bool_decide_eq_true_2 by done.
  cbn [negb map_err mbind outcome_bind]. rewrite (plain_limit _ _ Hpush), (plain_trunk _ _ Hpush), Hchain. cbn.
  pose proof (validate_ends (mega_commit s.2) (rv_max_push_commits rv) chain cmd (rv_open_cl rv)) as Hends.
  destruct (validate _ _ _ _ _) as [u|e| |]; [by destruct (Hbad u)|by eexists _, e|done..].
Qed.
