(* ===== verification/TrunkReceiveDemo.v ===== *)
(** * A received push on a small monorepo

    Concrete pushes on which the theorems about chains and received pushes apply: one
    commit on top of [/a] of the monorepo of [PushServiceDemo]. *)
From stdpp Require Import base strings sets numbers tactics list gmap relations.
From S2P Require Import Prelude Text CommitMessage CanonicalJson GitObjects ViewTreeDemo ViewCommit GitCommits TrunkProvenance.
From S2P Require Import MonoPath MonoRefs MonoTrees MonoRefsInv MonoAdvance MonoDemo.
From S2P Require Import QueueTables PushQueue PushQueueInv PushQueueSteps PushQueueSpec PushQueueTheorems PushQueueReaper.
From S2P Require Import TreeOps TreeOpsInv TreeSurgery TrunkPush TrunkPushInv TrunkLanding PushQueueService PushServiceInv.
From S2P Require Import PushServiceLive PushServiceTheorems PushServiceDemo PushChain PushChainTheorems TrunkReceive TrunkReceiveTheorems.

Definition demo_cmd : RefCommand := ref_command_new (lit "a0") (lit "t1") MEGA_BRANCH_NAME.
Definition demo_signature : Signature := mk_Signature SigAuthor (lit "A") [] 0 [].
Definition demo_base : Commit := mk_Commit _ (lit "a0") leaf1 [] demo_signature demo_signature (lit "m").
Definition demo_chain : PushChain := mk_PushChain (lit "a0") push_tip [push_tip].
Definition demo_receive (cmd : RefCommand) (pack : gset text) : Receive :=
  mk_Receive PolicyTrunk demo_config 10 (lit "/a") None pack pack [cmd] None.

Lemma push_commits_keyed : commits_keyed push_commits_table.
Proof. intros i row E. each_row E. all: reflexivity. Qed.

Lemma demo_kept : stored_as push_commits_table demo_base.
Proof. vm_compute. reflexivity. Qed.

Lemma demo_linear : linear push_tip [] (lit "a0").
Proof. split; [vm_compute; reflexivity|apply NoDup_singleton|repeat constructor]. Qed.

(** ** Chains *)

Lemma push_chain_sound_witness :
  ∃ chain, chain_of push_commits_table 10 demo_cmd {[lit "t1"]} {[lit "t1"]} push_tip = Ok chain
    ∧ found push_commits_table demo_cmd {[lit "t1"]} push_tip chain
    ∧ validate push_commits_table 10 chain demo_cmd None = Ok tt.
Proof.
  destruct (push_chain_sound push_commits_table 10 demo_cmd {[lit "t1"]} {[lit "t1"]} push_tip None push_commits_keyed
    ltac:(discriminate)) as [_ H].
  destruct (H demo_chain ltac:(vm_compute; reflexivity)) as (_ & Hf & _).
  exists demo_chain. split; [vm_compute; reflexivity|]. split; [exact Hf|vm_compute; reflexivity].
Defined.

Lemma demo_carries : carries push_commits_table (list_to_set [lit "t1"; lit "a0"]) push_tip [demo_base] None.
Proof.
  split; [split; vm_compute; reflexivity| |repeat constructor|reflexivity|discriminate].
  apply (bool_decide_unpack _). vm_compute. reflexivity.
Qed.

(** A second commit on top of [push_tip], and the command that pushes both. *)
Definition demo_tip2 : Commit := mk_Commit _ (lit "t2") leaf2 [lit "t1"] demo_signature demo_signature (lit "m").
Definition demo_cmd2 : RefCommand := ref_command_new (lit "a0") (lit "t2") MEGA_BRANCH_NAME.
Definition demo_new_branch : RefCommand := ref_command_new (replicate 40 (ch "0")) (lit "t1") MEGA_BRANCH_NAME.

Lemma demo_linear2 : linear demo_tip2 [push_tip] (lit "a0").
Proof. split; [split; vm_compute; reflexivity| |repeat constructor]. apply (bool_decide_unpack _). vm_compute. reflexivity. Qed.

Lemma demo_carries2 :
  carries push_commits_table (list_to_set [lit "t2"; lit "t1"; lit "a0"]) demo_tip2 [push_tip; demo_base] None.
Proof.
  split; [repeat split; vm_compute; reflexivity| |repeat constructor; vm_compute; reflexivity|reflexivity|discriminate].
  apply (bool_decide_unpack _). vm_compute. reflexivity.
Qed.

(** Two new commits with a known ancestor, everything known, and a new branch that the empty
    pack does not make. *)
Lemma push_chain_accepts_witness :
  let chain := mk_PushChain (lit "a0") demo_tip2 [demo_tip2; push_tip] in
  validate push_commits_table 2 chain demo_cmd2 None = Ok tt
  ∧ chain_of push_commits_table 2 demo_cmd2 (list_to_set [lit "t2"; lit "t1"; lit "a0"]) (list_to_set [lit "t2"; lit "t1"])
      demo_tip2 = Ok chain
  ∧ chain_of push_commits_table 2 demo_cmd2 ∅ ∅ demo_tip2 = Ok chain
  ∧ chain_of push_commits_table 10 demo_new_branch ∅ ∅ push_tip = Err OrphanChain.
Proof.
  intros chain.
  destruct (push_chain_accepts push_commits_table 2 demo_cmd2 (list_to_set [lit "t2"; lit "t1"; lit "a0"])
    (list_to_set [lit "t2"; lit "t1"]) demo_tip2 [push_tip] [demo_base] (lit "a0") None None
    ltac:(vm_compute; reflexivity) demo_linear2 ltac:(simpl; lia) ltac:(vm_compute; reflexivity) ltac:(discriminate))
    as (H1 & H2 & _).
  destruct (push_chain_accepts push_commits_table 2 demo_cmd2 ∅ ∅ demo_tip2 [push_tip] [] (lit "a0") None None
    ltac:(vm_compute; reflexivity) demo_linear2 ltac:(simpl; lia) ltac:(vm_compute; reflexivity) ltac:(discriminate))
    as (_ & _ & H3 & _).
  destruct (push_chain_accepts push_commits_table 10 demo_new_branch ∅ ∅ push_tip [] [] (lit "a0") None None
    ltac:(vm_compute; reflexivity) demo_linear ltac:(simpl; lia) ltac:(eexists; vm_compute; reflexivity) ltac:(discriminate))
    as (_ & _ & _ & H4).
  split; [exact H1|]. split; [|split].
  - apply H2; [exact demo_carries2|simpl; lia|]. left. split.
    + repeat constructor; apply (bool_decide_unpack _); vm_compute; reflexivity.
    + constructor; [|constructor]. apply (bool_decide_unpack _). vm_compute. reflexivity.
  - apply H3; [vm_compute; reflexivity|repeat constructor; vm_compute; reflexivity|].
    apply (bool_decide_unpack _). vm_compute. reflexivity.
  - apply (H4 [demo_base]); [vm_compute; reflexivity|split; vm_compute; reflexivity|repeat constructor; exact demo_kept|].
    apply (bool_decide_unpack _). vm_compute. reflexivity.
Defined.

Lemma retried_push_refused_witness :
  ∃ chain, chain_of push_commits_table 10 demo_cmd (list_to_set [lit "t1"; lit "a0"]) ∅ push_tip = Ok chain
     ∧ validate push_commits_table 10 chain demo_cmd None = Err BaseNotOnChain.
Proof.
  apply (retried_push_refused push_commits_table 10 demo_cmd (list_to_set [lit "t1"; lit "a0"]) {[lit "t1"]} push_tip []
    demo_base [] None); [vm_compute; reflexivity..|exact demo_carries|repeat constructor|simpl; lia| |].
  - constructor; [set_solver|constructor].
  - constructor; [|constructor]. apply (bool_decide_unpack _). vm_compute. reflexivity.
Defined.

(** ** Receives *)

Definition demo_admission : Admission := mk_Admission id id id 0 0 [mk_Poll 1 id [push_root_seen]].
Definition demo_round (ctx : tables → PushExecContext) : Round := mk_Round _ _ id ctx 9 id 9 [].
Definition no_review (st : ReceiveState) (s : tables) : tables * ReceiveState * outcome ReceiveError unit := (s, st, Ok tt).

Lemma demo_plain cmd pack :
  is_branch_update cmd = true → rc_ref_name cmd = MEGA_BRANCH_NAME → deletes_branch cmd = false →
  plain_push (demo_receive cmd pack) cmd.
Proof.
  intros Hu Hn Hd. split; [done| |by repeat constructor| |simpl; by rewrite Hd].
  - simpl. rewrite Hu. simpl. lia.
  - unfold primary_branch_command. simpl. by rewrite Hu.
Qed.

Lemma demo_fits : fits (demo_receive demo_cmd {[lit "t1"]}) demo_cmd push_ctx ref_root [lit "a"] push_mono.
Proof.
  intros row Hp Ho. apply (adm_update _ _ _ _ _ ref_a); rewrite ?Hp, ?Ho; [vm_compute; reflexivity..|].
  eexists. vm_compute. reflexivity.
Qed.

Lemma demo_idle p : idle p demo_control demo_empty.
Proof. split; [exact (proj1 demo_inv)|done|done|done|done]. Qed.

Lemma received_push_lands_witness :
  ∃ q' d' st',
    finalize_receive_pack no_date no_text no_check false no_decode 60 (demo_receive demo_cmd {[lit "t1"]})
      demo_admission [demo_round (λ _, push_ctx)] no_review gate_start (demo_empty, push_mono) = ((q', d'), st', Ok tt)
    ∧ landed_at [lit "a"] leaf2 (lit "t1") root0 9 push_mono d'.
Proof.
  destruct (received_push_lands no_date no_text no_check no_decode 60 (demo_receive demo_cmd {[lit "t1"]}) demo_cmd
    demo_chain push_tip [lit "a"] ref_root push_ctx demo_admission (demo_round (λ _, push_ctx)) []
    (mk_Poll 1 id [push_root_seen]) no_review demo_empty push_mono demo_control)
    as (q' & d' & st' & landed & E & _ & Hl & _ & Hone).
  - apply demo_plain; vm_compute; reflexivity.
  - discriminate.
  - exact push_row_path.
  - exact push_mono_ok.
  - exact push_healthy.
  - exact push_commits_keyed.
  - reflexivity.
  - reflexivity.
  - reflexivity.
  - vm_compute. reflexivity.
  - eexists. vm_compute. reflexivity.
  - exact demo_fits.
  - vm_compute. reflexivity.
  - vm_compute. reflexivity.
  - vm_compute. reflexivity.
  - apply demo_idle.
  - split; try reflexivity. exists push_root_seen. split; [reflexivity|]. split; vm_compute; reflexivity.
  - specialize (Hone eq_refl). change (rc_new_id demo_cmd) with (lit "t1") in Hone. subst landed.
    exists q', d', st'. split; [exact E|exact Hl].
Defined.

(** The context of a round that reads the tables as they are. *)
Definition live_ctx (s : tables) : PushExecContext :=
  mk_PushExecContext demo_config (Some Some) s.2 (Some [9%N]) (λ n, 100 + Z.of_nat n)%Z 7 demo_publication.

Lemma demo_round_sound : round_sound (demo_round live_ctx).
Proof.
  split; [by intros; apply rtc_refl|done|by intros; apply rtc_refl| |constructor].
  intros s Hq Hm. split; [done|done|apply Hm|done..].
Qed.

Lemma landed_true_witness :
  let '(s', res) := land_api_tip_push no_date no_text no_check false no_decode 60 PolicyTrunk 10 demo_admission
                      [demo_round live_ctx] (lit "/a") (lit "a0") (lit "t1") None (payload_of demo_cmd demo_chain)
                      (demo_empty, push_mono) in
  queue_inv s'.1 ∧ monorepo_ok s'.2 ∧ ∃ landed, res = Ok landed.
Proof.
  pose proof (landed_true no_date no_text no_check false no_decode 60 PolicyTrunk 10 demo_admission
    [demo_round live_ctx] [lit "a"] (lit "/a") (lit "a0") (lit "t1") None (payload_of demo_cmd demo_chain)
    (demo_empty, push_mono) demo_control (proj1 demo_inv) push_mono_ok eq_refl
    ltac:(split; [apply id_interference..|repeat constructor])
    ltac:(constructor; [exact demo_round_sound|constructor]) push_row_path) as H.
  assert (∃ l, snd (land_api_tip_push no_date no_text no_check false no_decode 60 PolicyTrunk 10 demo_admission
                      [demo_round live_ctx] (lit "/a") (lit "a0") (lit "t1") None (payload_of demo_cmd demo_chain)
                      (demo_empty, push_mono)) = Ok l) as [l Hl] by (eexists; vm_compute; reflexivity).
  destruct (land_api_tip_push _ _ _ _ _ _ _ _ _ _ _ _ _ _ _ _) as [s' res].
  destruct H as (Hq & Hm & _). split; [exact Hq|]. split; [exact Hm|]. exists l. exact Hl.
Defined.

Definition repush_cmd : RefCommand := ref_command_new (lit "t1") (lit "t1") MEGA_BRANCH_NAME.

Lemma repush_refused_witness :
  ∃ st' e, finalize_receive_pack no_date no_text no_check false no_decode 60 (demo_receive repush_cmd ∅)
    demo_admission [] no_review gate_start (demo_empty, push_mono) = ((demo_empty, push_mono), st', Err (RvChain e)).
Proof.
  apply (repush_refused no_date no_text no_check false no_decode 60 (demo_receive repush_cmd ∅) repush_cmd push_tip).
  - apply demo_plain; vm_compute; reflexivity.
  - reflexivity.
  - reflexivity.
  - vm_compute. reflexivity.
  - vm_compute. reflexivity.
  - vm_compute. discriminate.
Defined.
