(* ===== verification/SmartProtocol.v ===== *)
(** * The smart protocol

    Models [src/ceres/protocol/smart.rs], the capabilities of [src/ceres/protocol/mod.rs]
    and the requests of protocol version 2 ([src/ceres/protocol/v2.rs]): packet lines, the
    commands of a push, the checks on them, the handling of a push from its bytes to the
    bytes of the report, the advertisement of references and of traces repositories,
    fetches of version 0, and the commands [ls-refs] and [fetch] of version 2.

    A repository is the record [RepoHandler], the trait of [src/ceres/pack/mod.rs], over the
    state it changes; packs are read and written behind it.  [String::from_utf8_lossy] and
    [str::from_utf8] are Rust's, in terms of one decoding step.  Loops over packet lines have
    the length of the request as fuel, since each line takes at least four bytes. *)
From stdpp Require Import base strings sets numbers tactics list gmap finite.
From S2P Require Import Prelude Text CommitMessage GitObjects GitCommits GitPath MonoPath MonoRefs MonoTrees.
From S2P Require Import QueueTables PushQueue TrunkPush PushQueueService PushChain TrunkReceive.

(** ** Text from bytes *)

Definition cont (b : N) : bool := in_range 128 191 b.

(** One step of the decoding: a character or, for bytes that are none, nothing, and the
    bytes after it; an invalid sequence ends before its first unexpected byte. *)
Definition utf8_step (b0 : N) (r : bytes) : option N * bytes :=
  if (b0 <? 128)%N then (Some b0, r)
  else if in_range 194 223 b0 then
    match r with
    | b1 :: r1 => if cont b1 then (Some ((b0 - 192) * 64 + (b1 - 128))%N, r1) else (None, r)
    | [] => (None, r)
    end
  else if in_range 224 239 b0 then
    match r with
    | b1 :: r1 =>
        if in_range (if N.eqb b0 224 then 160 else 128) (if N.eqb b0 237 then 159 else 191) b1 then
          match r1 with
          | b2 :: r2 => if cont b2 then (Some ((b0 - 224) * 4096 + (b1 - 128) * 64 + (b2 - 128))%N, r2) else (None, r1)
          | [] => (None, r1)
          end
        else (None, r)
    | [] => (None, r)
    end
  else if in_range 240 244 b0 then
    match r with
    | b1 :: r1 =>
        if in_range (if N.eqb b0 240 then 144 else 128) (if N.eqb b0 244 then 143 else 191) b1 then
          match r1 with
          | b2 :: r2 =>
              if cont b2 then
                match r2 with
                | b3 :: r3 =>
                    if cont b3
                    then (Some ((b0 - 240) * 262144 + (b1 - 128) * 4096 + (b2 - 128) * 64 + (b3 - 128))%N, r3)
                    else (None, r2)
                | [] => (None, r2)
                end
              else (None, r1)
          | [] => (None, r1)
          end
        else (None, r)
    | [] => (None, r)
    end
  else (None, r).

Fixpoint utf8_chunks (fuel : nat) (bs : bytes) : list (option N) :=
  match fuel, bs with
  | S fuel, b :: bs => let '(c, rest) := utf8_step b bs in c :: utf8_chunks fuel rest
  | _, _ => []
  end.

Definition replacement : N := 65533.

Definition from_utf8_lossy (bs : bytes) : text := default replacement <$> utf8_chunks (length bs) bs.
Definition from_utf8 (bs : bytes) : option text := mapM id (utf8_chunks (length bs) bs).

(** [str::split_whitespace] *)
Fixpoint split_whitespace_aux (word : text) (s : text) : list text :=
  match s with
  | [] => if bool_decide (word = []) then [] else [reverse word]
  | c :: s =>
      if is_whitespace c
      then (if bool_decide (word = []) then [] else [reverse word]) ++ split_whitespace_aux [] s
      else split_whitespace_aux (c :: word) s
  end.
Definition split_whitespace (s : text) : list text := split_whitespace_aux [] s.

(** [str::parse::<u32>]: a sign and digits. *)
Definition parse_u32_signed (s : text) : option N :=
  let digits := default s (strip_prefix (lit "+") s) in
  if bool_decide (digits = []) || negb (forallb is_ascii_digit digits) then None else parse_u32 digits.

(** ** Packet lines *)

(** [format!("{:x}")] of a [usize] *)
Definition hex_char (d : N) : N := if (d <? 10)%N then (48 + d)%N else (87 + d)%N.

Fixpoint hex_digits (fuel : nat) (n : N) (acc : text) : text :=
  match fuel with
  | O => acc
  | S fuel =>
      let acc := hex_char (n mod 16) :: acc in
      if (n <? 16)%N then acc else hex_digits fuel (n / 16) acc
  end.

(** [format!("{:04x}")]; sixteen digits are enough for a [usize]. *)
Definition format_04x (n : N) : text :=
  let digits := hex_digits 16 n [] in replicate (4 - length digits) (ch "0") ++ digits.

Definition PKT_LINE_END_MARKER : bytes := lit "0000".
Definition PKT_LINE_DELIMITER : bytes := lit "0001".

(** What is added to the stream. *)
Definition add_pkt_line_string (buf_str : text) : bytes :=
  format_04x (N.of_nat (length (utf8 buf_str)) + 4) ++ utf8 buf_str.

Inductive PktLine := PktData (data : bytes) | PktFlush | PktDelim | PktResponseEnd.

(** The [ProtocolError]s of the two files, by message. *)
Inductive WireError :=
  | NoPktData
  | HeaderIncomplete
  | HeaderNotHex
  | ReservedLength
  | PayloadIncomplete
  | NoCommands
  | NotAPack
  | UnexpectedPkt
  | FlushMissing
  | BadObjectId (what : text)
  | CapabilitiesNotUtf8
  | ShortCommand
  | MissingObjectId (what : text)
  | IdNotUtf8 (what : text)
  | DepthNotUtf8
  | InvalidDepth (depth : text)
  | DeepenUnsupported
  | ShallowUnsupported
  | ShallowWithHaves
  | FilterUnsupported
  | FilterWithShallow
  | MissingCommand
  | WireOther (message : text).

Definition hex_value (c : N) : N :=
  if is_ascii_digit c then (c - 48)%N else if (97 <=? c)%N then (c - 87)%N else (c - 55)%N.

(** [usize::from_str_radix(_, 16)] of four digits *)
Definition from_hex (s : text) : N := foldl (λ n c, n * 16 + hex_value c)%N 0%N s.

Definition try_read_pkt_line (bs : bytes) : outcome WireError (PktLine * bytes) :=
  if bool_decide (bs = []) then Err NoPktData
  else if length bs <? 4 then Err HeaderIncomplete
  else if negb (forallb is_ascii_hexdigit (take 4 bs)) then Err HeaderNotHex
  else
    let n := from_hex (take 4 bs) in
    if N.eqb n 0 then Ok (PktFlush, drop 4 bs)
    else if N.eqb n 1 then Ok (PktDelim, drop 4 bs)
    else if N.eqb n 2 then Ok (PktResponseEnd, drop 4 bs)
    else if N.eqb n 3 then Err ReservedLength
    else if length bs <? N.to_nat n then Err PayloadIncomplete
    else Ok (PktData (take (N.to_nat n - 4) (drop 4 bs)), drop (N.to_nat n) bs).

(** ** Capabilities *)

Inductive TransportProtocol := TransportLocal | TransportHttp | TransportSsh.

Inductive Capability :=
  | MultiAck | MultiAckDetailed | NoDone | SideBand | SideBand64k | ReportStatus | ReportStatusv2
  | OfsDelta | DeepenSince | DeepenNot | Shallow | IncludeTag.

#[export] Instance TransportProtocol_eq_dec : EqDecision TransportProtocol.
Proof. solve_decision. Defined.
#[export] Instance Capability_eq_dec : EqDecision Capability.
Proof. solve_decision. Defined.
#[export] Instance ServiceType_eq_dec : EqDecision ServiceType.
Proof. solve_decision. Defined.
#[export] Program Instance Capability_finite : Finite Capability :=
  {| enum := [MultiAck; MultiAckDetailed; NoDone; SideBand; SideBand64k; ReportStatus; ReportStatusv2;
              OfsDelta; DeepenSince; DeepenNot; Shallow; IncludeTag] |}.
Next Obligation. apply (bool_decide_unpack _). by vm_compute. Qed.
Next Obligation. intros []; apply (bool_decide_unpack _); by vm_compute. Qed.

Definition capability_texts : list (text * Capability) :=
  [(lit "report-status", ReportStatus); (lit "report-status-v2", ReportStatusv2); (lit "side-band", SideBand);
   (lit "side-band-64k", SideBand64k); (lit "ofs-delta", OfsDelta); (lit "multi_ack", MultiAck);
   (lit "multi_ack_detailed", MultiAckDetailed); (lit "no-done", NoDone); (lit "deepen-since", DeepenSince);
   (lit "deepen-not", DeepenNot); (lit "shallow", Shallow); (lit "include-tag", IncludeTag)].

(** [Capability::from_str] *)
Definition capability_from_str (s : text) : option Capability :=
  snd <$> List.find (λ p, bool_decide (p.1 = s)) capability_texts.

Definition service_name (t : ServiceType) : text :=
  match t with UploadPackService => lit "git-upload-pack" | ReceivePackService => lit "git-receive-pack" end.

Record SmartSession := mk_SmartSession {
  ss_service_type : ServiceType;
  ss_transport_protocol : TransportProtocol;
  ss_capabilities : gset Capability;
}.

Definition with_capabilities (caps : gset Capability) (s : SmartSession) : SmartSession :=
  mk_SmartSession (ss_service_type s) (ss_transport_protocol s) caps.

Definition parse_capabilities (cap_str : text) (s : SmartSession) : SmartSession :=
  with_capabilities
    (foldl (λ caps cap, match capability_from_str (trim cap) with Some c => {[c]} ∪ caps | None => caps end)
       (ss_capabilities s) (split_on space cap_str)) s.

Definition side_band (s : SmartSession) : bool :=
  bool_decide (SideBand ∈ ss_capabilities s) || bool_decide (SideBand64k ∈ ss_capabilities s).

(** ** The commands of a push *)

(** [u8::is_ascii_whitespace] *)
Definition is_ascii_whitespace (b : N) : bool := bool_decide (b ∈ [32; 9; 10; 12; 13]%N).

Fixpoint take_until_white_space (bs : bytes) : bytes * bytes :=
  match bs with
  | [] => ([], [])
  | c :: bs =>
      if is_ascii_whitespace c || N.eqb c 0 then ([], bs)
      else let '(word, rest) := take_until_white_space bs in (c :: word, rest)
  end.

Definition read_until_white_space (bs : bytes) : text * bytes :=
  let '(word, rest) := take_until_white_space bs in (from_utf8_lossy word, rest).

Definition parse_ref_command (pkt_line : bytes) : RefCommand * bytes :=
  let '(old_id, r1) := read_until_white_space pkt_line in
  let '(new_id, r2) := read_until_white_space r1 in
  let '(ref_name, r3) := read_until_white_space r2 in
  (ref_command_new old_id new_id ref_name, r3).

Section Session.
Context `{GitObjects}.

Definition ensure_object_id_hex (hex what : text) : outcome WireError unit :=
  if is_protocol_zero_id hex then Ok tt
  else match from_hex_for_kind hex with Some _ => Ok tt | None => Err (BadObjectId what) end.

Definition parse_receive_pack_command_line (s : SmartSession) (pkt_line : bytes)
    : outcome WireError (SmartSession * RefCommand) :=
  let '(command, rest) := parse_ref_command pkt_line in
  _ ← ensure_object_id_hex (rc_old_id command) (lit "old");
  _ ← ensure_object_id_hex (rc_new_id command) (lit "new");
  match from_utf8 rest with
  | None => Err CapabilitiesNotUtf8
  | Some caps => Ok (parse_capabilities caps s, command)
  end.

Fixpoint split_commands (fuel : nat) (s : SmartSession) (commands : list RefCommand) (bs : bytes)
    : outcome WireError (SmartSession * list RefCommand * bytes) :=
  if bool_decide (bs = []) then Err FlushMissing
  else
    read ← try_read_pkt_line bs;
    match read with
    | (PktFlush, rest) =>
        if bool_decide (commands = []) then Err NoCommands
        else if bool_decide (rest = []) then Ok (s, commands, rest)
        else if negb (starts_with (lit "PACK") rest) then Err NotAPack
        else Ok (s, commands, rest)
    | (PktData data, rest) =>
        match fuel with
        | O => OutOfFuel
        | S fuel =>
            parsed ← parse_receive_pack_command_line s data;
            split_commands fuel parsed.1 (commands ++ [parsed.2]) rest
        end
    | _ => Err UnexpectedPkt
    end.

Definition split_receive_pack_request (s : SmartSession) (bs : bytes)
    : outcome WireError (SmartSession * list RefCommand * bytes) :=
  split_commands (length bs) s [] bs.
End Session.

(** ** The checks on commands *)

Definition DELETE_MAIN_NG : text :=
  lit "refusing to delete the main branch ref `" ++ MEGA_BRANCH_NAME
  ++ lit "`: the authorization snapshot is keyed on main's `/.mega_cedar.json`; use the Web UI / API to manage the default branch".
Definition MONOREPO_TAG_NG : text :=
  lit "tag pushes are not supported on monorepo; manage tags through the tag API".
Definition MONOREPO_EXTRA_BRANCH_NG : text := lit "monorepo pushes support at most one branch update".

Definition status_ok (c : RefCommand) : bool := bool_decide (rc_status c = OK_STATUS).

Definition reject_disallowed (c : RefCommand) : RefCommand :=
  if negb (status_ok c) then c
  else if bool_decide (rc_command_type c = CmdDelete) && bool_decide (rc_ref_name c = MEGA_BRANCH_NAME)
  then ref_command_failed DELETE_MAIN_NG c
  else if bool_decide (rc_ref_type c = RefTag) then ref_command_failed MONOREPO_TAG_NG c
  else c.

Definition reject_monorepo_disallowed_commands (is_monorepo : bool) (commands : list RefCommand)
    : list RefCommand := if is_monorepo then reject_disallowed <$> commands else commands.

Definition missing_target (c : RefCommand) : text := lit "target object " ++ rc_new_id c ++ lit " not found".

Definition reject_missing (commit_exists object_exists : text → bool) (c : RefCommand) : RefCommand :=
  if negb (status_ok c) || bool_decide (rc_command_type c = CmdDelete) then c
  else if match rc_ref_type c with RefBranch => commit_exists (rc_new_id c) | RefTag => object_exists (rc_new_id c) end
  then c
  else ref_command_failed (missing_target c) c.

Definition reject_packless_missing_targets (commit_exists object_exists : text → bool)
    (commands : list RefCommand) : list RefCommand := reject_missing commit_exists object_exists <$> commands.

Fixpoint reject_extra (surviving_branch_update : bool) (commands : list RefCommand) : list RefCommand :=
  match commands with
  | [] => []
  | c :: commands =>
      if is_branch_update c
      then (if surviving_branch_update then ref_command_failed MONOREPO_EXTRA_BRANCH_NG c else c)
           :: reject_extra true commands
      else c :: reject_extra surviving_branch_update commands
  end.

Definition reject_extra_monorepo_branch_updates (is_monorepo : bool) (commands : list RefCommand)
    : list RefCommand := if is_monorepo then reject_extra false commands else commands.

Definition has_successful_branch_work (commands : list RefCommand) : bool :=
  existsb (λ c, bool_decide (rc_ref_type c = RefBranch) && status_ok c) commands.

(** The answers of the repository for the targets of one kind. *)
Definition add_hit (kind : RefTypeEnum) (exist : text → bool) (hits : gmap text bool) (c : RefCommand) : gmap text bool :=
  if negb (status_ok c) || bool_decide (rc_command_type c = CmdDelete) || negb (bool_decide (rc_ref_type c = kind))
  then hits else <[rc_new_id c := exist (rc_new_id c)]> hits.

Definition target_hits (kind : RefTypeEnum) (exist : text → bool) (commands : list RefCommand) : gmap text bool :=
  foldl (add_hit kind exist) ∅ commands.

Definition apply_receive_pack_status_guards (is_monorepo pack_less : bool)
    (check_commit_exist check_object_exist : text → bool) (commands : list RefCommand) : list RefCommand :=
  let commands := reject_monorepo_disallowed_commands is_monorepo commands in
  let commands :=
    if pack_less then
      let commit_hits := target_hits RefBranch check_commit_exist commands in
      let object_hits := target_hits RefTag check_object_exist commands in
      reject_packless_missing_targets (λ h, default false (commit_hits !! h)) (λ h, default false (object_hits !! h))
        commands
    else commands in
  reject_extra_monorepo_branch_updates is_monorepo commands.

(** ** The report *)

Definition side_bind_value_packfile : N := 1.
Definition side_bind_value_progress : N := 2.

Definition build_side_band_format (s : SmartSession) (from_bytes : bytes) (length : N) : bytes :=
  if side_band s then format_04x (length + 5) ++ side_bind_value_packfile :: from_bytes else from_bytes.

Definition build_receive_pack_report (s : SmartSession) (report_status : bytes) (notice : option text) : bytes :=
  let report_status := report_status ++ PKT_LINE_END_MARKER in
  let report := build_side_band_format s report_status (N.of_nat (length report_status)) in
  let progress :=
    match notice with
    | Some notice =>
        if side_band s then
          let notice := if ends_with [newline] notice then notice else notice ++ [newline] in
          format_04x (N.of_nat (length (utf8 notice)) + 5) ++ side_bind_value_progress :: utf8 notice
        else []
    | None => []
    end in
  progress ++ report ++ PKT_LINE_END_MARKER.

(** ** A push *)

(** The operations of the trait that a push calls, over the state of the repository.
    Errors are their texts. *)
Record RepoHandler (S : Type) := mk_RepoHandler {
  rh_is_monorepo : bool;
  rh_check_commit_exist : S → text → bool;
  rh_check_object_exist : S → text → bool;
  (** [unpack_stream], which fails before anything is read, and [receiver_handler] *)
  rh_unpack_stream : bytes → S → S * option WireError;
  rh_receiver_handler : S → S * option text;
  rh_check_default_branch : S → bool;
  rh_update_refs : RefCommand → S → S * option text;
  rh_sync_commands_after_unpack : list RefCommand → S → S;
  (** [OutOfFuel] when the repository still waits *)
  rh_finalize_receive_pack : S → S * outcome text unit;
  rh_receive_pack_notice : S → option text;
  rh_bind_tip_after_receive : bool;
  rh_bind_commit_to_user : text → S → S;
}.
Arguments mk_RepoHandler {S}.
Arguments rh_is_monorepo {S} _.
Arguments rh_check_commit_exist {S} _ _ _.
Arguments rh_check_object_exist {S} _ _ _.
Arguments rh_unpack_stream {S} _ _ _.
Arguments rh_receiver_handler {S} _ _.
Arguments rh_check_default_branch {S} _ _.
Arguments rh_update_refs {S} _ _ _.
Arguments rh_sync_commands_after_unpack {S} _ _ _.
Arguments rh_finalize_receive_pack {S} _ _.
Arguments rh_receive_pack_notice {S} _ _.
Arguments rh_bind_tip_after_receive {S} _.
Arguments rh_bind_commit_to_user {S} _ _ _.

Definition set_default_branch (c : RefCommand) : RefCommand :=
  mk_RefCommand (rc_ref_name c) (rc_old_id c) (rc_new_id c) (rc_status c) (rc_error_msg c) (rc_command_type c)
    (rc_ref_type c) true.

Section Receive.
Context {S : Type} (h : RepoHandler S).

(** The loop after unpacking: tags are written, branches flagged. *)
Fixpoint settle_commands (unpack_error : option text) (default_exist : bool) (commands : list RefCommand) (st : S)
    : S * list RefCommand :=
  match commands with
  | [] => (st, [])
  | c :: commands =>
      match rc_ref_type c with
      | RefTag =>
          let '(st, c) :=
            if negb (status_ok c) then (st, c)
            else let '(st, e) := rh_update_refs h c st in
                 (st, match e with Some msg => ref_command_failed msg c | None => c end) in
          let '(st, rest) := settle_commands unpack_error default_exist commands st in (st, c :: rest)
      | RefBranch =>
          let '(c, default_exist) :=
            match unpack_error with
            | None => if status_ok c && negb default_exist then (set_default_branch c, true) else (c, default_exist)
            | Some msg => (if status_ok c then ref_command_failed msg c else c, default_exist)
            end in
          let '(st, rest) := settle_commands unpack_error default_exist commands st in (st, c :: rest)
      end
  end.

Definition unpack_failed (unpack_error : option text) (commands : list RefCommand) : bool :=
  bool_decide (is_Some unpack_error) && existsb (λ c, bool_decide (rc_ref_type c = RefBranch)) commands.

Definition fail_branches (msg : text) (commands : list RefCommand) : list RefCommand :=
  (λ c, if bool_decide (rc_ref_type c = RefBranch) && status_ok c then ref_command_failed msg c else c) <$> commands.

Definition process_commit_bindings (commands : list RefCommand) (st : S) : S :=
  foldl (λ st c, if bool_decide (rc_ref_type c = RefBranch) && status_ok c && negb (is_protocol_zero_id (rc_new_id c))
                 then rh_bind_commit_to_user h (rc_new_id c) st else st) st commands.

Definition unpack_push (pack_payload : bytes) (st : S) : S * (WireError + option text) :=
  if bool_decide (pack_payload = []) then (st, inr None)
  else match rh_unpack_stream h pack_payload st with
  | (st, Some e) => (st, inl e)
  | (st, None) => let '(st, e) := rh_receiver_handler h st in (st, inr e)
  end.

(** The end of the push: the final commands and the notice. *)
Definition finalize_push (unpack_error : option text) (commands : list RefCommand) (st : S)
    : S * outcome WireError (list RefCommand * option text) :=
  if negb (unpack_failed unpack_error commands) && has_successful_branch_work commands then
    match rh_finalize_receive_pack h st with
    | (st, Ok _) =>
        (if rh_bind_tip_after_receive h then process_commit_bindings commands st else st,
         Ok (commands, rh_receive_pack_notice h st))
    | (st, Err msg) => (st, Ok (fail_branches msg commands, None))
    | (st, Panic) => (st, Panic)
    | (st, OutOfFuel) => (st, OutOfFuel)
    end
  else (st, Ok (commands, None)).

Definition report_of (commands : list RefCommand) : bytes :=
  add_pkt_line_string (lit "unpack ok" ++ [newline]) ++ (commands ≫= λ c, add_pkt_line_string (get_status c)).

Definition git_receive_pack_stream (s : SmartSession) (commands : list RefCommand) (pack_payload : bytes) (st : S)
    : S * outcome WireError bytes :=
  let commands :=
    apply_receive_pack_status_guards (rh_is_monorepo h) (bool_decide (pack_payload = [])) (rh_check_commit_exist h st)
      (rh_check_object_exist h st) commands in
  match unpack_push pack_payload st with
  | (st, inl e) => (st, Err e)
  | (st, inr unpack_error) =>
      let '(st, commands) := settle_commands unpack_error (rh_check_default_branch h st) commands st in
      let st := rh_sync_commands_after_unpack h commands st in
      match finalize_push unpack_error commands st with
      | (st, Ok (commands, notice)) => (st, Ok (build_receive_pack_report s (report_of commands) notice))
      | (st, Err e) => (st, Err e)
      | (st, Panic) => (st, Panic)
      | (st, OutOfFuel) => (st, OutOfFuel)
      end
  end.
End Receive.

(** ** Advertisements *)

Record Refs := mk_Refs {
  rf_id : Z;
  rf_ref_name : text;
  rf_ref_hash : text;
  rf_default_branch : bool;
}.

Definition RECEIVE_CAP_LIST : text := lit "report-status delete-refs no-thin ".
Definition COMMON_CAP_LIST : text := lit "side-band-64k ofs-delta agent=mega/0.1.0".
Definition UPLOAD_CAP_LIST : text := lit "multi_ack_detailed no-done shallow ".

(** [object_format] is the name of the hash kind. *)
Definition advertised_capabilities (object_format : text) (service_type : ServiceType) : text :=
  match service_type with
  | UploadPackService => UPLOAD_CAP_LIST ++ COMMON_CAP_LIST
  | ReceivePackService => RECEIVE_CAP_LIST ++ COMMON_CAP_LIST
  end ++ lit " object-format=" ++ object_format.

Definition build_smart_reply (s : SmartSession) (ref_list : list text) (service : text) : bytes :=
  (if bool_decide (ss_transport_protocol s = TransportHttp)
   then add_pkt_line_string (lit "# service=" ++ service ++ [newline]) ++ PKT_LINE_END_MARKER else [])
  ++ (ref_list ≫= add_pkt_line_string) ++ PKT_LINE_END_MARKER.

(** A traces repository as it is found: [TraceDiscovery] of [src/ceres/pack/traces_repo.rs]. *)
Record TraceDiscovery := mk_TraceDiscovery {
  td_service_type : ServiceType;
  td_object_format : text;
  td_hex_len : N;
  td_server_id : text;
  td_scope_id : option text;
}.

Definition traces_v0_capabilities (t : TraceDiscovery) : text :=
  match td_service_type t with UploadPackService => [] | ReceivePackService => lit "report-status no-thin " end
  ++ lit "agent=mega/0.1.0 object-format=" ++ td_object_format t ++ lit " libra-traces-v1 libra-traces-server="
  ++ td_server_id t ++ from_option (λ scope_id, lit " libra-traces-scope=" ++ scope_id) [] (td_scope_id t).

Definition build_traces_v0_advertisement (t : TraceDiscovery) (transport : TransportProtocol) (tip : option text)
    : outcome WireError bytes :=
  named ← match tip with
          | Some tip =>
              if bool_decide (td_scope_id t = None) || negb (N.eqb (str_len tip) (td_hex_len t))
                 || negb (forallb is_ascii_hexdigit (utf8 tip))
              then Err (WireOther (lit "invalid traces discovery tip"))
              else Ok (tip, lit "refs/libra/traces")
          | None => Ok (replicate (N.to_nat (td_hex_len t)) (ch "0"), lit "capabilities^{}")
          end;
  let http := bool_decide (transport = TransportHttp) in
  let capabilities :=
    traces_v0_capabilities t
    ++ (if http && bool_decide (td_service_type t = UploadPackService) then lit " allow-reachable-sha1-in-want" else []) in
  Ok ((if http then add_pkt_line_string (lit "# service=" ++ service_name (td_service_type t) ++ [newline])
                    ++ PKT_LINE_END_MARKER else [])
      ++ add_pkt_line_string (named.1 ++ [space] ++ named.2 ++ [0%N] ++ capabilities ++ [newline]) ++ PKT_LINE_END_MARKER).

Definition build_traces_v2_capability_advertisement (t : TraceDiscovery) : outcome WireError bytes :=
  if negb (bool_decide (td_service_type t = UploadPackService))
  then Err (WireOther (lit "traces v2 discovery requires upload-pack authorization"))
  else Ok (([lit "version 2"; lit "agent=mega/0.1.0"; lit "ls-refs"; lit "fetch"] ≫= λ c, add_pkt_line_string (c ++ [newline]))
           ++ add_pkt_line_string (lit "object-format=" ++ td_object_format t ++ [newline])
           ++ add_pkt_line_string (lit "libra-traces-v1" ++ [newline])
           ++ add_pkt_line_string (lit "libra-traces-server=" ++ td_server_id t ++ [newline])
           ++ from_option (λ scope_id, add_pkt_line_string (lit "libra-traces-scope=" ++ scope_id ++ [newline])) [] (td_scope_id t)
           ++ PKT_LINE_END_MARKER).

(** ** Fetches *)

Record FetchArgs := mk_FetchArgs {
  fa_want : gset text;
  fa_have : gset text;
  fa_deepen_depth : option N;
  fa_deepen_relative : bool;
  fa_done : bool;
  fa_filter_spec : option text;
  fa_include_tag : bool;
}.

(** The operations of the trait that a fetch calls; [Pack] is a stream of pack data. *)
Record FetchHandler (Pack : Type) := mk_FetchHandler {
  fh_supports_filtered_fetch : bool;
  fh_supports_shallow_fetch : bool;
  fh_supports_include_tag : bool;
  fh_authorize_fetch : list text → list text → outcome WireError (list text);
  fh_check_commit_exist : text → bool;
  fh_prepare_pack : list text → list text → outcome WireError unit;
  fh_pack_with_options : list text → list text → FetchArgs → outcome WireError (Pack * list text);
}.
Arguments fh_supports_filtered_fetch {Pack} _.
Arguments fh_supports_shallow_fetch {Pack} _.
Arguments fh_supports_include_tag {Pack} _.
Arguments fh_authorize_fetch {Pack} _ _ _.
Arguments fh_check_commit_exist {Pack} _ _.
Arguments fh_prepare_pack {Pack} _ _ _.
Arguments fh_pack_with_options {Pack} _ _ _ _.

(** The pack, absent when the response must not have one, and the bytes before it. *)
Record V2FetchResponse (Pack : Type) := mk_V2FetchResponse {
  fr_pack_data : option Pack;
  fr_protocol_buf : bytes;
}.
Arguments mk_V2FetchResponse {Pack} _ _.
Arguments fr_pack_data {Pack} _.
Arguments fr_protocol_buf {Pack} _.

Section Fetch.
Context `{GitObjects} (object_format : text).

Fixpoint ensure_ref_ids (refs : list Refs) : outcome WireError unit :=
  match refs with
  | [] => Ok tt
  | r :: refs => _ ← ensure_object_id_hex (rf_ref_hash r) (rf_ref_name r); ensure_ref_ids refs
  end.

Definition ensure_advertised_object_ids (head_hash : text) (refs : list Refs) : outcome WireError unit :=
  _ ← ensure_object_id_hex head_hash (lit "HEAD"); ensure_ref_ids refs.

(** With the head and the references that the repository shows to this service. *)
Definition git_info_refs (s : SmartSession) (head_hash : text) (git_refs : list Refs) (supports_include_tag : bool)
    : outcome WireError bytes :=
  _ ← ensure_advertised_object_ids head_hash git_refs;
  let name := if is_protocol_zero_id head_hash then lit "capabilities^{}" else lit "HEAD" in
  let cap_list := advertised_capabilities object_format (ss_service_type s) in
  let cap_list := if bool_decide (ss_service_type s = UploadPackService) && supports_include_tag
                  then cap_list ++ lit " include-tag" else cap_list in
  let pkt_line := head_hash ++ [space] ++ name ++ [0%N] ++ cap_list ++ [newline] in
  let lines := (λ r, rf_ref_hash r ++ [space] ++ rf_ref_name r ++ [newline]) <$> git_refs in
  Ok (build_smart_reply s (pkt_line :: lines) (service_name (ss_service_type s))).

(** ** Version 2 *)

Definition V2_CAPABILITIES : list text := [lit "agent=mega/0.1.0"; lit "ls-refs"; lit "fetch=shallow filter"].

Definition build_v2_capability_advertisement : bytes :=
  add_pkt_line_string (lit "version 2" ++ [newline])
  ++ (V2_CAPABILITIES ≫= λ cap, add_pkt_line_string (cap ++ [newline]))
  ++ add_pkt_line_string (lit "object-format=" ++ object_format ++ [newline]) ++ PKT_LINE_END_MARKER.

Definition line_of (data : bytes) : text := trim_end_matches (N.eqb newline) (from_utf8_lossy data).

Fixpoint v2_command_lines (fuel : nat) (command : text) (capabilities : bytes) (request : bytes)
    : outcome WireError (text * bytes * bytes) :=
  read ← try_read_pkt_line request;
  match read with
  | (PktData data, rest) =>
      match fuel with
      | O => OutOfFuel
      | S fuel =>
          match strip_prefix (lit "command=") (line_of data) with
          | Some cmd => v2_command_lines fuel cmd capabilities rest
          | None => v2_command_lines fuel command (capabilities ++ data) rest
          end
      end
  | (_, rest) => Ok (command, capabilities, rest)
  end.

(** The command, the other lines, and the rest of the request. *)
Definition parse_v2_command (request : bytes) : outcome WireError (text * bytes * bytes) :=
  parsed ← v2_command_lines (length request) [] [] request;
  if bool_decide (parsed.1.1 = []) then Err MissingCommand else Ok parsed.

Definition is_v2_upload_pack_request (body : bytes) : bool :=
  if length body <? 4 then false
  else match try_read_pkt_line body with
  | Ok (PktData data, _) => starts_with (lit "command=") (from_utf8_lossy data)
  | _ => false
  end.

Record LsRefs := mk_LsRefs { ref_prefixes : list text; symrefs : bool; peel : bool }.

Definition ls_refs_line (a : LsRefs) (line : text) : LsRefs :=
  match strip_prefix (lit "ref-prefix ") line with
  | Some value => mk_LsRefs (ref_prefixes a ++ [value]) (symrefs a) (peel a)
  | None =>
      if bool_decide (line = lit "symrefs") then mk_LsRefs (ref_prefixes a) true (peel a)
      else if bool_decide (line = lit "peel") then mk_LsRefs (ref_prefixes a) (symrefs a) true
      else a
  end.

Fixpoint ls_refs_lines (fuel : nat) (a : LsRefs) (request : bytes) : outcome WireError LsRefs :=
  read ← try_read_pkt_line request;
  match read with
  | (PktData data, rest) =>
      match fuel with O => OutOfFuel | S fuel => ls_refs_lines fuel (ls_refs_line a (line_of data)) rest end
  | _ => Ok a
  end.

(** The branch that HEAD stands for. *)
Definition symref_target (head_hash : text) (git_refs : list Refs) : option Refs :=
  let heads r := starts_with (lit "refs/heads/") (rf_ref_name r) in
  let at_head r := bool_decide (rf_ref_hash r = head_hash) in
  match List.find (λ r, rf_default_branch r && at_head r && heads r) git_refs with
  | Some r => Some r
  | None =>
      match List.find (λ r, bool_decide (rf_ref_name r = lit "refs/heads/main") && at_head r) git_refs with
      | Some r => Some r
      | None => List.find (λ r, heads r && at_head r) git_refs
      end
  end.

Definition encode_ls_refs_response (head_hash : text) (git_refs : list Refs) (a : LsRefs) : bytes :=
  (if is_protocol_zero_id head_hash then []
   else match (if symrefs a then symref_target head_hash git_refs else None) with
        | Some target =>
            add_pkt_line_string (head_hash ++ lit " HEAD symref-target:" ++ rf_ref_name target ++ [newline])
        | None => add_pkt_line_string (head_hash ++ lit " HEAD" ++ [newline])
        end)
  ++ (git_refs ≫= λ r,
        if negb (bool_decide (ref_prefixes a = [])) && negb (existsb (λ p, starts_with p (rf_ref_name r)) (ref_prefixes a))
        then []
        else if peel a
        then add_pkt_line_string (rf_ref_hash r ++ [space] ++ rf_ref_name r ++ lit " peeled:" ++ rf_ref_hash r ++ [newline])
        else add_pkt_line_string (rf_ref_hash r ++ [space] ++ rf_ref_name r ++ [newline]))
  ++ PKT_LINE_END_MARKER.

Definition handle_v2_ls_refs (request : bytes) (head_hash : text) (git_refs : list Refs) : outcome WireError bytes :=
  a ← ls_refs_lines (length request) (mk_LsRefs [] false false) request;
  _ ← ensure_advertised_object_ids head_hash git_refs;
  Ok (encode_ls_refs_response head_hash git_refs a).

(** The first word of an argument, which must be an object identifier. *)
Definition object_id_argument (what argument : text) : outcome WireError text :=
  match split_whitespace argument with
  | [] => Err (MissingObjectId what)
  | oid :: _ => _ ← ensure_object_id_hex oid what; Ok oid
  end.

(** One line of a [fetch]; the flag says that the arguments end with it. *)
Definition fetch_line (a : FetchArgs) (line : text) : outcome WireError (FetchArgs * bool) :=
  let '(mk_FetchArgs want have depth relative done_ spec tag) := a in
  match strip_prefix (lit "want ") line with
  | Some arg => oid ← object_id_argument (lit "want") arg; Ok (mk_FetchArgs ({[oid]} ∪ want) have depth relative done_ spec tag, false)
  | None =>
  match strip_prefix (lit "have ") line with
  | Some arg => oid ← object_id_argument (lit "have") arg; Ok (mk_FetchArgs want ({[oid]} ∪ have) depth relative done_ spec tag, false)
  | None =>
  if bool_decide (line = lit "done") then Ok (mk_FetchArgs want have depth relative true spec tag, true)
  else match strip_prefix (lit "deepen ") line with
  | Some depth_str =>
      match parse_u32_signed depth_str with
      | None => Err (InvalidDepth depth_str)
      | Some d => Ok (mk_FetchArgs want have (Some d) relative done_ spec tag, false)
      end
  | None =>
  if bool_decide (line = lit "deepen-relative") then Ok (mk_FetchArgs want have depth true done_ spec tag, false)
  else if starts_with (lit "deepen-since") line || starts_with (lit "deepen-not") line then Err DeepenUnsupported
  else match strip_prefix (lit "filter ") line with
  | Some value => Ok (mk_FetchArgs want have depth relative done_ (Some value) tag, false)
  | None =>
  if bool_decide (line = lit "include-tag") then Ok (mk_FetchArgs want have depth relative done_ spec true, false)
  else Ok (a, false)
  end end end end.

Fixpoint fetch_lines (fuel : nat) (a : FetchArgs) (request : bytes) : outcome WireError FetchArgs :=
  read ← try_read_pkt_line request;
  match read with
  | (PktData data, rest) =>
      match fuel with
      | O => OutOfFuel
      | S fuel =>
          parsed ← fetch_line a (line_of data);
          if parsed.2 : bool then Ok parsed.1 else fetch_lines fuel parsed.1 rest
      end
  | (PktDelim, _) =>
      Ok (mk_FetchArgs (fa_want a) (fa_have a) (fa_deepen_depth a) (fa_deepen_relative a) true (fa_filter_spec a)
            (fa_include_tag a))
  | _ => Ok a
  end.

(** [handle_v2_fetch] up to the call of the handler *)
Definition parse_v2_fetch (request : bytes) : outcome WireError FetchArgs :=
  fetch_lines (length request) (mk_FetchArgs ∅ ∅ None false false None false) request.

Definition add_acknowledgments_section (acked : list text) (ready : bool) : bytes :=
  add_pkt_line_string (lit "acknowledgments" ++ [newline])
  ++ (if bool_decide (acked = []) then add_pkt_line_string (lit "NAK" ++ [newline])
      else acked ≫= λ hash, add_pkt_line_string (lit "ACK " ++ hash ++ [newline]))
  ++ (if ready then add_pkt_line_string (lit "ready" ++ [newline]) ++ PKT_LINE_DELIMITER else PKT_LINE_END_MARKER).

Definition add_shallow_info_section (shallow_commits : list text) : bytes :=
  if bool_decide (shallow_commits = []) then []
  else add_pkt_line_string (lit "shallow-info" ++ [newline])
       ++ (shallow_commits ≫= λ s, add_pkt_line_string (lit "shallow " ++ s ++ [newline])) ++ PKT_LINE_DELIMITER.

Context {Pack : Type} (h : FetchHandler Pack) (iter_set : gset text → list text).

Definition with_include_tag (tag : bool) (a : FetchArgs) : FetchArgs :=
  mk_FetchArgs (fa_want a) (fa_have a) (fa_deepen_depth a) (fa_deepen_relative a) (fa_done a) (fa_filter_spec a) tag.

Definition handle_v2_fetch_with_handler (a : FetchArgs) : outcome WireError (V2FetchResponse Pack) :=
  let want := iter_set (fa_want a) in
  let have := iter_set (fa_have a) in
  let options := with_include_tag (fa_include_tag a && fh_supports_include_tag h) a in
  if bool_decide (is_Some (fa_filter_spec a)) && negb (fh_supports_filtered_fetch h) then Err FilterUnsupported
  else if bool_decide (is_Some (fa_deepen_depth a)) && negb (fh_supports_shallow_fetch h) then Err ShallowUnsupported
  else if bool_decide (is_Some (fa_filter_spec a)) && bool_decide (is_Some (fa_deepen_depth a)) then Err FilterWithShallow
  else if bool_decide (is_Some (fa_deepen_depth a)) && negb (bool_decide (have = [])) then Err ShallowWithHaves
  else
    have ← fh_authorize_fetch h want have;
    let acked := List.filter (fh_check_commit_exist h) have in
    let negotiation := if fa_done a then [] else add_acknowledgments_section acked (negb (bool_decide (acked = []))) in
    if negb (fa_done a) && bool_decide (acked = []) then Ok (mk_V2FetchResponse None negotiation)
    else
      _ ← fh_prepare_pack h want have;
      packed ← fh_pack_with_options h want have options;
      Ok (mk_V2FetchResponse (Some packed.1) (negotiation ++ add_shallow_info_section packed.2)).

Definition handle_v2_fetch (request : bytes) : outcome WireError (V2FetchResponse Pack) :=
  a ← parse_v2_fetch request; handle_v2_fetch_with_handler a.
(** ** Version 0 *)

(** [hex_len] is the number of digits of an identifier. *)
Context (hex_len : nat).

Definition parse_pkt_object_id (dst : bytes) (offset : nat) (what : text) : outcome WireError text :=
  if length dst <=? offset then Err (MissingObjectId what)
  else match from_utf8 (drop offset dst) with
  | None => Err (IdNotUtf8 what)
  | Some rest => object_id_argument what rest
  end.

(** The depth commands; the last ones are only logged. *)
Definition deepen_command (a : FetchArgs) (payload : bytes) : outcome WireError FetchArgs :=
  if starts_with (lit "en ") payload then
    match from_utf8 (drop 3 payload) with
    | None => Err DepthNotUtf8
    | Some depth_str =>
        match parse_u32_signed (trim depth_str) with
        | None => Err (InvalidDepth (trim depth_str))
        | Some d => Ok (mk_FetchArgs (fa_want a) (fa_have a) (Some d) (fa_deepen_relative a) (fa_done a) (fa_filter_spec a)
                          (fa_include_tag a))
        end
    end
  else if starts_with (lit "en-relative") payload then
    Ok (mk_FetchArgs (fa_want a) (fa_have a) (fa_deepen_depth a) true (fa_done a) (fa_filter_spec a) (fa_include_tag a))
  else if starts_with (lit "en-since") payload || starts_with (lit "en-not") payload then Err DeepenUnsupported
  else Ok a.

(** One command: [None] for an unknown one, otherwise the arguments and whether they end. *)
Definition upload_command (a : FetchArgs) (dst : bytes) : outcome WireError (option (FetchArgs * bool)) :=
  let command := take 4 dst in
  if bool_decide (command = lit "want") then
    oid ← parse_pkt_object_id dst 5 (lit "want");
    Ok (Some (mk_FetchArgs ({[oid]} ∪ fa_want a) (fa_have a) (fa_deepen_depth a) (fa_deepen_relative a) (fa_done a)
                (fa_filter_spec a) (fa_include_tag a), false))
  else if bool_decide (command = lit "have") then
    oid ← parse_pkt_object_id dst 5 (lit "have");
    Ok (Some (mk_FetchArgs (fa_want a) ({[oid]} ∪ fa_have a) (fa_deepen_depth a) (fa_deepen_relative a) (fa_done a)
                (fa_filter_spec a) (fa_include_tag a), false))
  else if bool_decide (command = lit "done") then
    Ok (Some (mk_FetchArgs (fa_want a) (fa_have a) (fa_deepen_depth a) (fa_deepen_relative a) true (fa_filter_spec a)
                (fa_include_tag a), true))
  else if bool_decide (command = lit "deep") then a' ← deepen_command a (drop 4 dst); Ok (Some (a', false))
  else Ok None.

(** The capabilities after the first command. *)
Definition first_line (s : SmartSession) (a : FetchArgs) (dst : bytes) : outcome WireError (SmartSession * FetchArgs) :=
  let caps_at := 5 + hex_len + 1 in
  if caps_at <? length dst then
    match from_utf8 (drop caps_at dst) with
    | None => Err CapabilitiesNotUtf8
    | Some caps =>
        Ok (parse_capabilities caps s,
            with_include_tag (existsb (λ c, bool_decide (c = lit "include-tag")) (split_whitespace caps)) a)
    end
  else Ok (s, a).

Fixpoint upload_lines (fuel : nat) (s : SmartSession) (read_first_line : bool) (a : FetchArgs) (bs : bytes)
    : outcome WireError (SmartSession * FetchArgs) :=
  read ← try_read_pkt_line bs;
  match read, fuel with
  | (PktFlush, []), _ => Ok (s, a)
  | (PktFlush, rest), S fuel => upload_lines fuel s read_first_line a rest
  | (PktData dst, rest), S fuel =>
      if length dst <? 4 then Err ShortCommand
      else
        parsed ← upload_command a dst;
        match parsed with
        | None => upload_lines fuel s read_first_line a rest
        | Some (a, true) => Ok (s, a)
        | Some (a, false) =>
            next ← (if read_first_line then Ok (s, a) else first_line s a dst);
            upload_lines fuel next.1 true next.2 rest
        end
  | (PktFlush, _), O | (PktData _, _), O => OutOfFuel
  | _, _ => Err UnexpectedPkt
  end.

Definition parse_upload_request (s : SmartSession) (bs : bytes) : outcome WireError (SmartSession * FetchArgs) :=
  upload_lines (length bs) s false (mk_FetchArgs ∅ ∅ None false false None false) bs.

Definition NAK : bytes := add_pkt_line_string (lit "NAK" ++ [newline]).

(** The answer to wants without haves. *)
Definition upload_clone (a : FetchArgs) (shallow_info_sent : bool) (want : list text) (options : FetchArgs)
    : outcome WireError (option Pack * bytes) :=
  _ ← fh_prepare_pack h want [];
  packed ← fh_pack_with_options h want [] options;
  let deepens := bool_decide (is_Some (fa_deepen_depth a)) in
  let shallow_info :=
    if deepens && negb shallow_info_sent
    then (packed.2 ≫= λ s, add_pkt_line_string (lit "shallow " ++ s ++ [newline])) ++ PKT_LINE_END_MARKER else [] in
  if deepens && negb (fa_done a) then Ok (None, shallow_info) else Ok (Some packed.1, shallow_info ++ NAK).

(** The answer to wants with haves. *)
Definition upload_incremental (s : SmartSession) (want have : list text) (options : FetchArgs)
    : outcome WireError (option Pack * bytes) :=
  if bool_decide (MultiAckDetailed ∈ ss_capabilities s) then
    _ ← fh_prepare_pack h want have;
    let acked := List.filter (fh_check_commit_exist h) have in
    let common := acked ≫= λ hash, add_pkt_line_string (lit "ACK " ++ hash ++ lit " common" ++ [newline]) in
    packed ← fh_pack_with_options h want have options;
    match List.find (λ hash, negb (bool_decide (hash = []))) acked with
    | None => Ok (Some packed.1, common ++ NAK)
    | Some last_common_commit =>
        let ready :=
          if bool_decide (NoDone ∈ ss_capabilities s)
          then want ≫= λ hash, add_pkt_line_string (lit "ACK " ++ hash ++ lit " ready" ++ [newline]) else [] in
        Ok (Some packed.1, common ++ ready ++ add_pkt_line_string (lit "ACK " ++ last_common_commit ++ [space] ++ [newline]))
    end
  else Ok (None, add_pkt_line_string (lit "ACK " ++ [space] ++ [newline])).

(** The pack, if one is sent, and the bytes before it. *)
Definition git_upload_pack (s : SmartSession) (shallow_info_sent : bool) (bs : bytes)
    : outcome WireError (option Pack * bytes) :=
  parsed ← parse_upload_request s bs;
  let '(s, a) := parsed in
  let want := iter_set (fa_want a) in
  let have := iter_set (fa_have a) in
  if bool_decide (want = []) then Ok (None, NAK)
  else if bool_decide (is_Some (fa_deepen_depth a)) && negb (fh_supports_shallow_fetch h) then Err ShallowUnsupported
  else if bool_decide (is_Some (fa_deepen_depth a)) && negb (bool_decide (have = [])) then Err ShallowWithHaves
  else
    have ← fh_authorize_fetch h want have;
    let options := with_include_tag (fa_include_tag a && fh_supports_include_tag h) a in
    if bool_decide (have = []) then upload_clone a shallow_info_sent want options
    else upload_incremental s want have options.
End Fetch.

(** ** The monorepo as a repository *)

Record MonoHandler `{GitCommits} := mk_MonoHandler {
  mh_receive : Receive;
  mh_state : ReceiveState;
  mh_tables : tables;
}.

Arguments mk_MonoHandler {_ _} _ _ _.

Definition notice_text (n : Notice) : text :=
  match n with
  | NothingNew new_id =>
      lit "push contained no new commit objects and " ++ new_id
      ++ lit " is already known; no change list was created or updated"
  | SquashLanded landed => lit "trunk squash landed as " ++ landed ++ lit "; git fetch && git reset --hard origin/main"
  end.

Definition MONOREPO_TAG_REFUSED : text :=
  lit "Monorepo rejects Git-client tag create/update/delete; use Web UI or /tags API".

Definition with_commands (commands : list RefCommand) (rv : Receive) : Receive :=
  mk_Receive (rv_policy rv) (rv_config rv) (rv_max_push_commits rv) (rv_path rv) (rv_username rv)
    (rv_pack_commit_ids rv) (rv_new_commit_ids rv) commands (rv_open_cl rv).

Section MonoHandler.
Context `{GitCommits}.
(** The arguments of [finalize_receive_pack], and what other connections do during it. *)
Context (format_datetime : Z → Z → option text) (error_text : PushError → text).
Context (validate_replay : Db → PushQueueRow → option MegaError).
Context (native : bool) (decode_head : NativeObservation → MegaError + bool) (wait_timeout : Z).
Context (ad : Admission) (rounds : list Round).
Context (review : ReceiveState → tables → tables * ReceiveState * outcome ReceiveError unit).
(** The text of an error as it reaches the client, the reading of packs, the question for an
    object of any kind, and the update of a reference of a change list. *)
Context (receive_error_text : ReceiveError → text).
Context (unpack_stream : bytes → MonoHandler → MonoHandler * option WireError).
Context (receiver_handler : MonoHandler → MonoHandler * option text).
Context (object_exists : MonoDb → text → bool).
Context (apply_cl_ref : RefCommand → MonoHandler → MonoHandler * option text).

Definition monorepo_handler : RepoHandler MonoHandler := {|
  rh_is_monorepo := true;
  rh_check_commit_exist st id := bool_decide (is_Some (mega_commit (mh_tables st).2 !! id));
  rh_check_object_exist st id := object_exists (mh_tables st).2 id;
  rh_unpack_stream := unpack_stream;
  rh_receiver_handler := receiver_handler;
  rh_check_default_branch st := true;
  rh_update_refs c st :=
    match rc_ref_type c with RefTag => (st, Some MONOREPO_TAG_REFUSED) | RefBranch => apply_cl_ref c st end;
  rh_sync_commands_after_unpack commands st :=
    mk_MonoHandler (with_commands commands (mh_receive st)) (mh_state st) (mh_tables st);
  rh_finalize_receive_pack st :=
    let '(s, rs, res) :=
      finalize_receive_pack format_datetime error_text validate_replay native decode_head wait_timeout (mh_receive st) ad
        rounds review (mh_state st) (mh_tables st) in
    (mk_MonoHandler (mh_receive st) rs s, map_err receive_error_text res);
  rh_receive_pack_notice st := notice_text <$> no_op_notice (mh_state st);
  rh_bind_tip_after_receive := false;
  rh_bind_commit_to_user _ st := st;
|}.
End MonoHandler.
