(* ===== verification/SmartWire.v ===== *)
(** * Lemmas on the wire format

    Decoding of UTF-8, packet lines read back from what was written, the words of a
    command, and the packets that a stream consists of ([reads]). *)
From stdpp Require Import base strings sets numbers tactics list gmap.
From S2P Require Import Prelude Text CommitMessage GitObjects GitPath MonoRefs PushChain SmartProtocol.

(** ** UTF-8 *)

#[local] Ltac Zify.zify_post_hook ::= Z.to_euclidean_division_equations.

Lemma in_range_spec lo hi c : in_range lo hi c = true ↔ (lo <= c <= hi)%N.
Proof. unfold in_range. rewrite andb_true_iff, !N.leb_le. done. Qed.

Lemma in_range_false lo hi c : in_range lo hi c = false ↔ (c < lo ∨ hi < c)%N.
Proof. rewrite <-not_true_iff_false, in_range_spec. lia. Qed.

Definition scalars (s : text) : Prop := Forall (λ c, is_scalar c = true) s.

Lemma scalar_range c : is_scalar c = true → (c <= 55295 ∨ 57344 <= c <= 1114111)%N.
Proof. unfold is_scalar. rewrite orb_true_iff, !in_range_spec. lia. Qed.

Lemma utf8_step_char c rest :
  is_scalar c = true → ∃ b bs, utf8_char c = b :: bs ∧ utf8_step b (bs ++ rest) = (Some c, rest).
Proof.
  intros Hc%scalar_range. unfold utf8_char, utf8_step, cont.
  repeat match goal with |- context [N.ltb c ?n] => destruct (N.ltb_spec c n) end;
    eexists _, _; (split; [reflexivity|]); cbn [app];
    repeat match goal with
    | |- context [if N.ltb ?a ?b then _ else _] => destruct (N.ltb_spec a b); try lia
    | |- context [N.eqb ?a ?b] => destruct (N.eqb_spec a b); try lia
    | |- context [in_range ?a ?b ?x] =>
        let E := fresh in destruct (in_range a b x) eqn:E;
        [apply in_range_spec in E|apply in_range_false in E]; try lia
    end; f_equal; f_equal; lia.
Qed.

Lemma utf8_chunks_text fuel s : scalars s → length (utf8 s) ≤ fuel → utf8_chunks fuel (utf8 s) = Some <$> s.
Proof.
  intros Hs. revert fuel. induction Hs as [|c s Hc Hs IH]; intros fuel Hf; [by destruct fuel|].
  destruct (utf8_step_char c (utf8 s) Hc) as (b & bs & Eb & Es).
  unfold utf8 in *. cbn [mbind list_bind] in *. rewrite Eb in *. cbn [app] in *.
  destruct fuel as [|fuel]; simpl in Hf; [lia|]. cbn [utf8_chunks]. rewrite Es. cbn [fmap list_fmap]. f_equal.
  apply IH. rewrite length_app in Hf. lia.
Qed.

Lemma from_utf8_lossy_text s : scalars s → from_utf8_lossy (utf8 s) = s.
Proof.
  intros Hs. unfold from_utf8_lossy. rewrite utf8_chunks_text by done. rewrite <-list_fmap_compose.
  by apply list_fmap_id.
Qed.

Lemma from_utf8_text s : scalars s → from_utf8 (utf8 s) = Some s.
Proof.
  intros Hs. unfold from_utf8. rewrite utf8_chunks_text by done. clear Hs.
  induction s as [|c s IH]; [done|]. cbn. by rewrite IH.
Qed.

(** ** Lengths in hexadecimal *)

Lemma hex_char_digit d : (d < 16)%N → is_ascii_hexdigit (hex_char d) = true.
Proof.
  intros Hd. unfold is_ascii_hexdigit, is_ascii_digit, hex_char. rewrite !orb_true_iff, !in_range_spec.
  destruct (N.ltb_spec d 10); lia.
Qed.

Lemma hex_value_char d : (d < 16)%N → hex_value (hex_char d) = d.
Proof.
  intros Hd. unfold hex_value, hex_char, is_ascii_digit.
  destruct (N.ltb_spec d 10), (in_range 48 57 _) eqn:E; (apply in_range_spec in E || apply in_range_false in E);
    try lia; try (destruct (N.leb_spec 97 (48 + d)); lia); destruct (N.leb_spec 97 (87 + d)); lia.
Qed.

Lemma hex_value_bound c : is_ascii_hexdigit c = true → (hex_value c < 16)%N.
Proof.
  unfold is_ascii_hexdigit, hex_value, is_ascii_digit. rewrite !orb_true_iff, !in_range_spec. intros Hc.
  destruct (in_range 48 57 c) eqn:E; (apply in_range_spec in E || apply in_range_false in E); [lia|].
  destruct (N.leb_spec 97 c); lia.
Qed.

Definition four_digits (n : N) : text :=
  [hex_char (n / 4096); hex_char (n / 256 mod 16); hex_char (n / 16 mod 16); hex_char (n mod 16)]%N.

Lemma hex_digits_step fuel n acc :
  hex_digits (S fuel) n acc
  = if (n <? 16)%N then hex_char (n mod 16) :: acc else hex_digits fuel (n / 16) (hex_char (n mod 16) :: acc).
Proof. done. Qed.

Lemma format_04x_four n : (n < 65536)%N → format_04x n = four_digits n.
Proof.
  intros Hn. unfold format_04x, four_digits. change 16%nat with (S (S (S (S 12)))). rewrite !hex_digits_step.
  assert (n / 16 / 16 = n / 256 ∧ n / 16 / 16 / 16 = n / 4096)%N as [E1 E2] by lia. rewrite E2, E1.
  destruct (N.ltb_spec n 16) as [H1|H1].
  { cbn [length replicate Nat.sub app]. rewrite (N.div_small n 4096), (N.div_small n 256), (N.div_small n 16) by lia. done. }
  destruct (N.ltb_spec (n / 16) 16) as [H2|H2].
  { cbn [length replicate Nat.sub app]. rewrite (N.div_small n 4096), (N.div_small n 256) by lia. done. }
  destruct (N.ltb_spec (n / 256) 16) as [H3|H3].
  { cbn [length replicate Nat.sub app]. rewrite (N.div_small n 4096) by lia. done. }
  destruct (N.ltb_spec (n / 4096) 16) as [H4|H4]; [|lia]. cbn [length replicate Nat.sub app].
  by rewrite (N.mod_small (n / 4096)).
Qed.

Lemma four_digits_hex n : (n < 65536)%N → forallb is_ascii_hexdigit (four_digits n) = true ∧ from_hex (four_digits n) = n.
Proof.
  intros Hn. unfold four_digits, from_hex. cbn [forallb foldl].
  rewrite !hex_char_digit, !hex_value_char by lia. split; [done|lia].
Qed.

Lemma from_hex_bound a b c d : forallb is_ascii_hexdigit [a; b; c; d] = true → (from_hex [a; b; c; d] < 65536)%N.
Proof.
  cbn [forallb]. rewrite !andb_true_iff. intros (Ha & Hb & Hc & Hd & _). unfold from_hex. cbn [foldl].
  apply hex_value_bound in Ha, Hb, Hc, Hd. lia.
Qed.

(** ** Packet lines *)

Definition MAX_PKT_DATA : N := 65531.
Definition fits_pkt (data : bytes) : Prop := (N.of_nat (length data) <= MAX_PKT_DATA)%N.

(** A packet as it is written. *)
Definition pkt (data : bytes) : bytes := format_04x (N.of_nat (length data) + 4) ++ data.

Lemma add_pkt_line_pkt s : add_pkt_line_string s = pkt (utf8 s).
Proof. done. Qed.

Lemma read_pkt data rest : fits_pkt data → try_read_pkt_line (pkt data ++ rest) = Ok (PktData data, rest).
Proof.
  unfold fits_pkt, MAX_PKT_DATA. intros Hl. unfold pkt. set (n := (N.of_nat (length data) + 4)%N). assert (4 <= n < 65536)%N as Hn by lia.
  rewrite format_04x_four by lia. destruct (four_digits_hex n ltac:(lia)) as [Hd Hv]. unfold try_read_pkt_line.
  assert (take 4 ((four_digits n ++ data) ++ rest) = four_digits n) as -> by done.
  assert (drop 4 ((four_digits n ++ data) ++ rest) = data ++ rest) as -> by done.
  rewrite bool_decide_eq_false_2, Hd, Hv by done. cbn [negb].
  assert (length ((four_digits n ++ data) ++ rest) = 4 + length data + length rest) as El by (rewrite !length_app; done).
  rewrite El. destruct (Nat.ltb_spec (4 + length data + length rest) 4); [lia|].
  destruct (N.eqb_spec n 0); [lia|]. destruct (N.eqb_spec n 1); [lia|]. destruct (N.eqb_spec n 2); [lia|].
  destruct (N.eqb_spec n 3); [lia|]. destruct (Nat.ltb_spec (4 + length data + length rest) (N.to_nat n)); [lia|].
  replace (N.to_nat n - 4) with (length data) by lia. rewrite take_app_length.
  rewrite drop_app_length'; [done|]. rewrite length_app. simpl. lia.
Qed.

Lemma pkt_nonempty data rest : fits_pkt data → pkt data ++ rest ≠ [].
Proof. intros Hd E. pose proof (read_pkt data rest Hd) as Hr. by rewrite E in Hr. Qed.

Lemma read_flush rest : try_read_pkt_line (PKT_LINE_END_MARKER ++ rest) = Ok (PktFlush, rest).
Proof. done. Qed.

Lemma read_delim rest : try_read_pkt_line (PKT_LINE_DELIMITER ++ rest) = Ok (PktDelim, rest).
Proof. done. Qed.

(** What is read is shorter, and a packet is bounded. *)
Lemma read_inv bs p rest :
  try_read_pkt_line bs = Ok (p, rest) →
  4 + length rest ≤ length bs ∧ match p with PktData d => fits_pkt d | _ => True end.
Proof.
  unfold try_read_pkt_line. destruct (bool_decide (bs = [])); [done|]. destruct (Nat.ltb_spec (length bs) 4) as [|Hl]; [done|].
  destruct bs as [|a [|b [|c [|d bs]]]]; [simpl in Hl; lia..|].
  change (take 4 (a :: b :: c :: d :: bs)) with [a; b; c; d]. change (drop 4 (a :: b :: c :: d :: bs)) with bs.
  destruct (forallb _ _) eqn:Hd; [|done]. cbn [negb]. apply from_hex_bound in Hd.
  set (n := from_hex [a; b; c; d]) in *. clearbody n.
  destruct (N.eqb_spec n 0); [intros [= <- <-]; simpl; lia|]. destruct (N.eqb_spec n 1); [intros [= <- <-]; simpl; lia|].
  destruct (N.eqb_spec n 2); [intros [= <- <-]; simpl; lia|].
  destruct (N.eqb_spec n 3) as [?|?]; [done|]. destruct (Nat.ltb_spec (length (a :: b :: c :: d :: bs)) (N.to_nat n)) as [|Hn]; [done|].
  intros [= <- <-]. rewrite length_drop. unfold fits_pkt, MAX_PKT_DATA. rewrite length_take. cbn [length] in *. lia.
Qed.

Lemma try_read_answers bs : answers (try_read_pkt_line bs).
Proof. unfold try_read_pkt_line. repeat case_match; done. Qed.

Lemma pkt_length data : fits_pkt data → 1 ≤ length (pkt data).
Proof.
  intros Hd. pose proof (pkt_nonempty data [] Hd) as Hne. rewrite app_nil_r in Hne. destruct (pkt data); [done|cbn [length]; lia].
Qed.

Lemma pkts_length {A} (f : A → bytes) l :
  Forall (λ a, fits_pkt (f a)) l → length l ≤ length (l ≫= λ a, pkt (f a)).
Proof.
  induction 1 as [|a l Ha _ IH]; [cbn; lia|]. rewrite bind_cons, length_app. cbn [length].
  pose proof (pkt_length _ Ha). lia.
Qed.

(** The packets of a stream. *)
Inductive reads : bytes → list PktLine → bytes → Prop :=
  | reads_nil bs : reads bs [] bs
  | reads_cons bs p mid ps rest :
      try_read_pkt_line bs = Ok (p, mid) → reads mid ps rest → reads bs (p :: ps) rest.

Lemma reads_app bs ps mid qs rest : reads bs ps mid → reads mid qs rest → reads bs (ps ++ qs) rest.
Proof. induction 1; [done|]. intros Hr. econstructor; eauto. Qed.

Lemma reads_pkt data rest : fits_pkt data → reads (pkt data ++ rest) [PktData data] rest.
Proof. intros Hd. econstructor; [by apply read_pkt|constructor]. Qed.

Lemma reads_flush rest : reads (PKT_LINE_END_MARKER ++ rest) [PktFlush] rest.
Proof. econstructor; [apply read_flush|constructor]. Qed.

Lemma reads_pkts {A} (f : A → bytes) l rest :
  Forall (λ a, fits_pkt (f a)) l →
  reads ((l ≫= λ a, pkt (f a)) ++ rest) ((λ a, PktData (f a)) <$> l) rest.
Proof.
  induction 1 as [|a l Ha _ IH]; [constructor|]. cbn [mbind list_bind fmap list_fmap]. rewrite <-(assoc_L app).
  econstructor; [by apply read_pkt|done].
Qed.

(** Streams determine their packets. *)
Lemma reads_det bs ps rest qs rest' :
  reads bs ps rest → reads bs qs rest' → length ps = length qs → ps = qs ∧ rest = rest'.
Proof.
  intros Hp. revert qs rest'. induction Hp as [|bs p mid ps rest E _ IH]; intros qs rest' Hq Hl; destruct Hq; try done.
  rewrite E in *. simplify_eq. destruct (IH _ _ ltac:(eassumption) ltac:(simpl in *; lia)) as [-> ->]. done.
Qed.

(** ** Words *)

(** A character that ends a word. *)
Definition ends_word (c : N) : bool := is_ascii_whitespace c || N.eqb c 0.
Definition word (s : text) : Prop := scalars s ∧ Forall (λ c, ends_word c = false) s.

Lemma ends_word_high b : (128 <= b)%N → ends_word b = false.
Proof.
  intros Hb. unfold ends_word, is_ascii_whitespace. rewrite orb_false_iff. split.
  - rewrite bool_decide_eq_false. rewrite !elem_of_cons, elem_of_nil. lia.
  - apply N.eqb_neq. lia.
Qed.

Lemma utf8_word s : Forall (λ c, ends_word c = false) s → Forall (λ b, ends_word b = false) (utf8 s).
Proof.
  induction 1 as [|c s Hc _ IH]; [constructor|]. unfold utf8. cbn [mbind list_bind]. apply Forall_app. split; [|done].
  apply Forall_forall. intros b Hb. destruct (N.ltb_spec c 128) as [Hl|Hl].
  - unfold utf8_char in Hb. rewrite (proj2 (N.ltb_lt c 128)) in Hb by done. by apply list_elem_of_singleton in Hb as ->.
  - apply ends_word_high. by eapply utf8_char_high.
Qed.

Lemma take_word bs sep rest :
  Forall (λ b, ends_word b = false) bs → ends_word sep = true → take_until_white_space (bs ++ sep :: rest) = (bs, rest).
Proof.
  intros Hb Hs. induction Hb as [|b bs Hb _ IH]; cbn [app take_until_white_space].
  - unfold ends_word in Hs. by rewrite Hs.
  - unfold ends_word in Hb. by rewrite Hb, IH.
Qed.

Lemma take_last_word bs : Forall (λ b, ends_word b = false) bs → take_until_white_space bs = (bs, []).
Proof.
  induction 1 as [|b bs Hb _ IH]; [done|]. cbn [take_until_white_space]. unfold ends_word in Hb. by rewrite Hb, IH.
Qed.

Lemma read_word s sep rest :
  word s → ends_word sep = true → read_until_white_space (utf8 s ++ sep :: rest) = (s, rest).
Proof.
  intros [Hs Hw] Hsep. unfold read_until_white_space. rewrite take_word by (done || by apply utf8_word).
  by rewrite from_utf8_lossy_text.
Qed.

Lemma read_last_word s : word s → read_until_white_space (utf8 s) = (s, []).
Proof.
  intros [Hs Hw]. unfold read_until_white_space. rewrite take_last_word by by apply utf8_word.
  by rewrite from_utf8_lossy_text.
Qed.

(** ** Requests *)

(** A command as a client writes it, the first one with the capabilities it wants. *)
Record ClientCommand := mk_ClientCommand { cc_old : text; cc_new : text; cc_ref : text }.

Definition command_text (caps : option text) (c : ClientCommand) : text :=
  cc_old c ++ [space] ++ cc_new c ++ [space] ++ cc_ref c ++ from_option (cons 0%N) [] caps.

Definition client_request (caps : text) (c : ClientCommand) (cs : list ClientCommand) (pack : bytes) : bytes :=
  pkt (utf8 (command_text (Some caps) c)) ++ (cs ≫= λ c, pkt (utf8 (command_text None c))) ++ PKT_LINE_END_MARKER ++ pack.

Definition command_of (c : ClientCommand) : RefCommand := ref_command_new (cc_old c) (cc_new c) (cc_ref c).

Section Requests.
Context `{GitObjects}.

Definition id_text (s : text) : Prop := is_protocol_zero_id s = true ∨ is_Some (from_hex_for_kind s).

(** Identifiers of the hash kind, and words. *)
Record command_ok (caps : option text) (c : ClientCommand) : Prop := {
  co_old : word (cc_old c) ∧ id_text (cc_old c);
  co_new : word (cc_new c) ∧ id_text (cc_new c);
  co_ref : word (cc_ref c);
  co_caps : from_option scalars True caps;
  co_fits : fits_pkt (utf8 (command_text caps c));
}.

Lemma ensure_id s what : id_text s → ensure_object_id_hex s what = Ok tt.
Proof. unfold ensure_object_id_hex. intros [->|[h ->]]; [done|]. by destruct (is_protocol_zero_id s). Qed.

Lemma utf8_cons_ascii c s : (c < 128)%N → utf8 (c :: s) = c :: utf8 s.
Proof. intros Hc. unfold utf8. cbn [mbind list_bind]. unfold utf8_char. by rewrite (proj2 (N.ltb_lt c 128)). Qed.

Lemma parse_capabilities_nil s : parse_capabilities [] s = s.
Proof. by destruct s. Qed.

Lemma parse_command caps c s :
  command_ok caps c →
  parse_receive_pack_command_line s (utf8 (command_text caps c))
  = Ok (parse_capabilities (default [] caps) s, command_of c).
Proof.
  intros [[Hwo Hio] [Hwn Hin] Hwr Hcaps _]. unfold parse_receive_pack_command_line, parse_ref_command, command_text.
  rewrite utf8_app. cbn [app]. rewrite utf8_cons_ascii by done. rewrite read_word by done.
  rewrite utf8_app, utf8_cons_ascii by done. rewrite read_word by done. rewrite utf8_app.
  assert (read_until_white_space (utf8 (cc_ref c) ++ utf8 (from_option (cons 0%N) [] caps))
          = (cc_ref c, utf8 (default [] caps))) as ->.
  { destruct caps as [caps|]; cbn [from_option default].
    - rewrite utf8_cons_ascii by done. by rewrite read_word.
    - change (utf8 []) with (@nil N). rewrite app_nil_r. by rewrite read_last_word. }
  cbn [rc_old_id rc_new_id ref_command_new]. rewrite !ensure_id by done. cbn [mbind outcome_bind].
  rewrite from_utf8_text; [done|]. destruct caps; [done|constructor].
Qed.

(** Enough fuel for what is left to read. *)
Lemma split_commands_text fuel s cmds cs pack :
  Forall (command_ok None) cs → length cs ≤ fuel → cmds ++ (command_of <$> cs) ≠ [] →
  (pack = [] ∨ starts_with (lit "PACK") pack = true) →
  split_commands fuel s cmds ((cs ≫= λ c, pkt (utf8 (command_text None c))) ++ PKT_LINE_END_MARKER ++ pack)
  = Ok (s, cmds ++ (command_of <$> cs), pack).
Proof.
  intros Hcs Hf Hne Hp. revert fuel cmds Hf Hne. induction Hcs as [|c cs Hc _ IH]; intros fuel cmds Hf Hne.
  - cbn [mbind list_bind app fmap list_fmap] in *. rewrite app_nil_r in *.
    assert (split_commands fuel s cmds (PKT_LINE_END_MARKER ++ pack)
      = if bool_decide (cmds = []) then Err NoCommands else if bool_decide (pack = []) then Ok (s, cmds, pack)
        else if negb (starts_with (lit "PACK") pack) then Err NotAPack else Ok (s, cmds, pack)) as -> by by destruct fuel.
    rewrite bool_decide_eq_false_2 by done. destruct (bool_decide (pack = [])) eqn:E; [done|].
    apply bool_decide_eq_false in E. destruct Hp as [?| ->]; done.
  - destruct fuel as [|fuel]; [simpl in Hf; lia|]. cbn [mbind list_bind fmap list_fmap] in *. rewrite <-(assoc_L app).
    cbn [split_commands]. rewrite bool_decide_eq_false_2 by (apply pkt_nonempty, Hc).
    rewrite read_pkt by apply Hc. cbn [mbind outcome_bind]. rewrite parse_command by done.
    cbn [mbind outcome_bind fst snd default]. rewrite parse_capabilities_nil, IH; [|simpl in Hf; lia|by destruct cmds].
    by rewrite <-(assoc_L app).
Qed.

Lemma split_request_text s caps c cs pack :
  command_ok (Some caps) c → Forall (command_ok None) cs → (pack = [] ∨ starts_with (lit "PACK") pack = true) →
  split_receive_pack_request s (client_request caps c cs pack)
  = Ok (parse_capabilities caps s, command_of <$> c :: cs, pack).
Proof.
  intros Hc Hcs Hp.
  unfold split_receive_pack_request, client_request. pose proof (co_fits _ _ Hc) as Hfit.
  set (rest := (cs ≫= _) ++ PKT_LINE_END_MARKER ++ pack).
  assert (∃ fuel, length (pkt (utf8 (command_text (Some caps) c)) ++ rest) = S fuel ∧ length cs ≤ fuel) as (fuel & -> & Hf).
  { pose proof (pkts_length (λ c, utf8 (command_text None c)) cs) as Hlen.
    specialize (Hlen ltac:(eapply Forall_impl; [exact Hcs|]; by intros x [])). pose proof (pkt_length _ Hfit) as H1.
    exists (length (pkt (utf8 (command_text (Some caps) c)) ++ rest) - 1). unfold rest. rewrite !length_app.
    cbn beta in Hlen. lia. }
  cbn [split_commands]. rewrite bool_decide_eq_false_2 by by apply pkt_nonempty. rewrite read_pkt by done.
  cbn [mbind outcome_bind]. rewrite parse_command by done. cbn [mbind outcome_bind fst snd default app].
  unfold rest. by rewrite split_commands_text.
Qed.

(** Reading a request ends. *)
Lemma split_commands_answers fuel s cmds bs : length bs ≤ fuel → answers (split_commands fuel s cmds bs).
Proof.
  revert s cmds bs. induction fuel as [|fuel IH]; intros s cmds bs Hf; cbn [split_commands].
  { destruct bs; [done|simpl in Hf; lia]. }
  destruct (bool_decide (bs = [])); [done|]. apply answers_bind; [apply try_read_answers|].
  intros [p rest] Hr. pose proof (read_inv _ _ _ Hr) as [Hl _]. destruct p as [data| | |]; [|by repeat case_match|done|done].
  apply answers_bind; [|intros parsed _; apply IH; lia].
  unfold parse_receive_pack_command_line, ensure_object_id_hex. destruct (parse_ref_command data) as [c r].
  repeat (apply answers_bind; [by repeat case_match|intros ? _]). by destruct (from_utf8 r).
Qed.
End Requests.

(** ** The checks on commands *)

Section Guards.
Context (is_monorepo pack_less : bool) (commit_exists object_exists : text → bool).

Definition target_exists (c : RefCommand) : bool :=
  match rc_ref_type c with RefBranch => commit_exists (rc_new_id c) | RefTag => object_exists (rc_new_id c) end.

(** Why a command is refused for itself. *)
Definition own_refusal (c : RefCommand) : option text :=
  let deletes := bool_decide (rc_command_type c = CmdDelete) in
  if is_monorepo && deletes && bool_decide (rc_ref_name c = MEGA_BRANCH_NAME) then Some DELETE_MAIN_NG
  else if is_monorepo && bool_decide (rc_ref_type c = RefTag) then Some MONOREPO_TAG_NG
  else if pack_less && negb deletes && negb (target_exists c) then Some (missing_target c)
  else None.

Definition refused (r : option text) (c : RefCommand) : RefCommand :=
  if status_ok c then from_option (λ msg, ref_command_failed msg c) c r else c.

(** A branch update that nothing speaks against. *)
Definition good_update (c : RefCommand) : bool := is_branch_update c && bool_decide (own_refusal c = None).

(** Why a command is refused after the commands before it. *)
Definition refusal (before : list RefCommand) (c : RefCommand) : option text :=
  match own_refusal c with
  | Some msg => Some msg
  | None => if is_monorepo && is_branch_update c && existsb good_update before then Some MONOREPO_EXTRA_BRANCH_NG else None
  end.

Fixpoint judge (before commands : list RefCommand) : list RefCommand :=
  match commands with
  | [] => []
  | c :: commands => refused (refusal before c) c :: judge (before ++ [c]) commands
  end.

Lemma failed_status msg c : status_ok (ref_command_failed msg c) = false.
Proof. done. Qed.

Lemma refused_update r c : is_branch_update (refused r c) = is_branch_update c && bool_decide (r = None).
Proof.
  unfold refused. destruct (status_ok c) eqn:Es; [|unfold is_branch_update, status_ok in *; by rewrite Es].
  destruct r as [msg|]; cbn [from_option]; [|by rewrite bool_decide_eq_true_2, andb_true_r].
  rewrite bool_decide_eq_false_2 by done. by rewrite andb_false_r.
Qed.

(** The answers that were asked for. *)
Lemma target_hits_lookup kind exist l c :
  c ∈ l → status_ok c = true → rc_command_type c ≠ CmdDelete → rc_ref_type c = kind →
  target_hits kind exist l !! rc_new_id c = Some (exist (rc_new_id c)).
Proof.
  intros Hc Hs Hd Hk. unfold target_hits.
  assert (∀ hits, hits !! rc_new_id c = Some (exist (rc_new_id c)) ∨ c ∈ l →
    foldl (add_hit kind exist) hits l !! rc_new_id c = Some (exist (rc_new_id c))) as Hgen;
    [|by apply Hgen; right].
  clear Hc. induction l as [|x l IH]; intros hits Hh; cbn [foldl]; [destruct Hh as [?|[]%elem_of_nil]; done|].
  apply IH. destruct Hh as [Hh|[<-|Hh]%elem_of_cons]; [left|left|by right]; unfold add_hit.
  - case_match; [done|]. destruct (decide (rc_new_id x = rc_new_id c)) as [->|Hne]; [by rewrite lookup_insert_eq|].
    by rewrite lookup_insert_ne.
  - rewrite Hs, bool_decide_eq_false_2, bool_decide_eq_true_2 by done. cbn. by rewrite lookup_insert_eq.
Qed.

Lemma reject_missing_hits l c :
  c ∈ l →
  reject_missing (λ h, default false (target_hits RefBranch commit_exists l !! h))
    (λ h, default false (target_hits RefTag object_exists l !! h)) c
  = reject_missing commit_exists object_exists c.
Proof.
  intros Hc. unfold reject_missing. destruct (status_ok c) eqn:Hs; [|done]. cbn [negb orb].
  destruct (bool_decide (rc_command_type c = CmdDelete)) eqn:Hd; [done|]. apply bool_decide_eq_false in Hd.
  destruct (rc_ref_type c) eqn:Hk; by rewrite (target_hits_lookup _ _ l c Hc Hs Hd Hk).
Qed.

Lemma own_checks c :
  (if pack_less then reject_missing commit_exists object_exists else id)
    ((if is_monorepo then reject_disallowed else id) c) = refused (own_refusal c) c.
Proof.
  unfold refused, own_refusal, reject_disallowed, reject_missing, target_exists.
  destruct (status_ok c) eqn:Hs; [|by destruct pack_less, is_monorepo; cbn [id]; rewrite ?Hs; cbn; rewrite ?Hs].
  destruct is_monorepo; cbn [id andb].
  - rewrite Hs. cbn [negb]. destruct (bool_decide (rc_command_type c = CmdDelete)) eqn:Hd,
      (bool_decide (rc_ref_name c = MEGA_BRANCH_NAME)); cbn [andb]; try by destruct pack_less.
    all: destruct (bool_decide (rc_ref_type c = RefTag)); [by destruct pack_less|].
    all: destruct pack_less; cbn [id andb negb]; [|done]; rewrite Hs, Hd; cbn [negb orb andb]; try done.
    all: by destruct (rc_ref_type c), (_ (rc_new_id c)).
  - destruct pack_less; cbn [id andb]; [|done]. rewrite Hs. cbn [negb orb].
    destruct (bool_decide (rc_command_type c = CmdDelete)); cbn [negb andb]; [done|].
    by destruct (rc_ref_type c), (_ (rc_new_id c)).
Qed.

(** The last check goes from command to command. *)
Lemma reject_extra_judge before l :
  is_monorepo = true →
  reject_extra (existsb good_update before) ((λ c, refused (own_refusal c) c) <$> l) = judge before l.
Proof.
  intros Hm. revert before. induction l as [|c l IH]; intros before; [done|]. cbn [fmap list_fmap reject_extra judge].
  rewrite <-IH, existsb_app. cbn [existsb]. rewrite orb_false_r, refused_update. unfold refusal. rewrite Hm. cbn [andb].
  change (good_update c) with (is_branch_update c && bool_decide (own_refusal c = None)). destruct (own_refusal c) as [msg|] eqn:Eo.
  { rewrite bool_decide_eq_false_2 by done. by rewrite andb_false_r, orb_false_r. }
  rewrite bool_decide_eq_true_2, andb_true_r by done. destruct (is_branch_update c) eqn:Eu; cbn [andb].
  - rewrite orb_true_r. destruct (existsb good_update before); [|done]. f_equal. unfold refused.
    unfold is_branch_update in Eu. bool_prop. unfold status_ok. by rewrite bool_decide_eq_true_2.
  - by rewrite orb_false_r.
Qed.

Lemma judge_alone before l : is_monorepo = false → judge before l = (λ c, refused (own_refusal c) c) <$> l.
Proof.
  intros Hm. revert before. induction l as [|c l IH]; intros before; [done|]. cbn [judge fmap list_fmap].
  rewrite IH. unfold refusal. rewrite Hm. by destruct (own_refusal c).
Qed.

Lemma guards_judge l :
  apply_receive_pack_status_guards is_monorepo pack_less commit_exists object_exists l = judge [] l.
Proof.
  unfold apply_receive_pack_status_guards, reject_monorepo_disallowed_commands, reject_packless_missing_targets,
    reject_extra_monorepo_branch_updates.
  set (l1 := if is_monorepo then reject_disallowed <$> l else l).
  assert (l1 = (if is_monorepo then reject_disallowed else id) <$> l) as E1.
  { unfold l1. destruct is_monorepo; [done|by rewrite list_fmap_id]. }
  assert ((if pack_less then
       reject_missing (λ h, default false (target_hits RefBranch commit_exists l1 !! h))
         (λ h, default false (target_hits RefTag object_exists l1 !! h)) <$> l1 else l1)
    = (λ c, refused (own_refusal c) c) <$> l) as ->.
  { transitivity ((if pack_less then reject_missing commit_exists object_exists else id) <$> l1).
    - destruct pack_less; [|by rewrite list_fmap_id]. apply list_fmap_ext. intros i c Hc. apply reject_missing_hits.
      by eapply list_elem_of_lookup_2.
    - rewrite E1, <-list_fmap_compose. apply list_fmap_ext. intros i c _. apply own_checks. }
  destruct is_monorepo eqn:Hm; [by apply (reject_extra_judge [])|by rewrite judge_alone].
Qed.

Lemma judge_lookup before l i c : l !! i = Some c → judge before l !! i = Some (refused (refusal (before ++ take i l) c) c).
Proof.
  revert before i. induction l as [|x l IH]; intros before [|i] Hi; [done..| |]; cbn [judge lookup list_lookup] in *.
  - injection Hi as ->. cbn. by rewrite app_nil_r.
  - rewrite (IH _ i Hi). cbn [firstn take]. by rewrite <-(assoc_L app).
Qed.

Lemma judge_length before l : length (judge before l) = length l.
Proof. revert before. induction l as [|c l IH]; intros before; cbn; [done|by rewrite IH]. Qed.
End Guards.

(** ** Fetch requests *)

Lemma split_whitespace_aux_word acc w :
  Forall (λ c, is_whitespace c = false) w → reverse acc ++ w ≠ [] → split_whitespace_aux acc w = [reverse acc ++ w].
Proof.
  intros Hw. revert acc. induction Hw as [|c w Hc _ IH]; intros acc Hne; cbn [split_whitespace_aux].
  - rewrite app_nil_r in *. rewrite bool_decide_eq_false_2; [done|]. intros ->. done.
  - rewrite Hc, IH by (rewrite reverse_cons, <-(assoc_L app); by destruct (reverse acc)). by rewrite reverse_cons, <-(assoc_L app).
Qed.

Lemma split_whitespace_word w : Forall (λ c, is_whitespace c = false) w → w ≠ [] → split_whitespace w = [w].
Proof. intros Hw Hne. by apply (split_whitespace_aux_word []). Qed.

Lemma line_of_text t : scalars t → last t ≠ Some newline → line_of (utf8 (t ++ [newline])) = t.
Proof.
  intros Ht Hl. unfold line_of. rewrite from_utf8_lossy_text by (apply Forall_app; split; [done|by repeat constructor]).
  unfold trim_end_matches. rewrite reverse_snoc. cbn [trim_start_matches]. rewrite N.eqb_refl.
  rewrite <-(reverse_involutive t) at 2. f_equal. rewrite <-head_reverse in Hl. destruct (reverse t) as [|c r]; [done|].
  cbn [trim_start_matches]. destruct (N.eqb_spec newline c) as [<-|]; [done|done].
Qed.

(** An argument line as a client writes it. *)
Definition line_pkt (t : text) : bytes := pkt (utf8 (t ++ [newline])).
Definition line_ok (t : text) : Prop := scalars t ∧ last t ≠ Some newline ∧ fits_pkt (utf8 (t ++ [newline])).

Section Fetches.
Context `{GitObjects}.

(** A word that is an identifier. *)
Record oid_word (w : text) : Prop := {
  ow_id : id_text w;
  ow_scalars : scalars w;
  ow_word : Forall (λ c, is_whitespace c = false) w;
  ow_nonempty : w ≠ [];
}.

Lemma object_id_word what w : oid_word w → object_id_argument what w = Ok w.
Proof. intros [Hi _ Hw Hne]. unfold object_id_argument. rewrite split_whitespace_word by done. by rewrite ensure_id. Qed.

Lemma fetch_lines_run {A} (text_of : A → text) (step : FetchArgs → A → FetchArgs) l fuel a rest :
  Forall (λ x, line_ok (text_of x) ∧ ∀ a, fetch_line a (text_of x) = Ok (step a x, false)) l → length l ≤ fuel →
  fetch_lines fuel a ((l ≫= λ x, line_pkt (text_of x)) ++ rest) = fetch_lines (fuel - length l) (foldl step a l) rest.
Proof.
  intros Hl. revert fuel a. induction Hl as [|x l [(Hs & Hn & Hf) Hx] _ IH]; intros fuel a Hle.
  - cbn. by rewrite Nat.sub_0_r.
  - destruct fuel as [|fuel]; [simpl in Hle; lia|]. rewrite bind_cons, <-(assoc_L app). cbn [fetch_lines].
    unfold line_pkt at 1. rewrite read_pkt by done. cbn [mbind outcome_bind]. rewrite line_of_text, Hx by done.
    cbn [mbind outcome_bind fst snd foldl length Nat.sub]. apply IH. simpl in Hle. lia.
Qed.

Lemma fetch_lines_answers fuel a bs : length bs ≤ fuel → answers (fetch_lines fuel a bs).
Proof.
  revert a bs. induction fuel as [|fuel IH]; intros a bs Hf; cbn [fetch_lines];
    (apply answers_bind; [apply try_read_answers|]); intros [p rest] Hr; pose proof (read_inv _ _ _ Hr) as [Hl _].
  { simpl in *. lia. }
  destruct p as [data| | |]; [|done..]. apply answers_bind; [|intros [a' []] _; [done|apply IH; lia]].
  unfold fetch_line, object_id_argument, ensure_object_id_hex. destruct a as [? ? ? ? ? ? ?].
  repeat (case_match || (apply answers_bind; [|intros ? _])); done.
Qed.

(** A fetch as a client asks for it. *)
Definition client_fetch (wants haves : list text) (done : bool) : bytes :=
  (wants ≫= λ w, line_pkt (lit "want " ++ w)) ++ (haves ≫= λ w, line_pkt (lit "have " ++ w))
  ++ (if done then line_pkt (lit "done") else []) ++ PKT_LINE_END_MARKER.

Definition want_step (a : FetchArgs) (w : text) : FetchArgs :=
  mk_FetchArgs ({[w]} ∪ fa_want a) (fa_have a) (fa_deepen_depth a) (fa_deepen_relative a) (fa_done a) (fa_filter_spec a)
    (fa_include_tag a).
Definition have_step (a : FetchArgs) (w : text) : FetchArgs :=
  mk_FetchArgs (fa_want a) ({[w]} ∪ fa_have a) (fa_deepen_depth a) (fa_deepen_relative a) (fa_done a) (fa_filter_spec a)
    (fa_include_tag a).

Lemma want_line a w : oid_word w → fetch_line a (lit "want " ++ w) = Ok (want_step a w, false).
Proof.
  intros Hw. unfold fetch_line. destruct a. rewrite strip_prefix_app, object_id_word by done. done.
Qed.

Lemma have_line a w : oid_word w → fetch_line a (lit "have " ++ w) = Ok (have_step a w, false).
Proof.
  intros Hw. unfold fetch_line. destruct a. assert (strip_prefix (lit "want ") (lit "have " ++ w) = None) as -> by done.
  rewrite strip_prefix_app, object_id_word by done. done.
Qed.

Lemma oid_line_last (p w : text) : oid_word w → last (p ++ w) ≠ Some newline.
Proof.
  intros [_ _ Hw Hne] Hl. rewrite last_app in Hl. destruct (last w) as [c|] eqn:E; [|by apply last_None in E].
  injection Hl as ->. apply last_Some in E as [l ->]. apply Forall_app in Hw as [_ Hw]. apply Forall_cons in Hw as [Hw _]. done.
Qed.

Lemma oid_line_ok (p w : text) : oid_word w → scalars p → fits_pkt (utf8 ((p ++ w) ++ [newline])) → line_ok (p ++ w).
Proof. intros Hw Hp Hf. split; [by apply Forall_app; split; [|apply Hw]|]. split; [by apply oid_line_last|done]. Qed.

Lemma want_fold a l :
  foldl want_step a l
  = mk_FetchArgs (list_to_set l ∪ fa_want a) (fa_have a) (fa_deepen_depth a) (fa_deepen_relative a) (fa_done a)
      (fa_filter_spec a) (fa_include_tag a).
Proof.
  revert a. induction l as [|w l IH]; intros a; cbn [foldl]; [destruct a; cbn; f_equal; set_solver|].
  rewrite IH. unfold want_step. cbn. f_equal. set_solver.
Qed.

Lemma have_fold a l :
  foldl have_step a l
  = mk_FetchArgs (fa_want a) (list_to_set l ∪ fa_have a) (fa_deepen_depth a) (fa_deepen_relative a) (fa_done a)
      (fa_filter_spec a) (fa_include_tag a).
Proof.
  revert a. induction l as [|w l IH]; intros a; cbn [foldl]; [destruct a; cbn; f_equal; set_solver|].
  rewrite IH. unfold have_step. cbn. f_equal. set_solver.
Qed.

Lemma parse_client_fetch wants haves done_ :
  Forall (λ w, oid_word w ∧ fits_pkt (utf8 ((lit "want " ++ w) ++ [newline]))) wants →
  Forall (λ w, oid_word w ∧ fits_pkt (utf8 ((lit "have " ++ w) ++ [newline]))) haves →
  parse_v2_fetch (client_fetch wants haves done_)
  = Ok (mk_FetchArgs (list_to_set wants) (list_to_set haves) None false done_ None false).
Proof.
  intros Hw Hh. unfold parse_v2_fetch, client_fetch.
  pose proof (pkts_length (λ w, utf8 ((lit "want " ++ w) ++ [newline])) wants ltac:(by eapply Forall_impl; [exact Hw|intros ? []])) as Lw.
  pose proof (pkts_length (λ w, utf8 ((lit "have " ++ w) ++ [newline])) haves ltac:(by eapply Forall_impl; [exact Hh|intros ? []])) as Lh.
  set (tail_ := (if done_ then line_pkt (lit "done") else []) ++ PKT_LINE_END_MARKER).
  assert (4 ≤ length tail_) as Lt by (unfold tail_; rewrite length_app; simpl; lia).
  match goal with |- fetch_lines ?n _ _ = _ => assert (length wants + length haves + 4 ≤ n) as Hn end.
  { rewrite !length_app. unfold line_pkt. lia. }
  generalize dependent (length ((wants ≫= λ w, line_pkt (lit "want " ++ w)) ++ (haves ≫= λ w, line_pkt (lit "have " ++ w)) ++ tail_)).
  intros n Hn. rewrite (fetch_lines_run (λ w, lit "want " ++ w) want_step); [|eapply Forall_impl; [exact Hw|]|lia].
  2: { intros w [Ho Hf]. split; [apply oid_line_ok; [done|by repeat constructor|done]|intros; by apply want_line]. }
  rewrite (fetch_lines_run (λ w, lit "have " ++ w) have_step); [|eapply Forall_impl; [exact Hh|]|lia].
  2: { intros w [Ho Hf]. split; [apply oid_line_ok; [done|by repeat constructor|done]|intros; by apply have_line]. }
  rewrite have_fold, want_fold. cbn [fa_want fa_have fa_deepen_depth fa_deepen_relative fa_done fa_filter_spec fa_include_tag].
  rewrite !(right_id_L ∅ (∪)). unfold tail_. destruct (n - length wants - length haves) as [|m] eqn:Em; [lia|]. by destruct done_.
Qed.
End Fetches.

(** ** Requests of version 0 *)

Lemma split_whitespace_aux_head acc w c rest :
  Forall (λ c, is_whitespace c = false) w → reverse acc ++ w ≠ [] → is_whitespace c = true →
  split_whitespace_aux acc (w ++ c :: rest) = (reverse acc ++ w) :: split_whitespace rest.
Proof.
  intros Hw. revert acc. induction Hw as [|x w Hx _ IH]; intros acc Hne Hc; cbn [app split_whitespace_aux].
  - rewrite Hc, app_nil_r in *. rewrite bool_decide_eq_false_2; [done|]. by intros ->.
  - rewrite Hx, IH by (done || rewrite reverse_cons, <-(assoc_L app); by destruct (reverse acc)).
    by rewrite reverse_cons, <-(assoc_L app).
Qed.

Lemma split_whitespace_head w c rest :
  Forall (λ c, is_whitespace c = false) w → w ≠ [] → is_whitespace c = true →
  split_whitespace (w ++ c :: rest) = w :: split_whitespace rest.
Proof. intros Hw Hne Hc. by apply (split_whitespace_aux_head []). Qed.

Section Uploads.
Context `{GitObjects} (hex_len : nat).

(** A fetch as a client of version 0 asks for it. *)
Definition client_upload (caps w : text) (ws haves : list text) (done : bool) : bytes :=
  line_pkt (lit "want " ++ w ++ [space] ++ caps) ++ (ws ≫= λ w, line_pkt (lit "want " ++ w)) ++ PKT_LINE_END_MARKER
  ++ (haves ≫= λ w, line_pkt (lit "have " ++ w)) ++ (if done then line_pkt (lit "done") else PKT_LINE_END_MARKER).

Lemma object_id_at what w rest :
  oid_word w → scalars rest → head rest = Some newline ∨ head rest = Some space →
  object_id_argument what (w ++ rest) = Ok w.
Proof.
  intros [Hi _ Hw Hne] _ Hr. unfold object_id_argument. destruct rest as [|c rest]; [by destruct Hr|].
  rewrite split_whitespace_head by (done || by destruct Hr as [[= ->]|[= ->]]). by rewrite ensure_id.
Qed.

Lemma upload_oid (p w rest : text) :
  length (utf8 p) = 5 → oid_word w → scalars rest → head rest = Some newline ∨ head rest = Some space →
  parse_pkt_object_id (utf8 (p ++ w ++ rest)) 5 (take 4 p) = Ok w.
Proof.
  intros Hp Hw Hs Hr. unfold parse_pkt_object_id. rewrite utf8_app, length_app, Hp.
  destruct (Nat.leb_spec (5 + length (utf8 (w ++ rest))) 5) as [Hl|_].
  { exfalso. assert (utf8 (w ++ rest) = []) as E by (apply length_zero_iff_nil; lia).
    assert (w ++ rest = []) as E' by (by apply utf8_inj). apply (ow_nonempty _ Hw). by destruct w. }
  rewrite drop_app_length' by done. rewrite from_utf8_text by (apply Forall_app; split; [apply Hw|done]).
  by apply object_id_at.
Qed.

Lemma upload_want a w rest :
  oid_word w → scalars rest → head rest = Some newline ∨ head rest = Some space →
  upload_command a (utf8 (lit "want " ++ w ++ rest)) = Ok (Some (want_step a w, false)).
Proof.
  intros Hw Hs Hr. unfold upload_command.
  assert (take 4 (utf8 (lit "want " ++ w ++ rest)) = lit "want") as -> by done.
  rewrite bool_decide_eq_true_2 by done. change (lit "want") with (take 4 (lit "want ")). by rewrite upload_oid.
Qed.

Lemma upload_have a w :
  oid_word w → upload_command a (utf8 ((lit "have " ++ w) ++ [newline])) = Ok (Some (have_step a w, false)).
Proof.
  intros Hw. rewrite <-(assoc_L app). unfold upload_command.
  assert (take 4 (utf8 (lit "have " ++ w ++ [newline])) = lit "have") as -> by done.
  rewrite bool_decide_eq_false_2, bool_decide_eq_true_2 by done. change (lit "have") with (take 4 (lit "have ")).
  rewrite upload_oid; [done|done|done|by repeat constructor|by left].
Qed.

Lemma upload_lines_run {A} (text_of : A → text) (step : FetchArgs → A → FetchArgs) l fuel s a rest :
  Forall (λ x, fits_pkt (utf8 (text_of x ++ [newline])) ∧ 4 ≤ length (utf8 (text_of x ++ [newline]))
               ∧ ∀ a, upload_command a (utf8 (text_of x ++ [newline])) = Ok (Some (step a x, false))) l →
  length l ≤ fuel →
  upload_lines hex_len fuel s true a ((l ≫= λ x, line_pkt (text_of x)) ++ rest)
  = upload_lines hex_len (fuel - length l) s true (foldl step a l) rest.
Proof.
  intros Hl. revert fuel a. induction Hl as [|x l (Hf & H4 & Hx) _ IH]; intros fuel a Hle.
  - cbn. by rewrite Nat.sub_0_r.
  - destruct fuel as [|fuel]; [simpl in Hle; lia|]. rewrite bind_cons, <-(assoc_L app). cbn [upload_lines].
    unfold line_pkt at 1. rewrite read_pkt by done. cbn [mbind outcome_bind].
    destruct (Nat.ltb_spec (length (utf8 (text_of x ++ [newline]))) 4); [lia|]. rewrite Hx.
    cbn [mbind outcome_bind fst snd foldl length Nat.sub]. apply IH. simpl in Hle. lia.
Qed.

Lemma upload_answers fuel s first a bs : length bs ≤ fuel → answers (upload_lines hex_len fuel s first a bs).
Proof.
  revert s first a bs. induction fuel as [|fuel IH]; intros s first a bs Hf; cbn [upload_lines];
    (apply answers_bind; [apply try_read_answers|]); intros [p rest] Hr; pose proof (read_inv _ _ _ Hr) as [Hl _].
  { simpl in *. lia. }
  destruct p as [dst| | |]; [|destruct rest; [done|apply IH; lia]|done|done].
  destruct (length dst <? 4); [done|]. apply answers_bind.
  - unfold upload_command, parse_pkt_object_id, deepen_command, object_id_argument, ensure_object_id_hex.
    repeat (case_match || (apply answers_bind; [|intros ? _])); done.
  - intros [[a' []]|] _; [done| |apply IH; lia]. apply answers_bind; [|intros ? _; apply IH; lia].
    unfold first_line. by repeat case_match.
Qed.

Lemma oid_lines (p : text) l (step : FetchArgs → text → FetchArgs) :
  (∀ a w, oid_word w → upload_command a (utf8 ((p ++ w) ++ [newline])) = Ok (Some (step a w, false))) →
  length (utf8 p) = 5 → Forall (λ w, oid_word w ∧ fits_pkt (utf8 ((p ++ w) ++ [newline]))) l →
  Forall (λ w, fits_pkt (utf8 ((p ++ w) ++ [newline])) ∧ 4 ≤ length (utf8 ((p ++ w) ++ [newline]))
               ∧ ∀ a, upload_command a (utf8 ((p ++ w) ++ [newline])) = Ok (Some (step a w, false))) l.
Proof.
  intros Hstep Hp Hl. eapply Forall_impl; [exact Hl|]. intros w [Hw Hf]. split; [done|]. split; [|auto].
  rewrite <-(assoc_L app), utf8_app, length_app. lia.
Qed.

(** The capabilities behind the first want. *)
Lemma first_line_caps s a caps w :
  length (utf8 w) = hex_len → scalars caps →
  first_line hex_len s a (utf8 (lit "want " ++ w ++ [space] ++ caps ++ [newline]))
  = Ok (parse_capabilities (caps ++ [newline]) s,
        with_include_tag (existsb (λ c, bool_decide (c = lit "include-tag")) (split_whitespace (caps ++ [newline]))) a).
Proof.
  intros Hlen Hcaps. unfold first_line.
  assert (drop (5 + hex_len + 1) (utf8 (lit "want " ++ w ++ [space] ++ caps ++ [newline])) = utf8 (caps ++ [newline])) as Hdrop.
  { rewrite !(utf8_app (lit "want ")), utf8_app, (utf8_app [space]). rewrite !(assoc_L app). apply drop_app_length'.
    rewrite !length_app, Hlen. change (length (utf8 (lit "want "))) with 5. change (length (utf8 [space])) with 1. lia. }
  match goal with |- context [?m <? ?x] => assert (m < x) as Hc end.
  { assert (drop (5 + hex_len + 1) (utf8 (lit "want " ++ w ++ [space] ++ caps ++ [newline])) ≠ []) as Hne.
    { rewrite Hdrop, utf8_app. by destruct (utf8 caps). }
    apply Nat.nle_gt. intros Hle. apply Hne. by apply drop_ge. }
  apply Nat.ltb_lt in Hc. by rewrite Hc, Hdrop, from_utf8_text by (apply Forall_app; split; [done|by repeat constructor]).
Qed.

Lemma parse_client_upload s caps w ws haves done_ :
  length (utf8 w) = hex_len → oid_word w → scalars caps →
  fits_pkt (utf8 ((lit "want " ++ w ++ [space] ++ caps) ++ [newline])) →
  Forall (λ w, oid_word w ∧ fits_pkt (utf8 ((lit "want " ++ w) ++ [newline]))) ws →
  Forall (λ w, oid_word w ∧ fits_pkt (utf8 ((lit "have " ++ w) ++ [newline]))) haves →
  parse_upload_request hex_len s (client_upload caps w ws haves done_)
  = Ok (parse_capabilities (caps ++ [newline]) s,
        mk_FetchArgs (list_to_set (w :: ws)) (list_to_set haves) None false done_ None
          (existsb (λ c, bool_decide (c = lit "include-tag")) (split_whitespace (caps ++ [newline])))).
Proof.
  intros Hlen Hw Hcaps Hfit Hws Hhs. unfold parse_upload_request, client_upload.
  pose proof (pkts_length (λ w, utf8 ((lit "want " ++ w) ++ [newline])) ws ltac:(by eapply Forall_impl; [exact Hws|intros ? []])) as Lw.
  pose proof (pkts_length (λ w, utf8 ((lit "have " ++ w) ++ [newline])) haves ltac:(by eapply Forall_impl; [exact Hhs|intros ? []])) as Lh.
  pose proof (pkt_length _ Hfit) as L1.
  set (end_ := if done_ then line_pkt (lit "done") else PKT_LINE_END_MARKER).
  assert (4 ≤ length end_) as Le by (unfold end_; destruct done_; simpl; lia).
  match goal with |- upload_lines _ ?n _ _ _ ?b = _ =>
    assert (1 + (length ws + (4 + (length haves + 4))) ≤ n) as Hn;
      [rewrite !length_app; change (length PKT_LINE_END_MARKER) with 4; unfold line_pkt in *; lia|generalize dependent n] end.
  intros n Hn. destruct n as [|n]; [lia|]. cbn [upload_lines]. unfold line_pkt at 1. rewrite read_pkt by done.
  cbn [mbind outcome_bind].
  assert (utf8 ((lit "want " ++ w ++ [space] ++ caps) ++ [newline]) = utf8 (lit "want " ++ w ++ ([space] ++ caps ++ [newline]))) as ->
    by by rewrite <-!(assoc_L app).
  assert (scalars ([space] ++ caps ++ [newline])) as Hsc.
  { apply Forall_app; split; [by repeat constructor|]. apply Forall_app; split; [done|by repeat constructor]. }
  match goal with |- context [length ?x <? 4] => assert (4 ≤ length x) as H4 end.
  { rewrite utf8_app, length_app. change (length (utf8 (lit "want "))) with 5. lia. }
  apply Nat.ltb_ge in H4. rewrite H4. rewrite upload_want by (done || by right). cbn [mbind outcome_bind].
  rewrite first_line_caps by done. cbn [mbind outcome_bind fst snd].
  rewrite (upload_lines_run (λ w, lit "want " ++ w) want_step); [|apply (oid_lines _ _ want_step); [|done|done]|lia].
  2: { intros a x Hx. rewrite <-(assoc_L app). apply upload_want; [done|by repeat constructor|by left]. }
  destruct (n - length ws) as [|m] eqn:Em; [lia|].
  cbn [upload_lines]. rewrite read_flush. cbn [mbind outcome_bind].
  assert (∀ x, (haves ≫= λ w, line_pkt (lit "have " ++ w)) ++ end_ = x → x ≠ []) as Hrest.
  { intros x <- E. apply app_eq_nil in E as [_ E]. rewrite E in Le. simpl in Le. lia. }
  destruct ((haves ≫= _) ++ end_) as [|b bs] eqn:Eb; [by destruct (Hrest _ eq_refl)|]. rewrite <-Eb.
  rewrite (upload_lines_run (λ w, lit "have " ++ w) have_step); [|apply (oid_lines _ _ have_step); [apply upload_have|done|done]|lia].
  rewrite have_fold, want_fold. unfold with_include_tag, want_step.
  cbn [fa_want fa_have fa_deepen_depth fa_deepen_relative fa_done fa_filter_spec fa_include_tag].
  destruct (m - length haves) as [|k] eqn:Ek; [lia|].
  assert (list_to_set ws ∪ ({[w]} ∪ ∅) = list_to_set (C := gset text) (w :: ws)) as -> by set_solver.
  rewrite (right_id_L ∅ (∪) (list_to_set haves)). unfold end_. by destruct done_.
Qed.
End Uploads.
