(* ===== verification/SmartTheorems.v ===== *)
(** * Theorems on the smart protocol

    Packets and requests read back as they were written; the checks on commands are a
    position-wise verdict; the reply of a push reads back as its statuses; what it says has
    landed has landed; and a push that a client sends to a quiet server lands and is
    reported. *)
From stdpp Require Import base strings sets numbers tactics list gmap relations.
From S2P Require Import Prelude Text CommitMessage CanonicalJson GitObjects ViewCommit GitCommits GitPath TrunkProvenance.
From S2P Require Import MonoPath MonoRefs MonoTrees MonoRefsInv MonoAdvance MonoAdvanceInv.
From S2P Require Import QueueTables PushQueue PushQueueInv PushQueueSteps PushQueueSpec PushQueueReaper.
From S2P Require Import TreeOps TreeOpsInv TreeSurgery TrunkPush TrunkPushInv TrunkLanding PushQueueService PushServiceInv.
From S2P Require Import PushServiceLive PushChain PushChainTheorems TrunkReceive TrunkReceiveTheorems.
From S2P Require Import ViewTreeDemo MonoDemo PushQueueTheorems PushServiceTheorems PushServiceDemo TrunkReceiveDemo.
From S2P Require Import SmartProtocol SmartWire.

(** ** The truth of a report *)

(** The commands that are one, whatever their status. *)
Definition same_command (c c' : RefCommand) : Prop :=
  rc_ref_name c' = rc_ref_name c ∧ rc_old_id c' = rc_old_id c ∧ rc_new_id c' = rc_new_id c
  ∧ rc_ref_type c' = rc_ref_type c ∧ rc_command_type c' = rc_command_type c.

(** The same command, and it may have been refused. *)
Definition weaker (c c' : RefCommand) : Prop := same_command c c' ∧ (status_ok c' = true → status_ok c = true).

#[local] Instance weaker_po : PreOrder weaker.
Proof.
  split; [done|]. intros a b c [(? & ? & ? & ? & ?) ?] [(? & ? & ? & ? & ?) ?]. split; [split_and!; congruence|auto].
Qed.

Lemma failed_weaker msg c : weaker c (ref_command_failed msg c).
Proof. split; [done|]. by rewrite failed_status. Qed.

Lemma refused_weaker r c : weaker c (refused r c).
Proof. unfold refused. destruct (status_ok c), r; try reflexivity. apply failed_weaker. Qed.

Lemma judge_weaker m p f g before l : Forall2 weaker l (judge m p f g before l).
Proof. revert before. induction l as [|c l IH]; intros before; constructor; [apply refused_weaker|apply IH]. Qed.

(** No tag passes the checks of a monorepo. *)
Definition branches_only (l : list RefCommand) : Prop :=
  Forall (λ c, status_ok c = true → rc_ref_type c = RefBranch) l.

Lemma judge_branches p f g before l : branches_only (judge true p f g before l).
Proof.
  revert before. induction l as [|c l IH]; intros before; constructor; [|apply IH].
  unfold refused. destruct (status_ok c) eqn:Hs; [|by rewrite Hs]. destruct (refusal true p f g before c) as [msg|] eqn:E.
  { cbn [from_option]. by rewrite failed_status. }
  intros _. cbn [from_option]. unfold refusal, own_refusal in E. cbn [andb] in E.
  destruct (rc_ref_type c); [done|]. rewrite (bool_decide_eq_true_2 (RefTag = RefTag)) in E by done. by repeat case_match.
Qed.

Lemma branches_weaker l l' : Forall2 weaker l l' → branches_only l → branches_only l'.
Proof.
  unfold branches_only. induction 1 as [|c c' l l' [(_ & _ & _ & Ht & _) Hs] _ IH]; [done|].
  intros [Hc Hl]%Forall_cons. constructor; [|by apply IH]. intros H'. rewrite Ht. auto.
Qed.

Section Settle.
Context {S : Type} (h : RepoHandler S).

(** With an error of the pack no branch is left. *)
Lemma settle_weaker e de l st :
  branches_only l →
  ∃ l', settle_commands h e de l st = (st, l') ∧ Forall2 weaker l l'
    ∧ (is_Some e → Forall (λ c, status_ok c = false) l').
Proof.
  intros Hl. revert de. induction Hl as [|c l Hc _ IH]; intros de; [by exists []|]. cbn [settle_commands].
  destruct (rc_ref_type c) eqn:Et.
  - destruct e as [msg|].
    + destruct (IH de) as (l' & -> & Hw & Hf). eexists. split; [done|]. destruct (status_ok c) eqn:Hs.
      * split; [constructor; [apply failed_weaker|done]|]. intros _. constructor; auto.
      * split; [constructor; [reflexivity|done]|]. intros _. constructor; auto.
    + destruct (status_ok c && negb de) eqn:Eb.
      * destruct (IH true) as (l' & -> & Hw & Hf). eexists. split; [done|]. split; [by constructor|by intros []].
      * destruct (IH de) as (l' & -> & Hw & Hf). eexists. split; [done|]. split; [by constructor|by intros []].
  - assert (status_ok c = false) as Hs by (destruct (status_ok c); [by specialize (Hc eq_refl)|done]).
    rewrite Hs. cbn [negb]. destruct (IH de) as (l' & -> & Hw & Hf). eexists. split; [done|].
    split; [by constructor|]. intros He. constructor; auto.
Qed.
End Settle.

Lemma fail_branches_weaker msg l : Forall2 weaker l (fail_branches msg l).
Proof.
  unfold fail_branches. induction l as [|c l IH]; constructor; [|done]. case_match; [apply failed_weaker|reflexivity].
Qed.

Lemma fail_branches_none msg l : branches_only l → Forall (λ c, status_ok c = false) (fail_branches msg l).
Proof.
  unfold branches_only, fail_branches. induction 1 as [|c l Hc _ IH]; constructor; [|done].
  destruct (status_ok c) eqn:Hs; [|by rewrite andb_false_r]. rewrite bool_decide_eq_true_2 by auto. done.
Qed.

Lemma find_only {A} (P : A → bool) l c c' :
  c ∈ l → P c = true → length (List.filter P l) ≤ 1 → List.find P l = Some c' → c = c'.
Proof.
  induction l as [|x l IH]; [by intros []%elem_of_nil|]. cbn [List.filter List.find]. destruct (P x) eqn:Ex.
  - cbn [length]. intros Hc HP Hl [= <-]. apply elem_of_cons in Hc as [->|Hc]; [done|]. exfalso.
    assert (In c (List.filter P l)) as Hin by (apply filter_In; split; [by apply list_elem_of_In|done]).
    destruct (List.filter P l); [done|simpl in Hl; lia].
  - intros [->|Hc]%elem_of_cons HP; [congruence|]. by apply IH.
Qed.

Section Truth.
Context `{GitCommits} {GL : GitLaws}.
Context (format_datetime : Z → Z → option text) (error_text : PushError → text).
Context (validate_replay : Db → PushQueueRow → option MegaError).
Context (native : bool) (decode_head : NativeObservation → MegaError + bool) (wait_timeout : Z).
Context (ad : Admission) (rounds : list Round).
Context (review : ReceiveState → tables → tables * ReceiveState * outcome ReceiveError unit).

(** The tables are consistent and have their control row. *)
Definition tables_ok (s : tables) : Prop := queue_inv s.1 ∧ monorepo_ok s.2 ∧ is_Some (control s.1).

(** A row says that the command has landed at the path. *)
Definition command_landed (path0 : text) (s : tables) (c : RefCommand) : Prop :=
  ∃ j r landed, push_queue s.1 !! j = Some r ∧ push_row_of path0 (rc_old_id c) (rc_new_id c) r
                ∧ status r = Done ∧ landed_commit_id r = Some landed.

Context (Had : admission_sound ad) (Hrounds : Forall round_sound rounds).

(** A receive under the trunk policy: every branch that is in order has landed. *)
Lemma finalize_true rv st s segs :
  tables_ok s → is_trunk rv = true → push_path (rv_path rv) segs →
  let '(s', st', res) := finalize_receive_pack format_datetime error_text validate_replay native decode_head wait_timeout
                           rv ad rounds review st s in
  queue_inv s'.1 ∧ monorepo_ok s'.2 ∧ keeps_results s.1 s'.1
  ∧ (res = Ok tt → ∀ c, c ∈ rv_commands rv → rc_ref_type c = RefBranch → status_ok c = true →
       command_landed (rv_path rv) s' c).
Proof.
  intros (Hq & Hm & k & Hk) Ht Hp. assert (queue_inv s.1 ∧ monorepo_ok s.2 ∧ keeps_results s.1 s.1) as (_ & _ & Hr)
    by (split_and!; [done..|reflexivity]).
  unfold finalize_receive_pack. destruct (validate_incoming_push rv s.2 st) as [st1 [u|e| |]] eqn:Ev; try by split_and!.
  rewrite Ht. unfold finalize_trunk_push. destruct (existsb deletes_branch _) eqn:Ed; [by split_and!|].
  assert (∀ c, c ∈ rv_commands rv → rc_ref_type c = RefBranch → status_ok c = true → is_branch_update c = true) as Hupd.
  { intros c Hc Hb Hs. unfold is_branch_update. unfold status_ok in Hs. rewrite Hs, bool_decide_eq_true_2 by done. cbn [andb].
    destruct (bool_decide (rc_command_type c = CmdDelete)) eqn:E1, (is_protocol_zero_id (rc_new_id c)) eqn:E2; try done; exfalso.
    all: rewrite <-not_true_iff_false, existsb_exists in Ed; apply Ed; exists c; (split; [by apply list_elem_of_In|]);
      unfold deletes_branch; by rewrite bool_decide_eq_true_2, E1, ?E2. }
  destruct (primary_branch_command (rv_commands rv)) as [cmd|] eqn:Ec.
  2: { split_and!; [done..|]. intros _ c Hc Hb Hs. specialize (Hupd c Hc Hb Hs).
       unfold primary_branch_command in Ec. eapply List.find_none in Ec; [|by apply list_elem_of_In]. congruence. }
  destruct (build_push_chain rv s.2 st1 cmd) as [st2 [[chain|]|e| |]]; try by split_and!.
  pose proof (landed_followed format_datetime error_text validate_replay native decode_head wait_timeout (rv_policy rv)
    (Z.of_nat (rv_max_push_commits rv)) ad rounds segs (rv_path rv) (rc_old_id cmd) (rc_new_id cmd) (rv_username rv)
    (push_payload_from_chain (rc_old_id cmd) (rc_new_id cmd) (ordered_commits chain) (chain_base chain)) s k Hq Hm Hk Had Hrounds Hp) as Hl.
  destruct (land_api_tip_push _ _ _ _ _ _ _ _ _ _ _ _ _ _ _ _) as [s' [landed|e| |]];
    destruct Hl as (Hq' & Hm' & Hr' & Hl); [|by split_and!..].
  split_and!; [done..|]. intros _ c Hc Hb Hs. assert (c = cmd) as ->.
  { apply (find_only is_branch_update (rv_commands rv)); [done|by apply Hupd| |done].
    revert Ev. unfold validate_incoming_push.
    destruct (Nat.ltb_spec 1 (length (List.filter is_branch_update (rv_commands rv)))); [done|]. intros _. lia. }
  destruct Hl as (j & r & ? & ? & ? & ?). by exists j, r, landed.
Qed.

(** The pack is read into the same repository, and the tables stay in order. *)
Definition unpacked (st st' : MonoHandler) : Prop :=
  rv_policy (mh_receive st') = rv_policy (mh_receive st) ∧ rv_path (mh_receive st') = rv_path (mh_receive st)
  ∧ (tables_ok (mh_tables st) → tables_ok (mh_tables st') ∧ keeps_results (mh_tables st).1 (mh_tables st').1).

Context (receive_error_text : ReceiveError → text).
Context (unpack_stream : bytes → MonoHandler → MonoHandler * option WireError).
Context (receiver_handler : MonoHandler → MonoHandler * option text).
Context (object_exists : MonoDb → text → bool) (apply_cl_ref : RefCommand → MonoHandler → MonoHandler * option text).

Abbreviation repository :=
  (monorepo_handler format_datetime error_text validate_replay native decode_head wait_timeout ad rounds review
     receive_error_text unpack_stream receiver_handler object_exists apply_cl_ref).

Context (Hunpack : ∀ b st, unpacked st (unpack_stream b st).1) (Hreceive : ∀ st, unpacked st (receiver_handler st).1).

Lemma unpacked_trans a b c : unpacked a b → unpacked b c → unpacked a c.
Proof.
  intros (? & ? & Hab) (? & ? & Hbc). split_and!; [congruence..|]. intros Hok. destruct (Hab Hok) as [Hb ?].
  destruct (Hbc Hb) as [Hc ?]. split; [done|by etrans].
Qed.

Lemma unpack_push_unpacked pack st : unpacked st (unpack_push repository pack st).1.
Proof.
  unfold unpack_push. destruct (bool_decide (pack = [])); [split_and!; [done..|intros ?; split; [done|reflexivity]]|].
  cbn [rh_unpack_stream rh_receiver_handler monorepo_handler]. pose proof (Hunpack pack st) as Hu.
  destruct (unpack_stream pack st) as [st1 [e|]]; cbn [fst] in *; [done|]. pose proof (Hreceive st1) as Hr.
  destruct (receiver_handler st1) as [st2 e]. by eapply unpacked_trans.
Qed.

(** What the reply stands for: the commands, some refused, and those that are in order have
    landed. *)
Definition reply_true (s : SmartSession) (path0 : text) (commands : list RefCommand) (s' : tables) (bs : bytes) : Prop :=
  ∃ final notice, bs = build_receive_pack_report s (report_of final) notice ∧ Forall2 weaker commands final
    ∧ ∀ c, c ∈ final → status_ok c = true → rc_ref_type c = RefBranch ∧ command_landed path0 s' c.

Lemma finalize_push_true s commands unpack_error l st segs :
  Forall2 weaker commands l → branches_only l → (is_Some unpack_error → Forall (λ c, status_ok c = false) l) →
  tables_ok (mh_tables st) → is_trunk (mh_receive st) = true → push_path (rv_path (mh_receive st)) segs →
  rv_commands (mh_receive st) = l →
  let '(st', res) := finalize_push repository unpack_error l st in
  queue_inv (mh_tables st').1 ∧ monorepo_ok (mh_tables st').2 ∧ keeps_results (mh_tables st).1 (mh_tables st').1
  ∧ match res with
    | Ok (final, notice) =>
        reply_true s (rv_path (mh_receive st)) commands (mh_tables st')
          (build_receive_pack_report s (report_of final) notice)
    | _ => True
    end.
Proof.
  intros Hw Hb Hfail Hok Ht Hp Hl. unfold finalize_push. pose proof Hok as (Hq & Hm & _).
  destruct (negb _ && _) eqn:E.
  - cbn [rh_finalize_receive_pack rh_bind_tip_after_receive rh_receive_pack_notice monorepo_handler].
    pose proof (finalize_true (mh_receive st) (mh_state st) (mh_tables st) segs Hok Ht Hp) as Hf.
    destruct (finalize_receive_pack _ _ _ _ _ _ _ _ _ _ _ _) as [[s' rs] res]. destruct Hf as (Hq' & Hm' & Hk & Hlanded).
    destruct res as [[]|e| |]; cbn [map_err mh_tables]; (split_and!; [done..|]); [| |done|done].
    + eexists l, _. split; [done|]. split; [done|]. intros c Hc Hs. unfold branches_only in Hb. rewrite Forall_forall in Hb.
      specialize (Hb c Hc Hs). split; [done|]. apply Hlanded; [done|by rewrite Hl|done|done].
    + eexists _, _. split; [done|]. split.
      { etrans; [exact Hw|apply fail_branches_weaker]. }
      intros c Hc Hs. pose proof (fail_branches_none (receive_error_text e) l Hb) as Hn.
      rewrite Forall_forall in Hn. specialize (Hn c Hc). congruence.
  - split_and!; [done..|reflexivity|]. eexists l, _. split; [done|]. split; [done|]. intros c Hc Hs. exfalso.
    pose proof Hb as Hb'. unfold branches_only in Hb'. rewrite Forall_forall in Hb'. specialize (Hb' c Hc Hs).
    apply andb_false_iff in E as [E|E].
    + unfold unpack_failed in E. destruct unpack_error as [msg|]; [|by rewrite bool_decide_eq_false_2 in E by (by intros [])].
      specialize (Hfail ltac:(by eexists)). rewrite Forall_forall in Hfail. specialize (Hfail c Hc). congruence.
    + unfold has_successful_branch_work in E. rewrite <-not_true_iff_false, existsb_exists in E. apply E. exists c.
      split; [by apply list_elem_of_In|]. by rewrite bool_decide_eq_true_2, Hs.
Qed.

(** C6: the report of a push tells the truth.  Under the trunk policy, whatever the pack
    does, whatever other connections commit and whatever fails, the tables stay consistent
    and keep every recorded result; and when there is a reply, it reports the commands of
    the request in their order, and each command that it reports as ok is a branch whose
    push the queue has recorded as done at this path. *)
Theorem report_true s commands pack st segs :
  tables_ok (mh_tables st) → is_trunk (mh_receive st) = true → push_path (rv_path (mh_receive st)) segs →
  let '(st', res) := git_receive_pack_stream repository s commands pack st in
  queue_inv (mh_tables st').1 ∧ monorepo_ok (mh_tables st').2 ∧ keeps_results (mh_tables st).1 (mh_tables st').1
  ∧ match res with
    | Ok bs => reply_true s (rv_path (mh_receive st)) commands (mh_tables st') bs
    | _ => True
    end.
Proof.
  intros Hok Ht Hp. unfold git_receive_pack_stream. rewrite guards_judge. cbn [rh_is_monorepo monorepo_handler].
  set (guarded := judge _ _ _ _ _ _). pose proof (unpack_push_unpacked pack st) as (Hpol & Hpath & Hu).
  destruct (unpack_push repository pack st) as [st1 [e|unpack_error]]; cbn [fst] in *; destruct (Hu Hok) as [Hok1 Hk1].
  { pose proof Hok1 as (? & ? & _). by split_and!. }
  cbn [rh_check_default_branch monorepo_handler].
  destruct (settle_weaker repository unpack_error true guarded st1 (judge_branches _ _ _ _ _)) as (l & El & Hw & Hfail).
  change (rh_check_default_branch repository st1) with true. rewrite El. cbn [rh_sync_commands_after_unpack monorepo_handler].
  pose proof (finalize_push_true s commands unpack_error l
    (mk_MonoHandler (with_commands l (mh_receive st1)) (mh_state st1) (mh_tables st1)) segs) as Hf.
  unfold is_trunk in *. cbn [mh_receive mh_tables with_commands rv_policy rv_path rv_commands] in Hf.
  rewrite Hpol, Hpath in Hf.
  specialize (Hf ltac:(etrans; [apply judge_weaker|exact Hw])
    (branches_weaker _ _ Hw (judge_branches _ _ _ _ _)) Hfail Hok1 Ht Hp eq_refl).
  destruct (finalize_push _ _ _ _) as [st2 [[final notice]|e| |]]; destruct Hf as (? & ? & ? & Hf);
    (split_and!; [done..|by etrans|done]).
Qed.
End Truth.

(** ** Packets, requests, checks *)

(** A line that is written as a packet is read back, with what follows it, exactly when
    it has at most 65531 bytes.  A longer line is written with a length of more than four
    digits, and is not read back. *)
Theorem pkt_line_exact s rest :
  try_read_pkt_line (add_pkt_line_string s ++ rest) = Ok (PktData (utf8 s), rest)
  ↔ (N.of_nat (length (utf8 s)) <= 65531)%N.
Proof. rewrite add_pkt_line_pkt. split; [by intros [_ ?]%read_inv|apply read_pkt]. Qed.

(** C20: the request of a push reads back.  Reading a request always ends; and from the
    commands that a client writes, the first with its capabilities, a flush and the pack,
    the server reads these commands in their order, the pack untouched, and has learned
    the capabilities. *)
Theorem receive_request_roundtrip `{GitObjects} s caps c cs pack :
  (∀ bs, answers (split_receive_pack_request s bs))
  ∧ (command_ok (Some caps) c → Forall (command_ok None) cs →
     (pack = [] ∨ starts_with (lit "PACK") pack = true) →
     split_receive_pack_request s (client_request caps c cs pack)
     = Ok (parse_capabilities caps s, command_of <$> c :: cs, pack)).
Proof.
  split; [intros bs; by apply split_commands_answers|apply split_request_text].
Qed.

Lemma reject_extra_none l : List.filter is_branch_update (reject_extra true l) = [].
Proof.
  induction l as [|c l IH]; [done|]. cbn [reject_extra]. destruct (is_branch_update c) eqn:E; cbn [List.filter]; [done|by rewrite E].
Qed.

Lemma reject_extra_one l : length (List.filter is_branch_update (reject_extra false l)) ≤ 1.
Proof.
  induction l as [|c l IH]; [simpl; lia|]. cbn [reject_extra]. destruct (is_branch_update c) eqn:E; cbn [List.filter]; rewrite E; [|done].
  by rewrite reject_extra_none.
Qed.

(** C15: the checks on the commands of a push judge each command at its place.  A command
    in order is refused for the first of these reasons that holds: on a monorepo, that it
    deletes the main branch or that it is a tag; without a pack, that its target is not
    there; on a monorepo, that a branch update in order comes before it.  Nothing else
    changes, and on a monorepo at most one branch update is left. *)
Theorem guards_exact mono pack_less commit_exists object_exists l :
  let l' := apply_receive_pack_status_guards mono pack_less commit_exists object_exists l in
  length l' = length l
  ∧ (∀ i c, l !! i = Some c →
       l' !! i = Some (refused (refusal mono pack_less commit_exists object_exists (take i l) c) c))
  ∧ (mono = true → length (List.filter is_branch_update l') ≤ 1).
Proof.
  cbn zeta. split_and!.
  - rewrite guards_judge. apply judge_length.
  - intros i c Hi. rewrite guards_judge, (judge_lookup _ _ _ _ [] l i c Hi). done.
  - intros ->. apply reject_extra_one.
Qed.

(** ** Reports *)

Lemma reads_fits bs ps rest : reads bs ps rest → Forall (λ p, match p with PktData d => fits_pkt d | _ => True end) ps.
Proof. induction 1 as [|bs p mid ps rest E _ IH]; constructor; [by apply (read_inv _ _ _ E)|done]. Qed.

Definition status_packets (commands : list RefCommand) : list PktLine :=
  PktData (utf8 (lit "unpack ok" ++ [newline])) :: ((λ c, PktData (utf8 (get_status c))) <$> commands).

Definition notice_line (notice : text) : text := if ends_with [newline] notice then notice else notice ++ [newline].

(** The notice as a packet of the second band. *)
Definition notice_packets (notice : option text) : list bytes :=
  from_option (λ n, [side_bind_value_progress :: utf8 (notice_line n)]) [] notice.

Lemma reads_report commands rest :
  Forall (λ c, fits_pkt (utf8 (get_status c))) commands → reads (report_of commands ++ rest) (status_packets commands) rest.
Proof.
  intros Hc. unfold report_of, status_packets. rewrite <-(assoc_L app). econstructor.
  - rewrite add_pkt_line_pkt. apply read_pkt. done.
  - by apply (reads_pkts (λ c, utf8 (get_status c))).
Qed.

Lemma band_pkt (b : N) data : format_04x (N.of_nat (length data) + 5) ++ b :: data = pkt (b :: data).
Proof. unfold pkt. f_equal. f_equal. cbn [length]. lia. Qed.

Lemma side_band_reply s report notice :
  side_band s = true →
  build_receive_pack_report s report notice
  = (notice_packets notice ≫= pkt) ++ pkt (side_bind_value_packfile :: report ++ PKT_LINE_END_MARKER) ++ PKT_LINE_END_MARKER.
Proof.
  intros Hs. unfold build_receive_pack_report, build_side_band_format. rewrite Hs. rewrite band_pkt.
  destruct notice as [n|]; [|done]. cbn [notice_packets from_option mbind list_bind]. rewrite app_nil_r.
  fold (notice_line n). by rewrite band_pkt.
Qed.

(** C30: the reply of a push reads back.  Without a side band it is the packets of the
    report, the line of the pack and one status for each command in order, and two
    flushes.  With a side band it is the notice, if there is one, a single packet with the
    whole report, which reads back in the same way, and a flush; and this exactly when the
    report has at most 65530 bytes.  A longer report is not a packet that a client can
    read. *)
Theorem report_reads s commands notice :
  Forall (λ c, fits_pkt (utf8 (get_status c))) commands → Forall fits_pkt (notice_packets notice) →
  let report := report_of commands ++ PKT_LINE_END_MARKER in
  let reply := build_receive_pack_report s (report_of commands) notice in
  reads report (status_packets commands ++ [PktFlush]) []
  ∧ (side_band s = false → reads reply (status_packets commands ++ [PktFlush; PktFlush]) [])
  ∧ (side_band s = true →
     reads reply ((PktData <$> notice_packets notice) ++ [PktData (side_bind_value_packfile :: report); PktFlush]) []
     ↔ (N.of_nat (length report) <= 65530)%N).
Proof.
  intros Hc Hn report reply. split_and!.
  - eapply reads_app; [by apply reads_report|]. apply (reads_flush []).
  - intros Hs. unfold reply, build_receive_pack_report, build_side_band_format. rewrite Hs.
    assert (match notice with Some _ => [] | None => [] end = @nil N) as -> by by destruct notice.
    cbn [app]. rewrite <-(assoc_L app). eapply reads_app; [by apply reads_report|].
    apply (reads_app _ [PktFlush] PKT_LINE_END_MARKER [PktFlush]); [apply reads_flush|apply (reads_flush [])].
  - intros Hs. unfold reply. rewrite side_band_reply by done. fold report. split.
    + intros Hr%reads_fits. apply Forall_app in Hr as [_ Hr]. apply Forall_cons in Hr as [Hr _].
      unfold fits_pkt, MAX_PKT_DATA in Hr. cbn [length] in Hr. lia.
    + intros Hl. eapply reads_app; [by apply (reads_pkts id)|].
      apply (reads_app _ [_] PKT_LINE_END_MARKER [PktFlush]); [|apply (reads_flush [])].
      apply reads_pkt. unfold fits_pkt, MAX_PKT_DATA. cbn [length]. lia.
Qed.

(** ** Fetches *)

Definition line_data (t : text) : PktLine := PktData (utf8 (t ++ [newline])).
Definition line_fits (t : text) : Prop := fits_pkt (utf8 (t ++ [newline])).

(** The section of a negotiation: none after [done]; without a common commit it ends the
    response, with one it ends with [ready] and a delimiter. *)
Definition negotiation_packets (done : bool) (acked : list text) : list PktLine :=
  if done then []
  else line_data (lit "acknowledgments")
       :: (if bool_decide (acked = []) then [line_data (lit "NAK"); PktFlush]
           else ((λ x, line_data (lit "ACK " ++ x)) <$> acked) ++ [line_data (lit "ready"); PktDelim]).

Definition shallow_packets (shallow : list text) : list PktLine :=
  if bool_decide (shallow = []) then []
  else line_data (lit "shallow-info") :: ((λ x, line_data (lit "shallow " ++ x)) <$> shallow) ++ [PktDelim].

Lemma reads_line t rest : line_fits t → reads (add_pkt_line_string (t ++ [newline]) ++ rest) [line_data t] rest.
Proof. intros Ht. rewrite add_pkt_line_pkt. by apply reads_pkt. Qed.

Lemma reads_lines p l rest :
  Forall (λ x, line_fits (p ++ x)) l →
  reads ((l ≫= λ x, add_pkt_line_string (p ++ x ++ [newline])) ++ rest) ((λ x, line_data (p ++ x)) <$> l) rest.
Proof.
  intros Hl. pose proof (reads_pkts (λ x, utf8 ((p ++ x) ++ [newline])) l rest Hl) as Hr.
  enough ((l ≫= λ x, add_pkt_line_string (p ++ x ++ [newline])) = (l ≫= λ x, pkt (utf8 ((p ++ x) ++ [newline])))) as -> by done.
  apply list_bind_ext; [|done]. intros x. by rewrite <-(assoc_L app).
Qed.

Lemma reads_negotiation acked :
  Forall (λ x, line_fits (lit "ACK " ++ x)) acked →
  reads (add_acknowledgments_section acked (negb (bool_decide (acked = [])))) (negotiation_packets false acked) [].
Proof.
  intros Ha. unfold add_acknowledgments_section, negotiation_packets.
  eapply (reads_app _ [_]); [by apply reads_line|]. destruct (bool_decide (acked = [])); cbn [negb].
  - eapply (reads_app _ [_]); [by apply reads_line|]. apply (reads_flush []).
  - eapply reads_app; [by apply reads_lines|]. eapply (reads_app _ [_]); [by apply reads_line|].
    econstructor; [apply (read_delim [])|constructor].
Qed.

Lemma reads_shallow shallow :
  Forall (λ x, line_fits (lit "shallow " ++ x)) shallow →
  reads (add_shallow_info_section shallow) (shallow_packets shallow) [].
Proof.
  intros Hs. unfold add_shallow_info_section, shallow_packets. destruct (bool_decide (shallow = [])); [constructor|].
  eapply (reads_app _ [_]); [by apply reads_line|]. eapply reads_app; [by apply reads_lines|].
  econstructor; [apply (read_delim [])|constructor].
Qed.

(** Packets of a prefix that was read to its end. *)
Lemma reads_extend bs ps rest more : reads bs ps rest → reads (bs ++ more) ps (rest ++ more).
Proof.
  induction 1 as [|bs p mid ps rest E _ IH]; [constructor|]. econstructor; [|exact IH].
  revert E. unfold try_read_pkt_line. destruct (bool_decide (bs = [])) eqn:Eb; [done|]. apply bool_decide_eq_false in Eb.
  destruct (Nat.ltb_spec (length bs) 4) as [|Hl]; [done|]. rewrite bool_decide_eq_false_2 by by destruct bs.
  rewrite length_app. destruct (Nat.ltb_spec (length bs + length more) 4) as [|_]; [lia|].
  rewrite take_app_le, drop_app_le by lia. destruct (forallb _ _); [|done]. cbn [negb].
  set (n := from_hex (take 4 bs)). repeat (destruct (N.eqb n _); [done || by intros [= <- <-]|]).
  destruct (Nat.ltb_spec (length bs) (N.to_nat n)) as [|Hn]; [done|]. destruct (Nat.ltb_spec (length bs + length more) (N.to_nat n)); [lia|].
  intros [= <- <-]. rewrite drop_app_le, take_app_le by (rewrite ?length_drop; lia). done.
Qed.

Section Fetch.
Context `{GitObjects} {Pack : Type} (h : FetchHandler Pack) (iter_set : gset text → list text).

(** C26: a fetch of protocol version 2 is read and answered as the protocol says.  Reading a
    request always ends.  For the wants and haves that a client writes, and with the haves
    that the repository allows, the response has a pack unless the client still
    negotiates and no have is a commit of the repository; it reads back as the
    acknowledgments of exactly those haves, unless the client is done, and the shallow
    commits of the pack. *)
Theorem fetch_exact wants haves done have r :
  (∀ bs, answers (parse_v2_fetch bs))
  ∧ (Forall (λ w, oid_word w ∧ line_fits (lit "want " ++ w)) wants →
     Forall (λ w, oid_word w ∧ line_fits (lit "have " ++ w)) haves →
     fh_authorize_fetch h (iter_set (list_to_set wants)) (iter_set (list_to_set haves)) = Ok have →
     Forall (λ x, line_fits (lit "ACK " ++ x)) have →
     (∀ w v o p sh, fh_pack_with_options h w v o = Ok (p, sh) → Forall (λ x, line_fits (lit "shallow " ++ x)) sh) →
     handle_v2_fetch h iter_set (client_fetch wants haves done) = Ok r →
     let acked := List.filter (fh_check_commit_exist h) have in
     (fr_pack_data r = None ↔ done = false ∧ acked = [])
     ∧ ∃ shallow, reads (fr_protocol_buf r) (negotiation_packets done acked ++ shallow_packets shallow) []
         ∧ match fr_pack_data r with
           | Some p => ∃ o, fh_pack_with_options h (iter_set (list_to_set wants)) have o = Ok (p, shallow)
           | None => shallow = []
           end).
Proof.
  split; [intros bs; by apply fetch_lines_answers|]. intros Hw Hh Hauth Hfit Hshallow Hr acked.
  unfold handle_v2_fetch in Hr. rewrite parse_client_fetch in Hr by done. cbn [mbind outcome_bind] in Hr.
  unfold handle_v2_fetch_with_handler in Hr. cbn [fa_filter_spec fa_deepen_depth fa_want fa_have fa_done] in Hr.
  rewrite !(bool_decide_eq_false_2 (is_Some None)) in Hr by (by intros []). cbn [andb] in Hr. rewrite Hauth in Hr.
  cbn [mbind outcome_bind] in Hr. fold acked in Hr.
  assert (Forall (λ x, line_fits (lit "ACK " ++ x)) acked) as Hack.
  { apply Forall_forall. intros x Hx%list_elem_of_In%filter_In. rewrite Forall_forall in Hfit. by apply Hfit, list_elem_of_In, Hx. }
  pose proof (reads_negotiation acked Hack) as Hneg.
  destruct (negb done && bool_decide (acked = [])) eqn:Eend.
  { injection Hr as <-. cbn [fr_pack_data fr_protocol_buf]. apply andb_true_iff in Eend as [Ed%negb_true_iff Ea%bool_decide_eq_true].
    rewrite Ed. split; [done|]. exists []. split; [|done]. rewrite app_nil_r. done. }
  destruct (fh_prepare_pack _ _ _); [|done..]. cbn [mbind outcome_bind] in Hr.
  destruct (fh_pack_with_options _ _ _ _) as [[p sh]| | |] eqn:Ep; [|done..]. cbn [mbind outcome_bind fst snd] in Hr.
  injection Hr as <-. cbn [fr_pack_data fr_protocol_buf]. split.
  { split; [done|]. intros [-> Ea]. by rewrite bool_decide_eq_true_2 in Eend. }
  exists sh. split; [|by eexists]. specialize (Hshallow _ _ _ _ _ Ep). destruct done.
  - by apply reads_shallow.
  - eapply reads_app; [exact (reads_extend _ _ _ _ Hneg)|]. by apply reads_shallow.
Qed.
End Fetch.






(** ** The acknowledgments as a client reads them *)










Section Upload.
Context `{GitObjects} {Pack : Type} (h : FetchHandler Pack) (iter_set : gset text → list text) (hex_len : nat).



End Upload.

(** ** From the bytes of a request to the bytes of the reply *)

Section Pushed.
Context `{GitCommits} {GL : GitLaws}.
Context (format_datetime : Z → Z → option text) (error_text : PushError → text).
Context (validate_replay : Db → PushQueueRow → option MegaError).
Context (decode_head : NativeObservation → MegaError + bool) (wait_timeout : Z).
Context (ad : Admission) (r : Round) (rounds : list Round).
Context (review : ReceiveState → tables → tables * ReceiveState * outcome ReceiveError unit).
Context (receive_error_text : ReceiveError → text).
Context (unpack_stream : bytes → MonoHandler → MonoHandler * option WireError).
Context (receiver_handler : MonoHandler → MonoHandler * option text).
Context (object_exists : MonoDb → text → bool) (apply_cl_ref : RefCommand → MonoHandler → MonoHandler * option text).

Abbreviation server :=
  (monorepo_handler format_datetime error_text validate_replay false decode_head wait_timeout ad (r :: rounds) review
     receive_error_text unpack_stream receiver_handler object_exists apply_cl_ref).

(** The command of a client for the public branch. *)
Record main_update (c : ClientCommand) : Prop := {
  mu_ref : cc_ref c = MEGA_BRANCH_NAME;
  mu_new : is_protocol_zero_id (cc_new c) = false;
  mu_moves : cc_old c ≠ cc_new c;
}.

Lemma main_update_ok c : main_update c → is_branch_update (command_of c) = true ∧ deletes_branch (command_of c) = false.
Proof.
  intros [Hr Hn _]. unfold is_branch_update, deletes_branch, command_of, ref_command_new.
  cbn [rc_status rc_ref_type rc_command_type rc_new_id]. rewrite Hr, Hn.
  assert (starts_with (lit "refs/tags") MEGA_BRANCH_NAME = false) as -> by done. by destruct (is_protocol_zero_id (cc_old c)).
Qed.

Lemma main_update_plain rv c :
  rv_policy rv = PolicyTrunk → main_update c → plain_push (with_commands [command_of c] rv) (command_of c).
Proof.
  intros Ht Hc. destruct (main_update_ok c Hc) as [Hu Hd].
  split; [done| |repeat constructor; by rewrite <-(mu_ref _ Hc)| |cbn; by rewrite Hd].
  - cbn [with_commands rv_commands List.filter]. rewrite Hu. simpl. lia.
  - unfold primary_branch_command. cbn [with_commands rv_commands List.find]. by rewrite Hu.
Qed.

(** The checks leave the command alone. *)
Lemma main_update_passes c pack_less f g :
  main_update c → (pack_less = true → f (cc_new c) = true) →
  apply_receive_pack_status_guards true pack_less f g [command_of c] = [command_of c].
Proof.
  intros Hc He. rewrite guards_judge. cbn [judge]. destruct (main_update_ok c Hc) as [Hu _].
  unfold is_branch_update in Hu. bool_prop. unfold refused, refusal, own_refusal, target_exists. unfold status_ok.
  rewrite bool_decide_eq_true_2 by done. rewrite (bool_decide_eq_false_2 (rc_command_type _ = _)) by done.
  assert (rc_ref_type (command_of c) = RefBranch) as -> by done. cbn [negb andb]. rewrite bool_decide_eq_false_2 by done.
  cbn [andb existsb]. rewrite andb_false_r. destruct pack_less; [|done]. cbn [andb].
  change (rc_new_id (command_of c)) with (cc_new c). by rewrite He.
Qed.

(** C3: a push that a client sends to a quiet server lands and is reported.  From the bytes
    of a request with one update of the public branch: when the pack is read, the chain of
    the push passes its checks and the push fits the monorepo, then the reply is a report
    with exactly the line [ok] for the branch, and the notice of a squash if there was
    more than one commit; the queue has the push as done, and the monorepo has the tree
    of the tip at the path and is otherwise changed only as a landing changes it. *)
Theorem pushed_and_told s caps cc pack st0 rv chain tip segs root ctx poll q d k :
  command_ok (Some caps) cc → main_update cc → (pack = [] ∨ starts_with (lit "PACK") pack = true) →
  (pack = [] → is_Some (mega_commit (mh_tables st0).2 !! cc_new cc)) →
  unpack_push server pack st0 = (mk_MonoHandler rv gate_start (q, d), inr None) →
  rv_policy rv = PolicyTrunk → push_path (rv_path rv) segs →
  monorepo_ok d → healthy ctx d → commits_keyed (mega_commit d) → px_config ctx = rv_config rv →
  publication_enabled (px_publication ctx) = false → (∀ p t, publish_target_paths (px_publication ctx) p t = None) →
  get_main_ref (lit "/") d = Some root → is_Some (stored_tree d (ref_tree_hash root)) →
  fits (with_commands [command_of cc] rv) (command_of cc) ctx root segs d →
  stored_tip d (cc_new cc) = Ok (Some tip) →
  chain_of (mega_commit d) (rv_max_push_commits rv) (command_of cc) (rv_pack_commit_ids rv) (rv_new_commit_ids rv) tip
  = Ok chain →
  validate (mega_commit d) (rv_max_push_commits rv) chain (command_of cc) (rv_open_cl rv) = Ok tt →
  idle (params_of (with_commands [command_of cc] rv) (command_of cc) chain) k q → quiet wait_timeout root ctx ad r poll →
  ∃ s' st' landed,
    split_receive_pack_request s (client_request caps cc [] pack) = Ok (s', [command_of cc], pack)
    ∧ git_receive_pack_stream server s' [command_of cc] pack st0
      = (st', Ok (build_receive_pack_report s'
          (add_pkt_line_string (lit "unpack ok" ++ [newline]) ++ add_pkt_line_string (lit "ok refs/heads/main"))
          (notice_text <$> no_op_notice (landed_state (command_of cc) chain landed))))
    ∧ landed_at segs (c_tree_id tip) landed (ref_tree_hash root) (rd_now r) d (mh_tables st').2
    ∧ ∃ j row, push_queue (mh_tables st').1 !! j = Some row ∧ status row = Done ∧ landed_commit_id row = Some landed.
Proof.
  intros Hcmd Hmain Hpack Hknown Hunpack Ht Hpath Hok Hy Hkeyed Hcfg Hpub Htargets Hroot Hrt Hfits Htip Hchain Hvalid
    Hidle Hquiet.
  destruct (received_lands format_datetime error_text validate_replay decode_head wait_timeout
    (with_commands [command_of cc] rv) (command_of cc) chain tip segs root ctx ad r rounds poll review q d k
    (main_update_plain rv cc Ht Hmain) (mu_moves _ Hmain) Hpath Hok Hy Hkeyed Hcfg Hpub Htargets Hroot Hrt Hfits Htip
    Hchain Hvalid Hidle Hquiet) as (q' & d' & landed & Hfin & _ & Hl & Hrow & _).
  exists (parse_capabilities caps s), (mk_MonoHandler (with_commands [command_of cc] rv)
    (landed_state (command_of cc) chain landed) (q', d')), landed. split_and!; [| |done|done].
  - by rewrite split_request_text.
  - unfold git_receive_pack_stream. cbn [rh_is_monorepo monorepo_handler].
    rewrite main_update_passes; [|done|].
    2: { intros ->%bool_decide_eq_true. cbn. by apply bool_decide_eq_true_2, Hknown. }
    rewrite Hunpack. destruct (main_update_ok cc Hmain) as [Hu _].
    assert (rc_ref_type (command_of cc) = RefBranch ∧ status_ok (command_of cc) = true) as [Hb Hs].
    { unfold is_branch_update in Hu. bool_prop. done. }
    cbn [rh_check_default_branch monorepo_handler settle_commands]. rewrite Hb, Hs. cbn [negb andb].
    cbn [rh_sync_commands_after_unpack monorepo_handler mh_receive mh_state mh_tables].
    unfold finalize_push. unfold unpack_failed, has_successful_branch_work. cbn [existsb]. rewrite Hb, Hs.
    rewrite (bool_decide_eq_false_2 (is_Some None)) by (by intros []). rewrite bool_decide_eq_true_2 by done. cbn [negb andb orb].
    cbn [rh_finalize_receive_pack rh_bind_tip_after_receive rh_receive_pack_notice monorepo_handler mh_receive mh_state mh_tables].
    rewrite Hfin. cbn [map_err mh_state]. do 3 f_equal. unfold report_of. cbn [mbind list_bind]. rewrite app_nil_r.
    unfold get_status, command_of, ref_command_new. cbn [rc_status rc_ref_name]. by rewrite (mu_ref _ Hmain).
Qed.
End Pushed.

(** ** Examples *)

Definition demo_session : SmartSession := mk_SmartSession ReceivePackService TransportHttp ∅.
Definition demo_client : ClientCommand := mk_ClientCommand (lit "a0") (lit "t1") MEGA_BRANCH_NAME.
Definition demo_caps : text := lit " report-status side-band-64k agent=git/2.45".
Definition demo_pack : bytes := lit "PACK" ++ [1; 2; 3]%N.

Lemma all_scalars s : forallb is_scalar s = true → scalars s.
Proof. intros Hs. apply Forall_forall. intros c Hc. rewrite forallb_forall in Hs. by apply Hs, list_elem_of_In. Qed.

Lemma all_word s : forallb is_scalar s = true → forallb (λ c, negb (ends_word c)) s = true → word s.
Proof.
  intros Hs Hw. split; [by apply all_scalars|]. apply Forall_forall. intros c Hc. rewrite forallb_forall in Hw.
  apply negb_true_iff, Hw. by apply list_elem_of_In.
Qed.

Lemma demo_client_ok : command_ok (Some demo_caps) demo_client.
Proof.
  split.
  - split; [apply all_word; vm_compute; reflexivity|right; eexists; vm_compute; reflexivity].
  - split; [apply all_word; vm_compute; reflexivity|right; eexists; vm_compute; reflexivity].
  - apply all_word; vm_compute; reflexivity.
  - apply all_scalars. vm_compute. reflexivity.
  - vm_compute. discriminate.
Qed.

Lemma receive_request_roundtrip_witness :
  split_receive_pack_request demo_session (client_request demo_caps demo_client [] demo_pack)
  = Ok (parse_capabilities demo_caps demo_session, [demo_cmd], demo_pack).
Proof.
  destruct (receive_request_roundtrip demo_session demo_caps demo_client [] demo_pack) as [_ Hr].
  apply Hr; [exact demo_client_ok|constructor|right; vm_compute; reflexivity].
Defined.

Lemma guards_exact_witness :
  apply_receive_pack_status_guards true false (λ _, true) (λ _, true) [demo_cmd; demo_cmd] !! 1
  = Some (ref_command_failed MONOREPO_EXTRA_BRANCH_NG demo_cmd).
Proof.
  destruct (guards_exact true false (λ _, true) (λ _, true) [demo_cmd; demo_cmd]) as (_ & Hi & _).
  rewrite (Hi 1 demo_cmd eq_refl). vm_compute. reflexivity.
Defined.

Lemma report_reads_witness :
  reads (build_receive_pack_report (parse_capabilities demo_caps demo_session) (report_of [demo_cmd]) None)
    [PktData (side_bind_value_packfile :: report_of [demo_cmd] ++ PKT_LINE_END_MARKER); PktFlush] [].
Proof.
  destruct (report_reads (parse_capabilities demo_caps demo_session) [demo_cmd] None) as (_ & _ & Hr).
  - repeat constructor. vm_compute. discriminate.
  - constructor.
  - apply Hr; [vm_compute; reflexivity|vm_compute; discriminate].
Defined.

(** The pack is known to the tables already. *)
Definition demo_unpack (b : bytes) (st : MonoHandler) : MonoHandler * option WireError := (st, None).
Definition demo_receiver (st : MonoHandler) : MonoHandler * option text := (st, None).
Definition demo_handler (ctx : tables → PushExecContext) : RepoHandler MonoHandler :=
  monorepo_handler no_date no_text no_check false no_decode 60 demo_admission [demo_round ctx] no_review (λ _, [])
    demo_unpack demo_receiver (λ _ _, false) (λ c st, (st, None)).
Definition demo_start : MonoHandler :=
  mk_MonoHandler (demo_receive demo_cmd {[lit "t1"]}) gate_start (demo_empty, push_mono).

Lemma report_true_witness :
  let '(st', res) := git_receive_pack_stream (demo_handler live_ctx) demo_session [demo_cmd] demo_pack demo_start in
  queue_inv (mh_tables st').1 ∧ ∃ bs, res = Ok bs ∧ reply_true demo_session (lit "/a") [demo_cmd] (mh_tables st') bs.
Proof.
  pose proof (report_true no_date no_text no_check false no_decode 60 demo_admission [demo_round live_ctx] no_review
    ltac:(split; [apply id_interference..|repeat constructor]) ltac:(constructor; [exact demo_round_sound|constructor])
    (λ _, []) demo_unpack demo_receiver (λ _ _, false) (λ c st, (st, None))
    ltac:(intros b st; split_and!; [reflexivity..|intros ?; split; [assumption|reflexivity]])
    ltac:(intros st; split_and!; [reflexivity..|intros ?; split; [assumption|reflexivity]])
    demo_session [demo_cmd] demo_pack demo_start [lit "a"]
    ltac:(split_and!; [exact (proj1 demo_inv)|exact push_mono_ok|eexists; reflexivity]) eq_refl push_row_path) as H.
  assert (∃ bs, snd (git_receive_pack_stream (demo_handler live_ctx) demo_session [demo_cmd] demo_pack demo_start) = Ok bs)
    as [bs Hbs] by (eexists; vm_compute; reflexivity).
  fold (demo_handler live_ctx) in H.
  destruct (git_receive_pack_stream _ _ _ _ _) as [st' res]. cbn [snd] in Hbs. subst res. destruct H as (Hq & _ & _ & Hr).
  split; [exact Hq|]. exists bs. split; [reflexivity|exact Hr].
Defined.

Definition demo_fetch : FetchHandler unit :=
  mk_FetchHandler _ true true true (λ _ have, Ok have) (λ id, bool_decide (id = lit "a0")) (λ _ _, Ok tt) (λ _ _ _, Ok (tt, [])).

Lemma demo_oid (w : text) :
  w ≠ [] → forallb is_scalar w = true → forallb (λ c, negb (is_whitespace c)) w = true → oid_word w.
Proof.
  intros Hne Hs Hw. split; [right; by eexists|by apply all_scalars| |done]. apply Forall_forall. intros c Hc.
  rewrite forallb_forall in Hw. apply negb_true_iff, Hw. by apply list_elem_of_In.
Qed.

Lemma fetch_exact_witness :
  ∃ r, handle_v2_fetch demo_fetch elements (client_fetch [lit "t1"] [lit "a0"] false) = Ok r
    ∧ reads (fr_protocol_buf r) (negotiation_packets false [lit "a0"] ++ shallow_packets []) [].
Proof.
  eassert (handle_v2_fetch demo_fetch elements (client_fetch [lit "t1"] [lit "a0"] false) = Ok _) as E
    by (vm_compute; reflexivity).
  match type of E with _ = Ok ?r => exists r; split; [exact E|];
    destruct (fetch_exact demo_fetch elements [lit "t1"] [lit "a0"] false [lit "a0"] r) as [_ H] end.
  destruct (H ltac:(apply Forall_singleton; split; [apply demo_oid; [discriminate|reflexivity..]|vm_compute; discriminate])
    ltac:(apply Forall_singleton; split; [apply demo_oid; [discriminate|reflexivity..]|vm_compute; discriminate])
    ltac:(vm_compute; reflexivity) ltac:(repeat constructor; vm_compute; discriminate)
    ltac:(intros ? ? ? ? ? [= <- <-]; constructor) E) as (_ & shallow & Hr & Hp).
  destruct Hp as [o [= <-]]. exact Hr.
Defined.

Lemma pushed_and_told_witness :
  ∃ s' st', split_receive_pack_request demo_session (client_request demo_caps demo_client [] demo_pack)
      = Ok (s', [demo_cmd], demo_pack)
    ∧ (∃ bs, git_receive_pack_stream (demo_handler (λ _, push_ctx)) s' [demo_cmd] demo_pack demo_start = (st', Ok bs))
    ∧ ∃ landed, landed_at [lit "a"] leaf2 landed root0 9 push_mono (mh_tables st').2.
Proof.
  destruct (pushed_and_told no_date no_text no_check no_decode 60 demo_admission (demo_round (λ _, push_ctx)) [] no_review
    (λ _, []) demo_unpack demo_receiver (λ _ _, false) (λ c st, (st, None)) demo_session demo_caps demo_client demo_pack
    demo_start (demo_receive demo_cmd {[lit "t1"]}) demo_chain push_tip [lit "a"] ref_root push_ctx
    (mk_Poll 1 id [push_root_seen]) demo_empty push_mono demo_control) as (s' & st' & landed & E1 & E2 & Hl & _).
  - exact demo_client_ok.
  - split; [reflexivity|vm_compute; reflexivity|discriminate].
  - right. vm_compute. reflexivity.
  - discriminate.
  - reflexivity.
  - reflexivity.
  - exact push_row_path.
  - exact push_mono_ok.
  - exact push_healthy.
  - exact push_commits_keyed.
  - reflexivity.
  - reflexivity.
  - reflexivity.
  - vm_compute. reflexivity.
  - eexists. vm_compute. reflexivity.
  - exact demo_fits.
  - vm_compute. reflexivity.
  - vm_compute. reflexivity.
  - vm_compute. reflexivity.
  - apply demo_idle.
  - split; try reflexivity. exists push_root_seen. split; [reflexivity|]. split; vm_compute; reflexivity.
  - exists s', st'. split; [exact E1|]. split; [eexists; exact E2|]. exists landed. exact Hl.
Defined.

