(* ===== verification/PushAuth.v ===== *)
(** * Who may push

    Models the credentials of a Git push over HTTP: the tokens of the configuration with
    their validation ([src/config/model.rs], [validate.rs], [secret.rs]), the lookup of a
    token and the gate on the pushed path ([src/contract/git_protocol/mod.rs]), the
    enforcement switch of the policy engine ([src/contract/policy/enforcement.rs]), the
    handler of a push request ([git_receive_pack] of [src/contract/git_protocol/http.rs])
    outside the traces namespace, and the gates that read the same tokens: of writes of the
    product API ([src/api/api_write_auth.rs]), of Git LFS ([src/api/router/lfs_router.rs]) and
    of the OCI registry ([src/ceres/oci/auth.rs], [src/api/router/oci_router.rs]).

    SHA-256 and base64 are arguments, as are the answer of the policy engine and the lookup
    of a user by access token.  A header is its text, absent when it is not printable. *)
From stdpp Require Import base strings sets numbers tactics list gmap relations.
From S2P Require Import Prelude Text CommitMessage GitObjects GitPath MonoPath PushQueueService PushChain SmartProtocol SmartWire.
From S2P Require Import ViewTreeDemo MonoDemo QueueTables PushServiceDemo TrunkReceive TrunkReceiveDemo SmartTheorems.

(** ** Configuration *)

Inductive PushAuth := AuthToken | AuthNone.

#[export] Instance PushAuth_eq_dec : EqDecision PushAuth.
Proof. solve_decision. Defined.

Record PushTokenConfig := mk_PushTokenConfig {
  tk_name : text;
  tk_token : text;
  tk_paths : option (list text);
}.

Record GitConfig := mk_GitConfig {
  anonymous_access : bool;
  push_auth : option PushAuth;
  push_tokens : list PushTokenConfig;
  ssh_receive_pack : option bool;
}.

Definition storage_only (git : GitConfig) : bool := bool_decide (is_Some (push_auth git)).
Definition ssh_receive_pack_enabled (git : GitConfig) : bool :=
  negb (storage_only git) && negb (bool_decide (ssh_receive_pack git = Some false)).

(** The loop that removes slashes at the end, on the reversed text. *)
Fixpoint pop_slashes (p : text) : text :=
  match p with
  | c :: ((_ :: _) as rest) => if N.eqb c (ch "/") then pop_slashes rest else p
  | _ => p
  end.

Definition normalize_token_path (path : text) : text :=
  let trimmed := trim path in
  if bool_decide (trimmed = []) then lit "/"
  else
    let p := replace_char backslash (lit "/") trimmed in
    let p := if starts_with (lit "/") p then p else lit "/" ++ p in
    reverse (pop_slashes (reverse p)).

Definition token_path_authorizes (authorized pushed : text) : bool :=
  let authorized := normalize_token_path authorized in
  let pushed := normalize_token_path pushed in
  if bool_decide (authorized = lit "/") then true
  else bool_decide (pushed = authorized) || starts_with (authorized ++ lit "/") pushed.

(** The [MegaError]s of the validation, by message. *)
Inductive ConfigError :=
  | TokenNameEmpty
  | TokenNameDuplicated (name : text)
  | TokenEmpty
  | SecretRefScheme
  | SecretRefField
  | SecretRefFieldName
  | SecretRefName
  | SecretRefPlace
  | TokenPathEmpty
  | TokenPathComponents
  | TokenPathRelative
  | TokenPathSlash
  | NoTokens
  | TrunkEnforcement
  | AuthWithoutTrunk
  | TrunkWithoutAuth
  | SshNotDisabled
  | OciWithoutAuth.

Definition is_secret_ref_value (value : text) : bool :=
  starts_with (lit "vault://") (trim_start_matches is_whitespace value).

Definition valid_secret_name (name : text) : bool :=
  negb (bool_decide (name = []) || starts_with (lit "/") name || bool_decide (name = lit "secret")
        || starts_with (lit "secret/") name
        || existsb (λ seg, bool_decide (seg = []) || bool_decide (seg = lit ".") || bool_decide (seg = lit ".."))
             (split_on (ch "/") name)).

(** [SecretRef::parse]: the name of the secret and its field. *)
Definition secret_ref_parse (input : text) : outcome ConfigError (text * text) :=
  match strip_prefix (lit "vault://secret/") input with
  | None => Err SecretRefScheme
  | Some path_and_field =>
      match split_once (ch "#") path_and_field with
      | None => Err SecretRefField
      | Some (secret_name, field) =>
          if bool_decide (field = []) || contains_char (ch "#") field || contains_char (ch "/") field
          then Err SecretRefFieldName
          else if negb (valid_secret_name secret_name) then Err SecretRefName
          else Ok (secret_name, field)
      end
  end.

Definition is_config_secret_under (secret_name suffix : text) : bool :=
  match strip_prefix (lit "config/") secret_name with
  | None => false
  | Some rest =>
      match strip_suffix (lit "/" ++ suffix) rest with
      | None => false
      | Some profile => negb (bool_decide (profile = [])) && negb (contains_char (ch "/") profile)
      end
  end.

Definition validate_config_secret_ref (secret_name suffix : text) : outcome ConfigError unit :=
  if is_config_secret_under secret_name suffix then Ok tt else Err SecretRefPlace.

Definition validate_token_auth_path (path : text) : outcome ConfigError unit :=
  if bool_decide (trim path = []) then Err TokenPathEmpty
  else if contains_str (lit "//") path then Err TokenPathComponents
  else if negb (starts_with (lit "/") (trim path)) then Err TokenPathRelative
  else if ends_with (lit "/") (trim path) && negb (bool_decide (normalize_token_path path = lit "/")) then Err TokenPathSlash
  else Ok tt.

Definition validate_token (names : list text) (token : PushTokenConfig) : outcome ConfigError unit :=
  if bool_decide (trim (tk_name token) = []) then Err TokenNameEmpty
  else if bool_decide (tk_name token ∈ names) then Err (TokenNameDuplicated (tk_name token))
  else if bool_decide (trim (tk_token token) = []) then Err TokenEmpty
  else
    _ ← (if is_secret_ref_value (tk_token token) then
           secret ← secret_ref_parse (tk_token token);
           validate_config_secret_ref secret.1 (lit "git/push_tokens/" ++ tk_name token)
         else Ok tt);
    match tk_paths token with
    | None => Ok tt
    | Some paths => foldM (λ _ path, validate_token_auth_path path) tt paths
    end.

(** The set of names is the list of those before. *)
Fixpoint validate_tokens (names : list text) (tokens : list PushTokenConfig) : outcome ConfigError unit :=
  match tokens with
  | [] => Ok tt
  | token :: tokens => _ ← validate_token names token; validate_tokens (tk_name token :: names) tokens
  end.

Definition validate_git_config (git : GitConfig) : outcome ConfigError unit :=
  _ ← validate_tokens [] (push_tokens git);
  if bool_decide (push_auth git = Some AuthToken) && bool_decide (length (push_tokens git) = 0) then Err NoTokens else Ok tt.

Definition validate_trunk_config_surface (policy : PushPolicy) (enforcement : text) (git : GitConfig) (oci_enabled : bool)
    : outcome ConfigError unit :=
  let trunk := match policy with PolicyTrunk => true | PolicyReview => false end in
  if trunk && negb (bool_decide (enforcement = lit "off")) then Err TrunkEnforcement
  else if storage_only git && negb trunk then Err AuthWithoutTrunk
  else if negb (storage_only git) && trunk then Err TrunkWithoutAuth
  else if storage_only git && negb (bool_decide (ssh_receive_pack git = Some false)) then Err SshNotDisabled
  else if oci_enabled && negb (storage_only git) then Err OciWithoutAuth
  else Ok tt.

(** ** Enforcement *)

Inductive Enforcement := EnforceOff | EnforceShadow | EnforceOn.

Definition enforcement_parse (s : text) : option Enforcement :=
  if bool_decide (s = lit "off") then Some EnforceOff
  else if bool_decide (s = lit "shadow") then Some EnforceShadow
  else if bool_decide (s = lit "enforce") then Some EnforceOn
  else None.

Definition enforcement_builds (e : Enforcement) : bool := match e with EnforceOff => false | _ => true end.

(** [EnforcementDecision] as a [bool]: allowed or not. *)
Definition decide_enforcement (e : Enforcement) (would_deny store_empty : bool) : bool :=
  match e with EnforceOff | EnforceShadow => true | EnforceOn => negb (would_deny || store_empty) end.

(** ** Tokens *)

(** [auth.username] *)
Abbreviation AuthContext := (option text).

Inductive AuthError :=
  | AuthRequired
  | PathNotAuthorized (path : text)
  | InvalidEnforcement
  | StoreNotBuilt
  | PolicyEngineError
  | PermissionDenied
  | UserLookupFailed
  | AnonymousDisabled.

Fixpoint xor_diff (a b : bytes) : N :=
  match a, b with
  | x :: a, y :: b => N.lor (N.lxor x y) (xor_diff a b)
  | _, _ => 0
  end.

Definition ct_eq_bytes (a b : bytes) : bool :=
  if negb (length a =? length b) then false else N.eqb (xor_diff a b) 0.

Definition token_covers_repo (token : PushTokenConfig) (repo_path : text) : bool :=
  match tk_paths token with
  | None | Some [] => true
  | Some paths => existsb (λ authorized, token_path_authorizes authorized repo_path) paths
  end.

Definition check_upload_pack_access (git : GitConfig) (auth : AuthContext) : outcome AuthError unit :=
  if anonymous_access git then Ok tt else match auth with None => Err AnonymousDisabled | Some _ => Ok tt end.

Definition receive_pack_requires_http_auth (git : GitConfig) : bool := negb (bool_decide (push_auth git = Some AuthNone)).

Definition apply_push_auth_gate (git : GitConfig) (auth : AuthContext) (repo_path : text) : outcome AuthError unit :=
  match push_auth git with
  | Some AuthNone => Ok tt
  | Some AuthToken =>
      match auth with
      | None => Err AuthRequired
      | Some username =>
          match List.find (λ candidate, bool_decide (tk_name candidate = username)) (push_tokens git) with
          | None => Err AuthRequired
          | Some token => if token_covers_repo token repo_path then Ok tt else Err (PathNotAuthorized repo_path)
          end
      end
  | None => match auth with None => Err AuthRequired | Some _ => Ok tt end
  end.

Section Gate.
Context (sha256_bytes : text → bytes) (b64_decode : text → option bytes).
(** The snapshot of the policy engine: whether it is empty, and whether it would deny, where
    [None] is a failure of the engine; and the user of an access token, where [None] is a
    failure of the lookup. *)
Context (snapshot : option (bool * (text → text → option bool))) (find_user_by_token : text → option (option text)).

(** Every token is compared; the first match counts. *)
Definition lookup_push_token (tokens : list PushTokenConfig) (presented : text) : option PushTokenConfig :=
  foldl (λ matched token,
    if ct_eq_bytes (sha256_bytes presented) (sha256_bytes (tk_token token)) && bool_decide (matched = None)
    then Some token else matched) None tokens.

Definition decide_push (e : Enforcement) (store : bool * (text → text → option bool)) (username repo_name : text)
    : outcome AuthError unit :=
  match store.2 username repo_name with
  | None => Err PolicyEngineError
  | Some would_deny => if decide_enforcement e would_deny store.1 then Ok tt else Err PermissionDenied
  end.

Definition check_push_permission (git : GitConfig) (enforcement : text) (auth : AuthContext) (repo_path : text)
    : outcome AuthError unit :=
  _ ← apply_push_auth_gate git auth repo_path;
  match enforcement_parse enforcement with
  | None => Err InvalidEnforcement
  | Some e =>
      if negb (enforcement_builds e) then Ok tt
      else match auth with
      | None => Err AuthRequired
      | Some username =>
          match snapshot with None => Err StoreNotBuilt | Some store => decide_push e store username repo_path end
      end
  end.

(** ** The header *)

(** [strip_prefix] with a second prefix to try *)
Definition strip_either (a b value : text) : option text :=
  match strip_prefix a value with Some t => Some t | None => strip_prefix b value end.

Definition bearer_token_from_authorization_value (value : text) : option text :=
  trim <$> strip_either (lit "Bearer ") (lit "bearer ") value.

Definition basic_auth_password_from_authorization_value (value : text) : option text :=
  stripped ← strip_either (lit "Basic ") (lit "basic ") value;
  decoded ← b64_decode (trim stripped);
  decoded_str ← from_utf8 decoded;
  split_on (ch ":") decoded_str !! 1.

Definition presented_git_http_token (header : option text) : option text :=
  auth_header ← header;
  match bearer_token_from_authorization_value auth_header with
  | Some t => Some t
  | None => basic_auth_password_from_authorization_value auth_header
  end.

(** The user that a request is authenticated as. *)
Definition git_http_auth (git : GitConfig) (header : option text) : outcome AuthError (option text) :=
  match presented_git_http_token header with
  | None => Ok None
  | Some token =>
      if bool_decide (push_auth git = Some AuthToken) then Ok (tk_name <$> lookup_push_token (push_tokens git) token)
      else match find_user_by_token token with None => Err UserLookupFailed | Some user => Ok user end
  end.

(** ** A push over HTTP *)

(** The status 401, the error of the gate, a failure to read the body, an error of the
    protocol, and the status 200 with its body. *)
Inductive HttpReply :=
  | HttpUnauthorized
  | HttpRefused (e : AuthError)
  | HttpBodyError
  | HttpBad (e : WireError)
  | HttpOk (body : bytes).

(** The credential and the permission, before the body is read: the user of the session, if
    any. *)
Definition admit_push (git : GitConfig) (enforcement : text) (header : option text) (repo_path : text)
    : outcome HttpReply AuthContext :=
  user ← (if receive_pack_requires_http_auth git then
            user ← map_err HttpRefused (git_http_auth git header);
            match user with None => Err HttpUnauthorized | Some user => Ok (Some user) end
          else Ok None);
  _ ← map_err HttpRefused (check_push_permission git enforcement user repo_path);
  Ok user.

(** ** Writes of the product API *)

Definition ANONYMOUS_API_WRITE_REQUESTER : text := lit "anonymous".

(** The refusals of the API: 401, and 403 with the path named or not. *)
Inductive ApiRefusal := ApiChallenge | ApiForbiddenPath (path : text) | ApiForbidden.

Definition token_from_headers (header : option text) : option text :=
  value ← header;
  match bearer_token_from_authorization_value value with
  | Some bearer => Some bearer
  | None =>
      stripped ← strip_either (lit "Basic ") (lit "basic ") value;
      decoded ← b64_decode (trim stripped);
      decoded ← from_utf8 decoded;
      split_on (ch ":") decoded !! 1
  end.

Definition authorize_trunk_api_write (git : GitConfig) (header : option text) (path : text) : outcome ApiRefusal text :=
  let path := if bool_decide (path = []) then lit "/" else path in
  match push_auth git with
  | Some AuthNone => Ok ANONYMOUS_API_WRITE_REQUESTER
  | Some AuthToken =>
      match token_from_headers header with
      | None => Err ApiChallenge
      | Some presented =>
          match lookup_push_token (push_tokens git) presented with
          | None => Err ApiChallenge
          | Some token => if token_covers_repo token path then Ok (tk_name token) else Err (ApiForbiddenPath path)
          end
      end
  | None => Err ApiChallenge
  end.

Definition authorize_import_repo_removal (git : GitConfig) (header : option text) (canonical : text)
    : outcome ApiRefusal text :=
  if negb (bool_decide (push_auth git = Some AuthToken)) then Err ApiForbidden
  else map_err (λ err, match err with ApiChallenge => ApiChallenge | _ => ApiForbidden end)
         (authorize_trunk_api_write git header canonical).

(** ** Git LFS *)

Inductive LfsAccess := LfsRead | LfsWrite.

#[export] Instance LfsAccess_eq_dec : EqDecision LfsAccess.
Proof. solve_decision. Defined.

Definition lfs_access_allowed (access : LfsAccess) (anonymous_access authenticated : bool) : bool :=
  match access with LfsRead => anonymous_access || authenticated | LfsWrite => authenticated end.

Definition lfs_token_from_headers (header : option text) : option text :=
  value ← header;
  match bearer_token_from_authorization_value value with
  | Some bearer => Some bearer
  | None =>
      stripped ← strip_either (lit "Basic ") (lit "basic ") value;
      decoded ← b64_decode (trim stripped);
      decoded ← from_utf8 decoded;
      split_on (ch ":") decoded !! 1
  end.

Definition lfs_authenticated_user (header : option text) : option text :=
  token ← lfs_token_from_headers header;
  user ← find_user_by_token token;
  user.

Definition enforce_trunk_lfs_access (git : GitConfig) (header : option text) (access : LfsAccess) (repo_path : text)
    : outcome ApiRefusal unit :=
  let path := if bool_decide (repo_path = []) then lit "/" else repo_path in
  match push_auth git with
  | Some AuthNone => Ok tt
  | Some AuthToken =>
      let matched := presented ← lfs_token_from_headers header; lookup_push_token (push_tokens git) presented in
      match access with
      | LfsRead => if anonymous_access git || negb (bool_decide (matched = None)) then Ok tt else Err ApiChallenge
      | LfsWrite =>
          match matched with
          | None => Err ApiChallenge
          | Some token => if token_covers_repo token path then Ok tt else Err (ApiForbiddenPath path)
          end
      end
  | None => Err ApiChallenge
  end.

Definition enforce_lfs_access (policy : PushPolicy) (git : GitConfig) (header : option text) (access : LfsAccess)
    (repo_path : text) : outcome ApiRefusal unit :=
  match policy with
  | PolicyTrunk => enforce_trunk_lfs_access git header access repo_path
  | PolicyReview =>
      let authenticated :=
        if bool_decide (access = LfsRead) && anonymous_access git then false
        else negb (bool_decide (lfs_authenticated_user header = None)) in
      if lfs_access_allowed access (anonymous_access git) authenticated then Ok tt else Err ApiChallenge
  end.

(** ** The OCI registry *)

Inductive Credentials := CredMissing | CredInvalid | CredToken (token : text).
Inductive OciError := OciUnauthorized | OciDenied.

(** Here a header that is not printable, [Some None], is told from an absent one. *)
Definition oci_credentials (header : option (option text)) : Credentials :=
  match header with
  | None => CredMissing
  | Some None => CredInvalid
  | Some (Some value) =>
      match strip_either (lit "Bearer ") (lit "bearer ") value with
      | Some token => if negb (bool_decide (trim token = [])) then CredToken (trim token) else CredInvalid
      | None =>
          match strip_either (lit "Basic ") (lit "basic ") value with
          | None => CredInvalid
          | Some encoded =>
              match b64_decode (trim encoded) ≫= from_utf8 with
              | None => CredInvalid
              | Some decoded =>
                  match split_once (ch ":") decoded with
                  | None => CredInvalid
                  | Some (_, password) => if negb (bool_decide (password = [])) then CredToken password else CredInvalid
                  end
              end
          end
      end
  end.

Definition token_from_authorization (header : option (option text)) : option text :=
  match oci_credentials header with CredToken token => Some token | CredMissing | CredInvalid => None end.

(** [authorize_read], which [authorize_repo_read] and [registry_ping_allowed] call. *)
Definition authorize_read (git : GitConfig) (header : option (option text)) : outcome OciError unit :=
  match oci_credentials header with
  | CredMissing => if anonymous_access git then Ok tt else Err OciUnauthorized
  | CredInvalid => Err OciUnauthorized
  | CredToken token =>
      match lookup_push_token (push_tokens git) token with Some _ => Ok tt | None => Err OciUnauthorized end
  end.

Definition authorize_repo_write (git : GitConfig) (header : option (option text)) (repo : text) : outcome OciError unit :=
  match push_auth git with
  | Some AuthNone => Ok tt
  | Some AuthToken =>
      match oci_credentials header with
      | CredToken token =>
          match lookup_push_token (push_tokens git) token with
          | None => Err OciUnauthorized
          | Some token => if token_covers_repo token (lit "/" ++ repo) then Ok tt else Err OciDenied
          end
      | _ => Err OciUnauthorized
      end
  | None => Err OciUnauthorized
  end.

Definition authorize_mount_source (git : GitConfig) (header : option (option text)) (source : text) : outcome OciError unit :=
  _ ← authorize_read git header;
  if negb (bool_decide (push_auth git = Some AuthToken)) then Ok tt
  else match token_from_authorization header with
  | None => Ok tt
  | Some presented =>
      match lookup_push_token (push_tokens git) presented with
      | None => Err OciUnauthorized
      | Some token => if token_covers_repo token (lit "/" ++ source) then Ok tt else Err OciDenied
      end
  end.

(** ** The handler *)

Context `{GitObjects} {S : Type} (handler : option text → RepoHandler S).

(** [body] is [None] when it cannot be read; the reply is [None] while the repository still
    waits. *)
Definition http_receive_pack (git : GitConfig) (enforcement : text) (session : SmartSession) (header : option text)
    (repo_path : text) (body : option bytes) (st : S) : S * option HttpReply :=
  match admit_push git enforcement header repo_path with
  | Err reply => (st, Some reply)
  | Ok user =>
      match body with
      | None => (st, Some HttpBodyError)
      | Some body =>
          if bool_decide (body = PKT_LINE_END_MARKER) then (st, Some (HttpOk PKT_LINE_END_MARKER))
          else match split_receive_pack_request session body with
          | Err e => (st, Some (HttpBad e))
          | Ok (session, commands, pack_bytes) =>
              match git_receive_pack_stream (handler user) session commands pack_bytes st with
              | (st, Ok report) => (st, Some (HttpOk report))
              | (st, Err e) => (st, Some (HttpBad e))
              | (st, _) => (st, None)
              end
          | _ => (st, None)
          end
      end
  | _ => (st, None)
  end.
End Gate.

(** ** Lemmas: paths *)

Lemma split_prefix s t :
  split_on (ch "/") s `prefix_of` split_on (ch "/") t ↔ t = s ∨ ∃ r, t = s ++ ch "/" :: r.
Proof.
  split.
  - intros [k Hk]. apply (f_equal (join (ch "/"))) in Hk. rewrite join_split in Hk. destruct k as [|x k].
    + rewrite app_nil_r, join_split in Hk. by left.
    + rewrite join_app, join_split in Hk by (done || apply split_on_nonempty). eauto.
  - intros [->|[r ->]]; [done|]. rewrite split_on_sep. by eexists.
Qed.

Lemma pop_slashes_suffix q : q ≠ [] → ∃ k c r, q = k ++ pop_slashes q ∧ pop_slashes q = c :: r.
Proof.
  induction q as [|c q IH]; [done|]. intros _. destruct q as [|d q]; [by exists [], c, []|].
  cbn [pop_slashes]. destruct (N.eqb c (ch "/")).
  - destruct IH as (k & c' & r & Hq & Hp); [done|]. exists (c :: k), c', r. by rewrite Hq at 1.
  - by exists [], c, (d :: q).
Qed.

Lemma normalize_rooted path : ∃ r, normalize_token_path path = ch "/" :: r.
Proof.
  unfold normalize_token_path. case_bool_decide; [by exists []|].
  set (p := replace_char _ _ _). set (q := if starts_with (lit "/") p then p else lit "/" ++ p).
  assert (∃ x, q = ch "/" :: x) as [x Hx].
  { unfold q. destruct (starts_with (lit "/") p) eqn:Hs; [|by exists p].
    apply starts_with_spec in Hs as [r ->]. by eexists. }
  destruct (pop_slashes_suffix (reverse q)) as (k & c & r & Hq & Hp).
  { rewrite Hx, reverse_cons. by destruct (reverse x). }
  rewrite Hp in *. apply (f_equal reverse) in Hq. rewrite reverse_involutive, reverse_app, Hx in Hq.
  destruct (reverse (c :: r)) as [|y l] eqn:Hr.
  - rewrite reverse_cons in Hr. by destruct (reverse r).
  - exists l. simplify_list_eq. done.
Qed.

(** The components of a path as the gate reads it. *)
Definition token_components (path : text) : list text :=
  let p := normalize_token_path path in if bool_decide (p = lit "/") then [] else tail (split_on (ch "/") p).

Lemma token_path_authorizes_spec authorized pushed :
  token_path_authorizes authorized pushed = true ↔ token_components authorized `prefix_of` token_components pushed.
Proof.
  unfold token_path_authorizes, token_components.
  destruct (normalize_rooted authorized) as [a ->], (normalize_rooted pushed) as [p ->].
  change (lit "/") with [ch "/"].
  assert (∀ r, tail (split_on (ch "/") (ch "/" :: r)) = split_on (ch "/") r) as Ht by done.
  assert (∀ r : text, ch "/" :: r = [ch "/"] ↔ r = []) as Hnil by (intros r; split; congruence).
  rewrite !Ht. case_bool_decide as Ha; rewrite Hnil in Ha.
  - split; [|done]. intros _. apply prefix_nil.
  - rewrite orb_true_iff, bool_decide_eq_true, starts_with_spec.
    transitivity (p = a ∨ ∃ r, p = a ++ ch "/" :: r).
    + f_equiv; [split; congruence|]. apply exist_proper. intros r. split; [intros [= ->]; by simplify_list_eq|].
      intros ->. by simplify_list_eq.
    + case_bool_decide as Hp; rewrite Hnil in Hp; [subst|by rewrite split_prefix].
      split; [intros [?|[r Hr]]; [congruence|by destruct a]|].
      intros Hpre%prefix_nil_inv. by apply split_on_nonempty in Hpre.
Qed.

(** ** Lemmas: tokens *)

Lemma split_once_no sep s : split_once sep s = None → sep ∉ s.
Proof.
  induction s as [|c s IH]; [set_solver|]. simpl. destruct (N.eqb_spec c sep) as [|Hc]; [done|].
  destruct (split_once sep s) as [[]|]; [done|]. intros _. rewrite not_elem_of_cons. auto.
Qed.

Lemma xor_diff_zero a b : length a = length b → xor_diff a b = 0%N ↔ a = b.
Proof.
  revert b. induction a as [|x a IH]; intros [|y b]; try done. intros [= Hl]. cbn [xor_diff].
  rewrite N.lor_eq_0_iff, IH, N.lxor_eq_0_iff by done. split; [by intros [-> ->]|by intros [= -> ->]].
Qed.

(** The comparison that does not stop early is equality. *)
Lemma ct_eq_bytes_spec a b : ct_eq_bytes a b = bool_decide (a = b).
Proof.
  unfold ct_eq_bytes. destruct (Nat.eqb_spec (length a) (length b)) as [Hl|Hl]; simpl.
  - apply eq_bool_prop_intro. rewrite bool_decide_spec, <-xor_diff_zero by done.
    rewrite Is_true_true. apply N.eqb_eq.
  - symmetry. apply bool_decide_eq_false. congruence.
Qed.

Lemma find_lookup {A} (f : A → bool) l a :
  List.find f l = Some a ↔ ∃ i, l !! i = Some a ∧ f a = true ∧ ∀ j b, j < i → l !! j = Some b → f b = false.
Proof.
  induction l as [|b l IH]; simpl; [split; [done|by intros (i & ? & _)]|].
  destruct (f b) eqn:Hb.
  - split; [intros [= ->]; exists 0; repeat split; [done|]; lia|].
    intros ([|i] & Hi & Ha & Hlt); [done|]. specialize (Hlt 0 b ltac:(lia) eq_refl). congruence.
  - rewrite IH. split; intros (i & Hi & Ha & Hlt).
    + exists (S i). split; [done|]. split; [done|]. intros [|j] c Hj; [by intros [= <-]|]. apply Hlt. lia.
    + destruct i as [|i]; [simplify_eq/=; congruence|]. exists i. split; [done|]. split; [done|].
      intros j c Hj. apply (Hlt (S j)). lia.
Qed.

Lemma find_unique {A B} `{EqDecision B} (g : A → B) l a :
  NoDup (g <$> l) → a ∈ l → List.find (λ c, bool_decide (g c = g a)) l = Some a.
Proof.
  induction l as [|b l IH]; [by intros _ ?%elem_of_nil|].
  rewrite fmap_cons, NoDup_cons. intros [Hb Hl] [->|Ha]%elem_of_cons; cbn [List.find].
  - by rewrite bool_decide_true.
  - rewrite bool_decide_false; [by apply IH|]. intros Heq. apply Hb. rewrite Heq. by apply list_elem_of_fmap_2.
Qed.

Lemma validate_tokens_names names tokens :
  validate_tokens names tokens = Ok tt →
  NoDup (tk_name <$> tokens) ∧ ∀ token, token ∈ tokens → tk_name token ∉ names.
Proof.
  revert names. induction tokens as [|token tokens IH]; intros names; [split; [constructor|set_solver]|].
  cbn [validate_tokens]. intros (u & Hu & [Hd Hn]%IH)%bind_Ok.
  assert (tk_name token ∉ names) as Hno.
  { revert Hu. unfold validate_token. repeat case_bool_decide; done. }
  split; [|set_solver]. rewrite fmap_cons. constructor; [|done].
  intros (t & Ht & Hin)%list_elem_of_fmap. apply (Hn t Hin). rewrite <-Ht. set_solver.
Qed.

Lemma validated_names git : validate_git_config git = Ok tt → NoDup (tk_name <$> push_tokens git).
Proof. unfold validate_git_config. intros (u & Hu & _)%bind_Ok. destruct u. by destruct (validate_tokens_names _ _ Hu). Qed.

Lemma validated_secret git token :
  validate_git_config git = Ok tt → token ∈ push_tokens git → tk_token token ≠ [].
Proof.
  unfold validate_git_config. intros (u & Hu & _)%bind_Ok. destruct u. revert Hu. generalize (@nil text) as names.
  induction (push_tokens git) as [|t l IH]; [set_solver|]. intros names. cbn [validate_tokens].
  intros (u & Hu & Hl)%bind_Ok [->|Hin]%elem_of_cons; [|by eapply IH].
  intros Ht. revert Hu. unfold validate_token. rewrite Ht. repeat case_bool_decide; done.
Qed.

(** A deployment that lands pushes on the trunk leaves the policy engine off and has no push
    over SSH. *)
Lemma validated_trunk enforcement git oci :
  validate_trunk_config_surface PolicyTrunk enforcement git oci = Ok tt →
  enforcement = lit "off" ∧ storage_only git = true ∧ ssh_receive_pack_enabled git = false.
Proof.
  unfold validate_trunk_config_surface. case_bool_decide as He; [|done].
  destruct (storage_only git) eqn:Hs; [|done]. intros _. unfold ssh_receive_pack_enabled. by rewrite Hs.
Qed.

(** What a token grants: the whole repository, or the directories it names. *)
Definition token_grants (token : PushTokenConfig) (path : text) : Prop :=
  match tk_paths token with
  | None | Some [] => True
  | Some paths => ∃ authorized, authorized ∈ paths ∧ token_components authorized `prefix_of` token_components path
  end.

Lemma token_covers_repo_spec token path : token_covers_repo token path = true ↔ token_grants token path.
Proof.
  unfold token_covers_repo, token_grants. destruct (tk_paths token) as [[|p paths]|]; [done| |done].
  rewrite existsb_exists. apply exist_proper. intros a. by rewrite list_elem_of_In, token_path_authorizes_spec.
Qed.

(** ** The gate *)

(** The first token of the configuration whose secret is the presented one. *)
Definition first_token (tokens : list PushTokenConfig) (presented : text) (token : PushTokenConfig) : Prop :=
  ∃ i, tokens !! i = Some token ∧ tk_token token = presented
       ∧ ∀ j earlier, j < i → tokens !! j = Some earlier → tk_token earlier ≠ presented.

(** The digest tells the presented secret from those of the configuration. *)
Definition digest_exact (sha256_bytes : text → bytes) (git : GitConfig) (presented : text) : Prop :=
  ∀ token, token ∈ push_tokens git → sha256_bytes presented = sha256_bytes (tk_token token) → presented = tk_token token.

Ltac bind_step := cbn [mbind option_bind fmap option_fmap option_map negb].

Section GateLemmas.
Context (sha256_bytes : text → bytes) (b64_decode : text → option bytes).
Context (snapshot : option (bool * (text → text → option bool))) (find_user_by_token : text → option (option text)).

Lemma lookup_push_token_find tokens presented :
  lookup_push_token sha256_bytes tokens presented
  = List.find (λ t, bool_decide (sha256_bytes presented = sha256_bytes (tk_token t))) tokens.
Proof.
  unfold lookup_push_token. set (f := λ matched token, _).
  assert (∀ l t, foldl f (Some t) l = Some t) as Hsome.
  { intros l t. induction l as [|x l IH]; [done|]. cbn [foldl]. unfold f at 2. by rewrite andb_false_r. }
  induction tokens as [|t l IH]; [done|]. cbn [foldl List.find]. unfold f at 2.
  rewrite ct_eq_bytes_spec, andb_true_r. case_bool_decide; [apply Hsome|apply IH].
Qed.

Lemma lookup_push_token_first git presented token :
  digest_exact sha256_bytes git presented →
  lookup_push_token sha256_bytes (push_tokens git) presented = Some token ↔ first_token (push_tokens git) presented token.
Proof.
  intros Hexact. rewrite lookup_push_token_find, find_lookup. apply exist_proper. intros i.
  assert (∀ j t, push_tokens git !! j = Some t →
            sha256_bytes presented = sha256_bytes (tk_token t) ↔ tk_token t = presented) as Hd.
  { intros j t Hj. split; [|by intros <-]. intros Hs. symmetry. apply Hexact; [by eapply list_elem_of_lookup_2|done]. }
  split.
  - intros (Hi & Ht%bool_decide_eq_true & Hlt). split; [done|]. split; [by apply (Hd i)|].
    intros j e Hj He. rewrite <-(Hd j e He). specialize (Hlt j e Hj He). by apply bool_decide_eq_false in Hlt.
  - intros (Hi & Ht & Hlt). split; [done|]. split; [by apply bool_decide_eq_true, (Hd i)|].
    intros j e Hj He. apply bool_decide_eq_false. rewrite (Hd j e He). by apply (Hlt j e).
Qed.

Lemma lookup_push_token_elem tokens presented token :
  lookup_push_token sha256_bytes tokens presented = Some token → token ∈ tokens.
Proof. rewrite lookup_push_token_find. intros [H _]%List.find_some. by apply list_elem_of_In. Qed.

Abbreviation push_gate := (admit_push sha256_bytes b64_decode snapshot find_user_by_token).
Abbreviation api_write := (authorize_trunk_api_write sha256_bytes b64_decode).

(** The gate with tokens, on a configuration that passed its validation. *)
Lemma admit_token git enforcement oci header path :
  validate_git_config git = Ok tt → validate_trunk_config_surface PolicyTrunk enforcement git oci = Ok tt →
  push_auth git = Some AuthToken →
  push_gate git enforcement header path =
    match presented_git_http_token b64_decode header ≫= lookup_push_token sha256_bytes (push_tokens git) with
    | None => Err HttpUnauthorized
    | Some token => if token_covers_repo token path then Ok (Some (tk_name token)) else Err (HttpRefused (PathNotAuthorized path))
    end.
Proof.
  intros Hgit (-> & _ & _)%validated_trunk Hauth.
  unfold admit_push, git_http_auth, receive_pack_requires_http_auth, check_push_permission, apply_push_auth_gate.
  rewrite Hauth, bool_decide_false by done. cbn [negb]. rewrite bool_decide_true by done.
  destruct (presented_git_http_token b64_decode header) as [presented|]; [|done]. simpl.
  destruct (lookup_push_token _ _ _) as [token|] eqn:Hl; [|done]. simpl.
  rewrite (find_unique tk_name) by eauto using validated_names, lookup_push_token_elem.
  by destruct (token_covers_repo token path).
Qed.

(** With any mode of a deployment that lands on the trunk. *)
Lemma admit_open git enforcement oci header path :
  validate_trunk_config_surface PolicyTrunk enforcement git oci = Ok tt → push_auth git = Some AuthNone →
  push_gate git enforcement header path = Ok None.
Proof.
  intros (-> & _ & _)%validated_trunk Hauth.
  unfold admit_push, receive_pack_requires_http_auth, check_push_permission, apply_push_auth_gate.
  by rewrite Hauth, bool_decide_true.
Qed.

Lemma api_credential header : token_from_headers b64_decode header = presented_git_http_token b64_decode header.
Proof.
  destruct header as [v|]; [|done]. unfold token_from_headers, presented_git_http_token. cbn [mbind option_bind].
  by destruct (bearer_token_from_authorization_value v).
Qed.

Lemma covers_root token path :
  token_covers_repo token (if bool_decide (path = []) then lit "/" else path) = token_covers_repo token path.
Proof.
  apply eq_true_iff_eq. rewrite !token_covers_repo_spec. case_bool_decide as Hp; [subst|done].
  unfold token_grants. by change (token_components (lit "/")) with (token_components []).
Qed.

(** The empty text is the secret of no token. *)
Lemma empty_unmatched git :
  validate_git_config git = Ok tt → digest_exact sha256_bytes git [] →
  lookup_push_token sha256_bytes (push_tokens git) [] = None.
Proof.
  intros Hgit Hd. destruct (lookup_push_token _ _ _) as [t|] eqn:Hl; [|done].
  pose proof (lookup_push_token_elem _ _ _ Hl) as Hin.
  apply lookup_push_token_first in Hl as (i & _ & Ht & _); [|done].
  by destruct (validated_secret _ _ Hgit Hin).
Qed.

(** The registry reads the credential that the push gate reads, but for passwords with a
    colon and empty ones. *)
Lemma oci_credential header :
  (∀ t, token_from_authorization b64_decode header = Some t → ch ":" ∈ t →
     ∃ v, header = Some (Some v) ∧ is_Some (bearer_token_from_authorization_value v)) →
  token_from_authorization b64_decode header
  = t ← presented_git_http_token b64_decode (mjoin header); if bool_decide (t = []) then None else Some t.
Proof.
  destruct header as [[v|]|]; [|done..]. cbn [mjoin option_join]. unfold token_from_authorization, oci_credentials.
  unfold presented_git_http_token, basic_auth_password_from_authorization_value. cbn [mbind option_bind].
  unfold bearer_token_from_authorization_value.
  destruct (strip_either (lit "Bearer ") (lit "bearer ") v) as [b|] eqn:E1; [intros _; bind_step; by case_bool_decide|].
  bind_step. destruct (strip_either (lit "Basic ") (lit "basic ") v) as [e|]; [|done]. bind_step.
  destruct (b64_decode (trim e)) as [d|]; [|done]. bind_step. destruct (from_utf8 d) as [x|]; [|done]. bind_step.
  destruct (split_once (ch ":") x) as [[u p]|] eqn:E.
  - apply split_once_Some in E as [-> Hu]. rewrite split_on_app by done. case_bool_decide as Hp; bind_step; [by subst|].
    intros H. destruct (decide (ch ":" ∈ p)) as [Hc|Hc].
    + destruct (H p eq_refl Hc) as (v' & [= <-] & Hb). rewrite E1 in Hb. by destruct Hb.
    + rewrite split_on_no_sep by done. simpl. by rewrite bool_decide_false.
  - intros _. apply split_once_no in E. by rewrite split_on_no_sep.
Qed.

Lemma repo_write_token git header repo :
  authorize_repo_write sha256_bytes b64_decode git header repo =
    match push_auth git with
    | Some AuthNone => Ok tt
    | Some AuthToken =>
        match token_from_authorization b64_decode header ≫= lookup_push_token sha256_bytes (push_tokens git) with
        | None => Err OciUnauthorized
        | Some token => if token_covers_repo token (lit "/" ++ repo) then Ok tt else Err OciDenied
        end
    | None => Err OciUnauthorized
    end.
Proof.
  unfold authorize_repo_write, token_from_authorization. destruct (push_auth git) as [[]|]; [|done..].
  by destruct (oci_credentials b64_decode header).
Qed.

(** No colon is in the password that is read. *)
Lemma basic_no_colon header presented :
  presented_git_http_token b64_decode (Some header) = Some presented →
  bearer_token_from_authorization_value header = None → ch ":" ∉ presented.
Proof.
  unfold presented_git_http_token. cbn [mbind option_bind]. intros H Hb. rewrite Hb in H. revert H.
  unfold basic_auth_password_from_authorization_value.
  intros (x & _ & (y & _ & (z & _ & H)%bind_Some)%bind_Some)%bind_Some.
  pose proof (split_on_pieces (ch ":") z) as Hz. rewrite Forall_lookup in Hz. by apply (Hz 1).
Qed.
End GateLemmas.

(** ** Properties *)

Section Properties.
Context (sha256_bytes : text → bytes) (b64_decode : text → option bytes).
Context (snapshot : option (bool * (text → text → option bool))) (find_user_by_token : text → option (option text)).
Context (git : GitConfig) (enforcement : text) (oci : bool).
Abbreviation push_gate := (admit_push sha256_bytes b64_decode snapshot find_user_by_token).

(** C8: In a deployment that lands pushes on the trunk with push tokens, whose configuration
    passed its validation, a push is admitted exactly when the presented credential is the
    secret of a token of the configuration, the first with that secret, and the token grants
    the pushed path: it names no path, or one whose components are a prefix of those of the
    pushed path, so [/foo] does not grant [/foobar].  The push is then made in the name of the
    token. *)
Theorem push_authorized_exact header path presented user :
  validate_git_config git = Ok tt → validate_trunk_config_surface PolicyTrunk enforcement git oci = Ok tt →
  push_auth git = Some AuthToken → presented_git_http_token b64_decode header = Some presented →
  digest_exact sha256_bytes git presented →
  push_gate git enforcement header path = Ok user
  ↔ ∃ token, first_token (push_tokens git) presented token ∧ token_grants token path ∧ user = Some (tk_name token).
Proof.
  intros Hgit Htrunk Hauth Hp Hd. erewrite admit_token by done. rewrite Hp. cbn [mbind option_bind].
  setoid_rewrite <-(lookup_push_token_first _ _ _ _ Hd). setoid_rewrite <-token_covers_repo_spec.
  destruct (lookup_push_token _ _ _) as [token|]; [|split; [done|by intros (? & ? & _)]].
  destruct (token_covers_repo token path) eqn:Hc.
  - split; [intros [= <-]; eauto|]. by intros (? & [= <-] & _ & ->).
  - split; [done|]. intros (? & [= <-] & Hc' & _). congruence.
Qed.

(** C19: The gates of writes that read the push tokens admit what the gate of pushes admits, for
    the same credential and path: the writes of the product API, in the same name, with a
    credential asked for when that gate does; the removal of an imported repository, when a
    token is required; the uploads of Git LFS; and the uploads to a repository of the OCI
    registry, unless the credential is a Basic one whose password has a colon. *)
Theorem write_gates_agree (header : option (option text)) path :
  validate_git_config git = Ok tt → validate_trunk_config_surface PolicyTrunk enforcement git oci = Ok tt →
  let gate := push_gate git enforcement (mjoin header) in
  (∀ name, authorize_trunk_api_write sha256_bytes b64_decode git (mjoin header) path = Ok name
     ↔ ∃ user, gate path = Ok user ∧ name = default ANONYMOUS_API_WRITE_REQUESTER user)
  ∧ (authorize_trunk_api_write sha256_bytes b64_decode git (mjoin header) path = Err ApiChallenge
     ↔ gate path = Err HttpUnauthorized)
  ∧ (∀ name, authorize_import_repo_removal sha256_bytes b64_decode git (mjoin header) path = Ok name
     ↔ gate path = Ok (Some name))
  ∧ (enforce_lfs_access sha256_bytes b64_decode find_user_by_token PolicyTrunk git (mjoin header) LfsWrite path = Ok tt
     ↔ ∃ user, gate path = Ok user)
  ∧ (digest_exact sha256_bytes git [] →
     (∀ t, token_from_authorization b64_decode header = Some t → ch ":" ∈ t →
        ∃ v, header = Some (Some v) ∧ is_Some (bearer_token_from_authorization_value v)) →
     authorize_repo_write sha256_bytes b64_decode git header path = Ok tt ↔ ∃ user, gate (lit "/" ++ path) = Ok user).
Proof.
  intros Hgit Htrunk gate. pose proof (validated_trunk _ _ _ Htrunk) as (_ & Hs & _).
  unfold storage_only in Hs. apply bool_decide_eq_true in Hs as [auth Hauth]. unfold gate.
  unfold authorize_import_repo_removal, authorize_trunk_api_write, enforce_lfs_access, enforce_trunk_lfs_access.
  change (lfs_token_from_headers b64_decode) with (token_from_headers b64_decode).
  rewrite repo_write_token, Hauth, !api_credential. destruct auth.
  - erewrite !admit_token by done. rewrite (bool_decide_true (Some AuthToken = _)) by done. cbn [negb].
    split_and!; [..|intros Hd Hc; rewrite oci_credential by done].
    all: destruct (presented_git_http_token _ _) as [presented|]; [|naive_solver]; cbn [mbind option_bind].
    5: case_bool_decide; [subst; rewrite empty_unmatched by done; naive_solver|]; cbn [mbind option_bind].
    all: destruct (lookup_push_token _ _ _) as [token|]; [|naive_solver].
    1-4: rewrite covers_root. all: by destruct (token_covers_repo token _); naive_solver.
  - erewrite !admit_open by done. rewrite (bool_decide_false (Some AuthNone = _)) by done. naive_solver.
Qed.

(** C32: the password of a Basic credential is read up to its first colon: a token whose
    secret has a colon admits no push whose credential is not a bearer token. *)
Theorem colon_token_unusable header path token :
  validate_git_config git = Ok tt → validate_trunk_config_surface PolicyTrunk enforcement git oci = Ok tt →
  push_auth git = Some AuthToken → token ∈ push_tokens git → ch ":" ∈ tk_token token →
  bearer_token_from_authorization_value header = None →
  (∀ presented, presented_git_http_token b64_decode (Some header) = Some presented → digest_exact sha256_bytes git presented) →
  push_gate git enforcement (Some header) path ≠ Ok (Some (tk_name token)).
Proof.
  intros Hgit Htrunk Hauth Hin Hcolon Hb Hd. erewrite admit_token by done.
  destruct (presented_git_http_token _ _) as [presented|] eqn:Hp; [|done]. cbn [mbind option_bind].
  destruct (lookup_push_token _ _ _) as [t|] eqn:Hl; [|done].
  assert (tk_name t ≠ tk_name token) as Hne; [|destruct (token_covers_repo t path); congruence].
  intros Heq. pose proof (lookup_push_token_elem _ _ _ _ Hl) as Ht.
  apply (find_unique tk_name) in Ht as Hft, Hin as Hfi; [|by apply validated_names..].
  rewrite Heq in Hft. assert (t = token) as -> by congruence.
  apply lookup_push_token_first in Hl as (i & _ & <- & _); [|by apply Hd].
  by apply (basic_no_colon _ _ _ Hp).
Qed.

(** C9: Behind the push gate nothing happens without a token: when a push over HTTP changes
    the repository, or is answered with success, the request presented the secret of a token
    that grants the path, and what the repository received is the request as sent, in the name
    of that token. *)
Theorem push_needs_token {S : Type} (handler : option text → RepoHandler S) session header path body (st st' : S) reply :
  validate_git_config git = Ok tt → validate_trunk_config_surface PolicyTrunk enforcement git oci = Ok tt →
  push_auth git = Some AuthToken →
  (∀ presented, presented_git_http_token b64_decode header = Some presented → digest_exact sha256_bytes git presented) →
  http_receive_pack sha256_bytes b64_decode snapshot find_user_by_token handler git enforcement session header path body st
    = (st', reply) →
  st' ≠ st ∨ (∃ report, reply = Some (HttpOk report)) →
  ∃ presented token, presented_git_http_token b64_decode header = Some presented
    ∧ first_token (push_tokens git) presented token ∧ token_grants token path
    ∧ (st' = st ∨ ∃ request session' commands pack_bytes, body = Some request
         ∧ split_receive_pack_request session request = Ok (session', commands, pack_bytes)
         ∧ st' = (git_receive_pack_stream (handler (Some (tk_name token))) session' commands pack_bytes st).1).
Proof.
  intros Hgit Htrunk Hauth Hd. unfold http_receive_pack. erewrite admit_token by done.
  destruct (presented_git_http_token _ _) as [presented|]; [|naive_solver]. cbn [mbind option_bind].
  destruct (lookup_push_token _ _ _) as [token|] eqn:Hl; [|naive_solver].
  apply lookup_push_token_first in Hl; [|by apply Hd].
  destruct (token_covers_repo token path) eqn:Hc; [|naive_solver]. apply token_covers_repo_spec in Hc.
  intros Hr _. exists presented, token. split_and!; try done. destruct body as [request|]; [|left; congruence].
  case_bool_decide; [left; congruence|].
  destruct (split_receive_pack_request session request) as [[[session' commands] pack]| | |] eqn:Hs; [|left; congruence..].
  right. exists request, session', commands, pack. split_and!; [done..|].
  destruct (git_receive_pack_stream _ _ _ _ _) as [? []]; simpl; congruence.
Qed.
End Properties.

(** ** Examples *)

Definition scoped_token : PushTokenConfig := mk_PushTokenConfig (lit "ci") (lit "s3cret") (Some [lit "/b"; lit "/a"]).
Definition vault_token : PushTokenConfig :=
  mk_PushTokenConfig (lit "vt") (lit "vault://secret/config/prod/git/push_tokens/vt#value") None.
Definition colon_token : PushTokenConfig := mk_PushTokenConfig (lit "ct") (lit "p:q") (Some []).
Definition demo_git : GitConfig :=
  mk_GitConfig true (Some AuthToken) [scoped_token; vault_token; colon_token] (Some false).
Definition demo_bearer : option text := Some (lit "Bearer s3cret").
Definition demo_basic : text := lit "Basic eDpwOnE=".
(** [eDpwOnE=] stands for [x:p:q]. *)
Definition demo_b64 (s : text) : option bytes := if bool_decide (s = lit "eDpwOnE=") then Some (lit "x:p:q") else None.
Abbreviation demo_admit := (admit_push id demo_b64 None (λ _, None) demo_git (lit "off")).

Lemma demo_git_ok : validate_git_config demo_git = Ok tt.
Proof. vm_compute. reflexivity. Qed.

Lemma demo_trunk_ok : validate_trunk_config_surface PolicyTrunk (lit "off") demo_git true = Ok tt.
Proof. vm_compute. reflexivity. Qed.

Lemma demo_digest presented : digest_exact id demo_git presented.
Proof. by intros token _. Qed.

Lemma push_authorized_exact_witness :
  demo_admit demo_bearer (lit "/a/x/") = Ok (Some (lit "ci")) ∧ demo_admit demo_bearer (lit "/ab") ≠ Ok (Some (lit "ci")).
Proof.
  pose proof (λ path, push_authorized_exact id demo_b64 None (λ _, None) demo_git (lit "off") true demo_bearer path (lit "s3cret")
    (Some (lit "ci")) demo_git_ok demo_trunk_ok eq_refl ltac:(vm_compute; reflexivity) (demo_digest _)) as H.
  split.
  - apply H. exists scoped_token. split_and!; [|exists (lit "/a"); split; [set_solver|exists [lit "x"]; vm_compute; reflexivity]|reflexivity].
    exists 0. split_and!; [reflexivity..|lia].
  - intros (t & (i & Hi & Ht & _) & Hg & _)%H.
    destruct i as [|[|[|i]]]; cbn in Hi; simplify_eq; try discriminate.
    destruct Hg as (a & Ha & k & Hk). rewrite !elem_of_cons, elem_of_nil in Ha.
    destruct Ha as [->|[->|[]]]; vm_compute in Hk; discriminate.
Defined.

Lemma write_gates_agree_witness :
  authorize_import_repo_removal id demo_b64 demo_git demo_bearer (lit "/a") = Ok (lit "ci")
  ∧ authorize_repo_write id demo_b64 demo_git (Some demo_bearer) (lit "a/image") = Ok tt.
Proof.
  split.
  - destruct (write_gates_agree id demo_b64 None (λ _, None) demo_git (lit "off") true (Some demo_bearer) (lit "/a")
      demo_git_ok demo_trunk_ok) as (_ & _ & H & _).
    apply H. vm_compute. reflexivity.
  - destruct (write_gates_agree id demo_b64 None (λ _, None) demo_git (lit "off") true (Some demo_bearer) (lit "a/image")
      demo_git_ok demo_trunk_ok) as (_ & _ & _ & _ & H).
    apply H; [exact (demo_digest _)| |exists (Some (lit "ci")); vm_compute; reflexivity].
    intros t _ _. exists (lit "Bearer s3cret"). split; [reflexivity|eexists; vm_compute; reflexivity].
Defined.

Lemma colon_token_unusable_witness : demo_admit (Some demo_basic) (lit "/a") ≠ Ok (Some (lit "ct")).
Proof.
  apply (colon_token_unusable id demo_b64 None (λ _, None) demo_git (lit "off") true demo_basic (lit "/a") colon_token
    demo_git_ok demo_trunk_ok eq_refl).
  - apply (list_elem_of_lookup_2 _ 2). reflexivity.
  - apply (bool_decide_unpack _). vm_compute. exact I.
  - vm_compute. reflexivity.
  - intros presented _. exact (demo_digest presented).
Defined.

Lemma push_needs_token_witness :
  ∃ st' token, (http_receive_pack id demo_b64 None (λ _, None) (λ _, demo_handler (λ _, push_ctx)) demo_git (lit "off")
      demo_session demo_bearer (lit "/a") (Some (client_request demo_caps demo_client [] demo_pack)) demo_start).1 = st'
    ∧ first_token (push_tokens demo_git) (lit "s3cret") token ∧ token_grants token (lit "/a").
Proof.
  destruct (http_receive_pack id demo_b64 None (λ _, None) (λ _, demo_handler (λ _, push_ctx)) demo_git (lit "off")
      demo_session demo_bearer (lit "/a") (Some (client_request demo_caps demo_client [] demo_pack)) demo_start)
    as [st' reply] eqn:E.
  assert (∃ report, reply = Some (HttpOk report)) as Hr.
  { apply (f_equal snd) in E. cbn [snd] in E. subst reply. eexists. vm_compute. reflexivity. }
  destruct (push_needs_token id demo_b64 None (λ _, None) demo_git (lit "off") true _ _ _ _ _ _ _ _
    demo_git_ok demo_trunk_ok eq_refl (λ presented _, demo_digest presented) E (or_intror Hr)) as (presented & token & Hp & Ht & Hg & _).
  exists st', token. split; [reflexivity|]. split; [|exact Hg].
  vm_compute in Hp. injection Hp as <-. exact Ht.
Defined.
